(* ===== verification/_CoqProject ===== *)
-Q . S2P
Prelude.v
Core.v
Sequence.v
SequenceOrder.v
SequenceInv.v
SequenceRefine.v
SequenceConv.v
SequenceProps.v
Oracle.v
Mark.v
MarkProps.v
Sync.v
SyncInv.v
SyncProps.v
OracleLogs.v
SequenceView.v
Table.v
TableProps.v
Diff.v
Text.v
MarkOps.v
Frontmatter.v
Codec.v
Draft.v
DraftProps.v
Block.v
Document.v
DocumentCache.v
DocumentTree.v
DocumentProps.v
SessionWire.v
TreeInv.v
Session.v
SessionTrace.v
SessionLocal.v
SessionClock.v
SessionRemote.v
DocumentTwin.v
SessionPull.v
Snapshot.v
SnapshotProps.v
SessionProps.v
SessionDoc.v
Storage.v
StorageProps.v
StorageLog.v
Match.v
MatchProps.v
Chars.v
Inline.v
Markdown.v
Serialize.v
ParseInv.v
ParseProps.v
TableTrip.v
RoundTrip.v
FlatTrip.v
FlatProps.v
Ingest.v
IngestProps.v
IngestQuiet.v
FlatIngest.v
Cursor.v
CursorProps.v
Descriptor.v
Pages.v
Outline.v
OutlineProps.v
Target.v
TargetProps.v
Projection.v
ProjectionProps.v
Batch.v
BatchProps.v
Journal.v
JournalProps.v
Vault.v
VaultProps.v
VaultDurable.v
Bugs.v
