(* ===== verification/Prelude.v ===== *)
(** * A verification of md-crdt

    md-crdt ([src/src/]) replicates Markdown documents.  Its parts, from the
    bottom up:

    - [core/mod.rs]: operation ids, state vectors, last-writer-wins registers
      and the replicated sequence (an RGA with tombstones, an index, and buffers
      for operations that arrive before their anchor or target);
    - [core/mark.rs], [doc/mark_ops.rs]: formatting intervals over stable
      anchors, with causal removal;
    - [sync/mod.rs], [sync/validation.rs]: the log of opaque operations that
      peers exchange, with its frontier, out-of-order buffer, outbox and
      checkpoints, and the validation of incoming messages;
    - [doc/text.rs], [doc/frontmatter.rs], [doc/mod.rs], [doc/source.rs]:
      paragraph text as a sequence of graphemes, the editable header, tables,
      the tree of blocks with its cached index, and the regions of the text a
      document was read from;
    - [doc/parser.rs], [doc/inline.rs], [doc/serialize.rs]: the Markdown parser,
      which builds a document with fresh ids and its source regions, inline marks
      both ways, and the printer of blocks;
    - [codec/wire.rs], [codec/mod.rs]: the envelope of an operation on the wire;
    - [filesync/diff.rs], [filesync/mod.rs]: the alignment that turns an edited
      file into insertions and deletions, and the matching of the blocks of an
      edited file with those of the document;
    - [filesync/session.rs]: reading a file into a session, by inserting the parsed
      blocks or by comparing them with the document level by level;
    - [session/wire.rs], [session/mod.rs], [session/snapshot.rs]: a session, which
      owns a document and a log, turns every edit into logged operations, decodes
      and orders the operations of peers, parks those whose target is not there
      yet, and can be written to and read from a snapshot;
    - [workspace.rs]: what a client sees of a document without loading it whole:
      block drafts, checked before they are inserted, digests and descriptors of
      blocks, cursors and pages, outlines and the summary of what changed between
      two of them, stable targets for edits, and projections of selected blocks;
    - [filesync/session.rs] again: batches of edits under preconditions, and the
      vault: open sessions with persistent identities and cached revisions, their
      saving, export, renaming and deletion through journaled transactions, and
      the recovery of interrupted ones;
    - [storage/mod.rs]: two snapshot slots and a log of operation segments on disk;
    - [md-crdt-naive-oracle]: the naive models the test-suite compares with.

    A session decodes envelopes, orders them through the log and applies them to
    the document; the document applies them to sequences, mark sets, tables and
    registers.  Storage keeps the bytes of snapshots and operations.  A file is
    parsed, matched with the document and turned into edits of the session; the
    document is printed from its source regions, or from its blocks.  A vault
    opens a session from storage, or from its file, edits it by batches and
    ingestion, saves it and exports it; its requests name the revision they are
    about, the digest of the document's content.

    ** Which file models what

    - [Prelude]: this header, machine integers, ordered iteration over maps
      (Rust's [BTreeMap]), orders, list lemmas.
    - [Core]: [OpId], [StateVector], [LwwRegister], [Map] ([core/mod.rs]), and
      the interface [OpCrdt] with its laws, against which convergence is proved
      once for every structure whose operations commute.
    - [Sequence]: the data and operations of [Sequence].  [SequenceOrder]: the
      order of a set of elements as a depth-first walk, and its uniqueness.
      [SequenceInv]: the representation invariant and the abstract machine
      [Rga] (a map of elements and two buffers).  [SequenceRefine]: the
      operations refine the machine.  [SequenceConv]: the machine depends on
      the set of delivered operations only.  [SequenceView]: what one operation
      does to what is visible.  [SequenceProps]: the claims.
    - [Oracle], [OracleLogs]: the naive sequence, log and mark set, and their
      agreement with the production code.
    - [Mark], [MarkProps], [MarkOps]: mark sets, rendering, range removal.
    - [Sync], [SyncInv], [SyncProps]: [SyncState] and [validate_changes].
    - [Table], [TableProps]: [Table] and its cells, rows and columns; the moves
      of both are one function over the interface [Placed].
    - [Text], [Frontmatter], [Diff], [Codec]: [text.rs], [frontmatter.rs],
      [diff.rs], [wire.rs] with [codec/mod.rs].
    - [Block]: the block types, the walks over the tree, the index, access along
      a path, and [source.rs].  [Document]: the operations of [Document].
      [DocumentCache]: every operation is a list of primitive changes.
      [DocumentTree]: the live blocks, lookup, edits along a path, the search for
      a container.  [DocumentProps]: the claims.  [DocumentTwin]: two documents
      that differ in their caches only stay so under the same operations.
    - [Draft]: the drafts of [workspace.rs].  [DraftProps]: which drafts are accepted.
      [TreeInv]: the typing invariant of a tree of blocks and that every document
      operation keeps it.  [SessionWire]: the wire form of every session payload
      and its conversions both ways.  [Session]: the operations of
      [CollaborativeDocument], in a state and error monad that mirrors the borrow
      of [&mut self].
    - [SessionTrace], [SessionLocal]: what a successful local operation leaves
      behind, for each one.  [SessionClock]: the counters it draws, and the claim
      about local operations.  [SessionRemote]: the apply path for operations of
      peers, with the deferred queue.  [SessionPull]: a peer that pulls what
      another has committed.
    - [Snapshot], [SnapshotProps]: the snapshot of a session, and what restoring
      one gives back.
    - [SessionProps]: which sessions are reachable, with the operations they have
      received and the ids they have drawn, and the claims on receiving and
      pulling.  [SessionDoc]: the documents of reachable sessions are typed, and
      saved sessions come back.
    - [Storage], [StorageProps], [StorageLog]: files as byte strings, the slots,
      recovery, operation segments and compaction, with the states a crash can
      leave between two writes.
    - [Match], [MatchProps]: fingerprints, similarity, scores and the greedy
      matching of blocks in [filesync/mod.rs].
    - [Chars]: the operations on [&str] that the parser uses, and UTF-8.
      [Inline]: [inline.rs].  [Markdown]: [parser.rs].  [Serialize]:
      [serialize.rs] and the serialisation of [Document].
    - [ParseInv]: the loops of the parser consume their input, the
      ids they draw are fresh, what they build is typed.  [ParseProps]: the claims
      on parsing.  [TableTrip], [RoundTrip], [FlatTrip]: what the printed form of
      each kind of plain block parses to.  [FlatProps]: the round trip.
    - [Ingest]: the ingestion of [filesync/session.rs], in a monad on top of that
      of sessions.  [IngestProps]: it is a trace of commits.  [IngestQuiet]: it
      makes no edit when nothing changed.  [FlatIngest]: export and ingestion
      together.
    - [Cursor], [CursorProps]: the digests and the cursor of [workspace.rs].
      [Descriptor], [Pages]: descriptors and their pages.  [Outline],
      [OutlineProps]: outlines and change summaries.  [Target], [TargetProps]:
      points, ranges and preconditions.  [Projection], [ProjectionProps]:
      projections.
    - [Batch], [BatchProps]: edit batches.
    - [Journal]: file names, actions on files, journals, their publication and
      recovery.  [JournalProps]: a small logic for programs that may crash.
      [Vault]: [VaultSession] and the files of a vault.  [VaultProps]: its
      invariant.  [VaultDurable]: what survives a crash.
    - [Bugs]: concrete runs of sessions, ingestion and vaults, a module for each,
      that lose an edit, repeat an identity or block a vault.

    State is passed explicitly.  [Result] is a sum, [Option] an option; a panic
    is [None] where one is possible.  [u64] values are [N] with the wrapping,
    saturating or checked operation the code uses written out.  Maps and sets
    are [gmap] and [gset], iterated in key order where the code iterates a
    [BTreeMap].  Strings that are indexed by bytes are lists of scalar values
    with byte lengths ([Frontmatter], source regions, the parser) or byte strings
    ([Text]); [chars] and [utf8] convert between them.
    The build feature [sequence_incremental] is a boolean parameter and the
    claims hold for both values.

    ** What the theorems show

    - Sequences: replicas converge under reordering and repetition; what is shown
      is a function of the delivered operations; the optimised placement equals
      a full rebuild; draining the buffers terminates; the concrete state refines
      the abstract machine; a snapshot restores the state; where local inserts
      land, and where they do not.
    - Log: convergence, denotation, the invariant of every reachable state, delta
      exchange brings a peer up to date, checkpoints never strand a leased peer,
      promotion drains the buffer, every error branch is exact.
    - Marks: convergence, causal removal, spans are the maximal runs of equal
      marks, range removal; a removal outside a mark extends it.
    - Tables and text: moves keep identity, early moves commute with inserts,
      cell writes converge when observation agrees with ids and can diverge
      otherwise; inserted text stays together and in order.
    - Documents: lookup through the cached index equals a search of the tree, the
      cache stays coherent through every operation, an edit touches one block,
      insertion reaches the container or reports that it is missing; an edit of
      a moved block is missing from the rendered text.
    - Frontmatter, diff, codec: convergence of fields, the panic of the parser,
      the alignment is an edit script and a longest one, the depth limit is exact.
    - Sessions: a local operation either fails without a trace or logs exactly the
      operations it applied, with consecutive fresh ids.  In every reachable
      session, restorations included, an own id is below the clock or was brought
      by a message.  A rejected message changes nothing; an accepted one is
      integrated whole, each operation logged or buffered and each envelope
      applied once or waiting, if the history is undisputed: no message brought
      an id that the session also drew.  Draining the deferred operations
      terminates.  A peer that has seen the same operations and pulls holds the
      same content.  If the messages were well formed, the document stays a
      typed tree: every sequence in it, those of nested and of buffered blocks
      included, satisfies the invariant of sequences; and a snapshot restores all
      of the session but the marks of the outbox and the envelopes of buffered
      operations, or reports that the clock is behind.  Runs that lose or repeat
      data are exhibited, among them one for each of these conditions.
    - Drafts: validation accepts exactly the drafts within the limits.
    - Matching: every old and every new block is accounted for once, the choice is
      stable with respect to the scores, and an unchanged file
      matches every block with itself.
    - Markdown: the parser returns on every text whose frontmatter parses and
      builds a typed document; printing that document before any edit gives the
      text back; tables, fences, raw blocks and unmarked headings and paragraphs
      of the form in which they are read survive printing and parsing.
    - Files: reading any file into a session commits operations only, so that
      peers in step who pull get the same blocks; a file that says what the document says
      makes no edit, and neither does the printed form of a plain document.  Three
      kinds of edits that are lost are exhibited.
    - Storage: after a crash in the middle of a snapshot write, the last complete
      snapshot is recovered; recovery picks the newest valid slot; a segment is
      read back exactly; appended operations are all loaded; two crash windows
      that lose data are exhibited.
    - Workspace: a client that follows the pages reads every child once; a
      cursor damaged in one byte is refused; a text range keeps selecting its own
      units; a summary reports the explicitly moved blocks as moved, or else as few
      siblings as possible, and it is empty exactly if no block was moved explicitly
      and the documents have the same nodes, described by sizes, counts and
      digests, in the same places; a projection page answers the next requests
      within its limits.
    - Batches: a batch is accepted exactly when its preconditions hold, leaves
      the live session as it was, and what it prepares reaches the peers.
    - Vault: in every reachable state a cached revision is that of the open
      session; a request about another revision is refused; after a crash while a
      session is saved, the document opens as before or as the saved session, or
      reports a clock that is behind; an export of several
      documents is all or nothing, recoveries included.  Five runs that block
      the vault, or separate a document from its session, are exhibited.
    - Oracles: production code and naive models agree.

    ** Bounds and fuel

    Loops and recursions without a structural argument carry fuel, and each bound
    is proved sufficient: [walk_children] the number of elements (an order has
    no cycle), [drain] the square of the number of buffered operations plus one,
    [descendant_loop] the number of elements, [promote_loop] one pass more than
    the buffer has operations, [spans_loop] and [run_end] the visible length,
    [backtrack] the sum of the two lengths, [container_walk] the height of the
    tree plus one, [drain_deferred] two passes, [display] the binary logarithm
    plus one.  In the parser, [fragment_loop] has one round per character and one
    more, [parse_list] and its companions the size of the
    lines ([list_fuel]), [parse_blocks] one round per character and line
    ([block_fuel]); the text must be shorter than a third of 2^64 bytes, so that
    the counter of ids does not overflow.  A client needs at most one page
    more than the children are many ([read_pages]) and [walk_back] one step per
    item; the 64 rounds of [stabilize_loop] are the code's own.  Fingerprints
    are within the range of
    the scores up to 429496 words ([small]).  Counters of logged operations are assumed positive and below the
    maximal [u64], as the validation and the allocation of ids ensure.  The
    modification counters of a document wrap: the results on pulling a history
    ask that fewer than 2^64 edits separate two lookups ([room]).

    ** External code

    Grapheme segmentation ([unicode_segmentation]) and JSON ([serde_json]) are
    parameters of the definitions that use them, with the documented facts that
    are used as hypotheses: the graphemes of a text are not empty and their
    concatenation is the text.  The [Debug] form of an optional string is a
    parameter of the matching, and the order in which a hash set is iterated one
    of the ingestion.  The printer of blocks is a parameter of the rendering of
    source regions, instantiated by the printer of [Serialize].

    The JSON and binary encoders, the reading of uuids and UTF-8, and the orders
    in which directories and hash maps are iterated are the fields of the record
    [External] of [Vault]; a theorem that needs a round trip of an encoder says
    so, and its witness instantiates the record ([durable_external]).  Fresh uuids
    are drawn from a stream.  Files are maps from paths to bytes.  An operation
    performs a list of actions, and a crash stops it between two of them or
    inside one: a rename is atomic, a file that is being written may hold
    anything, synchronised writes reach the disk in order, and the removal of a
    storage directory counts as one action.

    ** Not modelled

    The command line, the foreign function interface and the benchmarks: input
    and output, bindings and measurements, without a state of their own.  Plain
    directories (the check that the root exists, the directories that are created
    on the way to a file), errors of the operating system other than a missing or
    an existing file, and other processes that write in the middle of one
    operation: between operations they may do anything to the files.  *)

From stdpp Require Export numbers strings sorting tactics option gmap list.

(** ** Machine integers

    Counters and peer ids are Rust [u64] values, kept here as [N] together with
    the explicit arithmetic the code performs on them. *)

Definition u64_max : N := 18446744073709551615.
Definition u64_modulus : N := 18446744073709551616.

(** [a + b] of the release profile (no overflow checks): wraps modulo 2^64. *)
Definition u64_wrapping_add (a b : N) : N := ((a + b) `mod` u64_modulus)%N.
(** [u64::saturating_add]. *)
Definition u64_saturating_add (a b : N) : N := N.min (a + b) u64_max.
(** [u64::saturating_sub]. *)
Definition u64_saturating_sub (a b : N) : N := (a - b)%N.
(** [u64::checked_add]. *)
Definition u64_checked_add (a b : N) : option N :=
  if decide (a + b ≤ u64_max)%N then Some (a + b)%N else None.

(** ** Rust's [Ord]: a three-way comparison with the laws of a total order *)

Class Ord (A : Type) := ocmp : A → A → comparison.
Global Hint Mode Ord ! : typeclass_instances.

Class OrdLaws (A : Type) `{!Ord A} : Prop := {
  ocmp_eq (x y : A) : ocmp x y = Eq ↔ x = y;
  ocmp_antisym (x y : A) : ocmp y x = CompOpp (ocmp x y);
  ocmp_lt_trans (x y z : A) : ocmp x y = Lt → ocmp y z = Lt → ocmp x z = Lt;
}.

(** [a.cmp(b).is_lt()], [a >= b] and [a <= b] as booleans. *)
Definition ord_ltb `{Ord A} (x y : A) : bool :=
  match ocmp x y with Lt => true | _ => false end.
Definition ord_geb `{Ord A} (x y : A) : bool :=
  match ocmp x y with Lt => false | _ => true end.
Definition ord_le `{Ord A} (x y : A) : Prop := ocmp x y ≠ Gt.
Definition ord_lt `{Ord A} (x y : A) : Prop := ocmp x y = Lt.

#[export] Instance ord_le_dec `{Ord A} : RelDecision (ord_le (A:=A)).
Proof. intros x y. unfold ord_le. solve_decision. Defined.
#[export] Instance ord_lt_dec `{Ord A} : RelDecision (ord_lt (A:=A)).
Proof. intros x y. unfold ord_lt. solve_decision. Defined.

#[export] Instance N_ord : Ord N := N.compare.
#[export] Instance string_ord : Ord string := String.compare.

(** [Ordering::then]. *)
Definition cmp_then (c d : comparison) : comparison :=
  match c with Eq => d | _ => c end.

(** Derived [Ord] of a struct with two fields: lexicographic on the projections. *)
Definition lexico_cmp `{!Ord A, !Ord B} {C} (f : C → A) (g : C → B) (x y : C) : comparison :=
  cmp_then (ocmp (f x) (f y)) (ocmp (g x) (g y)).

(** Derived [Ord] of [Option<A>]: [None] before [Some]. *)
#[export] Instance option_ord `{Ord A} : Ord (option A) := λ x y,
  match x, y with
  | None, None => Eq
  | None, Some _ => Lt
  | Some _, None => Gt
  | Some a, Some b => ocmp a b
  end.

(** ** [BTreeMap]: a finite map whose iteration follows the key order *)

Section btree.
Context `{Countable K, !Ord K} {V : Type}.

Definition entry_le (x y : K * V) : Prop := ord_le x.1 y.1.
#[export] Instance entry_le_dec : RelDecision entry_le.
Proof. intros x y. unfold entry_le. apply _. Defined.

(** [BTreeMap::iter], [keys] and [values]. *)
Definition btree_iter (m : gmap K V) : list (K * V) :=
  merge_sort entry_le (map_to_list m).
Definition btree_keys (m : gmap K V) : list K := (btree_iter m).*1.
Definition btree_values (m : gmap K V) : list V := (btree_iter m).*2.

(** [iter().collect::<BTreeMap<_, _>>()]: a later entry replaces an earlier one. *)
Definition btree_collect (l : list (K * V)) : gmap K V :=
  fold_left (λ m kv, <[kv.1 := kv.2]> m) l ∅.
End btree.

(** [entry(k).or_default().push(v)] on a map of vectors. *)
Definition btree_push `{Countable K} {V} (k : K) (v : V) (m : gmap K (list V)) :
    gmap K (list V) :=
  <[k := default [] (m !! k) ++ [v]]> m.

(** [BTreeSet] iterated in order. *)
Definition btree_set_iter `{Countable K, !Ord K} (s : gset K) : list K :=
  merge_sort ord_le (elements s).

(** [Vec::insert(i, x)] for [i <= len]. *)
Definition vec_insert {A} (i : nat) (x : A) (l : list A) : list A :=
  take i l ++ x :: drop i l.

(** [iter().position(p)]. *)
Fixpoint position {A} (p : A → bool) (l : list A) : option nat :=
  match l with
  | [] => None
  | x :: l => if p x then Some 0 else S <$> position p l
  end.

(** ** Automation *)

Create HintDb md_crdt.

(** Splits the boolean and three-way comparisons of the model and closes what
    linear arithmetic closes. *)
Ltac split_cmp :=
  repeat match goal with
  | |- context [match ocmp ?x ?y with _ => _ end] => destruct (ocmp x y) eqn:?
  | H : context [match ocmp ?x ?y with _ => _ end] |- _ => destruct (ocmp x y) eqn:?
  end.

(** ** Laws of the orders *)

Section ord_laws.
Context `{!Ord A, !OrdLaws A}.
Implicit Types x y z : A.

Lemma ocmp_refl x : ocmp x x = Eq.
Proof. by apply ocmp_eq. Qed.

Lemma ocmp_gt_lt x y : ocmp x y = Gt ↔ ocmp y x = Lt.
Proof. rewrite (ocmp_antisym x y). by destruct (ocmp x y). Qed.

#[export] Instance ord_lt_trans : Transitive (ord_lt (A:=A)).
Proof. intros x y z. apply ocmp_lt_trans. Qed.
#[export] Instance ord_lt_irrefl : Irreflexive (ord_lt (A:=A)).
Proof. intros x. unfold complement, ord_lt. by rewrite ocmp_refl. Qed.

Lemma ord_lt_le x y : ord_lt x y → ord_le x y.
Proof. unfold ord_lt, ord_le. congruence. Qed.

Lemma ord_le_lt_eq x y : ord_le x y ↔ ord_lt x y ∨ x = y.
Proof.
  unfold ord_lt, ord_le. rewrite <-ocmp_eq. destruct (ocmp x y); naive_solver.
Qed.

Lemma ord_lt_neq x y : ord_lt x y → x ≠ y.
Proof. intros Hlt ->. by apply (irreflexivity ord_lt y). Qed.

Lemma ord_not_lt x y : ¬ ord_lt x y ↔ ord_le y x.
Proof.
  unfold ord_lt, ord_le. rewrite (ocmp_antisym x y).
  destruct (ocmp x y); naive_solver.
Qed.

Lemma ord_lt_total x y : ord_lt x y ∨ x = y ∨ ord_lt y x.
Proof.
  unfold ord_lt. destruct (ocmp x y) eqn:E.
  - right; left. by apply ocmp_eq.
  - by left.
  - right; right. by apply ocmp_gt_lt.
Qed.

#[export] Instance ord_le_trans : Transitive (ord_le (A:=A)).
Proof.
  intros x y z. rewrite !ord_le_lt_eq.
  intros [?| ->] [?| ->]; eauto. left. by etrans.
Qed.
#[export] Instance ord_le_refl : Reflexive (ord_le (A:=A)).
Proof. intros x. rewrite ord_le_lt_eq. by right. Qed.
#[export] Instance ord_le_antisym : AntiSymm (=) (ord_le (A:=A)).
Proof.
  intros x y. rewrite !ord_le_lt_eq. intros [?| ->] [?|?]; try done.
  exfalso. apply (irreflexivity ord_lt x). by etrans.
Qed.
#[export] Instance ord_le_total : Total (ord_le (A:=A)).
Proof.
  intros x y. rewrite !ord_le_lt_eq. destruct (ord_lt_total x y); naive_solver.
Qed.

Lemma ord_geb_le x y : ord_geb x y = true ↔ ord_le y x.
Proof.
  unfold ord_geb, ord_le. rewrite (ocmp_antisym x y).
  destruct (ocmp x y); naive_solver.
Qed.
Lemma ord_geb_lt x y : ord_geb x y = false ↔ ord_lt x y.
Proof. unfold ord_geb, ord_lt. destruct (ocmp x y); naive_solver. Qed.
Lemma ord_ltb_lt x y : ord_ltb x y = true ↔ ord_lt x y.
Proof. unfold ord_ltb, ord_lt. destruct (ocmp x y); naive_solver. Qed.
Lemma ord_geb_refl x : ord_geb x x = true.
Proof. apply ord_geb_le. reflexivity. Qed.
End ord_laws.

#[export] Instance N_ord_laws : OrdLaws N.
Proof.
  split; unfold ocmp, N_ord.
  - apply N.compare_eq_iff.
  - intros x y. apply N.compare_antisym.
  - intros x y z. rewrite !N.compare_lt_iff. lia.
Qed.

Lemma ascii_compare_trans a b c :
  Ascii.compare a b = Lt → Ascii.compare b c = Lt → Ascii.compare a c = Lt.
Proof. unfold Ascii.compare. rewrite !N.compare_lt_iff. lia. Qed.

#[export] Instance string_ord_laws : OrdLaws string.
Proof.
  split; unfold ocmp, string_ord.
  - intros x y. split; [apply String.compare_eq_iff|intros ->].
    pose proof (String.compare_antisym y y). by destruct (y ?= y)%string.
  - intros x y. apply String.compare_antisym.
  - intros x. induction x as [|a x IH]; intros [|b y] [|c z]; cbn; try done.
    destruct (Ascii.compare a b) eqn:E1; try done;
      destruct (Ascii.compare b c) eqn:E2; try done; intros H1 H2.
    + apply Ascii.compare_eq_iff in E1 as ->. rewrite E2. eauto.
    + apply Ascii.compare_eq_iff in E1 as ->. by rewrite E2.
    + apply Ascii.compare_eq_iff in E2 as ->. by rewrite E1.
    + by rewrite (ascii_compare_trans _ _ _ E1 E2).
Qed.

#[export] Instance option_ord_laws `{!Ord A, !OrdLaws A} : OrdLaws (option A).
Proof.
  split; unfold ocmp at 1, option_ord.
  - intros [x|] [y|]; rewrite ?ocmp_eq; naive_solver.
  - intros [x|] [y|]; unfold ocmp, option_ord; try done. apply ocmp_antisym.
  - intros [x|] [y|] [z|]; unfold ocmp, option_ord; try done. apply ocmp_lt_trans.
Qed.

Section lexico.
Context `{!Ord A, !OrdLaws A, !Ord B, !OrdLaws B} {C : Type} (f : C → A) (g : C → B).
Hypothesis Hinj : ∀ x y, f x = f y → g x = g y → x = y.

Lemma lexico_cmp_eq x y : lexico_cmp f g x y = Eq ↔ x = y.
Proof.
  unfold lexico_cmp, cmp_then. split.
  - destruct (ocmp (f x) (f y)) eqn:E; try done. intros E2.
    apply Hinj; by apply ocmp_eq.
  - intros ->. by rewrite !ocmp_refl.
Qed.
Lemma lexico_cmp_antisym x y : lexico_cmp f g y x = CompOpp (lexico_cmp f g x y).
Proof.
  unfold lexico_cmp. rewrite (ocmp_antisym (f x)), (ocmp_antisym (g x)).
  by destruct (ocmp (f x) (f y)).
Qed.
Lemma lexico_cmp_trans x y z :
  lexico_cmp f g x y = Lt → lexico_cmp f g y z = Lt → lexico_cmp f g x z = Lt.
Proof.
  unfold lexico_cmp, cmp_then.
  destruct (ocmp (f x) (f y)) eqn:E1; try done;
    destruct (ocmp (f y) (f z)) eqn:E2; try done; intros H1 H2.
  - apply ocmp_eq in E1 as ->. rewrite E2. by eapply ocmp_lt_trans.
  - apply ocmp_eq in E1 as ->. by rewrite E2.
  - apply ocmp_eq in E2 as <-. by rewrite E1.
  - by rewrite (ocmp_lt_trans _ _ _ E1 E2).
Qed.
Lemma lexico_ord_laws : @OrdLaws C (lexico_cmp f g).
Proof.
  split; [apply lexico_cmp_eq|apply lexico_cmp_antisym|apply lexico_cmp_trans].
Qed.
End lexico.

(** ** Ordered iteration *)

Lemma StronglySorted_sublist {A} (R : relation A) (l k : list A) :
  l `sublist_of` k → StronglySorted R k → StronglySorted R l.
Proof.
  induction 1 as [|x l k Hs IH|x l k Hs IH]; intros Hk; [constructor|..].
  - apply StronglySorted_cons in Hk as [Hx Hk]. constructor; [auto|].
    rewrite Forall_forall in Hx |- *. intros y Hy. apply Hx. by eapply elem_of_sublist.
  - apply StronglySorted_cons in Hk as [_ Hk]. auto.
Qed.

Lemma sublist_fmap {A B} (f : A → B) (l k : list A) :
  l `sublist_of` k → f <$> l `sublist_of` f <$> k.
Proof. induction 1; rewrite ?fmap_cons; by constructor. Qed.

Lemma filter_all {A} (P : A → Prop) `{!∀ x, Decision (P x)} (l : list A) :
  Forall P l → filter P l = l.
Proof.
  induction 1 as [|x l Hx Hl IH]; [done|]. rewrite filter_cons, decide_True by done. by rewrite IH.
Qed.

Section btree_lemmas.
Context `{Countable K, !Ord K, !OrdLaws K} {V : Type}.
Implicit Types m : gmap K V.

#[local] Instance entry_le_trans : Transitive (entry_le (K:=K) (V:=V)).
Proof. intros x y z. unfold entry_le. apply transitivity. Qed.
#[local] Instance entry_le_total : Total (entry_le (K:=K) (V:=V)).
Proof. intros x y. unfold entry_le. apply (total ord_le). Qed.

Lemma btree_iter_perm m : btree_iter m ≡ₚ map_to_list m.
Proof. apply merge_sort_Permutation. Qed.

Lemma elem_of_btree_iter m k v : (k, v) ∈ btree_iter m ↔ m !! k = Some v.
Proof. rewrite btree_iter_perm. apply elem_of_map_to_list. Qed.

Lemma elem_of_btree_keys m k : k ∈ btree_keys m ↔ is_Some (m !! k).
Proof.
  unfold btree_keys. rewrite list_elem_of_fmap. split.
  - intros ([k' v] & -> & Hin). apply elem_of_btree_iter in Hin. by eexists.
  - intros [v Hv]. exists (k, v). by rewrite elem_of_btree_iter.
Qed.

Lemma elem_of_btree_values m v : v ∈ btree_values m ↔ ∃ k, m !! k = Some v.
Proof.
  unfold btree_values. rewrite list_elem_of_fmap. split.
  - intros ([k' v'] & -> & Hin). apply elem_of_btree_iter in Hin. by eexists.
  - intros [k Hv]. exists (k, v). by rewrite elem_of_btree_iter.
Qed.

Lemma btree_keys_perm m : btree_keys m ≡ₚ (map_to_list m).*1.
Proof. unfold btree_keys. by rewrite btree_iter_perm. Qed.

Lemma NoDup_btree_keys m : NoDup (btree_keys m).
Proof. rewrite btree_keys_perm. apply NoDup_fst_map_to_list. Qed.

Lemma length_btree_keys m : length (btree_keys m) = size m.
Proof. by rewrite btree_keys_perm, length_fmap, length_map_to_list. Qed.

Lemma length_btree_iter m : length (btree_iter m) = size m.
Proof. by rewrite btree_iter_perm, length_map_to_list. Qed.

Lemma btree_keys_sorted m : StronglySorted ord_le (btree_keys m).
Proof.
  unfold btree_keys, btree_iter.
  eapply (StronglySorted_fmap fst entry_le); [done|].
  apply (StronglySorted_merge_sort entry_le).
Qed.

Lemma btree_iter_collect m : list_to_map (btree_iter m) = m.
Proof.
  rewrite (list_to_map_proper _ (map_to_list m)).
  - apply list_to_map_to_list.
  - apply NoDup_btree_keys.
  - apply btree_iter_perm.
Qed.

Lemma btree_iter_sorted m : StronglySorted entry_le (btree_iter m).
Proof. apply (StronglySorted_merge_sort entry_le). Qed.

(** Filtered iterations agree when the maps agree on what passes the filter. *)
Lemma btree_iter_filter_ext (P : K * V → Prop) `{!∀ x, Decision (P x)} m1 m2 :
  (∀ k v, P (k, v) → m1 !! k = Some v ↔ m2 !! k = Some v) →
  filter P (btree_iter m1) = filter P (btree_iter m2).
Proof.
  intros Hm.
  assert (Hin : ∀ m k v, (k, v) ∈ filter P (btree_iter m) ↔ P (k, v) ∧ m !! k = Some v).
  { intros m k v. by rewrite list_elem_of_filter, elem_of_btree_iter. }
  assert (Hnd : ∀ m, NoDup (filter P (btree_iter m))).
  { intros m. apply NoDup_filter, (NoDup_fmap_1 fst), NoDup_btree_keys. }
  apply (StronglySorted_unique_strong entry_le).
  - intros [k1 v1] [k2 v2] [HP1 H1]%Hin [HP2 H2]%Hin Hle Hge.
    assert (k1 = k2) as <- by by apply (anti_symm ord_le).
    apply Hm in H1; [|done]. f_equal. congruence.
  - eapply StronglySorted_sublist; [apply sublist_filter|apply btree_iter_sorted].
  - eapply StronglySorted_sublist; [apply sublist_filter|apply btree_iter_sorted].
  - apply NoDup_Permutation; [done..|]. intros [k v]. rewrite !Hin. naive_solver.
Qed.
End btree_lemmas.

Section collect_lemmas.
Context `{Countable K} {V : Type}.
Implicit Types l : list (K * V).

Lemma btree_collect_snoc l kv :
  btree_collect (l ++ [kv]) = <[kv.1 := kv.2]> (btree_collect l).
Proof. unfold btree_collect. by rewrite fold_left_app. Qed.

Lemma btree_collect_elem l k v : btree_collect l !! k = Some v → (k, v) ∈ l.
Proof.
  induction l as [|[k' v'] l IH] using rev_ind.
  { intros Hl. exfalso. exact (lookup_empty_Some k v Hl). }
  rewrite btree_collect_snoc, lookup_insert. simpl. case_decide; [|set_solver].
  intros; simplify_eq. set_solver.
Qed.

Lemma btree_collect_lookup l k v :
  NoDup l.*1 → btree_collect l !! k = Some v ↔ (k, v) ∈ l.
Proof.
  intros Hnd. split; [apply btree_collect_elem|].
  induction l as [|[k' v'] l IH] using rev_ind; [set_solver|].
  rewrite fmap_app in Hnd. apply NoDup_app in Hnd as (Hnd & Hd & _).
  rewrite btree_collect_snoc, lookup_insert. simpl. intros Hin.
  apply elem_of_app in Hin as [Hin|Hin%list_elem_of_singleton]; case_decide as Hk.
  - subst k'. destruct (Hd k); [|set_solver]. apply list_elem_of_fmap. by exists (k, v).
  - auto.
  - by simplify_eq.
  - by simplify_eq.
Qed.

Lemma btree_collect_None l k : btree_collect l !! k = None ↔ k ∉ l.*1.
Proof.
  induction l as [|[k' v'] l IH] using rev_ind.
  { split; [set_solver|]. intros _. apply lookup_empty. }
  rewrite btree_collect_snoc, lookup_insert_None, IH, fmap_app. set_solver.
Qed.
Lemma fold_insert_union l (m : gmap K V) :
  fold_left (λ m kv, <[kv.1 := kv.2]> m) l m = btree_collect l ∪ m.
Proof.
  induction l as [|kv l IH] using rev_ind.
  { symmetry. exact (left_id_L ∅ (∪) m). }
  rewrite fold_left_app, btree_collect_snoc. simpl. by rewrite IH, insert_union_l.
Qed.
End collect_lemmas.

(** ** List lemmas *)

Lemma position_None {A} (p : A → bool) (l : list A) :
  position p l = None ↔ ∀ x, x ∈ l → p x = false.
Proof.
  induction l as [|x l IH]; simpl; [set_solver|].
  destruct (p x) eqn:E.
  - split; [done|]. intros Hall. rewrite Hall in E; set_solver.
  - rewrite fmap_None, IH. set_solver.
Qed.

(** The first match is at [length u] when nothing in [u] matches. *)
Lemma position_app {A} (p : A → bool) (u v : list A) x :
  (∀ y, y ∈ u → p y = false) → p x = true → position p (u ++ x :: v) = Some (length u).
Proof.
  induction u as [|y u IH]; intros Hu Hx; simpl; [by rewrite Hx|].
  rewrite (Hu y) by set_solver. rewrite IH; [done|set_solver|done].
Qed.

Lemma vec_insert_app {A} (x : A) (u v : list A) :
  vec_insert (length u) x (u ++ v) = u ++ x :: v.
Proof. unfold vec_insert. by rewrite take_app_length, drop_app_length. Qed.

(** Two duplicate-free lists with the same members have the same length. *)
(** In a list without duplicates an element splits the list in one way. *)
Lemma NoDup_split_unique {A} (u u' : list A) (x : A) (v v' : list A) :
  u ++ x :: v = u' ++ x :: v' → NoDup (u ++ x :: v) → u = u' ∧ v = v'.
Proof.
  intros Heq Hnd.
  assert (Hlen : length u = length u').
  { eapply NoDup_lookup; [exact Hnd|by apply list_lookup_middle|].
    rewrite Heq. by apply list_lookup_middle. }
  apply app_inj_1 in Heq as [-> [= ->]]; done.
Qed.

Lemma NoDup_same_length {A} (l1 l2 : list A) :
  NoDup l1 → NoDup l2 → (∀ x, x ∈ l1 ↔ x ∈ l2) → length l1 = length l2.
Proof. intros. by apply Permutation_length, NoDup_Permutation. Qed.

Lemma NoDup_fmap_inj_on {A B} (f : A → B) (l : list A) x y :
  NoDup (f <$> l) → x ∈ l → y ∈ l → f x = f y → x = y.
Proof.
  intros Hnd (i & Hi)%list_elem_of_lookup (j & Hj)%list_elem_of_lookup Hf.
  assert (i = j) as ->; [|congruence].
  eapply NoDup_lookup; [done|by rewrite list_lookup_fmap, Hi|by rewrite list_lookup_fmap, Hj, Hf].
Qed.

Lemma fold_left_fmap {A B C} (f : C → B → C) (g : A → B) (l : list A) (c : C) :
  fold_left f (g <$> l) c = fold_left (λ c x, f c (g x)) l c.
Proof. revert c. induction l as [|x l IH]; intros c; simpl; auto. Qed.
