(* ===== verification/Core.v ===== *)
(** * Core value types: operation ids, state vectors, LWW registers and maps

    Models [OpId], [StateVector], [LwwRegister] and [Map] of
    [src/src/core/mod.rs], and the interface [OpCrdt] that the
    operation-based structures of the crate share: which pairs of operations
    may meet in a history, and that such pairs commute.  The generic
    convergence lemmas are proved once against the interface. *)

From S2P Require Import Prelude.

(** ** Operation ids *)

(** [PeerId] is [u64]. *)
Abbreviation PeerId := N (only parsing).

(** [OpId]: a Lamport counter and the peer that issued it. *)
Record OpId := mkOpId { counter : N; peer : PeerId }.

#[export] Instance OpId_eq_dec : EqDecision OpId.
Proof. solve_decision. Defined.
#[export] Instance OpId_countable : Countable OpId.
Proof.
  apply (inj_countable' (λ o, (counter o, peer o)) (λ p, mkOpId p.1 p.2)).
  by intros [].
Defined.

(** The derived [Ord] of [OpId]: by counter, then by peer. *)
#[export] Instance OpId_ord : Ord OpId := lexico_cmp counter peer.
#[export] Instance OpId_ord_laws : OrdLaws OpId.
Proof. apply lexico_ord_laws. intros [] []; simpl; by intros -> ->. Qed.

(** ** State vectors *)

(** [StateVector]: per peer, the highest counter seen. *)
Record StateVector := mkStateVector { peers : gmap PeerId N }.

#[export] Instance StateVector_eq_dec : EqDecision StateVector.
Proof. solve_decision. Defined.

Module StateVectorOps.
(** [StateVector::new], [is_empty], [get], [set] and [iter]. *)
Definition new : StateVector := mkStateVector ∅.
Definition is_empty (sv : StateVector) : bool := bool_decide (peers sv = ∅).
Definition get (sv : StateVector) (p : PeerId) : option N := peers sv !! p.
Definition set (sv : StateVector) (p : PeerId) (c : N) : StateVector :=
  mkStateVector (<[p := c]> (peers sv)).
Definition iter (sv : StateVector) : list (PeerId * N) := btree_iter (peers sv).
End StateVectorOps.

(** [sv.get(p).unwrap_or(0)], the form every client uses. *)
Definition sv_seen (sv : StateVector) (p : PeerId) : N :=
  default 0%N (StateVectorOps.get sv p).

(** The vector has seen [id]. *)
Definition sv_covers (sv : StateVector) (id : OpId) : Prop :=
  (counter id ≤ sv_seen sv (peer id))%N.

(** Pointwise order on what two vectors have seen. *)
Definition sv_le (a b : StateVector) : Prop := ∀ p, (sv_seen a p ≤ sv_seen b p)%N.

(** ** Last-writer-wins registers *)

Record LwwRegister (A : Type) := mkLww { lww_value : A; lww_op_id : OpId }.
Arguments mkLww {_} _ _.
Arguments lww_value {_} _.
Arguments lww_op_id {_} _.

#[export] Instance LwwRegister_eq_dec `{EqDecision A} : EqDecision (LwwRegister A).
Proof. solve_decision. Defined.

Module Lww.
Section lww.
Context {A : Type}.
(** [LwwRegister::new], [set], [get] and [op_id]. *)
Definition new (value : A) (op_id : OpId) : LwwRegister A := mkLww value op_id.
Definition set (r : LwwRegister A) (value : A) (op_id : OpId) : LwwRegister A :=
  if ord_geb op_id (lww_op_id r) then mkLww value op_id else r.
Definition get (r : LwwRegister A) : A := lww_value r.
Definition op_id (r : LwwRegister A) : OpId := lww_op_id r.
End lww.
End Lww.

(** ** LWW maps *)

Record LwwMap (K V : Type) `{Countable K} := mkLwwMap { entries : gmap K (LwwRegister V) }.
Arguments mkLwwMap {_ _ _ _} _.
Arguments entries {_ _ _ _} _.

(** [entry(k).and_modify(|r| r.set(v, op)).or_insert_with(|| new(v, op))]: the
    upsert used by [Map::set] and by the attributes of mark intervals. *)
Definition lww_upsert `{Countable K} {V} (k : K) (v : V) (op : OpId)
    (m : gmap K (LwwRegister V)) : gmap K (LwwRegister V) :=
  <[k := match m !! k with
         | Some r => Lww.set r v op
         | None => Lww.new v op
         end]> m.

Module Map.
Section map.
Context {K V : Type} `{Countable K}.
(** [Map::new], [set], [get] and [get_cloned]. *)
Definition new : LwwMap K V := mkLwwMap ∅.
Definition set (m : LwwMap K V) (k : K) (v : V) (op : OpId) : LwwMap K V :=
  mkLwwMap (lww_upsert k v op (entries m)).
Definition get (m : LwwMap K V) (k : K) : option V := lww_value <$> entries m !! k.
Definition get_cloned (m : LwwMap K V) (k : K) : option V := Lww.get <$> entries m !! k.
End map.
End Map.

(** ** The interface of operation-based structures *)

(** [crdt_step s o] is the state after integrating operation [o].
    [crdt_compat a b] says that [a] and [b] may occur in one history: in this
    crate, that two different operations never carry the same operation id. *)
Class OpCrdt (St Op : Type) := {
  crdt_step : St → Op → St;
  crdt_compat : relation Op;
}.
Class OpCrdtLaws (St Op : Type) `{!OpCrdt St Op} : Prop := {
  crdt_compat_sym :: Symmetric crdt_compat;
  crdt_comm (s : St) (a b : Op) :
    crdt_compat a b → crdt_step (crdt_step s a) b = crdt_step (crdt_step s b) a;
  crdt_idemp (s : St) (a : Op) : crdt_step (crdt_step s a) a = crdt_step s a;
}.

Definition crdt_run `{!OpCrdt St Op} (s : St) (l : list Op) : St := fold_left crdt_step l s.
Arguments crdt_run : simpl never.

(** Every two operations of a history are compatible. *)
Definition crdt_history `{!OpCrdt St Op} (l : list Op) : Prop :=
  ∀ a b, a ∈ l → b ∈ l → crdt_compat a b.

(** A register write. *)
Record LwwWrite (A : Type) := mkWrite { write_value : A; write_op : OpId }.
Arguments mkWrite {_} _ _.
Arguments write_value {_} _.
Arguments write_op {_} _.

#[export] Instance LwwWrite_eq_dec `{EqDecision A} : EqDecision (LwwWrite A).
Proof. solve_decision. Defined.

#[export] Instance lww_crdt {A} : OpCrdt (LwwRegister A) (LwwWrite A) := {
  crdt_step r w := Lww.set r (write_value w) (write_op w);
  crdt_compat a b := write_op a = write_op b → a = b;
}.

(** A map write. *)
#[export] Instance map_crdt {K V} `{Countable K} :
    OpCrdt (LwwMap K V) (K * LwwWrite V) := {
  crdt_step m w := Map.set m w.1 (write_value w.2) (write_op w.2);
  crdt_compat a b := a.1 = b.1 → write_op a.2 = write_op b.2 → a = b;
}.

(** ** Generic convergence *)

Section generic.
Context `{!OpCrdt St Op, !OpCrdtLaws St Op}.
Implicit Types l : list Op.

Lemma crdt_history_sub l l' : (∀ a, a ∈ l' → a ∈ l) → crdt_history l → crdt_history l'.
Proof. unfold crdt_history. eauto. Qed.

(** Two delivery orders of the same operations reach the same state. *)
Lemma crdt_run_perm l1 l2 (s : St) :
  l1 ≡ₚ l2 → crdt_history l1 → crdt_run s l1 = crdt_run s l2.
Proof.
  intros Hp. revert s. induction Hp as [|x l1 l2 _ IH|x y l|l1 l2 l3 Hp1 IH1 Hp2 IH2];
    intros s Hh; simpl; auto.
  - apply IH. eapply crdt_history_sub, Hh. set_solver.
  - unfold crdt_run. simpl. rewrite crdt_comm; [done|]. apply Hh; set_solver.
  - rewrite IH1 by done. apply IH2. eapply crdt_history_sub, Hh.
    intros a. by rewrite Hp1.
Qed.

(** A second delivery of an operation changes nothing. *)
Lemma crdt_run_duplicate l a (s : St) :
  a ∈ l → crdt_history l → crdt_run s (a :: l) = crdt_run s l.
Proof.
  intros (l1 & l2 & ->)%list_elem_of_split Hh.
  assert (Hp : l1 ++ a :: l2 ≡ₚ a :: l1 ++ l2) by by rewrite Permutation_middle.
  rewrite (crdt_run_perm (a :: l1 ++ a :: l2) (a :: a :: l1 ++ l2)).
  - rewrite (crdt_run_perm (l1 ++ a :: l2) (a :: l1 ++ l2)) by done.
    unfold crdt_run. simpl. by rewrite crdt_idemp.
  - by rewrite Hp.
  - eapply crdt_history_sub, Hh. set_solver.
Qed.

Lemma crdt_run_remove_dups `{!EqDecision Op} l (s : St) :
  crdt_history l → crdt_run s (remove_dups l) = crdt_run s l.
Proof.
  revert s. induction l as [|a l IH]; intros s Hh; [done|]. simpl.
  assert (Hl : crdt_history l) by (eapply crdt_history_sub, Hh; set_solver).
  case_decide; [rewrite IH by done; by rewrite crdt_run_duplicate|]. unfold crdt_run in *. simpl.
  by rewrite IH.
Qed.

(** The state depends on the set of delivered operations only. *)
Lemma crdt_run_same_members `{!EqDecision Op} l1 l2 (s : St) :
  (∀ a, a ∈ l1 ↔ a ∈ l2) → crdt_history l1 → crdt_run s l1 = crdt_run s l2.
Proof.
  intros Hm Hh. assert (Hh2 : crdt_history l2) by (eapply crdt_history_sub, Hh; naive_solver).
  rewrite <-(crdt_run_remove_dups l1), <-(crdt_run_remove_dups l2) by done.
  apply crdt_run_perm.
  - apply NoDup_Permutation; [apply NoDup_remove_dups..|]. intros a.
    by rewrite !elem_of_remove_dups.
  - eapply crdt_history_sub, Hh. intros a. by rewrite elem_of_remove_dups.
Qed.
End generic.

(** ** State vector lemmas *)

Lemma sv_seen_new p : sv_seen StateVectorOps.new p = 0%N.
Proof. done. Qed.

Lemma sv_seen_set sv p c q :
  sv_seen (StateVectorOps.set sv p c) q = if decide (p = q) then c else sv_seen sv q.
Proof.
  unfold sv_seen, StateVectorOps.get, StateVectorOps.set. simpl.
  rewrite lookup_insert. by case_decide.
Qed.

#[export] Instance sv_le_preorder : PreOrder sv_le.
Proof. split; [intros a p; lia|intros a b c H1 H2 p; specialize (H1 p); specialize (H2 p); lia]. Qed.

(** ** Registers and maps *)

Section lww_lemmas.
Context {A : Type}.
Implicit Types r : LwwRegister A.

Lemma lww_set_op_id r v op :
  lww_op_id (Lww.set r v op) = if ord_geb op (lww_op_id r) then op else lww_op_id r.
Proof. unfold Lww.set. by destruct (ord_geb op (lww_op_id r)). Qed.

Lemma lww_set_comm r v w a b :
  (a = b → v = w) → Lww.set (Lww.set r v a) w b = Lww.set (Lww.set r w b) v a.
Proof.
  intros Hcompat. unfold Lww.set.
  destruct (ord_geb a (lww_op_id r)) eqn:Ea, (ord_geb b (lww_op_id r)) eqn:Eb; simpl;
    rewrite ?Ea, ?Eb; try done.
  - destruct (ord_lt_total a b) as [Hlt|[->|Hlt]].
    + rewrite (proj2 (ord_geb_lt a b) Hlt).
      by rewrite (proj2 (ord_geb_le b a) (ord_lt_le _ _ Hlt)).
    + by rewrite ord_geb_refl, Hcompat.
    + rewrite (proj2 (ord_geb_lt b a) Hlt).
      by rewrite (proj2 (ord_geb_le a b) (ord_lt_le _ _ Hlt)).
  - apply ord_geb_le in Ea. apply ord_geb_lt in Eb.
    enough (ord_geb b a = false) as -> by done.
    apply ord_geb_lt. apply ord_le_lt_eq in Ea as [?| <-]; [by etrans|done].
  - apply ord_geb_le in Eb. apply ord_geb_lt in Ea.
    enough (ord_geb a b = false) as -> by done.
    apply ord_geb_lt. apply ord_le_lt_eq in Eb as [?| <-]; [by etrans|done].
Qed.

Lemma lww_set_idemp r v a : Lww.set (Lww.set r v a) v a = Lww.set r v a.
Proof.
  unfold Lww.set. destruct (ord_geb a (lww_op_id r)) eqn:Ea; simpl.
  - by rewrite ord_geb_refl.
  - by rewrite Ea.
Qed.

Lemma lww_new_set_comm v w a b :
  (a = b → v = w) → Lww.set (Lww.new v a) w b = Lww.set (Lww.new (A:=A) w b) v a.
Proof.
  intros Hcompat. unfold Lww.set, Lww.new. simpl.
  destruct (ord_lt_total a b) as [Hlt|[->|Hlt]].
  - rewrite (proj2 (ord_geb_lt a b) Hlt).
    by rewrite (proj2 (ord_geb_le b a) (ord_lt_le _ _ Hlt)).
  - by rewrite ord_geb_refl, Hcompat.
  - rewrite (proj2 (ord_geb_lt b a) Hlt).
    by rewrite (proj2 (ord_geb_le a b) (ord_lt_le _ _ Hlt)).
Qed.
End lww_lemmas.

#[export] Instance lww_crdt_laws {A} : OpCrdtLaws (LwwRegister A) (LwwWrite A).
Proof.
  split.
  - intros a b Hab Hba. symmetry. by apply Hab.
  - intros s [v a] [w b] Hab. apply lww_set_comm. simpl in *. naive_solver.
  - intros s [v a]. apply lww_set_idemp.
Qed.

Lemma lww_upsert_comm `{Countable K} {V} (k1 k2 : K) (v1 v2 : V) (a b : OpId) m :
  (k1 = k2 → a = b → v1 = v2) →
  lww_upsert k2 v2 b (lww_upsert k1 v1 a m) = lww_upsert k1 v1 a (lww_upsert k2 v2 b m).
Proof.
  intros Hcompat. unfold lww_upsert. destruct (decide (k1 = k2)) as [->|Hne].
  - rewrite !lookup_insert_eq, !insert_insert_eq. f_equal.
    destruct (m !! k2) as [r|]; [apply lww_set_comm|apply lww_new_set_comm]; eauto.
  - rewrite !lookup_insert_ne by done. by rewrite insert_insert_ne.
Qed.

Lemma lww_upsert_idemp `{Countable K} {V} (k : K) (v : V) (a : OpId) m :
  lww_upsert k v a (lww_upsert k v a m) = lww_upsert k v a m.
Proof.
  unfold lww_upsert. rewrite lookup_insert_eq, insert_insert_eq. f_equal.
  destruct (m !! k) as [r|]; [apply lww_set_idemp|].
  unfold Lww.set, Lww.new. simpl. by rewrite ord_geb_refl.
Qed.

#[export] Instance map_crdt_laws {K V} `{Countable K} :
  OpCrdtLaws (LwwMap K V) (K * LwwWrite V).
Proof.
  split.
  - intros a b Hab ? ?. symmetry. by apply Hab.
  - intros s [k1 [v1 a]] [k2 [v2 b]] Hab. simpl in *. unfold Map.set. simpl. f_equal.
    apply lww_upsert_comm. naive_solver.
  - intros s [k [v a]]. simpl. unfold Map.set. simpl. f_equal. apply lww_upsert_idemp.
Qed.

(** ** The winner of a set of writes *)

Lemma lww_run_winner {A} (l : list (LwwWrite A)) (r : LwwRegister A) :
  let r' := crdt_run r l in
  (r' = r ∨ ∃ w, w ∈ l ∧ r' = mkLww (write_value w) (write_op w)) ∧
  ord_le (lww_op_id r) (lww_op_id r') ∧ ∀ w, w ∈ l → ord_le (write_op w) (lww_op_id r').
Proof.
  unfold crdt_run. revert r. induction l as [|w l IH]; intros r; simpl.
  { split_and!; [by left|reflexivity|set_solver]. }
  destruct (IH (Lww.set r (write_value w) (write_op w))) as (Hv & Hle & Hall).
  set (r' := fold_left _ l _) in *.
  assert (Hstep : ord_le (lww_op_id r) (lww_op_id (Lww.set r (write_value w) (write_op w))) ∧
    ord_le (write_op w) (lww_op_id (Lww.set r (write_value w) (write_op w)))).
  { rewrite lww_set_op_id. destruct (ord_geb (write_op w) (lww_op_id r)) eqn:E.
    - apply ord_geb_le in E. by split.
    - apply ord_geb_lt, ord_lt_le in E. by split. }
  destruct Hstep as [Hr Hw]. split_and!.
  - destruct Hv as [Hv|(w' & Hw' & Hv)]; [|right; exists w'; set_solver].
    rewrite Hv. unfold Lww.set.
    destruct (ord_geb (write_op w) (lww_op_id r)); [right; exists w; set_solver|by left].
  - by etrans.
  - intros w' [->|Hw']%elem_of_cons; [by etrans|auto].
Qed.

(** ** Claim *)

(** last-writer-wins convergence.  For writes whose ids identify them, two
    registers that start equal and receive the same set of writes, in any order
    and with any duplication, agree, and hold the write with the greatest id
    (or their initial value when every write is older). *)
Theorem lww_register_converges {A} `{!EqDecision A} (r : LwwRegister A)
    (l1 l2 : list (LwwWrite A))
    (Hhist : crdt_history l1) (Hsame : ∀ w, w ∈ l1 ↔ w ∈ l2) :
  crdt_run r l1 = crdt_run r l2 ∧
  (crdt_run r l1 = r ∨
   ∃ w, w ∈ l1 ∧ crdt_run r l1 = mkLww (write_value w) (write_op w)) ∧
  ∀ w, w ∈ l1 → ord_le (write_op w) (Lww.op_id (crdt_run r l1)).
Proof.
  destruct (lww_run_winner l1 r) as (? & _ & ?). split_and!; [|done..].
  by apply crdt_run_same_members.
Qed.

Definition lww_writes : list (LwwWrite N) :=
  [mkWrite 5%N (mkOpId 2 1); mkWrite 7%N (mkOpId 3 1); mkWrite 6%N (mkOpId 3 2)].

Lemma lww_register_converges_witness :
  crdt_run (Lww.new 0%N (mkOpId 1 1)) lww_writes =
    crdt_run (Lww.new 0%N (mkOpId 1 1)) (reverse lww_writes) ∧
  crdt_run (Lww.new 0%N (mkOpId 1 1)) lww_writes = mkLww 6%N (mkOpId 3 2).
Proof.
  split; [|vm_compute; reflexivity].
  refine (proj1 (lww_register_converges (Lww.new 0%N (mkOpId 1 1)) lww_writes (reverse lww_writes) _ _)).
  - intros a b Ha Hb. unfold lww_writes in *.
    repeat (apply elem_of_cons in Ha as [->|Ha]; [|]); try by apply not_elem_of_nil in Ha.
    all: repeat (apply elem_of_cons in Hb as [->|Hb]; [cbn; intros; congruence|]);
      by apply not_elem_of_nil in Hb.
  - intros w. by rewrite elem_of_reverse.
Defined.
