(* ===== verification/Sequence.v ===== *)
(** * The replicated sequence (RGA with tombstones): data and operations

    Models [Sequence] of [src/src/core/mod.rs]: a vector of elements in document
    order, an index from element id to position, and buffers of operations whose
    anchor or target has not arrived.  The Cargo feature [sequence_incremental],
    which the code reads with [cfg!], is the boolean [sequence_incremental]. *)

From S2P Require Import Prelude Core.

(** ** Data *)

Record Element (T : Type) := mkElement {
  elem_id : OpId;
  elem_value : option T;
  elem_after : option OpId;
  elem_right_origin : option OpId;
}.
Arguments mkElement {_} _ _ _ _.
Arguments elem_id {_} _.
Arguments elem_value {_} _.
Arguments elem_after {_} _.
Arguments elem_right_origin {_} _.

Inductive SequenceOp (T : Type) :=
  | Insert (after : option OpId) (id : OpId) (value : T) (right_origin : option OpId)
  | Delete (target id : OpId).
Arguments Insert {_} _ _ _ _.
Arguments Delete {_} _ _.

Record Sequence (T : Type) := mkSequence {
  seq_elements : list (Element T);
  seq_index : gmap OpId nat;
  pending_inserts : gmap OpId (list (SequenceOp T));
  pending_deletes : gmap OpId (list (SequenceOp T));
}.
Arguments mkSequence {_} _ _ _ _.
Arguments seq_elements {_} _.
Arguments seq_index {_} _.
Arguments pending_inserts {_} _.
Arguments pending_deletes {_} _.

#[export] Instance Element_eq_dec `{EqDecision T} : EqDecision (Element T).
Proof. solve_decision. Defined.
#[export] Instance SequenceOp_eq_dec `{EqDecision T} : EqDecision (SequenceOp T).
Proof. solve_decision. Defined.

Section operations.
Context {T : Type}.
(** The build feature [sequence_incremental]. *)
Context (sequence_incremental : bool).
Implicit Types s : Sequence T.

Definition sequence_new : Sequence T := mkSequence [] ∅ ∅ ∅.

(** ** Reading *)

(** [iter], [to_vec]: the visible values. *)
Definition sequence_iter s : list T := omap elem_value (seq_elements s).
Definition iter_desc s : list T := omap elem_value (reverse (seq_elements s)).
Definition len_visible s : nat :=
  length (filter (λ e, is_Some (elem_value e)) (seq_elements s)).
Definition visible_at_physical s (i : nat) : option T := seq_elements s !! i ≫= elem_value.
Definition iter_visible_from_physical s (start : nat) : list (nat * T) :=
  omap (λ ie, pair ie.1 <$> elem_value ie.2)
    (drop start (imap pair (seq_elements s))).
Definition get_element s (id : OpId) : option (Element T) :=
  seq_index s !! id ≫= λ i, seq_elements s !! i.
Definition element_ids s : list OpId := elem_id <$> seq_elements s.

(** ** In-place value updates *)

Definition set_value (v : option T) (e : Element T) : Element T :=
  mkElement (elem_id e) v (elem_after e) (elem_right_origin e).
Definition with_elements (f : list (Element T) → list (Element T)) s : Sequence T :=
  mkSequence (f (seq_elements s)) (seq_index s) (pending_inserts s) (pending_deletes s).

Definition update_value (id : OpId) (value : T) s : Sequence T :=
  match seq_index s !! id with
  | Some i => with_elements (alter (set_value (Some value)) i) s
  | None => s
  end.

(** [with_value_mut]: [f] returns the new value and a result; [None] for an
    unknown or tombstoned element. *)
Definition with_value_mut {R} (id : OpId) (f : T → T * R) s : Sequence T * option R :=
  match seq_index s !! id with
  | None => (s, None)
  | Some i =>
    match seq_elements s !! i ≫= elem_value with
    | None => (s, None)
    | Some v => let '(v', r) := f v in
                (with_elements (alter (set_value (Some v')) i) s, Some r)
    end
  end.

(** ** Sibling order *)

Definition compare_siblings (a b : Element T) : comparison :=
  match elem_right_origin a, elem_right_origin b with
  | Some ra, Some rb =>
    if decide (ra = rb) then ocmp (elem_id b) (elem_id a) else ocmp ra rb
  | Some _, None => Lt
  | None, Some _ => Gt
  | None, None => ocmp (elem_id b) (elem_id a)
  end.

(** The comparator given to [sort_by]; its two [expect]s cannot fail, every
    child id is a key of the map. *)
Definition sibling_le (element_map : gmap OpId (Element T)) (a b : OpId) : Prop :=
  match element_map !! a, element_map !! b with
  | Some ea, Some eb => compare_siblings ea eb ≠ Gt
  | None, _ => True
  | Some _, None => False
  end.
#[export] Instance sibling_le_dec m : RelDecision (sibling_le m).
Proof. intros a b. unfold sibling_le. repeat case_match; apply _. Defined.

(** ** Full rebuild of the order *)

Definition rebuild_index_of (els : list (Element T)) : gmap OpId nat :=
  btree_collect (imap (λ i e, (elem_id e, i)) els).

Definition rebuild_index s : Sequence T :=
  mkSequence (seq_elements s) (rebuild_index_of (seq_elements s))
    (pending_inserts s) (pending_deletes s).

Definition element_map_of (els : list (Element T)) : gmap OpId (Element T) :=
  btree_collect ((λ e, (elem_id e, e)) <$> els).

Definition children_of (element_map : gmap OpId (Element T)) :
    gmap (option OpId) (list OpId) :=
  let children :=
    fold_left (λ ch e, btree_push (elem_after e) (elem_id e) ch)
      (btree_values element_map) ∅ in
  merge_sort (sibling_le element_map) <$> children.

(** The recursion of [walk_children] has no structural argument: [fuel] bounds
    its depth. *)
Fixpoint walk_children (fuel : nat) (parent : option OpId)
    (children : gmap (option OpId) (list OpId)) (out : list OpId) : list OpId :=
  match fuel with
  | 0 => out
  | S fuel =>
    match children !! parent with
    | Some kids =>
      fold_left (λ out id, walk_children fuel (Some id) children (out ++ [id])) kids out
    | None => out
    end
  end.

(** [ordered_ids.into_iter().filter_map(|id| element_map.remove(&id))]. *)
Fixpoint remove_each (ids : list OpId) (m : gmap OpId (Element T)) : list (Element T) :=
  match ids with
  | [] => []
  | id :: ids =>
    match m !! id with
    | Some e => e :: remove_each ids (delete id m)
    | None => remove_each ids m
    end
  end.

Definition rebuild_order s : Sequence T :=
  let element_map := element_map_of (seq_elements s) in
  let children := children_of element_map in
  let ordered_ids := walk_children (S (size element_map)) None children [] in
  rebuild_index (with_elements (λ _, remove_each ordered_ids element_map) s).

(** ** Incremental placement *)

(** The [while let] loop of [is_descendant_of] over the ancestors of an
    element; [fuel] bounds the number of steps. *)
Fixpoint descendant_loop (fuel : nat) s (cursor : option OpId) (ancestor : OpId) : bool :=
  match cursor with
  | None => false
  | Some id =>
    if decide (id = ancestor) then true
    else match fuel with
         | 0 => false
         | S fuel => descendant_loop fuel s (get_element s id ≫= elem_after) ancestor
         end
  end.
Definition is_descendant_of s (candidate : Element T) (ancestor : OpId) : bool :=
  descendant_loop (length (seq_elements s)) s (elem_after candidate) ancestor.

Definition subtree_end s (parent : option OpId) : nat :=
  match parent with
  | None => length (seq_elements s)
  | Some parent =>
    let start := default 0 (seq_index s !! parent) + 1 in
    match position (λ c, negb (is_descendant_of s c parent)) (drop start (seq_elements s)) with
    | None => length (seq_elements s)
    | Some offset => start + offset
    end
  end.

Definition precedes_sibling (element sibling : Element T) : bool :=
  bool_decide (elem_after sibling = elem_after element) &&
  match compare_siblings element sibling with Lt => true | _ => false end.

Definition insert_incrementally (element : Element T) s : Sequence T :=
  let insert_at :=
    match position (precedes_sibling element) (seq_elements s) with
    | Some i => i
    | None => subtree_end s (elem_after element)
    end in
  let els := vec_insert insert_at element (seq_elements s) in
  let idx :=
    fold_left (λ m ie, <[elem_id ie.2 := ie.1]> m)
      (drop insert_at (imap pair els)) (seq_index s) in
  mkSequence els idx (pending_inserts s) (pending_deletes s).

(** ** Integrating operations *)

Definition apply_insert_internal (after : option OpId) (id : OpId) (value : T)
    (right_origin : option OpId) (rebuild : bool) s : Sequence T * bool :=
  if decide (is_Some (seq_index s !! id)) then (s, true)
  else if match after with
          | Some anchor => bool_decide (seq_index s !! anchor = None)
          | None => false
          end then (s, false)
  else
    let element := mkElement id (Some value) after right_origin in
    if sequence_incremental && rebuild then (insert_incrementally element s, true)
    else
      let s := with_elements (λ els, els ++ [element]) s in
      if rebuild then (rebuild_order s, true)
      else (mkSequence (seq_elements s)
              (<[id := length (seq_elements s) - 1]> (seq_index s))
              (pending_inserts s) (pending_deletes s), true).

Definition apply_insert after id value right_origin s : Sequence T * bool :=
  apply_insert_internal after id value right_origin true s.

Definition apply_delete (target : OpId) s : Sequence T * bool :=
  match seq_index s !! target with
  | None => (s, false)
  | Some i => (with_elements (alter (set_value None) i) s, true)
  end.

Definition push_pending_insert (anchor : OpId) (op : SequenceOp T) s : Sequence T :=
  mkSequence (seq_elements s) (seq_index s)
    (btree_push anchor op (pending_inserts s)) (pending_deletes s).
Definition push_pending_delete (target : OpId) (op : SequenceOp T) s : Sequence T :=
  mkSequence (seq_elements s) (seq_index s)
    (pending_inserts s) (btree_push target op (pending_deletes s)).

Definition apply_now (op : SequenceOp T) s : Sequence T * option OpId :=
  match op with
  | Insert after id value right_origin =>
    let '(s, ok) := apply_insert after id value right_origin s in
    if ok then (s, Some id)
    else match after with
         | Some anchor =>
           (push_pending_insert anchor (Insert (Some anchor) id value right_origin) s, None)
         | None => (s, None)
         end
  | Delete target id =>
    let '(s, ok) := apply_delete target s in
    if ok then (s, None) else (push_pending_delete target (Delete target id) s, None)
  end.

(** [enqueue_pending]: moves what waits for [id] to the back of the queue. *)
Definition enqueue_pending (id : OpId) s (queue : list (SequenceOp T)) :
    Sequence T * list (SequenceOp T) :=
  (mkSequence (seq_elements s) (seq_index s)
     (delete id (pending_inserts s)) (delete id (pending_deletes s)),
   queue ++ default [] (pending_inserts s !! id) ++ default [] (pending_deletes s !! id)).

(** One iteration of the [while let Some(op) = queue.pop_front()] loop. *)
Definition drain_step (op : SequenceOp T) s (queue : list (SequenceOp T)) (inserted : bool) :
    Sequence T * list (SequenceOp T) * bool :=
  match op with
  | Insert after id value right_origin =>
    let '(s, ok) :=
      apply_insert_internal after id value right_origin sequence_incremental s in
    if ok then (enqueue_pending id s queue, true)
    else match after with
         | Some anchor =>
           (push_pending_insert anchor (Insert (Some anchor) id value right_origin) s,
            queue, inserted)
         | None => (s, queue, inserted)
         end
  | Delete target id =>
    let '(s, ok) := apply_delete target s in
    if ok then (s, queue, inserted)
    else (push_pending_delete target (Delete target id) s, queue, inserted)
  end.

(** The loop itself; [None] when [fuel] iterations were not enough. *)
Fixpoint drain (fuel : nat) s (queue : list (SequenceOp T)) (inserted : bool) :
    option (Sequence T * bool) :=
  match queue, fuel with
  | [], _ => Some (s, inserted)
  | _ :: _, 0 => None
  | op :: queue, S fuel =>
    let '(s, queue, inserted) := drain_step op s queue inserted in
    drain fuel s queue inserted
  end.

(** The number of buffered operations. *)
Definition pending_count (m : gmap OpId (list (SequenceOp T))) : nat :=
  sum_list (length <$> (map_to_list m).*2).
Definition drain_fuel s : nat :=
  let n := S (pending_count (pending_inserts s) + pending_count (pending_deletes s)) in
  n * n.

Definition process_pending (inserted_id : OpId) s : Sequence T :=
  let fuel := drain_fuel s in
  let '(s1, queue) := enqueue_pending inserted_id s [] in
  match drain fuel s1 queue false with
  | Some (s2, inserted) =>
    if inserted && negb sequence_incremental then rebuild_order s2 else s2
  | None => s
  end.

Definition apply (op : SequenceOp T) s : Sequence T :=
  match apply_now op s with
  | (s, Some inserted_id) => process_pending inserted_id s
  | (s, None) => s
  end.

Definition compute_right_origin (after : option OpId) s : option OpId :=
  let position :=
    match after with
    | None => 0
    | Some anchor => default 0 (seq_index s !! anchor) + 1
    end in
  elem_id <$> seq_elements s !! position.

(** ** Local edits *)

Definition sequence_insert (after : option OpId) (value : T) (id : OpId) s : Sequence T :=
  apply (Insert after id value (compute_right_origin after s)) s.
Definition sequence_delete (target id : OpId) s : Sequence T :=
  apply (Delete target id) s.
(** [Sequence::apply_op]: append after the last element. *)
Definition sequence_apply_op (op : OpId * T) s : Sequence T :=
  sequence_insert (elem_id <$> last (seq_elements s)) op.2 op.1 s.

(** ** Construction *)

Definition from_ordered (items : list (OpId * T)) : Sequence T :=
  let '(els, idx, _) :=
    fold_left (λ '(els, idx, after) (item : OpId * T),
      (els ++ [mkElement item.1 (Some item.2) after None],
       <[item.1 := length els]> idx, Some item.1)) items ([], ∅, None) in
  mkSequence els idx ∅ ∅.

Definition from_elements (els : list (Element T)) : Sequence T :=
  mkSequence els (rebuild_index_of els) ∅ ∅.

(** [pending_ops]: buffered inserts in anchor order, then deletes in target order. *)
Definition pending_ops s : list (SequenceOp T) :=
  concat (btree_values (pending_inserts s)) ++ concat (btree_values (pending_deletes s)).

Definition from_elements_and_pending (els : list (Element T))
    (pending : list (SequenceOp T)) : Sequence T :=
  fold_left (λ s op, apply op s) pending (from_elements els).
End operations.
