(* ===== verification/SequenceOrder.v ===== *)
(** * The document order of a replicated sequence

    The order [rebuild_order] computes, seen as a depth-first traversal [Dfs] of
    the forest given by the [after] edges, siblings sorted by
    [compare_siblings].  The traversal is described relationally, the fuel of
    [walk_children] is shown to be enough, and adding a leaf is shown to insert
    exactly one id into the traversal. *)

From S2P Require Import Prelude Core Sequence.

(** ** Depth-first traversals of a forest given by its child lists *)

Inductive Dfs (K : option OpId → list OpId) : list OpId → list OpId → Prop :=
  | dfs_nil : Dfs K [] []
  | dfs_cons k ks o1 o2 :
      Dfs K (K (Some k)) o1 → Dfs K ks o2 → Dfs K (k :: ks) (k :: o1 ++ o2).
#[export] Hint Constructors Dfs : md_crdt.

(** The children of [p], as [rebuild_order] finds them. *)
Definition kids {T} (m : gmap OpId (Element T)) (p : option OpId) : list OpId :=
  default [] (children_of m !! p).

(** [out] is the document order of the elements of [m]. *)
Definition Order {T} (m : gmap OpId (Element T)) (out : list OpId) : Prop :=
  Dfs (kids m) (kids m None) out.

(** Every key holds an element with that id. *)
Definition keyed {T} (m : gmap OpId (Element T)) : Prop :=
  ∀ id e, m !! id = Some e → elem_id e = id.

(** The elements of [m] form a forest rooted at the start of the document. *)
Definition tree_ok {T} (m : gmap OpId (Element T)) : Prop :=
  ∃ out, Order m out ∧ NoDup out ∧ ∀ id, id ∈ out ↔ is_Some (m !! id).

(** What the order depends on: everything but the value. *)
Definition skeleton {T} (e : Element T) : OpId * option OpId * option OpId :=
  (elem_id e, elem_after e, elem_right_origin e).

Definition same_skeleton {T U} (m1 : gmap OpId (Element T)) (m2 : gmap OpId (Element U)) : Prop :=
  ∀ id, skeleton <$> m1 !! id = skeleton <$> m2 !! id.

(** [a] is a strict ancestor of [y] along the [after] edges. *)
Inductive ancestor {T} (m : gmap OpId (Element T)) (a : OpId) : OpId → Prop :=
  | ancestor_parent y e :
      m !! y = Some e → elem_after e = Some a → ancestor m a y
  | ancestor_up y e b :
      m !! y = Some e → elem_after e = Some b → ancestor m a b → ancestor m a y.

(** Sibling order on ids of [m]. *)
Definition sibling_lt {T} (m : gmap OpId (Element T)) (a b : OpId) : Prop :=
  ∃ ea eb, m !! a = Some ea ∧ m !! b = Some eb ∧ compare_siblings ea eb = Lt.

(** ** Traversal lemmas *)

Section dfs.
Implicit Types K : option OpId → list OpId.

Lemma dfs_det K ks o1 o2 : Dfs K ks o1 → Dfs K ks o2 → o1 = o2.
Proof.
  intros H1. revert o2. induction H1 as [|k ks o1 o2 _ IH1 _ IH2]; intros o' H2.
  - by inversion H2.
  - inversion H2; subst. f_equal. f_equal; auto.
Qed.

Lemma dfs_app K k1 k2 out :
  Dfs K (k1 ++ k2) out ↔ ∃ o1 o2, out = o1 ++ o2 ∧ Dfs K k1 o1 ∧ Dfs K k2 o2.
Proof.
  split.
  - revert out. induction k1 as [|k k1 IH]; intros out H; simpl in *.
    + exists [], out. eauto with md_crdt.
    + inversion H as [|? ? o1 o2 H1 H2]; subst.
      apply IH in H2 as (o2a & o2b & -> & ? & ?).
      exists (k :: o1 ++ o2a), o2b. split_and!; [by simplify_list_eq| |done].
      by constructor.
  - intros (o1 & o2 & -> & H1 & H2).
    induction H1 as [|k k1 oa ob Ha IHa Hb IHb]; simpl; [done|].
    rewrite <-app_assoc. by constructor.
Qed.

Lemma dfs_roots K ks out k : Dfs K ks out → k ∈ ks → k ∈ out.
Proof. induction 1; set_solver. Qed.

Lemma dfs_closed K ks out b y :
  Dfs K ks out → b ∈ out → y ∈ K (Some b) → y ∈ out.
Proof.
  induction 1 as [|k ks o1 o2 H1 IH1 H2 IH2]; intros Hb Hy; [set_solver|].
  apply elem_of_cons in Hb as [->|[Hb|Hb]%elem_of_app].
  - apply elem_of_cons; right. apply elem_of_app; left. by eapply dfs_roots.
  - set_solver.
  - set_solver.
Qed.

(** Every listed id is a root or comes after its parent. *)
Lemma dfs_parent_before K ks out u y v :
  Dfs K ks out → out = u ++ y :: v → y ∈ ks ∨ ∃ b, b ∈ u ∧ y ∈ K (Some b).
Proof.
  intros H. revert u v. induction H as [|k ks o1 o2 H1 IH1 H2 IH2]; intros u v Heq.
  { by destruct u. }
  destruct u as [|k' u]; injection Heq as -> Heq; [set_solver|].
  apply app_eq_app in Heq as [l [[-> Hl]|[-> Hl]]].
  - destruct l as [|z l]; simplify_eq/=.
    + destruct (IH2 [] v eq_refl) as [?|(b&?&?)]; set_solver.
    + destruct (IH1 _ _ eq_refl) as [?|(b&?&?)]; [right|]; set_solver.
  - destruct (IH2 _ _ Hl) as [?|(b&?&?)]; set_solver.
Qed.

Lemma dfs_elem K ks out y :
  Dfs K ks out → y ∈ out → y ∈ ks ∨ ∃ b, b ∈ out ∧ y ∈ K (Some b).
Proof.
  intros H (u & v & ->)%list_elem_of_split.
  destruct (dfs_parent_before _ _ _ _ _ _ H eq_refl) as [?|(b&?&?)]; [by left|].
  right. exists b. set_solver.
Qed.

Lemma dfs_ext K K' ks out :
  (∀ b, b ∈ out → K' (Some b) = K (Some b)) → Dfs K ks out → Dfs K' ks out.
Proof.
  intros Hext H. induction H as [|k ks o1 o2 H1 IH1 H2 IH2]; constructor.
  - rewrite Hext by set_solver. apply IH1. set_solver.
  - apply IH2. set_solver.
Qed.

(** The fuel of [walk_children]: the length of the result is enough. *)
Lemma dfs_walk_kids K (ch : gmap (option OpId) (list OpId)) ks out fuel acc :
  (∀ p, K p = default [] (ch !! p)) →
  Dfs K ks out → length out ≤ fuel →
  fold_left (λ out id, walk_children fuel (Some id) ch (out ++ [id])) ks acc = acc ++ out.
Proof.
  intros HK H. revert fuel acc.
  induction H as [|k ks o1 o2 H1 IH1 H2 IH2]; intros fuel acc Hlen; simpl.
  { by rewrite app_nil_r. }
  simpl in Hlen. rewrite length_app in Hlen. destruct fuel as [|fuel]; [lia|].
  simpl walk_children at 2.
  assert (Hwalk : match ch !! Some k with
          | Some kids0 => fold_left (λ out id, walk_children fuel (Some id) ch (out ++ [id]))
                            kids0 (acc ++ [k])
          | None => acc ++ [k]
          end = acc ++ [k] ++ o1).
  { specialize (HK (Some k)). destruct (ch !! Some k) as [l|]; simpl in HK.
    - rewrite <-HK. rewrite IH1 by lia. by simplify_list_eq.
    - rewrite HK in H1. by inversion H1; simplify_list_eq. }
  rewrite Hwalk, IH2 by (simpl; lia). by simplify_list_eq.
Qed.

Lemma dfs_walk K (ch : gmap (option OpId) (list OpId)) out fuel p :
  (∀ p, K p = default [] (ch !! p)) →
  Dfs K (K p) out → length out ≤ fuel → walk_children (S fuel) p ch [] = out.
Proof.
  intros HK H Hlen. simpl. pose proof (HK p) as Hp.
  destruct (ch !! p) as [l|]; simpl in Hp.
  - rewrite <-Hp. by erewrite dfs_walk_kids.
  - rewrite Hp in H. by inversion H.
Qed.
End dfs.

(** ** Adding a leaf to a traversal *)

Section dfs_leaf.
Context (K K' : option OpId → list OpId) (x : OpId) (p : option OpId) (l1 l2 : list OpId).
Hypothesis HKp : K p = l1 ++ l2.
Hypothesis HKp' : K' p = l1 ++ x :: l2.
Hypothesis HKne : ∀ q, q ≠ p → q ≠ Some x → K' q = K q.
Hypothesis HKx : K' (Some x) = [].

Lemma dfs_leaf_outside ks out :
  (∀ b, b ∈ out → p ≠ Some b) → x ∉ out → Dfs K ks out → Dfs K' ks out.
Proof.
  intros Hp Hx. apply dfs_ext. intros b Hb. apply HKne; [by apply not_eq_sym, Hp|].
  intros [= ->]. done.
Qed.

Lemma dfs_leaf_here o1 o2 :
  Dfs K' l1 o1 → Dfs K' l2 o2 → Dfs K' (l1 ++ x :: l2) (o1 ++ x :: o2).
Proof.
  intros H1 H2. apply dfs_app. exists o1, (x :: o2). split_and!; [done..|].
  replace (x :: o2) with (x :: [] ++ o2) by done. constructor; [|done].
  rewrite HKx. constructor.
Qed.

(** The parent [a] is inside the traversal: the new id lands in its subtree,
    between the subtrees of its smaller and of its greater siblings. *)
Lemma dfs_leaf_inside ks out a :
  p = Some a → x ∉ out → NoDup out → a ∈ out → Dfs K ks out →
  ∃ pre o1 o2 post,
    out = pre ++ a :: (o1 ++ o2) ++ post ∧ Dfs K l1 o1 ∧ Dfs K l2 o2 ∧
    Dfs K' ks (pre ++ a :: (o1 ++ x :: o2) ++ post).
Proof.
  intros Hpa Hx Hnd Ha H.
  induction H as [|k ks o1 o2 H1 IH1 H2 IH2]; [set_solver|].
  apply NoDup_cons in Hnd as [Hk Hnd].
  apply NoDup_app in Hnd as (Hnd1 & Hdisj & Hnd2).
  apply not_elem_of_cons in Hx as [Hxk Hx].
  apply not_elem_of_app in Hx as [Hx1 Hx2].
  assert (Hout : ∀ o : list OpId, a ∉ o → ∀ b, b ∈ o → p ≠ Some b) by (intros; naive_solver).
  apply elem_of_cons in Ha as [->|[Ha|Ha]%elem_of_app].
  - rewrite <-Hpa, HKp in H1. apply dfs_app in H1 as (oa & ob & -> & Ha & Hb).
    exists [], oa, ob, o2. split_and!; [done..|]. simpl.
    constructor; [|apply dfs_leaf_outside; auto; apply Hout; set_solver].
    rewrite <-Hpa, HKp'. apply dfs_leaf_here; apply dfs_leaf_outside; auto;
      try apply Hout; set_solver.
  - destruct IH1 as (pre & oa & ob & post & -> & Ha1 & Hb1 & H'); [done..|].
    exists (k :: pre), oa, ob, (post ++ o2). split_and!; [by simplify_list_eq|done..|].
    assert (Hok : Dfs K' ks o2).
    { apply dfs_leaf_outside; auto. apply Hout. intros ?. by apply (Hdisj a). }
    assert (Hkk : K' (Some k) = K (Some k)).
    { apply HKne; [|congruence]. intros Hpk. apply Hk. set_solver. }
    rewrite <-Hkk in H'. pose proof (dfs_cons K' _ _ _ _ H' Hok) as Hc.
    by simplify_list_eq.
  - destruct IH2 as (pre & oa & ob & post & -> & Ha1 & Hb1 & H'); [done..|].
    exists (k :: o1 ++ pre), oa, ob, post. split_and!; [by simplify_list_eq|done..|].
    assert (Hok : Dfs K' (K (Some k)) o1).
    { apply dfs_leaf_outside; auto. apply Hout. intros ?. by apply (Hdisj a). }
    assert (Hkk : K' (Some k) = K (Some k)).
    { apply HKne; [|congruence]. intros Hpk. apply Hk. set_solver. }
    rewrite <-Hkk in Hok. pose proof (dfs_cons K' _ _ _ _ Hok H') as Hc.
    by simplify_list_eq.
Qed.
End dfs_leaf.

(** ** The sibling order *)

(** [None] after every [Some]: the order of right origins. *)
Definition right_origin_ord : Ord (option OpId) := λ x y,
  match x, y with
  | Some a, Some b => ocmp a b
  | Some _, None => Lt
  | None, Some _ => Gt
  | None, None => Eq
  end.
Definition reversed_ord : Ord OpId := λ x y, ocmp y x.

Lemma right_origin_ord_laws : @OrdLaws _ right_origin_ord.
Proof.
  split; unfold ocmp at 1, right_origin_ord.
  - intros [x|] [y|]; rewrite ?ocmp_eq; naive_solver.
  - intros [x|] [y|]; unfold ocmp; try done. apply (ocmp_antisym x).
  - intros [x|] [y|] [z|]; unfold ocmp; try done. apply (ocmp_lt_trans x y z).
Qed.
Lemma reversed_ord_laws : @OrdLaws _ reversed_ord.
Proof.
  split; unfold ocmp at 1, reversed_ord.
  - intros x y. rewrite ocmp_eq. naive_solver.
  - intros x y. apply (ocmp_antisym y x).
  - intros x y z H1 H2. exact (ocmp_lt_trans z y x H2 H1).
Qed.

Section siblings.
Context {T : Type}.
Implicit Types a b c : Element T.

Lemma compare_siblings_lexico a b :
  compare_siblings a b =
    @lexico_cmp _ right_origin_ord _ reversed_ord _ elem_right_origin elem_id a b.
Proof.
  unfold compare_siblings, lexico_cmp, cmp_then, ocmp at 3, ocmp at 3,
    right_origin_ord, reversed_ord.
  destruct (elem_right_origin a) as [ra|], (elem_right_origin b) as [rb|]; try done.
  case_decide as Hr; [subst; by rewrite ocmp_refl|].
  destruct (ocmp ra rb) eqn:E; try done. by apply ocmp_eq in E.
Qed.

Lemma compare_siblings_antisym a b :
  compare_siblings b a = CompOpp (compare_siblings a b).
Proof.
  rewrite !compare_siblings_lexico.
  apply (@lexico_cmp_antisym _ _ right_origin_ord_laws _ _ reversed_ord_laws).
Qed.
Lemma compare_siblings_trans a b c :
  compare_siblings a b = Lt → compare_siblings b c = Lt → compare_siblings a c = Lt.
Proof.
  rewrite !compare_siblings_lexico.
  apply (@lexico_cmp_trans _ _ right_origin_ord_laws _ _ reversed_ord_laws).
Qed.
Lemma compare_siblings_eq a b :
  compare_siblings a b = Eq → elem_id a = elem_id b ∧ elem_right_origin a = elem_right_origin b.
Proof.
  unfold compare_siblings. intros H.
  destruct (elem_right_origin a) as [ra|], (elem_right_origin b) as [rb|]; try done.
  - case_decide; subst; apply ocmp_eq in H; [by rewrite H|done].
  - apply ocmp_eq in H. by rewrite H.
Qed.
Lemma compare_siblings_eq_l a b c :
  compare_siblings a b = Eq → compare_siblings a c = compare_siblings b c.
Proof.
  intros [Hi Hr]%compare_siblings_eq. unfold compare_siblings. by rewrite Hi, Hr.
Qed.
Lemma compare_siblings_eq_r a b c :
  compare_siblings a b = Eq → compare_siblings c a = compare_siblings c b.
Proof.
  intros [Hi Hr]%compare_siblings_eq. unfold compare_siblings. by rewrite Hi, Hr.
Qed.
Lemma compare_siblings_not_gt_trans a b c :
  compare_siblings a b ≠ Gt → compare_siblings b c ≠ Gt → compare_siblings a c ≠ Gt.
Proof.
  destruct (compare_siblings a b) eqn:E1; [| |done];
    destruct (compare_siblings b c) eqn:E2; try done; intros _ _.
  - by rewrite (compare_siblings_eq_l _ _ _ E1), E2.
  - by rewrite (compare_siblings_eq_l _ _ _ E1), E2.
  - by rewrite <-(compare_siblings_eq_r _ _ _ E2), E1.
  - by rewrite (compare_siblings_trans _ _ _ E1 E2).
Qed.
End siblings.

Section sibling_le.
Context {T : Type} (m : gmap OpId (Element T)).

#[export] Instance sibling_le_trans : Transitive (sibling_le m).
Proof.
  intros a b c. unfold sibling_le.
  destruct (m !! a), (m !! b), (m !! c); try done. apply compare_siblings_not_gt_trans.
Qed.
#[export] Instance sibling_le_total : Total (sibling_le m).
Proof.
  intros a b. unfold sibling_le. destruct (m !! a) as [ea|], (m !! b) as [eb|]; auto.
  rewrite (compare_siblings_antisym ea eb). destruct (compare_siblings ea eb); auto.
Qed.

Lemma sibling_le_antisym a b :
  keyed m → is_Some (m !! a) → is_Some (m !! b) →
  sibling_le m a b → sibling_le m b a → a = b.
Proof.
  intros Hk [ea Ha] [eb Hb]. unfold sibling_le. rewrite Ha, Hb.
  rewrite (compare_siblings_antisym ea eb).
  destruct (compare_siblings ea eb) eqn:E; try done. intros _ _.
  apply compare_siblings_eq in E as [E _].
  by rewrite <-(Hk _ _ Ha), <-(Hk _ _ Hb).
Qed.

Lemma sibling_le_lt a b :
  keyed m → is_Some (m !! a) → is_Some (m !! b) → a ≠ b →
  sibling_le m a b → sibling_lt m a b.
Proof.
  intros Hk [ea Ha] [eb Hb] Hne Hle. exists ea, eb. split_and!; [done..|].
  unfold sibling_le in Hle. rewrite Ha, Hb in Hle.
  destruct (compare_siblings ea eb) eqn:E; try done.
  apply compare_siblings_eq in E as [E _].
  rewrite (Hk _ _ Ha), (Hk _ _ Hb) in E. done.
Qed.
End sibling_le.

(** ** The child lists of [rebuild_order] *)

Section kids.
Context {T : Type}.
Implicit Types m : gmap OpId (Element T).

Lemma children_fold_lookup (l : list (Element T)) ch p :
  default [] (fold_left (λ ch e, btree_push (elem_after e) (elem_id e) ch) l ch !! p) =
  default [] (ch !! p) ++ (elem_id <$> filter (λ e, elem_after e = p) l).
Proof.
  revert ch. induction l as [|e l IH]; intros ch; simpl; [by rewrite app_nil_r|].
  rewrite IH. unfold btree_push. rewrite lookup_insert.
  rewrite filter_cons. destruct (decide (elem_after e = p)) as [->|]; simpl; [|done].
  by simplify_list_eq.
Qed.

Lemma kids_perm m p :
  kids m p ≡ₚ elem_id <$> filter (λ e, elem_after e = p) (btree_values m).
Proof.
  unfold kids, children_of. rewrite lookup_fmap.
  pose proof (children_fold_lookup (btree_values m) ∅ p) as Hf.
  rewrite lookup_empty in Hf. simpl in Hf.
  destruct (fold_left _ _ _ !! p) as [l|]; simpl in *; rewrite <-Hf; [|done].
  apply merge_sort_Permutation.
Qed.

Lemma elem_of_kids m p id :
  keyed m → id ∈ kids m p ↔ ∃ e, m !! id = Some e ∧ elem_after e = p.
Proof.
  intros Hk. rewrite kids_perm, list_elem_of_fmap. split.
  - intros (e & -> & [He [k Hm]%elem_of_btree_values]%list_elem_of_filter).
    exists e. by rewrite (Hk _ _ Hm).
  - intros (e & Hm & He). exists e. rewrite list_elem_of_filter, elem_of_btree_values.
    rewrite (Hk _ _ Hm). eauto.
Qed.

Lemma NoDup_kids m p : keyed m → NoDup (kids m p).
Proof.
  intros Hk. rewrite kids_perm.
  assert (Hids : elem_id <$> btree_values m = btree_keys m).
  { unfold btree_values, btree_keys. rewrite <-list_fmap_compose.
    apply list_fmap_ext. intros i [k e] Hi. simpl.
    apply Hk, elem_of_btree_iter. by eapply list_elem_of_lookup_2. }
  pose proof (NoDup_btree_keys m) as Hnd. rewrite <-Hids in Hnd.
  revert Hnd. generalize (btree_values m). intros l.
  induction l as [|e l IH]; [done|]. rewrite fmap_cons, NoDup_cons. intros [Hn Hd].
  rewrite filter_cons. case_decide; [|auto]. rewrite fmap_cons, NoDup_cons.
  split; [|auto]. rewrite list_elem_of_fmap. intros (e' & He & Hin).
  apply Hn. rewrite He. apply list_elem_of_fmap_2. by apply list_elem_of_filter in Hin as [_ ?].
Qed.

Lemma kids_sorted m p : StronglySorted (sibling_le m) (kids m p).
Proof.
  unfold kids, children_of. rewrite lookup_fmap.
  destruct (fold_left _ _ _ !! p) as [l|]; simpl; [|constructor].
  apply StronglySorted_merge_sort; apply _.
Qed.

(** [kids m p] is determined by its members and the sibling order. *)
Lemma kids_unique m p l :
  keyed m → NoDup l → (∀ id, id ∈ l ↔ id ∈ kids m p) →
  StronglySorted (sibling_le m) l → l = kids m p.
Proof.
  intros Hk Hnd Hin Hs.
  eapply (StronglySorted_unique_strong (sibling_le m)); [|done|apply kids_sorted|].
  - intros a b Ha Hb. apply sibling_le_antisym; [done| |].
    + apply Hin, elem_of_kids in Ha as (?&?&?); eauto.
    + apply elem_of_kids in Hb as (?&?&?); eauto.
  - apply NoDup_Permutation; auto using NoDup_kids.
Qed.

Lemma sibling_le_skeleton {U} m (m' : gmap OpId (Element U)) a b :
  same_skeleton m m' → sibling_le m a b → sibling_le m' a b.
Proof.
  intros Hs. unfold sibling_le. pose proof (Hs a) as Ha. pose proof (Hs b) as Hb.
  destruct (m !! a) as [ea|], (m' !! a) as [ea'|], (m !! b) as [eb|], (m' !! b) as [eb'|];
    try done.
  unfold compare_siblings. injection Ha as E1 E2 E3. injection Hb as F1 F2 F3.
  by rewrite E1, E3, F1, F3.
Qed.
End kids.

Lemma same_skeleton_sym {T U} (m1 : gmap OpId (Element T)) (m2 : gmap OpId (Element U)) :
  same_skeleton m1 m2 → same_skeleton m2 m1.
Proof. intros H id. by rewrite H. Qed.

Lemma kids_skeleton {T} (m m' : gmap OpId (Element T)) p :
  keyed m → keyed m' → same_skeleton m m' → kids m p = kids m' p.
Proof.
  intros Hk Hk' Hs. apply kids_unique; [done|by apply NoDup_kids| |].
  - intros id. rewrite !elem_of_kids by done.
    specialize (Hs id). unfold skeleton in Hs.
    destruct (m !! id) as [e|], (m' !! id) as [e'|]; simplify_eq/=; naive_solver.
  - pose proof (kids_sorted m p) as Hsort. revert Hsort.
    induction 1 as [|x l _ IH Hall]; constructor; [done|].
    eapply Forall_impl; [done|]. intros y. by apply sibling_le_skeleton.
Qed.

(** ** Adding one element to the forest *)

(** Where the order of [m] with the leaf [e] added splits: everything in [u]
    sorts before [e] among its siblings, and [v] starts with the next greater
    sibling or with the first element outside the subtree of the parent. *)
Definition leaf_position {T} (m : gmap OpId (Element T)) (e : Element T) (u v : list OpId) : Prop :=
  (∀ z ez, z ∈ u → m !! z = Some ez → elem_after ez = elem_after e →
     compare_siblings e ez ≠ Lt) ∧
  ((∃ y ey v', v = y :: v' ∧ m !! y = Some ey ∧ elem_after ey = elem_after e ∧
      compare_siblings e ey = Lt) ∨
   (∀ z ez, m !! z = Some ez → elem_after ez = elem_after e → compare_siblings e ez ≠ Lt) ∧
   match elem_after e with
   | None => v = []
   | Some a => ∃ pre o, u = pre ++ a :: o ∧
       (∀ y, y ∈ o → ancestor m a y) ∧ (∀ y, y ∈ v → ¬ ancestor m a y)
   end).

Section leaf.
Context {T : Type} (m : gmap OpId (Element T)) (x : OpId) (e : Element T).
Hypothesis Hkeyed : keyed m.
Hypothesis Hfresh : m !! x = None.
Hypothesis Hid : elem_id e = x.
Let m' := <[x := e]> m.

Lemma keyed_insert : keyed m'.
Proof.
  intros id e'. unfold m'. rewrite lookup_insert.
  case_decide; [intros; by simplify_eq|apply Hkeyed].
Qed.

Lemma sibling_le_insert a b : a ≠ x → b ≠ x → sibling_le m' a b ↔ sibling_le m a b.
Proof. intros. unfold sibling_le, m'. by rewrite !lookup_insert_ne. Qed.

Lemma elem_of_kids_insert q id :
  id ∈ kids m' q ↔ (id = x ∧ elem_after e = q) ∨ id ∈ kids m q.
Proof.
  rewrite (elem_of_kids m') by apply keyed_insert. rewrite elem_of_kids by done.
  unfold m'. setoid_rewrite lookup_insert.
  destruct (decide (x = id)) as [<-|]; naive_solver.
Qed.

Lemma kids_insert_other q : q ≠ elem_after e → kids m' q = kids m q.
Proof.
  intros Hq. apply kids_unique; [done|apply NoDup_kids, keyed_insert| |].
  - intros id. rewrite elem_of_kids_insert. naive_solver.
  - assert (Hx : x ∉ kids m' q).
    { rewrite elem_of_kids_insert. intros [?|Hx]; [naive_solver|].
      apply elem_of_kids in Hx as (?&?&?); [congruence|done]. }
    pose proof (kids_sorted m' q) as Hs. revert Hx Hs. generalize (kids m' q). intros l.
    intros Hx. induction 1 as [|y l Hl IH Hall]; constructor; [set_solver|].
    rewrite Forall_forall in Hall |- *. intros z Hz.
    apply sibling_le_insert; [set_solver..|]. by apply Hall.
Qed.

Lemma kids_insert_split :
  ∃ l1 l2, kids m (elem_after e) = l1 ++ l2 ∧ kids m' (elem_after e) = l1 ++ x :: l2 ∧
    (∀ y, y ∈ l1 → sibling_lt m' y x) ∧ (∀ y, y ∈ l2 → sibling_lt m' x y).
Proof.
  assert (Hx : x ∈ kids m' (elem_after e)) by (rewrite elem_of_kids_insert; auto).
  apply list_elem_of_split in Hx as (l1 & l2 & Heq). exists l1, l2.
  pose proof (NoDup_kids m' (elem_after e) keyed_insert) as Hnd.
  pose proof (kids_sorted m' (elem_after e)) as Hs. rewrite Heq in Hnd, Hs.
  apply NoDup_app in Hnd as (Hnd1 & Hd & [Hx2 Hnd2]%NoDup_cons).
  assert (Hx1 : x ∉ l1) by (intros ?; by eapply (Hd x); [done|set_solver]).
  assert (Hin : ∀ y, y ∈ l1 ∨ y ∈ l2 → is_Some (m' !! y) ∧ y ≠ x).
  { intros y Hy. assert (Hy' : y ∈ kids m' (elem_after e)) by (rewrite Heq; set_solver).
    apply elem_of_kids in Hy' as (?&?&?); [|apply keyed_insert]. split; [eauto|].
    intros ->. naive_solver. }
  apply StronglySorted_app in Hs as (H12 & Hs1 & Hs2).
  apply StronglySorted_cons in Hs2 as [Hxl Hs2].
  assert (Hxm : is_Some (m' !! x)) by (unfold m'; rewrite lookup_insert_eq; eauto).
  split_and!; [|done| |].
  - symmetry. apply kids_unique; [done| | |].
    + apply NoDup_app. split_and!; [done|set_solver|done].
    + intros y. split.
      * intros Hy%elem_of_app. assert (Hy' : y ∈ kids m' (elem_after e)).
        { rewrite Heq. set_solver. }
        apply elem_of_kids_insert in Hy' as [[-> _]|?]; [|done]. by destruct (Hin x).
      * intros Hy. assert (Hy' : y ∈ l1 ++ x :: l2).
        { rewrite <-Heq, elem_of_kids_insert. auto. }
        assert (y ≠ x); [|set_solver].
        intros ->. apply elem_of_kids in Hy as (?&?&?); [congruence|done].
    + assert (Hs12 : StronglySorted (sibling_le m') (l1 ++ l2)).
      { apply StronglySorted_app. split_and!; [|done..]. set_solver. }
      assert (Hne : ∀ y, y ∈ l1 ++ l2 → y ≠ x) by (intros y Hy%elem_of_app; by apply Hin).
      revert Hne Hs12. generalize (l1 ++ l2). intros l Hne.
      induction 1 as [|y l Hl IH Hall]; constructor; [set_solver|].
      rewrite Forall_forall in Hall |- *. intros z Hz.
      apply sibling_le_insert; [set_solver..|]. by apply Hall.
  - intros y Hy. destruct (Hin y); [auto|].
    apply sibling_le_lt; auto using keyed_insert. apply H12; set_solver.
  - intros y Hy. destruct (Hin y); [auto|].
    apply sibling_le_lt; auto using keyed_insert. rewrite Forall_forall in Hxl. auto.
Qed.

Lemma sibling_lt_insert_l y ey :
  m !! y = Some ey → sibling_lt m' x y → compare_siblings e ey = Lt.
Proof.
  intros Hy (ex & ey' & Hx & Hy' & Hlt). unfold m' in *.
  rewrite lookup_insert_eq in Hx. rewrite lookup_insert_ne in Hy' by congruence.
  by simplify_eq.
Qed.
Lemma sibling_lt_insert_r y ey :
  m !! y = Some ey → sibling_lt m' y x → compare_siblings e ey ≠ Lt.
Proof.
  intros Hy (ey' & ex & Hy' & Hx & Hlt). unfold m' in *.
  rewrite lookup_insert_eq in Hx. rewrite lookup_insert_ne in Hy' by congruence.
  simplify_eq. rewrite compare_siblings_antisym, Hlt. done.
Qed.
End leaf.

Section order_leaf.
Context {T : Type}.
Implicit Types m : gmap OpId (Element T).

Lemma dfs_ancestor m a ks o y :
  keyed m → Dfs (kids m) ks o → (∀ k, k ∈ ks → ancestor m a k) → y ∈ o → ancestor m a y.
Proof.
  intros Hk H. induction H as [|k ks o1 o2 H1 IH1 H2 IH2]; intros Ha Hy; [set_solver|].
  apply elem_of_cons in Hy as [->|[Hy|Hy]%elem_of_app].
  - apply Ha; set_solver.
  - apply IH1; [|done]. intros c (ec & Hc & Hac)%elem_of_kids; [|done].
    eapply ancestor_up; eauto. apply Ha. set_solver.
  - apply IH2; [|done]. intros c Hc. apply Ha. set_solver.
Qed.

Lemma ancestor_in m a o y :
  keyed m → Dfs (kids m) (kids m (Some a)) o → ancestor m a y → y ∈ o.
Proof.
  intros Hk H. induction 1 as [y e Hy He|y e b Hy He _ IH].
  - eapply dfs_roots; [done|]. apply elem_of_kids; eauto.
  - eapply dfs_closed; [done..|]. apply elem_of_kids; eauto.
Qed.

(** Every anchor in a forest is an element of it. *)
Lemma order_anchor m out y e a :
  keyed m → Order m out → (∀ id, id ∈ out ↔ is_Some (m !! id)) →
  m !! y = Some e → elem_after e = Some a → is_Some (m !! a).
Proof.
  intros Hk Ho Hdom Hy He. apply Hdom.
  assert (Hin : y ∈ out) by (apply Hdom; eauto).
  destruct (dfs_elem _ _ _ _ Ho Hin) as [Hr|(b & Hb & Hr)];
    apply elem_of_kids in Hr as (e' & ? & ?); naive_solver.
Qed.

Lemma kids_not_in m out x :
  keyed m → Order m out → (∀ id, id ∈ out ↔ is_Some (m !! id)) →
  m !! x = None → kids m (Some x) = [].
Proof.
  intros Hk Ho Hdom Hx. destruct (kids m (Some x)) as [|y l] eqn:E; [done|].
  assert (Hy : y ∈ kids m (Some x)) by (rewrite E; set_solver).
  apply elem_of_kids in Hy as (e & Hy & He); [|done].
  destruct (order_anchor _ _ _ _ _ Hk Ho Hdom Hy He). congruence.
Qed.

(** Siblings in the part of the order before the insertion point. *)
Lemma siblings_before m (e : Element T) l1 l2 o2 (u : list OpId) z ez :
  keyed m → m !! elem_id e = None → kids m (elem_after e) = l1 ++ l2 →
  Dfs (kids m) l2 o2 → (∀ y, y ∈ u → y ∉ o2) →
  (∀ y, y ∈ l1 → sibling_lt (<[elem_id e := e]> m) y (elem_id e)) →
  z ∈ u → m !! z = Some ez → elem_after ez = elem_after e → compare_siblings e ez ≠ Lt.
Proof.
  intros Hk Hfresh Hkids H2 Hdisj Hlt Hz Hmz Haz.
  assert (Hin : z ∈ kids m (elem_after e)) by (apply elem_of_kids; eauto).
  rewrite Hkids in Hin. apply elem_of_app in Hin as [Hin|Hin].
  - by eapply sibling_lt_insert_r, Hlt.
  - destruct (Hdisj z Hz). by eapply dfs_roots.
Qed.

(** The insertion point is followed by the next greater sibling, if there is one. *)
Lemma siblings_after m (e : Element T) l1 l2 o2 (rest : list OpId) :
  keyed m → m !! elem_id e = None → kids m (elem_after e) = l1 ++ l2 →
  Dfs (kids m) l2 o2 →
  (∀ y, y ∈ l1 → sibling_lt (<[elem_id e := e]> m) y (elem_id e)) →
  (∀ y, y ∈ l2 → sibling_lt (<[elem_id e := e]> m) (elem_id e) y) →
  (∃ y ey v', o2 ++ rest = y :: v' ∧ m !! y = Some ey ∧ elem_after ey = elem_after e ∧
     compare_siblings e ey = Lt) ∨
  l2 = [] ∧ o2 = [] ∧
  (∀ z ez, m !! z = Some ez → elem_after ez = elem_after e → compare_siblings e ez ≠ Lt).
Proof.
  intros Hk Hfresh Hkids H2 Hlt1 Hlt2. destruct l2 as [|y l2].
  - right. inversion H2; subst. split_and!; [done..|]. intros z ez Hz Haz.
    eapply (siblings_before _ _ _ _ _ [z]); eauto with md_crdt; set_solver.
  - left. inversion H2 as [|? ? oa ob _ _]; subst.
    assert (Hy : y ∈ kids m (elem_after e)) by (rewrite Hkids; set_solver).
    apply elem_of_kids in Hy as (ey & Hy & Hay); [|done].
    exists y, ey. eexists. split_and!; [done..|].
    eapply sibling_lt_insert_l; [done..|]. apply Hlt2. set_solver.
Qed.

(** The child lists with the leaf added. *)
Lemma leaf_kids m (e : Element T) out :
  keyed m → Order m out → (∀ id, id ∈ out ↔ is_Some (m !! id)) →
  m !! elem_id e = None → (∀ a, elem_after e = Some a → is_Some (m !! a)) →
  let m' := <[elem_id e := e]> m in
  ∃ l1 l2, kids m (elem_after e) = l1 ++ l2 ∧
    kids m' (elem_after e) = l1 ++ elem_id e :: l2 ∧
    (∀ y, y ∈ l1 → sibling_lt m' y (elem_id e)) ∧
    (∀ y, y ∈ l2 → sibling_lt m' (elem_id e) y) ∧
    (∀ q, q ≠ elem_after e → q ≠ Some (elem_id e) → kids m' q = kids m q) ∧
    kids m' (Some (elem_id e)) = [].
Proof.
  intros Hk Ho Hdom Hfresh Hanchor m'.
  destruct (kids_insert_split m (elem_id e) e Hk Hfresh eq_refl)
    as (l1 & l2 & Hl & Hl' & Hlt1 & Hlt2).
  exists l1, l2. split_and!; [done..| |].
  - intros q ? _. by apply kids_insert_other.
  - unfold m'. rewrite kids_insert_other; [by eapply kids_not_in|done..|].
    intros Heq. destruct (Hanchor (elem_id e)); congruence.
Qed.

Lemma order_leaf m (e : Element T) out :
  keyed m → Order m out → NoDup out → (∀ id, id ∈ out ↔ is_Some (m !! id)) →
  m !! elem_id e = None → (∀ a, elem_after e = Some a → is_Some (m !! a)) →
  ∃ u v, out = u ++ v ∧ Order (<[elem_id e := e]> m) (u ++ elem_id e :: v) ∧
    leaf_position m e u v.
Proof.
  intros Hk Ho Hnd Hdom Hfresh Hanchor.
  destruct (leaf_kids m e out) as (l1 & l2 & Hl & Hl' & Hlt1 & Hlt2 & HKne & HKx); [done..|].
  set (x := elem_id e) in *. set (K := kids m) in *. set (K' := kids (<[x := e]> m)) in *.
  assert (Hx : x ∉ out) by (rewrite Hdom, Hfresh; by intros []).
  destruct (elem_after e) as [a|] eqn:Hae.
  - assert (Ha : a ∈ out) by (apply Hdom; eauto).
    destruct (dfs_leaf_inside K K' x (Some a) l1 l2 Hl Hl' HKne HKx _ _ _
      eq_refl Hx Hnd Ha Ho) as (pre & o1 & o2 & post & -> & H1 & H2 & H').
    exists (pre ++ a :: o1), (o2 ++ post).
    rewrite <-Hae in Hl.
    assert (Hd : ∀ y, y ∈ pre ++ a :: o1 → y ∉ o2 ++ post).
    { replace (pre ++ a :: (o1 ++ o2) ++ post) with ((pre ++ a :: o1) ++ (o2 ++ post))
        in Hnd by by simplify_list_eq. by apply NoDup_app in Hnd as (_ & ? & _). }
    split_and!; [by simplify_list_eq| |].
    { unfold Order. fold K'. rewrite HKne by done. by simplify_list_eq. }
    split.
    { intros. eapply siblings_before; eauto. set_solver. }
    destruct (siblings_after m e l1 l2 o2 post) as [?|(-> & -> & Hall)]; auto.
    right. split; [done|]. rewrite Hae. exists pre, o1. rewrite app_nil_r, Hae in Hl.
    rewrite <-Hl in H1. split_and!; [done| |].
    + intros y. eapply dfs_ancestor; [done..|]. intros k (ek&?&?)%elem_of_kids; [|done].
      by eapply ancestor_parent.
    + intros y Hy Hanc. apply (Hd y); [|done].
      pose proof (ancestor_in _ _ _ _ Hk H1 Hanc). set_solver.
  - unfold Order in Ho. fold K in Ho. rewrite Hl in Ho.
    apply dfs_app in Ho as (o1 & o2 & -> & H1 & H2). exists o1, o2.
    assert (Hd : ∀ y, y ∈ o1 → y ∉ o2) by by apply NoDup_app in Hnd as (_ & ? & _).
    split_and!; [done| |].
    { unfold Order. fold K'. rewrite Hl'. apply (dfs_leaf_here K'); [done|..];
        (eapply dfs_leaf_outside; [exact HKne|done| |done]; set_solver). }
    rewrite <-Hae in Hl. split; [intros; by eapply siblings_before|].
    destruct (siblings_after m e l1 l2 o2 []) as [H|(-> & -> & Hall)]; auto.
    + left. by rewrite app_nil_r in H.
    + right. split; [done|]. by rewrite Hae.
Qed.

(** A leaf that sorts before its siblings lands right behind its anchor. *)
Lemma order_leaf_first m (e : Element T) out :
  keyed m → Order m out → NoDup out → (∀ id, id ∈ out ↔ is_Some (m !! id)) →
  m !! elem_id e = None → (∀ a, elem_after e = Some a → is_Some (m !! a)) →
  (∀ y ey, m !! y = Some ey → elem_after ey = elem_after e → compare_siblings e ey = Lt) →
  match elem_after e with
  | None => Order (<[elem_id e := e]> m) (elem_id e :: out)
  | Some a => ∃ pre post, out = pre ++ a :: post ∧
      Order (<[elem_id e := e]> m) (pre ++ a :: elem_id e :: post)
  end.
Proof.
  intros Hk Ho Hnd Hdom Hfresh Hanchor Hfirst.
  destruct (leaf_kids m e out) as (l1 & l2 & Hl & Hl' & Hlt1 & Hlt2 & HKne & HKx); [done..|].
  set (x := elem_id e) in *. set (K := kids m) in *. set (K' := kids (<[x := e]> m)) in *.
  assert (Hx : x ∉ out) by (rewrite Hdom, Hfresh; by intros []).
  assert (l1 = []) as ->.
  { destruct l1 as [|y l1]; [done|]. exfalso.
    assert (Hy : y ∈ kids m (elem_after e)).
    { change (y ∈ K (elem_after e)). rewrite Hl. set_solver. }
    apply elem_of_kids in Hy as (ey & Hy & Hay); [|done].
    apply (sibling_lt_insert_r m x e Hfresh eq_refl y ey Hy); [apply Hlt1; set_solver|].
    by apply (Hfirst y). }
  simpl in Hl, Hl'. destruct (elem_after e) as [a|] eqn:Hae.
  - assert (Ha : a ∈ out) by (apply Hdom; eauto).
    destruct (dfs_leaf_inside K K' x (Some a) [] l2 Hl Hl' HKne HKx _ _ _
      eq_refl Hx Hnd Ha Ho) as (pre & o1 & o2 & post & -> & H1 & H2 & H').
    inversion H1; subst o1. exists pre, (o2 ++ post). split; [done|].
    unfold Order. fold K'. by rewrite HKne.
  - unfold Order in *. fold K K' in Ho |- *. rewrite Hl in Ho. rewrite Hl'.
    apply (dfs_leaf_here K' x [] l2 HKx [] out); [constructor|].
    by eapply dfs_leaf_outside.
Qed.

Lemma order_skeleton m m' out :
  keyed m → keyed m' → same_skeleton m m' → Order m out → Order m' out.
Proof.
  intros Hk Hk' Hs. unfold Order. rewrite <-(kids_skeleton m m' None) by done.
  apply dfs_ext. intros b _. symmetry. by apply kids_skeleton.
Qed.
End order_leaf.
