(* ===== verification/SequenceInv.v ===== *)
(** * Well-formed sequences, and the specification machine they refine

    [seq_wf] is the representation invariant of [Sequence]: unique ids, an index
    that agrees with the vector, and [after] edges that form a forest.
    [canonical] adds that the vector is in document order.  [Rga] is the
    abstract machine: the set of integrated elements, as a map, and the two
    buffers.  Every concrete operation is shown to preserve the invariant and to
    act on the abstraction [rga_of] as the machine does, for both settings of
    the feature [sequence_incremental]. *)

From S2P Require Import Prelude Core Sequence SequenceOrder.

(** ** Abstraction and invariant *)

Definition emap {T} (s : Sequence T) : gmap OpId (Element T) := element_map_of (seq_elements s).

Record seq_wf {T} (s : Sequence T) : Prop := {
  wf_nodup : NoDup (element_ids s);
  wf_index : ∀ id i, seq_index s !! id = Some i ↔ element_ids s !! i = Some id;
  wf_tree : tree_ok (emap s);
}.

Definition canonical {T} (s : Sequence T) : Prop := Order (emap s) (element_ids s).

(** ** The specification machine *)

Record Rga (T : Type) := mkRga {
  rga_map : gmap OpId (Element T);
  rga_inserts : gmap OpId (list (SequenceOp T));
  rga_deletes : gmap OpId (list (SequenceOp T));
}.
Arguments mkRga {_} _ _ _.
Arguments rga_map {_} _.
Arguments rga_inserts {_} _.
Arguments rga_deletes {_} _.

Definition rga_of {T} (s : Sequence T) : Rga T :=
  mkRga (emap s) (pending_inserts s) (pending_deletes s).

(** An insert can be integrated once its anchor is known. *)
Definition anchored {T} (m : gmap OpId (Element T)) (after : option OpId) : bool :=
  match after with Some a => bool_decide (is_Some (m !! a)) | None => true end.

Definition rga_add {T} (after : option OpId) (id : OpId) (v : T) (ro : option OpId)
    (m : gmap OpId (Element T)) : gmap OpId (Element T) :=
  match m !! id with
  | Some _ => m
  | None => <[id := mkElement id (Some v) after ro]> m
  end.

Definition tombstone {T} (target : OpId) (m : gmap OpId (Element T)) : gmap OpId (Element T) :=
  alter (set_value None) target m.

Definition rga_ready {T} (op : SequenceOp T) (m : gmap OpId (Element T)) : bool :=
  match op with
  | Insert after id _ _ => bool_decide (is_Some (m !! id)) || anchored m after
  | Delete target _ => bool_decide (is_Some (m !! target))
  end.

Definition rga_effect {T} (op : SequenceOp T) (m : gmap OpId (Element T)) :
    gmap OpId (Element T) :=
  match op with
  | Insert after id v ro => rga_add after id v ro m
  | Delete target _ => tombstone target m
  end.

(** Buffers [op] under the id it waits for. *)
Definition rga_buffer {T} (op : SequenceOp T) (r : Rga T) : Rga T :=
  match op with
  | Insert (Some a) _ _ _ =>
    mkRga (rga_map r) (btree_push a op (rga_inserts r)) (rga_deletes r)
  | Insert None _ _ _ => r
  | Delete t _ => mkRga (rga_map r) (rga_inserts r) (btree_push t op (rga_deletes r))
  end.

Definition rga_take {T} (id : OpId) (r : Rga T) : Rga T * list (SequenceOp T) :=
  (mkRga (rga_map r) (delete id (rga_inserts r)) (delete id (rga_deletes r)),
   default [] (rga_inserts r !! id) ++ default [] (rga_deletes r !! id)).

Definition rga_step {T} (op : SequenceOp T) (r : Rga T) (queue : list (SequenceOp T)) :
    Rga T * list (SequenceOp T) :=
  if rga_ready op (rga_map r) then
    let r := mkRga (rga_effect op (rga_map r)) (rga_inserts r) (rga_deletes r) in
    match op with
    | Insert _ id _ _ => let '(r, ops) := rga_take id r in (r, queue ++ ops)
    | Delete _ _ => (r, queue)
    end
  else (rga_buffer op r, queue).

Fixpoint rga_drain {T} (fuel : nat) (r : Rga T) (queue : list (SequenceOp T)) : option (Rga T) :=
  match queue, fuel with
  | [], _ => Some r
  | _ :: _, 0 => None
  | op :: queue, S fuel => let '(r, queue) := rga_step op r queue in rga_drain fuel r queue
  end.

Definition rga_fuel {T} (r : Rga T) : nat :=
  let n := S (pending_count (rga_inserts r) + pending_count (rga_deletes r)) in n * n.

(** Integrate [op], then everything it unblocks. *)
Definition rga_apply {T} (op : SequenceOp T) (r : Rga T) : Rga T :=
  let '(r', queue) := rga_step op r [] in default r' (rga_drain (rga_fuel r) r' queue).

(** Buffered operations wait for an element that is not there. *)
Record pending_wf {T} (r : Rga T) : Prop := {
  wf_pending_inserts : ∀ a l, rga_inserts r !! a = Some l →
    rga_map r !! a = None ∧ l ≠ [] ∧ Forall (λ op, ∃ id v ro, op = Insert (Some a) id v ro) l;
  wf_pending_deletes : ∀ t l, rga_deletes r !! t = Some l →
    rga_map r !! t = None ∧ l ≠ [] ∧ Forall (λ op, ∃ id, op = Delete t id) l;
}.

(** The full invariant of a sequence between operations. *)
Record sequence_inv {T} (s : Sequence T) : Prop := {
  inv_wf : seq_wf s;
  inv_canonical : canonical s;
  inv_pending : pending_wf (rga_of s);
}.

(** ** The element map of a vector *)

Section emap.
Context {T : Type}.
Implicit Types (els : list (Element T)) (s : Sequence T).

Lemma element_map_snoc els e :
  element_map_of (els ++ [e]) = <[elem_id e := e]> (element_map_of els).
Proof. unfold element_map_of. by rewrite fmap_app, (btree_collect_snoc _ (elem_id e, e)). Qed.

Lemma element_map_fst els : ((λ e, (elem_id e, e)) <$> els).*1 = elem_id <$> els.
Proof. by rewrite <-list_fmap_compose. Qed.

Lemma element_map_keyed els : keyed (element_map_of els).
Proof.
  intros id e H. apply btree_collect_elem, list_elem_of_fmap in H as (e' & ? & _).
  by simplify_eq.
Qed.

Lemma element_map_lookup els id e :
  NoDup (elem_id <$> els) → element_map_of els !! id = Some e ↔ e ∈ els ∧ elem_id e = id.
Proof.
  intros Hnd. unfold element_map_of.
  rewrite btree_collect_lookup by by rewrite element_map_fst.
  rewrite list_elem_of_fmap. naive_solver.
Qed.

Lemma element_map_is_Some els id :
  is_Some (element_map_of els !! id) ↔ id ∈ elem_id <$> els.
Proof.
  unfold element_map_of. rewrite <-not_eq_None_Some, btree_collect_None, element_map_fst.
  destruct (decide (id ∈ elem_id <$> els)); tauto.
Qed.

Lemma element_map_perm els els' :
  NoDup (elem_id <$> els) → els ≡ₚ els' → element_map_of els = element_map_of els'.
Proof.
  intros Hnd Hp. assert (NoDup (elem_id <$> els')) by by rewrite <-Hp.
  apply map_eq. intros id. apply option_eq. intros e.
  rewrite !element_map_lookup by done. by rewrite Hp.
Qed.

Lemma element_map_at els i e :
  NoDup (elem_id <$> els) → els !! i = Some e → element_map_of els !! elem_id e = Some e.
Proof.
  intros Hnd Hi. apply element_map_lookup; [done|]. split; [|done].
  by eapply list_elem_of_lookup_2.
Qed.

(** Changing one value changes one entry and no skeleton. *)
Lemma element_map_alter els i id v :
  NoDup (elem_id <$> els) → (elem_id <$> els) !! i = Some id →
  element_map_of (alter (set_value v) i els) = alter (set_value v) id (element_map_of els).
Proof.
  intros Hnd Hi.
  assert (Hids : elem_id <$> alter (set_value v) i els = elem_id <$> els).
  { apply list_eq. intros j. rewrite !list_lookup_fmap.
    destruct (decide (i = j)) as [->|].
    - rewrite list_lookup_alter_eq. by destruct (els !! j).
    - by rewrite list_lookup_alter_ne. }
  apply map_eq. intros k. apply option_eq. intros e.
  rewrite element_map_lookup by by rewrite Hids. rewrite lookup_alter.
  rewrite list_lookup_fmap, fmap_Some in Hi. destruct Hi as (e0 & Hi & ->).
  case_decide as Hk.
  - subst k. rewrite (element_map_at _ _ _ Hnd Hi). simpl. split.
    + intros [(j & Hj)%list_elem_of_lookup Hid]. f_equal.
      assert (j = i) as ->.
      { eapply NoDup_lookup; [exact Hnd| |by rewrite list_lookup_fmap, Hi].
        rewrite <-Hids, list_lookup_fmap, Hj. simpl. by rewrite Hid. }
      rewrite list_lookup_alter_eq, Hi in Hj. by simplify_eq/=.
    + intros [= <-]. split; [|done]. apply list_elem_of_lookup. exists i.
      by rewrite list_lookup_alter_eq, Hi.
  - rewrite element_map_lookup by done. split; intros [(j & Hj)%list_elem_of_lookup <-].
    + destruct (decide (i = j)) as [->|].
      { rewrite list_lookup_alter_eq, Hi in Hj. by simplify_eq/=. }
      rewrite list_lookup_alter_ne in Hj by done. split; [|done].
      by eapply list_elem_of_lookup_2.
    + split; [|done]. apply list_elem_of_lookup. exists j.
      rewrite list_lookup_alter_ne; [done|]. intros ->. by simplify_eq.
Qed.
End emap.

(** ** Index and order *)

Section wf.
Context {T : Type}.
Implicit Types (els : list (Element T)) (s : Sequence T).

Lemma rebuild_index_lookup els id i :
  NoDup (elem_id <$> els) →
  rebuild_index_of els !! id = Some i ↔ (elem_id <$> els) !! i = Some id.
Proof.
  intros Hnd. unfold rebuild_index_of.
  assert (Hfst : (imap (λ i e, (elem_id e, i)) els).*1 = elem_id <$> els).
  { rewrite fmap_imap.
    apply list_eq. intros j. rewrite list_lookup_imap, list_lookup_fmap.
    by destruct (els !! j). }
  rewrite btree_collect_lookup by by rewrite Hfst.
  rewrite elem_of_lookup_imap, list_lookup_fmap, fmap_Some. naive_solver.
Qed.

Lemma wf_index_is_Some s id : seq_wf s → is_Some (seq_index s !! id) ↔ is_Some (emap s !! id).
Proof.
  intros Hwf. unfold emap. rewrite element_map_is_Some. fold (element_ids s).
  rewrite list_elem_of_lookup. split.
  - intros [i Hi]. exists i. by apply (wf_index _ Hwf).
  - intros [i Hi]. exists i. by apply (wf_index _ Hwf).
Qed.

Lemma wf_index_None s id : seq_wf s → seq_index s !! id = None ↔ emap s !! id = None.
Proof.
  intros Hwf. rewrite !eq_None_not_Some. by rewrite wf_index_is_Some.
Qed.

Lemma wf_get_element s id : seq_wf s → get_element s id = emap s !! id.
Proof.
  intros Hwf. unfold get_element. destruct (seq_index s !! id) as [i|] eqn:Hi; simpl.
  - pose proof (proj1 (wf_index _ Hwf _ _) Hi) as Hi'. unfold element_ids in Hi'.
    rewrite list_lookup_fmap, fmap_Some in Hi'. destruct Hi' as (e & He & ->).
    rewrite He. symmetry. eapply element_map_at; [apply Hwf|done].
  - symmetry. by apply wf_index_None.
Qed.

(** A sequence in document order is determined by its set of elements. *)
Lemma elements_unique els1 els2 :
  NoDup (elem_id <$> els1) → elem_id <$> els1 = elem_id <$> els2 →
  element_map_of els1 = element_map_of els2 → els1 = els2.
Proof.
  intros Hnd Hids Hm. apply list_eq. intros i.
  pose proof (f_equal (.!! i) Hids) as Hi. simpl in Hi. rewrite !list_lookup_fmap in Hi.
  destruct (els1 !! i) as [e1|] eqn:E1, (els2 !! i) as [e2|] eqn:E2; simplify_eq/=; [|done].
  pose proof (element_map_at _ _ _ Hnd E1) as H1. rewrite Hids in Hnd.
  pose proof (element_map_at _ _ _ Hnd E2) as H2. congruence.
Qed.

Lemma canonical_unique s1 s2 :
  seq_wf s1 → seq_wf s2 → canonical s1 → canonical s2 → rga_of s1 = rga_of s2 → s1 = s2.
Proof.
  intros Hw1 Hw2 Hc1 Hc2 Hrga. unfold rga_of in Hrga.
  injection Hrga as Hm Hpi Hpd. unfold canonical in *. rewrite Hm in Hc1.
  pose proof (dfs_det _ _ _ _ Hc1 Hc2) as Hids.
  assert (Hels : seq_elements s1 = seq_elements s2).
  { apply elements_unique; [apply Hw1|done|done]. }
  assert (Hidx : seq_index s1 = seq_index s2).
  { apply map_eq. intros id. apply option_eq. intros i.
    by rewrite (wf_index _ Hw1), (wf_index _ Hw2), Hids. }
  destruct s1, s2; simpl in *. congruence.
Qed.

Lemma remove_each_spec ids (m : gmap OpId (Element T)) :
  NoDup ids → (∀ id, id ∈ ids → is_Some (m !! id)) → keyed m →
  elem_id <$> remove_each ids m = ids ∧ ∀ e, e ∈ remove_each ids m → m !! elem_id e = Some e.
Proof.
  revert m. induction ids as [|id ids IH]; intros m Hnd Hin Hk; simpl; [set_solver|].
  apply NoDup_cons in Hnd as [Hid Hnd].
  destruct (Hin id) as [e He]; [set_solver|]. rewrite He.
  destruct (IH (delete id m)) as [Hids Hels]; [done| | |].
  - intros id' Hid'. rewrite lookup_delete_ne by set_solver. apply Hin. set_solver.
  - intros id' e'. rewrite lookup_delete_Some. intros [_ ?]. by apply Hk.
  - rewrite fmap_cons, Hids, (Hk _ _ He). split; [done|].
    intros e' [->|He']%elem_of_cons; [by rewrite (Hk _ _ He)|].
    specialize (Hels _ He'). by apply lookup_delete_Some in Hels as [_ ?].
Qed.

Lemma remove_each_map ids (m : gmap OpId (Element T)) :
  NoDup ids → (∀ id, id ∈ ids ↔ is_Some (m !! id)) → keyed m →
  element_map_of (remove_each ids m) = m.
Proof.
  intros Hnd Hin Hk. destruct (remove_each_spec ids m) as [Hids Hels]; [done|naive_solver|done|].
  apply map_eq. intros id. apply option_eq. intros e.
  rewrite element_map_lookup by by rewrite Hids. split.
  - intros [He <-]. by apply Hels.
  - intros He. split; [|by apply Hk].
    assert (Hid : id ∈ ids) by (apply Hin; eauto).
    rewrite <-Hids in Hid. apply list_elem_of_fmap in Hid as (e' & -> & He').
    specialize (Hels _ He'). by simplify_eq.
Qed.

(** The fuel of the walk: as many levels as there are elements. *)
Lemma walk_order (m : gmap OpId (Element T)) out :
  Order m out → NoDup out → (∀ id, id ∈ out ↔ is_Some (m !! id)) →
  walk_children (S (size m)) None (children_of m) [] = out.
Proof.
  intros Ho Hnd Hdom. apply (dfs_walk (kids m)); [done|done|].
  replace (size m) with (length (map_to_list m).*1)
    by by rewrite length_fmap, length_map_to_list.
  apply Nat.eq_le_incl, NoDup_same_length; [done|apply NoDup_fst_map_to_list|].
  intros id. rewrite Hdom, list_elem_of_fmap. split.
  - intros [e He]. exists (id, e). by rewrite elem_of_map_to_list.
  - intros ([id' e] & -> & He%elem_of_map_to_list). eauto.
Qed.

Lemma rebuild_order_spec s :
  NoDup (element_ids s) → tree_ok (emap s) →
  seq_wf (rebuild_order s) ∧ canonical (rebuild_order s) ∧ rga_of (rebuild_order s) = rga_of s.
Proof.
  intros Hnd (out & Ho & Hout & Hdom).
  unfold rebuild_order. fold (emap s). rewrite (walk_order (emap s) out) by done.
  set (els := remove_each out (emap s)).
  destruct (remove_each_spec out (emap s)) as [Hids _];
    [done|naive_solver|apply element_map_keyed|]. fold els in Hids.
  assert (Hm : element_map_of els = emap s)
    by (apply remove_each_map; [done..|apply element_map_keyed]).
  split_and!.
  - split; unfold element_ids, emap; simpl; rewrite ?Hids, ?Hm; [done| |by exists out].
    intros id i. rewrite rebuild_index_lookup; rewrite Hids; done.
  - unfold canonical, element_ids, emap. simpl. by rewrite Hm, Hids.
  - unfold rga_of, emap. simpl. by rewrite Hm.
Qed.
End wf.

(** ** Incremental placement *)

Section incremental.
Context {T : Type}.
Implicit Types (els : list (Element T)) (s : Sequence T).

Lemma emap_elem s e : seq_wf s → e ∈ seq_elements s → emap s !! elem_id e = Some e.
Proof. intros Hwf He. by apply element_map_lookup; [apply Hwf|]. Qed.

Lemma canonical_dom s id : id ∈ element_ids s ↔ is_Some (emap s !! id).
Proof. unfold emap. by rewrite element_map_is_Some. Qed.

Lemma tree_ok_leaf (m : gmap OpId (Element T)) e :
  keyed m → tree_ok m → m !! elem_id e = None →
  (∀ a, elem_after e = Some a → is_Some (m !! a)) → tree_ok (<[elem_id e := e]> m).
Proof.
  intros Hk (out & Ho & Hnd & Hdom) Hfresh Hanchor.
  destruct (order_leaf m e out) as (u & v & -> & Ho' & _); [done..|].
  exists (u ++ elem_id e :: v). split_and!; [done| |].
  - rewrite <-Permutation_middle. apply NoDup_cons. split; [|done].
    rewrite Hdom, Hfresh. by intros [].
  - intros id. rewrite <-Permutation_middle, elem_of_cons, Hdom, lookup_insert_is_Some'.
    naive_solver.
Qed.

(** In document order an anchor stands before the elements it anchors. *)
Lemma canonical_parent_before s i b e c :
  canonical s → element_ids s !! i = Some b → emap s !! b = Some e →
  elem_after e = Some c → ∃ j, j < i ∧ element_ids s !! j = Some c.
Proof.
  intros Hc Hi He Ha. assert (Hk : keyed (emap s)) by apply element_map_keyed.
  destruct (dfs_parent_before _ _ _ (take i (element_ids s)) b
    (drop (S i) (element_ids s)) Hc) as [Hr|(c' & Hc' & Hr)].
  - by rewrite take_drop_middle.
  - apply elem_of_kids in Hr as (?&?&?); [congruence|done].
  - apply elem_of_kids in Hr as (?&?&?); [|done]. simplify_eq.
    apply list_elem_of_lookup in Hc' as (j & Hj). apply lookup_take_Some in Hj as [Hj Hlt].
    eauto.
Qed.

Lemma ancestor_inv (m : gmap OpId (Element T)) a y e :
  m !! y = Some e → ancestor m a y ↔ ∃ b, elem_after e = Some b ∧ (b = a ∨ ancestor m a b).
Proof.
  intros Hy. split.
  - destruct 1 as [? ? ? ?|? ? ? ? ? ?]; simplify_eq; eauto.
  - intros (b & Hb & [->|Hanc]); [by eapply ancestor_parent|by eapply ancestor_up].
Qed.

(** The ancestor loop: the position of the cursor is enough fuel. *)
Lemma descendant_loop_spec s a fuel b i :
  seq_wf s → canonical s → element_ids s !! i = Some b → i ≤ fuel →
  descendant_loop fuel s (Some b) a = true ↔ b = a ∨ ancestor (emap s) a b.
Proof.
  intros Hwf Hc. revert b i. induction fuel as [|fuel IH]; intros b i Hi Hf;
    simpl; (case_decide; [naive_solver|]).
  - assert (i = 0) as -> by lia. split; [done|]. intros [?|Hanc]; [done|].
    inversion Hanc as [? e He Ha|? e c He Ha _]; subst;
      destruct (canonical_parent_before _ _ _ _ _ Hc Hi He Ha) as (j & ? & _); lia.
  - rewrite wf_get_element by done.
    destruct (emap s !! b) as [e|] eqn:He.
    2:{ assert (Hb : b ∈ element_ids s) by (by eapply list_elem_of_lookup_2).
        apply canonical_dom in Hb as [? ?]. congruence. }
    simpl. rewrite (ancestor_inv _ _ _ _ He). destruct (elem_after e) as [c|] eqn:Ha.
    + destruct (canonical_parent_before _ _ _ _ _ Hc Hi He Ha) as (j & Hj & Hcj).
      rewrite (IH c j) by (done || lia). naive_solver.
    + destruct fuel; naive_solver.
Qed.

Lemma is_descendant_of_spec s a e :
  seq_wf s → canonical s → e ∈ seq_elements s →
  is_descendant_of s e a = true ↔ ancestor (emap s) a (elem_id e).
Proof.
  intros Hwf Hc He. unfold is_descendant_of.
  pose proof (emap_elem _ _ Hwf He) as Hm. rewrite (ancestor_inv _ _ _ _ Hm).
  destruct (elem_after e) as [b|] eqn:Ha.
  - assert (Hb : b ∈ element_ids s).
    { apply canonical_dom. destruct (wf_tree _ Hwf) as (out & Ho & _ & Hdom).
      eapply order_anchor; eauto using element_map_keyed. }
    apply list_elem_of_lookup in Hb as (j & Hj).
    rewrite (descendant_loop_spec _ _ _ _ j); [naive_solver|done..|].
    apply lookup_lt_Some in Hj. unfold element_ids in Hj. rewrite length_fmap in Hj. lia.
  - destruct (length (seq_elements s)); naive_solver.
Qed.
End incremental.

Section placement.
Context {T : Type}.
Implicit Types (els : list (Element T)) (s : Sequence T).

(** Renumbering the index from the insertion point on. *)
Lemma renumber_index eu ev (e : Element T) (idx : gmap OpId nat) id i :
  NoDup (elem_id <$> eu ++ e :: ev) →
  (∀ id i, idx !! id = Some i ↔ (elem_id <$> eu ++ ev) !! i = Some id) →
  fold_left (λ m ie, <[elem_id ie.2 := ie.1]> m)
    (drop (length eu) (imap pair (eu ++ e :: ev))) idx !! id = Some i ↔
  (elem_id <$> eu ++ e :: ev) !! i = Some id.
Proof.
  intros Hnd Hidx.
  set (l := (λ ie, (elem_id ie.2, ie.1)) <$> drop (length eu) (imap pair (eu ++ e :: ev))).
  assert (Hfold : fold_left (λ m ie, <[elem_id ie.2 := ie.1]> m)
    (drop (length eu) (imap pair (eu ++ e :: ev))) idx = btree_collect l ∪ idx).
  { rewrite <-fold_insert_union. unfold l. by rewrite fold_left_fmap. }
  assert (Hl : l = imap (λ j e, (elem_id e, length eu + j)) (e :: ev)).
  { unfold l. rewrite imap_app, drop_app_length', fmap_imap by by rewrite length_imap.
    apply imap_ext. intros j x _. by rewrite Nat.add_comm. }
  assert (Hfst : l.*1 = elem_id <$> e :: ev).
  { rewrite Hl, fmap_imap. apply list_eq. intros j.
    rewrite list_lookup_imap, list_lookup_fmap. by destruct ((e :: ev) !! j). }
  rewrite fmap_app in Hnd. apply NoDup_app in Hnd as (Hnd1 & Hd & Hnd2).
  rewrite Hfold, lookup_union_Some_raw, btree_collect_None, Hfst.
  rewrite btree_collect_lookup by by rewrite Hfst.
  rewrite Hl at 1. rewrite elem_of_lookup_imap, Hidx, !fmap_app. split.
  - intros [(j & x & Heq & Hj)|[Hn Hi]].
    + simplify_eq. rewrite lookup_app_r by (rewrite length_fmap; lia).
      rewrite length_fmap, list_lookup_fmap.
      replace (length eu + j - length eu) with j by lia. by rewrite Hj.
    + apply lookup_app_Some in Hi as [Hi|[_ Hi]].
      * by apply lookup_app_l_Some.
      * destruct Hn. apply list_elem_of_lookup_2 in Hi. set_solver.
  - intros [Hi|[Hge Hi]]%lookup_app_Some.
    + right. split; [|by apply lookup_app_l_Some].
      apply list_elem_of_lookup_2 in Hi. by apply Hd.
    + left. rewrite length_fmap in Hge, Hi.
      rewrite list_lookup_fmap, fmap_Some in Hi. destruct Hi as (x & Hx & ->).
      exists (i - length eu), x. split; [|done]. f_equal. lia.
Qed.

Lemma subtree_end_spec s pre eo ev (ea : Element T) :
  seq_wf s → canonical s → seq_elements s = pre ++ ea :: eo ++ ev →
  (∀ y, y ∈ eo → ancestor (emap s) (elem_id ea) (elem_id y)) →
  (∀ y, y ∈ ev → ¬ ancestor (emap s) (elem_id ea) (elem_id y)) →
  subtree_end s (Some (elem_id ea)) = length (pre ++ ea :: eo).
Proof.
  intros Hwf Hc Hels Hin Hout. unfold subtree_end.
  assert (Hidx : seq_index s !! elem_id ea = Some (length pre)).
  { apply (wf_index _ Hwf). unfold element_ids. rewrite Hels, fmap_app.
    rewrite <-(length_fmap elem_id pre). by apply list_lookup_middle. }
  rewrite Hidx, Hels. simpl.
  replace (pre ++ ea :: eo ++ ev) with ((pre ++ [ea]) ++ eo ++ ev) by by simplify_list_eq.
  rewrite drop_app_length' by (rewrite length_app; simpl; lia).
  assert (Hdesc : ∀ y, y ∈ eo ++ ev →
    negb (is_descendant_of s y (elem_id ea)) = false ↔ ancestor (emap s) (elem_id ea) (elem_id y)).
  { intros y Hy. rewrite negb_false_iff, is_descendant_of_spec; [done..|].
    rewrite Hels. set_solver. }
  destruct ev as [|y ev].
  - rewrite (proj2 (position_None _ _)); [rewrite !length_app; simpl; lia|].
    intros y Hy. apply Hdesc; [done|]. rewrite app_nil_r in Hy. auto.
  - rewrite (position_app _ eo ev y); [rewrite length_app; simpl; lia| |].
    + intros z Hz. apply Hdesc; [set_solver|auto].
    + apply not_false_iff_true. rewrite Hdesc by set_solver. apply Hout. set_solver.
Qed.

(** The position [insert_incrementally] chooses is the one of the full order. *)
Lemma insert_position s (e : Element T) eu ev :
  seq_wf s → canonical s → seq_elements s = eu ++ ev →
  leaf_position (emap s) e (elem_id <$> eu) (elem_id <$> ev) →
  match position (precedes_sibling e) (seq_elements s) with
  | Some i => i
  | None => subtree_end s (elem_after e)
  end = length eu.
Proof.
  intros Hwf Hc Hels [Hbefore Hafter].
  assert (Hm : ∀ z, z ∈ seq_elements s → emap s !! elem_id z = Some z)
    by (intros; by apply emap_elem).
  assert (Hpre : ∀ z, z ∈ eu → precedes_sibling e z = false).
  { intros z Hz. unfold precedes_sibling. case_bool_decide as Ha; [|done]. simpl.
    pose proof (Hbefore (elem_id z) z) as Hb.
    destruct (compare_siblings e z); try done. destruct Hb; [|apply Hm|done|done].
    - by apply list_elem_of_fmap_2.
    - rewrite Hels. set_solver. }
  destruct Hafter as [(y & ey & v' & Hv & Hy & Hay & Hlt)|[Hall Hend]].
  - destruct ev as [|ey' ev]; simplify_eq/=.
    assert (ey' = ey) as -> by (rewrite Hm in Hy by (rewrite Hels; set_solver); congruence).
    rewrite Hels, (position_app _ eu ev ey); [done..|].
    unfold precedes_sibling. rewrite bool_decide_eq_true_2 by done. by rewrite Hlt.
  - rewrite (proj2 (position_None _ _)).
    2:{ intros z Hz. unfold precedes_sibling. case_bool_decide as Ha; [|done]. simpl.
        pose proof (Hall (elem_id z) z (Hm z Hz) Ha). by destruct (compare_siblings e z). }
    destruct (elem_after e) as [a|].
    + destruct Hend as (pre & o & Hu & Hin & Hout).
      apply fmap_app_inv in Hu as (epre & eao & Hpre' & Hao & ->).
      destruct eao as [|ea eo]; simplify_eq/=.
      apply subtree_end_spec with (ev := ev); [done|done|by simplify_list_eq| |].
      * intros y Hy. apply Hin. by apply list_elem_of_fmap_2.
      * intros y Hy. apply Hout. by apply list_elem_of_fmap_2.
    + apply fmap_nil_inv in Hend as ->. simpl. by rewrite Hels, app_nil_r.
Qed.

Lemma insert_incrementally_spec s (e : Element T) :
  seq_wf s → canonical s → emap s !! elem_id e = None →
  (∀ a, elem_after e = Some a → is_Some (emap s !! a)) →
  seq_wf (insert_incrementally e s) ∧ canonical (insert_incrementally e s) ∧
  rga_of (insert_incrementally e s) =
    mkRga (<[elem_id e := e]> (emap s)) (pending_inserts s) (pending_deletes s).
Proof.
  intros Hwf Hc Hfresh Hanchor.
  destruct (order_leaf (emap s) e (element_ids s)) as (u & v & Huv & Ho & Hpos);
    [apply element_map_keyed|done|apply Hwf|apply canonical_dom|done..|].
  apply fmap_app_inv in Huv as (eu & ev & -> & -> & Hels).
  assert (Hids : elem_id <$> eu ++ e :: ev = (elem_id <$> eu) ++ elem_id e :: (elem_id <$> ev))
    by by rewrite fmap_app.
  assert (Hnd : NoDup (elem_id <$> eu ++ e :: ev)).
  { rewrite Hids, <-Permutation_middle. apply NoDup_cons. split.
    - rewrite <-fmap_app, <-Hels. intros Hin%canonical_dom.
      rewrite Hfresh in Hin. by destruct Hin.
    - rewrite <-fmap_app, <-Hels. apply Hwf. }
  assert (Hm : element_map_of (eu ++ e :: ev) = <[elem_id e := e]> (emap s)).
  { unfold emap. rewrite <-element_map_snoc, Hels. apply element_map_perm; [done|].
    by rewrite <-Permutation_middle, Permutation_cons_append. }
  unfold insert_incrementally. rewrite (insert_position s e eu ev), Hels, vec_insert_app by done.
  split_and!.
  - split; unfold element_ids, emap; simpl; [done| |].
    + intros id i. apply renumber_index; [done|]. intros id' i'.
      rewrite <-Hels. apply Hwf.
    + rewrite Hm. apply tree_ok_leaf; [apply element_map_keyed|apply Hwf|done|done].
  - unfold canonical, element_ids, emap. simpl. by rewrite Hm, Hids.
  - unfold rga_of, emap. simpl. fold (emap s). by rewrite Hm.
Qed.
End placement.

(** ** The primitive updates refine the machine *)

Section primitives.
Context {T : Type} (inc : bool).
Implicit Types (s : Sequence T) (m : gmap OpId (Element T)).

Lemma keyed_alter m id v : keyed m → keyed (alter (set_value v) id m).
Proof.
  intros Hk k e. rewrite lookup_alter. case_decide; [|apply Hk]. subst.
  destruct (m !! k) as [e0|] eqn:E; [|done]. intros [= <-]. simpl. by apply Hk.
Qed.

Lemma alter_skeleton m id v : same_skeleton m (alter (set_value v) id m).
Proof.
  intros k. rewrite lookup_alter. case_decide; [|done]. subst. by destruct (m !! k).
Qed.

Lemma alter_is_Some m id k v :
  is_Some (alter (set_value v) id m !! k) ↔ is_Some (m !! k).
Proof. by rewrite lookup_alter_is_Some. Qed.

Lemma tree_ok_alter m id v : keyed m → tree_ok m → tree_ok (alter (set_value v) id m).
Proof.
  intros Hk (out & Ho & Hnd & Hdom). exists out. split_and!; [|done|].
  - eapply order_skeleton; [exact Hk|by apply keyed_alter|apply alter_skeleton|done].
  - intros k. by rewrite Hdom, alter_is_Some.
Qed.

(** Any in-place change of the value at [id]. *)
Lemma set_value_spec s id i v :
  seq_wf s → seq_index s !! id = Some i →
  let s' := with_elements (alter (set_value v) i) s in
  seq_wf s' ∧ rga_of s' = mkRga (alter (set_value v) id (emap s))
                            (pending_inserts s) (pending_deletes s) ∧
  element_ids s' = element_ids s ∧ (canonical s → canonical s').
Proof.
  intros Hwf Hi s'. pose proof (proj1 (wf_index _ Hwf _ _) Hi) as Hi'.
  assert (Hids : element_ids s' = element_ids s).
  { unfold s', element_ids. apply list_eq. intros j. simpl. rewrite !list_lookup_fmap.
    destruct (decide (i = j)) as [->|].
    - rewrite list_lookup_alter_eq. by destruct (seq_elements s !! j).
    - by rewrite list_lookup_alter_ne. }
  assert (Hm : emap s' = alter (set_value v) id (emap s)).
  { apply element_map_alter; [apply Hwf|done]. }
  assert (Hk : keyed (emap s)) by apply element_map_keyed.
  split_and!.
  - split.
    + rewrite Hids. apply Hwf.
    + intros k j. rewrite Hids. apply Hwf.
    + rewrite Hm. by apply tree_ok_alter, Hwf.
  - unfold rga_of. by rewrite Hm.
  - done.
  - unfold canonical. rewrite Hids, Hm. intros Hc.
    eapply order_skeleton; [exact Hk|by apply keyed_alter|apply alter_skeleton|done].
Qed.

Lemma apply_delete_spec target s :
  seq_wf s →
  let '(s', ok) := apply_delete target s in
  seq_wf s' ∧ ok = bool_decide (is_Some (emap s !! target)) ∧
  (if ok then
     rga_of s' = mkRga (tombstone target (emap s)) (pending_inserts s) (pending_deletes s)
   else s' = s) ∧
  (canonical s → canonical s').
Proof.
  intros Hwf. unfold apply_delete. destruct (seq_index s !! target) as [i|] eqn:Hi.
  - destruct (set_value_spec s target i None) as (Hwf' & Hrga & _ & Hcan); [done..|].
    split_and!; [done| |done|done]. symmetry. apply bool_decide_eq_true_2.
    apply wf_index_is_Some; eauto.
  - apply wf_index_None in Hi; [|done]. split_and!; [done| |done..].
    rewrite Hi. symmetry. apply bool_decide_eq_false_2. by intros [].
Qed.

Lemma push_spec s (e : Element T) :
  seq_wf s → emap s !! elem_id e = None →
  (∀ a, elem_after e = Some a → is_Some (emap s !! a)) →
  let s' := mkSequence (seq_elements s ++ [e])
              (<[elem_id e := length (seq_elements s)]> (seq_index s))
              (pending_inserts s) (pending_deletes s) in
  seq_wf s' ∧ emap s' = <[elem_id e := e]> (emap s).
Proof.
  intros Hwf Hfresh Hanchor s'.
  assert (Hids : element_ids s' = element_ids s ++ [elem_id e])
    by (unfold element_ids; simpl; by rewrite fmap_app).
  assert (Hm : emap s' = <[elem_id e := e]> (emap s)) by apply element_map_snoc.
  assert (Hnew : elem_id e ∉ element_ids s).
  { rewrite canonical_dom, Hfresh. by intros []. }
  split; [|done]. split.
  - rewrite Hids. apply NoDup_app. split_and!; [apply Hwf|set_solver|].
    apply NoDup_singleton.
  - intros k j. rewrite Hids. simpl. rewrite lookup_insert.
    replace (length (seq_elements s)) with (length (element_ids s))
      by apply length_fmap.
    rewrite lookup_app, list_lookup_singleton. case_decide as Hk.
    + subst k. destruct (element_ids s !! j) as [z|] eqn:Hz.
      * split; [|intros ?; simplify_eq; destruct Hnew; by eapply list_elem_of_lookup_2].
        intros [= <-]. rewrite lookup_ge_None_2 in Hz; [done|lia].
      * apply lookup_ge_None in Hz.
        destruct (j - length (element_ids s)) eqn:Hd; split; intros; simplify_eq; try done;
          f_equal; lia.
    + rewrite (wf_index _ Hwf). destruct (element_ids s !! j) as [z|] eqn:Hz; [done|].
      destruct (j - _); naive_solver.
  - rewrite Hm. apply tree_ok_leaf; [apply element_map_keyed|apply Hwf|done|done].
Qed.

Lemma apply_insert_internal_spec after id v ro rebuild s :
  seq_wf s → (inc && rebuild = true → canonical s) →
  let '(s', ok) := apply_insert_internal inc after id v ro rebuild s in
  seq_wf s' ∧ ok = rga_ready (Insert after id v ro) (emap s) ∧
  (if ok then
     rga_of s' = mkRga (rga_add after id v ro (emap s)) (pending_inserts s) (pending_deletes s)
   else s' = s) ∧
  (canonical s → rebuild = true → canonical s').
Proof.
  intros Hwf Hcan. unfold apply_insert_internal, rga_ready, rga_add.
  destruct (decide (is_Some (seq_index s !! id))) as [Hs|Hn].
  { apply wf_index_is_Some in Hs; [|done]. rewrite bool_decide_eq_true_2 by done.
    destruct Hs as [e He]. split_and!; [done..| |done]. by rewrite He. }
  rewrite <-eq_None_not_Some, wf_index_None in Hn by done.
  rewrite Hn, bool_decide_eq_false_2 by by intros []. simpl.
  assert (Hanch : match after with
      | Some anchor => bool_decide (seq_index s !! anchor = None)
      | None => false end = negb (anchored (emap s) after)).
  { destruct after as [a|]; simpl; [|done].
    rewrite (bool_decide_ext _ (¬ is_Some (emap s !! a))).
    - by rewrite bool_decide_not.
    - by rewrite wf_index_None, eq_None_not_Some. }
  rewrite Hanch. destruct (anchored (emap s) after) eqn:Ha; simpl; [|done].
  assert (Hanchor : ∀ a, after = Some a → is_Some (emap s !! a)).
  { intros a ->. by apply bool_decide_eq_true_1 in Ha. }
  set (e := mkElement id (Some v) after ro).
  destruct (push_spec s e Hwf Hn Hanchor) as [Hpwf Hpm].
  destruct (inc && rebuild) eqn:Hir.
  - destruct (insert_incrementally_spec s e) as (? & ? & ?); auto.
  - destruct rebuild.
    + destruct (rebuild_order_spec (with_elements (λ els, els ++ [e]) s)) as (? & ? & Hr).
      * apply Hpwf.
      * apply Hpwf.
      * split_and!; [done..| |done]. rewrite Hr. unfold rga_of. f_equal. exact Hpm.
    + simpl. replace (length (seq_elements s ++ [e]) - 1) with (length (seq_elements s))
        by (rewrite length_app; simpl; lia).
      split_and!; [done..| |done]. unfold rga_of. f_equal. exact Hpm.
Qed.
End primitives.
