(* ===== verification/SequenceRefine.v ===== *)
(** * Refinement: the sequence implements the abstract machine

    The drain loop of [process_pending] is shown to terminate within its fuel,
    and [apply] to preserve [sequence_inv] and to simulate [rga_apply], whatever
    the setting of the feature [sequence_incremental].  The equivalence of the
    incremental and the rebuilding sequence is a corollary. *)

From S2P Require Import Prelude Core Sequence SequenceOrder SequenceInv.

(** A run of operations. *)
Definition apply_all {T} (inc : bool) (ops : list (SequenceOp T)) (s : Sequence T) : Sequence T :=
  fold_left (λ s op, apply inc op s) ops s.

(** ** Counting buffered operations *)

Section counting.
Context {T : Type}.
Implicit Types m : gmap OpId (list (SequenceOp T)).

Lemma pending_count_insert m k l :
  m !! k = None → pending_count (<[k := l]> m) = length l + pending_count m.
Proof.
  intros Hk. unfold pending_count. by rewrite map_to_list_insert.
Qed.

Lemma pending_count_delete m k :
  pending_count m = length (default [] (m !! k)) + pending_count (delete k m).
Proof.
  destruct (m !! k) as [l|] eqn:Hk; simpl.
  - rewrite <-(insert_delete_id m k l) at 1 by done.
    apply pending_count_insert, lookup_delete_eq.
  - by rewrite delete_id.
Qed.

Lemma pending_count_push m k op : pending_count (btree_push k op m) = S (pending_count m).
Proof.
  unfold btree_push. rewrite <-insert_delete_eq, pending_count_insert by apply lookup_delete_eq.
  rewrite length_app, (pending_count_delete m k). simpl. lia.
Qed.
End counting.

(** ** Termination of the drain loop *)

Definition rga_count {T} (r : Rga T) : nat :=
  pending_count (rga_inserts r) + pending_count (rga_deletes r).

Section drain_total.
Context {T : Type}.
Implicit Types (r : Rga T) (q : list (SequenceOp T)).

Lemma rga_take_count id r :
  rga_count (rga_take id r).1 + length (rga_take id r).2 = rga_count r.
Proof.
  unfold rga_take, rga_count. simpl. rewrite length_app.
  rewrite (pending_count_delete (rga_inserts r) id), (pending_count_delete (rga_deletes r) id).
  lia.
Qed.

Lemma rga_buffer_count op r : rga_count (rga_buffer op r) ≤ S (rga_count r).
Proof.
  unfold rga_buffer, rga_count. destruct op as [[a|] id v ro|t id]; simpl;
    rewrite ?pending_count_push; lia.
Qed.

(** A step consumes a queued operation for good, or puts it back in a buffer. *)
Lemma rga_step_count op r q :
  let '(r', q') := rga_step op r q in
  length q' + rga_count r' ≤ length q + rga_count r ∨
  length q' = length q ∧ rga_count r' = S (rga_count r).
Proof.
  unfold rga_step. destruct (rga_ready op (rga_map r)).
  - destruct op as [after id v ro|t id]; [|by left].
    pose proof (rga_take_count id
      (mkRga (rga_effect (Insert after id v ro) (rga_map r)) (rga_inserts r) (rga_deletes r)))
      as Hc. destruct (rga_take _ _) as [r' ops]. simpl in Hc. left.
    rewrite length_app. change (rga_count (mkRga _ (rga_inserts r) (rga_deletes r)))
      with (rga_count r) in Hc. lia.
  - pose proof (rga_buffer_count op r).
    destruct (decide (rga_count (rga_buffer op r) = S (rga_count r))); [by right|left; lia].
Qed.

Lemma rga_drain_total B fuel r q :
  length q + rga_count r ≤ B →
  (length q + rga_count r) * S B + length q ≤ fuel →
  is_Some (rga_drain fuel r q).
Proof.
  revert r q. induction fuel as [|fuel IH]; intros r q HB Hfuel.
  { destruct q; simpl in *; [eauto|lia]. }
  destruct q as [|op q]; simpl; [eauto|].
  pose proof (rga_step_count op r q) as Hstep.
  destruct (rga_step op r q) as [r' q']. simpl in *.
  apply IH; destruct Hstep as [?|[? ?]]; nia.
Qed.

Lemma rga_drain_mono fuel k r q r' :
  rga_drain fuel r q = Some r' → rga_drain (fuel + k) r q = Some r'.
Proof.
  revert r q. induction fuel as [|fuel IH]; intros r q; destruct q as [|op q]; simpl; try done.
  - by destruct k.
  - destruct (rga_step op r q). apply IH.
Qed.

(** The loop of [process_pending] finishes within the fuel of the model. *)
Lemma rga_apply_drains op r :
  let '(r', q) := rga_step op r [] in is_Some (rga_drain (rga_fuel r) r' q).
Proof.
  pose proof (rga_step_count op r []) as Hc. revert Hc.
  destruct (rga_step op r []) as [r' q] eqn:Hstep. intros Hc. simpl in Hc.
  destruct Hc as [Hc|[Hq _]].
  - apply (rga_drain_total (rga_count r)); [lia|].
    unfold rga_fuel. fold (rga_count r). nia.
  - apply nil_length_inv in Hq as ->. destruct (rga_fuel r); eauto.
Qed.
End drain_total.

(** ** Simulation *)

Section refine.
Context {T : Type} (inc : bool).
Implicit Types (s : Sequence T) (q : list (SequenceOp T)) (r : Rga T).

Lemma rga_of_push_insert a op s :
  rga_of (push_pending_insert a op s) =
    mkRga (emap s) (btree_push a op (pending_inserts s)) (pending_deletes s).
Proof. done. Qed.

Lemma enqueue_pending_spec id s q :
  seq_wf s →
  let '(s', q') := enqueue_pending id s q in
  seq_wf s' ∧ (rga_of s', q') = ((rga_take id (rga_of s)).1, q ++ (rga_take id (rga_of s)).2) ∧
  (canonical s → canonical s').
Proof. intros [Hnd Hidx Ht]. by split_and!. Qed.

(** One iteration of the loop. *)
Lemma drain_step_spec op s q ins :
  seq_wf s → (inc = true → canonical s) →
  let '(s', q', ins') := drain_step inc op s q ins in
  seq_wf s' ∧ (rga_of s', q') = rga_step op (rga_of s) q ∧
  (inc = true → canonical s') ∧ ((ins = false → canonical s) → ins' = false → canonical s').
Proof.
  intros Hwf Hcan. unfold drain_step, rga_step. change (rga_map (rga_of s)) with (emap s).
  destruct op as [after id v ro|t id].
  - pose proof (apply_insert_internal_spec inc after id v ro inc s Hwf) as Hspec.
    destruct (apply_insert_internal inc after id v ro inc s) as [s1 ok].
    destruct Hspec as (Hwf1 & -> & Hrga & Hc1); [by destruct inc; auto|].
    destruct (rga_ready (Insert after id v ro) (emap s)).
    + pose proof (enqueue_pending_spec id s1 q Hwf1) as He.
      destruct (enqueue_pending id s1 q) as [s2 q2]. destruct He as (? & Heq & ?).
      rewrite Hrga in Heq. split_and!; [done|exact Heq|auto|done].
    + subst s1. destruct Hwf. destruct after as [a|]; by split_and!.
  - pose proof (apply_delete_spec t s Hwf) as Hspec.
    destruct (apply_delete t s) as [s1 ok]. destruct Hspec as (Hwf1 & -> & Hrga & Hc1).
    unfold rga_ready. destruct (bool_decide (is_Some (emap s !! t))).
    + split_and!; auto. by rewrite Hrga.
    + subst s1. destruct Hwf. by split_and!.
Qed.

Lemma drain_spec fuel s q ins :
  seq_wf s → (inc = true → canonical s) → (ins = false → canonical s) →
  match drain inc fuel s q ins with
  | Some (s', ins') =>
    seq_wf s' ∧ (inc = true → canonical s') ∧ (ins' = false → canonical s') ∧
    rga_drain fuel (rga_of s) q = Some (rga_of s')
  | None => rga_drain fuel (rga_of s) q = None
  end.
Proof.
  revert s q ins. induction fuel as [|fuel IH]; intros s [|op q] ins Hwf Hc Hi;
    simpl; [by split_and!|done|by split_and!|].
  pose proof (drain_step_spec op s q ins Hwf Hc) as Hstep.
  destruct (drain_step inc op s q ins) as [[s1 q1] ins1].
  destruct Hstep as (Hwf1 & <- & Hc1 & Hi1). by apply IH; auto.
Qed.

Lemma process_pending_spec id s :
  seq_wf s → canonical s →
  let '(r, q) := rga_take id (rga_of s) in
  ∀ r', rga_drain (drain_fuel s) r q = Some r' →
  seq_wf (process_pending inc id s) ∧ canonical (process_pending inc id s) ∧
  rga_of (process_pending inc id s) = r'.
Proof.
  intros Hwf Hc. unfold process_pending.
  pose proof (enqueue_pending_spec id s [] Hwf) as He.
  destruct (enqueue_pending id s []) as [s1 q1]. destruct He as (Hwf1 & Heq & Hc1).
  destruct (rga_take id (rga_of s)) as [r q]. simpl in Heq. injection Heq as <- <-.
  intros r' Hr'. specialize (Hc1 Hc).
  pose proof (drain_spec (drain_fuel s) s1 q1 false Hwf1 (λ _, Hc1) (λ _, Hc1)) as Hd.
  destruct (drain inc (drain_fuel s) s1 q1 false) as [[s2 ins]|]; [|congruence].
  destruct Hd as (Hwf2 & Hci & Hcn & Hd). rewrite Hr' in Hd. injection Hd as ->.
  destruct (ins && negb inc) eqn:E.
  - apply rebuild_order_spec; apply Hwf2.
  - split_and!; [done| |done]. destruct ins, inc; auto.
Qed.

(** ** The invariant of the machine *)

Definition queue_ready (r : Rga T) q : Prop := ∀ op, op ∈ q → rga_ready op (rga_map r) = true.

Lemma rga_effect_is_Some op (m : gmap OpId (Element T)) id :
  is_Some (m !! id) → is_Some (rga_effect op m !! id).
Proof.
  intros Hid. destruct op as [after k v ro|t k]; simpl.
  - unfold rga_add. destruct (m !! k) eqn:E; [done|].
    rewrite lookup_insert_is_Some'. auto.
  - unfold tombstone. by rewrite alter_is_Some.
Qed.

Lemma rga_ready_mono op op' (m : gmap OpId (Element T)) :
  rga_ready op m = true → rga_ready op (rga_effect op' m) = true.
Proof.
  destruct op as [after id v ro|t id]; simpl.
  - rewrite !orb_true_iff, !bool_decide_eq_true. intros [?|Ha];
      [left; by apply rga_effect_is_Some|right].
    destruct after as [a|]; simpl in *; [|done].
    rewrite bool_decide_eq_true in *. by apply rga_effect_is_Some.
  - rewrite !bool_decide_eq_true. apply rga_effect_is_Some.
Qed.

Lemma rga_effect_insert_is_Some after id v ro (m : gmap OpId (Element T)) k :
  is_Some (rga_effect (Insert after id v ro) m !! k) ↔ k = id ∨ is_Some (m !! k).
Proof.
  simpl. unfold rga_add. destruct (m !! id) eqn:E.
  - naive_solver.
  - rewrite lookup_insert_is_Some'. naive_solver.
Qed.

Lemma rga_step_inv op r q :
  pending_wf r → queue_ready r q → rga_ready op (rga_map r) = true →
  let '(r', q') := rga_step op r q in pending_wf r' ∧ queue_ready r' q'.
Proof.
  intros [Hpi Hpd] Hq Hr. unfold rga_step. rewrite Hr.
  destruct op as [after id v ro|t id].
  - set (op := Insert after id v ro).
    assert (Hnone : ∀ k, k ≠ id → rga_map r !! k = None → rga_effect op (rga_map r) !! k = None).
    { intros k Hk Hn. apply eq_None_not_Some.
      unfold op. rewrite rga_effect_insert_is_Some, Hn. intros [?|[]]; done. }
    assert (Hid : is_Some (rga_effect op (rga_map r) !! id))
      by (unfold op; rewrite rga_effect_insert_is_Some; auto).
    unfold rga_take. cbn [rga_map rga_inserts rga_deletes]. split.
    + split; simpl; intros k l [Hk Hl]%lookup_delete_Some.
      * destruct (Hpi _ _ Hl) as (? & ? & ?). auto.
      * destruct (Hpd _ _ Hl) as (? & ? & ?). auto.
    + intros o Ho. cbn [rga_map].
      rewrite !elem_of_app in Ho. destruct Ho as [Ho|[Ho|Ho]].
      * apply rga_ready_mono. by apply Hq.
      * destruct (rga_inserts r !! id) as [l|] eqn:E; simpl in Ho; [|set_solver].
        destruct (Hpi _ _ E) as (_ & _ & Hl). rewrite Forall_forall in Hl.
        destruct (Hl _ Ho) as (id' & v' & ro' & ->). simpl.
        apply orb_true_iff. right. by apply bool_decide_eq_true_2.
      * destruct (rga_deletes r !! id) as [l|] eqn:E; simpl in Ho; [|set_solver].
        destruct (Hpd _ _ E) as (_ & _ & Hl). rewrite Forall_forall in Hl.
        destruct (Hl _ Ho) as (id' & ->). simpl. by apply bool_decide_eq_true_2.
  - split.
    + split; simpl; intros k l Hl; unfold tombstone.
      * destruct (Hpi _ _ Hl) as (? & ? & ?). rewrite lookup_alter_None. auto.
      * destruct (Hpd _ _ Hl) as (? & ? & ?). rewrite lookup_alter_None. auto.
    + intros o Ho. apply (rga_ready_mono _ (Delete t id)). by apply Hq.
Qed.

Lemma rga_drain_inv fuel r q r' :
  pending_wf r → queue_ready r q → rga_drain fuel r q = Some r' → pending_wf r'.
Proof.
  revert r q. induction fuel as [|fuel IH]; intros r [|op q] Hp Hq; simpl; try naive_solver.
  pose proof (rga_step_inv op r q Hp) as Hs.
  destruct (rga_step op r q) as [r1 q1]. destruct Hs as [? ?]; [..|by apply IH].
  - intros o Ho. apply Hq. set_solver.
  - apply Hq. set_solver.
Qed.

Lemma btree_push_Some `{Countable K} {V} (k k' : K) (v : V) (m : gmap K (list V)) l :
  btree_push k v m !! k' = Some l ↔
  (k = k' ∧ l = default [] (m !! k) ++ [v]) ∨ (k ≠ k' ∧ m !! k' = Some l).
Proof. unfold btree_push. rewrite lookup_insert_Some. naive_solver. Qed.

Lemma rga_buffer_inv op r :
  pending_wf r → rga_ready op (rga_map r) = false → pending_wf (rga_buffer op r).
Proof.
  intros [Hpi Hpd] Hr. destruct op as [[a|] id v ro|t id]; simpl in *; [|done|].
  - apply orb_false_iff in Hr as [_ Hr]. apply bool_decide_eq_false in Hr.
    rewrite <-eq_None_not_Some in Hr. split; simpl; [|done].
    intros k l [[<- ->]|[_ Hl]]%btree_push_Some; [|auto].
    split_and!; [done|by destruct (default _ _)|]. apply Forall_app. split; [|eauto].
    destruct (rga_inserts r !! a) eqn:E; simpl; [by eapply Hpi|done].
  - apply bool_decide_eq_false in Hr. rewrite <-eq_None_not_Some in Hr.
    split; simpl; [done|]. intros k l [[<- ->]|[_ Hl]]%btree_push_Some; [|auto].
    split_and!; [done|by destruct (default _ _)|]. apply Forall_app. split; [|eauto].
    destruct (rga_deletes r !! t) eqn:E; simpl; [by eapply Hpd|done].
Qed.

Lemma rga_apply_inv op r : pending_wf r → pending_wf (rga_apply op r).
Proof.
  intros Hp. unfold rga_apply. pose proof (rga_apply_drains op r) as Hd.
  destruct (rga_ready op (rga_map r)) eqn:Hr.
  - pose proof (rga_step_inv op r [] Hp) as Hs.
    destruct (rga_step op r []) as [r' q]. destruct Hd as [r'' Hd]. rewrite Hd. simpl.
    destruct Hs as [? ?]; [|done|by eapply rga_drain_inv]. intros ? ?; set_solver.
  - unfold rga_step in *. rewrite Hr in *. destruct Hd as [r'' Hd]. rewrite Hd. simpl.
    eapply rga_drain_inv; [by apply rga_buffer_inv| |done]. intros ? ?; set_solver.
Qed.
End refine.

(** ** The whole operation *)

Section apply.
Context {T : Type} (inc : bool).
Implicit Types (s : Sequence T).

Lemma drain_fuel_rga s : drain_fuel s = rga_fuel (rga_of s).
Proof. done. Qed.

Lemma apply_spec op s :
  sequence_inv s →
  sequence_inv (apply inc op s) ∧ rga_of (apply inc op s) = rga_apply op (rga_of s).
Proof.
  intros [Hwf Hc Hp].
  enough (seq_wf (apply inc op s) ∧ canonical (apply inc op s) ∧
    rga_of (apply inc op s) = rga_apply op (rga_of s)) as (? & ? & Hr).
  { split; [|done]. split; [done..|]. rewrite Hr. by apply rga_apply_inv. }
  pose proof (rga_apply_drains op (rga_of s)) as Hd.
  unfold apply, apply_now, apply_insert, rga_apply, rga_step in *.
  change (rga_map (rga_of s)) with (emap s) in *.
  destruct op as [after id v ro|t id].
  - pose proof (apply_insert_internal_spec inc after id v ro true s Hwf (λ _, Hc)) as Hspec.
    destruct (apply_insert_internal inc after id v ro true s) as [s1 ok].
    destruct Hspec as (Hwf1 & -> & Hrga & Hc1). specialize (Hc1 Hc eq_refl).
    destruct (rga_ready (Insert after id v ro) (emap s)).
    + pose proof (process_pending_spec inc id s1 Hwf1 Hc1) as Hpp.
      rewrite drain_fuel_rga, Hrga in Hpp.
      change (rga_fuel (mkRga _ _ _)) with (rga_fuel (rga_of s)) in Hpp.
      change (pending_inserts s) with (rga_inserts (rga_of s)) in Hpp.
      change (pending_deletes s) with (rga_deletes (rga_of s)) in Hpp.
      simpl rga_effect in *. destruct (rga_take id _) as [r' q']. simpl in Hd |- *.
      destruct Hd as [r'' Hd]. rewrite Hd. simpl. by apply Hpp.
    + subst s1. destruct after as [a|].
      * destruct Hwf. destruct (rga_fuel (rga_of s)); by split_and!.
      * destruct (rga_fuel (rga_of s)); by split_and!.
  - pose proof (apply_delete_spec t s Hwf) as Hspec.
    destruct (apply_delete t s) as [s1 ok]. destruct Hspec as (Hwf1 & -> & Hrga & Hc1).
    unfold rga_ready. destruct (bool_decide (is_Some (emap s !! t))).
    + destruct (rga_fuel (rga_of s)); simpl; by split_and!; auto.
    + subst s1. destruct Hwf. destruct (rga_fuel (rga_of s)); by split_and!.
Qed.

Lemma sequence_new_inv : sequence_inv (sequence_new (T:=T)).
Proof.
  split.
  - split; [constructor| |].
    + intros id i. change (element_ids sequence_new) with (@nil OpId). simpl.
      by rewrite lookup_empty, lookup_nil.
    + exists []. split_and!; [apply dfs_nil|constructor|].
      intros id. split; [set_solver|]. intros [x H].
      exfalso. exact (lookup_empty_Some id x H).
  - constructor.
  - split; intros ? ?; simpl; by rewrite lookup_empty.
Qed.

Lemma apply_all_spec ops s :
  sequence_inv s →
  sequence_inv (apply_all inc ops s) ∧
  rga_of (apply_all inc ops s) = fold_left (λ r op, rga_apply op r) ops (rga_of s).
Proof.
  revert s. induction ops as [|op ops IH]; intros s Hs; simpl; [done|].
  destruct (apply_spec op s Hs) as [Hinv Hr]. destruct (IH _ Hinv) as [? Heq].
  split; [done|]. by rewrite <-Hr.
Qed.
End apply.
