(* ===== verification/SequenceConv.v ===== *)
(** * Convergence of the replicated sequence

    The state reached after a history of operations is characterised by the
    history as a set: which elements are integrated ([integrable]), which are
    tombstoned, and which operations stay buffered.  Delivery order, duplicate
    delivery and the feature [sequence_incremental] do not matter. *)

From S2P Require Import Prelude Core Sequence SequenceOrder SequenceInv SequenceRefine.

(** ** Histories *)

Section histories.
Context {T : Type}.
Implicit Types h : list (SequenceOp T).

(** An insertion id is issued once: two inserts of a history with the same id
    are the same operation. *)
Definition consistent h : Prop :=
  ∀ id a1 v1 r1 a2 v2 r2,
    Insert a1 id v1 r1 ∈ h → Insert a2 id v2 r2 ∈ h → a1 = a2 ∧ v1 = v2 ∧ r1 = r2.

(** Ids that can be integrated: their anchors, transitively, are in the history. *)
Inductive integrable h : OpId → Prop :=
  | integrable_root id v ro : Insert None id v ro ∈ h → integrable h id
  | integrable_child a id v ro :
      Insert (Some a) id v ro ∈ h → integrable h a → integrable h id.

Definition deleted h (id : OpId) : Prop := ∃ d, Delete id d ∈ h.

(** The operation has taken effect on [m]. *)
Definition applied (op : SequenceOp T) (m : gmap OpId (Element T)) : Prop :=
  match op with
  | Insert _ id _ _ => is_Some (m !! id)
  | Delete t _ => ∃ e, m !! t = Some e ∧ elem_value e = None
  end.

Definition buffered (op : SequenceOp T) (r : Rga T) : Prop :=
  match op with
  | Insert (Some a) _ _ _ => op ∈ default [] (rga_inserts r !! a)
  | Insert None _ _ _ => False
  | Delete t _ => op ∈ default [] (rga_deletes r !! t)
  end.

(** Everything in the state comes from the history. *)
Record sound h (r : Rga T) : Prop := {
  sound_map id e : rga_map r !! id = Some e →
    integrable h id ∧ elem_id e = id ∧
    (∀ a, elem_after e = Some a → is_Some (rga_map r !! a)) ∧
    ∃ v, Insert (elem_after e) id v (elem_right_origin e) ∈ h ∧
         (elem_value e = Some v ∨ elem_value e = None ∧ deleted h id);
  sound_buffer op : buffered op r → op ∈ h;
}.

(** Everything in the history is accounted for. *)
Definition complete h (q : list (SequenceOp T)) (r : Rga T) : Prop :=
  ∀ op, op ∈ h → op ∈ q ∨ applied op (rga_map r) ∨ buffered op r.
End histories.

(** ** The machine keeps both *)

Section machine.
Context {T : Type}.
Implicit Types (h q : list (SequenceOp T)) (r : Rga T) (m : gmap OpId (Element T)).

Lemma applied_mono op op' m : applied op m → applied op (rga_effect op' m).
Proof.
  destruct op as [after id v ro|t d]; simpl; [apply rga_effect_is_Some|].
  intros (e & He & Hv). destruct op' as [after' id' v' ro'|t' d']; simpl.
  - exists e. split; [|done]. unfold rga_add. destruct (m !! id') eqn:E; [done|].
    rewrite lookup_insert_ne; congruence.
  - unfold tombstone. rewrite lookup_alter. case_decide; [|by exists e]. subst.
    rewrite He. by exists (set_value None e).
Qed.

Lemma effect_applied op m : rga_ready op m = true → applied op (rga_effect op m).
Proof.
  destruct op as [after id v ro|t d]; simpl.
  - intros _. apply (rga_effect_insert_is_Some after id v ro). by left.
  - intros [e He]%bool_decide_eq_true. unfold tombstone.
    exists (set_value None e). split; [|done]. by rewrite lookup_alter_eq, He.
Qed.

Lemma buffer_complete op r op' :
  rga_ready op (rga_map r) = false →
  op' = op ∨ buffered op' r → buffered op' (rga_buffer op r).
Proof.
  intros Hr. assert (Hpush : ∀ k (x y : SequenceOp T) (m : gmap OpId (list (SequenceOp T))) k',
    y ∈ default [] (m !! k') ∨ (y = x ∧ k' = k) → y ∈ default [] (btree_push k x m !! k')).
  { intros k x y m k'. unfold btree_push. rewrite lookup_insert.
    case_decide; simpl; [subst; set_solver|naive_solver]. }
  destruct op as [[a|] id v ro|t d]; simpl in *.
  - intros [->|Hb]; [by apply Hpush; auto|].
    destruct op' as [[a'|] ? ? ?|t' d']; simpl in *; auto.
  - by rewrite orb_true_r in Hr.
  - intros [->|Hb]; [by apply Hpush; auto|].
    destruct op' as [[a'|] ? ? ?|t' d']; simpl in *; auto.
Qed.

Lemma buffer_sound op r op' : buffered op' (rga_buffer op r) → op' = op ∨ buffered op' r.
Proof.
  assert (Hpush : ∀ k (x y : SequenceOp T) (m : gmap OpId (list (SequenceOp T))) k',
    y ∈ default [] (btree_push k x m !! k') → y = x ∨ y ∈ default [] (m !! k')).
  { intros k x y m k'. unfold btree_push. rewrite lookup_insert.
    case_decide; simpl; [subst; set_solver|naive_solver]. }
  destruct op as [[a|] id v ro|t d], op' as [[a'|] ? ? ?|t' d']; simpl;
    solve [auto | apply Hpush].
Qed.

Lemma take_buffered id r op :
  buffered op r ↔ op ∈ (rga_take id r).2 ∧ buffered op r ∨ buffered op (rga_take id r).1.
Proof.
  unfold rga_take. simpl. split.
  - intros Hb. destruct op as [[a|] k v ro|t d]; simpl in *; [|done|].
    + destruct (decide (a = id)) as [->|]; [left; set_solver|right].
      by rewrite lookup_delete_ne.
    + destruct (decide (t = id)) as [->|]; [left; set_solver|right].
      by rewrite lookup_delete_ne.
  - intros [[_ ?]|Hb]; [done|]. destruct op as [[a|] k v ro|t d]; simpl in *; [|done|].
    + rewrite lookup_delete in Hb. case_decide; [set_solver|done].
    + rewrite lookup_delete in Hb. case_decide; [set_solver|done].
Qed.

Lemma take_queue id r op : pending_wf r → op ∈ (rga_take id r).2 → buffered op r.
Proof.
  intros [Hpi Hpd] [Hop|Hop]%elem_of_app; simpl in Hop.
  - destruct (rga_inserts r !! id) as [l|] eqn:E; simpl in Hop; [|set_solver].
    destruct (Hpi _ _ E) as (_ & _ & Hl). rewrite Forall_forall in Hl.
    destruct (Hl _ Hop) as (? & ? & ? & ->). simpl. by rewrite E.
  - destruct (rga_deletes r !! id) as [l|] eqn:E; simpl in Hop; [|set_solver].
    destruct (Hpd _ _ E) as (_ & _ & Hl). rewrite Forall_forall in Hl.
    destruct (Hl _ Hop) as (? & ->). simpl. by rewrite E.
Qed.

(** The map part of soundness. *)
Lemma effect_sound h op r :
  op ∈ h → rga_ready op (rga_map r) = true → sound h r →
  sound h (mkRga (rga_effect op (rga_map r)) (rga_inserts r) (rga_deletes r)).
Proof.
  intros Hop Hr [Hm Hb]. split; [|done]. simpl. intros id e He.
  destruct op as [after k v ro|t d]; simpl in *.
  - unfold rga_add in *. destruct (rga_map r !! k) as [ek|] eqn:Ek; [by apply Hm|].
    assert (Hsome : ∀ a, is_Some (rga_map r !! a) →
      is_Some (<[k := mkElement k (Some v) after ro]> (rga_map r) !! a)).
    { intros a Ha. rewrite lookup_insert_is_Some'. auto. }
    apply lookup_insert_Some in He as [[<- <-]|[Hne He]]; simpl.
    + assert (Hanch : ∀ a, after = Some a → is_Some (rga_map r !! a)).
      { intros a ->. simpl in Hr.
        by apply bool_decide_eq_true in Hr. }
      split_and!; [|done|eauto|eauto].
      destruct after as [a|]; [|by eapply integrable_root].
      eapply integrable_child; [done|]. destruct (Hanch a eq_refl) as [ea Hea].
      by apply (Hm a ea).
    + destruct (Hm id e He) as (? & ? & ? & ?). split_and!; eauto.
  - apply bool_decide_eq_true in Hr. unfold tombstone in *.
    rewrite lookup_alter in He. case_decide as Ht.
    + subst id. destruct (rga_map r !! t) as [e0|] eqn:E0; [|done]. injection He as <-.
      destruct (Hm t e0 E0) as (? & ? & Ha & v & ? & ?). simpl. split_and!; [done..| |].
      * intros a Haa. rewrite alter_is_Some. by apply Ha.
      * exists v. split; [done|]. right. split; [done|]. by exists d.
    + destruct (Hm id e He) as (? & ? & Ha & ?). split_and!; [done..| |done].
      intros a Haa. rewrite alter_is_Some. by apply Ha.
Qed.

Lemma rga_step_sc h op q r :
  pending_wf r → op ∈ h → (∀ o, o ∈ q → o ∈ h) → sound h r → complete h (op :: q) r →
  let '(r', q') := rga_step op r q in
  sound h r' ∧ complete h q' r' ∧ ∀ o, o ∈ q' → o ∈ h.
Proof.
  intros Hp Hop Hq Hs Hc. unfold rga_step.
  destruct (rga_ready op (rga_map r)) eqn:Hr.
  - pose proof (effect_sound h op r Hop Hr Hs) as Hs'.
    set (r1 := mkRga (rga_effect op (rga_map r)) (rga_inserts r) (rga_deletes r)) in *.
    assert (Hc1 : complete h q r1).
    { intros o Ho. destruct (Hc o Ho) as [[->|?]%elem_of_cons|[?|?]]; auto.
      - right; left. by apply effect_applied.
      - right; left. by apply applied_mono. }
    destruct op as [after id v ro|t d]; [|by split_and!].
    pose proof (take_buffered id r1) as Htb.
    assert (Htq : ∀ o, o ∈ (rga_take id r1).2 → buffered o r1).
    { intros o Ho. by apply (take_queue id r). }
    destruct (rga_take id r1) as [r2 ops] eqn:Ht. simpl in *.
    assert (Hmap : rga_map r2 = rga_map r1) by (unfold rga_take in Ht; by simplify_eq).
    split_and!.
    + destruct Hs' as [Hm Hb]. split; [by rewrite Hmap|].
      intros o Ho. apply Hb, Htb. by right.
    + intros o Ho. rewrite elem_of_app, Hmap.
      destruct (Hc1 o Ho) as [?|[?|[[? _]|?]%Htb]]; auto.
    + intros o [?|Ho]%elem_of_app; [auto|]. apply Hs', Htq, Ho.
  - destruct Hs as [Hm Hb]. split_and!; [|..|done].
    + split.
      * intros id e. destruct op as [[a|] ? ? ?|]; apply Hm.
      * intros o [->|?]%buffer_sound; auto.
    + intros o Ho. destruct (Hc o Ho) as [[->|?]%elem_of_cons|[Ha|Ha]]; auto.
      * right; right. apply buffer_complete; auto.
      * right; left. by destruct op as [[a|] ? ? ?|].
      * right; right. apply buffer_complete; auto.
Qed.

Lemma rga_drain_sc h fuel q r r' :
  pending_wf r → queue_ready r q → (∀ o, o ∈ q → o ∈ h) → sound h r → complete h q r →
  rga_drain fuel r q = Some r' → sound h r' ∧ complete h [] r'.
Proof.
  revert r q. induction fuel as [|fuel IH]; intros r [|op q] Hp Hr Hq Hs Hc; simpl;
    try naive_solver.
  pose proof (rga_step_sc h op q r Hp) as Hsc. pose proof (rga_step_inv op r q Hp) as Hinv.
  destruct (rga_step op r q) as [r1 q1].
  destruct Hsc as (? & ? & ?); [apply Hq; set_solver|set_solver|done..|].
  destruct Hinv as [? ?]; [intros o Ho; apply Hr; set_solver|apply Hr; set_solver|].
  by apply IH.
Qed.

Lemma sound_weaken h h' r : (∀ o, o ∈ h → o ∈ h') → sound h r → sound h' r.
Proof.
  intros Hsub [Hm Hb].
  assert (Hint : ∀ id, integrable h id → integrable h' id).
  { induction 1; [eapply integrable_root|eapply integrable_child]; eauto. }
  split; [|auto]. intros id e He. destruct (Hm id e He) as (? & ? & ? & v & ? & Hv).
  split_and!; [auto..|]. exists v. split; [auto|]. unfold deleted in *. naive_solver.
Qed.

Lemma rga_apply_sc h op r :
  pending_wf r → sound h r → complete h [] r →
  sound (op :: h) (rga_apply op r) ∧ complete (op :: h) [] (rga_apply op r).
Proof.
  intros Hp Hs Hc. unfold rga_apply.
  pose proof (rga_apply_drains op r) as Hd.
  assert (Hs' : sound (op :: h) r) by (eapply sound_weaken, Hs; set_solver).
  assert (Hc' : complete (op :: h) [op] r).
  { intros o [->|Ho]%elem_of_cons; [set_solver|].
    destruct (Hc o Ho) as [?|?]; [set_solver|auto]. }
  pose proof (rga_step_sc (op :: h) op [] r Hp) as Hsc.
  assert (Hq0 : queue_ready r []) by (intros ? ?; set_solver).
  assert (Hinv : let '(r', q') := rga_step op r [] in pending_wf r' ∧ queue_ready r' q').
  { destruct (rga_ready op (rga_map r)) eqn:Hr; [by apply rga_step_inv|].
    unfold rga_step. rewrite Hr. split; [by apply rga_buffer_inv|]. intros ? ?; set_solver. }
  destruct (rga_step op r []) as [r1 q1]. destruct Hd as [r2 Hd]. rewrite Hd. simpl.
  destruct Hsc as (? & ? & ?); [set_solver|set_solver|done..|]. destruct Hinv.
  by eapply rga_drain_sc.
Qed.
End machine.

(** ** The state is a function of the set of operations *)

Section denotation.
Context {T : Type}.
Implicit Types (h : list (SequenceOp T)) (r : Rga T).

Lemma buffered_absent op r :
  pending_wf r → buffered op r →
  match op with
  | Insert (Some a) _ _ _ => rga_map r !! a = None
  | Insert None _ _ _ => False
  | Delete t _ => rga_map r !! t = None
  end.
Proof.
  intros [Hpi Hpd]. destruct op as [[a|] id v ro|t d]; simpl; [|done|].
  - destruct (rga_inserts r !! a) as [l|] eqn:E; simpl; [|set_solver]. intros _. by eapply Hpi.
  - destruct (rga_deletes r !! t) as [l|] eqn:E; simpl; [|set_solver]. intros _. by eapply Hpd.
Qed.

(** Exactly the integrable ids are present. *)
Lemma denot_dom h r id :
  pending_wf r → sound h r → complete h [] r → is_Some (rga_map r !! id) ↔ integrable h id.
Proof.
  intros Hp Hs Hc. split.
  - intros [e He]. by apply (sound_map _ _ Hs id e).
  - induction 1 as [id v ro Hin|a id v ro Hin _ IH].
    + destruct (Hc _ Hin) as [?|[?|[]]]; [set_solver|done].
    + destruct (Hc _ Hin) as [?|[?|Hb%buffered_absent]]; [set_solver|done| |done].
      rewrite Hb in IH. by destruct IH.
Qed.

(** A present element is a tombstone exactly when the history deletes it. *)
Lemma denot_value h r id e :
  pending_wf r → sound h r → complete h [] r → rga_map r !! id = Some e →
  elem_value e = None ↔ deleted h id.
Proof.
  intros Hp Hs Hc He. destruct (sound_map _ _ Hs id e He) as (_ & _ & _ & v & _ & Hv).
  split; [destruct Hv as [?|[_ ?]]; [congruence|done]|].
  intros [d Hd]. destruct (Hc _ Hd) as [?|[(e' & ? & ?)|Hb%buffered_absent]];
    [set_solver|simplify_eq/=; congruence|congruence|done].
Qed.

Lemma denot_map h1 h2 r1 r2 :
  consistent h1 → (∀ o, o ∈ h1 ↔ o ∈ h2) →
  pending_wf r1 → sound h1 r1 → complete h1 [] r1 →
  pending_wf r2 → sound h2 r2 → complete h2 [] r2 →
  rga_map r1 = rga_map r2.
Proof.
  intros Hcons Hmem Hp1 Hs1 Hc1 Hp2 Hs2 Hc2.
  assert (Hs2' : sound h1 r2) by (eapply sound_weaken, Hs2; naive_solver).
  assert (Hc2' : complete h1 [] r2) by (intros o Ho; apply Hc2, Hmem, Ho).
  apply map_eq. intros id.
  pose proof (denot_dom h1 r1 id Hp1 Hs1 Hc1) as Hd1.
  pose proof (denot_dom h1 r2 id Hp2 Hs2' Hc2') as Hd2.
  destruct (rga_map r1 !! id) as [e1|] eqn:E1, (rga_map r2 !! id) as [e2|] eqn:E2; [|..|done].
  - f_equal.
    pose proof (denot_value _ _ _ _ Hp1 Hs1 Hc1 E1) as Hv1.
    pose proof (denot_value _ _ _ _ Hp2 Hs2' Hc2' E2) as Hv2.
    destruct (sound_map _ _ Hs1 id e1 E1) as (_ & Hi1 & _ & v1 & Hin1 & Ho1).
    destruct (sound_map _ _ Hs2' id e2 E2) as (_ & Hi2 & _ & v2 & Hin2 & Ho2).
    destruct (Hcons _ _ _ _ _ _ _ Hin1 Hin2) as (Ha & -> & Hr).
    destruct e1 as [i1 w1 a1 o1], e2 as [i2 w2 a2 o2]; simplify_eq/=. f_equal.
    destruct Ho1 as [->|[-> Hdel]], Ho2 as [->|[-> Hdel']]; try done; naive_solver.
  - destruct Hd2 as [_ Hd2]. destruct Hd2; [by apply Hd1; eauto|congruence].
  - destruct Hd1 as [_ Hd1]. destruct Hd1; [by apply Hd2; eauto|congruence].
Qed.

(** Exactly the operations that are not ready are buffered. *)
Lemma denot_buffered h r op :
  consistent h → pending_wf r → sound h r → complete h [] r →
  buffered op r ↔ op ∈ h ∧ rga_ready op (rga_map r) = false.
Proof.
  intros Hcons Hp Hs Hc. split.
  - intros Hb. pose proof (sound_buffer _ _ Hs _ Hb) as Hin. split; [done|].
    apply buffered_absent in Hb; [|done].
    destruct op as [[a|] id v ro|t d]; simpl; [|done|].
    + rewrite Hb. simpl. rewrite orb_false_r. apply bool_decide_eq_false. intros [e He].
      destruct (sound_map _ _ Hs id e He) as (_ & _ & Hanch & v' & Hin' & _).
      destruct (Hcons _ _ _ _ _ _ _ Hin Hin') as (Ha & _ & _).
      destruct (Hanch a); [done|]. congruence.
    + rewrite Hb. done.
  - intros [Hin Hr]. destruct (Hc _ Hin) as [?|[Ha|?]]; [set_solver| |done].
    destruct op as [after id v ro|t d]; simpl in *.
    + apply orb_false_iff in Hr as [Hr _]. by apply bool_decide_eq_false in Hr.
    + apply bool_decide_eq_false in Hr. destruct Ha as (e & He & _). naive_solver.
Qed.

Lemma run_denotes (inc : bool) h :
  let s := apply_all inc h sequence_new in
  sequence_inv s ∧ sound h (rga_of s) ∧ complete h [] (rga_of s).
Proof.
  induction h as [|op h (Hinv & Hs & Hc)] using rev_ind; simpl.
  - split_and!; [apply sequence_new_inv| |intros o Ho; set_solver].
    split.
    + intros id e He. exfalso. exact (lookup_empty_Some id e He).
    + intros [[a|] ? ? ?|t d]; simpl; rewrite ?lookup_empty; simpl; try done; set_solver.
  - unfold apply_all in *. rewrite fold_left_app. simpl.
    destruct (apply_spec inc op _ Hinv) as [Hinv' Hr]. split; [done|]. rewrite Hr.
    destruct (rga_apply_sc h op _ (inv_pending _ Hinv) Hs Hc) as [Hs' Hc'].
    split.
    + eapply sound_weaken, Hs'. set_solver.
    + intros o Ho. apply Hc'. set_solver.
Qed.

(** Two runs over the same set of operations. *)
Lemma runs_agree inc1 inc2 h1 h2 :
  consistent h1 → (∀ o, o ∈ h1 ↔ o ∈ h2) →
  let s1 := apply_all inc1 h1 sequence_new in
  let s2 := apply_all inc2 h2 sequence_new in
  seq_elements s1 = seq_elements s2 ∧ seq_index s1 = seq_index s2 ∧
  ∀ op, buffered op (rga_of s1) ↔ buffered op (rga_of s2).
Proof.
  intros Hcons Hmem s1 s2.
  destruct (run_denotes inc1 h1) as ([Hw1 Hk1 Hp1] & Hs1 & Hc1). fold s1 in Hw1, Hk1, Hp1, Hs1, Hc1.
  destruct (run_denotes inc2 h2) as ([Hw2 Hk2 Hp2] & Hs2 & Hc2). fold s2 in Hw2, Hk2, Hp2, Hs2, Hc2.
  pose proof (denot_map h1 h2 _ _ Hcons Hmem Hp1 Hs1 Hc1 Hp2 Hs2 Hc2) as Hm. simpl in Hm.
  pose proof Hk2 as Hids. unfold canonical in Hids. rewrite <-Hm in Hids.
  pose proof (dfs_det _ _ _ _ Hk1 Hids) as Hid.
  split_and!.
  - apply elements_unique; [apply Hw1|done|done].
  - apply map_eq. intros id. apply option_eq. intros i.
    by rewrite (wf_index _ Hw1), (wf_index _ Hw2), Hid.
  - intros op. rewrite (denot_buffered h1), (denot_buffered h2) by
      (done || intros ? ? ? ? ? ? ? ?%Hmem ?%Hmem; by eapply Hcons).
    rewrite Hmem. simpl. by rewrite Hm.
Qed.
End denotation.
