(* ===== verification/SequenceProps.v ===== *)
(** * Properties of the replicated sequence

    The claims about [Sequence]: convergence, the denotation of a run, the
    refinement of the abstract machine, the equivalence of incremental and
    rebuilding placement, termination of the drain loop, stability of the
    order, where a local insert lands, and the snapshot round trip. *)

From S2P Require Import Prelude Core Sequence SequenceOrder SequenceInv SequenceRefine.
From S2P Require Import SequenceConv.

(** ** Order stability *)

Section stability.
Context {T : Type}.
Implicit Types (r : Rga T) (q : list (SequenceOp T)).

(** [m] has document order [out]. *)
Definition ordered_as (m : gmap OpId (Element T)) (out : list OpId) : Prop :=
  keyed m ∧ Order m out ∧ NoDup out ∧ ∀ id, id ∈ out ↔ is_Some (m !! id).

Lemma effect_stable op (m : gmap OpId (Element T)) out :
  rga_ready op m = true → ordered_as m out →
  ∃ out', ordered_as (rga_effect op m) out' ∧ out `sublist_of` out'.
Proof.
  intros Hr (Hk & Ho & Hnd & Hdom). destruct op as [after id v ro|t d]; simpl in *.
  - unfold rga_add. destruct (m !! id) as [e|] eqn:E; [by exists out|].
    rewrite bool_decide_eq_false_2 in Hr by by intros []. simpl in Hr.
    set (e := mkElement id (Some v) after ro).
    destruct (order_leaf m e out) as (u & w & -> & Ho' & _); [done..| |].
    { intros a Ha. simpl in Ha. subst after. by apply bool_decide_eq_true in Hr. }
    exists (u ++ id :: w). split; [|by apply sublist_app, sublist_cons].
    split_and!; [by apply keyed_insert|done| |].
    + rewrite <-Permutation_middle. apply NoDup_cons. split; [|done].
      rewrite Hdom, E. by intros [].
    + intros k. rewrite <-Permutation_middle, elem_of_cons, Hdom, lookup_insert_is_Some'.
      naive_solver.
  - exists out. split; [|done]. unfold tombstone. split_and!; [by apply keyed_alter| |done|].
    + eapply order_skeleton; [exact Hk|by apply keyed_alter|apply alter_skeleton|done].
    + intros k. by rewrite Hdom, alter_is_Some.
Qed.

Lemma step_stable op r q out :
  ordered_as (rga_map r) out →
  ∃ out', ordered_as (rga_map (rga_step op r q).1) out' ∧ out `sublist_of` out'.
Proof.
  intros Hout. unfold rga_step. destruct (rga_ready op (rga_map r)) eqn:Hr.
  - destruct (effect_stable op _ _ Hr Hout) as (out' & ? & ?).
    exists out'. by destruct op.
  - exists out. split; [|done]. by destruct op as [[a|] ? ? ?|].
Qed.

Lemma drain_stable fuel r q r' out :
  ordered_as (rga_map r) out → rga_drain fuel r q = Some r' →
  ∃ out', ordered_as (rga_map r') out' ∧ out `sublist_of` out'.
Proof.
  revert r q out. induction fuel as [|fuel IH]; intros r [|op q] out Hout; simpl;
    try (intros; simplify_eq; by exists out).
  pose proof (step_stable op r q out Hout) as (out1 & Hout1 & Hsub).
  destruct (rga_step op r q) as [r1 q1]. intros Hd.
  destruct (IH _ _ _ Hout1 Hd) as (out2 & ? & ?). exists out2. split; [done|]. by etrans.
Qed.

Lemma rga_apply_stable op r out :
  ordered_as (rga_map r) out →
  ∃ out', ordered_as (rga_map (rga_apply op r)) out' ∧ out `sublist_of` out'.
Proof.
  intros Hout. unfold rga_apply. pose proof (rga_apply_drains op r) as Hd.
  destruct (step_stable op r [] out Hout) as (out1 & Hout1 & Hsub).
  destruct (rga_step op r []) as [r1 q1]. destruct Hd as [r2 Hd]. rewrite Hd. simpl.
  destruct (drain_stable _ _ _ _ _ Hout1 Hd) as (out2 & ? & ?).
  exists out2. split; [done|]. by etrans.
Qed.

Lemma inv_ordered (s : Sequence T) : sequence_inv s → ordered_as (emap s) (element_ids s).
Proof.
  intros [Hwf Hc _]. split_and!; [apply element_map_keyed|done|apply Hwf|apply canonical_dom].
Qed.
End stability.

(** ** Placement of a local insert *)

Section placement.
Context {T : Type} (inc : bool).
Implicit Types s : Sequence T.

(** Nothing is waiting for [id]. *)
Definition not_awaited (id : OpId) s : Prop :=
  pending_inserts s !! id = None ∧ pending_deletes s !! id = None.

Lemma rga_apply_insert_fresh after id v ro (r : Rga T) :
  rga_map r !! id = None → anchored (rga_map r) after = true →
  rga_inserts r !! id = None → rga_deletes r !! id = None →
  rga_apply (Insert after id v ro) r =
    mkRga (<[id := mkElement id (Some v) after ro]> (rga_map r)) (rga_inserts r) (rga_deletes r).
Proof.
  intros Hid Ha Hpi Hpd. unfold rga_apply, rga_step, rga_ready. rewrite Ha, orb_true_r.
  unfold rga_take. simpl. rewrite Hpi, Hpd. simpl. unfold rga_add. rewrite Hid.
  rewrite !delete_id by done. by destruct (rga_fuel r).
Qed.

(** The element lands right behind its anchor when it sorts before all of its
    siblings. *)
Lemma insert_adjacent_spec after id v ro s :
  sequence_inv s → not_awaited id s → emap s !! id = None →
  (∀ a, after = Some a → is_Some (emap s !! a)) →
  (∀ e', e' ∈ seq_elements s → elem_after e' = after →
     compare_siblings (mkElement id (Some v) after ro) e' = Lt) →
  element_ids (apply inc (Insert after id v ro) s) =
    match after with
    | None => id :: element_ids s
    | Some a =>
      let i := default 0 (seq_index s !! a) in
      take (S i) (element_ids s) ++ id :: drop (S i) (element_ids s)
    end.
Proof.
  intros Hinv [Hni Hnd] Hfresh Hanchor Hfirst.
  destruct (apply_spec inc (Insert after id v ro) s Hinv) as [[Hwf' Hc' _] Hr].
  rewrite rga_apply_insert_fresh in Hr; [|done| |done..].
  2:{ destruct after as [a|]; [|done]. simpl. apply bool_decide_eq_true. by apply Hanchor. }
  unfold rga_of in Hr at 1. injection Hr as Hm _ _. unfold canonical in Hc'. rewrite Hm in Hc'.
  destruct (inv_ordered _ Hinv) as (Hk & Ho & Hdup & Hdom).
  set (e := mkElement id (Some v) after ro) in *.
  pose proof (order_leaf_first (emap s) e (element_ids s) Hk Ho Hdup Hdom Hfresh Hanchor) as Hleaf.
  simpl in Hleaf. destruct after as [a|].
  - destruct Hleaf as (pre & post & Hpp & Ho').
    { intros y ey Hy Hay. apply Hfirst; [|done].
      by apply element_map_lookup in Hy as [? _]; [|apply Hinv]. }
    rewrite (dfs_det _ _ _ _ Hc' Ho').
    assert (Hidx : seq_index s !! a = Some (length pre)).
    { apply (wf_index _ (inv_wf _ Hinv)). rewrite Hpp. by apply list_lookup_middle. }
    rewrite Hidx, Hpp. simpl.
    replace (pre ++ a :: post) with ((pre ++ [a]) ++ post) by by simplify_list_eq.
    rewrite take_app_length', drop_app_length' by (rewrite length_app; simpl; lia).
    by simplify_list_eq.
  - eapply dfs_det; [done|]. apply Hleaf. intros y ey Hy Hay. apply Hfirst; [|done].
    by apply element_map_lookup in Hy as [? _]; [|apply Hinv].
Qed.
End placement.

(** ** Building from an ordered list *)

Section from_ordered.
Context {T : Type}.
Implicit Types (items : list (OpId * T)) (s : Sequence T).

Definition from_ordered_acc items : list (Element T) * gmap OpId nat * option OpId :=
  fold_left (λ '(els, idx, after) (item : OpId * T),
    (els ++ [mkElement item.1 (Some item.2) after None],
     <[item.1 := length els]> idx, Some item.1)) items ([], ∅, None).

(** Nothing is anchored to the last element. *)
Lemma last_childless (s : Sequence T) after y ey :
  sequence_inv s → after = last (element_ids s) → emap s !! y = Some ey → elem_after ey ≠ after.
Proof.
  intros Hinv Hafter Hy Hay. destruct (inv_ordered _ Hinv) as (_ & _ & Hdup & _).
  apply element_map_lookup in Hy as [Hy <-]; [|apply Hinv]. destruct after as [a|].
  - apply list_elem_of_lookup in Hy as (i & Hi).
    destruct (canonical_parent_before s i (elem_id ey) ey a) as (j & Hj & Hja);
      [apply Hinv| |by apply emap_elem; [apply Hinv|by eapply list_elem_of_lookup_2]|done|].
    { unfold element_ids. rewrite list_lookup_fmap. by rewrite Hi. }
    symmetry in Hafter. rewrite last_lookup in Hafter.
    pose proof (NoDup_lookup _ _ _ _ Hdup Hja Hafter) as ->.
    apply lookup_lt_Some in Hi. unfold element_ids in Hj. rewrite length_fmap in Hj. lia.
  - symmetry in Hafter. apply last_None, fmap_nil_inv in Hafter. rewrite Hafter in Hy. set_solver.
Qed.

Lemma from_ordered_inv_spec items :
  NoDup items.*1 →
  let '(els, idx, after) := from_ordered_acc items in
  sequence_inv (mkSequence els idx ∅ ∅) ∧ after = last (elem_id <$> els) ∧
  elem_id <$> els = items.*1 ∧ elem_value <$> els = Some <$> items.*2.
Proof.
  induction items as [|[id v] items IH] using rev_ind.
  { intros _. split_and!; [apply sequence_new_inv|done..]. }
  rewrite !fmap_app. intros (Hnd & Hd & _)%NoDup_app. specialize (IH Hnd).
  unfold from_ordered_acc in *. rewrite fold_left_app.
  destruct (fold_left _ items _) as [[els idx] after]. simpl.
  destruct IH as (Hinv & Hafter & Hids & Hvals).
  set (e := mkElement id (Some v) after None). set (s := mkSequence els idx ∅ ∅) in *.
  assert (Hfresh : emap s !! id = None).
  { apply eq_None_not_Some. rewrite <-canonical_dom.
    change (id ∉ elem_id <$> els). rewrite Hids. intros Hin. apply (Hd id); set_solver. }
  assert (Hanchor : ∀ a, after = Some a → is_Some (emap s !! a)).
  { intros a ->. rewrite <-canonical_dom. change (a ∈ elem_id <$> els).
    by apply last_Some_elem_of. }
  destruct (push_spec s e (inv_wf _ Hinv) Hfresh Hanchor) as [Hwf Hm]. simpl in Hwf, Hm.
  split_and!.
  - split; [done| |split; intros ? ?; simpl; by rewrite lookup_empty].
    unfold canonical. rewrite Hm. unfold element_ids. simpl. rewrite fmap_app. simpl.
    destruct (inv_ordered _ Hinv) as (Hk & Ho & Hdup & Hdom).
    pose proof (λ y ey, last_childless s after y ey Hinv Hafter) as Hsib.
    pose proof (order_leaf_first (emap s) e (element_ids s) Hk Ho Hdup Hdom Hfresh Hanchor) as Hl.
    simpl in Hl. destruct after as [a|].
    + destruct Hl as (pre & post & Hpp & Hl); [intros y ey Hy Hay; by destruct (Hsib y ey)|].
      assert (post = []) as ->.
      { destruct post as [|b post] using rev_ind; [done|]. exfalso.
        change (element_ids s) with (elem_id <$> els) in Hpp.
        rewrite Hpp in Hafter. rewrite app_comm_cons, app_assoc, last_snoc in Hafter.
        simplify_eq. change (element_ids s) with (elem_id <$> els) in Hdup.
        rewrite Hpp in Hdup. apply NoDup_app in Hdup as (_ & _ & Hdup).
        apply NoDup_cons in Hdup as [Hn _]. set_solver. }
      change (element_ids s) with (elem_id <$> els) in Hpp. rewrite Hpp. by simplify_list_eq.
    + symmetry in Hafter. apply last_None in Hafter. rewrite Hafter in *. simpl.
      change (element_ids s) with (elem_id <$> els) in Hl. rewrite Hafter in Hl.
      apply Hl. intros y ey Hy Hay. by destruct (Hsib y ey).
  - rewrite fmap_app. simpl. by rewrite last_snoc.
  - by rewrite fmap_app, Hids.
  - by rewrite fmap_app, Hvals.
Qed.

Lemma omap_Some_values (els : list (Element T)) (vs : list T) :
  elem_value <$> els = Some <$> vs → omap elem_value els = vs.
Proof.
  revert vs. induction els as [|e els IH]; intros [|v vs] H; simplify_eq/=; [done|].
  rewrite H. f_equal. by apply IH.
Qed.
End from_ordered.

(** ** Restoring a snapshot *)

Section restore.
Context {T : Type}.
Implicit Types (s : Sequence T) (r : Rga T).

Lemma push_fold_lookup {A} (key : A → OpId) (l : list A) (m : gmap OpId (list A)) k :
  fold_left (λ m x, btree_push (key x) x m) l m !! k =
    match filter (λ x, key x = k) l with
    | [] => m !! k
    | l' => Some (default [] (m !! k) ++ l')
    end.
Proof.
  revert m. induction l as [|x l IH]; intros m; [done|]. simpl. rewrite IH, filter_cons.
  unfold btree_push. rewrite lookup_insert. destruct (decide (key x = k)) as [->|]; [|done].
  simpl. destruct (filter _ l); [done|]. f_equal. by simplify_list_eq.
Qed.

Lemma filter_concat_entries {A} (key : A → OpId) (l : list (OpId * list A)) k :
  NoDup l.*1 → Forall (λ kv, Forall (λ x, key x = kv.1) kv.2) l →
  filter (λ x, key x = k) (concat l.*2) =
    match list_find (λ kv, kv.1 = k) l with Some (_, kv) => kv.2 | None => [] end.
Proof.
  induction l as [|[k' xs] l IH]; [done|]. rewrite fmap_cons, NoDup_cons.
  intros [Hn Hnd] [Hxs Hl]%Forall_cons.
  change (concat ((k', xs) :: l).*2) with (xs ++ concat l.*2).
  rewrite filter_app, (IH Hnd Hl). simpl in *. case_decide as Hk.
  - subst k'. rewrite (proj2 (list_find_None _ l)).
    + rewrite app_nil_r. clear -Hxs. induction Hxs as [|x xs Hx _ IH]; [done|].
      rewrite filter_cons_True by done. by rewrite IH.
    + rewrite Forall_forall. intros [k' ys] Hin <-. apply Hn. apply list_elem_of_fmap.
      by exists (k', ys).
  - assert (filter (λ x, key x = k) xs = []) as ->.
    { clear -Hxs Hk. induction Hxs as [|x xs Hx _ IH]; [done|].
      rewrite filter_cons_False by congruence. done. }
    simpl. by destruct (list_find _ l) as [[? ?]|].
Qed.

(** Pushing the buffered operations back, in key order, rebuilds the buffer. *)
Lemma push_fold_rebuild {A} (key : A → OpId) (m : gmap OpId (list A)) :
  (∀ k l, m !! k = Some l → l ≠ [] ∧ Forall (λ x, key x = k) l) →
  fold_left (λ m x, btree_push (key x) x m) (concat (btree_values m)) ∅ = m.
Proof.
  intros Hm. apply map_eq. intros k. rewrite push_fold_lookup, lookup_empty. simpl.
  unfold btree_values. rewrite filter_concat_entries.
  - destruct (list_find (λ kv, kv.1 = k) (btree_iter m)) as [[i [k' l]]|] eqn:E.
    + apply list_find_Some in E as (Hi & <- & _). apply list_elem_of_lookup_2 in Hi.
      apply elem_of_btree_iter in Hi. simpl in *. rewrite Hi.
      destruct (Hm _ _ Hi) as [Hne _]. by destruct l.
    + apply list_find_None in E. rewrite Forall_forall in E. symmetry.
      apply eq_None_not_Some. intros [l Hl]. apply (E (k, l)); [|done].
      by apply elem_of_btree_iter.
  - apply NoDup_btree_keys.
  - rewrite Forall_forall. intros [k' l] Hin. apply elem_of_btree_iter in Hin. simpl.
    by apply (Hm _ _ Hin).
Qed.

Lemma from_elements_spec (els : list (Element T)) s :
  sequence_inv s → seq_elements s = els →
  sequence_inv (from_elements els) ∧ rga_of (from_elements els) = mkRga (emap s) ∅ ∅.
Proof.
  intros [Hwf Hc _] <-. split; [|done]. split; [|done|split; intros ? ?; simpl; by rewrite lookup_empty].
  destruct Hwf as [Hnd Hidx Ht]. split; [done| |done].
  intros id i. simpl. by apply rebuild_index_lookup.
Qed.

(** Operations that are not ready are only buffered. *)
Lemma rga_apply_unready op r :
  rga_ready op (rga_map r) = false → rga_apply op r = rga_buffer op r.
Proof. intros Hr. unfold rga_apply, rga_step. rewrite Hr. by destruct (rga_fuel r). Qed.

Lemma rga_buffer_map op r : rga_map (rga_buffer op r) = rga_map r.
Proof. by destruct op as [[a|] ? ? ?|]. Qed.

Lemma rga_run_unready ops r :
  (∀ op, op ∈ ops → rga_ready op (rga_map r) = false) →
  fold_left (λ r op, rga_apply op r) ops r = fold_left (λ r op, rga_buffer op r) ops r.
Proof.
  revert r. induction ops as [|op ops IH]; intros r Hr; simpl; [done|].
  rewrite rga_apply_unready by (apply Hr; set_solver). apply IH.
  intros o Ho. rewrite rga_buffer_map. apply Hr. set_solver.
Qed.

Definition awaited_id (op : SequenceOp T) : OpId :=
  match op with
  | Insert (Some a) _ _ _ => a
  | Insert None id _ _ => id
  | Delete t _ => t
  end.

Lemma rga_buffer_inserts ops r :
  Forall (λ op, ∃ a id v ro, op = Insert (Some a) id v ro) ops →
  fold_left (λ r op, rga_buffer op r) ops r =
    mkRga (rga_map r) (fold_left (λ m op, btree_push (awaited_id op) op m) ops (rga_inserts r))
      (rga_deletes r).
Proof.
  intros Hall. revert r. induction Hall as [|op ops (a & id & v & ro & ->) _ IH]; intros r;
    simpl; [by destruct r|]. by rewrite IH.
Qed.
Lemma rga_buffer_deletes ops r :
  Forall (λ op, ∃ t d, op = Delete t d) ops →
  fold_left (λ r op, rga_buffer op r) ops r =
    mkRga (rga_map r) (rga_inserts r)
      (fold_left (λ m op, btree_push (awaited_id op) op m) ops (rga_deletes r)).
Proof.
  intros Hall. revert r. induction Hall as [|op ops (t & d & ->) _ IH]; intros r;
    simpl; [by destruct r|]. by rewrite IH.
Qed.

Lemma Forall_concat_values {A} (P : A → Prop) (m : gmap OpId (list A)) :
  (∀ k l, m !! k = Some l → Forall P l) → Forall P (concat (btree_values m)).
Proof.
  intros Hm. apply Forall_concat, Forall_forall. intros l [k Hl]%elem_of_btree_values. eauto.
Qed.

Lemma elem_of_pending_ops s op :
  pending_wf (rga_of s) → op ∈ pending_ops s → buffered op (rga_of s).
Proof.
  intros [Hpi Hpd]. unfold pending_ops. simpl in *. intros [Hop|Hop]%elem_of_app.
  - apply list_elem_of_In, in_concat in Hop as (l & Hl%list_elem_of_In & Hop%list_elem_of_In).
    apply elem_of_btree_values in Hl as [k Hl]. destruct (Hpi _ _ Hl) as (_ & _ & Hall).
    rewrite Forall_forall in Hall. destruct (Hall _ Hop) as (? & ? & ? & ->).
    simpl. by rewrite Hl.
  - apply list_elem_of_In, in_concat in Hop as (l & Hl%list_elem_of_In & Hop%list_elem_of_In).
    apply elem_of_btree_values in Hl as [k Hl]. destruct (Hpd _ _ Hl) as (_ & _ & Hall).
    rewrite Forall_forall in Hall. destruct (Hall _ Hop) as (? & ->).
    simpl. by rewrite Hl.
Qed.

Lemma restore_spec inc s :
  sequence_inv s → (∀ op, buffered op (rga_of s) → rga_ready op (emap s) = false) →
  from_elements_and_pending inc (seq_elements s) (pending_ops s) = s.
Proof.
  intros Hinv Hready. pose proof (inv_pending _ Hinv) as Hp.
  destruct (from_elements_spec (seq_elements s) s Hinv eq_refl) as [Hinv0 Hr0].
  unfold from_elements_and_pending.
  destruct (apply_all_spec inc (pending_ops s) (from_elements (seq_elements s)) Hinv0)
    as [[Hwf' Hc' _] Hr']. unfold apply_all in *.
  destruct Hinv as [Hwf Hc _]. apply canonical_unique; [done..|]. rewrite Hr', Hr0.
  rewrite rga_run_unready by (intros op Hop; apply Hready; by apply elem_of_pending_ops).
  destruct Hp as [Hpi Hpd]. simpl in *. unfold pending_ops.
  rewrite fold_left_app, (rga_buffer_inserts (concat (btree_values (pending_inserts s)))),
    rga_buffer_deletes; simpl.
  - unfold rga_of. f_equal; apply push_fold_rebuild; intros k l Hl.
    + destruct (Hpi _ _ Hl) as (_ & ? & Hall). split; [done|].
      eapply Forall_impl; [done|]. by intros ? (? & ? & ? & ->).
    + destruct (Hpd _ _ Hl) as (_ & ? & Hall). split; [done|].
      eapply Forall_impl; [done|]. by intros ? (? & ->).
  - apply Forall_concat_values. intros k l Hl. destruct (Hpd _ _ Hl) as (_ & _ & Hall).
    eapply Forall_impl; [done|]. naive_solver.
  - apply Forall_concat_values. intros k l Hl. destruct (Hpi _ _ Hl) as (_ & _ & Hall).
    eapply Forall_impl; [done|]. naive_solver.
Qed.
End restore.

(** ** Termination, on the concrete loop *)

Section termination.
Context {T : Type} (inc : bool).
Implicit Types (s : Sequence T) (q : list (SequenceOp T)).

Lemma apply_insert_internal_pending after id v ro rebuild s :
  let s' := (apply_insert_internal inc after id v ro rebuild s).1 in
  pending_inserts s' = pending_inserts s ∧ pending_deletes s' = pending_deletes s.
Proof. unfold apply_insert_internal. repeat case_match; done. Qed.

Lemma apply_delete_pending t s :
  let s' := (apply_delete t s).1 in
  pending_inserts s' = pending_inserts s ∧ pending_deletes s' = pending_deletes s.
Proof. unfold apply_delete. by case_match. Qed.

Definition buffered_count s : nat :=
  pending_count (pending_inserts s) + pending_count (pending_deletes s).

Lemma drain_step_count op s q ins :
  let '(s', q', _) := drain_step inc op s q ins in
  length q' + buffered_count s' ≤ length q + buffered_count s ∨
  length q' = length q ∧ buffered_count s' = S (buffered_count s).
Proof.
  unfold drain_step, buffered_count. destruct op as [after id v ro|t id].
  - pose proof (apply_insert_internal_pending after id v ro inc s) as [Hpi Hpd].
    destruct (apply_insert_internal inc after id v ro inc s) as [s1 ok]. simpl in Hpi, Hpd.
    destruct ok; [|destruct after as [a|]]; simpl.
    + left. rewrite !length_app, Hpi, Hpd.
      rewrite (pending_count_delete (pending_inserts s) id),
        (pending_count_delete (pending_deletes s) id). lia.
    + right. rewrite pending_count_push, Hpi, Hpd. lia.
    + left. by rewrite Hpi, Hpd.
  - pose proof (apply_delete_pending t s) as [Hpi Hpd].
    destruct (apply_delete t s) as [s1 ok]. simpl in Hpi, Hpd. destruct ok; simpl.
    + left. by rewrite Hpi, Hpd.
    + right. rewrite pending_count_push, Hpi, Hpd. lia.
Qed.

Lemma drain_total B fuel s q ins :
  length q + buffered_count s ≤ B →
  (length q + buffered_count s) * S B + length q ≤ fuel →
  is_Some (drain inc fuel s q ins).
Proof.
  revert s q ins. induction fuel as [|fuel IH]; intros s q ins HB Hfuel.
  { destruct q; simpl in *; [eauto|lia]. }
  destruct q as [|op q]; simpl; [eauto|].
  pose proof (drain_step_count op s q ins) as Hstep.
  destruct (drain_step inc op s q ins) as [[s' q'] ins']. simpl in *.
  apply IH; destruct Hstep as [?|[? ?]]; nia.
Qed.
End termination.

(** ** Claims *)

(** C1: Strong eventual consistency.  Two replicas that have received the same
    set of operations, in any order, with any duplication and whichever of the
    two placement algorithms they were built with, hold the same elements in the
    same order with the same index, show the same values, and buffer the same
    operations. *)
Theorem sequence_converges {T} (inc1 inc2 : bool) (h1 h2 : list (SequenceOp T))
    (Hconsistent : consistent h1) (Hsame : ∀ op, op ∈ h1 ↔ op ∈ h2) :
  let s1 := apply_all inc1 h1 sequence_new in
  let s2 := apply_all inc2 h2 sequence_new in
  seq_elements s1 = seq_elements s2 ∧ seq_index s1 = seq_index s2 ∧
  sequence_iter s1 = sequence_iter s2 ∧
  ∀ op, buffered op (rga_of s1) ↔ buffered op (rga_of s2).
Proof.
  intros s1 s2. destruct (runs_agree inc1 inc2 h1 h2 Hconsistent Hsame) as (He & Hi & Hb).
  fold s1 s2 in He, Hi, Hb. split_and!; [done..| |done]. unfold sequence_iter. by rewrite He.
Qed.

Definition op1 (c : N) : OpId := mkOpId c 1.
Definition op2 (c : N) : OpId := mkOpId c 2.

(** Out-of-order delivery with a buffered insert, a buffered delete and a
    concurrent insert by a second peer. *)
Definition history_a : list (SequenceOp N) :=
  [Insert (Some (op1 2)) (op1 3) 30%N None; Delete (op1 2) (op2 9);
   Insert None (op1 1) 10%N None; Insert (Some (op1 1)) (op1 2) 20%N None;
   Insert (Some (op1 1)) (op2 2) 21%N (Some (op1 2)); Insert (Some (op2 7)) (op2 8) 80%N None].
Definition history_b : list (SequenceOp N) :=
  [Insert None (op1 1) 10%N None; Insert (Some (op2 7)) (op2 8) 80%N None;
   Insert (Some (op1 1)) (op2 2) 21%N (Some (op1 2)); Insert (Some (op1 1)) (op1 2) 20%N None;
   Insert (Some (op1 2)) (op1 3) 30%N None; Delete (op1 2) (op2 9);
   Insert (Some (op1 1)) (op1 2) 20%N None].

Lemma history_a_consistent : consistent history_a.
Proof.
  intros id a1 v1 r1 a2 v2 r2 H1 H2. unfold history_a in *.
  repeat (apply elem_of_cons in H1 as [H1|H1]; [|]); try by apply not_elem_of_nil in H1.
  all: first [discriminate H1|injection H1 as -> -> -> ->];
    repeat (apply elem_of_cons in H2 as [H2|H2]; [by simplify_eq|]);
    by apply not_elem_of_nil in H2.
Qed.

Lemma sequence_converges_witness :
  sequence_iter (apply_all false history_a sequence_new) = [10; 21; 30]%N ∧
  sequence_iter (apply_all true history_b sequence_new) = [10; 21; 30]%N ∧
  seq_elements (apply_all false history_a sequence_new) =
    seq_elements (apply_all true history_b sequence_new).
Proof.
  split_and!; [vm_compute; reflexivity..|].
  refine (proj1 (sequence_converges false true history_a history_b history_a_consistent _)).
  intros op. unfold history_a, history_b. rewrite !elem_of_cons. tauto.
Defined.

(** C2: What a run of operations means.  The vector holds exactly the ids whose
    chain of anchors is in the history, each once; an element is a tombstone
    exactly when the history deletes it and otherwise shows the value of its
    insert; the vector is the depth-first document order of its elements; and
    the buffers hold exactly the operations that are not ready. *)
Theorem sequence_denotation {T} (inc : bool) (h : list (SequenceOp T)) (Hcons : consistent h) :
  let s := apply_all inc h sequence_new in
  NoDup (element_ids s) ∧
  (∀ id, id ∈ element_ids s ↔ integrable h id) ∧
  (∀ id e, get_element s id = Some e →
     (elem_value e = None ↔ deleted h id) ∧
     ∃ v, Insert (elem_after e) id v (elem_right_origin e) ∈ h ∧
          (elem_value e = Some v ∨ elem_value e = None)) ∧
  Order (emap s) (element_ids s) ∧
  (∀ op, buffered op (rga_of s) ↔ op ∈ h ∧ rga_ready op (emap s) = false).
Proof.
  intros s. destruct (run_denotes inc h) as ([Hw Hc Hp] & Hs & Hcm).
  fold s in Hw, Hc, Hp, Hs, Hcm. split_and!; [apply Hw| | |done|].
  - intros id. rewrite canonical_dom. by apply (denot_dom h (rga_of s)).
  - intros id e He. rewrite wf_get_element in He by done. split.
    + by apply (denot_value h (rga_of s)).
    + destruct (sound_map _ _ Hs id e He) as (_ & _ & _ & v & ? & Hv). exists v. naive_solver.
  - intros op. by apply (denot_buffered h).
Qed.

Lemma sequence_denotation_witness :
  element_ids (apply_all false history_a sequence_new) = [op1 1; op2 2; op1 2; op1 3] ∧
  integrable history_a (op1 3) ∧ ¬ integrable history_a (op2 8).
Proof.
  destruct (sequence_denotation false history_a history_a_consistent) as (_ & Hin & _).
  split; [vm_compute; reflexivity|]. split.
  - apply Hin. vm_compute. repeat constructor.
  - intros H. apply Hin in H. revert H. vm_compute. intros H.
    repeat (apply elem_of_cons in H as [H|H]; [discriminate H|]).
    by apply not_elem_of_nil in H.
Defined.

(** C10: One operation preserves the representation invariant (unique ids, index
    in agreement with the vector, [after] edges a forest, document order,
    buffers waiting only for absent elements) and acts on the set of elements
    and the buffers exactly as the abstract machine, in both builds and for any
    operation, well behaved or not. *)
Theorem apply_refines_machine {T} (inc : bool) (op : SequenceOp T) (s : Sequence T)
    (Hinv : sequence_inv s) :
  sequence_inv (apply inc op s) ∧ rga_of (apply inc op s) = rga_apply op (rga_of s).
Proof. by apply apply_spec. Qed.

Lemma apply_refines_machine_witness :
  sequence_inv (apply false (Insert None (op1 1) 10%N None) sequence_new) ∧
  element_ids (apply false (Insert None (op1 1) 10%N None) sequence_new) = [op1 1].
Proof.
  split; [|vm_compute; reflexivity].
  apply (apply_refines_machine false (Insert None (op1 1) 10%N None) sequence_new),
    sequence_new_inv.
Defined.

(** C29: The optimised placement of the feature [sequence_incremental] is
    equivalent to the full rebuild: from any well-formed sequence a run of
    arbitrary operations yields literally the same state, index and buffers
    included. *)
Theorem incremental_matches_rebuild {T} (ops : list (SequenceOp T)) (s : Sequence T)
    (Hinv : sequence_inv s) :
  apply_all true ops s = apply_all false ops s.
Proof.
  destruct (apply_all_spec true ops s Hinv) as [[Hw1 Hc1 _] Hr1].
  destruct (apply_all_spec false ops s Hinv) as [[Hw2 Hc2 _] Hr2].
  apply canonical_unique; [done..|]. by rewrite Hr1, Hr2.
Qed.

Lemma incremental_matches_rebuild_witness :
  apply_all true history_a sequence_new = apply_all false history_a sequence_new ∧
  element_ids (apply_all true history_a sequence_new) = [op1 1; op2 2; op1 2; op1 3].
Proof.
  split; [|vm_compute; reflexivity].
  apply (incremental_matches_rebuild history_a), sequence_new_inv.
Defined.

(** The loop of [process_pending] terminates in every state: the number of
    iterations the model allows, the square of one more than the number of
    buffered operations, is never exhausted. *)
Theorem process_pending_terminates {T} (inc : bool) (id : OpId) (s : Sequence T) :
  let '(s1, queue) := enqueue_pending id s [] in
  is_Some (drain inc (drain_fuel s) s1 queue false).
Proof.
  unfold enqueue_pending.
  apply (drain_total inc (buffered_count s)); unfold buffered_count, drain_fuel; simpl;
    rewrite length_app, (pending_count_delete (pending_inserts s) id),
      (pending_count_delete (pending_deletes s) id); nia.
Qed.

(** integrating an operation never reorders or drops what is there: the ids
    before are a subsequence of the ids after. *)
Theorem apply_keeps_order {T} (inc : bool) (op : SequenceOp T) (s : Sequence T)
    (Hinv : sequence_inv s) :
  element_ids s `sublist_of` element_ids (apply inc op s).
Proof.
  destruct (apply_spec inc op s Hinv) as [Hinv' Hr].
  destruct (rga_apply_stable op (rga_of s) (element_ids s)) as (out & (_ & Ho & _) & Hsub);
    [by apply inv_ordered|].
  rewrite <-Hr in Ho. by rewrite (dfs_det _ _ _ _ (inv_canonical _ Hinv') Ho).
Qed.

Lemma apply_keeps_order_witness :
  element_ids (apply_all false history_a sequence_new) `sublist_of`
  element_ids (apply false (Insert (Some (op1 1)) (op1 4) 40%N None)
    (apply_all false history_a sequence_new)).
Proof.
  apply (apply_keeps_order false (Insert (Some (op1 1)) (op1 4) 40%N None)).
  apply (apply_all_spec false history_a), sequence_new_inv.
Defined.

(** where a local insert lands.  When the anchor is present, the id is new
    and the stamped element sorts before every element with the same anchor, the
    new element stands immediately behind its anchor (at the front for no
    anchor). *)
Theorem local_insert_adjacent {T} (inc : bool) (after : option OpId) (v : T) (id : OpId)
    (s : Sequence T)
    (Hinv : sequence_inv s) (Hnew : id ∉ element_ids s) (Hwait : not_awaited id s)
    (Hanchor : ∀ a, after = Some a → a ∈ element_ids s)
    (Hfirst : ∀ e, e ∈ seq_elements s → elem_after e = after →
       compare_siblings (mkElement id (Some v) after (compute_right_origin after s)) e = Lt) :
  element_ids (sequence_insert inc after v id s) =
    match after with
    | None => id :: element_ids s
    | Some a =>
      let i := default 0 (seq_index s !! a) in
      take (S i) (element_ids s) ++ id :: drop (S i) (element_ids s)
    end.
Proof.
  apply insert_adjacent_spec; [done..| | |done].
  - apply eq_None_not_Some. by rewrite <-canonical_dom.
  - intros a Ha. apply canonical_dom. by apply Hanchor.
Qed.

Lemma local_insert_adjacent_witness :
  element_ids (sequence_insert false (Some (op1 3)) 40%N (op1 4)
    (apply_all false history_a sequence_new)) = [op1 1; op2 2; op1 2; op1 3; op1 4].
Proof.
  rewrite (local_insert_adjacent false (Some (op1 3)) 40%N (op1 4)).
  - vm_compute. reflexivity.
  - apply (apply_all_spec false history_a), sequence_new_inv.
  - vm_compute. intros H. repeat (apply elem_of_cons in H as [H|H]; [discriminate H|]).
    by apply not_elem_of_nil in H.
  - split; vm_compute; reflexivity.
  - intros a [= <-]. vm_compute. repeat constructor.
  - intros e He. vm_compute in He.
    repeat (apply elem_of_cons in He as [->|He]; [vm_compute; discriminate|]).
    by apply not_elem_of_nil in He.
Defined.

(** The sibling order does not always respect a local insert.  Three values
    inserted one after the other at the front of an empty sequence by one peer
    show as second, third, first: the third insert, issued at position zero,
    lands at position one, because right origins are compared by their ids and
    not by their positions. *)
Theorem repeated_head_insert_misplaced (inc : bool) :
  let s1 := sequence_insert inc None 10%N (op1 1) sequence_new in
  let s2 := sequence_insert inc None 20%N (op1 2) s1 in
  let s3 := sequence_insert inc None 30%N (op1 3) s2 in
  sequence_iter s2 = [20; 10]%N ∧ sequence_iter s3 = [20; 30; 10]%N.
Proof. destruct inc; split; vm_compute; reflexivity. Qed.

(** persistence round trip.  Restoring the elements and the buffered
    operations of the state reached by a history rebuilds that state exactly. *)
Theorem snapshot_roundtrip {T} (inc inc' : bool) (h : list (SequenceOp T))
    (Hcons : consistent h) :
  let s := apply_all inc h sequence_new in
  from_elements_and_pending inc' (seq_elements s) (pending_ops s) = s.
Proof.
  intros s. destruct (run_denotes inc h) as (Hinv & Hs & Hcm). fold s in Hinv, Hs, Hcm.
  apply restore_spec; [done|]. intros op Hb.
  by apply (denot_buffered h (rga_of s) op Hcons (inv_pending _ Hinv) Hs Hcm) in Hb as [_ ?].
Qed.

Lemma snapshot_roundtrip_witness :
  from_elements_and_pending true (seq_elements (apply_all false history_a sequence_new))
    (pending_ops (apply_all false history_a sequence_new)) =
    apply_all false history_a sequence_new ∧
  pending_ops (apply_all false history_a sequence_new) =
    [Insert (Some (op2 7)) (op2 8) 80%N None].
Proof.
  split; [|vm_compute; reflexivity].
  apply (snapshot_roundtrip false true history_a history_a_consistent).
Defined.

(** a sequence built from an ordered list with distinct ids (how parsed
    text becomes a sequence) is well formed and shows the list. *)
Theorem from_ordered_shows {T} (items : list (OpId * T)) (Hnd : NoDup items.*1) :
  sequence_inv (from_ordered items) ∧ element_ids (from_ordered items) = items.*1 ∧
  sequence_iter (from_ordered items) = items.*2.
Proof.
  pose proof (from_ordered_inv_spec items Hnd) as H. unfold from_ordered.
  fold (from_ordered_acc items). destruct (from_ordered_acc items) as [[els idx] after].
  destruct H as (? & _ & ? & ?). split_and!; [done..|]. by apply omap_Some_values.
Qed.

Lemma from_ordered_shows_witness :
  sequence_iter (from_ordered [(op1 1, 10%N); (op1 2, 20%N)]) = [10; 20]%N.
Proof.
  refine (proj2 (proj2 (from_ordered_shows [(op1 1, 10%N); (op1 2, 20%N)] _))).
  apply (bool_decide_unpack (NoDup _)). vm_compute. exact I.
Defined.
