(* ===== verification/Oracle.v ===== *)
(** * The naive sequence oracle

    Models [Sequence] of [src/md-crdt-naive-oracle/src/lib.rs], the reference
    the test-suite compares [core::Sequence] with: no index, no buffers, a full
    rebuild per insert.  The oracle's [walk_children] is the text of the one in
    [core] and shares its model.  On causally ordered deliveries the two agree. *)

From S2P Require Import Prelude Core Sequence SequenceOrder SequenceInv SequenceRefine.
From S2P Require Import SequenceConv SequenceProps.

Section oracle.
Context {T : Type}.
Implicit Types els : list (Element T).

(** The comparator of the oracle's [sort_by]: ids are compared as they are in
    the child list. *)
Definition oracle_sibling_le (element_map : gmap OpId (Element T)) (a b : OpId) : Prop :=
  match element_map !! a, element_map !! b with
  | Some ea, Some eb =>
    match elem_right_origin ea, elem_right_origin eb with
    | Some ra, Some rb => if decide (ra = rb) then ocmp b a else ocmp ra rb
    | Some _, None => Lt
    | None, Some _ => Gt
    | None, None => ocmp b a
    end ≠ Gt
  | None, _ => True
  | Some _, None => False
  end.
#[export] Instance oracle_sibling_le_dec m : RelDecision (oracle_sibling_le m).
Proof. intros a b. unfold oracle_sibling_le. repeat case_match; apply _. Defined.

Definition oracle_rebuild_order els : list (Element T) :=
  let element_map := element_map_of els in
  let children :=
    merge_sort (oracle_sibling_le element_map) <$>
      fold_left (λ ch e, btree_push (elem_after e) (elem_id e) ch)
        (btree_values element_map) ∅ in
  let ordered_ids := walk_children (S (size element_map)) None children [] in
  remove_each ordered_ids element_map.

Definition oracle_insert (after : option OpId) (value : T) (id : OpId)
    (right_origin : option OpId) els : list (Element T) :=
  if decide (id ∈ elem_id <$> els) then els
  else oracle_rebuild_order (mkElement id (Some value) after right_origin :: els).

Definition oracle_delete (target : OpId) els : list (Element T) :=
  match position (λ e, bool_decide (elem_id e = target)) els with
  | Some i => alter (set_value None) i els
  | None => els
  end.

Definition oracle_apply (op : SequenceOp T) els : list (Element T) :=
  match op with
  | Insert after id value right_origin => oracle_insert after value id right_origin els
  | Delete target _ => oracle_delete target els
  end.

Definition oracle_elements els : list T := omap elem_value els.

Definition oracle_run (ops : list (SequenceOp T)) : list (Element T) :=
  fold_left (λ els op, oracle_apply op els) ops [].

(** Every operation of the delivery finds its anchor or target in place. *)
Fixpoint causal (m : gmap OpId (Element T)) (ops : list (SequenceOp T)) : Prop :=
  match ops with
  | [] => True
  | op :: ops => rga_ready op m = true ∧ causal (rga_effect op m) ops
  end.
End oracle.

(** ** Sorting with an equivalent comparator *)

Section merge_ext.
Context {A : Type} (R1 R2 : relation A) `{!RelDecision R1, !RelDecision R2}.
Hypothesis HR : ∀ x y, R1 x y ↔ R2 x y.

Lemma list_merge_ext l1 l2 : list_merge R1 l1 l2 = list_merge R2 l1 l2.
Proof.
  revert l2. induction l1 as [|x1 l1 IH1]; intros l2; [by destruct l2|].
  induction l2 as [|x2 l2 IH2]; [done|]. rewrite !list_merge_cons.
  destruct (decide (R1 x1 x2)) as [H|H], (decide (R2 x1 x2)) as [H'|H'];
    rewrite HR in H; try done; congruence.
Qed.
Lemma merge_list_to_stack_ext st l :
  merge_list_to_stack R1 st l = merge_list_to_stack R2 st l.
Proof.
  revert l. induction st as [|[l'|] st IH]; intros l; simpl; [done| |done].
  by rewrite list_merge_ext, IH.
Qed.
Lemma merge_stack_ext st : merge_stack R1 st = merge_stack R2 st.
Proof. induction st as [|[l|] st IH]; simpl; [done| |done]. by rewrite IH, list_merge_ext. Qed.
Lemma merge_sort_ext l : merge_sort R1 l = merge_sort R2 l.
Proof.
  unfold merge_sort. generalize (@nil (option (list A))). induction l as [|x l IH]; intros st;
    simpl; [apply merge_stack_ext|]. by rewrite merge_list_to_stack_ext, IH.
Qed.
End merge_ext.

Section agreement.
Context {T : Type}.
Implicit Types (els : list (Element T)) (s : Sequence T).

Lemma oracle_sibling_le_iff (m : gmap OpId (Element T)) a b :
  keyed m → oracle_sibling_le m a b ↔ sibling_le m a b.
Proof.
  intros Hk. unfold oracle_sibling_le, sibling_le, compare_siblings.
  destruct (m !! a) as [ea|] eqn:Ha, (m !! b) as [eb|] eqn:Hb; try done.
  by rewrite (Hk _ _ Ha), (Hk _ _ Hb).
Qed.

Lemma oracle_rebuild_spec els :
  oracle_rebuild_order els = seq_elements (rebuild_order (mkSequence els ∅ ∅ ∅)).
Proof.
  unfold oracle_rebuild_order, rebuild_order, children_of. simpl.
  assert (Hsort : ∀ (ch : gmap (option OpId) (list OpId)),
    merge_sort (oracle_sibling_le (element_map_of els)) <$> ch =
    merge_sort (sibling_le (element_map_of els)) <$> ch).
  { intros ch. apply map_fmap_ext. intros i x _. apply merge_sort_ext.
    intros a b. apply oracle_sibling_le_iff, element_map_keyed. }
  by rewrite Hsort.
Qed.

(** The first element with an id is the one the index knows. *)
Lemma position_index s target :
  seq_wf s →
  position (λ e, bool_decide (elem_id e = target)) (seq_elements s) = seq_index s !! target.
Proof.
  intros Hwf. destruct (seq_index s !! target) as [i|] eqn:Hi.
  - apply (wf_index _ Hwf) in Hi. unfold element_ids in Hi.
    rewrite list_lookup_fmap, fmap_Some in Hi. destruct Hi as (e & He & ->).
    pose proof (take_drop_middle _ _ _ He) as Hsplit. rewrite <-Hsplit at 1.
    rewrite position_app; [|..|by apply bool_decide_eq_true_2].
    + f_equal. rewrite length_take. apply lookup_lt_Some in He. lia.
    + intros y Hy. apply bool_decide_eq_false_2. intros Hid.
      apply list_elem_of_lookup in Hy as (j & Hj). apply lookup_take_Some in Hj as [Hj Hlt].
      enough (j = i) by lia. eapply (NoDup_lookup (element_ids s)); [apply Hwf| |].
      * unfold element_ids. rewrite list_lookup_fmap, Hj. simpl. by rewrite Hid.
      * unfold element_ids. by rewrite list_lookup_fmap, He.
  - apply position_None. intros e He. apply bool_decide_eq_false_2. intros Hid.
    apply wf_index_None in Hi; [|done]. rewrite <-Hid, emap_elem in Hi; done.
Qed.

(** One causally ready operation. *)
Lemma oracle_apply_agrees inc op s :
  sequence_inv s → pending_inserts s = ∅ → pending_deletes s = ∅ →
  rga_ready op (emap s) = true →
  let s' := apply inc op s in
  oracle_apply op (seq_elements s) = seq_elements s' ∧ sequence_inv s' ∧
  pending_inserts s' = ∅ ∧ pending_deletes s' = ∅ ∧ emap s' = rga_effect op (emap s).
Proof.
  intros Hinv Hpi Hpd Hready s'. destruct (apply_spec inc op s Hinv) as [Hinv' Hr].
  fold s' in Hinv', Hr.
  assert (Hr' : rga_of s' = mkRga (rga_effect op (emap s)) ∅ ∅).
  { rewrite Hr. unfold rga_apply, rga_step. change (rga_map (rga_of s)) with (emap s).
    rewrite Hready. simpl rga_inserts. simpl rga_deletes. rewrite Hpi, Hpd.
    destruct op as [after id v ro|t d]; simpl.
    - rewrite !lookup_empty, !delete_empty. simpl. by destruct (rga_fuel (rga_of s)).
    - by destruct (rga_fuel (rga_of s)). }
  injection Hr' as Hm Hpi' Hpd'. split_and!; [|done..].
  destruct Hinv as [Hwf Hc _], Hinv' as [Hwf' Hc' _].
  destruct op as [after id v ro|t d]; simpl in *.
  - unfold oracle_insert, rga_add in *.
    destruct (emap s !! id) as [e0|] eqn:Hid; case_decide as Hin.
    + apply elements_unique; [apply Hwf| |exact (eq_sym Hm)].
      unfold canonical in *. rewrite Hm in Hc'. by eapply dfs_det.
    + destruct Hin. apply (canonical_dom s). eauto.
    + apply (canonical_dom s) in Hin. rewrite Hid in Hin. by destruct Hin.
    + set (e := mkElement id (Some v) after ro) in *. rewrite oracle_rebuild_spec.
      assert (Hanchor : ∀ a, after = Some a → is_Some (emap s !! a)).
      { intros a ->. rewrite bool_decide_eq_false_2 in Hready by by intros [].
        by apply bool_decide_eq_true in Hready. }
      destruct (push_spec s e Hwf Hid Hanchor) as [[Hnd _ Ht] Hpm].
      assert (Hmap : element_map_of (e :: seq_elements s) = <[id := e]> (emap s)).
      { change (<[id := e]> (emap s)) with (<[elem_id e := e]> (emap s)).
        rewrite <-Hpm. unfold emap. simpl. symmetry. apply element_map_perm; [done|].
        symmetry. apply Permutation_cons_append. }
      destruct (rebuild_order_spec (mkSequence (e :: seq_elements s) ∅ ∅ ∅)) as (Hwr & Hcr & Hrr).
      * unfold element_ids in *. simpl in *. rewrite fmap_app in Hnd. simpl in Hnd.
        by rewrite <-Permutation_cons_append in Hnd.
      * unfold emap. simpl. rewrite Hmap. rewrite Hpm in Ht. exact Ht.
      * unfold rga_of in Hrr. injection Hrr as Hmr. unfold emap at 2 in Hmr. simpl in Hmr.
        apply elements_unique; [apply Hwr| |unfold emap in *; by rewrite Hmr, Hm, Hmap].
        unfold canonical in *. rewrite Hmr, Hmap in Hcr. rewrite Hm in Hc'.
        by eapply dfs_det.
  - unfold oracle_delete. rewrite position_index by done.
    unfold s', apply, apply_now, apply_delete.
    destruct (seq_index s !! t) as [i|]; done.
Qed.

Lemma oracle_run_agrees inc ops s :
  sequence_inv s → pending_inserts s = ∅ → pending_deletes s = ∅ → causal (emap s) ops →
  fold_left (λ els op, oracle_apply op els) ops (seq_elements s) =
    seq_elements (apply_all inc ops s).
Proof.
  revert s. induction ops as [|op ops IH]; intros s Hinv Hpi Hpd; simpl; [done|].
  intros [Hr Hc].
  destruct (oracle_apply_agrees inc op s Hinv Hpi Hpd Hr) as (-> & ? & ? & ? & Hm).
  apply IH; [done..|]. by rewrite Hm.
Qed.
End agreement.

(** ** Claim *)

(** On a causally ordered delivery the production sequence and the naive
    oracle hold the same elements, tombstones included, and show the same
    values. *)
Theorem oracle_agrees {T} (inc : bool) (ops : list (SequenceOp T)) (Hcausal : causal ∅ ops) :
  oracle_run ops = seq_elements (apply_all inc ops sequence_new) ∧
  oracle_elements (oracle_run ops) = sequence_iter (apply_all inc ops sequence_new).
Proof.
  assert (H : oracle_run ops = seq_elements (apply_all inc ops sequence_new))
    by (apply (oracle_run_agrees inc ops sequence_new); [apply sequence_new_inv|done..]).
  split; [done|]. unfold oracle_elements, sequence_iter. by rewrite H.
Qed.

Definition causal_history : list (SequenceOp N) :=
  [Insert None (op1 1) 10%N None; Insert (Some (op1 1)) (op1 2) 20%N None;
   Insert (Some (op1 1)) (op2 2) 21%N (Some (op1 2)); Delete (op1 2) (op2 9);
   Insert (Some (op1 2)) (op1 3) 30%N None].

Lemma oracle_agrees_witness :
  oracle_elements (oracle_run causal_history) = [10; 21; 30]%N ∧
  oracle_elements (oracle_run causal_history) =
    sequence_iter (apply_all true causal_history sequence_new).
Proof.
  split; [vm_compute; reflexivity|].
  refine (proj2 (oracle_agrees true causal_history _)).
  vm_compute. repeat split.
Defined.
