(* ===== verification/Mark.v ===== *)
(** * Marks: causal formatting intervals

    Models [src/src/core/mark.rs]: mark intervals over stable text-unit anchors,
    causal removal, merging of mark histories, and rendering to spans. *)

From S2P Require Import Prelude Core.

(** ** Data *)

Inductive MarkKind := Bold | Italic | Code | Link | Custom (name : string).
Inductive MarkValue := MarkString (s : string) | MarkBool (b : bool).
Inductive AnchorBias := Before | After.

Record Anchor := mkAnchor { anchor_elem : OpId; anchor_bias : AnchorBias }.

Record MarkInterval := mkInterval {
  mi_id : OpId;
  mi_kind : MarkKind;
  mi_start : Anchor;
  mi_end : Anchor;
  mi_attrs : gmap string (LwwRegister MarkValue);
  mi_op_id : OpId;
}.

Record RemoveMark := mkRemove { rm_observed : StateVector; rm_op_id : OpId }.

Record MarkSet := mkMarkSet {
  intervals : gmap OpId MarkInterval;
  removes : gmap OpId RemoveMark;
}.

Record Span := mkSpan { span_start : nat; span_end : nat; span_marks : list OpId }.

#[export] Instance MarkKind_eq_dec : EqDecision MarkKind.
Proof. solve_decision. Defined.
#[export] Instance MarkValue_eq_dec : EqDecision MarkValue.
Proof. solve_decision. Defined.
#[export] Instance AnchorBias_eq_dec : EqDecision AnchorBias.
Proof. solve_decision. Defined.
#[export] Instance Anchor_eq_dec : EqDecision Anchor.
Proof. solve_decision. Defined.
#[export] Instance MarkInterval_eq_dec : EqDecision MarkInterval.
Proof. solve_decision. Defined.
#[export] Instance RemoveMark_eq_dec : EqDecision RemoveMark.
Proof. solve_decision. Defined.
#[export] Instance Span_eq_dec : EqDecision Span.
Proof. solve_decision. Defined.

(** ** Updates *)

Definition markset_new : MarkSet := mkMarkSet ∅ ∅.

(** The loop over the attributes of a [set_mark]. *)
Definition merge_attrs (attrs : gmap string MarkValue) (op_id : OpId)
    (regs : gmap string (LwwRegister MarkValue)) : gmap string (LwwRegister MarkValue) :=
  fold_left (λ regs kv, lww_upsert kv.1 kv.2 op_id regs) (btree_iter attrs) regs.

(** What [set_mark] does to the entry of the interval. *)
Definition set_mark_entry (interval_id : OpId) (kind : MarkKind) (start stop : Anchor)
    (attrs : gmap string MarkValue) (op_id : OpId) (existing : option MarkInterval) :
    MarkInterval :=
  let entry := default (mkInterval interval_id kind start stop ∅ op_id) existing in
  let entry :=
    if ord_geb op_id (mi_op_id entry)
    then mkInterval (mi_id entry) kind start stop (mi_attrs entry) op_id
    else entry in
  mkInterval (mi_id entry) (mi_kind entry) (mi_start entry) (mi_end entry)
    (merge_attrs attrs op_id (mi_attrs entry)) (mi_op_id entry).

Definition set_mark (interval_id : OpId) (kind : MarkKind) (start stop : Anchor)
    (attrs : gmap string MarkValue) (op_id : OpId) (ms : MarkSet) : MarkSet :=
  mkMarkSet
    (<[interval_id :=
         set_mark_entry interval_id kind start stop attrs op_id (intervals ms !! interval_id)]>
       (intervals ms))
    (removes ms).

Definition remove_mark (interval_id : OpId) (observed : StateVector) (op_id : OpId)
    (ms : MarkSet) : MarkSet :=
  match removes ms !! interval_id with
  | Some existing =>
    if ord_geb (rm_op_id existing) op_id then ms
    else mkMarkSet (intervals ms) (<[interval_id := mkRemove observed op_id]> (removes ms))
  | None => mkMarkSet (intervals ms) (<[interval_id := mkRemove observed op_id]> (removes ms))
  end.

(** The [match self.get(id) { Some(existing) if existing.op_id >= new.op_id => {} ... }]
    of [merge_from]. *)
Definition keep_newest {A} (op_of : A → OpId) (id : OpId) (new : A) (m : gmap OpId A) : gmap OpId A :=
  match m !! id with
  | Some existing => if ord_geb (op_of existing) (op_of new) then m else <[id := new]> m
  | None => <[id := new]> m
  end.

Definition merge_from (other ms : MarkSet) : MarkSet :=
  mkMarkSet
    (fold_left (λ m kv, keep_newest mi_op_id kv.1 kv.2 m) (btree_iter (intervals other)) (intervals ms))
    (fold_left (λ m kv, keep_newest rm_op_id kv.1 kv.2 m) (btree_iter (removes other)) (removes ms)).

(** ** Queries *)

Definition interval (ms : MarkSet) (id : OpId) : option MarkInterval := intervals ms !! id.

Definition is_active (ms : MarkSet) (id : OpId) : bool :=
  match intervals ms !! id with
  | None => false
  | Some i =>
    match removes ms !! id with
    | None => true
    | Some r => (sv_seen (rm_observed r) (peer (mi_id i)) <? counter (mi_id i))%N
    end
  end.

(** [active_intervals] and [iter_active_intervals]. *)
Definition active_intervals (ms : MarkSet) : list MarkInterval :=
  filter (λ i, is_active ms (mi_id i) = true) (btree_values (intervals ms)).

Definition resolve_anchor (a : Anchor) (index_map : gmap OpId nat) (len : nat) : nat :=
  let base := default 0 (index_map !! anchor_elem a) in
  match anchor_bias a with
  | Before => base
  | After => Nat.min (base + 1) len
  end.

(** [element_order.iter().enumerate()] collected by id. *)
Definition index_map_of (order : list OpId) : gmap OpId nat :=
  btree_collect (imap (λ i id, (id, i)) order).

Definition resolved_range (order : list OpId) (len : nat) (i : MarkInterval) : nat * nat :=
  let start := resolve_anchor (mi_start i) (index_map_of order) len in
  let stop := resolve_anchor (mi_end i) (index_map_of order) len in
  (Nat.min start stop, Nat.max start stop).

Definition resolved_intervals (ms : MarkSet) (order : list OpId) : list (MarkInterval * nat * nat) :=
  (λ i, let '(from, to) := resolved_range order (length order) i in (i, from, to))
    <$> active_intervals ms.

(** ** Rendering *)

(** [Vec::dedup]. *)
Fixpoint dedup (l : list OpId) : list OpId :=
  match l with
  | x :: (y :: _) as t => if decide (x = y) then dedup t else x :: dedup t
  | _ => l
  end.

(** The loop that pushes each active interval on the positions it covers. *)
Definition push_marks (order : list OpId) (visible_len : nat) (marks_at : list (list OpId))
    (i : MarkInterval) : list (list OpId) :=
  let start := resolve_anchor (mi_start i) (index_map_of order) visible_len in
  let stop := resolve_anchor (mi_end i) (index_map_of order) visible_len in
  let '(from, to) := if decide (start ≤ stop) then (start, stop) else (stop, start) in
  fold_left (λ marks_at idx,
    if decide (idx < length marks_at) then alter (λ l, l ++ [mi_id i]) idx marks_at else marks_at)
    (seq from (to - from)) marks_at.

Definition marks_at_positions (ms : MarkSet) (order : list OpId) (visible_len : nat) :
    list (list OpId) :=
  (λ marks, dedup (merge_sort ord_le marks)) <$>
    fold_left (push_marks order visible_len) (active_intervals ms)
      (replicate (visible_len + 1) []).

(** [while end < visible_len && marks_at[end] == current { end += 1 }]. *)
Fixpoint run_end (fuel : nat) (marks_at : list (list OpId)) (current : list OpId)
    (visible_len stop : nat) : nat :=
  match fuel with
  | 0 => stop
  | S fuel =>
    if decide (stop < visible_len ∧ marks_at !! stop = Some current)
    then run_end fuel marks_at current visible_len (stop + 1)
    else stop
  end.

(** The outer [while start < visible_len]; [std::mem::take] empties the position. *)
Fixpoint spans_loop (fuel : nat) (marks_at : list (list OpId)) (visible_len start : nat) :
    list Span :=
  match fuel with
  | 0 => []
  | S fuel =>
    if decide (start < visible_len) then
      let current := default [] (marks_at !! start) in
      let marks_at := <[start := []]> marks_at in
      let stop := run_end visible_len marks_at current visible_len (start + 1) in
      mkSpan start stop current :: spans_loop fuel marks_at visible_len stop
    else []
  end.

Definition render_spans (ms : MarkSet) (order : list OpId) (visible_len : nat) : list Span :=
  spans_loop visible_len (marks_at_positions ms order visible_len) visible_len 0.

(** ** The serialised form *)

(** [MarkSetSerde]: the two maps as lists. *)
Record MarkSetSerde := mkMarkSetSerde {
  serde_intervals : list MarkInterval;
  serde_removes : list (OpId * RemoveMark);
}.

Definition markset_serialize (ms : MarkSet) : MarkSetSerde :=
  mkMarkSetSerde (btree_values (intervals ms)) (btree_iter (removes ms)).

Definition markset_deserialize (v : MarkSetSerde) : MarkSet :=
  mkMarkSet (btree_collect ((λ i, (mi_id i, i)) <$> serde_intervals v))
    (btree_collect (serde_removes v)).

(** ** Operations on a mark set *)

Inductive MarkOp :=
  | OpSetMark (interval_id : OpId) (kind : MarkKind) (start stop : Anchor)
      (attrs : gmap string MarkValue) (op_id : OpId)
  | OpRemoveMark (interval_id : OpId) (observed : StateVector) (op_id : OpId).

Definition mark_op_id (o : MarkOp) : OpId :=
  match o with OpSetMark _ _ _ _ _ op => op | OpRemoveMark _ _ op => op end.

Definition mark_step (ms : MarkSet) (o : MarkOp) : MarkSet :=
  match o with
  | OpSetMark id kind start stop attrs op => set_mark id kind start stop attrs op ms
  | OpRemoveMark id observed op => remove_mark id observed op ms
  end.

(** The interface of [Core]: operation ids identify operations. *)
#[export] Instance mark_crdt : OpCrdt MarkSet MarkOp := {
  crdt_step := mark_step;
  crdt_compat a b := mark_op_id a = mark_op_id b → a = b;
}.

(** Every interval is stored under its own id. *)
Definition markset_wf (ms : MarkSet) : Prop :=
  ∀ id i, intervals ms !! id = Some i → mi_id i = id.
