(* ===== verification/MarkProps.v ===== *)
(** * Properties of marks

    Mark sets converge and removal is causal and final; the rendered spans are
    the run-length encoding of the per-position mark sets; resolved ranges are
    in bounds; the serialised form round-trips. *)

From S2P Require Import Prelude Core Mark.

(** ** Attributes *)

Lemma merge_attrs_fold (l : list (string * MarkValue)) op regs k :
  NoDup l.*1 →
  fold_left (λ regs kv, lww_upsert kv.1 kv.2 op regs) l regs !! k =
    match (list_to_map l : gmap string MarkValue) !! k with
    | None => regs !! k
    | Some v => Some (match regs !! k with Some r => Lww.set r v op | None => Lww.new v op end)
    end.
Proof.
  revert regs. induction l as [|[k' v] l IH]; intros regs Hnd; simpl; [by rewrite lookup_empty|].
  rewrite fmap_cons, NoDup_cons in Hnd. destruct Hnd as [Hn Hnd]. rewrite IH by done.
  unfold lww_upsert. simpl. destruct (decide (k' = k)) as [->|Hne].
  - rewrite lookup_insert_eq, (not_elem_of_list_to_map_1 l k) by done.
    by rewrite lookup_insert_eq.
  - rewrite !lookup_insert_ne by done. done.
Qed.

Lemma merge_attrs_lookup attrs op regs k :
  merge_attrs attrs op regs !! k =
    match attrs !! k with
    | None => regs !! k
    | Some v => Some (match regs !! k with Some r => Lww.set r v op | None => Lww.new v op end)
    end.
Proof.
  unfold merge_attrs. rewrite merge_attrs_fold by apply NoDup_btree_keys.
  by rewrite btree_iter_collect.
Qed.

Lemma merge_attrs_comm a1 a2 op1 op2 regs :
  (op1 = op2 → a1 = a2) →
  merge_attrs a2 op2 (merge_attrs a1 op1 regs) = merge_attrs a1 op1 (merge_attrs a2 op2 regs).
Proof.
  intros Hcompat. apply map_eq. intros k. rewrite !merge_attrs_lookup.
  destruct (a1 !! k) as [v1|] eqn:E1, (a2 !! k) as [v2|] eqn:E2; try done.
  assert (Hv : op1 = op2 → v1 = v2) by (intros ->; specialize (Hcompat eq_refl); congruence).
  f_equal. destruct (regs !! k); [by apply lww_set_comm|by apply lww_new_set_comm].
Qed.

Lemma merge_attrs_idemp a op regs :
  merge_attrs a op (merge_attrs a op regs) = merge_attrs a op regs.
Proof.
  apply map_eq. intros k. rewrite !merge_attrs_lookup. destruct (a !! k); [|done].
  f_equal. destruct (regs !! k); [apply lww_set_idemp|].
  unfold Lww.set, Lww.new. simpl. by rewrite ord_geb_refl.
Qed.

(** ** The interval entry as a register plus attributes *)

Definition header (i : MarkInterval) : LwwRegister (MarkKind * Anchor * Anchor) :=
  mkLww (mi_kind i, mi_start i, mi_end i) (mi_op_id i).

Lemma interval_ext i j :
  mi_id i = mi_id j → header i = header j → mi_attrs i = mi_attrs j → i = j.
Proof. destruct i, j; unfold header; simpl. intros; simplify_eq. done. Qed.

Section entry.
Context (id : OpId) (k : MarkKind) (s t : Anchor) (a : gmap string MarkValue) (op : OpId).

Lemma entry_id o : mi_id (set_mark_entry id k s t a op o) = match o with Some e => mi_id e | None => id end.
Proof. unfold set_mark_entry. destruct o; simpl; by destruct (ord_geb _ _). Qed.
Lemma entry_header o :
  header (set_mark_entry id k s t a op o) =
    match o with
    | Some e => Lww.set (header e) (k, s, t) op
    | None => Lww.new (k, s, t) op
    end.
Proof.
  unfold set_mark_entry, header, Lww.set, Lww.new. destruct o as [e|]; simpl.
  - by destruct (ord_geb _ _).
  - by rewrite ord_geb_refl.
Qed.
Lemma entry_attrs o :
  mi_attrs (set_mark_entry id k s t a op o) =
    merge_attrs a op (match o with Some e => mi_attrs e | None => ∅ end).
Proof. unfold set_mark_entry. destruct o; simpl; by destruct (ord_geb _ _). Qed.
End entry.

Lemma set_mark_entry_comm id k1 s1 t1 a1 op1 k2 s2 t2 a2 op2 o :
  (op1 = op2 → k1 = k2 ∧ s1 = s2 ∧ t1 = t2 ∧ a1 = a2) →
  set_mark_entry id k2 s2 t2 a2 op2 (Some (set_mark_entry id k1 s1 t1 a1 op1 o)) =
  set_mark_entry id k1 s1 t1 a1 op1 (Some (set_mark_entry id k2 s2 t2 a2 op2 o)).
Proof.
  intros Hcompat. apply interval_ext.
  - rewrite !entry_id. cbv beta iota. by rewrite ?entry_id.
  - rewrite !entry_header. cbv beta iota. rewrite ?entry_header.
    destruct o; [apply lww_set_comm|apply lww_new_set_comm]; naive_solver.
  - rewrite !entry_attrs. cbv beta iota. rewrite ?entry_attrs. apply merge_attrs_comm. naive_solver.
Qed.

Lemma set_mark_entry_idemp id k s t a op o :
  set_mark_entry id k s t a op (Some (set_mark_entry id k s t a op o)) =
  set_mark_entry id k s t a op o.
Proof.
  apply interval_ext.
  - rewrite !entry_id. cbv beta iota. by rewrite ?entry_id.
  - rewrite !entry_header. cbv beta iota. rewrite ?entry_header. destruct o; [apply lww_set_idemp|].
    unfold Lww.set, Lww.new. simpl. by rewrite ord_geb_refl.
  - rewrite !entry_attrs. cbv beta iota. rewrite ?entry_attrs. apply merge_attrs_idemp.
Qed.

(** ** Newest-wins maps *)

Section newest.
Context {A : Type} (op_of : A → OpId).
Implicit Types m : gmap OpId A.

Lemma keep_newest_lookup id x m k :
  keep_newest op_of id x m !! k =
    if decide (id = k) then
      Some (match m !! k with
            | Some y => if ord_geb (op_of y) (op_of x) then y else x
            | None => x
            end)
    else m !! k.
Proof.
  unfold keep_newest. case_decide as Hk.
  - subst k. destruct (m !! id) as [y|] eqn:E; [|by rewrite lookup_insert_eq].
    destruct (ord_geb (op_of y) (op_of x)); [done|by rewrite lookup_insert_eq].
  - destruct (m !! id) as [y|]; [|by rewrite lookup_insert_ne].
    destruct (ord_geb _ _); [done|by rewrite lookup_insert_ne].
Qed.

Lemma newest_comm (x y : A) :
  (op_of x = op_of y → x = y) →
  (if ord_geb (op_of x) (op_of y) then x else y) = (if ord_geb (op_of y) (op_of x) then y else x).
Proof.
  intros Hc. destruct (ord_lt_total (op_of x) (op_of y)) as [Hlt|[Heq|Hlt]].
  - rewrite (proj2 (ord_geb_lt _ _) Hlt), (proj2 (ord_geb_le _ _) (ord_lt_le _ _ Hlt)). done.
  - rewrite Heq, ord_geb_refl. by apply Hc.
  - rewrite (proj2 (ord_geb_lt _ _) Hlt), (proj2 (ord_geb_le _ _) (ord_lt_le _ _ Hlt)). done.
Qed.

Lemma newest_max (x y : A) :
  op_of (if ord_geb (op_of x) (op_of y) then x else y) =
    if ord_geb (op_of x) (op_of y) then op_of x else op_of y.
Proof. by destruct (ord_geb _ _). Qed.

Lemma newest_assoc (z x y : A) :
  (op_of x = op_of y → x = y) →
  let w1 := if ord_geb (op_of z) (op_of x) then z else x in
  let w2 := if ord_geb (op_of z) (op_of y) then z else y in
  (if ord_geb (op_of w1) (op_of y) then w1 else y) =
  (if ord_geb (op_of w2) (op_of x) then w2 else x).
Proof.
  intros Hc. simpl.
  destruct (ord_geb (op_of z) (op_of x)) eqn:Ex, (ord_geb (op_of z) (op_of y)) eqn:Ey;
    rewrite ?Ex, ?Ey; try done.
  - apply ord_geb_le in Ex. apply ord_geb_lt in Ey.
    rewrite (proj2 (ord_geb_le (op_of y) (op_of x))); [done|].
    etrans; [exact Ex|by apply ord_lt_le].
  - apply ord_geb_lt in Ex. apply ord_geb_le in Ey.
    rewrite (proj2 (ord_geb_le (op_of x) (op_of y))); [done|].
    etrans; [exact Ey|by apply ord_lt_le].
  - by apply newest_comm.
Qed.

Lemma keep_newest_comm id1 x id2 y m :
  (id1 = id2 → op_of x = op_of y → x = y) →
  keep_newest op_of id2 y (keep_newest op_of id1 x m) =
  keep_newest op_of id1 x (keep_newest op_of id2 y m).
Proof.
  intros Hc. apply map_eq. intros k. rewrite !keep_newest_lookup.
  repeat case_decide; subst; try done; try congruence. f_equal.
  destruct (m !! k) as [z|]; [by apply newest_assoc; auto|by apply newest_comm; auto].
Qed.

Lemma keep_newest_idemp id x m :
  keep_newest op_of id x (keep_newest op_of id x m) = keep_newest op_of id x m.
Proof.
  apply map_eq. intros k. rewrite !keep_newest_lookup. case_decide; [|done]. f_equal.
  destruct (m !! k) as [z|]; [|by rewrite ord_geb_refl].
  destruct (ord_geb (op_of z) (op_of x)) eqn:E; [by rewrite E|by rewrite ord_geb_refl].
Qed.
End newest.

Lemma remove_mark_newest id observed op ms :
  remove_mark id observed op ms =
    mkMarkSet (intervals ms) (keep_newest rm_op_id id (mkRemove observed op) (removes ms)).
Proof.
  unfold remove_mark, keep_newest. destruct (removes ms !! id) as [r|]; [|done]. simpl.
  destruct (ord_geb _ _); [by destruct ms|done].
Qed.

(** ** Mark sets implement the interface *)

#[export] Instance MarkOp_eq_dec : EqDecision MarkOp.
Proof. solve_decision. Defined.

#[export] Instance mark_crdt_laws : OpCrdtLaws MarkSet MarkOp.
Proof.
  split.
  - intros a b Hab Hba. symmetry. by apply Hab.
  - intros ms a b Hab. simpl in *.
    destruct a as [id1 k1 s1 t1 a1 op1|id1 o1 op1], b as [id2 k2 s2 t2 a2 op2|id2 o2 op2]; simpl in *.
    + unfold set_mark. simpl. f_equal. destruct (decide (id1 = id2)) as [->|Hne].
      * rewrite !lookup_insert_eq, !insert_insert_eq. f_equal. apply set_mark_entry_comm.
        intros Hop. specialize (Hab Hop). by simplify_eq.
      * rewrite !lookup_insert_ne by done. by apply insert_insert_ne.
    + rewrite !remove_mark_newest. done.
    + rewrite !remove_mark_newest. done.
    + rewrite !remove_mark_newest. simpl. f_equal. apply keep_newest_comm. simpl.
      intros _ Hop. specialize (Hab Hop). by simplify_eq.
  - intros ms [id k s t a op|id o op]; simpl.
    + unfold set_mark. simpl. rewrite lookup_insert_eq, insert_insert_eq.
      by rewrite set_mark_entry_idemp.
    + rewrite !remove_mark_newest. simpl. by rewrite keep_newest_idemp.
Qed.

(** ** Rendering: the reference *)

(** The interval covers visible position [i]. *)
Definition covers (order : list OpId) (len i : nat) (iv : MarkInterval) : Prop :=
  (resolved_range order len iv).1 ≤ i < (resolved_range order len iv).2.
#[export] Instance covers_dec order len i iv : Decision (covers order len i iv).
Proof. unfold covers. apply _. Defined.

(** The marks shown at position [i], in id order. *)
Definition marks_on (ms : MarkSet) (order : list OpId) (len i : nat) : list OpId :=
  mi_id <$> filter (covers order len i) (active_intervals ms).

(** [spans] partitions positions [start..len) into maximal runs of equal marks. *)
Inductive spans_of (marks : nat → list OpId) (len : nat) : nat → list Span → Prop :=
  | spans_done : spans_of marks len len []
  | spans_run start stop rest :
      start < stop ≤ len →
      (∀ i, start ≤ i < stop → marks i = marks start) →
      (stop < len → marks stop ≠ marks start) →
      spans_of marks len stop rest →
      spans_of marks len start (mkSpan start stop (marks start) :: rest).

Lemma dedup_sorted (l : list OpId) : StronglySorted ord_lt l → dedup l = l.
Proof.
  induction 1 as [|x l Hl IH Hx]; [done|]. destruct l as [|y l]; [done|].
  change (dedup (x :: y :: l)) with (if decide (x = y) then dedup (y :: l) else x :: dedup (y :: l)).
  rewrite IH. case_decide as Hxy; [|done]. subst.
  apply Forall_cons in Hx as [Hx _]. by apply irreflexivity in Hx; [|apply _].
Qed.

Lemma sorted_lt_le (l : list OpId) : StronglySorted ord_lt l → StronglySorted ord_le l.
Proof.
  induction 1 as [|x l Hl IH Hx]; constructor; [done|].
  eapply Forall_impl; [done|]. apply ord_lt_le.
Qed.

Lemma sorted_le_lt (l : list OpId) : NoDup l → StronglySorted ord_le l → StronglySorted ord_lt l.
Proof.
  intros Hnd Hs. induction Hs as [|x l Hl IH Hx]; constructor.
  - apply IH. by apply NoDup_cons in Hnd as [_ ?].
  - apply NoDup_cons in Hnd as [Hn _]. rewrite Forall_forall in Hx |- *. intros y Hy.
    specialize (Hx y Hy). apply ord_le_lt_eq in Hx as [?|<-]; done.
Qed.

Lemma sort_dedup_id (l : list OpId) :
  StronglySorted ord_lt l → dedup (merge_sort ord_le l) = l.
Proof.
  intros Hl. enough (merge_sort ord_le l = l) as -> by by apply dedup_sorted.
  eapply (StronglySorted_unique ord_le);
    [apply StronglySorted_merge_sort; apply _|by apply sorted_lt_le|apply merge_sort_Permutation].
Qed.

Lemma interval_ids ms :
  markset_wf ms → mi_id <$> btree_values (intervals ms) = btree_keys (intervals ms).
Proof.
  intros Hwf. unfold btree_values, btree_keys. rewrite <-list_fmap_compose.
  apply list_fmap_ext. intros i [k iv] Hi. simpl. apply Hwf, elem_of_btree_iter.
  by eapply list_elem_of_lookup_2.
Qed.

Lemma marks_on_sorted ms order len i :
  markset_wf ms → StronglySorted ord_lt (marks_on ms order len i).
Proof.
  intros Hwf. unfold marks_on, active_intervals.
  apply (StronglySorted_sublist _ _ (mi_id <$> btree_values (intervals ms))).
  - apply sublist_fmap. etrans; apply sublist_filter.
  - rewrite interval_ids by done. apply sorted_le_lt; [apply NoDup_btree_keys|].
    apply btree_keys_sorted.
Qed.

(** ** The per-position vector *)

Lemma alter_range_lookup {A} (f : A → A) from n (l : list A) i :
  fold_left (λ l idx, if decide (idx < length l) then alter f idx l else l) (seq from n) l !! i =
    if decide (from ≤ i < from + n) then f <$> l !! i else l !! i.
Proof.
  revert from l. induction n as [|n IH]; intros from l; simpl.
  { case_decide; [lia|done]. }
  assert (Halter : (if decide (from < length l) then alter f from l else l) = alter f from l).
  { case_decide; [done|]. apply list_eq. intros j. destruct (decide (from = j)) as [->|].
    - rewrite list_lookup_alter_eq. by rewrite lookup_ge_None_2 by lia.
    - by rewrite list_lookup_alter_ne. }
  rewrite Halter, IH. destruct (decide (from = i)) as [->|Hne].
  - rewrite list_lookup_alter_eq. repeat case_decide; try lia; done.
  - rewrite list_lookup_alter_ne by done. repeat case_decide; try lia; done.
Qed.

Lemma push_marks_lookup order len marks iv i :
  push_marks order len marks iv !! i =
    if decide (covers order len i iv) then (λ l, l ++ [mi_id iv]) <$> marks !! i else marks !! i.
Proof.
  unfold push_marks, covers, resolved_range. simpl.
  set (a := resolve_anchor (mi_start iv) _ len). set (b := resolve_anchor (mi_end iv) _ len).
  case_decide as Hab; rewrite alter_range_lookup; repeat case_decide; try lia; done.
Qed.

Lemma push_all_lookup order len ivs marks l0 i :
  marks !! i = Some l0 →
  fold_left (push_marks order len) ivs marks !! i =
    Some (l0 ++ (mi_id <$> filter (covers order len i) ivs)).
Proof.
  revert marks l0. induction ivs as [|iv ivs IH]; intros marks l0 Hl; simpl.
  { by rewrite Hl, app_nil_r. }
  rewrite filter_cons. pose proof (push_marks_lookup order len marks iv i) as Hp.
  rewrite Hl in Hp. case_decide; simpl in Hp.
  - rewrite (IH _ _ Hp). simpl. by rewrite <-app_assoc.
  - by rewrite (IH _ _ Hp).
Qed.

Lemma marks_at_positions_lookup ms order len i :
  markset_wf ms → i < len + 1 →
  marks_at_positions ms order len !! i = Some (marks_on ms order len i).
Proof.
  intros Hwf Hi. unfold marks_at_positions. rewrite list_lookup_fmap.
  erewrite push_all_lookup by by apply lookup_replicate_2.
  simpl. f_equal. fold (marks_on ms order len i). by apply sort_dedup_id, marks_on_sorted.
Qed.

(** ** The run-length loop *)

Lemma run_end_spec fuel marks cur len stop :
  len - stop ≤ fuel →
  let e := run_end fuel marks cur len stop in
  stop ≤ e ≤ Nat.max stop len ∧ (∀ i, stop ≤ i < e → marks !! i = Some cur) ∧
  (e < len → marks !! e ≠ Some cur).
Proof.
  revert stop. induction fuel as [|fuel IH]; intros stop Hf; simpl.
  { split_and!; [lia..|intros; lia|intros; lia]. }
  case_decide as Hc.
  - destruct Hc as [Hlt Hc]. destruct (IH (stop + 1)) as ([? ?] & Hin & Hout); [lia|].
    split_and!; [lia..| |done]. intros i Hi. destruct (decide (i = stop)) as [->|]; [done|].
    apply Hin. lia.
  - split_and!; [lia..|intros; lia|]. intros ? ?. by apply Hc.
Qed.

Lemma spans_loop_spec (f : nat → list OpId) fuel marks len start :
  (∀ i, start ≤ i < len → marks !! i = Some (f i)) →
  start ≤ len → len - start ≤ fuel →
  spans_of f len start (spans_loop fuel marks len start).
Proof.
  revert marks start. induction fuel as [|fuel IH]; intros marks start Hm Hle Hf; simpl.
  { assert (start = len) as -> by lia. constructor. }
  case_decide as Hlt; [|assert (start = len) as -> by lia; constructor].
  rewrite (Hm start) by lia. simpl.
  destruct (run_end_spec len (<[start := []]> marks) (f start) len (start + 1))
    as ([H1 H2] & Hin & Hout); [lia|].
  set (stop := run_end len _ _ _ _) in *.
  assert (Hm' : ∀ i, start < i < len → <[start := []]> marks !! i = Some (f i)).
  { intros i Hi. rewrite list_lookup_insert_ne by lia. apply Hm. lia. }
  constructor; [lia| | |].
  - intros i Hi. destruct (decide (i = start)) as [->|]; [done|].
    specialize (Hin i ltac:(lia)). rewrite Hm' in Hin by lia. by simplify_eq.
  - intros Hs. specialize (Hout Hs). rewrite Hm' in Hout by lia. congruence.
  - apply IH; [|lia..]. intros i Hi. apply Hm'. lia.
Qed.

(** ** Ranges and well-formedness *)

Lemma index_map_bound order id i : index_map_of order !! id = Some i → i < length order.
Proof.
  intros Hi. apply btree_collect_elem in Hi.
  apply elem_of_lookup_imap in Hi as (j & x & Heq & Hj). simplify_eq.
  by apply lookup_lt_Some in Hj.
Qed.

Lemma resolve_anchor_bound a order : resolve_anchor a (index_map_of order) (length order) ≤ length order.
Proof.
  assert (default 0 (index_map_of order !! anchor_elem a) ≤ length order).
  { destruct (index_map_of order !! anchor_elem a) as [i|] eqn:Hi; simpl; [|lia].
    apply index_map_bound in Hi. lia. }
  unfold resolve_anchor. destruct (anchor_bias a); lia.
Qed.

Lemma mark_step_wf ms o : markset_wf ms → markset_wf (mark_step ms o).
Proof.
  intros Hwf. destruct o as [id k s t a op|id o op]; simpl.
  - intros id' i. unfold set_mark. simpl. rewrite lookup_insert_Some.
    intros [[<- <-]|[_ Hi]]; [|by apply Hwf]. rewrite entry_id.
    destruct (intervals ms !! id) as [e|] eqn:E; [by apply Hwf|done].
  - rewrite remove_mark_newest. apply Hwf.
Qed.

Lemma mark_run_wf l ms : markset_wf ms → markset_wf (crdt_run ms l).
Proof.
  revert ms. induction l as [|o l IH]; intros ms Hwf; [done|].
  unfold crdt_run in *. simpl. by apply IH, mark_step_wf.
Qed.

Lemma markset_new_wf : markset_wf markset_new.
Proof. intros id i. simpl. by rewrite lookup_empty. Qed.

(** ** Activity *)

Definition is_set_mark (o : MarkOp) : Prop :=
  match o with OpSetMark _ _ _ _ _ _ => True | OpRemoveMark _ _ _ => False end.

Lemma set_marks_keep_removes l ms : Forall is_set_mark l → removes (crdt_run ms l) = removes ms.
Proof.
  intros Hl. revert ms. induction Hl as [|o l Ho _ IH]; intros ms; [done|].
  unfold crdt_run in *. simpl. rewrite IH. by destruct o.
Qed.

(** ** Claims *)

(** C8: Mark sets converge.  Replicas that start from the same mark set and
    receive the same set of mark operations (ids identify operations) end in
    the same mark set, whatever the order and duplication of the delivery. *)
Theorem marks_converge (ms : MarkSet) (l1 l2 : list MarkOp)
    (Hhist : crdt_history (St:=MarkSet) l1) (Hsame : ∀ o, o ∈ l1 ↔ o ∈ l2) :
  crdt_run ms l1 = crdt_run ms l2.
Proof. by apply crdt_run_same_members. Qed.

Definition mark_a : OpId := mkOpId 5 1.
Definition at_unit (c : N) (b : AnchorBias) : Anchor := mkAnchor (mkOpId c 1) b.
Definition mark_history : list MarkOp :=
  [OpSetMark mark_a Bold (at_unit 1 Before) (at_unit 2 After) {["k" := MarkBool true]} (mkOpId 5 1);
   OpSetMark mark_a Italic (at_unit 1 Before) (at_unit 3 After) {["k" := MarkBool false]} (mkOpId 7 2);
   OpRemoveMark mark_a (mkStateVector {[2%N := 7%N]}) (mkOpId 8 2)].

Lemma mark_history_compat : crdt_history (St:=MarkSet) mark_history.
Proof.
  intros a b Ha Hb. unfold mark_history in *.
  repeat (apply elem_of_cons in Ha as [->|Ha]; [|]); try by apply not_elem_of_nil in Ha.
  all: repeat (apply elem_of_cons in Hb as [->|Hb]; [intros Hop; (reflexivity || discriminate Hop)|]);
    by apply not_elem_of_nil in Hb.
Qed.

Lemma marks_converge_witness :
  crdt_run markset_new mark_history = crdt_run markset_new (reverse mark_history) ∧
  mi_kind <$> interval (crdt_run markset_new mark_history) mark_a = Some Italic ∧
  is_active (crdt_run markset_new mark_history) mark_a = true.
Proof.
  split; [|split; vm_compute; reflexivity].
  refine (marks_converge markset_new mark_history (reverse mark_history) mark_history_compat _).
  intros o. by rewrite elem_of_reverse.
Defined.

(** removal is causal.  Once the newest removal of an interval is recorded,
    whatever creations or updates of that interval arrive later, an interval
    that is present is active exactly when the removal had not observed its
    creation: an observed interval never comes back, a concurrent one survives. *)
Theorem removal_is_causal (ms : MarkSet) (id : OpId) (observed : StateVector) (op : OpId)
    (later : list MarkOp)
    (Hwf : markset_wf ms)
    (Hnewest : ∀ r, removes ms !! id = Some r → ord_lt (rm_op_id r) op)
    (Hsets : Forall is_set_mark later) :
  let ms' := crdt_run (remove_mark id observed op ms) later in
  is_Some (interval ms' id) →
  is_active ms' id = true ↔ ¬ sv_covers observed id.
Proof.
  intros ms' [i Hi].
  assert (Hwf' : markset_wf ms').
  { apply mark_run_wf. by apply (mark_step_wf _ (OpRemoveMark id observed op)). }
  assert (Hr : removes ms' !! id = Some (mkRemove observed op)).
  { unfold ms'. rewrite set_marks_keep_removes by done. rewrite remove_mark_newest. simpl.
    rewrite keep_newest_lookup, decide_True by done.
    destruct (removes ms !! id) as [r|] eqn:E; [|done].
    change (rm_op_id (mkRemove observed op)) with op.
    by rewrite (proj2 (ord_geb_lt _ _) (Hnewest r eq_refl)). }
  unfold interval in Hi. unfold is_active. rewrite Hi, Hr. simpl.
  rewrite (Hwf' _ _ Hi). unfold sv_covers. rewrite N.ltb_lt. lia.
Qed.

Lemma removal_is_causal_witness :
  let ms := set_mark mark_a Bold (at_unit 1 Before) (at_unit 2 After) ∅ mark_a markset_new in
  let later := [OpSetMark mark_a Italic (at_unit 1 Before) (at_unit 3 After) ∅ (mkOpId 9 2)] in
  is_active ms mark_a = true ∧
  is_active (crdt_run (remove_mark mark_a (mkStateVector {[1%N := 5%N]}) (mkOpId 6 2) ms) later)
    mark_a = false.
Proof.
  intros ms later. split; [vm_compute; reflexivity|].
  apply not_true_iff_false.
  rewrite (removal_is_causal ms mark_a (mkStateVector {[1%N := 5%N]}) (mkOpId 6 2) later).
  - intros H. apply H. vm_compute. discriminate.
  - apply (mark_step_wf markset_new (OpSetMark mark_a Bold (at_unit 1 Before) (at_unit 2 After) ∅ mark_a)),
      markset_new_wf.
  - intros r Hr. vm_compute in Hr. discriminate Hr.
  - repeat constructor.
  - vm_compute. eexists. reflexivity.
Defined.

(** [render_spans] is the run-length encoding of the marks on each visible
    position.  The spans partition the visible range in order, every position of
    a span carries exactly the active intervals that cover it, in id order, and
    neighbouring spans differ. *)
Theorem render_spans_partition (ms : MarkSet) (order : list OpId) (visible_len : nat)
    (Hwf : markset_wf ms) :
  spans_of (marks_on ms order visible_len) visible_len 0 (render_spans ms order visible_len).
Proof.
  unfold render_spans. apply spans_loop_spec; [|lia..].
  intros i Hi. apply marks_at_positions_lookup; [done|lia].
Qed.

Definition overlapping_marks : MarkSet :=
  set_mark (mkOpId 6 1) Italic (at_unit 2 Before) (at_unit 3 After) ∅ (mkOpId 6 1)
    (set_mark mark_a Bold (at_unit 1 Before) (at_unit 2 After) ∅ mark_a markset_new).
Definition unit_order : list OpId := [mkOpId 1 1; mkOpId 2 1; mkOpId 3 1; mkOpId 4 1].

Lemma render_spans_partition_witness :
  spans_of (marks_on overlapping_marks unit_order 4) 4 0 (render_spans overlapping_marks unit_order 4) ∧
  render_spans overlapping_marks unit_order 4 =
    [mkSpan 0 1 [mark_a]; mkSpan 1 2 [mark_a; mkOpId 6 1]; mkSpan 2 3 [mkOpId 6 1]; mkSpan 3 4 []].
Proof.
  split; [|vm_compute; reflexivity].
  apply (render_spans_partition overlapping_marks unit_order 4).
  apply (mark_step_wf _ (OpSetMark (mkOpId 6 1) Italic (at_unit 2 Before) (at_unit 3 After) ∅ (mkOpId 6 1))).
  apply (mark_step_wf _ (OpSetMark mark_a Bold (at_unit 1 Before) (at_unit 2 After) ∅ mark_a)).
  apply markset_new_wf.
Defined.

(** the list form in which a mark set is serialised round-trips, for every
    mark set that operations can produce. *)
Theorem markset_serde_roundtrip (l : list MarkOp) :
  let ms := crdt_run markset_new l in
  markset_deserialize (markset_serialize ms) = ms.
Proof.
  intros ms. assert (Hwf : markset_wf ms) by apply mark_run_wf, markset_new_wf.
  assert (Hlist : (λ i, (mi_id i, i)) <$> btree_values (intervals ms) = btree_iter (intervals ms)).
  { unfold btree_values. rewrite <-list_fmap_compose. rewrite <-(list_fmap_id (btree_iter _)) at 2.
    apply list_fmap_ext. intros i [k iv] Hi. simpl. f_equal. apply Hwf, elem_of_btree_iter.
    by eapply list_elem_of_lookup_2. }
  unfold markset_deserialize, markset_serialize. simpl. rewrite Hlist.
  destruct ms as [ivs rms]. simpl. f_equal; apply map_eq; intros k; apply option_eq; intros x;
    rewrite btree_collect_lookup by apply NoDup_btree_keys; apply elem_of_btree_iter.
Qed.

(** every resolved interval is active and denotes a range of the visible
    text: its start does not exceed its end, and its end is in bounds. *)
Theorem resolved_intervals_in_bounds (ms : MarkSet) (order : list OpId) (iv : MarkInterval)
    (from to : nat) (Hin : (iv, from, to) ∈ resolved_intervals ms order) :
  from ≤ to ≤ length order ∧ is_active ms (mi_id iv) = true.
Proof.
  unfold resolved_intervals in Hin. apply list_elem_of_fmap in Hin as (i & Heq & Hin).
  apply list_elem_of_filter in Hin as [Hact _]. unfold resolved_range in Heq.
  injection Heq as -> -> ->.
  pose proof (resolve_anchor_bound (mi_start i) order).
  pose proof (resolve_anchor_bound (mi_end i) order). split; [lia|done].
Qed.

Lemma resolved_intervals_in_bounds_witness :
  ∃ iv, (iv, 0, 2) ∈ resolved_intervals overlapping_marks unit_order ∧ 0 ≤ 2 ≤ 4.
Proof.
  eexists. split.
  - vm_compute. constructor.
  - refine (proj1 (resolved_intervals_in_bounds overlapping_marks unit_order _ 0 2 _)).
    vm_compute. constructor.
Defined.
