(* ===== verification/Sync.v ===== *)
(** * The synchronisation log

    Models [SyncState] of [src/src/sync/mod.rs] and [validate_changes] of
    [src/src/sync/validation.rs]: the log of applied operations, the per-peer
    frontier, the buffer of operations that arrived before their predecessors,
    the outbox, history checkpoints and message validation. *)

From S2P Require Import Prelude Core.
From Stdlib Require Import Strings.Byte.

Abbreviation payload := (list Byte.byte) (only parsing).

#[export] Instance byte_eq_dec : EqDecision Byte.byte := Byte.byte_eq_dec.

(** ** Data *)

Record Operation := mkOperation { sop_id : OpId; sop_payload : payload }.
Record ChangeMessage := mkChanges { msg_since : StateVector; msg_ops : list Operation }.

Inductive DocumentTombstonePolicy := KeepAll.
Record PeerLease := mkLease { lease_peer : PeerId; lease_acknowledged : StateVector }.
Record CheckpointRequest := mkCheckpointRequest {
  max_retained_ops : nat;
  active_peer_leases : list PeerLease;
  tombstones : DocumentTombstonePolicy;
}.
Record CheckpointReport := mkCheckpointReport {
  report_epoch : N;
  pruned_ops : nat;
  retained_ops : nat;
  report_floor : StateVector;
}.
Inductive CheckpointError :=
  | DuplicatePeerLease (p : PeerId)
  | RetentionBlocked (required_prune eligible_prune : nat)
  | EpochOverflow.
Record RebaseRequired := mkRebase { rebase_epoch : N; rebase_floor : StateVector }.

Inductive IntegrateResult := AlreadyPresent | Buffered | Applied.

(** [ApplyResult]; the log-only path never fills the conflicts. *)
Record ApplyResult := mkApplyResult { res_applied : list OpId; res_buffered : list OpId }.

Record SyncState := mkSync {
  ops : gmap OpId payload;
  state_vector : StateVector;
  sync_pending : gmap OpId (Operation * N);
  outbox_ids : gset OpId;
  sent_ids : gset OpId;
  checkpoint_epoch : N;
  delta_floor : StateVector;
}.

#[export] Instance Operation_eq_dec : EqDecision Operation.
Proof. solve_decision. Defined.
#[export] Instance SyncState_eq_dec : EqDecision SyncState.
Proof. solve_decision. Defined.

Definition sync_new : SyncState :=
  mkSync ∅ StateVectorOps.new ∅ ∅ ∅ 0 StateVectorOps.new.

(** ** Single operations *)

Definition observe_vector (id : OpId) (sv : StateVector) : StateVector :=
  if (sv_seen sv (peer id) <? counter id)%N then StateVectorOps.set sv (peer id) (counter id) else sv.

Definition observe (id : OpId) (st : SyncState) : SyncState :=
  mkSync (ops st) (observe_vector id (state_vector st)) (sync_pending st) (outbox_ids st)
    (sent_ids st) (checkpoint_epoch st) (delta_floor st).

Definition set_ops (f : gmap OpId payload → gmap OpId payload) (st : SyncState) : SyncState :=
  mkSync (f (ops st)) (state_vector st) (sync_pending st) (outbox_ids st) (sent_ids st)
    (checkpoint_epoch st) (delta_floor st).

Definition set_pending (f : gmap OpId (Operation * N) → gmap OpId (Operation * N))
    (st : SyncState) : SyncState :=
  mkSync (ops st) (state_vector st) (f (sync_pending st)) (outbox_ids st) (sent_ids st)
    (checkpoint_epoch st) (delta_floor st).

(** [self.observe(op.id); self.ops.insert(op.id, op.payload)]. *)
Definition log_op (op : Operation) (st : SyncState) : SyncState :=
  set_ops <[sop_id op := sop_payload op]> (observe (sop_id op) st).

Definition sync_apply_op (op : Operation) (st : SyncState) : SyncState :=
  if decide (is_Some (ops st !! sop_id op)) then st else log_op op st.

Definition contains (st : SyncState) (id : OpId) : bool := bool_decide (is_Some (ops st !! id)).
Definition sync_get (st : SyncState) (id : OpId) : option payload := ops st !! id.
Definition applied_ops (st : SyncState) : list (OpId * payload) := btree_iter (ops st).
Definition restore_applied (l : list (OpId * payload)) (st : SyncState) : SyncState :=
  fold_left (λ st kv, log_op (mkOperation kv.1 kv.2) st) l st.

Definition max_applied_counter (st : SyncState) (p : PeerId) : N := sv_seen (state_vector st) p.

Definition span_start (id_counter span : N) : N :=
  u64_saturating_sub id_counter (u64_saturating_sub span 1).

(** [span_start(..) <= frontier + 1]; the sum is taken at the width of [u64]. *)
Definition span_ready (st : SyncState) (id : OpId) (span : N) : bool :=
  (span_start (counter id) span <=? u64_wrapping_add (max_applied_counter st (peer id)) 1)%N.

Definition apply_one (op : Operation) (span : N) (st : SyncState) : SyncState * IntegrateResult :=
  if decide (is_Some (ops st !! sop_id op)) then (st, AlreadyPresent)
  else if decide (is_Some (sync_pending st !! sop_id op)) then (st, Buffered)
  else if span_ready st (sop_id op) span then (log_op op st, Applied)
  else (set_pending <[sop_id op := (op, span)]> st, Buffered).

(** ** Promotion of buffered operations *)

(** The body of the inner [for op_id in pending_ids]. *)
Definition promote_step (acc : SyncState * list Operation * bool) (op_id : OpId) :
    SyncState * list Operation * bool :=
  let '(st, promoted, progress) := acc in
  let span := default 1%N (snd <$> sync_pending st !! op_id) in
  if span_ready st op_id span then
    match sync_pending st !! op_id with
    | Some (op, _) => (log_op op (set_pending (delete op_id) st), promoted ++ [op], true)
    | None => acc
    end
  else acc.

(** The outer [while made_progress]; [fuel] bounds the number of passes. *)
Fixpoint promote_loop (fuel : nat) (st : SyncState) (promoted : list Operation) :
    SyncState * list Operation :=
  match fuel with
  | 0 => (st, promoted)
  | S fuel =>
    let '(st, promoted, progress) :=
      fold_left promote_step (btree_keys (sync_pending st)) (st, promoted, false) in
    if progress then promote_loop fuel st promoted else (st, promoted)
  end.

Definition promote_ready_pending (st : SyncState) : SyncState * list Operation :=
  promote_loop (S (size (sync_pending st))) st [].

(** ** Exchanging changes *)

Definition floor_exceeds (floor since : StateVector) : bool :=
  bool_decide (Exists (λ pf, (sv_seen since pf.1 < pf.2)%N) (StateVectorOps.iter floor)).

Definition encode_changes_since (since : StateVector) (st : SyncState) :
    RebaseRequired + ChangeMessage :=
  if floor_exceeds (delta_floor st) since
  then inl (mkRebase (checkpoint_epoch st) (delta_floor st))
  else inr (mkChanges since
    ((λ kv, mkOperation kv.1 kv.2) <$>
       filter (λ kv, (sv_seen since (peer kv.1) < counter kv.1)%N) (btree_iter (ops st)))).

Definition apply_change (acc : SyncState * ApplyResult) (op : Operation) : SyncState * ApplyResult :=
  let '(st, res) := acc in
  match apply_one op 1 st with
  | (st, AlreadyPresent) => (st, res)
  | (st, Buffered) => (st, mkApplyResult (res_applied res) (res_buffered res ++ [sop_id op]))
  | (st, Applied) =>
    let '(st, promoted) := promote_ready_pending st in
    (st, fold_left (λ res p,
           mkApplyResult (res_applied res ++ [sop_id p])
             (filter (λ id, id ≠ sop_id p) (res_buffered res)))
         promoted (mkApplyResult (res_applied res ++ [sop_id op]) (res_buffered res)))
  end.

Definition apply_changes (message : ChangeMessage) (st : SyncState) : SyncState * ApplyResult :=
  fold_left apply_change (msg_ops message) (st, mkApplyResult [] []).

(** ** Checkpoints *)

(** The first lease whose peer was already seen. *)
Fixpoint duplicate_lease (leases : list PeerLease) (seen : gset PeerId) : option PeerId :=
  match leases with
  | [] => None
  | l :: leases =>
    if decide (lease_peer l ∈ seen) then Some (lease_peer l)
    else duplicate_lease leases ({[lease_peer l]} ∪ seen)
  end.

Definition acknowledged_by_all (leases : list PeerLease) (id : OpId) : Prop :=
  Forall (λ l, (counter id ≤ sv_seen (lease_acknowledged l) (peer id))%N) leases.

Definition eligible_ops (request : CheckpointRequest) (st : SyncState) : list OpId :=
  filter (acknowledged_by_all (active_peer_leases request)) (btree_keys (ops st)).

Definition prune_op (st : SyncState) (id : OpId) : SyncState :=
  let floor := N.max (sv_seen (delta_floor st) (peer id)) (counter id) in
  mkSync (delete id (ops st)) (state_vector st) (sync_pending st)
    (outbox_ids st ∖ {[id]}) (sent_ids st ∖ {[id]}) (checkpoint_epoch st)
    (StateVectorOps.set (delta_floor st) (peer id) floor).

Definition set_epoch (e : N) (st : SyncState) : SyncState :=
  mkSync (ops st) (state_vector st) (sync_pending st) (outbox_ids st) (sent_ids st) e (delta_floor st).

Definition checkpoint (request : CheckpointRequest) (st : SyncState) :
    SyncState * (CheckpointError + CheckpointReport) :=
  match duplicate_lease (active_peer_leases request) ∅ with
  | Some p => (st, inl (DuplicatePeerLease p))
  | None =>
    let required_prune := size (ops st) - max_retained_ops request in
    if decide (required_prune = 0) then
      (st, inr (mkCheckpointReport (checkpoint_epoch st) 0 (size (ops st)) (delta_floor st)))
    else
      let eligible := eligible_ops request st in
      if decide (length eligible < required_prune) then
        (st, inl (RetentionBlocked required_prune (length eligible)))
      else
        let pruned := take required_prune eligible in
        match u64_checked_add (checkpoint_epoch st) 1 with
        | None => (st, inl EpochOverflow)
        | Some epoch =>
          let st := set_epoch epoch (fold_left prune_op pruned st) in
          (st, inr (mkCheckpointReport epoch (length pruned) (size (ops st)) (delta_floor st)))
        end
  end.

Definition restore_history (sv : StateVector) (epoch : N) (floor : StateVector) (st : SyncState) :
    SyncState :=
  mkSync (ops st) sv (sync_pending st) (outbox_ids st) (sent_ids st) epoch floor.

(** ** Outbox and persistence *)

Definition sync_pending_count (st : SyncState) : nat := size (sync_pending st).
Definition pending_operations (st : SyncState) : list Operation :=
  (λ kv, mkOperation kv.1 (sop_payload kv.2.1)) <$> btree_iter (sync_pending st).

Definition set_boxes (out sent : gset OpId) (st : SyncState) : SyncState :=
  mkSync (ops st) (state_vector st) (sync_pending st) out sent (checkpoint_epoch st) (delta_floor st).

Definition add_local_op (op : Operation) (st : SyncState) : SyncState :=
  let st := log_op op st in set_boxes ({[sop_id op]} ∪ outbox_ids st) (sent_ids st) st.

Definition outbox (st : SyncState) : list Operation :=
  omap (λ id, mkOperation id <$> ops st !! id) (btree_set_iter (outbox_ids st)).

Definition mark_sent (ids : list OpId) (st : SyncState) : SyncState :=
  fold_left (λ st id,
    if decide (id ∈ outbox_ids st)
    then set_boxes (outbox_ids st ∖ {[id]}) ({[id]} ∪ sent_ids st) st else st) ids st.

Definition mark_confirmed (ids : list OpId) (st : SyncState) : SyncState :=
  fold_left (λ st id, set_boxes (outbox_ids st) (sent_ids st ∖ {[id]}) st) ids st.

Definition restore_pending (l : list (Operation * N)) (st : SyncState) : SyncState :=
  fold_left (λ st x,
    if decide (is_Some (ops st !! sop_id x.1)) then st
    else set_pending <[sop_id x.1 := x]> st) l st.

(** ** Validation of incoming messages *)

Inductive MalformedKind :=
  | EmptyPayload | ZeroCounter | InvalidPayload | InvalidSequence | UnexpectedFormat.
Inductive ValidationError :=
  | MalformedOperation (op_id : OpId) (kind : MalformedKind)
  | InvalidReference (op_id : OpId)
  | ResourceLimitExceeded (limit actual : N)
  | BufferFull (capacity : N).

Definition malformed_message (kind : MalformedKind) : string :=
  match kind with
  | EmptyPayload => "empty payload"
  | ZeroCounter => "counter cannot be zero"
  | InvalidPayload => "invalid payload"
  | InvalidSequence => "invalid sequence"
  | UnexpectedFormat => "unexpected format"
  end.

Record ValidationLimits := mkLimits {
  max_ops_per_message : N;
  max_payload_bytes : N;
  max_pending_buffer : N;
}.
Definition default_limits : ValidationLimits := mkLimits 10000 (10 * 1024 * 1024) 100000.

Definition validate_op (op : Operation) : option ValidationError :=
  if decide (sop_payload op = []) then Some (MalformedOperation (sop_id op) EmptyPayload)
  else if decide (counter (sop_id op) = 0%N) then Some (MalformedOperation (sop_id op) ZeroCounter)
  else None.

Definition total_payload (l : list Operation) : nat :=
  sum_list (length <$> (sop_payload <$> l)).

(** [Ok(())] is [None]. *)
Definition validate_changes (message : ChangeMessage) (limits : ValidationLimits)
    (pending : nat) : option ValidationError :=
  let n := N.of_nat (length (msg_ops message)) in
  let total := N.of_nat (total_payload (msg_ops message)) in
  if (max_ops_per_message limits <? n)%N
  then Some (ResourceLimitExceeded (max_ops_per_message limits) n)
  else if (max_payload_bytes limits <? total)%N
  then Some (ResourceLimitExceeded (max_payload_bytes limits) total)
  else if (max_pending_buffer limits <? N.of_nat pending + n)%N
  then Some (BufferFull (max_pending_buffer limits))
  else head (omap validate_op (msg_ops message)).
