(* ===== verification/SyncInv.v ===== *)
(** * The invariant of the synchronisation log

    Promotion terminates and drains the buffer; the batch path keeps the log a
    gap-free prefix per peer (up to what checkpoints pruned) and keeps the
    buffer free of ready operations; under this invariant the operations a
    replica holds determine its whole state. *)

From S2P Require Import Prelude Core Sync.

(** ** Invariants *)

Definition op_at (p : PeerId) (c : N) : OpId := mkOpId c p.

(** No buffered operation is ready. *)
Definition quiescent (st : SyncState) : Prop :=
  ∀ id op span, sync_pending st !! id = Some (op, span) → span_ready st id span = false.

(** The invariant of the batch path, on which every operation covers one
    counter and counters are positive and below the maximal [u64]. *)
Record log_inv (st : SyncState) : Prop := {
  li_ops id : is_Some (ops st !! id) →
    (1 ≤ counter id ≤ sv_seen (state_vector st) (peer id))%N;
  li_prefix p c : (1 ≤ c ≤ sv_seen (state_vector st) p)%N →
    is_Some (ops st !! op_at p c) ∨ (c ≤ sv_seen (delta_floor st) p)%N;
  li_pos p : StateVectorOps.get (state_vector st) p ≠ Some 0%N;
  li_bound p : (sv_seen (state_vector st) p < u64_max)%N;
  li_floor : sv_le (delta_floor st) (state_vector st);
  li_pending id op span : sync_pending st !! id = Some (op, span) →
    span = 1%N ∧ sop_id op = id ∧ ops st !! id = None ∧
    (sv_seen (state_vector st) (peer id) < counter id < u64_max)%N;
}.

Definition valid_counter (op : Operation) : Prop := (1 ≤ counter (sop_id op) < u64_max)%N.

(** Everything the replica holds: its log, and its buffer. *)
Definition buffered_payloads (st : SyncState) : gmap OpId (list Byte.byte) :=
  (λ x : Operation * N, sop_payload x.1) <$> sync_pending st.
Definition content (st : SyncState) : gmap OpId (list Byte.byte) :=
  ops st ∪ buffered_payloads st.

(** The effect of one received operation on the state. *)
Definition integrate (st : SyncState) (op : Operation) : SyncState :=
  match apply_one op 1 st with
  | (st, Applied) => (promote_ready_pending st).1
  | (st, _) => st
  end.

(** A replica that receives a list of messages. *)
Definition receive (ms : list ChangeMessage) (st : SyncState) : SyncState :=
  fold_left (λ st m, (apply_changes m st).1) ms st.

(** What the replica keeps besides its log and its buffer. *)
Definition same_rest (a b : SyncState) : Prop :=
  outbox_ids a = outbox_ids b ∧ sent_ids a = sent_ids b ∧
  checkpoint_epoch a = checkpoint_epoch b ∧ delta_floor a = delta_floor b.

(** ** Observing *)

Lemma sv_seen_observe id sv p :
  sv_seen (observe_vector id sv) p =
    if decide (peer id = p) then N.max (sv_seen sv p) (counter id) else sv_seen sv p.
Proof.
  unfold observe_vector. destruct (sv_seen sv (peer id) <? counter id)%N eqn:E.
  - apply N.ltb_lt in E. rewrite sv_seen_set. case_decide; [subst; lia|done].
  - apply N.ltb_ge in E. case_decide; [subst; lia|done].
Qed.

Lemma sv_le_observe id sv : sv_le sv (observe_vector id sv).
Proof. intros p. rewrite sv_seen_observe. case_decide; lia. Qed.

Lemma observe_pos id sv p :
  (∀ p, StateVectorOps.get sv p ≠ Some 0%N) → StateVectorOps.get (observe_vector id sv) p ≠ Some 0%N.
Proof.
  intros Hpos. unfold observe_vector. destruct (_ <? _)%N eqn:E; [|done].
  apply N.ltb_lt in E. unfold StateVectorOps.get, StateVectorOps.set. simpl.
  destruct (decide (peer id = p)) as [<-|].
  - rewrite lookup_insert_eq. intros [= Heq]. lia.
  - rewrite lookup_insert_ne by done. apply Hpos.
Qed.

Lemma span_ready_1 st id :
  log_inv st → span_ready st id 1 = true ↔
  (counter id ≤ sv_seen (state_vector st) (peer id) + 1)%N.
Proof.
  intros Hinv. unfold span_ready, span_start, u64_saturating_sub, max_applied_counter,
    u64_wrapping_add. rewrite N.leb_le.
  pose proof (li_bound _ Hinv (peer id)) as Hb. unfold u64_max, u64_modulus in *.
  rewrite N.mod_small by lia. change (1 - 1)%N with 0%N. lia.
Qed.

(** ** Logging a ready operation *)

Lemma log_op_inv op st :
  log_inv st → valid_counter op → span_ready st (sop_id op) 1 = true →
  sync_pending st !! sop_id op = None →
  log_inv (log_op op st).
Proof.
  intros Hinv Hv Hr Hp. apply span_ready_1 in Hr; [|done]. unfold valid_counter in Hv.
  destruct Hinv as [Hops Hpre Hpos Hb Hf Hpend].
  split; simpl; generalize dependent (sop_id op); intros id Hv Hr Hp.
  - intros k Hk. rewrite sv_seen_observe. rewrite lookup_insert_is_Some' in Hk.
    destruct Hk as [<-|Hk]; [rewrite decide_True by done; lia|].
    specialize (Hops k Hk). case_decide; lia.
  - intros p c Hc. rewrite sv_seen_observe in Hc.
    destruct (decide (op_at p c = id)) as [Heq|Hne].
    { left. rewrite Heq, lookup_insert_eq. eauto. }
    rewrite lookup_insert_ne by done. apply Hpre.
    case_decide as Hpeer; [|done]. subst p.
    assert (c ≠ counter id) by (intros ->; apply Hne; by destruct id). lia.
  - intros p. by apply observe_pos.
  - intros p. rewrite sv_seen_observe. specialize (Hb p). case_decide; lia.
  - etrans; [exact Hf|apply sv_le_observe].
  - intros k o span Hk. destruct (Hpend _ _ _ Hk) as (-> & Hid & Hnone & Hlt).
    assert (k ≠ id) by (intros ->; congruence).
    split_and!; [done|done|by rewrite lookup_insert_ne| |]. 2: lia.
    rewrite sv_seen_observe. case_decide as Hpeer; [rewrite Hpeer in Hr|lia].
    destruct (decide (counter k = counter id)) as [Hc|Hc]; [|lia].
    exfalso. destruct k, id; simpl in *; congruence.
Qed.

Lemma log_op_sv op st : sv_le (state_vector st) (state_vector (log_op op st)).
Proof. apply sv_le_observe. Qed.

Lemma delete_pending_inv id st : log_inv st → log_inv (set_pending (delete id) st).
Proof.
  intros [Hops Hpre Hpos Hb Hf Hpend]. split; simpl; auto.
  intros k o span [_ Hk]%lookup_delete_Some. eauto.
Qed.

(** ** What the replica holds *)

Lemma content_log_op op st :
  content (log_op op st) = <[sop_id op := sop_payload op]> (content st).
Proof. unfold content, log_op. simpl. by rewrite insert_union_l. Qed.

Lemma content_promote id op span st :
  ops st !! id = None → sop_id op = id → sync_pending st !! id = Some (op, span) →
  content (log_op op (set_pending (delete id) st)) = content st.
Proof.
  intros Hnone <- Hid. rewrite content_log_op. unfold content, buffered_payloads. simpl.
  rewrite fmap_delete, insert_union_r by done. f_equal. rewrite insert_delete_eq.
  apply insert_id. by rewrite lookup_fmap, Hid.
Qed.

Lemma content_buffer op span st :
  ops st !! sop_id op = None →
  content (set_pending <[sop_id op := (op, span)]> st) =
  <[sop_id op := sop_payload op]> (content st).
Proof.
  intros Hnone. unfold content, buffered_payloads. simpl.
  by rewrite fmap_insert, insert_union_r.
Qed.

Lemma content_None id st :
  content st !! id = None ↔ ops st !! id = None ∧ sync_pending st !! id = None.
Proof. unfold content, buffered_payloads. by rewrite lookup_union_None, lookup_fmap, fmap_None. Qed.

(** ** Promotion *)

Section promote.
Implicit Types st : SyncState.

(** One pass of the loop, in any state. *)
Lemma promote_pass_spec ids st pr b :
  let '(st', pr', b') := fold_left promote_step ids (st, pr, b) in
  size (sync_pending st') ≤ size (sync_pending st) ∧
  (b' = false → b = false ∧ st' = st ∧
    ∀ id op span, id ∈ ids → sync_pending st !! id = Some (op, span) →
      span_ready st id span = false) ∧
  (b = false → b' = true → size (sync_pending st') < size (sync_pending st)).
Proof.
  revert st pr b. induction ids as [|id ids IH]; intros st pr b; simpl.
  { split_and!; [done|naive_solver set_solver|congruence]. }
  destruct (sync_pending st !! id) as [[op span]|] eqn:Hid; simpl.
  - destruct (span_ready st id span) eqn:Hr.
    + specialize (IH (log_op op (set_pending (delete id) st)) (pr ++ [op]) true).
      destruct (fold_left promote_step ids _) as [[st' pr'] b']. simpl in IH.
      assert (Hsz : size (delete id (sync_pending st)) < size (sync_pending st)).
      { rewrite map_size_delete_Some by eauto.
        assert (size (sync_pending st) ≠ 0); [|lia].
        intros H0%map_size_empty_inv. rewrite H0 in Hid. by rewrite lookup_empty in Hid. }
      destruct IH as (? & Hf & _). split_and!; [lia| |lia].
      intros ->. by destruct Hf.
    + specialize (IH st pr b). destruct (fold_left promote_step ids _) as [[st' pr'] b'].
      destruct IH as (? & Hf & ?). split_and!; [done| |done].
      intros Hb'. destruct (Hf Hb') as (-> & -> & Hall). split_and!; [done..|].
      intros k o sp [->|Hk]%elem_of_cons; [|eauto]. intros ?. by simplify_eq.
  - assert (Hsame : (if span_ready st id 1 then (st, pr, b) else (st, pr, b)) = (st, pr, b))
      by by destruct (span_ready st id 1).
    rewrite Hsame. specialize (IH st pr b).
    destruct (fold_left promote_step ids _) as [[st' pr'] b'].
    destruct IH as (? & Hf & ?). split_and!; [done| |done].
    intros Hb'. destruct (Hf Hb') as (-> & -> & Hall). split_and!; [done..|].
    intros k o sp [->|Hk]%elem_of_cons; [congruence|eauto].
Qed.

Lemma promote_loop_quiescent fuel st pr :
  size (sync_pending st) < fuel → quiescent (promote_loop fuel st pr).1.
Proof.
  revert st pr. induction fuel as [|fuel IH]; intros st pr Hf; [lia|]. simpl.
  pose proof (promote_pass_spec (btree_keys (sync_pending st)) st pr false) as Hp.
  destruct (fold_left promote_step _ _) as [[st' pr'] b'].
  destruct Hp as (Hle & Hstop & Hlt). destruct b'.
  - apply IH. specialize (Hlt eq_refl eq_refl). lia.
  - destruct (Hstop eq_refl) as (_ & -> & Hall). intros id op span Hid. eapply Hall; [|done].
    apply elem_of_btree_keys. eauto.
Qed.

(** What every promotion preserves, by induction over the loops. *)
Lemma promote_ind (P : SyncState → list Operation → Prop) :
  (∀ st pr id op span, P st pr → sync_pending st !! id = Some (op, span) →
     span_ready st id span = true →
     P (log_op op (set_pending (delete id) st)) (pr ++ [op])) →
  ∀ fuel st pr, P st pr → P (promote_loop fuel st pr).1 (promote_loop fuel st pr).2.
Proof.
  intros Hstep.
  assert (Hpass : ∀ ids st pr b, P st pr →
    let r := fold_left promote_step ids (st, pr, b) in P r.1.1 r.1.2).
  { induction ids as [|id ids IH]; intros st pr b HP; simpl; [done|].
    destruct (sync_pending st !! id) as [[op span]|] eqn:Hid; simpl.
    - destruct (span_ready st id span) eqn:Hr; apply IH; [by eapply Hstep|done].
    - destruct (span_ready st id 1); by apply IH. }
  induction fuel as [|fuel IH]; intros st pr HP; simpl; [done|].
  specialize (Hpass (btree_keys (sync_pending st)) st pr false HP). simpl in Hpass.
  destruct (fold_left promote_step _ _) as [[st' pr'] b']. simpl in Hpass.
  destruct b'; [by apply IH|done].
Qed.

Lemma promote_inv st :
  log_inv st →
  let st' := (promote_ready_pending st).1 in
  log_inv st' ∧ sv_le (state_vector st) (state_vector st') ∧
  content st' = content st ∧ same_rest st' st.
Proof.
  intros Hinv. apply (promote_ind (λ st' _, log_inv st' ∧
    sv_le (state_vector st) (state_vector st') ∧ content st' = content st ∧
    same_rest st' st)).
  - intros s _ id op span (Hi & Hsv & Hk & Hfl) Hid Hr.
    destruct (li_pending _ Hi _ _ _ Hid) as (-> & Hop & Hnone & Hc).
    assert (Hv : valid_counter op).
    { unfold valid_counter. rewrite Hop. lia. }
    split_and!.
    + apply log_op_inv; [by apply delete_pending_inv|done| |].
      * rewrite Hop. exact Hr.
      * simpl. rewrite Hop. apply lookup_delete_eq.
    + etrans; [exact Hsv|]. apply (sv_le_observe (sop_id op)).
    + rewrite <-Hk. by eapply content_promote.
    + done.
  - split_and!; [done|reflexivity|done|by split_and!].
Qed.

(** [promote_ready_pending] terminates in every state with no ready
    operation left in the buffer: the [while] loop stops, the promoted
    operations are exactly the buffered ones it removed, all of them are in
    the log afterwards, nothing else leaves the buffer and the log only
    grows. *)
Theorem promotion_drains st :
  let '(st', promoted) := promote_ready_pending st in
  quiescent st' ∧
  sync_pending st' ⊆ sync_pending st ∧
  length promoted + size (sync_pending st') = size (sync_pending st) ∧
  (∀ op, op ∈ promoted ↔ ∃ id span,
     sync_pending st !! id = Some (op, span) ∧ sync_pending st' !! id = None) ∧
  (∀ op, op ∈ promoted → is_Some (ops st' !! sop_id op)) ∧
  (∀ id, is_Some (ops st !! id) → is_Some (ops st' !! id)).
Proof.
  rewrite (surjective_pairing (promote_ready_pending st)).
  split; [apply promote_loop_quiescent; lia|].
  apply (promote_ind (λ st' promoted,
    sync_pending st' ⊆ sync_pending st ∧
    length promoted + size (sync_pending st') = size (sync_pending st) ∧
    (∀ op, op ∈ promoted ↔ ∃ id span,
       sync_pending st !! id = Some (op, span) ∧ sync_pending st' !! id = None) ∧
    (∀ op, op ∈ promoted → is_Some (ops st' !! sop_id op)) ∧
    (∀ id, is_Some (ops st !! id) → is_Some (ops st' !! id)))).
  - intros s pr id op span (Hsub & Hsz & Hpr & Hin & Hops) Hid Hr. simpl.
    assert (Hst : sync_pending st !! id = Some (op, span)) by by eapply lookup_weaken.
    split_and!.
    + etrans; [apply delete_subseteq|done].
    + rewrite length_app. simpl. rewrite map_size_delete_Some by eauto.
      assert (size (sync_pending s) ≠ 0); [|lia].
      intros H0%map_size_empty_inv. rewrite H0 in Hid. by rewrite lookup_empty in Hid.
    + intros o. rewrite elem_of_app, list_elem_of_singleton, Hpr. split.
      * intros [(k & sp & Hk & Hn)| ->].
        -- exists k, sp. split; [done|]. rewrite lookup_delete_None. auto.
        -- exists id, span. split; [done|]. apply lookup_delete_eq.
      * intros (k & sp & Hk & [<-|Hn]%lookup_delete_None); [right; congruence|eauto].
    + intros o [Ho| ->%list_elem_of_singleton]%elem_of_app;
        rewrite lookup_insert_is_Some'; auto.
    + intros k Hk. rewrite lookup_insert_is_Some'. auto.
  - split_and!; [done|simpl; lia| |by intros o ?%elem_of_nil|done].
    intros o. split; [by intros ?%elem_of_nil|]. intros (k & sp & -> & ?). done.
Qed.
End promote.

(** ** Receiving operations *)

Lemma apply_change_state st res op : (apply_change (st, res) op).1 = integrate st op.
Proof.
  unfold apply_change, integrate. destruct (apply_one op 1 st) as [s []]; [done..|].
  by destruct (promote_ready_pending s).
Qed.

Lemma apply_changes_state m st : (apply_changes m st).1 = fold_left integrate (msg_ops m) st.
Proof.
  unfold apply_changes. generalize (mkApplyResult [] []). generalize (msg_ops m). intros l.
  revert st. induction l as [|op l IH]; intros st res; [done|]. cbn [fold_left].
  rewrite (surjective_pairing (apply_change (st, res) op)), IH. by rewrite apply_change_state.
Qed.

Lemma receive_state ms st : receive ms st = fold_left integrate (ms ≫= msg_ops) st.
Proof.
  unfold receive. revert st. induction ms as [|m ms IH]; intros st; [done|].
  cbn [fold_left]. rewrite IH, apply_changes_state. simpl. by rewrite fold_left_app.
Qed.

Lemma buffer_inv op st :
  log_inv st → valid_counter op → span_ready st (sop_id op) 1 = false →
  ops st !! sop_id op = None →
  log_inv (set_pending <[sop_id op := (op, 1%N)]> st).
Proof.
  intros Hinv Hv Hr Hn. apply not_true_iff_false in Hr. rewrite span_ready_1 in Hr by done.
  destruct Hinv as [Hops Hpre Hpos Hb Hf Hpend]. unfold valid_counter in Hv.
  split; simpl; auto.
  intros k o span [[<- [= <- <-]]|[? ?]]%lookup_insert_Some; [|eauto].
  split_and!; [done..|lia|lia].
Qed.

(** Receiving one operation keeps the invariant and the quiescence, never
    lowers the frontier, and adds the operation to what the replica holds. *)
Lemma integrate_spec st op :
  log_inv st → quiescent st → valid_counter op →
  let st' := integrate st op in
  log_inv st' ∧ quiescent st' ∧ sv_le (state_vector st) (state_vector st') ∧
  content st' = content st ∪ {[sop_id op := sop_payload op]} ∧ same_rest st' st.
Proof.
  intros Hinv Hq Hv. unfold integrate, apply_one.
  assert (Hkeep : is_Some (content st !! sop_id op) →
    content st = content st ∪ {[sop_id op := sop_payload op]}).
  { intros [pl Hpl]. apply map_eq. intros k. destruct (decide (k = sop_id op)) as [->|].
    - rewrite Hpl. symmetry. by apply lookup_union_Some_l.
    - rewrite lookup_union, lookup_singleton_ne by done. by destruct (content st !! k). }
  assert (Hnew : content st !! sop_id op = None →
    <[sop_id op := sop_payload op]> (content st) = content st ∪ {[sop_id op := sop_payload op]}).
  { intros Hn. rewrite insert_union_singleton_l. apply map_union_comm.
    by apply map_disjoint_singleton_l. }
  case_decide as Hin.
  { split_and!; try done. apply Hkeep. unfold content. destruct Hin as [pl Hpl].
    exists pl. by apply lookup_union_Some_l. }
  apply eq_None_not_Some in Hin.
  case_decide as Hp.
  { split_and!; try done. apply Hkeep. apply not_eq_None_Some.
    rewrite content_None. intros [_ Hn]. rewrite Hn in Hp. by destruct Hp. }
  apply eq_None_not_Some in Hp.
  assert (Hn : content st !! sop_id op = None) by by apply content_None.
  destruct (span_ready st (sop_id op) 1) eqn:Hr.
  - destruct (promote_inv (log_op op st)) as (Hi & Hsv & Hc & Hrest);
      [by apply log_op_inv|].
    split_and!; [done|apply promote_loop_quiescent; lia|by etrans; [apply log_op_sv|]
      |by rewrite Hc, content_log_op, Hnew|apply Hrest..].
  - split_and!; try done; [by apply buffer_inv| |by rewrite content_buffer, Hnew].
    intros k o span Hk. simpl in Hk.
    apply lookup_insert_Some in Hk as [[<- [= <- <-]]|[? ?]]; [done|]. by eapply Hq.
Qed.

Lemma integrate_all_spec l st :
  log_inv st → quiescent st → Forall valid_counter l →
  let st' := fold_left integrate l st in
  log_inv st' ∧ quiescent st' ∧ sv_le (state_vector st) (state_vector st') ∧
  content st' = content st ∪ list_to_map ((λ op, (sop_id op, sop_payload op)) <$> l) ∧
  same_rest st' st.
Proof.
  revert st. induction l as [|op l IH]; intros st Hinv Hq Hv; simpl.
  { split_and!; [done..|intros p; lia|by rewrite map_union_empty|by split_and!]. }
  apply Forall_cons in Hv as [Hop Hv].
  destruct (integrate_spec st op) as (Hi & Hq1 & Hsv & Hc & Hr); [done..|].
  destruct (IH (integrate st op)) as (Hi' & Hq' & Hsv' & Hc' & Hr'); [done..|].
  split_and!; [done|done|by etrans| |].
  - rewrite Hc', Hc, <-(assoc_L (∪)). f_equal. symmetry. apply insert_union_singleton_l.
  - destruct Hr as (?&?&?&?), Hr' as (?&?&?&?). split_and!; congruence.
Qed.

Lemma sync_new_inv : log_inv sync_new ∧ quiescent sync_new.
Proof.
  split; [|by intros id op span].
  split; simpl.
  - by intros id [].
  - intros p c Hc. rewrite sv_seen_new in Hc. lia.
  - done.
  - intros p. by rewrite sv_seen_new.
  - done.
  - by intros id op span.
Qed.

(** ** The held operations determine the state *)

(** In the log exactly when at or below the frontier. *)
Lemma content_split st id :
  log_inv st →
  ops st !! id =
    (if decide (counter id ≤ sv_seen (state_vector st) (peer id))%N then content st !! id else None) ∧
  sync_pending st !! id =
    (if decide (counter id ≤ sv_seen (state_vector st) (peer id))%N then None
     else (λ pl, (mkOperation id pl, 1%N)) <$> content st !! id).
Proof.
  intros Hinv. unfold content. rewrite lookup_union. unfold buffered_payloads. rewrite lookup_fmap.
  destruct (ops st !! id) as [pl|] eqn:Ho.
  - pose proof (li_ops _ Hinv id (mk_is_Some _ _ Ho)). rewrite !decide_True by lia.
    destruct (sync_pending st !! id) as [[o sp]|] eqn:Hp; [|done].
    destruct (li_pending _ Hinv _ _ _ Hp) as (_ & _ & ? & _). congruence.
  - destruct (sync_pending st !! id) as [[o sp]|] eqn:Hp; simpl.
    + destruct (li_pending _ Hinv _ _ _ Hp) as (-> & <- & _ & Hlt).
      rewrite !decide_False by lia. by destruct o.
    + by case_decide.
Qed.

(** A quiescent replica does not hold the operation after its frontier. *)
Lemma frontier_missing st p :
  log_inv st → quiescent st →
  content st !! op_at p (sv_seen (state_vector st) p + 1) = None.
Proof.
  intros Hinv Hq. set (id := op_at p _).
  destruct (content_split st id Hinv) as [_ Hp].
  rewrite decide_False in Hp by (simpl; lia).
  destruct (content st !! id) as [pl|]; [|done]. exfalso. simpl in Hp.
  pose proof (Hq _ _ _ Hp) as Hr. apply not_true_iff_false in Hr.
  rewrite span_ready_1 in Hr by done. simpl in Hr. lia.
Qed.

(** With equal floors, a quiescent replica that holds what another one holds
    has at least its frontier. *)
Lemma frontier_le a b :
  log_inv a → log_inv b → quiescent b → sv_le (delta_floor a) (state_vector b) →
  (∀ id pl, ops a !! id = Some pl → (sv_seen (state_vector b) (peer id) < counter id)%N →
    is_Some (content b !! id)) →
  sv_le (state_vector a) (state_vector b).
Proof.
  intros Ha Hb Hq Hf Hc p.
  destruct (decide (sv_seen (state_vector a) p ≤ sv_seen (state_vector b) p)%N) as [|Hlt]; [done|].
  exfalso. pose proof (frontier_missing b p Hb Hq) as Hmiss.
  destruct (li_prefix _ Ha p (sv_seen (state_vector b) p + 1)%N) as [[pl Hpl]|Hfl]; [lia| |].
  - destruct (Hc _ _ Hpl) as [? ?]; [simpl; lia|congruence].
  - specialize (Hf p). lia.
Qed.

Lemma sv_ext a b :
  (∀ p, StateVectorOps.get a p ≠ Some 0%N) → (∀ p, StateVectorOps.get b p ≠ Some 0%N) →
  sv_le a b → sv_le b a → a = b.
Proof.
  intros Ha Hb Hab Hba. destruct a as [a], b as [b]. f_equal. apply map_eq. intros p.
  specialize (Ha p). specialize (Hb p). specialize (Hab p). specialize (Hba p).
  unfold sv_seen, StateVectorOps.get in *. simpl in *.
  destruct (a !! p), (b !! p); simpl in *;
    [f_equal; lia|destruct Ha; f_equal; lia|destruct Hb; f_equal; lia|done].
Qed.

Lemma state_determined a b :
  log_inv a → log_inv b → quiescent a → quiescent b → same_rest a b →
  content a = content b → a = b.
Proof.
  intros Ha Hb Hqa Hqb (Ho & Hs & He & Hf) Hc.
  assert (Hsv : state_vector a = state_vector b).
  { apply sv_ext; [apply Ha|apply Hb|..]; apply frontier_le; try done.
    - rewrite Hf. apply Hb.
    - intros id pl Hpl _. rewrite <-Hc. exists pl. by apply lookup_union_Some_l.
    - rewrite <-Hf. apply Ha.
    - intros id pl Hpl _. rewrite Hc. exists pl. by apply lookup_union_Some_l. }
  assert (Hops : ∀ id, ops a !! id = ops b !! id ∧ sync_pending a !! id = sync_pending b !! id).
  { intros id. destruct (content_split a id Ha) as [-> ->], (content_split b id Hb) as [-> ->].
    by rewrite Hsv, Hc. }
  destruct a, b; simpl in *; f_equal; try done; apply map_eq; apply Hops.
Qed.
