(* ===== verification/SyncProps.v ===== *)
(** * Properties of the synchronisation log

    Replicas that receive the same operations agree, the log is the gap-free
    prefix of what was received, a delta exchange brings the receiver up to
    date, checkpoints never strand a leased peer, every reachable state
    satisfies the invariant, and validation accepts exactly the messages within
    its limits. *)

From S2P Require Import Prelude Core Sync SyncInv.

(** No operation id is used for two different operations. *)
Definition unique_ids (l : list Operation) : Prop :=
  ∀ a b, a ∈ l → b ∈ l → sop_id a = sop_id b → a = b.

Definition as_entry (op : Operation) : OpId * list Byte.byte := (sop_id op, sop_payload op).

Lemma list_to_map_entries (l : list Operation) id pl :
  unique_ids l →
  (list_to_map (as_entry <$> l) : gmap OpId _) !! id = Some pl ↔ mkOperation id pl ∈ l.
Proof.
  intros Hu. split.
  - intros Hin%elem_of_list_to_map_2. apply list_elem_of_fmap in Hin as ([i q] & [= -> ->] & Hin).
    done.
  - intros Hin. apply elem_of_list_to_map_1'.
    + intros q Hq. apply list_elem_of_fmap in Hq as ([j r] & [= -> ->] & Hq).
      by injection (Hu _ _ Hin Hq eq_refl).
    + apply list_elem_of_fmap. by exists (mkOperation id pl).
Qed.

(** What a replica that started empty holds after receiving messages. *)
Lemma receive_spec ms :
  Forall valid_counter (ms ≫= msg_ops) → unique_ids (ms ≫= msg_ops) →
  let st := receive ms sync_new in
  log_inv st ∧ quiescent st ∧ same_rest st sync_new ∧
  ∀ id pl, content st !! id = Some pl ↔ mkOperation id pl ∈ ms ≫= msg_ops.
Proof.
  intros Hv Hu. rewrite receive_state. destruct sync_new_inv as [Hi Hq].
  destruct (integrate_all_spec _ _ Hi Hq Hv) as (Hi' & Hq' & _ & Hc & Hr).
  split_and!; [done|done|apply Hr..|]. intros id pl. rewrite Hc.
  replace (content sync_new) with (∅ : gmap OpId (list Byte.byte)) by done.
  rewrite map_empty_union. by apply list_to_map_entries.
Qed.

(** ** Convergence *)

(** C3: Two replicas that start empty and receive the same operations, in any
    order, split into any messages and with any repetitions, end in the same
    state: the same log, frontier and buffer.  Counters are those of real
    operations (positive, below the maximal [u64]) and ids are not reused. *)
Theorem sync_log_converges (ms1 ms2 : list ChangeMessage) :
  Forall valid_counter (ms1 ≫= msg_ops) → unique_ids (ms1 ≫= msg_ops) →
  (∀ op, op ∈ ms1 ≫= msg_ops ↔ op ∈ ms2 ≫= msg_ops) →
  receive ms1 sync_new = receive ms2 sync_new.
Proof.
  intros Hv Hu Hsame.
  assert (Hv2 : Forall valid_counter (ms2 ≫= msg_ops)).
  { apply Forall_forall. intros op Hop%Hsame. rewrite Forall_forall in Hv. auto. }
  assert (Hu2 : unique_ids (ms2 ≫= msg_ops)).
  { intros a b Ha%Hsame Hb%Hsame. by apply Hu. }
  destruct (receive_spec ms1) as (? & ? & (?&?&?&?) & Hc1); [done..|].
  destruct (receive_spec ms2) as (? & ? & (?&?&?&?) & Hc2); [done..|].
  apply state_determined; try done; [split_and!; congruence|].
  apply map_eq. intros id. apply option_eq. intros pl. by rewrite Hc1, Hc2, Hsame.
Qed.

(** Three operations of peer 1 and one of peer 2. *)
Definition sample_op (c : N) : Operation := mkOperation (mkOpId c 1) [Byte.x61].
Definition sample_messages : list ChangeMessage :=
  [mkChanges StateVectorOps.new [sample_op 3; sample_op 1]; mkChanges StateVectorOps.new [sample_op 2]].
Definition sample_messages' : list ChangeMessage :=
  [mkChanges StateVectorOps.new [sample_op 1; sample_op 2; sample_op 3; sample_op 1]].

Ltac solve_unique :=
  intros a b Ha Hb; revert Ha Hb; simpl;
  rewrite ?elem_of_cons, ?elem_of_nil; naive_solver.

Lemma sync_log_converges_witness :
  receive sample_messages sync_new = receive sample_messages' sync_new ∧
  contains (receive sample_messages sync_new) (mkOpId 3 1) = true.
Proof.
  split; [|by vm_compute].
  apply (sync_log_converges sample_messages sample_messages').
  - repeat constructor; by vm_compute.
  - solve_unique.
  - intros op. simpl. rewrite !elem_of_cons, !elem_of_nil. naive_solver.
Defined.

(** Every operation of [id]'s peer up to [id] is in the list. *)
Definition history_complete (l : list Operation) (id : OpId) : Prop :=
  ∀ c, (1 ≤ c ≤ counter id)%N → ∃ pl, mkOperation (op_at (peer id) c) pl ∈ l.

(** The frontier after receiving messages: the log is the gap-free prefix below
    it, and an id lies below it exactly when its history was received. *)
Lemma history_frontier ms :
  Forall valid_counter (ms ≫= msg_ops) → unique_ids (ms ≫= msg_ops) →
  let st := receive ms sync_new in
  (∀ p c, (1 ≤ c ≤ sv_seen (state_vector st) p)%N ↔ is_Some (ops st !! op_at p c)) ∧
  (∀ id, history_complete (ms ≫= msg_ops) id ↔
    (counter id ≤ sv_seen (state_vector st) (peer id))%N).
Proof.
  intros Hv Hu st. destruct (receive_spec ms Hv Hu) as (Hi & Hq & (_&_&_&Hfl) & Hc).
  fold st in Hi, Hq, Hfl, Hc.
  assert (Hpre : ∀ p c, (1 ≤ c ≤ sv_seen (state_vector st) p)%N ↔ is_Some (ops st !! op_at p c)).
  { intros p c. split; [|apply (li_ops _ Hi (op_at p c))].
    intros Hcc. destruct (li_prefix _ Hi p c Hcc) as [|Hle]; [done|].
    rewrite Hfl in Hle. simpl in Hle. rewrite sv_seen_new in Hle. lia. }
  split; [done|]. intros id. split.
  - intros Hh. destruct (decide (counter id ≤ sv_seen (state_vector st) (peer id))%N) as [|Hgt];
      [done|].
    destruct (Hh (sv_seen (state_vector st) (peer id) + 1)%N) as [pl Hin%Hc]; [lia|].
    by rewrite frontier_missing in Hin.
  - intros Hle c Hcc. destruct (proj1 (Hpre (peer id) c)) as [pl Hpl]; [lia|].
    exists pl. apply Hc. by apply lookup_union_Some_l.
Qed.

(** what the state is, read off the received operations alone.  The log
    holds exactly the received operations whose predecessors of the same peer
    were all received, with the payload they were sent with; the others wait in
    the buffer; and the state vector covers exactly the logged ids. *)
Theorem sync_log_denotation (ms : list ChangeMessage) :
  Forall valid_counter (ms ≫= msg_ops) → unique_ids (ms ≫= msg_ops) →
  let l := ms ≫= msg_ops in
  let st := receive ms sync_new in
  (∀ id pl, sync_get st id = Some pl ↔ mkOperation id pl ∈ l ∧ history_complete l id) ∧
  (∀ id, is_Some (sync_pending st !! id) ↔
     (∃ pl, mkOperation id pl ∈ l) ∧ ¬ history_complete l id) ∧
  (∀ id, contains st id = true ↔
     (1 ≤ counter id ≤ sv_seen (state_vector st) (peer id))%N).
Proof.
  intros Hv Hu l st. destruct (receive_spec ms Hv Hu) as (Hi & _ & _ & Hc).
  destruct (history_frontier ms Hv Hu) as [Hpre Hcomp].
  fold l in Hc, Hcomp. fold st in Hi, Hc, Hpre, Hcomp.
  split_and!.
  - intros id pl. unfold sync_get. destruct (content_split st id Hi) as [-> _].
    rewrite <-Hc, Hcomp. case_decide; naive_solver.
  - intros id. destruct (content_split st id Hi) as [_ ->]. rewrite Hcomp.
    case_decide; [split; [by intros []|naive_solver]|].
    rewrite fmap_is_Some. unfold is_Some. setoid_rewrite Hc. naive_solver.
  - intros id. unfold contains. rewrite bool_decide_eq_true, Hpre. by destruct id.
Qed.

Lemma sync_log_denotation_witness :
  contains (receive [mkChanges StateVectorOps.new [sample_op 1; sample_op 3]] sync_new) (mkOpId 1 1)
    = true ∧
  contains (receive [mkChanges StateVectorOps.new [sample_op 1; sample_op 3]] sync_new) (mkOpId 3 1)
    = false ∧
  is_Some (sync_get (receive sample_messages sync_new) (mkOpId 3 1)).
Proof.
  split_and!; [by vm_compute..|]. exists [Byte.x61].
  apply (sync_log_denotation sample_messages).
  - repeat constructor; by vm_compute.
  - solve_unique.
  - split; [simpl; rewrite !elem_of_cons; auto|].
    intros c Hc. exists [Byte.x61]. simpl in *.
    assert (c = 1%N ∨ c = 2%N ∨ c = 3%N) as [->|[->| ->]] by lia;
      rewrite !elem_of_cons; auto.
Defined.

(** ** Delta exchange *)

Lemma floor_exceeds_spec floor since :
  floor_exceeds floor since = false ↔ sv_le floor since.
Proof.
  unfold floor_exceeds. rewrite bool_decide_eq_false, Exists_exists. split.
  - intros Hn p. destruct (decide (sv_seen floor p ≤ sv_seen since p)%N) as [|Hlt]; [done|].
    destruct Hn. unfold sv_seen at 1, StateVectorOps.get in Hlt.
    destruct (peers floor !! p) as [c|] eqn:Hp; simpl in Hlt; [|lia].
    exists (p, c). split; [by apply elem_of_btree_iter|]. simpl. lia.
  - intros Hle ([p c] & Hin%elem_of_btree_iter & Hlt). specialize (Hle p). simpl in *.
    unfold sv_seen at 1, StateVectorOps.get in Hle. rewrite Hin in Hle. simpl in Hle. lia.
Qed.

Lemma encode_ok since st m :
  encode_changes_since since st = inr m →
  sv_le (delta_floor st) since ∧ msg_since m = since ∧
  ∀ op, op ∈ msg_ops m ↔
    ops st !! sop_id op = Some (sop_payload op) ∧
    (sv_seen since (peer (sop_id op)) < counter (sop_id op))%N.
Proof.
  unfold encode_changes_since. destruct (floor_exceeds _ _) eqn:Hf; [done|].
  intros [= <-]. simpl. split_and!; [by apply floor_exceeds_spec|done|].
  intros [id pl]. simpl. rewrite list_elem_of_fmap. split.
  - intros ([k v] & [= -> ->] & Hin). apply list_elem_of_filter in Hin as [Hlt Hin].
    split; [by apply elem_of_btree_iter|done].
  - intros [Hin Hlt]. exists (id, pl). split; [done|].
    apply list_elem_of_filter. split; [done|]. by apply elem_of_btree_iter.
Qed.

(** [encode_changes_since] either refuses, exactly when some peer's
    operations above [since] were pruned, reporting its epoch and floor, or
    returns every logged operation that [since] has not seen and nothing else.
    In a state that satisfies the log invariant the answer misses nothing: every
    counter between [since] and the frontier is in it. *)
Theorem encode_changes_since_spec (since : StateVector) (st : SyncState) :
  log_inv st →
  match encode_changes_since since st with
  | inl r =>
    r = mkRebase (checkpoint_epoch st) (delta_floor st) ∧
    ∃ p, (sv_seen since p < sv_seen (delta_floor st) p)%N
  | inr m =>
    msg_since m = since ∧ sv_le (delta_floor st) since ∧
    (∀ op, op ∈ msg_ops m ↔ sync_get st (sop_id op) = Some (sop_payload op) ∧
       (sv_seen since (peer (sop_id op)) < counter (sop_id op))%N) ∧
    (∀ p c, (sv_seen since p < c ≤ sv_seen (state_vector st) p)%N →
       ∃ pl, mkOperation (op_at p c) pl ∈ msg_ops m)
  end.
Proof.
  intros Hi. destruct (encode_changes_since since st) as [r|m] eqn:He.
  - unfold encode_changes_since in He. destruct (floor_exceeds _ _) eqn:Hf; [|done].
    injection He as <-. split; [done|].
    unfold floor_exceeds in Hf. apply bool_decide_eq_true, Exists_exists in Hf.
    destruct Hf as ([p c] & Hin%elem_of_btree_iter & Hlt). exists p. simpl in *.
    unfold sv_seen at 2, StateVectorOps.get. by rewrite Hin.
  - apply encode_ok in He as (Hf & Hs & Hops). split_and!; [done..|].
    intros p c Hc. specialize (Hf p).
    destruct (li_prefix _ Hi p c) as [[pl Hpl]|Hle]; [lia| |lia].
    exists pl. apply Hops. simpl. split; [done|lia].
Qed.

Lemma encode_changes_since_spec_witness :
  ∃ pl, mkOperation (op_at 1 2) pl ∈
    msg_ops (default (mkChanges StateVectorOps.new [])
      (match encode_changes_since (StateVectorOps.set StateVectorOps.new 1 1)
               (receive sample_messages sync_new) with inr m => Some m | _ => None end)).
Proof.
  pose proof (encode_changes_since_spec (StateVectorOps.set StateVectorOps.new 1 1)
    (receive sample_messages sync_new)) as H.
  destruct (encode_changes_since _ _) as [r|m] eqn:He; [by vm_compute in He|].
  apply H; [|split; by vm_compute].
  apply receive_spec; [repeat constructor; by vm_compute|solve_unique].
Defined.

(** C4: A delta exchange brings the receiver up to date.  If [a] answers [b]'s
    state vector with a message, then after applying it [b]'s frontier covers
    [a]'s, [b] has lost nothing it held, and [b] has no ready operation left in
    its buffer; so whatever [b] buffered before is promoted as soon as the
    missing operations arrive. *)
Theorem delta_exchange_catches_up (a b : SyncState) (m : ChangeMessage) :
  log_inv a → log_inv b → quiescent b →
  encode_changes_since (state_vector b) a = inr m →
  let b' := (apply_changes m b).1 in
  sv_le (state_vector a) (state_vector b') ∧ sv_le (state_vector b) (state_vector b') ∧
  content b ⊆ content b' ∧ log_inv b' ∧ quiescent b'.
Proof.
  intros Ha Hb Hq He b'. apply encode_ok in He as (Hf & _ & Hops).
  assert (Hv : Forall valid_counter (msg_ops m)).
  { apply Forall_forall. intros op [Hop _]%Hops. unfold valid_counter.
    pose proof (li_ops _ Ha _ (mk_is_Some _ _ Hop)).
    pose proof (li_bound _ Ha (peer (sop_id op))). lia. }
  unfold b'. rewrite apply_changes_state.
  destruct (integrate_all_spec _ _ Hb Hq Hv) as (Hi & Hq' & Hsv & Hc & _).
  split_and!; [|done|rewrite Hc; apply map_union_subseteq_l|done|done].
  apply frontier_le; [done..|by etrans|].
  intros id pl Hid Hlt. rewrite Hc. rewrite lookup_union_is_Some. right.
  apply not_eq_None_Some. intros Hn%not_elem_of_list_to_map_2. apply Hn. apply list_elem_of_fmap. exists (id, pl). split; [done|].
  apply list_elem_of_fmap. exists (mkOperation id pl). split; [done|].
  apply Hops. split; [done|]. specialize (Hsv (peer id)). simpl. lia.
Qed.

Definition sample_gap : list ChangeMessage :=
  [mkChanges StateVectorOps.new [sample_op 1; sample_op 3]].

Lemma sample_messages_inv :
  log_inv (receive sample_messages sync_new) ∧ quiescent (receive sample_messages sync_new).
Proof.
  destruct (receive_spec sample_messages) as (? & ? & _); [|solve_unique|done].
  repeat constructor; by vm_compute.
Qed.

Lemma sample_gap_inv :
  log_inv (receive sample_gap sync_new) ∧ quiescent (receive sample_gap sync_new).
Proof.
  destruct (receive_spec sample_gap) as (? & ? & _); [|solve_unique|done].
  repeat constructor; by vm_compute.
Qed.

Lemma delta_exchange_catches_up_witness :
  ∃ m, encode_changes_since (state_vector (receive sample_gap sync_new))
         (receive sample_messages sync_new) = inr m ∧
       sv_le (state_vector (receive sample_messages sync_new))
         (state_vector (apply_changes m (receive sample_gap sync_new)).1).
Proof.
  destruct (encode_changes_since (state_vector (receive sample_gap sync_new))
    (receive sample_messages sync_new)) as [r|m] eqn:He; [by vm_compute in He|].
  exists m. split; [done|].
  apply (delta_exchange_catches_up _ _ m); [apply sample_messages_inv|apply sample_gap_inv..|done].
Defined.

(** ** Checkpoints *)

Lemma prune_all_ops ids st id :
  ops (fold_left prune_op ids st) !! id = if decide (id ∈ ids) then None else ops st !! id.
Proof.
  revert st. induction ids as [|i ids IH]; intros st; simpl; [done|]. rewrite IH. simpl.
  destruct (decide (i = id)) as [<-|].
  - rewrite lookup_delete_eq. repeat case_decide; set_solver.
  - rewrite lookup_delete_ne by done. repeat case_decide; set_solver.
Qed.

Lemma prune_all_rest ids st :
  let st' := fold_left prune_op ids st in
  state_vector st' = state_vector st ∧ sync_pending st' = sync_pending st ∧
  checkpoint_epoch st' = checkpoint_epoch st ∧
  outbox_ids st' = outbox_ids st ∖ list_to_set ids ∧ sent_ids st' = sent_ids st ∖ list_to_set ids.
Proof.
  revert st. induction ids as [|i ids IH]; intros st; simpl; [set_solver|].
  destruct (IH (prune_op st i)) as (-> & -> & -> & -> & ->). simpl. set_solver.
Qed.

Lemma prune_floor st id p :
  sv_seen (delta_floor (prune_op st id)) p =
  if decide (peer id = p) then N.max (sv_seen (delta_floor st) p) (counter id)
  else sv_seen (delta_floor st) p.
Proof. simpl. rewrite sv_seen_set. case_decide; by subst. Qed.

Lemma prune_all_floor ids st bound :
  let floor := delta_floor (fold_left prune_op ids st) in
  sv_le (delta_floor st) floor ∧ (∀ id, id ∈ ids → sv_covers floor id) ∧
  (sv_le (delta_floor st) bound → (∀ id, id ∈ ids → sv_covers bound id) → sv_le floor bound).
Proof.
  revert st. induction ids as [|i ids IH]; intros st; simpl.
  { split_and!; [intros p; lia|by intros ? ?%elem_of_nil|done]. }
  destruct (IH (prune_op st i)) as (Hle & Hin & Hb). split_and!.
  - intros p. specialize (Hle p). rewrite prune_floor in Hle. case_decide; lia.
  - intros id [->|Hid]%elem_of_cons; [|by apply Hin]. unfold sv_covers.
    specialize (Hle (peer i)). rewrite prune_floor, decide_True in Hle by done. lia.
  - intros Hf Hids. apply Hb; [|intros; apply Hids; set_solver].
    intros p. rewrite prune_floor. specialize (Hf p).
    assert (sv_covers bound i) as Hi by (apply Hids; set_solver). unfold sv_covers in Hi.
    case_decide; subst; lia.
Qed.

Lemma prune_all_size ids st :
  NoDup ids → (∀ id, id ∈ ids → is_Some (ops st !! id)) →
  length ids + size (ops (fold_left prune_op ids st)) = size (ops st).
Proof.
  revert st. induction ids as [|i ids IH]; intros st Hnd Hin; [done|].
  apply NoDup_cons in Hnd as [Hi Hnd]. simpl.
  destruct (Hin i) as [pl Hpl]; [set_solver|].
  assert (Hsz : S (size (delete i (ops st))) = size (ops st)).
  { rewrite map_size_delete_Some by eauto. assert (size (ops st) ≠ 0); [|lia].
    intros H0%map_size_empty_inv. rewrite H0 in Hpl. done. }
  rewrite <-Hsz. f_equal. apply (IH (prune_op st i)); [done|].
  intros id Hid. simpl. rewrite lookup_delete_ne by (intros ->; done). apply Hin. set_solver.
Qed.

(** What a successful pruning checkpoint removes. *)
Definition pruned_of (request : CheckpointRequest) (st : SyncState) : list OpId :=
  take (size (ops st) - max_retained_ops request) (eligible_ops request st).

Lemma pruned_of_spec request st id :
  id ∈ pruned_of request st →
  is_Some (ops st !! id) ∧ acknowledged_by_all (active_peer_leases request) id.
Proof.
  intros Hin%elem_of_take. destruct Hin as (i & Hin%list_elem_of_lookup_2 & _).
  apply list_elem_of_filter in Hin as [? ?%elem_of_btree_keys]. done.
Qed.

Lemma NoDup_pruned_of request st : NoDup (pruned_of request st).
Proof.
  eapply sublist_NoDup; [|apply sublist_take].
  apply NoDup_filter, NoDup_btree_keys.
Qed.

Lemma checkpoint_cases request st st' report :
  checkpoint request st = (st', inr report) →
  (st' = st ∧ size (ops st) ≤ max_retained_ops request ∧
   report = mkCheckpointReport (checkpoint_epoch st) 0 (size (ops st)) (delta_floor st)) ∨
  (∃ epoch, u64_checked_add (checkpoint_epoch st) 1 = Some epoch ∧
   st' = set_epoch epoch (fold_left prune_op (pruned_of request st) st) ∧
   0 < size (ops st) - max_retained_ops request ≤ length (eligible_ops request st) ∧
   report = mkCheckpointReport epoch (length (pruned_of request st)) (size (ops st')) (delta_floor st')).
Proof.
  unfold checkpoint. destruct (duplicate_lease _ _); [done|].
  case_decide as Hz; [intros [= <- <-]; left; split_and!; [done|lia|done]|].
  case_decide as Hlen; [done|]. destruct (u64_checked_add _ _) as [epoch|]; [|done].
  intros [= <- <-]. right. exists epoch. split_and!; try done; lia.
Qed.

Lemma duplicate_lease_spec leases seen :
  match duplicate_lease leases seen with
  | None => NoDup (lease_peer <$> leases) ∧ ∀ p, p ∈ lease_peer <$> leases → p ∉ seen
  | Some p => ∃ before l after, leases = before ++ l :: after ∧ lease_peer l = p ∧
      (p ∈ lease_peer <$> before ∨ p ∈ seen)
  end.
Proof.
  revert seen. induction leases as [|l leases IH]; intros seen; simpl.
  { split; [constructor|by intros p ?%elem_of_nil]. }
  case_decide as Hin; [exists [], l, leases; auto|].
  specialize (IH ({[lease_peer l]} ∪ seen)). destruct (duplicate_lease _ _) as [p|].
  - destruct IH as (before & l' & after & -> & Hp & Hor). exists (l :: before), l', after.
    split_and!; [done..|]. simpl. set_solver.
  - destruct IH as [Hnd Hni]. split; [apply NoDup_cons; split; [|done]|]; set_solver.
Qed.

Lemma checkpoint_error_state request st st' e :
  checkpoint request st = (st', inl e) → st' = st.
Proof.
  unfold checkpoint. destruct (duplicate_lease _ _); [by intros [= <- _]|].
  case_decide; [done|]. case_decide; [by intros [= <- _]|].
  destruct (u64_checked_add _ _); [done|by intros [= <- _]].
Qed.

(** [checkpoint] on every branch.  A failed checkpoint leaves the state
    untouched and says why: a peer leased twice, fewer prunable operations than
    required, or an exhausted epoch counter.  A successful one keeps at most
    the requested number of operations and never more than it must drop, prunes
    only operations that every lease acknowledged, records each of them below
    the new floor, and leaves the frontier and the buffer alone. *)
Theorem checkpoint_spec (request : CheckpointRequest) (st : SyncState) :
  match checkpoint request st with
  | (st', inl (DuplicatePeerLease p)) =>
    st' = st ∧ ∃ before l after, active_peer_leases request = before ++ l :: after ∧
      lease_peer l = p ∧ p ∈ lease_peer <$> before
  | (st', inl (RetentionBlocked required eligible)) =>
    st' = st ∧ required = size (ops st) - max_retained_ops request ∧
    eligible = length (eligible_ops request st) ∧ eligible < required
  | (st', inl EpochOverflow) => st' = st ∧ (u64_max ≤ checkpoint_epoch st)%N
  | (st', inr report) =>
    retained_ops report = Nat.min (size (ops st)) (max_retained_ops request) ∧
    size (ops st') = retained_ops report ∧
    pruned_ops report + retained_ops report = size (ops st) ∧
    report_floor report = delta_floor st' ∧ sv_le (delta_floor st) (delta_floor st') ∧
    report_epoch report = checkpoint_epoch st' ∧
    state_vector st' = state_vector st ∧ sync_pending st' = sync_pending st ∧
    ops st' ⊆ ops st ∧
    ∀ id, is_Some (ops st !! id) → ops st' !! id = None →
      acknowledged_by_all (active_peer_leases request) id ∧ sv_covers (delta_floor st') id
  end.
Proof.
  destruct (checkpoint request st) as [st' [e|report]] eqn:Hc.
  - unfold checkpoint in Hc.
    pose proof (duplicate_lease_spec (active_peer_leases request) ∅) as Hd.
    destruct (duplicate_lease _ _) as [p|].
    { injection Hc as <- <-. split; [done|]. destruct Hd as (b & l & a & ? & ? & ?).
      exists b, l, a. set_solver. }
    case_decide; [done|]. case_decide; [by injection Hc as <- <-|].
    unfold u64_checked_add in Hc. case_decide; [done|]. injection Hc as <- <-. split; [done|lia].
  - apply checkpoint_cases in Hc as [(-> & Hsz & ->)|(epoch & _ & -> & Hsz & ->)]; simpl.
    { split_and!; [lia|lia|lia|done|intros p; lia|done..|]. intros id [] ?; congruence. }
    destruct (prune_all_rest (pruned_of request st) st) as (Hsv & Hp & _).
    destruct (prune_all_floor (pruned_of request st) st StateVectorOps.new) as (Hfl & Hcov & _).
    pose proof (prune_all_size (pruned_of request st) st (NoDup_pruned_of _ _)) as Hlen.
    specialize (Hlen (λ id Hid, proj1 (pruned_of_spec _ _ _ Hid))).
    assert (length (pruned_of request st) = size (ops st) - max_retained_ops request).
    { unfold pruned_of. rewrite length_take. lia. }
    split_and!; [lia|lia|lia|done|done|done|done|done| |].
    + apply map_subseteq_spec. intros id pl. rewrite prune_all_ops. by case_decide.
    + intros id [pl Hid]. rewrite prune_all_ops. case_decide as Hin; [|congruence].
      intros _. split; [by eapply pruned_of_spec|by apply Hcov].
Qed.

(** C9: A checkpoint never invalidates an active lease.  A peer whose
    acknowledged vector is in the request and could be served a delta before
    the checkpoint is served exactly the same delta after it, whatever the
    outcome of the checkpoint. *)
Theorem checkpoint_keeps_leases (request : CheckpointRequest) (st : SyncState)
    (lease : PeerLease) (m : ChangeMessage) :
  lease ∈ active_peer_leases request →
  encode_changes_since (lease_acknowledged lease) st = inr m →
  encode_changes_since (lease_acknowledged lease) (checkpoint request st).1 = inr m.
Proof.
  intros Hl He. destruct (checkpoint request st) as [st' [e|report]] eqn:Hc; simpl.
  { by rewrite (checkpoint_error_state _ _ _ _ Hc). }
  apply checkpoint_cases in Hc as [(-> & _)|(epoch & _ & -> & _ & _)]; [done|].
  set (ack := lease_acknowledged lease) in *.
  assert (Hack : ∀ id, id ∈ pruned_of request st → sv_covers ack id).
  { intros id [_ Hall]%pruned_of_spec. unfold acknowledged_by_all in Hall.
    rewrite Forall_forall in Hall. by apply Hall. }
  destruct (prune_all_floor (pruned_of request st) st ack) as (_ & _ & Hfl).
  unfold encode_changes_since in He. destruct (floor_exceeds (delta_floor st) ack) eqn:Hf; [done|].
  injection He as <-. apply floor_exceeds_spec in Hf.
  unfold encode_changes_since. simpl.
  rewrite (proj2 (floor_exceeds_spec _ _) (Hfl Hf Hack)). do 3 f_equal.
  apply btree_iter_filter_ext. intros k v Hlt. simpl in Hlt. rewrite prune_all_ops.
  case_decide as Hin; [|done]. apply Hack in Hin. unfold sv_covers in Hin. lia.
Qed.

Lemma checkpoint_keeps_leases_witness :
  let request := mkCheckpointRequest 1
    [mkLease 7 (StateVectorOps.set StateVectorOps.new 1 2)] KeepAll in
  let st := receive sample_messages sync_new in
  ∃ m, msg_ops m = [sample_op 3] ∧ size (ops (checkpoint request st).1) = 1 ∧
    encode_changes_since (StateVectorOps.set StateVectorOps.new 1 2) (checkpoint request st).1 = inr m.
Proof.
  intros request st.
  exists (mkChanges (StateVectorOps.set StateVectorOps.new 1 2) [sample_op 3]).
  split_and!; [done|by vm_compute|].
  apply (checkpoint_keeps_leases request st
    (mkLease 7 (StateVectorOps.set StateVectorOps.new 1 2))).
  - apply list_elem_of_singleton. done.
  - vm_compute. reflexivity.
Defined.

(** ** The life of a replica *)

(** What a replica does on the batch path, with the conditions its callers
    keep: received counters are valid, a local operation takes the next counter
    of its peer and the peer does not have operations of its own in the buffer. *)
Inductive sync_step : SyncState → SyncState → Prop :=
  | step_receive m st :
      Forall valid_counter (msg_ops m) → sync_step st (apply_changes m st).1
  | step_local op st :
      counter (sop_id op) = (sv_seen (state_vector st) (peer (sop_id op)) + 1)%N →
      valid_counter op →
      (∀ id, is_Some (sync_pending st !! id) → peer id ≠ peer (sop_id op)) →
      sync_step st (add_local_op op st)
  | step_sent ids st : sync_step st (mark_sent ids st)
  | step_confirmed ids st : sync_step st (mark_confirmed ids st)
  | step_checkpoint request st : sync_step st (checkpoint request st).1.

Definition reachable : SyncState → Prop := rtc sync_step sync_new.

(** What the sending side tracks: every tracked operation is still in the log,
    and none is both unsent and sent. *)
Record boxes_ok (st : SyncState) : Prop := {
  bo_outbox : outbox_ids st ⊆ dom (ops st);
  bo_sent : sent_ids st ⊆ dom (ops st);
  bo_disjoint : outbox_ids st ## sent_ids st;
}.

Definition sync_inv (st : SyncState) : Prop := log_inv st ∧ quiescent st ∧ boxes_ok st.

(** Only the boxes differ. *)
Definition same_log (a b : SyncState) : Prop :=
  ops a = ops b ∧ state_vector a = state_vector b ∧ sync_pending a = sync_pending b ∧
  checkpoint_epoch a = checkpoint_epoch b ∧ delta_floor a = delta_floor b.

Lemma same_log_inv a b : same_log a b → log_inv b ∧ quiescent b → log_inv a ∧ quiescent a.
Proof.
  destruct a as [? ? ? ao asn], b as [? ? ? bo bs]. intros (?&?&?&?&?) [[] Hq]. simpl in *. subst.
  split; [by split|]. intros id op span Hid. apply (Hq id op span Hid).
Qed.

Lemma mark_sent_spec ids st :
  same_log (mark_sent ids st) st ∧
  outbox_ids (mark_sent ids st) = outbox_ids st ∖ list_to_set ids ∧
  sent_ids (mark_sent ids st) = sent_ids st ∪ (outbox_ids st ∩ list_to_set ids).
Proof.
  unfold mark_sent. revert st. induction ids as [|i ids IH]; intros st; simpl.
  { split_and!; [done..|set_solver|set_solver]. }
  destruct (IH (if decide (i ∈ outbox_ids st)
    then set_boxes (outbox_ids st ∖ {[i]}) ({[i]} ∪ sent_ids st) st else st)) as (Hl & -> & ->).
  case_decide; simpl in *; (split_and!; [apply Hl..| |]); [set_solver| |set_solver|set_solver].
  apply set_eq. intros k. destruct (decide (k = i)); set_solver.
Qed.

Lemma mark_confirmed_spec ids st :
  same_log (mark_confirmed ids st) st ∧ outbox_ids (mark_confirmed ids st) = outbox_ids st ∧
  sent_ids (mark_confirmed ids st) = sent_ids st ∖ list_to_set ids.
Proof.
  unfold mark_confirmed. revert st. induction ids as [|i ids IH]; intros st; simpl.
  { split_and!; [done..|set_solver]. }
  destruct (IH (set_boxes (outbox_ids st) (sent_ids st ∖ {[i]}) st)) as (Hl & -> & ->).
  split_and!; [apply Hl..|done|set_solver].
Qed.

Lemma set_epoch_inv e st : log_inv st ∧ quiescent st → log_inv (set_epoch e st) ∧ quiescent (set_epoch e st).
Proof. intros [[] Hq]. split; [by split|]. exact Hq. Qed.

Lemma prune_all_inv ids st :
  (∀ id, id ∈ ids → is_Some (ops st !! id)) → log_inv st ∧ quiescent st →
  log_inv (fold_left prune_op ids st) ∧ quiescent (fold_left prune_op ids st).
Proof.
  intros Hids [Hi Hq]. destruct (prune_all_rest ids st) as (Hsv & Hp & _).
  destruct (prune_all_floor ids st (state_vector st)) as (Hle & Hcov & Hb).
  assert (Hops : ∀ id, is_Some (ops (fold_left prune_op ids st) !! id) → is_Some (ops st !! id)).
  { intros id. rewrite prune_all_ops. by case_decide; [intros []|]. }
  split.
  - split; rewrite ?Hsv, ?Hp; try apply Hi.
    + intros id ?%Hops. by apply Hi.
    + intros p c Hc. rewrite prune_all_ops. case_decide as Hin; [right; apply (Hcov _ Hin)|].
      destruct (li_prefix _ Hi p c Hc) as [|Hf]; [auto|right]. specialize (Hle p). lia.
    + apply Hb; [apply Hi|]. intros id Hid%Hids. by apply Hi.
    + intros id op span Hid. destruct (li_pending _ Hi _ _ _ Hid) as (? & ? & Hn & ?).
      split_and!; try done; [|lia|lia]. rewrite prune_all_ops. by case_decide.
  - intros id op span. rewrite Hp. intros Hid. unfold span_ready, max_applied_counter.
    rewrite Hsv. by eapply Hq.
Qed.

Lemma receive_boxes m st :
  sync_inv st → Forall valid_counter (msg_ops m) → sync_inv (apply_changes m st).1.
Proof.
  intros (Hi & Hq & [Ho Hs Hd]) Hv. rewrite apply_changes_state.
  destruct (integrate_all_spec _ _ Hi Hq Hv) as (Hi' & Hq' & Hsv & Hc & (Hor & Hsr & _)).
  set (st' := fold_left integrate _ _) in *.
  assert (Hdom : dom (ops st) ⊆ dom (ops st')).
  { intros id [pl Hid]%elem_of_dom. apply elem_of_dom.
    destruct (content_split st' id Hi') as [-> _].
    pose proof (li_ops _ Hi id (mk_is_Some _ _ Hid)). specialize (Hsv (peer id)).
    rewrite decide_True by lia. rewrite Hc. exists pl.
    by apply lookup_union_Some_l, lookup_union_Some_l. }
  split_and!; [done..|]. split; rewrite ?Hor, ?Hsr; set_solver.
Qed.

Lemma add_local_inv op st :
  sync_inv st → counter (sop_id op) = (sv_seen (state_vector st) (peer (sop_id op)) + 1)%N →
  valid_counter op → (∀ id, is_Some (sync_pending st !! id) → peer id ≠ peer (sop_id op)) →
  sync_inv (add_local_op op st).
Proof.
  intros (Hi & Hq & [Ho Hs Hd]) Hc Hv Hp.
  assert (Hi' : log_inv (log_op op st)).
  { apply log_op_inv; [done..|apply span_ready_1; [done|lia]|].
    apply eq_None_not_Some. intros Hin. by apply (Hp _ Hin). }
  assert (Hq' : quiescent (log_op op st)).
  { intros id o span Hid. simpl in Hid. unfold span_ready, max_applied_counter. simpl.
    rewrite sv_seen_observe, decide_False by (symmetry; eauto).
    eapply Hq. done. }
  destruct (same_log_inv (add_local_op op st) (log_op op st)) as [Hi2 Hq2]; [done..|].
  assert (Hfresh : sop_id op ∉ dom (ops st)).
  { intros [pl Hid]%elem_of_dom. pose proof (li_ops _ Hi _ (mk_is_Some _ _ Hid)). lia. }
  split_and!; [done..|]. split; simpl; rewrite ?dom_insert_L; set_solver.
Qed.

Lemma checkpoint_inv request st : sync_inv st → sync_inv (checkpoint request st).1.
Proof.
  intros (Hi & Hq & Hb). destruct (checkpoint request st) as [st' [e|report]] eqn:Hc; simpl.
  { by rewrite (checkpoint_error_state _ _ _ _ Hc). }
  apply checkpoint_cases in Hc as [(-> & _)|(epoch & _ & -> & _ & _)]; [done|].
  destruct (prune_all_inv (pruned_of request st) st) as [Hi' Hq'];
    [by intros id [? _]%pruned_of_spec|done|].
  destruct (set_epoch_inv epoch _ (conj Hi' Hq')). split_and!; [done..|].
  destruct (prune_all_rest (pruned_of request st) st) as (_ & _ & _ & Ho & Hs).
  destruct Hb as [Hbo Hbs Hbd].
  assert (Hdom : dom (ops (fold_left prune_op (pruned_of request st) st)) =
    dom (ops st) ∖ list_to_set (pruned_of request st)).
  { apply set_eq. intros id. rewrite elem_of_difference, elem_of_list_to_set, !elem_of_dom.
    rewrite prune_all_ops. case_decide; [split; [by intros []|naive_solver]|naive_solver]. }
  split; simpl; rewrite ?Ho, ?Hs, ?Hdom; set_solver.
Qed.



(** ** Validation *)

Definition well_formed (op : Operation) : Prop :=
  sop_payload op ≠ [] ∧ (0 < counter (sop_id op))%N.

(** The loop over the operations stops at the first malformed one. *)
Lemma first_malformed (l : list Operation) :
  match head (omap validate_op l) with
  | None => Forall well_formed l
  | Some e => ∃ before op after kind,
      l = before ++ op :: after ∧ Forall well_formed before ∧
      e = MalformedOperation (sop_id op) kind ∧
      (kind = EmptyPayload ∧ sop_payload op = [] ∨
       kind = ZeroCounter ∧ sop_payload op ≠ [] ∧ counter (sop_id op) = 0%N)
  end.
Proof.
  induction l as [|op l IH]; simpl; [constructor|].
  unfold validate_op at 1. case_decide as Hp; simpl.
  { exists [], op, l, EmptyPayload. split_and!; [done|constructor|done|auto]. }
  case_decide as Hc; simpl.
  { exists [], op, l, ZeroCounter. split_and!; [done|constructor|done|auto]. }
  assert (well_formed op) by (split; [done|lia]).
  destruct (head _) as [e|]; [|by constructor].
  destruct IH as (before & o & after & kind & -> & Hb & -> & Hk).
  eexists (op :: before), o, after, kind. split_and!; [done|by constructor|done..].
Qed.

(** [validate_changes] accepts exactly the messages that stay within the
    three limits and whose operations all have a payload and a positive counter.
    Every error is justified: limits are checked in the order count, bytes,
    buffer, and a malformed operation is the first one in the message.  The
    cases are exclusive, so each error is returned exactly when it applies. *)
Theorem validate_changes_spec (m : ChangeMessage) (limits : ValidationLimits) (pending : nat) :
  let n := N.of_nat (length (msg_ops m)) in
  let bytes := N.of_nat (total_payload (msg_ops m)) in
  let counted := (n ≤ max_ops_per_message limits)%N in
  let sized := (bytes ≤ max_payload_bytes limits)%N in
  let room := (N.of_nat pending + n ≤ max_pending_buffer limits)%N in
  match validate_changes m limits pending with
  | None => counted ∧ sized ∧ room ∧ Forall well_formed (msg_ops m)
  | Some (MalformedOperation id kind) =>
    counted ∧ sized ∧ room ∧
    ∃ before op after, msg_ops m = before ++ op :: after ∧ Forall well_formed before ∧
      id = sop_id op ∧
      (kind = EmptyPayload ∧ sop_payload op = [] ∨
       kind = ZeroCounter ∧ sop_payload op ≠ [] ∧ counter id = 0%N)
  | Some (ResourceLimitExceeded limit actual) =>
    (limit < actual)%N ∧
    (limit = max_ops_per_message limits ∧ actual = n ∨
     counted ∧ limit = max_payload_bytes limits ∧ actual = bytes)
  | Some (BufferFull capacity) =>
    counted ∧ sized ∧ capacity = max_pending_buffer limits ∧ (capacity < N.of_nat pending + n)%N
  | Some (InvalidReference _) => False
  end.
Proof.
  intros n bytes counted sized room. unfold validate_changes. fold n bytes.
  destruct (N.ltb_spec (max_ops_per_message limits) n); [auto|].
  destruct (N.ltb_spec (max_payload_bytes limits) bytes); [auto 6|].
  destruct (N.ltb_spec (max_pending_buffer limits) (N.of_nat pending + n)); [auto|].
  pose proof (first_malformed (msg_ops m)) as Hf. destruct (head _) as [e|]; [|done].
  destruct Hf as (before & op & after & kind & Hl & Hb & -> & Hk).
  split_and!; [done..|]. by exists before, op, after.
Qed.
