(* ===== verification/OracleLogs.v ===== *)
(** * The naive log and mark oracles

    Models [SyncOracle] and [mark::NaiveMarkSet] of
    [src/md-crdt-naive-oracle/src/lib.rs]: a log without buffer or frontier, and
    a mark set whose attributes are overwritten in delivery order.  The
    production log and mark set are compared with them. *)

From S2P Require Import Prelude Core Mark MarkProps Sync SyncInv SyncProps.

(** ** The log oracle *)

Record SyncOracle := mkSyncOracle { so_ops : gmap OpId payload }.

Definition so_new : SyncOracle := mkSyncOracle ∅.

(** [self.ops.entry(id).or_insert(payload)]. *)
Definition so_apply (id : OpId) (pl : payload) (o : SyncOracle) : SyncOracle :=
  mkSyncOracle (match so_ops o !! id with Some _ => so_ops o | None => <[id := pl]> (so_ops o) end).

Definition so_state_vector (o : SyncOracle) : StateVector :=
  fold_left (λ sv id,
    let current := sv_seen sv (peer id) in
    if (current <? counter id)%N then StateVectorOps.set sv (peer id) (counter id) else sv)
    (btree_keys (so_ops o)) StateVectorOps.new.

Definition so_changes_since (since : StateVector) (o : SyncOracle) : list (OpId * payload) :=
  fold_left (λ changes kv,
    let seen := sv_seen since (peer kv.1) in
    if (seen <? counter kv.1)%N then changes ++ [kv] else changes)
    (btree_iter (so_ops o)) [].

Definition so_same_state (a b : SyncOracle) : bool := bool_decide (so_ops a = so_ops b).

Definition so_run (l : list Operation) : SyncOracle :=
  fold_left (λ o op, so_apply (sop_id op) (sop_payload op) o) l so_new.

(** ** The mark oracle *)

Record NaiveMarkInterval := mkNaiveInterval {
  ni_id : OpId;
  ni_kind : MarkKind;
  ni_start : Anchor;
  ni_end : Anchor;
  ni_attrs : gmap string MarkValue;
  ni_op_id : OpId;
}.

Record NaiveMarkSet := mkNaiveSet {
  n_intervals : gmap OpId NaiveMarkInterval;
  n_removes : gmap OpId (StateVector * OpId);
}.

Definition naive_new : NaiveMarkSet := mkNaiveSet ∅ ∅.

(** What [set_mark] does to the entry of the interval; the loop over the
    attributes overwrites. *)
Definition naive_set_entry (interval_id : OpId) (kind : MarkKind) (start stop : Anchor)
    (attrs : gmap string MarkValue) (op_id : OpId) (existing : option NaiveMarkInterval) :
    NaiveMarkInterval :=
  let entry := default (mkNaiveInterval interval_id kind start stop ∅ op_id) existing in
  let entry :=
    if ord_geb op_id (ni_op_id entry)
    then mkNaiveInterval (ni_id entry) kind start stop (ni_attrs entry) op_id
    else entry in
  mkNaiveInterval (ni_id entry) (ni_kind entry) (ni_start entry) (ni_end entry)
    (fold_left (λ m kv, <[kv.1 := kv.2]> m) (btree_iter attrs) (ni_attrs entry)) (ni_op_id entry).

Definition naive_set_mark (interval_id : OpId) (kind : MarkKind) (start stop : Anchor)
    (attrs : gmap string MarkValue) (op_id : OpId) (n : NaiveMarkSet) : NaiveMarkSet :=
  mkNaiveSet
    (<[interval_id :=
         naive_set_entry interval_id kind start stop attrs op_id (n_intervals n !! interval_id)]>
       (n_intervals n))
    (n_removes n).

Definition naive_remove_mark (interval_id : OpId) (observed : StateVector) (op_id : OpId)
    (n : NaiveMarkSet) : NaiveMarkSet :=
  match n_removes n !! interval_id with
  | Some (_, existing) =>
    if ord_geb existing op_id then n
    else mkNaiveSet (n_intervals n) (<[interval_id := (observed, op_id)]> (n_removes n))
  | None => mkNaiveSet (n_intervals n) (<[interval_id := (observed, op_id)]> (n_removes n))
  end.

Definition naive_is_active (n : NaiveMarkSet) (id : OpId) : bool :=
  match n_intervals n !! id with
  | None => false
  | Some i =>
    match n_removes n !! id with
    | None => true
    | Some (observed, _) => (sv_seen observed (peer (ni_id i)) <? counter (ni_id i))%N
    end
  end.

(** The oracle has its own [resolve_anchor]. *)
Definition naive_resolve_anchor (a : Anchor) (index_map : gmap OpId nat) (len : nat) : nat :=
  let base := default 0 (index_map !! anchor_elem a) in
  match anchor_bias a with
  | Before => base
  | After => Nat.min (base + 1) len
  end.

(** The loop body over the intervals, [continue] included. *)
Definition naive_push (n : NaiveMarkSet) (order : list OpId) (visible_len : nat)
    (marks_at : list (list OpId)) (i : NaiveMarkInterval) : list (list OpId) :=
  if negb (naive_is_active n (ni_id i)) then marks_at
  else
    let index_map := index_map_of order in
    let start := naive_resolve_anchor (ni_start i) index_map visible_len in
    let stop := naive_resolve_anchor (ni_end i) index_map visible_len in
    let '(from, to) := if decide (start ≤ stop) then (start, stop) else (stop, start) in
    fold_left (λ marks_at idx,
      if decide (idx < length marks_at) then alter (λ l, l ++ [ni_id i]) idx marks_at else marks_at)
      (seq from (to - from)) marks_at.

Definition naive_marks_at (n : NaiveMarkSet) (order : list OpId) (visible_len : nat) :
    list (list OpId) :=
  (λ marks, dedup (merge_sort ord_le marks)) <$>
    fold_left (naive_push n order visible_len) (btree_values (n_intervals n))
      (replicate (visible_len + 1) []).

(** The outer loop clones the marks of the position. *)
Fixpoint naive_spans_loop (fuel : nat) (marks_at : list (list OpId)) (visible_len start : nat) :
    list Span :=
  match fuel with
  | 0 => []
  | S fuel =>
    if decide (start < visible_len) then
      let current := default [] (marks_at !! start) in
      let stop := run_end visible_len marks_at current visible_len (start + 1) in
      mkSpan start stop current :: naive_spans_loop fuel marks_at visible_len stop
    else []
  end.

Definition naive_render_spans (n : NaiveMarkSet) (order : list OpId) (visible_len : nat) :
    list Span :=
  naive_spans_loop visible_len (naive_marks_at n order visible_len) visible_len 0.

Definition naive_step (n : NaiveMarkSet) (o : MarkOp) : NaiveMarkSet :=
  match o with
  | OpSetMark id kind start stop attrs op => naive_set_mark id kind start stop attrs op n
  | OpRemoveMark id observed op => naive_remove_mark id observed op n
  end.

Definition naive_run (l : list MarkOp) : NaiveMarkSet := fold_left naive_step l naive_new.

(** ** The log oracle: lemmas *)

Lemma so_run_lookup (l : list Operation) o id pl :
  unique_ids l → (∀ op, op ∈ l → so_ops o !! sop_id op = None ∨ so_ops o !! sop_id op = Some (sop_payload op)) →
  so_ops (fold_left (λ o op, so_apply (sop_id op) (sop_payload op) o) l o) !! id = Some pl ↔
    so_ops o !! id = Some pl ∨ mkOperation id pl ∈ l.
Proof.
  revert o. induction l as [|[i q] l IH]; intros o Hu Ho; simpl.
  { rewrite elem_of_nil. naive_solver. }
  assert (Hl : unique_ids l) by (intros a b Ha Hb; apply Hu; by right).
  assert (Hstep : ∀ j, so_ops (so_apply i q o) !! j = if decide (j = i) then Some q else so_ops o !! j).
  { intros j. unfold so_apply. simpl. destruct (Ho (mkOperation i q) ltac:(left)) as [Hn|Hs]; simpl in *.
    - rewrite Hn, lookup_insert. repeat case_decide; naive_solver.
    - rewrite Hs. case_decide; naive_solver. }
  rewrite IH, Hstep; [|done|].
  - case_decide as Hj; [subst|rewrite elem_of_cons; naive_solver].
    split; [intros [[= ->]|Hin]; right; [left|by right]|].
    intros [Hs|[[= ->]|Hin]%elem_of_cons]; [|by left|by right].
    destruct (Ho (mkOperation i q) ltac:(left)) as [Hn|Hs']; simpl in *; [congruence|].
    left. congruence.
  - intros op Hop. rewrite Hstep. case_decide as Hj; [|apply Ho; by right].
    right. f_equal. by rewrite (Hu op (mkOperation i q) ltac:(by right) ltac:(left) Hj).
Qed.

Lemma so_changes_filter since o :
  so_changes_since since o =
    filter (λ kv, (sv_seen since (peer kv.1) < counter kv.1)%N) (btree_iter (so_ops o)).
Proof.
  unfold so_changes_since.
  assert (H : ∀ l acc, fold_left (λ changes kv,
      if (sv_seen since (peer kv.1) <? counter kv.1)%N then changes ++ [kv] else changes) l acc =
    acc ++ filter (λ kv : OpId * payload, (sv_seen since (peer kv.1) < counter kv.1)%N) l).
  { induction l as [|kv l IH]; intros acc; simpl; [by rewrite app_nil_r|].
    rewrite IH, filter_cons. destruct (N.ltb_spec (sv_seen since (peer kv.1)) (counter kv.1)).
    - rewrite decide_True by done. by rewrite <-app_assoc.
    - by rewrite decide_False by lia. }
  apply H.
Qed.

Lemma observe_all_seen (l : list OpId) sv p :
  (∀ id, id ∈ l → (counter id ≤ sv_seen (fold_left (λ sv id, observe_vector id sv) l sv) (peer id))%N) ∧
  sv_le sv (fold_left (λ sv id, observe_vector id sv) l sv) ∧
  (sv_seen (fold_left (λ sv id, observe_vector id sv) l sv) p = sv_seen sv p ∨
   ∃ id, id ∈ l ∧ peer id = p ∧ sv_seen (fold_left (λ sv id, observe_vector id sv) l sv) p = counter id) ∧
  ((∀ q, StateVectorOps.get sv q ≠ Some 0%N) →
   ∀ q, StateVectorOps.get (fold_left (λ sv id, observe_vector id sv) l sv) q ≠ Some 0%N).
Proof.
  revert sv. induction l as [|i l IH]; intros sv; simpl.
  { split_and!; [set_solver|by intros ?|by left|done]. }
  destruct (IH (observe_vector i sv)) as (H1 & H2 & H3 & H4). split_and!.
  - intros id [->|Hin]%elem_of_cons; [|by apply H1]. etrans; [|apply H2].
    rewrite sv_seen_observe. case_decide; [lia|done].
  - intros q. etrans; [apply sv_le_observe|apply H2].
  - destruct H3 as [H3|(id & ? & ? & ?)]; [|right; exists id; split; [by right|done]].
    rewrite H3, sv_seen_observe. case_decide as Hp; [|by left].
    destruct (N.max_spec (sv_seen sv (peer i)) (counter i)) as [[? Hm]|[? Hm]]; subst p.
    + right. exists i. split; [left|]. split; [done|]. lia.
    + left. lia.
  - intros Hpos. apply H4. intros q. by apply observe_pos.
Qed.

(** ** The mark oracle: lemmas *)

(** An interval without its attributes. *)
Definition bare (i : MarkInterval) : MarkInterval :=
  mkInterval (mi_id i) (mi_kind i) (mi_start i) (mi_end i) ∅ (mi_op_id i).
Definition naive_bare (i : NaiveMarkInterval) : MarkInterval :=
  mkInterval (ni_id i) (ni_kind i) (ni_start i) (ni_end i) ∅ (ni_op_id i).
Definition bare_remove (r : RemoveMark) : StateVector * OpId := (rm_observed r, rm_op_id r).

(** Equal up to attributes. *)
Definition same_marks (ms : MarkSet) (n : NaiveMarkSet) : Prop :=
  (∀ id, bare <$> intervals ms !! id = naive_bare <$> n_intervals n !! id) ∧
  (∀ id, bare_remove <$> removes ms !! id = n_removes n !! id).

Lemma same_entry id k s t a op e n :
  bare <$> e = naive_bare <$> n →
  bare (set_mark_entry id k s t a op e) = naive_bare (naive_set_entry id k s t a op n).
Proof.
  unfold set_mark_entry, naive_set_entry. intros H.
  destruct e as [e|], n as [n|]; try discriminate H; simpl.
  - destruct e, n. unfold bare, naive_bare in *. simpl in *. simplify_eq.
    by destruct (ord_geb _ _).
  - by destruct (ord_geb _ _).
Qed.

Lemma same_step ms n o : same_marks ms n → same_marks (mark_step ms o) (naive_step n o).
Proof.
  intros [Hi Hr]. destruct o as [id k s t a op|id ob op]; simpl.
  - split; [|done]. intros id'. unfold set_mark, naive_set_mark. simpl. rewrite !lookup_insert.
    case_decide; [|apply Hi]. simpl. f_equal. by apply same_entry.
  - rewrite remove_mark_newest. unfold naive_remove_mark.
    pose proof (Hr id) as Hid. split.
    { destruct (n_removes n !! id) as [[? ?]|]; [destruct (ord_geb _ _)|]; apply Hi. }
    intros id'. simpl. rewrite keep_newest_lookup. specialize (Hr id').
    destruct (removes ms !! id) as [r|] eqn:Er; simpl in Hid; rewrite <-Hid; simpl.
    + destruct (ord_geb _ _) eqn:Eg; simpl; rewrite ?lookup_insert; repeat case_decide; simplify_eq;
        rewrite ?Er; simpl; rewrite ?Eg; done.
    + rewrite lookup_insert. repeat case_decide; simplify_eq; by rewrite ?Er.
Qed.

Lemma same_run l ms n : same_marks ms n → same_marks (crdt_run ms l) (fold_left naive_step l n).
Proof.
  revert ms n. induction l as [|o l IH]; intros ms n H; [done|].
  unfold crdt_run in *. simpl. by apply IH, same_step.
Qed.

Lemma same_active ms n id : same_marks ms n → is_active ms id = naive_is_active n id.
Proof.
  intros [Hi Hr]. specialize (Hi id). specialize (Hr id). unfold is_active, naive_is_active.
  destruct (intervals ms !! id) as [i|], (n_intervals n !! id) as [j|]; try discriminate Hi; [|done].
  injection Hi as Hid _ _ _ _. rewrite <-Hr. destruct (removes ms !! id) as [r|]; simpl; [|done].
  by rewrite Hid.
Qed.

(** Iterations of two maps with equal images. *)
Lemma btree_values_ext `{Countable K, !Ord K, !OrdLaws K} {A B C} (f : A → C) (g : B → C)
    (m1 : gmap K A) (m2 : gmap K B) :
  (∀ k, f <$> m1 !! k = g <$> m2 !! k) → f <$> btree_values m1 = g <$> btree_values m2.
Proof.
  intros Hm.
  assert (Hsort : ∀ {D} (h : D → C) m, StronglySorted entry_le (prod_map (@id K) h <$> btree_iter m)).
  { intros D h m. eapply StronglySorted_fmap; [|apply btree_iter_sorted]. by intros [] []. }
  assert (Hkeys : ∀ {D} (h : D → C) m, (prod_map (@id K) h <$> btree_iter m).*1 = btree_keys m).
  { intros D h m. unfold btree_keys. rewrite <-list_fmap_compose. by apply list_fmap_ext. }
  assert (Hin : ∀ {D} (h : D → C) m k c,
    (k, c) ∈ prod_map (@id K) h <$> btree_iter m ↔ h <$> m !! k = Some c).
  { intros D h m k c. rewrite list_elem_of_fmap, fmap_Some. split.
    - intros ([k' d] & [= -> ->] & Hd%elem_of_btree_iter). eauto.
    - intros (d & Hd & ->). exists (k, d). by rewrite elem_of_btree_iter. }
  assert (Heq : prod_map (@id K) f <$> btree_iter m1 = prod_map (@id K) g <$> btree_iter m2).
  { apply (StronglySorted_unique_strong entry_le); [|apply Hsort..|].
    - intros [k1 c1] [k2 c2] H1%Hin H2%Hin Hle Hge.
      assert (k1 = k2) as <- by by apply (anti_symm ord_le). rewrite Hm in H1. congruence.
    - apply NoDup_Permutation; [apply (NoDup_fmap_1 fst); rewrite Hkeys; apply NoDup_btree_keys..|].
      intros [k c]. by rewrite !Hin, Hm. }
  apply (f_equal (fmap snd)) in Heq. rewrite <-!list_fmap_compose in Heq.
  unfold btree_values. rewrite <-!list_fmap_compose.
  etrans; [|etrans; [exact Heq|]]; by apply list_fmap_ext.
Qed.

Lemma same_marks_at ms n order len :
  same_marks ms n → naive_marks_at n order len = marks_at_positions ms order len.
Proof.
  intros Hs. unfold naive_marks_at, marks_at_positions, active_intervals. f_equal.
  pose proof (btree_values_ext bare naive_bare _ _ (proj1 Hs)) as Hv.
  generalize (replicate (len + 1) (@nil OpId)). revert Hv.
  generalize (btree_values (n_intervals n)) as l2. generalize (btree_values (intervals ms)) as l1.
  induction l1 as [|i l1 IH]; intros [|j l2] Hv marks; try discriminate Hv; [done|].
  rewrite !fmap_cons in Hv. injection Hv as Hid Hkind Hstart Hend Hop Hv. simpl. rewrite (IH _ Hv), filter_cons.
  unfold naive_push. rewrite <-(same_active ms n) by done. rewrite <-Hid.
  destruct (is_active ms (mi_id i)) eqn:Hact.
  - rewrite (decide_True (P:=true = true)) by done. simpl. f_equal.
    unfold push_marks. by rewrite Hstart, Hend.
  - by rewrite (decide_False (P:=false = true)).
Qed.

Lemma run_end_ext fuel marks marks' cur len stop :
  (∀ i, stop ≤ i → marks !! i = marks' !! i) →
  run_end fuel marks cur len stop = run_end fuel marks' cur len stop.
Proof.
  revert stop. induction fuel as [|fuel IH]; intros stop H; simpl; [done|].
  rewrite H by lia. case_decide; [|done]. apply IH. intros i Hi. apply H. lia.
Qed.

Lemma naive_loop_ext fuel marks marks' len start :
  (∀ i, start ≤ i → marks !! i = marks' !! i) →
  naive_spans_loop fuel marks len start = spans_loop fuel marks' len start.
Proof.
  revert marks' start. induction fuel as [|fuel IH]; intros marks' start H; simpl; [done|].
  case_decide; [|done]. rewrite <-H by lia.
  assert (H' : ∀ i, start + 1 ≤ i → marks !! i = <[start := []]> marks' !! i).
  { intros i Hi. rewrite list_lookup_insert_ne by lia. apply H. lia. }
  rewrite <-(run_end_ext len marks _ _ _ _ H'). f_equal. apply IH. intros i Hi. apply H'.
  destruct (run_end_spec len marks (default [] (marks !! start)) len (start + 1)) as ([? ?] & _); lia.
Qed.

(** ** Attributes under an ascending delivery *)

(** The values of the registers are those of the oracle, and no register is
    newer than [bound]. *)
Definition attrs_agree (bound : OpId) (i : MarkInterval) (j : NaiveMarkInterval) : Prop :=
  (∀ k, lww_value <$> mi_attrs i !! k = ni_attrs j !! k) ∧
  (∀ k r, mi_attrs i !! k = Some r → ord_le (lww_op_id r) bound).

Definition same_attrs (bound : OpId) (ms : MarkSet) (n : NaiveMarkSet) : Prop :=
  ∀ id i j, intervals ms !! id = Some i → n_intervals n !! id = Some j → attrs_agree bound i j.

Lemma attrs_agree_mono b b' i j : ord_le b b' → attrs_agree b i j → attrs_agree b' i j.
Proof. intros Hb [Hv Ho]. split; [done|]. intros k r Hr. etrans; [by eapply Ho|done]. Qed.

Lemma attrs_agree_merge bound op a i j id k s t :
  ord_le bound op →
  attrs_agree bound (default (mkInterval id k s t ∅ op) i)
    (default (mkNaiveInterval id k s t ∅ op) j) →
  attrs_agree op (set_mark_entry id k s t a op i) (naive_set_entry id k s t a op j).
Proof.
  intros Hb [Hv Ho].
  assert (Hn : ni_attrs (naive_set_entry id k s t a op j) =
    a ∪ ni_attrs (default (mkNaiveInterval id k s t ∅ op) j)).
  { unfold naive_set_entry. simpl. rewrite fold_insert_union.
    assert (btree_collect (btree_iter a) = a) as ->.
    { apply map_eq. intros x. apply option_eq. intros v.
      rewrite btree_collect_lookup by apply NoDup_btree_keys. apply elem_of_btree_iter. }
    by destruct (ord_geb _ _). }
  assert (Hm : mi_attrs (set_mark_entry id k s t a op i) =
    merge_attrs a op (mi_attrs (default (mkInterval id k s t ∅ op) i))).
  { rewrite entry_attrs. by destruct i. }
  split.
  - intros x. rewrite Hm, Hn, merge_attrs_lookup, lookup_union. specialize (Hv x). specialize (Ho x).
    destruct (a !! x) as [v|]; [|rewrite Hv; by rewrite (left_id_L None _)].
    rewrite union_Some_l. simpl. f_equal. destruct (mi_attrs _ !! x) as [r|]; [|done].
    unfold Lww.set. replace (ord_geb op (lww_op_id r)) with true; [done|].
    symmetry. apply ord_geb_le. etrans; [by apply Ho|done].
  - intros x r. rewrite Hm, merge_attrs_lookup. specialize (Ho x).
    destruct (a !! x) as [v|]; [|intros Hr; etrans; [by apply Ho|done]].
    intros [= <-]. destruct (mi_attrs _ !! x) as [r|]; [|apply ord_le_lt_eq; by right].
    unfold Lww.set. destruct (ord_geb _ _); simpl; [apply ord_le_lt_eq; by right|].
    etrans; [by apply Ho|done].
Qed.

Lemma same_attrs_step bound ms n o :
  same_marks ms n → same_attrs bound ms n → ord_le bound (mark_op_id o) →
  same_attrs (mark_op_id o) (mark_step ms o) (naive_step n o).
Proof.
  intros [Hi _] Ha Hle id' i j. destruct o as [id k s t a op|id ob op]; simpl in *.
  - rewrite !lookup_insert. case_decide as He.
    + intros [= <-] [= <-]. specialize (Hi id). specialize (Ha id).
      apply (attrs_agree_merge bound); [done|..];
        destruct (intervals ms !! id), (n_intervals n !! id); try discriminate Hi; simpl; eauto; try done.
    + intros H1 H2. eapply attrs_agree_mono; [done|by eapply Ha].
  - rewrite remove_mark_newest. simpl. intros H1 H2.
    eapply attrs_agree_mono; [done|]. eapply Ha; [done|].
    unfold naive_remove_mark in H2. destruct (n_removes n !! id) as [[? ?]|]; [destruct (ord_geb _ _)|]; done.
Qed.

Lemma same_attrs_run l ms n bound :
  same_marks ms n → same_attrs bound ms n → StronglySorted ord_le (bound :: (mark_op_id <$> l)) →
  ∃ bound', same_attrs bound' (crdt_run ms l) (fold_left naive_step l n).
Proof.
  revert ms n bound. induction l as [|o l IH]; intros ms n bound Hs Ha Hl; [by exists bound|].
  unfold crdt_run in *. simpl. apply StronglySorted_inv in Hl as [Hl Hb]. rewrite fmap_cons in Hl, Hb.
  apply Forall_cons in Hb as [Hb _]. eapply IH; [by apply same_step|by eapply same_attrs_step|done].
Qed.

(** ** Claims *)

(** On a delivery without gaps, in whatever order and message split it
    arrives, the production log and the naive log agree: the same operations,
    the same state vector, and the same answer to every delta request. *)
Theorem sync_oracle_agrees (ms : list ChangeMessage) :
  let l := ms ≫= msg_ops in
  Forall valid_counter l → unique_ids l → Forall (λ op, history_complete l (sop_id op)) l →
  let st := receive ms sync_new in
  let o := so_run l in
  ops st = so_ops o ∧ state_vector st = so_state_vector o ∧
  ∀ since, encode_changes_since since st =
    inr (mkChanges since ((λ kv, mkOperation kv.1 kv.2) <$> so_changes_since since o)).
Proof.
  intros l Hv Hu Hh st o. destruct (receive_spec ms Hv Hu) as (Hi & Hq & (_&_&_&Hfl) & Hc).
  destruct (history_frontier ms Hv Hu) as [Hpre Hcomp]. fold l in Hc, Hcomp.
  fold st in Hi, Hfl, Hc, Hpre, Hcomp.
  assert (Hops : ops st = so_ops o).
  { apply map_eq. intros id. apply option_eq. intros pl.
    unfold o, so_run. rewrite so_run_lookup; [|done|intros; left; apply lookup_empty].
    simpl. rewrite lookup_empty. destruct (content_split st id Hi) as [-> _].
    rewrite Forall_forall in Hh. split.
    - case_decide; [|done]. intros Hin%Hc. by right.
    - intros [|Hin]; [done|]. rewrite decide_True by apply Hcomp, (Hh _ Hin). by apply Hc. }
  split_and!; [done| |].
  - unfold so_state_vector. rewrite <-Hops.
    change (state_vector st = fold_left (λ sv id, observe_vector id sv) (btree_keys (ops st)) StateVectorOps.new).
    pose proof (λ p, observe_all_seen (btree_keys (ops st)) StateVectorOps.new p) as Hobs.
    apply sv_ext; [apply Hi|by apply (Hobs 0%N)|intros p..].
    + destruct (decide (sv_seen (state_vector st) p = 0)%N) as [->|Hne]; [lia|].
      apply (proj1 (Hobs p) (op_at p (sv_seen (state_vector st) p))).
      apply elem_of_btree_keys, Hpre. lia.
    + destruct (Hobs p) as (_ & _ & [->|(id & Hid & <- & ->)] & _); [rewrite sv_seen_new; lia|].
      apply elem_of_btree_keys in Hid. apply (li_ops _ Hi) in Hid. lia.
  - intros since. unfold encode_changes_since. rewrite Hfl.
    replace (floor_exceeds (delta_floor sync_new) since) with false.
    + by rewrite so_changes_filter, Hops.
    + symmetry. apply floor_exceeds_spec. intros p. simpl. rewrite sv_seen_new. lia.
Qed.

Lemma sync_oracle_agrees_witness :
  state_vector (receive sample_messages sync_new) =
    so_state_vector (so_run (sample_messages ≫= msg_ops)) ∧
  sv_seen (so_state_vector (so_run (sample_messages ≫= msg_ops))) 1 = 3%N.
Proof.
  split; [|by vm_compute]. apply (sync_oracle_agrees sample_messages).
  - repeat constructor; by vm_compute.
  - solve_unique.
  - apply Forall_forall. intros op Hop c Hc. exists [Byte.x61].
    assert (c = 1%N ∨ c = 2%N ∨ c = 3%N) as Hcs.
    { simpl in Hop. rewrite !elem_of_cons in Hop.
      destruct Hop as [->|[->|[->|Hop]]]; [simpl in Hc; lia..|]. by apply not_elem_of_nil in Hop. }
    assert (peer (sop_id op) = 1%N) as ->.
    { simpl in Hop. rewrite !elem_of_cons in Hop.
      destruct Hop as [->|[->|[->|Hop]]]; [done..|]. by apply not_elem_of_nil in Hop. }
    destruct Hcs as [->|[->| ->]]; simpl; rewrite !elem_of_cons; auto.
Defined.

(** After the same mark operations, in the same order, the production mark
    set and the naive one hold the same intervals and removals, agree on which
    intervals are active and render the same spans.  When the operations arrive
    with ascending ids they also agree on every attribute. *)
Theorem mark_oracle_agrees (l : list MarkOp) :
  let ms := crdt_run markset_new l in
  let n := naive_run l in
  same_marks ms n ∧
  (∀ id, is_active ms id = naive_is_active n id) ∧
  (∀ order len, render_spans ms order len = naive_render_spans n order len) ∧
  (StronglySorted ord_le (mark_op_id <$> l) →
   ∀ id i j k, interval ms id = Some i → n_intervals n !! id = Some j →
     lww_value <$> mi_attrs i !! k = ni_attrs j !! k).
Proof.
  intros ms n. assert (H0 : same_marks markset_new naive_new) by (split; intros id; done).
  assert (Hs : same_marks ms n) by by apply same_run.
  split_and!; [done|intros id; by apply same_active| |].
  - intros order len. unfold render_spans, naive_render_spans.
    rewrite (same_marks_at ms n) by done. symmetry. by apply naive_loop_ext.
  - intros Hl id i j k Hi Hj.
    destruct l as [|o l]; [by unfold ms, interval, crdt_run in Hi; simpl in Hi; rewrite lookup_empty in Hi|].
    destruct (same_attrs_run (o :: l) markset_new naive_new (mark_op_id o)) as [b Hb].
    + done.
    + intros x ? ? Hx. simpl in Hx. by rewrite lookup_empty in Hx.
    + rewrite fmap_cons in Hl |- *. constructor; [done|]. constructor; [apply ord_le_lt_eq; by right|].
      by apply StronglySorted_inv in Hl as [_ Hl].
    + by apply (Hb id i j Hi Hj).
Qed.

Lemma mark_oracle_agrees_witness :
  let ms := crdt_run markset_new mark_history in
  let n := naive_run mark_history in
  render_spans ms unit_order 4 = naive_render_spans n unit_order 4 ∧
  (∀ i j, interval ms mark_a = Some i → n_intervals n !! mark_a = Some j →
     lww_value <$> mi_attrs i !! "k" = ni_attrs j !! "k") ∧
  ni_attrs <$> n_intervals n !! mark_a = Some {["k" := MarkBool false]}.
Proof.
  split_and!; [apply (mark_oracle_agrees mark_history)| |by vm_compute].
  intros i j. apply (mark_oracle_agrees mark_history). unfold mark_history. csimpl.
  repeat constructor; by vm_compute.
Defined.
