(* ===== verification/SequenceView.v ===== *)
(** * What single operations do to the visible list

    For operations that are ready and that nothing waits for, the effect on the
    vector of elements is a local splice: an insert adds one element, a delete
    or an update rewrites one.  Clients of the sequence (tables, text, marks)
    reason with these lemmas instead of the document order. *)

From S2P Require Import Prelude Core Sequence SequenceOrder SequenceInv SequenceRefine.
From S2P Require Import SequenceProps.

Section view.
Context {T : Type} (inc : bool).
Implicit Types s : Sequence T.

Definition same_buffers s s' : Prop :=
  pending_inserts s' = pending_inserts s ∧ pending_deletes s' = pending_deletes s.

Lemma view_insert after id v ro s :
  sequence_inv s → not_awaited id s → emap s !! id = None → anchored (emap s) after = true →
  let s' := apply inc (Insert after id v ro) s in
  sequence_inv s' ∧ same_buffers s s' ∧
  ∃ eu ev, seq_elements s = eu ++ ev ∧
    seq_elements s' = eu ++ mkElement id (Some v) after ro :: ev.
Proof.
  intros Hinv [Hni Hnd] Hfresh Ha s'. subst s'.
  destruct (apply_spec inc (Insert after id v ro) s Hinv) as [Hinv' Hr].
  rewrite rga_apply_insert_fresh in Hr by done.
  injection Hr as Hm Hpi Hpd. split_and!; [done..|].
  destruct (inv_ordered _ Hinv) as (Hk & Ho & Hdup & Hdom).
  set (e := mkElement id (Some v) after ro) in *.
  destruct (order_leaf (emap s) e (element_ids s)) as (u & w & Huv & Hoe & _); try done.
  { intros a Hae. change (after = Some a) in Hae. subst after. unfold anchored in Ha. by apply bool_decide_eq_true in Ha. }
  apply fmap_app_inv in Huv as (eu & ev & -> & -> & Hels). exists eu, ev. split; [done|].
  pose proof (inv_canonical _ Hinv') as Hc'. unfold canonical in Hc'. rewrite Hm in Hc'.
  pose proof (dfs_det _ _ _ _ Hc' Hoe) as Hids.
  apply elements_unique; [apply Hinv'|by rewrite fmap_app|].
  change (element_map_of (seq_elements ?x)) with (emap x). rewrite Hm.
  change (rga_map (rga_of s)) with (element_map_of (seq_elements s)).
  transitivity (element_map_of (seq_elements s ++ [e])); [by rewrite element_map_snoc|].
  apply element_map_perm; rewrite Hels.
  - rewrite fmap_app. apply NoDup_app. rewrite <-Hels. split_and!; [done| |constructor; [set_solver|constructor]].
    intros k Hin%Hdom ->%list_elem_of_singleton.
    change (is_Some (emap s !! id)) in Hin. rewrite Hfresh in Hin. by destruct Hin.
  - rewrite <-(Permutation_middle eu ev e). by rewrite <-Permutation_cons_append.
Qed.

(** Rewriting the value of one present element. *)
Lemma view_set_value s id i v :
  sequence_inv s → seq_index s !! id = Some i →
  let s' := with_elements (alter (set_value v) i) s in
  sequence_inv s' ∧ same_buffers s s' ∧
  ∃ eu e ev, emap s !! id = Some e ∧ seq_elements s = eu ++ e :: ev ∧
    seq_elements s' = eu ++ set_value v e :: ev.
Proof.
  intros Hinv Hi s'. subst s'.
  destruct (set_value_spec s id i v) as (Hwf' & Hrga & Hids & Hcan); [apply Hinv|done|].
  split_and!; [|done..|].
  - split; [done|by apply Hcan, Hinv|]. rewrite Hrga.
    destruct (inv_pending _ Hinv) as [Hpi Hpd]. simpl in *.
    split; simpl; intros k l Hl.
    + destruct (Hpi k l Hl) as (? & ? & ?). split_and!; [|done..].
      rewrite lookup_alter_None. done.
    + destruct (Hpd k l Hl) as (? & ? & ?). split_and!; [|done..].
      rewrite lookup_alter_None. done.
  - pose proof (proj1 (wf_index _ (inv_wf _ Hinv) _ _) Hi) as Hi'. unfold element_ids in Hi'.
    rewrite list_lookup_fmap, fmap_Some in Hi'. destruct Hi' as (e & He & ->).
    exists (take i (seq_elements s)), e, (drop (S i) (seq_elements s)).
    split_and!; [by eapply element_map_at; [apply Hinv|]|by rewrite take_drop_middle|].
    simpl. rewrite <-(take_drop_middle _ _ _ He) at 1.
    rewrite alter_app_r_alt; rewrite length_take_le;
      [by rewrite Nat.sub_diag| | |]; try apply lookup_lt_Some in He; lia.
Qed.

Lemma view_delete target d s :
  sequence_inv s → is_Some (emap s !! target) →
  let s' := apply inc (Delete target d) s in
  sequence_inv s' ∧ same_buffers s s' ∧
  ∃ eu e ev, emap s !! target = Some e ∧ seq_elements s = eu ++ e :: ev ∧
    seq_elements s' = eu ++ set_value None e :: ev.
Proof.
  intros Hinv Hin. apply wf_index_is_Some in Hin as [i Hi]; [|apply Hinv].
  unfold apply, apply_now, apply_delete. rewrite Hi. by apply view_set_value.
Qed.

Lemma view_update id v s :
  sequence_inv s → is_Some (emap s !! id) →
  let s' := update_value id v s in
  sequence_inv s' ∧ same_buffers s s' ∧
  ∃ eu e ev, emap s !! id = Some e ∧ seq_elements s = eu ++ e :: ev ∧
    seq_elements s' = eu ++ set_value (Some v) e :: ev.
Proof.
  intros Hinv Hin. apply wf_index_is_Some in Hin as [i Hi]; [|apply Hinv].
  unfold update_value. rewrite Hi. by apply view_set_value.
Qed.

Lemma emap_elem_of s id e :
  sequence_inv s → emap s !! id = Some e ↔ e ∈ seq_elements s ∧ elem_id e = id.
Proof. intros Hinv. apply element_map_lookup, Hinv. Qed.

Lemma get_element_emap s id : sequence_inv s → get_element s id = emap s !! id.
Proof. intros Hinv. apply wf_get_element, Hinv. Qed.

Lemma get_element_elem_of s id e :
  sequence_inv s → get_element s id = Some e ↔ e ∈ seq_elements s ∧ elem_id e = id.
Proof. intros Hinv. rewrite get_element_emap by done. by apply emap_elem_of. Qed.

(** Every anchor of an element is itself an element. *)
Lemma anchor_present s e a :
  sequence_inv s → e ∈ seq_elements s → elem_after e = Some a → is_Some (emap s !! a).
Proof.
  intros Hinv He Ha. destruct (inv_ordered _ Hinv) as (Hk & Ho & _ & Hdom).
  eapply order_anchor; [done..| |done]. by apply emap_elem; [apply Hinv|].
Qed.

(** Position of an insert that sorts before everything with its anchor. *)
Lemma view_insert_first after id v ro s :
  sequence_inv s → not_awaited id s → emap s !! id = None → anchored (emap s) after = true →
  (∀ e', e' ∈ seq_elements s → elem_after e' = after →
     compare_siblings (mkElement id (Some v) after ro) e' = Lt) →
  let s' := apply inc (Insert after id v ro) s in
  let e := mkElement id (Some v) after ro in
  match after with
  | None => seq_elements s' = e :: seq_elements s
  | Some a => ∃ eu ea ev, elem_id ea = a ∧ seq_elements s = eu ++ ea :: ev ∧
      seq_elements s' = eu ++ ea :: e :: ev
  end.
Proof.
  intros Hinv Hna Hfresh Ha Hfirst s' e.
  destruct (view_insert after id v ro s Hinv Hna Hfresh Ha) as (Hi' & _ & eu & ev & Hs & Hs').
  fold s' e in Hi', Hs'.
  assert (Hanc : ∀ a, after = Some a → is_Some (emap s !! a)).
  { intros a ->. by apply bool_decide_eq_true in Ha. }
  pose proof (insert_adjacent_spec inc after id v ro s Hinv Hna Hfresh Hanc Hfirst) as Hadj.
  fold s' in Hadj. unfold element_ids in Hadj. rewrite Hs' in Hadj.
  assert (Hnd : NoDup (elem_id <$> eu ++ e :: ev)).
  { rewrite <-Hs'. apply Hi'. }
  rewrite fmap_app in Hadj, Hnd. simpl in Hadj, Hnd. destruct after as [a|].
  - destruct (Hanc a eq_refl) as [ea Hea].
    assert (Hidx : ∃ i, seq_index s !! a = Some i) by (apply wf_index_is_Some; [apply Hinv|eauto]).
    destruct Hidx as [i Hi]. rewrite Hi in Hadj. simpl in Hadj.
    pose proof (proj1 (wf_index _ (inv_wf _ Hinv) _ _) Hi) as Hia.
    destruct (NoDup_split_unique _ _ _ _ _ Hadj Hnd) as [Hu _].
    unfold element_ids in Hia. rewrite list_lookup_fmap, fmap_Some in Hia.
    destruct Hia as (ea' & Hia & ->).
    rewrite <-fmap_take in Hu. apply (f_equal length) in Hu. rewrite !length_fmap in Hu.
    pose proof (lookup_lt_Some _ _ _ Hia). rewrite length_take_le in Hu by lia.
    assert (Heu : eu = take (S i) (seq_elements s)) by (rewrite Hs, <-Hu; by rewrite take_app_length).
    assert (Hev : ev = drop (S i) (seq_elements s)) by (rewrite Hs, <-Hu; by rewrite drop_app_length).
    exists (take i (seq_elements s)), ea', (drop (S i) (seq_elements s)).
    split_and!; [done|by rewrite take_drop_middle|].
    rewrite Hs', Heu, Hev, (take_S_r _ _ _ Hia). by rewrite <-(assoc_L (++)).
  - destruct eu as [|e0 eu]; [simpl in *; by rewrite Hs', Hs|]. exfalso.
    simpl in Hadj, Hnd. injection Hadj as He0 _. rewrite He0 in Hnd.
    apply NoDup_cons in Hnd as [Hn _]. set_solver.
Qed.

(** Behind an element nothing is anchored to, the insert is adjacent. *)
Lemma view_insert_after a id v ro s eu ea ev :
  sequence_inv s → not_awaited id s → emap s !! id = None →
  seq_elements s = eu ++ ea :: ev → elem_id ea = a →
  (∀ e', e' ∈ seq_elements s → elem_after e' ≠ Some a) →
  seq_elements (apply inc (Insert (Some a) id v ro) s) =
    eu ++ ea :: mkElement id (Some v) (Some a) ro :: ev.
Proof.
  intros Hinv Hna Hfresh Hs <- Hleaf.
  assert (Hin : emap s !! elem_id ea = Some ea).
  { apply emap_elem; [apply Hinv|]. rewrite Hs. set_solver. }
  destruct (view_insert_first (Some (elem_id ea)) id v ro s) as (eu' & ea' & ev' & Hid & Hs1 & Hs');
    [done..|simpl; apply bool_decide_eq_true; eauto|intros e' He' Hae; by destruct (Hleaf e' He')|].
  assert (Hea : ea' = ea).
  { assert (emap s !! elem_id ea' = Some ea'); [|congruence].
    apply emap_elem; [apply Hinv|]. rewrite Hs1. set_solver. }
  subst ea'. rewrite Hs'. rewrite Hs in Hs1.
  destruct (NoDup_split_unique eu eu' ea ev ev' Hs1) as [<- <-]; [|done].
  rewrite <-Hs. eapply (NoDup_fmap_1 elem_id), Hinv.
Qed.
End view.
