(* ===== verification/Table.v ===== *)
(** * Tables: replicated rows, columns and cells

    Models [block_id_from_op], [causal_write_wins], [TableCell] and [Table] of
    [src/src/doc/mod.rs]: rows and columns are replicated sequences, cells are
    registers that prefer the causally later write, and moves change a
    placement without changing the logical identity of what they move.  Row and
    column moves follow the same protocol, written once over the interface
    [Placed]. *)

From S2P Require Import Prelude Core Sequence.

(** [Uuid], a 128-bit integer. *)
Abbreviation Uuid := N (only parsing).
Abbreviation RowId := N (only parsing).
Abbreviation ColumnId := N (only parsing).
Abbreviation CellContent := string (only parsing).

(** [(peer as u128) << 64 | counter as u128]. *)
Definition block_id_from_op (op : OpId) : Uuid :=
  N.lor (N.shiftl (peer op) 64) (counter op).

(** ** Causal writes *)

(** [observed.get(id.peer).unwrap_or(0) >= id.counter]. *)
Definition observes (observed : StateVector) (id : OpId) : bool :=
  (counter id <=? sv_seen observed (peer id))%N.

Definition causal_write_wins (current_id : OpId) (current_observed : StateVector)
    (incoming_id : OpId) (incoming_observed : StateVector) : bool :=
  let incoming_observed_current := observes incoming_observed current_id in
  let current_observed_incoming := observes current_observed incoming_id in
  incoming_observed_current || (negb current_observed_incoming && ord_geb incoming_id current_id).

Record TableCell := mkCell {
  cell_content : CellContent;
  cell_op_id : OpId;
  cell_observed : StateVector;
}.

Definition cell_new (value : CellContent) (op_id : OpId) (observed : StateVector) : TableCell :=
  mkCell value op_id observed.

Definition cell_set (value : CellContent) (op_id : OpId) (observed : StateVector)
    (c : TableCell) : TableCell :=
  let incoming_observed_current := observes observed (cell_op_id c) in
  let current_observed_incoming := observes (cell_observed c) op_id in
  if incoming_observed_current || (negb current_observed_incoming && ord_geb op_id (cell_op_id c))
  then mkCell value op_id observed else c.

(** ** Data *)

Inductive ColumnAlignment := Left | Center | Right.
Record ColumnDef := mkColumnDef { cd_alignment : ColumnAlignment }.

Record TableColumn := mkColumn {
  column_id : ColumnId;
  column_elem_id : OpId;
  column_deleted : LwwRegister bool;
  column_alignment : LwwRegister ColumnAlignment;
  column_alignment_observed : StateVector;
  column_placement_observed : StateVector;
}.

Record TableRow := mkRow {
  row_id : RowId;
  row_elem_id : OpId;
  row_deleted : LwwRegister bool;
  row_placement_observed : StateVector;
}.

Record CellAddress := mkAddress { address_row : RowId; address_column : ColumnId }.

Record PendingTableMove := mkTableMove {
  move_logical_id : Uuid;
  move_target : OpId;
  move_id : OpId;
  move_after : option OpId;
  move_right_origin : option OpId;
  move_observed : StateVector;
}.

Record PendingColumnAlignment := mkAlignment {
  align_column : ColumnId;
  align_to : ColumnAlignment;
  align_id : OpId;
  align_observed : StateVector;
}.

#[export] Instance ColumnAlignment_eq_dec : EqDecision ColumnAlignment.
Proof. solve_decision. Defined.
#[export] Instance TableCell_eq_dec : EqDecision TableCell.
Proof. solve_decision. Defined.
#[export] Instance TableColumn_eq_dec : EqDecision TableColumn.
Proof. solve_decision. Defined.
#[export] Instance TableRow_eq_dec : EqDecision TableRow.
Proof. solve_decision. Defined.
#[export] Instance CellAddress_eq_dec : EqDecision CellAddress.
Proof. solve_decision. Defined.
#[export] Instance CellAddress_countable : Countable CellAddress.
Proof.
  apply (inj_countable' (λ a, (address_row a, address_column a)) (λ p, mkAddress p.1 p.2)).
  by intros [].
Defined.

Record Table := mkTable {
  table_id : Uuid;
  table_elem_id : OpId;
  table_deleted : LwwRegister bool;
  columns : Sequence TableColumn;
  rows : Sequence TableRow;
  cells : gmap CellAddress TableCell;
  pending_row_moves : list PendingTableMove;
  pending_column_moves : list PendingTableMove;
  pending_column_alignments : list PendingColumnAlignment;
}.

Definition table_new (id : Uuid) (elem_id op_id : OpId) : Table :=
  mkTable id elem_id (Lww.new false op_id) sequence_new sequence_new ∅ [] [] [].

Definition header_row_id (t : Table) : RowId := table_id t.

(** Field updates. *)
Definition set_rows (f : Sequence TableRow → Sequence TableRow) (t : Table) : Table :=
  mkTable (table_id t) (table_elem_id t) (table_deleted t) (columns t) (f (rows t)) (cells t)
    (pending_row_moves t) (pending_column_moves t) (pending_column_alignments t).
Definition set_columns (f : Sequence TableColumn → Sequence TableColumn) (t : Table) : Table :=
  mkTable (table_id t) (table_elem_id t) (table_deleted t) (f (columns t)) (rows t) (cells t)
    (pending_row_moves t) (pending_column_moves t) (pending_column_alignments t).
Definition set_cells (f : gmap CellAddress TableCell → gmap CellAddress TableCell)
    (t : Table) : Table :=
  mkTable (table_id t) (table_elem_id t) (table_deleted t) (columns t) (rows t) (f (cells t))
    (pending_row_moves t) (pending_column_moves t) (pending_column_alignments t).
Definition set_row_moves (l : list PendingTableMove) (t : Table) : Table :=
  mkTable (table_id t) (table_elem_id t) (table_deleted t) (columns t) (rows t) (cells t)
    l (pending_column_moves t) (pending_column_alignments t).
Definition set_column_moves (l : list PendingTableMove) (t : Table) : Table :=
  mkTable (table_id t) (table_elem_id t) (table_deleted t) (columns t) (rows t) (cells t)
    (pending_row_moves t) l (pending_column_alignments t).
Definition set_alignments (l : list PendingColumnAlignment) (t : Table) : Table :=
  mkTable (table_id t) (table_elem_id t) (table_deleted t) (columns t) (rows t) (cells t)
    (pending_row_moves t) (pending_column_moves t) l.

(** ** Things with a logical identity and a current placement *)

Class Placed (V : Type) := {
  pl_id : V → Uuid;
  pl_elem : V → OpId;
  pl_observed : V → StateVector;
  (** [v.elem_id = id]. *)
  pl_move : OpId → V → V;
  (** [v.elem_id = id; v.placement_observed = observed]. *)
  pl_place : OpId → StateVector → V → V;
  (** What a move of a deleted item materialises. *)
  pl_tombstone : Uuid → OpId → StateVector → V;
}.

#[export] Instance TableRow_placed : Placed TableRow := {
  pl_id := row_id;
  pl_elem := row_elem_id;
  pl_observed := row_placement_observed;
  pl_move id r := mkRow (row_id r) id (row_deleted r) (row_placement_observed r);
  pl_place id observed r := mkRow (row_id r) id (row_deleted r) observed;
  pl_tombstone logical id observed := mkRow logical id (Lww.new true id) observed;
}.

#[export] Instance TableColumn_placed : Placed TableColumn := {
  pl_id := column_id;
  pl_elem := column_elem_id;
  pl_observed := column_placement_observed;
  pl_move id c := mkColumn (column_id c) id (column_deleted c) (column_alignment c)
    (column_alignment_observed c) (column_placement_observed c);
  pl_place id observed c := mkColumn (column_id c) id (column_deleted c) (column_alignment c)
    (column_alignment_observed c) observed;
  pl_tombstone logical id observed :=
    mkColumn logical id (Lww.new true id) (Lww.new Left id) StateVectorOps.new observed;
}.

(** [iter().find(|v| v.id == logical)]. *)
Definition placed_by_id `{Placed V} (s : Sequence V) (logical : Uuid) : option V :=
  snd <$> list_find (λ v, pl_id v = logical) (sequence_iter s).

Inductive MoveOutcome := Deferred | Lost | Won.

Section moves.
Context (sequence_incremental : bool).
Context `{Placed V}.

(** [apply(Insert {..}); delete(id, id)]: the placement exists, but hidden. *)
Definition materialise (after : option OpId) (id : OpId) (v : V) (right_origin : option OpId)
    (s : Sequence V) : Sequence V :=
  sequence_delete sequence_incremental id id
    (apply sequence_incremental (Insert after id v right_origin) s).

(** The sequence part of [move_row] and [move_column]. *)
Definition move_placed (m : PendingTableMove) (s : Sequence V) : Sequence V * MoveOutcome :=
  let id := move_id m in
  match placed_by_id s (move_logical_id m) with
  | None =>
    match get_element s (move_target m), get_element s id with
    | None, _ => (s, Deferred)
    | Some _, None =>
      (materialise (move_after m) id (pl_tombstone (move_logical_id m) id (move_observed m))
         (move_right_origin m) s, Lost)
    | Some _, Some _ => (s, Lost)
    end
  | Some v =>
    let already_moved := negb (bool_decide (block_id_from_op (pl_elem v) = pl_id v)) in
    let incoming_observed_current := observes (move_observed m) (pl_elem v) in
    let current_observed_incoming := observes (pl_observed v) id in
    if already_moved && negb incoming_observed_current
       && (current_observed_incoming || ord_geb (pl_elem v) id)
    then
      match get_element s id with
      | None => (materialise (move_after m) id (pl_move id v) (move_right_origin m) s, Lost)
      | Some _ => (s, Lost)
      end
    else
      let s := sequence_delete sequence_incremental (pl_elem v) id s in
      (apply sequence_incremental
         (Insert (move_after m) id (pl_place id (move_observed m) v) (move_right_origin m)) s,
       Won)
  end.
End moves.

(** [sort_by_key(|m| m.id)]: a stable sort. *)
Definition move_le (a b : PendingTableMove) : Prop := ord_le (move_id a) (move_id b).
#[export] Instance move_le_dec : RelDecision move_le.
Proof. intros a b. unfold move_le. apply _. Defined.
Definition align_le (a b : PendingColumnAlignment) : Prop := ord_le (align_id a) (align_id b).
#[export] Instance align_le_dec : RelDecision align_le.
Proof. intros a b. unfold align_le. apply _. Defined.

Section table.
Context (sequence_incremental : bool).
Implicit Types t : Table.

(** ** Reading *)

Definition rows_in_order t : list TableRow := sequence_iter (rows t).
Definition columns_in_order t : list TableColumn := sequence_iter (columns t).
Definition row_by_id t (id : RowId) : option TableRow := placed_by_id (rows t) id.
Definition column_by_id t (id : ColumnId) : option TableColumn := placed_by_id (columns t) id.
Definition row_is_live t (id : RowId) : bool :=
  bool_decide (id = header_row_id t) || bool_decide (is_Some (row_by_id t id)).

Definition cell_value t (row : RowId) (column : ColumnId) : option CellContent :=
  if row_is_live t row then
    column_by_id t column ≫= λ _, cell_content <$> cells t !! mkAddress row column
  else None.

Definition row_cells t (row : RowId) : list CellContent :=
  (λ c, default EmptyString (cell_value t row (column_id c))) <$> columns_in_order t.

(** ** Cells and alignment *)

Definition set_cell_observed (row : RowId) (column : ColumnId) (value : CellContent)
    (op_id : OpId) (observed : StateVector) t : Table :=
  let address := mkAddress row column in
  set_cells (λ m,
    <[address := match m !! address with
                 | Some c => cell_set value op_id observed c
                 | None => cell_new value op_id observed
                 end]> m) t.

Definition set_cell (row : RowId) (column : ColumnId) (value : CellContent) (op_id : OpId) t :
    Table :=
  set_cell_observed row column value op_id StateVectorOps.new t.

Definition set_column_alignment_observed (column : ColumnId) (alignment : ColumnAlignment)
    (op_id : OpId) (observed : StateVector) t : Table :=
  match column_by_id t column with
  | None =>
    set_alignments (pending_column_alignments t ++ [mkAlignment column alignment op_id observed]) t
  | Some c =>
    let current_id := Lww.op_id (column_alignment c) in
    if observes observed current_id
       || (negb (observes (column_alignment_observed c) op_id) && ord_geb op_id current_id)
    then
      let updated := mkColumn (column_id c) (column_elem_id c) (column_deleted c)
        (Lww.new alignment op_id) observed (column_placement_observed c) in
      set_columns (update_value (column_elem_id c) updated) t
    else t
  end.

Definition set_column_alignment (column : ColumnId) (alignment : ColumnAlignment) (op_id : OpId)
    t : Table :=
  set_column_alignment_observed column alignment op_id StateVectorOps.new t.

(** ** Moves *)

Definition move_row (m : PendingTableMove) t : Table * bool :=
  match move_placed sequence_incremental m (rows t) with
  | (_, Deferred) => (set_row_moves (pending_row_moves t ++ [m]) t, false)
  | (s, Lost) => (set_rows (λ _, s) t, false)
  | (s, Won) => (set_rows (λ _, s) t, true)
  end.

Definition move_column (m : PendingTableMove) t : Table * bool :=
  match move_placed sequence_incremental m (columns t) with
  | (_, Deferred) => (set_column_moves (pending_column_moves t ++ [m]) t, false)
  | (s, Lost) => (set_columns (λ _, s) t, false)
  | (s, Won) => (set_columns (λ _, s) t, true)
  end.

Definition resolve_pending_row_moves (row : RowId) t : Table :=
  fold_left (λ t m,
    if decide (move_logical_id m = row) then (move_row m t).1
    else set_row_moves (pending_row_moves t ++ [m]) t)
    (merge_sort move_le (pending_row_moves t)) (set_row_moves [] t).

Definition resolve_pending_column_ops (column : ColumnId) t : Table :=
  let t :=
    fold_left (λ t m,
      if decide (move_logical_id m = column) then (move_column m t).1
      else set_column_moves (pending_column_moves t ++ [m]) t)
      (merge_sort move_le (pending_column_moves t)) (set_column_moves [] t) in
  fold_left (λ t a,
    if decide (align_column a = column)
    then set_column_alignment_observed column (align_to a) (align_id a) (align_observed a) t
    else set_alignments (pending_column_alignments t ++ [a]) t)
    (merge_sort align_le (pending_column_alignments t)) (set_alignments [] t).

(** ** Inserting and removing *)

Definition insert_column (after : option OpId) (alignment : ColumnAlignment)
    (header : CellContent) (op_id : OpId) t : Table :=
  let id := block_id_from_op op_id in
  let column := mkColumn id op_id (Lww.new false op_id) (Lww.new alignment op_id)
    StateVectorOps.new StateVectorOps.new in
  let t := set_columns (sequence_insert sequence_incremental after column op_id) t in
  let t := set_cell (header_row_id t) id header op_id t in
  resolve_pending_column_ops id t.

Definition insert_row (after : option OpId) (values : list (ColumnId * CellContent))
    (op_id : OpId) t : Table :=
  let id := block_id_from_op op_id in
  let row := mkRow id op_id (Lww.new false op_id) StateVectorOps.new in
  let t := set_rows (sequence_insert sequence_incremental after row op_id) t in
  let t := fold_left (λ t cv, set_cell id cv.1 cv.2 op_id t) values t in
  resolve_pending_row_moves id t.

Definition remove_row (target op_id : OpId) t : Table :=
  let t :=
    match get_element (rows t) target ≫= elem_value with
    | Some row =>
      let updated := mkRow (row_id row) (row_elem_id row)
        (Lww.set (row_deleted row) true op_id) (row_placement_observed row) in
      set_rows (update_value target updated) t
    | None => t
    end in
  set_rows (sequence_delete sequence_incremental target op_id) t.

Definition remove_column (column : ColumnId) (op_id : OpId) t : Table :=
  match column_by_id t column with
  | Some c => set_columns (sequence_delete sequence_incremental (column_elem_id c) op_id) t
  | None => t
  end.
End table.
