(* ===== verification/TableProps.v ===== *)
(** * Properties of tables

    Cell writes converge when observation agrees with the order of ids, and do
    not in general; a move relocates exactly one row or column, once, and never
    changes a cell; moves that arrive before what they move are kept and take
    effect when it arrives. *)

From S2P Require Import Prelude Core Sequence SequenceOrder SequenceInv SequenceRefine.
From S2P Require Import SequenceProps.
From S2P Require Import SequenceView Table.

(** ** Cell writes *)

(** One call of [set_cell_observed]. *)
Record CellWrite := mkCellWrite {
  write_row : RowId;
  write_column : ColumnId;
  write_cell : TableCell;
}.
Definition write_address (w : CellWrite) : CellAddress := mkAddress (write_row w) (write_column w).

Definition write_step (t : Table) (w : CellWrite) : Table :=
  set_cell_observed (write_row w) (write_column w) (cell_content (write_cell w))
    (cell_op_id (write_cell w)) (cell_observed (write_cell w)) t.
Definition write_all (l : list CellWrite) (t : Table) : Table := fold_left write_step l t.

(** The values that compete for the cell at [a]. *)
Definition candidate (t : Table) (l : list CellWrite) (a : CellAddress) (c : TableCell) : Prop :=
  cells t !! a = Some c ∨ ∃ w, w ∈ l ∧ write_address w = a ∧ write_cell w = c.

(** Ids name one write, and a write that observed another has the larger id. *)
Definition causal_ids (P : TableCell → Prop) : Prop :=
  ∀ c d, P c → P d →
    (cell_op_id c = cell_op_id d → c = d) ∧
    (observes (cell_observed c) (cell_op_id d) = true → ord_le (cell_op_id d) (cell_op_id c)).

Definition winner (P : TableCell → Prop) (c : TableCell) : Prop :=
  P c ∧ ∀ d, P d → ord_le (cell_op_id d) (cell_op_id c).

Lemma winner_unique P c d : causal_ids P → winner P c → winner P d → c = d.
Proof.
  intros HP [Hc Hcmax] [Hd Hdmax]. apply (HP c d Hc Hd).
  apply (anti_symm ord_le); auto.
Qed.

(** Under [causal_ids] the causal comparison is the comparison of ids. *)
Lemma cell_set_lww P c w :
  causal_ids P → P c → P w →
  cell_set (cell_content w) (cell_op_id w) (cell_observed w) c =
  if ord_geb (cell_op_id w) (cell_op_id c) then w else c.
Proof.
  intros HP Hc Hw. destruct (HP c w Hc Hw) as [Heq Hcw], (HP w c Hw Hc) as [_ Hwc].
  unfold cell_set. destruct w as [v id obs], c as [cv cid cobs]. simpl in *.
  destruct (ord_geb id cid) eqn:Hge.
  - destruct (observes obs cid); [done|]. simpl. destruct (observes cobs id) eqn:Ho; [|done].
    simpl. apply ord_geb_le in Hge. apply Heq.
    by apply (anti_symm ord_le), Hcw.
  - rewrite andb_false_r, orb_false_r. destruct (observes obs cid) eqn:Ho; [|done].
    exfalso. specialize (Hwc eq_refl). apply ord_geb_le in Hwc. congruence.
Qed.

Lemma write_all_winner l t a :
  causal_ids (candidate t l a) →
  match cells (write_all l t) !! a with
  | Some c => winner (candidate t l a) c
  | None => ∀ c, ¬ candidate t l a c
  end.
Proof.
  unfold write_all. induction l as [|w l IH] using rev_ind; intros HP.
  { simpl. destruct (cells t !! a) as [c|] eqn:Hc.
    - split; [by left|]. intros d [Hd|(w & ?%elem_of_nil & _)]; [|done].
      replace d with c by congruence. reflexivity.
    - intros c [Hc'|(w & ?%elem_of_nil & _)]; congruence. }
  assert (Hsplit : ∀ c, candidate t (l ++ [w]) a c ↔
    candidate t l a c ∨ write_address w = a ∧ write_cell w = c).
  { intros c. unfold candidate. setoid_rewrite elem_of_app.
    setoid_rewrite list_elem_of_singleton. naive_solver. }
  assert (HPl : causal_ids (candidate t l a)).
  { intros c d Hc Hd. apply HP; apply Hsplit; auto. }
  specialize (IH HPl). rewrite fold_left_app. simpl.
  change (mkAddress (write_row w) (write_column w)) with (write_address w).
  set (m := cells (fold_left write_step l t)) in *.
  destruct (decide (write_address w = a)) as [<-|Hne].
  - rewrite lookup_insert_eq.
    assert (Hw : candidate t (l ++ [w]) (write_address w) (write_cell w)) by (apply Hsplit; auto).
    destruct (m !! write_address w) as [c|] eqn:Hm.
    + destruct IH as [Hc Hmax].
      rewrite (cell_set_lww _ _ _ HP (proj2 (Hsplit c) (or_introl Hc)) Hw).
      destruct (ord_geb _ _) eqn:Hge.
      * apply ord_geb_le in Hge. split; [done|].
        intros d [Hd|[_ <-]]%Hsplit; [|reflexivity]. etrans; [by apply Hmax|done].
      * apply ord_geb_lt, ord_lt_le in Hge. split; [apply Hsplit; auto|].
        intros d [Hd|[_ <-]]%Hsplit; [by apply Hmax|done].
    + unfold cell_new. replace (mkCell _ _ _) with (write_cell w) by by destruct (write_cell w).
      split; [done|]. intros d [Hd|[_ <-]]%Hsplit; [by destruct (IH d)|reflexivity].
  - rewrite lookup_insert_ne by done. fold m. destruct (m !! a) as [c|].
    + destruct IH as [Hc Hmax]. split; [apply Hsplit; auto|].
      intros d [Hd|[? _]]%Hsplit; [by apply Hmax|done].
    + intros c [Hc|[? _]]%Hsplit; [by apply (IH c)|done].
Qed.

Lemma write_all_rest l t : set_cells (λ _, cells t) (write_all l t) = t.
Proof.
  unfold write_all. induction l as [|w l IH] using rev_ind; [by destruct t|].
  rewrite fold_left_app. exact IH.
Qed.

(** replicas of a table that apply the same cell writes, in any order and
    with any repetitions, show the same cells, provided that no id is used
    twice for one cell and that a write which observed another one carries the
    larger id.  The cell keeps the write with the largest id. *)
Theorem cell_writes_converge (t : Table) (l1 l2 : list CellWrite) :
  (∀ a, causal_ids (candidate t l1 a)) → (∀ w, w ∈ l1 ↔ w ∈ l2) →
  write_all l1 t = write_all l2 t ∧
  ∀ a c, cells (write_all l1 t) !! a = Some c → winner (candidate t l1 a) c.
Proof.
  intros HP Hsame.
  assert (Hcand : ∀ a c, candidate t l1 a c ↔ candidate t l2 a c).
  { intros a c. unfold candidate. by setoid_rewrite Hsame. }
  assert (HP2 : ∀ a, causal_ids (candidate t l2 a)).
  { intros a c d Hc%Hcand Hd%Hcand. by apply (HP a). }
  split.
  - pose proof (write_all_rest l1 t) as H1. pose proof (write_all_rest l2 t) as H2.
    assert (Hcells : cells (write_all l1 t) = cells (write_all l2 t)).
    { apply map_eq. intros a. pose proof (write_all_winner l1 t a (HP a)) as W1.
      pose proof (write_all_winner l2 t a (HP2 a)) as W2.
      destruct (cells (write_all l1 t) !! a) as [c|], (cells (write_all l2 t) !! a) as [d|]; [| | |done].
      - f_equal. apply (winner_unique _ _ _ (HP a) W1). destruct W2 as [Wd Wm].
        split; [by apply Hcand|]. intros e He%Hcand. auto.
      - destruct W1 as [Wc _]. destruct (W2 c). by apply Hcand.
      - destruct W2 as [Wd _]. destruct (W1 d). by apply Hcand. }
    destruct (write_all l1 t), (write_all l2 t), t. unfold set_cells in *. simpl in *. congruence.
  - intros a c Hc. pose proof (write_all_winner l1 t a (HP a)) as W. by rewrite Hc in W.
Qed.

Definition no_observed : StateVector := StateVectorOps.new.
Definition sample_table : Table := table_new 100 (mkOpId 1 1) (mkOpId 1 1).
Definition write_at (v : string) (id : OpId) (observed : StateVector) : CellWrite :=
  mkCellWrite 100 7 (mkCell v id observed).

Ltac solve_causal_ids :=
  intros a c d Hc Hd; unfold candidate in Hc, Hd;
  destruct Hc as [Hc|(w & Hw & <- & <-)]; [by vm_compute in Hc|];
  destruct Hd as [Hd|(w' & Hw' & Ha & <-)]; [by vm_compute in Hd|];
  rewrite !elem_of_cons, elem_of_nil in Hw, Hw';
  naive_solver (first [done | by vm_compute]).

Lemma cell_writes_converge_witness :
  let l1 := [write_at "a" (mkOpId 2 1) no_observed;
             write_at "b" (mkOpId 3 2) (StateVectorOps.set no_observed 1 2)] in
  let l2 := [write_at "b" (mkOpId 3 2) (StateVectorOps.set no_observed 1 2);
             write_at "a" (mkOpId 2 1) no_observed] in
  write_all l1 sample_table = write_all l2 sample_table.
Proof.
  intros l1 l2. apply (cell_writes_converge sample_table l1 l2); subst l1 l2.
  - solve_causal_ids.
  - intros w. rewrite !elem_of_cons. naive_solver.
Defined.

(** Without that proviso cell writes diverge.  Counters are issued per
    peer, so a write can observe another one and still carry the smaller id.
    Peer 1 writes with its fifth counter; peer 2 sees that write and replaces it
    with its first counter; peer 3, concurrently with both, writes with its
    third.  Peer 2's write beats peer 1's (it observed it), peer 1's beats peer
    3's and peer 3's beats peer 2's (both by id), so two replicas that receive
    the first write and then the other two in different orders end with
    different cells, although both orders respect causality. *)
Theorem concurrent_cell_writes_diverge :
  let a := write_at "a" (mkOpId 5 1) no_observed in
  let b := write_at "b" (mkOpId 1 2) (StateVectorOps.set no_observed 1 5) in
  let c := write_at "c" (mkOpId 3 3) no_observed in
  let shown l := cell_content <$> cells (write_all l sample_table) !! mkAddress 100 7 in
  shown [a; b; c] = Some "c" ∧ shown [a; c; b] = Some "b" ∧
  observes (cell_observed (write_cell b)) (cell_op_id (write_cell a)) = true ∧
  observes (cell_observed (write_cell c)) (cell_op_id (write_cell a)) = false ∧
  observes (cell_observed (write_cell c)) (cell_op_id (write_cell b)) = false.
Proof. by vm_compute. Qed.

(** ** Moves *)

Class PlacedLaws (V : Type) `{!Placed V} : Prop := {
  pl_move_id id (v : V) : pl_id (pl_move id v) = pl_id v;
  pl_place_id id o (v : V) : pl_id (pl_place id o v) = pl_id v;
  pl_place_elem id o (v : V) : pl_elem (pl_place id o v) = id;
}.
#[export] Instance TableRow_placed_laws : PlacedLaws TableRow.
Proof. by split. Qed.
#[export] Instance TableColumn_placed_laws : PlacedLaws TableColumn.
Proof. by split. Qed.

(** What holds of the rows and of the columns: the sequence invariant, every
    visible item knows its own placement, and no logical item shows twice. *)
Record placement_inv `{Placed V} (s : Sequence V) : Prop := {
  pi_seq : sequence_inv s;
  pi_elem e v : e ∈ seq_elements s → elem_value e = Some v → pl_elem v = elem_id e;
  pi_unique : NoDup (pl_id <$> sequence_iter s);
}.

(** The move's own id is new, nothing waits for it, and its anchor is there. *)
Definition move_ready {V} (m : PendingTableMove) (s : Sequence V) : Prop :=
  get_element s (move_id m) = None ∧ not_awaited (move_id m) s ∧
  anchored (emap s) (move_after m) = true.

(** A move wins over the placement of the insert, and over an earlier move when
    it is the winning causal write. *)
Definition move_wins `{Placed V} (m : PendingTableMove) (v : V) : bool :=
  bool_decide (block_id_from_op (pl_elem v) = pl_id v) ||
  causal_write_wins (pl_elem v) (pl_observed v) (move_id m) (move_observed m).

(** What a move promises: everything else stays where it is, and the moved item
    is either relocated with its identity or not touched at all, in which case
    the losing placement is recorded as a tombstone. *)
Definition move_outcome `{Placed V} (m : PendingTableMove) (s s' : Sequence V) (won : bool) : Prop :=
  let others s := filter (λ v, pl_id v ≠ move_logical_id m) (sequence_iter s) in
  placement_inv s' ∧ others s' = others s ∧
  match placed_by_id s (move_logical_id m) with
  | Some v =>
    if move_wins m v
    then won = true ∧
         placed_by_id s' (move_logical_id m) = Some (pl_place (move_id m) (move_observed m) v)
    else won = false ∧ sequence_iter s' = sequence_iter s ∧
         (elem_value <$> get_element s' (move_id m)) = Some None
  | None =>
    won = false ∧ sequence_iter s' = sequence_iter s ∧
    (get_element s (move_target m) ≠ None →
     (elem_value <$> get_element s' (move_id m)) = Some None)
  end.

Section move_lemmas.
Context (inc : bool) `{!Placed V, !PlacedLaws V}.
Implicit Types s : Sequence V.

Lemma placed_by_id_Some s l v : placed_by_id s l = Some v → v ∈ sequence_iter s ∧ pl_id v = l.
Proof.
  unfold placed_by_id. intros ([i v'] & Hf & ->)%fmap_Some.
  apply list_find_Some in Hf as (Hi & Hl & _). split; [|done].
  by eapply list_elem_of_lookup_2.
Qed.

Lemma placed_by_id_unique s v :
  NoDup (pl_id <$> sequence_iter s) → v ∈ sequence_iter s → placed_by_id s (pl_id v) = Some v.
Proof.
  intros Hnd Hv. destruct (placed_by_id s (pl_id v)) as [w|] eqn:Hp.
  - apply placed_by_id_Some in Hp as [Hw Heq]. f_equal.
    by eapply (NoDup_fmap_inj_on pl_id (sequence_iter s)).
  - unfold placed_by_id in Hp. apply fmap_None, list_find_None in Hp.
    rewrite Forall_forall in Hp. by destruct (Hp v Hv).
Qed.

Lemma elem_of_sequence_iter s v :
  v ∈ sequence_iter s ↔ ∃ e, e ∈ seq_elements s ∧ elem_value e = Some v.
Proof. unfold sequence_iter. by rewrite list_elem_of_omap. Qed.

(** A placement that is inserted and hidden at once changes nothing visible. *)
Lemma materialise_spec m v s :
  placement_inv s → move_ready m s →
  let s' := materialise inc (move_after m) (move_id m) v (move_right_origin m) s in
  placement_inv s' ∧ sequence_iter s' = sequence_iter s ∧
  elem_value <$> get_element s' (move_id m) = Some None.
Proof.
  intros [Hinv Hel Hun] (Hfresh & Hna & Ha) s'. subst s'. unfold materialise, sequence_delete.
  rewrite get_element_emap in Hfresh by done.
  destruct (view_insert inc (move_after m) (move_id m) v (move_right_origin m) s Hinv Hna Hfresh Ha)
    as (Hi1 & _ & eu & ev & Hs & Hs1).
  set (s1 := apply inc _ s) in *. set (e := mkElement _ (Some v) _ _) in *.
  assert (He : emap s1 !! move_id m = Some e).
  { apply emap_elem_of; [done|]. rewrite Hs1. split; [set_solver|done]. }
  destruct (view_delete inc (move_id m) (move_id m) s1) as (Hi2 & _ & eu' & e' & ev' & He' & Hs1' & Hs2);
    [done|eauto|].
  set (s2 := apply inc (Delete _ _) s1) in *.
  assert (e' = e) as -> by congruence.
  assert (Hiter : sequence_iter s2 = sequence_iter s).
  { assert (NoDup (elem_id <$> seq_elements s1)) as Hnd by apply Hi1.
    rewrite Hs1 in Hs1'. rewrite Hs1 in Hnd.
    destruct (NoDup_split_unique eu eu' e ev ev' Hs1') as [<- <-]; [by eapply NoDup_fmap_1|].
    unfold sequence_iter. rewrite Hs2, Hs. by rewrite !omap_app. }
  split_and!; [split; [done| |by rewrite Hiter]|done|].
  - intros d w Hd Hw. assert (d ∈ seq_elements s) as Hin.
    { rewrite Hs2 in Hd. rewrite Hs1 in Hs1'.
      assert (NoDup (eu ++ e :: ev)) as Hnd.
      { rewrite <-Hs1. eapply (NoDup_fmap_1 elem_id), Hi1. }
      destruct (NoDup_split_unique eu eu' e ev ev' Hs1' Hnd) as [<- <-].
      rewrite Hs. rewrite elem_of_app, elem_of_cons in Hd. rewrite elem_of_app.
      destruct Hd as [|[->|]]; [auto|done|auto]. }
    by eapply Hel.
  - rewrite get_element_emap by done.
    rewrite (proj2 (emap_elem_of s2 (move_id m) (set_value None e) Hi2)); [done|].
    rewrite Hs2. split; [set_solver|done].
Qed.

(** Hiding one visible item. *)
Lemma hide_spec v d s :
  placement_inv s → v ∈ sequence_iter s →
  let s' := sequence_delete inc (pl_elem v) d s in
  sequence_inv s' ∧ same_buffers s s' ∧ (∀ id, is_Some (emap s' !! id) ↔ is_Some (emap s !! id)) ∧
  (∀ e w, e ∈ seq_elements s' → elem_value e = Some w → pl_elem w = elem_id e) ∧
  ∃ a b, sequence_iter s = a ++ v :: b ∧ sequence_iter s' = a ++ b.
Proof.
  intros [Hinv Hel Hun] (e & He & Hv)%elem_of_sequence_iter s'. subst s'. unfold sequence_delete.
  rewrite (Hel e v He Hv).
  assert (Hm : emap s !! elem_id e = Some e) by by apply emap_elem_of.
  destruct (view_delete inc (elem_id e) d s) as (Hi & Hb & eu & e' & ev & He' & Hs & Hs');
    [done|eauto|].
  assert (e' = e) as -> by congruence. set (s' := apply inc _ s) in *.
  split_and!; [done|apply Hb..| | |].
  - intros id. rewrite <-!canonical_dom. unfold element_ids. rewrite Hs, Hs'.
    by rewrite !fmap_app.
  - intros f w Hf Hw. apply (Hel f w); [|done]. rewrite Hs. rewrite Hs' in Hf.
    rewrite elem_of_app, elem_of_cons in *. destruct Hf as [|[->|]]; [auto|done|auto].
  - exists (omap elem_value eu), (omap elem_value ev). unfold sequence_iter.
    rewrite Hs, Hs', !omap_app. simpl. by rewrite Hv.
Qed.

Lemma relocate_spec m v s :
  placement_inv s → move_ready m s → v ∈ sequence_iter s →
  let v' := pl_place (move_id m) (move_observed m) v in
  let s' := apply inc (Insert (move_after m) (move_id m) v' (move_right_origin m))
              (sequence_delete inc (pl_elem v) (move_id m) s) in
  placement_inv s' ∧
  ∃ a b a' b', sequence_iter s = a ++ v :: b ∧ sequence_iter s' = a' ++ v' :: b' ∧ a ++ b = a' ++ b'.
Proof.
  intros Hp (Hfresh & [Hn1 Hn2] & Ha) Hv v' s'. pose proof (pi_seq _ Hp) as Hinv.
  destruct (hide_spec v (move_id m) s Hp Hv) as (Hi1 & [Hb1 Hb2] & Hdom & Hel1 & a & b & Hs & Hs1).
  rewrite get_element_emap in Hfresh by done.
  set (s1 := sequence_delete inc (pl_elem v) (move_id m) s) in *.
  destruct (view_insert inc (move_after m) (move_id m) v' (move_right_origin m) s1)
    as (Hi2 & _ & eu & ev & He1 & He2).
  { done. }
  { split; congruence. }
  { apply eq_None_not_Some. rewrite Hdom. by rewrite Hfresh; intros []. }
  { unfold anchored in *. destruct (move_after m); [|done].
    rewrite bool_decide_eq_true in *. by apply Hdom. }
  fold s' in Hi2, He2.
  assert (Hs2 : sequence_iter s' = omap elem_value eu ++ v' :: omap elem_value ev).
  { unfold sequence_iter. by rewrite He2, omap_app. }
  assert (Hab : a ++ b = omap elem_value eu ++ omap elem_value ev).
  { rewrite <-Hs1. unfold sequence_iter. by rewrite He1, omap_app. }
  split; [|by eauto 10].
  split; [done| |].
  - intros e w. rewrite He2, elem_of_app, elem_of_cons. intros [He|[->|He]] Hw.
    + apply Hel1; [|done]. rewrite He1. set_solver.
    + injection Hw as <-. apply pl_place_elem.
    + apply Hel1; [|done]. rewrite He1. set_solver.
  - rewrite Hs2. rewrite fmap_app, fmap_cons, <-Permutation_middle, <-fmap_app, <-Hab.
    unfold v'. rewrite pl_place_id, fmap_app, Permutation_middle, <-fmap_cons, <-fmap_app, <-Hs.
    apply Hp.
Qed.

Lemma move_wins_test m v s :
  pl_elem v ≠ move_id m →
  (negb (bool_decide (block_id_from_op (pl_elem v) = pl_id v))
     && negb (observes (move_observed m) (pl_elem v))
     && (observes (pl_observed v) (move_id m) || ord_geb (pl_elem v) (move_id m)))
  = negb (move_wins m v).
Proof.
  intros Hne. unfold move_wins, causal_write_wins.
  assert (Hord : ord_geb (move_id m) (pl_elem v) = negb (ord_geb (pl_elem v) (move_id m))).
  { destruct (ord_geb (pl_elem v) (move_id m)) eqn:E; simpl.
    - apply ord_geb_lt. apply ord_geb_le, ord_le_lt_eq in E as [|]; [done|congruence].
    - apply ord_geb_lt, ord_lt_le in E. by apply ord_geb_le. }
  rewrite Hord. destruct (bool_decide (block_id_from_op (pl_elem v) = pl_id v)),
    (observes (move_observed m) (pl_elem v)), (observes (pl_observed v) (move_id m)),
    (ord_geb (pl_elem v) (move_id m)); reflexivity.
Qed.

Lemma move_placed_spec m s :
  placement_inv s → move_ready m s →
  match move_placed inc m s with
  | (s', o) =>
    move_outcome m s (if o is Deferred then s else s') (if o is Won then true else false) ∧
    (o = Deferred ↔
      placed_by_id s (move_logical_id m) = None ∧ get_element s (move_target m) = None)
  end.
Proof.
  intros Hp Hr. pose proof Hr as (Hfresh & _). unfold move_placed, move_outcome.
  destruct (placed_by_id s (move_logical_id m)) as [v|] eqn:Hv.
  - apply placed_by_id_Some in Hv as [Hin Hid]. rewrite move_wins_test; [|done|].
    2:{ apply elem_of_sequence_iter in Hin as (e & He & Hev).
        rewrite (pi_elem _ Hp e v He Hev). intros Heq.
        assert (get_element s (move_id m) = Some e); [|congruence].
        by apply get_element_elem_of; [apply Hp|]. }
    destruct (move_wins m v) eqn:Hw; simpl.
    + destruct (relocate_spec m v s Hp Hr Hin) as (Hp' & a & b & a' & b' & Hs & Hs' & Hab).
      set (s' := apply inc _ _) in *. split; [|by split; [|intros []]].
      split_and!; [done| |done|].
      * rewrite Hs, Hs', !filter_app, !filter_cons, pl_place_id.
        rewrite !decide_False by (rewrite Hid; auto).
        by rewrite <-!filter_app, Hab.
      * rewrite <-Hid, <-(pl_place_id (move_id m) (move_observed m) v).
        apply placed_by_id_unique; [apply Hp'|]. rewrite Hs'. set_solver.
    + rewrite Hfresh. split; [|by split; [|intros []]].
      destruct (materialise_spec m (pl_move (move_id m) v) s Hp Hr) as (Hp' & Hi & He).
      by rewrite Hi.
  - destruct (get_element s (move_target m)) as [e|] eqn:Ht.
    + rewrite Hfresh. split; [|by split; [|intros []]].
      destruct (materialise_spec m (pl_tombstone (move_logical_id m) (move_id m) (move_observed m))
        s Hp Hr) as (Hp' & Hi & He).
      by rewrite Hi.
    + split; [|done]. split_and!; done.
Qed.
End move_lemmas.

Section shown.
Context `{!Placed V, !PlacedLaws V}.
Implicit Types s : Sequence V.

Lemma placed_by_id_is_Some s l : is_Some (placed_by_id s l) ↔ ∃ v, v ∈ sequence_iter s ∧ pl_id v = l.
Proof.
  split; [intros [v Hv]; exists v; by apply placed_by_id_Some|].
  intros (v & Hv & <-). apply not_eq_None_Some. unfold placed_by_id.
  rewrite fmap_None, list_find_None, Forall_forall. intros Hn. by apply (Hn v Hv).
Qed.

(** A move neither removes a logical item from view nor adds one. *)
Lemma move_outcome_shown m s s' won l :
  move_outcome m s s' won → is_Some (placed_by_id s' l) ↔ is_Some (placed_by_id s l).
Proof.
  intros (_ & Hoth & Hm). destruct (decide (l = move_logical_id m)) as [->|Hne].
  - rewrite !placed_by_id_is_Some. destruct (placed_by_id s (move_logical_id m)) as [v|] eqn:Hv.
    + destruct (move_wins m v); [|by destruct Hm as (_ & -> & _)].
      rewrite <-!placed_by_id_is_Some, Hv. destruct Hm as [_ ->]. split; eauto.
    + by destruct Hm as (_ & -> & _).
  - rewrite !placed_by_id_is_Some.
    assert (Hf : ∀ s v, v ∈ sequence_iter s ∧ pl_id v = l ↔
      v ∈ filter (λ v, pl_id v ≠ move_logical_id m) (sequence_iter s) ∧ pl_id v = l).
    { intros s0 v. rewrite list_elem_of_filter. naive_solver. }
    setoid_rewrite Hf. by rewrite Hoth.
Qed.
End shown.

Lemma cell_value_shown t t' r c :
  table_id t' = table_id t → cells t' = cells t →
  (∀ l, is_Some (row_by_id t' l) ↔ is_Some (row_by_id t l)) →
  (∀ l, is_Some (column_by_id t' l) ↔ is_Some (column_by_id t l)) →
  cell_value t' r c = cell_value t r c.
Proof.
  intros Hid Hc Hr Hcol. unfold cell_value, row_is_live, header_row_id. rewrite Hid, Hc.
  rewrite (bool_decide_ext _ _ (Hr r)). destruct (_ || _); [|done].
  specialize (Hcol c). destruct (column_by_id t c) as [x|], (column_by_id t' c) as [y|]; try done.
  - destruct Hcol as [_ Hs]. destruct Hs; eauto. done.
  - destruct Hcol as [Hs _]. destruct Hs; eauto. done.
Qed.

(** The move targets something this replica has never seen. *)
Definition unseen_target `{Placed V} (m : PendingTableMove) (s : Sequence V) : Prop :=
  placed_by_id s (move_logical_id m) = None ∧ get_element s (move_target m) = None.

(** C32: A row or column move relocates one item and nothing else.  When its
    anchor is present and its id is new, the moved item keeps its logical id and
    shows exactly once; all other items keep their content and order; a move
    that loses against the current placement leaves the visible order alone but
    records its placement as a tombstone; no cell changes its value; and the
    move is set aside exactly when its item has not been seen yet. *)
Theorem moves_keep_identity (inc : bool) (m : PendingTableMove) (t : Table) :
  (placement_inv (rows t) → move_ready m (rows t) →
   let '(t', won) := move_row inc m t in
   move_outcome m (rows t) (rows t') won ∧ columns t' = columns t ∧
   (∀ r c, cell_value t' r c = cell_value t r c) ∧
   (unseen_target m (rows t) → pending_row_moves t' = pending_row_moves t ++ [m]) ∧
   (¬ unseen_target m (rows t) → pending_row_moves t' = pending_row_moves t)) ∧
  (placement_inv (columns t) → move_ready m (columns t) →
   let '(t', won) := move_column inc m t in
   move_outcome m (columns t) (columns t') won ∧ rows t' = rows t ∧
   (∀ r c, cell_value t' r c = cell_value t r c) ∧
   (unseen_target m (columns t) → pending_column_moves t' = pending_column_moves t ++ [m]) ∧
   (¬ unseen_target m (columns t) → pending_column_moves t' = pending_column_moves t)).
Proof.
  split; intros Hp Hr.
  - pose proof (move_placed_spec inc m (rows t) Hp Hr) as Hspec. unfold move_row.
    destruct (move_placed inc m (rows t)) as [s []]; destruct Hspec as [Ho Hd];
      (split_and!; [done|done| |by intros ?%Hd|]).
    all: try (intros r c; apply cell_value_shown;
      [done|done|intros l; exact (move_outcome_shown _ _ _ _ l Ho)|done]).
    all: simpl; try done. intros Hn. destruct Hn. by apply Hd.
  - pose proof (move_placed_spec inc m (columns t) Hp Hr) as Hspec. unfold move_column.
    destruct (move_placed inc m (columns t)) as [s []]; destruct Hspec as [Ho Hd];
      (split_and!; [done|done| |by intros ?%Hd|]).
    all: try (intros r c; apply cell_value_shown;
      [done|done|done|intros l; exact (move_outcome_shown _ _ _ _ l Ho)]).
    all: simpl; try done. intros Hn. destruct Hn. by apply Hd.
Qed.

(** A table with the rows of the inserts 2 and 3 of peer 1. *)
Definition two_rows : Table :=
  insert_row true (Some (mkOpId 2 1)) [] (mkOpId 3 1)
    (insert_row true None [] (mkOpId 2 1) sample_table).

Lemma two_rows_inv : placement_inv (rows two_rows).
Proof.
  assert (Hs : rows two_rows = apply_all true
    [Insert None (mkOpId 2 1) (mkRow (block_id_from_op (mkOpId 2 1)) (mkOpId 2 1)
       (Lww.new false (mkOpId 2 1)) StateVectorOps.new) None;
     Insert (Some (mkOpId 2 1)) (mkOpId 3 1) (mkRow (block_id_from_op (mkOpId 3 1)) (mkOpId 3 1)
       (Lww.new false (mkOpId 3 1)) StateVectorOps.new) None] sequence_new) by by vm_compute.
  split.
  - rewrite Hs. apply apply_all_spec, sequence_new_inv.
  - assert (Hall : Forall (λ e, match elem_value e with
      | Some v => pl_elem v = elem_id e | None => True end) (seq_elements (rows two_rows))).
    { vm_compute. repeat constructor. }
    rewrite Forall_forall in Hall. intros e v He Hv. specialize (Hall e He). by rewrite Hv in Hall.
  - apply (bool_decide_unpack _). by vm_compute.
Qed.

Lemma moves_keep_identity_witness :
  let m := mkTableMove (block_id_from_op (mkOpId 3 1)) (mkOpId 3 1) (mkOpId 4 1) None
    (Some (mkOpId 2 1)) StateVectorOps.new in
  move_outcome m (rows two_rows) (rows (move_row true m two_rows).1) true ∧
  (row_elem_id <$> rows_in_order (move_row true m two_rows).1) = [mkOpId 4 1; mkOpId 2 1].
Proof.
  intros m. split; [|by vm_compute].
  destruct (moves_keep_identity true m two_rows) as [Hrow _].
  specialize (Hrow two_rows_inv). destruct (move_row true m two_rows) as [t' won] eqn:Hm.
  assert (won = true) as <- by (pose proof (f_equal snd Hm) as Hw; by vm_compute in Hw).
  apply Hrow. split; [by vm_compute|]. split; [by split; vm_compute|by vm_compute].
Defined.

(** ** Early moves *)

Lemma set_cells_row_moves l row id values t :
  fold_left (λ t cv, set_cell row cv.1 cv.2 id t) values (set_row_moves l t) =
  set_row_moves l (fold_left (λ t cv, set_cell row cv.1 cv.2 id t) values t).
Proof. revert t. induction values as [|cv values IH]; intros t; [done|]. exact (IH (set_cell row cv.1 cv.2 id t)). Qed.

Lemma set_cells_pending row id values t :
  pending_row_moves (fold_left (λ t cv, set_cell row cv.1 cv.2 id t) values t) = pending_row_moves t.
Proof. revert t. induction values as [|cv values IH]; intros t; [done|]. simpl. by rewrite IH. Qed.

Lemma set_row_moves_id t : set_row_moves (pending_row_moves t) t = t.
Proof. by destruct t. Qed.
Lemma set_column_moves_id t : set_column_moves (pending_column_moves t) t = t.
Proof. by destruct t. Qed.
Lemma set_alignments_id t : set_alignments (pending_column_alignments t) t = t.
Proof. by destruct t. Qed.

Lemma move_row_deferred inc m t :
  unseen_target m (rows t) → (move_row inc m t).1 = set_row_moves (pending_row_moves t ++ [m]) t.
Proof. intros [Hp Ht]. unfold move_row, move_placed. by rewrite Hp, Ht. Qed.

Lemma move_column_deferred inc m t :
  unseen_target m (columns t) →
  (move_column inc m t).1 = set_column_moves (pending_column_moves t ++ [m]) t.
Proof. intros [Hp Ht]. unfold move_column, move_placed. by rewrite Hp, Ht. Qed.

Lemma merge_sort_singleton {A} (R : relation A) `{!RelDecision R} (x : A) : merge_sort R [x] = [x].
Proof. done. Qed.

Lemma move_column_alignments inc m t :
  pending_column_alignments (move_column inc m t).1 = pending_column_alignments t.
Proof. unfold move_column. by destruct (move_placed inc m (columns t)) as [s []]. Qed.

Lemma resolve_columns_none inc id t :
  pending_column_moves t = [] → pending_column_alignments t = [] →
  resolve_pending_column_ops inc id t = t.
Proof.
  intros Hm Ha. unfold resolve_pending_column_ops. rewrite Hm. simpl. rewrite Ha. simpl.
  destruct t; simpl in *; by subst.
Qed.

Lemma resolve_columns_one inc m t :
  pending_column_moves t = [] → pending_column_alignments t = [] →
  resolve_pending_column_ops inc (move_logical_id m) (set_column_moves [m] t) =
  (move_column inc m t).1.
Proof.
  intros Hm Ha. unfold resolve_pending_column_ops. simpl. rewrite decide_True by done.
  change (set_column_moves [] (set_column_moves [m] t)) with (set_column_moves [] t).
  rewrite <-Hm, set_column_moves_id, move_column_alignments, Ha. simpl.
  rewrite <-Ha, <-(move_column_alignments inc m t). apply set_alignments_id.
Qed.

(** the order of an insert and of a move of what it inserts does not
    matter.  A replica that receives the move of a row or a column before the
    insert sets it aside and replays it when the insert arrives; it ends with
    exactly the table of a replica that received the insert first. *)
Theorem early_moves_commute (inc : bool) (m : PendingTableMove) (after : option OpId)
    (op_id : OpId) (t : Table) :
  move_logical_id m = block_id_from_op op_id →
  pending_row_moves t = [] → pending_column_moves t = [] → pending_column_alignments t = [] →
  (∀ values, unseen_target m (rows t) →
     insert_row inc after values op_id (move_row inc m t).1 =
     (move_row inc m (insert_row inc after values op_id t)).1) ∧
  (∀ alignment header, unseen_target m (columns t) →
     insert_column inc after alignment header op_id (move_column inc m t).1 =
     (move_column inc m (insert_column inc after alignment header op_id t)).1).
Proof.
  intros Hid Hr Hc Ha. split.
  - intros values Hu. rewrite move_row_deferred, Hr by done. unfold insert_row, resolve_pending_row_moves.
    set (row := mkRow _ _ _ _). simpl (pending_row_moves (set_rows _ _)).
    change (set_rows ?f (set_row_moves ?l t)) with (set_row_moves l (set_rows f t)).
    rewrite set_cells_row_moves. simpl (rows (set_row_moves _ _)).
    set (t1 := fold_left _ values (set_rows _ t)).
    assert (Hp : pending_row_moves t1 = []) by (unfold t1; by rewrite set_cells_pending).
    rewrite Hp. simpl. by rewrite decide_True.
  - intros alignment header Hu. rewrite move_column_deferred, Hc by done.
    set (t1 := set_cell (header_row_id t) (block_id_from_op op_id) header op_id
      (set_columns (sequence_insert inc after
        (mkColumn (block_id_from_op op_id) op_id (Lww.new false op_id) (Lww.new alignment op_id)
           StateVectorOps.new StateVectorOps.new) op_id) t)).
    change (insert_column inc after alignment header op_id t)
      with (resolve_pending_column_ops inc (block_id_from_op op_id) t1).
    change (insert_column inc after alignment header op_id (set_column_moves ([] ++ [m]) t))
      with (resolve_pending_column_ops inc (block_id_from_op op_id) (set_column_moves [m] t1)).
    rewrite (resolve_columns_none inc _ t1), <-Hid by done.
    by rewrite (resolve_columns_one inc m t1).
Qed.

Lemma early_moves_commute_witness :
  let m := mkTableMove (block_id_from_op (mkOpId 2 1)) (mkOpId 2 1) (mkOpId 1 2) None None
    StateVectorOps.new in
  insert_row true None [] (mkOpId 2 1) (move_row true m sample_table).1 =
  (move_row true m (insert_row true None [] (mkOpId 2 1) sample_table)).1.
Proof.
  intros m. apply (early_moves_commute true m None (mkOpId 2 1) sample_table); by vm_compute.
Defined.
