(* ===== verification/Diff.v ===== *)
(** * Grapheme alignment

    Models [src/src/filesync/diff.rs]: the longest-common-subsequence program
    that turns an edited text into deletions and insertions of text units while
    keeping the units of the common subsequence.  The alignment is shown to
    rebuild both texts and to keep as many units as possible. *)

From S2P Require Import Prelude.

(** ** The program *)

Inductive GraphemeStep :=
  | StepEqual (old new : nat)
  | StepDelete (old : nat)
  | StepInsert (new : nat).

#[export] Instance GraphemeStep_eq_dec : EqDecision GraphemeStep.
Proof. solve_decision. Defined.

(** [dp[i][j]] and [dp[i][j] = v]; both indices are always in range. *)
Definition dp_get (dp : list (list nat)) (i j : nat) : nat :=
  default 0 (dp !! i ≫= λ row, row !! j).
Definition dp_set (i j v : nat) (dp : list (list nat)) : list (list nat) :=
  alter (λ row, <[j := v]> row) i dp.

Section lcs.
Context (old new : list string).
Let n := length old.
Let m := length new.

(** [old[i] == new[j]]. *)
Definition same_at (i j : nat) : bool := bool_decide (old !! i = new !! j).

(** The body of the inner loop. *)
Definition dp_cell (i : nat) (dp : list (list nat)) (j : nat) : list (list nat) :=
  if same_at i j then dp_set (i + 1) (j + 1) (dp_get dp i j + 1) dp
  else dp_set (i + 1) (j + 1) (Nat.max (dp_get dp (i + 1) j) (dp_get dp i (j + 1))) dp.

(** The two nested [for] loops over a table of zeros. *)
Definition dp_table : list (list nat) :=
  fold_left (λ dp i, fold_left (dp_cell i) (seq 0 m) dp) (seq 0 n)
    (replicate (n + 1) (replicate (m + 1) 0)).

(** The [while i > 0 || j > 0] loop; the steps come out last first. *)
Fixpoint backtrack (fuel : nat) (dp : list (list nat)) (i j : nat) (steps : list GraphemeStep) :
    list GraphemeStep :=
  match fuel with
  | 0 => steps
  | S fuel =>
    if decide (0 < i ∨ 0 < j) then
      if (0 <? i) && (0 <? j) && same_at (i - 1) (j - 1)
      then backtrack fuel dp (i - 1) (j - 1) (steps ++ [StepEqual (i - 1) (j - 1)])
      else if (0 <? j) && ((i =? 0) || (dp_get dp (i - 1) j <=? dp_get dp i (j - 1)))
      then backtrack fuel dp i (j - 1) (steps ++ [StepInsert (j - 1)])
      else backtrack fuel dp (i - 1) j (steps ++ [StepDelete (i - 1)])
    else steps
  end.

Definition lcs_steps : list GraphemeStep := reverse (backtrack (n + m) dp_table n m []).
End lcs.

Definition delete_indices_high_to_low (steps : list GraphemeStep) : list nat :=
  reverse (merge_sort le (omap (λ s, match s with StepDelete o => Some o | _ => None end) steps)).

Definition insert_new_indices (steps : list GraphemeStep) : list nat :=
  omap (λ s, match s with StepInsert k => Some k | _ => None end) steps.

(** ** The specification *)

(** The length of a longest common subsequence of the prefixes of length [i]
    and [j], by the textbook recursion. *)
Section spec.
Context (old new : list string).

Fixpoint lcs_len (i : nat) : nat → nat :=
  fix go (j : nat) : nat :=
    match i, j with
    | S i', S j' => if same_at old new i' j' then S (lcs_len i' j') else Nat.max (go j') (lcs_len i' (S j'))
    | _, _ => 0
    end.

(** The old and the new indices an alignment walks over, in order. *)
Definition old_indices (steps : list GraphemeStep) : list nat :=
  omap (λ s, match s with StepEqual o _ | StepDelete o => Some o | StepInsert _ => None end) steps.
Definition new_indices (steps : list GraphemeStep) : list nat :=
  omap (λ s, match s with StepEqual _ k | StepInsert k => Some k | StepDelete _ => None end) steps.
(** The units that are kept. *)
Definition kept (steps : list GraphemeStep) : list nat :=
  omap (λ s, match s with StepEqual o _ => Some o | _ => None end) steps.

(** Editing [old] as the steps say: keep, drop, or take from [new]. *)
Definition edit_result (steps : list GraphemeStep) : list string :=
  omap (λ s, match s with
             | StepEqual o _ => old !! o
             | StepInsert k => new !! k
             | StepDelete _ => None
             end) steps.
End spec.

Arguments lcs_len : simpl never.

(** ** The table holds the specified lengths *)

Section table.
Context (old new : list string).
Abbreviation n := (length old).
Abbreviation m := (length new).

Lemma lcs_len_SS i j :
  lcs_len old new (S i) (S j) =
  if same_at old new i j then S (lcs_len old new i j)
  else Nat.max (lcs_len old new (S i) j) (lcs_len old new i (S j)).
Proof. done. Qed.
Lemma lcs_len_0_l j : lcs_len old new 0 j = 0.
Proof. by destruct j. Qed.
Lemma lcs_len_0_r i : lcs_len old new i 0 = 0.
Proof. by destruct i. Qed.

Definition dp_shape (dp : list (list nat)) : Prop :=
  length dp = n + 1 ∧ Forall (λ row, length row = m + 1) dp.

Lemma dp_get_set dp i j v a b :
  dp_shape dp → i ≤ n → j ≤ m →
  dp_get (dp_set i j v dp) a b = if decide (a = i ∧ b = j) then v else dp_get dp a b.
Proof.
  intros [Hl Hrows] Hi Hj. unfold dp_get, dp_set.
  destruct (decide (a = i)) as [->|Hne].
  - rewrite list_lookup_alter_eq. destruct (dp !! i) as [row|] eqn:Hrow; simpl.
    + rewrite Forall_lookup in Hrows. specialize (Hrows _ _ Hrow).
      destruct (decide (b = j)) as [->|].
      * rewrite list_lookup_insert_eq by lia. by rewrite decide_True.
      * rewrite list_lookup_insert_ne by done. rewrite decide_False by naive_solver. done.
    + apply lookup_ge_None in Hrow. lia.
  - rewrite list_lookup_alter_ne by done. by rewrite decide_False by naive_solver.
Qed.

Lemma dp_set_shape dp i j v : dp_shape dp → dp_shape (dp_set i j v dp).
Proof.
  intros [Hl Hrows]. unfold dp_set. split; [by rewrite length_alter|].
  rewrite Forall_lookup in *. intros a row. destruct (decide (a = i)) as [->|].
  - rewrite list_lookup_alter_eq, fmap_Some. intros (row' & Hr & ->).
    rewrite length_insert. eauto.
  - rewrite list_lookup_alter_ne by done. eauto.
Qed.

(** The cells filled in once row [i] is done and [j] cells of the next one. *)
Definition dp_upto (i j : nat) (dp : list (list nat)) : Prop :=
  dp_shape dp ∧ ∀ a b, a ≤ n → b ≤ m → (a ≤ i ∨ b = 0 ∨ a = S i ∧ b ≤ j) →
    dp_get dp a b = lcs_len old new a b.

Lemma dp_cell_upto i j dp :
  i < n → j < m → dp_upto i j dp → dp_upto i (S j) (dp_cell old new i dp j).
Proof.
  intros Hi Hj [Hs Hdp]. unfold dp_cell.
  assert (Hv : ∀ v, v = lcs_len old new (S i) (S j) →
    dp_upto i (S j) (dp_set (i + 1) (j + 1) v dp)).
  { intros v ->. split; [by apply dp_set_shape|]. intros a b Ha Hb Hab.
    rewrite dp_get_set by (done || lia). case_decide as Heq.
    - destruct Heq as [-> ->]. by rewrite !Nat.add_1_r.
    - apply Hdp; [done..|]. lia. }
  destruct (same_at old new i j) eqn:He; apply Hv; rewrite lcs_len_SS, He.
  - rewrite Hdp by lia. lia.
  - rewrite !Nat.add_1_r, !Hdp by lia. done.
Qed.

Lemma dp_row_upto i k dp :
  i < n → k ≤ m → dp_upto i 0 dp → dp_upto i k (fold_left (dp_cell old new i) (seq 0 k) dp).
Proof.
  intros Hi Hk Hdp. induction k as [|k IH]; [done|].
  rewrite seq_S, fold_left_app. simpl. apply dp_cell_upto; [done|lia|]. apply IH. lia.
Qed.

Lemma dp_upto_next i dp : dp_upto i m dp → dp_upto (S i) 0 dp.
Proof. intros [Hs Hdp]. split; [done|]. intros a b Ha Hb Hab. apply Hdp; lia. Qed.

Lemma dp_zero : dp_upto 0 0 (replicate (n + 1) (replicate (m + 1) 0)).
Proof.
  split.
  - split; [apply length_replicate|]. apply Forall_replicate, length_replicate.
  - intros a b Ha Hb Hab. unfold dp_get. rewrite lookup_replicate_2 by lia. simpl.
    rewrite lookup_replicate_2 by lia. simpl.
    destruct a; [by rewrite lcs_len_0_l|]. destruct b; [done|]. lia.
Qed.

Lemma dp_table_spec a b : a ≤ n → b ≤ m → dp_get (dp_table old new) a b = lcs_len old new a b.
Proof.
  assert (H : ∀ k, k ≤ n → dp_upto k 0 (fold_left (λ dp i,
    fold_left (dp_cell old new i) (seq 0 m) dp) (seq 0 k)
    (replicate (n + 1) (replicate (m + 1) 0)))).
  { induction k as [|k IH]; intros Hk; [apply dp_zero|].
    rewrite seq_S, fold_left_app. simpl. apply dp_upto_next, dp_row_upto; [lia|done|].
    apply IH. lia. }
  intros Ha Hb. destruct (H n) as [_ Hdp]; [done|]. apply Hdp; auto.
Qed.
End table.

(** ** The steps walk both texts *)

Section steps.
Context (old new : list string).

(** A list of steps that aligns the prefixes of length [i] and [j]. *)
Record aligns (i j : nat) (r : list GraphemeStep) : Prop := {
  al_old : old_indices r = seq 0 i;
  al_new : new_indices r = seq 0 j;
  al_equal o k : StepEqual o k ∈ r → old !! o = new !! k;
  al_kept : length (kept r) = lcs_len old new i j;
}.

(** One more step at the end of an alignment. *)
Lemma aligns_snoc i j i' j' r s :
  aligns i' j' r →
  seq 0 i = seq 0 i' ++ old_indices [s] → seq 0 j = seq 0 j' ++ new_indices [s] →
  (∀ o k, s = StepEqual o k → old !! o = new !! k) →
  lcs_len old new i' j' + length (kept [s]) = lcs_len old new i j →
  aligns i j (r ++ [s]).
Proof.
  intros [Ao An Ae Ak] Ho Hn He Hk. split.
  - rewrite Ho, <-Ao. unfold old_indices. by rewrite omap_app.
  - rewrite Hn, <-An. unfold new_indices. by rewrite omap_app.
  - intros o k [?|Hs%list_elem_of_singleton]%elem_of_app; [by apply Ae|by apply He].
  - rewrite <-Hk, <-Ak. unfold kept. by rewrite omap_app, length_app.
Qed.

Lemma backtrack_spec fuel i j acc :
  i + j ≤ fuel → i ≤ length old → j ≤ length new →
  ∃ r, backtrack old new fuel (dp_table old new) i j acc = acc ++ reverse r ∧ aligns i j r.
Proof.
  revert i j acc. induction fuel as [|fuel IH]; intros i j acc Hf Hi Hj.
  { assert (i = 0 ∧ j = 0) as [-> ->] by lia. exists []. split; [by rewrite app_nil_r|].
    split; try done. by intros ? ? ?%elem_of_nil. }
  simpl. destruct (decide (0 < i ∨ 0 < j)) as [Hpos|Hz].
  2:{ assert (i = 0 ∧ j = 0) as [-> ->] by lia. exists []. split; [by rewrite app_nil_r|].
      split; try done. by intros ? ? ?%elem_of_nil. }
  assert (Hstep : ∀ i' j' s,
    i' + j' ≤ fuel → i' ≤ length old → j' ≤ length new →
    seq 0 i = seq 0 i' ++ old_indices [s] → seq 0 j = seq 0 j' ++ new_indices [s] →
    (∀ o k, s = StepEqual o k → old !! o = new !! k) →
    lcs_len old new i' j' + length (kept [s]) = lcs_len old new i j →
    ∃ r, backtrack old new fuel (dp_table old new) i' j' (acc ++ [s]) = acc ++ reverse r ∧
         aligns i j r).
  { intros i' j' s Hf' Hi' Hj' Ho Hn He Hk.
    destruct (IH i' j' (acc ++ [s]) Hf' Hi' Hj') as (r & -> & Ha).
    exists (r ++ [s]). split; [by rewrite reverse_app, <-(assoc_L (++))|by eapply aligns_snoc]. }
  assert (Hseq : ∀ k, 0 < k → seq 0 k = seq 0 (k - 1) ++ [k - 1]).
  { intros k Hk. destruct k as [|k]; [lia|]. rewrite seq_S. simpl. by rewrite Nat.sub_0_r. }
  destruct ((0 <? i) && (0 <? j) && same_at old new (i - 1) (j - 1)) eqn:E1.
  - rewrite !andb_true_iff, !Nat.ltb_lt in E1. destruct E1 as [[Hi0 Hj0] Heq].
    apply Hstep; [lia..|by apply Hseq|by apply Hseq| |].
    + intros ? ? [= <- <-]. by apply bool_decide_eq_true in Heq.
    + simpl. destruct i as [|i], j as [|j]; try lia. rewrite lcs_len_SS.
      simpl in Heq. rewrite !Nat.sub_0_r in Heq. rewrite Heq. simpl. rewrite !Nat.sub_0_r. lia.
  - destruct ((0 <? j) && _) eqn:E2.
    + rewrite andb_true_iff, orb_true_iff, Nat.ltb_lt, Nat.eqb_eq, Nat.leb_le in E2.
      destruct E2 as [Hj0 Hor].
      apply Hstep; [lia..|by rewrite app_nil_r|by apply Hseq|done|].
      simpl. destruct j as [|j]; [lia|]. simpl in *. rewrite ?Nat.sub_0_r in *.
      destruct i as [|i]; [by rewrite !lcs_len_0_l|]. simpl in E1. rewrite Nat.sub_0_r in E1.
      destruct Hor as [|Hle]; [done|]. simpl in Hle. rewrite Nat.sub_0_r in Hle.
      rewrite !dp_table_spec in Hle by lia. rewrite lcs_len_SS, E1. lia.
    + rewrite andb_false_iff, orb_false_iff, Nat.ltb_ge, Nat.eqb_neq, Nat.leb_gt in E2.
      assert (Hi0 : 0 < i) by lia.
      apply Hstep; [lia..|by apply Hseq|by rewrite app_nil_r|done|].
      simpl. destruct i as [|i]; [lia|]. simpl in *. rewrite ?Nat.sub_0_r in *.
      destruct j as [|j]; [by rewrite !lcs_len_0_r|]. simpl in *. rewrite ?Nat.sub_0_r in *.
      destruct E2 as [?|[_ Hlt]]; [lia|].
      rewrite !dp_table_spec in Hlt by lia. rewrite lcs_len_SS, E1. lia.
Qed.

Lemma lcs_steps_aligns : aligns (length old) (length new) (lcs_steps old new).
Proof.
  unfold lcs_steps.
  destruct (backtrack_spec (length old + length new) (length old) (length new) [])
    as (r & -> & Ha); [lia..|].
  simpl. by rewrite reverse_involutive.
Qed.
End steps.

(** ** What the alignment is good for *)

Lemma StronglySorted_reverse {A} (R : relation A) (l : list A) :
  StronglySorted R l → StronglySorted (flip R) (reverse l).
Proof.
  induction 1 as [|x l Hl IH Hx]; [constructor|]. rewrite reverse_cons.
  apply StronglySorted_app_2; [|done|by repeat constructor].
  intros y z Hy ->%list_elem_of_singleton. simpl.
  rewrite Forall_forall in Hx. apply Hx. by apply elem_of_reverse.
Qed.

Lemma omap_sublist_r {A B} (f : A → option B) (l k : list A) :
  l `sublist_of` k → omap f l `sublist_of` omap f k.
Proof.
  induction 1 as [|x l k _ IH|x l k _ IH]; csimpl; [done| |]; destruct (f x); by try constructor.
Qed.

Lemma omap_compose {A B C} (f : A → option C) (g : B → option C) (h : A → option B) (l : list A) :
  (∀ x, x ∈ l → f x = h x ≫= g) → omap f l = omap g (omap h l).
Proof.
  induction l as [|x l IH]; intros Hf; [done|]. csimpl. rewrite (Hf x) by set_solver.
  rewrite IH by (intros; apply Hf; set_solver). by destruct (h x).
Qed.

Section claims.
Context (old new : list string).

Lemma edit_result_new r j :
  new_indices r = seq 0 j → j ≤ length new →
  (∀ o k, StepEqual o k ∈ r → old !! o = new !! k) → edit_result old new r = take j new.
Proof.
  intros Hn Hj He.
  assert (Hr : edit_result old new r = omap (new !!.) (new_indices r)).
  { apply omap_compose. intros [o k|o|k] Hs; simpl; [by apply He|done..]. }
  rewrite Hr, Hn. clear Hr Hn He. induction j as [|j IH]; [done|].
  rewrite seq_S, omap_app, IH by lia. simpl.
  destruct (lookup_lt_is_Some_2 new j) as [x Hx]; [lia|].
  rewrite Hx. symmetry. by apply take_S_r.
Qed.

Lemma omap_sublist {A B} (f g : A → option B) (l : list A) :
  (∀ x y, f x = Some y → g x = Some y) → omap f l `sublist_of` omap g l.
Proof.
  intros Hfg. induction l as [|x l IH]; [done|]. simpl.
  destruct (f x) as [y|] eqn:Hf.
  - rewrite (Hfg _ _ Hf). by constructor.
  - destruct (g x); [by constructor|done].
Qed.

Lemma sorted_sublist_seq (l : list nat) k : l `sublist_of` seq 0 k → StronglySorted lt l.
Proof.
  assert (Hs : ∀ b k, StronglySorted lt (seq b k)).
  { intros b k'. revert b. induction k' as [|k' IH]; intros b; simpl; constructor; [done|].
    apply Forall_seq. lia. }
  intros Hsub. by eapply StronglySorted_sublist.
Qed.

Definition deletes (r : list GraphemeStep) : list nat :=
  omap (λ s, match s with StepDelete o => Some o | _ => None end) r.

Lemma deletes_sorted : StronglySorted lt (deletes (lcs_steps old new)).
Proof.
  eapply (sorted_sublist_seq _ (length old)). rewrite <-(al_old _ _ _ _ _ (lcs_steps_aligns old new)).
  apply omap_sublist. by intros [] ?.
Qed.

Lemma inserts_sorted : StronglySorted lt (insert_new_indices (lcs_steps old new)).
Proof.
  eapply (sorted_sublist_seq _ (length new)). rewrite <-(al_new _ _ _ _ _ (lcs_steps_aligns old new)).
  apply omap_sublist. by intros [] ?.
Qed.

Lemma delete_indices_reverse :
  delete_indices_high_to_low (lcs_steps old new) = reverse (deletes (lcs_steps old new)).
Proof.
  unfold delete_indices_high_to_low. f_equal. fold (deletes (lcs_steps old new)).
  apply (StronglySorted_unique le).
  - apply (StronglySorted_merge_sort le).
  - pose proof deletes_sorted as Hs. induction Hs as [|x l _ IH Hx]; constructor; [done|].
    eapply Forall_impl; [done|]. simpl. lia.
  - apply merge_sort_Permutation.
Qed.

Lemma indices_split :
  old_indices (lcs_steps old new) ≡ₚ kept (lcs_steps old new) ++ deletes (lcs_steps old new).
Proof.
  generalize (lcs_steps old new). intros r. unfold old_indices, kept, deletes.
  induction r as [|[o k|o|k] r IH]; simpl; [done|by rewrite IH| |done].
  rewrite IH. by rewrite Permutation_middle.
Qed.

Lemma deletes_spec i :
  i ∈ deletes (lcs_steps old new) ↔ i < length old ∧ i ∉ kept (lcs_steps old new).
Proof.
  pose proof indices_split as Hp. pose proof (al_old _ _ _ _ _ (lcs_steps_aligns old new)) as Ho.
  assert (Hnd : NoDup (kept (lcs_steps old new) ++ deletes (lcs_steps old new))).
  { rewrite <-Hp, Ho. apply NoDup_seq. }
  assert (Hin : i < length old ↔ i ∈ kept (lcs_steps old new) ++ deletes (lcs_steps old new)).
  { rewrite <-Hp, Ho, elem_of_seq. lia. }
  rewrite Hin, elem_of_app. apply NoDup_app in Hnd as (_ & Hd & _). specialize (Hd i). naive_solver.
Qed.
End claims.

(** The alignment is a correct edit script.  It visits every old index and
    every new index exactly once and in order, and following it turns [old]
    into [new], keeping a unit only where the graphemes agree.  The indices to
    delete come out strictly descending and are exactly the old indices that are
    not kept; the indices to insert come out strictly ascending. *)
Theorem lcs_steps_edit (old new : list string) :
  let steps := lcs_steps old new in
  old_indices steps = seq 0 (length old) ∧ new_indices steps = seq 0 (length new) ∧
  edit_result old new steps = new ∧
  StronglySorted gt (delete_indices_high_to_low steps) ∧
  (∀ i, i ∈ delete_indices_high_to_low steps ↔ i < length old ∧ i ∉ kept steps) ∧
  StronglySorted lt (insert_new_indices steps).
Proof.
  intros steps. destruct (lcs_steps_aligns old new) as [Ho Hn He _]. fold steps in Ho, Hn, He.
  split_and!; [done|done| | | |apply inserts_sorted].
  - rewrite (edit_result_new old new _ (length new)) by done. apply take_ge. lia.
  - unfold steps. rewrite delete_indices_reverse. apply StronglySorted_reverse, deletes_sorted.
  - intros i. unfold steps. rewrite delete_indices_reverse, elem_of_reverse. apply deletes_spec.
Qed.

Section optimal.
Context (old new : list string).

Lemma sublist_snoc_drop {A} (c l : list A) z x : c ++ [z] `sublist_of` l ++ [x] → c `sublist_of` l.
Proof.
  intros Hs. apply sublist_app_r in Hs as (k1 & k2 & Heq & H1 & H2).
  destruct k2 as [|y k2].
  - rewrite app_nil_r in Heq. subst k1. etrans; [|done]. by apply sublist_inserts_r.
  - assert (k2 = []) as ->.
    { apply sublist_length in H2. simpl in H2. destruct k2; simpl in H2; [done|lia]. }
    apply app_inj_tail in Heq as [-> _]. done.
Qed.

Lemma sublist_snoc_ne {A} (c l : list A) z x :
  c ++ [z] `sublist_of` l ++ [x] → z ≠ x → c ++ [z] `sublist_of` l.
Proof.
  intros Hs Hne. apply sublist_app_r in Hs as (k1 & k2 & Heq & H1 & H2).
  destruct k2 as [|y k2]; [by rewrite Heq, app_nil_r|].
  assert (k2 = []) as ->.
  { apply sublist_length in H2. simpl in H2. destruct k2; simpl in H2; [done|lia]. }
  apply app_inj_tail in Heq as [_ ->].
  apply elem_of_sublist with (x := y) in H2; [|set_solver].
  apply list_elem_of_singleton in H2. done.
Qed.

Lemma lcs_len_max c i j :
  i ≤ length old → j ≤ length new →
  c `sublist_of` take i old → c `sublist_of` take j new → length c ≤ lcs_len old new i j.
Proof.
  revert j c. induction i as [|i IHi]; intros j c Hi Hj Ho Hn.
  { apply sublist_length in Ho. rewrite take_0 in Ho. simpl in Ho. lia. }
  revert c Ho Hn. induction j as [|j IHj]; intros c Ho Hn.
  { apply sublist_length in Hn. rewrite take_0 in Hn. simpl in Hn. lia. }
  destruct c as [|z c _] using rev_ind; [simpl; lia|].
  destruct (lookup_lt_is_Some_2 old i) as [x Hx]; [lia|].
  destruct (lookup_lt_is_Some_2 new j) as [y Hy]; [lia|].
  rewrite (take_S_r _ _ _ Hx) in Ho. rewrite (take_S_r _ _ _ Hy) in Hn. rewrite lcs_len_SS.
  unfold same_at. rewrite Hx, Hy. case_bool_decide as Heq.
  - rewrite length_app. simpl.
    assert (length c ≤ lcs_len old new i j); [|lia].
    apply IHi; [lia|lia|by eapply sublist_snoc_drop|by eapply sublist_snoc_drop].
  - destruct (decide (z = x)) as [->|Hzx].
    + apply sublist_snoc_ne in Hn; [|congruence].
      assert (length (c ++ [x]) ≤ lcs_len old new (S i) j); [|lia].
      apply IHj; [lia|by rewrite (take_S_r _ _ _ Hx)|done].
    + apply sublist_snoc_ne in Ho; [|done].
      assert (length (c ++ [z]) ≤ lcs_len old new i (S j)); [|lia].
      apply IHi; [lia|lia|done|by rewrite (take_S_r _ _ _ Hy)].
Qed.

Lemma omap_lookup_seq (l : list string) : omap (l !!.) (seq 0 (length l)) = l.
Proof.
  induction l as [|x l IH] using rev_ind; [done|].
  rewrite length_app. simpl. rewrite Nat.add_1_r, seq_S, omap_app. simpl.
  rewrite list_lookup_middle by done. f_equal.
  transitivity (omap (l !!.) (seq 0 (length l))); [|done]. apply list_omap_ext, Forall_Forall2_diag, Forall_forall.
  intros k Hk%elem_of_seq. apply lookup_app_l. lia.
Qed.
End optimal.

(** The alignment keeps as many units as possible.  The kept units form a
    common subsequence of the two texts, and no common subsequence is longer;
    so an external edit never replaces a unit, and loses its identity, when it
    could have been kept. *)
Theorem lcs_steps_optimal (old new : list string) :
  let keep := kept (lcs_steps old new) in
  omap (old !!.) keep `sublist_of` old ∧ omap (old !!.) keep `sublist_of` new ∧
  length (omap (old !!.) keep) = length keep ∧
  ∀ c, c `sublist_of` old → c `sublist_of` new → length c ≤ length keep.
Proof.
  intros keep. destruct (lcs_steps_aligns old new) as [Ho Hn He Hk]. fold keep in Hk.
  assert (Hlt : ∀ i, i ∈ keep → i < length old).
  { intros i Hi. assert (i ∈ old_indices (lcs_steps old new)) as Hi'; [|rewrite Ho, elem_of_seq in Hi'; lia].
    eapply elem_of_sublist; [exact Hi|]. apply omap_sublist. by intros [] ?. }
  split_and!.
  - transitivity (omap (old !!.) (seq 0 (length old))); [|by rewrite omap_lookup_seq].
    rewrite <-Ho. apply omap_sublist_r.
    apply omap_sublist. by intros [] ?.
  - assert (Hks : omap (old !!.) keep `sublist_of` edit_result old new (lcs_steps old new)).
    { unfold keep, kept. rewrite <-(omap_compose (λ s, match s with StepEqual o _ => old !! o | _ => None end)).
      - apply omap_sublist. by intros [] ?.
      - by intros []. }
    rewrite (edit_result_new old new _ (length new)), take_ge in Hks by done. done.
  - clear Hk. induction keep as [|i l IH]; [done|]. simpl.
    destruct (lookup_lt_is_Some_2 old i) as [x Hx]; [apply Hlt; set_solver|].
    rewrite Hx. simpl. f_equal. apply IH. intros k ?. apply Hlt. set_solver.
  - intros c Hco Hcn. rewrite Hk. apply lcs_len_max; [done|done|by rewrite take_ge|by rewrite take_ge].
Qed.
