(* ===== verification/Text.v ===== *)
(** * Paragraph text as a replicated sequence of graphemes

    Models [src/src/doc/text.rs].  Splitting a string into grapheme clusters is
    done by the crate [unicode_segmentation]; it is the parameter [graphemes]
    of this file, of which only one documented fact is used: the clusters of a
    string, put back together, are the string. *)

From S2P Require Import Prelude Core Sequence SequenceOrder SequenceInv SequenceRefine.
From S2P Require Import SequenceProps.
From S2P Require Import SequenceView.

Record TextUnit := mkUnit { grapheme : string }.

#[export] Instance TextUnit_eq_dec : EqDecision TextUnit.
Proof. solve_decision. Defined.

(** [concat]: the strings of a list one after the other. *)
Definition string_concat (l : list string) : string := foldr String.append EmptyString l.

Section text.
Context (sequence_incremental : bool).
(** [str::graphemes(true)]. *)
Context (graphemes : string → list string).
Implicit Types s : Sequence TextUnit.

Definition grapheme_count (text : string) : nat := length (graphemes text).

(** One round of the loop of [units_from_str]. *)
Definition push_unit (peer : PeerId) (acc : list (OpId * TextUnit) * N) (g : string) :
    list (OpId * TextUnit) * N :=
  (acc.1 ++ [(mkOpId acc.2 peer, mkUnit g)], u64_saturating_add acc.2 1).

(** The sequence, and the advanced counter. *)
Definition units_from_str (text : string) (counter : N) (peer : PeerId) : Sequence TextUnit * N :=
  let '(items, counter) := fold_left (push_unit peer) (graphemes text) ([], counter) in
  (from_ordered items, counter).

Definition units_from_str_at (text : string) (start : OpId) : Sequence TextUnit :=
  (units_from_str text (counter start) (peer start)).1.

Definition paragraph_visible_string s : string :=
  fold_left (λ out u, String.append out (grapheme u)) (sequence_iter s) EmptyString.

Definition paragraph_visible_ids s : list OpId :=
  elem_id <$> filter (λ e, is_Some (elem_value e)) (seq_elements s).

Definition after_for_grapheme_offset s (grapheme_offset : nat) : option OpId :=
  match grapheme_offset with
  | 0 => None
  | S k => paragraph_visible_ids s !! k
  end.

(** One round of the loop of [insert_graphemes]: the sequence, the anchor, the
    counter and the number of inserted units. *)
Definition insert_grapheme (peer : PeerId) (acc : Sequence TextUnit * option OpId * N * nat)
    (g : string) : Sequence TextUnit * option OpId * N * nat :=
  let '(s, after, counter, n) := acc in
  let id := mkOpId counter peer in
  (sequence_insert sequence_incremental after (mkUnit g) id s, Some id,
   u64_saturating_add counter 1, n + 1).

Definition insert_graphemes (grapheme_offset : nat) (text : string) (op_id : OpId) s :
    Sequence TextUnit * option nat :=
  if decide (len_visible s < grapheme_offset) then (s, None)
  else
    let after := after_for_grapheme_offset s grapheme_offset in
    let '(s, _, _, n) :=
      fold_left (insert_grapheme (peer op_id)) (graphemes text) (s, after, counter op_id, 0) in
    (s, Some n).
End text.

(** ** Building a paragraph *)

Lemma append_empty_r a : String.append a EmptyString = a.
Proof. induction a as [|c a IH]; [done|]. exact (f_equal (String c) IH). Qed.
Lemma append_assoc a b c : String.append (String.append a b) c = String.append a (String.append b c).
Proof. induction a as [|x a IH]; [done|]. exact (f_equal (String x) IH). Qed.

Lemma fold_append (us : list TextUnit) acc :
  fold_left (λ out u, String.append out (grapheme u)) us acc =
  String.append acc (string_concat (grapheme <$> us)).
Proof.
  revert acc. induction us as [|u us IH]; intros acc; simpl; [by rewrite append_empty_r|].
  rewrite IH. apply append_assoc.
Qed.

Lemma visible_string_spec s :
  paragraph_visible_string s = string_concat (grapheme <$> sequence_iter s).
Proof. unfold paragraph_visible_string. by rewrite fold_append. Qed.

Definition unit_id (peer : PeerId) (counter : N) (i : nat) : OpId :=
  mkOpId (counter + N.of_nat i) peer.

Lemma push_units p gs c acc :
  (c + N.of_nat (length gs) ≤ u64_max)%N →
  fold_left (push_unit p) gs (acc, c) =
    (acc ++ imap (λ i g, (unit_id p c i, mkUnit g)) gs, (c + N.of_nat (length gs))%N).
Proof.
  revert c acc. induction gs as [|g gs IH]; intros c acc Hc; simpl.
  { by rewrite app_nil_r, N.add_0_r. }
  unfold push_unit at 2. simpl length in Hc. unfold u64_saturating_add. simpl.
  rewrite N.min_l by lia. rewrite IH by lia. f_equal; [|lia].
  rewrite <-(assoc_L (++)). simpl. unfold unit_id at 2. rewrite N.add_0_r. do 2 f_equal.
  apply imap_ext. intros i x _. simpl. f_equal. unfold unit_id. f_equal. lia.
Qed.

Lemma NoDup_unit_ids p c (gs : list string) :
  NoDup ((imap (λ i g, (unit_id p c i, mkUnit g)) gs).*1).
Proof.
  rewrite fmap_imap. apply NoDup_alt. intros i j x.
  rewrite !list_lookup_imap, !fmap_Some. intros (? & _ & ->) (? & _ & Heq).
  injection Heq as Heq. lia.
Qed.

Section paragraph.
Context (graphemes : string → list string).
Hypothesis graphemes_concat : ∀ text, string_concat (graphemes text) = text.

Lemma text_inv (text : string) (c : N) (p : PeerId) :
  (c + N.of_nat (grapheme_count graphemes text) ≤ u64_max)%N →
  sequence_inv (units_from_str graphemes text c p).1.
Proof.
  unfold grapheme_count. intros Hc. unfold units_from_str. rewrite push_units by done. simpl.
  set (items := imap _ _).
  pose proof (from_ordered_inv_spec items (NoDup_unit_ids p c (graphemes text))) as Hspec.
  unfold from_ordered. fold (from_ordered_acc items).
  destruct (from_ordered_acc items) as [[els idx] after]. apply Hspec.
Qed.

(** turning a string into a paragraph and reading it back gives the
    string; the paragraph has one unit per grapheme with consecutive ids from
    the given counter, the counter is advanced past them, and the result is a
    well-formed sequence.  The ids must fit [u64]. *)
Theorem text_roundtrip (text : string) (c : N) (p : PeerId) :
  (c + N.of_nat (grapheme_count graphemes text) ≤ u64_max)%N →
  let '(s, c') := units_from_str graphemes text c p in
  paragraph_visible_string s = text ∧
  sequence_inv s ∧
  c' = (c + N.of_nat (grapheme_count graphemes text))%N ∧
  paragraph_visible_ids s = unit_id p c <$> seq 0 (grapheme_count graphemes text).
Proof.
  unfold grapheme_count. intros Hc. unfold units_from_str. rewrite push_units by done. simpl.
  set (items := imap _ _).
  pose proof (from_ordered_inv_spec items (NoDup_unit_ids p c (graphemes text))) as Hspec.
  unfold from_ordered. fold (from_ordered_acc items).
  destruct (from_ordered_acc items) as [[els idx] after]. destruct Hspec as (Hinv & _ & Hids & Hvals).
  split_and!; [|done..|].
  - rewrite visible_string_spec. unfold sequence_iter. simpl.
    rewrite (omap_Some_values _ _ Hvals). transitivity (string_concat (graphemes text)); [|apply graphemes_concat]. f_equal.
    unfold items. rewrite <-list_fmap_compose, fmap_imap. simpl.
    apply list_eq. intros i. rewrite list_lookup_imap. by destruct (graphemes text !! i).
  - unfold paragraph_visible_ids. simpl.
    assert (Hall : filter (λ e, is_Some (elem_value e)) els = els).
    { apply filter_all. rewrite Forall_forall. intros e He.
      assert (Hin : elem_value e ∈ elem_value <$> els) by by apply list_elem_of_fmap_2.
      rewrite Hvals in Hin. apply list_elem_of_fmap in Hin as (? & -> & _). eauto. }
    rewrite Hall, Hids. unfold items. rewrite fmap_imap. simpl.
    apply list_eq. intros i. rewrite list_lookup_imap, list_lookup_fmap.
    destruct (graphemes text !! i) as [g|] eqn:Hg; simpl.
    + rewrite lookup_seq_lt by by eapply lookup_lt_Some. done.
    + apply lookup_ge_None in Hg. by rewrite lookup_seq_ge.
Qed.
End paragraph.

(** The trivial segmentation: one grapheme per character. *)
Fixpoint characters (text : string) : list string :=
  match text with
  | EmptyString => []
  | String c text => String c EmptyString :: characters text
  end.

Lemma characters_concat text : string_concat (characters text) = text.
Proof. induction text as [|c text IH]; [done|]. exact (f_equal (String c) IH). Qed.

Lemma text_roundtrip_witness :
  paragraph_visible_string (units_from_str characters "abc" 5 1).1 = "abc".
Proof.
  refine (proj1 (text_roundtrip characters characters_concat "abc" 5 1 _)). by vm_compute.
Defined.

(** ** Inserting into a paragraph *)

Section insert.
Context (inc : bool).
Implicit Types s : Sequence TextUnit.

(** The ids the insert will use are new and nothing waits for them. *)
Definition fresh_ids s (p : PeerId) (c : N) (k : nat) : Prop :=
  ∀ i, i < k → emap s !! unit_id p c i = None ∧ not_awaited (unit_id p c i) s.

(** Placing one unit: the others keep their elements, the rest of the ids
    stays fresh, and nothing is anchored to the new unit. *)
Lemma place_unit s p c k after v ro :
  sequence_inv s → fresh_ids s p c (S k) → anchored (emap s) after = true →
  let id := mkOpId c p in
  let s' := apply inc (Insert after id v ro) s in
  sequence_inv s' ∧ fresh_ids s' p (c + 1) k ∧
  (∀ e, e ∈ seq_elements s' → elem_after e ≠ Some id) ∧
  ∃ eu ev, seq_elements s = eu ++ ev ∧ seq_elements s' = eu ++ mkElement id (Some v) after ro :: ev.
Proof.
  intros Hinv Hf Ha id s'.
  destruct (Hf 0) as [Hfresh Hna]; [lia|]. unfold unit_id in Hfresh, Hna.
  rewrite N.add_0_r in Hfresh, Hna. fold id in Hfresh, Hna.
  destruct (view_insert inc after id v ro s Hinv Hna Hfresh Ha) as (Hi & [Hb1 Hb2] & eu & ev & Hs & Hs').
  fold s' in Hi, Hb1, Hb2, Hs'. split_and!; [done| | |eauto].
  - intros i Hlt. destruct (Hf (S i)) as [Hfi [Hn1 Hn2]]; [lia|].
    assert (Heq : unit_id p (c + 1) i = unit_id p c (S i)) by (unfold unit_id; f_equal; lia).
    rewrite Heq. split; [|split; congruence].
    apply eq_None_not_Some. rewrite <-canonical_dom. unfold element_ids.
    rewrite Hs', fmap_app. simpl. intros Hin.
    assert (unit_id p c (S i) ∈ element_ids s) as Hin'.
    { unfold element_ids. rewrite Hs, fmap_app.
      apply elem_of_app in Hin as [?|[Heq'|?]%elem_of_cons]; [set_solver| |set_solver].
      unfold unit_id, id in Heq'. injection Heq'. lia. }
    apply canonical_dom in Hin'. rewrite Hfi in Hin'. by destruct Hin'.
  - intros e He Hae. rewrite Hs', elem_of_app, elem_of_cons in He.
    assert (Hold : e ∈ seq_elements s → False).
    { intros Hin. destruct (anchor_present s e id Hinv Hin Hae). congruence. }
    destruct He as [He|[->|He]]; [apply Hold; rewrite Hs; set_solver| |apply Hold; rewrite Hs; set_solver].
    simpl in Hae. subst after. apply bool_decide_eq_true in Ha. rewrite Hfresh in Ha. by destruct Ha.
Qed.

(** The loop, once a unit is in place: the rest follows right behind it. *)
Lemma insert_run p gs s c n eu ea ev :
  sequence_inv s → seq_elements s = eu ++ ea :: ev →
  (∀ e, e ∈ seq_elements s → elem_after e ≠ Some (elem_id ea)) →
  fresh_ids s p c (length gs) → (c + N.of_nat (length gs) ≤ u64_max)%N →
  let '(s', _, _, n') :=
    fold_left (insert_grapheme inc p) gs (s, Some (elem_id ea), c, n) in
  sequence_inv s' ∧ n' = n + length gs ∧
  ∃ run, seq_elements s' = eu ++ ea :: run ++ ev ∧ elem_value <$> run = Some ∘ mkUnit <$> gs.
Proof.
  revert s c n eu ea. induction gs as [|g gs IH]; intros s c n eu ea Hinv Hs Hleaf Hf Hc; simpl.
  { split_and!; [done|lia|]. by exists []. }
  unfold sequence_insert. set (ro := compute_right_origin _ _).
  assert (Ha : anchored (emap s) (Some (elem_id ea)) = true).
  { apply bool_decide_eq_true. exists ea. apply emap_elem; [apply Hinv|]. rewrite Hs. set_solver. }
  destruct (place_unit s p c (length gs) (Some (elem_id ea)) (mkUnit g) ro Hinv Hf Ha)
    as (Hi & Hf' & Hleaf' & _).
  destruct (Hf 0) as [Hfresh Hna]; [simpl; lia|]. unfold unit_id in Hfresh, Hna.
  rewrite N.add_0_r in Hfresh, Hna.
  pose proof (view_insert_after inc (elem_id ea) (mkOpId c p) (mkUnit g) ro s eu ea ev
    Hinv Hna Hfresh Hs eq_refl Hleaf) as Hs'.
  set (s1 := apply inc _ s) in *. set (e := mkElement (mkOpId c p) _ _ _) in *.
  unfold u64_saturating_add. simpl in Hc. rewrite N.min_l by lia.
  specialize (IH s1 (c + 1)%N (n + 1) (eu ++ [ea]) e Hi).
  change (Some (mkOpId c p)) with (Some (elem_id e)).
  destruct (fold_left _ gs _) as [[[s' a'] c'] n'].
  destruct IH as (Hi' & -> & run & Hrun & Hvals); [by rewrite <-(assoc_L (++))|done|done|lia|].
  split_and!; [done|lia|]. exists (e :: run). split; [|by csimpl; rewrite Hvals].
  rewrite Hrun. by rewrite <-(assoc_L (++)).
Qed.

Lemma length_visible (els : list (Element TextUnit)) :
  length (omap elem_value els) = length (filter (λ e, is_Some (elem_value e)) els).
Proof.
  induction els as [|e els IH]; [done|]. rewrite filter_cons. csimpl.
  destruct (elem_value e) eqn:He.
  - rewrite decide_True by eauto. simpl. by rewrite IH.
  - rewrite decide_False by by intros []. done.
Qed.

(** A visible anchor at offset [k] that stands in [eu] has [k] visible units
    before it. *)
Lemma anchor_offset s eu ev k a :
  sequence_inv s → seq_elements s = eu ++ ev → paragraph_visible_ids s !! k = Some a →
  a ∈ elem_id <$> eu → k < length (omap elem_value eu).
Proof.
  intros Hinv Hs Hk Ha. unfold paragraph_visible_ids in Hk. rewrite Hs, filter_app, fmap_app in Hk.
  rewrite length_visible. apply lookup_app_Some in Hk as [Hk|[Hge Hk]].
  { apply lookup_lt_Some in Hk. by rewrite length_fmap in Hk. }
  exfalso. apply list_elem_of_lookup_2 in Hk.
  assert (Hnd : NoDup (elem_id <$> eu ++ ev)) by (rewrite <-Hs; apply Hinv).
  rewrite fmap_app in Hnd. apply NoDup_app in Hnd as (_ & Hd & _). apply (Hd a Ha).
  apply list_elem_of_fmap in Hk as (e & -> & [_ He]%list_elem_of_filter).
  by apply list_elem_of_fmap_2.
Qed.

(** ... and exactly [k] when it is the last of them. *)
Lemma anchor_offset_last s eu ea ev k :
  sequence_inv s → seq_elements s = eu ++ ea :: ev →
  paragraph_visible_ids s !! k = Some (elem_id ea) → length (omap elem_value (eu ++ [ea])) = S k.
Proof.
  intros Hinv Hs Hk.
  assert (Hnd : NoDup (elem_id <$> eu ++ ea :: ev)) by (rewrite <-Hs; apply Hinv).
  assert (Hsome : is_Some (elem_value ea)).
  { pose proof (list_elem_of_lookup_2 _ _ _ Hk) as Hin. unfold paragraph_visible_ids in Hin.
    apply list_elem_of_fmap in Hin as (e & Heq & [He Hin]%list_elem_of_filter).
    replace ea with e; [done|]. rewrite Hs in Hin.
    eapply (NoDup_fmap_inj_on elem_id); [exact Hnd|done|set_solver|done]. }
  rewrite omap_app, length_app, !length_visible. rewrite filter_cons, decide_True by done. simpl.
  unfold paragraph_visible_ids in Hk. rewrite Hs, filter_app, filter_cons, decide_True in Hk by done.
  rewrite fmap_app in Hk. simpl in Hk.
  assert (k = length (filter (λ e, is_Some (elem_value e)) eu)); [|lia].
  eapply NoDup_lookup; [|exact Hk|].
  - eapply (sublist_NoDup _ (elem_id <$> eu ++ ea :: ev)); [done|].
    rewrite fmap_app. apply sublist_app; [|apply sublist_skip]; apply sublist_fmap, sublist_filter.
  - rewrite <-(length_fmap elem_id). by apply list_lookup_middle.
Qed.

Lemma after_anchored s k :
  sequence_inv s → k ≤ len_visible s → anchored (emap s) (after_for_grapheme_offset s k) = true.
Proof.
  intros Hinv Hk. destruct k as [|k]; [done|]. simpl.
  destruct (paragraph_visible_ids s !! k) as [a|] eqn:Ha; [|done].
  simpl. apply bool_decide_eq_true. apply list_elem_of_lookup_2 in Ha.
  unfold paragraph_visible_ids in Ha. apply list_elem_of_fmap in Ha as (e & -> & [_ He]%list_elem_of_filter).
  exists e. by apply emap_elem; [apply Hinv|].
Qed.
End insert.

(** The first inserted unit sorts before every unit with the same anchor. *)
Definition sorts_first (op_id : OpId) (after : option OpId) (s : Sequence TextUnit) : Prop :=
  ∀ e, e ∈ seq_elements s → elem_after e = after →
    compare_siblings (mkElement op_id None after (compute_right_origin after s)) e = Lt.

(** Where the first inserted unit lands: behind its anchor, and directly behind
    it when it sorts first. *)
Lemma unit_offset inc s offset id g eu ev :
  let after := after_for_grapheme_offset s offset in
  let ro := compute_right_origin after s in
  let s1 := apply inc (Insert after id (mkUnit g) ro) s in
  sequence_inv s → sequence_inv s1 → offset ≤ len_visible s →
  emap s !! id = None → not_awaited id s →
  seq_elements s = eu ++ ev →
  seq_elements s1 = eu ++ mkElement id (Some (mkUnit g)) after ro :: ev →
  offset ≤ length (omap elem_value eu) ∧
  (sorts_first id after s → length (omap elem_value eu) = offset).
Proof.
  intros after ro s1 Hinv Hi Hoff Hfresh Hna Hs Hs1.
  pose proof (after_anchored s offset Hinv Hoff) as Ha. fold after in Ha.
  set (e := mkElement id (Some (mkUnit g)) after ro) in *.
  assert (Hcase : after = None ∧ offset = 0 ∨
    ∃ k a, offset = S k ∧ after = Some a ∧ paragraph_visible_ids s !! k = Some a).
  { unfold after, after_for_grapheme_offset. destruct offset as [|k]; [auto|right].
    destruct (lookup_lt_is_Some_2 (paragraph_visible_ids s) k) as [a Hk]; [|eauto].
    unfold paragraph_visible_ids. rewrite length_fmap. unfold len_visible in Hoff. lia. }
  clearbody after. split.
  - destruct Hcase as [[_ ->]|(k & a & -> & -> & Hk)]; [lia|].
    apply (anchor_offset s eu ev k a); [done..|].
    destruct (canonical_parent_before s1 (length eu) id e a) as (j & Hj & Hja); [apply Hi| | |done|].
    + unfold element_ids. rewrite Hs1, fmap_app. simpl.
      rewrite <-(length_fmap elem_id eu). by apply list_lookup_middle.
    + apply emap_elem_of; [done|]. rewrite Hs1. split; [set_solver|done].
    + unfold element_ids in Hja. rewrite Hs1, fmap_app, lookup_app_l in Hja
        by (rewrite length_fmap; lia). by eapply list_elem_of_lookup_2.
  - intros Hfirst.
    pose proof (view_insert_first inc after id (mkUnit g) ro s Hinv Hna Hfresh Ha Hfirst) as Hplace.
    cbv zeta in Hplace. fold e s1 in Hplace.
    assert (Hnd1 : NoDup (eu ++ e :: ev)) by (rewrite <-Hs1; eapply (NoDup_fmap_1 elem_id), Hi).
    destruct Hcase as [[-> ->]|(k & a & -> & -> & Hk)].
    + rewrite Hs1 in Hplace. by destruct (NoDup_split_unique eu [] e ev _ Hplace Hnd1) as [-> _].
    + destruct Hplace as (eu' & ea & ev' & <- & Hse & Hs1e).
      rewrite Hs1 in Hs1e. rewrite (cons_middle ea), (app_assoc eu' [ea]) in Hs1e.
      destruct (NoDup_split_unique _ _ _ _ _ Hs1e Hnd1) as [-> ->].
      by apply (anchor_offset_last s eu' ea ev' k).
Qed.

(** C33: Inserting text into a paragraph.  An offset beyond the visible text is
    refused and changes nothing.  Otherwise every grapheme becomes one unit, the
    inserted text stands together and in order, no other visible unit moves or
    changes, and the text lands at or behind the requested offset; it lands
    exactly there when its first unit sorts before the units that share its
    anchor. *)
Theorem insert_graphemes_spec (inc : bool) (graphemes : string → list string) (offset : nat)
    (text : string) (op_id : OpId) (s : Sequence TextUnit) :
  sequence_inv s →
  fresh_ids s (peer op_id) (counter op_id) (grapheme_count graphemes text) →
  (counter op_id + N.of_nat (grapheme_count graphemes text) ≤ u64_max)%N →
  match insert_graphemes inc graphemes offset text op_id s with
  | (s', None) => s' = s ∧ len_visible s < offset
  | (s', Some n) =>
    offset ≤ len_visible s ∧ n = grapheme_count graphemes text ∧ sequence_inv s' ∧
    ∃ u v, sequence_iter s = u ++ v ∧ sequence_iter s' = u ++ (mkUnit <$> graphemes text) ++ v ∧
      offset ≤ length u ∧
      (sorts_first op_id (after_for_grapheme_offset s offset) s → length u = offset)
  end.
Proof.
  intros Hinv Hf Hc. unfold insert_graphemes, grapheme_count in *.
  destruct (decide (len_visible s < offset)) as [|Hoff]; [done|].
  assert (Hlen : length (sequence_iter s) = len_visible s) by apply length_visible.
  destruct (graphemes text) as [|g gs].
  { simpl. split_and!; [lia|done|done|].
    exists (take offset (sequence_iter s)), (drop offset (sequence_iter s)).
    rewrite take_drop. split_and!; [done|done|rewrite length_take; lia|rewrite length_take; lia]. }
  pose proof (after_anchored s offset Hinv ltac:(lia)) as Ha.
  set (after := after_for_grapheme_offset s offset) in *.
  cbn [length] in Hf, Hc. cbn [fold_left]. unfold insert_grapheme at 2, sequence_insert.
  set (ro := compute_right_origin after s).
  replace (mkOpId (counter op_id) (peer op_id)) with op_id by by destruct op_id.
  pose proof (place_unit inc s (peer op_id) (counter op_id) (length gs) after (mkUnit g) ro Hinv Hf Ha)
    as Hplace. replace (mkOpId (counter op_id) (peer op_id)) with op_id in Hplace by by destruct op_id.
  destruct Hplace as (Hi & Hf' & Hleaf & eu & ev & Hs & Hs1).
  destruct (Hf 0) as [Hfresh Hna]; [lia|]. unfold unit_id in Hfresh, Hna.
  rewrite N.add_0_r in Hfresh, Hna.
  replace (mkOpId (counter op_id) (peer op_id)) with op_id in Hfresh, Hna by by destruct op_id.
  pose proof (unit_offset inc s offset op_id g eu ev Hinv Hi ltac:(lia) Hfresh Hna Hs Hs1) as [Hle Heq].
  unfold u64_saturating_add. rewrite N.min_l by lia.
  pose proof (insert_run inc (peer op_id) gs _ (counter op_id + 1) (0 + 1) eu _ ev Hi Hs1 Hleaf Hf'
    ltac:(lia)) as Hrun. cbn [elem_id] in Hrun.
  destruct (fold_left _ gs _) as [[[s' a'] c'] n']. destruct Hrun as (Hi' & -> & run & Hs' & Hvals).
  split_and!; [lia|done|done|]. exists (omap elem_value eu), (omap elem_value ev).
  split_and!; [by unfold sequence_iter; rewrite Hs, omap_app| |done|done].
  unfold sequence_iter. rewrite Hs', omap_app. csimpl. rewrite omap_app.
  rewrite list_fmap_compose in Hvals. by rewrite (omap_Some_values _ _ Hvals).
Qed.

Lemma insert_graphemes_spec_witness :
  let s := units_from_str_at characters "ad" (mkOpId 1 1) in
  ∃ u v, sequence_iter s = u ++ v ∧
    sequence_iter (insert_graphemes true characters 1 "bc" (mkOpId 3 1) s).1 =
      u ++ [mkUnit "b"; mkUnit "c"] ++ v ∧ length u = 1.
Proof.
  intros s. pose proof (insert_graphemes_spec true characters 1 "bc" (mkOpId 3 1) s) as H.
  destruct (insert_graphemes true characters 1 "bc" (mkOpId 3 1) s) as [s' [n|]] eqn:Hi;
    [|exfalso; pose proof (f_equal snd Hi) as Hn; by vm_compute in Hn].
  destruct H as (_ & _ & _ & u & v & Hu & Hv & _ & Hl).
  - apply (text_inv characters "ad" 1 1). by vm_compute.
  - intros i Hlt. vm_compute in Hlt. assert (i = 0 ∨ i = 1) as [->| ->] by lia;
      (split; [by vm_compute|by split; vm_compute]).
  - by vm_compute.
  - exists u, v. split_and!; [done|exact Hv|]. apply Hl.
    intros e He Hae. vm_compute in He.
    repeat (apply elem_of_cons in He as [->|He]; [vm_compute in Hae |- *; done|]).
    by apply not_elem_of_nil in He.
Defined.
