(* ===== verification/MarkOps.v ===== *)
(** * Marks under text edits

    Models [src/src/doc/mark_ops.rs]: which marks an insert inherits, and how
    removing a range from a mark splits its interval. *)

From S2P Require Import Prelude Core Mark MarkProps.

(** [order.iter().position(|id| id == anchor.elem_id).unwrap_or(0)] with the bias. *)
Definition resolve_anchor_in (anchor : Anchor) (order : list OpId) (len : nat) : nat :=
  let idx := default 0 (position (λ id, bool_decide (id = anchor_elem anchor)) order) in
  match anchor_bias anchor with
  | Before => idx
  | After => Nat.min (idx + 1) len
  end.

Definition expand_marks_for_insert (mark_set : MarkSet) (element_order : list OpId)
    (visible_len : nat) (anchor : Anchor) (expand : bool) : list OpId :=
  if expand then
    let index := resolve_anchor_in anchor element_order visible_len in
    match list_find (λ span, span_start span ≤ index < span_end span)
            (render_spans mark_set element_order visible_len) with
    | Some (_, span) => span_marks span
    | None => []
    end
  else [].

(** The attributes of a split interval: the current values, written anew. *)
Definition restamp_attrs (id : OpId) (attrs : gmap string (LwwRegister MarkValue)) :
    gmap string (LwwRegister MarkValue) :=
  (λ r, Lww.new (Lww.get r) id) <$> attrs.

Definition lower_remove_mark_range (mark_set : MarkSet) (interval_id : OpId)
    (remove_start remove_end : Anchor) (next_id : OpId) (element_order : list OpId) :
    list MarkInterval * list OpId :=
  if negb (is_active mark_set interval_id) then ([], [])
  else
    match list_find (λ i, mi_id i = interval_id) (active_intervals mark_set) with
    | None => ([], [interval_id])
    | Some (_, interval) =>
      let len := length element_order in
      let pos a := resolve_anchor_in a element_order len in
      let left_needed := pos (mi_start interval) <? pos remove_start in
      let right_needed := pos remove_end <? pos (mi_end interval) in
      let left :=
        if left_needed then
          [mkInterval next_id (mi_kind interval) (mi_start interval) remove_start
             (restamp_attrs next_id (mi_attrs interval)) next_id]
        else [] in
      let right :=
        if right_needed then
          let id := mkOpId (u64_wrapping_add (counter next_id) 1) (peer next_id) in
          [mkInterval id (mi_kind interval) remove_end (mi_end interval)
             (restamp_attrs id (mi_attrs interval)) id]
        else [] in
      (left ++ right, [interval_id])
    end.

(** ** Properties *)

(** The visible position of an anchor, and the positions of an interval. *)
Definition anchor_pos (order : list OpId) (a : Anchor) : nat :=
  resolve_anchor_in a order (length order).
Definition covers (order : list OpId) (i : MarkInterval) (p : nat) : Prop :=
  anchor_pos order (mi_start i) ≤ p < anchor_pos order (mi_end i).

(** The interval carries the same mark: its kind and attribute values. *)
Definition same_mark (i j : MarkInterval) : Prop :=
  mi_kind j = mi_kind i ∧ (Lww.get <$> mi_attrs j) = (Lww.get <$> mi_attrs i).

Lemma restamp_values id attrs : Lww.get <$> restamp_attrs id attrs = Lww.get <$> attrs.
Proof.
  unfold restamp_attrs. rewrite <-map_fmap_compose. apply map_fmap_ext. by intros ? [].
Qed.

Lemma find_active ms id i :
  markset_wf ms → intervals ms !! id = Some i → is_active ms id = true →
  ∃ k, list_find (λ i, mi_id i = id) (active_intervals ms) = Some (k, i).
Proof.
  intros Hwf Hi Ha.
  assert (Hin : i ∈ active_intervals ms).
  { apply list_elem_of_filter. rewrite (Hwf _ _ Hi). split; [done|].
    apply elem_of_btree_values. eauto. }
  destruct (list_find (λ i, mi_id i = id) (active_intervals ms)) as [[k j]|] eqn:Hf.
  - apply list_find_Some in Hf as (Hk & Hid & _). exists k. do 2 f_equal.
    apply list_elem_of_lookup_2, list_elem_of_filter in Hk as [_ [id' Hj]%elem_of_btree_values].
    pose proof (Hwf _ _ Hj). congruence.
  - apply list_find_None in Hf. rewrite Forall_forall in Hf. destruct (Hf i Hin). by apply Hwf.
Qed.

(** removing a range that overlaps a mark.  The mark's interval is
    replaced by at most two intervals that together cover exactly the positions
    it covered outside the removed range, carry the same kind and attribute
    values, and have the two fresh ids in order. *)
Theorem remove_range_splits (ms : MarkSet) (id : OpId) (i : MarkInterval)
    (remove_start remove_end : Anchor) (next_id : OpId) (order : list OpId) :
  markset_wf ms → intervals ms !! id = Some i → is_active ms id = true →
  let pos := anchor_pos order in
  pos remove_start ≤ pos remove_end → pos remove_start ≤ pos (mi_end i) →
  pos (mi_start i) ≤ pos remove_end →
  let '(new, removed) := lower_remove_mark_range ms id remove_start remove_end next_id order in
  removed = [id] ∧
  Forall (same_mark i) new ∧
  (mi_id <$> new) `sublist_of`
    [next_id; mkOpId (u64_wrapping_add (counter next_id) 1) (peer next_id)] ∧
  ∀ p, Exists (λ j, covers order j p) new ↔
    covers order i p ∧ ¬ (pos remove_start ≤ p < pos remove_end).
Proof.
  intros Hwf Hi Ha pos Hr Hre Hse. unfold lower_remove_mark_range. rewrite Ha. simpl.
  destruct (find_active ms id i Hwf Hi Ha) as [k ->]. cbv zeta.
  change (resolve_anchor_in ?a order (length order)) with (pos a).
  destruct (Nat.ltb_spec (pos (mi_start i)) (pos remove_start)) as [Hl|Hl],
    (Nat.ltb_spec (pos remove_end) (pos (mi_end i))) as [Hr'|Hr']; cbn [app];
    (split_and!; [done|repeat constructor; apply restamp_values| |]).
  all: try (simpl; by repeat constructor).
  all: intros p; unfold covers; fold pos; rewrite ?Exists_cons, ?Exists_nil; simpl;
    fold pos; lia.
Qed.

(** Four units; the first one is bold. *)
Definition four_units : list OpId := [mkOpId 1 1; mkOpId 2 1; mkOpId 3 1; mkOpId 4 1].
Definition bold_from_to (first last : N) : MarkSet :=
  set_mark (mkOpId 5 1) Bold (mkAnchor (mkOpId first 1) Before) (mkAnchor (mkOpId last 1) After)
    ∅ (mkOpId 5 1) markset_new.

Lemma remove_range_splits_witness :
  let new := (lower_remove_mark_range (bold_from_to 1 4) (mkOpId 5 1) (mkAnchor (mkOpId 2 1) Before)
    (mkAnchor (mkOpId 3 1) After) (mkOpId 6 1) four_units).1 in
  length new = 2 ∧ Exists (λ j, covers four_units j 3) new.
Proof.
  split; [by vm_compute|].
  apply (remove_range_splits (bold_from_to 1 4) (mkOpId 5 1)
    (mkInterval (mkOpId 5 1) Bold (mkAnchor (mkOpId 1 1) Before) (mkAnchor (mkOpId 4 1) After) ∅
       (mkOpId 5 1)) (mkAnchor (mkOpId 2 1) Before) (mkAnchor (mkOpId 3 1) After) (mkOpId 6 1)
    four_units); try (by vm_compute); try (vm_compute; lia).
  intros k j Hk. unfold bold_from_to, set_mark in Hk. simpl in Hk.
  apply lookup_insert_Some in Hk as [[<- <-]|[_ Hk]]; [by vm_compute|].
  by rewrite lookup_empty in Hk.
Defined.

(** the overlap is not checked.  With the first of four units bold,
    removing bold from the third unit leaves an interval that covers the first
    two: the removal makes the second unit bold. *)
Theorem remove_range_outside_extends :
  let ms := bold_from_to 1 1 in
  let '(new, _) := lower_remove_mark_range ms (mkOpId 5 1) (mkAnchor (mkOpId 3 1) Before)
    (mkAnchor (mkOpId 3 1) After) (mkOpId 6 1) four_units in
  (span_end <$> filter (λ s, span_marks s ≠ []) (render_spans ms four_units 4)) = [1] ∧
  ((λ i, (anchor_pos four_units (mi_start i), anchor_pos four_units (mi_end i))) <$> new) = [(0, 2)].
Proof. by vm_compute. Qed.
