(* ===== verification/Frontmatter.v ===== *)
(** * Frontmatter: the editable header of a document

    Models [src/src/doc/frontmatter.rs].  Strings are lists of Unicode scalar
    values; slicing with byte offsets, which panics when an offset is not a
    character boundary, returns [None] in that case. *)

From S2P Require Import Prelude Core.

(** ** Strings *)

(** A [char], and a [String] or [&str]. *)
Abbreviation uchar := N (only parsing).
Abbreviation ustring := (list N) (only parsing).

Definition newline : uchar := 10.
Definition carriage_return : uchar := 13.
Definition colon : uchar := 58.

(** [char::is_whitespace]: the Unicode property [White_Space]. *)
Definition is_whitespace (c : uchar) : bool :=
  ((9 <=? c) && (c <=? 13) || (c =? 32) || (c =? 133) || (c =? 160) || (c =? 5760) ||
   (8192 <=? c) && (c <=? 8202) || (c =? 8232) || (c =? 8233) || (c =? 8239) || (c =? 8287) ||
   (c =? 12288))%N.

Definition is_ascii_alphanumeric (c : uchar) : bool :=
  ((48 <=? c) && (c <=? 57) || (65 <=? c) && (c <=? 90) || (97 <=? c) && (c <=? 122))%N.

(** [char::len_utf8] and [str::len]. *)
Definition len_utf8 (c : uchar) : nat :=
  if (c <? 128)%N then 1 else if (c <? 2048)%N then 2 else if (c <? 65536)%N then 3 else 4.
Definition byte_len (s : ustring) : nat := sum_list (len_utf8 <$> s).

(** [&s[i..]] and [&s[..i]]. *)
Fixpoint slice_from (s : ustring) (i : nat) : option ustring :=
  if decide (i = 0) then Some s
  else match s with
       | [] => None
       | c :: s => if decide (i < len_utf8 c) then None else slice_from s (i - len_utf8 c)
       end.
Fixpoint slice_to (s : ustring) (i : nat) : option ustring :=
  if decide (i = 0) then Some []
  else match s with
       | [] => None
       | c :: s => if decide (i < len_utf8 c) then None else cons c <$> slice_to s (i - len_utf8 c)
       end.

(** [trim_start], [trim_end], [trim]. *)
Fixpoint trim_start (s : ustring) : ustring :=
  match s with
  | c :: s' => if is_whitespace c then trim_start s' else s
  | [] => []
  end.
Definition trim_end (s : ustring) : ustring := reverse (trim_start (reverse s)).
Definition trim (s : ustring) : ustring := trim_end (trim_start s).

Definition starts_with_whitespace (s : ustring) : bool :=
  match s with c :: _ => is_whitespace c | [] => false end.
Definition ends_with_whitespace (s : ustring) : bool :=
  match last s with Some c => is_whitespace c | None => false end.

(** [split_once(':')]. *)
Fixpoint split_once (sep : uchar) (s : ustring) : option (ustring * ustring) :=
  match s with
  | [] => None
  | c :: s =>
    if decide (c = sep) then Some ([], s)
    else prod_map (cons c) id <$> split_once sep s
  end.

(** [str::lines]: pieces ended by a newline lose it and one carriage return
    before it; a last piece without a newline is kept as it is unless empty. *)
Definition strip_carriage_return (l : ustring) : ustring :=
  match last l with
  | Some c => if decide (c = carriage_return) then take (length l - 1) l else l
  | None => l
  end.
Fixpoint lines_from (s : ustring) (line : ustring) : list ustring :=
  match s with
  | [] => if decide (line = []) then [] else [line]
  | c :: s =>
    if decide (c = newline) then strip_carriage_return line :: lines_from s []
    else lines_from s (line ++ [c])
  end.
Definition lines (s : ustring) : list ustring := lines_from s [].

(** [Vec<String>::join]. *)
Fixpoint join (sep : ustring) (l : list ustring) : ustring :=
  match l with
  | [] => []
  | [x] => x
  | x :: l => x ++ sep ++ join sep l
  end.

(** Rust orders strings by their bytes, which for UTF-8 is the lexicographic
    order of the scalar values. *)
#[export] Instance ustring_ord : Ord (list N) :=
  fix cmp (a b : list N) : comparison :=
    match a, b with
    | [], [] => Eq
    | [], _ :: _ => Lt
    | _ :: _, [] => Gt
    | x :: a, y :: b => cmp_then (ocmp x y) (cmp a b)
    end.

(** ** Comments *)

(** The loop of [inline_comment] over [char_indices]: [before] is the text up to
    the current character and [index] its length in bytes.  [None] is a panic. *)
Fixpoint comment_loop (value before rest : ustring) (index : nat) (single double : bool) :
    option (option ustring) :=
  match rest with
  | [] => Some None
  | ch :: rest =>
    let next := comment_loop value (before ++ [ch]) rest (index + len_utf8 ch) in
    if (ch =? 39)%N && negb double then next (negb single) double
    else if (ch =? 34)%N && negb single then next single (negb double)
    else if (ch =? 35)%N && negb single && negb double && ends_with_whitespace before
    then Some <$> slice_from value (index - 1)
    else next single double
  end.

Definition inline_comment (value : ustring) : option (option ustring) :=
  comment_loop value [] value 0 false false.

Definition value_without_comment (value : ustring) : option ustring :=
  comment ← inline_comment value;
  v ← match comment with
      | Some c => slice_to value (byte_len value - byte_len c)
      | None => Some value
      end;
  Some (trim_end v).

(** ** Frontmatter *)

Record Frontmatter := mkFrontmatter {
  fm_raw : ustring;
  fm_fields : gmap ustring (LwwRegister (option ustring));
  fm_original : gmap ustring ustring;
  fm_dirty : gset ustring;
  fm_structured : bool;
}.

Inductive FrontmatterError := Opaque | InvalidKey.

Definition valid_key (key : ustring) : bool :=
  bool_decide (key ≠ []) &&
  forallb (λ c, is_ascii_alphanumeric c || (c =? 95)%N || (c =? 45)%N) key.

(** ["|"], [">"], ["|-"] and [">-"]. *)
Definition block_scalar (v : ustring) : bool :=
  bool_decide (v ∈ ([[124]; [62]; [124; 45]; [62; 45]]%N : list (list N))).

Definition starts_with_dash (s : ustring) : bool :=
  match s with c :: d :: _ => (c =? 45)%N && (d =? 32)%N | _ => false end.
Definition starts_with_hash (s : ustring) : bool :=
  match s with c :: _ => (c =? 35)%N | [] => false end.

(** The state of the loop of [parse]: fields, original values, structured. *)
Definition parse_state : Type :=
  gmap ustring (LwwRegister (option ustring)) * gmap ustring ustring * bool.

Definition parse_line (acc : parse_state) (line : ustring) : option parse_state :=
  let '(fields, original, structured) := acc in
  let trimmed := trim line in
  if bool_decide (trimmed = []) || starts_with_hash trimmed then Some acc
  else if starts_with_whitespace line || starts_with_dash trimmed
  then Some (fields, original, false)
  else match split_once colon line with
  | None => Some (fields, original, false)
  | Some (key, rest) =>
    let key := trim key in
    if negb (valid_key key) || bool_decide (is_Some (fields !! key))
    then Some (fields, original, false)
    else
      value ← value_without_comment (trim rest);
      Some (<[key := Lww.new (Some value) (mkOpId 0 0)]> fields, <[key := value]> original,
            structured && negb (block_scalar value))
  end.

Definition fm_parse (raw : ustring) : option Frontmatter :=
  st ← foldl (λ acc line, acc ≫= λ st, parse_line st line)
         (Some (∅, ∅, true) : option parse_state) (lines raw);
  let '(fields, original, structured) := st in
  Some (mkFrontmatter raw fields original ∅ structured).

(** [Self::parse(String::new())], which does not panic. *)
Definition fm_empty : Frontmatter := default (mkFrontmatter [] ∅ ∅ ∅ true) (fm_parse []).

Definition is_structured (fm : Frontmatter) : bool := fm_structured fm.
Definition is_dirty (fm : Frontmatter) : bool := bool_decide (fm_dirty fm ≠ ∅).
Definition fm_get (fm : Frontmatter) (key : ustring) : option ustring :=
  fm_fields fm !! key ≫= Lww.get.
Definition fm_entries (fm : Frontmatter) : list (ustring * option ustring) :=
  (λ kv, (kv.1, Lww.get kv.2)) <$> btree_iter (fm_fields fm).

Definition fm_set (key : ustring) (value : option ustring) (op_id : OpId) (fm : Frontmatter) :
    FrontmatterError + Frontmatter :=
  if negb (fm_structured fm) then inl Opaque
  else if negb (valid_key key) then inl InvalidKey
  else inr (mkFrontmatter (fm_raw fm) (lww_upsert key value op_id (fm_fields fm))
              (fm_original fm) ({[key]} ∪ fm_dirty fm) (fm_structured fm)).

(** One line of the original text in [render]: the output and the emitted keys. *)
Definition render_line (fm : Frontmatter) (acc : list ustring * gset ustring) (line : ustring) :
    option (list ustring * gset ustring) :=
  let '(output, emitted) := acc in
  match split_once colon line with
  | None => Some (output ++ [line], emitted)
  | Some (key_part, rest) =>
    let key := trim key_part in
    if decide (key ∉ fm_dirty fm) then Some (output ++ [line], emitted)
    else
      let emitted := {[key]} ∪ emitted in
      match fm_get fm key with
      | None => Some (output, emitted)
      | Some value =>
        comment ← inline_comment rest;
        let spacing := match rest with c :: _ => if decide (c = 32%N) then [32%N] else [] | [] => [] end in
        Some (output ++ [key_part ++ [colon] ++ spacing ++ value ++ default [] comment], emitted)
      end
  end.

Definition render_new (fm : Frontmatter) (emitted : gset ustring) (output : list ustring)
    (key : ustring) : list ustring :=
  if decide (key ∈ emitted ∨ is_Some (fm_original fm !! key)) then output
  else match fm_get fm key with
       | Some value => output ++ [key ++ [colon; 32%N] ++ value]
       | None => output
       end.

Definition fm_render (fm : Frontmatter) : option ustring :=
  if decide (fm_dirty fm = ∅) then Some (fm_raw fm)
  else
    acc ← foldl (λ acc line, acc ≫= λ st, render_line fm st line) (Some ([], ∅)) (lines (fm_raw fm));
    let '(output, emitted) := acc in
    Some (join [newline] (fold_left (render_new fm emitted) (btree_set_iter (fm_dirty fm)) output)).

(** ** Convergence *)

Record FieldWrite := mkFieldWrite { fw_key : ustring; fw_value : option ustring; fw_op : OpId }.

#[export] Instance FieldWrite_eq_dec : EqDecision FieldWrite.
Proof. solve_decision. Defined.

(** [set_frontmatter_field]; a rejected write changes nothing. *)
Definition field_step (fm : Frontmatter) (w : FieldWrite) : Frontmatter :=
  match fm_set (fw_key w) (fw_value w) (fw_op w) fm with inr fm => fm | inl _ => fm end.

#[export] Instance frontmatter_crdt : OpCrdt Frontmatter FieldWrite := {
  crdt_step := field_step;
  crdt_compat a b := fw_key a = fw_key b → fw_op a = fw_op b → a = b;
}.

#[export] Instance frontmatter_crdt_laws : OpCrdtLaws Frontmatter FieldWrite.
Proof.
  split.
  - intros a b Hab Hk Ho. symmetry. by apply Hab.
  - intros [raw fields orig dirty []] [k1 v1 o1] [k2 v2 o2] Hab; [|done].
    unfold crdt_step, frontmatter_crdt, field_step, fm_set. simpl in *.
    destruct (valid_key k1) eqn:H1, (valid_key k2) eqn:H2; simpl; rewrite ?H1, ?H2; simpl; try done.
    f_equal; [|set_solver]. apply lww_upsert_comm. intros Hk Ho. specialize (Hab Hk Ho). congruence.
  - intros [raw fields orig dirty []] [k v o]; [|done].
    unfold crdt_step, frontmatter_crdt, field_step, fm_set. simpl.
    destruct (valid_key k) eqn:Hk; simpl; rewrite ?Hk; simpl; [|done].
    f_equal; [apply lww_upsert_idemp|set_solver].
Qed.

(** field writes converge.  Replicas that start from the same frontmatter
    and receive the same writes, in any order and with repetitions, rejected
    ones included, hold the same fields, mark the same keys as changed and
    render the same text. *)
Theorem frontmatter_converges (fm : Frontmatter) (l1 l2 : list FieldWrite) :
  crdt_history (St:=Frontmatter) l1 → (∀ w, w ∈ l1 ↔ w ∈ l2) →
  crdt_run fm l1 = crdt_run fm l2 ∧ fm_render (crdt_run fm l1) = fm_render (crdt_run fm l2).
Proof.
  intros Hh Hm. by rewrite (crdt_run_same_members l1 l2 fm Hm Hh).
Qed.

(** [key: value] with the keys of the Latin letters [a] and [b]. *)
Definition sample_writes : list FieldWrite :=
  [mkFieldWrite [97%N] (Some [49%N]) (mkOpId 1 1); mkFieldWrite [97%N] (Some [50%N]) (mkOpId 1 2);
   mkFieldWrite [98%N] None (mkOpId 2 1)].

Lemma frontmatter_converges_witness :
  crdt_run fm_empty sample_writes = crdt_run fm_empty (reverse sample_writes) ∧
  fm_render (crdt_run fm_empty sample_writes) = Some [97; 58; 32; 50]%N.
Proof.
  split; [|by vm_compute].
  apply (frontmatter_converges fm_empty sample_writes (reverse sample_writes)).
  - intros a b Ha Hb. unfold sample_writes in *. rewrite !elem_of_cons, elem_of_nil in Ha, Hb.
    simpl. naive_solver.
  - intros w. by rewrite elem_of_reverse.
Defined.

(** ** Panics *)

(** All white space in the text is ASCII. *)
Definition ascii_whitespace (s : ustring) : Prop :=
  Forall (λ c, is_whitespace c = true → (c < 128)%N) s.

Lemma byte_len_app a b : byte_len (a ++ b) = byte_len a + byte_len b.
Proof.
  unfold byte_len. induction a as [|c a IH]; [done|]. rewrite <-app_comm_cons, !fmap_cons.
  simpl in *. lia.
Qed.

Lemma len_utf8_pos c : 0 < len_utf8 c.
Proof. unfold len_utf8. repeat case_match; lia. Qed.

Lemma slice_from_app u v : slice_from (u ++ v) (byte_len u) = Some v.
Proof.
  induction u as [|c u IH]; [by destruct v|]. pose proof (len_utf8_pos c).
  change (byte_len (c :: u)) with (len_utf8 c + byte_len u). rewrite <-app_comm_cons. simpl.
  rewrite decide_False by lia. rewrite decide_False by lia.
  replace (len_utf8 c + byte_len u - len_utf8 c) with (byte_len u) by lia. done.
Qed.

Lemma slice_to_app u v : slice_to (u ++ v) (byte_len u) = Some u.
Proof.
  induction u as [|c u IH]; [by destruct v|]. pose proof (len_utf8_pos c).
  change (byte_len (c :: u)) with (len_utf8 c + byte_len u). rewrite <-app_comm_cons. simpl.
  rewrite decide_False by lia. rewrite decide_False by lia.
  replace (len_utf8 c + byte_len u - len_utf8 c) with (byte_len u) by lia. by rewrite IH.
Qed.

Lemma comment_loop_total value before rest single double :
  value = before ++ rest → ascii_whitespace value →
  ∃ c, comment_loop value before rest (byte_len before) single double = Some c ∧
    (∀ s, c = Some s → ∃ u, value = u ++ s).
Proof.
  revert before single double. induction rest as [|ch rest IH]; intros before single double Hv Hw.
  { exists None. split; [done|]. by intros s. }
  assert (Hnext : ∀ single double, ∃ c,
    comment_loop value (before ++ [ch]) rest (byte_len before + len_utf8 ch) single double = Some c ∧
    (∀ s, c = Some s → ∃ u, value = u ++ s)).
  { intros s' d'. destruct (IH (before ++ [ch]) s' d') as (c & Hc & Hs); [by rewrite <-(assoc_L (++))|done|].
    exists c. split; [|done]. rewrite <-Hc, byte_len_app. do 2 f_equal. unfold byte_len. simpl. lia. }
  simpl. destruct ((ch =? 39)%N && negb double); [apply Hnext|].
  destruct ((ch =? 34)%N && negb single); [apply Hnext|].
  destruct (_ && ends_with_whitespace before) eqn:Hc; [|apply Hnext].
  apply andb_true_iff in Hc as [_ Hc]. unfold ends_with_whitespace in Hc.
  destruct (last before) as [w|] eqn:Hl; [|done].
  apply last_Some in Hl as [u ->].
  assert (Hlen : len_utf8 w = 1).
  { unfold ascii_whitespace in Hw. rewrite Hv, !Forall_app, Forall_singleton in Hw.
    destruct Hw as [[_ Hw] _]. specialize (Hw Hc). unfold len_utf8. by rewrite (proj2 (N.ltb_lt _ _) Hw). }
  exists (Some (w :: ch :: rest)).
  assert (byte_len (u ++ [w]) - 1 = byte_len u) as ->.
  { rewrite byte_len_app. change (byte_len [w]) with (len_utf8 w + 0). lia. }
  rewrite Hv, <-(assoc_L (++)). simpl. rewrite slice_from_app. split; [done|].
  intros s [= <-]. by exists u.
Qed.

Lemma value_without_comment_total value :
  ascii_whitespace value → is_Some (value_without_comment value).
Proof.
  intros Hw. unfold value_without_comment, inline_comment.
  destruct (comment_loop_total value [] value false false) as (c & Hc & Hs); [done..|].
  change (byte_len []) with 0 in Hc. rewrite Hc. simpl. destruct c as [c|]; [|eauto].
  destruct (Hs c eq_refl) as [u ->]. rewrite byte_len_app.
  replace (byte_len u + byte_len c - byte_len c) with (byte_len u) by lia.
  rewrite slice_to_app. simpl. eauto.
Qed.

Lemma ascii_whitespace_sub (s t : ustring) :
  (∀ c, c ∈ s → c ∈ t) → ascii_whitespace t → ascii_whitespace s.
Proof. unfold ascii_whitespace. rewrite !Forall_forall. auto. Qed.

Lemma trim_start_sub s c : c ∈ trim_start s → c ∈ s.
Proof. induction s as [|d s IH]; [done|]. simpl. case_match; set_solver. Qed.

Lemma trim_sub s c : c ∈ trim s → c ∈ s.
Proof.
  unfold trim, trim_end. rewrite elem_of_reverse. intros Hc%trim_start_sub.
  rewrite elem_of_reverse in Hc. by apply trim_start_sub.
Qed.

Lemma split_once_sub sep s a b c : split_once sep s = Some (a, b) → c ∈ b → c ∈ s.
Proof.
  revert a b. induction s as [|d s IH]; intros a b; simpl; [done|].
  case_decide; [intros [= _ <-]; set_solver|].
  destruct (split_once sep s) as [[a' b']|]; [|done]. intros [= _ <-] Hc. simpl in Hc.
  right. by eapply IH.
Qed.

Lemma lines_sub s line l c : l ∈ lines_from s line → c ∈ l → c ∈ line ++ s.
Proof.
  revert line. induction s as [|d s IH]; intros line; simpl.
  { case_decide; [by intros ?%elem_of_nil|]. intros ->%list_elem_of_singleton. set_solver. }
  case_decide.
  - intros [->|Hl]%elem_of_cons Hc.
    + unfold strip_carriage_return in Hc. case_match; [|set_solver]. case_decide; [|set_solver].
      apply elem_of_take in Hc as (i & Hc%list_elem_of_lookup_2 & _). set_solver.
    + specialize (IH [] Hl Hc). set_solver.
  - intros Hl Hc. specialize (IH _ Hl Hc). set_solver.
Qed.

Lemma parse_line_total acc line : ascii_whitespace line → is_Some (parse_line acc line).
Proof.
  intros Hw. destruct acc as [[fields original] structured]. unfold parse_line.
  case_match; [eauto|]. case_match; [eauto|].
  destruct (split_once colon line) as [[key rest]|] eqn:Hs; [|eauto].
  case_match; [eauto|].
  destruct (value_without_comment_total (trim rest)) as [v ->]; [|simpl; eauto].
  eapply ascii_whitespace_sub, Hw. intros c Hc%trim_sub. by eapply split_once_sub.
Qed.

(** when parsing panics.  Frontmatter whose white space is all ASCII always
    parses; the slice that cuts off a comment assumes that the white space in
    front of the hash is one byte wide, so a no-break space there (two bytes)
    makes the parser panic. *)
Theorem frontmatter_parse_panics :
  (∀ raw, ascii_whitespace raw → is_Some (fm_parse raw)) ∧
  fm_parse [107; 58; 32; 97; 160; 35; 98]%N = None.
Proof.
  split; [|by vm_compute]. intros raw Hw. unfold fm_parse.
  assert (Hl : Forall ascii_whitespace (lines raw)).
  { apply Forall_forall. intros l Hl. eapply ascii_whitespace_sub, Hw. intros c Hc.
    by apply (lines_sub raw [] l c). }
  assert (Hfold : ∀ st, is_Some (foldl (λ acc line, acc ≫= λ st, parse_line st line)
    (Some st : option parse_state) (lines raw))).
  { induction Hl as [|l ls Hl Hls IH]; intros st; [simpl; eauto|]. simpl.
    destruct (parse_line_total st l Hl) as [st' ->]. apply IH. }
  destruct (Hfold (∅, ∅, true)) as [x Hx].
  destruct (foldl _ _ _) as [[[f o] b]|] eqn:Hf; [simpl; eauto|done].
Qed.
