(* ===== verification/Codec.v ===== *)
(** * The wire codec

    Models [src/src/codec/wire.rs] and [src/src/codec/mod.rs]: the operations
    that travel between peers, the structural validation of an envelope, and
    the JSON codec.  [serde_json] is the pair of parameters [to_vec] and
    [from_slice]. *)

From S2P Require Import Prelude Core Mark Table Frontmatter.
From Stdlib Require Import Strings.Byte.

(** ** Block metadata of [src/src/doc/mod.rs] *)

Abbreviation BlockId := N (only parsing).

Inductive ListDelimiter := Period | Parenthesis.
Inductive BulletMarker := Dash | Plus | Asterisk.
Inductive TaskState := Unchecked | Checked.
Record ListStyle := mkListStyle {
  ls_ordered : bool;
  ls_start : N;
  ls_delimiter : ListDelimiter;
  ls_bullet : BulletMarker;
  ls_loose : bool;
}.
Definition default_list_style : ListStyle := mkListStyle false 1 Period Dash false.
Inductive FenceMarker := Backtick | Tilde.
Record CodeFenceStyle := mkFenceStyle { fence_marker : FenceMarker; fence_length : N }.
Definition default_fence_style : CodeFenceStyle := mkFenceStyle Backtick 3.

(** ** Wire types *)

Definition WIRE_VERSION : N := 4.
Definition MAX_WIRE_NEST_DEPTH : N := 16.

Record TextUnitWire := mkUnitWire {
  uw_id : OpId;
  uw_after : option OpId;
  uw_right_origin : option OpId;
  uw_grapheme : string;
}.
Record MovedTextUnitWire := mkMovedUnit {
  mu_source_id : OpId;
  mu_id : OpId;
  mu_grapheme : string;
}.
Record MovedBlockWire := mkMovedBlock {
  mb_block_id : BlockId;
  mb_target : OpId;
  mb_id : OpId;
  mb_after : option OpId;
  mb_right_origin : option OpId;
}.
Inductive TextBlockKindWire := WireParagraph | WireHeading (level : N).
Inductive ColumnAlignmentWire := WireLeft | WireCenter | WireRight.
Record TableCellWire := mkCellWire { cw_column_id : ColumnId; cw_value : string }.

(** Block creation payloads: the records are mutually nested. *)
Inductive BlockKindSkeleton :=
  | SkParagraph (text : string)
  | SkHeading (level : N) (text : string)
  | SkList (style : ListStyle) (items : list ListItemSkeleton)
  | SkCodeFence (style : CodeFenceStyle) (info : option string) (text : string)
  | SkBlockQuote (children : list BlockSkeletonInsert)
  | SkRawBlock (raw : string)
  | SkTable
with ListItemSkeleton :=
  | mkItemSkeleton (after : option OpId) (id : OpId) (right_origin : option OpId)
      (block_id : BlockId) (task : option TaskState) (task_op : OpId)
      (children : list BlockSkeletonInsert)
with BlockSkeletonInsert :=
  | mkSkeletonInsert (after : option OpId) (id : OpId) (right_origin : option OpId)
      (block : BlockSkeleton)
with BlockSkeleton :=
  | mkSkeleton (block_id : BlockId) (kind : BlockKindSkeleton).

Definition sk_kind (b : BlockSkeleton) : BlockKindSkeleton :=
  match b with mkSkeleton _ kind => kind end.
Definition si_block (c : BlockSkeletonInsert) : BlockSkeleton :=
  match c with mkSkeletonInsert _ _ _ block => block end.
Definition is_children (i : ListItemSkeleton) : list BlockSkeletonInsert :=
  match i with mkItemSkeleton _ _ _ _ _ _ children => children end.

Inductive DocOp :=
  | InsertBlock (parent after : option OpId) (id : OpId) (right_origin : option OpId)
      (block : BlockSkeleton)
  | DeleteBlock (parent : option OpId) (target id : OpId)
  | DeleteBlockById (parent : option OpId) (target : OpId) (block_id : BlockId) (id : OpId)
  | InsertText (block_elem : OpId) (block_id : BlockId) (units : list TextUnitWire)
  | DeleteText (block_elem : OpId) (block_id : BlockId) (id : OpId) (targets : list OpId)
  | SetMark (block_elem : OpId) (block_id : BlockId) (id : OpId) (kind : MarkKind)
      (start stop : Anchor) (attrs : gmap string MarkValue)
  | RemoveMarkOp (block_elem : OpId) (block_id : BlockId) (interval_id id : OpId)
      (observed : StateVector)
  | SetFrontmatterField (id : OpId) (key : list N) (value : option (list N))
  | InitializeFrontmatter (id : OpId) (frontmatter : Frontmatter)
  | MoveBlocks (to_parent : option OpId) (id : OpId) (blocks : list MovedBlockWire)
  | SplitBlock (parent : option OpId) (target id : OpId) (new_block_id : BlockId)
      (right_origin : option OpId) (kind : TextBlockKindWire) (units : list MovedTextUnitWire)
  | MergeBlocks (parent : option OpId) (left right id : OpId) (after right_origin : option OpId)
      (units : list MovedTextUnitWire)
  | InsertTableRow (table_elem : OpId) (table_id : BlockId) (after : option OpId) (id : OpId)
      (right_origin : option OpId) (cells : list TableCellWire)
  | InsertTableColumn (table_elem : OpId) (table_id : BlockId) (after : option OpId) (id : OpId)
      (right_origin : option OpId) (alignment : ColumnAlignmentWire) (header : string)
  | SetTableCell (table_elem : OpId) (table_id : BlockId) (row_id : RowId) (column_id : ColumnId)
      (id : OpId) (value : string) (observed : StateVector)
  | DeleteTableRow (table_elem : OpId) (table_id : BlockId) (target id : OpId)
  | DeleteTableRowById (table_elem : OpId) (table_id : BlockId) (target : OpId) (row_id : BlockId)
      (id : OpId)
  | DeleteTableColumnById (table_elem : OpId) (table_id : BlockId) (target : OpId)
      (column_id : ColumnId) (id : OpId)
  | SetTableColumnAlignment (table_elem : OpId) (table_id : BlockId) (column_id : ColumnId)
      (id : OpId) (alignment : ColumnAlignmentWire) (observed : StateVector)
  | MoveTableRow (table_elem : OpId) (table_id : BlockId) (row_id : BlockId) (target id : OpId)
      (after right_origin : option OpId) (observed : StateVector)
  | MoveTableColumn (table_elem : OpId) (table_id : BlockId) (column_id : ColumnId)
      (target id : OpId) (after right_origin : option OpId) (observed : StateVector)
  | InsertListItem (list_elem : OpId) (list_id : BlockId) (after : option OpId) (id : OpId)
      (right_origin : option OpId) (task : option TaskState)
  | DeleteListItemById (list_elem : OpId) (list_id : BlockId) (target : OpId) (item_id : BlockId)
      (id : OpId)
  | MoveListItem (from_list_elem to_list_elem : OpId) (list_id item_id : BlockId)
      (target id : OpId) (after right_origin : option OpId) (observed : StateVector)
  | SetListStyle (block_elem : OpId) (block_id : BlockId) (id : OpId) (style : ListStyle)
      (observed : StateVector)
  | SetListItemTask (item_id : BlockId) (id : OpId) (task : option TaskState)
      (observed : StateVector)
  | SetCodeFence (block_elem : OpId) (block_id : BlockId) (id : OpId) (style : CodeFenceStyle)
      (info : option string) (text : string) (observed : StateVector)
  | ConvertTextBlock (block_elem : OpId) (block_id : BlockId) (id : OpId)
      (kind : TextBlockKindWire) (observed : StateVector)
  | ReplaceRawBlock (block_elem : OpId) (block_id : BlockId) (id : OpId) (raw : string)
      (observed : StateVector).

(** [OpBody] has the single constructor [Doc]. *)
Inductive OpBody := Doc (op : DocOp).
Record Envelope := mkEnvelope { env_version : N; env_body : OpBody }.

(** ** Validation *)

Inductive CodecError :=
  | Serde (message : string)
  | UnknownVersion (version : N)
  | NestDepthExceeded
  | Invalid (message : string).

(** [for x in l { f(x)? }]: the first error. *)
Definition for_each {A E} (f : A → option E) : list A → option E :=
  fix go l := match l with
              | [] => None
              | x :: l => match f x with Some e => Some e | None => go l end
              end.

Fixpoint check_kind_depth (kind : BlockKindSkeleton) (depth : N) : option CodecError :=
  if (MAX_WIRE_NEST_DEPTH <? depth)%N then Some NestDepthExceeded
  else match kind with
  | SkBlockQuote children =>
    for_each (λ child, match child with
      mkSkeletonInsert _ _ _ (mkSkeleton _ k) => check_kind_depth k (depth + 1) end) children
  | SkList _ items =>
    for_each (λ item, match item with
      mkItemSkeleton _ _ _ _ _ _ children =>
        for_each (λ child, match child with
          mkSkeletonInsert _ _ _ (mkSkeleton _ k) => check_kind_depth k (depth + 1) end) children
      end) items
  | _ => None
  end.

Definition validate_envelope_structure (envelope : Envelope) : option CodecError :=
  match env_body envelope with
  | Doc (InsertBlock _ _ _ _ block) => check_kind_depth (sk_kind block) 0
  | Doc _ => None
  end.

Fixpoint kind_is_empty (kind : BlockKindSkeleton) : bool :=
  match kind with
  | SkParagraph text | SkHeading _ text => bool_decide (text = EmptyString)
  | SkBlockQuote children =>
    forallb (λ child, match child with
      mkSkeletonInsert _ _ _ (mkSkeleton _ k) => kind_is_empty k end) children
  | SkList _ items =>
    forallb (λ item, match item with
      mkItemSkeleton _ _ _ _ _ _ children =>
        forallb (λ child, match child with
          mkSkeletonInsert _ _ _ (mkSkeleton _ k) => kind_is_empty k end) children
      end) items
  | SkCodeFence _ _ _ | SkRawBlock _ | SkTable => true
  end.

Definition insert_block_paragraph_is_empty (envelope : Envelope) : bool :=
  match env_body envelope with
  | Doc (InsertBlock _ _ _ _ block) => kind_is_empty (sk_kind block)
  | Doc _ => true
  end.

(** ** The JSON codec *)

(** [str::contains]. *)
Fixpoint string_contains (needle hay : string) : bool :=
  String.prefix needle hay ||
  match hay with EmptyString => false | String _ hay => string_contains needle hay end.

Section json.
Abbreviation bytes := (list Byte.byte).
(** [serde_json::to_vec] and [from_slice]; an error is its message. *)
Context (to_vec : Envelope → string + bytes) (from_slice : bytes → string + Envelope).

Definition json_encode (envelope : Envelope) : CodecError + bytes :=
  match validate_envelope_structure envelope with
  | Some e => inl e
  | None => match to_vec envelope with inl m => inl (Serde m) | inr b => inr b end
  end.

Definition json_decode (b : bytes) : CodecError + Envelope :=
  match from_slice b with
  | inl msg =>
    if string_contains "recursion limit" msg then inl NestDepthExceeded else inl (Serde msg)
  | inr envelope =>
    if decide (env_version envelope ≠ WIRE_VERSION) then inl (UnknownVersion (env_version envelope))
    else match validate_envelope_structure envelope with
         | Some e => inl e
         | None => inr envelope
         end
  end.
End json.

(** ** What validation accepts *)

(** [nested k n]: [k] contains a block [n] container levels below it. *)
Inductive nested : BlockKindSkeleton → N → Prop :=
  | nested_here k : nested k 0
  | nested_quote children c n :
      c ∈ children → nested (sk_kind (si_block c)) n → nested (SkBlockQuote children) (n + 1)
  | nested_item style items i c n :
      i ∈ items → c ∈ is_children i → nested (sk_kind (si_block c)) n →
      nested (SkList style items) (n + 1).

Lemma for_each_None {A E} (f : A → option E) l : for_each f l = None ↔ ∀ x, x ∈ l → f x = None.
Proof.
  induction l as [|x l IH]; simpl; [set_solver|].
  destruct (f x) eqn:Hx; [|set_solver]. split; [done|]. intros H. rewrite <-Hx. apply H. set_solver.
Qed.

Lemma for_each_Some {A E} (f : A → option E) l e :
  for_each f l = Some e → ∃ x, x ∈ l ∧ f x = Some e.
Proof.
  induction l as [|x l IH]; simpl; [done|].
  destruct (f x) eqn:Hx; [intros [= ->]; set_solver|]. intros H. destruct (IH H) as (y & ? & ?). set_solver.
Qed.

Section depth.
(** The two loops of [check_kind_depth] over children. *)
Lemma check_children d (children : list BlockSkeletonInsert) :
  for_each (λ child, match child with
    mkSkeletonInsert _ _ _ (mkSkeleton _ k) => check_kind_depth k d end) children =
  for_each (λ child, check_kind_depth (sk_kind (si_block child)) d) children.
Proof. induction children as [|[? ? ? []] children IH]; simpl; [done|]. by rewrite IH. Qed.

Lemma check_quote d children :
  (d ≤ 16)%N → check_kind_depth (SkBlockQuote children) d =
  for_each (λ child, check_kind_depth (sk_kind (si_block child)) (d + 1)) children.
Proof.
  intros Hd. simpl. rewrite (proj2 (N.ltb_ge _ _)) by exact Hd. apply check_children.
Qed.

Lemma check_list d style items :
  (d ≤ 16)%N → check_kind_depth (SkList style items) d =
  for_each (λ item, for_each (λ child, check_kind_depth (sk_kind (si_block child)) (d + 1))
    (is_children item)) items.
Proof.
  intros Hd. simpl. rewrite (proj2 (N.ltb_ge _ _)) by exact Hd.
  induction items as [|[? ? ? ? ? ? children] items IH]; simpl; [done|].
  rewrite check_children. by rewrite IH.
Qed.

Lemma check_deep d k : (16 < d)%N → check_kind_depth k d = Some NestDepthExceeded.
Proof. intros Hd. destruct k; simpl; by rewrite (proj2 (N.ltb_lt _ _)). Qed.

Lemma check_leaf_spec d k :
  (d ≤ 16)%N → (∀ c, k ≠ SkBlockQuote c) → (∀ s i, k ≠ SkList s i) → check_kind_depth k d = None.
Proof.
  intros Hd Hq Hl. destruct k as [| |s i| |c| |]; simpl;
    try (by rewrite (proj2 (N.ltb_ge _ _))); [by destruct (Hl s i)|by destruct (Hq c)].
Qed.

Lemma nested_bounded k n d : nested k n → check_kind_depth k d = None → (d + n ≤ 16)%N.
Proof.
  intros Hn. revert d. induction Hn as [k|children c n Hc Hn IH|style items i c n Hi Hc Hn IH];
    intros d Hd;
    (destruct (decide (d ≤ 16)%N) as [Hle|]; [|rewrite check_deep in Hd by lia; done]).
  - lia.
  - rewrite check_quote, for_each_None in Hd by done. specialize (IH _ (Hd c Hc)). lia.
  - rewrite check_list, for_each_None in Hd by done. specialize (Hd i Hi).
    rewrite for_each_None in Hd. specialize (IH _ (Hd c Hc)). lia.
Qed.

(** By induction on the distance to the limit. *)
Lemma check_kind_depth_spec m k d :
  N.to_nat (17 - d) ≤ m →
  (check_kind_depth k d = None ∨ check_kind_depth k d = Some NestDepthExceeded) ∧
  ((∀ n, nested k n → (d + n ≤ 16)%N) → check_kind_depth k d = None).
Proof.
  revert k d. induction m as [|m IH]; intros k d Hm;
    (destruct (decide (d ≤ 16)%N) as [Hle|]; [|rewrite check_deep by lia; split; [auto|]; intros Hn;
      specialize (Hn 0%N (nested_here k)); lia]); [lia|].
  assert (Hm' : N.to_nat (17 - (d + 1)) ≤ m) by lia.
  destruct k as [| |style items| |children| |];
    try (rewrite check_leaf_spec by done; auto).
  - rewrite check_list by done. split.
    + destruct (for_each _ items) as [e|] eqn:He; [right|auto].
      apply for_each_Some in He as (i & _ & (c & _ & He)%for_each_Some).
      destruct (IH (sk_kind (si_block c)) (d + 1)%N Hm') as [[Hc|Hc] _]; congruence.
    + intros Hn. apply for_each_None. intros i Hi. apply for_each_None. intros c Hc.
      apply (IH _ _ Hm'). intros n Hcn. specialize (Hn _ (nested_item style _ _ _ _ Hi Hc Hcn)). lia.
  - rewrite check_quote by done. split.
    + destruct (for_each _ children) as [e|] eqn:He; [right|auto].
      apply for_each_Some in He as (c & _ & He).
      destruct (IH (sk_kind (si_block c)) (d + 1)%N Hm') as [[Hc|Hc] _]; congruence.
    + intros Hn. apply for_each_None. intros c Hc.
      apply (IH _ _ Hm'). intros n Hcn. specialize (Hn _ (nested_quote _ _ _ Hc Hcn)). lia.
Qed.
End depth.

(** the nesting limit.  Validation accepts a block skeleton exactly when no
    block in it lies more than sixteen container levels deep, and its only error
    is [NestDepthExceeded]; operations that do not insert a block are accepted. *)
Theorem nest_depth_limit (e : Envelope) :
  (validate_envelope_structure e = None ∨ validate_envelope_structure e = Some NestDepthExceeded) ∧
  (validate_envelope_structure e = None ↔
   ∀ parent after id ro block n,
     env_body e = Doc (InsertBlock parent after id ro block) → nested (sk_kind block) n →
     (n ≤ MAX_WIRE_NEST_DEPTH)%N).
Proof.
  destruct e as [v [op]]. unfold validate_envelope_structure. simpl.
  destruct op as [parent after id ro block| | | | | | | | | | | | | | | | | | | | | | | | | | | |];
    try (split; [by left|split; [by intros _ * [=]|done]]).
  destruct (check_kind_depth_spec 17 (sk_kind block) 0 ltac:(done)) as [Hres Hok].
  split; [done|]. split.
  - intros Hn * [= <- <- <- <- <-] Hnest. apply (nested_bounded _ _ 0) in Hnest; [|done]. exact Hnest.
  - intros Hn. apply Hok. intros n Hnest. eapply Hn; done.
Qed.

Section contract.
Context (to_vec : Envelope → string + list Byte.byte)
        (from_slice : list Byte.byte → string + Envelope).
(** [serde_json] reads back what it wrote, for envelopes within the nesting limit. *)
Hypothesis serde_roundtrip : ∀ e b,
  validate_envelope_structure e = None → to_vec e = inr b → from_slice b = inr e.

(** the codec's contract.  What it encodes at the current version decodes
    to the same envelope; whatever bytes it is given, it only ever returns
    envelopes of the current version that pass validation; and it refuses to
    encode what it would refuse to decode. *)
Theorem json_codec_contract :
  (∀ e b, env_version e = WIRE_VERSION → json_encode to_vec e = inr b →
     json_decode from_slice b = inr e) ∧
  (∀ b e, json_decode from_slice b = inr e →
     env_version e = WIRE_VERSION ∧ validate_envelope_structure e = None) ∧
  (∀ e err, validate_envelope_structure e = Some err → json_encode to_vec e = inl err).
Proof.
  unfold json_encode, json_decode. split_and!.
  - intros e b Hv He. destruct (validate_envelope_structure e) eqn:Hs; [done|].
    destruct (to_vec e) as [m|b'] eqn:Hb; [done|]. injection He as ->.
    rewrite (serde_roundtrip _ _ Hs Hb). rewrite decide_False by congruence. by rewrite Hs.
  - intros b e. destruct (from_slice b) as [m|e']; [by case_match|].
    case_decide as Hv; [done|]. destruct (validate_envelope_structure e') eqn:Hs; [done|].
    by intros [= ->].
  - intros e err ->. done.
Qed.
End contract.

(** A codec for one operation: deleting the block [(1, 1)]. *)
Definition sample_envelope : Envelope :=
  mkEnvelope 4 (Doc (DeleteBlock None (mkOpId 1 1) (mkOpId 2 1))).
Definition sample_to_vec (e : Envelope) : string + list Byte.byte :=
  match e with
  | mkEnvelope v (Doc (DeleteBlock p t i)) =>
    if decide ((v, p, t, i) = (4%N, None, mkOpId 1 1, mkOpId 2 1)) then inr [Byte.x64] else inl "unsupported"
  | _ => inl "unsupported"
  end.
Definition sample_from_slice (b : list Byte.byte) : string + Envelope :=
  match b with [Byte.x64] => inr sample_envelope | _ => inl "unsupported" end.

Lemma json_codec_contract_witness :
  json_encode sample_to_vec sample_envelope = inr [Byte.x64] ∧
  json_decode sample_from_slice [Byte.x64] = inr sample_envelope.
Proof.
  split; [by vm_compute|].
  apply (json_codec_contract sample_to_vec sample_from_slice); [|done|by vm_compute].
  intros [v [op]] b _. unfold sample_to_vec.
  destruct op as [|p t i| | | | | | | | | | | | | | | | | | | | | | | | | | |]; try done.
  case_decide as H; [|done]. injection H as -> -> -> ->. by intros [= <-].
Defined.
