(* ===== verification/Draft.v ===== *)
(** * Structured creation payloads

    Models [BlockDraft] of [src/src/workspace.rs] with its validation, and the
    validation of list styles and code fences that drafts, skeletons and the
    setters of a session share.  A [usize] counter saturates at the largest
    [u64]. *)

From S2P Require Import Prelude Core Table Frontmatter Codec.

(** ** Strings as characters *)

(** [str::chars]: the scalar values of a UTF-8 byte string. *)
Fixpoint chars (s : string) : list N :=
  let low c := (Ascii.N_of_ascii c - 128)%N in
  match s with
  | EmptyString => []
  | String a r0 =>
    let b := Ascii.N_of_ascii a in
    if (b <? 128)%N then b :: chars r0
    else match r0 with
    | EmptyString => []
    | String c1 r1 =>
      if (b <? 224)%N then ((b - 192) * 64 + low c1)%N :: chars r1
      else match r1 with
      | EmptyString => []
      | String c2 r2 =>
        if (b <? 240)%N then ((b - 224) * 4096 + low c1 * 64 + low c2)%N :: chars r2
        else match r2 with
        | EmptyString => []
        | String c3 r3 =>
          ((b - 240) * 262144 + low c1 * 4096 + low c2 * 64 + low c3)%N :: chars r3
        end
      end
    end
  end.

(** [chars().take_while(|c| *c == marker).count()]. *)
Fixpoint leading_run (marker : N) (l : list N) : nat :=
  match l with
  | c :: l => if decide (c = marker) then S (leading_run marker l) else 0
  | [] => 0
  end.

(** [str::contains] of a set of characters. *)
Definition contains_char (cs : list N) (s : string) : bool :=
  existsb (λ c, bool_decide (c ∈ cs)) (chars s).

(** ** Data *)

Inductive BlockDraft :=
  | DraftParagraph (text : string)
  | DraftHeading (level : N) (text : string)
  | DraftList (style : ListStyle) (items : list ListItemDraft)
  | DraftCodeFence (style : CodeFenceStyle) (info : option string) (text : string)
  | DraftBlockQuote (children : list BlockDraft)
  | DraftRawBlock (raw : string)
with ListItemDraft :=
  | mkItemDraft (task : option TaskState) (children : list BlockDraft).

Record StructuredEditLimits := mkEditLimits {
  max_depth : nat;
  max_items : N;
  max_bytes : N;
}.
Definition default_edit_limits : StructuredEditLimits :=
  mkEditLimits 16 10000 (4 * 1024 * 1024).

Inductive StructuredEditError :=
  | DraftDepth (max : nat)
  | DraftItems (max : N)
  | DraftBytes (max : N)
  | DraftHeadingLevel
  | DraftCodeFenceLength
  | DraftCodeFenceInfo
  | DraftOrderedListStart.

Inductive TextBlockKind := TextParagraph | TextHeading (level : N).

(** ** Validation *)

Definition MAX_ORDERED_LIST_START : N := 999999999.

Definition validate_list_style (style : ListStyle) : option StructuredEditError :=
  if ls_ordered style && (MAX_ORDERED_LIST_START <? ls_start style)%N
  then Some DraftOrderedListStart else None.

Definition fence_char (m : FenceMarker) : N := match m with Backtick => 96 | Tilde => 126 end.
#[export] Instance FenceMarker_eq_dec : EqDecision FenceMarker.
Proof. solve_decision. Defined.

(** The longest run of the marker at the start of a trimmed line. *)
Definition longest_fence_run (m : FenceMarker) (text : string) : nat :=
  max_list ((λ line, leading_run (fence_char m) (trim line)) <$> lines (chars text)).

Definition validate_code_fence (style : CodeFenceStyle) (info : option string) (text : string) :
    option StructuredEditError :=
  if (fence_length style <? 3)%N
     || (fence_length style <=? N.of_nat (longest_fence_run (fence_marker style) text))%N
  then Some DraftCodeFenceLength
  else if match info with
          | Some info =>
            contains_char [carriage_return; newline] info
            || (bool_decide (fence_marker style = Backtick) && contains_char [96%N] info)
          | None => false
          end
  then Some DraftCodeFenceInfo
  else None.

(** [for x in l { f(x)? }] with a state: the first error, or the last state. *)
Definition try_fold {A S E} (f : S → A → E + S) : list A → S → E + S :=
  fix go l s := match l with
                | [] => inr s
                | x :: l => match f s x with inl e => inl e | inr s => go l s end
                end.

Section validate.
Context (limits : StructuredEditLimits).

(** [*items = items.saturating_add(1)] and the check that follows. *)
Definition count_item (acc : N * N) : StructuredEditError + (N * N) :=
  let items := u64_saturating_add acc.1 1 in
  if (max_items limits <? items)%N then inl (DraftItems (max_items limits))
  else inr (items, acc.2).

(** [*bytes = bytes.saturating_add(content)] and the check that follows. *)
Definition count_bytes (content : N) (acc : N * N) : StructuredEditError + (N * N) :=
  let bytes := u64_saturating_add acc.2 content in
  if (max_bytes limits <? bytes)%N then inl (DraftBytes (max_bytes limits))
  else inr (acc.1, bytes).

(** The bytes of a leaf, or its error. *)
Definition leaf_bytes (draft : BlockDraft) : StructuredEditError + N :=
  match draft with
  | DraftParagraph text | DraftRawBlock text => inr (N.of_nat (String.length text))
  | DraftHeading level text =>
    if ((1 <=? level) && (level <=? 6))%N then inr (N.of_nat (String.length text))
    else inl DraftHeadingLevel
  | DraftCodeFence style info text =>
    match validate_code_fence style info text with
    | Some e => inl e
    | None =>
      inr (u64_saturating_add (N.of_nat (default 0 (String.length <$> info)))
             (N.of_nat (String.length text)))
    end
  | DraftBlockQuote _ | DraftList _ _ => inr 0%N
  end.

(** [visit]: the state is the pair of counters [items] and [bytes]. *)
Fixpoint visit (depth : nat) (draft : BlockDraft) (acc : N * N) :
    StructuredEditError + (N * N) :=
  if decide (max_depth limits < depth) then inl (DraftDepth (max_depth limits))
  else match count_item acc with
  | inl e => inl e
  | inr acc =>
    let content :=
      match draft with
      | DraftBlockQuote children =>
        try_fold (λ acc child, visit (S depth) child acc) children acc
      | DraftList style items =>
        match validate_list_style style with
        | Some e => inl e
        | None =>
          try_fold (λ acc item, match item with mkItemDraft _ children =>
            match count_item acc with
            | inl e => inl e
            | inr acc => try_fold (λ acc child, visit (S depth) child acc) children acc
            end end) items acc
        end
      | _ => inr acc
      end in
    match content with
    | inl e => inl e
    | inr acc => match leaf_bytes draft with
                 | inl e => inl e
                 | inr n => count_bytes n acc
                 end
    end
  end.

Definition draft_validate (draft : BlockDraft) : option StructuredEditError :=
  match visit 1 draft (0, 0)%N with inl e => Some e | inr _ => None end.
End validate.

Example validate_quote :
  draft_validate (mkEditLimits 1 10 10) (DraftBlockQuote [DraftParagraph "a"]) = Some (DraftDepth 1) ∧
  draft_validate (mkEditLimits 2 10 10) (DraftBlockQuote [DraftParagraph "a"]) = None ∧
  draft_validate (mkEditLimits 2 1 10) (DraftBlockQuote [DraftParagraph "a"]) = Some (DraftItems 1) ∧
  draft_validate default_edit_limits (DraftCodeFence default_fence_style None "```") =
    Some DraftCodeFenceLength.
Proof. by vm_compute. Qed.

(** ** Induction on drafts *)

Definition draft_children (i : ListItemDraft) : list BlockDraft :=
  match i with mkItemDraft _ children => children end.

Section draft_ind.
Context (P : BlockDraft → Prop).
Context (Hparagraph : ∀ t, P (DraftParagraph t)) (Hheading : ∀ l t, P (DraftHeading l t))
  (Hfence : ∀ s i t, P (DraftCodeFence s i t)) (Hraw : ∀ r, P (DraftRawBlock r))
  (Hquote : ∀ children, Forall P children → P (DraftBlockQuote children))
  (Hlist : ∀ style items, Forall (λ i, Forall P (draft_children i)) items → P (DraftList style items)).

Fixpoint draft_induction (d : BlockDraft) : P d :=
  let all := fix go (l : list BlockDraft) : Forall P l :=
    match l with [] => Forall_nil_2 _ | d :: l => Forall_cons_2 _ d l (draft_induction d) (go l) end in
  match d with
  | DraftParagraph t => Hparagraph t
  | DraftHeading l t => Hheading l t
  | DraftCodeFence s i t => Hfence s i t
  | DraftRawBlock r => Hraw r
  | DraftBlockQuote children => Hquote children (all children)
  | DraftList style items =>
    Hlist style items
      ((fix go (l : list ListItemDraft) : Forall (λ i, Forall P (draft_children i)) l :=
          match l with
          | [] => Forall_nil_2 _
          | mkItemDraft t ch :: l =>
            Forall_cons_2 (λ i, Forall P (draft_children i)) (mkItemDraft t ch) l (all ch) (go l)
          end) items)
  end.
End draft_ind.
