(* ===== verification/DraftProps.v ===== *)
(** * What the validation of drafts accepts

    [draft_validate] walks a draft once with two saturating counters and stops
    at the first error.  It accepts exactly the drafts whose height, number of
    nodes and number of bytes are within the limits and whose headings, fences
    and lists are well formed. *)

From S2P Require Import Prelude Core Table Frontmatter Codec Draft.

(** ** The size of a draft *)

Definition sum_N (l : list N) : N := foldr N.add 0%N l.

Fixpoint draft_height (d : BlockDraft) : nat :=
  match d with
  | DraftBlockQuote children => S (max_list (map draft_height children))
  | DraftList _ items =>
    S (max_list (map (λ i, match i with
        mkItemDraft _ children => max_list (map draft_height children) end) items))
  | _ => 1
  end.

(** Blocks and list items. *)
Fixpoint draft_items (d : BlockDraft) : N :=
  match d with
  | DraftBlockQuote children => 1 + sum_N (map draft_items children)
  | DraftList _ items =>
    1 + sum_N (map (λ i, match i with
          mkItemDraft _ children => 1 + sum_N (map draft_items children) end)%N items)
  | _ => 1
  end%N.

(** The bytes of the texts of the leaves. *)
Fixpoint draft_bytes (d : BlockDraft) : N :=
  match d with
  | DraftParagraph text | DraftRawBlock text | DraftHeading _ text => N.of_nat (String.length text)
  | DraftCodeFence _ info text =>
    N.of_nat (default 0%nat (String.length <$> info)) + N.of_nat (String.length text)
  | DraftBlockQuote children => sum_N (map draft_bytes children)
  | DraftList _ items =>
    sum_N (map (λ i, match i with
      mkItemDraft _ children => sum_N (map draft_bytes children) end) items)
  end%N.

Fixpoint draft_ok (d : BlockDraft) : bool :=
  match d with
  | DraftParagraph _ | DraftRawBlock _ => true
  | DraftHeading level _ => ((1 <=? level) && (level <=? 6))%N
  | DraftCodeFence style info text => bool_decide (validate_code_fence style info text = None)
  | DraftBlockQuote children => forallb draft_ok children
  | DraftList style items =>
    bool_decide (validate_list_style style = None) &&
    forallb (λ i, match i with mkItemDraft _ children => forallb draft_ok children end) items
  end.

(** ** One walk *)

Section walk.
Context (limits : StructuredEditLimits).
Hypothesis Hitems : (max_items limits < u64_max)%N.
Hypothesis Hbytes : (max_bytes limits < u64_max)%N.

(** A part with [h] levels, [n] nodes and [m] bytes, of which [ok] is asked,
    fits behind the counters [acc]. *)
Definition fits (depth h : nat) (n m : N) (ok : bool) (acc : N * N) : Prop :=
  (h = 0 ∨ depth + h ≤ S (max_depth limits)) ∧ (acc.1 + n ≤ max_items limits)%N ∧
  (acc.2 + m ≤ max_bytes limits)%N ∧ ok = true.

(** [r] tells whether the part fits, and advances the counters by it. *)
Definition decides (depth h : nat) (n m : N) (ok : bool) (acc : N * N)
    (r : StructuredEditError + (N * N)) : Prop :=
  match r with
  | inr acc' => fits depth h n m ok acc ∧ acc' = (acc.1 + n, acc.2 + m)%N
  | inl _ => ¬ fits depth h n m ok acc
  end.

(** The counters are within the limits. *)
Definition within (acc : N * N) : Prop :=
  (acc.1 ≤ max_items limits)%N ∧ (acc.2 ≤ max_bytes limits)%N.

Lemma count_item_decides d acc : within acc → decides d 0 1 0 true acc (count_item limits acc).
Proof.
  intros [Hi Hb]. destruct acc as [i b]. unfold count_item, decides, fits, u64_saturating_add in *. simpl in *.
  destruct (N.ltb_spec (max_items limits) (N.min (i + 1) u64_max)); simpl; [lia|].
  split; [lia|]. f_equal; lia.
Qed.

Lemma count_bytes_decides d n m acc :
  (n = m ∨ u64_max ≤ n ∧ u64_max ≤ m)%N → within acc → decides d 0 0 m true acc (count_bytes limits n acc).
Proof.
  intros Hn [Hi Hb]. destruct acc as [i b]. unfold count_bytes, decides, fits, u64_saturating_add in *. simpl in *.
  destruct (N.ltb_spec (max_bytes limits) (N.min (b + n) u64_max)); simpl; [lia|].
  split; [lia|]. f_equal; lia.
Qed.

(** Two parts one after the other. *)
Lemma decides_then d h1 n1 m1 ok1 h2 n2 m2 ok2 acc r (k : N * N → StructuredEditError + (N * N)) :
  decides d h1 n1 m1 ok1 acc r →
  (∀ acc', r = inr acc' → within acc' → decides d h2 n2 m2 ok2 acc' (k acc')) →
  decides d (h1 `max` h2) (n1 + n2) (m1 + m2) (ok1 && ok2) acc
    match r with inl e => inl e | inr acc' => k acc' end.
Proof.
  intros H1 H2. destruct r as [e|acc']; simpl in *.
  - intros (? & ? & ? & [??]%andb_prop). apply H1. unfold fits. split_and!; [lia..|done].
  - destruct H1 as [(? & ? & ? & Hok) E]. specialize (H2 acc' eq_refl). rewrite E in *. simpl in H2.
    assert (Hw : within (acc.1 + n1, acc.2 + m1)%N) by (split; simpl; lia). specialize (H2 Hw).
    destruct (k _) as [e|acc'']; simpl in *.
    + intros (? & ? & ? & [??]%andb_prop). apply H2. unfold fits. simpl. split_and!; [lia..|done].
    + destruct H2 as [(? & ? & ? & Hok2) ->]. simpl in *. unfold fits. rewrite Hok, Hok2.
      split_and!; [lia..|done|f_equal; lia].
Qed.

Lemma decides_list {A} d (f : N * N → A → StructuredEditError + (N * N)) (h : A → nat) (n m : A → N)
    (ok : A → bool) l acc :
  (∀ x acc, x ∈ l → within acc → decides d (h x) (n x) (m x) (ok x) acc (f acc x)) → within acc →
  decides d (max_list (map h l)) (sum_N (map n l)) (sum_N (map m l)) (forallb ok l) acc (try_fold f l acc).
Proof.
  revert acc. induction l as [|x l IH]; intros acc Hf Hw; simpl.
  - destruct Hw. unfold fits. split; [split_and!; [by left|lia..|done]|]. destruct acc. simpl. f_equal; lia.
  - apply decides_then; [apply Hf; [by left|done]|]. intros acc' _ Hw'. apply IH; [|done].
    intros y a Hy. apply Hf. by right.
Qed.

(** The bytes of a leaf. *)
Lemma leaf_decides d x acc :
  (∀ ch, x ≠ DraftBlockQuote ch) → (∀ style items, x ≠ DraftList style items) → within acc →
  decides d 0 0 (draft_bytes x) (draft_ok x) acc
    match leaf_bytes x with inl e => inl e | inr n => count_bytes limits n acc end.
Proof.
  intros Hq Hl Hw. destruct x as [text|level text|style items|style info text|ch|raw]; simpl.
  - apply count_bytes_decides; auto.
  - destruct ((1 <=? level) && (level <=? 6))%N; [apply count_bytes_decides; auto|]. by intros (_ & _ & _ & ?).
  - by destruct (Hl style items).
  - destruct (validate_code_fence style info text) as [e|]; [by intros (_ & _ & _ & ?)|].
    rewrite bool_decide_true by done. apply count_bytes_decides; [|done]. unfold u64_saturating_add. lia.
  - by destruct (Hq ch).
  - apply count_bytes_decides; auto.
Qed.

(** The guard on the depth. *)
Lemma decides_depth d h n m ok acc r :
  (d ≤ max_depth limits → decides (S d) h n m ok acc r) →
  decides d (S h) n m ok acc
    (if decide (max_depth limits < d) then inl (DraftDepth (max_depth limits)) else r).
Proof.
  intros Hr. destruct (decide _); simpl; [intros ([?|?] & _); lia|].
  specialize (Hr ltac:(lia)). assert (Hf : fits (S d) h n m ok acc ↔ fits d (S h) n m ok acc).
  { unfold fits. split; intros (? & ? & ? & ?); split_and!; try done; lia. }
  destruct r; simpl in *; by rewrite <-Hf.
Qed.

(** A node: the depth, the counter of nodes, then what is inside. *)
Lemma decides_node d h n m ok acc (k : N * N → StructuredEditError + (N * N)) :
  (∀ acc', within acc' → decides (S d) h n m ok acc' (k acc')) → within acc →
  decides d (S h) (1 + n) m ok acc
    (if decide (max_depth limits < d) then inl (DraftDepth (max_depth limits))
     else match count_item limits acc with inl e => inl e | inr acc' => k acc' end).
Proof.
  intros Hk Hw. apply decides_depth. intros _.
  apply (decides_then (S d) 0 1 0 true h n m ok); [by apply count_item_decides|]. auto.
Qed.

(** Containers have no bytes of their own. *)
Lemma decides_no_bytes d h n m ok acc r :
  decides d h n m ok acc r →
  decides d h n m ok acc match r with inl e => inl e | inr acc' => count_bytes limits 0 acc' end.
Proof.
  intros Hr. replace h with (h `max` 0) by lia. replace n with (n + 0)%N by lia. replace m with (m + 0)%N by lia.
  rewrite <-(andb_true_r ok). apply decides_then; [done|]. intros. apply count_bytes_decides; auto.
Qed.

Lemma children_decide d l acc :
  Forall (λ x, ∀ d acc, within acc →
    decides d (draft_height x) (draft_items x) (draft_bytes x) (draft_ok x) acc (visit limits d x acc)) l →
  within acc →
  decides d (max_list (map draft_height l)) (sum_N (map draft_items l)) (sum_N (map draft_bytes l))
    (forallb draft_ok l) acc (try_fold (λ acc child, visit limits d child acc) l acc).
Proof. intros IH Hw. apply decides_list; [|done]. intros y a Hy Ha. rewrite Forall_forall in IH. by apply IH. Qed.

Lemma visit_decides x d acc :
  within acc → decides d (draft_height x) (draft_items x) (draft_bytes x) (draft_ok x) acc (visit limits d x acc).
Proof.
  revert d acc. induction x as [t|level t|s i t|r|children IH|style items IH] using draft_induction; intros d acc Hw.
  1-4: apply (decides_node d 0 0); [|done]; intros acc' Hw'; apply (leaf_decides (S d)); done.
  - apply (decides_node d (max_list (map draft_height children)) (sum_N (map draft_items children))); [|done].
    intros acc' Hw'. apply (decides_no_bytes (S d)). by apply children_decide.
  - refine (decides_node d _ _ _ _ acc _ _ Hw). intros acc' Hw'. apply (decides_no_bytes (S d)). cbn [draft_ok].
    destruct (validate_list_style style) as [e|] eqn:Es; [by intros (_ & _ & _ & ?)|].
    rewrite bool_decide_true by done. cbn [andb]. apply decides_list; [|done].
    intros [task ch] a Hy Ha. rewrite Forall_forall in IH. specialize (IH _ Hy). simpl in IH.
    apply (decides_then (S d) 0 1 0 true (max_list (map draft_height ch)) (sum_N (map draft_items ch))
      (sum_N (map draft_bytes ch)) (forallb draft_ok ch)); [by apply count_item_decides|]. intros a' _ Ha'.
    by apply children_decide.
Qed.
End walk.

(** C31: Which drafts are accepted.  For limits below the largest counter,
    [draft_validate] accepts a draft exactly when it has at most [max_depth]
    levels, at most [max_items] blocks and list items, at most [max_bytes]
    bytes of text, every heading level is between one and six, every fence is
    longer than the runs inside it and has a legal info string, and every
    ordered list starts at most at 999999999. *)
Theorem draft_validate_exact limits d :
  (max_items limits < u64_max)%N → (max_bytes limits < u64_max)%N →
  draft_validate limits d = None ↔
    draft_height d ≤ max_depth limits ∧ (draft_items d ≤ max_items limits)%N ∧
    (draft_bytes d ≤ max_bytes limits)%N ∧ draft_ok d = true.
Proof.
  intros Hi Hb. pose proof (visit_decides limits Hi Hb d 1 (0, 0)%N) as H. unfold draft_validate.
  assert (Hh : draft_height d ≠ 0) by (destruct d; done).
  unfold within, decides, fits in H. simpl in H. specialize (H ltac:(lia)).
  destruct (visit limits 1 d (0, 0)%N) as [e|acc]; simpl in H.
  - split; [done|]. intros (? & ? & ? & ?). destruct H. split_and!; [lia..|done].
  - split; [|done]. intros _. destruct H as [(? & ? & ? & ?) _]. split_and!; [lia..|done].
Qed.

(** The default limits, at a draft of two levels. *)
Lemma draft_validate_exact_witness :
  draft_validate default_edit_limits (DraftBlockQuote [DraftHeading 6 "a"]) = None.
Proof.
  apply (draft_validate_exact default_edit_limits (DraftBlockQuote [DraftHeading 6 "a"])); [done|done|].
  split_and!; [simpl; lia|by vm_compute|by vm_compute|reflexivity].
Defined.
