(* ===== verification/Block.v ===== *)
(** * Blocks: the document tree, its index and its source regions

    Models the block types of [src/src/doc/mod.rs], the queries that walk the
    tree, the index from ids to paths, reading and updating along a path, and
    the bookkeeping of [src/src/doc/source.rs] that remembers which top-level
    blocks differ from the text they were read from.  Blocks, list items and
    the sequences that hold them are one nested inductive type, as in the
    source; the walks are structural recursions on it. *)

From S2P Require Import Prelude Core Sequence Mark Table Frontmatter Codec Text.

(** ** Data *)

Record PendingListItemMove := mkItemMove {
  im_from_list_elem : OpId;
  im_to_list_elem : OpId;
  im_list_id : BlockId;
  im_item_id : BlockId;
  im_target : OpId;
  im_id : OpId;
  im_after : option OpId;
  im_right_origin : option OpId;
  im_observed : StateVector;
}.

Inductive Block :=
  | mkBlock (id : BlockId) (elem_id : OpId) (kind_op : OpId) (kind_observed : StateVector)
      (kind : BlockKind) (marks : MarkSet)
with BlockKind :=
  | Paragraph (text : Sequence TextUnit)
  | Heading (level : N) (text : Sequence TextUnit)
  | ListBlock (style : ListStyle) (items : Sequence ListItem)
      (pending_moves : list PendingListItemMove)
  | CodeFence (style : CodeFenceStyle) (info : option string) (text : string)
  | BlockQuote (children : Sequence Block)
  | RawBlock (raw : string)
  | TableBlock (table : Table)
with ListItem :=
  | mkItem (id : BlockId) (elem_id : OpId) (task : option TaskState) (task_op : OpId)
      (task_observed placement_observed : StateVector) (children : Sequence Block).

(** Field access and update. *)
Definition blk_id (b : Block) : BlockId := match b with mkBlock id _ _ _ _ _ => id end.
Definition blk_elem (b : Block) : OpId := match b with mkBlock _ e _ _ _ _ => e end.
Definition blk_kind_op (b : Block) : OpId := match b with mkBlock _ _ o _ _ _ => o end.
Definition blk_kind_observed (b : Block) : StateVector := match b with mkBlock _ _ _ v _ _ => v end.
Definition blk_kind (b : Block) : BlockKind := match b with mkBlock _ _ _ _ k _ => k end.
Definition blk_marks (b : Block) : MarkSet := match b with mkBlock _ _ _ _ _ m => m end.
Definition set_elem (e : OpId) (b : Block) : Block :=
  mkBlock (blk_id b) e (blk_kind_op b) (blk_kind_observed b) (blk_kind b) (blk_marks b).
Definition set_kind (k : BlockKind) (b : Block) : Block :=
  mkBlock (blk_id b) (blk_elem b) (blk_kind_op b) (blk_kind_observed b) k (blk_marks b).
Definition set_marks (m : MarkSet) (b : Block) : Block :=
  mkBlock (blk_id b) (blk_elem b) (blk_kind_op b) (blk_kind_observed b) (blk_kind b) m.
(** [block.kind = k; block.kind_op = op; block.kind_observed = observed]. *)
Definition write_kind (k : BlockKind) (op : OpId) (observed : StateVector) (b : Block) : Block :=
  mkBlock (blk_id b) (blk_elem b) op observed k (blk_marks b).

Definition it_id (i : ListItem) : BlockId := match i with mkItem id _ _ _ _ _ _ => id end.
Definition it_elem (i : ListItem) : OpId := match i with mkItem _ e _ _ _ _ _ => e end.
Definition it_task (i : ListItem) : option TaskState := match i with mkItem _ _ t _ _ _ _ => t end.
Definition it_task_op (i : ListItem) : OpId := match i with mkItem _ _ _ o _ _ _ => o end.
Definition it_task_observed (i : ListItem) : StateVector := match i with mkItem _ _ _ _ v _ _ => v end.
Definition it_placement (i : ListItem) : StateVector := match i with mkItem _ _ _ _ _ v _ => v end.
Definition it_children (i : ListItem) : Sequence Block := match i with mkItem _ _ _ _ _ _ c => c end.
Definition set_placement (v : StateVector) (i : ListItem) : ListItem :=
  mkItem (it_id i) (it_elem i) (it_task i) (it_task_op i) (it_task_observed i) v (it_children i).
Definition set_children (c : Sequence Block) (i : ListItem) : ListItem :=
  mkItem (it_id i) (it_elem i) (it_task i) (it_task_op i) (it_task_observed i) (it_placement i) c.
(** [item.task = task; item.task_op = op; item.task_observed = observed]. *)
Definition write_task (t : option TaskState) (op : OpId) (observed : StateVector) (i : ListItem) :
    ListItem :=
  mkItem (it_id i) (it_elem i) t op observed (it_placement i) (it_children i).

Definition block_new (kind : BlockKind) (insert_id : OpId) : Block :=
  mkBlock (block_id_from_op insert_id) insert_id insert_id StateVectorOps.new kind markset_new.

Section constructors.
Context (graphemes : string → list string).
(** [BlockKind::paragraph] and [BlockKind::heading]. *)
Definition kind_paragraph (s : string) (start : OpId) : BlockKind :=
  Paragraph (units_from_str_at graphemes s start).
Definition kind_heading (level : N) (s : string) (start : OpId) : BlockKind :=
  Heading (N.min (N.max level 1) 6) (units_from_str_at graphemes s start).
End constructors.

Definition block_text_seq (kind : BlockKind) : option (Sequence TextUnit) :=
  match kind with
  | Paragraph text | Heading _ text => Some text
  | _ => None
  end.

(** [block_text_seq_mut]: [f] edits the text in place. *)
Definition block_text_seq_mut {R} (f : Sequence TextUnit → Sequence TextUnit * R)
    (kind : BlockKind) : BlockKind * option R :=
  match kind with
  | Paragraph text => let '(text, r) := f text in (Paragraph text, Some r)
  | Heading level text => let '(text, r) := f text in (Heading level text, Some r)
  | _ => (kind, None)
  end.

(** ** Iterating over the visible values of a sequence *)

(** [iter().any(f)]. *)
Definition iter_any {T} (f : T → bool) (s : Sequence T) : bool :=
  existsb (λ e, match elem_value e with Some v => f v | None => false end) (seq_elements s).

(** The first [Some] that [f] gives on a list. *)
Definition find_map {A B} (f : A → option B) : list A → option B :=
  fix go l := match l with
              | [] => None
              | x :: l => match f x with Some r => Some r | None => go l end
              end.

(** [for v in s.iter() { if let Some(r) = f(v) { return Some(r) } }]. *)
Definition iter_find_map {T B} (f : T → option B) (s : Sequence T) : option B :=
  find_map (λ e, match elem_value e with Some v => f v | None => None end) (seq_elements s).

(** [for e in s.iter_all()] with tombstones skipped: [f] sees the id of the
    element and its value. *)
Definition iter_fold {T A} (f : OpId → T → A → A) (s : Sequence T) (a : A) : A :=
  fold_left (λ a e, match elem_value e with Some v => f (elem_id e) v a | None => a end)
    (seq_elements s) a.

(** What [value_mut] reads. *)
Definition value_at {T} (s : Sequence T) (id : OpId) : option T :=
  seq_index s !! id ≫= λ i, seq_elements s !! i ≫= elem_value.

(** ** Searching the tree *)

Fixpoint projection_block_contains (block : Block) (target : BlockId) : bool :=
  match block with
  | mkBlock id _ _ _ kind _ =>
    if decide (id = target) then true
    else match kind with
    | BlockQuote children => iter_any (λ child, projection_block_contains child target) children
    | ListBlock _ items _ =>
      iter_any (λ item, match item with
        mkItem iid _ _ _ _ _ children =>
          bool_decide (iid = target) ||
          iter_any (λ child, projection_block_contains child target) children
        end) items
    | _ => false
    end
  end.

Definition projection_root (blocks : Sequence Block) (target : BlockId) : option BlockId :=
  (λ x, blk_id x.2) <$>
    list_find (λ b, projection_block_contains b target = true) (sequence_iter blocks).

(** The local function [contains] of [block_contains_container]. *)
Fixpoint contains_elem (block : Block) (candidate : OpId) : bool :=
  match block with
  | mkBlock _ elem _ _ kind _ =>
    if decide (elem = candidate) then true
    else match kind with
    | BlockQuote children => iter_any (λ child, contains_elem child candidate) children
    | ListBlock _ items _ =>
      iter_any (λ item, match item with
        mkItem _ ie _ _ _ _ children =>
          bool_decide (ie = candidate) ||
          iter_any (λ child, contains_elem child candidate) children
        end) items
    | _ => false
    end
  end.

(** The local [walk]s of [find_list_item], [find_list_item_by_id] and
    [list_item_placement], on one block; the sequences are walked by
    [iter_find_map]. *)
Fixpoint find_item_in (p : ListItem → bool) (block : Block) : option ListItem :=
  match block with
  | mkBlock _ _ _ _ (ListBlock _ items _) _ =>
    iter_find_map (λ item,
      if p item then Some item
      else match item with
           mkItem _ _ _ _ _ _ children => iter_find_map (find_item_in p) children
           end) items
  | mkBlock _ _ _ _ (BlockQuote children) _ => iter_find_map (find_item_in p) children
  | _ => None
  end.

Definition find_list_item (blocks : Sequence Block) (elem_id : OpId) : option ListItem :=
  iter_find_map (find_item_in (λ item, bool_decide (it_elem item = elem_id))) blocks.

Definition find_list_item_by_id (blocks : Sequence Block) (item_id : BlockId) : option ListItem :=
  iter_find_map (find_item_in (λ item, bool_decide (it_id item = item_id))) blocks.

Fixpoint item_placement_in (item_id : BlockId) (block : Block) : option (BlockId * OpId * OpId) :=
  match block with
  | mkBlock id elem _ _ (ListBlock _ items _) _ =>
    match find_map (λ e, match elem_value e with
                         | Some item => if decide (it_id item = item_id) then Some (elem_id e) else None
                         | None => None
                         end) (seq_elements items) with
    | Some placement => Some (id, elem, placement)
    | None =>
      iter_find_map (λ item, match item with
        mkItem _ _ _ _ _ _ children => iter_find_map (item_placement_in item_id) children
        end) items
    end
  | mkBlock _ _ _ _ (BlockQuote children) _ => iter_find_map (item_placement_in item_id) children
  | _ => None
  end.

Definition list_item_placement (blocks : Sequence Block) (item_id : BlockId) :
    option (BlockId * OpId * OpId) :=
  iter_find_map (item_placement_in item_id) blocks.

Definition list_containing_item (blocks : Sequence Block) (item_id : BlockId) :
    option (BlockId * OpId) :=
  (λ '(list_id, list_elem, _), (list_id, list_elem)) <$> list_item_placement blocks item_id.

(** ** The index *)

Inductive BlockContainerPath :=
  | InBlockQuote (id : OpId)
  | InListItem (list item : OpId).
Record BlockPath := mkPath { path_containers : list BlockContainerPath; path_elem : OpId }.
Record BlockIndex := mkIndex {
  by_block_id : gmap BlockId BlockPath;
  by_elem_id : gmap OpId BlockPath;
}.

(** [map.entry(k).or_insert(v)]. *)
Definition or_insert `{Countable K} {V} (k : K) (v : V) (m : gmap K V) : gmap K V :=
  match m !! k with Some _ => m | None => <[k := v]> m end.

Definition index_entry (containers : list BlockContainerPath) (eid : OpId) (id : BlockId)
    (index : BlockIndex) : BlockIndex :=
  let path := mkPath containers eid in
  mkIndex (or_insert id path (by_block_id index)) (or_insert eid path (by_elem_id index)).

(** The loop body of [index_block_sequence] for one live element. *)
Fixpoint index_block (containers : list BlockContainerPath) (eid : OpId) (block : Block)
    (index : BlockIndex) : BlockIndex :=
  match block with
  | mkBlock id _ _ _ kind _ =>
    let index := index_entry containers eid id index in
    match kind with
    | BlockQuote children => iter_fold (index_block (containers ++ [InBlockQuote eid])) children index
    | ListBlock _ items _ =>
      iter_fold (λ iid item index, match item with
        mkItem _ _ _ _ _ _ children =>
          iter_fold (index_block (containers ++ [InListItem eid iid])) children index
        end) items index
    | _ => index
    end
  end.

Definition index_block_sequence (s : Sequence Block) (containers : list BlockContainerPath)
    (index : BlockIndex) : BlockIndex :=
  iter_fold (index_block containers) s index.

(** ** Access along a path *)

(** The sequence a path leads to. *)
Fixpoint sequence_at (s : Sequence Block) (containers : list BlockContainerPath) :
    option (Sequence Block) :=
  match containers with
  | [] => Some s
  | InBlockQuote id :: rest =>
    match get_element s id ≫= elem_value with
    | Some b => match blk_kind b with BlockQuote children => sequence_at children rest | _ => None end
    | None => None
    end
  | InListItem list item :: rest =>
    match get_element s list ≫= elem_value with
    | Some b =>
      match blk_kind b with
      | ListBlock _ items _ =>
        match get_element items item ≫= elem_value with
        | Some i => sequence_at (it_children i) rest
        | None => None
        end
      | _ => None
      end
    | None => None
    end
  end.

Definition block_at_path (s : Sequence Block) (path : BlockPath) : option Block :=
  current ← sequence_at s (path_containers path);
  get_element current (path_elem path) ≫= elem_value.

(** [block_at_path_mut(..).map(f)]: [f] edits the block in place. *)
Fixpoint block_at_path_mut {R} (containers : list BlockContainerPath) (eid : OpId)
    (f : Block → Block * R) (s : Sequence Block) : Sequence Block * option R :=
  match containers with
  | [] => with_value_mut eid f s
  | InBlockQuote id :: rest =>
    let '(s, r) :=
      with_value_mut id (λ b,
        match blk_kind b with
        | BlockQuote children =>
          let '(children, r) := block_at_path_mut rest eid f children in
          (set_kind (BlockQuote children) b, r)
        | _ => (b, None)
        end) s in
    (s, mjoin r)
  | InListItem list item :: rest =>
    let '(s, r) :=
      with_value_mut list (λ b,
        match blk_kind b with
        | ListBlock style items moves =>
          let '(items, r) :=
            with_value_mut item (λ i,
              let '(children, r) := block_at_path_mut rest eid f (it_children i) in
              (set_children children i, r)) items in
          (set_kind (ListBlock style items moves) b, mjoin r)
        | _ => (b, None)
        end) s in
    (s, mjoin r)
  end.

(** ** Reaching a container *)

(** The height of the tree below a block; it bounds the recursion of [walk]. *)
Fixpoint block_height (block : Block) : nat :=
  match block with
  | mkBlock _ _ _ _ (BlockQuote children) _ =>
    S (iter_fold (λ _ b n, Nat.max (block_height b) n) children 0)
  | mkBlock _ _ _ _ (ListBlock _ items _) _ =>
    S (iter_fold (λ _ i n, match i with
        mkItem _ _ _ _ _ _ children =>
          Nat.max (iter_fold (λ _ b n, Nat.max (block_height b) n) children 0) n
        end) items 0)
  | _ => 0
  end.
Definition sequence_height (s : Sequence Block) : nat :=
  iter_fold (λ _ b n, Nat.max (block_height b) n) s 0.

Definition set_value_at {T} (id : OpId) (v : T) (s : Sequence T) : Sequence T :=
  (with_value_mut id (λ _, (v, tt)) s).1.

(** The body of the first loop of [walk]: [None] goes on to the next id,
    [Some r] returns [r]. *)
Definition container_here (f : Sequence Block → Sequence Block) (target : OpId)
    (s : Sequence Block) (bid : OpId) : option (option (Sequence Block)) :=
  match value_at s bid with
  | None => None
  | Some b =>
    match blk_kind b with
    | BlockQuote children =>
      if decide (blk_elem b = target)
      then Some (Some (set_value_at bid (set_kind (BlockQuote (f children)) b) s)) else None
    | ListBlock style items moves =>
      if iter_any (λ it, bool_decide (it_elem it = target)) items then
        Some (find_map (λ iid,
          match value_at items iid with
          | Some it =>
            if decide (it_elem it = target) then
              let items := set_value_at iid (set_children (f (it_children it)) it) items in
              Some (set_value_at bid (set_kind (ListBlock style items moves) b) s)
            else None
          | None => None
          end) (element_ids items))
      else None
    | _ => None
    end
  end.

(** The body of the second loop, which descends; [rec] is [walk]. *)
Definition container_below (rec : Sequence Block → option (option (Sequence Block)))
    (s : Sequence Block) (bid : OpId) : option (option (Sequence Block)) :=
  match value_at s bid with
  | None => None
  | Some b =>
    match blk_kind b with
    | BlockQuote children =>
      match rec children with
      | Some r => Some ((λ c, set_value_at bid (set_kind (BlockQuote c) b) s) <$> r)
      | None => None
      end
    | ListBlock style items moves =>
      find_map (λ iid,
        match value_at items iid with
        | Some it =>
          match rec (it_children it) with
          | Some r => Some ((λ c,
              let items := set_value_at iid (set_children c it) items in
              set_value_at bid (set_kind (ListBlock style items moves) b) s) <$> r)
          | None => None
          end
        | None => None
        end) (element_ids items)
    | _ => None
    end
  end.

(** [walk]: [Some r] when the closure was taken, with [r] the edited sequence. *)
Fixpoint container_walk (fuel : nat) (f : Sequence Block → Sequence Block) (target : OpId)
    (s : Sequence Block) : option (option (Sequence Block)) :=
  match fuel with
  | 0 => None
  | S fuel =>
    match find_map (container_here f target s) (element_ids s) with
    | Some r => Some r
    | None => find_map (container_below (container_walk fuel f target) s) (element_ids s)
    end
  end.

(** ** Source regions *)

Record SourceRegion := mkRegion {
  leading_start : nat;
  leading_end : nat;
  body_start : nat;
  body_end : nat;
}.

Record DocumentSource := mkSource {
  src_original : ustring;
  src_preamble_end : nat;
  src_trailer_start : nat;
  src_order : list BlockId;
  src_regions : gmap BlockId SourceRegion;
  root_by_block : gmap BlockId BlockId;
  root_by_elem : gmap OpId BlockId;
  src_dirty : gset BlockId;
}.

(** [index_block] of [source.rs]: [roots] holds the two root maps. *)
Fixpoint source_index_block (block : Block) (root : BlockId)
    (roots : gmap BlockId BlockId * gmap OpId BlockId) : gmap BlockId BlockId * gmap OpId BlockId :=
  match block with
  | mkBlock id elem _ _ kind _ =>
    let roots := (<[id := root]> roots.1, <[elem := root]> roots.2) in
    match kind with
    | BlockQuote children =>
      iter_fold (λ _ child roots, source_index_block child root roots) children roots
    | ListBlock _ items _ =>
      iter_fold (λ _ item roots, match item with
        mkItem iid ie _ _ _ _ children =>
          iter_fold (λ _ child roots, source_index_block child root roots) children
            (<[iid := root]> roots.1, <[ie := root]> roots.2)
        end) items roots
    | _ => roots
    end
  end.

Definition set_roots (roots : gmap BlockId BlockId * gmap OpId BlockId) (src : DocumentSource) :
    DocumentSource :=
  mkSource (src_original src) (src_preamble_end src) (src_trailer_start src) (src_order src)
    (src_regions src) roots.1 roots.2 (src_dirty src).

Definition index_roots (blocks : list Block) (src : DocumentSource) : DocumentSource :=
  set_roots (fold_left (λ roots b, source_index_block b (blk_id b) roots) blocks
    (root_by_block src, root_by_elem src)) src.

Definition reindex (blocks : Sequence Block) (src : DocumentSource) : DocumentSource :=
  index_roots (sequence_iter blocks) (set_roots (∅, ∅) src).

Definition mark_dirty (root : option BlockId) (src : DocumentSource) : DocumentSource :=
  match root with
  | Some root =>
    mkSource (src_original src) (src_preamble_end src) (src_trailer_start src) (src_order src)
      (src_regions src) (root_by_block src) (root_by_elem src) ({[root]} ∪ src_dirty src)
  | None => src
  end.
Definition mark_block_dirty (id : BlockId) (src : DocumentSource) : DocumentSource :=
  mark_dirty (root_by_block src !! id) src.
Definition mark_elem_dirty (id : OpId) (src : DocumentSource) : DocumentSource :=
  mark_dirty (root_by_elem src !! id) src.

Definition region_body_bytes (src : DocumentSource) (id : BlockId) : option nat :=
  (λ region, body_end region - body_start region) <$> src_regions src !! id.

Definition root_for_block (src : DocumentSource) (id : BlockId) : option BlockId :=
  root_by_block src !! id.

(** One round of the loop of [DocumentSource::new]. *)
Definition push_region (acc : nat * gmap BlockId SourceRegion * list BlockId)
    (span : BlockId * nat * nat) : nat * gmap BlockId SourceRegion * list BlockId :=
  let '(previous_end, regions, order) := acc in
  let '(id, start, stop) := span in
  (stop, <[id := mkRegion previous_end start start stop]> regions, order ++ [id]).

Definition source_new (original : ustring) (spans : list (BlockId * nat * nat))
    (blocks : list Block) : DocumentSource :=
  let preamble_end := match head spans with Some (_, start, _) => start | None => byte_len original end in
  let trailer_start := match last spans with Some (_, _, stop) => stop | None => byte_len original end in
  let '(_, regions, order) := fold_left push_region spans (preamble_end, ∅, []) in
  index_roots blocks (mkSource original preamble_end trailer_start order regions ∅ ∅ ∅).

(** The loop of [adopt_for]: [None] when an old id has no region. *)
Definition adopt_region (old : gmap BlockId SourceRegion)
    (acc : option (gmap BlockId SourceRegion * list BlockId)) (x : Block * BlockId) :
    option (gmap BlockId SourceRegion * list BlockId) :=
  '(regions, order) ← acc;
  region ← old !! x.2;
  Some (<[blk_id x.1 := region]> regions, order ++ [blk_id x.1]).

Definition adopt_for (blocks : list Block) (src : DocumentSource) : option DocumentSource :=
  if decide (length blocks ≠ length (src_order src)) then None
  else
    '(regions, order) ←
      fold_left (adopt_region (src_regions src)) (zip blocks (src_order src)) (Some (∅, []));
    Some (index_roots blocks
      (mkSource (src_original src) (src_preamble_end src) (src_trailer_start src) order regions
         ∅ ∅ ∅)).

(** ** Rendering from the source *)

(** [s[a..b]]; [None] where the slice panics. *)
Definition slice (a b : nat) (s : ustring) : option ustring :=
  if decide (a ≤ b) then rest ← slice_from s a; slice_to rest (b - a) else None.

(** The byte offset of the first occurrence of a pattern. *)
Fixpoint str_find (pat s : ustring) : option nat :=
  if decide (pat `prefix_of` s) then Some 0
  else match s with
  | [] => None
  | c :: s => Nat.add (len_utf8 c) <$> str_find pat s
  end.

Definition dashes : ustring := [45; 45; 45]%N.

Definition ends_with (pat s : ustring) : bool := bool_decide (pat `suffix_of` s).

Definition ensure_block_separator (output : ustring) : ustring :=
  if ends_with [newline; newline] output then output
  else if ends_with [newline] output then output ++ [newline]
  else output ++ [newline; newline].

(** What follows the closing fence of the preamble. *)
Definition after_frontmatter (preamble : ustring) : option ustring :=
  if decide (dashes `prefix_of` preamble) then
    let first_line_end := match str_find [newline] preamble with
                          | Some at_ => at_ + 1 | None => byte_len preamble end in
    rest ← slice_from preamble first_line_end;
    match str_find (newline :: dashes) rest with
    | None => Some []
    | Some relative =>
      let closing := first_line_end + relative + 1 in
      tail ← slice_from preamble closing;
      slice_from preamble
        (match str_find [newline] tail with
         | Some relative => closing + relative + 1 | None => byte_len preamble end)
    end
  else Some preamble.

Definition render_replaced_frontmatter (src : DocumentSource) (frontmatter : ustring) :
    option ustring :=
  preamble ← slice_to (src_original src) (src_preamble_end src);
  remainder ← after_frontmatter preamble;
  Some (dashes ++ [newline] ++ frontmatter ++ [newline] ++ dashes ++ [newline] ++ remainder).

Section render.
(** [serialize_block] of [serialize.rs]; the results hold for every printer. *)
Context (serialize_block : Block → ustring).

(** The text of a top-level block: printed when dirty, else as it was read. *)
Definition region_text (src : DocumentSource) (region : SourceRegion) (root : BlockId)
    (block : Block) : option ustring :=
  if decide (root ∈ src_dirty src) then Some (serialize_block block)
  else slice (body_start region) (body_end region) (src_original src).

Definition render_root_region (src : DocumentSource) (root : BlockId) (block : Block) :
    option (option ustring) :=
  match src_regions src !! root with
  | None => Some None
  | Some region => Some <$> region_text src region root block
  end.

(** One round of the loop of [render_with_frontmatter]: the output, whether a
    block was emitted, and the position of the previous block in the source. *)
Definition render_step (src : DocumentSource) (acc : option (ustring * bool * option nat))
    (block : Block) : option (ustring * bool * option nat) :=
  '(output, emitted, previous) ← acc;
  let separated :=
    if emitted || bool_decide (output ≠ []) then ensure_block_separator output else output in
  match src_regions src !! blk_id block with
  | Some region =>
    let position := position (λ id, bool_decide (id = blk_id block)) (src_order src) in
    let follows := match previous, position with
                   | Some p, Some c => bool_decide (p + 1 = c) | _, _ => false end in
    output ←
      (if negb emitted && bool_decide (position = Some 0) || follows
       then leading ← slice (leading_start region) (leading_end region) (src_original src);
            Some (output ++ leading)
       else Some separated);
    body ← region_text src region (blk_id block) block;
    Some (output ++ body, true, position)
  | None => Some (separated ++ serialize_block block, true, None)
  end.

Definition render_with_frontmatter (src : DocumentSource) (blocks : Sequence Block)
    (frontmatter : option ustring) : option ustring :=
  output ← match frontmatter with
           | None => slice_to (src_original src) (src_preamble_end src)
           | Some fm => render_replaced_frontmatter src fm
           end;
  '(output, emitted, _) ←
    fold_left (render_step src) (sequence_iter blocks) (Some (output, false, None));
  if emitted || bool_decide (output ≠ []) then
    trailer ← slice_from (src_original src) (src_trailer_start src);
    Some (output ++ trailer)
  else Some output.
End render.
