(* ===== verification/Document.v ===== *)
(** * The document: blocks, cached index, source state and edits

    Models [Document] of [src/src/doc/mod.rs].  The block index is a cache
    behind a lock: reading operations may rebuild it, so they pass the document
    through.  [IndexedBlocks] counts its mutable uses; the cache is used only
    while its generation is current. *)

From S2P Require Import Prelude Core Sequence Mark MarkOps Table Frontmatter Codec Text Block.

(** ** Data *)

Record IndexedBlocks := mkIndexed { ib_sequence : Sequence Block; ib_generation : N }.
Record CachedBlockIndex := mkCached { cached_generation : N; cached_index : BlockIndex }.

Record Document := mkDocument {
  doc_frontmatter : option Frontmatter;
  doc_indexed : IndexedBlocks;
  doc_source : option DocumentSource;
  doc_block_index : option CachedBlockIndex;
}.

Inductive EquivalenceMode := Exact | Structural.
Record SerializeConfig := mkConfig { equivalence : EquivalenceMode; prefer_raw_source : bool }.
Definition config_exact : SerializeConfig := mkConfig Exact true.
Definition config_structural : SerializeConfig := mkConfig Structural false.

Inductive EditError := BlockNotFound | InvalidOffset | InvalidGraphemeBoundary.

Record InsertTextRun := mkTextRun {
  run_block_id : BlockId;
  run_grapheme_offset : nat;
  run_byte_offset : nat;
  run_text : string;
  run_op_id : OpId;
}.
Inductive EditOp :=
  | EditInsertText (run : InsertTextRun)
  | EditSetMark (block_id : BlockId) (interval_id : OpId) (kind : MarkKind) (start stop : Anchor)
      (attrs : gmap string MarkValue) (op_id : OpId)
  | EditRemoveMark (block_id : BlockId) (interval_id : OpId) (observed : StateVector) (op_id : OpId).

Definition indexed_new (s : Sequence Block) : IndexedBlocks := mkIndexed s 0.

Definition doc_new : Document := mkDocument None (indexed_new sequence_new) None None.

(** [clone]: the generation restarts and the cache is dropped. *)
Definition doc_clone (d : Document) : Document :=
  mkDocument (doc_frontmatter d) (indexed_new (ib_sequence (doc_indexed d))) (doc_source d) None.

Definition doc_blocks (d : Document) : Sequence Block := ib_sequence (doc_indexed d).
Definition blocks_in_order (d : Document) : list Block := sequence_iter (doc_blocks d).

(** [deref_mut]: every mutable use of the blocks advances the generation. *)
Definition deref_mut (f : Sequence Block → Sequence Block) (ib : IndexedBlocks) : IndexedBlocks :=
  mkIndexed (f (ib_sequence ib)) (u64_wrapping_add (ib_generation ib) 1).

Definition edit_blocks (f : Sequence Block → Sequence Block) (d : Document) : Document :=
  mkDocument (doc_frontmatter d) (deref_mut f (doc_indexed d)) (doc_source d) (doc_block_index d).
Definition set_source (src : option DocumentSource) (d : Document) : Document :=
  mkDocument (doc_frontmatter d) (doc_indexed d) src (doc_block_index d).
Definition set_frontmatter (fm : option Frontmatter) (d : Document) : Document :=
  mkDocument fm (doc_indexed d) (doc_source d) (doc_block_index d).
Definition set_cache (c : option CachedBlockIndex) (d : Document) : Document :=
  mkDocument (doc_frontmatter d) (doc_indexed d) (doc_source d) c.

(** [blocks_mut]: hands out the blocks and forgets the source. *)
Definition blocks_mut (f : Sequence Block → Sequence Block) (d : Document) : Document :=
  edit_blocks f (set_source None d).

(** ** The cached index *)

Definition index_of (s : Sequence Block) : BlockIndex := index_block_sequence s [] (mkIndex ∅ ∅).

Definition rebuild_block_index (d : Document) : Document :=
  set_cache (Some (mkCached (ib_generation (doc_indexed d)) (index_of (doc_blocks d)))) d.

Definition ensure_block_index (d : Document) : Document :=
  match doc_block_index d with
  | Some cached =>
    if decide (cached_generation cached = ib_generation (doc_indexed d)) then d
    else rebuild_block_index d
  | None => rebuild_block_index d
  end.

(** A lookup through the cached index; [ok] is the check on the block found. *)
Definition lookup_block {K} `{Countable K} (key : BlockIndex → gmap K BlockPath) (k : K)
    (ok : Block → bool) (d : Document) : option Block :=
  cached ← doc_block_index d;
  path ← key (cached_index cached) !! k;
  block ← block_at_path (doc_blocks d) path;
  if ok block then Some block else None.

(** The common shape of [find_block] and [find_block_by_id]: try the cached
    path, else rebuild the index and try again. *)
Definition find_through {K} `{Countable K} (key : BlockIndex → gmap K BlockPath) (k : K)
    (ok : Block → bool) (d : Document) : Document * option Block :=
  let d := ensure_block_index d in
  match lookup_block key k ok d with
  | Some block => (d, Some block)
  | None => let d := rebuild_block_index d in (d, lookup_block key k ok d)
  end.

Definition find_block (elem_id : OpId) (d : Document) : Document * option Block :=
  find_through by_elem_id elem_id (λ b, bool_decide (blk_elem b = elem_id)) d.

Definition find_block_by_id (block_id : BlockId) (d : Document) : Document * option Block :=
  find_through by_block_id block_id (λ b, bool_decide (blk_id b = block_id)) d.

Definition block_elem_id (block_id : BlockId) (d : Document) : Document * option OpId :=
  let '(d, b) := find_block_by_id block_id d in (d, blk_elem <$> b).

(** [Some None] is the top level. *)
Definition block_parent (block_id : BlockId) (d : Document) : Document * option (option OpId) :=
  let d := ensure_block_index d in
  (d, cached ← doc_block_index d;
      path ← by_block_id (cached_index cached) !! block_id;
      Some ((λ c, match c with InBlockQuote id => id | InListItem _ item => item end)
              <$> last (path_containers path))).

Definition block_contains_container (block_id : BlockId) (candidate : OpId) (d : Document) :
    Document * bool :=
  let '(d, b) := find_block_by_id block_id d in
  (d, match b with Some b => contains_elem b candidate | None => false end).

(** ** Source state *)

Definition mark_source_block_dirty (id : BlockId) (d : Document) : Document :=
  set_source (mark_block_dirty id <$> doc_source d) d.
Definition mark_source_elem_dirty (id : OpId) (d : Document) : Document :=
  set_source (mark_elem_dirty id <$> doc_source d) d.
Definition clear_raw_source (d : Document) : Document := set_source None d.
Definition set_source_state (src : option DocumentSource) (d : Document) : Document :=
  set_source (reindex (doc_blocks d) <$> src) d.

(** [std::mem::discriminant] of a block kind. *)
Definition kind_tag (k : BlockKind) : nat :=
  match k with
  | Paragraph _ => 0 | Heading _ _ => 1 | ListBlock _ _ _ => 2 | CodeFence _ _ _ => 3
  | BlockQuote _ => 4 | RawBlock _ => 5 | TableBlock _ => 6
  end.

Definition adopt_source_from (parsed d : Document) : Document * bool :=
  match doc_source parsed with
  | None => (set_source None d, false)
  | Some src =>
    let current := blocks_in_order d in
    let others := blocks_in_order parsed in
    if decide (length current ≠ length others ∨
         Exists (λ x, kind_tag (blk_kind x.1) ≠ kind_tag (blk_kind x.2)) (zip current others))
    then (set_source None d, false)
    else
      let src := adopt_for current src in
      (set_source src d, bool_decide (is_Some src))
  end.

(** ** Editing a block in place *)

Definition with_block_mut {R} (elem_id : OpId) (f : Block → Block * R) (d : Document) :
    Document * option R :=
  match find_block elem_id d with
  | (d, None) => (d, None)
  | (d, Some _) =>
    let d := mark_source_elem_dirty elem_id d in
    match (cached ← doc_block_index d; by_elem_id (cached_index cached) !! elem_id) with
    | None => (d, None)
    | Some path =>
      let '(s, r) := block_at_path_mut (path_containers path) (path_elem path) f (doc_blocks d) in
      (edit_blocks (λ _, s) d, r)
    end
  end.

(** [with_container_children_mut], and whether the container was found. *)
Definition with_container_children_mut (container : OpId)
    (f : Sequence Block → Sequence Block) (d : Document) : Document * bool :=
  match mjoin (container_walk (S (sequence_height (doc_blocks d))) f container (doc_blocks d)) with
  | Some s => (edit_blocks (λ _, s) d, true)
  | None => (edit_blocks id d, false)
  end.

Section edits.
Context (sequence_incremental : bool).

(** ** Blocks in containers *)

(** The common shape of [insert_block_at] and [delete_block_at]. *)
Definition apply_at (parent : option OpId) (op : SequenceOp Block) (d : Document) :
    Document * bool :=
  let d := match parent with Some p => mark_source_elem_dirty p d | None => d end in
  match parent with
  | None => (edit_blocks (apply sequence_incremental op) d, true)
  | Some p => with_container_children_mut p (apply sequence_incremental op) d
  end.

Definition insert_block_at (parent after : option OpId) (id : OpId) (value : Block)
    (right_origin : option OpId) (d : Document) : Document * bool :=
  apply_at parent (Insert after id value right_origin) d.

Definition delete_block_at (parent : option OpId) (target id : OpId) (d : Document) :
    Document * bool :=
  apply_at parent (Delete target id) d.

Definition container_children (parent : option OpId) (d : Document) :
    Document * option (Sequence Block) :=
  match parent with
  | None => (d, Some (doc_blocks d))
  | Some p =>
    let '(d, b) := find_block p d in
    match blk_kind <$> b with
    | Some (BlockQuote children) => (d, Some children)
    | _ => (d, it_children <$> find_list_item (doc_blocks d) p)
    end
  end.

Definition compute_child_right_origin (parent after : option OpId) (d : Document) :
    Document * option OpId :=
  let '(d, c) := container_children parent d in
  (d, c ≫= λ c, compute_right_origin after c).

(** ** Block metadata: newest causal write wins *)

(** The guard and the write shared by the setters; [k] is the new kind, or
    [None] for a block of another kind. *)
Definition write_kind_if (k : BlockKind → option BlockKind) (id : OpId) (observed : StateVector)
    (b : Block) : Block * bool :=
  if causal_write_wins (blk_kind_op b) (blk_kind_observed b) id observed then
    match k (blk_kind b) with
    | Some kind => (write_kind kind id observed b, true)
    | None => (b, false)
    end
  else (b, false).

Definition set_list_style (block_elem : OpId) (style : ListStyle) (id : OpId)
    (observed : StateVector) (d : Document) : Document * bool :=
  let '(d, r) := with_block_mut block_elem (write_kind_if (λ k,
    match k with ListBlock _ items moves => Some (ListBlock style items moves) | _ => None end)
    id observed) d in
  (d, default false r).

Definition set_code_fence (block_elem : OpId) (style : CodeFenceStyle) (info : option string)
    (text : string) (id : OpId) (observed : StateVector) (d : Document) : Document * bool :=
  let '(d, r) := with_block_mut block_elem (write_kind_if (λ k,
    match k with CodeFence _ _ _ => Some (CodeFence style info text) | _ => None end)
    id observed) d in
  (d, default false r).

Definition convert_text_block (block_elem : OpId) (kind : TextBlockKindWire) (id : OpId)
    (observed : StateVector) (d : Document) : Document * bool :=
  let '(d, r) := with_block_mut block_elem (write_kind_if (λ k,
    text ← block_text_seq k;
    Some (match kind with
          | WireParagraph => Paragraph text
          | WireHeading level => Heading level text
          end)) id observed) d in
  (d, default false r).

Definition replace_raw_block (block_elem : OpId) (raw : string) (id : OpId)
    (observed : StateVector) (d : Document) : Document * bool :=
  let '(d, r) := with_block_mut block_elem (write_kind_if (λ k,
    match k with RawBlock _ => Some (RawBlock raw) | _ => None end) id observed) d in
  (d, default false r).

(** ** List items *)

Definition list_items (list_id : BlockId) (d : Document) :
    Document * option (Sequence ListItem) :=
  let '(d, b) := find_block_by_id list_id d in
  (d, b ≫= λ b, match blk_kind b with ListBlock _ items _ => Some items | _ => None end).

Definition compute_list_item_right_origin (list_id : BlockId) (after : option OpId)
    (d : Document) : Document * option OpId :=
  let '(d, items) := list_items list_id d in
  (d, items ≫= compute_right_origin after).

(** The closures that edit the items of a list: [f] also tells whether the edit
    took place. *)
Definition edit_items (f : Sequence ListItem → Sequence ListItem * bool) (b : Block) :
    Block * bool :=
  match blk_kind b with
  | ListBlock style items moves =>
    let '(items, r) := f items in (set_kind (ListBlock style items moves) b, r)
  | _ => (b, false)
  end.

Definition edit_list (list_elem : OpId) (f : Sequence ListItem → Sequence ListItem * bool)
    (d : Document) : Document * bool :=
  let '(d, r) := with_block_mut list_elem (edit_items f) d in (d, default false r).

(** The element [target] of the list [list_elem]. *)
Definition list_element (list_elem target : OpId) (d : Document) :
    Document * option (Element ListItem) :=
  let '(d, b) := find_block list_elem d in
  (d, b ≫= λ b, match blk_kind b with
                | ListBlock _ items _ => get_element items target
                | _ => None
                end).

(** Insert and delete at once: the placement exists, but hidden. *)
Definition materialise_item (m : PendingListItemMove) (item : ListItem)
    (items : Sequence ListItem) : Sequence ListItem :=
  apply sequence_incremental (Delete (im_id m) (im_id m))
    (apply sequence_incremental (Insert (im_after m) (im_id m) item (im_right_origin m)) items).

Definition push_pending_move (m : PendingListItemMove) (b : Block) : Block * bool :=
  match blk_kind b with
  | ListBlock style items moves =>
    let moves := if decide (Exists (λ p, im_id p = im_id m) moves) then moves else moves ++ [m] in
    (set_kind (ListBlock style items moves) b, true)
  | _ => (b, false)
  end.

(** The branch of [move_list_item_at] for an item that is not in the tree. *)
Definition move_missing_item (m : PendingListItemMove) (d : Document) : Document * bool :=
  let '(d, element) := list_element (im_from_list_elem m) (im_target m) d in
  let deleted_target :=
    match element with Some e => bool_decide (elem_value e = None) | None => false end in
  if negb deleted_target then
    let '(d, r) := with_block_mut (im_from_list_elem m) (push_pending_move m) d in
    (d, default false r)
  else
    edit_list (im_to_list_elem m) (λ items,
      (materialise_item m
         (mkItem (im_item_id m) (im_id m) None (im_id m) StateVectorOps.new (im_observed m)
            sequence_new) items, true)) d.

Definition move_list_item_at (m : PendingListItemMove) (d : Document) : Document * bool :=
  match find_list_item_by_id (doc_blocks d) (im_item_id m) with
  | None => move_missing_item m d
  | Some item =>
    let current := match list_item_placement (doc_blocks d) (im_item_id m) with
                   | Some (_, _, placement) => placement | None => im_target m end in
    let already_moved := negb (bool_decide (block_id_from_op current = im_item_id m)) in
    if already_moved
       && negb (causal_write_wins current (it_placement item) (im_id m) (im_observed m))
    then
      match list_element (im_to_list_elem m) (im_id m) d with
      | (d, Some _) => (d, false)
      | (d, None) =>
        let '(d, _) := edit_list (im_to_list_elem m) (λ items,
          (materialise_item m (set_placement (im_observed m) item) items, true)) d in
        (d, false)
      end
    else
      let list_elem := match list_containing_item (doc_blocks d) (im_item_id m) with
                       | Some (_, elem) => elem | None => im_from_list_elem m end in
      let '(d, deleted) := edit_list list_elem (λ items,
        match get_element items current with
        | None => (items, false)
        | Some _ => (apply sequence_incremental (Delete current (im_id m)) items, true)
        end) d in
      if negb deleted then (d, false)
      else edit_list (im_to_list_elem m) (λ items,
        (apply sequence_incremental
           (Insert (im_after m) (im_id m) (set_placement (im_observed m) item) (im_right_origin m))
           items, true)) d
  end.

Definition item_move_le (a b : PendingListItemMove) : Prop := ord_le (im_id a) (im_id b).
#[export] Instance item_move_le_dec : RelDecision item_move_le.
Proof. intros a b. unfold item_move_le. apply _. Defined.

(** The closure that takes the moves of one item out of a list. *)
Definition take_pending_moves (item_id : BlockId) (b : Block) :
    Block * list PendingListItemMove :=
  match blk_kind b with
  | ListBlock style items moves =>
    (set_kind (ListBlock style items (filter (λ m, im_item_id m ≠ item_id) moves)) b,
     filter (λ m, im_item_id m = item_id) moves)
  | _ => (b, [])
  end.

Definition resolve_pending_list_item_moves (item_id : BlockId) (d : Document) : Document :=
  match list_containing_item (doc_blocks d) item_id with
  | None => d
  | Some (_, list_elem) =>
    let '(d, pending) := with_block_mut list_elem (take_pending_moves item_id) d in
    fold_left (λ d m, (move_list_item_at m d).1)
      (merge_sort item_move_le (default [] pending)) d
  end.

Definition insert_list_item_at (list_elem : OpId) (after : option OpId) (id : OpId)
    (right_origin : option OpId) (task : option TaskState) (d : Document) : Document * bool :=
  let item_id := block_id_from_op id in
  let '(d, inserted) := edit_list list_elem (λ items,
    (apply sequence_incremental
       (Insert after id
          (mkItem item_id id task id StateVectorOps.new StateVectorOps.new sequence_new)
          right_origin) items, true)) d in
  (if inserted : bool then resolve_pending_list_item_moves item_id d else d, inserted).

Definition delete_list_item_at (list_elem : OpId) (item_id : BlockId) (target id : OpId)
    (d : Document) : Document * bool :=
  let '(list_elem, target) :=
    match list_item_placement (doc_blocks d) item_id with
    | Some (_, current_list, placement) => (current_list, placement)
    | None => (list_elem, target)
    end in
  edit_list list_elem (λ items,
    match get_element items target ≫= elem_value with
    | Some item =>
      if decide (it_id item ≠ item_id) then (items, false)
      else (apply sequence_incremental (Delete target id) items, true)
    | None => (apply sequence_incremental (Delete target id) items, true)
    end) d.

Definition set_list_item_task (item_id : BlockId) (task : option TaskState) (id : OpId)
    (observed : StateVector) (d : Document) : Document * bool :=
  match list_item_placement (doc_blocks d) item_id with
  | None => (d, false)
  | Some (_, list_elem, placement) =>
    edit_list list_elem (λ items,
      let '(items, r) := with_value_mut placement (λ item,
        if decide (it_id item = item_id) then
          if causal_write_wins (it_task_op item) (it_task_observed item) id observed
          then (write_task task id observed item, true) else (item, false)
        else (item, false)) items in
      (items, default false r)) d
  end.

(** ** Moving blocks *)

(** What the first loop of [move_blocks_at] prepares for one move: the block
    and its parent, [None] for a placeholder; the flag says that the move
    loses.  [None] when the whole operation is refused. *)
Definition prepare_move (to_parent : option OpId) (moved : MovedBlockWire) (d : Document) :
    Document * option (Block * option (option OpId) * bool) :=
  match find_block_by_id (mb_block_id moved) d with
  | (d, None) =>
    (d, Some (mkBlock (mb_block_id moved) (mb_id moved) (mb_id moved) StateVectorOps.new
                (RawBlock EmptyString) markset_new, None, true))
  | (d, Some block) =>
    let '(d, inside) :=
      match to_parent with
      | Some parent => block_contains_container (blk_id block) parent d
      | None => (d, false)
      end in
    if inside : bool then (d, None)
    else
      let already_moved := negb (bool_decide (block_id_from_op (blk_elem block) = blk_id block)) in
      let loses := already_moved && ord_geb (blk_elem block) (mb_id moved) in
      match block_parent (blk_id block) d with
      | (d, None) => (d, None)
      | (d, Some parent) => (d, Some (block, Some parent, loses))
      end
  end.

Fixpoint prepare_moves (to_parent : option OpId) (moves : list MovedBlockWire) (d : Document) :
    Document * option (list (Block * option (option OpId) * bool)) :=
  match moves with
  | [] => (d, Some [])
  | moved :: moves =>
    match prepare_move to_parent moved d with
    | (d, None) => (d, None)
    | (d, Some p) => let '(d, r) := prepare_moves to_parent moves d in (d, cons p <$> r)
    end
  end.

(** The loop over losing moves: materialise, then hide. *)
Definition lose_move (to_parent : option OpId) (move_id : OpId) (d : Document)
    (x : Block * MovedBlockWire) : Document :=
  let '(block, moved) := x in
  let '(d, children) := container_children to_parent d in
  if decide (is_Some (children ≫= λ c, get_element c (mb_id moved))) then d
  else
    let d := (insert_block_at to_parent (mb_after moved) (mb_id moved)
                (set_elem (mb_id moved) block) (mb_right_origin moved) d).1 in
    (delete_block_at to_parent (mb_id moved) move_id d).1.

Definition move_blocks_at (to_parent : option OpId) (moves : list MovedBlockWire)
    (move_id : OpId) (d : Document) : Document * bool :=
  if decide (moves = []) then (d, false)
  else match container_children to_parent d with
  | (d, None) => (d, false)
  | (d, Some _) =>
    match prepare_moves to_parent moves d with
    | (d, None) => (d, false)
    | (d, Some prepared) =>
      let blocks := (λ p : Block * option (option OpId) * bool, p.1.1) <$> prepared in
      if existsb snd prepared then
        (fold_left (lose_move to_parent move_id) (zip blocks moves) d, false)
      else
        let d := fold_left (λ d (p : Block * option (option OpId) * bool),
          (delete_block_at (default None p.1.2) (blk_elem p.1.1) move_id d).1) prepared d in
        (fold_left (λ d (x : Block * MovedBlockWire),
           (insert_block_at to_parent (mb_after x.2) (mb_id x.2) (set_elem (mb_id x.2) x.1)
              (mb_right_origin x.2) d).1) (zip blocks moves) d, true)
    end
  end.
End edits.

(** ** Text and marks of top-level blocks *)

(** [str::is_char_boundary] on the bytes of a string: the byte there, if any,
    is not a continuation byte. *)
Definition is_char_boundary (s : string) (i : nat) : bool :=
  if decide (i = 0) then true
  else if decide (i = String.length s) then true
  else match String.get i s with
       | Some c => negb ((128 <=? Ascii.N_of_ascii c) && (Ascii.N_of_ascii c <? 192))%N
       | None => false
       end.

Section text_edits.
Context (sequence_incremental : bool).
(** [str::graphemes(true)]. *)
Context (graphemes : string → list string).

(** [grapheme_indices(true)]: the byte offsets at which the clusters start. *)
Fixpoint starts_from (offset : nat) (gs : list string) : list nat :=
  match gs with
  | [] => []
  | g :: gs => offset :: starts_from (offset + String.length g) gs
  end.
Definition grapheme_starts (text : string) : list nat := starts_from 0 (graphemes text).

Definition grapheme_offset_to_byte (text : string) (grapheme_offset : nat) : option nat :=
  if decide (grapheme_offset = 0) then Some 0
  else match grapheme_starts text !! grapheme_offset with
  | Some byte_index => Some byte_index
  | None =>
    if decide (length (grapheme_starts text) = grapheme_offset)
    then Some (String.length text) else None
  end.

Definition is_grapheme_boundary (text : string) (byte_offset : nat) : bool :=
  if decide (byte_offset = 0 ∨ byte_offset = String.length text) then true
  else bool_decide (byte_offset ∈ grapheme_starts text).

(** The block of an element at the top level. *)
Definition top_block (elem_id : OpId) (d : Document) : option Block :=
  get_element (doc_blocks d) elem_id ≫= elem_value.

(** [self.blocks.update_value(elem_id, updated); self.mark_source_block_dirty(id)]. *)
Definition store_block (elem_id : OpId) (id : BlockId) (updated : Block) (d : Document) :
    Document :=
  mark_source_block_dirty id (edit_blocks (update_value elem_id updated) d).

(** Clone, edit the text, write back; [None] is an offset behind the text. *)
Definition insert_in_block (grapheme_offset : nat) (text : string) (op_id : OpId) (block : Block) :
    option Block :=
  match block_text_seq_mut
          (insert_graphemes sequence_incremental graphemes grapheme_offset text op_id)
          (blk_kind block) with
  | (kind, Some (Some _)) => Some (set_kind kind block)
  | _ => None
  end.

Definition insert_text (block_id : BlockId) (grapheme_offset : nat) (text : string)
    (op_id : OpId) (d : Document) : Document * (EditError + list EditOp) :=
  match block_elem_id block_id d with
  | (d, None) => (d, inl BlockNotFound)
  | (d, Some elem_id) =>
    match top_block elem_id d with
    | None => (d, inl BlockNotFound)
    | Some block =>
      match block_text_seq (blk_kind block) with
      | None => (d, inl InvalidOffset)
      | Some body =>
        match grapheme_offset_to_byte (paragraph_visible_string body) grapheme_offset with
        | None => (d, inl InvalidOffset)
        | Some byte_offset =>
          match insert_in_block grapheme_offset text op_id block with
          | None => (d, inl InvalidOffset)
          | Some updated =>
            (store_block elem_id block_id updated d,
             inr [EditInsertText (mkTextRun block_id grapheme_offset byte_offset text op_id)])
          end
        end
      end
    end
  end.

Definition raw_insert (run : InsertTextRun) (validate : bool) (d : Document) :
    Document * option EditError :=
  match list_find (λ b, blk_id b = run_block_id run) (blocks_in_order d) with
  | None => (d, Some BlockNotFound)
  | Some (_, found) =>
    match top_block (blk_elem found) d with
    | None => (d, Some BlockNotFound)
    | Some block =>
      match block_text_seq (blk_kind block) with
      | None => (d, Some InvalidOffset)
      | Some body =>
        let visible := paragraph_visible_string body in
        if decide (String.length visible < run_byte_offset run) then (d, Some InvalidOffset)
        else if negb (is_char_boundary visible (run_byte_offset run)) then (d, Some InvalidOffset)
        else if validate && negb (is_grapheme_boundary visible (run_byte_offset run))
        then (d, Some InvalidGraphemeBoundary)
        else match insert_in_block (run_grapheme_offset run) (run_text run) (run_op_id run) block with
        | None => (d, Some InvalidOffset)
        | Some updated => (store_block (blk_elem found) (run_block_id run) updated d, None)
        end
      end
    end
  end.

(** The branches of [raw_apply_op] for marks: edit the mark set of the block. *)
Definition raw_edit_marks (block_id : BlockId) (f : MarkSet → MarkSet) (d : Document) :
    Document * option EditError :=
  match block_elem_id block_id d with
  | (d, None) => (d, Some BlockNotFound)
  | (d, Some elem_id) =>
    match top_block elem_id d with
    | None => (d, Some BlockNotFound)
    | Some block => (store_block elem_id block_id (set_marks (f (blk_marks block)) block) d, None)
    end
  end.

Definition raw_apply_op (op : EditOp) (validate : bool) (d : Document) :
    Document * option EditError :=
  match op with
  | EditInsertText run => raw_insert run validate d
  | EditSetMark block_id interval_id kind start stop attrs op_id =>
    raw_edit_marks block_id (set_mark interval_id kind start stop attrs op_id) d
  | EditRemoveMark block_id interval_id observed op_id =>
    raw_edit_marks block_id (remove_mark interval_id observed op_id) d
  end.

Definition doc_set_mark (block_id : BlockId) (interval_id : OpId) (kind : MarkKind)
    (start stop : Anchor) (attrs : gmap string MarkValue) (op_id : OpId) (d : Document) :
    Document * (EditError + list EditOp) :=
  let op := EditSetMark block_id interval_id kind start stop attrs op_id in
  match raw_apply_op op false d with
  | (d, Some e) => (d, inl e)
  | (d, None) => (d, inr [op])
  end.

(** One round of the loop over the remaining intervals of [remove_mark]. *)
Definition set_remaining (block_id : BlockId) (acc : MarkSet * list EditOp) (i : MarkInterval) :
    MarkSet * list EditOp :=
  let attrs := Lww.get <$> mi_attrs i in
  (set_mark (mi_id i) (mi_kind i) (mi_start i) (mi_end i) attrs (mi_op_id i) acc.1,
   acc.2 ++ [EditSetMark block_id (mi_id i) (mi_kind i) (mi_start i) (mi_end i) attrs (mi_op_id i)]).

Definition doc_remove_mark (block_id : BlockId) (interval_id remove_id : OpId)
    (observed : StateVector) (remove_start remove_end : Anchor) (d : Document) :
    Document * (EditError + list EditOp) :=
  match block_elem_id block_id d with
  | (d, None) => (d, inl BlockNotFound)
  | (d, Some elem_id) =>
    match top_block elem_id d with
    | None => (d, inl BlockNotFound)
    | Some block =>
      if decide (interval (blk_marks block) interval_id = None) then (d, inl InvalidOffset)
      else
        let element_order :=
          match block_text_seq (blk_kind block) with
          | Some text => paragraph_visible_ids text | None => [] end in
        let next := mkOpId (u64_saturating_add (counter remove_id) 1) (peer remove_id) in
        let '(new_intervals, _) :=
          lower_remove_mark_range (blk_marks block) interval_id remove_start remove_end next
            element_order in
        let '(marks, ops) :=
          fold_left (set_remaining block_id) new_intervals
            (remove_mark interval_id observed remove_id (blk_marks block),
             [EditRemoveMark block_id interval_id observed remove_id]) in
        (store_block elem_id block_id (set_marks marks block) d, inr ops)
    end
  end.

Definition render_paragraph_spans (block_id : BlockId) (d : Document) :
    Document * (EditError + list Span) :=
  match find_block_by_id block_id d with
  | (d, None) => (d, inl BlockNotFound)
  | (d, Some block) =>
    match block_text_seq (blk_kind block) with
    | None => (d, inl InvalidOffset)
    | Some text =>
      let order := paragraph_visible_ids text in
      (d, inr (render_spans (blk_marks block) order (length order)))
    end
  end.

(** The half-open range [start..stop] as anchors. *)
Definition range_anchors (text : Sequence TextUnit) (start stop : nat) :
    EditError + (Anchor * Anchor) :=
  let ids := paragraph_visible_ids text in
  if decide (stop ≤ start ∨ length ids < stop) then inl InvalidOffset
  else match ids !! start, ids !! (stop - 1) with
  | Some a, Some b => inr (mkAnchor a Before, mkAnchor b After)
  | _, _ => inl InvalidOffset
  end.

Definition grapheme_range_to_anchors (block_id : BlockId) (start stop : nat) (d : Document) :
    Document * (EditError + (Anchor * Anchor)) :=
  match find_block_by_id block_id d with
  | (d, None) => (d, inl BlockNotFound)
  | (d, Some block) =>
    match block_text_seq (blk_kind block) with
    | None => (d, inl InvalidOffset)
    | Some text => (d, range_anchors text start stop)
    end
  end.
End text_edits.

(** ** Frontmatter *)

Definition frontmatter_field (key : ustring) (d : Document) : option ustring :=
  doc_frontmatter d ≫= λ fm, fm_get fm key.

Definition set_frontmatter_field (key : ustring) (value : option ustring) (op_id : OpId)
    (d : Document) : Document * option FrontmatterError :=
  let fm := default fm_empty (doc_frontmatter d) in
  match fm_set key value op_id fm with
  | inl e => (set_frontmatter (Some fm) d, Some e)
  | inr fm => (set_frontmatter (Some fm) d, None)
  end.
