(* ===== verification/DocumentCache.v ===== *)
(** * The cached index of a document and the changes operations make

    Every operation of a document is a list of primitive changes, of which only
    the mutable uses of the blocks advance the generation; so a cached index
    whose generation is current is the index of the blocks. *)

From S2P Require Import Prelude Core Sequence SequenceOrder SequenceInv SequenceRefine.
From S2P Require Import SequenceView.
From S2P Require Import Mark MarkOps Table Frontmatter Codec Text Block Document.

(** ** The cache and its generation *)

Definition generation (d : Document) : N := ib_generation (doc_indexed d).

(** The cached index, when current, is the index of the blocks. *)
Definition coherent (d : Document) : Prop :=
  ∀ c, doc_block_index d = Some c → cached_generation c = generation d →
    cached_index c = index_of (doc_blocks d).

(** The primitive changes of a document.  [edits] counts mutable uses of the
    blocks. *)
Inductive doc_change : nat → Document → Document → Prop :=
  | change_blocks f d : doc_change 1 d (edit_blocks f d)
  | change_source src d : doc_change 0 d (set_source src d)
  | change_frontmatter fm d : doc_change 0 d (set_frontmatter fm d)
  | change_cache d : doc_change 0 d (rebuild_block_index d).

Inductive doc_changes : nat → Document → Document → Prop :=
  | changes_nil d : doc_changes 0 d d
  | changes_cons n m d d' d'' : doc_change n d d' → doc_changes m d' d'' → doc_changes (n + m) d d''.

Lemma changes_trans n m d d' d'' :
  doc_changes n d d' → doc_changes m d' d'' → doc_changes (n + m) d d''.
Proof.
  induction 1 as [|n k d e f Hs _ IH]; intros H; [done|].
  rewrite <-Nat.add_assoc. by eapply changes_cons, IH.
Qed.

Lemma changes_one n d d' : doc_change n d d' → doc_changes n d d'.
Proof. intros H. rewrite <-(Nat.add_0_r n). by econstructor; [|constructor]. Qed.

(** Some number of changes. *)
Definition changed (d d' : Document) : Prop := ∃ n, doc_changes n d d'.

#[export] Instance changed_preorder : PreOrder changed.
Proof.
  split; [intros d; exists 0; constructor|].
  intros d d' d'' [n H] [m H']. exists (n + m). by eapply changes_trans.
Qed.

Lemma changed_one n d d' : doc_change n d d' → changed d d'.
Proof. intros H. exists n. by apply changes_one. Qed.

(** The generation is the edit count, and the cache is not ahead of it. *)
Definition cache_inv (n : nat) (d : Document) : Prop :=
  generation d = N.of_nat n ∧
  ∀ c, doc_block_index d = Some c →
    (cached_generation c ≤ generation d)%N ∧
    (cached_generation c = generation d → cached_index c = index_of (doc_blocks d)).

Lemma cache_inv_change k n d d' :
  doc_change k d d' → (N.of_nat (k + n) < u64_modulus)%N → cache_inv n d → cache_inv (k + n) d'.
Proof.
  intros [f e|src e|fm e|e] Hn [Hg Hc]; unfold cache_inv, generation in *; simpl in *.
  - unfold u64_wrapping_add. rewrite Hg, N.mod_small by lia. split; [lia|].
    intros c Hi. destruct (Hc c Hi) as [Hle _]. lia.
  - done.
  - done.
  - split; [done|]. intros c [= <-]. simpl. split; [lia|done].
Qed.

Lemma cache_inv_changes k n d d' :
  doc_changes k d d' → (N.of_nat (k + n) < u64_modulus)%N → cache_inv n d → cache_inv (k + n) d'.
Proof.
  intros H. revert n. induction H as [|a b d e f Hs _ IH]; intros n Hn Hi; [done|].
  replace (a + b + n) with (b + (a + n)) by lia. apply IH; [lia|].
  eapply cache_inv_change; [done|lia|done].
Qed.

(** ** Every operation is a list of changes *)

Create HintDb changed.
#[export] Hint Extern 0 (changed ?d ?d) => reflexivity : changed.

Lemma changed_rebuild d : changed d (rebuild_block_index d).
Proof. eapply changed_one, change_cache. Qed.
Lemma changed_ensure d : changed d (ensure_block_index d).
Proof.
  unfold ensure_block_index. repeat case_match; try reflexivity; apply changed_rebuild.
Qed.
Lemma changed_edit f d : changed d (edit_blocks f d).
Proof. eapply changed_one, change_blocks. Qed.
Lemma changed_source src d : changed d (set_source src d).
Proof. eapply changed_one, change_source. Qed.
Lemma changed_frontmatter fm d : changed d (set_frontmatter fm d).
Proof. eapply changed_one, change_frontmatter. Qed.
#[export] Hint Resolve changed_rebuild changed_ensure changed_edit changed_source
  changed_frontmatter : changed.

Section lookups.
Context {K : Type} `{Countable K} (key : BlockIndex → gmap K BlockPath) (k : K) (ok : Block → bool).

Lemma changed_find_through d : changed d (find_through key k ok d).1.
Proof.
  unfold find_through. case_match; simpl; [apply changed_ensure|].
  etrans; [apply changed_ensure|apply changed_rebuild].
Qed.
(** A lookup leaves blocks and source alone, and the cache fresh. *)
Lemma find_through_same d :
  doc_indexed (find_through key k ok d).1 = doc_indexed d ∧
  doc_source (find_through key k ok d).1 = doc_source d.
Proof.
  unfold find_through, ensure_block_index.
  repeat case_match; by simplify_eq/=.
Qed.
End lookups.

(** From an equation [op d = (d', r)] to the changes of [op]. *)
Lemma changed_pair {R} d (x : Document * R) d' r : x = (d', r) → changed d x.1 → changed d d'.
Proof. by intros ->. Qed.

Lemma changed_find e d d' r : find_block e d = (d', r) → changed d d'.
Proof. intros H. eapply changed_pair; [done|]. apply changed_find_through. Qed.
Lemma changed_find_id e d d' r : find_block_by_id e d = (d', r) → changed d d'.
Proof. intros H. eapply changed_pair; [done|]. apply changed_find_through. Qed.
Lemma changed_block_elem e d d' r : block_elem_id e d = (d', r) → changed d d'.
Proof.
  unfold block_elem_id. destruct (find_block_by_id e d) eqn:E. intros [= <- _]. by eapply changed_find_id.
Qed.
Lemma changed_parent e d d' r : block_parent e d = (d', r) → changed d d'.
Proof. unfold block_parent. intros [= <- _]. apply changed_ensure. Qed.
Lemma changed_contains e c d d' r : block_contains_container e c d = (d', r) → changed d d'.
Proof.
  unfold block_contains_container. destruct (find_block_by_id e d) eqn:E. intros [= <- _].
  by eapply changed_find_id.
Qed.
Lemma changed_with_block {R} e (f : Block → Block * R) d d' r :
  with_block_mut e f d = (d', r) → changed d d'.
Proof.
  unfold with_block_mut. destruct (find_block e d) as [d1 [b|]] eqn:E; [|intros [= <- _]; by eapply changed_find].
  apply changed_find in E. intros H. etrans; [exact E|].
  etrans; [apply (changed_source (mark_elem_dirty e <$> doc_source d1) d1)|]. revert H.
  change (set_source (mark_elem_dirty e <$> doc_source d1) d1) with (mark_source_elem_dirty e d1).
  destruct (_ ≫= _); [|by intros [= <- _]].
  destruct (block_at_path_mut _ _ _ _). intros [= <- _]. apply changed_edit.
Qed.
Lemma changed_container c f d d' r : with_container_children_mut c f d = (d', r) → changed d d'.
Proof.
  unfold with_container_children_mut. destruct (mjoin _); intros [= <- _]; apply changed_edit.
Qed.
#[export] Hint Resolve changed_find changed_find_id changed_block_elem changed_parent
  changed_contains changed_with_block changed_container : changed.

(** Case analysis on an equation [op d = (d', r)], then a chain of changes. *)
Ltac split_calls H :=
  repeat match type of H with
  | context [let '(_, _) := ?x in _] => let E := fresh "E" in destruct x as [? ?] eqn:E
  | context [match ?x with _ => _ end] => let E := fresh "E" in destruct x eqn:E
  end; simplify_eq/=.
Section operations.
Context (inc : bool).

Lemma changed_apply_at parent op d d' r : apply_at inc parent op d = (d', r) → changed d d'.
Proof.
  unfold apply_at. destruct parent as [p|]; [|intros [= <- _]; apply changed_edit].
  intros H%changed_container. etrans; [apply (changed_source (mark_elem_dirty p <$> doc_source d) d)|].
  exact H.
Qed.
Lemma changed_insert_block p a i v ro d : changed d (insert_block_at inc p a i v ro d).1.
Proof. unfold insert_block_at. destruct (apply_at _ _ _ _) eqn:E. by eapply changed_apply_at. Qed.
Lemma changed_delete_block p t i d : changed d (delete_block_at inc p t i d).1.
Proof. unfold delete_block_at. destruct (apply_at _ _ _ _) eqn:E. by eapply changed_apply_at. Qed.

Lemma changed_children p d d' r : container_children p d = (d', r) → changed d d'.
Proof.
  unfold container_children. intros H. split_calls H; try done; by eapply changed_find.
Qed.

Lemma changed_with_default {R} e (f : Block → Block * R) x d :
  changed d (let '(d, r) := with_block_mut e f d in (d, default x r)).1.
Proof. destruct (with_block_mut e f d) eqn:E. by eapply changed_with_block. Qed.
Lemma changed_edit_list e f d d' r : edit_list e f d = (d', r) → changed d d'.
Proof. intros H. eapply changed_pair; [done|]. apply changed_with_default. Qed.
Lemma changed_list_element e t d d' r : list_element e t d = (d', r) → changed d d'.
Proof. unfold list_element. intros H. split_calls H; by eapply changed_find. Qed.

Lemma changed_missing m d : changed d (move_missing_item inc m d).1.
Proof.
  unfold move_missing_item. destruct (list_element _ _ d) as [d1 el] eqn:E.
  etrans; [by eapply changed_list_element|]. clear E.
  destruct (negb _); [apply changed_with_default|].
  destruct (edit_list _ _ _) eqn:E. by eapply changed_edit_list.
Qed.

Lemma changed_move_item m d : changed d (move_list_item_at inc m d).1.
Proof.
  unfold move_list_item_at. destruct (find_list_item_by_id _ _); [|apply changed_missing].
  cbv zeta. destruct (_ && _).
  - destruct (list_element _ _ d) as [d1 [?|]] eqn:E; [by eapply changed_list_element|].
    etrans; [by eapply changed_list_element|].
    destruct (edit_list _ _ d1) eqn:E'. by eapply changed_edit_list.
  - destruct (edit_list _ _ d) as [d1 r] eqn:E.
    etrans; [by eapply changed_edit_list|]. destruct (negb r); [done|].
    destruct (edit_list _ _ d1) eqn:E'. by eapply changed_edit_list.
Qed.

Lemma changed_fold {A} (f : Document → A → Document) l d :
  (∀ d x, changed d (f d x)) → changed d (fold_left f l d).
Proof.
  intros Hf. revert d. induction l as [|x l IH]; intros d; simpl; [done|]. etrans; [apply Hf|apply IH].
Qed.

Lemma changed_resolve id d : changed d (resolve_pending_list_item_moves inc id d).
Proof.
  unfold resolve_pending_list_item_moves. destruct (list_containing_item _ _) as [[? ?]|]; [|done].
  destruct (with_block_mut _ _ d) eqn:E. etrans; [by eapply changed_with_block|].
  apply changed_fold. intros. apply changed_move_item.
Qed.

Lemma changed_prepare p moved d d' r : prepare_move p moved d = (d', r) → changed d d'.
Proof.
  unfold prepare_move. destruct (find_block_by_id _ d) as [d1 [b|]] eqn:E; intros H.
  - etrans; [by eapply changed_find_id|].
    set (inside := match p with Some _ => _ | None => _ end) in H.
    assert (Hin : ∀ d2 r2, inside = (d2, r2) → changed d1 d2).
    { unfold inside. destruct p; [apply changed_contains|by intros d2 r2 [= <- _]]. }
    destruct inside as [d2 [|]]; [simplify_eq; by eapply Hin|].
    etrans; [by eapply Hin|]. pose proof (changed_ensure d2).
    unfold block_parent in H. destruct (_ ≫= _); by simplify_eq/=.
  - simplify_eq. by eapply changed_find_id.
Qed.

Lemma changed_prepares p moves d d' r : prepare_moves p moves d = (d', r) → changed d d'.
Proof.
  revert d r. induction moves as [|m moves IH]; intros d r; simpl; [by intros [= -> _]|].
  destruct (prepare_move p m d) as [d1 [x|]] eqn:E; intros H.
  - destruct (prepare_moves p moves d1) eqn:E2. simplify_eq.
    etrans; [by eapply changed_prepare|by eapply IH].
  - simplify_eq. by eapply changed_prepare.
Qed.

Lemma changed_move_blocks p moves id d : changed d (move_blocks_at inc p moves id d).1.
Proof.
  unfold move_blocks_at. case_decide; [done|].
  destruct (container_children p d) as [d1 [?|]] eqn:E; [|by eapply changed_children].
  etrans; [by eapply changed_children|].
  destruct (prepare_moves p moves d1) as [d2 [prepared|]] eqn:E2; [|by eapply changed_prepares].
  etrans; [by eapply changed_prepares|]. destruct (existsb _ _); simpl.
  - apply changed_fold. intros d3 [b m]. unfold lose_move.
    destruct (container_children p d3) eqn:E3. etrans; [by eapply changed_children|].
    case_decide; [done|]. etrans; [apply changed_insert_block|apply changed_delete_block].
  - etrans; [|apply changed_fold; intros; apply changed_insert_block].
    apply changed_fold. intros. apply changed_delete_block.
Qed.
End operations.

(** ** The operations of a document *)

Inductive DocCall :=
  | CallInsertBlock (parent after : option OpId) (id : OpId) (value : Block) (ro : option OpId)
  | CallDeleteBlock (parent : option OpId) (target id : OpId)
  | CallMoveBlocks (to_parent : option OpId) (moves : list MovedBlockWire) (id : OpId)
  | CallInsertItem (list_elem : OpId) (after : option OpId) (id : OpId) (ro : option OpId)
      (task : option TaskState)
  | CallDeleteItem (list_elem : OpId) (item : BlockId) (target id : OpId)
  | CallMoveItem (m : PendingListItemMove)
  | CallSetTask (item : BlockId) (task : option TaskState) (id : OpId) (observed : StateVector)
  | CallSetStyle (elem : OpId) (style : ListStyle) (id : OpId) (observed : StateVector)
  | CallSetFence (elem : OpId) (style : CodeFenceStyle) (info : option string) (text : string)
      (id : OpId) (observed : StateVector)
  | CallConvert (elem : OpId) (kind : TextBlockKindWire) (id : OpId) (observed : StateVector)
  | CallReplaceRaw (elem : OpId) (raw : string) (id : OpId) (observed : StateVector)
  | CallWithBlock (elem : OpId) (f : Block → Block * unit)
  | CallInsertText (block : BlockId) (offset : nat) (text : string) (id : OpId)
  | CallRawApply (op : EditOp) (validate : bool)
  | CallSetMark (block : BlockId) (interval : OpId) (kind : MarkKind) (start stop : Anchor)
      (attrs : gmap string MarkValue) (id : OpId)
  | CallRemoveMark (block : BlockId) (interval id : OpId) (observed : StateVector)
      (start stop : Anchor)
  | CallFind (elem : OpId)
  | CallFindById (block : BlockId)
  | CallParent (block : BlockId)
  | CallSetField (key : list N) (value : option (list N)) (id : OpId)
  | CallBlocksMut (f : Sequence Block → Sequence Block)
  | CallSetSource (src : option DocumentSource)
  | CallAdoptSource (parsed : Document)
  | CallClearSource.

Section calls.
Context (inc : bool) (graphemes : string → list string).

Definition call (d : Document) (c : DocCall) : Document :=
  match c with
  | CallInsertBlock p a i v ro => (insert_block_at inc p a i v ro d).1
  | CallDeleteBlock p t i => (delete_block_at inc p t i d).1
  | CallMoveBlocks p moves i => (move_blocks_at inc p moves i d).1
  | CallInsertItem l a i ro t => (insert_list_item_at inc l a i ro t d).1
  | CallDeleteItem l it t i => (delete_list_item_at inc l it t i d).1
  | CallMoveItem m => (move_list_item_at inc m d).1
  | CallSetTask it t i o => (set_list_item_task it t i o d).1
  | CallSetStyle e s i o => (set_list_style e s i o d).1
  | CallSetFence e s info t i o => (set_code_fence e s info t i o d).1
  | CallConvert e k i o => (convert_text_block e k i o d).1
  | CallReplaceRaw e r i o => (replace_raw_block e r i o d).1
  | CallWithBlock e f => (with_block_mut e f d).1
  | CallInsertText b o t i => (insert_text inc graphemes b o t i d).1
  | CallRawApply op v => (raw_apply_op inc graphemes op v d).1
  | CallSetMark b iv k s t a i => (doc_set_mark inc graphemes b iv k s t a i d).1
  | CallRemoveMark b iv i o s t => (doc_remove_mark b iv i o s t d).1
  | CallFind e => (find_block e d).1
  | CallFindById b => (find_block_by_id b d).1
  | CallParent b => (block_parent b d).1
  | CallSetField k v i => (set_frontmatter_field k v i d).1
  | CallBlocksMut f => blocks_mut f d
  | CallSetSource src => set_source_state src d
  | CallAdoptSource parsed => (adopt_source_from parsed d).1
  | CallClearSource => clear_raw_source d
  end.

Lemma changed_edit_list' e f d : changed d (edit_list e f d).1.
Proof. destruct (edit_list e f d) eqn:E. by eapply changed_edit_list. Qed.

Lemma changed_store e b u d : changed d (store_block e b u d).
Proof. unfold store_block. etrans; [apply changed_edit|apply changed_source]. Qed.

Lemma changed_raw_marks b f d : changed d (raw_edit_marks b f d).1.
Proof.
  unfold raw_edit_marks. destruct (block_elem_id b d) as [d1 [e|]] eqn:E;
    [|by eapply changed_block_elem].
  etrans; [by eapply changed_block_elem|]. destruct (top_block e d1); [apply changed_store|done].
Qed.

Lemma changed_raw_apply op v d : changed d (raw_apply_op inc graphemes op v d).1.
Proof.
  destruct op as [run| |]; simpl; [|apply changed_raw_marks..].
  unfold raw_insert. repeat (case_match; simpl; try done). apply changed_store.
Qed.

Lemma changed_insert_text b o t i d : changed d (insert_text inc graphemes b o t i d).1.
Proof.
  unfold insert_text. destruct (block_elem_id b d) as [d1 [e|]] eqn:E;
    [|by eapply changed_block_elem].
  etrans; [by eapply changed_block_elem|]. repeat (case_match; simpl; try done). apply changed_store.
Qed.

Lemma changed_remove_mark b iv i o s t d : changed d (doc_remove_mark b iv i o s t d).1.
Proof.
  unfold doc_remove_mark. destruct (block_elem_id b d) as [d1 [e|]] eqn:E;
    [|by eapply changed_block_elem].
  etrans; [by eapply changed_block_elem|]. destruct (top_block e d1); [|done].
  case_decide; [done|]. cbv zeta. destruct (lower_remove_mark_range _ _ _ _ _ _).
  destruct (fold_left _ _ _). apply changed_store.
Qed.

Lemma call_changed c d : changed d (call d c).
Proof.
  destruct c; simpl;
    try solve [eauto using changed_insert_block, changed_delete_block, changed_move_blocks,
      changed_move_item, changed_edit_list', changed_insert_text, changed_raw_apply,
      changed_remove_mark, changed_find_through, changed_with_default, changed_ensure,
      changed_source].
  - unfold insert_list_item_at. destruct (edit_list _ _ d) as [d1 r] eqn:E.
    etrans; [by eapply changed_edit_list|]. destruct r; [apply changed_resolve|done].
  - unfold delete_list_item_at. destruct (list_item_placement _ _) as [[[? ?] ?]|];
      apply changed_edit_list'.
  - unfold set_list_item_task. destruct (list_item_placement _ _) as [[[? ?] ?]|];
      [apply changed_edit_list'|done].
  - destruct (with_block_mut elem f d) eqn:E. by eapply changed_with_block.
  - unfold doc_set_mark. pose proof (changed_raw_apply (EditSetMark block interval kind start stop attrs id) false d).
    by destruct (raw_apply_op _ _ _ _ _) as [? [?|]].
  - unfold set_frontmatter_field. destruct (fm_set _ _ _ _); apply changed_frontmatter.
  - unfold blocks_mut. etrans; [apply (changed_source None)|apply changed_edit].
  - unfold adopt_source_from. destruct (doc_source parsed); [|apply changed_source].
    case_decide; apply changed_source.
Qed.

Lemma calls_changed l d : changed d (fold_left call l d).
Proof. apply changed_fold. intros. apply call_changed. Qed.
End calls.
