(* ===== verification/DocumentTree.v ===== *)
(** * The document tree

    The live blocks in document order and the index built from them, lookup
    through the cache, editing along a path, and the search for a container. *)

From S2P Require Import Prelude Core Sequence SequenceOrder SequenceInv SequenceRefine.
From S2P Require Import SequenceView.
From S2P Require Import Mark MarkOps Table Frontmatter Codec Text Block Document DocumentCache.

(** ** The live blocks of a tree, in document order *)

(** The live elements of a sequence. *)
Definition live_elems {T} (s : Sequence T) : list (OpId * T) :=
  omap (λ e, pair (elem_id e) <$> elem_value e) (seq_elements s).

Lemma iter_fold_live {T A} (f : OpId → T → A → A) s a :
  iter_fold f s a = fold_left (λ a x, f x.1 x.2 a) (live_elems s) a.
Proof.
  unfold iter_fold, live_elems. revert a.
  induction (seq_elements s) as [|e l IH]; intros a; simpl; [done|].
  rewrite IH. by destruct (elem_value e).
Qed.

Lemma elem_of_live {T} (s : Sequence T) i v :
  (i, v) ∈ live_elems s ↔ ∃ e, e ∈ seq_elements s ∧ elem_id e = i ∧ elem_value e = Some v.
Proof.
  unfold live_elems. rewrite list_elem_of_omap. split.
  - intros (e & He & (v' & Hv & [= -> ->])%fmap_Some). eauto.
  - intros (e & He & <- & Hv). exists e. by rewrite Hv.
Qed.

(** The sequences directly inside a block, with the step that leads there. *)
Definition child_seqs (eid : OpId) (k : BlockKind) : list (BlockContainerPath * Sequence Block) :=
  match k with
  | BlockQuote children => [(InBlockQuote eid, children)]
  | ListBlock _ items _ => (λ x, (InListItem eid x.1, it_children x.2)) <$> live_elems items
  | _ => []
  end.

(** The block of an element and everything inside it, outermost first, with
    paths. *)
Fixpoint live_in (containers : list BlockContainerPath) (eid : OpId) (block : Block) :
    list (BlockPath * Block) :=
  (mkPath containers eid, block) ::
  match block with
  | mkBlock _ _ _ _ (BlockQuote children) _ =>
    iter_fold (λ i b acc, acc ++ live_in (containers ++ [InBlockQuote eid]) i b) children []
  | mkBlock _ _ _ _ (ListBlock _ items _) _ =>
    iter_fold (λ iid item acc, match item with
      mkItem _ _ _ _ _ _ children =>
        acc ++ iter_fold (λ i b acc, acc ++ live_in (containers ++ [InListItem eid iid]) i b)
          children []
      end) items []
  | _ => []
  end.

Definition live_seq (containers : list BlockContainerPath) (s : Sequence Block) :
    list (BlockPath * Block) :=
  live_elems s ≫= λ x, live_in containers x.1 x.2.

Definition live_blocks (s : Sequence Block) : list (BlockPath * Block) := live_seq [] s.

Lemma fold_append_bind {A B} (f : A → list B) l acc :
  fold_left (λ acc x, acc ++ f x) l acc = acc ++ (l ≫= f).
Proof.
  revert acc. induction l as [|x l IH]; intros acc; simpl; [by rewrite app_nil_r|].
  rewrite IH. by rewrite <-app_assoc.
Qed.

Lemma fold_left_ext' {A B} (f g : A → B → A) l a :
  (∀ a b, f a b = g a b) → fold_left f l a = fold_left g l a.
Proof. intros H. revert a. induction l as [|x l IH]; intros a; simpl; [done|]. by rewrite H, IH. Qed.

Lemma live_in_unfold c e b :
  live_in c e b =
    (mkPath c e, b) :: (child_seqs e (blk_kind b) ≫= λ x, live_seq (c ++ [x.1]) x.2).
Proof.
  destruct b as [id el o v k m]. destruct k as [| |st items mv| |ch| |]; simpl; try done; f_equal.
  - rewrite iter_fold_live.
    rewrite (fold_left_ext' _ (λ acc x, acc ++ live_seq (c ++ [InListItem e x.1]) (it_children x.2))).
    + rewrite fold_append_bind. simpl. induction (live_elems items) as [|x l IH]; csimpl; [done|].
      by rewrite IH.
    + intros acc [i [? ? ? ? ? ? cs]]. simpl. by rewrite iter_fold_live, fold_append_bind.
  - rewrite iter_fold_live, fold_append_bind. simpl. by rewrite app_nil_r.
Qed.

Lemma index_block_unfold c e b ix :
  index_block c e b ix =
    fold_left (λ ix x, index_block_sequence x.2 (c ++ [x.1]) ix) (child_seqs e (blk_kind b))
      (index_entry c e (blk_id b) ix).
Proof.
  destruct b as [id el o v k m]. destruct k as [| |st items mv| |ch| |]; simpl; try done.
  rewrite iter_fold_live. generalize (index_entry c e id ix).
  induction (live_elems items) as [|[i [? ? ? ? ? ? cs]] l IH]; intros a; csimpl; [done|].
  by rewrite IH.
Qed.

(** ** Height *)

Lemma fold_max_ge {A} (h : A → nat) l n :
  n ≤ fold_left (λ n x, Nat.max (h x) n) l n ∧
  ∀ x, x ∈ l → h x ≤ fold_left (λ n x, Nat.max (h x) n) l n.
Proof.
  revert n. induction l as [|y l IH]; intros n; simpl; [set_solver by lia|].
  destruct (IH (Nat.max (h y) n)) as [H1 H2]. split; [lia|].
  intros x [->|Hx]%elem_of_cons; [lia|by apply H2].
Qed.

Lemma sequence_height_ge s x : x ∈ live_elems s → block_height x.2 ≤ sequence_height s.
Proof.
  unfold sequence_height. rewrite iter_fold_live.
  apply (proj2 (fold_max_ge (λ x : OpId * Block, block_height x.2) (live_elems s) 0)).
Qed.

Lemma block_height_child e b x :
  x ∈ child_seqs e (blk_kind b) → sequence_height x.2 < block_height b.
Proof.
  destruct b as [id el o v k m]. destruct k as [| |st items mv| |ch| |]; simpl; intros Hx;
    try by apply not_elem_of_nil in Hx.
  - rewrite iter_fold_live.
    rewrite (fold_left_ext' _ (λ n x, Nat.max (sequence_height (it_children x.2)) n)) by
      by intros ? [? []].
    apply list_elem_of_fmap in Hx as (y & -> & Hy). simpl.
    pose proof (proj2 (fold_max_ge (λ x : OpId * ListItem, sequence_height (it_children x.2))
      (live_elems items) 0) y Hy). simpl in *. lia.
  - apply list_elem_of_singleton in Hx as ->. unfold sequence_height. simpl. lia.
Qed.

(** ** The index is the list of live blocks, first entry kept *)

Definition index_live (ix : BlockIndex) (pb : BlockPath * Block) : BlockIndex :=
  index_entry (path_containers pb.1) (path_elem pb.1) (blk_id pb.2) ix.

Lemma index_sequence_live n s c ix :
  sequence_height s < n →
  index_block_sequence s c ix = fold_left index_live (live_seq c s) ix.
Proof.
  revert s c ix. induction n as [|n IH]; intros s c ix Hn; [lia|].
  unfold index_block_sequence, live_seq. rewrite iter_fold_live.
  pose proof (sequence_height_ge s) as Hs. revert ix.
  induction (live_elems s) as [|[e b] l IHl]; intros ix; csimpl; [done|].
  rewrite fold_left_app, live_in_unfold, index_block_unfold. simpl. rewrite <-IHl by set_solver.
  f_equal. specialize (Hs (e, b) ltac:(left)). simpl in Hs.
  pose proof (block_height_child e b) as Hc. unfold index_live at 2. simpl.
  generalize (index_entry c e (blk_id b) ix). revert Hc. clear IHl.
  induction (child_seqs e (blk_kind b)) as [|x xs IHx]; intros Hc i; csimpl; [done|].
  rewrite fold_left_app, <-IH; [|specialize (Hc x ltac:(left)); lia].
  apply IHx. intros y Hy. apply Hc. by right.
Qed.

Lemma or_insert_lookup {K V} `{Countable K} (k : K) (v : V) (m : gmap K V) (k' : K) :
  or_insert k v m !! k' =
    match m !! k' with
    | Some w => Some w
    | None => if decide (k = k') then Some v else None
    end.
Proof.
  unfold or_insert. destruct (decide (k = k')) as [<-|Hne].
  - destruct (m !! k) eqn:E; [by rewrite E|by rewrite lookup_insert_eq].
  - destruct (m !! k) eqn:E; [|rewrite lookup_insert_ne by done]; by destruct (m !! k').
Qed.

Lemma index_live_lookup l ix :
  (∀ e, by_elem_id (fold_left index_live l ix) !! e =
    match by_elem_id ix !! e with
    | Some p => Some p
    | None => (λ x, x.2.1) <$> list_find (λ pb : BlockPath * Block, path_elem pb.1 = e) l
    end) ∧
  (∀ id, by_block_id (fold_left index_live l ix) !! id =
    match by_block_id ix !! id with
    | Some p => Some p
    | None => (λ x, x.2.1) <$> list_find (λ pb : BlockPath * Block, blk_id pb.2 = id) l
    end).
Proof.
  revert ix. induction l as [|[[c e] b] l IH]; intros ix; simpl.
  { split; intros k; by destruct (_ !! k). }
  destruct (IH (index_live ix (mkPath c e, b))) as [He Hb].
  split; intros k; [rewrite He|rewrite Hb]; unfold index_live, index_entry; simpl;
    rewrite or_insert_lookup; destruct (_ !! k); try done; case_decide; try done.
  all: by destruct (list_find _ l) as [[? [? ?]]|].
Qed.

Lemma index_of_lookup s :
  (∀ e, by_elem_id (index_of s) !! e =
    (λ x, x.2.1) <$> list_find (λ pb : BlockPath * Block, path_elem pb.1 = e) (live_blocks s)) ∧
  (∀ id, by_block_id (index_of s) !! id =
    (λ x, x.2.1) <$> list_find (λ pb : BlockPath * Block, blk_id pb.2 = id) (live_blocks s)).
Proof.
  unfold index_of. rewrite (index_sequence_live (S (sequence_height s))) by lia.
  destruct (index_live_lookup (live_seq [] s) (mkIndex ∅ ∅)) as [He Hb]. done.
Qed.

(** ** Well-formed trees: every sequence in the tree is well formed *)

Inductive tree_wf : Sequence Block → Prop :=
  | tree_wf_intro s :
      seq_wf s →
      (∀ e b style items moves, (e, b) ∈ live_elems s → blk_kind b = ListBlock style items moves →
         seq_wf items) →
      (∀ e b x, (e, b) ∈ live_elems s → x ∈ child_seqs e (blk_kind b) → tree_wf x.2) →
      tree_wf s.

Lemma live_get {T} (s : Sequence T) e v :
  seq_wf s → (e, v) ∈ live_elems s ↔ get_element s e ≫= elem_value = Some v.
Proof.
  intros Hwf. rewrite elem_of_live, wf_get_element by done. split.
  - intros (x & Hx & <- & Hv). by rewrite (emap_elem s x Hwf Hx).
  - intros (x & Hx & Hv)%bind_Some. unfold emap in Hx.
    apply element_map_lookup in Hx; [|apply Hwf]. naive_solver.
Qed.

Lemma sequence_at_app s c c' :
  sequence_at s (c ++ c') = sequence_at s c ≫= λ s', sequence_at s' c'.
Proof.
  revert s. induction c as [|[q|l i] c IH]; intros s; simpl; [done|..].
  - destruct (get_element s q ≫= elem_value) as [b|]; [|done]. by destruct (blk_kind b).
  - destruct (get_element s l ≫= elem_value) as [b|]; [|done]. destruct (blk_kind b); try done.
    by destruct (get_element items i ≫= elem_value).
Qed.

Lemma sequence_at_child s e b x :
  tree_wf s → (e, b) ∈ live_elems s → x ∈ child_seqs e (blk_kind b) →
  sequence_at s [x.1] = Some x.2.
Proof.
  intros Hs He Hx. inversion Hs as [? Hwf Hitems _]; subst.
  pose proof (proj1 (live_get _ _ _ Hwf) He) as Hget.
  destruct (blk_kind b) as [| |st items mv| |ch| |] eqn:Hk; simpl in Hx;
    try by apply not_elem_of_nil in Hx.
  - apply list_elem_of_fmap in Hx as ([i it] & -> & Hi). simpl. rewrite Hget, Hk.
    pose proof (Hitems _ _ _ _ _ He Hk) as Hwi. apply (live_get _ _ _ Hwi) in Hi. by rewrite Hi.
  - apply list_elem_of_singleton in Hx as ->. simpl. by rewrite Hget, Hk.
Qed.

(** The path of a live block leads to it. *)
Lemma live_path n root s c :
  sequence_height s < n → tree_wf s → sequence_at root c = Some s →
  ∀ pb, pb ∈ live_seq c s → block_at_path root pb.1 = Some pb.2.
Proof.
  revert s c. induction n as [|n IH]; intros s c Hn Hs Hat pb; [lia|].
  unfold live_seq. rewrite list_elem_of_bind. intros ([e b] & Hpb & He). simpl in Hpb.
  pose proof Hs as Hs'. inversion Hs' as [? Hwf Hitems Hchild]; subst.
  rewrite live_in_unfold in Hpb. apply elem_of_cons in Hpb as [->|Hpb].
  - unfold block_at_path. simpl. rewrite Hat. simpl. by apply live_get.
  - apply list_elem_of_bind in Hpb as (x & Hpb & Hx).
    apply (IH x.2 (c ++ [x.1])); [|by eapply Hchild| |done].
    + pose proof (sequence_height_ge s _ He). pose proof (block_height_child e b x Hx). simpl in *. lia.
    + rewrite sequence_at_app, Hat. simpl. by eapply sequence_at_child.
Qed.

Lemma live_block_path s pb : tree_wf s → pb ∈ live_blocks s → block_at_path s pb.1 = Some pb.2.
Proof. intros Hs. by apply (live_path (S (sequence_height s)) s s []); [lia| |]. Qed.

(** ** Lookup through the cache *)

(** The reference lookups: search the live blocks in order. *)
Definition search_elem (e : OpId) (s : Sequence Block) : option Block :=
  x ← list_find (λ pb : BlockPath * Block, path_elem pb.1 = e) (live_blocks s);
  if decide (blk_elem x.2.2 = e) then Some x.2.2 else None.
Definition search_id (id : BlockId) (s : Sequence Block) : option Block :=
  (λ x, x.2.2) <$> list_find (λ pb : BlockPath * Block, blk_id pb.2 = id) (live_blocks s).

(** After [ensure_block_index] the cache holds the index of the blocks. *)
Lemma ensure_fresh d :
  coherent d →
  ∃ g, ensure_block_index d = set_cache (Some (mkCached g (index_of (doc_blocks d)))) d ∧
       doc_blocks (ensure_block_index d) = doc_blocks d.
Proof.
  intros Hc. unfold ensure_block_index. destruct (doc_block_index d) as [[g ix]|] eqn:E.
  - case_decide as Hg; [|by eexists].
    exists g. split; [|done]. rewrite <-(Hc _ E Hg). simpl. rewrite <-E. by destruct d.
  - by eexists.
Qed.

Lemma coherent_set_cache d : coherent (set_cache (Some (mkCached (generation d) (index_of (doc_blocks d)))) d).
Proof. by intros c [= <-] _. Qed.

Lemma coherent_ensure d : coherent d → coherent (ensure_block_index d).
Proof.
  intros Hc. unfold ensure_block_index. repeat case_match; try done; apply coherent_set_cache.
Qed.

Section find.
Context {K : Type} `{Countable K} (key : BlockIndex → gmap K BlockPath) (k : K) (ok : Block → bool).

(** What a lookup through a fresh index gives. *)
Definition fresh_lookup (s : Sequence Block) : option Block :=
  path ← key (index_of s) !! k;
  block ← block_at_path s path;
  if ok block then Some block else None.

Lemma find_through_spec d :
  coherent d →
  (find_through key k ok d).2 = fresh_lookup (doc_blocks d) ∧ coherent (find_through key k ok d).1.
Proof.
  intros Hc. pose proof (coherent_ensure d Hc) as Hc'. unfold find_through.
  destruct (ensure_fresh d Hc) as (g & He & Hb).
  assert (Hl : lookup_block key k ok (ensure_block_index d) = fresh_lookup (doc_blocks d)).
  { rewrite He. unfold lookup_block, fresh_lookup. simpl. done. }
  rewrite Hl. destruct (fresh_lookup (doc_blocks d)) as [b|] eqn:Ef; simpl; [done|].
  split; [|apply coherent_set_cache].
  unfold lookup_block. simpl. unfold doc_blocks at 1. simpl.
  change (ib_sequence (doc_indexed (ensure_block_index d))) with (doc_blocks (ensure_block_index d)).
  rewrite Hb. exact Ef.
Qed.
End find.

Lemma fresh_elem e s :
  tree_wf s →
  fresh_lookup by_elem_id e (λ b, bool_decide (blk_elem b = e)) s = search_elem e s.
Proof.
  intros Hs. unfold fresh_lookup, search_elem. rewrite (proj1 (index_of_lookup s)).
  destruct (list_find _ _) as [[i [p b]]|] eqn:Ef; [|done]. simpl.
  apply list_find_Some in Ef as (Hi & _ & _).
  pose proof (live_block_path s (p, b) Hs (list_elem_of_lookup_2 _ _ _ Hi)) as Hp.
  simpl in Hp. rewrite Hp. simpl.
  by destruct (decide (blk_elem b = e)); [rewrite bool_decide_eq_true_2|rewrite bool_decide_eq_false_2].
Qed.

Lemma fresh_id id s :
  tree_wf s →
  fresh_lookup by_block_id id (λ b, bool_decide (blk_id b = id)) s = search_id id s.
Proof.
  intros Hs. unfold fresh_lookup, search_id. rewrite (proj2 (index_of_lookup s)).
  destruct (list_find _ _) as [[i [p b]]|] eqn:Ef; [|done]. simpl.
  apply list_find_Some in Ef as (Hi & Hid & _). simpl in Hid.
  pose proof (live_block_path s (p, b) Hs (list_elem_of_lookup_2 _ _ _ Hi)) as Hp.
  simpl in Hp. rewrite Hp. simpl.
  by rewrite bool_decide_eq_true_2.
Qed.

(** A successful [find_block] leaves the path of the block in the cache. *)
Lemma find_fresh_path e d :
  coherent d → tree_wf (doc_blocks d) →
  match find_block e d with
  | (d', Some b) =>
    ∃ cached c, doc_block_index d' = Some cached ∧
      by_elem_id (cached_index cached) !! e = Some (mkPath c e) ∧
      block_at_path (doc_blocks d) (mkPath c e) = Some b
  | _ => True
  end.
Proof.
  intros Hc Hs. destruct (find_through_spec by_elem_id e (λ b, bool_decide (blk_elem b = e)) d Hc)
    as [Hr _]. destruct (ensure_fresh d Hc) as (g & He & _).
  unfold find_block in *. unfold find_through in *.
  assert (Hix : ∀ b, fresh_lookup by_elem_id e (λ b, bool_decide (blk_elem b = e)) (doc_blocks d) = Some b →
    ∃ c, by_elem_id (index_of (doc_blocks d)) !! e = Some (mkPath c e) ∧
      block_at_path (doc_blocks d) (mkPath c e) = Some b).
  { intros b Hb. unfold fresh_lookup in Hb. apply bind_Some in Hb as ([c e'] & Hp & Hb).
    apply bind_Some in Hb as (b' & Hb & Hok). destruct (bool_decide _); [|done]. simplify_eq.
    assert (e' = e) as ->; [|by exists c].
    rewrite (proj1 (index_of_lookup _)) in Hp.
    apply fmap_Some in Hp as ([i [p b1]] & Hf & Hpe). simpl in Hpe. subst p.
    by apply list_find_Some in Hf as (_ & Hp & _). }
  destruct (lookup_block _ _ _ (ensure_block_index d)) as [b|] eqn:El; simpl in Hr.
  - symmetry in Hr. destruct (Hix b Hr) as (c & Hp & Hb). rewrite He. simpl.
    eexists _, c. split; [done|]. done.
  - destruct (lookup_block _ _ _ (rebuild_block_index _)) as [b|] eqn:El2; [|done].
    symmetry in Hr. destruct (Hix b Hr) as (c & Hp & Hb). simpl.
    eexists _, c. split; [done|]. simpl. split; [|done].
    destruct (ensure_fresh d Hc) as (? & _ & Hblocks). by rewrite Hblocks.
Qed.

(** ** Editing along a path *)

Section value_mut.
Context {T R : Type} (f : T → T * R).
Implicit Types s : Sequence T.

Lemma with_value_mut_spec s e v :
  seq_wf s → get_element s e ≫= elem_value = Some v →
  ∃ s', with_value_mut e f s = (s', Some (f v).2) ∧
    get_element s' e ≫= elem_value = Some (f v).1 ∧
    ∀ e', e' ≠ e → get_element s' e' = get_element s e'.
Proof.
  intros Hwf Hget. unfold with_value_mut, get_element in *.
  destruct (seq_index s !! e) as [i|] eqn:Hi; [|done]. simpl in Hget.
  destruct (seq_elements s !! i) as [el|] eqn:Hel; [|done]. simpl in *. rewrite Hget.
  destruct (f v) as [v' r]. eexists. split; [done|]. unfold with_elements. simpl. rewrite Hi. simpl.
  rewrite list_lookup_alter_eq, Hel. simpl. split; [done|].
  intros e' Hne. destruct (seq_index s !! e') as [j|] eqn:Hj; [|done]. simpl.
  apply list_lookup_alter_ne. intros ->. apply Hne.
  apply (wf_index _ Hwf) in Hi. apply (wf_index _ Hwf) in Hj. congruence.
Qed.
End value_mut.

Definition step_elem (st : BlockContainerPath) : OpId :=
  match st with InBlockQuote q => q | InListItem l _ => l end.

#[export] Instance BlockContainerPath_eq_dec : EqDecision BlockContainerPath.
Proof. solve_decision. Defined.

(** The second path leads neither to, nor through, nor into a container of the
    block of the first. *)
Fixpoint diverge (c : list BlockContainerPath) (e : OpId) (c' : list BlockContainerPath)
    (e' : OpId) : Prop :=
  match c, c' with
  | [], [] => e ≠ e'
  | [], st' :: _ => step_elem st' ≠ e
  | st :: _, [] => step_elem st ≠ e'
  | st :: c, st' :: c' => st ≠ st' ∨ diverge c e c' e'
  end.

(** [s'] differs from [s] only in the value at [e]. *)
Definition same_but {T} (e : OpId) (s s' : Sequence T) : Prop :=
  ∀ e', e' ≠ e → get_element s' e' = get_element s e'.

Lemma same_but_path e s s' c' e' :
  same_but e s s' →
  match c' with [] => e ≠ e' | st :: _ => step_elem st ≠ e end →
  block_at_path s' (mkPath c' e') = block_at_path s (mkPath c' e').
Proof.
  intros Hs. unfold block_at_path. simpl. destruct c' as [|[q|l i] c']; simpl; intros Hne;
    by rewrite Hs.
Qed.

(** Replacing the children inside a block. *)
Lemma block_at_quote s q b ch c e :
  get_element s q ≫= elem_value = Some b → blk_kind b = BlockQuote ch →
  block_at_path s (mkPath (InBlockQuote q :: c) e) = block_at_path ch (mkPath c e).
Proof. intros Hg Hk. unfold block_at_path. simpl. by rewrite Hg, Hk. Qed.

Lemma block_at_item s l b style items moves i it c e :
  get_element s l ≫= elem_value = Some b → blk_kind b = ListBlock style items moves →
  get_element items i ≫= elem_value = Some it →
  block_at_path s (mkPath (InListItem l i :: c) e) = block_at_path (it_children it) (mkPath c e).
Proof. intros Hg Hk Hi. unfold block_at_path. simpl. by rewrite Hg, Hk, Hi. Qed.

Lemma blk_kind_set k b : blk_kind (set_kind k b) = k.
Proof. done. Qed.

Section path_mut.
Context {R : Type} (f : Block → Block * R) (e : OpId).

(** The edit reached the block at the end of the path and nothing else. *)
Definition edited (c : list BlockContainerPath) (b : Block) (s s' : Sequence Block) : Prop :=
  block_at_path s' (mkPath c e) = Some (f b).1 ∧
  ∀ c' e', diverge c e c' e' →
    block_at_path s' (mkPath c' e') = block_at_path s (mkPath c' e').

(** The edit of a block, given the edit of the sequence inside it. *)
Definition edit_quote (c : list BlockContainerPath) (b : Block) : Block * option R :=
  match blk_kind b with
  | BlockQuote children =>
    let '(children, r) := block_at_path_mut c e f children in
    (set_kind (BlockQuote children) b, r)
  | _ => (b, None)
  end.
Definition edit_item (c : list BlockContainerPath) (i : ListItem) : ListItem * option R :=
  let '(children, r) := block_at_path_mut c e f (it_children i) in (set_children children i, r).
Definition edit_list_item (c : list BlockContainerPath) (item : OpId) (b : Block) :
    Block * option R :=
  match blk_kind b with
  | ListBlock style items moves =>
    let '(items, r) := with_value_mut item (edit_item c) items in
    (set_kind (ListBlock style items moves) b, mjoin r)
  | _ => (b, None)
  end.

Lemma path_mut_quote c s q bq ch ch' b :
  seq_wf s → get_element s q ≫= elem_value = Some bq → blk_kind bq = BlockQuote ch →
  block_at_path_mut c e f ch = (ch', Some (f b).2) → edited c b ch ch' →
  ∃ s', block_at_path_mut (InBlockQuote q :: c) e f s = (s', Some (f b).2) ∧
    edited (InBlockQuote q :: c) b s s'.
Proof.
  intros Hwf Hq Hk Hm [Hat Hd].
  destruct (with_value_mut_spec (edit_quote c) s q bq Hwf Hq) as (s' & Hmut & Hg & Hne).
  unfold edit_quote at 2 in Hmut. unfold edit_quote in Hg. rewrite Hk, Hm in Hmut, Hg.
  simpl in Hmut, Hg. exists s'. simpl. fold (edit_quote c). rewrite Hmut. split; [done|]. split.
  { by rewrite (block_at_quote s' q _ ch' c e Hg (blk_kind_set _ _)). }
  intros [|st c'] e' Hdiv; simpl in Hdiv; [by apply (same_but_path q)|].
  destruct (decide (step_elem st = q)) as [Hst|Hst]; [|by apply (same_but_path q)].
  destruct st as [q'|l' i']; simpl in Hst; subst.
  - destruct Hdiv as [Hdiv|Hdiv]; [done|].
    rewrite (block_at_quote s' q _ ch' c' e' Hg (blk_kind_set _ _)).
    rewrite (block_at_quote s q bq ch c' e' Hq Hk). by apply Hd.
  - unfold block_at_path. simpl. by rewrite Hq, Hg, Hk.
Qed.

Lemma path_mut_item c s l bl style items moves i it ch' b :
  seq_wf s → seq_wf items → get_element s l ≫= elem_value = Some bl →
  blk_kind bl = ListBlock style items moves → get_element items i ≫= elem_value = Some it →
  block_at_path_mut c e f (it_children it) = (ch', Some (f b).2) →
  edited c b (it_children it) ch' →
  ∃ s', block_at_path_mut (InListItem l i :: c) e f s = (s', Some (f b).2) ∧
    edited (InListItem l i :: c) b s s'.
Proof.
  intros Hwf Hwi Hl Hk Hi Hm [Hat Hd].
  destruct (with_value_mut_spec (edit_item c) items i it Hwi Hi) as (items' & Himut & Hig & Hine).
  unfold edit_item at 2 in Himut. unfold edit_item in Hig. rewrite Hm in Himut, Hig.
  simpl in Himut, Hig.
  destruct (with_value_mut_spec (edit_list_item c i) s l bl Hwf Hl) as (s' & Hmut & Hg & Hne).
  unfold edit_list_item at 2 in Hmut. unfold edit_list_item in Hg. rewrite Hk, Himut in Hmut, Hg.
  simpl in Hmut, Hg. exists s'. simpl. fold (edit_item c). fold (edit_list_item c i).
  rewrite Hmut. split; [done|]. split.
  { by rewrite (block_at_item s' l _ style items' moves i _ c e Hg (blk_kind_set _ _) Hig). }
  intros [|st c'] e' Hdiv; simpl in Hdiv; [by apply (same_but_path l)|].
  destruct (decide (step_elem st = l)) as [Hst|Hst]; [|by apply (same_but_path l)].
  destruct st as [q'|l' i']; simpl in Hst; subst.
  - unfold block_at_path. simpl. by rewrite Hl, Hg, Hk.
  - destruct (decide (i' = i)) as [->|Hii].
    + destruct Hdiv as [Hdiv|Hdiv]; [done|].
      rewrite (block_at_item s' l _ style items' moves i _ c' e' Hg (blk_kind_set _ _) Hig).
      rewrite (block_at_item s l bl style items moves i it c' e' Hl Hk Hi). by apply Hd.
    + unfold block_at_path. simpl. rewrite Hl, Hg. simpl. by rewrite Hk, (Hine i' Hii).
Qed.

Lemma block_at_path_mut_spec c s b :
  tree_wf s → block_at_path s (mkPath c e) = Some b →
  ∃ s', block_at_path_mut c e f s = (s', Some (f b).2) ∧ edited c b s s'.
Proof.
  revert s. induction c as [|[q|l i] c IH]; intros s Hs Hb; unfold block_at_path in Hb; simpl in Hb;
    inversion Hs as [? Hwf Hitems Hchild]; subst.
  - destruct (with_value_mut_spec f s e b Hwf Hb) as (s' & Hm & Hg & Hne).
    exists s'. split; [done|]. split; [done|].
    intros c' e' Hd. apply (same_but_path e); [done|]. by destruct c'.
  - destruct (get_element s q ≫= elem_value) as [bq|] eqn:Hq; [|done].
    destruct (blk_kind bq) as [| | | |ch| |] eqn:Hk; try done.
    destruct (IH ch) as (ch' & Hm & Hat); [|done|by eapply path_mut_quote].
    apply (live_get _ _ _ Hwf) in Hq. apply (Hchild q bq (InBlockQuote q, ch) Hq).
    rewrite Hk. by apply list_elem_of_singleton.
  - destruct (get_element s l ≫= elem_value) as [bl|] eqn:Hl; [|done].
    destruct (blk_kind bl) as [| |st0 items mv| | | |] eqn:Hk; try done.
    destruct (get_element items i ≫= elem_value) as [it|] eqn:Hi; [|done].
    pose proof (proj2 (live_get _ _ _ Hwf) Hl) as Hlive.
    pose proof (Hitems _ _ _ _ _ Hlive Hk) as Hwi.
    destruct (IH (it_children it)) as (ch' & Hm & Hat); [|done|by eapply path_mut_item].
    apply (Hchild l bl (InListItem l i, it_children it) Hlive).
    rewrite Hk. simpl. apply list_elem_of_fmap. exists (i, it). split; [done|]. by apply live_get.
Qed.
End path_mut.

(** ** Reaching a container *)

(** The sequences directly inside a block with the id a parent reference names
    them by. *)
Definition named_children (e : OpId) (b : Block) :
    list (BlockContainerPath * OpId * Sequence Block) :=
  match blk_kind b with
  | BlockQuote ch => [(InBlockQuote e, blk_elem b, ch)]
  | ListBlock _ items _ => (λ x, (InListItem e x.1, it_elem x.2, it_children x.2)) <$> live_elems items
  | _ => []
  end.

(** The tree has a container named [t]: the path to it and its children. *)
Inductive has_container (t : OpId) :
    Sequence Block → list BlockContainerPath → Sequence Block → Prop :=
  | container_at s e b st ch :
      (e, b) ∈ live_elems s → (st, t, ch) ∈ named_children e b → has_container t s [st] ch
  | container_in s e b st n s1 c ch :
      (e, b) ∈ live_elems s → (st, n, s1) ∈ named_children e b →
      has_container t s1 c ch → has_container t s (st :: c) ch.

Lemma named_child e b st n ch : (st, n, ch) ∈ named_children e b → (st, ch) ∈ child_seqs e (blk_kind b).
Proof.
  unfold named_children, child_seqs. destruct (blk_kind b) as [| |sty items mv| |c| |];
    try by intros ?%not_elem_of_nil.
  - intros (x & [= -> _ ->] & Hx)%list_elem_of_fmap. apply list_elem_of_fmap. by exists x.
  - intros [= -> _ ->]%list_elem_of_singleton. by apply list_elem_of_singleton.
Qed.

(** The block does not lie inside the container at [c] and does not contain it. *)
Fixpoint outside (c c' : list BlockContainerPath) (e' : OpId) : Prop :=
  match c, c' with
  | [], _ => False
  | st :: _, [] => step_elem st ≠ e'
  | st :: c, st' :: c' => st ≠ st' ∨ outside c c' e'
  end.

(** [s'] is [s] with the children at one step replaced. *)
Definition step_replaced (st : BlockContainerPath) (ch ch' s s' : Sequence Block) : Prop :=
  (∀ c, sequence_at s (st :: c) = sequence_at ch c) ∧
  (∀ c, sequence_at s' (st :: c) = sequence_at ch' c) ∧
  ∀ c' e', match c' with [] => step_elem st ≠ e' | st' :: _ => st ≠ st' end →
    block_at_path s' (mkPath c' e') = block_at_path s (mkPath c' e').

Lemma value_at_get {T} (s : Sequence T) e : value_at s e = get_element s e ≫= elem_value.
Proof. unfold value_at, get_element. by destruct (seq_index s !! e). Qed.

Lemma set_value_at_spec {T} (s : Sequence T) e v w :
  seq_wf s → value_at s e = Some v →
  get_element (set_value_at e w s) e ≫= elem_value = Some w ∧ same_but e s (set_value_at e w s).
Proof.
  rewrite value_at_get. intros Hwf Hv. unfold set_value_at.
  destruct (with_value_mut_spec (λ _, (w, tt)) s e v Hwf Hv) as (s' & -> & ? & ?). done.
Qed.

Lemma replace_quote s q b ch ch' :
  seq_wf s → value_at s q = Some b → blk_kind b = BlockQuote ch →
  step_replaced (InBlockQuote q) ch ch' s (set_value_at q (set_kind (BlockQuote ch') b) s).
Proof.
  intros Hwf Hv Hk. destruct (set_value_at_spec s q b (set_kind (BlockQuote ch') b) Hwf Hv) as [Hg Hne].
  rewrite value_at_get in Hv. split_and!; intros c; simpl; [by rewrite Hv, Hk|by rewrite Hg|].
  intros e' Hst. destruct c as [|st' c]; [by apply (same_but_path q)|].
  destruct (decide (step_elem st' = q)) as [Hq|Hq]; [|by apply (same_but_path q)].
  destruct st' as [q'|l i]; simpl in Hq; subst; [done|].
  unfold block_at_path. simpl. by rewrite Hv, Hg, Hk.
Qed.

Lemma replace_item s l b style items moves i it ch' :
  seq_wf s → seq_wf items → value_at s l = Some b → blk_kind b = ListBlock style items moves →
  value_at items i = Some it →
  step_replaced (InListItem l i) (it_children it) ch' s
    (set_value_at l
       (set_kind (ListBlock style (set_value_at i (set_children ch' it) items) moves) b) s).
Proof.
  intros Hwf Hwi Hv Hk Hi. set (items' := set_value_at i (set_children ch' it) items).
  destruct (set_value_at_spec items i it (set_children ch' it) Hwi Hi) as [Hgi Hnei]. fold items' in Hgi, Hnei.
  destruct (set_value_at_spec s l b (set_kind (ListBlock style items' moves) b) Hwf Hv) as [Hg Hne].
  rewrite value_at_get in Hv. rewrite value_at_get in Hi.
  split_and!; intros c; simpl; [by rewrite Hv, Hk, Hi|by rewrite Hg; simpl; rewrite Hgi|].
  intros e' Hst. destruct c as [|st' c]; [by apply (same_but_path l)|].
  destruct (decide (step_elem st' = l)) as [Hl|Hl]; [|by apply (same_but_path l)].
  unfold block_at_path. destruct st' as [q'|l' j]; simpl in Hl; subst; simpl; rewrite Hv, Hg; simpl; rewrite Hk;
    [done|].
  destruct (decide (j = i)) as [->|Hj]; [done|]. by rewrite (Hnei j Hj).
Qed.

Lemma find_map_Some {A B} (f : A → option B) l r : find_map f l = Some r → ∃ x, x ∈ l ∧ f x = Some r.
Proof.
  induction l as [|x l IH]; simpl; [done|]. destruct (f x) eqn:E.
  - intros [= <-]. exists x. split; [left|done].
  - intros (y & Hy & ?)%IH. exists y. split; [by right|done].
Qed.
Lemma find_map_None {A B} (f : A → option B) l : find_map f l = None ↔ ∀ x, x ∈ l → f x = None.
Proof.
  induction l as [|x l IH]; simpl; [set_solver|]. destruct (f x) eqn:E.
  - split; [done|]. intros H. rewrite H in E; [done|left].
  - rewrite IH. split; [|set_solver]. intros H y [->|Hy]%elem_of_cons; [done|by apply H].
Qed.

Lemma live_value {T} (s : Sequence T) e v : seq_wf s → (e, v) ∈ live_elems s ↔ value_at s e = Some v.
Proof. intros Hwf. rewrite value_at_get. by apply live_get. Qed.
Lemma live_id {T} (s : Sequence T) e v : (e, v) ∈ live_elems s → e ∈ element_ids s.
Proof.
  intros (x & Hx & <- & _)%elem_of_live. apply list_elem_of_fmap. by exists x.
Qed.

Lemma iter_any_live {T} (p : T → bool) s :
  iter_any p s = true ↔ ∃ x, x ∈ live_elems s ∧ p x.2 = true.
Proof.
  unfold iter_any. rewrite existsb_exists. split.
  - intros (e & He%list_elem_of_In & Hp). destruct (elem_value e) as [v|] eqn:Ev; [|done].
    exists (elem_id e, v). split; [apply elem_of_live; eauto|done].
  - intros ([i v] & (e & He & _ & Hv)%elem_of_live & Hp). exists e.
    split; [by apply list_elem_of_In|by rewrite Hv].
Qed.

(** ** The search for a container *)

Section walk.
Context (f : Sequence Block → Sequence Block) (t : OpId).

(** What a step of the search does when it succeeds. *)
Definition walk_done (s s' : Sequence Block) : Prop :=
  ∃ c ch, has_container t s c ch ∧ sequence_at s' c = Some (f ch) ∧
    ∀ c' e', outside c c' e' →
      block_at_path s' (mkPath c' e') = block_at_path s (mkPath c' e').

Definition walk_result (s : Sequence Block) (r : option (option (Sequence Block))) : Prop :=
  match r with
  | Some (Some s') => walk_done s s'
  | Some None => False
  | None => ∀ c ch, ¬ has_container t s c ch
  end.

Lemma walk_here s e b st ch s' :
  (e, b) ∈ live_elems s → (st, t, ch) ∈ named_children e b →
  step_replaced st ch (f ch) s s' → walk_done s s'.
Proof.
  intros He Hch (_ & Hat & Hframe). exists [st], ch. split_and!.
  - by eapply container_at.
  - by rewrite Hat.
  - intros [|st' c'] e' Hout; simpl in Hout; apply Hframe; [done|]. naive_solver.
Qed.

Lemma walk_below s e b st n ch ch' s' :
  (e, b) ∈ live_elems s → (st, n, ch) ∈ named_children e b →
  step_replaced st ch ch' s s' → walk_done ch ch' → walk_done s s'.
Proof.
  intros He Hch (Hs & Hs' & Hframe) (c & k & Hc & Hat & Hout). exists (st :: c), k. split_and!.
  - by eapply container_in.
  - by rewrite Hs'.
  - intros [|st' c'] e' Ho; simpl in Ho; [by apply Hframe|].
    destruct (decide (st = st')) as [<-|Hne]; [|by apply Hframe].
    destruct Ho as [|Ho]; [done|]. specialize (Hout c' e' Ho).
    unfold block_at_path in *. cbn [path_containers path_elem] in *. by rewrite Hs, Hs'.
Qed.

(** The first loop finds the containers directly in this sequence. *)
Lemma container_here_spec s bid :
  tree_wf s →
  match container_here f t s bid with
  | Some (Some s') => walk_done s s'
  | Some None => False
  | None => ∀ b st ch, (bid, b) ∈ live_elems s → (st, t, ch) ∉ named_children bid b
  end.
Proof.
  intros Hs. inversion Hs as [? Hwf Hitems _]; subst. unfold container_here.
  destruct (value_at s bid) as [b|] eqn:Hv.
  2: { intros b st ch Hb%live_value; [congruence|done]. }
  pose proof (proj2 (live_value s bid b Hwf) Hv) as Hlive.
  assert (Hb : ∀ b', (bid, b') ∈ live_elems s → b' = b).
  { intros b' Hb'%live_value; [congruence|done]. }
  destruct (blk_kind b) as [| |style items moves| |ch| |] eqn:Hk;
    try (intros b' st c' ->%Hb; unfold named_children; rewrite Hk; apply not_elem_of_nil).
  - pose proof (Hitems _ _ _ _ _ Hlive Hk) as Hwi. destruct (iter_any _ items) eqn:Hany.
    + destruct (find_map _ _) as [s'|] eqn:Hf.
      * apply find_map_Some in Hf as (iid & _ & Hf). destruct (value_at items iid) as [it|] eqn:Hi; [|done].
        case_decide as Ht; [|done]. injection Hf as <-.
        eapply (walk_here s bid b (InListItem bid iid) (it_children it)); [done| |by apply replace_item].
        unfold named_children. rewrite Hk. apply list_elem_of_fmap. exists (iid, it).
        split; [by rewrite <-Ht|by apply live_value].
      * apply iter_any_live in Hany as ([iid it] & Hi & Ht%bool_decide_eq_true). simpl in Ht.
        rewrite find_map_None in Hf. specialize (Hf iid (live_id _ _ _ Hi)).
        apply live_value in Hi; [|done]. rewrite Hi, decide_True in Hf by done. done.
    + intros b' st ch ->%Hb. unfold named_children. rewrite Hk.
      intros ([iid it] & [= -> Ht ->] & Hi)%list_elem_of_fmap.
      enough (iter_any (λ it0, bool_decide (it_elem it0 = t)) items = true) by congruence.
      apply iter_any_live. exists (iid, it). split; [done|]. by apply bool_decide_eq_true_2.
  - case_decide as Ht.
    + eapply (walk_here s bid b (InBlockQuote bid) ch); [done| |by apply replace_quote].
      unfold named_children. rewrite Hk. apply list_elem_of_singleton. by rewrite <-Ht.
    + intros b' st c' ->%Hb. unfold named_children. rewrite Hk.
      by intros [= _ ? _]%list_elem_of_singleton.
Qed.

(** The second loop looks inside the blocks. *)
Lemma container_below_spec rec s bid :
  tree_wf s →
  (∀ b st n ch, (bid, b) ∈ live_elems s → (st, n, ch) ∈ named_children bid b →
     walk_result ch (rec ch)) →
  match container_below rec s bid with
  | Some (Some s') => walk_done s s'
  | Some None => False
  | None => ∀ b st n ch c k, (bid, b) ∈ live_elems s → (st, n, ch) ∈ named_children bid b →
      ¬ has_container t ch c k
  end.
Proof.
  intros Hs Hrec. inversion Hs as [? Hwf Hitems _]; subst. unfold container_below.
  destruct (value_at s bid) as [b|] eqn:Hv.
  2: { intros b st n ch c k Hb%live_value; [congruence|done]. }
  pose proof (proj2 (live_value s bid b Hwf) Hv) as Hlive. specialize (Hrec b).
  assert (Hb : ∀ b', (bid, b') ∈ live_elems s → b' = b).
  { intros b' Hb'%live_value; [congruence|done]. }
  unfold named_children in Hrec.
  destruct (blk_kind b) as [| |style items moves| |ch| |] eqn:Hk;
    try (intros b' st n c' c k ->%Hb; unfold named_children; rewrite Hk; by intros ?%not_elem_of_nil).
  - pose proof (Hitems _ _ _ _ _ Hlive Hk) as Hwi.
    assert (Hit : ∀ iid it, value_at items iid = Some it → walk_result (it_children it) (rec (it_children it))).
    { intros iid it Hi. eapply Hrec; [done|]. apply list_elem_of_fmap. exists (iid, it).
      split; [done|by apply live_value]. }
    destruct (find_map _ _) as [r|] eqn:Hf.
    + apply find_map_Some in Hf as (iid & _ & Hf). destruct (value_at items iid) as [it|] eqn:Hi; [|done].
      specialize (Hit _ _ Hi). destruct (rec (it_children it)) as [[ch'|]|]; [|done|done].
      injection Hf as <-. simpl in *.
      eapply (walk_below s bid b (InListItem bid iid)); [done| |by apply replace_item|done].
      unfold named_children. rewrite Hk. apply list_elem_of_fmap. exists (iid, it).
      split; [done|by apply live_value].
    + intros b' st n ch c k ->%Hb. unfold named_children. rewrite Hk.
      intros ([iid it] & [= -> -> ->] & Hi)%list_elem_of_fmap.
      rewrite find_map_None in Hf. specialize (Hf iid (live_id _ _ _ Hi)).
      apply live_value in Hi; [|done]. rewrite Hi in Hf. specialize (Hit _ _ Hi).
      destruct (rec (it_children it)); [done|]. apply Hit.
  - specialize (Hrec (InBlockQuote bid) (blk_elem b) ch Hlive ltac:(by apply list_elem_of_singleton)).
    destruct (rec ch) as [[ch'|]|] eqn:Hr; simpl in *; [|done|].
    + eapply (walk_below s bid b (InBlockQuote bid) (blk_elem b) ch ch');
        [done| |by apply replace_quote|done].
      unfold named_children. rewrite Hk. by apply list_elem_of_singleton.
    + intros b' st n c' c k ->%Hb. unfold named_children. rewrite Hk.
      intros [= -> -> ->]%list_elem_of_singleton. apply Hrec.
Qed.

Lemma container_walk_spec fuel s :
  sequence_height s < fuel → tree_wf s → walk_result s (container_walk fuel f t s).
Proof.
  revert s. induction fuel as [|fuel IH]; intros s Hn Hs; [lia|]. simpl.
  destruct (find_map _ _) as [r|] eqn:Hhere.
  { apply find_map_Some in Hhere as (bid & _ & Hr). pose proof (container_here_spec s bid Hs) as H.
    rewrite Hr in H. by destruct r. }
  assert (Hrec : ∀ bid b st n ch, (bid, b) ∈ live_elems s → (st, n, ch) ∈ named_children bid b →
    walk_result ch (container_walk fuel f t ch)).
  { intros bid b st n ch Hb Hch%named_child. inversion Hs as [? _ _ Hchild]; subst. apply IH.
    - pose proof (sequence_height_ge s _ Hb). pose proof (block_height_child bid b _ Hch).
      simpl in *. lia.
    - by apply (Hchild bid b (st, ch)). }
  destruct (find_map (container_below _ s) _) as [r|] eqn:Hbelow.
  { apply find_map_Some in Hbelow as (bid & _ & Hr).
    pose proof (container_below_spec (container_walk fuel f t) s bid Hs (Hrec bid)) as H.
    rewrite Hr in H. by destruct r. }
  rewrite find_map_None in Hhere. rewrite find_map_None in Hbelow. intros c k Hc.
  inversion Hc as [? e b st ch Hb Hch|? e b st n s1 c' ch Hb Hch Hc']; subst.
  - pose proof (container_here_spec s e Hs) as H. rewrite (Hhere e (live_id _ _ _ Hb)) in H.
    by eapply H.
  - pose proof (container_below_spec (container_walk fuel f t) s e Hs (Hrec e)) as H.
    rewrite (Hbelow e (live_id _ _ _ Hb)) in H. by eapply H.
Qed.
End walk.
