(* ===== verification/DocumentProps.v ===== *)
(** * Properties of the document

    The cached index stays coherent, so a lookup finds what a search of the tree
    finds; an edit changes one block; inserting into a container reaches it or
    reports that it is missing; and what becomes of an edit of a moved block. *)

From S2P Require Import Prelude Core Sequence SequenceOrder SequenceInv SequenceRefine.
From S2P Require Import SequenceView.
From S2P Require Import Mark MarkOps Table Frontmatter Codec Text Block Document DocumentCache.
From S2P Require Import DocumentTree.

(** ** Claims *)

Lemma doc_new_cache_inv : cache_inv 0 doc_new.
Proof. split; [done|]. by intros c. Qed.

(** Whatever operations are run on a new document, in whatever order, the
    result is reached by finitely many changes; and as long as fewer than 2^64
    of them used the blocks mutably, the generation counts them and the cached
    index, when its generation is current, is the index of the blocks as they
    are. *)
Theorem block_index_coherent (inc : bool) (graphemes : string → list string) (l : list DocCall) :
  let d := fold_left (call inc graphemes) l doc_new in
  (∃ n, doc_changes n doc_new d) ∧
  ∀ n, doc_changes n doc_new d → (N.of_nat n < u64_modulus)%N →
    generation d = N.of_nat n ∧ coherent d.
Proof.
  intros d. split; [apply calls_changed|]. intros n Hn Hlt.
  destruct (cache_inv_changes n 0 doc_new d) as [Hg Hc]; [done|by rewrite Nat.add_0_r|
    apply doc_new_cache_inv|].
  rewrite Nat.add_0_r in Hg. split; [done|]. intros c Hi Hgen. by apply Hc.
Qed.

(** A sample tree: a quote that holds a raw block. *)
Definition quote_id : OpId := mkOpId 1 1.
Definition inner_id : OpId := mkOpId 2 1.
Definition raw_block (text : string) (id : OpId) : Block := block_new (RawBlock text) id.
Definition sample_inner : Sequence Block :=
  apply true (Insert None inner_id (raw_block "a" inner_id) None) sequence_new.
Definition sample_quote : Block := block_new (BlockQuote sample_inner) quote_id.
Definition sample_doc : Document :=
  fold_left (call true (λ s, [s])) [CallInsertBlock None None quote_id sample_quote None] doc_new.

Lemma applied_wf {T} (op : SequenceOp T) : seq_wf (apply true op sequence_new).
Proof. apply (apply_spec true op sequence_new), sequence_new_inv. Qed.

Lemma sample_tree_wf : tree_wf (doc_blocks sample_doc).
Proof.
  assert (Ho : live_elems (doc_blocks sample_doc) = [(quote_id, sample_quote)]) by by vm_compute.
  assert (Hi : live_elems sample_inner = [(inner_id, raw_block "a" inner_id)]) by by vm_compute.
  constructor; [apply applied_wf|..]; rewrite Ho; intros e b; intros;
    match goal with H : _ ∈ [_] |- _ => apply list_elem_of_singleton in H; injection H as -> -> end;
    [done|].
  match goal with H : _ ∈ _ |- _ => apply list_elem_of_singleton in H as -> end.
  constructor; [apply applied_wf|..]; simpl; rewrite Hi; intros e' b'; intros;
    match goal with H : _ ∈ [_] |- _ => apply list_elem_of_singleton in H; injection H as -> -> end;
    [done|].
  match goal with H : _ ∈ _ |- _ => by apply not_elem_of_nil in H end.
Qed.

Lemma block_index_coherent_witness :
  let l := [CallInsertBlock None None quote_id sample_quote None; CallFind quote_id] in
  let d := fold_left (call true (λ s, [s])) l doc_new in
  generation d = 1%N ∧ coherent d ∧ is_Some (doc_block_index d).
Proof.
  intros l d.
  assert (Hn : doc_changes 1 doc_new d).
  { apply (changes_cons 1 0 _ (edit_blocks (apply true (Insert None quote_id sample_quote None)) doc_new)).
    - apply change_blocks.
    - replace d with (rebuild_block_index
        (edit_blocks (apply true (Insert None quote_id sample_quote None)) doc_new))
        by (vm_compute; reflexivity).
      apply (changes_cons 0 0 _ _ _ (change_cache _)), changes_nil. }
  destruct (proj2 (block_index_coherent true (λ s, [s]) l) 1 Hn eq_refl) as [Hg Hc].
  split; [exact Hg|]. split; [exact Hc|]. vm_compute. eauto.
Defined.

(** C30: A lookup through the cached index is a search of the tree.  In a
    document whose cache is coherent and whose sequences are well formed,
    [find_block] and [find_block_by_id] return exactly what a search of the live
    blocks in document order returns, leave the blocks untouched and the cache
    coherent. *)
Theorem find_block_spec (d : Document) (e : OpId) (id : BlockId) :
  coherent d → tree_wf (doc_blocks d) →
  (find_block e d).2 = search_elem e (doc_blocks d) ∧
  (find_block_by_id id d).2 = search_id id (doc_blocks d) ∧
  coherent (find_block e d).1 ∧ coherent (find_block_by_id id d).1 ∧
  doc_indexed (find_block e d).1 = doc_indexed d ∧
  doc_indexed (find_block_by_id id d).1 = doc_indexed d.
Proof.
  intros Hc Hs. unfold find_block, find_block_by_id.
  destruct (find_through_spec by_elem_id e (λ b, bool_decide (blk_elem b = e)) d Hc) as [-> ?].
  destruct (find_through_spec by_block_id id (λ b, bool_decide (blk_id b = id)) d Hc) as [-> ?].
  split_and!; [by apply fresh_elem|by apply fresh_id|done|done|apply find_through_same..].
Qed.

Lemma find_block_spec_witness :
  (find_block inner_id sample_doc).2 = search_elem inner_id (doc_blocks sample_doc) ∧
  blk_elem <$> search_elem inner_id (doc_blocks sample_doc) = Some inner_id.
Proof.
  split; [|by vm_compute].
  apply (find_block_spec sample_doc inner_id 0%N); [by intros c|apply sample_tree_wf].
Defined.

(** editing a block through [with_block_mut].  When [find_block] finds no
    block the blocks are left alone.  When it finds [b], the closure runs on
    [b], its result is returned, the block at the path of [b] becomes the edited
    block, and every block at a path that neither leads through [b] nor contains
    it reads as before. *)
Theorem with_block_mut_spec {R} (d : Document) (e : OpId) (f : Block → Block * R) :
  coherent d → tree_wf (doc_blocks d) →
  let '(d', r) := with_block_mut e f d in
  match (find_block e d).2 with
  | None => r = None ∧ doc_blocks d' = doc_blocks d
  | Some b =>
    r = Some (f b).2 ∧
    ∃ c, block_at_path (doc_blocks d) (mkPath c e) = Some b ∧
      edited f e c b (doc_blocks d) (doc_blocks d')
  end.
Proof.
  intros Hc Hs. unfold with_block_mut.
  pose proof (find_through_same by_elem_id e (λ b, bool_decide (blk_elem b = e)) d) as [Hsame _].
  pose proof (find_fresh_path e d Hc Hs) as Hpath. unfold find_block in *.
  destruct (find_through _ _ _ _) as [d1 [b|]]; simpl in *.
  - destruct Hpath as (cached & c & Hi & Hp & Hb). rewrite Hi. simpl. rewrite Hp.
    assert (Hblocks : doc_blocks (mark_source_elem_dirty e d1) = doc_blocks d).
    { unfold doc_blocks, mark_source_elem_dirty. simpl. by rewrite Hsame. }
    rewrite Hblocks. simpl.
    destruct (block_at_path_mut_spec f e c (doc_blocks d) b Hs Hb) as (s' & -> & He).
    split; [done|]. exists c. done.
  - unfold doc_blocks. by rewrite Hsame.
Qed.

Lemma with_block_mut_spec_witness :
  let '(d', r) := with_block_mut inner_id (λ b, (set_kind (RawBlock "b") b, blk_elem b)) sample_doc in
  r = Some inner_id ∧
  ∃ c, block_at_path (doc_blocks d') (mkPath c inner_id) =
    Some (set_kind (RawBlock "b") (raw_block "a" inner_id)).
Proof.
  pose proof (with_block_mut_spec sample_doc inner_id
    (λ b, (set_kind (RawBlock "b") b, blk_elem b))) as H.
  destruct (with_block_mut _ _ sample_doc) as [d' r].
  replace (find_block inner_id sample_doc).2 with (Some (raw_block "a" inner_id)) in H
    by (vm_compute; reflexivity).
  destruct H as [Hr (c & _ & Hc & _)]; [by intros c|apply sample_tree_wf|].
  split; [exact Hr|]. exists c. exact Hc.
Defined.

(** [insert_block_at] and [delete_block_at], which are [apply_at] with an
    insertion or a deletion.  At the top level the operation is applied to the
    blocks.  With a parent, the search for the container always ends, within the
    height of the tree: if the tree has no container of that id the blocks are
    left alone and the result is false, otherwise the operation is applied to
    the children of such a container, every block outside of it reads as
    before, and the result is true. *)
Theorem apply_at_spec (inc : bool) (parent : option OpId) (op : SequenceOp Block) (d : Document) :
  tree_wf (doc_blocks d) →
  let '(d', found) := apply_at inc parent op d in
  match parent with
  | None => found = true ∧ doc_blocks d' = apply inc op (doc_blocks d)
  | Some p =>
    if found then walk_done (apply inc op) p (doc_blocks d) (doc_blocks d')
    else doc_blocks d' = doc_blocks d ∧ ∀ c ch, ¬ has_container p (doc_blocks d) c ch
  end.
Proof.
  intros Hs. unfold apply_at. destruct parent as [p|]; [|done].
  unfold with_container_children_mut.
  change (doc_blocks (mark_source_elem_dirty p d)) with (doc_blocks d).
  pose proof (container_walk_spec (apply inc op) p (S (sequence_height (doc_blocks d)))
    (doc_blocks d) ltac:(lia) Hs) as Hw.
  destruct (container_walk _ _ _ _) as [[s'|]|]; simpl in *; done.
Qed.

Lemma apply_at_spec_witness :
  let '(d', found) := insert_block_at true (Some quote_id) (Some inner_id) (mkOpId 3 1)
    (raw_block "c" (mkOpId 3 1)) None sample_doc in
  found = true ∧ ∃ c ch, has_container quote_id (doc_blocks sample_doc) c ch ∧
    sequence_at (doc_blocks d') c =
      Some (apply true (Insert (Some inner_id) (mkOpId 3 1) (raw_block "c" (mkOpId 3 1)) None) ch).
Proof.
  pose proof (apply_at_spec true (Some quote_id)
    (Insert (Some inner_id) (mkOpId 3 1) (raw_block "c" (mkOpId 3 1)) None) sample_doc
    sample_tree_wf) as H.
  unfold insert_block_at.
  assert (Hf : (apply_at true (Some quote_id)
    (Insert (Some inner_id) (mkOpId 3 1) (raw_block "c" (mkOpId 3 1)) None) sample_doc).2 = true)
    by (vm_compute; reflexivity).
  destruct (apply_at _ _ _ _) as [d' found]. simpl in Hf. subst found. split; [reflexivity|].
  destruct H as (c & ch & Hc & Hat & _). exists c, ch. split; [exact Hc|exact Hat].
Defined.

(** Two raw blocks read from the text [a], a blank line, [b]. *)
Definition first_id : OpId := mkOpId 1 1.
Definition second_id : OpId := mkOpId 2 1.
Definition two_blocks : Document :=
  fold_left (call true (λ s, [s]))
    [CallInsertBlock None None first_id (raw_block "a" first_id) None;
     CallInsertBlock None (Some first_id) second_id (raw_block "b" second_id) None] doc_new.
Definition two_source : DocumentSource :=
  source_new [97; 10; 10; 98]%N
    [(block_id_from_op first_id, 0, 1); (block_id_from_op second_id, 3, 4)]
    (blocks_in_order two_blocks).
Definition read_blocks : Document := set_source_state (Some two_source) two_blocks.
(** The first block is moved behind the second one. *)
Definition move_first : DocCall :=
  CallMoveBlocks None
    [mkMovedBlock (block_id_from_op first_id) first_id (mkOpId 3 1) (Some second_id) None]
    (mkOpId 3 1).
Definition edit_at (elem : OpId) : DocCall :=
  CallReplaceRaw elem "edited" (mkOpId 4 1) StateVectorOps.new.
Definition rendered (print : Block → list N) (d : Document) : option (list N) :=
  src ← doc_source d; render_with_frontmatter print src (doc_blocks d) None.

(** An edit of a moved block is not rendered.  Whatever the printer of
    blocks, editing the first block of a document shows in the text rendered
    from the source regions; but once that block was moved, the same edit
    changes the block and not the text, which still reads [a]. *)
Theorem moved_block_edit_not_rendered (print : Block → list N) :
  let edited := call true (λ s, [s]) read_blocks (edit_at first_id) in
  let moved := call true (λ s, [s]) read_blocks move_first in
  let moved_edited := call true (λ s, [s]) moved (edit_at (mkOpId 3 1)) in
  (∃ b, blk_kind b = RawBlock "edited" ∧
     rendered print edited = Some (print b ++ [10; 10; 98]%N)) ∧
  (blk_kind <$> blocks_in_order moved_edited) = [RawBlock "b"; RawBlock "edited"] ∧
  rendered print moved_edited = Some [98; 10; 10; 97]%N.
Proof.
  intros edited moved moved_edited. split_and!.
  - exists (write_kind (RawBlock "edited") (mkOpId 4 1) StateVectorOps.new (raw_block "a" first_id)).
    split; [reflexivity|]. vm_compute.
    match goal with |- context [print ?b] => generalize (print b); intros p end.
    change (Some (((p ++ [10; 10]%N) ++ [98]%N) ++ []) = Some (p ++ [10; 10; 98]%N)).
    by rewrite app_nil_r, <-app_assoc.
  - vm_compute. reflexivity.
  - vm_compute. reflexivity.
Qed.
