(* ===== verification/SessionWire.v ===== *)
(** * Envelopes and documents

    Models [src/src/session/wire.rs]: the counters an operation covers, the
    checks that its ids belong to its peer, the conversions between blocks and
    skeletons, and the application of an envelope to a document; and the
    validation of skeletons and table cells in [src/src/session/mod.rs]. *)

From S2P Require Import Prelude Core Sequence Mark MarkOps Table Frontmatter Codec Text Block.
From S2P Require Import Document Sync Draft.

(** ** Errors of a session *)

Inductive SessionError :=
  | ErrCodec (message : string)
  | ErrValidation (e : ValidationError)
  | ErrUnknownWireVersion (version : N)
  | ErrOperationIdMismatch
  | ErrPeerMismatch
  | ErrNonEmptyParagraphOnInsertBlock
  | ErrMissingAfterAnchor
  | ErrMissingDeleteTarget
  | ErrNonEmptyTableOnInsertBlock
  | ErrBlockNotFound
  | ErrNotParagraph
  | ErrNotTable
  | ErrTableRowNotFound
  | ErrTableColumnNotFound
  | ErrInvalidTableShape
  | ErrInvalidTableCell
  | ErrBlocksNotAdjacent
  | ErrInvalidOffset
  | ErrInvalidHeadingLevel
  | ErrInvalidMove
  | ErrMoveCycle
  | ErrStructuredEdit (e : StructuredEditError)
  | ErrNotList
  | ErrListItemNotFound
  | ErrNotCodeFence
  | ErrNotRawBlock
  | ErrRawDigestMismatch
  | ErrFrontmatter (e : FrontmatterError).

Definition validate_table_cell (value : string) : option SessionError :=
  if contains_char [carriage_return; newline] value then Some ErrInvalidTableCell else None.

Definition validate_table_cells (values : list string) : option SessionError :=
  for_each validate_table_cell values.

Fixpoint validate_block_skeleton (kind : BlockKindSkeleton) : option SessionError :=
  match kind with
  | SkParagraph _ | SkRawBlock _ | SkTable => None
  | SkHeading level _ =>
    if ((1 <=? level) && (level <=? 6))%N then None else Some ErrInvalidHeadingLevel
  | SkList style items =>
    match validate_list_style style with
    | Some e => Some (ErrStructuredEdit e)
    | None =>
      for_each (λ item, match item with mkItemSkeleton _ _ _ _ _ _ children =>
        for_each (λ child, match child with
          mkSkeletonInsert _ _ _ (mkSkeleton _ k) => validate_block_skeleton k end) children
        end) items
    end
  | SkCodeFence style info text => ErrStructuredEdit <$> validate_code_fence style info text
  | SkBlockQuote children =>
    for_each (λ child, match child with
      mkSkeletonInsert _ _ _ (mkSkeleton _ k) => validate_block_skeleton k end) children
  end.

(** The frontier an operation was made against, where it records one. *)
Definition envelope_observed_frontier (envelope : Envelope) : option StateVector :=
  match env_body envelope with
  | Doc (RemoveMarkOp _ _ _ _ observed)
  | Doc (SetTableCell _ _ _ _ _ _ observed)
  | Doc (SetTableColumnAlignment _ _ _ _ _ observed)
  | Doc (MoveTableRow _ _ _ _ _ _ _ observed)
  | Doc (MoveTableColumn _ _ _ _ _ _ _ observed)
  | Doc (MoveListItem _ _ _ _ _ _ _ _ observed)
  | Doc (SetListStyle _ _ _ _ observed)
  | Doc (SetListItemTask _ _ _ observed)
  | Doc (SetCodeFence _ _ _ _ _ _ observed)
  | Doc (ConvertTextBlock _ _ _ _ observed)
  | Doc (ReplaceRawBlock _ _ _ _ observed) => Some observed
  | _ => None
  end.

Definition alignment_to_wire (a : ColumnAlignment) : ColumnAlignmentWire :=
  match a with Left => WireLeft | Center => WireCenter | Right => WireRight end.
Definition alignment_from_wire (a : ColumnAlignmentWire) : ColumnAlignment :=
  match a with WireLeft => Left | WireCenter => Center | WireRight => Right end.

Section wire.
Context (sequence_incremental : bool).
(** [str::graphemes(true)]. *)
Context (graphemes : string → list string).

(** ** The counters of an operation *)

Fixpoint max_counter_in_kind (kind : BlockKindSkeleton) (parent : OpId) : N :=
  match kind with
  | SkParagraph text | SkHeading _ text =>
    u64_saturating_add (counter parent) (N.of_nat (grapheme_count graphemes text))
  | SkBlockQuote children =>
    fold_left (λ hi child, match child with mkSkeletonInsert _ id _ (mkSkeleton _ k) =>
      N.max (N.max hi (counter id)) (max_counter_in_kind k id) end) children (counter parent)
  | SkList _ items =>
    fold_left (λ hi item, match item with mkItemSkeleton _ id _ _ _ task_op children =>
      fold_left (λ hi child, match child with mkSkeletonInsert _ id _ (mkSkeleton _ k) =>
        N.max (N.max hi (counter id)) (max_counter_in_kind k id) end) children
        (N.max (N.max hi (counter id)) (counter task_op)) end) items (counter parent)
  | SkCodeFence _ _ _ | SkRawBlock _ | SkTable => counter parent
  end.

(** [hi.saturating_sub(lo).saturating_add(1)]. *)
Definition span_between (lo hi : N) : N := u64_saturating_add (u64_saturating_sub hi lo) 1.

(** The id of the operations that cover one counter. *)
Definition single_id (op : DocOp) : option OpId :=
  match op with
  | DeleteBlock _ _ id | DeleteBlockById _ _ _ id
  | DeleteText _ _ id _
  | SetMark _ _ id _ _ _ _ | RemoveMarkOp _ _ _ id _
  | SetFrontmatterField id _ _ | InitializeFrontmatter id _
  | SplitBlock _ _ id _ _ _ _
  | InsertTableRow _ _ _ id _ _ | InsertTableColumn _ _ _ id _ _ _
  | SetTableCell _ _ _ _ id _ _
  | DeleteTableRow _ _ _ id | DeleteTableRowById _ _ _ _ id
  | DeleteTableColumnById _ _ _ _ id
  | SetTableColumnAlignment _ _ _ id _ _
  | MoveTableRow _ _ _ _ id _ _ _ | MoveTableColumn _ _ _ _ id _ _ _
  | InsertListItem _ _ _ id _ _ | DeleteListItemById _ _ _ _ id
  | MoveListItem _ _ _ _ _ id _ _ _
  | SetListStyle _ _ id _ _ | SetListItemTask _ id _ _ | SetCodeFence _ _ id _ _ _ _
  | ConvertTextBlock _ _ id _ _ | ReplaceRawBlock _ _ id _ _ => Some id
  | InsertBlock _ _ _ _ _ | InsertText _ _ _ | MoveBlocks _ _ _ | MergeBlocks _ _ _ _ _ _ _ => None
  end.

(** [iter().min()] of counters. *)
Definition min_counter (l : list N) : option N :=
  match l with [] => None | c :: l => Some (fold_left N.min l c) end.

Definition operation_extent (env : Envelope) : OpId * N :=
  match env_body env with
  | Doc (InsertBlock _ _ id _ block) =>
    let hi := max_counter_in_kind (sk_kind block) id in
    (mkOpId hi (peer id), span_between (counter id) hi)
  | Doc (InsertText _ _ units) =>
    match units with
    | [] => (mkOpId 0 0, 1%N)
    | first :: _ =>
      let hi := fold_left (λ hi u, N.max hi (counter (uw_id u))) units (counter (uw_id first)) in
      let lo := fold_left (λ lo u, N.min lo (counter (uw_id u))) units (counter (uw_id first)) in
      (mkOpId hi (peer (uw_id first)), span_between lo hi)
    end
  | Doc (MoveBlocks _ id blocks) =>
    let lo := default (counter id) (min_counter ((λ b, counter (mb_id b)) <$> blocks)) in
    (id, span_between lo (counter id))
  | Doc (MergeBlocks _ _ _ id _ _ units) =>
    let hi := fold_left (λ hi u, N.max hi (counter (mu_id u)))
                (filter (λ u, mu_id u ≠ mu_source_id u ∧ peer (mu_id u) = peer id) units)
                (counter id) in
    (mkOpId hi (peer id), span_between (counter id) hi)
  | Doc op => (default (mkOpId 0 0) (single_id op), 1%N)
  end.

Definition check_operation_id_is_max (op : Operation) (env : Envelope) : option SessionError :=
  if decide (sop_id op ≠ (operation_extent env).1) then Some ErrOperationIdMismatch else None.

(** ** The peers of an operation *)

Definition peer_is (p : PeerId) (id : OpId) : option SessionError :=
  if decide (peer id ≠ p) then Some ErrPeerMismatch else None.

Fixpoint check_kind_peers (p : PeerId) (kind : BlockKindSkeleton) : option SessionError :=
  let child_peers := λ child, match child with mkSkeletonInsert _ id _ (mkSkeleton _ k) =>
    match peer_is p id with Some e => Some e | None => check_kind_peers p k end end in
  match kind with
  | SkBlockQuote children => for_each child_peers children
  | SkList _ items =>
    for_each (λ item, match item with mkItemSkeleton _ id _ _ _ task_op children =>
      if decide (peer id ≠ p ∨ peer task_op ≠ p) then Some ErrPeerMismatch
      else for_each child_peers children end) items
  | _ => None
  end.

Definition check_peer_consistency (op : Operation) (env : Envelope) : option SessionError :=
  let p := peer (sop_id op) in
  match env_body env with
  | Doc (InsertBlock _ _ id _ block) =>
    match peer_is p id with Some e => Some e | None => check_kind_peers p (sk_kind block) end
  | Doc (InsertText _ _ units) => for_each (λ u, peer_is p (uw_id u)) units
  | Doc (MoveBlocks _ id blocks) =>
    if decide (peer id ≠ p ∨ Exists (λ b, peer (mb_id b) ≠ p) blocks)
    then Some ErrPeerMismatch else None
  | Doc (SplitBlock _ _ _ _ _ _ _) => None
  | Doc (MergeBlocks _ _ _ _ _ _ units) =>
    if decide (Exists (λ u, mu_id u ≠ mu_source_id u ∧ peer (mu_id u) ≠ p) units)
    then Some ErrPeerMismatch else None
  | Doc op => match single_id op with Some id => peer_is p id | None => None end
  end.

(** ** Blocks to skeletons *)

(** The loop over [iter_all] that keeps the visible elements; the first error
    ends it. *)
Definition try_elements {T B E} (f : Element T → T → E + B) : list (Element T) → E + list B :=
  fix go l := match l with
    | [] => inr []
    | e :: l =>
      match elem_value e with
      | None => go l
      | Some v => match f e v with
                  | inl err => inl err
                  | inr b => match go l with inl err => inl err | inr bs => inr (b :: bs) end
                  end
      end
    end.

Definition wire_text (unit_mode : bool) (text : Sequence TextUnit) : string :=
  if unit_mode then EmptyString else paragraph_visible_string text.

Fixpoint block_kind_to_skeleton (unit_mode : bool) (kind : BlockKind) :
    SessionError + BlockKindSkeleton :=
  let child_to_wire := λ (ce : Element Block) child,
    match child with mkBlock id _ _ _ k _ =>
      match block_kind_to_skeleton unit_mode k with
      | inl e => inl e
      | inr k => inr (mkSkeletonInsert (elem_after ce) (elem_id ce) (elem_right_origin ce)
                        (mkSkeleton id k))
      end
    end in
  match kind with
  | Paragraph text => inr (SkParagraph (wire_text unit_mode text))
  | Heading level text => inr (SkHeading level (wire_text unit_mode text))
  | ListBlock style items _ =>
    match try_elements (λ (e : Element ListItem) item,
      match item with mkItem id _ task task_op _ _ children =>
        match try_elements child_to_wire (seq_elements children) with
        | inl err => inl err
        | inr children => inr (mkItemSkeleton (elem_after e) (elem_id e) (elem_right_origin e)
                                 id task task_op children)
        end
      end) (seq_elements items) with
    | inl e => inl e
    | inr items => inr (SkList style items)
    end
  | CodeFence style info text => inr (SkCodeFence style info text)
  | RawBlock raw => inr (SkRawBlock raw)
  | BlockQuote children =>
    match try_elements child_to_wire (seq_elements children) with
    | inl e => inl e
    | inr children => inr (SkBlockQuote children)
    end
  | TableBlock table =>
    if decide (sequence_iter (rows table) ≠ [] ∨ sequence_iter (columns table) ≠ [])
    then inl ErrNonEmptyTableOnInsertBlock else inr SkTable
  end.

(** ** Skeletons to blocks *)

Definition text_from_skeleton (text : string) (parent_elem : OpId) : Sequence TextUnit :=
  (units_from_str graphemes text (u64_saturating_add (counter parent_elem) 1)
     (peer parent_elem)).1.

Fixpoint kind_from_skeleton (kind : BlockKindSkeleton) (parent_elem : OpId) : BlockKind :=
  let add_child := λ (s : Sequence Block) child,
    match child with mkSkeletonInsert after id right_origin (mkSkeleton block_id k) =>
      apply sequence_incremental
        (Insert after id
           (mkBlock block_id id id StateVectorOps.new (kind_from_skeleton k id) markset_new)
           right_origin) s
    end in
  match kind with
  | SkParagraph text => Paragraph (text_from_skeleton text parent_elem)
  | SkHeading level text => Heading level (text_from_skeleton text parent_elem)
  | SkList style items =>
    ListBlock style
      (fold_left (λ (s : Sequence ListItem) item,
         match item with mkItemSkeleton after id right_origin block_id task task_op children =>
           apply sequence_incremental
             (Insert after id
                (mkItem block_id id task task_op StateVectorOps.new StateVectorOps.new
                   (fold_left add_child children sequence_new))
                right_origin) s
         end) items sequence_new) []
  | SkCodeFence style info text => CodeFence style info text
  | SkRawBlock raw => RawBlock raw
  | SkBlockQuote children => BlockQuote (fold_left add_child children sequence_new)
  | SkTable => TableBlock (table_new (block_id_from_op parent_elem) parent_elem parent_elem)
  end.

Definition block_from_skeleton (skel : BlockSkeleton) (elem_id : OpId) : Block :=
  match skel with
  | mkSkeleton block_id kind =>
    mkBlock block_id elem_id elem_id StateVectorOps.new (kind_from_skeleton kind elem_id) markset_new
  end.

(** ** Applying an envelope *)

Definition current_block_elem (block_id : BlockId) (fallback : OpId) (d : Document) :
    Document * OpId :=
  let '(d, e) := block_elem_id block_id d in (d, default fallback e).

(** Look the block up by its logical id, then edit it in place. *)
Definition edit_current (block_id : BlockId) (fallback : OpId) (f : Block → Block) (d : Document) :
    Document :=
  let '(d, e) := current_block_elem block_id fallback d in
  (with_block_mut e (λ b, (f b, tt)) d).1.

(** The closures that edit the text, the marks or the table of a block. *)
Definition edit_body (f : Sequence TextUnit → Sequence TextUnit) (b : Block) : Block :=
  set_kind (block_text_seq_mut (λ s, (f s, tt)) (blk_kind b)).1 b.
Definition edit_marks (f : MarkSet → MarkSet) (b : Block) : Block := set_marks (f (blk_marks b)) b.
Definition edit_table (f : Table → Table) (b : Block) : Block :=
  match blk_kind b with TableBlock t => set_kind (TableBlock (f t)) b | _ => b end.

Definition apply_unit (s : Sequence TextUnit) (u : TextUnitWire) : Sequence TextUnit :=
  apply sequence_incremental
    (Insert (uw_after u) (uw_id u) (mkUnit (uw_grapheme u)) (uw_right_origin u)) s.

Definition apply_delete_by_id (parent : option OpId) (target : OpId) (block_id : BlockId)
    (id : OpId) (d : Document) : Document :=
  match find_block_by_id block_id d with
  | (d, Some block) =>
    let '(d, p) := block_parent block_id d in
    (delete_block_at sequence_incremental (mjoin p) (blk_elem block) id d).1
  | (d, None) => (delete_block_at sequence_incremental parent target id d).1
  end.

(** The closure of a split on the left block: take the suffix out, and return
    the marks the block had. *)
Definition split_off (id : OpId) (units : list MovedTextUnitWire) (b : Block) : Block * MarkSet :=
  (edit_body (λ s, fold_left (λ s u,
     apply sequence_incremental (Delete (mu_source_id u) id) s) units s) b, blk_marks b).

Definition text_kind (kind : TextBlockKindWire) (body : Sequence TextUnit) : BlockKind :=
  match kind with WireParagraph => Paragraph body | WireHeading level => Heading level body end.

Definition apply_split (parent : option OpId) (target id : OpId) (new_block_id : BlockId)
    (right_origin : option OpId) (kind : TextBlockKindWire) (units : list MovedTextUnitWire)
    (d : Document) : Document :=
  match with_block_mut target (split_off id units) d with
  | (d, None) => d
  | (d, Some marks) =>
    let body := from_ordered ((λ u, (mu_id u, mkUnit (mu_grapheme u))) <$> units) in
    (insert_block_at sequence_incremental parent (Some target) id
       (mkBlock new_block_id id id StateVectorOps.new (text_kind kind body) marks)
       right_origin d).1
  end.

(** The loop of a merge: the units are chained behind [after]; only the first
    has a right origin. *)
Definition chain_units (after right_origin : option OpId) (units : list MovedTextUnitWire)
    (s : Sequence TextUnit) : Sequence TextUnit :=
  (fold_left (λ '(s, anchor, ro) u,
     (apply sequence_incremental (Insert anchor (mu_id u) (mkUnit (mu_grapheme u)) ro) s,
      Some (mu_id u), None)) units (s, after, right_origin)).1.1.

Definition apply_merge (parent : option OpId) (left right id : OpId)
    (after right_origin : option OpId) (units : list MovedTextUnitWire) (d : Document) :
    Document :=
  let '(d, right_block) := find_block right d in
  let right_marks := blk_marks <$> right_block in
  let d := (with_block_mut left (λ b,
    let b := edit_body (chain_units after right_origin units) b in
    (match right_marks with Some m => edit_marks (merge_from m) b | None => b end, tt)) d).1 in
  (delete_block_at sequence_incremental parent right id d).1.

Definition apply_table_row (after : option OpId) (id : OpId) (right_origin : option OpId)
    (cells : list TableCellWire) (t : Table) : Table :=
  let row := block_id_from_op id in
  let t := set_rows (apply sequence_incremental
    (Insert after id (mkRow row id (Lww.new false id) StateVectorOps.new) right_origin)) t in
  resolve_pending_row_moves sequence_incremental row
    (fold_left (λ t c, set_cell row (cw_column_id c) (cw_value c) id t) cells t).

Definition apply_table_column (after : option OpId) (id : OpId) (right_origin : option OpId)
    (alignment : ColumnAlignmentWire) (header : string) (t : Table) : Table :=
  let column := block_id_from_op id in
  let t := set_columns (apply sequence_incremental
    (Insert after id
       (mkColumn column id (Lww.new false id) (Lww.new (alignment_from_wire alignment) id)
          StateVectorOps.new StateVectorOps.new) right_origin)) t in
  resolve_pending_column_ops sequence_incremental column
    (set_cell (header_row_id t) column header id t).

(** The branches for tables: the table and the edit of it. *)
Definition table_edit (op : DocOp) : option (BlockId * OpId * (Table → Table)) :=
  match op with
  | InsertTableRow elem tid after id ro cells => Some (tid, elem, apply_table_row after id ro cells)
  | InsertTableColumn elem tid after id ro al header =>
    Some (tid, elem, apply_table_column after id ro al header)
  | SetTableCell elem tid row column id value observed =>
    Some (tid, elem, set_cell_observed row column value id observed)
  | DeleteTableRow elem tid target id => Some (tid, elem, remove_row sequence_incremental target id)
  | DeleteTableRowById elem tid target row id =>
    Some (tid, elem, λ t,
      remove_row sequence_incremental
        (match row_by_id t row with Some r => row_elem_id r | None => target end) id t)
  | DeleteTableColumnById elem tid target column id =>
    Some (tid, elem, λ t,
      set_columns (sequence_delete sequence_incremental
        (match column_by_id t column with Some c => column_elem_id c | None => target end) id) t)
  | SetTableColumnAlignment elem tid column id al observed =>
    Some (tid, elem, set_column_alignment_observed column (alignment_from_wire al) id observed)
  | MoveTableRow elem tid row target id after ro observed =>
    Some (tid, elem, λ t,
      (move_row sequence_incremental (mkTableMove row target id after ro observed) t).1)
  | MoveTableColumn elem tid column target id after ro observed =>
    Some (tid, elem, λ t,
      (move_column sequence_incremental (mkTableMove column target id after ro observed) t).1)
  | _ => None
  end.

(** The branches for lists and for the metadata of blocks. *)
Definition apply_metadata (op : DocOp) (d : Document) : Document :=
  match op with
  | InsertListItem elem lid after id ro task =>
    let '(d, e) := current_block_elem lid elem d in
    (insert_list_item_at sequence_incremental e after id ro task d).1
  | DeleteListItemById elem _ target item id =>
    (delete_list_item_at sequence_incremental elem item target id d).1
  | MoveListItem from to lid item target id after ro observed =>
    let '(d, e) := current_block_elem lid to d in
    (move_list_item_at sequence_incremental
       (mkItemMove from e lid item target id after ro observed) d).1
  | SetListStyle elem bid id style observed =>
    let '(d, e) := current_block_elem bid elem d in (set_list_style e style id observed d).1
  | SetListItemTask item id task observed => (set_list_item_task item task id observed d).1
  | SetCodeFence elem bid id style info text observed =>
    let '(d, e) := current_block_elem bid elem d in
    (set_code_fence e style info text id observed d).1
  | ConvertTextBlock elem bid id kind observed =>
    let '(d, e) := current_block_elem bid elem d in (convert_text_block e kind id observed d).1
  | ReplaceRawBlock elem bid id raw observed =>
    let '(d, e) := current_block_elem bid elem d in (replace_raw_block e raw id observed d).1
  | _ => d
  end.

Definition apply_doc_op (op : DocOp) (d : Document) : Document :=
  match op with
  | InsertBlock parent after id right_origin block =>
    (insert_block_at sequence_incremental parent after id (block_from_skeleton block id)
       right_origin d).1
  | DeleteBlock parent target id => (delete_block_at sequence_incremental parent target id d).1
  | DeleteBlockById parent target bid id => apply_delete_by_id parent target bid id d
  | InsertText elem bid units =>
    edit_current bid elem (edit_body (λ s, fold_left apply_unit units s)) d
  | DeleteText elem bid id targets =>
    edit_current bid elem (edit_body (λ s, fold_left (λ s t,
      apply sequence_incremental (Delete t id) s) targets s)) d
  | SetMark elem bid id kind start stop attrs =>
    edit_current bid elem (edit_marks (set_mark id kind start stop attrs id)) d
  | RemoveMarkOp elem bid interval id observed =>
    edit_current bid elem (edit_marks (remove_mark interval observed id)) d
  | SetFrontmatterField id key value => (set_frontmatter_field key value id d).1
  | InitializeFrontmatter _ fm =>
    match doc_frontmatter d with None => set_frontmatter (Some fm) d | Some _ => d end
  | MoveBlocks to_parent id blocks => (move_blocks_at sequence_incremental to_parent blocks id d).1
  | SplitBlock parent target id nid ro kind units => apply_split parent target id nid ro kind units d
  | MergeBlocks parent l r id after ro units =>
    apply_merge parent l r id after ro units d
  | _ => match table_edit op with
         | Some (tid, elem, f) => edit_current tid elem (edit_table f) d
         | None => apply_metadata op d
         end
  end.

Definition apply_envelope_to_document (envelope : Envelope) (d : Document) : Document :=
  match env_body envelope with Doc op => apply_doc_op op d end.
End wire.
