(* ===== verification/TreeInv.v ===== *)
(** * The type of documents

    A block tree is typed when every sequence in it (text, children, items,
    rows, columns, down to the blocks that wait in a buffer for their anchor)
    satisfies the invariant of the replicated sequence.  Applying an operation
    keeps a document typed. *)

From S2P Require Import Prelude Core Sequence SequenceOrder SequenceInv SequenceRefine SequenceConv.
From S2P Require Import SequenceView SequenceProps Mark MarkOps Table TableProps Frontmatter Codec.
From S2P Require Import Text Block Document DocumentCache DocumentTree Sync Draft SessionWire.

(** ** The values of a sequence *)

Section values.
Context {T : Type}.
Implicit Types (s : Sequence T) (r : Rga T) (v : T) (op : SequenceOp T).

Definition op_value op : option T :=
  match op with Insert _ _ v _ => Some v | Delete _ _ => None end.

(** [v] is the value of an element, or of an operation that waits. *)
Definition waits op r : Prop :=
  ∃ k l, (rga_inserts r !! k = Some l ∨ rga_deletes r !! k = Some l) ∧ op ∈ l.
Definition rga_holds v r : Prop :=
  (∃ id e, rga_map r !! id = Some e ∧ elem_value e = Some v) ∨
  (∃ op, waits op r ∧ op_value op = Some v).
Definition holds v s : Prop := rga_holds v (rga_of s).

Lemma waits_buffer op op' r : waits op (rga_buffer op' r) → waits op r ∨ op = op'.
Proof.
  assert (Hpush : ∀ k (m : gmap OpId (list (SequenceOp T))) k' l,
    btree_push k op' m !! k' = Some l → op ∈ l → (∃ l, m !! k' = Some l ∧ op ∈ l) ∨ op = op').
  { intros k m k' l. unfold btree_push. rewrite lookup_insert_Some.
    intros [[<- <-]|[_ Hm]] Hin; [|by eauto].
    apply elem_of_app in Hin as [Hin|Hin]; [|set_solver].
    destruct (m !! k) as [l|]; simpl in Hin; [by eauto|set_solver]. }
  destruct op' as [[a|] id v ro|t i]; simpl; [..|]; intros (k & l & H & Hin); [|left; by exists k, l|].
  - simpl in H. destruct H as [H|H]; [|left; exists k, l; auto].
    destruct (Hpush _ _ _ _ H Hin) as [(l' & ? & ?)|?]; [left; exists k, l'; auto|auto].
  - simpl in H. destruct H as [H|H]; [left; exists k, l; auto|].
    destruct (Hpush _ _ _ _ H Hin) as [(l' & ? & ?)|?]; [left; exists k, l'; auto|auto].
Qed.

Lemma waits_take op id r :
  (waits op (rga_take id r).1 → waits op r) ∧ (op ∈ (rga_take id r).2 → waits op r).
Proof.
  split.
  - intros (k & l & H & Hin). simpl in H. rewrite !lookup_delete_Some in H. exists k, l. naive_solver.
  - intros [Hin|Hin]%elem_of_app; simpl in Hin.
    + destruct (rga_inserts r !! id) as [l|] eqn:E; [exists id, l; auto|set_solver].
    + destruct (rga_deletes r !! id) as [l|] eqn:E; [exists id, l; auto|set_solver].
Qed.

Lemma effect_holds v op r r' :
  rga_holds v (mkRga (rga_effect op (rga_map r)) (rga_inserts r') (rga_deletes r')) →
  (∀ op, waits op r' → waits op r) → rga_holds v r ∨ op_value op = Some v.
Proof.
  intros [(id & e & He & Hv)|(op' & Hw & Hv)] Hsub; [|left; right; exists op'; split; [by apply Hsub|done]].
  simpl in He. destruct op as [after k w ro|t i]; simpl in *.
  - unfold rga_add in He. destruct (rga_map r !! k) eqn:E; [left; left; eauto|].
    apply lookup_insert_Some in He as [[<- <-]|[_ He]]; [by right|left; left; eauto].
  - unfold tombstone in He. rewrite lookup_alter in He. case_decide; [|left; left; eauto].
    subst t. destruct (rga_map r !! id) as [e0|]; [|done]. injection He as <-. done.
Qed.

Lemma step_holds v op r q :
  (rga_holds v (rga_step op r q).1 → rga_holds v r ∨ op_value op = Some v) ∧
  (∀ op', op' ∈ (rga_step op r q).2 → op' ∈ q ∨ waits op' r).
Proof.
  unfold rga_step. destruct (rga_ready op (rga_map r)).
  - destruct op as [after id w ro|t i]; simpl.
    + split; [|intros op' Hin; apply elem_of_app in Hin as [?|Hin]; [by left|]].
      * intros H. eapply (effect_holds v (Insert after id w ro) r (rga_take id r).1); [exact H|]. intros o. apply (proj1 (waits_take o id r)).
      * right. exact (proj2 (waits_take op' id r) Hin).
    + split; [|auto]. intros H. by apply (effect_holds v (Delete t i) r r).
  - simpl. split; [|auto]. intros [(id & e & He & Hv)|(op' & Hw & Hv)].
    + left. left. exists id, e. split; [|done]. by destruct op as [[] ? ? ?|].
    + apply waits_buffer in Hw as [Hw|<-]; [left; right; eauto|by right].
Qed.

Lemma step_waits op op' r q : waits op' (rga_step op r q).1 → waits op' r ∨ op' = op.
Proof.
  unfold rga_step. destruct (rga_ready op (rga_map r)); [|apply waits_buffer].
  destruct op as [after id w ro|t i]; simpl; [|by left]. intros H. left. by apply (proj1 (waits_take op' id r)).
Qed.

Lemma drain_holds v fuel r q r' :
  rga_drain fuel r q = Some r' → rga_holds v r' → rga_holds v r ∨ ∃ op, op ∈ q ∧ op_value op = Some v.
Proof.
  revert r q. induction fuel as [|fuel IH]; intros r [|op q]; simpl; try (by intros [= <-]; auto).
  destruct (step_holds v op r q) as [Hh Hq]. destruct (rga_step op r q) as [r1 q1]. simpl in *.
  intros Hd Hv. destruct (IH _ _ Hd Hv) as [H1|(op' & Hin & Hv')].
  - destruct (Hh H1) as [?|?]; [by left|right; exists op; set_solver].
  - destruct (Hq _ Hin) as [?|Hw]; [right; exists op'; set_solver|left; right; eauto].
Qed.

Lemma apply_holds inc v op s :
  sequence_inv s → holds v (apply inc op s) → holds v s ∨ op_value op = Some v.
Proof.
  intros Hs. unfold holds. rewrite (proj2 (apply_spec inc op s Hs)). unfold rga_apply.
  destruct (step_holds v op (rga_of s) []) as [Hh Hq].
  destruct (rga_step op (rga_of s) []) as [r1 q1]. cbn [fst snd] in *.
  destruct (rga_drain (rga_fuel (rga_of s)) r1 q1) as [r2|] eqn:E; simpl; [|exact Hh]. intros Hv.
  destruct (drain_holds _ _ _ _ _ E Hv) as [H1|(op' & Hin & Hv')]; [by apply Hh|].
  destruct (Hq _ Hin) as [?|Hw]; [set_solver|left; right; eauto].
Qed.
End values.

(** ** Sequences of typed values *)

(** The invariant, and [P] for every value, waiting ones included. *)
Record seq_of {T} (P : T → Prop) (s : Sequence T) : Prop := {
  of_inv : sequence_inv s;
  of_holds v : holds v s → P v;
}.

Create HintDb typed.

Section seq_of.
Context {T : Type} (P : T → Prop).
Implicit Types s : Sequence T.

Lemma of_apply inc op s :
  seq_of P s → (∀ v, op_value op = Some v → P v) → seq_of P (apply inc op s).
Proof.
  intros [Hs Hv] Hop. split; [by apply apply_spec|]. intros v H. apply apply_holds in H as [?|?]; auto.
Qed.
Lemma of_insert inc a id v ro s : seq_of P s → P v → seq_of P (apply inc (Insert a id v ro) s).
Proof. intros Hs Hv. apply of_apply; [done|]. by intros ? [= <-]. Qed.
Lemma of_delete inc t id s : seq_of P s → seq_of P (apply inc (Delete t id) s).
Proof. intros Hs. by apply of_apply. Qed.

Lemma of_new : seq_of P sequence_new.
Proof.
  split; [apply sequence_new_inv|]. intros v [(? & ? & H & _)|(? & (? & ? & [H|H] & _) & _)];
    exfalso; exact (lookup_empty_Some _ _ H).
Qed.

Lemma of_get s id v : seq_of P s → get_element s id ≫= elem_value = Some v → P v.
Proof.
  intros [Hs Hv]. rewrite get_element_emap by done. destruct (emap s !! id) as [e|] eqn:E; [|done]. simpl.
  intros H. apply Hv. left. eauto.
Qed.
Lemma of_at s id v : seq_of P s → value_at s id = Some v → P v.
Proof. rewrite value_at_get. apply of_get. Qed.
Lemma of_elem s e v : seq_of P s → e ∈ seq_elements s → elem_value e = Some v → P v.
Proof. intros [Hs Hv] He ?. apply Hv. left. exists (elem_id e), e. split; [|done]. by apply emap_elem_of. Qed.
Lemma of_iter s v : seq_of P s → v ∈ sequence_iter s → P v.
Proof. intros Hs (e & He & Hv)%elem_of_sequence_iter. by eapply of_elem. Qed.

(** Rewriting one value. *)
Lemma of_set s id i v :
  seq_of P s → seq_index s !! id = Some i → (∀ w, v = Some w → P w) →
  seq_of P (with_elements (alter (set_value v) i) s).
Proof.
  intros [Hs Hv] Hi Hw. destruct (view_set_value s id i v Hs Hi) as (Hs' & Hb & eu & e & ev & _ & E & E').
  split; [done|]. intros w [(k & e' & He & Hval)|(op & Hwait & Hval)].
  - apply emap_elem_of in He as [He _]; [|done]. rewrite E' in He.
    apply elem_of_app in He as [He|[He|He]%elem_of_cons].
    + apply (of_elem s e' w); [by split|rewrite E; set_solver|done].
    + subst e'. by apply Hw.
    + apply (of_elem s e' w); [by split|rewrite E; set_solver|done].
  - apply Hv. right. exists op. split; [|done]. destruct Hwait as (k & l & Hl & Hin). exists k, l.
    simpl in *. done.
Qed.

Lemma of_with_value {R} id (f : T → T * R) s :
  seq_of P s → (∀ v, P v → P (f v).1) → seq_of P (with_value_mut id f s).1.
Proof.
  intros Hs Hf. pose proof (of_get s id) as Hg. unfold get_element in Hg. unfold with_value_mut.
  destruct (seq_index s !! id) as [i|] eqn:Hi; [|done]. simpl in Hg.
  destruct (seq_elements s !! i ≫= elem_value) as [v|] eqn:Hv; [|done].
  specialize (Hf v (Hg v Hs eq_refl)). destruct (f v) as [v' r]. simpl in *.
  eapply of_set; [done..|]. by intros ? [= <-].
Qed.
Lemma of_update id v s : seq_of P s → P v → seq_of P (update_value id v s).
Proof.
  intros Hs Hv. unfold update_value. destruct (seq_index s !! id) eqn:Hi; [|done].
  eapply of_set; [done..|]. by intros ? [= <-].
Qed.
Lemma of_set_at id v s : seq_of P s → P v → seq_of P (set_value_at id v s).
Proof. intros Hs Hv. apply of_with_value; [done|]. by intros. Qed.

Lemma of_fold {A} (f : Sequence T → A → Sequence T) l s :
  (∀ x s, x ∈ l → seq_of P s → seq_of P (f s x)) → seq_of P s → seq_of P (fold_left f l s).
Proof.
  revert s. induction l as [|x l IH]; intros s Hf Hs; simpl; [done|].
  apply IH; [intros; apply Hf; [by right|done]|]. apply Hf; [by left|done].
Qed.

Lemma of_sub s (Q : T → Prop) : seq_of P s → (∀ v, P v → Q v) → seq_of Q s.
Proof. intros [Hs Hv] H. split; [done|]. auto. Qed.
End seq_of.

(** For plain values the invariant is enough. *)
Lemma of_plain {T} (s : Sequence T) : seq_of (λ _, True) s ↔ sequence_inv s.
Proof. split; [by intros []|by split]. Qed.

(** ** Typed blocks *)

Definition table_wf (t : Table) : Prop := sequence_inv (columns t) ∧ sequence_inv (rows t).

Inductive block_wf : Block → Prop :=
  | bw_text b text : block_text_seq (blk_kind b) = Some text → sequence_inv text → block_wf b
  | bw_code b style info text : blk_kind b = CodeFence style info text → block_wf b
  | bw_raw b raw : blk_kind b = RawBlock raw → block_wf b
  | bw_table b t : blk_kind b = TableBlock t → table_wf t → block_wf b
  | bw_quote b children :
      blk_kind b = BlockQuote children → sequence_inv children →
      (∀ c, holds c children → block_wf c) → block_wf b
  | bw_list b style items moves :
      blk_kind b = ListBlock style items moves → sequence_inv items →
      (∀ i, holds i items → sequence_inv (it_children i)) →
      (∀ i c, holds i items → holds c (it_children i) → block_wf c) → block_wf b.

Definition item_wf (i : ListItem) : Prop := seq_of block_wf (it_children i).

Definition kind_wf (k : BlockKind) : Prop :=
  match k with
  | Paragraph text | Heading _ text => sequence_inv text
  | ListBlock _ items _ => seq_of item_wf items
  | BlockQuote children => seq_of block_wf children
  | TableBlock t => table_wf t
  | CodeFence _ _ _ | RawBlock _ => True
  end.

Lemma block_wf_kind b : block_wf b ↔ kind_wf (blk_kind b).
Proof.
  split.
  - destruct 1 as [b text Hk Hs|b ? ? ? Hk|b ? Hk|b t Hk Ht|b ch Hk Hs Hc|b st items mv Hk Hs Hi Hc].
    1: destruct (blk_kind b); simplify_eq/=; done.
    all: rewrite Hk; try done.
    split; [done|]. intros i H. split; [by apply Hi|]. intros c. by apply Hc.
  - destruct (blk_kind b) eqn:Hk; simpl; intros H.
    + by eapply bw_text; [by rewrite Hk|].
    + by eapply bw_text; [by rewrite Hk|].
    + destruct H as [Hs H]. by eapply bw_list; [done..| |]; intros; eapply H.
    + by eapply bw_code.
    + destruct H as [Hs H]. by eapply bw_quote.
    + by eapply bw_raw.
    + by eapply bw_table.
Qed.

Definition document_wf (d : Document) : Prop := seq_of block_wf (doc_blocks d).

(** ** Reading *)

Lemma sequence_at_wf s c s' : seq_of block_wf s → sequence_at s c = Some s' → seq_of block_wf s'.
Proof.
  revert s. induction c as [|[q|l i] c IH]; intros s Hs; simpl; [by intros [= <-]|..].
  - destruct (get_element s q ≫= elem_value) as [b|] eqn:E; [|done].
    apply (of_get block_wf) in E; [|done]. apply block_wf_kind in E. destruct (blk_kind b); try done. by apply IH.
  - destruct (get_element s l ≫= elem_value) as [b|] eqn:E; [|done].
    apply (of_get block_wf) in E; [|done]. apply block_wf_kind in E. destruct (blk_kind b) as [| |? items ?| | | |]; try done.
    destruct (get_element items i ≫= elem_value) as [it|] eqn:E'; [|done].
    apply (of_get item_wf) in E'; [|done]. by apply IH.
Qed.

Lemma block_at_path_wf s p b : seq_of block_wf s → block_at_path s p = Some b → block_wf b.
Proof.
  intros Hs. unfold block_at_path. destruct (sequence_at _ _) as [s'|] eqn:E; [|done].
  apply of_get. by eapply sequence_at_wf.
Qed.

Lemma find_map_elem {T B} (f : T → option B) (s : Sequence T) r :
  iter_find_map f s = Some r → ∃ v, v ∈ sequence_iter s ∧ f v = Some r.
Proof.
  intros (e & He & H)%find_map_Some. destruct (elem_value e) as [v|] eqn:E; [|done].
  exists v. split; [|done]. apply elem_of_sequence_iter. eauto.
Qed.

Lemma holds_iter {T} (v : T) s : sequence_inv s → v ∈ sequence_iter s → holds v s.
Proof. intros Hs. by apply (of_iter (λ v, holds v s)). Qed.

Lemma find_item_in_wf p b i : block_wf b → find_item_in p b = Some i → item_wf i.
Proof.
  induction 1 as [b text Hk _|b ? ? ? Hk|b ? Hk|b t Hk Ht|b ch Hk Hs _ IH|b st items mv Hk Hs Hi Hc IH];
    destruct b as [id el op obs k mk]; simpl in Hk.
  1: by destruct k.
  1-3: by subst.
  - subst k. intros (c & Hin & E)%find_map_elem. eapply IH; [|done]. by apply holds_iter.
  - subst k. intros (it & Hin & E)%find_map_elem. apply holds_iter in Hin; [|done].
    destruct (p it); [simplify_eq; split; [by apply Hi|by intros c; apply Hc]|].
    pose proof (Hi it Hin). specialize (IH it). destruct it. apply find_map_elem in E as (c & Hin' & E).
    eapply IH; [done| |done]. by apply holds_iter.
Qed.

Lemma find_item_wf p s i : seq_of block_wf s → iter_find_map (find_item_in p) s = Some i → item_wf i.
Proof. intros Hs (b & Hin & E)%find_map_elem. eapply find_item_in_wf; [|done]. by eapply of_iter. Qed.

(** ** Editing along a path *)

Lemma path_mut_wf {R} c e (f : Block → Block * R) s :
  (∀ b, block_wf b → block_wf (f b).1) → seq_of block_wf s → seq_of block_wf (block_at_path_mut c e f s).1.
Proof.
  intros Hf. revert s. induction c as [|[q|l i] c IH]; intros s Hs; simpl; [by apply of_with_value|..].
  - match goal with |- context [with_value_mut q ?g s] => pose proof (of_with_value block_wf q g s Hs) as H;
      destruct (with_value_mut q g s) as [s1 r] end. apply H. clear H. intros b Hb.
    apply block_wf_kind in Hb. destruct (blk_kind b) as [| |? items mv| |ch| |] eqn:Hk; try (simpl; apply block_wf_kind; by rewrite Hk).
    specialize (IH ch Hb). destruct (block_at_path_mut c e f ch). by apply block_wf_kind.
  - match goal with |- context [with_value_mut l ?g s] => pose proof (of_with_value block_wf l g s Hs) as H;
      destruct (with_value_mut l g s) as [s1 r] end. apply H. clear H. intros b Hb.
    apply block_wf_kind in Hb. destruct (blk_kind b) as [| |? items mv| |ch| |] eqn:Hk; try (simpl; apply block_wf_kind; by rewrite Hk).
    match goal with |- context [with_value_mut i ?g items] => pose proof (of_with_value item_wf i g items Hb) as H;
      destruct (with_value_mut i g items) as [items1 r1] end. apply block_wf_kind. apply H. clear H. intros it Hit.
    specialize (IH (it_children it) Hit). by destruct (block_at_path_mut c e f (it_children it)).
Qed.

Lemma set_kind_wf k b : kind_wf k → block_wf (set_kind k b).
Proof. intros Hk. by apply block_wf_kind. Qed.

Section container.
Context (f : Sequence Block → Sequence Block).
Hypothesis Hf : ∀ s, seq_of block_wf s → seq_of block_wf (f s).

Lemma container_here_wf target s e s' :
  seq_of block_wf s → container_here f target s e = Some (Some s') → seq_of block_wf s'.
Proof.
  intros Hs. unfold container_here. destruct (value_at s e) as [b|] eqn:E; [|done].
  apply (of_at block_wf) in E; [|done]. apply block_wf_kind in E. destruct (blk_kind b) as [| |st items mv| |ch| |]; try done.
  - destruct (iter_any _ items); [|done]. intros [= (i & _ & H)%find_map_Some].
    destruct (value_at items i) as [it|] eqn:E'; [|done]. apply (of_at item_wf) in E'; [|done].
    case_decide; [|done]. injection H as <-. apply of_set_at; [done|]. apply set_kind_wf, of_set_at; [done|].
    by apply Hf.
  - case_decide; [|done]. intros [= <-]. apply of_set_at; [done|]. by apply set_kind_wf, Hf.
Qed.

Lemma container_below_wf rec s e s' :
  (∀ c c', seq_of block_wf c → rec c = Some (Some c') → seq_of block_wf c') →
  seq_of block_wf s → container_below rec s e = Some (Some s') → seq_of block_wf s'.
Proof.
  intros Hrec Hs. unfold container_below. destruct (value_at s e) as [b|] eqn:E; [|done].
  apply (of_at block_wf) in E; [|done]. apply block_wf_kind in E. destruct (blk_kind b) as [| |st items mv| |ch| |]; try done.
  - intros (i & _ & H)%find_map_Some. destruct (value_at items i) as [it|] eqn:E'; [|done]. apply (of_at item_wf) in E'; [|done].
    destruct (rec (it_children it)) as [[c|]|] eqn:Er; simplify_eq/=. apply of_set_at; [done|].
    apply set_kind_wf, of_set_at; [done|]. by eapply Hrec.
  - destruct (rec ch) as [[c|]|] eqn:Er; [|done..]. intros [= <-]. apply of_set_at; [done|].
    apply set_kind_wf. by eapply Hrec.
Qed.

Lemma container_walk_wf fuel target s s' :
  seq_of block_wf s → container_walk fuel f target s = Some (Some s') → seq_of block_wf s'.
Proof.
  revert s s'. induction fuel as [|fuel IH]; intros s s' Hs; simpl; [done|].
  destruct (find_map (container_here f target s) (element_ids s)) as [r|] eqn:E.
  - intros [= ->]. apply find_map_Some in E as (e & _ & E). by eapply container_here_wf.
  - intros (e & _ & H)%find_map_Some. eapply container_below_wf; [|done..]. intros c c'. apply IH.
Qed.
End container.

(** ** Typed documents: lookups and edits *)

Lemma wf_same d d' : doc_indexed d' = doc_indexed d → document_wf d → document_wf d'.
Proof. unfold document_wf, doc_blocks. by intros ->. Qed.

Lemma wf_edit f d :
  (∀ s, seq_of block_wf s → seq_of block_wf (f s)) → document_wf d → document_wf (edit_blocks f d).
Proof. intros Hf Hd. by apply Hf. Qed.

Section lookups.
Context {K : Type} `{Countable K} (key : BlockIndex → gmap K BlockPath) (k : K) (ok : Block → bool).

Lemma lookup_wf d b : document_wf d → lookup_block key k ok d = Some b → block_wf b.
Proof.
  intros Hd. unfold lookup_block. intros (c & _ & E)%bind_Some. apply bind_Some in E as (p & _ & E).
  apply bind_Some in E as (b' & Hb & E). destruct (ok b'); [|done]. injection E as <-. by eapply block_at_path_wf.
Qed.

Lemma find_through_wf d d' r :
  find_through key k ok d = (d', r) → document_wf d → document_wf d' ∧ ∀ b, r = Some b → block_wf b.
Proof.
  intros E Hd. pose proof (find_through_same key k ok d) as [Hsame _]. rewrite E in Hsame. simpl in Hsame.
  pose proof (wf_same _ _ Hsame Hd) as Hd'. split; [done|]. unfold find_through in E.
  destruct (lookup_block key k ok (ensure_block_index d)) as [b|] eqn:El; simplify_eq/=.
  - intros ? [= <-]. by eapply lookup_wf.
  - intros b Hb. by eapply lookup_wf.
Qed.
End lookups.

Lemma find_wf e d d' r :
  find_block e d = (d', r) → document_wf d → document_wf d' ∧ ∀ b, r = Some b → block_wf b.
Proof. apply find_through_wf. Qed.
Lemma find_id_wf e d d' r :
  find_block_by_id e d = (d', r) → document_wf d → document_wf d' ∧ ∀ b, r = Some b → block_wf b.
Proof. apply find_through_wf. Qed.
Lemma block_elem_wf e d d' r : block_elem_id e d = (d', r) → document_wf d → document_wf d'.
Proof.
  unfold block_elem_id. destruct (find_block_by_id e d) as [d1 b] eqn:E. intros [= <- _] Hd.
  by eapply find_id_wf.
Qed.
Lemma parent_wf e d d' r : block_parent e d = (d', r) → document_wf d → document_wf d'.
Proof.
  unfold block_parent, ensure_block_index. intros [= <- _]. repeat case_match; done.
Qed.
Lemma contains_wf e c d d' r : block_contains_container e c d = (d', r) → document_wf d → document_wf d'.
Proof.
  unfold block_contains_container. destruct (find_block_by_id e d) as [d1 b] eqn:E. intros [= <- _] Hd.
  by eapply find_id_wf.
Qed.
Lemma children_wf p d d' r :
  container_children p d = (d', r) → document_wf d → document_wf d' ∧ ∀ c, r = Some c → seq_of block_wf c.
Proof.
  unfold container_children. intros H Hd. destruct p as [p|]; [|simplify_eq; split; [done|]; by intros ? [= <-]].
  destruct (find_block p d) as [d1 b] eqn:E. apply find_wf in E as [Hd1 Hb]; [|done].
  assert (Hitem : ∀ c, it_children <$> find_list_item (doc_blocks d1) p = Some c → seq_of block_wf c).
  { intros c. destruct (find_list_item _ _) as [i|] eqn:Ei; [|done]. intros [= <-]. by apply (find_item_wf _ (doc_blocks d1) i) in Ei. }
  destruct b as [b|]; simpl in H; [|by simplify_eq]. specialize (Hb b eq_refl). apply block_wf_kind in Hb.
  destruct (blk_kind b); simplify_eq; try done. split; [done|]. by intros ? [= <-].
Qed.
Lemma list_element_wf e t d d' r : list_element e t d = (d', r) → document_wf d → document_wf d'.
Proof. unfold list_element. intros H Hd. split_calls H; by eapply find_wf. Qed.

Lemma with_block_wf {R} e (f : Block → Block * R) d d' r :
  (∀ b, block_wf b → block_wf (f b).1) → with_block_mut e f d = (d', r) → document_wf d → document_wf d'.
Proof.
  intros Hf. unfold with_block_mut. destruct (find_block e d) as [d1 [b|]] eqn:E; intros H Hd;
    [|simplify_eq; by eapply find_wf].
  apply find_wf in E as [Hd1 _]; [|done]. destruct (_ ≫= _); [|by simplify_eq].
  match type of H with context [block_at_path_mut ?c ?e f ?s] =>
    pose proof (path_mut_wf c e f s Hf Hd1) as Hs; destruct (block_at_path_mut c e f s) as [s1 r1] end.
  simplify_eq. done.
Qed.

Lemma container_wf c f d :
  (∀ s, seq_of block_wf s → seq_of block_wf (f s)) → document_wf d →
  document_wf (with_container_children_mut c f d).1.
Proof.
  intros Hf Hd. unfold with_container_children_mut.
  destruct (container_walk _ f c (doc_blocks d)) as [[s|]|] eqn:E; simpl; [|done..].
  unfold document_wf. simpl. by eapply container_walk_wf.
Qed.

Section operations.
Context (inc : bool).

Lemma apply_at_wf p op d :
  (∀ v, op_value op = Some v → block_wf v) → document_wf d → document_wf (apply_at inc p op d).1.
Proof.
  intros Hop Hd. destruct p as [p|]; simpl; [|by apply of_apply].
  apply container_wf; [|done]. intros s Hs. by apply of_apply.
Qed.
Lemma insert_block_wf p a i v ro d : block_wf v → document_wf d → document_wf (insert_block_at inc p a i v ro d).1.
Proof. intros Hv Hd. apply apply_at_wf; [|done]. by intros ? [= <-]. Qed.
Lemma delete_block_wf p t i d : document_wf d → document_wf (delete_block_at inc p t i d).1.
Proof. intros Hd. by apply apply_at_wf. Qed.

Lemma with_default_wf {R} e (f : Block → Block * R) x d :
  (∀ b, block_wf b → block_wf (f b).1) → document_wf d →
  document_wf (let '(d, r) := with_block_mut e f d in (d, default x r)).1.
Proof. intros Hf Hd. destruct (with_block_mut e f d) eqn:E. by eapply with_block_wf. Qed.

Lemma edit_items_wf f b :
  (∀ s, seq_of item_wf s → seq_of item_wf (f s).1) → block_wf b → block_wf (edit_items f b).1.
Proof.
  intros Hf Hb. unfold edit_items. apply block_wf_kind in Hb as Hk.
  destruct (blk_kind b) as [| |st items mv| | | |]; try done. specialize (Hf items Hk).
  destruct (f items). by apply set_kind_wf.
Qed.
Lemma edit_list_wf e f d d' r :
  (∀ s, seq_of item_wf s → seq_of item_wf (f s).1) → edit_list e f d = (d', r) → document_wf d → document_wf d'.
Proof.
  intros Hf H Hd. assert (H' : document_wf (edit_list e f d).1).
  { apply with_default_wf; [|done]. intros b. by apply edit_items_wf. }
  by rewrite H in H'.
Qed.

(** ** Metadata *)

Lemma write_kind_if_wf k id obs b :
  (∀ k0 k1, kind_wf k0 → k k0 = Some k1 → kind_wf k1) → block_wf b → block_wf (write_kind_if k id obs b).1.
Proof.
  intros Hk Hb. unfold write_kind_if. destruct (causal_write_wins _ _ _ _); [|done].
  destruct (k (blk_kind b)) as [k1|] eqn:E; [|done]. apply block_wf_kind. simpl. eapply Hk; [|done].
  by apply block_wf_kind.
Qed.
Lemma set_style_wf e st id obs d : document_wf d → document_wf (set_list_style e st id obs d).1.
Proof.
  apply with_default_wf. intros b. apply write_kind_if_wf. intros [] ? Hk; simpl; intros [= <-]. done.
Qed.
Lemma set_fence_wf e st info text id obs d :
  document_wf d → document_wf (set_code_fence e st info text id obs d).1.
Proof.
  apply with_default_wf. intros b. apply write_kind_if_wf. intros [] ? Hk; simpl; by intros [= <-].
Qed.
Lemma convert_wf e k id obs d : document_wf d → document_wf (convert_text_block e k id obs d).1.
Proof.
  apply with_default_wf. intros b. apply write_kind_if_wf. intros [] ? Hk; simpl; try done; intros [= <-]; by destruct k.
Qed.
Lemma replace_raw_wf e raw id obs d : document_wf d → document_wf (replace_raw_block e raw id obs d).1.
Proof.
  apply with_default_wf. intros b. apply write_kind_if_wf. intros [] ? Hk; simpl; by intros [= <-].
Qed.

(** ** List items *)

Lemma materialise_wf m i s : item_wf i → seq_of item_wf s → seq_of item_wf (materialise_item inc m i s).
Proof. intros Hi Hs. by apply of_delete, of_insert. Qed.

Lemma push_move_wf m b : block_wf b → block_wf (push_pending_move m b).1.
Proof.
  intros Hb. unfold push_pending_move. apply block_wf_kind in Hb as Hk. destruct (blk_kind b); try done.
  by apply set_kind_wf.
Qed.
Lemma new_item_wf id e t op ob pl : item_wf (mkItem id e t op ob pl sequence_new).
Proof. apply of_new. Qed.

Lemma missing_wf m d : document_wf d → document_wf (move_missing_item inc m d).1.
Proof.
  intros Hd. unfold move_missing_item. destruct (list_element _ _ d) as [d1 el] eqn:E.
  apply list_element_wf in E; [|done]. destruct (negb _).
  - apply with_default_wf; [|done]. apply push_move_wf.
  - destruct (edit_list _ _ d1) eqn:E'. eapply edit_list_wf; [|done..]. intros s Hs.
    apply materialise_wf; [apply new_item_wf|done].
Qed.

Lemma move_item_wf m d : document_wf d → document_wf (move_list_item_at inc m d).1.
Proof.
  intros Hd. unfold move_list_item_at. destruct (find_list_item_by_id _ _) as [i|] eqn:Ei; [|by apply missing_wf].
  apply find_item_wf in Ei; [|done]. assert (Hi : item_wf (set_placement (im_observed m) i)) by done.
  cbv zeta. destruct (_ && _).
  - destruct (list_element _ _ d) as [d1 [?|]] eqn:E; apply list_element_wf in E; try done.
    destruct (edit_list _ _ d1) eqn:E'. eapply edit_list_wf; [|done..]. intros s Hs. by apply materialise_wf.
  - destruct (edit_list _ _ d) as [d1 r] eqn:E. eapply edit_list_wf in E; [|..|done].
    2: { intros s Hs. destruct (get_element s _); [by apply of_delete|done]. }
    destruct (negb r); [done|]. destruct (edit_list _ _ d1) eqn:E'. eapply edit_list_wf; [|done..].
    intros s Hs. by apply of_insert.
Qed.

Lemma fold_wf {A} (f : Document → A → Document) l d :
  (∀ x d, x ∈ l → document_wf d → document_wf (f d x)) → document_wf d → document_wf (fold_left f l d).
Proof.
  revert d. induction l as [|x l IH]; intros d Hf Hd; simpl; [done|].
  apply IH; [intros; apply Hf; [by right|done]|]. apply Hf; [by left|done].
Qed.

Lemma take_moves_wf id b : block_wf b → block_wf (take_pending_moves id b).1.
Proof.
  intros Hb. unfold take_pending_moves. apply block_wf_kind in Hb as Hk. destruct (blk_kind b); try done.
  by apply set_kind_wf.
Qed.
Lemma resolve_wf id d : document_wf d → document_wf (resolve_pending_list_item_moves inc id d).
Proof.
  intros Hd. unfold resolve_pending_list_item_moves. destruct (list_containing_item _ _) as [[? e]|]; [|done].
  destruct (with_block_mut e _ d) eqn:E. apply with_block_wf in E; [|apply take_moves_wf|done].
  apply fold_wf; [|done]. intros. by apply move_item_wf.
Qed.

Lemma insert_item_wf e a i ro t d : document_wf d → document_wf (insert_list_item_at inc e a i ro t d).1.
Proof.
  intros Hd. unfold insert_list_item_at. destruct (edit_list _ _ d) as [d1 r] eqn:E.
  eapply edit_list_wf in E; [|..|done]; [|intros s Hs; apply of_insert; [done|apply new_item_wf]].
  destruct r; [by apply resolve_wf|done].
Qed.
Lemma delete_item_wf e i t id d : document_wf d → document_wf (delete_list_item_at inc e i t id d).1.
Proof.
  intros Hd. unfold delete_list_item_at. destruct (match _ with Some _ => _ | None => _ end) as [e' t'].
  destruct (edit_list _ _ d) as [d1 r] eqn:E. eapply edit_list_wf; [|done..]. intros s Hs.
  cbv beta. destruct (get_element s t' ≫= elem_value); [case_decide; [done|]|]; by apply of_delete.
Qed.
Lemma set_task_wf i t id obs d : document_wf d → document_wf (set_list_item_task i t id obs d).1.
Proof.
  intros Hd. unfold set_list_item_task. destruct (list_item_placement _ _) as [[[? e] p]|]; [|done].
  destruct (edit_list _ _ d) as [d1 r] eqn:E. eapply edit_list_wf; [|done..]. intros s Hs.
  cbv beta. match goal with |- context [with_value_mut p ?g s] => pose proof (of_with_value item_wf p g s Hs) as H;
    destruct (with_value_mut p g s) end. apply H. intros it Hit. repeat case_match; done.
Qed.

(** ** Moves of blocks *)

Lemma prepare_wf p m d d' r :
  prepare_move p m d = (d', r) → document_wf d →
  document_wf d' ∧ ∀ x, r = Some x → block_wf x.1.1.
Proof.
  unfold prepare_move. intros H Hd. destruct (find_block_by_id _ d) as [d1 [b|]] eqn:E;
    (apply find_id_wf in E as [Hd1 Hb]; [|done]); last first.
  { simplify_eq. split; [done|]. intros ? [= <-]. by eapply bw_raw. }
  set (inside := match p with Some _ => _ | None => _ end) in H.
  assert (Hin : document_wf inside.1).
  { unfold inside. destruct p as [p|]; [|done]. destruct (block_contains_container _ _ _) eqn:E2. by eapply contains_wf. }
  destruct inside as [d2 [|]]; [by simplify_eq|]. destruct (block_parent (blk_id b) d2) as [d3 q] eqn:E3.
  apply parent_wf in E3; [|done]. destruct q; simplify_eq; split; try done. intros ? [= <-]. by apply Hb.
Qed.

Lemma prepares_wf p l d d' r :
  prepare_moves p l d = (d', r) → document_wf d →
  document_wf d' ∧ ∀ x, r = Some x → Forall (λ y, block_wf y.1.1) x.
Proof.
  revert d r. induction l as [|m l IH]; intros d r; simpl; [by intros [= <- <-] Hd; split; [done|]; intros ? [= <-]|].
  destruct (prepare_move p m d) as [d1 [x|]] eqn:E; intros H Hd; apply prepare_wf in E as [Hd1 Hx]; try done.
  - destruct (prepare_moves p l d1) as [d2 q] eqn:E2. simplify_eq.
    destruct (IH _ _ E2 Hd1) as [Hd2 Hq]. split; [done|]. destruct q; [|done]. intros ? [= <-]. constructor; auto.
  - by simplify_eq.
Qed.

Lemma move_blocks_wf p l id d : document_wf d → document_wf (move_blocks_at inc p l id d).1.
Proof.
  intros Hd. unfold move_blocks_at. case_decide; [done|].
  destruct (container_children p d) as [d1 [?|]] eqn:E; apply children_wf in E as [Hd1 _]; try done.
  destruct (prepare_moves p l d1) as [d2 [prepared|]] eqn:E2; apply prepares_wf in E2 as [Hd2 Hp]; try done.
  specialize (Hp _ eq_refl). assert (Hz : ∀ x, x ∈ zip ((λ p, p.1.1) <$> prepared) l → block_wf (set_elem (mb_id x.2) x.1)).
  { intros [b m] Hin%elem_of_zip_l. apply list_elem_of_fmap in Hin as (y & -> & Hy). apply block_wf_kind. simpl.
    apply block_wf_kind. rewrite Forall_forall in Hp. by apply (Hp _ Hy). }
  destruct (existsb snd prepared); simpl.
  - apply fold_wf; [|done]. intros [b m] d3 Hin Hd3. unfold lose_move.
    destruct (container_children p d3) as [d4 c] eqn:E3. apply children_wf in E3 as [Hd4 _]; [|done].
    destruct (decide _); [done|]. by apply delete_block_wf, insert_block_wf; [apply (Hz _ Hin)|].
  - apply fold_wf; [intros x d3 Hin Hd3; by apply insert_block_wf; [apply Hz|]|].
    apply fold_wf; [|done]. intros. by apply delete_block_wf.
Qed.
End operations.

(** ** Typed tables *)

Lemma inv_apply {T} inc op (s : Sequence T) : sequence_inv s → sequence_inv (apply inc op s).
Proof. intros Hs. by apply apply_spec. Qed.
Lemma inv_update {T} id (v : T) s : sequence_inv s → sequence_inv (update_value id v s).
Proof. rewrite <-!of_plain. intros Hs. by apply of_update. Qed.
#[export] Hint Resolve inv_apply inv_update : typed.

Section tables.
Context (inc : bool).

Lemma move_placed_inv `{Placed V} m (s : Sequence V) : sequence_inv s → sequence_inv (move_placed inc m s).1.
Proof.
  intros Hs. unfold move_placed, materialise, sequence_delete. repeat case_match; simpl; auto with typed.
Qed.
Lemma move_row_wf m t : table_wf t → table_wf (move_row inc m t).1.
Proof.
  intros [Hc Hr]. unfold move_row. pose proof (move_placed_inv m (rows t) Hr) as H.
  destruct (move_placed inc m (rows t)) as [s []]; by split.
Qed.
Lemma move_column_wf m t : table_wf t → table_wf (move_column inc m t).1.
Proof.
  intros [Hc Hr]. unfold move_column. pose proof (move_placed_inv m (columns t) Hc) as H.
  destruct (move_placed inc m (columns t)) as [s []]; by split.
Qed.
Lemma alignment_wf c al id obs t : table_wf t → table_wf (set_column_alignment_observed c al id obs t).
Proof.
  intros [Hc Hr]. unfold set_column_alignment_observed. repeat case_match; split; simpl; auto with typed.
Qed.

Lemma table_fold {A} (f : Table → A → Table) l t :
  (∀ t x, table_wf t → table_wf (f t x)) → table_wf t → table_wf (fold_left f l t).
Proof. intros Hf. revert t. induction l as [|x l IH]; intros t Ht; simpl; auto. Qed.

Lemma row_moves_wf row t : table_wf t → table_wf (resolve_pending_row_moves inc row t).
Proof.
  intros Ht. apply table_fold; [|done]. intros t' m Ht'. case_decide; [by apply move_row_wf|done].
Qed.
Lemma column_ops_wf c t : table_wf t → table_wf (resolve_pending_column_ops inc c t).
Proof.
  intros Ht. apply table_fold.
  - intros t' a Ht'. case_decide; [by apply alignment_wf|done].
  - apply (table_fold _ _ (set_column_moves [] t)); [|done]. intros t' m Ht'. case_decide; [by apply move_column_wf|done].
Qed.

Lemma remove_row_wf target id t : table_wf t → table_wf (remove_row inc target id t).
Proof.
  intros [Hc Hr]. unfold remove_row, sequence_delete.
  destruct (get_element (rows t) target ≫= elem_value); split; simpl; auto with typed.
Qed.

Lemma table_edit_wf op tid e f t : table_edit inc op = Some (tid, e, f) → table_wf t → table_wf (f t).
Proof.
  intros H Ht. destruct op; simplify_eq/=; try done.
  - apply row_moves_wf, table_fold; [by intros ? ? [? ?]|]. destruct Ht. split; simpl; auto with typed.
  - apply column_ops_wf. destruct Ht. split; simpl; auto with typed.
  - by apply remove_row_wf.
  - by apply remove_row_wf.
  - destruct Ht. split; simpl; unfold sequence_delete; auto with typed.
  - by apply alignment_wf.
  - by apply move_row_wf.
  - by apply move_column_wf.
Qed.
End tables.

(** ** Typed envelopes *)

(** Skeletons, by induction on the nested blocks. *)
Lemma skeleton_ind (P : BlockKindSkeleton → Prop) :
  (∀ text, P (SkParagraph text)) → (∀ level text, P (SkHeading level text)) →
  (∀ style items, (∀ i c, i ∈ items → c ∈ is_children i → P (sk_kind (si_block c))) → P (SkList style items)) →
  (∀ style info text, P (SkCodeFence style info text)) →
  (∀ children, (∀ c, c ∈ children → P (sk_kind (si_block c))) → P (SkBlockQuote children)) →
  (∀ raw, P (SkRawBlock raw)) → P SkTable → ∀ k, P k.
Proof.
  intros Hp Hh Hl Hf Hq Hr Ht. fix go 1. intros [text|level text|style items|style info text|children|raw|];
    [apply Hp|apply Hh| |apply Hf| |apply Hr|apply Ht].
  - apply Hl. induction items as [|[a id r b t o ch] items IH]; intros i c Hi Hc; [destruct (not_elem_of_nil _ Hi)|].
    apply elem_of_cons in Hi as [->|Hi]; [|exact (IH i c Hi Hc)]. simpl in Hc. clear IH. revert c Hc.
    induction ch as [|[a' id' r' [b' k]] ch IH]; intros c Hc; [destruct (not_elem_of_nil _ Hc)|].
    apply elem_of_cons in Hc as [->|Hc]; [exact (go k)|exact (IH c Hc)].
  - apply Hq. induction children as [|[a id r [b k]] ch IH]; intros c Hc; [destruct (not_elem_of_nil _ Hc)|].
    apply elem_of_cons in Hc as [->|Hc]; [exact (go k)|exact (IH c Hc)].
Qed.

(** A loop that only raises its accumulator. *)
Lemma fold_raises {A} (f : N → A → N) l a : (∀ a x, a ≤ f a x)%N → (a ≤ fold_left f l a)%N.
Proof.
  intros Hf. revert a. induction l as [|x l IH]; intros a; simpl; [lia|].
  pose proof (Hf a x). specialize (IH (f a x)). lia.
Qed.

(** A loop that raises its accumulator above [g x] at every [x]. *)
Lemma fold_above {A} (f : N → A → N) (g : A → N) l a x :
  (∀ a x, a ≤ f a x)%N → (∀ a x, g x ≤ f a x)%N → x ∈ l → (g x ≤ fold_left f l a)%N.
Proof.
  intros Hf Hg. revert a. induction l as [|y l IH]; intros a Hx; [by apply elem_of_nil in Hx|]. simpl.
  apply elem_of_cons in Hx as [->|Hx]; [|by apply IH].
  pose proof (Hg a y). pose proof (fold_raises f l (f a y) Hf). lia.
Qed.

(** A split names every unit once. *)
Definition units_distinct (env : Envelope) : Prop :=
  match env_body env with
  | Doc (SplitBlock _ _ _ _ _ _ units) => NoDup (mu_id <$> units)
  | _ => True
  end.

Section envelopes.
Context (inc : bool) (graphemes : string → list string).
Abbreviation max_counter := (max_counter_in_kind graphemes).

(** The largest counter of a nested block. *)
Definition child_max (c : BlockSkeletonInsert) : N :=
  match c with mkSkeletonInsert _ id _ (mkSkeleton _ k) => max_counter k id end.

Lemma children_max ch a c :
  c ∈ ch →
  (child_max c ≤ fold_left (λ hi child, match child with mkSkeletonInsert _ id _ (mkSkeleton _ k) =>
     N.max (N.max hi (counter id)) (max_counter k id) end) ch a)%N.
Proof. apply fold_above; intros ? [? ? ? []]; simpl; lia. Qed.

Lemma items_max items a i c :
  i ∈ items → c ∈ is_children i →
  (child_max c ≤ fold_left (λ hi item, match item with mkItemSkeleton _ id _ _ _ task_op children =>
      fold_left (λ hi child, match child with mkSkeletonInsert _ id _ (mkSkeleton _ k) =>
        N.max (N.max hi (counter id)) (max_counter k id) end) children
        (N.max (N.max hi (counter id)) (counter task_op)) end) items a)%N.
Proof.
  intros Hi Hc. revert a. induction items as [|y items IH]; intros a; [by apply elem_of_nil in Hi|]. simpl.
  apply elem_of_cons in Hi as [<-|Hi]; [|by apply IH].
  etrans; [|apply fold_raises]; [destruct i; by apply children_max|].
  intros b [? ? ? ? ? ? ch]. etrans; [|apply fold_raises]; [lia|]. intros ? [? ? ? []]. lia.
Qed.

Lemma text_skeleton_inv text p :
  (u64_saturating_add (counter p) (N.of_nat (grapheme_count graphemes text)) < u64_max)%N →
  sequence_inv (text_from_skeleton graphemes text p).
Proof. intros H. apply text_inv. unfold u64_saturating_add in *. lia. Qed.

Lemma kind_skeleton_wf k p : (max_counter k p < u64_max)%N → kind_wf (kind_from_skeleton inc graphemes k p).
Proof.
  revert p. induction k as [text|level text|style items IH| |children IH| |] using skeleton_ind; intros p Hm.
  - by apply text_skeleton_inv.
  - by apply text_skeleton_inv.
  - simpl. apply of_fold; [|apply of_new]. intros [a id r b t o ch] s Hi Hs. apply of_insert; [done|].
    apply of_fold; [|apply of_new]. intros [a' id' r' [b' k]] s' Hc Hs'. apply of_insert; [done|].
    apply block_wf_kind. simpl. apply (IH _ _ Hi Hc). simpl in Hm.
    pose proof (items_max items (counter p) _ _ Hi Hc). simpl in *. lia.
  - done.
  - simpl. apply of_fold; [|apply of_new]. intros [a' id' r' [b' k]] s' Hc Hs'. apply of_insert; [done|].
    apply block_wf_kind. simpl. apply (IH _ Hc). simpl in Hm.
    pose proof (children_max children (counter p) _ Hc). simpl in *. lia.
  - done.
  - split; apply sequence_new_inv.
Qed.

(** The ids an envelope asks for fit and do not repeat. *)
Definition env_wf (env : Envelope) : Prop :=
  units_distinct env ∧
  match env_body env with
  | Doc (InsertBlock _ _ id _ block) => (max_counter (sk_kind block) id < u64_max)%N
  | _ => True
  end.

(** ** Applying an envelope *)

Lemma current_wf b e d d' r : current_block_elem b e d = (d', r) → document_wf d → document_wf d'.
Proof.
  unfold current_block_elem. destruct (block_elem_id b d) as [d1 x] eqn:E. intros [= <- _]. by eapply block_elem_wf.
Qed.
Lemma edit_current_wf b e f d :
  (∀ x, block_wf x → block_wf (f x)) → document_wf d → document_wf (edit_current b e f d).
Proof.
  intros Hf Hd. unfold edit_current. destruct (current_block_elem b e d) as [d1 x] eqn:E.
  apply current_wf in E; [|done]. destruct (with_block_mut x _ d1) eqn:E'. eapply with_block_wf; [|exact E'|done]. exact Hf.
Qed.

Lemma edit_body_wf f b :
  (∀ s, sequence_inv s → sequence_inv (f s)) → block_wf b → block_wf (edit_body f b).
Proof.
  intros Hf Hb. apply block_wf_kind in Hb. apply set_kind_wf. destruct (blk_kind b); simpl in *; auto.
Qed.
Lemma edit_marks_wf f b : block_wf b → block_wf (edit_marks f b).
Proof. rewrite !block_wf_kind. done. Qed.
Lemma edit_table_wf f b : (∀ t, table_wf t → table_wf (f t)) → block_wf b → block_wf (edit_table f b).
Proof.
  intros Hf Hb. unfold edit_table. apply block_wf_kind in Hb as Hk. destruct (blk_kind b); try done.
  by apply set_kind_wf, Hf.
Qed.

Lemma inv_fold {T A} (f : Sequence T → A → Sequence T) l s :
  (∀ s x, sequence_inv s → sequence_inv (f s x)) → sequence_inv s → sequence_inv (fold_left f l s).
Proof. rewrite <-!of_plain. intros Hf. apply of_fold. intros x s' _. rewrite !of_plain. apply Hf. Qed.

Lemma chain_units_inv after ro units s : sequence_inv s → sequence_inv (chain_units inc after ro units s).
Proof.
  unfold chain_units. revert after ro s. induction units as [|u units IH]; intros after ro s Hs; simpl; [done|].
  by apply IH, inv_apply.
Qed.

Lemma split_wf p t i nb ro k us d :
  NoDup (mu_id <$> us) → document_wf d → document_wf (apply_split inc p t i nb ro k us d).
Proof.
  intros Hnd Hd. unfold apply_split. destruct (with_block_mut t _ d) as [d1 r] eqn:E.
  eapply with_block_wf in E; [|..|done].
  2: { intros b Hb. apply edit_body_wf; [|done]. intros s. apply inv_fold. intros. by apply inv_apply. }
  destruct r as [marks|]; [|done]. apply insert_block_wf; [|done]. apply block_wf_kind. simpl.
  assert (H : sequence_inv (from_ordered ((λ u, (mu_id u, mkUnit (mu_grapheme u))) <$> us))).
  { pose proof (from_ordered_inv_spec ((λ u, (mu_id u, mkUnit (mu_grapheme u))) <$> us)) as H.
    unfold from_ordered. fold (from_ordered_acc ((λ u, (mu_id u, mkUnit (mu_grapheme u))) <$> us)).
    rewrite <-list_fmap_compose in H. specialize (H Hnd). destruct (from_ordered_acc _) as [[els idx] a]. by destruct H. }
  by destruct k.
Qed.

Lemma merge_wf p l r i a ro us d : document_wf d → document_wf (apply_merge inc p l r i a ro us d).
Proof.
  intros Hd. unfold apply_merge. destruct (find_block r d) as [d1 rb] eqn:E. apply find_wf in E as [Hd1 _]; [|done].
  apply delete_block_wf. destruct (with_block_mut l _ d1) as [d2 x] eqn:E2. eapply with_block_wf; [|exact E2|done].
  intros b Hb. simpl. assert (H : block_wf (edit_body (chain_units inc a ro us) b)).
  { apply edit_body_wf; [|done]. intros s. apply chain_units_inv. }
  by destruct (blk_marks <$> rb); [apply edit_marks_wf|].
Qed.

Lemma delete_by_id_wf p t b i d : document_wf d → document_wf (apply_delete_by_id inc p t b i d).
Proof.
  intros Hd. unfold apply_delete_by_id. destruct (find_block_by_id b d) as [d1 [x|]] eqn:E;
    (apply find_id_wf in E as [Hd1 _]; [|done]); [|by apply delete_block_wf].
  destruct (block_parent b d1) as [d2 q] eqn:E2. apply delete_block_wf. by eapply parent_wf.
Qed.

Lemma metadata_wf op d : document_wf d → document_wf (apply_metadata inc op d).
Proof.
  intros Hd. destruct op; simpl; try done;
    try (match goal with |- context [current_block_elem ?b ?e d] => destruct (current_block_elem b e d) as [d1 x] eqn:E end;
         apply current_wf in E; [|done]);
    auto using insert_item_wf, delete_item_wf, move_item_wf, set_style_wf, set_task_wf, set_fence_wf, convert_wf, replace_raw_wf.
Qed.

Lemma apply_envelope_wf env d :
  env_wf env → document_wf d → document_wf (apply_envelope_to_document inc graphemes env d).
Proof.
  intros [Hu He] Hd. destruct env as [v [op]]. unfold apply_envelope_to_document, units_distinct in *. simpl in *.
  assert (Ht : ∀ tid e f, table_edit inc op = Some (tid, e, f) → document_wf (edit_current tid e (edit_table f) d)).
  { intros tid e f Ht. apply edit_current_wf; [|done]. intros b Hb. apply edit_table_wf; [|done].
    intros t. by eapply table_edit_wf. }
  destruct op; try (apply metadata_wf, Hd); try (exact (Ht _ _ _ eq_refl)); simpl; clear Ht.
  - apply insert_block_wf; [|done]. destruct block as [bid k]. apply block_wf_kind. by apply kind_skeleton_wf.
  - by apply delete_block_wf.
  - by apply delete_by_id_wf.
  - apply edit_current_wf; [|done]. intros b Hb. apply edit_body_wf; [|done]. intros s. apply inv_fold.
    intros. by apply inv_apply.
  - apply edit_current_wf; [|done]. intros b Hb. apply edit_body_wf; [|done]. intros s. apply inv_fold.
    intros. by apply inv_apply.
  - apply edit_current_wf; [|done]. apply edit_marks_wf.
  - apply edit_current_wf; [|done]. apply edit_marks_wf.
  - unfold set_frontmatter_field. destruct (fm_set _ _ _ _); done.
  - destruct (doc_frontmatter d); done.
  - by apply move_blocks_wf.
  - by apply split_wf.
  - by apply merge_wf.
Qed.

Lemma document_new_wf : document_wf doc_new.
Proof. apply of_new. Qed.
End envelopes.
