(* ===== verification/Session.v ===== *)
(** * The collaborative session

    Models [CollaborativeDocument] of [src/src/session/mod.rs]: a document, the
    log of operations, the clock of the local peer, and the decoded envelopes
    that wait.  Every local edit is encoded, applied to the document and logged;
    remote messages are validated and decoded before anything is integrated.

    An operation is a computation in a state and error monad: it may fail after
    some of its steps took effect, as in the code.  The codec is a pair of
    parameters; its errors are their messages. *)

From S2P Require Import Prelude Core Sequence Mark MarkOps Table Frontmatter Codec Text Block.
From S2P Require Import Document Sync Draft SessionWire.

(** ** State *)

Record CollaborativeDocument := mkSession {
  s_peer : PeerId;
  s_next_counter : N;
  s_document : Document;
  s_sync : SyncState;
  s_unit_mode : bool;
  s_pending_envelopes : gmap OpId Envelope;
}.

Record SessionApplyResult := mkSessionResult { sres_applied : list OpId; sres_buffered : list OpId }.

Definition session_new (p : PeerId) : CollaborativeDocument :=
  mkSession p 1 doc_new sync_new true ∅.
Definition with_codec (p : PeerId) (unit_mode : bool) : CollaborativeDocument :=
  mkSession p 1 doc_new sync_new unit_mode ∅.

Definition set_document (d : Document) (s : CollaborativeDocument) : CollaborativeDocument :=
  mkSession (s_peer s) (s_next_counter s) d (s_sync s) (s_unit_mode s) (s_pending_envelopes s).
Definition set_sync (st : SyncState) (s : CollaborativeDocument) : CollaborativeDocument :=
  mkSession (s_peer s) (s_next_counter s) (s_document s) st (s_unit_mode s) (s_pending_envelopes s).
Definition set_pending_envelopes (m : gmap OpId Envelope) (s : CollaborativeDocument) :
    CollaborativeDocument :=
  mkSession (s_peer s) (s_next_counter s) (s_document s) (s_sync s) (s_unit_mode s) m.
Definition set_unit_mode (b : bool) (s : CollaborativeDocument) : CollaborativeDocument :=
  mkSession (s_peer s) (s_next_counter s) (s_document s) (s_sync s) b (s_pending_envelopes s).

Definition session_state_vector (s : CollaborativeDocument) : StateVector := state_vector (s_sync s).
Definition peek_next_id (s : CollaborativeDocument) : OpId :=
  mkOpId (s_next_counter s) (s_peer s).

Definition checkpoint_history (request : CheckpointRequest) (s : CollaborativeDocument) :
    CollaborativeDocument * (CheckpointError + CheckpointReport) :=
  let '(st, r) := checkpoint request (s_sync s) in (set_sync st s, r).

(** ** Errors of the codec *)

(** [str::strip_prefix]. *)
Fixpoint strip_prefix (p s : string) : option string :=
  match p, s with
  | EmptyString, s => Some s
  | String a p, String b s => if decide (a = b) then strip_prefix p s else None
  | String _ _, EmptyString => None
  end.

Fixpoint parse_digits (s : string) (acc : N) : option N :=
  match s with
  | EmptyString => Some acc
  | String c s =>
    let d := Ascii.N_of_ascii c in
    if ((48 <=? d) && (d <=? 57))%N then parse_digits s (acc * 10 + (d - 48))%N else None
  end.

(** [str::parse::<u16>]: an optional plus sign and at least one digit. *)
Definition parse_u16 (s : string) : option N :=
  let s := match s with
           | String c rest => if decide (Ascii.N_of_ascii c = 43%N) then rest else s
           | EmptyString => s
           end in
  match s with
  | EmptyString => None
  | _ => v ← parse_digits s 0; if (v <=? 65535)%N then Some v else None
  end.

Definition codec_err (message : string) : SessionError :=
  match strip_prefix "unknown wire version " message ≫= parse_u16 with
  | Some v => ErrUnknownWireVersion v
  | None => ErrCodec message
  end.

(** ** The monad of operations *)

Definition SM (A : Type) : Type := CollaborativeDocument → CollaborativeDocument * (SessionError + A).

#[export] Instance SM_ret : MRet SM := λ A x s, (s, inr x).
#[export] Instance SM_bind : MBind SM := λ A B f m s,
  match m s with
  | (s, inl e) => (s, inl e)
  | (s, inr x) => f x s
  end.

#[export] Instance SM_fmap : FMap SM := λ A B f m s,
  match m s with
  | (s, inl e) => (s, inl e)
  | (s, inr x) => (s, inr (f x))
  end.

Definition throw {A} (e : SessionError) : SM A := λ s, (s, inl e).
Definition gets {A} (f : CollaborativeDocument → A) : SM A := λ s, (s, inr (f s)).
(** A query of the document, which may rebuild the cached index. *)
Definition query {A} (f : Document → Document * A) : SM A := λ s,
  let '(d, x) := f (s_document s) in (set_document d s, inr x).
(** [r?]. *)
Definition lift {A} (r : SessionError + A) : SM A := λ s, (s, r).
(** [ok_or(e)?]. *)
Definition ok_or {A} (e : SessionError) (o : option A) : SM A :=
  match o with Some x => mret x | None => throw e end.
(** [check?]. *)
Definition check (o : option SessionError) : SM unit :=
  match o with Some e => throw e | None => mret tt end.
Definition require (P : Prop) `{Decision P} (e : SessionError) : SM unit :=
  if decide P then mret tt else throw e.

(** [for x in l { s = f(s, x)?; }]. *)
Definition sm_fold {A S} (f : S → A → SM S) : list A → S → SM S :=
  fix go l s := match l with
                | [] => mret s
                | x :: l => s ← f s x; go l s
                end.

(** [after.is_none_or(|a| children.get_element(&a).is_some())]. *)
Definition anchor_exists {T} (s : Sequence T) (after : option OpId) : bool :=
  match after with Some a => bool_decide (is_Some (get_element s a)) | None => true end.

Section session.
Context (sequence_incremental : bool).
(** [str::graphemes(true)]. *)
Context (graphemes : string → list string).
(** [OpCodec::encode] and [decode]. *)
Context (encode : Envelope → string + list Byte.byte) (decode : list Byte.byte → string + Envelope).

Abbreviation apply_envelope := (apply_envelope_to_document sequence_incremental graphemes).
Abbreviation extent := (operation_extent graphemes).

(** ** Commits *)

Definition wire (op : DocOp) : Envelope := mkEnvelope WIRE_VERSION (Doc op).

(** Encode, apply, log, advance the clock: the tail of every local operation. *)
Definition commit (envelope : Envelope) (op_id : OpId) (next : N) : SM unit := λ s,
  match encode envelope with
  | inl m => (s, inl (codec_err m))
  | inr payload =>
    (mkSession (s_peer s) next (apply_envelope envelope (s_document s))
       (add_local_op (mkOperation op_id payload) (s_sync s)) (s_unit_mode s)
       (s_pending_envelopes s), inr tt)
  end.

Definition commit_single_id (envelope : Envelope) (id : OpId) : SM OpId :=
  _ ← commit envelope id (u64_wrapping_add (counter id) 1); mret id.

(** ** Blocks *)

Definition insert_block_in (parent after : option OpId) (kind : BlockKind) : SM OpId :=
  children ← query (container_children parent);
  children ← ok_or ErrMissingAfterAnchor children;
  _ ← require (anchor_exists children after) ErrMissingAfterAnchor;
  block_elem ← gets peek_next_id;
  right_origin ← query (compute_child_right_origin parent after);
  unit_mode ← gets s_unit_mode;
  skeleton ← lift (block_kind_to_skeleton unit_mode kind);
  _ ← check (validate_block_skeleton skeleton);
  p ← gets s_peer;
  _ ← check (check_kind_peers p skeleton);
  let envelope := wire (InsertBlock parent after block_elem right_origin
                          (mkSkeleton (block_id_from_op block_elem) skeleton)) in
  _ ← require (¬ (unit_mode = true ∧ insert_block_paragraph_is_empty envelope = false))
        ErrNonEmptyParagraphOnInsertBlock;
  let op_id := (extent envelope).1 in
  _ ← commit envelope op_id (u64_wrapping_add (counter op_id) 1);
  mret block_elem.

Definition insert_block (after : option OpId) (kind : BlockKind) : SM OpId :=
  insert_block_in None after kind.

Definition delete_block_in (parent : option OpId) (target : OpId) : SM OpId :=
  children ← query (container_children parent);
  block_id ← ok_or ErrMissingDeleteTarget
    (c ← children; e ← get_element c target; blk_id <$> elem_value e);
  id ← gets peek_next_id;
  commit_single_id (wire (DeleteBlockById parent target block_id id)) id.
Definition delete_block (target : OpId) : SM OpId := delete_block_in None target.

(** ** Text *)

(** The units of an insertion: ids count up from [id], each unit anchored at the
    previous one; the right origin is that of the first. *)
Fixpoint chain_text (id : OpId) (after right_origin : option OpId) (gs : list string) :
    list TextUnitWire :=
  match gs with
  | [] => []
  | g :: gs =>
    mkUnitWire id after right_origin g ::
      chain_text (mkOpId (u64_saturating_add (counter id) 1) (peer id)) (Some id) None gs
  end.

Definition session_insert_text (block_id : BlockId) (grapheme_offset : nat) (text : string) :
    SM (option OpId) :=
  if decide (text = EmptyString) then mret None else
  block ← query (find_block_by_id block_id);
  block ← ok_or ErrBlockNotFound block;
  body ← ok_or ErrNotParagraph (block_text_seq (blk_kind block));
  _ ← require (grapheme_offset ≤ len_visible body) ErrInvalidOffset;
  let after := after_for_grapheme_offset body grapheme_offset in
  id ← gets peek_next_id;
  let units := chain_text id after (compute_right_origin after body) (graphemes text) in
  if decide (units = []) then mret None else
  let envelope := wire (InsertText (blk_elem block) block_id units) in
  let op_id := (extent envelope).1 in
  _ ← commit envelope op_id (u64_wrapping_add (counter op_id) 1);
  mret (Some op_id).

(** An offset whose sum with the count exceeds [usize] is behind every text. *)
Definition session_delete_text (block_id : BlockId) (grapheme_offset grapheme_count : nat) :
    SM (option OpId) :=
  if decide (grapheme_count = 0) then mret None else
  block ← query (find_block_by_id block_id);
  block ← ok_or ErrBlockNotFound block;
  body ← ok_or ErrNotParagraph (block_text_seq (blk_kind block));
  let ids := paragraph_visible_ids body in
  _ ← require (grapheme_offset + grapheme_count ≤ length ids) ErrInvalidOffset;
  let targets := take grapheme_count (drop grapheme_offset ids) in
  id ← gets peek_next_id;
  id ← commit_single_id (wire (DeleteText (blk_elem block) block_id id targets)) id;
  mret (Some id).

Definition insert_paragraph_in (parent after : option OpId) (text : string) : SM OpId :=
  block_elem ← insert_block_in parent after (kind_paragraph graphemes EmptyString (mkOpId 1 0));
  if decide (text = EmptyString) then mret block_elem else
  _ ← session_insert_text (block_id_from_op block_elem) 0 text;
  mret block_elem.
Definition insert_paragraph (after : option OpId) (text : string) : SM OpId :=
  insert_paragraph_in None after text.

(** ** Lists *)

(** [find_block_by_id(list_id)] and its items. *)
Definition find_list (list_id : BlockId) : SM (Block * Sequence ListItem) :=
  list ← query (find_block_by_id list_id);
  list ← ok_or ErrBlockNotFound list;
  match blk_kind list with
  | ListBlock _ items _ => mret (list, items)
  | _ => throw ErrNotList
  end.

Definition insert_list_item (list_id : BlockId) (after : option OpId) (task : option TaskState) :
    SM OpId :=
  '(list, items) ← find_list list_id;
  _ ← require (anchor_exists items after) ErrMissingAfterAnchor;
  id ← gets peek_next_id;
  commit_single_id
    (wire (InsertListItem (blk_elem list) list_id after id (compute_right_origin after items) task)) id.

(** The list element that holds an item and the item's placement. *)
Definition item_location (item_id : BlockId) : SM (OpId * OpId) :=
  containing ← gets (λ s, list_containing_item (doc_blocks (s_document s)) item_id);
  containing ← ok_or ErrListItemNotFound containing;
  placement ← gets (λ s, list_item_placement (doc_blocks (s_document s)) item_id);
  placement ← ok_or ErrListItemNotFound placement;
  mret (containing.2, placement.2).

Definition delete_list_item (item_id : BlockId) : SM OpId :=
  '(list_elem, target) ← item_location item_id;
  list ← query (find_block list_elem);
  list ← ok_or ErrNotList list;
  id ← gets peek_next_id;
  commit_single_id (wire (DeleteListItemById list_elem (blk_id list) target item_id id)) id.

Definition move_list_item (item_id list_id : BlockId) (after : option OpId) : SM OpId :=
  '(from_list_elem, target) ← item_location item_id;
  '(destination, items) ← find_list list_id;
  _ ← require (anchor_exists items after ∧ after ≠ Some target) ErrInvalidMove;
  id ← gets peek_next_id;
  observed ← gets session_state_vector;
  commit_single_id
    (wire (MoveListItem from_list_elem (blk_elem destination) list_id item_id target id after
             (compute_right_origin after items) observed)) id.

(** ** Metadata of blocks *)

(** The lookup shared by the setters: the block, and a check of its kind. *)
Definition find_kind (block_id : BlockId) (ok : BlockKind → bool) (e : SessionError) : SM OpId :=
  block ← query (find_block_by_id block_id);
  block ← ok_or ErrBlockNotFound block;
  _ ← require (ok (blk_kind block)) e;
  mret (blk_elem block).

Definition session_set_list_style (list_id : BlockId) (style : ListStyle) : SM OpId :=
  _ ← check (ErrStructuredEdit <$> validate_list_style style);
  elem ← find_kind list_id (λ k, match k with ListBlock _ _ _ => true | _ => false end) ErrNotList;
  id ← gets peek_next_id;
  observed ← gets session_state_vector;
  commit_single_id (wire (SetListStyle elem list_id id style observed)) id.

Definition session_set_list_item_task (item_id : BlockId) (task : option TaskState) : SM OpId :=
  item ← gets (λ s, find_list_item_by_id (doc_blocks (s_document s)) item_id);
  _ ← ok_or ErrListItemNotFound item;
  id ← gets peek_next_id;
  observed ← gets session_state_vector;
  commit_single_id (wire (SetListItemTask item_id id task observed)) id.

Definition session_set_code_fence (block_id : BlockId) (style : CodeFenceStyle)
    (info : option string) (text : string) : SM OpId :=
  _ ← check (ErrStructuredEdit <$> validate_code_fence style info text);
  elem ← find_kind block_id (λ k, match k with CodeFence _ _ _ => true | _ => false end) ErrNotCodeFence;
  id ← gets peek_next_id;
  observed ← gets session_state_vector;
  commit_single_id (wire (SetCodeFence elem block_id id style info text observed)) id.

Definition session_convert_text_block (block_id : BlockId) (kind : TextBlockKind) : SM OpId :=
  elem ← find_kind block_id (λ k, match k with Paragraph _ | Heading _ _ => true | _ => false end)
    ErrNotParagraph;
  kind ← match kind with
         | TextParagraph => mret WireParagraph
         | TextHeading level =>
           if ((1 <=? level) && (level <=? 6))%N then mret (WireHeading level)
           else throw ErrInvalidHeadingLevel
         end;
  id ← gets peek_next_id;
  observed ← gets session_state_vector;
  commit_single_id (wire (ConvertTextBlock elem block_id id kind observed)) id.

Definition session_replace_raw_block (block_id : BlockId) (raw : string) : SM OpId :=
  elem ← find_kind block_id (λ k, match k with RawBlock _ => true | _ => false end) ErrNotRawBlock;
  id ← gets peek_next_id;
  observed ← gets session_state_vector;
  commit_single_id (wire (ReplaceRawBlock elem block_id id raw observed)) id.

(** ** Drafts *)

Fixpoint insert_validated_draft (parent after : option OpId) (draft : BlockDraft) : SM OpId :=
  match draft with
  | DraftParagraph text => insert_paragraph_in parent after text
  | DraftHeading level text =>
    elem ← insert_block_in parent after (Heading level sequence_new);
    if decide (text = EmptyString) then mret elem else
    _ ← session_insert_text (block_id_from_op elem) 0 text;
    mret elem
  | DraftList style items =>
    list_elem ← insert_block_in parent after (ListBlock style sequence_new []);
    _ ← sm_fold (λ after_item item, match item with mkItemDraft task children =>
          item_elem ← insert_list_item (block_id_from_op list_elem) after_item task;
          _ ← sm_fold (λ after_child child,
                Some <$> insert_validated_draft (Some item_elem) after_child child) children None;
          mret (Some item_elem) end) items None;
    mret list_elem
  | DraftCodeFence style info text => insert_block_in parent after (CodeFence style info text)
  | DraftBlockQuote children =>
    quote_elem ← insert_block_in parent after (BlockQuote sequence_new);
    _ ← sm_fold (λ after_child child,
          Some <$> insert_validated_draft (Some quote_elem) after_child child) children None;
    mret quote_elem
  | DraftRawBlock raw => insert_block_in parent after (RawBlock raw)
  end.

Definition insert_draft_in (parent after : option OpId) (draft : BlockDraft)
    (limits : StructuredEditLimits) : SM OpId :=
  _ ← check (ErrStructuredEdit <$> draft_validate limits draft);
  insert_validated_draft parent after draft.

Definition insert_list_item_draft (list_id : BlockId) (after : option OpId) (task : option TaskState)
    (children : list BlockDraft) (limits : StructuredEditLimits) : SM OpId :=
  _ ← check (ErrStructuredEdit <$>
        draft_validate limits (DraftList default_list_style [mkItemDraft task children]));
  item_elem ← insert_list_item list_id after task;
  _ ← sm_fold (λ after_child child,
        Some <$> insert_validated_draft (Some item_elem) after_child child) children None;
  mret item_elem.

(** ** Tables *)

(** [find_block_by_id(table_id)] and its table. *)
Definition find_table (tid : BlockId) : SM (Block * Table) :=
  block ← query (find_block_by_id tid);
  block ← ok_or ErrBlockNotFound block;
  match blk_kind block with
  | TableBlock table => mret (block, table)
  | _ => throw ErrNotTable
  end.

Definition insert_table_column (tid : BlockId) (after : option OpId)
    (alignment : ColumnAlignment) (header : string) : SM OpId :=
  _ ← check (validate_table_cell header);
  '(block, table) ← find_table tid;
  _ ← require (anchor_exists (columns table) after) ErrTableColumnNotFound;
  id ← gets peek_next_id;
  commit_single_id
    (wire (InsertTableColumn (blk_elem block) tid after id
             (compute_right_origin after (columns table)) (alignment_to_wire alignment) header)) id.

Definition insert_table_in (parent after : option OpId) (cols : list ColumnDef)
    (header : list string) : SM OpId :=
  _ ← require (length cols = length header) ErrInvalidTableShape;
  _ ← check (validate_table_cells header);
  elem_id ← gets peek_next_id;
  table_elem ← insert_block_in parent after
    (TableBlock (table_new (block_id_from_op elem_id) elem_id elem_id));
  _ ← sm_fold (λ after_column (x : ColumnDef * string),
        Some <$> insert_table_column (block_id_from_op table_elem) after_column
                   (cd_alignment x.1) x.2) (zip cols header) None;
  mret table_elem.
Definition insert_table (after : option OpId) (cols : list ColumnDef) (header : list string) :
    SM OpId :=
  insert_table_in None after cols header.

Definition insert_table_row (tid : BlockId) (after : option OpId) (values : list string) : SM OpId :=
  _ ← check (validate_table_cells values);
  '(block, table) ← find_table tid;
  _ ← require (anchor_exists (rows table) after) ErrTableRowNotFound;
  let column_ids := column_id <$> columns_in_order table in
  _ ← require (length values = length column_ids) ErrInvalidTableShape;
  id ← gets peek_next_id;
  commit_single_id
    (wire (InsertTableRow (blk_elem block) tid after id (compute_right_origin after (rows table))
             (zip_with mkCellWire column_ids values))) id.

Definition session_set_table_cell (tid : BlockId) (row : RowId) (column : ColumnId)
    (value : string) : SM OpId :=
  _ ← check (validate_table_cell value);
  '(block, table) ← find_table tid;
  _ ← require (row = header_row_id table ∨ is_Some (row_by_id table row)) ErrTableRowNotFound;
  _ ← require (is_Some (column_by_id table column)) ErrTableColumnNotFound;
  id ← gets peek_next_id;
  observed ← gets session_state_vector;
  commit_single_id (wire (SetTableCell (blk_elem block) tid row column id value observed)) id.

Definition set_table_row_cells (tid : BlockId) (row : OpId) (values : list string) : SM OpId :=
  _ ← check (validate_table_cells values);
  '(_, table) ← find_table tid;
  row_id ← ok_or ErrTableRowNotFound (e ← get_element (rows table) row; row_id <$> elem_value e);
  let cols := columns_in_order table in
  _ ← require (length values = length cols) ErrInvalidTableShape;
  last ← sm_fold (λ (_ : option OpId) (x : TableColumn * string),
           Some <$> session_set_table_cell tid row_id (column_id x.1) x.2) (zip cols values) None;
  ok_or ErrInvalidTableShape last.

Definition delete_table_row (tid : BlockId) (target : OpId) : SM OpId :=
  '(block, table) ← find_table tid;
  row ← ok_or ErrTableRowNotFound (e ← get_element (rows table) target; elem_value e);
  id ← gets peek_next_id;
  commit_single_id (wire (DeleteTableRowById (blk_elem block) tid target (row_id row) id)) id.

Definition table_elem_with_column (tid : BlockId) (column : ColumnId) : SM OpId :=
  '(block, table) ← find_table tid;
  _ ← ok_or ErrTableColumnNotFound (column_by_id table column);
  mret (blk_elem block).

Definition set_table_column_alignment (tid : BlockId) (column : ColumnId)
    (alignment : ColumnAlignment) : SM OpId :=
  table_elem ← table_elem_with_column tid column;
  id ← gets peek_next_id;
  observed ← gets session_state_vector;
  commit_single_id
    (wire (SetTableColumnAlignment table_elem tid column id (alignment_to_wire alignment) observed)) id.

Definition delete_table_column (tid : BlockId) (column : ColumnId) : SM OpId :=
  '(block, table) ← find_table tid;
  found ← ok_or ErrTableColumnNotFound (column_by_id table column);
  id ← gets peek_next_id;
  commit_single_id
    (wire (DeleteTableColumnById (blk_elem block) tid (column_elem_id found) column id)) id.

(** The first loop of [set_table_metadata]: alignment and header of one column. *)
Definition update_column (tid : BlockId) (last : option OpId)
    (x : TableColumn * ColumnDef * string) : SM (option OpId) :=
  let '(column, definition, value) := x in
  last ← (if decide (Lww.get (column_alignment column) ≠ cd_alignment definition)
          then Some <$> set_table_column_alignment tid (column_id column) (cd_alignment definition)
          else mret last);
  block ← query (find_block_by_id tid);
  let current := b ← block; match blk_kind b with
    | TableBlock t => cell_value t (header_row_id t) (column_id column)
    | _ => None
    end in
  if decide (current ≠ Some value)
  then Some <$> session_set_table_cell tid tid (column_id column) value
  else mret last.

Definition set_table_metadata (tid : BlockId) (cols : list ColumnDef) (header : list string) :
    SM OpId :=
  _ ← require (length cols = length header) ErrInvalidTableShape;
  _ ← check (validate_table_cells header);
  '(_, table) ← find_table tid;
  let existing := columns_in_order table in
  last ← sm_fold (update_column tid) (zip (zip existing cols) header) None;
  last ← sm_fold (λ (_ : option OpId) column, Some <$> delete_table_column tid (column_id column))
           (drop (length cols) existing) last;
  let after := column_elem_id <$> existing !! (Nat.min (length cols) (length existing) - 1) in
  '(_, last) ← sm_fold (λ (acc : option OpId * option OpId) (x : ColumnDef * string),
      id ← insert_table_column tid acc.1 (cd_alignment x.1) x.2;
      mret (Some id, Some id)) (drop (length existing) (zip cols header)) (after, last);
  ok_or ErrInvalidTableShape last.

Definition move_table_column (tid : BlockId) (column : ColumnId) (after : option OpId) : SM OpId :=
  '(block, table) ← find_table tid;
  found ← ok_or ErrTableColumnNotFound (column_by_id table column);
  _ ← require (after ≠ Some (column_elem_id found) ∧ anchor_exists (columns table) after)
        ErrInvalidMove;
  id ← gets peek_next_id;
  observed ← gets session_state_vector;
  commit_single_id
    (wire (MoveTableColumn (blk_elem block) tid column (column_elem_id found) id after
             (compute_right_origin after (columns table)) observed)) id.

Definition move_table_row (tid : BlockId) (row : RowId) (after : option OpId) : SM OpId :=
  '(block, table) ← find_table tid;
  found ← ok_or ErrTableRowNotFound (row_by_id table row);
  _ ← require (after ≠ Some (row_elem_id found) ∧ anchor_exists (rows table) after) ErrInvalidMove;
  id ← gets peek_next_id;
  observed ← gets session_state_vector;
  commit_single_id
    (wire (MoveTableRow (blk_elem block) tid row (row_elem_id found) id after
             (compute_right_origin after (rows table)) observed)) id.

(** ** Marks and frontmatter *)

Definition session_set_mark (block_id : BlockId) (start stop : nat) (kind : MarkKind)
    (attrs : gmap string MarkValue) : SM OpId :=
  block ← query (find_block_by_id block_id);
  block ← ok_or ErrBlockNotFound block;
  anchors ← query (grapheme_range_to_anchors block_id start stop);
  anchors ← match anchors with inl _ => throw ErrInvalidOffset | inr a => mret a end;
  id ← gets peek_next_id;
  commit_single_id (wire (SetMark (blk_elem block) block_id id kind anchors.1 anchors.2 attrs)) id.

Definition session_remove_mark (block_id : BlockId) (interval_id : OpId) : SM OpId :=
  block ← query (find_block_by_id block_id);
  block ← ok_or ErrBlockNotFound block;
  _ ← require (is_Some (interval (blk_marks block) interval_id)) ErrInvalidOffset;
  id ← gets peek_next_id;
  observed ← gets session_state_vector;
  commit_single_id (wire (RemoveMarkOp (blk_elem block) block_id interval_id id observed)) id.

Definition session_set_frontmatter_field (key : ustring) (value : option ustring) : SM OpId :=
  id ← gets peek_next_id;
  fm ← gets (λ s, default fm_empty (doc_frontmatter (s_document s)));
  _ ← match fm_set key value id fm with
      | inl e => throw (ErrFrontmatter e)
      | inr _ => mret tt
      end;
  commit_single_id (wire (SetFrontmatterField id key value)) id.

Definition initialize_frontmatter (fm : Frontmatter) : SM (option OpId) :=
  present ← gets (λ s, doc_frontmatter (s_document s));
  match present with
  | Some _ => mret None
  | None =>
    id ← gets peek_next_id;
    Some <$> commit_single_id (wire (InitializeFrontmatter id fm)) id
  end.

(** ** Moving blocks *)

(** The first loop of [move_block_ids]: the source parent and the target of one
    block. *)
Definition move_target (to_parent : option OpId)
    (acc : option (option OpId) * list (BlockId * OpId)) (block_id : BlockId) :
    SM (option (option OpId) * list (BlockId * OpId)) :=
  let '(source_parent, targets) := acc in
  block ← query (find_block_by_id block_id);
  block ← ok_or ErrBlockNotFound block;
  parent ← query (block_parent block_id);
  parent ← ok_or ErrInvalidMove parent;
  _ ← require (source_parent = None ∨ source_parent = Some parent) ErrInvalidMove;
  inside ← match to_parent with
           | Some candidate => query (block_contains_container block_id candidate)
           | None => mret false
           end;
  _ ← require (inside = false) ErrMoveCycle;
  mret (Some parent, targets ++ [(blk_id block, blk_elem block)]).

(** The second loop: consecutive ids from [id] on, each placed behind the previous. *)
Fixpoint chain_moves (base : OpId) (offset : N) (after right_origin : option OpId)
    (targets : list (BlockId * OpId)) : list MovedBlockWire :=
  match targets with
  | [] => []
  | (block_id, target) :: targets =>
    let id := mkOpId (u64_wrapping_add (counter base) offset) (peer base) in
    mkMovedBlock block_id target id after right_origin ::
      chain_moves base (offset + 1) (Some id) None targets
  end.

Definition move_block_ids (block_ids : list BlockId) (to_parent after : option OpId) : SM OpId :=
  _ ← require (block_ids ≠ []) ErrInvalidMove;
  destination ← query (container_children to_parent);
  destination ← ok_or ErrInvalidMove destination;
  _ ← require (anchor_exists destination after) ErrMissingAfterAnchor;
  '(_, targets) ← sm_fold (move_target to_parent) block_ids (None, []);
  _ ← require (¬ Exists (λ t, after = Some t.2) targets) ErrInvalidMove;
  base ← gets peek_next_id;
  let moves := chain_moves base 0 after (compute_right_origin after destination) targets in
  id ← ok_or ErrInvalidMove (mb_id <$> last moves);
  commit_single_id (wire (MoveBlocks to_parent id moves)) id.

Definition move_block (block_id : BlockId) (to_parent after : option OpId) : SM OpId :=
  move_block_ids [block_id] to_parent after.

Definition wrap_blocks (block_ids : list BlockId) : SM BlockId :=
  first ← ok_or ErrInvalidMove (head block_ids);
  parent ← query (block_parent first);
  parent ← ok_or ErrBlockNotFound parent;
  siblings ← query (container_children parent);
  siblings ← ok_or ErrInvalidMove siblings;
  let ordered := blk_id <$> sequence_iter siblings in
  start ← ok_or ErrBlockNotFound (position (λ i, bool_decide (i = first)) ordered);
  _ ← require (take (length block_ids) (drop start ordered) = block_ids) ErrInvalidMove;
  _ ← sm_fold (λ (_ : unit) id,
        p ← query (block_parent id); require (p = Some parent) ErrInvalidMove) block_ids tt;
  after ← match start with
          | 0 => mret None
          | S index => match ordered !! index with
                       | Some prior => b ← query (find_block_by_id prior); mret (blk_elem <$> b)
                       | None => mret None
                       end
          end;
  quote_elem ← insert_block_in parent after (BlockQuote sequence_new);
  _ ← move_block_ids block_ids (Some quote_elem) None;
  mret (block_id_from_op quote_elem).

Definition unwrap_blockquote (block_id : BlockId) : SM OpId :=
  block ← query (find_block_by_id block_id);
  block ← ok_or ErrBlockNotFound block;
  children ← match blk_kind block with
             | BlockQuote children => mret children
             | _ => throw ErrInvalidMove
             end;
  let child_ids := blk_id <$> sequence_iter children in
  parent ← query (block_parent block_id);
  parent ← ok_or ErrInvalidMove parent;
  siblings ← query (container_children parent);
  siblings ← ok_or ErrInvalidMove siblings;
  let ordered := sequence_iter siblings in
  index ← ok_or ErrBlockNotFound (position (λ b, bool_decide (blk_id b = block_id)) ordered);
  let after := match index with 0 => None | S prior => blk_elem <$> ordered !! prior end in
  _ ← (if decide (child_ids = []) then mret tt
       else _ ← move_block_ids child_ids parent after; mret tt);
  delete_block_in parent (blk_elem block).

Definition move_section (heading_id : BlockId) (after : option OpId) : SM OpId :=
  blocks ← gets (λ s, blocks_in_order (s_document s));
  start ← ok_or ErrBlockNotFound (position (λ b, bool_decide (blk_id b = heading_id)) blocks);
  level ← match blk_kind <$> blocks !! start with
          | Some (Heading level _) => mret level
          | _ => throw ErrInvalidMove
          end;
  let stop := match position (λ b, match blk_kind b with
                | Heading next _ => (next <=? level)%N | _ => false end) (drop (S start) blocks) with
              | Some relative => S start + relative
              | None => length blocks
              end in
  move_block_ids (blk_id <$> take (stop - start) (drop start blocks)) None after.

(** ** Splitting and merging *)

(** The visible units of a text with their ids. *)
Definition visible_units (body : Sequence TextUnit) : list (OpId * string) :=
  omap (λ e, (λ u, (elem_id e, grapheme u)) <$> elem_value e) (seq_elements body).

Definition split_block_in (parent : option OpId) (block_id : BlockId) (grapheme_offset : nat) :
    SM OpId :=
  children ← query (container_children parent);
  children ← ok_or ErrBlockNotFound children;
  block ← ok_or ErrBlockNotFound
    (snd <$> list_find (λ b, blk_id b = block_id) (sequence_iter children));
  '(body, kind) ← match blk_kind block with
    | Paragraph text => mret (text, WireParagraph)
    | Heading level text => mret (text, WireHeading level)
    | _ => throw ErrNotParagraph
    end;
  _ ← require (grapheme_offset ≤ len_visible body) ErrInvalidOffset;
  let units := (λ u : OpId * string, mkMovedUnit u.1 u.1 u.2)
                 <$> drop grapheme_offset (visible_units body) in
  id ← gets peek_next_id;
  right_origin ← query (compute_child_right_origin parent (Some (blk_elem block)));
  commit_single_id
    (wire (SplitBlock parent (blk_elem block) id (block_id_from_op id) right_origin kind units)) id.
Definition split_block (block_id : BlockId) (grapheme_offset : nat) : SM OpId :=
  split_block_in None block_id grapheme_offset.

(** A unit whose id the left block already has gets a fresh one. *)
Fixpoint replace_occupied (occupied : gset OpId) (fresh : OpId) (units : list (OpId * string)) :
    list MovedTextUnitWire :=
  match units with
  | [] => []
  | (source_id, g) :: units =>
    if decide (source_id ∈ occupied) then
      mkMovedUnit source_id fresh g ::
        replace_occupied occupied (mkOpId (u64_saturating_add (counter fresh) 1) (peer fresh)) units
    else mkMovedUnit source_id source_id g :: replace_occupied occupied fresh units
  end.

Definition merge_blocks_in (parent : option OpId) (left_id right_id : BlockId) : SM OpId :=
  action_id ← gets peek_next_id;
  children ← query (container_children parent);
  children ← ok_or ErrBlockNotFound children;
  let visible := sequence_iter children in
  left_pos ← ok_or ErrBlockNotFound (position (λ b, bool_decide (blk_id b = left_id)) visible);
  right_pos ← ok_or ErrBlockNotFound (position (λ b, bool_decide (blk_id b = right_id)) visible);
  _ ← require (right_pos = left_pos + 1) ErrBlocksNotAdjacent;
  left_block ← ok_or ErrBlockNotFound (visible !! left_pos);
  right_block ← ok_or ErrBlockNotFound (visible !! right_pos);
  left_body ← ok_or ErrNotParagraph (block_text_seq (blk_kind left_block));
  right_body ← ok_or ErrNotParagraph (block_text_seq (blk_kind right_block));
  let after := last (paragraph_visible_ids left_body) in
  let fresh := mkOpId (u64_saturating_add (counter action_id) 1) (peer action_id) in
  let units := replace_occupied (list_to_set (element_ids left_body)) fresh
                 (visible_units right_body) in
  let envelope := wire (MergeBlocks parent (blk_elem left_block) (blk_elem right_block) action_id
                          after (compute_right_origin after left_body) units) in
  let op_id := (extent envelope).1 in
  _ ← commit envelope op_id (u64_saturating_add (counter op_id) 1);
  mret op_id.
Definition merge_blocks (left_id right_id : BlockId) : SM OpId :=
  merge_blocks_in None left_id right_id.

(** ** Remote changes *)

(** What is checked of one remote operation before anything is integrated;
    [None] for an operation already in the log. *)
Definition prepare_op (s : CollaborativeDocument) (op : Operation) :
    SessionError + option (Operation * Envelope) :=
  if contains (s_sync s) (sop_id op) then inr None
  else if decide (counter (sop_id op) = 0%N)
  then inl (ErrValidation (MalformedOperation (sop_id op) ZeroCounter))
  else match decode (sop_payload op) with
  | inl m => inl (codec_err m)
  | inr env =>
    if decide (env_version env ≠ WIRE_VERSION) then inl (ErrUnknownWireVersion (env_version env))
    else match match env_body env with
               | Doc (InsertBlock _ _ _ _ block) => validate_block_skeleton (sk_kind block)
               | Doc _ => None
               end with
    | Some e => inl e
    | None =>
      if s_unit_mode s && negb (insert_block_paragraph_is_empty env)
      then inl ErrNonEmptyParagraphOnInsertBlock
      else match check_operation_id_is_max graphemes op env with
      | Some e => inl e
      | None => match check_peer_consistency op env with
                | Some e => inl e
                | None => inr (Some (op, env))
                end
      end
    end
  end.

Fixpoint prepare_ops (s : CollaborativeDocument) (ops : list Operation) :
    SessionError + list (Operation * Envelope) :=
  match ops with
  | [] => inr []
  | op :: ops =>
    match prepare_op s op with
    | inl e => inl e
    | inr p => match prepare_ops s ops with
               | inl e => inl e
               | inr l => inr (match p with Some x => x :: l | None => l end)
               end
    end
  end.

Definition observed_frontier_is_ready (st : SyncState) (envelope : Envelope) : bool :=
  match envelope_observed_frontier envelope with
  | None => true
  | Some observed =>
    forallb (λ pc : PeerId * N, (pc.2 <=? sv_seen (state_vector st) pc.1)%N)
      (StateVectorOps.iter observed)
  end.

Definition defer_envelope (id : OpId) (env : Envelope) (s : CollaborativeDocument) :
    CollaborativeDocument :=
  set_pending_envelopes (<[id := env]> (s_pending_envelopes s)) s.

(** [if !l.contains(&id) { l.push(id) }]. *)
Definition push_new (id : OpId) (l : list OpId) : list OpId :=
  if decide (id ∈ l) then l else l ++ [id].

Definition apply_or_defer (id : OpId) (env : Envelope)
    (acc : CollaborativeDocument * SessionApplyResult) : CollaborativeDocument * SessionApplyResult :=
  let '(s, r) := acc in
  if observed_frontier_is_ready (s_sync s) env then
    (set_document (apply_envelope env (s_document s)) s,
     mkSessionResult (push_new id (sres_applied r)) (filter (λ p, p ≠ id) (sres_buffered r)))
  else (defer_envelope id env s, mkSessionResult (sres_applied r) (push_new id (sres_buffered r))).

(** The loop over promoted operations; an envelope that cannot be decoded ends it. *)
Fixpoint drain_promoted_loop (promoted : list Operation)
    (acc : CollaborativeDocument * SessionApplyResult) :
    CollaborativeDocument * (SessionError + SessionApplyResult) :=
  match promoted with
  | [] => (acc.1, inr acc.2)
  | op :: promoted =>
    let '(s, r) := acc in
    match s_pending_envelopes s !! sop_id op with
    | Some env =>
      drain_promoted_loop promoted
        (apply_or_defer (sop_id op) env
           (set_pending_envelopes (delete (sop_id op) (s_pending_envelopes s)) s, r))
    | None =>
      match decode (sop_payload op) with
      | inl m => (s, inl (codec_err m))
      | inr env => drain_promoted_loop promoted (apply_or_defer (sop_id op) env (s, r))
      end
    end
  end.

Definition drain_promoted (r : SessionApplyResult) : SM SessionApplyResult := λ s,
  let '(st, promoted) := promote_ready_pending (s_sync s) in
  drain_promoted_loop promoted (set_sync st s, r).

(** The envelopes whose operation is logged and whose frontier has been reached. *)
Definition ready_envelopes (s : CollaborativeDocument) : list OpId :=
  btree_keys (filter (λ x : OpId * Envelope,
    contains (s_sync s) x.1 && observed_frontier_is_ready (s_sync s) x.2)
    (s_pending_envelopes s)).

Definition take_deferred (acc : CollaborativeDocument * SessionApplyResult) (id : OpId) :
    CollaborativeDocument * SessionApplyResult :=
  let '(s, r) := acc in
  match s_pending_envelopes s !! id with
  | Some env =>
    apply_or_defer id env (set_pending_envelopes (delete id (s_pending_envelopes s)) s, r)
  | None => (s, r)
  end.

Fixpoint drain_deferred_loop (fuel : nat) (acc : CollaborativeDocument * SessionApplyResult) :
    CollaborativeDocument * SessionApplyResult :=
  match fuel with
  | 0 => acc
  | S fuel =>
    match ready_envelopes acc.1 with
    | [] => acc
    | ready => drain_deferred_loop fuel (fold_left take_deferred ready acc)
    end
  end.

(** One pass empties the ready envelopes and the next finds none. *)
Definition drain_deferred (acc : CollaborativeDocument * SessionApplyResult) :
    CollaborativeDocument * SessionApplyResult :=
  drain_deferred_loop 2 acc.

(** One prepared operation. *)
Definition integrate (r : SessionApplyResult) (x : Operation * Envelope) : SM SessionApplyResult :=
  λ s,
  let '(op, env) := x in
  let '(st, outcome) := apply_one op (extent env).2 (s_sync s) in
  let s := set_sync st s in
  match outcome with
  | AlreadyPresent => (s, inr r)
  | Buffered =>
    (defer_envelope (sop_id op) env s,
     inr (mkSessionResult (sres_applied r) (sres_buffered r ++ [sop_id op])))
  | Applied =>
    let '(s, r) := apply_or_defer (sop_id op) env (s, r) in
    match drain_promoted r s with
    | (s, inl e) => (s, inl e)
    | (s, inr r) => let '(s, r) := drain_deferred (s, r) in (s, inr r)
    end
  end.

Definition deferred_count (s : CollaborativeDocument) : nat :=
  length (filter (λ id, contains (s_sync s) id) (btree_keys (s_pending_envelopes s))).

Definition apply_remote (message : ChangeMessage) (limits : ValidationLimits) :
    SM SessionApplyResult := λ s,
  match validate_changes message limits (sync_pending_count (s_sync s) + deferred_count s) with
  | Some e => (s, inl (ErrValidation e))
  | None =>
    match prepare_ops s (msg_ops message) with
    | inl e => (s, inl e)
    | inr prepared =>
      match sm_fold integrate prepared (mkSessionResult [] []) s with
      | (s, inl e) => (s, inl e)
      | (s, inr r) => let '(s, r) := drain_deferred (s, r) in (s, inr r)
      end
    end
  end.
End session.
