(* ===== verification/SessionTrace.v ===== *)
(** * Local operations of a session

    Every local operation of a session is a sequence of commits: the document
    changes only by applying the committed envelopes, each of which is logged
    under the largest id it contains; the ids of a commit are the next counters
    of the session's clock, in one piece.  The rules below follow the structure
    of the operations; one tactic applies them. *)

From S2P Require Import Prelude Core Sequence Mark MarkOps Table Frontmatter Codec Text Block.
From S2P Require Import Document DocumentCache Sync Draft SessionWire TreeInv Session.

Create HintDb session.

(** ** Queries touch the cached index only *)

Definition cache_only (d d' : Document) : Prop := d' = d ∨ d' = rebuild_block_index d.

#[export] Instance cache_only_preorder : PreOrder cache_only.
Proof.
  split; [by left|]. intros d d' d'' [->| ->] [->| ->]; [by left|by right..].
Qed.

Lemma cache_only_wf d d' : cache_only d d' → document_wf d' → document_wf d.
Proof. by intros [->| ->]. Qed.

Lemma cache_only_rebuild d : cache_only d (rebuild_block_index d).
Proof. by right. Qed.
Lemma cache_only_ensure d : cache_only d (ensure_block_index d).
Proof. unfold ensure_block_index. repeat case_match; try done; apply cache_only_rebuild. Qed.

Lemma cache_only_find_through {K} `{Countable K} (key : BlockIndex → gmap K BlockPath) k ok d :
  cache_only d (find_through key k ok d).1.
Proof.
  unfold find_through. case_match; simpl; [apply cache_only_ensure|].
  etrans; [apply cache_only_ensure|apply cache_only_rebuild].
Qed.
Lemma cache_only_find e d : cache_only d (find_block e d).1.
Proof. apply cache_only_find_through. Qed.
Lemma cache_only_find_id e d : cache_only d (find_block_by_id e d).1.
Proof. apply cache_only_find_through. Qed.
Lemma cache_only_parent e d : cache_only d (block_parent e d).1.
Proof. apply cache_only_ensure. Qed.
Lemma cache_only_contains e c d : cache_only d (block_contains_container e c d).1.
Proof.
  unfold block_contains_container. pose proof (cache_only_find_id e d).
  by destruct (find_block_by_id e d).
Qed.
Lemma cache_only_children p d : cache_only d (container_children p d).1.
Proof.
  unfold container_children. destruct p as [p|]; [|done]. pose proof (cache_only_find p d).
  destruct (find_block p d) as [d1 b]. by repeat case_match.
Qed.
Lemma cache_only_right_origin p a d : cache_only d (compute_child_right_origin p a d).1.
Proof.
  unfold compute_child_right_origin. pose proof (cache_only_children p d).
  by destruct (container_children p d).
Qed.
Lemma cache_only_anchors b i j d : cache_only d (grapheme_range_to_anchors b i j d).1.
Proof.
  unfold grapheme_range_to_anchors. pose proof (cache_only_find_id b d).
  destruct (find_block_by_id b d) as [d1 [x|]]; [|done]. by case_match.
Qed.
#[export] Hint Resolve cache_only_find cache_only_find_id cache_only_parent cache_only_contains
  cache_only_children cache_only_right_origin cache_only_anchors : session.

(** ** Counters *)

Section extents.
Context (graphemes : string → list string).

Lemma fold_max_start {A} (f : A → N) l a : (a ≤ fold_left (λ hi x, N.max hi (f x)) l a)%N.
Proof. revert a. induction l as [|x l IH]; intros a; simpl; [lia|]. specialize (IH (N.max a (f x))). lia. Qed.

Lemma max_counter_ge k p :
  (max_counter_in_kind graphemes k p < u64_max)%N → (counter p ≤ max_counter_in_kind graphemes k p)%N.
Proof.
  destruct k as [| |? items| |children| |]; simpl; intros H; try lia.
  - unfold u64_saturating_add in *. lia.
  - unfold u64_saturating_add in *. lia.
  - apply fold_raises. intros a [? ? ? ? ? ? ch].
    etrans; [|apply fold_raises]; [lia|]. intros b [? ? ? []]. lia.
  - apply fold_raises. intros a [? ? ? []]. lia.
Qed.

Lemma span_between_exact lo hi : (lo ≤ hi)%N → (hi < u64_max)%N → span_between lo hi = (hi - lo + 1)%N.
Proof. intros ??. unfold span_between, u64_saturating_add, u64_saturating_sub. lia. Qed.

Lemma extent_single op id v :
  single_id op = Some id → operation_extent graphemes (mkEnvelope v (Doc op)) = (id, 1%N).
Proof. destruct op; try done; by intros [= <-]. Qed.
End extents.

(** ** Traces *)

Section trace.
Context (inc : bool) (graphemes : string → list string).
Context (encode : Envelope → string + list Byte.byte).

Abbreviation apply_envelope := (apply_envelope_to_document inc graphemes).
Abbreviation extent := (operation_extent graphemes).
Abbreviation commit := (commit inc graphemes encode).

(** The ids a commit allocates. *)
Definition new_ids (env : Envelope) : list OpId :=
  match env_body env with
  | Doc (InsertText _ _ units) => uw_id <$> units
  | Doc (MoveBlocks _ _ blocks) => mb_id <$> blocks
  | _ => [(extent env).1]
  end.

(** The clock has not reached its end. *)
Definition below_max (env : Envelope) : Prop :=
  Forall (λ id, (counter id < u64_max)%N) (new_ids env).

Definition skeleton_valid (env : Envelope) : Prop :=
  match env_body env with
  | Doc (InsertBlock _ _ _ _ block) => validate_block_skeleton (sk_kind block) = None
  | _ => True
  end.

(** What a session guarantees of each operation it commits. *)
Record commit_ok (s : CollaborativeDocument) (env : Envelope) (id : OpId) (next : N) : Prop := {
  ok_version : env_version env = WIRE_VERSION;
  ok_skeleton : skeleton_valid env;
  ok_unit_mode : s_unit_mode s = true → insert_block_paragraph_is_empty env = true;
  ok_observed : ∀ observed, envelope_observed_frontier env = Some observed →
    observed = session_state_vector s;
  ok_id : (extent env).1 = id;
  ok_peer : peer id = s_peer s;
  ok_peers : ∀ payload, check_peer_consistency (mkOperation id payload) env = None;
  ok_allocated : (s_next_counter s ≤ u64_max)%N → below_max env →
    (s_next_counter s ≤ counter id < u64_max)%N ∧ (extent env).2 = (counter id - s_next_counter s + 1)%N ∧
    next = (counter id + 1)%N;
  ok_units : document_wf (s_document s) → units_distinct env;
}.

Definition committed (env : Envelope) (id : OpId) (next : N) (payload : list Byte.byte)
    (s : CollaborativeDocument) : CollaborativeDocument :=
  mkSession (s_peer s) next (apply_envelope env (s_document s))
    (add_local_op (mkOperation id payload) (s_sync s)) (s_unit_mode s) (s_pending_envelopes s).

(** [local_trace s l s']: the session goes from [s] to [s'] by committing the
    operations [l], refreshing its index in between. *)
Inductive local_trace : CollaborativeDocument → list (Envelope * Operation) →
    CollaborativeDocument → Prop :=
  | trace_nil s : local_trace s [] s
  | trace_query s d l s' :
      cache_only (s_document s) d → local_trace (set_document d s) l s' → local_trace s l s'
  | trace_commit s env id next payload l s' :
      commit_ok s env id next → encode env = inr payload →
      local_trace (committed env id next payload s) l s' →
      local_trace s ((env, mkOperation id payload) :: l) s'.

Lemma trace_trans s l s1 l' s2 : local_trace s l s1 → local_trace s1 l' s2 → local_trace s (l ++ l') s2.
Proof. induction 1; intros H2; simpl; [done|by eapply trace_query; eauto|by eapply trace_commit; eauto]. Qed.

(** [m] run at [s] is a trace, whether it fails or not. *)
Definition safe {A} (m : SM A) (s : CollaborativeDocument) : Prop :=
  ∃ l, local_trace s l (m s).1.

(** ** Rules *)

Lemma safe_ret {A} (x : A) s : safe (mret x) s.
Proof. exists []. constructor. Qed.
Lemma safe_throw {A} e s : safe (throw e : SM A) s.
Proof. exists []. constructor. Qed.

Lemma safe_bind {A B} (m : SM A) (k : A → SM B) s :
  safe m s → (∀ s' x, m s = (s', inr x) → safe (k x) s') → safe (x ← m; k x) s.
Proof.
  intros [l Hl] Hk. unfold safe, mbind, SM_bind. destruct (m s) as [s1 [e|x]] eqn:E; simpl in *.
  - by exists l.
  - destruct (Hk s1 x eq_refl) as [l' Hl']. exists (l ++ l'). by eapply trace_trans.
Qed.

Lemma safe_query {A B} (f : Document → Document * A) (k : A → SM B) s :
  (∀ d, cache_only d (f d).1) →
  (∀ x, f (s_document s) = ((f (s_document s)).1, x) → safe (k x) (set_document (f (s_document s)).1 s)) →
  safe (x ← query f; k x) s.
Proof.
  intros Hf Hk. unfold safe, mbind, SM_bind, query. specialize (Hf (s_document s)).
  destruct (f (s_document s)) as [d x] eqn:E; simpl in *. destruct (Hk x eq_refl) as [l Hl].
  exists l. by eapply trace_query.
Qed.
Lemma safe_gets {A B} (f : CollaborativeDocument → A) (k : A → SM B) s :
  safe (k (f s)) s → safe (x ← gets f; k x) s.
Proof. done. Qed.
Lemma safe_lift {A B} r (k : A → SM B) s : (∀ x, r = inr x → safe (k x) s) → safe (x ← lift r; k x) s.
Proof. intros Hk. destruct r as [e|x]; [exists []; constructor|by apply Hk]. Qed.
Lemma safe_ok_or {A B} e o (k : A → SM B) s :
  (∀ x, o = Some x → safe (k x) s) → safe (x ← ok_or e o; k x) s.
Proof. intros Hk. destruct o as [x|]; [by apply Hk|exists []; constructor]. Qed.
Lemma safe_check {B} o (k : unit → SM B) s : (o = None → safe (k tt) s) → safe (x ← check o; k x) s.
Proof. intros Hk. destruct o as [e|]; [exists []; constructor|by apply Hk]. Qed.
Lemma safe_require {B} P `{Decision P} e (k : unit → SM B) s :
  (P → safe (k tt) s) → safe (x ← require P e; k x) s.
Proof.
  intros Hk. unfold require. destruct (decide P); [by apply Hk|exists []; constructor].
Qed.
Lemma safe_fmap {A B} (g : A → B) (m : SM A) s : safe m s → safe (g <$> m) s.
Proof.
  intros [l Hl]. exists l. unfold fmap, SM_fmap. by destruct (m s) as [s1 [e|x]].
Qed.
Lemma safe_fold {A S} (f : S → A → SM S) l x s :
  (∀ x a s, a ∈ l → safe (f x a) s) → safe (sm_fold f l x) s.
Proof.
  revert x s. induction l as [|a l IH]; intros x s Hf; simpl; [apply safe_ret|].
  apply safe_bind; [apply Hf; left|]. intros s1 y _. apply IH. intros. apply Hf. by right.
Qed.

Lemma safe_commit env id next s : commit_ok s env id next → safe (commit env id next) s.
Proof.
  intros Hok. unfold safe, Session.commit. destruct (encode env) as [m|payload] eqn:E; simpl.
  - exists []. constructor.
  - exists [(env, mkOperation id payload)]. by eapply trace_commit; [|exact E|constructor].
Qed.

(** ** Commits *)

Lemma wrapping_next c : (c < u64_max)%N → u64_wrapping_add c 1 = (c + 1)%N.
Proof.
  intros H. unfold u64_wrapping_add. rewrite N.mod_small; [done|].
  unfold u64_max, u64_modulus in *. lia.
Qed.

Lemma peer_is_own p id : peer id = p → peer_is p id = None.
Proof. intros <-. unfold peer_is. by rewrite decide_False by (intros H; by apply H). Qed.

Lemma single_commit_ok op s :
  single_id op = Some (peek_next_id s) →
  (∀ observed, envelope_observed_frontier (wire op) = Some observed →
    observed = session_state_vector s) →
  (document_wf (s_document s) → units_distinct (wire op)) →
  commit_ok s (wire op) (peek_next_id s) (u64_wrapping_add (counter (peek_next_id s)) 1).
Proof.
  intros Hid Hobs Hu. pose proof (extent_single graphemes op _ WIRE_VERSION Hid) as He.
  fold (wire op) in He. split; try (by rewrite He); try done.
  - by destruct op.
  - by destruct op.
  - intros payload. destruct op; try done; unfold check_peer_consistency; simpl in *;
      injection Hid as ->; by apply peer_is_own.
  - intros _ Hb. rewrite He. simpl. assert (counter (peek_next_id s) < u64_max)%N as Hlt.
    { unfold below_max, new_ids in Hb. rewrite He in Hb.
      destruct op; try done; by apply Forall_cons in Hb as [? _]. }
    split_and!; [done|done|simpl; lia|]. by rewrite wrapping_next.
Qed.

Abbreviation commit_single_id := (commit_single_id inc graphemes encode).

Lemma safe_single op id s :
  single_id op = Some id → id = peek_next_id s →
  (∀ observed, envelope_observed_frontier (wire op) = Some observed →
    observed = session_state_vector s) →
  (document_wf (s_document s) → units_distinct (wire op)) →
  safe (commit_single_id (wire op) id) s.
Proof.
  intros Hop -> Hobs Hu. unfold Session.commit_single_id. apply safe_bind; [|intros; apply safe_ret].
  by apply safe_commit, single_commit_ok.
Qed.
End trace.

(** Applies the rules of a session program; commits are left. *)
Ltac session_step :=
  match goal with
  | |- safe _ _ _ (mret _) _ => apply safe_ret
  | |- safe _ _ _ (throw _) _ => apply safe_throw
  | |- safe _ _ _ (mbind _ (query _)) _ => apply safe_query; [eauto with session|intros ? ?]
  | |- safe _ _ _ (mbind _ (gets _)) _ => apply safe_gets
  | |- safe _ _ _ (mbind _ (lift _)) _ => apply safe_lift; intros ? ?
  | |- safe _ _ _ (mbind _ (ok_or _ _)) _ => apply safe_ok_or; intros ? ?
  | |- safe _ _ _ (mbind _ (check _)) _ => apply safe_check; intros ?
  | |- safe _ _ _ (mbind _ (require _ _)) _ => apply safe_require; intros ?
  | |- safe _ _ _ (mbind _ (mret _)) _ => apply safe_bind; [apply safe_ret|intros ? ? [= <- <-]]
  | |- safe _ _ _ (commit_single_id _ _ _ (wire _) _) _ => apply safe_single; [reflexivity|reflexivity|intros ? Hobs; cbn in Hobs; by simplify_eq|try (intros _; exact I)]
  | |- safe _ _ _ (mbind _ (throw _)) _ => apply safe_bind; [apply safe_throw|by intros ? ? [=]]
  | |- safe _ _ _ (mbind _ (match ?x with _ => _ end)) _ => destruct x eqn:?
  | |- safe _ _ _ (require ?P _) _ =>
    unfold require; destruct (decide P); [apply safe_ret|apply safe_throw]
  | |- safe _ _ _ (ok_or _ ?o) _ => destruct o; [apply safe_ret|apply safe_throw]
  | |- safe _ _ _ (_ <$> _) _ => apply safe_fmap
  | |- safe _ _ _ (sm_fold _ _ _) _ => apply safe_fold; intros ? ? ? ?
  | |- safe _ _ _ (match ?x with _ => _ end) _ => destruct x eqn:?
  | |- safe _ _ _ (let '(_, _) := ?x in _) _ => destruct x eqn:?
  | |- safe _ _ _ ((if ?x then _ else _) ≫= _) _ => destruct x
  end.
Ltac session_steps := intros; repeat (cbv zeta; session_step).
