(* ===== verification/SessionLocal.v ===== *)
(** * The local operations of a session, one by one

    Each operation of [src/src/session/mod.rs] satisfies the rules of
    [SessionTrace]; [run_local] is the union of them. *)

From S2P Require Import Prelude Core Sequence SequenceInv Mark MarkOps Table Frontmatter Codec Text Block.
From S2P Require Import Document DocumentCache Sync Draft SessionWire TreeInv Session SessionTrace.

(** ** Chains of ids *)

Lemma chain_text_peers id after ro gs u : u ∈ chain_text id after ro gs → peer (uw_id u) = peer id.
Proof.
  revert id after ro. induction gs as [|g gs IH]; intros id after ro; simpl; [by intros ?%not_elem_of_nil|].
  intros [->|H]%elem_of_cons; [done|]. by rewrite (IH _ _ _ H).
Qed.

(** The counters of the units, below the end of the clock. *)
Lemma chain_text_counters id after ro gs :
  Forall (λ id, (counter id < u64_max)%N) (uw_id <$> chain_text id after ro gs) →
  (λ u, counter (uw_id u)) <$> chain_text id after ro gs =
    (λ i, counter id + N.of_nat i)%N <$> seq 0 (length gs).
Proof.
  revert id after ro. induction gs as [|g gs IH]; intros id after ro; [done|]. csimpl.
  intros [Hc H]%Forall_cons. cbn in Hc. rewrite IH by done.
  replace (u64_saturating_add (counter id) 1) with (counter id + 1)%N
    by (unfold u64_saturating_add; lia).
  f_equal; [lia|]. rewrite <-fmap_S_seq, <-list_fmap_compose. apply list_fmap_ext. intros i x _. simpl. lia.
Qed.

Lemma fold_max_fmap {A} (f : A → N) l a :
  fold_left (λ hi x, N.max hi (f x)) l a = fold_left N.max (f <$> l) a.
Proof. revert a. induction l as [|x l IH]; intros a; simpl; [done|]. apply IH. Qed.
Lemma fold_min_fmap {A} (f : A → N) l a :
  fold_left (λ lo x, N.min lo (f x)) l a = fold_left N.min (f <$> l) a.
Proof. revert a. induction l as [|x l IH]; intros a; simpl; [done|]. apply IH. Qed.

(** The maximum and the minimum of consecutive counters. *)
Lemma fold_max_seq c a n b :
  (b ≤ c + N.of_nat a)%N → 0 < n →
  fold_left N.max ((λ i, c + N.of_nat i)%N <$> seq a n) b = (c + N.of_nat (a + n) - 1)%N.
Proof.
  revert a b. induction n as [|n IH]; intros a b Hb Hn; [lia|]. cbn [seq]. rewrite fmap_cons. cbn [fold_left].
  destruct n as [|n]; [simpl; lia|]. rewrite IH by lia. lia.
Qed.
Lemma fold_min_seq c a n b :
  (b ≤ c + N.of_nat a)%N → fold_left N.min ((λ i, c + N.of_nat i)%N <$> seq a n) b = b.
Proof.
  revert a b. induction n as [|n IH]; intros a b Hb; [done|]. cbn [seq]. rewrite fmap_cons. cbn [fold_left].
  rewrite N.min_l by done. apply IH. lia.
Qed.

Lemma chain_moves_peers base o after ro ts b : b ∈ chain_moves base o after ro ts → peer (mb_id b) = peer base.
Proof.
  revert o after ro. induction ts as [|[bid t] ts IH]; intros o after ro; simpl; [by intros ?%not_elem_of_nil|].
  intros [->|H]%elem_of_cons; [done|]. by rewrite (IH _ _ _ H).
Qed.

Lemma wrapping_small c : (c ≤ u64_max)%N → (c `mod` u64_modulus)%N = c.
Proof. intros H. apply N.mod_small. unfold u64_max, u64_modulus in *. lia. Qed.

Lemma chain_moves_counters base o after ro ts :
  (counter base + o ≤ u64_max)%N →
  Forall (λ id, (counter id < u64_max)%N) (mb_id <$> chain_moves base o after ro ts) →
  (λ b, counter (mb_id b)) <$> chain_moves base o after ro ts =
    (λ i, counter base + o + N.of_nat i)%N <$> seq 0 (length ts).
Proof.
  revert o after ro. induction ts as [|[bid t] ts IH]; intros o after ro Ho; [done|]. csimpl.
  intros [Hc H]%Forall_cons. cbn in Hc. unfold u64_wrapping_add in *. rewrite wrapping_small in * by done.
  rewrite IH by (done || lia). f_equal; [lia|].
  rewrite <-fmap_S_seq, <-list_fmap_compose. apply list_fmap_ext. intros i x _. simpl. lia.
Qed.

Lemma replace_occupied_peers occ fresh us u :
  u ∈ replace_occupied occ fresh us → mu_id u ≠ mu_source_id u → peer (mu_id u) = peer fresh.
Proof.
  revert fresh. induction us as [|[i g] us IH]; intros fresh; simpl; [by intros ?%not_elem_of_nil|].
  case_decide; intros [->|H1]%elem_of_cons Hne; try done; by rewrite (IH _ H1 Hne).
Qed.

(** ** Commits that allocate several ids *)

Section commits.
Context (graphemes : string → list string).
Abbreviation extent := (operation_extent graphemes).
Abbreviation commit_ok := (commit_ok graphemes).

Lemma insert_block_ok s parent after ro kind :
  let env := wire (InsertBlock parent after (peek_next_id s) ro
                     (mkSkeleton (block_id_from_op (peek_next_id s)) kind)) in
  validate_block_skeleton kind = None → check_kind_peers (s_peer s) kind = None →
  ¬ (s_unit_mode s = true ∧ insert_block_paragraph_is_empty env = false) →
  commit_ok s env (extent env).1 (u64_wrapping_add (counter (extent env).1) 1).
Proof.
  intros env Hv Hp Hu. split; try done.
  - intros Hm. destruct (insert_block_paragraph_is_empty env) eqn:E; [done|]. by destruct Hu.
  - intros payload. unfold check_peer_consistency. simpl. by rewrite peer_is_own.
  - intros _ Hb. apply Forall_cons in Hb as [Hb _]. simpl in *.
    pose proof (max_counter_ge graphemes _ _ Hb) as Hge. simpl in Hge.
    rewrite span_between_exact by done. rewrite wrapping_next by done. split_and!; [done|done|lia|done].
Qed.

Lemma insert_text_ok s elem bid after ro gs :
  let units := chain_text (peek_next_id s) after ro gs in
  let env := wire (InsertText elem bid units) in
  units ≠ [] → commit_ok s env (extent env).1 (u64_wrapping_add (counter (extent env).1) 1).
Proof.
  intros units env Hne.
  assert (Hpeers : Forall (λ u, peer (uw_id u) = s_peer s) units).
  { apply Forall_forall. intros u Hu. by rewrite (chain_text_peers _ _ _ _ _ Hu). }
  assert (Hgs : 0 < length gs) by (destruct gs; [done|simpl; lia]).
  split; try done.
  - destruct gs; [done|]. done.
  - intros payload. unfold check_peer_consistency. cbn [env_body env wire]. apply for_each_None.
    intros u Hu. apply peer_is_own. rewrite Forall_forall in Hpeers. rewrite Hpeers by done.
    destruct gs; [done|]. done.
  - intros _ Hb. unfold below_max, new_ids in Hb. cbn [env_body env wire] in Hb.
    pose proof (chain_text_counters _ _ _ _ Hb) as Hc. fold units in Hc.
    assert (He : extent env = (mkOpId (s_next_counter s + N.of_nat (length gs) - 1) (s_peer s),
      span_between (s_next_counter s) (s_next_counter s + N.of_nat (length gs) - 1))).
    { unfold operation_extent. cbn [env_body env wire].
      destruct units as [|u us] eqn:Hu; [done|]. assert (uw_id u = peek_next_id s) as Hid.
      { destruct gs; [done|]. by injection Hu as <- _. }
      rewrite Hid, fold_max_fmap, fold_min_fmap, Hc. cbn [counter peer peek_next_id].
      rewrite fold_max_seq, fold_min_seq by lia. done. }
    assert (Hlast : (s_next_counter s + N.of_nat (length gs) - 1 < u64_max)%N).
    { assert (Hin : (s_next_counter s + N.of_nat (length gs - 1))%N ∈ (λ u, counter (uw_id u)) <$> units).
      { rewrite Hc. apply list_elem_of_fmap. exists (length gs - 1). split; [done|]. apply elem_of_seq. lia. }
      apply list_elem_of_fmap in Hin as (u & Hu & Hin). rewrite Forall_fmap, Forall_forall in Hb.
      specialize (Hb u Hin). simpl in Hb. lia. }
    rewrite He. cbn [counter fst snd]. rewrite span_between_exact, wrapping_next by lia.
    split_and!; lia.
Qed.

Lemma move_ok s to_parent after ro ts id :
  let moves := chain_moves (peek_next_id s) 0 after ro ts in
  mb_id <$> last moves = Some id →
  commit_ok s (wire (MoveBlocks to_parent id moves)) id (u64_wrapping_add (counter id) 1).
Proof.
  intros moves Hlast.
  assert (Hpeers : Forall (λ b, peer (mb_id b) = s_peer s) moves).
  { apply Forall_forall. intros b Hb. by rewrite (chain_moves_peers _ _ _ _ _ _ Hb). }
  apply fmap_Some in Hlast as (m & Hm & ->).
  assert (Hin : m ∈ moves) by by apply last_Some_elem_of.
  assert (Hpid : peer (mb_id m) = s_peer s) by (rewrite Forall_forall in Hpeers; by apply Hpeers).
  split; try done.
  - intros payload. unfold check_peer_consistency. cbn. rewrite decide_False; [done|].
    intros [H|H]; [done|]. apply Exists_exists in H as (b & Hb & Hne). apply Hne.
    rewrite Forall_forall in Hpeers. rewrite Hpeers by done. by rewrite Hpid.
  - intros Hmax Hb. unfold below_max, new_ids in Hb. cbn [env_body wire] in Hb.
    pose proof (chain_moves_counters (peek_next_id s) 0 after ro ts ltac:(simpl; lia) Hb) as Hc.
    fold moves in Hc. cbn [counter peek_next_id] in Hc.
    assert (Hts : 0 < length ts) by (destruct ts as [|[]]; [done|simpl; lia]).
    assert (Hcm : counter (mb_id m) = (s_next_counter s + N.of_nat (length ts - 1))%N).
    { assert (Hl : last ((λ b, counter (mb_id b)) <$> moves) = Some (counter (mb_id m))).
      { rewrite fmap_last, Hm. done. }
      rewrite Hc, fmap_last in Hl. destruct (length ts) as [|n]; [lia|].
      rewrite seq_S, last_snoc in Hl. injection Hl as <-. f_equal; lia. }
    assert (Hlt : (counter (mb_id m) < u64_max)%N).
    { rewrite Forall_fmap, Forall_forall in Hb. by apply (Hb m). }
    unfold operation_extent. cbn [env_body wire snd].
    assert (min_counter ((λ b, counter (mb_id b)) <$> moves) = Some (s_next_counter s)) as ->.
    { rewrite Hc. destruct (length ts) as [|n]; [lia|]. cbn [seq]. rewrite fmap_cons. cbn [min_counter].
      rewrite fold_min_seq by lia. f_equal. lia. }
    cbn [default from_option id]. rewrite span_between_exact by lia. rewrite wrapping_next by lia.
    split_and!; lia.
Qed.

Lemma merge_ok s parent l r after ro units :
  (∀ u, u ∈ units → mu_id u ≠ mu_source_id u → peer (mu_id u) = s_peer s) →
  let env := wire (MergeBlocks parent l r (peek_next_id s) after ro units) in
  commit_ok s env (extent env).1 (u64_saturating_add (counter (extent env).1) 1).
Proof.
  intros Hu env. split; try done.
  - intros payload. unfold check_peer_consistency. cbn. rewrite decide_False; [done|].
    rewrite Exists_exists. intros (u & Hin & Hne & Hp). apply Hp. by apply Hu.
  - intros _ Hb. apply Forall_cons in Hb as [Hb _]. simpl in *.
    match goal with |- context [span_between _ ?h] => set (hi := h) in * end.
    assert (Hge : (s_next_counter s ≤ hi)%N) by apply fold_max_start.
    rewrite span_between_exact by done. unfold u64_saturating_add. split_and!; lia.
Qed.
End commits.

(** ** The operations *)

Section operations.
Context (inc : bool) (graphemes : string → list string).
Context (encode : Envelope → string + list Byte.byte).
Abbreviation safe := (safe inc graphemes encode).
Abbreviation insert_block_in := (insert_block_in inc graphemes encode).

Lemma safe_insert_block parent after kind s : safe (insert_block_in parent after kind) s.
Proof.
  unfold Session.insert_block_in. session_steps. apply safe_bind; [|session_steps].
  apply safe_commit. by refine (insert_block_ok graphemes _ parent after _ _ _ _ _).
Qed.

Lemma safe_insert_text bid o t s : safe (session_insert_text inc graphemes encode bid o t) s.
Proof.
  unfold session_insert_text. session_steps. apply safe_bind; [|session_steps].
  apply safe_commit. by refine (insert_text_ok graphemes _ _ bid _ _ _ _).
Qed.

Lemma safe_delete_block parent target s : safe (delete_block_in inc graphemes encode parent target) s.
Proof. unfold delete_block_in. session_steps. Qed.

Lemma safe_delete_text bid o n s : safe (session_delete_text inc graphemes encode bid o n) s.
Proof.
  unfold session_delete_text. session_steps. apply safe_bind; session_steps.
Qed.

Lemma safe_insert_paragraph parent after t s :
  safe (insert_paragraph_in inc graphemes encode parent after t) s.
Proof.
  unfold insert_paragraph_in. apply safe_bind; [apply safe_insert_block|]. session_steps.
  apply safe_bind; [apply safe_insert_text|session_steps].
Qed.

Lemma safe_find_list lid s : safe (find_list lid) s.
Proof. unfold find_list. session_steps. Qed.
Lemma safe_item_location i s : safe (item_location i) s.
Proof. unfold item_location. session_steps. Qed.
Lemma safe_find_kind bid ok e s : safe (find_kind bid ok e) s.
Proof. unfold find_kind. session_steps. Qed.
Lemma safe_find_table tid s : safe (find_table tid) s.
Proof. unfold find_table. session_steps. Qed.

Hint Resolve safe_insert_block safe_insert_text safe_delete_block safe_delete_text
  safe_insert_paragraph safe_find_list safe_item_location safe_find_kind safe_find_table : session.

(** A call of another operation, then the rest. *)
Ltac session_call :=
  apply safe_bind; [solve [eauto with session | session_steps]|];
  let s := fresh "s" in let x := fresh "x" in intros s x _; try destruct x.
Ltac session_auto := session_steps; repeat (session_call; session_steps); eauto with session.

Lemma safe_insert_item lid after t s : safe (insert_list_item inc graphemes encode lid after t) s.
Proof. unfold insert_list_item. session_auto. Qed.
Lemma safe_delete_item i s : safe (delete_list_item inc graphemes encode i) s.
Proof. unfold delete_list_item. session_auto. Qed.
Lemma safe_move_item i lid after s : safe (move_list_item inc graphemes encode i lid after) s.
Proof. unfold move_list_item. session_auto. Qed.
Lemma safe_list_style lid st s : safe (session_set_list_style inc graphemes encode lid st) s.
Proof. unfold session_set_list_style. session_auto. Qed.
Lemma safe_item_task i t s : safe (session_set_list_item_task inc graphemes encode i t) s.
Proof. unfold session_set_list_item_task. session_auto. Qed.
Lemma safe_code_fence b st i t s : safe (session_set_code_fence inc graphemes encode b st i t) s.
Proof. unfold session_set_code_fence. session_auto. Qed.
Lemma safe_convert b k s : safe (session_convert_text_block inc graphemes encode b k) s.
Proof. unfold session_convert_text_block. session_auto. Qed.
Lemma safe_replace_raw b r s : safe (session_replace_raw_block inc graphemes encode b r) s.
Proof. unfold session_replace_raw_block. session_auto. Qed.
Hint Resolve safe_insert_item safe_delete_item safe_move_item safe_list_style safe_item_task
  safe_code_fence safe_convert safe_replace_raw : session.

Lemma safe_draft d : ∀ parent after s, safe (insert_validated_draft inc graphemes encode parent after d) s.
Proof.
  induction d as [t|l t|st i t|r|children IH|style items IH] using draft_induction;
    intros parent after s; simpl; eauto with session.
  - session_auto.
  - session_call. apply safe_bind; [|session_steps]. apply safe_fold. intros x a s1 Ha. apply safe_fmap.
    rewrite Forall_forall in IH. by apply IH.
  - session_call. apply safe_bind; [|session_steps]. apply safe_fold. intros x [tk ch] s1 Ha.
    rewrite Forall_forall in IH. specialize (IH _ Ha). simpl in IH. rewrite Forall_forall in IH.
    session_call. apply safe_bind; [|session_steps]. apply safe_fold. intros. apply safe_fmap. by apply IH.
Qed.

Lemma safe_insert_draft parent after d lim s :
  safe (insert_draft_in inc graphemes encode parent after d lim) s.
Proof. unfold insert_draft_in. session_steps. apply safe_draft. Qed.
Lemma safe_item_draft lid after t ch lim s :
  safe (insert_list_item_draft inc graphemes encode lid after t ch lim) s.
Proof.
  unfold insert_list_item_draft. session_steps. session_call. apply safe_bind; [|session_steps].
  apply safe_fold. intros. apply safe_fmap, safe_draft.
Qed.

Lemma safe_insert_column tid after al h s : safe (insert_table_column inc graphemes encode tid after al h) s.
Proof. unfold insert_table_column. session_auto. Qed.
Lemma safe_set_cell tid r c v s : safe (session_set_table_cell inc graphemes encode tid r c v) s.
Proof. unfold session_set_table_cell. session_auto. Qed.
Lemma safe_elem_column tid c s : safe (table_elem_with_column tid c) s.
Proof. unfold table_elem_with_column. session_auto. Qed.
Hint Resolve safe_insert_column safe_set_cell safe_elem_column : session.
Lemma safe_set_alignment tid c al s : safe (set_table_column_alignment inc graphemes encode tid c al) s.
Proof. unfold set_table_column_alignment. session_auto. Qed.
Lemma safe_delete_column tid c s : safe (delete_table_column inc graphemes encode tid c) s.
Proof. unfold delete_table_column. session_auto. Qed.
Hint Resolve safe_set_alignment safe_delete_column : session.

Lemma safe_insert_table parent after cols h s :
  safe (insert_table_in inc graphemes encode parent after cols h) s.
Proof.
  unfold insert_table_in. session_steps. session_call. apply safe_bind; [|session_steps].
  session_steps. eauto with session.
Qed.
Lemma safe_insert_row tid after vs s : safe (insert_table_row inc graphemes encode tid after vs) s.
Proof. unfold insert_table_row. session_auto. Qed.
Lemma safe_row_cells tid r vs s : safe (set_table_row_cells inc graphemes encode tid r vs) s.
Proof.
  unfold set_table_row_cells. session_steps. session_call. session_steps.
  apply safe_bind; [session_steps; eauto with session|session_steps].
Qed.
Lemma safe_delete_row tid t s : safe (delete_table_row inc graphemes encode tid t) s.
Proof. unfold delete_table_row. session_auto. Qed.
Lemma safe_update_column tid last x s : safe (update_column inc graphemes encode tid last x) s.
Proof.
  destruct x as [[c def] v]. unfold update_column. apply safe_bind.
  - case_decide; session_steps. eauto with session.
  - session_steps. eauto with session.
Qed.
Lemma safe_metadata tid cols h s : safe (set_table_metadata inc graphemes encode tid cols h) s.
Proof.
  unfold set_table_metadata. session_steps. session_call. session_steps.
  apply safe_bind; [apply safe_fold; intros; apply safe_update_column|]. intros s1 x1 _.
  apply safe_bind; [session_steps; eauto with session|]. intros s2 x2 _.
  apply safe_bind; [session_steps; session_call; session_steps|]. intros s3 [? x3] _. session_steps.
Qed.
Lemma safe_move_column tid c a s : safe (move_table_column inc graphemes encode tid c a) s.
Proof. unfold move_table_column. session_auto. Qed.
Lemma safe_move_row tid r a s : safe (move_table_row inc graphemes encode tid r a) s.
Proof. unfold move_table_row. session_auto. Qed.
Lemma safe_set_mark b i j k at' s : safe (session_set_mark inc graphemes encode b i j k at') s.
Proof. unfold session_set_mark. session_auto. Qed.
Lemma safe_remove_mark b i s : safe (session_remove_mark inc graphemes encode b i) s.
Proof. unfold session_remove_mark. session_auto. Qed.
Lemma safe_set_field k v s : safe (session_set_frontmatter_field inc graphemes encode k v) s.
Proof. unfold session_set_frontmatter_field. session_auto. Qed.
Lemma safe_initialize fm s : safe (initialize_frontmatter inc graphemes encode fm) s.
Proof. unfold initialize_frontmatter. session_auto. Qed.

(** Computations that only look: they change nothing but the cached index. *)
Definition looks {A} (m : SM A) : Prop := ∀ s, ∃ d, cache_only (s_document s) d ∧ (m s).1 = set_document d s.

Lemma looks_id s : ∃ d, cache_only (s_document s) d ∧ s = set_document d s.
Proof. exists (s_document s). split; [done|]. by destruct s. Qed.
Lemma looks_bind {A B} (m : SM A) (k : A → SM B) : looks m → (∀ x, looks (k x)) → looks (x ← m; k x).
Proof.
  intros Hm Hk s. destruct (Hm s) as (d & Hd & E). unfold mbind, SM_bind.
  destruct (m s) as [s1 [e|x]]; simpl in E; subst; [by exists d|].
  destruct (Hk x (set_document d s)) as (d' & Hd' & ->). exists d'. split; [by etrans|done].
Qed.
Lemma looks_query {A} (f : Document → Document * A) : (∀ d, cache_only d (f d).1) → looks (query f).
Proof. intros Hf s. unfold query. pose proof (Hf (s_document s)). destruct (f (s_document s)) as [d x]. by exists d. Qed.
Lemma looks_pure {A} (r : SessionError + A) : looks (λ s, (s, r)).
Proof. intros s. apply looks_id. Qed.
Lemma looks_ret {A} (x : A) : looks (mret x).
Proof. apply looks_pure. Qed.
Lemma looks_fold {A S} (f : S → A → SM S) l x : (∀ x a, looks (f x a)) → looks (sm_fold f l x).
Proof.
  intros Hf. revert x. induction l as [|a l IH]; intros x; simpl; [apply looks_pure|].
  by apply looks_bind.
Qed.
Lemma looks_ok_or {A} e (o : option A) : looks (ok_or e o).
Proof. destruct o; apply looks_pure. Qed.
Lemma looks_require P `{Decision P} e : looks (require P e).
Proof. unfold require. destruct (decide P); apply looks_pure. Qed.

Lemma looks_move_target tp acc bid : looks (move_target tp acc bid).
Proof.
  destruct acc as [sp ts]. unfold move_target.
  repeat (apply looks_bind; [|intros ?]); eauto using looks_query, looks_ok_or, looks_require, looks_pure
    with session.
  - destruct tp; [apply looks_query; eauto with session|apply looks_pure].
Qed.

(** A look, then the rest at the same clock. *)
Lemma safe_looks {A B} (m : SM A) (k : A → SM B) s :
  looks m → (∀ d x, safe (k x) (set_document d s)) → safe (x ← m; k x) s.
Proof.
  intros Hm Hk. destruct (Hm s) as (d & Hd & E). unfold SessionTrace.safe, mbind, SM_bind.
  destruct (m s) as [s1 [e|x]]; simpl in *; subst.
  - exists []. eapply trace_query; [exact Hd|constructor].
  - destruct (Hk d x) as [l Hl]. exists l. by eapply trace_query.
Qed.

Lemma safe_move_ids ids tp after s : safe (move_block_ids inc graphemes encode ids tp after) s.
Proof.
  unfold move_block_ids. session_steps.
  apply safe_looks; [apply looks_fold, looks_move_target|]. intros d [sp ts]. session_steps.
  unfold commit_single_id. apply safe_bind; [|session_steps]. apply safe_commit.
  by refine (move_ok graphemes _ tp after _ ts _ _).
Qed.
Hint Resolve safe_move_ids : session.

Lemma safe_wrap ids s : safe (wrap_blocks inc graphemes encode ids) s.
Proof.
  unfold wrap_blocks. session_steps; session_call; session_steps; repeat (session_call; session_steps).
Qed.
Lemma safe_unwrap b s : safe (unwrap_blockquote inc graphemes encode b) s.
Proof.
  unfold unwrap_blockquote. session_steps; [eauto with session|].
  apply safe_bind; [session_call; session_steps|intros; eauto with session].
Qed.
Lemma safe_section h a s : safe (move_section inc graphemes encode h a) s.
Proof. unfold move_section. session_steps; eauto with session. Qed.
(** The units behind an offset, in a typed document, are distinct. *)
Lemma split_units_distinct p id o d d' c b text :
  document_wf d → container_children p d = (d', Some c) →
  snd <$> list_find (λ b, blk_id b = id) (sequence_iter c) = Some b → block_text_seq (blk_kind b) = Some text →
  NoDup (mu_id <$> ((λ u : OpId * string, mkMovedUnit u.1 u.1 u.2) <$> drop o (visible_units text))).
Proof.
  intros Hd E Hb Ht. apply children_wf in E as [_ Hc]; [|done]. specialize (Hc c eq_refl).
  apply fmap_Some in Hb as ([i b'] & Hf & ->). apply list_find_Some in Hf as (Hi & _).
  apply list_elem_of_lookup_2, (of_iter block_wf) in Hi; [|done]. apply block_wf_kind in Hi.
  assert (Hs : sequence_inv text) by (simpl in Ht; destruct (blk_kind b'); simplify_eq/=; done).
  rewrite <-list_fmap_compose. simpl.
  assert (Hn : NoDup (visible_units text).*1).
  { eapply sublist_NoDup; [apply (wf_nodup _ (inv_wf _ Hs))|]. unfold visible_units, element_ids.
    induction (seq_elements text) as [|e l IH]; simpl; [constructor|].
    destruct (elem_value e); simpl; by constructor. }
  eapply sublist_NoDup; [exact Hn|]. apply fmap_sublist, sublist_drop.
Qed.

Lemma safe_split p b o s : safe (split_block_in inc graphemes encode p b o) s.
Proof.
  unfold split_block_in. session_steps; intros Hd;
    (eapply (split_units_distinct p b _ (s_document s)); [|by rewrite H, H0|done|by rewrite Heqb0]);
    (eapply cache_only_wf; [|exact Hd]); etrans; apply cache_only_children || apply cache_only_right_origin.
Qed.
Lemma safe_merge p l r s : safe (merge_blocks_in inc graphemes encode p l r) s.
Proof.
  unfold merge_blocks_in. session_steps. apply safe_bind; [|session_steps]. apply safe_commit.
  refine (merge_ok graphemes _ p _ _ _ _ _ _). intros u Hu Hne.
  by rewrite (replace_occupied_peers _ _ _ _ Hu Hne).
Qed.
End operations.
