(* ===== verification/SessionClock.v ===== *)
(** * The clock of a session

    The local operations of a session as one type, and what they do to the log
    and to the clock: every operation commits envelopes whose ids tile the
    counters from the clock on, so that no id is ever used twice. *)

From S2P Require Import Prelude Core Sequence Mark MarkOps Table Frontmatter Codec Text Block.
From S2P Require Import Document DocumentCache Sync SyncInv Draft SessionWire Session SessionTrace.
From S2P Require Import SessionLocal.

(** ** The local operations *)

Inductive LocalOp :=
  | LInsertBlock (parent after : option OpId) (kind : BlockKind)
  | LDeleteBlock (parent : option OpId) (target : OpId)
  | LInsertText (block_id : BlockId) (offset : nat) (text : string)
  | LDeleteText (block_id : BlockId) (offset count : nat)
  | LInsertParagraph (parent after : option OpId) (text : string)
  | LInsertListItem (list_id : BlockId) (after : option OpId) (task : option TaskState)
  | LDeleteListItem (item_id : BlockId)
  | LMoveListItem (item_id list_id : BlockId) (after : option OpId)
  | LSetListStyle (list_id : BlockId) (style : ListStyle)
  | LSetListItemTask (item_id : BlockId) (task : option TaskState)
  | LSetCodeFence (block_id : BlockId) (style : CodeFenceStyle) (info : option string) (text : string)
  | LConvertTextBlock (block_id : BlockId) (kind : TextBlockKind)
  | LReplaceRawBlock (block_id : BlockId) (raw : string)
  | LInsertDraft (parent after : option OpId) (draft : BlockDraft) (limits : StructuredEditLimits)
  | LInsertListItemDraft (list_id : BlockId) (after : option OpId) (task : option TaskState)
      (children : list BlockDraft) (limits : StructuredEditLimits)
  | LInsertTable (parent after : option OpId) (cols : list ColumnDef) (header : list string)
  | LInsertTableColumn (tid : BlockId) (after : option OpId) (alignment : ColumnAlignment)
      (header : string)
  | LInsertTableRow (tid : BlockId) (after : option OpId) (values : list string)
  | LSetTableCell (tid : BlockId) (row : RowId) (column : ColumnId) (value : string)
  | LSetTableRowCells (tid : BlockId) (row : OpId) (values : list string)
  | LDeleteTableRow (tid : BlockId) (target : OpId)
  | LSetTableColumnAlignment (tid : BlockId) (column : ColumnId) (alignment : ColumnAlignment)
  | LDeleteTableColumn (tid : BlockId) (column : ColumnId)
  | LSetTableMetadata (tid : BlockId) (cols : list ColumnDef) (header : list string)
  | LMoveTableColumn (tid : BlockId) (column : ColumnId) (after : option OpId)
  | LMoveTableRow (tid : BlockId) (row : RowId) (after : option OpId)
  | LSetMark (block_id : BlockId) (start stop : nat) (kind : MarkKind) (attrs : gmap string MarkValue)
  | LRemoveMark (block_id : BlockId) (interval_id : OpId)
  | LSetFrontmatterField (key : ustring) (value : option ustring)
  | LInitializeFrontmatter (fm : Frontmatter)
  | LMoveBlocks (block_ids : list BlockId) (to_parent after : option OpId)
  | LWrapBlocks (block_ids : list BlockId)
  | LUnwrapBlockquote (block_id : BlockId)
  | LMoveSection (heading_id : BlockId) (after : option OpId)
  | LSplitBlock (parent : option OpId) (block_id : BlockId) (offset : nat)
  | LMergeBlocks (parent : option OpId) (left_id right_id : BlockId).

Definition ignore {A} (m : SM A) : SM unit := (λ _, tt) <$> m.

Section clock.
Context (inc : bool) (graphemes : string → list string).
Context (encode : Envelope → string + list Byte.byte).

Definition run_local (op : LocalOp) : SM unit :=
  match op with
  | LInsertBlock parent after kind => ignore (insert_block_in inc graphemes encode parent after kind)
  | LDeleteBlock parent target => ignore (delete_block_in inc graphemes encode parent target)
  | LInsertText b o t => ignore (session_insert_text inc graphemes encode b o t)
  | LDeleteText b o n => ignore (session_delete_text inc graphemes encode b o n)
  | LInsertParagraph parent after t => ignore (insert_paragraph_in inc graphemes encode parent after t)
  | LInsertListItem l after t => ignore (insert_list_item inc graphemes encode l after t)
  | LDeleteListItem i => ignore (delete_list_item inc graphemes encode i)
  | LMoveListItem i l after => ignore (move_list_item inc graphemes encode i l after)
  | LSetListStyle l st => ignore (session_set_list_style inc graphemes encode l st)
  | LSetListItemTask i t => ignore (session_set_list_item_task inc graphemes encode i t)
  | LSetCodeFence b st i t => ignore (session_set_code_fence inc graphemes encode b st i t)
  | LConvertTextBlock b k => ignore (session_convert_text_block inc graphemes encode b k)
  | LReplaceRawBlock b r => ignore (session_replace_raw_block inc graphemes encode b r)
  | LInsertDraft parent after d lim => ignore (insert_draft_in inc graphemes encode parent after d lim)
  | LInsertListItemDraft l after t ch lim =>
    ignore (insert_list_item_draft inc graphemes encode l after t ch lim)
  | LInsertTable parent after cols h => ignore (insert_table_in inc graphemes encode parent after cols h)
  | LInsertTableColumn t after al h => ignore (insert_table_column inc graphemes encode t after al h)
  | LInsertTableRow t after vs => ignore (insert_table_row inc graphemes encode t after vs)
  | LSetTableCell t r c v => ignore (session_set_table_cell inc graphemes encode t r c v)
  | LSetTableRowCells t r vs => ignore (set_table_row_cells inc graphemes encode t r vs)
  | LDeleteTableRow t r => ignore (delete_table_row inc graphemes encode t r)
  | LSetTableColumnAlignment t c al => ignore (set_table_column_alignment inc graphemes encode t c al)
  | LDeleteTableColumn t c => ignore (delete_table_column inc graphemes encode t c)
  | LSetTableMetadata t cols h => ignore (set_table_metadata inc graphemes encode t cols h)
  | LMoveTableColumn t c after => ignore (move_table_column inc graphemes encode t c after)
  | LMoveTableRow t r after => ignore (move_table_row inc graphemes encode t r after)
  | LSetMark b i j k a => ignore (session_set_mark inc graphemes encode b i j k a)
  | LRemoveMark b i => ignore (session_remove_mark inc graphemes encode b i)
  | LSetFrontmatterField k v => ignore (session_set_frontmatter_field inc graphemes encode k v)
  | LInitializeFrontmatter fm => ignore (initialize_frontmatter inc graphemes encode fm)
  | LMoveBlocks ids p after => ignore (move_block_ids inc graphemes encode ids p after)
  | LWrapBlocks ids => ignore (wrap_blocks inc graphemes encode ids)
  | LUnwrapBlockquote b => ignore (unwrap_blockquote inc graphemes encode b)
  | LMoveSection h after => ignore (move_section inc graphemes encode h after)
  | LSplitBlock p b o => ignore (split_block_in inc graphemes encode p b o)
  | LMergeBlocks p l r => ignore (merge_blocks_in inc graphemes encode p l r)
  end.

Lemma run_local_safe op s : safe inc graphemes encode (run_local op) s.
Proof.
  destruct op; simpl; apply safe_fmap;
    eauto using safe_insert_block, safe_delete_block, safe_insert_text, safe_delete_text,
      safe_insert_paragraph, safe_insert_item, safe_delete_item, safe_move_item, safe_list_style,
      safe_item_task, safe_code_fence, safe_convert, safe_replace_raw, safe_insert_draft,
      safe_item_draft, safe_insert_table, safe_insert_column, safe_insert_row, safe_set_cell,
      safe_row_cells, safe_delete_row, safe_set_alignment, safe_delete_column, safe_metadata,
      safe_move_column, safe_move_row, safe_set_mark, safe_remove_mark, safe_set_field,
      safe_initialize, safe_move_ids, safe_wrap, safe_unwrap, safe_section, safe_split, safe_merge.
Qed.

(** ** The clock *)

Abbreviation extent := (operation_extent graphemes).
Abbreviation local_trace := (local_trace inc graphemes encode).

(** Every own id in the log and in the buffer is below the clock. *)
Record clock_ok (s : CollaborativeDocument) : Prop := {
  ck_range : (1 ≤ s_next_counter s ≤ u64_max)%N;
  ck_log : ∀ id, is_Some (ops (s_sync s) !! id) → peer id = s_peer s →
    (counter id < s_next_counter s)%N;
  ck_pending : ∀ id, is_Some (sync_pending (s_sync s) !! id) → peer id = s_peer s →
    (counter id < s_next_counter s)%N;
  ck_seen : (sv_seen (state_vector (s_sync s)) (s_peer s) < s_next_counter s)%N;
}.

(** The counters of the envelopes follow each other without a gap. *)
Fixpoint tiles (from : N) (l : list Envelope) (to : N) : Prop :=
  match l with
  | [] => from = to
  | env :: l =>
    (1 ≤ (extent env).2)%N ∧ (from + (extent env).2 = counter (extent env).1 + 1)%N ∧
    tiles (counter (extent env).1 + 1) l to
  end.

Definition logged (l : list (Envelope * Operation)) : gmap OpId (list Byte.byte) :=
  list_to_map ((λ x : Envelope * Operation, (sop_id x.2, sop_payload x.2)) <$> l).

(** The log of the session, extended by the committed operations. *)
Record commits (s : CollaborativeDocument) (l : list (Envelope * Operation))
    (s' : CollaborativeDocument) : Prop := {
  cm_clock : clock_ok s';
  cm_tiles : tiles (s_next_counter s) l.*1 (s_next_counter s');
  cm_ids : Forall (λ x : Envelope * Operation, (extent x.1).1 = sop_id x.2) l;
  cm_fresh : Forall (λ x : Envelope * Operation, ops (s_sync s) !! sop_id x.2 = None) l;
  cm_range : Forall (λ x : Envelope * Operation, peer (sop_id x.2) = s_peer s ∧
    (s_next_counter s ≤ counter (sop_id x.2) < s_next_counter s')%N) l;
  cm_log : ops (s_sync s') = logged l ∪ ops (s_sync s);
}.

Lemma tiles_le from l to : tiles from l to → (from ≤ to)%N.
Proof.
  revert from. induction l as [|env l IH]; intros from; simpl; [lia|].
  intros (? & ? & H%IH). lia.
Qed.

Lemma clock_ok_query d s : clock_ok s → clock_ok (set_document d s).
Proof. by intros [????]. Qed.

Lemma committed_clock env id next payload s :
  commit_ok graphemes s env id next → below_max graphemes env → clock_ok s →
  clock_ok (committed inc graphemes env id next payload s) ∧ ops (s_sync s) !! id = None ∧
  (s_next_counter s ≤ counter id)%N ∧ (counter id < u64_max)%N ∧ next = (counter id + 1)%N ∧
  (1 ≤ (extent env).2)%N ∧ (s_next_counter s + (extent env).2 = counter id + 1)%N.
Proof.
  intros Hok Hb [Hr Hl Hp Hs]. destruct (ok_allocated _ _ _ _ _ Hok) as ([Hge Hlt] & Hspan & Hn); [lia|done|].
  pose proof (ok_id _ _ _ _ _ Hok) as Hid. pose proof (ok_peer _ _ _ _ _ Hok) as Hpeer.
  split_and!; [|..|lia|lia|lia|lia|lia].
  - split; simpl.
    + lia.
    + intros i. unfold log_op, set_ops. simpl. rewrite lookup_insert_is_Some'.
      intros [<-|Hi] Hpi; [lia|]. specialize (Hl i Hi Hpi). lia.
    + intros i Hi Hpi. specialize (Hp i Hi Hpi). lia.
    + rewrite sv_seen_observe. simpl. case_decide; lia.
  - apply eq_None_not_Some. intros Hi. specialize (Hl id Hi Hpeer). lia.
Qed.

Lemma logged_cons env op l : logged ((env, op) :: l) = <[sop_id op := sop_payload op]> (logged l).
Proof. done. Qed.
Lemma logged_fresh l id : Forall (λ x : Envelope * Operation, sop_id x.2 ≠ id) l → logged l !! id = None.
Proof.
  intros Hl. apply not_elem_of_list_to_map_1. rewrite <-list_fmap_compose, list_elem_of_fmap.
  intros (x & -> & Hx). rewrite Forall_forall in Hl. by apply (Hl x).
Qed.

Lemma commits_nil s : clock_ok s → commits s [] s.
Proof.
  intros Hc. split; [done|done|constructor|constructor|constructor|]. unfold logged. simpl.
  by rewrite (left_id_L ∅ (∪)).
Qed.

(** One commit, then the rest. *)
Lemma commits_cons s env id next payload l s' :
  commit_ok graphemes s env id next → below_max graphemes env → clock_ok s →
  commits (committed inc graphemes env id next payload s) l s' →
  commits s ((env, mkOperation id payload) :: l) s'.
Proof.
  intros Hok Hb Hc [Hclock Ht Hi Hf Hr Hlog].
  destruct (committed_clock env id next payload s Hok Hb Hc) as (Hc' & Hnone & Hge & Hlt & -> & Hs1 & Hs2).
  assert (Hle := tiles_le _ _ _ Ht). simpl in *. pose proof (ok_id _ _ _ _ _ Hok) as Hid.
  split; simpl.
  - done.
  - rewrite Hid. by split_and!.
  - by constructor.
  - constructor; [done|]. rewrite Forall_forall in *. intros x Hx. specialize (Hf x Hx). simpl in Hf.
    by apply lookup_insert_None in Hf as [? _].
  - constructor; [split; [apply (ok_peer _ _ _ _ _ Hok)|simpl; lia]|].
    eapply Forall_impl; [exact Hr|]. simpl. intros x [? ?]. split; [done|lia].
  - rewrite Hlog, logged_cons. simpl. rewrite <-insert_union_r; [by rewrite insert_union_l|].
    apply logged_fresh. eapply Forall_impl; [exact Hr|]. simpl. intros x [_ ?] <-. lia.
Qed.

Lemma trace_commits s l s' :
  local_trace s l s' → clock_ok s → Forall (λ x : Envelope * Operation, below_max graphemes x.1) l →
  commits s l s'.
Proof.
  induction 1 as [s|s d l s' Hd _ IH|s env id next payload l s' Hok He _ IH]; intros Hc Hb.
  - by apply commits_nil.
  - destruct (IH (clock_ok_query d s Hc) Hb). by split.
  - apply Forall_cons in Hb as [Hb Hl]. eapply commits_cons; [done..|]. apply IH; [|done].
    by apply committed_clock.
Qed.

End clock.

(** ** A concrete session *)

Lemma clock_ok_new p b : clock_ok (with_codec p b).
Proof. split; simpl; [done|intros id [x Hx]; by rewrite lookup_empty in Hx..|done]. Qed.

(** One byte per grapheme; every envelope is encoded as one byte. *)
Definition byte_graphemes (s : string) : list string := (λ c, String c EmptyString) <$> String.list_ascii_of_string s.
Definition one_byte (env : Envelope) : string + list Byte.byte := inr [Byte.x01].


(** The paragraph takes the counters 1 to 3. *)
Example insert_paragraph_clock :
  let s := (run_local true byte_graphemes one_byte (LInsertParagraph None None "ab") (session_new 1)).1 in
  s_next_counter s = 4%N ∧ btree_keys (ops (s_sync s)) = [mkOpId 1 1; mkOpId 3 1].
Proof. by vm_compute. Qed.
