(* ===== verification/SessionRemote.v ===== *)
(** * Remote changes of a session

    Receiving a message either fails before anything changed or integrates it
    whole.  Integration is followed through its loops by one relation: which
    operations reached the document, which were logged, and which still wait.
    The invariant behind it is that every buffered operation is stored under its
    id and can be decoded; where no buffered operation is logged ([apart]),
    nothing is lost or applied twice. *)

From S2P Require Import Prelude Core Sequence Mark MarkOps Table Frontmatter Codec Text Block.
From S2P Require Import Document DocumentCache Sync SyncInv Draft SessionWire Session SessionTrace.
From S2P Require Import SessionLocal SessionClock.

(** ** The log *)

(** The ids of [p] in the log and in the buffer, and the counter of [p] in the
    frontier, satisfy [P]. *)
Record confined (P : OpId → Prop) (p : PeerId) (st : SyncState) : Prop := {
  cf_log id : is_Some (ops st !! id) → peer id = p → P id;
  cf_pending id : is_Some (sync_pending st !! id) → peer id = p → P id;
  cf_seen : sv_seen (state_vector st) p = 0%N ∨ P (op_at p (sv_seen (state_vector st) p));
}.

Lemma confined_mono P Q p st : (∀ id, P id → Q id) → confined P p st → confined Q p st.
Proof. intros H [Hl Hp Hs]. split; [eauto..|]. naive_solver. Qed.

Lemma confined_log P p op st : (peer (sop_id op) = p → P (sop_id op)) → confined P p st → confined P p (log_op op st).
Proof.
  intros Hop [Hl Hp Hs]. split; simpl; [|done|].
  - intros id. rewrite lookup_insert_is_Some'. intros [<-|Hi]; eauto.
  - rewrite sv_seen_observe. case_decide as E; [|done].
    destruct (N.max_spec (sv_seen (state_vector st) p) (counter (sop_id op))) as [[_ ->]|[_ ->]]; [|done].
    right. unfold op_at. rewrite <-E. destruct (sop_id op) as [c q]. by apply Hop.
Qed.
Lemma confined_delete P p id st : confined P p st → confined P p (set_pending (delete id) st).
Proof.
  intros [Hl Hp Hs]. split; [done| |done]. intros i [x Hi]. simpl in Hi.
  apply lookup_delete_Some in Hi as [_ Hi]. apply Hp. eauto.
Qed.
Lemma confined_insert P p op span st :
  (peer (sop_id op) = p → P (sop_id op)) → confined P p st →
  confined P p (set_pending <[sop_id op := (op, span)]> st).
Proof.
  intros Hop [Hl Hp Hs]. split; [done| |done]. intros id. simpl. rewrite lookup_insert_is_Some'.
  intros [<-|Hi]; eauto.
Qed.

(** [s'] differs from [s] in its document and waiting envelopes only. *)
Definition same_log (s s' : CollaborativeDocument) : Prop :=
  s_peer s' = s_peer s ∧ s_next_counter s' = s_next_counter s ∧ s_sync s' = s_sync s ∧
  s_unit_mode s' = s_unit_mode s.

#[export] Instance same_log_preorder : PreOrder same_log.
Proof. split; [done|]. intros s s' s'' (?&?&?&?) (?&?&?&?). unfold same_log. by split_and!; congruence. Qed.

(** ** Promotion *)

(** No operation is buffered and logged. *)
Definition apart (st : SyncState) : Prop := ∀ id, is_Some (sync_pending st !! id) → ops st !! id = None.
(** The same, but for the ids in [D]. *)
Definition apart_but (D : OpId → Prop) (st : SyncState) : Prop :=
  ∀ id, is_Some (sync_pending st !! id) → ops st !! id = None ∨ D id.

Section promotion.
Context (graphemes : string → list string) (decode : list Byte.byte → string + Envelope).

(** A buffered operation is stored under its id, and with the extent of its
    envelope. *)
Definition decodable (st : SyncState) : Prop :=
  ∀ id op span, sync_pending st !! id = Some (op, span) →
    sop_id op = id ∧ ∃ env, decode (sop_payload op) = inr env ∧ span = (operation_extent graphemes env).2.

(** What promotion keeps, and which operations it returns. *)
Record promotes (st st' : SyncState) (promoted : list Operation) : Prop := {
  pm_decodable : decodable st';
  pm_confined P p : confined P p st → confined P p st';
  pm_nodup : NoDup (sop_id <$> promoted);
  pm_subset : sync_pending st' ⊆ sync_pending st;
  pm_buffer id : is_Some (sync_pending st !! id) → is_Some (sync_pending st' !! id) ∨ id ∈ sop_id <$> promoted;
  pm_log id : is_Some (ops st' !! id) ↔ is_Some (ops st !! id) ∨ id ∈ sop_id <$> promoted;
  pm_but D : apart_but D st → apart_but D st';
  pm_apart : apart st → apart st' ∧ ops st ⊆ ops st' ∧ content st' = content st;
  pm_from : Forall (λ op, (∃ span, sync_pending st !! sop_id op = Some (op, span)) ∧
    sync_pending st' !! sop_id op = None) promoted;
}.

Lemma promotes_refl st : decodable st → promotes st st [].
Proof.
  intros Hd. split; simpl; auto using NoDup_nil_2; try by constructor.
  intros id. split; [auto|]. by intros [?|?%elem_of_nil].
Qed.

Lemma promotes_step st st' promoted id op span :
  promotes st st' promoted → sync_pending st' !! id = Some (op, span) →
  promotes st (log_op op (set_pending (delete id) st')) (promoted ++ [op]).
Proof.
  intros [Hd Hc Hn Hs Hb Hl Hbut Ha Hf] Hid. destruct (Hd _ _ _ Hid) as [<- _].
  assert (Hst : sync_pending st !! sop_id op = Some (op, span)) by (by eapply lookup_weaken).
  split; simpl.
  - intros i o sp Hi. simpl in Hi. apply lookup_delete_Some in Hi as [_ Hi]. eauto.
  - intros P p Hst0. pose proof (Hc P p Hst0) as Hst1. apply confined_log; [|by apply confined_delete].
    intros Hp. apply (cf_pending _ _ _ Hst1); eauto.
  - rewrite fmap_app, NoDup_app. split_and!; [done| |apply NoDup_singleton].
    intros i (o & -> & Ho)%list_elem_of_fmap Hi%list_elem_of_singleton.
    rewrite Forall_forall in Hf. destruct (Hf o Ho) as [_ Hn']. rewrite Hi in Hn'. congruence.
  - etrans; [apply delete_subseteq|done].
  - intros i Hi. rewrite fmap_app, elem_of_app. destruct (decide (i = sop_id op)) as [->|Hne]; [by right; right; left|].
    rewrite lookup_delete_ne by done. destruct (Hb i Hi); auto.
  - intros i. rewrite lookup_insert_is_Some', Hl, fmap_app, elem_of_app. set_solver.
  - intros D H i [x Hi]. simpl in *. apply lookup_delete_Some in Hi as [Hne Hi].
    rewrite lookup_insert_ne by done. apply (Hbut D H). eauto.
  - intros H. destruct (Ha H) as (Hap & Hsub & Hcont). assert (Hnone : ops st' !! sop_id op = None) by (apply Hap; eauto).
    split_and!.
    + intros i [x Hi]. simpl in *. apply lookup_delete_Some in Hi as [Hne Hi].
      rewrite lookup_insert_ne by done. apply Hap. eauto.
    + etrans; [exact Hsub|]. by apply insert_subseteq.
    + rewrite <-Hcont. by eapply content_promote.
  - rewrite Forall_app, Forall_singleton. simpl. split; [|split; [by exists span|apply lookup_delete_eq]].
    eapply Forall_impl; [exact Hf|]. intros o [? Hn']. split; [done|]. rewrite lookup_delete_None. auto.
Qed.

Lemma promote_promotes st :
  decodable st → promotes st (promote_ready_pending st).1 (promote_ready_pending st).2 ∧
  quiescent (promote_ready_pending st).1.
Proof.
  intros Hd. split; [|apply promote_loop_quiescent; lia].
  apply (promote_ind (promotes st)); [|by apply promotes_refl].
  intros s pr id op span Hpr Hid _. by eapply promotes_step.
Qed.
End promotion.

(** ** Accounting *)

Definition logged_in (s : CollaborativeDocument) (id : OpId) : Prop := is_Some (ops (s_sync s) !! id).
Definition buffered_in (s : CollaborativeDocument) (id : OpId) : Prop := is_Some (sync_pending (s_sync s) !! id).

(** [id] waits to be applied: it is in the queue [queue], or its envelope is kept
    and its operation is not buffered. *)
Definition waits (queue : list OpId) (s : CollaborativeDocument) (id : OpId) : Prop :=
  id ∈ queue ∨ is_Some (s_pending_envelopes s !! id) ∧ ¬ buffered_in s id.

(** An envelope is kept whose operation is neither logged nor buffered: a
    checkpoint has removed it. *)
Definition orphaned (s : CollaborativeDocument) (id : OpId) : Prop :=
  is_Some (s_pending_envelopes s !! id) ∧ ¬ buffered_in s id ∧ ¬ logged_in s id.

(** [id] occurs once at most. *)
Definition once (id : OpId) (l : list OpId) : Prop := length (filter (λ i, i = id) l) ≤ 1.

Lemma once_app id l k : once id l → once id k → ¬ (id ∈ l ∧ id ∈ k) → once id (l ++ k).
Proof.
  unfold once. rewrite filter_app, length_app. intros Hl Hk Hn.
  assert (Hz : ∀ m : list OpId, id ∉ m → length (filter (λ i, i = id) m) = 0).
  { intros m Hm. destruct (filter _ m) as [|x f] eqn:E; [done|]. destruct Hm.
    assert (x ∈ filter (λ i, i = id) m) as [-> ?]%list_elem_of_filter by (rewrite E; left). done. }
  destruct (decide (id ∈ l)); [rewrite (Hz k) by tauto|rewrite (Hz l) by done]; lia.
Qed.

Lemma elem_of_push_new id i l : id ∈ push_new i l ↔ id = i ∨ id ∈ l.
Proof. unfold push_new. case_decide; set_solver. Qed.

#[local] Arguments Session.take_deferred : simpl never.
#[local] Arguments Session.apply_or_defer : simpl never.
#[local] Arguments observed_frontier_is_ready : simpl never.
#[local] Arguments ready_envelopes : simpl never.

Section remote.
Context (inc : bool) (graphemes : string → list string).
Context (decode : list Byte.byte → string + Envelope).

Abbreviation apply_envelope := (apply_envelope_to_document inc graphemes).
Abbreviation apply_or_defer := (apply_or_defer inc graphemes).
Abbreviation take_deferred := (take_deferred inc graphemes).
Abbreviation drain_deferred_loop := (drain_deferred_loop inc graphemes).
Abbreviation drain_deferred := (drain_deferred inc graphemes).
Abbreviation integrate := (integrate inc graphemes decode).
Abbreviation decodable := (decodable graphemes decode).

(** ** One relation for all loops *)

(** What becomes of one id between two states, if [applied] reach the document
    in between. *)
Record accounted (queue : list OpId) (s : CollaborativeDocument) (r : SessionApplyResult)
    (queue' : list OpId) (s' : CollaborativeDocument) (r' : SessionApplyResult)
    (applied : list OpId) (id : OpId) : Prop := {
  ac_fresh : ¬ orphaned s' id;
  ac_log : logged_in s id → logged_in s' id;
  ac_all : id ∈ applied ∨ waits queue' s' id ↔ waits queue s id ∨ logged_in s' id ∧ ¬ logged_in s id;
  ac_applied : id ∈ applied → logged_in s' id ∧ ¬ waits queue' s' id;
  ac_once : once id applied;
  ac_buffered : (id ∈ sres_buffered r → buffered_in s id ∨ waits queue s id) →
    id ∈ sres_buffered r' → buffered_in s' id ∨ waits queue' s' id;
  ac_held : buffered_in s' id ∨ waits queue' s' id →
    id ∈ sres_buffered r ∨ ¬ (buffered_in s id ∨ waits queue s id) → id ∈ sres_buffered r';
}.

Lemma logged_dec s id : logged_in s id ∨ ¬ logged_in s id.
Proof. unfold logged_in. destruct (decide (is_Some (ops (s_sync s) !! id))); auto. Qed.
Lemma held_dec queue s id : (buffered_in s id ∨ waits queue s id) ∨ ¬ (buffered_in s id ∨ waits queue s id).
Proof.
  unfold waits, buffered_in. destruct (decide (id ∈ queue)); [auto|].
  destruct (decide (is_Some (sync_pending (s_sync s) !! id))); [auto|].
  destruct (decide (is_Some (s_pending_envelopes s !! id))); [auto|]. right. by intros [?|[?|[? _]]].
Qed.

Lemma accounted_trans queue s r queue1 s1 r1 queue2 s2 r2 l k id :
  accounted queue s r queue1 s1 r1 l id → accounted queue1 s1 r1 queue2 s2 r2 k id →
  accounted queue s r queue2 s2 r2 (l ++ k) id.
Proof.
  intros [Hs1 Hl1 Ha1 Hp1 Ho1 Hb1 Hh1] [Hs2 Hl2 Ha2 Hp2 Ho2 Hb2 Hh2].
  assert (Hlk : id ∈ l → ¬ (id ∈ k ∨ waits queue2 s2 id)).
  { intros [Hl Hw]%Hp1 H. apply Ha2 in H as [?|[_ ?]]; done. }
  split; [done|auto|rewrite elem_of_app|rewrite elem_of_app| |auto|].
  - split.
    + assert (H2 : id ∈ k ∨ waits queue2 s2 id → waits queue s id ∨ logged_in s2 id ∧ ¬ logged_in s id).
      { intros [H|[H Hn]]%Ha2; [|right; split; auto].
        destruct (proj1 Ha1 (or_intror H)) as [?|[? ?]]; [by left|right; split; auto]. }
      intros [[H|H]|H]; [|auto..]. destruct (proj1 Ha1 (or_introl H)) as [?|[? ?]]; [by left|right; split; auto].
    + assert (H1 : id ∈ l ∨ waits queue1 s1 id → (id ∈ l ∨ id ∈ k) ∨ waits queue2 s2 id).
      { intros [?|H]; [by left; left|]. destruct (proj2 Ha2 (or_introl H)); auto. }
      intros [H|[H Hn]]; [apply H1, Ha1; by left|]. destruct (logged_dec s1 id) as [H'|H'].
      * apply H1, Ha1. by right.
      * destruct (proj2 Ha2 (or_intror (conj H H'))); auto.
  - intros [H|H]; [|by apply Hp2]. split; [apply Hl2, Hp1, H|]. intros Hw. apply (Hlk H). by right.
  - apply once_app; [done..|]. intros [H H']. apply (Hlk H). by left.
  - intros H Hor. apply Hh2; [done|]. destruct (held_dec queue1 s1 id); auto.
Qed.

Lemma once_absent id l : id ∉ l → once id l.
Proof.
  intros Hn. unfold once. destruct (filter _ l) as [|x f] eqn:E; simpl; [lia|]. destruct Hn.
  assert (x ∈ filter (λ i, i = id) l) as [-> ?]%list_elem_of_filter by (rewrite E; left). done.
Qed.

(** An id that the step leaves alone. *)
Lemma accounted_same queue s r queue' s' r' l id :
  id ∉ l → ¬ orphaned s id → (logged_in s' id ↔ logged_in s id) → (buffered_in s' id ↔ buffered_in s id) →
  (is_Some (s_pending_envelopes s' !! id) ↔ is_Some (s_pending_envelopes s !! id)) →
  (id ∈ queue' ↔ id ∈ queue) → (id ∈ sres_buffered r' ↔ id ∈ sres_buffered r) →
  accounted queue s r queue' s' r' l id.
Proof.
  intros Hn Hst Hl Hb He Hq Hr. unfold orphaned in Hst. split; unfold orphaned, waits in *;
    rewrite ?Hl, ?Hb, ?He, ?Hq, ?Hr; try tauto.
  by apply once_absent.
Qed.

Section progress.
(** The ids that are accounted for, and where their envelopes may come from. *)
Context (good : OpId → Prop) (source : OpId → Envelope → Prop).

Record sourced (s : CollaborativeDocument) : Prop := {
  so_envelope id env : s_pending_envelopes s !! id = Some env → source id env;
  so_buffer id op span env : sync_pending (s_sync s) !! id = Some (op, span) →
    decode (sop_payload op) = inr env → source id env;
}.

Record progress (queue : list OpId) (s : CollaborativeDocument) (r : SessionApplyResult)
    (queue' : list OpId) (s' : CollaborativeDocument) (r' : SessionApplyResult)
    (applied : list (OpId * Envelope)) : Prop := {
  pr_document : s_document s' = fold_left (λ d x, apply_envelope x.2 d) applied (s_document s);
  pr_applied : sres_applied r' = fold_left (λ l x, push_new x.1 l) applied (sres_applied r);
  pr_sourced : sourced s';
  pr_sources : Forall (λ x, source x.1 x.2) applied;
  pr_account id : good id → ¬ orphaned s id → accounted queue s r queue' s' r' applied.*1 id;
}.

Lemma progress_trans queue s r queue1 s1 r1 queue2 s2 r2 l k :
  progress queue s r queue1 s1 r1 l → progress queue1 s1 r1 queue2 s2 r2 k →
  progress queue s r queue2 s2 r2 (l ++ k).
Proof.
  intros [Hd1 Hp1 _ Hf1 Ha1] [Hd2 Hp2 Hs2 Hf2 Ha2]. split; [| |done| |].
  - by rewrite Hd2, Hd1, fold_left_app.
  - by rewrite Hp2, Hp1, fold_left_app.
  - by apply Forall_app.
  - intros id Hg Hst. rewrite fmap_app. pose proof (Ha1 id Hg Hst) as H1.
    eapply accounted_trans; [exact H1|]. apply Ha2; [done|by apply ac_fresh in H1].
Qed.

Lemma progress_refl queue s r : sourced s → progress queue s r queue s r [].
Proof.
  intros Hs. split; try done. intros id _ Hst. apply accounted_same; try done. apply not_elem_of_nil.
Qed.

(** One envelope leaves the queue: it is applied, or kept. *)
Lemma progress_apply queue0 queue id env s0 s1 r :
  s_sync s1 = s_sync s0 → s_document s1 = s_document s0 →
  (∀ i, i ≠ id → s_pending_envelopes s1 !! i = s_pending_envelopes s0 !! i) →
  (good id → s_pending_envelopes s1 !! id = None) → (good id → waits queue0 s0 id) →
  (∀ i, i ≠ id → i ∈ queue0 ↔ i ∈ queue) → id ∉ queue → logged_in s0 id → ¬ buffered_in s0 id →
  sourced s1 → source id env →
  ∃ l, progress queue0 s0 r queue (apply_or_defer id env (s1, r)).1 (apply_or_defer id env (s1, r)).2 l.
Proof.
  intros Esync Edoc Hother Hnone Hwait Hq Hid Hlog Hbuf Hs Hsrc. unfold Session.apply_or_defer.
  assert (Hloggs : ∀ s' i, s_sync s' = s_sync s1 → (logged_in s' i ↔ logged_in s0 i) ∧ (buffered_in s' i ↔ buffered_in s0 i)).
  { intros s' i E. unfold logged_in, buffered_in. by rewrite E, Esync. }
  destruct (observed_frontier_is_ready (s_sync s1) env); simpl.
  - exists [(id, env)]. split; simpl; [by rewrite Edoc|done|by destruct Hs|by repeat constructor|].
    intros i Hg Hst. destruct (Hloggs (set_document (apply_envelope env (s_document s1)) s1) i eq_refl) as [Hl Hb].
    destruct (decide (i = id)) as [->|Hne].
    + specialize (Hnone Hg). specialize (Hwait Hg). split; unfold orphaned, waits, once in *; rewrite ?Hl, ?Hb; simpl.
      * tauto.
      * done.
      * split; [auto|left; left].
      * intros _. split; [done|]. rewrite Hnone. intros [?|[[? [=]] _]]; done.
      * rewrite filter_cons_True by done. simpl. lia.
      * intros _ [? _]%list_elem_of_filter. done.
      * rewrite Hnone. intros [?|[?|[[? [=]] _]]]; done.
    + apply accounted_same; [set_solver|done|done|done|simpl; by rewrite Hother|symmetry; by apply Hq|].
      simpl. rewrite list_elem_of_filter. tauto.
  - exists []. split; simpl; [done|done| |done|].
    { destruct Hs as [He Hp]. split; [|done]. intros i e Hi. simpl in Hi.
      apply lookup_insert_Some in Hi as [[<- <-]|[_ Hi]]; [done|by eapply He]. }
    intros i Hg Hst. destruct (Hloggs (defer_envelope id env s1) i eq_refl) as [Hl Hb].
    destruct (decide (i = id)) as [->|Hne].
    + specialize (Hwait Hg). assert (Hk : is_Some (s_pending_envelopes (defer_envelope id env s1) !! id)).
      { simpl. rewrite lookup_insert_eq. eauto. }
      split; unfold orphaned, waits in *; rewrite ?Hl, ?Hb; simpl in *.
      * tauto.
      * done.
      * split; [auto|]. intros _. right. right. by split.
      * intros []%elem_of_nil.
      * apply once_absent, not_elem_of_nil.
      * intros _ _. right. right. by split.
      * intros _ _. apply elem_of_push_new. by left.
    + apply accounted_same; [apply not_elem_of_nil|done|done|done| |symmetry; by apply Hq|].
      * simpl. by rewrite lookup_insert_ne, Hother.
      * simpl. rewrite elem_of_push_new. naive_solver.
Qed.

(** ** Waiting envelopes *)

Lemma apply_or_defer_log id env s r : same_log s (apply_or_defer id env (s, r)).1.
Proof. unfold Session.apply_or_defer. by destruct (observed_frontier_is_ready _ _). Qed.

Lemma apply_or_defer_envelopes id env s r :
  s_pending_envelopes (apply_or_defer id env (s, r)).1 =
    if observed_frontier_is_ready (s_sync s) env then s_pending_envelopes s
    else <[id := env]> (s_pending_envelopes s).
Proof. unfold Session.apply_or_defer. by destruct (observed_frontier_is_ready _ _). Qed.

Lemma sourced_delete id s :
  sourced s → sourced (set_pending_envelopes (delete id (s_pending_envelopes s)) s).
Proof.
  intros [He Hb]. split; [|done]. intros i e Hi. simpl in Hi.
  apply lookup_delete_Some in Hi as [_ Hi]. by eapply He.
Qed.
End progress.

(** The envelopes that are waiting and ready. *)
Definition is_ready (s : CollaborativeDocument) (id : OpId) (env : Envelope) : Prop :=
  contains (s_sync s) id && observed_frontier_is_ready (s_sync s) env.

Lemma elem_of_ready s id :
  id ∈ ready_envelopes s ↔ ∃ env, s_pending_envelopes s !! id = Some env ∧ is_ready s id env.
Proof.
  unfold ready_envelopes. rewrite elem_of_btree_keys. split.
  - intros [env [He Hr]%map_lookup_filter_Some]. by exists env.
  - intros (env & He & Hr). exists env. by apply map_lookup_filter_Some.
Qed.

Lemma ready_logged s id env : is_ready s id env → logged_in s id.
Proof. intros [Hc _]%andb_prop_elim. unfold contains in Hc. by apply bool_decide_unpack in Hc. Qed.

Lemma take_deferred_spec id s r :
  let s' := (take_deferred (s, r) id).1 in
  same_log s s' ∧
  s_pending_envelopes s' = match s_pending_envelopes s !! id with
    | Some env => if observed_frontier_is_ready (s_sync s) env
                  then delete id (s_pending_envelopes s) else s_pending_envelopes s
    | None => s_pending_envelopes s
    end.
Proof.
  unfold Session.take_deferred. destruct (s_pending_envelopes s !! id) as [env|] eqn:E; [|done].
  set (s1 := set_pending_envelopes (delete id (s_pending_envelopes s)) s). split.
  - etrans; [|apply apply_or_defer_log]. done.
  - rewrite apply_or_defer_envelopes. simpl.
    destruct (observed_frontier_is_ready (s_sync s) env); [done|]. by rewrite insert_delete_id.
Qed.

(** A pass over the ready envelopes removes exactly them. *)
Lemma take_all_spec ids s r :
  NoDup ids → (∀ id, id ∈ ids → ∃ env, s_pending_envelopes s !! id = Some env ∧ is_ready s id env) →
  let s' := (fold_left take_deferred ids (s, r)).1 in
  same_log s s' ∧
  ∀ id, s_pending_envelopes s' !! id = if decide (id ∈ ids) then None else s_pending_envelopes s !! id.
Proof.
  revert s r. induction ids as [|i ids IH]; intros s r Hnd Hr; simpl; [done|].
  apply NoDup_cons in Hnd as [Hi Hnd]. destruct (Hr i) as (env & He & Hready); [left|].
  pose proof (take_deferred_spec i s r) as Ht. destruct (take_deferred (s, r) i) as [s1 r1]. simpl in Ht.
  destruct Ht as [Hs1 Hp1]. rewrite He in Hp1. unfold is_ready in Hready. apply andb_prop_elim in Hready as [? Hf].
  apply Is_true_true in Hf. rewrite Hf in Hp1. pose proof Hs1 as (_ & _ & Hsync & _).
  destruct (IH s1 r1 Hnd) as [Hs2 Hp2].
  - intros id Hid. destruct (Hr id) as (e & ? & ?); [by right|]. exists e. split.
    + rewrite Hp1, lookup_delete_ne; [done|]. by intros ->.
    + unfold is_ready. by rewrite Hsync.
  - split; [by etrans|]. intros id. rewrite Hp2, Hp1. destruct (decide (id = i)) as [->|].
    + rewrite (decide_True (P := i ∈ i :: ids)) by left. case_decide; [done|]. apply lookup_delete_eq.
    + rewrite lookup_delete_ne by done. repeat case_decide; set_solver.
Qed.

(** The loop of [drain_deferred] stops after one pass. *)
Lemma drain_deferred_spec n s r :
  drain_deferred_loop (2 + n) (s, r) = drain_deferred (s, r) ∧
  drain_deferred (s, r) = fold_left take_deferred (ready_envelopes s) (s, r) ∧
  let s' := (drain_deferred (s, r)).1 in
  same_log s s' ∧ ready_envelopes s' = [] ∧
  ∀ id, s_pending_envelopes s' !! id =
    if decide (id ∈ ready_envelopes s) then None else s_pending_envelopes s !! id.
Proof.
  unfold Session.drain_deferred. simpl. destruct (ready_envelopes s) as [|i ids] eqn:Hr; simpl.
  { by split_and!. }
  pose proof (take_all_spec (i :: ids) s r) as Ht. simpl in Ht.
  destruct (fold_left take_deferred ids (take_deferred (s, r) i)) as [s1 r1].
  destruct Ht as [Hs Hp].
  { rewrite <-Hr. apply NoDup_btree_keys. }
  { intros id. rewrite <-Hr. apply elem_of_ready. }
  assert (ready_envelopes s1 = []) as Hnone.
  { apply elem_of_nil_inv. intros id (env & He & Hre)%elem_of_ready. simpl in Hp. rewrite Hp in He.
    case_decide as Hin; [done|]. apply Hin. rewrite <-Hr. apply elem_of_ready. exists env.
    split; [done|]. unfold is_ready in *. destruct Hs as (_ & _ & <- & _). done. }
  cbn [fst]. rewrite Hnone. done.
Qed.

Section loops.
Context (good : OpId → Prop) (source : OpId → Envelope → Prop).
Abbreviation progress := (progress good source).
Abbreviation sourced := (sourced source).

Lemma progress_take id env s r :
  apart (s_sync s) → sourced s → s_pending_envelopes s !! id = Some env → is_ready s id env →
  ∃ l, progress [] s r [] (take_deferred (s, r) id).1 (take_deferred (s, r) id).2 l.
Proof.
  intros Ha Hs He Hr. unfold Session.take_deferred. rewrite He. apply ready_logged in Hr.
  assert (Hb : ¬ buffered_in s id).
  { intros Hb%Ha. unfold logged_in in Hr. rewrite Hb in Hr. by destruct Hr. }
  apply progress_apply; simpl; try done.
  - intros i Hne. by apply lookup_delete_ne.
  - intros _. apply lookup_delete_eq.
  - intros _. right. split; [eauto|done].
  - apply not_elem_of_nil.
  - by apply sourced_delete.
  - by eapply so_envelope.
Qed.

Lemma progress_take_all ids s r :
  NoDup ids → (∀ id, id ∈ ids → ∃ env, s_pending_envelopes s !! id = Some env ∧ is_ready s id env) →
  apart (s_sync s) → sourced s →
  ∃ l, progress [] s r [] (fold_left take_deferred ids (s, r)).1 (fold_left take_deferred ids (s, r)).2 l.
Proof.
  revert s r. induction ids as [|i ids IH]; intros s r Hnd Hr Ha Hs; simpl.
  { exists []. by apply progress_refl. }
  apply NoDup_cons in Hnd as [Hi Hnd]. destruct (Hr i) as (env & He & Hready); [left|].
  destruct (progress_take i env s r Ha Hs He Hready) as [l Hl].
  pose proof (take_deferred_spec i s r) as Ht. destruct (take_deferred (s, r) i) as [s1 r1]. simpl in *.
  destruct Ht as [(_ & _ & Hsync & _) Hp1]. rewrite He in Hp1.
  destruct (IH s1 r1 Hnd) as [k Hk].
  - intros id Hid. destruct (Hr id) as (e & ? & ?); [by right|]. exists e. split.
    + rewrite Hp1. case_match; [|done]. rewrite lookup_delete_ne; [done|]. by intros ->.
    + unfold is_ready. by rewrite Hsync.
  - by rewrite Hsync.
  - apply Hl.
  - exists (l ++ k). by eapply progress_trans.
Qed.

Lemma progress_deferred s r :
  apart (s_sync s) → sourced s →
  ∃ l, progress [] s r [] (drain_deferred (s, r)).1 (drain_deferred (s, r)).2 l.
Proof.
  intros Ha Hs. destruct (drain_deferred_spec 0 s r) as (_ & -> & _). apply progress_take_all; [|..|done|done].
  - apply NoDup_btree_keys.
  - intros id. apply elem_of_ready.
Qed.

(** ** Promoted operations *)

Lemma promoted_loop_spec promoted s r :
  NoDup (sop_id <$> promoted) →
  Forall (λ op, logged_in s (sop_id op) ∧ ¬ buffered_in s (sop_id op) ∧
    ∃ env, decode (sop_payload op) = inr env ∧ source (sop_id op) env) promoted →
  sourced s →
  ∃ s' r' l, drain_promoted_loop inc graphemes decode promoted (s, r) = (s', inr r') ∧ same_log s s' ∧
    progress (sop_id <$> promoted) s r [] s' r' l.
Proof.
  revert s r. induction promoted as [|op ops IH]; intros s r Hnd Hall Hs; simpl.
  { exists s, r, []. split_and!; [done|done|by apply progress_refl]. }
  apply NoDup_cons in Hnd as [Hop Hnd]. apply Forall_cons in Hall as [(Hlog & Hbuf & env0 & Hdec & Hsrc) Hall].
  set (s1 := set_pending_envelopes (delete (sop_id op) (s_pending_envelopes s)) s).
  assert (Hstep : ∀ env t, source (sop_id op) env → sourced t → same_log s t → s_document t = s_document s →
    s_pending_envelopes t = delete (sop_id op) (s_pending_envelopes s) →
    ∃ s' r' l, drain_promoted_loop inc graphemes decode ops (apply_or_defer (sop_id op) env (t, r)) = (s', inr r') ∧
      same_log s s' ∧ progress (sop_id op :: (sop_id <$> ops)) s r [] s' r' l).
  { intros env t He Ht Hsame Hdoc Henv. pose proof Hsame as (_ & _ & Esync & _).
    destruct (progress_apply good source (sop_id op :: (sop_id <$> ops)) (sop_id <$> ops) (sop_id op) env s t r)
      as [l Hl]; try done.
    - intros i Hne. rewrite Henv. by apply lookup_delete_ne.
    - intros _. rewrite Henv. apply lookup_delete_eq.
    - intros _. left. left.
    - set_solver.
    - pose proof (apply_or_defer_log (sop_id op) env t r) as Hlog1.
      destruct (apply_or_defer (sop_id op) env (t, r)) as [t1 r1]. simpl in Hl, Hlog1.
      assert (Hsame1 : same_log s t1) by (by etrans). pose proof Hsame1 as (_ & _ & Esync1 & _).
      destruct (IH t1 r1 Hnd) as (s' & r' & k & Hloop & Hsame' & Hk).
      + unfold logged_in, buffered_in in *. by rewrite Esync1.
      + apply Hl.
      + exists s', r', (l ++ k). split_and!; [done|by etrans|]. by eapply progress_trans. }
  destruct (s_pending_envelopes s !! sop_id op) as [env|] eqn:He.
  - apply Hstep; try done; [by eapply so_envelope|by apply sourced_delete].
  - rewrite Hdec. apply Hstep; try done. by rewrite delete_id.
Qed.

(** The queue of promotion: the promoted operations are logged and wait. *)
Lemma progress_promoted st promoted s r :
  promotes graphemes decode (s_sync s) st promoted → apart (s_sync s) → sourced s →
  progress [] s r (sop_id <$> promoted) (set_sync st s) r [].
Proof.
  intros Hp Ha Hs. split; try done.
  { destruct Hs as [He Hb]. split; [done|]. intros id op span env Hi. eapply Hb, lookup_weaken; [exact Hi|apply Hp]. }
  intros id _ Hst. pose proof (pm_buffer _ _ _ _ _ Hp id) as Hbuf. pose proof (pm_log _ _ _ _ _ Hp id) as Hlog.
  assert (Hsub : buffered_in (set_sync st s) id → buffered_in s id).
  { intros [x Hx]. exists x. eapply lookup_weaken; [exact Hx|apply Hp]. }
  assert (Hq : id ∈ sop_id <$> promoted → buffered_in s id ∧ ¬ logged_in s id).
  { intros (op & -> & Hop)%list_elem_of_fmap. pose proof (pm_from _ _ _ _ _ Hp) as Hf.
    rewrite Forall_forall in Hf. destruct (Hf op Hop) as [[span Hx] _].
    assert (Hb : buffered_in s (sop_id op)) by (by eexists). split; [done|].
    unfold logged_in. rewrite (Ha _ Hb). by intros [? ?]. }
  assert (Henv : s_pending_envelopes (set_sync st s) = s_pending_envelopes s) by done.
  unfold buffered_in in Hbuf. fold (buffered_in s id) in Hbuf. fold (buffered_in (set_sync st s) id) in Hbuf.
  change (is_Some (ops st !! id)) with (logged_in (set_sync st s) id) in Hlog. fold (logged_in s id) in Hlog.
  assert (Hdec : buffered_in s id ∨ ¬ buffered_in s id).
  { unfold buffered_in. destruct (decide (is_Some (sync_pending (s_sync s) !! id))); auto. }
  split; unfold orphaned, waits in *; rewrite ?Henv in *.
  - intros (He & Hnb & Hnl). destruct Hdec as [Hb|Hb]; [destruct (Hbuf Hb); [done|]; apply Hnl, Hlog; by right|].
    apply Hst. split_and!; [done..|]. intros Hl. apply Hnl, Hlog. by left.
  - intros Hl. apply Hlog. by left.
  - split.
    + intros [[]%elem_of_nil|[H|[He Hnb]]].
      * right. split; [apply Hlog; by right|by apply Hq].
      * destruct Hdec as [Hb|Hb]; [|left; right; by split].
        destruct (Hbuf Hb) as [?|Hi]; [done|]. right. split; [apply Hlog; by right|by apply Hq].
    + intros [[[]%elem_of_nil|[He Hnb]]|[[Hl|Hi]%Hlog Hn]]; right; [right; by split; [|intros ?%Hsub]|done|by left].
  - intros []%elem_of_nil.
  - apply once_absent, not_elem_of_nil.
  - intros H Hr. destruct (H Hr) as [Hb|[[]%elem_of_nil|[He Hnb]]].
    + destruct (Hbuf Hb); auto.
    + right. right. split; [done|]. by intros ?%Hsub.
  - intros Hh [?|Hn]; [done|]. destruct Hn. destruct Hh as [Hb|[Hi|[He Hnb]]]; [left; by apply Hsub|left; by apply Hq|].
    destruct Hdec as [Hb|Hb]; [by left|]. right. by right.
Qed.

Lemma drain_promoted_spec r s :
  decodable (s_sync s) → sourced s →
  ∃ s' r' l, drain_promoted inc graphemes decode r s = (s', inr r') ∧
    same_log (set_sync (promote_ready_pending (s_sync s)).1 s) s' ∧
    (apart (s_sync s) → progress [] s r [] s' r' l).
Proof.
  intros Hd Hs. unfold drain_promoted. destruct (promote_promotes graphemes decode (s_sync s) Hd) as [Hp _].
  destruct (promote_ready_pending (s_sync s)) as [st promoted]. simpl in *.
  destruct (promoted_loop_spec promoted (set_sync st s) r (pm_nodup _ _ _ _ _ Hp)) as (s' & r' & l & -> & Hsame & Hl).
  - pose proof (pm_from _ _ _ _ _ Hp) as Hf. rewrite Forall_forall in *. intros op Hop.
    destruct (Hf op Hop) as [[span Hx] Hn]. split_and!.
    + apply (pm_log _ _ _ _ _ Hp). right. by apply list_elem_of_fmap_2.
    + unfold buffered_in. simpl. rewrite Hn. by intros [? ?].
    + destruct (Hd _ _ _ Hx) as (_ & env & He & _). exists env. split; [done|]. by eapply so_buffer.
  - destruct Hs as [He Hb]. split; [done|]. intros id op span env Hi. eapply Hb, lookup_weaken; [exact Hi|apply Hp].
  - exists s', r', l. split_and!; [done..|]. intros Ha.
    eapply (progress_trans _ _ _ _ _ _ _ _ _ _ _ []); [by apply progress_promoted|exact Hl].
Qed.
Lemma drain_promoted_progress r s s' r' :
  decodable (s_sync s) → sourced s → apart (s_sync s) →
  drain_promoted inc graphemes decode r s = (s', inr r') → ∃ l, progress [] s r [] s' r' l.
Proof.
  intros Hd Hs Ha E. destruct (drain_promoted_spec r s Hd Hs) as (s1 & r1 & l & E1 & _ & Hl).
  rewrite E in E1. injection E1 as -> ->. eauto.
Qed.
End loops.

Lemma drain_promoted_facts r s :
  decodable (s_sync s) →
  ∃ s' r', drain_promoted inc graphemes decode r s = (s', inr r') ∧
    same_log (set_sync (promote_ready_pending (s_sync s)).1 s) s'.
Proof.
  intros Hd. destruct (drain_promoted_spec (λ _, False) (λ _ _, True) r s Hd) as (s' & r' & _ & ? & ? & _); [done|].
  eauto.
Qed.

(** ** Integration never fails half way *)

(** What integrating one operation does to the log. *)
Record integrated (op : Operation) (s s' : CollaborativeDocument) : Prop := {
  ig_decodable : decodable (s_sync s');
  ig_peer : s_peer s' = s_peer s;
  ig_clock : s_next_counter s' = s_next_counter s;
  ig_unit : s_unit_mode s' = s_unit_mode s;
  ig_confined P p : (ops (s_sync s) !! sop_id op = None → peer (sop_id op) = p → P (sop_id op)) →
    confined P p (s_sync s) → confined P p (s_sync s');
  ig_quiescent : quiescent (s_sync s) → quiescent (s_sync s');
  ig_pending id : buffered_in s' id → buffered_in s id ∨ id = sop_id op ∧ ¬ logged_in s id;
  ig_but D : apart_but D (s_sync s) → apart_but D (s_sync s');
  ig_apart : apart (s_sync s) → apart (s_sync s') ∧ ops (s_sync s) ⊆ ops (s_sync s') ∧
    content (s_sync s') = content (s_sync s) ∪ {[ sop_id op := sop_payload op ]};
}.

Lemma union_present {V} (m : gmap OpId V) i v : is_Some (m !! i) → m ∪ {[ i := v ]} = m.
Proof.
  intros [x Hx]. apply map_eq. intros j. apply option_eq. intros y. rewrite lookup_union_Some_raw.
  destruct (decide (i = j)) as [<-|Hne].
  - rewrite lookup_singleton_eq, Hx. naive_solver.
  - rewrite lookup_singleton_ne by done. naive_solver.
Qed.

Lemma content_held st id : is_Some (ops st !! id) ∨ is_Some (sync_pending st !! id) → is_Some (content st !! id).
Proof.
  intros H. unfold content, buffered_payloads. rewrite lookup_union_is_Some, lookup_fmap.
  destruct H as [?|[x ->]]; [by left|right; by eexists].
Qed.

(** An operation that is logged at once. *)
Lemma integrate_applied r op env s :
  decodable (s_sync s) → ops (s_sync s) !! sop_id op = None → sync_pending (s_sync s) !! sop_id op = None →
  let x := apply_or_defer (sop_id op) env (set_sync (log_op op (s_sync s)) s, r) in
  ∃ s' r', match drain_promoted inc graphemes decode x.2 x.1 with
           | (s, inl e) => (s, inl e)
           | (s, inr r) => let '(s, r) := drain_deferred (s, r) in (s, inr r)
           end = (s', inr r') ∧ integrated op s s'.
Proof.
  intros Hd Hn Hp. pose proof (apply_or_defer_log (sop_id op) env (set_sync (log_op op (s_sync s)) s) r) as Ha.
  destruct (apply_or_defer _ _ _) as [s1 r1]. cbn [fst snd] in *. destruct Ha as (Hp1 & Hc1 & Hst1 & Hu1). simpl in *.
  assert (Hd1 : decodable (s_sync s1)) by (rewrite Hst1; exact Hd).
  destruct (drain_promoted_facts r1 s1 Hd1) as (s2 & r2 & -> & (Hp2 & Hc2 & Hst2 & Hu2)).
  destruct (drain_deferred_spec 0 s2 r2) as (_ & _ & H3). destruct (drain_deferred (s2, r2)) as [s3 r3].
  destruct H3 as ((Hp3 & Hc3 & Hst3 & Hu3) & _). simpl in *. exists s3, r3. split; [done|].
  destruct (promote_promotes graphemes decode (s_sync s1) Hd1) as [Hpm Hq]. rewrite Hst1 in *.
  split; rewrite ?Hst3, ?Hst2; try congruence; [apply Hpm|..].
  - intros P p Hop Hb. apply (pm_confined _ _ _ _ _ Hpm). apply confined_log; auto.
  - intros _. exact Hq.
  - intros id Hi. left. unfold buffered_in in *. rewrite Hst3, Hst2 in Hi. destruct Hi as [x Hi].
    pose proof (lookup_weaken _ _ _ _ Hi (pm_subset _ _ _ _ _ Hpm)) as Hx. by exists x.
  - intros D HD. apply (pm_but _ _ _ _ _ Hpm). intros id Hi. simpl in *. rewrite lookup_insert_ne; [by apply HD|].
    intros <-. rewrite Hp in Hi. by destruct Hi.
  - intros Hap. assert (Hap1 : apart (log_op op (s_sync s))).
    { intros id Hi. simpl in *. rewrite lookup_insert_ne; [by apply Hap|].
      intros <-. rewrite Hp in Hi. by destruct Hi. }
    destruct (pm_apart _ _ _ _ _ Hpm Hap1) as (? & Hsub & ->). split_and!; [done| |].
    + etrans; [|exact Hsub]. simpl. by apply insert_subseteq.
    + rewrite content_log_op. apply insert_union_singleton_r.
      unfold content, buffered_payloads. rewrite lookup_union_None, lookup_fmap. by rewrite Hp.
Qed.

(** An operation that is buffered: it is stored with its envelope. *)
Lemma integrate_buffered op env span s :
  decodable (s_sync s) → decode (sop_payload op) = inr env → span = (operation_extent graphemes env).2 →
  ops (s_sync s) !! sop_id op = None → sync_pending (s_sync s) !! sop_id op = None →
  span_ready (s_sync s) (sop_id op) span = false →
  integrated op s (defer_envelope (sop_id op) env (set_sync (set_pending <[sop_id op := (op, span)]> (s_sync s)) s)).
Proof.
  intros Hd Hdec Hspan Hn Hp Hr. split; simpl; try done.
  - intros id o sp Hi. simpl in Hi. apply lookup_insert_Some in Hi as [[<- [= <- <-]]|[_ Hi]]; [|by eapply Hd].
    split; [done|]. by exists env.
  - intros P p Hop. apply confined_insert. auto.
  - intros Hq id o sp Hi. simpl in Hi. apply lookup_insert_Some in Hi as [[<- [= <- <-]]|[_ Hi]]; [done|].
    by apply (Hq _ _ _ Hi).
  - intros id Hi. unfold buffered_in in *. simpl in Hi. apply lookup_insert_is_Some' in Hi as [<-|Hi]; [right|by left].
    split; [done|]. unfold logged_in. rewrite Hn. by intros [? ?].
  - intros D HD id Hi. simpl in *. apply lookup_insert_is_Some' in Hi as [<-|Hi]; [by left|by apply HD].
  - intros Hap. split_and!; [|done|].
    + intros id Hi. simpl in *. apply lookup_insert_is_Some' in Hi as [<-|Hi]; [done|by apply Hap].
    + rewrite content_buffer by done. apply insert_union_singleton_r.
      unfold content, buffered_payloads. rewrite lookup_union_None, lookup_fmap. by rewrite Hp.
Qed.

(** An operation that is known already. *)
Lemma integrated_known op s :
  decodable (s_sync s) → logged_in s (sop_id op) ∨ buffered_in s (sop_id op) → integrated op s s.
Proof.
  intros Hd Hk. split; try done; [by left|]. intros Hap. split_and!; [done..|]. symmetry. by apply union_present, content_held.
Qed.

Lemma set_same_sync s : set_sync (s_sync s) s = s.
Proof. by destruct s. Qed.

Lemma integrate_facts r op env s :
  decodable (s_sync s) → decode (sop_payload op) = inr env →
  ∃ s' r', integrate r (op, env) s = (s', inr r') ∧ integrated op s s'.
Proof.
  intros Hd Hdec. unfold Session.integrate, apply_one.
  destruct (decide _) as [Hl|Hn%eq_None_not_Some].
  { rewrite set_same_sync. do 2 eexists. split; [done|]. apply integrated_known; [done|by left]. }
  destruct (decide (is_Some (sync_pending (s_sync s) !! sop_id op))) as [Hi|Hi%eq_None_not_Some].
  - rewrite set_same_sync. do 2 eexists. split; [done|].
    destruct (integrated_known op s Hd (or_intror Hi)). by split.
  - destruct (span_ready _ _ _) eqn:Hr.
    + pose proof (integrate_applied r op env s Hd Hn Hi) as H.
      by destruct (apply_or_defer (sop_id op) env (set_sync (log_op op (s_sync s)) s, r)).
    + do 2 eexists. split; [done|]. by apply integrate_buffered.
Qed.

(** ** What becomes of one operation *)

Section one.
Context (good : OpId → Prop) (source : OpId → Envelope → Prop).
Abbreviation progress := (progress good source).
Abbreviation sourced := (sourced source).

Lemma progress_buffered op env span s r :
  (∀ id, good id → ¬ orphaned s id) → sourced s → decode (sop_payload op) = inr env → source (sop_id op) env →
  ops (s_sync s) !! sop_id op = None → sync_pending (s_sync s) !! sop_id op = None →
  progress [] s r [] (defer_envelope (sop_id op) env (set_sync (set_pending <[sop_id op := (op, span)]> (s_sync s)) s))
    (mkSessionResult (sres_applied r) (sres_buffered r ++ [sop_id op])) [].
Proof.
  intros Hfresh Hs Hdec Hsrc Hn Hp. split; simpl; try done.
  - destruct Hs as [He Hb]. split; simpl.
    + intros id e [[<- <-]|[_ Hi]]%lookup_insert_Some; [done|by eapply He].
    + intros id o sp e Hi Ho. simpl in Hi. apply lookup_insert_Some in Hi as [[<- [= <- <-]]|[_ Hi]]; [|by eapply Hb].
      congruence.
  - intros id Hg Hst. destruct (decide (id = sop_id op)) as [->|Hne].
    + assert (Hbuf : buffered_in (defer_envelope (sop_id op) env
        (set_sync (set_pending <[sop_id op := (op, span)]> (s_sync s)) s)) (sop_id op)).
      { unfold buffered_in. simpl. rewrite lookup_insert_eq. eauto. }
      assert (Hnl : ¬ logged_in s (sop_id op)) by (unfold logged_in; rewrite Hn; by intros [? ?]).
      assert (Hnb : ¬ buffered_in s (sop_id op)) by (unfold buffered_in; rewrite Hp; by intros [? ?]).
      assert (Hnw : ¬ waits [] s (sop_id op)) by (intros [[]%elem_of_nil|[He _]]; by apply Hst).
      split.
      * by intros (_ & ? & _).
      * done.
      * split; [intros [[]%elem_of_nil|[[]%elem_of_nil|[_ ?]]]|intros [?|[? ?]]]; done.
      * intros []%elem_of_nil.
      * apply once_absent, not_elem_of_nil.
      * auto.
      * intros _ _. simpl. apply elem_of_app. right. left.
    + apply accounted_same; [apply not_elem_of_nil|done|done| | |done|].
      * unfold buffered_in. simpl. by rewrite lookup_insert_ne.
      * simpl. by rewrite lookup_insert_ne.
      * simpl. rewrite elem_of_app, list_elem_of_singleton. tauto.
Qed.

(** The operation is in the buffer already: its envelope is replaced. *)
Lemma progress_rebuffered op env s r :
  sourced s → source (sop_id op) env → buffered_in s (sop_id op) →
  progress [] s r [] (defer_envelope (sop_id op) env s)
    (mkSessionResult (sres_applied r) (sres_buffered r ++ [sop_id op])) [].
Proof.
  intros Hs Hsrc Hb. split; simpl; try done.
  - destruct Hs as [He Hbuf]. split; [|done]. simpl.
    intros id e [[<- <-]|[_ Hi]]%lookup_insert_Some; [done|by eapply He].
  - intros id Hg Hst. destruct (decide (id = sop_id op)) as [->|Hne].
    + split; try done.
      * by intros (_ & ? & _).
      * split; [intros [[]%elem_of_nil|[[]%elem_of_nil|[_ []]]]; done|intros [[[]%elem_of_nil|[_ []]]|[? []]]; done].
      * intros []%elem_of_nil.
      * apply once_absent, not_elem_of_nil.
      * auto.
      * intros _ _. simpl. apply elem_of_app. right. left.
    + apply accounted_same; [apply not_elem_of_nil|done|done|done| |done|].
      * simpl. by rewrite lookup_insert_ne.
      * simpl. rewrite elem_of_app, list_elem_of_singleton. tauto.
Qed.

(** The operation is logged, and applied or kept. *)
Lemma progress_logged op env s r :
  (∀ id, good id → ¬ orphaned s id) → sourced s → source (sop_id op) env →
  ops (s_sync s) !! sop_id op = None → sync_pending (s_sync s) !! sop_id op = None →
  let x := apply_or_defer (sop_id op) env (set_sync (log_op op (s_sync s)) s, r) in
  ∃ l, progress [] s r [] x.1 x.2 l.
Proof.
  intros Hfresh Hs Hsrc Hn Hp x. subst x. set (s1 := set_sync (log_op op (s_sync s)) s).
  assert (Hnb : ¬ buffered_in s (sop_id op)) by (unfold buffered_in; rewrite Hp; by intros [? ?]).
  assert (Hnl : ¬ logged_in s (sop_id op)) by (unfold logged_in; rewrite Hn; by intros [? ?]).
  assert (Hnone : good (sop_id op) → s_pending_envelopes s !! sop_id op = None).
  { intros Hg. apply eq_None_not_Some. intros He. by apply (Hfresh _ Hg). }
  assert (Hlog : ∀ s', s_sync s' = s_sync s1 → logged_in s' (sop_id op) ∧ ¬ buffered_in s' (sop_id op) ∧
    ∀ id, id ≠ sop_id op → (logged_in s' id ↔ logged_in s id) ∧ (buffered_in s' id ↔ buffered_in s id)).
  { intros s' E. unfold logged_in, buffered_in in *. rewrite E. simpl. rewrite lookup_insert_eq.
    split_and!; [by eexists|done|]. intros id Hne. by rewrite lookup_insert_ne. }
  unfold Session.apply_or_defer. destruct (observed_frontier_is_ready (s_sync s1) env); simpl.
  - destruct (Hlog (set_document (apply_envelope env (s_document s1)) s1) eq_refl) as (Hl & Hb & Hother).
    exists [(sop_id op, env)]. split; simpl; [done|done|by destruct Hs|by repeat constructor|].
    intros id Hg Hst. destruct (decide (id = sop_id op)) as [->|Hne].
    + assert (Hnw : ¬ waits [] (set_document (apply_envelope env (s_document s1)) s1) (sop_id op)).
      { intros [[]%elem_of_nil|[He _]]. simpl in He. rewrite Hnone in He by done. by destruct He. }
      split; try done.
      * by intros (_ & _ & ?).
      * split; [intros _; right; by split|intros _; left; left].
      * unfold once. rewrite filter_cons_True by done. simpl. lia.
      * intros _ [? _]%list_elem_of_filter. done.
      * by intros [?|?].
    + destruct (Hother id Hne). apply accounted_same; [set_solver|done..|].
      simpl. rewrite list_elem_of_filter. tauto.
  - destruct (Hlog (defer_envelope (sop_id op) env s1) eq_refl) as (Hl & Hb & Hother).
    exists []. split; simpl; [done|done| |done|].
    { destruct Hs as [He Hbuf]. split; [|done]. simpl.
      intros i e [[<- <-]|[_ Hi]]%lookup_insert_Some; [done|by eapply He]. }
    intros id Hg Hst. destruct (decide (id = sop_id op)) as [->|Hne].
    + assert (Hw : waits [] (defer_envelope (sop_id op) env s1) (sop_id op)).
      { right. split; [|done]. simpl. rewrite lookup_insert_eq. eauto. }
      split; try done.
      * by intros (_ & _ & ?).
      * split; [intros _; right; by split|intros _; by right].
      * intros []%elem_of_nil.
      * apply once_absent, not_elem_of_nil.
      * intros _ _. by right.
      * intros _ _. apply elem_of_push_new. by left.
    + destruct (Hother id Hne). apply accounted_same; [apply not_elem_of_nil|done..| |done|].
      * simpl. by rewrite lookup_insert_ne.
      * simpl. rewrite elem_of_push_new. naive_solver.
Qed.

Lemma integrate_progress r op env s s' r' :
  decodable (s_sync s) → apart (s_sync s) → (∀ id, good id → ¬ orphaned s id) → sourced s →
  decode (sop_payload op) = inr env → source (sop_id op) env →
  integrate r (op, env) s = (s', inr r') → ∃ l, progress [] s r [] s' r' l.
Proof.
  intros Hd Ha Hfresh Hs Hdec Hsrc. unfold Session.integrate, apply_one.
  destruct (decide _) as [Hl|Hn%eq_None_not_Some].
  { rewrite set_same_sync. intros [= <- <-]. exists []. by apply progress_refl. }
  destruct (decide (is_Some (sync_pending (s_sync s) !! sop_id op))) as [Hi|Hi%eq_None_not_Some].
  { rewrite set_same_sync. intros [= <- <-]. exists []. by apply progress_rebuffered. }
  destruct (span_ready _ _ _).
  2: { intros [= <- <-]. exists []. by apply progress_buffered. }
  destruct (progress_logged op env s r Hfresh Hs Hsrc Hn Hi) as [l Hl].
  pose proof (apply_or_defer_log (sop_id op) env (set_sync (log_op op (s_sync s)) s) r) as (_ & _ & E1 & _).
  destruct (apply_or_defer _ _ _) as [s1 r1]. simpl in Hl, E1.
  assert (Hd1 : decodable (s_sync s1)) by (rewrite E1; exact Hd).
  assert (Ha1 : apart (s_sync s1)).
  { rewrite E1. intros id Hid. simpl in *. rewrite lookup_insert_ne; [by apply Ha|].
    intros <-. rewrite Hi in Hid. by destruct Hid. }
  destruct (drain_promoted_spec good source r1 s1 Hd1 (pr_sourced _ _ _ _ _ _ _ _ _ Hl))
    as (s2 & r2 & k & -> & (_ & _ & E2 & _) & Hk).
  specialize (Hk Ha1). assert (Ha2 : apart (s_sync s2)).
  { rewrite E2. destruct (promote_promotes graphemes decode (s_sync s1) Hd1) as [Hpm _]. by apply (pm_apart _ _ _ _ _ Hpm). }
  destruct (progress_deferred good source s2 r2 Ha2 (pr_sourced _ _ _ _ _ _ _ _ _ Hk)) as [m Hm].
  destruct (drain_deferred (s2, r2)) as [s3 r3]. intros [= <- <-].
  exists (l ++ k ++ m). eapply progress_trans; [exact Hl|]. by eapply progress_trans.
Qed.

(** A list of prepared operations. *)
Lemma integrate_list l r s :
  decodable (s_sync s) → Forall (λ x : Operation * Envelope, decode (sop_payload x.1) = inr x.2) l →
  ∃ s' r', sm_fold integrate l r s = (s', inr r') ∧ decodable (s_sync s') ∧
    s_peer s' = s_peer s ∧ s_next_counter s' = s_next_counter s ∧ s_unit_mode s' = s_unit_mode s ∧
    (∀ P p, Forall (λ x : Operation * Envelope, peer (sop_id x.1) = p → P (sop_id x.1)) l →
      confined P p (s_sync s) → confined P p (s_sync s')) ∧
    (quiescent (s_sync s) → quiescent (s_sync s')) ∧
    (∀ id, buffered_in s' id → buffered_in s id ∨ id ∈ (λ x, sop_id x.1) <$> l) ∧
    (∀ D, apart_but D (s_sync s) → apart_but D (s_sync s')) ∧
    (apart (s_sync s) → apart (s_sync s') ∧ ops (s_sync s) ⊆ ops (s_sync s') ∧
      content (s_sync s') = content (s_sync s) ∪ list_to_map ((λ x, (sop_id x.1, sop_payload x.1)) <$> l) ∧
      ((∀ id, good id → ¬ orphaned s id) → sourced s →
       Forall (λ x : Operation * Envelope, source (sop_id x.1) x.2) l → ∃ k, progress [] s r [] s' r' k)).
Proof.
  revert r s. induction l as [|[op env] l IH]; intros r s Hd Hdec.
  { exists s, r. split_and!; try done; [by left|]. intros Ha. split_and!; [done|done|simpl; by rewrite (right_id_L ∅ (∪))|].
    intros _ Hs _. exists []. by apply progress_refl. }
  cbn [sm_fold]. apply Forall_cons in Hdec as [Hop Hdec]. simpl in Hop.
  destruct (integrate_facts r op env s Hd Hop) as (s1 & r1 & E1 & [Hd1 Hp1 Hc1 Hu1 Hb1 Hq1 Hpe1 Hbut1 Ha1]).
  destruct (IH r1 s1 Hd1 Hdec) as (s2 & r2 & E2 & Hd2 & Hp2 & Hc2 & Hu2 & Hb2 & Hq2 & Hpe2 & Hbut2 & Ha2).
  exists s2, r2. unfold mbind, SM_bind. rewrite E1. split_and!; [done|done|congruence..| |auto| |auto|].
  - intros P p [Hx Hl]%Forall_cons Hb. simpl in Hx. auto.
  - intros id Hi. rewrite fmap_cons. destruct (Hpe2 id Hi) as [Hi1|?]; [|right; by right].
    destruct (Hpe1 id Hi1) as [?|[-> _]]; [by left|right; left].
  - intros Ha. destruct (Ha1 Ha) as (Hap1 & Hsub1 & Hcont1). destruct (Ha2 Hap1) as (Hap2 & Hsub2 & Hcont2 & Hpr2).
    split_and!; [done|by etrans| |].
    + rewrite Hcont2, Hcont1, fmap_cons. simpl.
      by rewrite insert_union_singleton_l, (assoc_L (∪)).
    + intros Hfresh Hs [Hsrc Hl]%Forall_cons. simpl in Hsrc.
      destruct (integrate_progress r op env s s1 r1 Hd Ha Hfresh Hs Hop Hsrc E1) as [k Hk].
      destruct Hpr2 as [m Hm]; [|by apply (pr_sourced _ _ _ _ _ _ _ _ _ Hk)|done|].
      * intros id Hg. eapply ac_fresh, (pr_account _ _ _ _ _ _ _ _ _ Hk); auto.
      * exists (k ++ m). by eapply progress_trans.
Qed.
End one.
(** ** Receiving a message *)

(** The operations of a message that are not logged yet. *)
Definition unlogged (m : ChangeMessage) (s : CollaborativeDocument) : list Operation :=
  filter (λ op, ops (s_sync s) !! sop_id op = None) (msg_ops m).

Lemma prepare_ops_spec s l prepared :
  prepare_ops graphemes decode s l = inr prepared →
  prepared.*1 = filter (λ op, ops (s_sync s) !! sop_id op = None) l ∧
  Forall (λ x : Operation * Envelope, decode (sop_payload x.1) = inr x.2) prepared.
Proof.
  revert prepared. induction l as [|op l IH]; intros prepared; simpl; [by intros [= <-]|].
  destruct (prepare_op graphemes decode s op) as [e|p] eqn:Hop; [done|].
  destruct (prepare_ops _ _ _ _) as [e|rest]; [done|]. intros [= <-].
  destruct (IH rest eq_refl) as [Hids Hdec]. unfold prepare_op, contains in Hop. rewrite filter_cons.
  destruct (bool_decide (is_Some (ops (s_sync s) !! sop_id op))) eqn:Hc.
  - apply bool_decide_eq_true in Hc as [x Hx]. injection Hop as <-. rewrite Hx. by rewrite decide_False.
  - apply bool_decide_eq_false, eq_None_not_Some in Hc. rewrite decide_True by done.
    repeat (case_match; simplify_eq/=; try done); (split; [by f_equal|by constructor]).
Qed.

Lemma content_unlogged m s :
  content (s_sync s) ∪ list_to_map ((λ op, (sop_id op, sop_payload op)) <$> unlogged m s) =
  content (s_sync s) ∪ list_to_map ((λ op, (sop_id op, sop_payload op)) <$> msg_ops m).
Proof.
  unfold unlogged. generalize (content_held (s_sync s)). generalize (content (s_sync s)) as c. intros c Hc.
  assert (Hlog : ∀ id, is_Some (ops (s_sync s) !! id) → is_Some (c !! id)) by auto. clear Hc. revert c Hlog.
  induction (msg_ops m) as [|op l IH]; intros c Hlog; [done|]. rewrite filter_cons, fmap_cons. simpl.
  rewrite (insert_union_singleton_l (list_to_map _)), (assoc_L (∪)). case_decide as Hn.
  - rewrite fmap_cons. simpl. rewrite insert_union_singleton_l, (assoc_L (∪)). apply IH.
    intros id Hid. apply lookup_union_is_Some. left. by apply Hlog.
  - rewrite (union_present c); [by apply IH|]. apply Hlog. by apply not_eq_None_Some.
Qed.

(** Where an envelope that reaches the document comes from. *)
Definition origin (m : ChangeMessage) (s : CollaborativeDocument) (id : OpId) (env : Envelope) : Prop :=
  s_pending_envelopes s !! id = Some env ∨
  ∃ op, sop_id op = id ∧ decode (sop_payload op) = inr env ∧
    (op ∈ msg_ops m ∨ ∃ span, sync_pending (s_sync s) !! id = Some (op, span)).

(** What a message that is accepted does. *)
Record received (m : ChangeMessage) (s s' : CollaborativeDocument) (r : SessionApplyResult) : Prop := {
  rc_decodable : decodable (s_sync s');
  rc_ready : ready_envelopes s' = [];
  rc_quiescent : quiescent (s_sync s) → quiescent (s_sync s');
  rc_peer : s_peer s' = s_peer s;
  rc_clock : s_next_counter s' = s_next_counter s;
  rc_unit : s_unit_mode s' = s_unit_mode s;
  rc_confined P p : Forall (λ op, peer (sop_id op) = p → P (sop_id op)) (unlogged m s) →
    confined P p (s_sync s) → confined P p (s_sync s');
  rc_pending id : buffered_in s' id → buffered_in s id ∨ id ∈ sop_id <$> unlogged m s;
  rc_but D : apart_but D (s_sync s) → apart_but D (s_sync s');
  rc_whole : apart (s_sync s) →
    apart (s_sync s') ∧ ops (s_sync s) ⊆ ops (s_sync s') ∧
    content (s_sync s') =
      content (s_sync s) ∪ list_to_map ((λ op, (sop_id op, sop_payload op)) <$> msg_ops m) ∧
    ∃ l, progress (λ id, ¬ orphaned s id) (origin m s) [] s (mkSessionResult [] []) [] s' r l;
}.

Lemma drain_deferred_log s r : same_log s (drain_deferred (s, r)).1 ∧ ready_envelopes (drain_deferred (s, r)).1 = [].
Proof. by destruct (drain_deferred_spec 0 s r) as (_ & _ & ? & ? & _). Qed.

(** [apply_remote] on a session whose buffered operations can be decoded. *)
Lemma apply_remote_spec m limits s :
  decodable (s_sync s) →
  match apply_remote inc graphemes decode m limits s with
  | (s', inl _) => s' = s
  | (s', inr r) => received m s s' r
  end.
Proof.
  intros Hd. unfold apply_remote. destruct (validate_changes _ _ _); [done|].
  destruct (prepare_ops _ _ _ _) as [e|prepared] eqn:Hprep; [done|].
  apply prepare_ops_spec in Hprep as [Hids Hdec]. change (prepared.*1 = unlogged m s) in Hids.
  assert (Hdecs : ∀ id op span env, sync_pending (s_sync s) !! id = Some (op, span) →
    decode (sop_payload op) = inr env → origin m s id env).
  { intros id op span env Hi He. right. exists op. destruct (Hd _ _ _ Hi) as [<- _]. eauto. }
  destruct (integrate_list (λ id, ¬ orphaned s id) (origin m s) prepared (mkSessionResult [] []) s Hd Hdec)
    as (s1 & r1 & -> & Hd1 & Hp1 & Hc1 & Hu1 & Hb1 & Hq1 & Hpe1 & Hbut1 & Ha1).
  pose proof (drain_deferred_log s1 r1) as [(Hp2 & Hc2 & Hst2 & Hu2) Hready].
  assert (Hdrain : apart (s_sync s1) → sourced (origin m s) s1 → ∃ l, progress (λ id, ¬ orphaned s id) (origin m s) [] s1 r1 []
    (drain_deferred (s1, r1)).1 (drain_deferred (s1, r1)).2 l) by apply progress_deferred.
  destruct (drain_deferred (s1, r1)) as [s2 r2]. simpl in *.
  split; rewrite ?Hst2; try done; try congruence.
  - intros P p Hm Hcf. apply (Hb1 P p); [|done]. rewrite Forall_forall in Hm. apply Forall_forall. intros x Hx.
    apply (Hm x.1). rewrite <-Hids. by apply list_elem_of_fmap_2.
  - intros id Hi. unfold buffered_in in Hi. rewrite Hst2 in Hi. destruct (Hpe1 id Hi) as [?|Hin]; [by left|right].
    rewrite <-Hids, <-list_fmap_compose. exact Hin.
  - intros Ha. destruct (Ha1 Ha) as (Hap & Hsub & Hcont & Hpr). split_and!; [done..| |].
    + rewrite Hcont, <-content_unlogged, <-Hids. by rewrite <-list_fmap_compose.
    + destruct Hpr as [l Hl]; [done|split; [by left|exact Hdecs]| |].
      * rewrite Forall_forall in *. intros x Hx. right. exists x.1. split_and!; [done|by apply Hdec|]. left.
        assert (x.1 ∈ unlogged m s) as Hin by (rewrite <-Hids; by apply list_elem_of_fmap_2).
        by apply list_elem_of_filter in Hin as [_ ?].
      * destruct (Hdrain Hap (pr_sourced _ _ _ _ _ _ _ _ _ Hl)) as [k Hk]. exists (l ++ k).
        by eapply progress_trans.
Qed.
End remote.
