(* ===== verification/DocumentTwin.v ===== *)
(** * Documents that differ in their cached index only

    Two documents with the same frontmatter, blocks and source state stay so
    under every change a session applies, whatever their caches and generations
    are, as long as a cache is not reused after the generation counter went
    round.  [stale n] says how many edits at most lie between the cache and the
    blocks; lookups set it back. *)

From S2P Require Import Prelude Core Sequence Mark MarkOps Table Frontmatter Codec Text Block.
From S2P Require Import Document DocumentCache DocumentTree Sync Draft SessionWire Session SessionTrace.

(** ** The relation *)

(** At most [n] edits since the cached index was built. *)
Definition stale (n : nat) (d : Document) : Prop :=
  ∀ c, doc_block_index d = Some c → ∃ j, j ≤ n ∧
    match j with
    | 0 => generation d = cached_generation c ∧ cached_index c = index_of (doc_blocks d)
    | S _ => generation d = ((cached_generation c + N.of_nat j) `mod` u64_modulus)%N
    end.

Definition same_content (d d' : Document) : Prop :=
  doc_frontmatter d = doc_frontmatter d' ∧ doc_blocks d = doc_blocks d' ∧
  doc_source d = doc_source d'.

#[export] Instance same_content_equiv : Equivalence same_content.
Proof.
  split; [done|by intros d d' (?&?&?)|]. intros d d' d'' (?&?&?) (?&?&?). unfold same_content.
  split_and!; by etrans.
Qed.

Record twin (n : nat) (d d' : Document) : Prop := {
  tw_content : same_content d d';
  tw_left : stale n d;
  tw_right : stale n d';
}.

Definition room (n : nat) : Prop := (N.of_nat n < u64_modulus)%N.

Lemma room_le n m : n ≤ m → room m → room n.
Proof. unfold room. lia. Qed.

Lemma stale_mono n m d : n ≤ m → stale n d → stale m d.
Proof. intros Hle Hs c Hc. destruct (Hs c Hc) as (j & ? & ?). exists j. split; [lia|done]. Qed.
Lemma twin_mono n m d d' : n ≤ m → twin n d d' → twin m d d'.
Proof. intros Hle [? Hl Hr]. split; [done|by eapply stale_mono..]. Qed.

Lemma stale_coherent n d : room n → stale n d → coherent d.
Proof.
  intros Hn Hs c Hc Hg. destruct (Hs c Hc) as ([|j] & Hj & Hm); [by destruct Hm|].
  exfalso. rewrite <-Hg in Hm. revert Hm Hj. generalize (S j), (Nat.lt_0_succ j). clear j. intros j Hj0 Hm Hj.
  unfold room in Hn. set (g := cached_generation c) in *.
  assert (g < u64_modulus)%N as Hlt by (rewrite Hm; apply N.mod_lt; done).
  destruct (decide (g + N.of_nat j < u64_modulus)%N) as [H|H].
  - rewrite N.mod_small in Hm by done. lia.
  - rewrite <-(N.mod_unique (g + N.of_nat j) u64_modulus 1 (g + N.of_nat j - u64_modulus)) in Hm by lia. lia.
Qed.

Lemma stale_edit n f d : stale n d → stale (S n) (edit_blocks f d).
Proof.
  intros Hs c Hc. destruct (Hs c Hc) as (j & Hj & Hm). exists (S j). split; [lia|].
  unfold generation in *. cbn [ib_generation doc_indexed edit_blocks deref_mut]. unfold u64_wrapping_add.
  destruct j as [|j]; [by destruct Hm as [-> _]|].
  rewrite Hm, N.Div0.add_mod_idemp_l. f_equal. lia.
Qed.

(** ** Primitive changes *)

Lemma twin_edit n f g d d' :
  twin n d d' → (f (doc_blocks d) = g (doc_blocks d)) → twin (S n) (edit_blocks f d) (edit_blocks g d').
Proof.
  intros [(Hf & Hb & Hs) Hl Hr] E. split; [|by apply stale_edit..]. split_and!; [done| |done].
  unfold doc_blocks in *. simpl. by rewrite <-Hb, E.
Qed.
Lemma twin_source n src d d' : twin n d d' → twin n (set_source src d) (set_source src d').
Proof. intros [(Hf & Hb & Hs) Hl Hr]. by split. Qed.
Lemma twin_frontmatter n fm d d' : twin n d d' → twin n (set_frontmatter fm d) (set_frontmatter fm d').
Proof. intros [(Hf & Hb & Hs) Hl Hr]. by split. Qed.
Lemma twin_blocks n d d' : twin n d d' → doc_blocks d' = doc_blocks d.
Proof. by intros [(_ & -> & _) _ _]. Qed.
Lemma twin_doc_source n d d' : twin n d d' → doc_source d' = doc_source d.
Proof. by intros [(_ & _ & ->) _ _]. Qed.
Lemma twin_doc_frontmatter n d d' : twin n d d' → doc_frontmatter d' = doc_frontmatter d.
Proof. by intros [(-> & _ & _) _ _]. Qed.

Lemma twin_elem_dirty n e d d' : twin n d d' → twin n (mark_source_elem_dirty e d) (mark_source_elem_dirty e d').
Proof.
  intros H. unfold mark_source_elem_dirty. rewrite (twin_doc_source _ _ _ H). by apply twin_source.
Qed.

(** ** Operations that agree on twins *)

(** Both runs give the same result, and twins at most [n] edits stale. *)
Definition agree {R} (n : nat) (x x' : Document * R) : Prop :=
  ∃ d d' r, x = (d, r) ∧ x' = (d', r) ∧ twin n d d'.

Lemma agree_mono {R} n m (x x' : Document * R) : n ≤ m → agree n x x' → agree m x x'.
Proof. intros Hle (d & d' & r & -> & -> & H). exists d, d', r. eauto using twin_mono. Qed.
Lemma agree_ret {R} n d d' (r : R) : twin n d d' → agree n (d, r) (d', r).
Proof. intros H. by exists d, d', r. Qed.
Lemma agree_fst {R} n (x x' : Document * R) : agree n x x' → twin n x.1 x'.1.
Proof. by intros (d & d' & r & -> & -> & H). Qed.

(** Lookups: the same answer, and a fresh cache on both sides. *)
Lemma stale_rebuilt d : stale 0 (rebuild_block_index d).
Proof. intros c [= <-]. by exists 0. Qed.

Lemma stale_ensure d : coherent d → stale 0 (ensure_block_index d).
Proof.
  intros Hc. unfold ensure_block_index. destruct (doc_block_index d) as [c|] eqn:E; [|apply stale_rebuilt].
  case_decide as Hg; [|apply stale_rebuilt]. intros c' Hc'. rewrite E in Hc'. injection Hc' as <-.
  exists 0. split_and!; [done|done|]. by apply Hc.
Qed.

Lemma stale_find_through {K} `{Countable K} (key : BlockIndex → gmap K BlockPath) k ok d :
  coherent d → stale 0 (find_through key k ok d).1.
Proof.
  intros Hc. unfold find_through. case_match; simpl; [by apply stale_ensure|apply stale_rebuilt].
Qed.

Lemma content_cache d d' : cache_only d d' → same_content d d'.
Proof. by intros [->| ->]. Qed.

Section find.
Context {K : Type} `{Countable K} (key : BlockIndex → gmap K BlockPath) (k : K) (ok : Block → bool).

Lemma twin_find_through n d d' :
  room n → twin n d d' → agree 0 (find_through key k ok d) (find_through key k ok d').
Proof.
  intros Hn [Hc Hl Hr]. pose proof (stale_coherent _ _ Hn Hl) as Hcl.
  pose proof (stale_coherent _ _ Hn Hr) as Hcr.
  destruct (find_through_spec key k ok d Hcl) as [El _]. destruct (find_through_spec key k ok d' Hcr) as [Er _].
  pose proof (stale_find_through key k ok d Hcl) as Sl. pose proof (stale_find_through key k ok d' Hcr) as Sr.
  pose proof (content_cache _ _ (cache_only_find_through key k ok d)) as Cl.
  pose proof (content_cache _ _ (cache_only_find_through key k ok d')) as Cr.
  destruct (find_through key k ok d) as [d1 r], (find_through key k ok d') as [d1' r']. simpl in *.
  exists d1, d1', r. split_and!; [done| |].
  - rewrite El, Er. by destruct Hc as (_ & -> & _).
  - split; [|done..]. etrans; [symmetry; exact Cl|]. etrans; [exact Hc|exact Cr].
Qed.
End find.

Lemma twin_find n e d d' : room n → twin n d d' → agree 0 (find_block e d) (find_block e d').
Proof. apply twin_find_through. Qed.
Lemma twin_find_id n e d d' : room n → twin n d d' → agree 0 (find_block_by_id e d) (find_block_by_id e d').
Proof. apply twin_find_through. Qed.

Lemma ensure_index d : coherent d → cached_index <$> doc_block_index (ensure_block_index d) = Some (index_of (doc_blocks d)).
Proof. intros Hc. by destruct (ensure_fresh d Hc) as (g & -> & _). Qed.

Lemma twin_parent n e d d' : room n → twin n d d' → agree 0 (block_parent e d) (block_parent e d').
Proof.
  intros Hn [Hc Hl Hr]. pose proof (stale_coherent _ _ Hn Hl) as Hcl. pose proof (stale_coherent _ _ Hn Hr) as Hcr.
  pose proof (ensure_index d Hcl) as El. pose proof (ensure_index d' Hcr) as Er.
  unfold block_parent. do 3 eexists. split_and!; [done| |split].
  - f_equal. destruct (doc_block_index (ensure_block_index d)) as [c|], (doc_block_index (ensure_block_index d')) as [c'|];
      simplify_eq/=. rewrite El, Er. by destruct Hc as (_ & -> & _).
  - etrans; [symmetry; apply content_cache, cache_only_ensure|].
    etrans; [exact Hc|apply content_cache, cache_only_ensure].
  - by apply stale_ensure.
  - by apply stale_ensure.
Qed.

Lemma twin_elem_id n e d d' : room n → twin n d d' → agree 0 (block_elem_id e d) (block_elem_id e d').
Proof.
  intros Hn H. unfold block_elem_id. destruct (twin_find_id n e d d' Hn H) as (d1 & d1' & r & -> & -> & H1).
  by apply agree_ret.
Qed.
Lemma twin_contains n e c d d' :
  room n → twin n d d' → agree 0 (block_contains_container e c d) (block_contains_container e c d').
Proof.
  intros Hn H. unfold block_contains_container.
  destruct (twin_find_id n e d d' Hn H) as (d1 & d1' & r & -> & -> & H1). by apply agree_ret.
Qed.
Lemma twin_children n p d d' : room n → twin n d d' → agree n (container_children p d) (container_children p d').
Proof.
  intros Hn H. unfold container_children. destruct p as [p|].
  - destruct (twin_find n p d d' Hn H) as (d1 & d1' & r & -> & -> & H1).
    rewrite (twin_blocks _ _ _ H1). apply (agree_mono 0); [lia|].
    repeat case_match; by apply agree_ret.
  - rewrite (twin_blocks _ _ _ H). by apply agree_ret.
Qed.

(** ** In-place edits *)

(** The path a lookup leaves in the cache. *)
Lemma find_path e d :
  coherent d →
  (cached ← doc_block_index (find_block e d).1; by_elem_id (cached_index cached) !! e) =
    by_elem_id (index_of (doc_blocks d)) !! e.
Proof.
  intros Hc. unfold find_block, find_through. destruct (ensure_fresh d Hc) as (g & -> & _).
  by case_match.
Qed.

Lemma twin_with_block {R} n e (f : Block → Block * R) d d' :
  room n → twin n d d' → agree 1 (with_block_mut e f d) (with_block_mut e f d').
Proof.
  intros Hn H. unfold with_block_mut. destruct (twin_find n e d d' Hn H) as (d1 & d1' & r & E & E' & H1).
  pose proof (find_path e d (stale_coherent _ _ Hn (tw_left _ _ _ H))) as P.
  pose proof (find_path e d' (stale_coherent _ _ Hn (tw_right _ _ _ H))) as P'.
  rewrite E in P |- *. rewrite E' in P' |- *. rewrite (twin_blocks _ _ _ H) in P'. simpl in P, P'.
  destruct r as [b|]; [|apply agree_ret; eapply twin_mono; [|exact H1]; lia].
  pose proof (twin_elem_dirty 0 e _ _ H1) as H2. rewrite (twin_blocks _ _ _ H2).
  cbn [mark_source_elem_dirty set_source doc_block_index]. rewrite P, P'.
  destruct (by_elem_id _ !! e) as [path|]; [|apply agree_ret; eapply twin_mono; [|exact H2]; lia].
  destruct (block_at_path_mut _ _ _ _) as [s x]. apply agree_ret. by apply twin_edit.
Qed.

Lemma twin_container n c f d d' :
  room n → twin n d d' →
  agree (S n) (with_container_children_mut c f d) (with_container_children_mut c f d').
Proof.
  intros Hn H. unfold with_container_children_mut. rewrite (twin_blocks _ _ _ H).
  destruct (mjoin _); apply agree_ret; by apply twin_edit.
Qed.

Section ops.
Context (inc : bool) (graphemes : string → list string).

Lemma twin_apply_at n p op d d' :
  room n → twin n d d' → agree (S n) (apply_at inc p op d) (apply_at inc p op d').
Proof.
  intros Hn H. unfold apply_at. destruct p as [p|].
  - apply twin_container; [done|]. by apply twin_elem_dirty.
  - apply agree_ret. by apply twin_edit.
Qed.
Lemma twin_insert n p a i v ro d d' :
  room n → twin n d d' → agree (S n) (insert_block_at inc p a i v ro d) (insert_block_at inc p a i v ro d').
Proof. apply twin_apply_at. Qed.
Lemma twin_delete n p t i d d' :
  room n → twin n d d' → agree (S n) (delete_block_at inc p t i d) (delete_block_at inc p t i d').
Proof. apply twin_apply_at. Qed.

(** The shape shared by the setters: an in-place edit and a default. *)
Lemma twin_default {R} n e (f : Block → Block * R) x d d' :
  room n → twin n d d' →
  agree 1 (let '(d, r) := with_block_mut e f d in (d, default x r))
          (let '(d, r) := with_block_mut e f d' in (d, default x r)).
Proof.
  intros Hn H. destruct (twin_with_block n e f d d' Hn H) as (d1 & d1' & r & -> & -> & H1). by apply agree_ret.
Qed.
Lemma twin_edit_list n e f d d' : room n → twin n d d' → agree 1 (edit_list e f d) (edit_list e f d').
Proof. apply twin_default. Qed.
Lemma twin_list_element n e t d d' :
  room n → twin n d d' → agree 0 (list_element e t d) (list_element e t d').
Proof.
  intros Hn H. unfold list_element. destruct (twin_find n e d d' Hn H) as (d1 & d1' & r & -> & -> & H1).
  by apply agree_ret.
Qed.

Lemma room_1 : room 1.
Proof. done. Qed.
Lemma room_0 : room 0.
Proof. done. Qed.
Hint Resolve room_0 room_1 : core.

Lemma twin_missing n m d d' :
  room n → twin n d d' → agree 1 (move_missing_item inc m d) (move_missing_item inc m d').
Proof.
  intros Hn H. unfold move_missing_item.
  destruct (twin_list_element n (im_from_list_elem m) (im_target m) d d' Hn H) as (d1 & d1' & el & -> & -> & H1).
  destruct (negb _); [by apply (twin_default 0)|by apply (twin_edit_list 0)].
Qed.

Lemma twin_move_item n m d d' :
  room n → twin n d d' → agree 1 (move_list_item_at inc m d) (move_list_item_at inc m d').
Proof.
  intros Hn H. unfold move_list_item_at. rewrite (twin_blocks _ _ _ H).
  destruct (find_list_item_by_id _ _) as [item|]; [|by eapply twin_missing]. cbv zeta. destruct (_ && _).
  - destruct (twin_list_element n (im_to_list_elem m) (im_id m) d d' Hn H) as (d1 & d1' & [el|] & -> & -> & H1).
    + apply agree_ret. eapply twin_mono; [|exact H1]. lia.
    + match goal with |- context [edit_list ?e ?f d1] =>
        destruct (twin_edit_list 0 e f d1 d1' room_0 H1) as (d2 & d2' & r & -> & -> & H2) end.
      by apply agree_ret.
  - match goal with |- context [edit_list ?e ?f d] =>
      destruct (twin_edit_list n e f d d' Hn H) as (d2 & d2' & r & -> & -> & H2) end.
    destruct (negb r); [by apply agree_ret|by apply (twin_edit_list 1)].
Qed.

Lemma twin_fold {A} n (f : Document → A → Document) l d d' :
  room n → (∀ a d d', twin n d d' → twin n (f d a) (f d' a)) → twin n d d' →
  twin n (fold_left f l d) (fold_left f l d').
Proof. intros Hn Hf. revert d d'. induction l as [|a l IH]; intros d d' H; simpl; [done|]. by apply IH, Hf. Qed.

Lemma twin_resolve n i d d' :
  room n → 1 ≤ n → twin n d d' →
  twin n (resolve_pending_list_item_moves inc i d) (resolve_pending_list_item_moves inc i d').
Proof.
  intros Hn H1n H. unfold resolve_pending_list_item_moves. rewrite (twin_blocks _ _ _ H).
  destruct (list_containing_item _ _) as [[? e]|]; [|done].
  destruct (twin_with_block n e (take_pending_moves i) d d' Hn H) as (d1 & d1' & r & -> & -> & H1).
  eapply twin_mono; [exact H1n|]. apply twin_fold; [done| |done].
  intros m x x' Hx. by apply agree_fst, (twin_move_item 1).
Qed.

Lemma twin_insert_item n e a i ro t d d' :
  room n → twin n d d' → agree 1 (insert_list_item_at inc e a i ro t d) (insert_list_item_at inc e a i ro t d').
Proof.
  intros Hn H. unfold insert_list_item_at.
  match goal with |- context [edit_list ?e ?f d] =>
    destruct (twin_edit_list n e f d d' Hn H) as (d1 & d1' & r & -> & -> & H1) end.
  destruct r; apply agree_ret; [by apply twin_resolve|done].
Qed.
Lemma twin_delete_item n e i t o d d' :
  room n → twin n d d' → agree 1 (delete_list_item_at inc e i t o d) (delete_list_item_at inc e i t o d').
Proof.
  intros Hn H. unfold delete_list_item_at. rewrite (twin_blocks _ _ _ H). destruct (list_item_placement _ _) as [[[? ?] ?]|];
    by eapply twin_edit_list.
Qed.
Lemma twin_item_task n i t o ob d d' :
  room n → twin n d d' → agree (n + 1) (set_list_item_task i t o ob d) (set_list_item_task i t o ob d').
Proof.
  intros Hn H. unfold set_list_item_task. rewrite (twin_blocks _ _ _ H).
  destruct (list_item_placement _ _) as [[[? ?] ?]|].
  - eapply (agree_mono 1); [lia|]. by eapply twin_edit_list.
  - apply agree_ret. eapply twin_mono; [|exact H]. lia.
Qed.

(** ** Moves of blocks *)

Lemma twin_prepare n p m d d' : room n → twin n d d' → agree 0 (prepare_move p m d) (prepare_move p m d').
Proof.
  intros Hn H. unfold prepare_move.
  destruct (twin_find_id n (mb_block_id m) d d' Hn H) as (d1 & d1' & [b|] & -> & -> & H1); [|by apply agree_ret].
  assert (Hin : agree 0
    (match p with Some parent => block_contains_container (blk_id b) parent d1 | None => (d1, false) end)
    (match p with Some parent => block_contains_container (blk_id b) parent d1' | None => (d1', false) end)).
  { destruct p; [by apply (twin_contains 0)|by apply agree_ret]. }
  destruct Hin as (d2 & d2' & inside & -> & -> & H2). destruct inside; [by apply agree_ret|].
  destruct (twin_parent 0 (blk_id b) d2 d2' room_0 H2) as (d3 & d3' & [q|] & -> & -> & H3); by apply agree_ret.
Qed.

Lemma twin_prepares n p l d d' : room n → twin n d d' → agree n (prepare_moves p l d) (prepare_moves p l d').
Proof.
  revert n d d'. induction l as [|m l IH]; intros n d d' Hn H; simpl; [by apply agree_ret|].
  destruct (twin_prepare n p m d d' Hn H) as (d1 & d1' & [x|] & -> & -> & H1).
  - destruct (IH 0 d1 d1' room_0 H1) as (d2 & d2' & r & -> & -> & H2). apply agree_ret.
    eapply twin_mono; [|exact H2]. lia.
  - apply agree_ret. eapply twin_mono; [|exact H1]. lia.
Qed.

Lemma prepare_moves_length p l d d1 prepared :
  prepare_moves p l d = (d1, Some prepared) → length prepared = length l.
Proof.
  revert d d1 prepared. induction l as [|m l IH]; intros d d1 prepared; simpl; [by intros [= <- <-]|].
  destruct (prepare_move p m d) as [d2 [x|]]; [|done].
  destruct (prepare_moves p l d2) as [d3 [r|]] eqn:E; [|done]. intros [= <- <-]. simpl. f_equal. by eapply IH.
Qed.

(** A loop whose rounds make [k] edits each. *)
Lemma twin_fold_cost {A} k n (f : Document → A → Document) l d d' :
  room (n + k * length l) → (∀ n a d d', room (n + k) → twin n d d' → twin (n + k) (f d a) (f d' a)) →
  twin n d d' → twin (n + k * length l) (fold_left f l d) (fold_left f l d').
Proof.
  intros Hn Hf. revert n d d' Hn. induction l as [|a l IH]; intros n d d' Hn H; simpl in *.
  - eapply twin_mono; [|exact H]. lia.
  - replace (n + k * S (length l)) with ((n + k) + k * length l) in * by lia. apply IH; [done|].
    apply Hf; [|done]. eapply room_le; [|exact Hn]. lia.
Qed.

Lemma twin_lose n p i x d d' :
  room (n + 2) → twin n d d' → twin (n + 2) (lose_move inc p i d x) (lose_move inc p i d' x).
Proof.
  intros Hn H. destruct x as [b m]. unfold lose_move.
  assert (Hn0 : room n) by (eapply room_le; [|exact Hn]; lia).
  destruct (twin_children n p d d' Hn0 H) as (d1 & d1' & r & -> & -> & H1).
  destruct (decide _); [eapply twin_mono; [|exact H1]; lia|].
  replace (n + 2) with (S (S n)) by lia. apply agree_fst, twin_delete.
  - eapply room_le; [|exact Hn]. lia.
  - by apply agree_fst, twin_insert.
Qed.

Lemma twin_move_blocks n p l i d d' :
  room (n + 2 * length l) → twin n d d' →
  agree (n + 2 * length l) (move_blocks_at inc p l i d) (move_blocks_at inc p l i d').
Proof.
  intros Hn H. unfold move_blocks_at. assert (Hn0 : room n) by (eapply room_le; [|exact Hn]; lia).
  assert (Hret : ∀ d d' (r : bool), twin n d d' → agree (n + 2 * length l) (d, r) (d', r)).
  { intros x x' r Hx. apply agree_ret. eapply twin_mono; [|exact Hx]. lia. }
  destruct (decide (l = [])); [by apply Hret|].
  destruct (twin_children n p d d' Hn0 H) as (d1 & d1' & [c|] & -> & -> & H1); [|by apply Hret].
  pose proof (twin_prepares n p l d1 d1' Hn0 H1) as Hp. pose proof (prepare_moves_length p l d1) as Hlen.
  destruct Hp as (d2 & d2' & [prepared|] & E & -> & H2); rewrite E in *; [|by apply Hret].
  specialize (Hlen _ _ eq_refl). set (blocks := _ <$> prepared).
  assert (Hz : length (zip blocks l) = length l).
  { rewrite length_zip. unfold blocks. rewrite length_fmap. lia. }
  destruct (existsb snd prepared); apply agree_ret.
  - rewrite <-Hz in *. apply twin_fold_cost; [done| |done]. intros. by apply twin_lose.
  - replace (n + 2 * length l) with ((n + 1 * length prepared) + 1 * length (zip blocks l)) in * by lia.
    apply twin_fold_cost; [done|..].
    + intros m x y y' Hm Hy. rewrite Nat.add_1_r in *. apply agree_fst, twin_insert; [|done].
      eapply room_le; [|exact Hm]. lia.
    + apply twin_fold_cost; [eapply room_le; [|exact Hn]; lia| |done].
      intros m x y y' Hm Hy. rewrite Nat.add_1_r in *. apply agree_fst, twin_delete; [|done].
      eapply room_le; [|exact Hm]. lia.
Qed.

(** ** Envelopes *)

(** How many edits an envelope makes at most without a lookup in between. *)
Definition edit_cost (env : Envelope) : nat :=
  match env_body env with
  | Doc (MoveBlocks _ _ blocks) => 2 * length blocks
  | _ => 2
  end.

Lemma twin_current n b e (f : Document → OpId → Document) d d' m :
  room n → twin n d d' → (∀ x d d', twin 0 d d' → twin m (f d x) (f d' x)) →
  twin m (let '(d, x) := current_block_elem b e d in f d x) (let '(d, x) := current_block_elem b e d' in f d x).
Proof.
  intros Hn H Hf. unfold current_block_elem.
  destruct (twin_elem_id n b d d' Hn H) as (d1 & d1' & r & -> & -> & H1). by apply Hf.
Qed.

Lemma twin_edit_current n b e f d d' :
  room n → twin n d d' → twin 1 (edit_current b e f d) (edit_current b e f d').
Proof.
  intros Hn H. apply (twin_current n); [done..|]. intros x y y' Hy. by apply agree_fst, (twin_with_block 0).
Qed.

Lemma twin_delete_by_id n p t b i d d' :
  room n → twin n d d' → twin (S n) (apply_delete_by_id inc p t b i d) (apply_delete_by_id inc p t b i d').
Proof.
  intros Hn H. unfold apply_delete_by_id.
  destruct (twin_find_id n b d d' Hn H) as (d1 & d1' & [blk|] & -> & -> & H1).
  - destruct (twin_parent 0 b d1 d1' room_0 H1) as (d2 & d2' & q & -> & -> & H2).
    eapply (twin_mono 1); [lia|]. by apply agree_fst, twin_delete.
  - eapply (twin_mono 1); [lia|]. by apply agree_fst, twin_delete.
Qed.

Lemma twin_split n p t i nb ro k us d d' :
  room n → twin n d d' → twin 2 (apply_split inc p t i nb ro k us d) (apply_split inc p t i nb ro k us d').
Proof.
  intros Hn H. unfold apply_split.
  destruct (twin_with_block n t (split_off inc i us) d d' Hn H) as (d1 & d1' & [ms|] & -> & -> & H1).
  - by apply agree_fst, twin_insert.
  - eapply twin_mono; [|exact H1]. lia.
Qed.

Lemma twin_merge n p l r i a ro us d d' :
  room n → twin n d d' → twin 2 (apply_merge inc p l r i a ro us d) (apply_merge inc p l r i a ro us d').
Proof.
  intros Hn H. unfold apply_merge.
  destruct (twin_find n r d d' Hn H) as (d1 & d1' & b & -> & -> & H1).
  apply agree_fst, twin_delete; [done|]. by apply agree_fst, (twin_with_block 0).
Qed.

Lemma twin_metadata n op d d' :
  room (n + 2) → twin n d d' → twin (n + 2) (apply_metadata inc op d) (apply_metadata inc op d').
Proof.
  intros Hn H. assert (Hn0 : room n) by (eapply room_le; [|exact Hn]; lia).
  assert (H2 : twin (n + 2) d d') by (eapply twin_mono; [|exact H]; lia).
  destruct op; simpl; try done;
    try (eapply (twin_mono 1); [lia|]; apply (twin_current n); [done..|]; intros x y y' Hy; apply agree_fst;
         first [by apply (twin_insert_item 0)|by apply (twin_move_item 0)|by apply (twin_default 0)]).
  - eapply (twin_mono 1); [lia|]. by apply agree_fst, (twin_delete_item n).
  - eapply (twin_mono (n + 1)); [lia|]. by apply agree_fst, twin_item_task.
Qed.

Lemma apply_envelope_twin n env d d' :
  room (n + edit_cost env) → twin n d d' →
  twin (n + edit_cost env) (apply_envelope_to_document inc graphemes env d)
    (apply_envelope_to_document inc graphemes env d').
Proof.
  intros Hn H. assert (Hn0 : room n) by (eapply room_le; [|exact Hn]; lia).
  destruct env as [v [op]]. unfold apply_envelope_to_document, edit_cost in *. cbn [env_body] in *.
  destruct (table_edit inc op) as [[[t e] f]|] eqn:Ht.
  { assert (apply_doc_op inc graphemes op = edit_current t e (edit_table f)) as ->.
    { destruct op; try done; by injection Ht as -> -> <-. }
    eapply (twin_mono 1); [destruct op; try done; lia|]. by apply (twin_edit_current n). }
  destruct op; try done;
    try (match goal with |- context [apply_doc_op inc graphemes ?op d] =>
           change (apply_doc_op inc graphemes op) with (apply_metadata inc op) end; by apply twin_metadata);
    simpl in *;
    try (eapply (twin_mono 1); [lia|]; by apply (twin_edit_current n)).
  - eapply (twin_mono (S n)); [lia|]. by apply agree_fst, twin_insert.
  - eapply (twin_mono (S n)); [lia|]. by apply agree_fst, twin_delete.
  - eapply (twin_mono (S n)); [lia|]. by apply twin_delete_by_id.
  - unfold set_frontmatter_field. rewrite (twin_doc_frontmatter _ _ _ H).
    destruct (fm_set _ _ _ _); eapply (twin_mono n); [lia|by apply twin_frontmatter|lia|by apply twin_frontmatter].
  - rewrite (twin_doc_frontmatter _ _ _ H). eapply (twin_mono n); [lia|].
    destruct (doc_frontmatter d); [done|by apply twin_frontmatter].
  - by apply agree_fst, twin_move_blocks.
  - eapply (twin_mono 2); [lia|]. by apply (twin_split n).
  - eapply (twin_mono 2); [lia|]. by apply (twin_merge n).
Qed.

(** A whole history on the one side, with lookups in between on the other. *)
Definition history_cost (l : list Envelope) : nat := sum_list (edit_cost <$> l).

Lemma twin_cache n d d1 d' : cache_only d d1 → twin n d d' → twin n d1 d'.
Proof.
  intros Hc [Hs Hl Hr]. split; [|destruct Hc as [->| ->]; [done|]|done].
  - etrans; [symmetry; by apply content_cache|done].
  - eapply stale_mono; [|apply stale_rebuilt]. lia.
Qed.
End ops.
