(* ===== verification/SessionPull.v ===== *)
(** * Two sessions in step

    One session edits, another pulls: the delta is exactly what was committed,
    it passes every check of the receiver, and the receiver applies the same
    envelopes in the same order, each once. *)

From S2P Require Import Prelude Core Sequence Mark MarkOps Table Frontmatter Codec Text Block.
From S2P Require Import Document DocumentCache Sync SyncInv SyncProps Draft SessionWire Session SessionTrace.
From S2P Require Import SessionLocal SessionClock SessionRemote.

#[local] Arguments Session.take_deferred : simpl never.
#[local] Arguments Session.apply_or_defer : simpl never.
#[local] Arguments observed_frontier_is_ready : simpl never.
#[local] Arguments ready_envelopes : simpl never.

(** The document [d'] is [d] with the envelopes applied, and with its cached
    index refreshed in between. *)
Inductive replays (inc : bool) (graphemes : string → list string) :
    Document → list Envelope → Document → Prop :=
  | replays_nil d : replays inc graphemes d [] d
  | replays_query d d' l d'' :
      cache_only d d' → replays inc graphemes d' l d'' → replays inc graphemes d l d''
  | replays_apply d env l d' :
      replays inc graphemes (apply_envelope_to_document inc graphemes env d) l d' →
      replays inc graphemes d (env :: l) d'.

(** The receiver [r] has seen what [s] has seen and waits for nothing. *)
Record in_step (s r : CollaborativeDocument) : Prop := {
  st_seen : ∀ p, sv_seen (state_vector (s_sync r)) p = sv_seen (state_vector (s_sync s)) p;
  st_clock : (sv_seen (state_vector (s_sync s)) (s_peer s) + 1 = s_next_counter s)%N;
  st_log : ∀ id, is_Some (ops (s_sync s) !! id) →
    (counter id ≤ sv_seen (state_vector (s_sync s)) (peer id))%N;
  st_log_r : ∀ id, is_Some (ops (s_sync r) !! id) →
    (counter id ≤ sv_seen (state_vector (s_sync r)) (peer id))%N;
  st_floor : sv_le (delta_floor (s_sync s)) (state_vector (s_sync s));
  st_buffer : sync_pending (s_sync r) = ∅;
  st_waiting : s_pending_envelopes r = ∅;
  st_unit : s_unit_mode r = s_unit_mode s;
}.

Section pull.
Context (inc : bool) (graphemes : string → list string).
Context (encode : Envelope → string + list Byte.byte) (decode : list Byte.byte → string + Envelope).

Abbreviation apply_envelope := (apply_envelope_to_document inc graphemes).
Abbreviation extent := (operation_extent graphemes).
Abbreviation local_trace := (local_trace inc graphemes encode).
Abbreviation commits := (commits graphemes).

Lemma trace_replays s l s' : local_trace s l s' → replays inc graphemes (s_document s) l.*1 (s_document s').
Proof.
  induction 1 as [s|s d l s' Hd _ IH|s env id next payload l s' _ _ _ IH].
  - constructor.
  - by eapply replays_query.
  - by apply replays_apply.
Qed.

(** ** The receiver accepts what the sender commits *)

Lemma prepare_committed s env id next payload r :
  commit_ok graphemes s env id next → decode payload = inr env →
  ops (s_sync r) !! id = None → counter id ≠ 0%N → s_unit_mode r = s_unit_mode s →
  prepare_op graphemes decode r (mkOperation id payload) = inr (Some (mkOperation id payload, env)).
Proof.
  intros Hok Hdec Hnone Hc Hu. unfold prepare_op, contains. simpl. rewrite Hnone, Hdec, Hu.
  rewrite bool_decide_eq_false_2 by (by intros [? [=]]). rewrite decide_False by done.
  rewrite decide_False by (intros Hv; apply Hv, (ok_version _ _ _ _ _ Hok)).
  pose proof (ok_skeleton _ _ _ _ _ Hok) as Hsk. unfold skeleton_valid in Hsk.
  match goal with |- context [match ?x with Some _ => _ | None => _ end] =>
    assert (x = None) as -> by (by destruct env as [v [[]]]) end.
  destruct (s_unit_mode s && negb (insert_block_paragraph_is_empty env)) eqn:Hm.
  { apply andb_true_iff in Hm as [Hm Hn]. rewrite (ok_unit_mode _ _ _ _ _ Hok Hm) in Hn. done. }
  unfold check_operation_id_is_max. simpl. rewrite (ok_id _ _ _ _ _ Hok).
  rewrite decide_False by (intros Hv; by apply Hv). by rewrite (ok_peers _ _ _ _ _ Hok).
Qed.

(** What the receiver checks of each committed operation is a fact about it. *)
Lemma trace_prepared s l s' r :
  local_trace s l s' → Forall (λ x : Envelope * Operation, decode (sop_payload x.2) = inr x.1) l →
  Forall (λ x : Envelope * Operation, ops (s_sync r) !! sop_id x.2 = None ∧ counter (sop_id x.2) ≠ 0%N) l →
  s_unit_mode r = s_unit_mode s →
  prepare_ops graphemes decode r l.*2 = inr (prod_swap <$> l).
Proof.
  induction 1 as [s|s d l s' _ _ IH|s env id next payload l s' Hok _ _ IH]; intros Hdec Hr Hu; [done|by apply IH|].
  apply Forall_cons in Hdec as [Hd Hdec]. apply Forall_cons in Hr as [[Hn Hc] Hr]. simpl in Hd, Hn, Hc.
  rewrite !fmap_cons. cbn [prepare_ops snd]. rewrite (prepare_committed s env id next payload r) by done.
  by rewrite IH.
Qed.

(** ** Integration in order *)

Lemma promote_empty st : sync_pending st = ∅ → promote_ready_pending st = (st, []).
Proof. intros E. unfold promote_ready_pending. rewrite E. by simpl; rewrite E. Qed.

Lemma drain_deferred_empty r res : s_pending_envelopes r = ∅ → drain_deferred inc graphemes (r, res) = (r, res).
Proof.
  intros E. unfold drain_deferred. simpl.
  replace (ready_envelopes r) with (@nil OpId); [done|]. symmetry. apply elem_of_nil_inv.
  intros id (env & He & _)%elem_of_ready. by rewrite E in He.
Qed.

Lemma deferred_count_empty r : s_pending_envelopes r = ∅ → deferred_count r = 0.
Proof.
  intros E. unfold deferred_count. rewrite E. unfold btree_keys, btree_iter.
  by rewrite map_to_list_empty.
Qed.

Definition received (env : Envelope) (op : Operation) (r : CollaborativeDocument) :
    CollaborativeDocument :=
  mkSession (s_peer r) (s_next_counter r) (apply_envelope env (s_document r))
    (log_op op (s_sync r)) (s_unit_mode r) (s_pending_envelopes r).

Lemma integrate_ready res op env r :
  ops (s_sync r) !! sop_id op = None → sync_pending (s_sync r) = ∅ → s_pending_envelopes r = ∅ →
  span_ready (s_sync r) (sop_id op) (extent env).2 = true →
  observed_frontier_is_ready (log_op op (s_sync r)) env = true →
  sop_id op ∉ sres_applied res → sres_buffered res = [] →
  integrate inc graphemes decode res (op, env) r =
    (received env op r, inr (mkSessionResult (sres_applied res ++ [sop_id op]) [])).
Proof.
  intros Hn Hp He Hr Ho Hid Hb. unfold integrate, apply_one. rewrite Hn, Hp, lookup_empty, Hr.
  rewrite !decide_False by (by intros [? [=]]). unfold Session.apply_or_defer. cbn [s_sync set_sync].
  rewrite Ho. unfold drain_promoted. cbn [s_sync set_document set_sync].
  rewrite promote_empty by done. cbn [drain_promoted_loop fst snd].
  rewrite drain_deferred_empty by done. rewrite Hb. unfold push_new. rewrite decide_False by done.
  by destruct r.
Qed.

(** A frontier is reached by every vector that has seen as much. *)
Lemma frontier_reached st env sv :
  (∀ observed, envelope_observed_frontier env = Some observed → observed = sv) →
  sv_le sv (state_vector st) → observed_frontier_is_ready st env = true.
Proof.
  intros Hobs Hle. unfold observed_frontier_is_ready.
  destruct (envelope_observed_frontier env) as [o|]; [|done]. rewrite (Hobs o eq_refl).
  apply Is_true_true, forallb_True, Forall_forall. intros [p c] Hin. apply elem_of_btree_iter in Hin.
  apply Is_true_true, N.leb_le. specialize (Hle p). unfold sv_seen at 1, StateVectorOps.get in Hle.
  rewrite Hin in Hle. done.
Qed.

Lemma in_step_commit s r env id next payload :
  commit_ok graphemes s env id next → below_max graphemes env → clock_ok s → in_step s r →
  in_step (committed inc graphemes env id next payload s) (received env (mkOperation id payload) r).
Proof.
  intros Hok Hb Hc [Hseen Hclk Hlog Hlogr Hfl Hbuf Hw Hu].
  destruct (committed_clock inc graphemes env id next payload s Hok Hb Hc) as (_ & _ & Hge & _ & -> & _).
  pose proof (ok_peer _ _ _ _ _ Hok) as Hpeer.
  assert (Hmono : ∀ sv i, (counter i ≤ sv_seen sv (peer i))%N →
    (counter i ≤ sv_seen (observe_vector id sv) (peer i))%N).
  { intros sv i ?. rewrite sv_seen_observe. case_decide; lia. }
  split; simpl.
  - intros p. by rewrite !sv_seen_observe, Hseen.
  - rewrite sv_seen_observe, decide_True by done. lia.
  - intros i. rewrite lookup_insert_is_Some'. intros [<-|Hi]; [|by apply Hmono, Hlog].
    rewrite sv_seen_observe, decide_True by done. lia.
  - intros i. rewrite lookup_insert_is_Some'. intros [<-|Hi]; [|by apply Hmono, Hlogr].
    rewrite sv_seen_observe, decide_True by done. lia.
  - etrans; [exact Hfl|apply sv_le_observe].
  - done.
  - done.
  - done.
Qed.

(** The roles can change when the peers differ. *)
Lemma in_step_commit_back s r env id next payload :
  peer id = s_peer s → s_peer s ≠ s_peer r → in_step r s → in_step s r →
  in_step (received env (mkOperation id payload) r) (committed inc graphemes env id next payload s).
Proof.
  intros Hid Hne [Hseen Hclk Hlog Hlogr Hfl Hbuf Hw Hu] Hst.
  assert (Hmono : ∀ sv i, (i = id ∨ (counter i ≤ sv_seen sv (peer i))%N) →
    (counter i ≤ sv_seen (observe_vector id sv) (peer i))%N).
  { intros sv i Hi. rewrite sv_seen_observe. destruct Hi as [->|?]; case_decide; try done; lia. }
  split; simpl.
  - intros p. by rewrite !sv_seen_observe, Hseen.
  - rewrite sv_seen_observe, decide_False by congruence. done.
  - intros i. rewrite lookup_insert_is_Some'. intros [<-|Hi]; apply Hmono; [by left|right; by apply Hlog].
  - intros i. rewrite lookup_insert_is_Some'. intros [<-|Hi]; apply Hmono; [by left|right; by apply Hlogr].
  - etrans; [exact Hfl|apply sv_le_observe].
  - done.
  - done.
  - done.
Qed.

(** The receiver integrates one committed operation at once. *)
Lemma integrate_committed s r env id next payload a :
  commit_ok graphemes s env id next → below_max graphemes env → clock_ok s → in_step s r → id ∉ a →
  integrate inc graphemes decode (mkSessionResult a []) (mkOperation id payload, env) r =
    (received env (mkOperation id payload) r, inr (mkSessionResult (a ++ [id]) [])).
Proof.
  intros Hok Hb Hc [Hseen Hclk Hlog Hlogr Hfl Hbuf Hw Hu] Ha.
  destruct (committed_clock inc graphemes env id next payload s Hok Hb Hc)
    as (_ & _ & Hge & Hlt & _ & Hs1 & Hs2).
  pose proof (ok_peer _ _ _ _ _ Hok) as Hpeer. pose proof (ck_range _ Hc) as Hr.
  apply (integrate_ready (mkSessionResult a []) (mkOperation id payload)); [|done..| | |done|done]; simpl.
  - apply eq_None_not_Some. intros Hi%Hlogr. rewrite Hseen, Hpeer in Hi. lia.
  - apply N.leb_le. unfold span_start, max_applied_counter, u64_saturating_sub.
    rewrite Hseen, Hpeer. unfold u64_wrapping_add. rewrite wrapping_small by lia. lia.
  - eapply frontier_reached; [apply (ok_observed _ _ _ _ _ Hok)|]. intros p. simpl.
    etrans; [|apply sv_le_observe]. by rewrite Hseen.
Qed.

Lemma integrate_trace s l s' :
  local_trace s l s' → ∀ r a, clock_ok s → Forall (λ x : Envelope * Operation, below_max graphemes x.1) l →
  in_step s r → (∀ i, i ∈ a → peer i = s_peer s → (counter i < s_next_counter s)%N) →
  ∃ r', sm_fold (integrate inc graphemes decode) (prod_swap <$> l) (mkSessionResult a []) r =
      (r', inr (mkSessionResult (a ++ (sop_id <$> l.*2)) [])) ∧
    in_step s' r' ∧ (s_peer s ≠ s_peer r → in_step r s → in_step r' s') ∧
    s_document r' = fold_left (λ d env, apply_envelope env d) l.*1 (s_document r) ∧
    ops (s_sync r') = fold_left (λ m op, <[sop_id op := sop_payload op]> m) l.*2 (ops (s_sync r)).
Proof.
  induction 1 as [s|s d l s' Hd _ IH|s env id next payload l s' Hok _ _ IH]; intros r a Hc Hb Hst Ha.
  - exists r. simpl. by rewrite app_nil_r.
  - destruct (IH r a) as (r' & E & Hst' & Hback & Hrest);
      [by apply clock_ok_query|done|by destruct Hst|done|].
    exists r'. split_and!; [done|done| |apply Hrest..]. intros Hne Hrs. apply Hback; [done|by destruct Hrs].
  - apply Forall_cons in Hb as [Hb Hl]. simpl in Hb.
    destruct (committed_clock inc graphemes env id next payload s Hok Hb Hc)
      as (Hc' & _ & Hge & _ & Hn & _). pose proof (ok_peer _ _ _ _ _ Hok) as Hpeer.
    assert (Hid : id ∉ a). { intros Hi. specialize (Ha id Hi Hpeer). lia. }
    destruct (IH (received env (mkOperation id payload) r) (a ++ [id]) Hc' Hl) as (r' & E & Hst' & Hback & Hdoc & Hops).
    { by apply in_step_commit. }
    { simpl. subst next. intros i [Hi|Hi%list_elem_of_singleton]%elem_of_app Hp; [|subst; lia].
      specialize (Ha i Hi Hp). lia. }
    exists r'. rewrite !fmap_cons. cbn [sm_fold]. unfold mbind, SM_bind.
    change (prod_swap (env, mkOperation id payload)) with (mkOperation id payload, env).
    rewrite (integrate_committed s r env id next payload a) by done.
    rewrite E, <-(assoc_L (++)). split_and!; [done|done| |done|done].
    intros Hne Hrs. apply Hback; [done|]. by apply in_step_commit_back.
Qed.

(** ** The delta *)

Lemma StronglySorted_weaken {A} (R S : relation A) l :
  (∀ x y, R x y → S x y) → StronglySorted R l → StronglySorted S l.
Proof. intros HRS. induction 1; constructor; [done|]. eapply Forall_impl; eauto. Qed.

(** A filtered iteration is the sorted list of the entries that pass. *)
Lemma sorted_NoDup {A} (f : A → N) l : StronglySorted (λ x y, f x < f y)%N l → NoDup (f <$> l).
Proof.
  induction 1 as [|x l _ IH Hx]; [constructor|]. rewrite fmap_cons. apply NoDup_cons. split; [|done].
  intros (y & Heq & Hy)%list_elem_of_fmap. rewrite Forall_forall in Hx. specialize (Hx y Hy). lia.
Qed.

Lemma btree_filter_is {V} (P : OpId * V → Prop) `{!∀ x, Decision (P x)} (m : gmap OpId V) l :
  StronglySorted (λ x y : OpId * V, counter x.1 < counter y.1)%N l →
  (∀ k v, (k, v) ∈ l ↔ P (k, v) ∧ m !! k = Some v) → filter P (btree_iter m) = l.
Proof.
  intros Hs Hl. pose proof (sorted_NoDup (λ x : OpId * V, counter x.1) l Hs) as Hnd.
  apply (StronglySorted_unique_strong entry_le).
  - intros [k1 v1] [k2 v2] [HP1 H1%elem_of_btree_iter]%list_elem_of_filter [HP2 H2]%Hl Hle Hge.
    assert (k1 = k2) as <- by by apply (anti_symm ord_le). congruence.
  - eapply StronglySorted_sublist; [apply sublist_filter|apply btree_iter_sorted].
  - eapply StronglySorted_weaken; [|exact Hs]. intros [k1 v1] [k2 v2] Hlt. unfold entry_le, ord_le.
    simpl in *. unfold ocmp at 1, OpId_ord, lexico_cmp.
    assert (ocmp (counter k1) (counter k2) = Lt) as -> by by apply N.compare_lt_iff. done.
  - apply NoDup_Permutation; [apply NoDup_filter, (NoDup_fmap_1 fst), NoDup_btree_keys| |].
    + by eapply NoDup_fmap_1.
    + intros [k v]. by rewrite Hl, list_elem_of_filter, elem_of_btree_iter.
Qed.

Lemma trace_floor s l s' : local_trace s l s' → delta_floor (s_sync s') = delta_floor (s_sync s).
Proof. by induction 1. Qed.

Definition log_entry (x : Envelope * Operation) : OpId * list Byte.byte := (sop_id x.2, sop_payload x.2).

(** The committed operations are in the order of their ids. *)
Lemma committed_sorted p from l to :
  tiles graphemes from l.*1 to →
  Forall (λ x : Envelope * Operation, (extent x.1).1 = sop_id x.2) l →
  Forall (λ x : Envelope * Operation, peer (sop_id x.2) = p) l →
  StronglySorted (λ x y : OpId * list Byte.byte, (counter x.1 < counter y.1)%N) (log_entry <$> l) ∧
  Forall (λ x : OpId * list Byte.byte, (from ≤ counter x.1)%N) (log_entry <$> l).
Proof.
  revert from. induction l as [|[env op] l IH]; intros from Ht Hi Hp; [split; constructor|].
  apply Forall_cons in Hi as [Hid Hi]. apply Forall_cons in Hp as [_ Hp]. simpl in *.
  destruct Ht as (H1 & H2 & Ht). rewrite Hid in *. destruct (IH _ Ht Hi Hp) as [Hs Hf]. split.
  - constructor; [done|]. eapply Forall_impl; [exact Hf|]. simpl. lia.
  - constructor; [simpl; lia|]. eapply Forall_impl; [exact Hf|]. simpl. lia.
Qed.

Lemma delta_is_trace s l s' r :
  local_trace s l s' → commits s l s' → in_step s r →
  encode_changes_since (session_state_vector r) (s_sync s') =
    inr (mkChanges (session_state_vector r) l.*2).
Proof.
  intros Htr [Hc Ht Hi Hf Hr Hlog] Hst. unfold encode_changes_since.
  rewrite (proj2 (floor_exceeds_spec _ _)).
  2: { rewrite (trace_floor _ _ _ Htr). intros p. unfold session_state_vector. rewrite (st_seen _ _ Hst).
       apply (st_floor _ _ Hst). }
  do 2 f_equal. trans ((λ kv : OpId * list Byte.byte, mkOperation kv.1 kv.2) <$> (log_entry <$> l)).
  2: { rewrite <-!list_fmap_compose. apply list_fmap_ext. by intros ? [? []] _. }
  f_equal. destruct (committed_sorted (s_peer s) _ _ _ Ht Hi) as [Hsort _].
  { eapply Forall_impl; [exact Hr|]. by intros ? [? _]. }
  apply btree_filter_is; [done|]. intros k v. unfold session_state_vector. rewrite Hlog.
  assert (Hnd : NoDup (log_entry <$> l).*1).
  { apply (NoDup_fmap_1 counter). rewrite <-list_fmap_compose. by apply (sorted_NoDup (λ x, counter x.1)). }
  split.
  - intros Hin. pose proof Hin as (x & [= -> ->] & Hx)%list_elem_of_fmap.
    rewrite Forall_forall in Hr. destruct (Hr x Hx) as [Hp Hrange]. split.
    + simpl. rewrite Hp, (st_seen _ _ Hst). pose proof (st_clock _ _ Hst). lia.
    + apply lookup_union_Some_l. by apply elem_of_list_to_map_1.
  - intros [Hlt [Hl|[_ Hs]]%lookup_union_Some_raw]; [by apply elem_of_list_to_map_2|]. simpl in Hlt.
    pose proof (st_log _ _ Hst k ltac:(eauto)). rewrite (st_seen _ _ Hst) in Hlt. lia.
Qed.

Lemma insert_all_logged l m :
  NoDup (sop_id <$> l.*2) →
  fold_left (λ m op, <[sop_id op := sop_payload op]> m) l.*2 m = logged l ∪ m.
Proof.
  revert m. induction l as [|[env op] l IH]; intros m; simpl.
  { intros _. unfold logged. simpl. by rewrite (left_id_L ∅ (∪)). }
  intros [Hop Hnd]%NoDup_cons. rewrite IH by done. rewrite logged_cons.
  rewrite <-insert_union_r; [by rewrite insert_union_l|]. apply logged_fresh, Forall_forall.
  intros x Hx Heq. apply Hop. rewrite <-Heq. apply list_elem_of_fmap. exists x.2. split; [done|]. apply list_elem_of_fmap. eauto.
Qed.

(** The committed ids are unknown to the receiver. *)
Lemma pull_unknown s l s' r :
  clock_ok s → commits s l s' → in_step s r →
  Forall (λ x : Envelope * Operation, ops (s_sync r) !! sop_id x.2 = None ∧ counter (sop_id x.2) ≠ 0%N) l.
Proof.
  intros Hc Hcm Hst. pose proof (ck_range _ Hc). eapply Forall_impl; [apply (cm_range _ _ _ _ Hcm)|].
  simpl. intros x [Hp Hr]. split; [|lia]. apply eq_None_not_Some. intros Hi%(st_log_r _ _ Hst).
  rewrite (st_seen _ _ Hst), Hp in Hi. pose proof (st_clock _ _ Hst). lia.
Qed.

(** The whole exchange, from the committed operations to the receiver's state. *)
Lemma pull_trace s l s' r limits :
  clock_ok s → in_step s r → local_trace s l s' →
  Forall (λ x : Envelope * Operation, below_max graphemes x.1) l →
  Forall (λ x : Envelope * Operation, decode (sop_payload x.2) = inr x.1) l →
  ∃ m, encode_changes_since (session_state_vector r) (s_sync s') = inr m ∧
    (validate_changes m limits 0 = None →
     ∃ r', apply_remote inc graphemes decode m limits r =
         (r', inr (mkSessionResult (sop_id <$> l.*2) [])) ∧
       in_step s' r' ∧ (s_peer s ≠ s_peer r → in_step r s → in_step r' s') ∧
       ops (s_sync r') = logged l ∪ ops (s_sync r) ∧
       s_document r' = fold_left (λ d env, apply_envelope env d) l.*1 (s_document r)).
Proof.
  intros Hc Hst Htr Hb Hdec. pose proof (trace_commits _ _ _ _ _ _ Htr Hc Hb) as Hcm.
  exists (mkChanges (session_state_vector r) l.*2). split; [by apply (delta_is_trace s)|]. intros Hval.
  destruct (integrate_trace s l s' Htr r [] Hc Hb Hst) as (r' & E & Hst' & Hback & Hdoc & Hops);
    [by intros i ?%elem_of_nil|].
  exists r'. split_and!; [|done|done| |done].
  - unfold apply_remote, sync_pending_count.
    rewrite (st_buffer _ _ Hst), map_size_empty, (deferred_count_empty r (st_waiting _ _ Hst)).
    cbn [Nat.add msg_ops]. rewrite Hval.
    rewrite (trace_prepared s l s' r) by (done || eauto using st_unit, pull_unknown).
    rewrite E. by rewrite drain_deferred_empty by apply (st_waiting _ _ Hst').
  - rewrite Hops. apply insert_all_logged.
    destruct (committed_sorted (s_peer s) _ _ _ (cm_tiles _ _ _ _ Hcm) (cm_ids _ _ _ _ Hcm)) as [Hs _].
    { eapply Forall_impl; [apply (cm_range _ _ _ _ Hcm)|]. by intros ? [? _]. }
    apply (sorted_NoDup (λ x, counter x.1)) in Hs. apply (NoDup_fmap_1 counter).
    rewrite <-!list_fmap_compose in *. exact Hs.
Qed.
End pull.
