(* ===== verification/Snapshot.v ===== *)
(** * Session snapshots

    Models [src/src/session/snapshot.rs] and the persistence operations of
    [src/src/session/mod.rs]: the data transfer objects of a document and the
    conversions to and from them, the largest counter of a peer, saving,
    restoring, rebasing and importing a session.  [serde_json] is a pair of
    parameters. *)

From S2P Require Import Prelude Core Sequence Mark MarkOps Table Frontmatter Codec Text Block.
From S2P Require Import Document Sync Draft SessionWire Session.

Definition SNAPSHOT_FORMAT_VERSION : N := 6.

(** ** Sequences *)

Record ElementDto (T : Type) := mkElementDto {
  ed_id : OpId;
  ed_value : option T;
  ed_after : option OpId;
  ed_right_origin : option OpId;
}.
Arguments mkElementDto {_} _ _ _ _.
Arguments ed_id {_} _.
Arguments ed_value {_} _.
Arguments ed_after {_} _.
Arguments ed_right_origin {_} _.

Inductive SequenceOpDto (T : Type) :=
  | InsertDto (after : option OpId) (id : OpId) (value : T) (right_origin : option OpId)
  | DeleteDto (target id : OpId).
Arguments InsertDto {_} _ _ _ _.
Arguments DeleteDto {_} _ _.

Record SequenceDto (T : Type) := mkSequenceDto {
  sd_elements : list (ElementDto T);
  sd_pending : list (SequenceOpDto T);
}.
Arguments mkSequenceDto {_} _ _.
Arguments sd_elements {_} _.
Arguments sd_pending {_} _.

(** The values of a sequence replaced along [f], buffered ones included. *)
Definition op_map {T U} (f : T → U) (op : SequenceOp T) : SequenceOp U :=
  match op with
  | Insert after id value ro => Insert after id (f value) ro
  | Delete target id => Delete target id
  end.
Definition element_map {T U} (f : T → U) (e : Element T) : Element U :=
  match e with mkElement id v after ro => mkElement id (option_map f v) after ro end.
Definition sequence_map {T U} (f : T → U) (s : Sequence T) : Sequence U :=
  match s with
  | mkSequence els idx pi pd =>
    mkSequence (map (element_map f) els) idx (map (op_map f) <$> pi) (map (op_map f) <$> pd)
  end.

Definition element_to_dto {U} (e : Element U) : ElementDto U :=
  mkElementDto (elem_id e) (elem_value e) (elem_after e) (elem_right_origin e).
Definition op_to_dto {U} (op : SequenceOp U) : SequenceOpDto U :=
  match op with
  | Insert after id value ro => InsertDto after id value ro
  | Delete target id => DeleteDto target id
  end.

(** [sequence_to_dto]: the elements and the buffered operations, with [f] applied
    to every value. *)
Definition sequence_to_dto {T U} (f : T → U) (s : Sequence T) : SequenceDto U :=
  let s := sequence_map f s in
  mkSequenceDto (map element_to_dto (seq_elements s)) (map op_to_dto (pending_ops s)).

Definition sequence_from_dto {T U} (inc : bool) (f : U → T) (dto : SequenceDto U) : Sequence T :=
  match dto with
  | mkSequenceDto els pending =>
    from_elements_and_pending inc
      (map (λ e, match e with mkElementDto id v after ro =>
                   mkElement id (option_map f v) after ro end) els)
      (map (λ op, match op with
                  | InsertDto after id v ro => Insert after id (f v) ro
                  | DeleteDto target id => Delete target id
                  end) pending)
  end.

(** ** Tables *)

Record LwwDto (T : Type) := mkLwwDto { ld_value : T; ld_op_id : OpId }.
Arguments mkLwwDto {_} _ _.
Arguments ld_value {_} _.
Arguments ld_op_id {_} _.

Definition lww_to_dto {T} (r : LwwRegister T) : LwwDto T := mkLwwDto (Lww.get r) (Lww.op_id r).
Definition lww_from_dto {T} (d : LwwDto T) : LwwRegister T := Lww.new (ld_value d) (ld_op_id d).

Record TableColumnDto := mkColumnDto {
  tcd_id : ColumnId;
  tcd_elem_id : OpId;
  tcd_deleted : LwwDto bool;
  tcd_alignment : LwwDto ColumnAlignment;
  tcd_alignment_observed : StateVector;
  tcd_placement_observed : StateVector;
}.
Record TableRowDto := mkRowDto {
  trd_id : BlockId;
  trd_elem_id : OpId;
  trd_deleted : LwwDto bool;
  trd_placement_observed : StateVector;
}.
Record TableCellDto := mkCellDto {
  tld_row_id : RowId;
  tld_column_id : ColumnId;
  tld_value : LwwDto CellContent;
  tld_observed : StateVector;
}.
Record TableDto := mkTableDto {
  td_id : BlockId;
  td_elem_id : OpId;
  td_deleted : LwwDto bool;
  td_columns : SequenceDto TableColumnDto;
  td_rows : SequenceDto TableRowDto;
  td_cells : list TableCellDto;
  td_pending_row_moves : list PendingTableMove;
  td_pending_column_moves : list PendingTableMove;
  td_pending_column_alignments : list PendingColumnAlignment;
}.

Definition column_to_dto (c : TableColumn) : TableColumnDto :=
  mkColumnDto (column_id c) (column_elem_id c) (lww_to_dto (column_deleted c))
    (lww_to_dto (column_alignment c)) (column_alignment_observed c) (column_placement_observed c).
Definition column_from_dto (d : TableColumnDto) : TableColumn :=
  mkColumn (tcd_id d) (tcd_elem_id d) (lww_from_dto (tcd_deleted d))
    (lww_from_dto (tcd_alignment d)) (tcd_alignment_observed d) (tcd_placement_observed d).
Definition row_to_dto (r : TableRow) : TableRowDto :=
  mkRowDto (row_id r) (row_elem_id r) (lww_to_dto (row_deleted r)) (row_placement_observed r).
Definition row_from_dto (d : TableRowDto) : TableRow :=
  mkRow (trd_id d) (trd_elem_id d) (lww_from_dto (trd_deleted d)) (trd_placement_observed d).
#[export] Instance CellAddress_ord : Ord CellAddress := lexico_cmp address_row address_column.

Definition cell_to_dto (x : CellAddress * TableCell) : TableCellDto :=
  mkCellDto (address_row x.1) (address_column x.1)
    (mkLwwDto (cell_content x.2) (cell_op_id x.2)) (cell_observed x.2).
Definition cell_from_dto (d : TableCellDto) : CellAddress * TableCell :=
  (mkAddress (tld_row_id d) (tld_column_id d),
   cell_new (ld_value (tld_value d)) (ld_op_id (tld_value d)) (tld_observed d)).

Definition table_to_dto (t : Table) : TableDto :=
  mkTableDto (table_id t) (table_elem_id t) (lww_to_dto (table_deleted t))
    (sequence_to_dto column_to_dto (columns t)) (sequence_to_dto row_to_dto (rows t))
    (map cell_to_dto (btree_iter (cells t)))
    (pending_row_moves t) (pending_column_moves t) (pending_column_alignments t).
Definition table_from_dto (inc : bool) (d : TableDto) : Table :=
  mkTable (td_id d) (td_elem_id d) (lww_from_dto (td_deleted d))
    (sequence_from_dto inc column_from_dto (td_columns d))
    (sequence_from_dto inc row_from_dto (td_rows d))
    (btree_collect (map cell_from_dto (td_cells d)))
    (td_pending_row_moves d) (td_pending_column_moves d) (td_pending_column_alignments d).

(** ** Blocks *)

Record TextUnitDto := mkTextUnitDto { tu_grapheme : string }.
Definition unit_to_dto (u : TextUnit) : TextUnitDto := mkTextUnitDto (grapheme u).
Definition unit_from_dto (d : TextUnitDto) : TextUnit := mkUnit (tu_grapheme d).

Inductive BlockDto :=
  | mkBlockDto (id : BlockId) (elem_id kind_op : OpId) (kind_observed : StateVector)
      (kind : BlockKindDto) (marks : MarkSet)
with BlockKindDto :=
  | ParagraphDto (units : SequenceDto TextUnitDto)
  | HeadingDto (level : N) (units : SequenceDto TextUnitDto)
  | ListDto (style : ListStyle) (items : SequenceDto ListItemDto)
      (pending_moves : list PendingListItemMove)
  | CodeFenceDto (style : CodeFenceStyle) (info : option string) (text : string)
  | BlockQuoteDto (children : SequenceDto BlockDto)
  | RawBlockDto (raw : string)
  | TableBlockDto (table : TableDto)
with ListItemDto :=
  | mkItemDto (id : BlockId) (elem_id : OpId) (task : option TaskState) (task_op : OpId)
      (task_observed placement_observed : StateVector) (children : SequenceDto BlockDto).

(** [block_to_dto], [kind_to_dto] and [list_item_to_dto]. *)
Fixpoint block_to_dto (b : Block) : BlockDto :=
  match b with
  | mkBlock id elem op observed kind marks =>
    mkBlockDto id elem op observed
      match kind with
      | Paragraph text => ParagraphDto (sequence_to_dto unit_to_dto text)
      | Heading level text => HeadingDto level (sequence_to_dto unit_to_dto text)
      | ListBlock style items moves =>
        ListDto style
          (sequence_to_dto (λ item, match item with
             mkItem iid ielem task task_op tobs pobs children =>
               mkItemDto iid ielem task task_op tobs pobs (sequence_to_dto block_to_dto children)
             end) items) moves
      | CodeFence style info text => CodeFenceDto style info text
      | BlockQuote children => BlockQuoteDto (sequence_to_dto block_to_dto children)
      | RawBlock raw => RawBlockDto raw
      | TableBlock table => TableBlockDto (table_to_dto table)
      end marks
  end.

Section from_dto.
Context (inc : bool).

(** [block_from_dto], [kind_from_dto] and [list_item_from_dto]. *)
Fixpoint block_from_dto (d : BlockDto) : Block :=
  match d with
  | mkBlockDto id elem op observed kind marks =>
    mkBlock id elem op observed
      match kind with
      | ParagraphDto units => Paragraph (sequence_from_dto inc unit_from_dto units)
      | HeadingDto level units => Heading level (sequence_from_dto inc unit_from_dto units)
      | ListDto style items moves =>
        ListBlock style
          (sequence_from_dto inc (λ item, match item with
             mkItemDto iid ielem task task_op tobs pobs children =>
               mkItem iid ielem task task_op tobs pobs (sequence_from_dto inc block_from_dto children)
             end) items) moves
      | CodeFenceDto style info text => CodeFence style info text
      | BlockQuoteDto children => BlockQuote (sequence_from_dto inc block_from_dto children)
      | RawBlockDto raw => RawBlock raw
      | TableBlockDto table => TableBlock (table_from_dto inc table)
      end marks
  end.
End from_dto.

(** ** Documents *)

Record DocumentDto := mkDocumentDto {
  dd_frontmatter : option Frontmatter;
  dd_blocks : SequenceDto BlockDto;
  dd_source : option DocumentSource;
}.

Definition from_document (d : Document) : DocumentDto :=
  mkDocumentDto (doc_frontmatter d) (sequence_to_dto block_to_dto (doc_blocks d)) (doc_source d).

Definition into_document (inc : bool) (dto : DocumentDto) : Document :=
  set_source_state (dd_source dto)
    (blocks_mut (λ _, sequence_from_dto inc (block_from_dto inc) (dd_blocks dto))
       (set_frontmatter (dd_frontmatter dto) doc_new)).

(** ** The largest counter of a peer *)

Section max_counter.
Context (p : PeerId).

(** The update of the running maximum with an id, if it is of the peer. *)
Definition bump (max : N) (id : OpId) : N := if decide (peer id = p) then N.max max (counter id) else max.

Definition walk_marks_max_peer (marks : MarkSet) (max : N) : N :=
  let max := fold_left (λ max i,
    fold_left bump (lww_op_id <$> btree_values (mi_attrs i)) (bump (bump max (mi_id i)) (mi_op_id i)))
    (btree_values (intervals marks)) max in
  fold_left bump (rm_op_id <$> btree_values (removes marks)) max.

Definition walk_table_max_peer (t : Table) (max : N) : N :=
  let max := bump max (table_elem_id t) in
  let max := fold_left (λ max e,
    let max := bump max (elem_id e) in
    match elem_value e with
    | Some c => bump (bump max (lww_op_id (column_deleted c))) (lww_op_id (column_alignment c))
    | None => max
    end) (seq_elements (columns t)) max in
  let max := fold_left (λ max e,
    let max := bump max (elem_id e) in
    match elem_value e with Some r => bump max (lww_op_id (row_deleted r)) | None => max end)
    (seq_elements (rows t)) max in
  let max := fold_left bump (cell_op_id <$> btree_values (cells t)) max in
  let max := fold_left bump (move_id <$> pending_row_moves t ++ pending_column_moves t) max in
  fold_left bump (align_id <$> pending_column_alignments t) max.

(** [walk_kind_max_peer], with the walk over block sequences as [walk_elements]. *)
Fixpoint walk_block_max_peer (b : Block) (max : N) : N :=
  let walk_elements := λ (els : list (Element Block)) max,
    fold_left (λ max e, match e with mkElement id v _ _ =>
      let max := bump max id in
      match v with Some b => walk_block_max_peer b max | None => max end end) els max in
  match b with
  | mkBlock _ _ op _ kind marks =>
    let max := walk_marks_max_peer marks (bump max op) in
    match kind with
    | BlockQuote (mkSequence els _ _ _) => walk_elements els max
    | ListBlock _ (mkSequence items _ _ _) moves =>
      let max := fold_left (λ max e, match e with mkElement id v _ _ =>
        let max := bump max id in
        match v with
        | Some (mkItem _ _ _ task_op _ _ (mkSequence els _ _ _)) => walk_elements els (bump max task_op)
        | None => max
        end end) items max in
      fold_left bump (im_id <$> moves) max
    | TableBlock table => walk_table_max_peer table max
    | _ => max
    end
  end.

Definition walk_block_seq_max_peer (s : Sequence Block) (max : N) : N :=
  fold_left (λ max e,
    let max := bump max (elem_id e) in
    match elem_value e with Some b => walk_block_max_peer b max | None => max end)
    (seq_elements s) max.

Definition max_counter_for_peer (ops : list (OpId * list Byte.byte)) (d : Document) : N :=
  walk_block_seq_max_peer (doc_blocks d) (fold_left bump ops.*1 0%N).
End max_counter.

(** ** Sessions *)

Record SessionSnapshot := mkSnapshot {
  snap_format_version : N;
  snap_peer : PeerId;
  snap_next_counter : N;
  snap_unit_mode : bool;
  snap_state_vector : StateVector;
  snap_checkpoint_epoch : N;
  snap_delta_floor : StateVector;
  snap_document : DocumentDto;
  snap_ops : list (OpId * list Byte.byte);
  snap_pending : list (OpId * list Byte.byte);
  snap_deferred : list (OpId * list Byte.byte);
}.

Inductive SnapshotError :=
  | SnapSerde (message : string)
  | ReinitializeRequired (found expected : N)
  | ClockBehind (p : PeerId) (next max : N).

Section persist.
Context (inc : bool) (graphemes : string → list string).
(** [OpCodec::encode] and [decode]; an error is its message. *)
Context (encode : Envelope → string + list Byte.byte) (decode : list Byte.byte → string + Envelope).

Definition span_of_payload (payload : list Byte.byte) : N :=
  match decode payload with
  | inl _ => 1
  | inr env => (operation_extent graphemes env).2
  end.

(** [map(f).collect::<Result<Vec<_>, _>>()]. *)
Fixpoint try_map {A B E} (f : A → E + B) (l : list A) : E + list B :=
  match l with
  | [] => inr []
  | x :: l => match f x with
              | inl e => inl e
              | inr y => match try_map f l with inl e => inl e | inr ys => inr (y :: ys) end
              end
  end.

Definition save_snapshot (s : CollaborativeDocument) : SnapshotError + SessionSnapshot :=
  let st := s_sync s in
  let deferred := try_map (λ x : OpId * Envelope,
    match encode x.2 with inl m => inl (SnapSerde m) | inr payload => inr (x.1, payload) end)
    (filter (λ x, contains st x.1) (btree_iter (s_pending_envelopes s))) in
  match deferred with
  | inl e => inl e
  | inr deferred =>
    inr (mkSnapshot SNAPSHOT_FORMAT_VERSION (s_peer s) (s_next_counter s) (s_unit_mode s)
           (state_vector st) (checkpoint_epoch st) (delta_floor st)
           (from_document (s_document s)) (applied_ops st)
           ((λ op, (sop_id op, sop_payload op)) <$> pending_operations st) deferred)
  end.

(** The largest counter of [p] among an operation log, its document and pending ops. *)
Definition max_observed (p : PeerId) (ops : list (OpId * list Byte.byte)) (d : Document)
    (marks : list N) (pending : list OpId) : N :=
  fold_left (bump p) pending (fold_left N.max marks (max_counter_for_peer p ops d)).

Definition rebind_peer (p : PeerId) (s : CollaborativeDocument) : CollaborativeDocument :=
  let st := s_sync s in
  let max := max_observed p (applied_ops st) (s_document s)
    [sv_seen (state_vector st) p; sv_seen (delta_floor st) p] (sop_id <$> pending_operations st) in
  mkSession p (N.max (u64_saturating_add max 1) 1) (s_document s) st (s_unit_mode s)
    (s_pending_envelopes s).

Definition restore_sync (ops pending : list (OpId * list Byte.byte)) : SyncState :=
  restore_pending ((λ x, (mkOperation x.1 x.2, span_of_payload x.2)) <$> pending)
    (restore_applied ops sync_new).

Definition decode_deferred (deferred : list (OpId * list Byte.byte)) :
    SnapshotError + gmap OpId Envelope :=
  match try_map (λ x : OpId * list Byte.byte,
    match decode x.2 with inl m => inl (SnapSerde m) | inr env => inr (x.1, env) end) deferred with
  | inl e => inl e
  | inr l => inr (btree_collect l)
  end.

Definition restore_from_snapshot (snap : SessionSnapshot) : SnapshotError + CollaborativeDocument :=
  if decide (snap_format_version snap ≠ SNAPSHOT_FORMAT_VERSION)
  then inl (ReinitializeRequired (snap_format_version snap) SNAPSHOT_FORMAT_VERSION)
  else
    let p := snap_peer snap in
    let doc := into_document inc (snap_document snap) in
    let max := max_observed p (snap_ops snap) doc
      [sv_seen (snap_state_vector snap) p; sv_seen (snap_delta_floor snap) p]
      (snap_pending snap).*1 in
    if (snap_next_counter snap <=? max)%N then inl (ClockBehind p (snap_next_counter snap) max)
    else
      let sync := restore_history (snap_state_vector snap) (snap_checkpoint_epoch snap)
                    (snap_delta_floor snap) (restore_sync (snap_ops snap) (snap_pending snap)) in
      match decode_deferred (snap_deferred snap) with
      | inl e => inl e
      | inr envelopes =>
        inr (mkSession p (snap_next_counter snap) doc sync (snap_unit_mode snap) envelopes)
      end.

Definition rebase_from_snapshot (snap : SessionSnapshot) (local_peer : PeerId) :
    SnapshotError + CollaborativeDocument :=
  match restore_from_snapshot snap with
  | inl e => inl e
  | inr s => inr (rebind_peer local_peer s)
  end.

Definition import_state (document : DocumentDto) (ops pending deferred : list (OpId * list Byte.byte))
    (local_peer : PeerId) (unit_mode : bool) : SnapshotError + CollaborativeDocument :=
  let doc := into_document inc document in
  let max := max_observed local_peer ops doc [] pending.*1 in
  let sync := restore_sync ops pending in
  match decode_deferred deferred with
  | inl e => inl e
  | inr envelopes =>
    inr (mkSession local_peer (N.max (u64_saturating_add max 1) 1) doc sync unit_mode envelopes)
  end.

(** ** Answering a peer *)

Inductive SyncResponse := Delta (message : ChangeMessage) | Rebase (snap : SessionSnapshot).

Definition sync_since (since : StateVector) (s : CollaborativeDocument) :
    SnapshotError + SyncResponse :=
  match encode_changes_since since (s_sync s) with
  | inr message => inr (Delta message)
  | inl _ => match save_snapshot s with inl e => inl e | inr snap => inr (Rebase snap) end
  end.

(** ** Bytes *)

(** [serde_json::to_vec] and [from_slice] of snapshots. *)
Context (snap_to_vec : SessionSnapshot → string + list Byte.byte)
        (snap_from_slice : list Byte.byte → string + SessionSnapshot).

Definition to_bytes (snap : SessionSnapshot) : SnapshotError + list Byte.byte :=
  match snap_to_vec snap with inl m => inl (SnapSerde m) | inr b => inr b end.

Definition from_bytes (b : list Byte.byte) : SnapshotError + SessionSnapshot :=
  match snap_from_slice b with
  | inl m => inl (SnapSerde m)
  | inr snap =>
    if decide (snap_format_version snap ≠ SNAPSHOT_FORMAT_VERSION)
    then inl (ReinitializeRequired (snap_format_version snap) SNAPSHOT_FORMAT_VERSION)
    else inr snap
  end.
End persist.
