(* ===== verification/SnapshotProps.v ===== *)
(** * Snapshots restore what was saved

    Converting a block tree to its persistent form and back gives the tree
    again, if every sequence in it satisfies the invariant of the replicated
    sequence and buffers no operation that is ready; a restored session is the
    saved one up to the cached index, the outbox and the waiting envelopes of
    buffered operations.  The claim for reachable sessions is in [SessionDoc]. *)

From S2P Require Import Prelude Core Sequence SequenceOrder SequenceInv SequenceRefine SequenceConv.
From S2P Require Import SequenceProps Mark MarkOps Table Frontmatter Codec Text Block OracleLogs.
From S2P Require Import Document DocumentCache Sync Draft SessionWire Session SessionTrace SessionLocal.
From S2P Require Import SessionClock SessionRemote Snapshot.

(** ** Sequences *)

(** A sequence as operations leave it. *)
Definition settled {T} (s : Sequence T) : Prop :=
  sequence_inv s ∧ ∀ op, buffered op (rga_of s) → rga_ready op (emap s) = false.

(** The values a sequence holds, buffered ones included. *)
Definition value_in {T} (v : T) (s : Sequence T) : Prop :=
  (∃ e, e ∈ seq_elements s ∧ elem_value e = Some v) ∨
  (∃ after id ro, Insert after id v ro ∈ pending_ops s).

Lemma pending_ops_map {T U} (f : T → U) s :
  pending_ops (sequence_map f s) = map (op_map f) (pending_ops s).
Proof.
  destruct s as [els idx pi pd]. unfold pending_ops. simpl.
  assert (H : ∀ m : gmap OpId (list (SequenceOp T)),
    btree_values (map (op_map f) <$> m) = map (map (op_map f)) (btree_values m)).
  { intros m. rewrite <-(list_fmap_id (btree_values (_ <$> m))). apply btree_values_ext.
    intros k. rewrite lookup_fmap. by destruct (m !! k). }
  by rewrite !H, map_app, !concat_map.
Qed.

Lemma sequence_roundtrip {T U} inc (f : T → U) (g : U → T) s :
  settled s → (∀ v, value_in v s → g (f v) = v) →
  sequence_from_dto inc g (sequence_to_dto f s) = s.
Proof.
  intros [Hinv Hready] Hgf. rewrite <-(restore_spec inc s Hinv Hready) at 2.
  unfold sequence_to_dto, sequence_from_dto. rewrite pending_ops_map. destruct s as [els idx pi pd] eqn:Es.
  simpl. rewrite !map_map. f_equal.
  - rewrite <-(map_id els) at 2. apply map_ext_in. intros [id v after ro] He. simpl.
    destruct v as [v|]; [|done]. simpl. rewrite Hgf; [done|]. left. eexists. split; [apply list_elem_of_In, He|done].
  - rewrite <-(map_id (pending_ops _)) at 2. apply map_ext_in. intros [after id v ro|t i] Hop; [|done]. simpl.
    rewrite Hgf; [done|]. right. exists after, id, ro. by apply list_elem_of_In.
Qed.

#[local] Arguments sequence_to_dto : simpl never.
#[local] Arguments sequence_from_dto : simpl never.
#[local] Arguments table_to_dto : simpl never.
#[local] Arguments table_from_dto : simpl never.

(** ** Tables *)

Lemma btree_collect_iter `{Countable K, !Ord K, !OrdLaws K} {V} (m : gmap K V) : btree_collect (btree_iter m) = m.
Proof.
  apply map_eq. intros k. apply option_eq. intros v.
  rewrite btree_collect_lookup by apply NoDup_btree_keys. apply elem_of_btree_iter.
Qed.

#[export] Instance CellAddress_ord_laws : OrdLaws CellAddress.
Proof.
  split; unfold ocmp, CellAddress_ord.
  - apply lexico_cmp_eq. by intros [] [] ? ?; simplify_eq/=.
  - apply lexico_cmp_antisym.
  - apply lexico_cmp_trans.
Qed.

Lemma cell_roundtrip x : cell_from_dto (cell_to_dto x) = x.
Proof. by destruct x as [[] []]. Qed.
Lemma column_roundtrip c : column_from_dto (column_to_dto c) = c.
Proof. by destruct c as [? ? [] [] ? ?]. Qed.
Lemma row_roundtrip r : row_from_dto (row_to_dto r) = r.
Proof. by destruct r as [? ? [] ?]. Qed.
Lemma unit_roundtrip u : unit_from_dto (unit_to_dto u) = u.
Proof. by destruct u. Qed.

Lemma table_roundtrip inc t : settled (columns t) → settled (rows t) → table_from_dto inc (table_to_dto t) = t.
Proof.
  intros Hc Hr. destruct t as [tid elem [del dop] cols rws cls prm pcm pca].
  unfold table_from_dto, table_to_dto. simpl in *.
  rewrite sequence_roundtrip by (done || intros; apply column_roundtrip).
  rewrite sequence_roundtrip by (done || intros; apply row_roundtrip).
  rewrite map_map, (map_ext _ id cell_roundtrip), map_id. by rewrite btree_collect_iter.
Qed.

(** ** Blocks *)

(** [Q] holds of every sequence of the tree, buffered blocks and items included. *)
Section all.
Context (Q : ∀ T, Sequence T → Prop).

Inductive block_all : Block → Prop :=
  | all_text b text : block_text_seq (blk_kind b) = Some text → Q _ text → block_all b
  | all_code b style info text : blk_kind b = CodeFence style info text → block_all b
  | all_raw b raw : blk_kind b = RawBlock raw → block_all b
  | all_table b t : blk_kind b = TableBlock t → Q _ (columns t) → Q _ (rows t) → block_all b
  | all_quote b children :
      blk_kind b = BlockQuote children → Q _ children →
      (∀ c, value_in c children → block_all c) → block_all b
  | all_list b style items moves :
      blk_kind b = ListBlock style items moves → Q _ items →
      (∀ i, value_in i items → Q _ (it_children i)) →
      (∀ i c, value_in i items → value_in c (it_children i) → block_all c) → block_all b.

Definition document_all (d : Document) : Prop :=
  Q _ (doc_blocks d) ∧ ∀ b, value_in b (doc_blocks d) → block_all b.
End all.

Abbreviation block_settled := (block_all (@settled)).
Abbreviation document_settled := (document_all (@settled)).

(** No sequence buffers an insertion of an element that it already holds. *)
Definition fresh_buffer {T} (s : Sequence T) : Prop :=
  ∀ after id v ro, Insert after id v ro ∈ pending_ops s → emap s !! id = None.
Abbreviation document_fresh := (document_all (@fresh_buffer)).

Lemma block_roundtrip inc b : block_settled b → block_from_dto inc (block_to_dto b) = b.
Proof.
  induction 1 as [b text Hk Hs|b st info text Hk|b raw Hk|b t Hk Hc Hr|b ch Hk Hs _ IH|b st items mv Hk Hs Hch _ IH];
    destruct b as [id elem op obs kind marks]; simpl in *.
  - destruct kind; simplify_eq/=; by rewrite sequence_roundtrip by (done || intros; apply unit_roundtrip).
  - by subst.
  - by subst.
  - subst. by rewrite table_roundtrip.
  - subst. by rewrite sequence_roundtrip.
  - subst. rewrite sequence_roundtrip; [done|done|]. intros [iid ie tk tko tob pob ch] Hi. simpl. f_equal.
    apply sequence_roundtrip; [by apply (Hch _ Hi)|]. intros c Hc. by apply (IH _ c Hi).
Qed.

Lemma document_roundtrip inc d :
  document_settled d →
  let d' := into_document inc (from_document d) in
  doc_blocks d' = doc_blocks d ∧ doc_frontmatter d' = doc_frontmatter d ∧
  doc_source d' = reindex (doc_blocks d) <$> doc_source d.
Proof.
  intros [Hs Hb] d'. assert (E : doc_blocks d' = doc_blocks d).
  { unfold d', into_document, from_document, doc_blocks at 1. simpl.
    apply sequence_roundtrip; [done|]. intros b Hin. by apply block_roundtrip, Hb. }
  split_and!; [done|done|]. unfold d', into_document, set_source_state in *. simpl in *.
  unfold doc_blocks in E at 1. simpl in E. unfold doc_blocks at 1. simpl. by rewrite E.
Qed.

(** ** The log *)

Lemma restore_applied_spec l st :
  let st' := restore_applied l st in
  ops st' = fold_left (λ m kv, <[kv.1 := kv.2]> m) l (ops st) ∧ sync_pending st' = sync_pending st ∧
  outbox_ids st' = outbox_ids st ∧ sent_ids st' = sent_ids st.
Proof.
  revert st. induction l as [|kv l IH]; intros st; simpl; [done|]. by destruct (IH (log_op (mkOperation kv.1 kv.2) st)) as (-> & -> & -> & ->).
Qed.

Lemma restore_pending_spec l st :
  Forall (λ x : Operation * N, ops st !! sop_id x.1 = None) l →
  restore_pending l st =
    set_pending (λ m, fold_left (λ m x, <[sop_id x.1 := x]> m) l m) st.
Proof.
  revert st. induction l as [|x l IH]; intros st Hl; [by destruct st|].
  apply Forall_cons in Hl as [Hx Hl]. unfold restore_pending in *. simpl.
  rewrite decide_False by (by rewrite Hx; intros [? [=]]). by rewrite IH.
Qed.

Lemma fold_left_ext_in {A B} (f g : A → B → A) l a :
  (∀ a x, x ∈ l → f a x = g a x) → fold_left f l a = fold_left g l a.
Proof.
  revert a. induction l as [|x l IH]; intros a H; simpl; [done|]. rewrite H by left. apply IH.
  intros. apply H. by right.
Qed.

(** ** The clock and the buffer of a restored session *)

Lemma fold_max_le {A} (f : N → A → N) (l : list A) (n : N) :
  (∀ m x, x ∈ l → (m ≤ f m x)%N) → (n ≤ fold_left f l n)%N.
Proof.
  revert n. induction l as [|x l IH]; intros n H; simpl; [done|]. etrans; [apply (H n x); left|].
  apply IH. intros m y Hy. apply H. by right.
Qed.

Section max.
Context (p : PeerId).

Lemma bump_le m id : (m ≤ bump p m id)%N.
Proof. unfold bump. case_decide; lia. Qed.

Lemma walk_marks_le marks m : (m ≤ walk_marks_max_peer p marks m)%N.
Proof.
  unfold walk_marks_max_peer. etrans; [|apply fold_max_le; intros; apply bump_le].
  apply fold_max_le. intros n i _. etrans; [|apply fold_max_le; intros; apply bump_le].
  etrans; [apply bump_le|apply bump_le].
Qed.

Lemma walk_table_le t m : (m ≤ walk_table_max_peer p t m)%N.
Proof.
  unfold walk_table_max_peer. repeat (etrans; [|apply fold_max_le; intros; apply bump_le]).
  etrans; [|apply fold_max_le]; [etrans; [|apply fold_max_le]; [apply bump_le|]|]; intros n e _;
    (destruct (elem_value e); [|apply bump_le]); repeat (etrans; [|apply bump_le]); done.
Qed.

Lemma walk_block_le b m : (m ≤ walk_block_max_peer p b m)%N.
Proof.
  revert b m. fix IH 1. intros [id el op obs kind marks] m. simpl.
  assert (Hw : (m ≤ walk_marks_max_peer p marks (bump p m op))%N) by (etrans; [apply bump_le|apply walk_marks_le]).
  destruct kind as [| |st [items ix pi pd] moves| |[els ix pi pd]| |t]; try exact Hw.
  - etrans; [exact Hw|]. etrans; [|apply fold_max_le; intros; apply bump_le].
    generalize (walk_marks_max_peer p marks (bump p m op)). clear Hw.
    induction items as [|[iid [[? ? ? task_op ? ? [els ? ? ?]]|] ? ?] items IHi]; intros n; simpl; [done| |].
    + etrans; [|apply IHi]. transitivity (bump p (bump p n iid) task_op); [etrans; apply bump_le|].
      generalize (bump p (bump p n iid) task_op). clear IHi.
      induction els as [|[bid [b|] ? ?] els IHe]; intros k; simpl; [done| |]; (etrans; [|apply IHe]).
      * etrans; [apply bump_le|]. apply IH.
      * apply bump_le.
    + etrans; [|apply IHi]. apply bump_le.
  - etrans; [exact Hw|]. generalize (walk_marks_max_peer p marks (bump p m op)). clear Hw.
    induction els as [|[bid [b|] ? ?] els IHe]; intros k; simpl; [done| |]; (etrans; [|apply IHe]).
    + etrans; [apply bump_le|]. apply IH.
    + apply bump_le.
  - etrans; [exact Hw|]. apply walk_table_le.
Qed.

Lemma max_counter_le l d : Forall (λ x : OpId * list Byte.byte, peer x.1 = p → (counter x.1 ≤ max_counter_for_peer p l d)%N) l.
Proof.
  unfold max_counter_for_peer. apply Forall_forall. intros x Hx Hp. etrans; [|apply fold_max_le].
  - assert (Hf : ∀ k n, x.1 ∈ k → (counter x.1 ≤ fold_left (bump p) k n)%N).
    { induction k as [|i k IH]; intros n; [intros []%elem_of_nil|]. intros [<-|Hin]%elem_of_cons; simpl; [|by apply IH].
      etrans; [|apply fold_max_le; intros; apply bump_le]. unfold bump. rewrite decide_True by done. lia. }
    apply Hf. by apply list_elem_of_fmap_2.
  - intros n e _. destruct (elem_value e); [|apply bump_le]. etrans; [apply bump_le|apply walk_block_le].
Qed.

(** Everything of [p] that is saved is covered by the maximum. *)
Lemma max_observed_le l d marks pending :
  let n := max_observed p l d marks pending in
  Forall (λ x : OpId * list Byte.byte, peer x.1 = p → (counter x.1 ≤ n)%N) l ∧
  Forall (λ m, (m ≤ n)%N) marks ∧
  Forall (λ id, peer id = p → (counter id ≤ n)%N) pending.
Proof.
  unfold max_observed.
  assert (Hm : ∀ k (a : N), (a ≤ fold_left N.max k a)%N ∧ Forall (λ m, (m ≤ fold_left N.max k a)%N) k).
  { induction k as [|x k IH]; intros a; simpl; [by split|]. destruct (IH (N.max a x)) as [H1 H2].
    split; [lia|]. constructor; [lia|done]. }
  assert (Hb : ∀ k (a : N), (a ≤ fold_left (bump p) k a)%N ∧
    Forall (λ id, peer id = p → (counter id ≤ fold_left (bump p) k a)%N) k).
  { induction k as [|x k IH]; intros a; simpl; [by split|]. destruct (IH (bump p a x)) as [H1 H2].
    split; [pose proof (bump_le a x); lia|]. constructor; [|done]. intros Hp. etrans; [|exact H1].
    unfold bump. rewrite decide_True by done. lia. }
  destruct (Hm marks (max_counter_for_peer p l d)) as [H1 H2].
  destruct (Hb pending (fold_left N.max marks (max_counter_for_peer p l d))) as [H3 H4].
  pose proof (max_counter_le l d) as H5. split_and!; [|eapply Forall_impl; [exact H2|]|done].
  - eapply Forall_impl; [exact H5|]. simpl. intros x Hx Hp. specialize (Hx Hp). lia.
  - simpl. intros m Hm'. lia.
Qed.
End max.

Section persist.
Context (inc : bool) (graphemes : string → list string).
Context (encode : Envelope → string + list Byte.byte) (decode : list Byte.byte → string + Envelope).

(** Buffered operations as the session stores them. *)
Definition buffer_kept (st : SyncState) : Prop :=
  ∀ id op span, sync_pending st !! id = Some (op, span) →
    sop_id op = id ∧ ops st !! id = None ∧ span = span_of_payload graphemes decode (sop_payload op).

Lemma restore_sync_spec st :
  buffer_kept st →
  let st' := restore_sync graphemes decode (applied_ops st)
    ((λ op, (sop_id op, sop_payload op)) <$> pending_operations st) in
  ops st' = ops st ∧ sync_pending st' = sync_pending st ∧ outbox_ids st' = ∅ ∧ sent_ids st' = ∅.
Proof.
  intros Hb st'. destruct (restore_applied_spec (applied_ops st) sync_new) as (Eo & Ep & Ebox & Esent).
  assert (Eo' : ops (restore_applied (applied_ops st) sync_new) = ops st).
  { rewrite Eo. apply btree_collect_iter. }
  assert (El : (λ x : OpId * list Byte.byte, (mkOperation x.1 x.2, span_of_payload graphemes decode x.2)) <$>
    ((λ op, (sop_id op, sop_payload op)) <$> pending_operations st) = (btree_iter (sync_pending st)).*2).
  { unfold pending_operations. rewrite <-!list_fmap_compose. apply list_fmap_ext. intros i [id [op span]] Hi.
    apply list_elem_of_lookup_2, elem_of_btree_iter, Hb in Hi as (<- & _ & ->). by destruct op. }
  unfold st', restore_sync. rewrite El, restore_pending_spec.
  - simpl. split_and!; [done| |done|done]. rewrite Ep.
    transitivity (btree_collect (btree_iter (sync_pending st))); [|apply btree_collect_iter].
    unfold btree_collect. rewrite fold_left_fmap. apply fold_left_ext_in. intros m [id [op span]] Hi.
    apply elem_of_btree_iter, Hb in Hi as (<- & _). done.
  - rewrite Eo'. apply Forall_fmap, Forall_forall. intros [id [op span]] Hi.
    apply elem_of_btree_iter, Hb in Hi as (<- & Hn & _). done.
Qed.

(** ** Waiting envelopes *)

Lemma try_map_roundtrip {A B E F} (f : A → E + B) (g : B → F + A) l l' :
  (∀ x y, x ∈ l → f x = inr y → g y = inr x) → try_map f l = inr l' → try_map g l' = inr l.
Proof.
  revert l'. induction l as [|x l IH]; intros l' H; simpl; [by intros [= <-]|].
  destruct (f x) as [e|y] eqn:Ef; [done|]. destruct (try_map f l) as [e|ys]; [done|]. intros [= <-]. simpl.
  rewrite (H x y) by (left || done). rewrite IH with (l' := ys); [done| |done]. intros. eapply H; [by right|done].
Qed.

Definition logged_envelopes (s : CollaborativeDocument) : gmap OpId Envelope :=
  filter (λ x : OpId * Envelope, contains (s_sync s) x.1) (s_pending_envelopes s).

Lemma collect_filter (P : OpId * Envelope → Prop) `{!∀ x, Decision (P x)} (m : gmap OpId Envelope) :
  btree_collect (filter P (btree_iter m)) = filter P m.
Proof.
  apply map_eq. intros k. apply option_eq. intros v. rewrite btree_collect_lookup, map_lookup_filter_Some.
  - rewrite list_elem_of_filter, elem_of_btree_iter. naive_solver.
  - eapply sublist_NoDup; [apply (NoDup_btree_keys m)|apply sublist_fmap, sublist_filter].
Qed.

(** A buffer as sessions keep it. *)
Lemma decodable_kept st : decodable graphemes decode st → apart st → buffer_kept st.
Proof.
  intros Hd Ha id op span Hi. destruct (Hd _ _ _ Hi) as (Hid & env & He & ->). split_and!; [done|by apply Ha|].
  unfold span_of_payload. by rewrite He.
Qed.

Lemma restore_pending_lookup l st id x :
  sync_pending (restore_pending l st) !! id = Some x →
  x ∈ l ∧ sop_id x.1 = id ∧ ops st !! id = None ∨ sync_pending st !! id = Some x.
Proof.
  unfold restore_pending. revert st. induction l as [|y l IH]; intros st; simpl; [by right|].
  intros H. apply IH in H. case_decide as Hd.
  - destruct H as [(? & ? & ?)|?]; [left|by right]. split_and!; [by right|done..].
  - apply eq_None_not_Some in Hd. destruct H as [(? & ? & ?)|H]; [left; split_and!; [by right|done..]|].
    simpl in H. apply lookup_insert_Some in H as [[<- <-]|[_ H]]; [left|by right]. split_and!; [by left|done..].
Qed.
Lemma restore_pending_ops l st : ops (restore_pending l st) = ops st.
Proof.
  unfold restore_pending. revert st. induction l as [|y l IH]; intros st; simpl; [done|]. rewrite IH. by case_decide.
Qed.

Lemma try_map_elem {A B E} (f : A → E + B) l l' y :
  try_map f l = inr l' → y ∈ l' → ∃ x, x ∈ l ∧ f x = inr y.
Proof.
  revert l'. induction l as [|x l IH]; intros l'; simpl; [intros [= <-] []%elem_of_nil|].
  destruct (f x) as [e|z] eqn:Ef; [done|]. destruct (try_map f l) as [e|ys]; [done|]. intros [= <-].
  intros [->|Hy]%elem_of_cons; [exists x; split; [left|done]|].
  destruct (IH ys eq_refl Hy) as (x' & ? & ?). exists x'. split; [by right|done].
Qed.

(** What a restored session shares with the saved one, whatever the document. *)
Record reopens (s s' : CollaborativeDocument) : Prop := {
  ro_peer : s_peer s' = s_peer s;
  ro_clock : s_next_counter s' = s_next_counter s;
  ro_document : s_document s' = into_document inc (from_document (s_document s));
  ro_log : ops (s_sync s') = ops (s_sync s);
  ro_frontier : state_vector (s_sync s') = state_vector (s_sync s);
  ro_buffer id op span : sync_pending (s_sync s') !! id = Some (op, span) →
    sync_pending (s_sync s) !! id = Some (op, span) ∧ ops (s_sync s) !! id = None;
  ro_envelopes id env : s_pending_envelopes s' !! id = Some env →
    ∃ env0 p, s_pending_envelopes s !! id = Some env0 ∧ encode env0 = inr p ∧ decode p = inr env;
}.

Lemma restore_reopens s snap s' :
  decodable graphemes decode (s_sync s) → save_snapshot encode s = inr snap →
  restore_from_snapshot inc graphemes decode snap = inr s' → reopens s s'.
Proof.
  intros Hd Hsave Hr. unfold save_snapshot in Hsave. destruct (try_map _ _) as [|deferred] eqn:Hdef; [done|].
  injection Hsave as <-. unfold restore_from_snapshot in Hr. rewrite decide_False in Hr by (intros H; by apply H).
  cbn [snap_peer snap_document snap_ops snap_state_vector snap_delta_floor snap_pending snap_next_counter
    snap_checkpoint_epoch snap_deferred snap_unit_mode] in Hr.
  destruct (_ <=? _)%N; [done|]. unfold decode_deferred in Hr. destruct (try_map _ deferred) as [|l] eqn:Hl; [done|].
  injection Hr as <-. split; simpl; try done.
  - unfold restore_sync. rewrite restore_pending_ops. destruct (restore_applied_spec (applied_ops (s_sync s)) sync_new) as [-> _].
    apply btree_collect_iter.
  - intros id op span Hi. unfold restore_sync in Hi.
    destruct (restore_applied_spec (applied_ops (s_sync s)) sync_new) as (Eo & Ep & _).
    assert (Eo' : ops (restore_applied (applied_ops (s_sync s)) sync_new) = ops (s_sync s)) by (rewrite Eo; apply btree_collect_iter).
    apply restore_pending_lookup in Hi as [(Hin & Hid & Hn)|Hi]; [|rewrite Ep in Hi; by destruct (lookup_empty_Some _ _ Hi)].
    rewrite Eo' in Hn. split; [|done]. simpl in Hid.
    apply list_elem_of_fmap in Hin as (y & Hy & Hin). injection Hy as -> ->. simpl in Hid.
    apply list_elem_of_fmap in Hin as (o & -> & Hin). unfold pending_operations in Hin.
    apply list_elem_of_fmap in Hin as ([k [o' sp]] & -> & Hin). apply elem_of_btree_iter in Hin. simpl in *.
    destruct (Hd _ _ _ Hin) as (<- & env & He & ->). unfold span_of_payload. rewrite He. subst id. by destruct o'.
  - intros id env Hi.
    assert (Hin : (id, env) ∈ l).
    { clear -Hi. unfold btree_collect in Hi. assert (H : ∀ m : gmap OpId Envelope, fold_left (λ m kv, <[kv.1 := kv.2]> m) l m !! id = Some env →
        (id, env) ∈ l ∨ m !! id = Some env).
      { clear. induction l as [|[k v] l IH]; intros m H; simpl in *; [by right|].
        destruct (IH _ H) as [?|[[<- <-]|[_ ?]]%lookup_insert_Some]; [left; by right|left; left|by right]. }
      destruct (H ∅ Hi) as [?|[]%lookup_empty_Some]. done. }
    destruct (try_map_elem _ _ _ _ Hl Hin) as ([k p] & Hk & Ek). simpl in Ek.
    destruct (decode p) as [|env'] eqn:Ep; [done|]. injection Ek as -> ->.
    destruct (try_map_elem _ _ _ _ Hdef Hk) as ([k0 env0] & Hk0 & Ek0). simpl in Ek0.
    destruct (encode env0) as [|p'] eqn:Ee; [done|]. injection Ek0 as -> ->.
    apply list_elem_of_filter in Hk0 as [_ Hk0]. apply elem_of_btree_iter in Hk0. by exists env0, p.
Qed.

(** The largest counter of the session's peer in what is saved. *)
Definition saved_max (s : CollaborativeDocument) : N :=
  max_observed (s_peer s) (applied_ops (s_sync s)) (s_document s)
    [sv_seen (state_vector (s_sync s)) (s_peer s); sv_seen (delta_floor (s_sync s)) (s_peer s)]
    (btree_keys (sync_pending (s_sync s))).

Lemma max_saved s d :
  doc_blocks d = doc_blocks (s_document s) →
  max_observed (s_peer s) (applied_ops (s_sync s)) d
    [sv_seen (state_vector (s_sync s)) (s_peer s); sv_seen (delta_floor (s_sync s)) (s_peer s)]
    ((λ op, (sop_id op, sop_payload op)) <$> pending_operations (s_sync s)).*1 = saved_max s.
Proof.
  intros E. unfold saved_max, max_observed, max_counter_for_peer. rewrite E. f_equal.
  unfold pending_operations, btree_keys. rewrite <-!list_fmap_compose. by apply list_fmap_ext.
Qed.

(** Encoding the waiting envelopes of the log, and decoding them again. *)
Lemma waiting_roundtrip s :
  (∀ id env p, s_pending_envelopes s !! id = Some env → encode env = inr p → decode p = inr env) →
  ∀ (x : OpId * Envelope) (y : OpId * list Byte.byte),
    x ∈ filter (λ x : OpId * Envelope, contains (s_sync s) x.1) (btree_iter (s_pending_envelopes s)) →
    match encode x.2 with inl m => inl (SnapSerde m) | inr payload => inr (x.1, payload) end = inr y →
    match decode y.2 with inl m => inl (SnapSerde m) | inr env => inr (y.1, env) end = inr x.
Proof.
  intros Hcodec [id env] y [_ Hin%elem_of_btree_iter]%list_elem_of_filter. simpl.
  destruct (encode env) as [m|p] eqn:E; [done|]. intros [= <-]. simpl. by rewrite (Hcodec _ _ _ Hin E).
Qed.

(** What the restored session has in common with the saved one. *)
Record restored (s s' : CollaborativeDocument) : Prop := {
  rs_peer : s_peer s' = s_peer s;
  rs_clock : s_next_counter s' = s_next_counter s;
  rs_unit : s_unit_mode s' = s_unit_mode s;
  rs_blocks : doc_blocks (s_document s') = doc_blocks (s_document s);
  rs_frontmatter : doc_frontmatter (s_document s') = doc_frontmatter (s_document s);
  rs_source : doc_source (s_document s') =
    reindex (doc_blocks (s_document s)) <$> doc_source (s_document s);
  rs_log : ops (s_sync s') = ops (s_sync s);
  rs_buffer : sync_pending (s_sync s') = sync_pending (s_sync s);
  rs_frontier : state_vector (s_sync s') = state_vector (s_sync s);
  rs_floor : delta_floor (s_sync s') = delta_floor (s_sync s);
  rs_epoch : checkpoint_epoch (s_sync s') = checkpoint_epoch (s_sync s);
  rs_outbox : outbox_ids (s_sync s') = ∅ ∧ sent_ids (s_sync s') = ∅;
  rs_waiting : s_pending_envelopes s' = logged_envelopes s;
}.

Lemma restore_saved s snap :
  document_settled (s_document s) → buffer_kept (s_sync s) →
  (∀ id env p, s_pending_envelopes s !! id = Some env → encode env = inr p → decode p = inr env) →
  save_snapshot encode s = inr snap →
  match restore_from_snapshot inc graphemes decode snap with
  | inl e => (s_next_counter s ≤ saved_max s)%N ∧ e = ClockBehind (s_peer s) (s_next_counter s) (saved_max s)
  | inr s' => (saved_max s < s_next_counter s)%N ∧ restored s s'
  end.
Proof.
  intros Hdoc Hbuf Hcodec Hsave. unfold save_snapshot in Hsave.
  destruct (try_map _ _) as [e|deferred] eqn:Hdef; [done|]. injection Hsave as <-.
  destruct (document_roundtrip inc (s_document s) Hdoc) as (Eb & Ef & Es).
  destruct (restore_sync_spec (s_sync s) Hbuf) as (Eops & Epend & Ebox & Esent).
  unfold restore_from_snapshot. cbn [snap_format_version snap_peer snap_document snap_ops snap_state_vector
    snap_delta_floor snap_pending snap_next_counter snap_checkpoint_epoch snap_deferred snap_unit_mode].
  rewrite decide_False by (intros H; by apply H). rewrite max_saved by done.
  destruct (_ <=? _)%N eqn:Hle; [apply N.leb_le in Hle; by split|]. apply N.leb_gt in Hle.
  unfold decode_deferred.
  rewrite (try_map_roundtrip _ _ _ _ (waiting_roundtrip s Hcodec) Hdef), collect_filter.
  split; [done|]. by split.
Qed.

End persist.

Lemma settled_new {T} : settled (sequence_new (T := T)).
Proof.
  split; [apply sequence_new_inv|]. intros [[a|] i v ro|t i]; simpl; try done;
    rewrite lookup_empty; by intros ?%elem_of_nil.
Qed.
