(* ===== verification/SessionProps.v ===== *)
(** * Properties of sessions

    What holds in every session that operations, messages, checkpoints and
    restorations can reach: which ids can be in its log and its buffer, that
    receiving is all or nothing, and which operations a message brings to the
    document.  A session that pulls another's edits shows the same document. *)

From S2P Require Import Prelude Core Sequence Mark MarkOps Table Frontmatter Codec Text Block.
From S2P Require Import Document DocumentCache Sync SyncInv Draft SessionWire Session SessionTrace.
From S2P Require Import SessionLocal SessionClock SessionRemote DocumentTwin SessionPull.
From S2P Require Import Snapshot SnapshotProps.

Section props.
Context (inc : bool) (graphemes : string → list string).
Context (encode : Envelope → string + list Byte.byte) (decode : list Byte.byte → string + Envelope).

Abbreviation local_trace := (local_trace inc graphemes encode).
Abbreviation run_local := (run_local inc graphemes encode).
Abbreviation apply_remote := (apply_remote inc graphemes decode).
Abbreviation decodable := (decodable graphemes decode).

(** ** Reachable sessions *)

(** [reached s received drawn]: the session [s] can be reached from a new one;
    [received] are the operations that messages brought and that were not logged
    when they came, [drawn] the ids that the session's own commits took.  A
    local operation, an ingestion and a query are traces ([run_local_safe],
    [IngestProps.ingest_trace]).  A restored session has the history of the
    session that was saved, not of the one that saved it last. *)
Inductive reached : CollaborativeDocument → list Operation → list OpId → Prop :=
  | reached_new p b : reached (with_codec p b) [] []
  | reached_local s received drawn l s' :
      reached s received drawn → local_trace s l s' →
      Forall (λ x : Envelope * Operation, below_max graphemes x.1) l →
      reached s' received (drawn ++ (sop_id <$> l.*2))
  | reached_source s received drawn src :
      reached s received drawn → reached (set_document (set_source src (s_document s)) s) received drawn
  | reached_message s received drawn m limits :
      reached s received drawn → reached (apply_remote m limits s).1 (received ++ unlogged m s) drawn
  | reached_checkpoint s received drawn request :
      reached s received drawn → reached (checkpoint_history request s).1 received drawn
  | reached_unit_mode s received drawn b :
      reached s received drawn → reached (set_unit_mode b s) received drawn
  | reached_restore s received drawn snap s' :
      reached s received drawn → save_snapshot encode s = inr snap →
      (∀ id env p, s_pending_envelopes s !! id = Some env → encode env = inr p → decode p = inr env) →
      restore_from_snapshot inc graphemes decode snap = inr s' → reached s' received drawn
  | reached_rebind s received drawn p :
      reached s received drawn → (s_next_counter (rebind_peer p s) < u64_max)%N →
      reached (rebind_peer p s) received drawn.

(** What every reachable session keeps. *)
Record session_inv (s : CollaborativeDocument) (received : list Operation) (drawn : list OpId) : Prop := {
  si_range : (1 ≤ s_next_counter s ≤ u64_max)%N;
  si_confined :
    confined (λ id, (counter id < s_next_counter s)%N ∨ id ∈ sop_id <$> received) (s_peer s) (s_sync s);
  si_decodable : decodable (s_sync s);
  si_received id : is_Some (sync_pending (s_sync s) !! id) → id ∈ sop_id <$> received;
  si_apart id : is_Some (sync_pending (s_sync s) !! id) → ops (s_sync s) !! id = None ∨ id ∈ drawn;
}.

Lemma session_new_inv p b : session_inv (with_codec p b) [] [].
Proof.
  split; simpl; [done| |intros id op span Hi|intros id [x Hx]..]; simpl in *.
  - split; simpl; [intros id [x Hx]..|by left]; simpl in Hx; by rewrite lookup_empty in Hx.
  - by rewrite lookup_empty in Hi.
  - by rewrite lookup_empty in Hx.
  - by rewrite lookup_empty in Hx.
Qed.

Lemma committed_inv env id next payload s received drawn :
  commit_ok graphemes s env id next → below_max graphemes env → session_inv s received drawn →
  session_inv (committed inc graphemes env id next payload s) received (drawn ++ [id]).
Proof.
  intros Hok Hb [Hr Hc Hd Hrec Ha]. destruct (ok_allocated _ _ _ _ _ Hok) as ([Hge Hlt] & _ & ->); [lia|done|].
  split; simpl; [lia| |exact Hd|exact Hrec|].
  - assert (Hc' : confined (λ i, (counter i < counter id + 1)%N ∨ i ∈ sop_id <$> received) (s_peer s)
      (log_op (mkOperation id payload) (s_sync s))).
    { apply confined_log; [intros _; left; simpl; lia|]. eapply confined_mono; [|exact Hc].
      simpl. intros i [?|?]; [left; lia|by right]. }
    destruct Hc'. by split.
  - intros i Hi. rewrite elem_of_app, list_elem_of_singleton. destruct (decide (i = id)) as [->|Hne]; [tauto|].
    rewrite lookup_insert_ne by done. destruct (Ha i Hi); tauto.
Qed.

Lemma trace_inv s l s' received drawn :
  local_trace s l s' → Forall (λ x : Envelope * Operation, below_max graphemes x.1) l →
  session_inv s received drawn → session_inv s' received (drawn ++ (sop_id <$> l.*2)).
Proof.
  intros Ht. revert drawn. induction Ht as [s|s d l s' Hd _ IH|s env id next payload l s' Hok _ _ IH]; intros drawn Hb Hs.
  - by rewrite app_nil_r.
  - apply IH; [done|]. by destruct Hs.
  - apply Forall_cons in Hb as [Hb Hl]. simpl in *. rewrite cons_middle, app_assoc. apply IH; [done|].
    by apply committed_inv.
Qed.

Lemma prune_facts l st :
  let st' := fold_left prune_op l st in
  sync_pending st' = sync_pending st ∧ state_vector st' = state_vector st ∧ ops st' ⊆ ops st.
Proof.
  revert st. induction l as [|i l IH]; intros st; simpl; [done|].
  destruct (IH (prune_op st i)) as (-> & -> & Hs). split_and!; [done..|].
  etrans; [exact Hs|]. simpl. apply delete_subseteq.
Qed.

Lemma checkpoint_facts request st :
  let st' := (checkpoint request st).1 in
  sync_pending st' = sync_pending st ∧ state_vector st' = state_vector st ∧ ops st' ⊆ ops st.
Proof. unfold checkpoint. repeat case_match; simpl; try done. apply prune_facts. Qed.

Lemma checkpoint_session_inv request s received drawn :
  session_inv s received drawn → session_inv (checkpoint_history request s).1 received drawn.
Proof.
  intros [Hr [Hl Hp Hs] Hd Hrec Ha]. unfold checkpoint_history. pose proof (checkpoint_facts request (s_sync s)) as H.
  destruct (checkpoint request (s_sync s)) as [st r]. simpl in H. destruct H as (Epend & Esv & Hsub).
  split; simpl; rewrite ?Epend; try done.
  - split; rewrite ?Epend, ?Esv; try done. intros id [x Hx]. apply Hl. exists x. by eapply lookup_weaken.
  - intros id op span Hi. rewrite Epend in Hi. by apply Hd in Hi.
  - intros id Hi. destruct (Ha id Hi) as [Hn|?]; [left|by right]. by eapply lookup_weaken_None.
Qed.

Lemma remote_inv m limits s received drawn :
  session_inv s received drawn → session_inv (apply_remote m limits s).1 (received ++ unlogged m s) drawn.
Proof.
  intros [Hr Hc Hd Hrec Ha]. pose proof (apply_remote_spec inc graphemes decode m limits s Hd) as H.
  destruct (apply_remote m limits s) as [s' [e|r]]; simpl in *.
  { subst s'. split; try done; [|intros id Hi; rewrite fmap_app, elem_of_app; auto].
    eapply confined_mono; [|exact Hc]. simpl. intros id. rewrite fmap_app, elem_of_app. tauto. }
  destruct H as [Hd' _ _ Hp Hn _ Hconf Hpend Hbut _]. split; rewrite ?Hn, ?Hp; [done| |done| |].
  - apply Hconf.
    + apply Forall_forall. intros op Hop _. right. rewrite fmap_app, elem_of_app. right. by apply list_elem_of_fmap_2.
    + eapply confined_mono; [|exact Hc]. simpl. intros id. rewrite fmap_app, elem_of_app. tauto.
  - intros id Hi. rewrite fmap_app, elem_of_app. destruct (Hpend id Hi); auto.
  - apply (Hbut (λ id, id ∈ drawn)). exact Ha.
Qed.

Lemma restored_inv s snap s' received drawn :
  save_snapshot encode s = inr snap → restore_from_snapshot inc graphemes decode snap = inr s' →
  session_inv s received drawn → session_inv s' received drawn.
Proof.
  intros Hsave Hr [Hrange [Hl Hp Hs] Hd Hrec Ha].
  destruct (restore_reopens inc graphemes encode decode s snap s' Hd Hsave Hr) as [Ep En _ El Ef Hb _].
  assert (Hsub : ∀ id, is_Some (sync_pending (s_sync s') !! id) → is_Some (sync_pending (s_sync s) !! id)).
  { intros id [[op span] Hi]. apply Hb in Hi as [Hi _]. eauto. }
  split; rewrite ?En, ?Ep; [done| | |by eauto|].
  - split; rewrite ?El, ?Ef; eauto.
  - intros id op span Hi. apply Hb in Hi as [Hi _]. by apply Hd in Hi.
  - intros id Hi. rewrite El. auto.
Qed.

Lemma rebind_inv p s received drawn :
  (s_next_counter (rebind_peer p s) < u64_max)%N → session_inv s received drawn →
  session_inv (rebind_peer p s) received drawn.
Proof.
  intros Hlt [Hrange _ Hd Hrec Ha]. unfold rebind_peer in *. cbv zeta in *. cbn [s_next_counter] in Hlt.
  set (n := max_observed _ _ _ _ _) in *.
  assert (Hn : (n < N.max (u64_saturating_add n 1) 1)%N) by (unfold u64_saturating_add in *; lia).
  destruct (max_observed_le p (applied_ops (s_sync s)) (s_document s)
    [sv_seen (state_vector (s_sync s)) p; sv_seen (delta_floor (s_sync s)) p]
    (sop_id <$> pending_operations (s_sync s))) as (Hlog & Hmarks & Hpend). fold n in Hlog, Hmarks, Hpend.
  rewrite Forall_forall in Hlog; rewrite Forall_forall in Hmarks; rewrite Forall_forall in Hpend.
  split; cbn [s_next_counter s_peer s_sync]; [lia| |done..].
  split; [intros id [x Hi] Hid; left|intros id [[op span] Hi] Hid; left|right; left].
  - apply elem_of_btree_iter in Hi. specialize (Hlog _ Hi Hid). simpl in Hlog. lia.
  - assert (Hin : id ∈ sop_id <$> pending_operations (s_sync s)).
    { unfold pending_operations. rewrite <-list_fmap_compose. apply list_elem_of_fmap.
      exists (id, (op, span)). split; [done|]. by apply elem_of_btree_iter. }
    specialize (Hpend _ Hin Hid). lia.
  - simpl. assert (Hm : (sv_seen (state_vector (s_sync s)) p ≤ n)%N) by (apply Hmarks; left). lia.
Qed.

Lemma reached_inv s received drawn : reached s received drawn → session_inv s received drawn.
Proof.
  induction 1 as [p b|s rc dr l s' _ IH Ht Hb|s rc dr src _ IH|s rc dr m limits _ IH|s rc dr request _ IH
    |s rc dr b _ IH|s rc dr snap s' _ IH Hsave _ Hr|s rc dr p _ IH Hlt].
  - apply session_new_inv.
  - by eapply trace_inv.
  - by destruct IH.
  - by apply remote_inv.
  - by apply checkpoint_session_inv.
  - by destruct IH.
  - by eapply restored_inv.
  - by apply rebind_inv.
Qed.

(** No id was drawn by the session and brought by a message that found it
    unlogged: no peer has sent back an operation whose id the session, restored
    from an older snapshot, went on to use again. *)
Definition undisputed (received : list Operation) (drawn : list OpId) : Prop :=
  ∀ id, id ∈ sop_id <$> received → id ∉ drawn.

Lemma undisputed_apart s received drawn :
  session_inv s received drawn → undisputed received drawn → apart (s_sync s).
Proof. intros [_ _ _ Hrec Ha] Hu id Hi. destruct (Ha id Hi) as [?|Hdr]; [done|]. by destruct (Hu id (Hrec id Hi)). Qed.

(** C11: Which ids a session can hold.  In every session that local operations,
    messages of any content, checkpoints, restorations and changes of the peer or
    of the unit mode reach: an id of the session's own peer in its log or buffer
    is below its clock or was brought by a message that found it unlogged, and so
    is the own counter in its frontier; hence the next id is free unless a message
    brought it.  Every buffered operation was brought by a message, is stored
    under its id with the extent of the envelope its payload decodes to, and is
    not logged unless the session itself drew its id. *)
Theorem session_invariant s received drawn :
  reached s received drawn →
  let known id := (counter id < s_next_counter s)%N ∨ id ∈ sop_id <$> received in
  let frontier := sv_seen (state_vector (s_sync s)) (s_peer s) in
  (∀ id, peer id = s_peer s →
    is_Some (ops (s_sync s) !! id) ∨ is_Some (sync_pending (s_sync s) !! id) → known id) ∧
  (frontier = 0%N ∨ known (op_at (s_peer s) frontier)) ∧
  (peek_next_id s ∉ sop_id <$> received →
    ops (s_sync s) !! peek_next_id s = None ∧ sync_pending (s_sync s) !! peek_next_id s = None) ∧
  (∀ id op span, sync_pending (s_sync s) !! id = Some (op, span) →
    sop_id op = id ∧ id ∈ sop_id <$> received ∧
    (∃ env, decode (sop_payload op) = inr env ∧ span = (operation_extent graphemes env).2) ∧
    (ops (s_sync s) !! id = None ∨ id ∈ drawn)).
Proof.
  intros Hr known frontier. destruct (reached_inv s received drawn Hr) as [_ [Hl Hp Hs] Hd Hrec Ha].
  assert (Hfree : ∀ {V} (m : gmap OpId V), (∀ id, is_Some (m !! id) → peer id = s_peer s → known id) →
    peek_next_id s ∉ sop_id <$> received → m !! peek_next_id s = None).
  { intros V m Hm Hn. apply eq_None_not_Some. intros Hi. destruct (Hm _ Hi eq_refl) as [Hlt|?]; [|done].
    simpl in Hlt. lia. }
  split; [intros id Hp' [?|?]; [by apply Hl|by apply Hp]|]. split; [done|]. split; [intros Hn; split; by apply Hfree|].
  intros id op span Hi. destruct (Hd _ _ _ Hi) as [Hid He]. split_and!; [done|apply Hrec; eauto|done|apply Ha; eauto].
Qed.

(** C12: Receiving a message is all or nothing.  In every reachable session
    [apply_remote] either fails and leaves the session exactly as it was, or
    integrates the whole message: if the history is undisputed, the log and the
    buffer then hold what they held and every operation of the message, the first
    payload of an id winning; the document has changed by the envelopes [applied]
    only, each of which was kept, buffered or sent.  An id is applied, or waits
    for its frontier, exactly if it waited before or has been logged now; never
    both, and never twice.  The result names the applied ids, and as buffered
    exactly ids that are held, all that are held now and were not before among
    them.  (Ids whose kept envelope has lost its operation to a checkpoint are
    left aside.)  No applicable envelope is left waiting, no ready operation is
    left buffered if none was before, and clock and peer are unchanged. *)
Theorem remote_all_or_nothing s received drawn m limits :
  reached s received drawn → undisputed received drawn →
  match apply_remote m limits s with
  | (s', inl _) => s' = s
  | (s', inr r) =>
    let held t id := buffered_in t id ∨ waits [] t id in
    content (s_sync s') =
      content (s_sync s) ∪ list_to_map ((λ op, (sop_id op, sop_payload op)) <$> msg_ops m) ∧
    ops (s_sync s) ⊆ ops (s_sync s') ∧
    (∃ applied,
      s_document s' = fold_left (λ d x, apply_envelope_to_document inc graphemes x.2 d) applied (s_document s) ∧
      sres_applied r = fold_left (λ l x, push_new x.1 l) applied [] ∧
      Forall (λ x, origin decode m s x.1 x.2) applied ∧
      ∀ id, ¬ orphaned s id →
        (id ∈ applied.*1 ∨ waits [] s' id ↔ waits [] s id ∨ logged_in s' id ∧ ¬ logged_in s id) ∧
        ¬ (id ∈ applied.*1 ∧ waits [] s' id) ∧ once id applied.*1 ∧
        (id ∈ sres_buffered r → held s' id) ∧ (held s' id → ¬ held s id → id ∈ sres_buffered r)) ∧
    ready_envelopes s' = [] ∧ (quiescent (s_sync s) → quiescent (s_sync s')) ∧
    s_peer s' = s_peer s ∧ s_next_counter s' = s_next_counter s
  end.
Proof.
  intros Hr Hu. pose proof (reached_inv s received drawn Hr) as Hinv.
  pose proof (apply_remote_spec inc graphemes decode m limits s (si_decodable _ _ _ Hinv)) as H.
  destruct (apply_remote m limits s) as [s' [e|r]]; [done|]. destruct H as [_ Hready Hq Hp Hn _ _ _ _ Hw].
  destruct (Hw (undisputed_apart _ _ _ Hinv Hu)) as (_ & Hsub & Hcont & applied & [Hdoc Happ _ Hsrc Hacc]).
  split_and!; [done..| |done|done|done|done]. exists applied. split_and!; [done..|].
  intros id Hst. destruct (Hacc id Hst Hst) as [_ _ Hall Hnot Honce Hbuf Hheld].
  split_and!; [done|intros [Ha Hwait]; by apply Hnot|done| |auto].
  apply Hbuf. intros []%elem_of_nil.
Qed.

(** The loop of [drain_deferred] stops: two rounds are enough in every
    state, further rounds change nothing; it removes exactly the waiting
    envelopes that are logged and whose frontier is reached, touches neither
    the log nor the clock, and leaves no such envelope behind. *)
Theorem drain_deferred_terminates n s r :
  drain_deferred_loop inc graphemes (2 + n) (s, r) = drain_deferred inc graphemes (s, r) ∧
  let '(s', _) := drain_deferred inc graphemes (s, r) in
  s_sync s' = s_sync s ∧ s_next_counter s' = s_next_counter s ∧ ready_envelopes s' = [] ∧
  ∀ id, s_pending_envelopes s' !! id =
    if decide (id ∈ ready_envelopes s) then None else s_pending_envelopes s !! id.
Proof.
  destruct (drain_deferred_spec inc graphemes n s r) as (-> & _ & H). split; [done|].
  destruct (drain_deferred inc graphemes (s, r)) as [s' r']. by destruct H as ((_ & ? & ? & _) & ? & ?).
Qed.

(** ** Pulling *)

Lemma replays_twin d l d2 :
  replays inc graphemes d l d2 → ∀ n e, room (n + history_cost l) → twin n d e →
  twin (n + history_cost l) d2 (fold_left (λ d env, apply_envelope_to_document inc graphemes env d) l e).
Proof.
  induction 1 as [d|d d' l d'' Hc _ IH|d env l d' _ IH]; intros n e Hn H; unfold history_cost in *; simpl in *.
  - eapply twin_mono; [|exact H]. lia.
  - apply IH; [done|]. by eapply twin_cache.
  - rewrite Nat.add_assoc in *. apply IH; [done|]. apply apply_envelope_twin; [|done].
    eapply room_le; [|exact Hn]. lia.
Qed.

(** Whoever pulls a trace of commits applies all of it and ends with the same
    content. *)
Lemma trace_pull s l s' r limits n :
  let message := mkChanges (session_state_vector r) l.*2 in
  local_trace s l s' → clock_ok s → in_step s r → twin n (s_document s) (s_document r) →
  Forall (λ x : Envelope * Operation, below_max graphemes x.1) l →
  Forall (λ x : Envelope * Operation, decode (sop_payload x.2) = inr x.1) l →
  room (n + history_cost l.*1) → validate_changes message limits 0 = None →
  encode_changes_since (session_state_vector r) (s_sync s') = inr message ∧
  ∃ r', apply_remote message limits r = (r', inr (mkSessionResult (sop_id <$> l.*2) [])) ∧
    in_step s' r' ∧ (s_peer s ≠ s_peer r → in_step r s → in_step r' s') ∧
    twin (n + history_cost l.*1) (s_document s') (s_document r').
Proof.
  intros message Htr Hc Hst Htw Hb Hdec Hroom Hval.
  destruct (pull_trace inc graphemes encode decode s l s' r limits Hc Hst Htr Hb Hdec) as (m & Em & Hm).
  pose proof (trace_commits _ _ _ _ _ _ Htr Hc Hb) as Hcm.
  assert (m = message) as ->.
  { rewrite (delta_is_trace inc graphemes encode s l s' r Htr Hcm Hst) in Em. by injection Em as <-. }
  split; [done|]. destruct (Hm Hval) as (r' & E & Hst' & Hback & _ & Hdoc).
  exists r'. split_and!; [done..|]. rewrite Hdoc. apply (replays_twin (s_document s)); [|done|done].
  by eapply trace_replays.
Qed.

Definition session_run (ops : list LocalOp) (s : CollaborativeDocument) : CollaborativeDocument :=
  fold_left (λ s op, (run_local op s).1) ops s.

(** C7: Pulling shows the edits.  Two sessions have seen the same operations
    and their documents differ in the cached index at most.  One of them makes
    any sequence of local edits, with commits [l] below the end of the clock
    and a codec that decodes them.  Then the delta for the other's state vector
    is exactly the committed operations in order; if the message passes the
    limits, the other session accepts it and applies every operation at once,
    each one time; afterwards the two sessions have again seen the same and
    their documents have the same blocks, frontmatter and source state.  If the
    peers differ the roles can then be exchanged. *)
Theorem session_pull edits s l r limits n :
  let s' := session_run edits s in
  let message := mkChanges (session_state_vector r) l.*2 in
  local_trace s l s' → clock_ok s → in_step s r → twin n (s_document s) (s_document r) →
  Forall (λ x : Envelope * Operation, below_max graphemes x.1) l →
  Forall (λ x : Envelope * Operation, decode (sop_payload x.2) = inr x.1) l →
  room (n + history_cost l.*1) → validate_changes message limits 0 = None →
  encode_changes_since (session_state_vector r) (s_sync s') = inr message ∧
  ∃ r', apply_remote message limits r = (r', inr (mkSessionResult (sop_id <$> l.*2) [])) ∧
    in_step s' r' ∧ (s_peer s ≠ s_peer r → in_step r s → in_step r' s') ∧
    twin (n + history_cost l.*1) (s_document s') (s_document r').
Proof. intros s' message. apply trace_pull. Qed.
End props.

(** ** A concrete exchange *)

Definition raw_envelope : Envelope :=
  wire (InsertBlock None None (mkOpId 1 1) None
          (mkSkeleton (block_id_from_op (mkOpId 1 1)) (SkRawBlock "x"))).
Definition raw_operation : Operation := mkOperation (mkOpId 1 1) [Byte.x01].
Definition raw_decode (b : list Byte.byte) : string + Envelope := inr raw_envelope.
Definition raw_session : CollaborativeDocument :=
  session_run true byte_graphemes one_byte [LInsertBlock None None (RawBlock "x")] (session_new 1).

Lemma raw_trace :
  local_trace true byte_graphemes one_byte (session_new 1) [(raw_envelope, raw_operation)] raw_session.
Proof.
  assert (raw_session = committed true byte_graphemes raw_envelope (mkOpId 1 1) 2 [Byte.x01] (session_new 1))
    as -> by (by vm_compute).
  eapply (trace_commit _ _ _ _ _ _ 2%N); [|done|constructor].
  by apply (insert_block_ok byte_graphemes (session_new 1) None None None (SkRawBlock "x")); [..|intros [_ ?]].
Defined.

Lemma raw_below :
  Forall (λ x : Envelope * Operation, below_max byte_graphemes x.1) [(raw_envelope, raw_operation)].
Proof. repeat constructor. Defined.

Lemma raw_reached : reached true byte_graphemes one_byte raw_decode raw_session [] [mkOpId 1 1].
Proof. exact (reached_local _ _ _ _ _ _ _ _ _ (reached_new _ _ _ _ 1 true) raw_trace raw_below). Defined.

Lemma in_step_new p q : in_step (session_new p) (session_new q).
Proof.
  split; try done; simpl; intros id [x Hx]; by rewrite lookup_empty in Hx.
Defined.

Lemma twin_new : twin 0 doc_new doc_new.
Proof. by split. Defined.

(** A peer that gets the second of two blocks first, and then the first. *)
Definition late_envelope : Envelope :=
  wire (InsertBlock None (Some (mkOpId 1 1)) (mkOpId 2 1) None
          (mkSkeleton (block_id_from_op (mkOpId 2 1)) (SkRawBlock "y"))).
Definition late_operation : Operation := mkOperation (mkOpId 2 1) [Byte.x02].
Definition late_decode (b : list Byte.byte) : string + Envelope :=
  inr (if decide (b = [Byte.x02]) then late_envelope else raw_envelope).
Definition receive_late (ops : list Operation) (s : CollaborativeDocument) :
    CollaborativeDocument * (SessionError + SessionApplyResult) :=
  apply_remote true byte_graphemes late_decode (mkChanges StateVectorOps.new ops) default_limits s.
Definition late_session : CollaborativeDocument := (receive_late [late_operation] (session_new 2)).1.

Lemma late_reached : reached true byte_graphemes one_byte late_decode late_session [late_operation] [].
Proof.
  exact (reached_message _ _ _ _ _ _ _ (mkChanges StateVectorOps.new [late_operation]) default_limits
    (reached_new _ _ _ _ 2 true)).
Defined.

Lemma session_invariant_witness :
  sync_pending (s_sync late_session) !! mkOpId 2 1 = Some (late_operation, 1%N) ∧
  ops (s_sync late_session) !! peek_next_id late_session = None ∧
  mkOpId 2 1 ∈ sop_id <$> [late_operation].
Proof.
  destruct (session_invariant true byte_graphemes one_byte late_decode late_session [late_operation] [] late_reached)
    as (_ & _ & Hfree & Hbuf).
  split; [by vm_compute|]. split; [apply Hfree; by apply (bool_decide_unpack _); vm_compute|].
  by apply (Hbuf (mkOpId 2 1) late_operation 1%N).
Defined.

Lemma remote_all_or_nothing_witness :
  let '(s', r) := receive_late [raw_operation] late_session in
  r = inr (mkSessionResult [mkOpId 1 1; mkOpId 2 1] []) ∧
  content (s_sync s') = content (s_sync late_session) ∪ {[mkOpId 1 1 := [Byte.x01]]} ∧
  (∃ applied, s_document s' = fold_left (λ d x, apply_envelope_to_document true byte_graphemes x.2 d) applied
     (s_document late_session) ∧
   [mkOpId 1 1; mkOpId 2 1] = fold_left (λ l x, push_new x.1 l) applied []) ∧ ready_envelopes s' = [].
Proof.
  assert (Hu : undisputed [late_operation] []) by (intros id _; apply not_elem_of_nil).
  pose proof (remote_all_or_nothing true byte_graphemes one_byte late_decode late_session [late_operation] []
    (mkChanges StateVectorOps.new [raw_operation]) default_limits late_reached Hu) as H.
  assert (E : (receive_late [raw_operation] late_session).2 = inr (mkSessionResult [mkOpId 1 1; mkOpId 2 1] []))
    by (vm_compute; reflexivity).
  unfold receive_late in *. destruct (apply_remote _ _ _ _ _ _) as [s' r']. simpl in E. subst r'.
  destruct H as (Hc & _ & (applied & Hd & Ha & _) & Hready & _). split; [done|]. split; [exact Hc|].
  split; [by exists applied|done].
Defined.

Lemma session_pull_witness :
  let message := mkChanges StateVectorOps.new [raw_operation] in
  encode_changes_since StateVectorOps.new (s_sync raw_session) = inr message ∧
  ∃ r', apply_remote true byte_graphemes raw_decode message default_limits (session_new 2) =
      (r', inr (mkSessionResult [mkOpId 1 1] [])) ∧
    in_step raw_session r' ∧ twin 2 (s_document raw_session) (s_document r').
Proof.
  destruct (session_pull true byte_graphemes one_byte raw_decode [LInsertBlock None None (RawBlock "x")]
    (session_new 1) [(raw_envelope, raw_operation)] (session_new 2) default_limits 0) as [Hm (r' & Hr & Hs & _ & Ht)].
  - exact raw_trace.
  - apply clock_ok_new.
  - apply in_step_new.
  - apply twin_new.
  - exact raw_below.
  - repeat constructor.
  - done.
  - reflexivity.
  - split; [exact Hm|]. exists r'. by split_and!.
Defined.
