(* ===== verification/SessionDoc.v ===== *)
(** * The documents of sessions are typed, and saved sessions come back

    In every session that is reached with messages whose envelopes ask for
    distinct ids that fit, each sequence in the document tree satisfies the
    invariant of the replicated sequence; so the results about lookups, edits and
    text apply to it, and so does the round trip of snapshots. *)

From S2P Require Import Prelude Core Sequence SequenceOrder SequenceInv SequenceRefine SequenceConv SequenceProps Mark.
From S2P Require Import SequenceView MarkOps Table Frontmatter Codec Text Block Document DocumentCache DocumentTree Sync SyncInv Draft.
From S2P Require Import SessionWire TreeInv Session SessionTrace SessionLocal SessionClock SessionRemote.
From S2P Require Import Snapshot SnapshotProps SessionProps.

(** ** Typed documents have well-formed trees *)

Lemma block_tree_wf b : block_wf b → ∀ e x, x ∈ child_seqs e (blk_kind b) → tree_wf x.2.
Proof.
  assert (Hlive : ∀ s, sequence_inv s → (∀ c, holds c s → block_wf c) →
    (∀ c, holds c s → ∀ e x, x ∈ child_seqs e (blk_kind c) → tree_wf x.2) → tree_wf s).
  { intros s Hs Hb Hc. assert (Hl : ∀ e c, (e, c) ∈ live_elems s → holds c s).
    { intros e c (el & He & _ & Hv)%elem_of_live. by apply (of_elem (λ v, holds v s) s el). }
    constructor; [apply Hs| |].
    - intros e c st items mv Hin Hk. apply Hl, Hb, block_wf_kind in Hin. rewrite Hk in Hin. apply Hin.
    - intros e c x Hin. by eapply Hc, Hl. }
  induction 1 as [b text Hk _|b ? ? ? Hk|b ? Hk|b t Hk Ht|b ch Hk Hs Hc IH|b st items mv Hk Hs Hi Hc IH]; intros e x.
  1: destruct (blk_kind b); try discriminate Hk; intros H%not_elem_of_nil; destruct H.
  1-3: rewrite Hk; intros H%not_elem_of_nil; destruct H.
  - rewrite Hk. intros ->%list_elem_of_singleton. by apply Hlive.
  - rewrite Hk. intros ([i it] & -> & Hin)%list_elem_of_fmap. simpl.
    assert (Hh : holds it items).
    { apply elem_of_live in Hin as (el & He & _ & Hv). by apply (of_elem (λ v, holds v items) items el). }
    apply Hlive; eauto.
Qed.

Lemma document_tree_wf d : document_wf d → tree_wf (doc_blocks d).
Proof.
  intros Hd. set (b := mkBlock 0%N (mkOpId 0 0) (mkOpId 0 0) StateVectorOps.new (BlockQuote (doc_blocks d)) markset_new).
  assert (Hb : block_wf b) by (by apply block_wf_kind).
  apply (block_tree_wf b Hb (mkOpId 0 0) (InBlockQuote (mkOpId 0 0), doc_blocks d)). by left.
Qed.

(** ** Typed documents are saved *)

Lemma element_map_skeleton {T} (h : T → T) (els : list (Element T)) :
  NoDup (elem_id <$> els) → same_skeleton (element_map_of els) (element_map_of (map (element_map h) els)).
Proof.
  intros Hnd id. assert (Hid : ∀ e, elem_id (element_map h e) = elem_id e) by by intros [].
  assert (Hnd' : NoDup (elem_id <$> map (element_map h) els)).
  { change (map ?f ?l) with (f <$> l). rewrite <-list_fmap_compose.
    erewrite list_fmap_ext; [exact Hnd|]. intros ? ? _. apply Hid. }
  destruct (element_map_of els !! id) as [e|] eqn:E.
  - apply element_map_lookup in E as [Hin <-]; [|done].
    rewrite (proj2 (element_map_lookup (map (element_map h) els) (elem_id e) (element_map h e) Hnd')); [by destruct e|].
    split; [by apply list_elem_of_fmap_2|apply Hid].
  - destruct (element_map_of (map _ _) !! id) as [e|] eqn:E'; [|done].
    apply element_map_lookup in E' as [(e0 & -> & Hin)%list_elem_of_fmap <-]; [|done].
    by rewrite (proj2 (element_map_lookup els _ e0 Hnd)) in E by by rewrite Hid.
Qed.

(** A sequence that is saved and restored with other values. *)
Lemma of_reopened {T U} inc (f : T → U) (g : U → T) (P Q : T → Prop) s :
  seq_of P s → (∀ v, P v → Q (g (f v))) → seq_of Q (sequence_from_dto inc g (sequence_to_dto f s)).
Proof.
  intros [Hs HP] HQ. set (h := λ v, g (f v)). set (els := map (element_map h) (seq_elements s)).
  assert (E : sequence_from_dto inc g (sequence_to_dto f s) =
      from_elements_and_pending inc els (map (op_map h) (pending_ops s))).
  { unfold sequence_to_dto, sequence_from_dto. rewrite pending_ops_map. unfold els.
    destruct s as [els0 ? ? ?]; simpl. rewrite !map_map. f_equal; apply map_ext; [|by intros []].
    intros [? [] ? ?]; done. }
  rewrite E. unfold from_elements_and_pending. apply of_fold.
  - intros op s' Hop. apply list_elem_of_fmap in Hop as (op' & -> & Hop). intros Hs'. apply of_apply; [done|].
    destruct op' as [after id v ro|t id]; [|done]. intros ? [= <-]. apply HQ, HP. right.
    exists (Insert after id v ro). split; [|done]. apply elem_of_pending_ops in Hop; [|apply Hs].
    destruct after as [a|]; [|done]. simpl in Hop. exists a.
    destruct (pending_inserts s !! a) as [l|] eqn:El; simpl in Hop; [|by apply elem_of_nil in Hop].
    exists l. by split; [left|].
  - destruct Hs as [[Hnd Hidx (out & Ho & Hout & Hdom)] Hc _]. unfold element_ids in *.
    pose proof (element_map_skeleton h (seq_elements s) Hnd) as Hsk. fold els in Hsk.
    assert (Hids : elem_id <$> els = elem_id <$> seq_elements s).
    { unfold els. change (map ?f ?l) with (f <$> l). rewrite <-list_fmap_compose. apply list_fmap_ext. by intros ? [] _. }
    assert (Hord : ∀ o, Order (emap s) o → Order (element_map_of els) o).
    { intros o. apply order_skeleton; [apply element_map_keyed..|done]. }
    split; [split|].
    + split; unfold element_ids; simpl.
      * by rewrite Hids.
      * intros id i. apply rebuild_index_lookup. unfold element_ids. simpl. by rewrite Hids.
      * exists out. split_and!; [by apply Hord|done|]. intros id. rewrite Hdom. specialize (Hsk id).
        unfold emap. simpl.
        rewrite <-(fmap_is_Some skeleton), Hsk. apply fmap_is_Some.
    + unfold canonical, element_ids, emap. simpl. rewrite Hids. apply Hord, Hc.
    + split; intros ? ?; simpl; by rewrite lookup_empty.
    + intros v [(id & e & He & Hv)|(op & (k & l & [H|H] & _) & _)]; [|exfalso; exact (lookup_empty_Some _ _ H)..].
      simpl in He. apply element_map_lookup in He as [Hin _]; [|simpl; by rewrite Hids].
      simpl in Hin. apply list_elem_of_fmap in Hin as ([i [w|] af ro] & -> & Hin); [|done]. injection Hv as <-.
      apply HQ, HP. left. exists i, (mkElement i (Some w) af ro). split; [|done]. by apply element_map_lookup.
Qed.

Lemma inv_reopened {T U} inc (f : T → U) (g : U → T) s :
  sequence_inv s → sequence_inv (sequence_from_dto inc g (sequence_to_dto f s)).
Proof. intros Hs. by eapply of_inv, (of_reopened inc f g (λ _, True) (λ _, True)); [apply of_plain|]. Qed.

#[local] Arguments sequence_to_dto : simpl never.
#[local] Arguments sequence_from_dto : simpl never.

Lemma block_reopened inc b : block_wf b → block_wf (block_from_dto inc (block_to_dto b)).
Proof.
  rewrite (block_wf_kind (block_from_dto _ _)).
  induction 1 as [b text Hk Hs|b ? ? ? Hk|b ? Hk|b t Hk [Hc Hr]|b ch Hk Hs Hch IH|b st items mv Hk Hs Hi Hic IH];
    destruct b as [id elem op obs kind marks]; simpl in *.
  - destruct kind; simplify_eq/=; by apply inv_reopened.
  - by subst.
  - by subst.
  - subst. by split; apply inv_reopened.
  - subst. apply (of_reopened _ _ _ (λ c, holds c ch)); [by split|]. intros c Hc. by apply block_wf_kind, IH.
  - subst. apply (of_reopened _ _ _ (λ i, holds i items)); [by split|]. intros [iid ie tk tko tob pob s] Hin.
    unfold item_wf. simpl. apply (of_reopened _ _ _ (λ c, holds c s)).
    + split; [|done]. by apply (Hi _ Hin).
    + intros c Hc. by apply block_wf_kind, (IH _ c Hin).
Qed.

Lemma document_reopened inc d : document_wf d → document_wf (into_document inc (from_document d)).
Proof.
  intros [Hs Hb]. unfold document_wf, into_document, from_document, doc_blocks at 1. simpl.
  apply (of_reopened _ _ _ (λ c, holds c (doc_blocks d))); [by split|]. intros c Hc. by apply block_reopened, Hb.
Qed.

(** A typed document is settled if its buffers are fresh. *)
Lemma inv_settled {T} (s : Sequence T) : sequence_inv s → fresh_buffer s → settled s.
Proof.
  intros Hs Hf. split; [done|]. intros op Hb. pose proof (buffered_absent op (rga_of s) (inv_pending _ Hs) Hb) as H.
  unfold rga_ready. simpl in H. destruct op as [[a|] id v ro|t id]; simpl; [|done|by rewrite H].
  rewrite (Hf (Some a) id v ro); [by rewrite H|].
  destruct (rga_inserts (rga_of s) !! a) as [l|] eqn:El; simpl in Hb, El; rewrite El in Hb; [|by apply elem_of_nil in Hb].
  unfold pending_ops. apply elem_of_app. left. apply list_elem_of_In, in_concat. exists l. rewrite <-!list_elem_of_In.
  split; [|done]. apply elem_of_btree_values. eauto.
Qed.

Lemma value_holds {T} (s : Sequence T) v : sequence_inv s → value_in v s → holds v s.
Proof.
  intros Hs [(e & He & Hv)|(after & id & ro & Hop)].
  - left. exists (elem_id e), e. split; [|done]. by apply emap_elem_of.
  - right. exists (Insert after id v ro). split; [|done].
    apply elem_of_pending_ops in Hop; [|apply Hs]. destruct after as [a|]; [|done]. simpl in Hop.
    destruct (pending_inserts s !! a) as [l|] eqn:E; simpl in Hop; [|by apply elem_of_nil in Hop].
    exists a, l. by split; [left|].
Qed.

Lemma block_wf_settled b : block_wf b → block_all (@fresh_buffer) b → block_settled b.
Proof.
  induction 1 as [b text Hk Hs|b ? ? ? Hk|b ? Hk|b t Hk [Hc Hr]|b ch Hk Hs _ IH|b st items mv Hk Hs Hi _ IH];
    (destruct 1 as [b text' Hk' Hf|b ? ? ? Hk'|b ? Hk'|b t' Hk' Hf Hf'|b ch' Hk' Hf Hf'|b ? items' ? Hk' Hf Hfi Hf'];
       try (exfalso; rewrite Hk' in Hk; discriminate Hk)); rewrite ?Hk in Hk'; simplify_eq/=.
  - by eapply all_text, inv_settled.
  - by eapply all_code.
  - by eapply all_raw.
  - by eapply all_table; [|apply inv_settled..].
  - eapply all_quote; [done|by apply inv_settled|]. intros c Hc. apply IH; [by apply value_holds|auto].
  - eapply all_list; [done|by apply inv_settled|intros i Hin; apply inv_settled; [|auto]; by apply Hi, value_holds|].
    intros i c Hin Hc. pose proof (value_holds _ _ Hs Hin) as Hh.
    apply (IH i c); [done|by apply value_holds; [apply Hi|]|by eapply Hf'].
Qed.

Lemma document_wf_settled d : document_wf d → document_fresh d → document_settled d.
Proof.
  intros [Hs Hb] [Hf Hfb]. split; [by apply inv_settled|]. intros b Hin. apply block_wf_settled; [|auto].
  by apply Hb, value_holds.
Qed.

(** ** Typed sessions *)

#[local] Arguments Session.take_deferred : simpl never.
#[local] Arguments Session.apply_or_defer : simpl never.
#[local] Arguments observed_frontier_is_ready : simpl never.
#[local] Arguments ready_envelopes : simpl never.

Section typed.
Context (inc : bool) (graphemes : string → list string).
Context (encode : Envelope → string + list Byte.byte) (decode : list Byte.byte → string + Envelope).

Abbreviation env_wf := (env_wf graphemes).
Abbreviation apply_or_defer := (apply_or_defer inc graphemes).
Abbreviation take_deferred := (take_deferred inc graphemes).
Abbreviation integrate := (integrate inc graphemes decode).
Abbreviation apply_remote := (apply_remote inc graphemes decode).

Definition payload_wf (op : Operation) : Prop := ∀ env, decode (sop_payload op) = inr env → env_wf env.

(** The document, the waiting envelopes and the buffered operations. *)
Record typed (s : CollaborativeDocument) : Prop := {
  td_document : document_wf (s_document s);
  td_envelopes id env : s_pending_envelopes s !! id = Some env → env_wf env;
  td_buffer id op span : sync_pending (s_sync s) !! id = Some (op, span) → payload_wf op;
}.

Lemma typed_envelopes s m :
  typed s → (∀ id env, m !! id = Some env → env_wf env) → typed (set_pending_envelopes m s).
Proof. intros [Hd _ Hb] Hm. by split. Qed.
Lemma typed_delete s id : typed s → typed (set_pending_envelopes (delete id (s_pending_envelopes s)) s).
Proof.
  intros Hs. apply typed_envelopes; [done|]. intros i env [_ Hi]%lookup_delete_Some. by eapply td_envelopes.
Qed.
Lemma typed_defer s id env : typed s → env_wf env → typed (defer_envelope id env s).
Proof.
  intros Hs He. apply typed_envelopes; [done|].
  intros i e [[_ <-]|[_ Hi]]%lookup_insert_Some; [done|by eapply td_envelopes].
Qed.
Lemma typed_sync s st :
  typed s → (∀ id op span, sync_pending st !! id = Some (op, span) → payload_wf op) → typed (set_sync st s).
Proof. intros [Hd He _] Hb. by split. Qed.

Lemma typed_apply id env s r : typed s → env_wf env → typed (apply_or_defer id env (s, r)).1.
Proof.
  intros Hs He. unfold Session.apply_or_defer. destruct (observed_frontier_is_ready _ _); [|by apply typed_defer].
  destruct Hs as [Hd Hp Hb]. split; [|done|done]. by apply apply_envelope_wf.
Qed.

Lemma typed_take id s r : typed s → typed (take_deferred (s, r) id).1.
Proof.
  intros Hs. unfold Session.take_deferred. destruct (s_pending_envelopes s !! id) as [env|] eqn:E; [|done].
  apply typed_apply; [by apply typed_delete|by eapply td_envelopes].
Qed.

Lemma typed_deferred n acc : typed acc.1 → typed (drain_deferred_loop inc graphemes n acc).1.
Proof.
  assert (Hfold : ∀ l acc, typed acc.1 → typed (fold_left take_deferred l acc).1).
  { induction l as [|i l IH]; intros [s r] Hs; simpl; [done|]. by apply IH, typed_take. }
  revert acc. induction n as [|n IH]; intros acc Hs; simpl; [done|].
  destruct (ready_envelopes acc.1) as [|i l]; [done|]. apply IH. exact (Hfold (i :: l) acc Hs).
Qed.

Lemma typed_promote s :
  typed s →
  typed (set_sync (promote_ready_pending (s_sync s)).1 s) ∧
  Forall payload_wf (promote_ready_pending (s_sync s)).2.
Proof.
  intros Hs. enough ((∀ id op span, sync_pending (promote_ready_pending (s_sync s)).1 !! id = Some (op, span) → payload_wf op) ∧
    Forall payload_wf (promote_ready_pending (s_sync s)).2) as [Hb Hp] by (split; [by apply typed_sync|done]).
  apply (promote_ind (λ st pr, (∀ id op span, sync_pending st !! id = Some (op, span) → payload_wf op) ∧
    Forall payload_wf pr)); [|split; [apply td_buffer, Hs|constructor]].
  intros st pr id op span [Hb Hp] Hid _. split.
  - intros i o sp Hi. simpl in Hi. apply lookup_delete_Some in Hi as [_ Hi]. by eapply Hb.
  - apply Forall_app. split; [done|]. apply Forall_singleton. by eapply Hb.
Qed.

Lemma typed_promoted_loop promoted s r :
  typed s → Forall payload_wf promoted → typed (drain_promoted_loop inc graphemes decode promoted (s, r)).1.
Proof.
  revert s r. induction promoted as [|op l IH]; intros s r Hs Hall; simpl; [done|].
  apply Forall_cons in Hall as [Hop Hall]. destruct (s_pending_envelopes s !! sop_id op) as [env|] eqn:E.
  - pose proof (typed_apply (sop_id op) env (set_pending_envelopes (delete (sop_id op) (s_pending_envelopes s)) s) r) as H.
    destruct (apply_or_defer _ _ _) as [s1 r1]. apply IH; [|done].
    apply H; [by apply typed_delete|by eapply td_envelopes].
  - destruct (decode (sop_payload op)) as [m|env] eqn:Ed; [done|].
    pose proof (typed_apply (sop_id op) env s r Hs (Hop env Ed)) as H.
    destruct (apply_or_defer _ _ _) as [s1 r1]. by apply IH.
Qed.

Lemma typed_integrate r op env s :
  typed s → payload_wf op → env_wf env → typed (integrate r (op, env) s).1.
Proof.
  intros Hs Hop He. unfold Session.integrate, apply_one. pose proof (td_buffer s Hs) as Hb.
  destruct (decide _); [by apply typed_sync|]. destruct (decide _); [by apply typed_defer; [apply typed_sync|]|].
  destruct (span_ready _ _ _).
  - pose proof (typed_apply (sop_id op) env (set_sync (log_op op (s_sync s)) s) r) as H1.
    destruct (apply_or_defer _ _ _) as [s1 r1]. unfold drain_promoted.
    assert (Hs1 : typed s1) by (apply H1; [by apply typed_sync|done]).
    destruct (typed_promote s1 Hs1) as [Hs2 Hall]. destruct (promote_ready_pending (s_sync s1)) as [st promoted].
    pose proof (typed_promoted_loop promoted (set_sync st s1) r1 Hs2 Hall) as H3.
    destruct (drain_promoted_loop _ _ _ _ _) as [s3 [e|r3]]; [done|].
    pose proof (typed_deferred 2 (s3, r3) H3) as H4. unfold drain_deferred.
    by destruct (drain_deferred_loop _ _ _ _).
  - apply typed_defer; [|done]. apply typed_sync; [done|].
    intros id o sp Hi. simpl in Hi. apply lookup_insert_Some in Hi as [[_ [= <- _]]|[_ Hi]]; [done|by eapply Hb].
Qed.

Lemma typed_fold l r s :
  typed s → Forall (λ x : Operation * Envelope, payload_wf x.1 ∧ env_wf x.2) l → typed (sm_fold integrate l r s).1.
Proof.
  revert r s. induction l as [|[op env] l IH]; intros r s Hs Hall; [done|]. cbn [sm_fold]. unfold mbind, SM_bind.
  apply Forall_cons in Hall as [[Hop He] Hall]. pose proof (typed_integrate r op env s Hs Hop He) as H1.
  destruct (integrate r (op, env) s) as [s1 [e|r1]]; [done|]. by apply IH.
Qed.

Lemma prepared_wf s m prepared :
  prepare_ops graphemes decode s (msg_ops m) = inr prepared → Forall payload_wf (unlogged m s) →
  Forall (λ x : Operation * Envelope, payload_wf x.1 ∧ env_wf x.2) prepared.
Proof.
  intros [Hids Hdec]%prepare_ops_spec Hw. change (prepared.*1 = unlogged m s) in Hids.
  rewrite <-Hids in Hw. rewrite Forall_fmap in Hw. eapply Forall_impl; [apply Forall_and; exact (conj Hw Hdec)|].
  simpl. intros [op env] [Hop He]. split; [done|]. by apply Hop.
Qed.

Lemma typed_remote m limits s : typed s → Forall payload_wf (unlogged m s) → typed (apply_remote m limits s).1.
Proof.
  intros Hs Hm. unfold Session.apply_remote. destruct (validate_changes _ _ _); [done|].
  destruct (prepare_ops _ _ _ _) as [e|prepared] eqn:Hprep; [done|].
  pose proof (typed_fold prepared (mkSessionResult [] []) s Hs (prepared_wf _ _ _ Hprep Hm)) as H1.
  destruct (sm_fold _ _ _ _) as [s1 [e|r1]]; [done|].
  pose proof (typed_deferred 2 (s1, r1) H1) as H2. unfold drain_deferred. by destruct (drain_deferred_loop _ _ _ _).
Qed.

(** ** Local operations *)

Lemma commit_env_wf s env id next :
  commit_ok graphemes s env id next → below_max graphemes env → document_wf (s_document s) → env_wf env.
Proof.
  intros Hok Hb Hd. split; [by eapply ok_units|]. unfold below_max, new_ids in Hb.
  destruct env as [v [op]]. simpl in *. destruct op; try done. apply Forall_cons in Hb as [Hb _]. exact Hb.
Qed.

Lemma typed_trace s l s' :
  local_trace inc graphemes encode s l s' → Forall (λ x : Envelope * Operation, below_max graphemes x.1) l →
  typed s → typed s'.
Proof.
  induction 1 as [s|s d l s' Hd _ IH|s env id next payload l s' Hok _ _ IH]; intros Hb Hs; [done|..].
  - apply IH; [done|]. destruct Hs as [Hw He Hp]. split; [|done|done]. by destruct Hd as [-> | ->].
  - apply Forall_cons in Hb as [Hb Hl]. apply IH; [done|]. destruct Hs as [Hw He Hp]. split; [|done|done].
    apply apply_envelope_wf; [|done]. by eapply commit_env_wf.
Qed.

(** ** Reachable sessions *)

Abbreviation reached := (reached inc graphemes encode decode).

Lemma typed_checkpoint request s : typed s → typed (checkpoint_history request s).1.
Proof.
  intros Hs. unfold checkpoint_history. pose proof (checkpoint_facts request (s_sync s)) as H.
  destruct (checkpoint request (s_sync s)) as [st r]. destruct H as (Hp & _). simpl in *.
  apply typed_sync; [done|]. rewrite Hp. apply td_buffer, Hs.
Qed.

Lemma typed_restored s snap s' :
  decodable graphemes decode (s_sync s) → save_snapshot encode s = inr snap →
  (∀ id env p, s_pending_envelopes s !! id = Some env → encode env = inr p → decode p = inr env) →
  restore_from_snapshot inc graphemes decode snap = inr s' → typed s → typed s'.
Proof.
  intros Hd Hsave Hcodec Hr [Hdoc He Hb].
  destruct (restore_reopens inc graphemes encode decode s snap s' Hd Hsave Hr) as [_ _ Ed _ _ Eb Ee]. split.
  - rewrite Ed. by apply document_reopened.
  - intros id env Hi. apply Ee in Hi as (env0 & p & H0 & H1 & H2). rewrite (Hcodec id env0 p H0 H1) in H2.
    injection H2 as <-. by eapply He.
  - intros id op span Hi. apply Eb in Hi as [Hi _]. by eapply Hb.
Qed.

Lemma reached_typed s received drawn : reached s received drawn → Forall payload_wf received → typed s.
Proof.
  induction 1 as [p b|s rc dr l s' _ IH Ht Hb|s rc dr src _ IH|s rc dr m limits _ IH|s rc dr request _ IH
    |s rc dr b _ IH|s rc dr snap s' Hs IH Hsave Hcodec Hr|s rc dr p _ IH _]; intros Hrc.
  - split; simpl; [apply document_new_wf|intros ? ? H; by rewrite lookup_empty in H|].
    intros ? ? ? H. simpl in H. by rewrite lookup_empty in H.
  - by eapply typed_trace; [..|apply IH].
  - by destruct (IH Hrc).
  - apply Forall_app in Hrc as [Hrc Hm]. by apply typed_remote; [apply IH|].
  - by apply typed_checkpoint, IH.
  - by destruct (IH Hrc).
  - eapply typed_restored; [|done..|by apply IH]. eapply si_decodable, reached_inv, Hs.
  - by destruct (IH Hrc).
Qed.

(** C13: The documents of sessions are typed.  A session is reached by local
    operations below the end of the clock, checkpoints, restorations, changes of
    the peer or of the unit mode, and messages; every operation that a message
    brought is well formed: a split it encodes names distinct units, and the ids
    of a block it inserts fit their counters.  Then every sequence in the block
    tree, at any depth and including the blocks and items that wait in a buffer,
    has unique ids, an index that agrees with the vector, anchors that form a
    forest, document order, and buffers that hold only operations whose anchor or
    target is missing; so the tree is well formed for lookups.  (Messages that
    are accepted although a split repeats a unit break this:
    [repeated_unit_is_accepted].) *)
Theorem session_documents_typed s received drawn :
  reached s received drawn → Forall payload_wf received →
  document_wf (s_document s) ∧ tree_wf (doc_blocks (s_document s)).
Proof.
  intros Hr Hw. destruct (reached_typed s received drawn Hr Hw) as [Hd _ _]. split; [done|].
  by apply document_tree_wf.
Qed.

(** A session whose history is well formed and undisputed. *)
Definition healthy (s : CollaborativeDocument) : Prop :=
  ∃ received drawn, reached s received drawn ∧ Forall payload_wf received ∧ undisputed received drawn.

Lemma healthy_kept s :
  healthy s → document_fresh (s_document s) → document_settled (s_document s) ∧ buffer_kept graphemes decode (s_sync s).
Proof.
  intros (received & drawn & Hr & Hw & Hu) Hf. pose proof (reached_inv _ _ _ _ s received drawn Hr) as Hi. split.
  - apply document_wf_settled; [|done]. by eapply td_document, reached_typed.
  - apply decodable_kept; [apply Hi|by eapply undisputed_apart].
Qed.

(** C14: Restoring a saved session.  The session is reached as above, with well
    formed messages and an undisputed history; no sequence of the document buffers
    an insertion of an element that it already holds (one is dropped when it is
    replayed), and the codec decodes the waiting envelopes it encodes.  If the clock is ahead of every own id in what is saved,
    the snapshot restores to the same peer, clock, unit mode, blocks, frontmatter,
    log, buffer, frontier, floor and epoch, with the source regions indexed
    again.  What waits is kept for the logged operations only: the envelopes of
    buffered operations are dropped, to be decoded again from the buffer, and the
    outbox and the marks of sent operations are empty.  If the clock is not ahead,
    restoring fails with [ClockBehind] and these two counters. *)
Theorem session_snapshot_roundtrip s received drawn snap :
  reached s received drawn → Forall payload_wf received → undisputed received drawn →
  document_fresh (s_document s) →
  (∀ id env p, s_pending_envelopes s !! id = Some env → encode env = inr p → decode p = inr env) →
  save_snapshot encode s = inr snap →
  match restore_from_snapshot inc graphemes decode snap with
  | inl e => (s_next_counter s ≤ saved_max s)%N ∧ e = ClockBehind (s_peer s) (s_next_counter s) (saved_max s)
  | inr s' => (saved_max s < s_next_counter s)%N ∧ restored s s'
  end.
Proof.
  intros Hr Hw Hu Hf Hcodec Hsave. destruct (healthy_kept s) as [Hd Hb]; [by exists received, drawn|done|].
  by apply (restore_saved inc graphemes encode decode).
Qed.
End typed.

(** ** A session that waits *)

Lemma fresh_nil {T} (s : Sequence T) : pending_ops s = [] → fresh_buffer s.
Proof. intros E after id v ro. rewrite E. by intros ?%elem_of_nil. Qed.

(** Session 3 has a block of its own.  Peer 2 has replaced a block that session 3
    does not know yet, and the second operation of peer 1 comes before the first. *)
Definition own_envelope : Envelope :=
  wire (InsertBlock None None (mkOpId 1 3) None (mkSkeleton (block_id_from_op (mkOpId 1 3)) (SkRawBlock "w"))).
Definition replace_envelope : Envelope :=
  wire (ReplaceRawBlock (mkOpId 1 1) (block_id_from_op (mkOpId 1 1)) (mkOpId 1 2) "z"
          (observe_vector (mkOpId 1 1) StateVectorOps.new)).
Definition sample_encode (env : Envelope) : string + list Byte.byte :=
  inr match env_body env with
      | Doc (ReplaceRawBlock _ _ _ _ _) => [Byte.x03]
      | Doc (InsertBlock _ _ (mkOpId 2 1) _ _) => [Byte.x02]
      | _ => [Byte.x01]
      end.
Definition sample_decode (b : list Byte.byte) : string + Envelope :=
  inr (if decide (b = [Byte.x03]) then replace_envelope
       else if decide (b = [Byte.x02]) then late_envelope else own_envelope).
Definition sample_operations : list Operation := [mkOperation (mkOpId 1 2) [Byte.x03]; late_operation].
Definition own_session : CollaborativeDocument :=
  session_run true byte_graphemes sample_encode [LInsertBlock None None (RawBlock "w")] (session_new 3).
Definition sample_session : CollaborativeDocument :=
  (apply_remote true byte_graphemes sample_decode (mkChanges StateVectorOps.new sample_operations) default_limits
     own_session).1.

Lemma sample_reached :
  reached true byte_graphemes sample_encode sample_decode sample_session sample_operations [mkOpId 1 3].
Proof.
  assert (Ht : local_trace true byte_graphemes sample_encode (session_new 3)
      [(own_envelope, mkOperation (mkOpId 1 3) [Byte.x01])] own_session).
  { assert (own_session = committed true byte_graphemes own_envelope (mkOpId 1 3) 2 [Byte.x01] (session_new 3))
      as -> by (by vm_compute).
    eapply (trace_commit _ _ _ _ _ _ 2%N); [|done|constructor].
    by apply (insert_block_ok byte_graphemes (session_new 3) None None None (SkRawBlock "w")); [..|intros [_ ?]]. }
  refine (reached_message _ _ _ _ own_session [] [mkOpId 1 3] (mkChanges StateVectorOps.new sample_operations)
    default_limits _).
  exact (reached_local _ _ _ _ _ _ _ _ _ (reached_new _ _ _ _ 3 true) Ht ltac:(repeat constructor)).
Defined.

Lemma sample_payloads : Forall (payload_wf byte_graphemes sample_decode) sample_operations.
Proof.
  repeat constructor; vm_compute in H; injection H as <-; vm_compute; done.
Defined.

Lemma sample_undisputed : undisputed sample_operations [mkOpId 1 3].
Proof.
  assert (Forall (λ id, id ∉ [mkOpId 1 3]) (sop_id <$> sample_operations)) as Hall
    by (apply (bool_decide_unpack _); vm_compute; exact I).
  intros id Hid. rewrite Forall_forall in Hall. by apply Hall.
Defined.

Lemma sample_fresh : document_fresh (s_document sample_session).
Proof.
  assert (E : pending_ops (doc_blocks (s_document sample_session)) = [] ∧
    omap elem_value (seq_elements (doc_blocks (s_document sample_session))) =
      [mkBlock (block_id_from_op (mkOpId 1 3)) (mkOpId 1 3) (mkOpId 1 3) StateVectorOps.new (RawBlock "w") markset_new])
    by (by vm_compute).
  destruct E as [Ep Ee]. split; [by apply fresh_nil|]. intros b [(e & He & Hv)|(after & id & ro & Hop)].
  - assert (Hb : b ∈ omap elem_value (seq_elements (doc_blocks (s_document sample_session))))
      by (apply list_elem_of_omap; eauto).
    rewrite Ee in Hb. apply list_elem_of_singleton in Hb as ->. by eapply all_raw.
  - rewrite Ep in Hop. by apply elem_of_nil in Hop.
Defined.

Lemma sample_codec id env p :
  s_pending_envelopes sample_session !! id = Some env → sample_encode env = inr p → sample_decode p = inr env.
Proof.
  assert (E : s_pending_envelopes sample_session =
    {[mkOpId 1 2 := replace_envelope; mkOpId 2 1 := late_envelope]}) by (by vm_compute).
  rewrite E. intros [[_ <-]|[_ [_ <-]%lookup_singleton_Some]]%lookup_insert_Some [= <-]; by vm_compute.
Defined.

Lemma session_documents_typed_witness :
  length (blocks_in_order (s_document sample_session)) = 1 ∧
  document_wf (s_document sample_session) ∧ tree_wf (doc_blocks (s_document sample_session)).
Proof.
  split; [by vm_compute|].
  exact (session_documents_typed true byte_graphemes sample_encode sample_decode sample_session sample_operations
    [mkOpId 1 3] sample_reached sample_payloads).
Defined.

(** It is saved with a block, a logged and a waiting operation and a buffered one. *)
Lemma session_snapshot_roundtrip_witness :
  length (blocks_in_order (s_document sample_session)) = 1 ∧
  btree_keys (ops (s_sync sample_session)) = [mkOpId 1 2; mkOpId 1 3] ∧
  btree_keys (sync_pending (s_sync sample_session)) = [mkOpId 2 1] ∧
  btree_keys (s_pending_envelopes sample_session) = [mkOpId 1 2; mkOpId 2 1] ∧
  ∃ snap s', save_snapshot sample_encode sample_session = inr snap ∧
    restore_from_snapshot true byte_graphemes sample_decode snap = inr s' ∧ restored sample_session s' ∧
    btree_keys (s_pending_envelopes s') = [mkOpId 1 2].
Proof.
  do 4 (split; [by vm_compute|]). destruct (save_snapshot sample_encode sample_session) as [e|snap] eqn:Hsave; [done|].
  pose proof (session_snapshot_roundtrip true byte_graphemes sample_encode sample_decode sample_session
    sample_operations [mkOpId 1 3] snap sample_reached sample_payloads sample_undisputed sample_fresh
    sample_codec Hsave) as H.
  destruct (restore_from_snapshot _ _ _ snap) as [e|s'] eqn:Hr.
  - destruct H as [Hle _]. exfalso. revert Hle. by vm_compute.
  - exists snap, s'. destruct H as [_ H]. split; [done|]. split; [done|]. split; [exact H|].
    rewrite (rs_waiting _ _ H). by vm_compute.
Defined.

(** ** A split that repeats a unit *)

(** The condition on splits is needed: the checks of [apply_remote] let through
    a split that names a unit twice, and the new block then has two elements
    with one id. *)
Definition twice_envelope (b : list Byte.byte) : string + Envelope :=
  let unit := mkMovedUnit (mkOpId 2 1) (mkOpId 2 1) "a" in
  inr (if decide (b = [Byte.x01]) then
    wire (InsertBlock None None (mkOpId 1 1) None
            (mkSkeleton (block_id_from_op (mkOpId 1 1)) (SkParagraph EmptyString)))
  else wire (SplitBlock None (mkOpId 1 1) (mkOpId 2 1) (block_id_from_op (mkOpId 2 1)) None
               WireParagraph [unit; unit])).

Theorem repeated_unit_is_accepted :
  let message := mkChanges StateVectorOps.new
    [mkOperation (mkOpId 1 1) [Byte.x01]; mkOperation (mkOpId 2 1) [Byte.x02]] in
  let '(s, r) := apply_remote true byte_graphemes twice_envelope message default_limits (session_new 2) in
  r = inr (mkSessionResult [mkOpId 1 1; mkOpId 2 1] []) ∧
  (λ b, element_ids <$> block_text_seq (blk_kind b)) <$> blocks_in_order (s_document s) =
    [Some []; Some [mkOpId 2 1; mkOpId 2 1]].
Proof. vm_compute. done. Qed.
