(* ===== verification/Storage.v ===== *)
(** * Storage

    Models [src/src/storage/mod.rs]: snapshots in two slots of a superblock and a
    segment, operation segments, compaction and tombstones.

    An operation is a program of disk actions, so that a crash can be placed
    between any two of them or inside one: a rename is atomic, a file that is
    being written may hold anything.  [crc32fast] and [rkyv] are parameters, and
    so is the order in which a directory is listed.  Errors of the file system
    other than a missing file are not modelled. *)

From S2P Require Import Prelude.
From Stdlib Require Import Strings.Byte.

#[export] Instance byte_eq_decision : EqDecision Byte.byte := Byte.byte_eq_dec.

Abbreviation bytes := (list Byte.byte) (only parsing).

(** ** The disk *)

Inductive Dir := Root | Ops | Archive.

Record Disk := mkDisk {
  disk_root : gmap string bytes;
  disk_ops : option (gmap string bytes);
  disk_archive : option (gmap string bytes);
}.
Definition empty_disk : Disk := mkDisk ∅ None None.

Definition dir_of (dir : Dir) (d : Disk) : option (gmap string bytes) :=
  match dir with Root => Some (disk_root d) | Ops => disk_ops d | Archive => disk_archive d end.
Definition alter_dir (dir : Dir) (f : gmap string bytes → gmap string bytes) (d : Disk) : Disk :=
  match dir with
  | Root => mkDisk (f (disk_root d)) (disk_ops d) (disk_archive d)
  | Ops => mkDisk (disk_root d) (f <$> disk_ops d) (disk_archive d)
  | Archive => mkDisk (disk_root d) (disk_ops d) (f <$> disk_archive d)
  end.
(** [fs::read]; [None] when there is no such file. *)
Definition read_file (dir : Dir) (name : string) (d : Disk) : option bytes :=
  dir_of dir d ≫= λ m, m !! name.

Definition temp_name (name : string) : string := String.append name ".tmp".

Inductive Action :=
  | CreateDir (dir : Dir)
  | WriteFile (dir : Dir) (name : string) (b : bytes)
  | Rename (dir : Dir) (name : string) (dir' : Dir) (name' : string).

Definition exec (a : Action) (d : Disk) : Disk :=
  match a with
  | CreateDir Root => d
  | CreateDir Ops => mkDisk (disk_root d) (Some (default ∅ (disk_ops d))) (disk_archive d)
  | CreateDir Archive => mkDisk (disk_root d) (disk_ops d) (Some (default ∅ (disk_archive d)))
  | WriteFile dir name b => alter_dir dir <[name := b]> d
  | Rename dir name dir' name' =>
    match read_file dir name d with
    | Some b => alter_dir dir' <[name' := b]> (alter_dir dir (delete name) d)
    | None => d
    end
  end.
Definition exec_all (l : list Action) (d : Disk) : Disk := fold_left (λ d a, exec a d) l d.

(** What a crash during an action can leave behind. *)
Inductive torn : Action → Disk → Disk → Prop :=
  | torn_none a d : torn a d d
  | torn_write dir name b junk d :
      torn (WriteFile dir name b) d (alter_dir dir <[name := junk]> d).

(** The disks a crash can leave behind a program. *)
Inductive crash : list Action → Disk → Disk → Prop :=
  | crash_here l d : crash l d d
  | crash_inside a l d d' : torn a d d' → crash (a :: l) d d'
  | crash_later a l d d' : crash l (exec a d) d' → crash (a :: l) d d'.

(** ** Programs *)

Inductive StorageError :=
  | Corrupt (reason : string)
  | CorruptOperationSegment (name reason : string)
  | Missing
  | StorageReinitializeRequired (found : option N) (expected : N).

(** A program reads the disk, performs actions and may fail. *)
Definition Prog (A : Type) : Type := Disk → list Action * (StorageError + A).
#[export] Instance Prog_ret : MRet Prog := λ A x d, ([], inr x).
#[export] Instance Prog_bind : MBind Prog := λ A B f m d,
  match m d with
  | (l, inl e) => (l, inl e)
  | (l, inr x) => let '(l', r) := f x (exec_all l d) in (l ++ l', r)
  end.
Definition perform (a : Action) : Prog unit := λ d, ([a], inr tt).
Definition look {A} (f : Disk → A) : Prog A := λ d, ([], inr (f d)).
Definition attempt {A} (f : Disk → StorageError + A) : Prog A := λ d, ([], f d).
Definition fail {A} (e : StorageError) : Prog A := λ d, ([], inl e).

(** [for x in l { s = f(s, x)?; }]. *)
Fixpoint prog_fold {A S} (f : S → A → Prog S) (l : list A) (s : S) : Prog S :=
  match l with
  | [] => mret s
  | x :: l => s ← f s x; prog_fold f l s
  end.

(** ** Little-endian integers *)

(** [to_le_bytes] of an integer of [n] bytes. *)
Fixpoint to_le_bytes (n : nat) (v : N) : bytes :=
  match n with
  | 0 => []
  | S n => default Byte.x00 (Byte.of_N (v `mod` 256)) :: to_le_bytes n (v `div` 256)
  end.
Fixpoint from_le_bytes (b : bytes) : N :=
  match b with
  | [] => 0
  | x :: b => (Byte.to_N x + 256 * from_le_bytes b)%N
  end.

(** ** Decimal names *)

Fixpoint digits (fuel : nat) (n : N) (acc : string) : string :=
  match fuel with
  | 0 => acc
  | S fuel =>
    let acc := String (Ascii.ascii_of_N (48 + n `mod` 10)) acc in
    if (n <? 10)%N then acc else digits fuel (n `div` 10) acc
  end.
(** [format!("{n}")]. *)
Definition display (n : N) : string := digits (S (N.to_nat (N.log2 n))) n EmptyString.

Fixpoint parse_loop (s : string) (acc : N) : option N :=
  match s with
  | EmptyString => Some acc
  | String c s =>
    let d := Ascii.N_of_ascii c in
    if ((48 <=? d) && (d <=? 57))%N then parse_loop s (acc * 10 + (d - 48))%N else None
  end.
(** [str::parse::<usize>]. *)
Definition parse_usize (s : string) : option N :=
  let s := match s with
           | String c rest => if decide (Ascii.N_of_ascii c = 43%N) then rest else s
           | EmptyString => s
           end in
  match s with
  | EmptyString => None
  | _ => v ← parse_loop s 0; if (v <=? u64_max)%N then Some v else None
  end.

Fixpoint strip (p s : string) : option string :=
  match p, s with
  | EmptyString, s => Some s
  | String a p, String b s => if decide (a = b) then strip p s else None
  | String _ _, EmptyString => None
  end.
Definition index_of_name (prefix name : string) : option N := strip prefix name ≫= parse_usize.
Definition indexed_name (prefix : string) (i : N) : string := String.append prefix (display i).

(** ** Superblocks *)

Definition LEGACY_SEGMENT_FILE : string := "segment".
Definition TOMBSTONES_FILE : string := "tombstones.bin".
Definition V2_VERSION : N := 2.
Definition OP_SEGMENT_VERSION : N := 1.
Definition OP_SEGMENT_HEADER_LEN : nat := 8 + 2 + 8 + 4.
(** The bytes of [MDCRDTOP]. *)
Definition OP_SEGMENT_MAGIC : bytes :=
  [Byte.x4d; Byte.x44; Byte.x43; Byte.x52; Byte.x44; Byte.x54; Byte.x4f; Byte.x50].

Record SuperblockV2Body := mkBody {
  sb_version : N;
  sb_generation : N;
  sb_flag : bool;
  sb_pending_ops : bytes;
  sb_segment_checksum : N;
  sb_segment_len : N;
}.
Record SuperblockMetadata := mkMetadata {
  md_generation : N;
  md_flag : bool;
  md_pending_ops : bytes;
  md_segment_checksum : N;
  md_segment_len : N;
}.
Record StorageSlot := mkSlot { slot_superblock : string; slot_segment : string }.
Definition slot_a : StorageSlot := mkSlot "superblock_a" "segment_a".
Definition slot_b : StorageSlot := mkSlot "superblock_b" "segment_b".

Inductive TombstoneRetention := KeepAll | MaxCount (max : nat).
Record CompactionReport := mkReport {
  archived_segments : nat;
  archived_ops : nat;
  pruned_tombstones : nat;
  kept_tombstones : nat;
}.

(** [atomic_write_durable]: write and sync a temporary file, rename it. *)
Definition atomic_write_durable (dir : Dir) (name : string) (b : bytes) : Prog unit :=
  _ ← perform (WriteFile dir (temp_name name) b);
  perform (Rename dir (temp_name name) dir name).

Definition prune_tombstones (values : list N) (retention : TombstoneRetention) : list N * nat :=
  match retention with
  | KeepAll => (values, 0)
  | MaxCount max =>
    if decide (max = 0) then ([], length values)
    else if decide (length values ≤ max) then (values, 0)
    else let start := length values - max in (drop start values, start)
  end.

Section storage.
(** [crc32fast]. *)
Context (checksum_bytes : bytes → N).
(** [rkyv::to_bytes] and [rkyv::access] of superblocks and of tombstones. *)
Context (rkyv_to_bytes : SuperblockV2Body → option bytes)
        (rkyv_access : bytes → option SuperblockV2Body).
Context (tombs_to_bytes : list N → option bytes) (tombs_access : bytes → option (list N)).
(** [fs::read_dir]. *)
Context (read_dir : gmap string bytes → list string).

Definition decode_superblock (b : bytes) : StorageError + SuperblockMetadata :=
  if decide (length b < 4) then inl (Corrupt "superblock checksum")
  else
    let body := take (length b - 4) b in
    let stored := from_le_bytes (drop (length b - 4) b) in
    if decide (checksum_bytes body ≠ stored) then inl (Corrupt "superblock checksum")
    else match rkyv_access body with
    | None => inl (Corrupt "decode")
    | Some a =>
      if decide (sb_version a ≠ V2_VERSION)
      then inl (StorageReinitializeRequired (Some (sb_version a)) V2_VERSION)
      else inr (mkMetadata (sb_generation a) (sb_flag a) (sb_pending_ops a)
                  (sb_segment_checksum a) (sb_segment_len a))
    end.

Definition read_slot_generation (slot : StorageSlot) (d : Disk) : StorageError + option N :=
  match read_file Root (slot_superblock slot) d with
  | None => inr None
  | Some b => match decode_superblock b with
              | inr m => inr (Some (md_generation m))
              | inl (Corrupt _) => inr None
              | inl e => inl e
              end
  end.

(** [rkyv::to_bytes], then the checksum of the body. *)
Definition encode_superblock (body : SuperblockV2Body) : StorageError + bytes :=
  match rkyv_to_bytes body with
  | None => inl (Corrupt "encode")
  | Some b => inr (b ++ to_le_bytes 4 (checksum_bytes b))
  end.

Definition write_snapshot (payload pending_ops : bytes) (flag : bool) : Prog unit :=
  legacy ← look (read_file Root LEGACY_SEGMENT_FILE);
  _ ← (if decide (is_Some legacy) then fail (StorageReinitializeRequired None V2_VERSION)
       else mret tt);
  ga ← attempt (read_slot_generation slot_a);
  gb ← attempt (read_slot_generation slot_b);
  let max_generation := N.max (default 0%N ga) (default 0%N gb) in
  let target := if (default 0 gb <? default 0 ga)%N then slot_b else slot_a in
  _ ← atomic_write_durable Root (slot_segment target) payload;
  generation ← match u64_checked_add max_generation 1 with
               | Some g => mret g
               | None => fail (Corrupt "generation overflow")
               end;
  encoded ← attempt (λ _, encode_superblock
    (mkBody V2_VERSION generation flag pending_ops (checksum_bytes payload)
       (N.of_nat (length payload))));
  atomic_write_durable Root (slot_superblock target) encoded.

(** The loop over the slots of [read_snapshot]: the candidates, whether a
    superblock was seen, and the last reason. *)
Definition read_slot (acc : list (StorageSlot * SuperblockMetadata) * bool * string)
    (slot : StorageSlot) (d : Disk) :
    StorageError + (list (StorageSlot * SuperblockMetadata) * bool * string) :=
  let '(candidates, saw, last) := acc in
  match read_file Root (slot_superblock slot) d with
  | None => inr (candidates, saw, last)
  | Some b => match decode_superblock b with
              | inr m => inr (candidates ++ [(slot, m)], true, last)
              | inl (Corrupt reason) => inr (candidates, true, reason)
              | inl e => inl e
              end
  end.

(** [sort_by_key(Reverse(generation))] of at most two candidates; the sort is stable. *)
Definition sort_candidates (l : list (StorageSlot * SuperblockMetadata)) :
    list (StorageSlot * SuperblockMetadata) :=
  match l with
  | [x; y] => if (md_generation x.2 <? md_generation y.2)%N then [y; x] else [x; y]
  | _ => l
  end.

(** Why the segment of a slot does not match its superblock, or the segment. *)
Definition check_segment (slot : StorageSlot) (m : SuperblockMetadata) (d : Disk) :
    string + bytes :=
  match read_file Root (slot_segment slot) d with
  | None => inl "missing segment"
  | Some segment =>
    if decide (N.of_nat (length segment) ≠ md_segment_len m) then inl "length mismatch"
    else if decide (checksum_bytes segment ≠ md_segment_checksum m) then inl "checksum mismatch"
    else inr segment
  end.

Fixpoint first_intact (l : list (StorageSlot * SuperblockMetadata)) (d : Disk) (last : string) :
    string + (bytes * bytes * bool) :=
  match l with
  | [] => inl last
  | (slot, m) :: l =>
    match check_segment slot m d with
    | inl reason => first_intact l d reason
    | inr segment => inr (segment, md_pending_ops m, md_flag m)
    end
  end.

Definition read_snapshot (d : Disk) : StorageError + (bytes * bytes * bool) :=
  match read_slot ([], false, "decode") slot_a d with
  | inl e => inl e
  | inr acc =>
    match read_slot acc slot_b d with
    | inl e => inl e
    | inr (candidates, saw, last) =>
      match first_intact (sort_candidates candidates) d last with
      | inr r => inr r
      | inl last =>
        if decide (is_Some (read_file Root LEGACY_SEGMENT_FILE d))
        then inl (StorageReinitializeRequired None V2_VERSION)
        else if saw : bool then inl (Corrupt last) else inl Missing
      end
    end
  end.

(** ** Operation segments *)

Definition encode_op_segment (payload : bytes) : bytes :=
  OP_SEGMENT_MAGIC ++ to_le_bytes 2 OP_SEGMENT_VERSION ++
    to_le_bytes 8 (N.of_nat (length payload)) ++ to_le_bytes 4 (checksum_bytes payload) ++ payload.

Definition slice (from to : nat) (b : bytes) : bytes := take (to - from) (drop from b).

Definition decode_op_segment (name : string) (b : bytes) : StorageError + bytes :=
  let corrupt reason := inl (CorruptOperationSegment name reason) in
  if decide (length b < OP_SEGMENT_HEADER_LEN) then corrupt "truncated header"
  else if decide (take 8 b ≠ OP_SEGMENT_MAGIC) then corrupt "magic"
  else if decide (from_le_bytes (slice 8 10 b) ≠ OP_SEGMENT_VERSION) then corrupt "version"
  else
    match u64_checked_add (N.of_nat OP_SEGMENT_HEADER_LEN) (from_le_bytes (slice 10 18 b)) with
    | None => corrupt "length overflow"
    | Some expected_len =>
      if decide (N.of_nat (length b) ≠ expected_len) then corrupt "length mismatch"
      else
        let payload := drop OP_SEGMENT_HEADER_LEN b in
        if decide (checksum_bytes payload ≠ from_le_bytes (slice 18 22 b))
        then corrupt "checksum mismatch"
        else inr payload
    end.

Definition next_index (dir : Dir) (prefix : string) (d : Disk) : N :=
  match dir_of dir d with
  | None => 0
  | Some m =>
    match omap (index_of_name prefix) (read_dir m) with
    | [] => 0
    | i :: l => u64_wrapping_add (fold_left N.max l i) 1
    end
  end.

Definition append_op_segment (payload : bytes) : Prog string :=
  _ ← perform (CreateDir Ops);
  index ← look (next_index Ops "op_");
  let name := indexed_name "op_" index in
  _ ← atomic_write_durable Ops name (encode_op_segment payload);
  mret name.

Definition index_le (x y : N * string) : Prop := (x.1 ≤ y.1)%N.
#[export] Instance index_le_dec : RelDecision index_le.
Proof. intros x y. unfold index_le. apply _. Defined.

(** The files of the directory with an index, in order of it. *)
Definition segment_paths (m : gmap string bytes) : list (N * string) :=
  merge_sort index_le (omap (λ name, (λ i, (i, name)) <$> index_of_name "op_" name) (read_dir m)).

(** The first path whose index is not its position. *)
Fixpoint non_contiguous (expected : N) (l : list (N * string)) : option string :=
  match l with
  | [] => None
  | (actual, name) :: l =>
    if decide (expected ≠ actual) then Some name else non_contiguous (expected + 1) l
  end.

Fixpoint decode_segments (m : gmap string bytes) (l : list (N * string)) :
    StorageError + list bytes :=
  match l with
  | [] => inr []
  | (_, name) :: l =>
    match decode_op_segment name (default [] (m !! name)) with
    | inl e => inl e
    | inr p => match decode_segments m l with inl e => inl e | inr ps => inr (p :: ps) end
    end
  end.

Definition read_op_segments (d : Disk) : StorageError + list bytes :=
  match disk_ops d with
  | None => inr []
  | Some m =>
    match non_contiguous 0 (segment_paths m) with
    | Some name => inl (CorruptOperationSegment name "non-contiguous index")
    | None => decode_segments m (segment_paths m)
    end
  end.

(** ** Compaction *)

Definition read_tombstones (d : Disk) : StorageError + list N :=
  match read_file Root TOMBSTONES_FILE d with
  | None => inr []
  | Some b => match tombs_access b with Some l => inr l | None => inl (Corrupt "decode") end
  end.

(** Copy a segment to the archive; the count of the archived ones. *)
Definition archive_segment (n : nat) (slot : StorageSlot) : Prog nat :=
  segment ← look (read_file Root (slot_segment slot));
  match segment with
  | None => mret n
  | Some b =>
    index ← look (next_index Archive "segment_");
    _ ← perform (WriteFile Archive (indexed_name "segment_" index) b);
    mret (S n)
  end.

(** Rename one operation segment into the archive. *)
Definition archive_op (n : nat) (name : string) : Prog nat :=
  index ← look (next_index Archive "op_");
  _ ← perform (Rename Ops name Archive (indexed_name "op_" index));
  mret (S n).

Definition compact (payload pending_ops : bytes) (flag : bool) (retention : TombstoneRetention)
    (tombstones : list N) : Prog CompactionReport :=
  _ ← perform (CreateDir Archive);
  segments ← prog_fold archive_segment [slot_a; slot_b] 0;
  entries ← look (λ d, default [] (read_dir <$> disk_ops d));
  ops ← prog_fold archive_op entries 0;
  old ← attempt read_tombstones;
  let '(kept, pruned) := prune_tombstones (old ++ tombstones) retention in
  encoded ← match tombs_to_bytes kept with Some b => mret b | None => fail (Corrupt "encode") end;
  _ ← perform (WriteFile Root TOMBSTONES_FILE encoded);
  _ ← write_snapshot payload pending_ops flag;
  mret (mkReport segments ops pruned (length kept)).
End storage.
