(* ===== verification/StorageProps.v ===== *)
(** * Storage: crash safety and round trips

    The slots survive a crash at any point of a snapshot write; operation
    segments decode exactly what was encoded and are read back in the order of
    appending; what a crash of a compaction can lose. *)

From S2P Require Import Prelude Storage.
From Stdlib Require Import Strings.Byte.

(** ** Little-endian integers *)

Lemma length_to_le_bytes n v : length (to_le_bytes n v) = n.
Proof. revert v. induction n as [|n IH]; intros v; simpl; [done|]. by rewrite IH. Qed.

Lemma byte_of_N_mod v : ∃ x, Byte.of_N (v `mod` 256) = Some x ∧ Byte.to_N x = (v `mod` 256)%N.
Proof.
  destruct (Byte.of_N (v `mod` 256)) as [x|] eqn:E.
  - exists x. split; [done|]. by apply Byte.to_of_N.
  - apply Byte.of_N_None_iff in E. pose proof (N.mod_upper_bound v 256). lia.
Qed.

Lemma from_to_le_bytes n v : (v < 256 ^ N.of_nat n)%N → from_le_bytes (to_le_bytes n v) = v.
Proof.
  revert v. induction n as [|n IH]; intros v Hv; simpl; [simpl in Hv; lia|].
  destruct (byte_of_N_mod v) as (x & -> & Hx). simpl. rewrite Hx, IH.
  - pose proof (N.div_mod v 256). lia.
  - apply N.Div0.div_lt_upper_bound. rewrite Nat2N.inj_succ, N.pow_succ_r' in Hv. lia.
Qed.

Lemma to_from_le_bytes b : to_le_bytes (length b) (from_le_bytes b) = b.
Proof.
  induction b as [|x b IH]; simpl; [done|].
  pose proof (Byte.to_N_bounded x) as Hx.
  rewrite (N.mul_comm 256), N.Div0.mod_add, N.div_add, N.mod_small, N.div_small, N.add_0_l, IH by lia.
  by rewrite Byte.of_to_N.
Qed.

Lemma from_le_bytes_bound b : (from_le_bytes b < 256 ^ N.of_nat (length b))%N.
Proof.
  induction b as [|x b IH]; [done|]. cbn [from_le_bytes length].
  rewrite Nat2N.inj_succ, N.pow_succ_r'. pose proof (Byte.to_N_bounded x). lia.
Qed.

(** ** Operation segments *)

Section segments.
Context (checksum_bytes : list Byte.byte → N).
Hypothesis checksum_u32 : ∀ b, (checksum_bytes b < 2 ^ 32)%N.

Lemma header_slices (m v n c p : list Byte.byte) :
  length m = 8 → length v = 2 → length n = 8 → length c = 4 →
  let b := m ++ v ++ n ++ c ++ p in
  take 8 b = m ∧ slice 8 10 b = v ∧ slice 10 18 b = n ∧ slice 18 22 b = c ∧ drop 22 b = p ∧
  length b = 22 + length p.
Proof.
  intros Hm Hv Hn Hc b. subst b. unfold slice.
  do 9 (destruct m as [|? m]; try done). do 3 (destruct v as [|? v]; try done).
  do 9 (destruct n as [|? n]; try done). do 5 (destruct c as [|? c]; try done).
Qed.

Lemma split_header (b : list Byte.byte) :
  22 ≤ length b →
  b = take 8 b ++ slice 8 10 b ++ slice 10 18 b ++ slice 18 22 b ++ drop 22 b.
Proof.
  intros Hb. unfold slice. simpl.
  rewrite <-(take_drop 8 b) at 1. f_equal. rewrite <-(take_drop 2 (drop 8 b)) at 1. f_equal.
  rewrite drop_drop. rewrite <-(take_drop 8 (drop (8 + 2) b)) at 1. f_equal.
  rewrite drop_drop. rewrite <-(take_drop 4 (drop (8 + 2 + 8) b)) at 1. by rewrite drop_drop.
Qed.

Lemma decode_op_canonical name b p :
  (N.of_nat (OP_SEGMENT_HEADER_LEN + length b) ≤ u64_max)%N →
  decode_op_segment checksum_bytes name b = inr p →
  b = encode_op_segment checksum_bytes p ∧ (N.of_nat (OP_SEGMENT_HEADER_LEN + length p) ≤ u64_max)%N.
Proof.
  intros Hfit. unfold u64_max in *.
  unfold decode_op_segment. case_decide as Hlen; [done|].
  unfold OP_SEGMENT_HEADER_LEN in *. simpl in Hlen, Hfit.
  case_decide as Hm; [done|].
  case_decide as Hv; [done|].
  unfold u64_checked_add. case_decide as Hadd; [|done].
  case_decide as Hl; [done|].
  case_decide as Hc; [done|]. intros [= <-].
  change (8 + 2 + 8 + 4) with 22 in *.
  rewrite length_drop. split; [|lia]. unfold encode_op_segment.
  rewrite <-Hm, Hc, length_drop.
  replace (N.of_nat (length b - 22)) with (from_le_bytes (slice 10 18 b)) by lia. rewrite <-Hv.
  assert (Hs : ∀ i j, i ≤ j → j ≤ 22 →
    to_le_bytes (j - i) (from_le_bytes (slice i j b)) = slice i j b).
  { intros i j ??. replace (j - i) with (length (slice i j b)); [apply to_from_le_bytes|].
    unfold slice. rewrite length_take, length_drop. lia. }
  change (to_le_bytes 2) with (to_le_bytes (10 - 8)).
  change (to_le_bytes 8) with (to_le_bytes (18 - 10)).
  change (to_le_bytes 4) with (to_le_bytes (22 - 18)).
  rewrite !Hs by lia. apply split_header. lia.
Qed.

Lemma decode_encode_op name p :
  (N.of_nat (OP_SEGMENT_HEADER_LEN + length p) ≤ u64_max)%N →
  decode_op_segment checksum_bytes name (encode_op_segment checksum_bytes p) = inr p.
Proof.
  intros Hp. unfold u64_max in Hp.
  unfold decode_op_segment, encode_op_segment.
  destruct (header_slices OP_SEGMENT_MAGIC (to_le_bytes 2 OP_SEGMENT_VERSION)
    (to_le_bytes 8 (N.of_nat (length p))) (to_le_bytes 4 (checksum_bytes p)) p eq_refl
    (length_to_le_bytes _ _) (length_to_le_bytes _ _) (length_to_le_bytes _ _))
    as (-> & -> & -> & -> & Hd & Hl).
  unfold OP_SEGMENT_HEADER_LEN in *. change (8 + 2 + 8 + 4) with 22 in *.
  rewrite Hd, Hl, !from_to_le_bytes by (try done; try apply checksum_u32; simpl; lia).
  rewrite decide_False by lia. rewrite !decide_False by (intros Hn; by apply Hn).
  unfold u64_checked_add. rewrite decide_True by (unfold u64_max; lia).
  rewrite decide_False by lia. done.
Qed.

(** Operation segments.  Decoding returns exactly the payload that was
    encoded, and no other bytes decode to it: a truncated, extended or altered
    file is refused unless it is the encoding of what it decodes to. *)
Theorem op_segment_exact (name : string) (b p : list Byte.byte)
    (Hfit : (N.of_nat (OP_SEGMENT_HEADER_LEN + length b) ≤ u64_max)%N) :
  decode_op_segment checksum_bytes name b = inr p ↔
  b = encode_op_segment checksum_bytes p ∧ (N.of_nat (OP_SEGMENT_HEADER_LEN + length p) ≤ u64_max)%N.
Proof.
  split; [by apply decode_op_canonical|]. intros [-> Hp]. by apply decode_encode_op.
Qed.
End segments.

(** ** Snapshot slots *)

Section slots.
Context (checksum_bytes : list Byte.byte → N).
Context (rkyv_to_bytes : SuperblockV2Body → option (list Byte.byte))
        (rkyv_access : list Byte.byte → option SuperblockV2Body).
Hypothesis checksum_u32 : ∀ b, (checksum_bytes b < 2 ^ 32)%N.
Hypothesis rkyv_roundtrip : ∀ body b, rkyv_to_bytes body = Some b → rkyv_access b = Some body.

Abbreviation decode_superblock := (decode_superblock checksum_bytes rkyv_access).
Abbreviation encode_superblock := (encode_superblock checksum_bytes rkyv_to_bytes).
Abbreviation read_snapshot := (read_snapshot checksum_bytes rkyv_access).
Abbreviation read_slot_generation := (read_slot_generation checksum_bytes rkyv_access).
Abbreviation check_segment := (check_segment checksum_bytes).
Abbreviation write_snapshot := (write_snapshot checksum_bytes rkyv_to_bytes rkyv_access).

#[local] Arguments Storage.read_slot_generation : simpl never.
#[local] Arguments Storage.encode_superblock : simpl never.

Lemma decode_encode_superblock body b :
  encode_superblock body = inr b → sb_version body = V2_VERSION →
  decode_superblock b = inr (mkMetadata (sb_generation body) (sb_flag body) (sb_pending_ops body)
    (sb_segment_checksum body) (sb_segment_len body)).
Proof.
  unfold Storage.encode_superblock, Storage.decode_superblock.
  destruct (rkyv_to_bytes body) as [raw|] eqn:Hr; [|done]. intros H Hv.
  assert (b = raw ++ to_le_bytes 4 (checksum_bytes raw)) as -> by congruence. clear H.
  rewrite length_app, length_to_le_bytes. rewrite decide_False by lia.
  replace (length raw + 4 - 4) with (length raw) by lia.
  rewrite take_app_length, drop_app_length, from_to_le_bytes by apply checksum_u32.
  rewrite decide_False by (intros Hn; by apply Hn). rewrite (rkyv_roundtrip _ _ Hr).
  by rewrite decide_False by (intros Hn; by apply Hn).
Qed.

(** The superblock of a slot, when it decodes. *)
Definition slot_meta (slot : StorageSlot) (d : Disk) : option SuperblockMetadata :=
  b ← read_file Root (slot_superblock slot) d;
  match decode_superblock b with inr m => Some m | inl _ => None end.

Definition slots (t o : StorageSlot) : Prop :=
  (t = slot_a ∧ o = slot_b) ∨ (t = slot_b ∧ o = slot_a).

Definition slot_gen (slot : StorageSlot) (d : Disk) : N :=
  default 0%N (md_generation <$> slot_meta slot d).

(** The slot [n] holds a matching segment and is newer than [o]. *)
Definition newest (n o : StorageSlot) (d : Disk) : Prop :=
  ∃ m seg, slot_meta n d = Some m ∧ check_segment n m d = inr seg ∧
    (slot_gen o d < md_generation m)%N.

(** No slot, or an intact newest slot; no file of another format. *)
Record slots_inv (d : Disk) : Prop := {
  inv_legacy : read_file Root LEGACY_SEGMENT_FILE d = None;
  inv_readable : ∀ t o, slots t o → ∃ g, read_slot_generation t d = inr g;
  inv_newest : (slot_meta slot_a d = None ∧ slot_meta slot_b d = None) ∨
    ∃ n o, slots n o ∧ newest n o d;
}.

Lemma slot_generation t d g : read_slot_generation t d = inr g → g = md_generation <$> slot_meta t d.
Proof.
  unfold Storage.read_slot_generation, slot_meta. destruct (read_file _ _ d) as [b|]; simpl; [|by intros [= <-]].
  destruct (decode_superblock b) as [[]|m]; by intros [= <-].
Qed.

(** What the loop over the slots does with a readable slot. *)
Lemma read_slot_meta t d acc g :
  read_slot_generation t d = inr g →
  ∃ saw last, read_slot checksum_bytes rkyv_access acc t d =
    inr (acc.1.1 ++ match slot_meta t d with Some m => [(t, m)] | None => [] end, saw, last).
Proof.
  destruct acc as [[cs sw] lst]. unfold Storage.read_slot_generation, read_slot, slot_meta. simpl.
  destruct (read_file _ _ d) as [b|]; simpl; [|intros _; rewrite app_nil_r; eauto].
  destruct (decode_superblock b) as [[]|m]; try done; intros _; rewrite ?app_nil_r; eauto.
Qed.

Lemma read_newest d n o m seg :
  (∀ t o, slots t o → ∃ g, read_slot_generation t d = inr g) → slots n o →
  slot_meta n d = Some m → check_segment n m d = inr seg → (slot_gen o d < md_generation m)%N →
  read_snapshot d = inr (seg, md_pending_ops m, md_flag m).
Proof.
  intros Hr Hs Hm Hseg Hlt. unfold Storage.read_snapshot, slot_gen in *.
  destruct (Hr slot_a slot_b) as [ga Ha]; [by left|]. destruct (Hr slot_b slot_a) as [gb Hb]; [by right|].
  destruct (read_slot_meta slot_a d ([], false, "decode"%string) _ Ha) as (sw & lst & ->).
  cbn [fst app].
  destruct (read_slot_meta slot_b d
    (match slot_meta slot_a d with Some m => [(slot_a, m)] | None => [] end, sw, lst) _ Hb)
    as (sw' & lst' & ->). cbn [fst app].
  destruct Hs as [[-> ->]|[-> ->]]; rewrite Hm in *.
  - destruct (slot_meta slot_b d) as [m'|]; simpl in *; [|by rewrite Hseg].
    rewrite (proj2 (N.ltb_ge _ _)) by lia. simpl. by rewrite Hseg.
  - destruct (slot_meta slot_a d) as [m'|]; simpl in *; [|by rewrite Hseg].
    rewrite (proj2 (N.ltb_lt _ _)) by lia. simpl. by rewrite Hseg.
Qed.

(** ** Files *)

Definition slot_files : list string :=
  ["superblock_a"; "superblock_b"; "segment_a"; "segment_b"; "segment"]%string.

Definition same_except (names : list string) (d d' : Disk) : Prop :=
  ∀ name, name ∈ slot_files → name ∉ names → read_file Root name d' = read_file Root name d.

(** A slot depends on its own two files. *)
Lemma slot_same t o names d d' :
  slots t o → same_except names d d' → slot_superblock t ∉ names →
  read_slot_generation t d' = read_slot_generation t d ∧ slot_meta t d' = slot_meta t d ∧
  slot_gen t d' = slot_gen t d.
Proof.
  intros Ht Hd Hn. unfold slot_gen, slot_meta, Storage.read_slot_generation.
  rewrite (Hd (slot_superblock t)); [done| |done].
  destruct Ht as [[-> _]|[-> _]]; unfold slot_files; simpl; set_solver.
Qed.

Lemma segment_same t o names d d' m :
  slots t o → same_except names d d' → slot_segment t ∉ names →
  check_segment t m d' = check_segment t m d.
Proof.
  intros Ht Hd Hn. unfold Storage.check_segment. rewrite (Hd (slot_segment t)); [done| |done].
  destruct Ht as [[-> _]|[-> _]]; unfold slot_files; simpl; set_solver.
Qed.

(** Reading depends on the superblocks, and on the segments they describe. *)
Lemma read_depends d d' :
  same_except ["segment_a"; "segment_b"]%string d d' →
  (∀ t o m, slots t o → slot_meta t d = Some m → check_segment t m d' = check_segment t m d) →
  read_snapshot d' = read_snapshot d.
Proof.
  intros Hd Hseg. unfold Storage.read_snapshot, read_slot.
  rewrite (Hd (slot_superblock slot_a)), (Hd (slot_superblock slot_b)), (Hd LEGACY_SEGMENT_FILE)
    by (unfold slot_files; simpl; set_solver).
  pose proof (λ m, Hseg slot_a slot_b m (or_introl (conj eq_refl eq_refl))) as Ha.
  pose proof (λ m, Hseg slot_b slot_a m (or_intror (conj eq_refl eq_refl))) as Hb.
  unfold slot_meta in Ha, Hb.
  clear Hd Hseg. revert Ha Hb.
  generalize (read_file Root (slot_superblock slot_a) d) (read_file Root (slot_superblock slot_b) d).
  intros ra rb Ha Hb.
  destruct ra as [ba|]; simpl in *; [destruct (decode_superblock ba) as [[]|ma]; try done|];
    (destruct rb as [bb|]; simpl in *; [destruct (decode_superblock bb) as [[]|mb]; try done|]);
    simpl; try match goal with |- context [(?x <? ?y)%N] => destruct (x <? y)%N end;
    simpl; rewrite ?Ha, ?Hb by done; done.
Qed.

Lemma same_read d d' : same_except [] d d' → slots_inv d → slots_inv d' ∧ read_snapshot d' = read_snapshot d.
Proof.
  intros Hd [Hl Hr Hn]. split.
  - split.
    + by rewrite Hd by (unfold slot_files, LEGACY_SEGMENT_FILE; set_solver).
    + intros t o Ht. destruct (slot_same t o [] d d' Ht Hd) as [-> _]; [set_solver|]. eauto.
    + destruct (slot_same slot_a slot_b [] d d') as (_ & -> & _); [by left|done|set_solver|].
      destruct (slot_same slot_b slot_a [] d d') as (_ & -> & _); [by right|done|set_solver|].
      destruct Hn as [?|(n & o & Hno & m & seg & Hm & Hs & Hlt)]; [by left|].
      right. exists n, o. split; [done|]. exists m, seg.
      assert (slots o n) as Hon by (destruct Hno as [[? ?]|[? ?]]; [by right|by left]).
      destruct (slot_same n o [] d d' Hno Hd) as (_ & -> & _); [set_solver|].
      destruct (slot_same o n [] d d' Hon Hd) as (_ & _ & ->); [set_solver|].
      by rewrite (segment_same n o [] d d') by (done || set_solver).
  - apply read_depends; [intros name ??; apply Hd; set_solver|]. intros t o m Ht _.
    by apply (segment_same t o []); [| |set_solver].
Qed.

(** The slot that a write replaces. *)
Definition target_of (d : Disk) : StorageSlot :=
  if (slot_gen slot_b d <? slot_gen slot_a d)%N then slot_b else slot_a.

Lemma slots_sym t o : slots t o → slots o t.
Proof. intros [[? ?]|[? ?]]; [by right|by left]. Qed.

(** With an intact newest slot, the target is the other one. *)
Lemma target_other d n o : slots n o → newest n o d → target_of d = o.
Proof.
  intros Hno (m & seg & Hm & _ & Hlt). unfold target_of.
  assert (Hgen : slot_gen n d = md_generation m) by (unfold slot_gen; by rewrite Hm).
  destruct Hno as [[-> ->]|[-> ->]]; rewrite Hgen.
  - by rewrite (proj2 (N.ltb_lt _ _)).
  - by rewrite (proj2 (N.ltb_ge _ _)) by lia.
Qed.

Lemma wrote_segment d d1 t o :
  slots_inv d → slots t o → target_of d = t → same_except [slot_segment t] d d1 →
  slots_inv d1 ∧ read_snapshot d1 = read_snapshot d.
Proof.
  intros [Hl Hr Hn] Ht Htarget Hd.
  assert (Hname : ∀ t' o', slots t' o' → slot_superblock t' ∉ [slot_segment t]).
  { intros t' o' [[-> _]|[-> _]]; destruct Ht as [[-> _]|[-> _]]; simpl; set_solver. }
  assert (Hmeta : ∀ t' o', slots t' o' → slot_meta t' d1 = slot_meta t' d ∧ slot_gen t' d1 = slot_gen t' d).
  { intros t' o' Ht'. by destruct (slot_same t' o' _ d d1 Ht' Hd (Hname _ _ Ht')) as (_ & ? & ?). }
  assert (Hseg : slot_segment o ∉ [slot_segment t]).
  { destruct Ht as [[-> ->]|[-> ->]]; simpl; set_solver. }
  assert (Hread : ∀ n o', slots n o' → newest n o' d → n = o ∧ o' = t).
  { intros n o' Hno Hnew. pose proof (target_other d n o' Hno Hnew) as Ho. rewrite Htarget in Ho. subst o'.
    split; [|done]. by destruct Hno as [[-> ->]|[-> ->]], Ht as [[? ?]|[? ?]]; simplify_eq. }
  split; [split|].
  - rewrite Hd; [done|unfold slot_files, LEGACY_SEGMENT_FILE; set_solver|].
    destruct Ht as [[-> _]|[-> _]]; unfold LEGACY_SEGMENT_FILE; simpl; set_solver.
  - intros t' o' Ht'. destruct (slot_same t' o' _ d d1 Ht' Hd (Hname _ _ Ht')) as [-> _]. eauto.
  - destruct (Hmeta slot_a slot_b) as [-> _]; [by left|]. destruct (Hmeta slot_b slot_a) as [-> _]; [by right|].
    destruct Hn as [?|(n & o' & Hno & Hnew)]; [by left|right].
    destruct (Hread n o' Hno Hnew) as [-> ->]. exists o, t. split; [done|].
    destruct Hnew as (m & seg & Hm & Hs & Hlt). exists m, seg.
    destruct (Hmeta o t Hno) as [-> _]. destruct (Hmeta t o Ht) as [_ ->].
    by rewrite (segment_same o t _ d d1 m Hno Hd Hseg).
  - destruct Hn as [[Ha Hb]|(n & o' & Hno & Hnew)].
    + apply read_depends.
      * intros name Hin Hni. apply Hd; [done|].
        destruct Ht as [[-> _]|[-> _]]; simpl in *; set_solver.
      * intros t' o' m [[-> _]|[-> _]]; congruence.
    + destruct (Hread n o' Hno Hnew) as [-> ->]. destruct Hnew as (m & seg & Hm & Hs & Hlt).
      rewrite (read_newest d o t m seg) by done.
      apply (read_newest d1 o t m seg); [|done|..].
      * intros t' o' Ht'. destruct (slot_same t' o' _ d d1 Ht' Hd (Hname _ _ Ht')) as [-> _]. eauto.
      * by destruct (Hmeta o t Hno) as [-> _].
      * by rewrite (segment_same o t _ d d1 m Hno Hd Hseg).
      * by destruct (Hmeta t o Ht) as [_ ->].
Qed.

Lemma wrote_superblock d1 d2 t o payload pending flag g enc :
  slots_inv d1 → slots t o → same_except [slot_superblock t] d1 d2 →
  read_file Root (slot_segment t) d1 = Some payload →
  encode_superblock (mkBody V2_VERSION g flag pending (checksum_bytes payload)
    (N.of_nat (length payload))) = inr enc →
  read_file Root (slot_superblock t) d2 = Some enc → (slot_gen o d1 < g)%N →
  slots_inv d2 ∧ read_snapshot d2 = inr (payload, pending, flag).
Proof.
  intros [Hl Hr _] Ht Hd Hseg Henc Hfile Hg.
  pose proof (decode_encode_superblock _ _ Henc eq_refl) as Hdec. cbn in Hdec.
  set (m := mkMetadata g flag pending (checksum_bytes payload) (N.of_nat (length payload))) in *.
  assert (Hm : slot_meta t d2 = Some m) by (unfold slot_meta; rewrite Hfile; cbn; by rewrite Hdec).
  assert (Ho : slot_superblock o ∉ [slot_superblock t]).
  { destruct Ht as [[-> ->]|[-> ->]]; simpl; set_solver. }
  destruct (slot_same o t _ d1 d2 (slots_sym _ _ Ht) Hd Ho) as (Hgo & Hmo & Heq).
  assert (Hs : check_segment t m d2 = inr payload).
  { rewrite (segment_same t o _ d1 d2 m Ht Hd).
    - unfold Storage.check_segment. rewrite Hseg. simpl. by rewrite !decide_False by (intros Hn; by apply Hn).
    - destruct Ht as [[-> ->]|[-> ->]]; simpl; set_solver. }
  assert (Hr2 : ∀ t' o', slots t' o' → ∃ g, read_slot_generation t' d2 = inr g).
  { intros t' o' Ht'. assert (t' = t ∨ t' = o) as [-> | ->].
    { destruct Ht as [[-> ->]|[-> ->]], Ht' as [[-> _]|[-> _]]; auto. }
    - unfold Storage.read_slot_generation. rewrite Hfile, Hdec. eauto.
    - rewrite Hgo. eauto. }
  split; [split|].
  - rewrite Hd; [done|unfold slot_files, LEGACY_SEGMENT_FILE; set_solver|].
    destruct Ht as [[-> _]|[-> _]]; unfold LEGACY_SEGMENT_FILE; simpl; set_solver.
  - done.
  - right. exists t, o. split; [done|]. exists m, payload. by rewrite Heq.
  - apply (read_newest d2 t o m payload); [done..|by rewrite Heq].
Qed.

(** ** The program of a write *)

Definition publish (name : string) (b : list Byte.byte) : list Action :=
  [WriteFile Root (temp_name name) b; Rename Root (temp_name name) Root name].

Lemma write_snapshot_program d payload pending flag :
  slots_inv d →
  let t := target_of d in
  let g := (N.max (slot_gen slot_a d) (slot_gen slot_b d) + 1)%N in
  (∃ e, write_snapshot payload pending flag d = (publish (slot_segment t) payload, inl e)) ∨
  (∃ enc, (g ≤ u64_max)%N ∧
    encode_superblock (mkBody V2_VERSION g flag pending (checksum_bytes payload)
      (N.of_nat (length payload))) = inr enc ∧
    write_snapshot payload pending flag d =
      (publish (slot_segment t) payload ++ publish (slot_superblock t) enc, inr tt)).
Proof.
  intros [Hl Hr _] t g. destruct (Hr slot_a slot_b) as [ga Ha]; [by left|].
  destruct (Hr slot_b slot_a) as [gb Hb]; [by right|].
  unfold Storage.write_snapshot, mbind, Prog_bind, look, attempt. simpl. rewrite Hl. rewrite decide_False by (by intros [? ?]). simpl. rewrite Ha. simpl. rewrite Hb.
  apply slot_generation in Ha as ->. apply slot_generation in Hb as ->.
  fold (slot_gen slot_a d) (slot_gen slot_b d). fold (target_of d). fold t.
  unfold u64_checked_add. fold g. case_decide as Hg; simpl; [|left; by eexists].
  destruct (encode_superblock _) as [e|enc] eqn:Henc; simpl; [left; by eexists|right].
  exists enc. done.
Qed.

Lemma temp_not_slot name name' : name ∈ slot_files → name' ∈ slot_files → temp_name name ≠ name'.
Proof. unfold slot_files. intros H H'. set_unfold. naive_solver. Qed.

(** Publishing a file replaces it and nothing else. *)
Lemma publish_done name b d :
  name ∈ slot_files →
  read_file Root name (exec_all (publish name b) d) = Some b ∧
  same_except [name] d (exec_all (publish name b) d).
Proof.
  intros Hn. unfold exec_all, publish. simpl. unfold read_file at 2. simpl.
  rewrite lookup_insert_eq. split.
  - unfold read_file. simpl. by rewrite lookup_insert_eq.
  - intros name' Hn' Hne. unfold exec, read_file. simpl. rewrite lookup_insert_eq. simpl.
    pose proof (temp_not_slot name name' Hn Hn').
    by rewrite lookup_insert_ne, lookup_delete_ne, lookup_insert_ne by set_solver.
Qed.

(** A crash while a file is published: it is the old one or the new one. *)
Lemma publish_crash name b l d d' :
  name ∈ slot_files → crash (publish name b ++ l) d d' →
  same_except [] d d' ∨ crash l (exec_all (publish name b) d) d'.
Proof.
  intros Hn. unfold publish. simpl.
  assert (Htemp : ∀ junk, same_except [] d (alter_dir Root <[temp_name name := junk]> d)).
  { intros junk name' Hn' _. unfold read_file. simpl.
    by rewrite lookup_insert_ne by by apply temp_not_slot. }
  intros H. inversion H as [| ? ? ? ? Ht|? ? ? ? Hc]; subst; [by left|..].
  - left. inversion Ht; subst; [done|apply Htemp].
  - clear H. inversion Hc as [| ? ? ? ? Ht|? ? ? ? Hc']; subst; [left; apply Htemp|..|by right].
    left. inversion Ht; subst. apply Htemp.
Qed.

Lemma target_slots d : ∃ o, slots (target_of d) o ∧
  N.max (slot_gen slot_a d) (slot_gen slot_b d) = slot_gen o d.
Proof.
  unfold target_of. destruct (N.ltb_spec (slot_gen slot_b d) (slot_gen slot_a d)).
  - exists slot_a. split; [by right|lia].
  - exists slot_b. split; [by left|lia].
Qed.

Lemma slot_names t o : slots t o → slot_segment t ∈ slot_files ∧ slot_superblock t ∈ slot_files.
Proof. intros [[-> _]|[-> _]]; unfold slot_files; simpl; set_solver. Qed.

(** The disk behind the segment of a write, and the disk behind the whole write. *)
Lemma write_stages d payload pending flag t o g enc :
  slots_inv d → target_of d = t → slots t o → (slot_gen o d < g)%N →
  encode_superblock (mkBody V2_VERSION g flag pending (checksum_bytes payload)
    (N.of_nat (length payload))) = inr enc →
  let d1 := exec_all (publish (slot_segment t) payload) d in
  let d2 := exec_all (publish (slot_superblock t) enc) d1 in
  slots_inv d2 ∧ read_snapshot d2 = inr (payload, pending, flag).
Proof.
  intros Hd Ht Hto Hg Henc d1 d2. destruct (slot_names t o Hto) as [Hseg Hsup].
  destruct (publish_done (slot_segment t) payload d Hseg) as [Hf1 Hs1]. fold d1 in Hf1, Hs1.
  destruct (publish_done (slot_superblock t) enc d1 Hsup) as [Hf2 Hs2]. fold d2 in Hf2, Hs2.
  destruct (wrote_segment d d1 t o Hd Hto Ht Hs1) as [Hd1 _].
  eapply (wrote_superblock d1 d2); try done.
  destruct (slot_same o t _ d d1 (slots_sym _ _ Hto) Hs1) as (_ & _ & ->); [|done].
  destruct Hto as [[-> ->]|[-> ->]]; simpl; set_solver.
Qed.

(** What a write guarantees: the proofs below are instances. *)
Lemma write_safe d payload pending flag :
  slots_inv d →
  let '(l, r) := write_snapshot payload pending flag d in
  (∀ d', crash l d d' → slots_inv d' ∧
     (read_snapshot d' = read_snapshot d ∨ read_snapshot d' = inr (payload, pending, flag))) ∧
  (r = inr tt → slots_inv (exec_all l d) ∧
     read_snapshot (exec_all l d) = inr (payload, pending, flag)).
Proof.
  intros Hd. destruct (target_slots d) as (o & Hto & Hmax). destruct (slot_names _ _ Hto) as [Hseg Hsup].
  set (t := target_of d) in *. set (d1 := exec_all (publish (slot_segment t) payload) d).
  destruct (publish_done (slot_segment t) payload d Hseg) as [_ Hs1]. fold d1 in Hs1.
  destruct (wrote_segment d d1 t o Hd Hto eq_refl Hs1) as [Hd1 Hr1].
  destruct (write_snapshot_program d payload pending flag Hd) as [[e ->]|(enc & Hg & Henc & ->)].
  - split; [|done]. intros d' H. rewrite <-(app_nil_r (publish _ _)) in H.
    apply publish_crash in H as [H|H]; [| |done].
    + destruct (same_read d d' H Hd) as [? ?]. auto.
    + inversion H; subst. auto.
  - assert (Hlt : (slot_gen o d < N.max (slot_gen slot_a d) (slot_gen slot_b d) + 1)%N) by lia.
    destruct (write_stages d payload pending flag t o _ enc Hd eq_refl Hto Hlt Henc) as [Hd2 Hr2].
    fold d1 in Hd2, Hr2. split.
    + intros d' H. apply publish_crash in H as [H|H]; [|fold d1 in H|done].
      { destruct (same_read d d' H Hd) as [? ?]. auto. }
      rewrite <-(app_nil_r (publish _ _)) in H. apply publish_crash in H as [H|H]; [| |done].
      * destruct (same_read d1 d' H Hd1) as [? ?]. split; [done|left]. congruence.
      * inversion H; subst. auto.
    + intros _. unfold exec_all. rewrite fold_left_app. done.
Qed.

(** C27: Crash safety of a snapshot write.  From a disk whose newest slot is
    intact, a crash between or inside any two steps of [write_snapshot] leaves a
    disk that reads as before or as the new snapshot, and whose newest slot is
    again intact. *)
Theorem snapshot_crash_safe (d d' : Disk) (payload pending : list Byte.byte) (flag : bool)
    (Hd : slots_inv d) (Hcrash : crash (write_snapshot payload pending flag d).1 d d') :
  slots_inv d' ∧
  (read_snapshot d' = read_snapshot d ∨ read_snapshot d' = inr (payload, pending, flag)).
Proof.
  pose proof (write_safe d payload pending flag Hd) as H.
  destruct (write_snapshot payload pending flag d) as [l r]. by apply H.
Qed.

(** Sequences of writes on a fresh disk, each complete or cut by a crash; the flag
    tells whether one has completed. *)
Inductive disk_run : Disk → bool → Prop :=
  | run_fresh : disk_run empty_disk false
  | run_write d c payload pending flag l :
      disk_run d c → write_snapshot payload pending flag d = (l, inr tt) →
      disk_run (exec_all l d) true
  | run_crash d c payload pending flag d' :
      disk_run d c → crash (write_snapshot payload pending flag d).1 d d' → disk_run d' c.

Lemma empty_inv : slots_inv empty_disk.
Proof.
  split; [done| |by left].
  intros t o Ht. exists None. by destruct Ht as [[-> _]|[-> _]].
Qed.

(** Durability.  Along any sequence of snapshot writes with crashes at
    arbitrary points, starting from an empty directory, storage is never found
    corrupt once a write has completed: some snapshot is read. *)
Theorem storage_recovers (d : Disk) (c : bool) (Hrun : disk_run d c) :
  slots_inv d ∧ (c = true → ∃ r, read_snapshot d = inr r).
Proof.
  induction Hrun as [|d c p q f l _ [Hd _] Hw|d c p q f d' _ [Hd Hr] Hc].
  - split; [apply empty_inv|done].
  - pose proof (write_safe d p q f Hd) as H. rewrite Hw in H. destruct (proj2 H eq_refl). eauto.
  - pose proof (write_safe d p q f Hd) as H. destruct (write_snapshot p q f d) as [l r].
    destruct (proj1 H d' Hc) as [? [-> | ->]]; eauto.
Qed.
End slots.
