(* ===== verification/StorageLog.v ===== *)
(** * The operation segments of storage

    Appended segments are read back in the order of appending, across crashes;
    the names of the files; instances of the external codecs; and two states in
    which a crash loses data. *)

From S2P Require Import Prelude Storage StorageProps.
From Stdlib Require Import Strings.Byte.

(** ** Names *)

Lemma digit_code n : (n < 10)%N → Ascii.N_of_ascii (Ascii.ascii_of_N (48 + n)) = (48 + n)%N.
Proof. intros Hn. apply Ascii.N_ascii_embedding. lia. Qed.

Lemma digit_range n :
  (48 ≤ Ascii.N_of_ascii (Ascii.ascii_of_N (48 + n `mod` 10)) ≤ 57)%N.
Proof.
  assert (Hm : (n `mod` 10 < 10)%N) by (apply N.mod_upper_bound; lia). revert Hm.
  generalize (n `mod` 10)%N. intros x Hx. rewrite digit_code by done. lia.
Qed.

(** Reading digits back: [k] is how many there are. *)
Lemma parse_digits_loop fuel n s a :
  (n < 10 ^ N.of_nat fuel)%N →
  ∃ k, parse_loop (digits fuel n s) a = parse_loop s (a * 10 ^ k + n)%N.
Proof.
  revert n s. induction fuel as [|fuel IH]; intros n s Hn.
  - exists 0%N. simpl. f_equal. change (10 ^ N.of_nat 0)%N with 1%N in Hn. lia.
  - cbn [digits]. assert (Hm : (n `mod` 10 < 10)%N) by (apply N.mod_upper_bound; lia).
    assert (Hstep : ∀ b, parse_loop (String (Ascii.ascii_of_N (48 + n `mod` 10)) s) b =
      parse_loop s (b * 10 + n `mod` 10)).
    { intros b. cbn [parse_loop]. rewrite digit_code by done.
      clear -Hm. revert Hm. generalize (n `mod` 10)%N. intros x Hx.
      rewrite (proj2 (N.leb_le 48 _)), (proj2 (N.leb_le _ 57)) by lia. cbn [andb]. f_equal. lia. }
    destruct (N.ltb_spec n 10).
    + exists 1%N. rewrite Hstep. f_equal. rewrite N.mod_small by done. lia.
    + destruct (IH (n `div` 10)%N (String (Ascii.ascii_of_N (48 + n `mod` 10)) s)) as [k ->].
      { apply N.Div0.div_lt_upper_bound. rewrite Nat2N.inj_succ, N.pow_succ_r' in Hn. lia. }
      exists (N.succ k). rewrite Hstep, N.pow_succ_r'. f_equal.
      pose proof (N.div_mod n 10). lia.
Qed.

Lemma display_fuel n : (n < 10 ^ N.of_nat (S (N.to_nat (N.log2 n))))%N.
Proof.
  rewrite Nat2N.inj_succ, N2Nat.id. destruct (decide (n = 0%N)) as [->|Hn]; [done|].
  pose proof (N.log2_spec n). apply N.lt_le_trans with (2 ^ N.succ (N.log2 n))%N; [lia|].
  apply N.pow_le_mono_l. lia.
Qed.

Lemma digits_head fuel n s :
  ∃ c r, digits (S fuel) n s = String c r ∧ (48 ≤ Ascii.N_of_ascii c ≤ 57)%N.
Proof.
  revert n s. induction fuel as [|fuel IH]; intros n s; cbn [digits].
  - eexists _, _. split; [by case_match|]. apply digit_range.
  - destruct (n <? 10)%N; [|apply IH]. eexists _, _. split; [done|]. apply digit_range.
Qed.

Lemma digits_app fuel n s t : String.append (digits fuel n s) t = digits fuel n (String.append s t).
Proof.
  revert n s. induction fuel as [|fuel IH]; intros n s; simpl; [done|].
  destruct (n <? 10)%N; [done|]. by rewrite IH.
Qed.

Lemma strip_append p s : strip p (String.append p s) = Some s.
Proof. induction p as [|c p IH]; simpl; [by destruct s|]. by rewrite decide_True. Qed.

(** Parsing a printed number followed by [t]. *)
Lemma parse_usize_display n t :
  parse_usize (String.append (display n) t) =
    (v ← parse_loop t n; if (v <=? u64_max)%N then Some v else None).
Proof.
  unfold parse_usize, display. rewrite digits_app. change (String.append EmptyString t) with t.
  destruct (digits_head (N.to_nat (N.log2 n)) n t) as (c & r & E & Hc).
  rewrite E, decide_False by lia. rewrite <-E.
  destruct (parse_digits_loop _ n t 0%N (display_fuel n)) as [k ->].
  by rewrite N.mul_0_l, N.add_0_l.
Qed.

Lemma string_append_nil s : String.append s EmptyString = s.
Proof. induction s as [|c s IH]; [done|]. exact (f_equal (String c) IH). Qed.

Lemma index_of_indexed p n : (n ≤ u64_max)%N → index_of_name p (indexed_name p n) = Some n.
Proof.
  intros Hn. unfold index_of_name, indexed_name. rewrite strip_append. simpl.
  rewrite <-(string_append_nil (display n)), parse_usize_display. simpl.
  by rewrite (proj2 (N.leb_le _ _)).
Qed.

Lemma string_append_assoc s t u :
  String.append (String.append s t) u = String.append s (String.append t u).
Proof. induction s as [|c s IH]; [done|]. exact (f_equal (String c) IH). Qed.

(** A temporary file is not taken for a segment. *)
Lemma index_of_temp p n : index_of_name p (temp_name (indexed_name p n)) = None.
Proof.
  unfold index_of_name, indexed_name, temp_name. rewrite string_append_assoc, strip_append. simpl.
  by rewrite parse_usize_display.
Qed.

Lemma indexed_inj p i j :
  (i ≤ u64_max)%N → (j ≤ u64_max)%N → indexed_name p i = indexed_name p j → i = j.
Proof.
  intros Hi Hj H. apply (inj Some). rewrite <-(index_of_indexed p i), <-(index_of_indexed p j) by done.
  by rewrite H.
Qed.

(** ** The log of segments *)

Section log.
Context (checksum_bytes : list Byte.byte → N).
Context (read_dir : gmap string (list Byte.byte) → list string).
Hypothesis checksum_u32 : ∀ b, (checksum_bytes b < 2 ^ 32)%N.
(** Every file is listed once, in some order. *)
Hypothesis read_dir_lists : ∀ m, read_dir m ≡ₚ (map_to_list m).*1.

Abbreviation encode_op_segment := (encode_op_segment checksum_bytes).
Abbreviation read_op_segments := (read_op_segments checksum_bytes read_dir).
Abbreviation append_op_segment := (append_op_segment checksum_bytes read_dir).

Definition op_name (i : nat) : string := indexed_name "op_" (N.of_nat i).

(** The directory holds the payloads [ps]; files without an index are ignored. *)
Record holds (m : gmap string (list Byte.byte)) (ps : list (list Byte.byte)) : Prop := {
  holds_segment : ∀ i p, ps !! i = Some p → m !! op_name i = Some (encode_op_segment p);
  holds_only : ∀ name b n, m !! name = Some b → index_of_name "op_" name = Some n →
    ∃ i, n = N.of_nat i ∧ name = op_name i ∧ i < length ps;
  holds_length : (N.of_nat (length ps) < u64_max)%N;
  holds_fits : Forall (λ p, (N.of_nat (OP_SEGMENT_HEADER_LEN + length p) ≤ u64_max)%N) ps;
}.

Lemma op_name_index m ps i : holds m ps → i ≤ length ps → index_of_name "op_" (op_name i) = Some (N.of_nat i).
Proof. intros H Hi. apply index_of_indexed. pose proof (holds_length _ _ H). lia. Qed.

Lemma elem_read_dir m name : name ∈ read_dir m ↔ is_Some (m !! name).
Proof.
  rewrite read_dir_lists, list_elem_of_fmap. split.
  - intros ([k v] & -> & H%elem_of_map_to_list). by exists v.
  - intros [v Hv]. exists (name, v). split; [done|]. by apply elem_of_map_to_list.
Qed.

(** The indices that are listed. *)
Lemma elem_indices m ps (x : N * string) :
  holds m ps →
  x ∈ omap (λ name, (λ i, (i, name)) <$> index_of_name "op_" name) (read_dir m) ↔
  x ∈ (λ i, (N.of_nat i, op_name i)) <$> seq 0 (length ps).
Proof.
  intros H. rewrite list_elem_of_omap, list_elem_of_fmap. split.
  - intros (name & Hin & (n & Hn & ->)%fmap_Some). apply elem_read_dir in Hin as [b Hb].
    destruct (holds_only _ _ H _ _ _ Hb Hn) as (i & -> & -> & Hi). exists i. split; [done|].
    apply elem_of_seq. lia.
  - intros (i & -> & Hi%elem_of_seq). exists (op_name i). split.
    + destruct (lookup_lt_is_Some_2 ps i) as [p Hp]; [lia|].
      apply elem_read_dir. rewrite (holds_segment _ _ H i p Hp). done.
    + rewrite (op_name_index m ps) by (done || lia). done.
Qed.

Lemma nodup_indices m :
  NoDup (omap (λ name, (λ i, (i, name)) <$> index_of_name "op_" name) (read_dir m)).
Proof.
  assert (Hnd : NoDup (read_dir m)) by (rewrite read_dir_lists; apply NoDup_fst_map_to_list).
  induction Hnd as [|name l Hni Hnd IH]; csimpl; [constructor|].
  destruct (index_of_name "op_" name) as [n|]; simpl; [|done]. constructor; [|done].
  rewrite list_elem_of_omap. intros (name' & Hin & (n' & _ & [= -> ->])%fmap_Some). done.
Qed.

Lemma seq_sorted a n : StronglySorted index_le ((λ i, (N.of_nat i, op_name i)) <$> seq a n).
Proof.
  revert a. induction n as [|n IH]; intros a; simpl; [constructor|]. constructor; [apply IH|].
  apply Forall_fmap, Forall_forall. intros i Hi%elem_of_seq. unfold index_le. simpl. lia.
Qed.

#[local] Instance index_le_total : Total index_le.
Proof. intros x y. unfold index_le. lia. Qed.
#[local] Instance index_le_trans : Transitive index_le.
Proof. intros x y z. unfold index_le. lia. Qed.

Lemma segment_paths_spec m ps :
  holds m ps → segment_paths read_dir m = (λ i, (N.of_nat i, op_name i)) <$> seq 0 (length ps).
Proof.
  intros H. unfold segment_paths. eapply (StronglySorted_unique_strong index_le).
  - intros x y Hx Hy Hxy Hyx. rewrite merge_sort_Permutation, (elem_indices m ps) in Hx by done.
    apply list_elem_of_fmap in Hx as (i & -> & _), Hy as (j & -> & _). unfold index_le in *. simpl in *.
    assert (i = j) as -> by lia. done.
  - apply StronglySorted_merge_sort; apply _.
  - apply seq_sorted.
  - rewrite merge_sort_Permutation. apply NoDup_Permutation; [apply nodup_indices|..].
    + apply NoDup_fmap_2_strong; [|apply NoDup_seq]. intros i j _ _ [= ?%Nat2N.inj _]. done.
    + intros x. by apply elem_indices.
Qed.

Lemma contiguous_seq a n :
  non_contiguous (N.of_nat a) ((λ i, (N.of_nat i, op_name i)) <$> seq a n) = None.
Proof.
  revert a. induction n as [|n IH]; intros a; simpl; [done|].
  rewrite decide_False by (intros Hn; by apply Hn).
  replace (N.of_nat a + 1)%N with (N.of_nat (S a)) by lia. apply IH.
Qed.

Lemma decode_seq m ps a :
  (∀ i p, ps !! i = Some p → m !! op_name (a + i) = Some (encode_op_segment p)) →
  Forall (λ p, (N.of_nat (OP_SEGMENT_HEADER_LEN + length p) ≤ u64_max)%N) ps →
  decode_segments checksum_bytes m ((λ i, (N.of_nat i, op_name i)) <$> seq a (length ps)) = inr ps.
Proof.
  revert a. induction ps as [|p ps IH]; intros a Hm Hf; [done|].
  cbn [length seq]. rewrite fmap_cons. cbn [decode_segments].
  apply Forall_cons in Hf as [Hp Hf]. pose proof (Hm 0 p eq_refl) as H0. rewrite Nat.add_0_r in H0.
  rewrite H0. cbn [from_option id].
  rewrite decode_encode_op by (done || lia).
  rewrite (IH (S a)); [done| |done]. intros i q Hi. rewrite <-(Hm (S i) q) by done. f_equal. f_equal. lia.
Qed.

Lemma read_holds d m ps : disk_ops d = Some m → holds m ps → read_op_segments d = inr ps.
Proof.
  intros Hd H. unfold Storage.read_op_segments. rewrite Hd, (segment_paths_spec m ps H).
  rewrite (contiguous_seq 0). apply (decode_seq m ps 0); apply H.
Qed.

Lemma max_seq a n : fold_left N.max (N.of_nat <$> seq (S a) n) (N.of_nat a) = N.of_nat (a + n).
Proof.
  revert a. induction n as [|n IH]; intros a; [simpl; lia|].
  cbn [seq]. rewrite fmap_cons. cbn [fold_left].
  replace (N.max (N.of_nat a) (N.of_nat (S a))) with (N.of_nat (S a)) by lia. rewrite IH. lia.
Qed.

Lemma fold_max_perm l l' x : l ≡ₚ l' → fold_left N.max l x = fold_left N.max l' x.
Proof.
  intros H. revert x. induction H as [|y l l' _ IH|y z l|l1 l2 l3 _ IH1 _ IH2]; intros x; simpl.
  - done.
  - apply IH.
  - f_equal. lia.
  - by rewrite IH1.
Qed.

(** [max().map_or(0, |i| i + 1)] does not depend on the order of the list. *)
Lemma max_option_perm l l' :
  l ≡ₚ l' →
  match l with [] => 0%N | i :: l => u64_wrapping_add (fold_left N.max l i) 1 end =
  match l' with [] => 0%N | i :: l => u64_wrapping_add (fold_left N.max l i) 1 end.
Proof.
  intros H. destruct l as [|x l], l' as [|y l']; try (by apply Permutation_length in H).
  f_equal. pose proof (fold_max_perm _ _ 0%N H) as Hf. simpl in Hf. by rewrite !N.max_0_l in Hf.
Qed.

Lemma next_index_holds d m ps :
  disk_ops d = Some m → holds m ps → next_index read_dir Ops "op_" d = N.of_nat (length ps).
Proof.
  intros Hd H. unfold next_index. simpl. rewrite Hd.
  assert (Hp : omap (index_of_name "op_") (read_dir m) ≡ₚ N.of_nat <$> seq 0 (length ps)).
  { transitivity ((segment_paths read_dir m).*1).
    - unfold segment_paths. rewrite merge_sort_Permutation. clear.
      induction (read_dir m) as [|name l IH]; csimpl; [done|].
      destruct (index_of_name "op_" name); csimpl; [by constructor|done].
    - rewrite (segment_paths_spec m ps H). by rewrite <-list_fmap_compose. }
  rewrite (max_option_perm _ _ Hp). pose proof (holds_length _ _ H) as Hl.
  destruct (length ps) as [|n]; [done|]. cbn [seq]. rewrite fmap_cons, max_seq.
  unfold u64_wrapping_add. rewrite N.mod_small; [lia|]. unfold u64_max, u64_modulus in *. lia.
Qed.

(** A file without an index changes nothing. *)
Lemma holds_ignore m ps name b : holds m ps → index_of_name "op_" name = None → holds (<[name := b]> m) ps.
Proof.
  intros H Hn. destruct H as [Hs Ho Hl Hf]. split; [|..|done|done].
  - intros i p Hi. rewrite lookup_insert_ne; [by apply Hs|].
    intros ->. unfold op_name in Hn. rewrite index_of_indexed in Hn; [done|].
    apply lookup_lt_Some in Hi. lia.
  - intros name' b' n Hm Hi. destruct (decide (name = name')) as [->|Hne]; [congruence|].
    rewrite lookup_insert_ne in Hm by done. by eapply Ho.
Qed.

Lemma holds_snoc m ps p tmp :
  holds m ps → (N.of_nat (length ps) + 1 < u64_max)%N →
  (N.of_nat (OP_SEGMENT_HEADER_LEN + length p) ≤ u64_max)%N → index_of_name "op_" tmp = None →
  holds (<[op_name (length ps) := encode_op_segment p]> (delete tmp m)) (ps ++ [p]).
Proof.
  intros H Hl Hp Ht. pose proof H as [Hs Ho _ Hf].
  assert (Hidx : ∀ i, i ≤ length ps → index_of_name "op_" (op_name i) = Some (N.of_nat i)).
  { intros i Hi. by apply (op_name_index m ps). }
  split.
  - intros i q Hi. apply lookup_snoc_Some in Hi as [[Hi Hq]|[-> ->]]; [|apply lookup_insert_eq].
    rewrite lookup_insert_ne, lookup_delete_ne; [by apply Hs|..].
    + intros ->. rewrite Hidx in Ht by lia. done.
    + intros He. pose proof (Hidx i ltac:(lia)) as H1. rewrite <-He, Hidx in H1 by lia.
      injection H1 as H1%Nat2N.inj. lia.
  - intros name b n. rewrite length_app. simpl.
    destruct (decide (name = op_name (length ps))) as [->|Hne].
    + intros _. rewrite Hidx by lia. intros [= <-]. exists (length ps). split_and!; [done..|lia].
    + rewrite lookup_insert_ne, lookup_delete_Some by done. intros [_ Hm] Hn.
      destruct (Ho _ _ _ Hm Hn) as (i & ? & ? & ?). exists i. split_and!; [done..|lia].
  - rewrite length_app. simpl. lia.
  - apply Forall_app. split; [done|]. by constructor.
Qed.

Definition ops_hold (d : Disk) (ps : list (list Byte.byte)) : Prop :=
  holds (default ∅ (disk_ops d)) ps.

Lemma read_ops_hold d ps : ops_hold d ps → read_op_segments d = inr ps.
Proof.
  unfold ops_hold. destruct (disk_ops d) as [m|] eqn:E; simpl; [by apply read_holds|].
  intros H. unfold Storage.read_op_segments. rewrite E. destruct ps as [|p ps]; [done|].
  pose proof (holds_segment _ _ H 0 p eq_refl) as Hp. by rewrite lookup_empty in Hp.
Qed.

Lemma append_program d ps p :
  ops_hold d ps →
  let name := op_name (length ps) in
  append_op_segment p d =
    ([CreateDir Ops; WriteFile Ops (temp_name name) (encode_op_segment p);
      Rename Ops (temp_name name) Ops name], inr name).
Proof.
  intros H name. unfold Storage.append_op_segment, mbind, Prog_bind, look, perform.
  cbn -[Storage.encode_op_segment next_index indexed_name].
  rewrite (next_index_holds _ (default ∅ (disk_ops d)) ps) by done. done.
Qed.

(** C28: The operation log survives crashes.  Appending a payload to a directory
    that holds the payloads [ps] makes [read_op_segments] return [ps] with the
    payload behind them, and a crash at any point of the append leaves a
    directory that holds [ps] or the extended list. *)
Theorem op_log_append (d : Disk) (ps : list (list Byte.byte)) (p : list Byte.byte)
    (Hd : ops_hold d ps) (Hlen : (N.of_nat (length ps) + 1 < u64_max)%N)
    (Hp : (N.of_nat (OP_SEGMENT_HEADER_LEN + length p) ≤ u64_max)%N) :
  let '(l, r) := append_op_segment p d in
  r = inr (op_name (length ps)) ∧
  read_op_segments (exec_all l d) = inr (ps ++ [p]) ∧
  ∀ d', crash l d d' →
    ∃ ps', (ps' = ps ∨ ps' = ps ++ [p]) ∧ ops_hold d' ps' ∧ read_op_segments d' = inr ps'.
Proof.
  rewrite (append_program d ps p Hd). set (name := op_name (length ps)).
  assert (Ht : index_of_name "op_" (temp_name name) = None) by apply index_of_temp.
  assert (Htmp : ∀ b, ops_hold (alter_dir Ops <[temp_name name := b]> (exec (CreateDir Ops) d)) ps).
  { intros b. by apply holds_ignore. }
  assert (Hend : ops_hold (exec_all [CreateDir Ops; WriteFile Ops (temp_name name) (encode_op_segment p);
      Rename Ops (temp_name name) Ops name] d) (ps ++ [p])).
  { unfold exec_all. cbn -[Storage.encode_op_segment temp_name]. unfold read_file. simpl.
    rewrite lookup_insert_eq. unfold ops_hold. simpl. apply holds_snoc; [|done..].
    by apply holds_ignore. }
  assert (Hall : ∀ d' ps', ops_hold d' ps' → ps' = ps ∨ ps' = ps ++ [p] →
    ∃ ps', (ps' = ps ∨ ps' = ps ++ [p]) ∧ ops_hold d' ps' ∧ read_op_segments d' = inr ps').
  { intros d' ps' H ?. exists ps'. split_and!; [done..|]. by apply read_ops_hold. }
  split_and!; [done|by apply read_ops_hold|]. intros d' Hc.
  inversion Hc as [| ? ? ? ? Ht1|? ? ? ? Hc1]; subst; [by eapply Hall; [|left]|..].
  { inversion Ht1; subst. by eapply Hall; [|left]. }
  clear Hc. inversion Hc1 as [| ? ? ? ? Ht2|? ? ? ? Hc2]; subst; [by eapply Hall; [|left]|..].
  { inversion Ht2; subst; (eapply (Hall _ ps); [|by left]); [exact Hd|apply Htmp]. }
  clear Hc1. inversion Hc2 as [| ? ? ? ? Ht3|? ? ? ? Hc3]; subst; [eapply (Hall _ ps); [apply Htmp|by left]|..].
  { inversion Ht3; subst. eapply (Hall _ ps); [apply Htmp|by left]. }
  inversion Hc3; subst. eapply (Hall _ (ps ++ [p])); [exact Hend|by right].
Qed.
End log.

(** ** Instances of the external codecs *)

(** A checksum: the sum of the bytes. *)
Definition sum_checksum (b : list Byte.byte) : N :=
  (fold_left (λ acc x, acc + Byte.to_N x) b 0 `mod` 2 ^ 32)%N.

(** A superblock format for generations below 256. *)
Definition small_to_bytes (b : SuperblockV2Body) : option (list Byte.byte) :=
  if decide (sb_version b = 2 ∧ (sb_generation b < 256 ^ 1) ∧ (sb_segment_checksum b < 256 ^ 4) ∧
             (sb_segment_len b < 256 ^ 8))%N
  then Some (to_le_bytes 1 (sb_generation b) ++ to_le_bytes 1 (if sb_flag b then 1 else 0) ++
             to_le_bytes 4 (sb_segment_checksum b) ++ to_le_bytes 8 (sb_segment_len b) ++
             sb_pending_ops b)
  else None.
Definition small_access (b : list Byte.byte) : option SuperblockV2Body :=
  Some (mkBody 2 (from_le_bytes (slice 0 1 b)) (bool_decide (from_le_bytes (slice 1 2 b) = 1%N))
          (drop 14 b) (from_le_bytes (slice 2 6 b)) (from_le_bytes (slice 6 14 b))).

Lemma small_slices (g f c n p : list Byte.byte) :
  length g = 1 → length f = 1 → length c = 4 → length n = 8 →
  let b := g ++ f ++ c ++ n ++ p in
  slice 0 1 b = g ∧ slice 1 2 b = f ∧ slice 2 6 b = c ∧ slice 6 14 b = n ∧ drop 14 b = p.
Proof.
  intros Hg Hf Hc Hn b. subst b. unfold slice.
  do 2 (destruct g as [|? g]; try done). do 2 (destruct f as [|? f]; try done).
  do 5 (destruct c as [|? c]; try done). do 9 (destruct n as [|? n]; try done).
Qed.

Lemma small_roundtrip body b : small_to_bytes body = Some b → small_access b = Some body.
Proof.
  unfold small_to_bytes, small_access. case_decide as H; [|done]. destruct H as (Hv & Hg & Hc & Hl).
  intros H. assert (b = to_le_bytes 1 (sb_generation body) ++ to_le_bytes 1 (if sb_flag body then 1 else 0) ++
    to_le_bytes 4 (sb_segment_checksum body) ++ to_le_bytes 8 (sb_segment_len body) ++
    sb_pending_ops body) as -> by congruence. clear H.
  destruct (small_slices (to_le_bytes 1 (sb_generation body))
    (to_le_bytes 1 (if sb_flag body then 1 else 0)) (to_le_bytes 4 (sb_segment_checksum body))
    (to_le_bytes 8 (sb_segment_len body)) (sb_pending_ops body)) as (-> & -> & -> & -> & ->);
    [apply length_to_le_bytes..|].
  rewrite !from_to_le_bytes; [|done..|by destruct (sb_flag body)|done].
  destruct body as [v g f p c n]. simpl in *. subst v. by destruct f.
Qed.

Lemma sum_checksum_u32 b : (sum_checksum b < 2 ^ 32)%N.
Proof. unfold sum_checksum. apply N.mod_upper_bound. done. Qed.

(** Directories listed in the order of the map; tombstones of one byte. *)
Definition list_files (m : gmap string (list Byte.byte)) : list string := (map_to_list m).*1.
Definition small_tombs (l : list N) : option (list Byte.byte) :=
  if decide (Forall (λ v, v < 256)%N l) then Some (l ≫= to_le_bytes 1) else None.
Definition small_tombs_access (b : list Byte.byte) : option (list N) := Some (Byte.to_N <$> b).

Abbreviation small_write := (write_snapshot sum_checksum small_to_bytes small_access).
Abbreviation small_read := (read_snapshot sum_checksum small_access).
Abbreviation small_append := (append_op_segment sum_checksum list_files).
Abbreviation small_read_ops := (read_op_segments sum_checksum list_files).
Abbreviation small_compact :=
  (compact sum_checksum small_to_bytes small_access small_tombs small_tombs_access list_files).

(** One complete write, then a second one cut behind its segment. *)
Definition disk1 : Disk := exec_all (small_write [Byte.x61] [] false empty_disk).1 empty_disk.
Definition disk2 : Disk := exec_all (take 2 (small_write [Byte.x62] [] false disk1).1) disk1.

Lemma crash_take n l d : crash l d (exec_all (take n l) d).
Proof.
  revert n d. induction l as [|a l IH]; intros [|n] d; simpl; try apply crash_here. apply crash_later, IH.
Qed.

Lemma snapshot_crash_safe_witness :
  small_read disk1 = inr ([Byte.x61], [], false) ∧
  (small_read disk2 = small_read disk1 ∨ small_read disk2 = inr ([Byte.x62], [], false)).
Proof.
  split; [by vm_compute|].
  refine (proj2 (snapshot_crash_safe sum_checksum small_to_bytes small_access sum_checksum_u32
    small_roundtrip disk1 disk2 [Byte.x62] [] false _ (crash_take 2 _ _))).
  refine (proj1 (proj2 (write_safe sum_checksum small_to_bytes small_access sum_checksum_u32
    small_roundtrip empty_disk [Byte.x61] [] false (empty_inv _ _)) _)). by vm_compute.
Defined.

Lemma storage_recovers_witness : ∃ r, small_read disk2 = inr r.
Proof.
  refine (proj2 (storage_recovers sum_checksum small_to_bytes small_access sum_checksum_u32
    small_roundtrip disk2 true _) eq_refl).
  apply (run_crash _ _ _ disk1 true [Byte.x62] [] false); [|apply crash_take].
  eapply (run_write _ _ _ empty_disk false [Byte.x61] [] false); [constructor|by vm_compute].
Defined.

Lemma op_segment_exact_witness :
  decode_op_segment sum_checksum "op_0" (encode_op_segment sum_checksum [Byte.x61]) = inr [Byte.x61].
Proof.
  apply (op_segment_exact sum_checksum sum_checksum_u32); [by vm_compute|]. split; [done|by vm_compute].
Defined.

Lemma op_log_append_witness :
  let d := exec_all (small_append [Byte.x61] empty_disk).1 empty_disk in
  small_read_ops (exec_all (small_append [Byte.x62] d).1 d) = inr [[Byte.x61]; [Byte.x62]].
Proof.
  intros d. assert (Hd : ops_hold sum_checksum d [[Byte.x61]]).
  { split; [intros [|i] p Hi; [by injection Hi as <-; vm_compute|done]| |done|].
    - intros name b n Hm Hn. assert (name = op_name 0) as ->.
      { change (default ∅ (disk_ops d)) with
          ({[op_name 0 := encode_op_segment sum_checksum [Byte.x61]]} : gmap string (list Byte.byte)) in Hm.
        by apply lookup_singleton_Some in Hm as [<- _]. }
      exists 0. vm_compute in Hn. injection Hn as <-. split_and!; [done..|simpl; lia].
    - repeat constructor; by vm_compute. }
  pose proof (op_log_append sum_checksum list_files sum_checksum_u32 (λ m, reflexivity _) d [[Byte.x61]]
    [Byte.x62] Hd eq_refl ltac:(by vm_compute)) as H.
  destruct (small_append [Byte.x62] d) as [l r]. apply H.
Defined.

(** ** Two states in which a crash loses data *)

(** Both slots written, then the newer segment damaged. *)
Definition damaged : Disk :=
  alter_dir Root <["segment_b"%string := [Byte.x00]]>
    (exec_all (small_write [Byte.x62] [] false disk1).1 disk1).

(** The write does not protect the slot that is being read.  When the
    newest slot is damaged, reading falls back to the older one; the next write
    replaces exactly that older slot, and a crash behind its first half leaves
    no readable snapshot. *)
Theorem fallback_slot_overwritten :
  ∃ d', small_read damaged = inr ([Byte.x61], [], false) ∧
    crash (small_write [Byte.x63] [] false damaged).1 damaged d' ∧
    small_read d' = inl (Corrupt "checksum mismatch").
Proof.
  exists (exec_all (take 2 (small_write [Byte.x63] [] false damaged).1) damaged).
  split; [by vm_compute|]. split; [apply crash_take|by vm_compute].
Qed.

(** A snapshot and one operation that it does not contain. *)
Definition with_op : Disk := exec_all (small_append [Byte.x6f] disk1).1 disk1.

(** Compaction archives before it saves.  The operation segments are renamed
    away before the new snapshot is durable: a crash in between leaves the old
    snapshot and no operation to replay. *)
Theorem compact_crash_loses_operations :
  ∃ d', small_read_ops with_op = inr [[Byte.x6f]] ∧
    crash (small_compact [Byte.x62] [] false KeepAll [] with_op).1 with_op d' ∧
    small_read d' = small_read with_op ∧ small_read_ops d' = inr [].
Proof.
  exists (exec_all (take 3 (small_compact [Byte.x62] [] false KeepAll [] with_op).1) with_op).
  split; [by vm_compute|]. split; [apply crash_take|]. split; by vm_compute.
Qed.

(** Pruning keeps the newest tombstones: the last [max] of them. *)
Theorem prune_keeps_newest (values : list N) (retention : TombstoneRetention) :
  let '(kept, pruned) := prune_tombstones values retention in
  kept = drop pruned values ∧
  match retention with
  | KeepAll => pruned = 0
  | MaxCount max => length kept = Nat.min max (length values)
  end.
Proof.
  destruct retention as [|max]; simpl; [done|]. repeat case_decide; subst; simpl.
  - by rewrite drop_all.
  - split; [done|lia].
  - split; [done|]. rewrite length_drop. lia.
Qed.
