(* ===== verification/Match.v ===== *)
(** * Matching the blocks of an edited file

    Models the pure part of [src/src/filesync/mod.rs]: fingerprints of blocks,
    their similarity, the score of a pair of an old and a new block, and the
    greedy matching [match_blocks] that decides which blocks of a file that was
    edited outside keep their identity. *)

From S2P Require Import Prelude Core Sequence Mark Table Frontmatter Codec Text Block Document Draft Storage.

(** ** Hashing *)

(** The UTF-8 bytes of a scalar value. *)
Definition encode_utf8 (c : N) : list N :=
  if (c <? 128)%N then [c]
  else if (c <? 2048)%N then [192 + c `div` 64; 128 + c `mod` 64]%N
  else if (c <? 65536)%N then [224 + c `div` 4096; 128 + (c `div` 64) `mod` 64; 128 + c `mod` 64]%N
  else [240 + c `div` 262144; 128 + (c `div` 4096) `mod` 64; 128 + (c `div` 64) `mod` 64;
        128 + c `mod` 64]%N.

Definition FNV_OFFSET : N := 14695981039346656037.
Definition FNV_PRIME : N := 1099511628211.

Definition stable_hash_string (value : list N) : N :=
  fold_left (λ hash byte, (N.lxor hash byte * FNV_PRIME) `mod` u64_modulus)%N
    (concat (encode_utf8 <$> value)) FNV_OFFSET.

(** ** Fingerprints *)

(** [str::split_whitespace]. *)
Fixpoint split_from (s word : list N) : list (list N) :=
  match s with
  | [] => if decide (word = []) then [] else [word]
  | c :: s =>
    if is_whitespace c
    then if decide (word = []) then split_from s [] else word :: split_from s []
    else split_from s (word ++ [c])
  end.
Definition split_whitespace (s : list N) : list (list N) := split_from s [].

(** [Vec::dedup]: drops an element equal to the one before it. *)
Fixpoint dedup_tokens (l : list N) : list N :=
  match l with
  | x :: l' =>
    match dedup_tokens l' with
    | y :: r => if decide (x = y) then y :: r else x :: y :: r
    | [] => [x]
    end
  | [] => []
  end.

Record Fingerprint := mkFingerprint { fp_tokens : list N; fp_len : nat }.

Definition from_content (content : string) : Fingerprint :=
  mkFingerprint
    (dedup_tokens (merge_sort N.le (stable_hash_string <$> split_whitespace (chars content))))
    (String.length content).

Record BlockFingerprint := mkBlockFingerprint {
  bf_block_id : BlockId;
  bf_fingerprint : Fingerprint;
  bf_container : list nat;
  bf_position : nat;
}.
Record ParsedBlock := mkParsedBlock {
  pb_fingerprint : Fingerprint;
  pb_container : list nat;
  pb_position : nat;
}.
Record LastFlushedState := mkFlushed { content_hash : N; flushed_blocks : list BlockFingerprint }.

(** ** The content of a block *)

(** [Vec<String>::join]. *)
Fixpoint join_strings (sep : string) (l : list string) : string :=
  match l with
  | [] => EmptyString
  | [s] => s
  | s :: l => s +:+ sep +:+ join_strings sep l
  end.

Definition debug_bool (b : bool) : string := if b then "true" else "false".
Definition debug_list_style (s : ListStyle) : string :=
  "ListStyle { ordered: " +:+ debug_bool (ls_ordered s) +:+ ", start: " +:+ display (ls_start s) +:+
  ", delimiter: " +:+ match ls_delimiter s with Period => "Period" | Parenthesis => "Parenthesis" end +:+
  ", bullet: " +:+ match ls_bullet s with Dash => "Dash" | Plus => "Plus" | Asterisk => "Asterisk" end +:+
  ", loose: " +:+ debug_bool (ls_loose s) +:+ " }".
Definition debug_fence_style (s : CodeFenceStyle) : string :=
  "CodeFenceStyle { marker: " +:+ match fence_marker s with Backtick => "Backtick" | Tilde => "Tilde" end +:+
  ", length: " +:+ display (fence_length s) +:+ " }".

Definition table_fingerprint_content (t : Table) : string :=
  join_strings (String (Ascii.ascii_of_N 10) EmptyString)
    ("table" :: join_strings "|" (row_cells t (header_row_id t))
       :: ((λ row, join_strings "|" (row_cells t (row_id row))) <$> sequence_iter (rows t))).

Definition newline_string : string := String (Ascii.ascii_of_N 10) EmptyString.

Section content.
(** [format!("{info:?}")] on an optional string: escapes by Unicode tables. *)
Context (debug_info : option string → string).

Fixpoint block_content (kind : BlockKind) : string :=
  let contents (s : Sequence Block) : list string :=
    omap (λ e, match elem_value e with
               | Some (mkBlock _ _ _ _ k _) => Some (block_content k)
               | None => None
               end) (seq_elements s) in
  match kind with
  | Paragraph text => "p:" +:+ paragraph_visible_string text
  | Heading level text => "h" +:+ display level +:+ ":" +:+ paragraph_visible_string text
  | ListBlock style items _ =>
    "list:" +:+ debug_list_style style +:+ ":" +:+
      join_strings "|" (omap (λ e, match elem_value e with
                           | Some (mkItem _ _ _ _ _ _ children) =>
                             Some (join_strings newline_string (contents children))
                           | None => None
                           end) (seq_elements items))
  | CodeFence style info text =>
    "code:" +:+ debug_fence_style style +:+ ":" +:+ debug_info info +:+ ":" +:+ text
  | RawBlock raw => "raw:" +:+ raw
  | BlockQuote children => "quote:" +:+ join_strings (newline_string +:+ newline_string) (contents children)
  | TableBlock table => table_fingerprint_content table
  end.

(** The walk of [collect_block_fingerprints] and [collect_parsed_blocks], from
    one block: quotes are containers, other blocks are leaves. *)
Fixpoint collect {A} (mk : BlockId → Fingerprint → list nat → nat → A) (container : list nat)
    (index : nat) (block : Block) (out : list A) : list A :=
  match block with
  | mkBlock id _ _ _ kind _ =>
    match kind with
    | BlockQuote children =>
      (iter_fold (λ _ child acc, (S acc.1, collect mk (container ++ [index]) acc.1 child acc.2))
         children (0, out)).2
    | other => out ++ [mk id (from_content (block_content other)) container index]
    end
  end.

Definition collect_document {A} (mk : BlockId → Fingerprint → list nat → nat → A) (d : Document) : list A :=
  (fold_left (λ acc block, (S acc.1, collect mk [] acc.1 block acc.2)) (blocks_in_order d) (0, [])).2.

Definition fingerprint_document (d : Document) : list BlockFingerprint :=
  collect_document mkBlockFingerprint d.
Definition parsed_blocks_from_doc (d : Document) : list ParsedBlock :=
  collect_document (λ _, mkParsedBlock) d.
End content.

(** ** Similarity *)

Definition u32_modulus : N := 4294967296.
Definition u32 (n : N) : N := (n `mod` u32_modulus)%N.

(** The loop over two sorted token lists: the sizes of the intersection and of
    the union, counted in [u32]. *)
Fixpoint count_common (a b : list N) (intersection union : N) : N * N :=
  match a with
  | [] => (intersection, u32 (union + u32 (N.of_nat (length b))))
  | x :: a' =>
    (fix go (b : list N) (intersection union : N) : N * N :=
       match b with
       | [] => (intersection, u32 (union + u32 (N.of_nat (length (x :: a')))))
       | y :: b' =>
         match N.compare x y with
         | Eq => count_common a' b' (u32 (intersection + 1)) (u32 (union + 1))
         | Lt => count_common a' b intersection (u32 (union + 1))
         | Gt => go b' intersection (u32 (union + 1))
         end
       end) b intersection union
  end%N.

Definition fingerprint_similarity_int (a b : Fingerprint) : N :=
  match fp_tokens a, fp_tokens b with
  | [], [] => 10000
  | [], _ | _, [] => 0
  | ta, tb =>
    let '(intersection, union) := count_common ta tb 0 0 in
    if (intersection * 10000 <? u32_modulus)%N
    then if (union =? 0)%N then 0 else (intersection * 10000) `div` union
    else 0
  end%N.

(** ** Scores *)

Definition shares_prefix (a b : list nat) : bool :=
  bool_decide (2 ≤ length a ∧ 2 ≤ length b ∧
    take (length a - 1) a = take (length b - 1) b).

Definition compatible_containers (old new : list nat) : bool :=
  bool_decide (old = new) || bool_decide (old = [] ∨ new = []) || shares_prefix old new.

(** [u32] arithmetic of the release profile; [total_u] is not zero for fewer
    than 2^32 blocks. *)
Definition compute_score (old : BlockFingerprint) (new : ParsedBlock) (old_idx new_idx total : nat) : N :=
  let content_sim := fingerprint_similarity_int (bf_fingerprint old) (pb_fingerprint new) in
  let dist := u32 (N.of_nat ((old_idx - new_idx) + (new_idx - old_idx))) in
  let total_u := u32 (N.of_nat (total `max` 1)) in
  let position_sim := (10000 - u32 (dist * 10000) `div` total_u)%N in
  let container_score :=
    if decide (bf_container old = pb_container new) then 10000%N
    else if shares_prefix (bf_container old) (pb_container new) then 5000%N
    else 2000%N in
  (u32 (content_sim * 60 + container_score * 25 + position_sim * 15) `div` 100)%N.

(** ** Matching *)

Inductive MatchType := ExactFingerprint | FuzzyContent.
Record BlockMatch := mkMatch {
  bm_old_id : BlockId;
  bm_new_id : BlockId;
  bm_new_index : nat;
  bm_confidence : N;
  bm_type : MatchType;
}.
Record AddedBlock := mkAdded {
  ab_id : BlockId;
  ab_new_index : nat;
  ab_copy_of : option BlockId;
}.
Record BlockMapping := mkMapping {
  matched : list BlockMatch;
  removed : list BlockId;
  added : list AddedBlock;
}.
Record MatchConfig := mkMatchConfig {
  min_match_score : N;
  exact_threshold : N;
  copy_threshold : N;
}.
Definition default_match_config : MatchConfig := mkMatchConfig 2000 10000 7000.

Definition u128_modulus : N := (u64_modulus * u64_modulus)%N.
Definition MIX : N := 11400714819323198485.
Definition mix (h v : N) : N := ((h * MIX) `mod` u128_modulus + v) `mod` u128_modulus.

Definition block_id_for_unmatched_parsed (block : ParsedBlock) (ordinal : nat) : BlockId :=
  let h := (7882534590767980900 * u64_modulus)%N in
  let h := fold_left mix (fp_tokens (pb_fingerprint block)) h in
  let h := mix h (N.of_nat (fp_len (pb_fingerprint block))) in
  let h := mix h (N.of_nat (pb_position block)) in
  let h := fold_left (λ h part, mix h (N.of_nat part)) (pb_container block) h in
  mix h (N.of_nat ordinal).

(** An edge: score, old index, new index. *)
Definition Edge : Type := N * nat * nat.

(** The comparator of [sort_by]: higher scores first, then smaller indices. *)
Definition edge_cmp (a b : Edge) : comparison :=
  cmp_then (N.compare b.1.1 a.1.1) (cmp_then (Nat.compare a.1.2 b.1.2) (Nat.compare a.2 b.2)).
Definition edge_le (a b : Edge) : Prop := edge_cmp a b ≠ Gt.
#[export] Instance edge_le_dec : RelDecision edge_le.
Proof. intros a b. unfold edge_le. solve_decision. Defined.

(** The two nested loops that collect the edges. *)
Definition edges_of (old : list BlockFingerprint) (new : list ParsedBlock) (config : MatchConfig) : list Edge :=
  mjoin (imap (λ i o, omap (λ jn : nat * ParsedBlock,
    if compatible_containers (bf_container o) (pb_container jn.2) then
      let score := compute_score o jn.2 i jn.1 (length old) in
      if (min_match_score config <=? score)%N then Some (score, i, jn.1) else None
    else None) (imap pair new)) old).

(** The greedy loop: the chosen edges in order. *)
Fixpoint choose (edges : list Edge) (matched_old matched_new : gset nat) : list Edge :=
  match edges with
  | [] => []
  | (score, i, j) :: edges =>
    if decide (i ∈ matched_old ∨ j ∈ matched_new) then choose edges matched_old matched_new
    else (score, i, j) :: choose edges ({[i]} ∪ matched_old) ({[j]} ∪ matched_new)
  end.

Definition match_of (old : list BlockFingerprint) (config : MatchConfig) (e : Edge) : option BlockMatch :=
  (λ o, mkMatch (bf_block_id o) (bf_block_id o) e.2 e.1.1
          (if (exact_threshold config <=? e.1.1)%N then ExactFingerprint else FuzzyContent))
    <$> old !! e.1.2.

(** The first match whose old block is similar enough. *)
Definition copy_source (old : list BlockFingerprint) (config : MatchConfig) (ms : list BlockMatch)
    (new : ParsedBlock) : option BlockId :=
  find_map (λ m,
    '(_, o) ← list_find (λ o, bf_block_id o = bm_old_id m) old;
    if (copy_threshold config <? fingerprint_similarity_int (bf_fingerprint o) (pb_fingerprint new))%N
    then Some (bm_old_id m) else None) ms.

Definition match_blocks (old_state : LastFlushedState) (new : list ParsedBlock) (config : MatchConfig) :
    BlockMapping :=
  let old := flushed_blocks old_state in
  let chosen := choose (merge_sort edge_le (edges_of old new config)) ∅ ∅ in
  let ms := omap (match_of old config) chosen in
  mkMapping ms
    (omap (λ io : nat * BlockFingerprint,
       if decide (io.1 ∈ (λ e : Edge, e.1.2) <$> chosen) then None else Some (bf_block_id io.2))
       (imap pair old))
    (omap (λ jn : nat * ParsedBlock,
       if decide (jn.1 ∈ (λ e : Edge, e.2) <$> chosen) then None
       else Some (mkAdded (block_id_for_unmatched_parsed jn.2 jn.1) jn.1 (copy_source old config ms jn.2)))
       (imap pair new)).

Example similarity_example :
  fingerprint_similarity_int (from_content "a b c") (from_content "b c d") = 5000%N ∧
  fingerprint_similarity_int (from_content "a  b") (from_content "b a") = 10000%N.
Proof. by vm_compute. Qed.
