(* ===== verification/MatchProps.v ===== *)
(** * Properties of the matching of blocks

    The greedy loop of [match_blocks] chooses a matching: no block is used
    twice, every block is accounted for, and a pair that was good enough but was
    not chosen lost to one at least as good.  The score is at most 10000, the
    similarity of two fingerprints is the quotient of the sizes of intersection
    and union, and a file that did not change maps to itself. *)

From S2P Require Import Prelude Core Sequence Mark Table Frontmatter Codec Text Block Document Draft Storage.
From S2P Require Import DocumentCache DocumentTree Match.

(** ** Similarity *)

Lemma u32_small n : (n < u32_modulus)%N → u32 n = n.
Proof. apply N.mod_small. Qed.

(** The recursion of [count_common]. *)
Lemma count_common_eq a b i u :
  count_common a b i u =
    match a, b with
    | [], _ => (i, u32 (u + u32 (N.of_nat (length b))))
    | _, [] => (i, u32 (u + u32 (N.of_nat (length a))))
    | x :: a', y :: b' =>
      match N.compare x y with
      | Eq => count_common a' b' (u32 (i + 1)) (u32 (u + 1))
      | Lt => count_common a' b i (u32 (u + 1))
      | Gt => count_common a b' i (u32 (u + 1))
      end
    end%N.
Proof. destruct a as [|x a]; [done|]. by destruct b. Qed.

#[local] Arguments count_common : simpl never.

(** Induction along the loop. *)
Lemma count_ind (P : list N → list N → Prop) :
  (∀ b, P [] b) → (∀ x a, P (x :: a) []) →
  (∀ x a y b, (x = y → P a b) → ((x < y)%N → P a (y :: b)) → ((y < x)%N → P (x :: a) b) → P (x :: a) (y :: b)) →
  ∀ a b, P a b.
Proof.
  intros Hn Hc Hs. induction a as [|x a IHa]; [done|]. induction b as [|y b IHb]; [done|]. apply Hs; auto.
Qed.

Ltac count_induction a b := pattern a, b; apply count_ind; clear a b; [intros b|intros x a|intros x a y b He Hl Hg].

(** The counters in a run without overflow. *)
Lemma count_bounds a b i u :
  (i ≤ u)%N → (u + N.of_nat (length a + length b) < u32_modulus)%N →
  ((count_common a b i u).1 ≤ (count_common a b i u).2)%N.
Proof.
  revert i u. count_induction a b; intros i u Hi Hu; rewrite count_common_eq; simpl in *.
  - rewrite !u32_small by (rewrite ?u32_small; lia). lia.
  - rewrite !u32_small by (rewrite ?u32_small; lia). lia.
  - destruct (N.compare_spec x y); rewrite !u32_small by lia; [apply He|apply Hl|apply Hg]; simpl; done || lia.
Qed.

Abbreviation tokens a := (list_to_set (C := gset N) a).

Lemma sorted_above x l : StronglySorted N.lt (x :: l) → ∀ y, y ∈ tokens l → (x < y)%N.
Proof.
  intros [H _]%StronglySorted_cons y Hy%elem_of_list_to_set. rewrite Forall_forall in H. by apply H.
Qed.
Lemma tokens_sorted_NoDup l : StronglySorted N.lt l → NoDup l.
Proof.
  induction 1 as [|x l Hs IH Hx]; [constructor|]. apply NoDup_cons. split; [|done].
  intros Hin. eapply Forall_forall in Hx; [|exact Hin]. lia.
Qed.

Lemma size_new x (t : gset N) : x ∉ t → size ({[x]} ∪ t) = S (size t).
Proof. intros H. rewrite size_union by set_solver. by rewrite size_singleton. Qed.

(** On sorted lists the loop counts the intersection and the union. *)
Lemma count_common_spec a b i u :
  StronglySorted N.lt a → StronglySorted N.lt b →
  (i ≤ u)%N → (u + N.of_nat (length a + length b) < u32_modulus)%N →
  count_common a b i u =
    (i + N.of_nat (size (tokens a ∩ tokens b)), u + N.of_nat (size (tokens a ∪ tokens b)))%N.
Proof.
  revert i u. count_induction a b; intros i u Ha Hb Hi Hu; rewrite count_common_eq; simpl length in *.
  - rewrite !u32_small by (rewrite ?u32_small; lia). simpl list_to_set.
    rewrite intersection_empty_l_L, union_empty_l_L, size_empty, size_list_to_set by by apply tokens_sorted_NoDup.
    f_equal; lia.
  - rewrite !u32_small by (rewrite ?u32_small; lia).
    rewrite (list_to_set_nil (C := gset N)), intersection_empty_r_L, union_empty_r_L, size_empty, size_list_to_set by by apply tokens_sorted_NoDup.
    f_equal; simpl; lia.
  - pose proof (sorted_above x a Ha) as Hx. pose proof (sorted_above y b Hb) as Hy.
    assert (Ha' : StronglySorted N.lt a) by (by apply StronglySorted_cons in Ha as [_ ?]).
    assert (Hb' : StronglySorted N.lt b) by (by apply StronglySorted_cons in Hb as [_ ?]).
    destruct (N.compare_spec x y) as [<-|Hlt|Hlt]; rewrite !u32_small by lia; simpl list_to_set.
    + rewrite He by (done || simpl; lia).
      replace (({[x]} ∪ tokens a) ∩ ({[x]} ∪ tokens b)) with ({[x]} ∪ (tokens a ∩ tokens b)) by set_solver.
      replace (({[x]} ∪ tokens a) ∪ ({[x]} ∪ tokens b)) with ({[x]} ∪ (tokens a ∪ tokens b)) by set_solver.
      rewrite !size_new; [f_equal; lia|..].
      * intros [H|H]%elem_of_union; [apply Hx in H|apply Hy in H]; lia.
      * intros [H _]%elem_of_intersection. apply Hx in H. lia.
    + rewrite Hl by (done || simpl; lia). simpl list_to_set.
      replace (({[x]} ∪ tokens a) ∩ ({[y]} ∪ tokens b)) with (tokens a ∩ ({[y]} ∪ tokens b)).
      2: { apply leibniz_equiv. intros z. split; [set_solver|].
           intros [[->%elem_of_singleton|?]%elem_of_union K]%elem_of_intersection; [|set_solver].
           apply elem_of_union in K as [->%elem_of_singleton|K%Hy]; lia. }
      rewrite <-(assoc_L (∪) {[x]}), size_new; [f_equal; lia|].
      intros [H%Hx|[->%elem_of_singleton|H%Hy]%elem_of_union]%elem_of_union; lia.
    + rewrite Hg by (done || simpl; lia). simpl list_to_set.
      replace (({[x]} ∪ tokens a) ∩ ({[y]} ∪ tokens b)) with (({[x]} ∪ tokens a) ∩ tokens b).
      2: { apply leibniz_equiv. intros z. split; [set_solver|].
           intros [K [->%elem_of_singleton|?]%elem_of_union]%elem_of_intersection; [|set_solver].
           apply elem_of_union in K as [->%elem_of_singleton|K%Hx]; lia. }
      rewrite (assoc_L (∪) _ {[y]}), (comm_L (∪) _ {[y]}), <-(assoc_L (∪) {[y]}), size_new;
        [f_equal; lia|].
      intros [[->%elem_of_singleton|H%Hx]%elem_of_union|H%Hy]%elem_of_union; lia.
Qed.

(** Tokens that do not exceed the counters. *)
Definition small (f : Fingerprint) : Prop := (N.of_nat (length (fp_tokens f)) ≤ 429496)%N.

Lemma small_fits a b :
  small a → small b → (0 + N.of_nat (length (fp_tokens a) + length (fp_tokens b)) < u32_modulus)%N.
Proof. unfold small, u32_modulus. lia. Qed.

Lemma similarity_le a b : small a → small b → (fingerprint_similarity_int a b ≤ 10000)%N.
Proof.
  intros Ha Hb. pose proof (count_bounds _ _ 0 0 ltac:(lia) (small_fits a b Ha Hb)) as H.
  unfold fingerprint_similarity_int. destruct (fp_tokens a) as [|x ta], (fp_tokens b) as [|y tb]; try lia.
  destruct (count_common _ _ 0 0) as [i u]. simpl in H.
  destruct (i * 10000 <? u32_modulus)%N; [|lia]. destruct (N.eqb_spec u 0); [lia|].
  apply N.Div0.div_le_upper_bound. lia.
Qed.

Lemma count_same a i u :
  (u + N.of_nat (length a) < u32_modulus)%N → (i ≤ u)%N →
  count_common a a i u = (i + N.of_nat (length a), u + N.of_nat (length a))%N.
Proof.
  revert i u. induction a as [|x a IH]; intros i u Hu Hi; rewrite count_common_eq; simpl in *.
  - rewrite !u32_small by (rewrite ?u32_small; simpl; lia). simpl. f_equal; lia.
  - rewrite N.compare_refl, !u32_small by lia. rewrite IH by lia. f_equal; lia.
Qed.

Lemma similarity_same a : small a → fingerprint_similarity_int a a = 10000%N.
Proof.
  unfold small, fingerprint_similarity_int. intros H. destruct (fp_tokens a) as [|x t]; [done|].
  rewrite count_same by (unfold u32_modulus; lia). set (n := length (x :: t)) in *.
  assert (n ≠ 0) by done. rewrite !N.add_0_l.
  destruct (N.ltb_spec (N.of_nat n * 10000) u32_modulus); [|unfold u32_modulus in *; lia].
  destruct (N.eqb_spec (N.of_nat n) 0); [lia|]. rewrite N.mul_comm. apply N.div_mul. lia.
Qed.

(** ** Fingerprints of texts *)

Lemma dedup_tokens_elem x l : x ∈ dedup_tokens l ↔ x ∈ l.
Proof.
  induction l as [|y l IH]; [done|]. rewrite (elem_of_cons l), <-IH. simpl. destruct (dedup_tokens l) as [|z r].
  - rewrite list_elem_of_singleton. set_solver.
  - case_decide; rewrite ?elem_of_cons; naive_solver.
Qed.

Lemma tokens_dedup_sorted l : StronglySorted N.le l → StronglySorted N.lt (dedup_tokens l).
Proof.
  induction 1 as [|x l Hs IH Hall]; [constructor|]. simpl. pose proof (λ y, dedup_tokens_elem y l) as Hel.
  destruct (dedup_tokens l) as [|y r] eqn:E; [repeat constructor|]. case_decide as Hd; [done|].
  apply StronglySorted_cons. split; [|done]. rewrite Forall_forall in Hall.
  assert (Hy : (x < y)%N).
  { specialize (Hall y). rewrite <-Hel in Hall. specialize (Hall ltac:(left)). lia. }
  apply Forall_cons. split; [done|]. apply StronglySorted_cons in IH as [Hr _].
  eapply Forall_impl; [exact Hr|]. simpl. lia.
Qed.

(** The set of the hashes of the words of a text. *)
Definition word_set (s : string) : gset N := list_to_set (stable_hash_string <$> split_whitespace (chars s)).

Lemma fingerprint_tokens s :
  StronglySorted N.lt (fp_tokens (from_content s)) ∧ tokens (fp_tokens (from_content s)) = word_set s.
Proof.
  unfold from_content, word_set. simpl. split.
  - apply tokens_dedup_sorted, (StronglySorted_merge_sort N.le).
  - apply leibniz_equiv. intros x. rewrite !elem_of_list_to_set, dedup_tokens_elem. by rewrite merge_sort_Permutation.
Qed.

(** Similarity.  For texts with at most 429496 different words the
    similarity of their fingerprints is the number of common words divided by
    the number of words of either, in parts of ten thousand, where words are
    counted once and compared by hash; two texts without words have similarity
    10000. *)
Theorem similarity_is_jaccard s t :
  small (from_content s) → small (from_content t) →
  fingerprint_similarity_int (from_content s) (from_content t) =
    if decide (word_set s ∪ word_set t = ∅) then 10000%N
    else ((N.of_nat (size (word_set s ∩ word_set t)) * 10000) `div` N.of_nat (size (word_set s ∪ word_set t)))%N.
Proof.
  intros Hs Ht. destruct (fingerprint_tokens s) as [Ss Es], (fingerprint_tokens t) as [St Et].
  pose proof (count_common_spec _ _ 0 0 Ss St ltac:(lia) (small_fits _ _ Hs Ht)) as Hc. rewrite <-Es, <-Et.
  unfold fingerprint_similarity_int, small in *.
  destruct (fp_tokens (from_content s)) as [|x a] eqn:Ea, (fp_tokens (from_content t)) as [|y b] eqn:Eb.
  - by rewrite decide_True by set_solver.
  - rewrite decide_False by (simpl; set_solver). simpl list_to_set. rewrite intersection_empty_l_L, size_empty. done.
  - rewrite decide_False by (simpl; set_solver). rewrite (list_to_set_nil (C := gset N)), intersection_empty_r_L, size_empty. done.
  - rewrite decide_False by (simpl; set_solver). rewrite Hc, !N.add_0_l.
    set (i := size (tokens (x :: a) ∩ tokens (y :: b))). set (u := size (tokens (x :: a) ∪ tokens (y :: b))).
    assert (i ≤ length (x :: a)).
    { rewrite <-(size_list_to_set (C := gset N) (x :: a)) by by apply tokens_sorted_NoDup. apply subseteq_size. set_solver. }
    assert (u ≠ 0).
    { unfold u. intros H0%size_empty_inv. simpl in H0. set_solver. }
    destruct (N.ltb_spec (N.of_nat i * 10000) u32_modulus); [|unfold u32_modulus in *; lia].
    destruct (N.eqb_spec (N.of_nat u) 0); [lia|done].
Qed.

Lemma similarity_is_jaccard_witness :
  fingerprint_similarity_int (from_content "a b c") (from_content "b c d") = 5000%N.
Proof.
  etrans; [apply (similarity_is_jaccard "a b c" "b c d"); by vm_compute|].
  by vm_compute.
Defined.

(** ** Scores *)

Lemma score_le o n i j t :
  small (bf_fingerprint o) → small (pb_fingerprint n) → (compute_score o n i j t ≤ 10000)%N.
Proof.
  intros Ho Hn. unfold compute_score. cbv zeta. pose proof (similarity_le _ _ Ho Hn).
  set (c := if decide _ then _ else _). assert (c ≤ 10000)%N by (unfold c; repeat case_match; lia).
  set (p := (10000 - _)%N). assert (p ≤ 10000)%N by apply N.le_sub_l.
  rewrite u32_small by (unfold u32_modulus; lia).
  apply N.Div0.div_le_upper_bound. lia.
Qed.

Definition to_parsed (o : BlockFingerprint) : ParsedBlock :=
  mkParsedBlock (bf_fingerprint o) (bf_container o) (bf_position o).

Lemma score_same o i t : small (bf_fingerprint o) → compute_score o (to_parsed o) i i t = 10000%N.
Proof.
  intros Ho. unfold compute_score, to_parsed. simpl. rewrite similarity_same by done.
  rewrite decide_True, Nat.sub_diag by done. simpl. by rewrite N.Div0.div_0_l.
Qed.

(** ** The order of the edges *)

Lemma cmp_then_refl_sym c d : cmp_then c d = Gt ↔ c = Gt ∨ c = Eq ∧ d = Gt.
Proof. destruct c; simpl; naive_solver. Qed.

Lemma edge_le_spec (a b : Edge) :
  edge_le a b ↔ (b.1.1 < a.1.1)%N ∨ b.1.1 = a.1.1 ∧ (a.1.2 < b.1.2 ∨ a.1.2 = b.1.2 ∧ a.2 ≤ b.2).
Proof.
  unfold edge_le, edge_cmp. destruct a as [[s i] j], b as [[s' i'] j']. simpl.
  destruct (N.compare_spec s' s), (Nat.compare_spec i i'), (Nat.compare_spec j j'); simpl; split; try done; try lia;
    intros; lia.
Qed.
#[export] Instance edge_le_total : Total edge_le.
Proof. intros a b. rewrite !edge_le_spec. lia. Qed.
#[export] Instance edge_le_trans : Transitive edge_le.
Proof. intros a b c. rewrite !edge_le_spec. lia. Qed.
#[export] Instance edge_le_antisymm : AntiSymm (=) edge_le.
Proof.
  intros [[s i] j] [[s' i'] j']. rewrite !edge_le_spec. simpl. intros. f_equal; [f_equal|]; lia.
Qed.

(** ** The greedy loop *)

Lemma choose_sublist es mo mn : choose es mo mn `sublist_of` es.
Proof.
  revert mo mn. induction es as [|[[s i] j] es IH]; intros mo mn; simpl; [done|]. case_decide; by constructor.
Qed.

Lemma choose_sorted es mo mn : StronglySorted edge_le es → StronglySorted edge_le (choose es mo mn).
Proof.
  intros Hs. revert mo mn. induction Hs as [|[[s i] j] es Hs IH Hall]; intros mo mn; simpl; [constructor|].
  case_decide; [apply IH|]. apply StronglySorted_cons. split; [|apply IH].
  eapply Forall_impl; [|done]. rewrite Forall_forall in *. intros e He. apply Hall.
  eapply elem_of_sublist; [exact He|apply choose_sublist].
Qed.

Lemma choose_fresh es mo mn e : e ∈ choose es mo mn → (e.1.2 ∉ mo) ∧ (e.2 ∉ mn).
Proof.
  revert mo mn. induction es as [|[[s i] j] es IH]; intros mo mn; simpl; [by intros ?%not_elem_of_nil|].
  case_decide as Hd; [apply IH|]. intros [->|He]%elem_of_cons; [simpl; set_solver|]. apply IH in He. set_solver.
Qed.

Lemma choose_NoDup es mo mn :
  NoDup ((λ e : Edge, e.1.2) <$> choose es mo mn) ∧ NoDup ((λ e : Edge, e.2) <$> choose es mo mn).
Proof.
  revert mo mn. induction es as [|[[s i] j] es IH]; intros mo mn; simpl; [split; constructor|].
  case_decide as Hd; [apply IH|]. destruct (IH ({[i]} ∪ mo) ({[j]} ∪ mn)) as [Ho Hn].
  rewrite !fmap_cons, !NoDup_cons. split; split; try done; simpl;
    intros (e & He & Hin)%list_elem_of_fmap; apply choose_fresh in Hin; set_solver.
Qed.

(** An edge that is not chosen is blocked by an earlier one. *)
Lemma choose_maximal es mo mn e :
  StronglySorted edge_le es → e ∈ es → e.1.2 ∉ mo → e.2 ∉ mn →
  ∃ c, c ∈ choose es mo mn ∧ (c.1.2 = e.1.2 ∨ c.2 = e.2) ∧ edge_le c e.
Proof.
  intros Hs. revert mo mn. induction Hs as [|[[s i] j] es Hs IH Hall]; intros mo mn He Ho Hn; [by apply not_elem_of_nil in He|].
  rewrite Forall_forall in Hall. simpl. apply elem_of_cons in He as [->|He].
  - rewrite decide_False by (simpl in *; tauto). exists (s, i, j). split; [left|]. split; [by left|].
    apply edge_le_spec. lia.
  - destruct (decide _) as [Hd|Hd].
    + destruct (IH mo mn He Ho Hn) as (c & ? & ?). by exists c.
    + destruct (decide (e.1.2 = i ∨ e.2 = j)) as [Hij|Hij].
      * exists (s, i, j). split; [left|]. split; [naive_solver|]. by apply Hall.
      * destruct (IH ({[i]} ∪ mo) ({[j]} ∪ mn) He) as (c & ? & ?); [set_solver..|]. exists c. split; [by right|done].
Qed.

(** ** The edges *)

Lemma elem_of_edges old new config e :
  e ∈ edges_of old new config ↔
  ∃ o n, old !! e.1.2 = Some o ∧ new !! e.2 = Some n ∧
    compatible_containers (bf_container o) (pb_container n) = true ∧
    e.1.1 = compute_score o n e.1.2 e.2 (length old) ∧ (min_match_score config ≤ e.1.1)%N.
Proof.
  unfold edges_of. rewrite list_elem_of_join. split.
  - intros (l & He & (i & o & -> & Ho)%elem_of_lookup_imap_1).
    apply list_elem_of_omap in He as ([j n] & Hj & He). apply elem_of_lookup_imap_1 in Hj as (j' & n' & [= -> ->] & Hn).
    simpl in He. destruct (compatible_containers _ _) eqn:Ec; [|done]. destruct (N.leb_spec (min_match_score config)
      (compute_score o n' i j' (length old))); [|done]. injection He as <-. simpl. eauto 10.
  - destruct e as [[s i] j]. simpl. intros (o & n & Ho & Hn & Hc & -> & Hm). eexists. split; [|by eapply elem_of_lookup_imap_2].
    apply list_elem_of_omap. exists (j, n). split; [by apply (elem_of_lookup_imap_2 pair)|].
    simpl. rewrite Hc. destruct (N.leb_spec (min_match_score config) (compute_score o n i j (length old))); [done|lia].
Qed.

(** ** Accounting *)

Lemma omap_ext_in {A B} (f g : A → option B) (l : list A) : (∀ x, x ∈ l → f x = g x) → omap f l = omap g l.
Proof.
  intros H. apply list_omap_ext, Forall_Forall2_diag, Forall_forall, H.
Qed.

Lemma omap_filtered {A B} (P : A → Prop) `{!∀ x, Decision (P x)} (f g : A → option B) (l : list A) :
  (∀ x, g x = if decide (P x) then f x else None) → omap g l = omap f (filter P l).
Proof.
  intros Hg. induction l as [|x l IH]; [done|]. rewrite filter_cons. csimpl. rewrite Hg.
  destruct (decide (P x)); csimpl; by rewrite IH.
Qed.

Lemma omap_none {A B} (f : A → option B) (l : list A) : (∀ x, x ∈ l → f x = None) → omap f l = [].
Proof.
  intros H. induction l as [|x l IH]; [done|]. csimpl. rewrite (H x) by left. apply IH. intros y Hy. apply H. by right.
Qed.
Lemma omap_fmap {A B C} (f : B → option C) (g : A → B) (l : list A) : omap f (g <$> l) = omap (λ x, f (g x)) l.
Proof. induction l as [|x l IH]; [done|]. csimpl. by rewrite IH. Qed.

(** A loop over an enumerated list, by index. *)
Lemma omap_enumerate {A B} (g : nat * A → option B) (l : list A) :
  omap g (imap pair l) = omap (λ i, l !! i ≫= λ x, g (i, x)) (seq 0 (length l)).
Proof.
  induction l as [|x l IH] using rev_ind; [done|].
  rewrite imap_app, length_app, seq_app, !omap_app. simpl. rewrite Nat.add_0_r. f_equal.
  - rewrite IH. apply omap_ext_in. intros i Hi%elem_of_seq. by rewrite lookup_app_l by lia.
  - rewrite lookup_app_r, Nat.sub_diag by lia. done.
Qed.

Lemma imap_enumerate {A B} (f : nat → A → B) (l : list A) :
  imap f l = omap (λ i, f i <$> l !! i) (seq 0 (length l)).
Proof.
  transitivity (omap (λ ix : nat * A, Some (f ix.1 ix.2)) (imap pair l)).
  - induction l as [|x l IH] using rev_ind; [done|]. rewrite !imap_app, omap_app, IH. done.
  - rewrite omap_enumerate. apply omap_ext_in. intros i _. by destruct (l !! i).
Qed.

Lemma split_indices (ids : list nat) n :
  NoDup ids → (∀ i, i ∈ ids → i < n) → ids ++ filter (λ i, i ∉ ids) (seq 0 n) ≡ₚ seq 0 n.
Proof.
  intros Hnd Hlt. apply NoDup_Permutation; [|apply NoDup_seq|].
  - apply NoDup_app. split_and!; [done| |apply NoDup_filter, NoDup_seq]. intros i Hi [? _]%list_elem_of_filter. done.
  - intros i. rewrite elem_of_app, list_elem_of_filter, elem_of_seq. destruct (decide (i ∈ ids)) as [Hi|]; [|naive_solver lia].
    apply Hlt in Hi as ?. naive_solver lia.
Qed.

(** The indices that a loop over the remaining elements visits. *)
Lemma rest_indices {A B} (g : nat * A → B) (k : B → nat) (l : list A) (ids : list nat) :
  (∀ x, k (g x) = x.1) →
  k <$> omap (λ ix : nat * A, if decide (ix.1 ∈ ids) then None else Some (g ix)) (imap pair l) =
    filter (λ i, i ∉ ids) (seq 0 (length l)).
Proof.
  intros Hk. rewrite omap_enumerate.
  transitivity (k <$> omap (λ i, if decide (i ∈ ids) then None else (λ x, g (i, x)) <$> l !! i) (seq 0 (length l))).
  { f_equal. apply omap_ext_in. intros i _. destruct (l !! i); simpl; by case_decide. }
  assert (Hs : ∀ i, i ∈ seq 0 (length l) → i < length l) by (intros i; rewrite elem_of_seq; lia).
  induction (seq 0 (length l)) as [|i s IH]; [done|]. rewrite filter_cons. csimpl.
  destruct (lookup_lt_is_Some_2 l i) as [x ->]; [apply Hs; left|]. csimpl.
  repeat case_decide; csimpl; try tauto; rewrite IH by (intros; apply Hs; by right); [done|]. by rewrite Hk.
Qed.

(** Chosen and remaining indices together give the list. *)
Lemma accounted {A B} (f : A → B) (l : list A) (ids : list nat) :
  NoDup ids → (∀ i, i ∈ ids → i < length l) →
  omap (λ i, f <$> l !! i) ids ++
    omap (λ ix : nat * A, if decide (ix.1 ∈ ids) then None else Some (f ix.2)) (imap pair l) ≡ₚ f <$> l.
Proof.
  intros Hnd Hlt. rewrite omap_enumerate.
  pose proof (split_indices ids (length l) Hnd Hlt) as Hsplit.
  assert (Hall : omap (λ i, f <$> l !! i) (seq 0 (length l)) = f <$> l).
  { clear. induction l as [|x l IH] using rev_ind; [done|].
    rewrite length_app, seq_app, omap_app, fmap_app. simpl. rewrite lookup_app_r, Nat.sub_diag by lia. simpl.
    rewrite <-IH. f_equal. apply omap_ext_in. intros i Hi%elem_of_seq. by rewrite lookup_app_l by lia. }
  rewrite <-Hall. transitivity (omap (λ i, f <$> l !! i) (ids ++ filter (λ i, i ∉ ids) (seq 0 (length l))));
    [|by rewrite Hsplit].
  rewrite omap_app. apply Permutation_app_head, reflexive_eq.
  apply omap_filtered. intros i. destruct (l !! i) as [x|]; simpl; repeat case_decide; tauto || done.
Qed.

Section matching.
Context (old : list BlockFingerprint) (new : list ParsedBlock) (config : MatchConfig).

Definition chosen_edges : list Edge := choose (merge_sort edge_le (edges_of old new config)) ∅ ∅.

Lemma chosen_edge e : e ∈ chosen_edges → e ∈ edges_of old new config.
Proof.
  intros He. unfold chosen_edges in He. eapply elem_of_sublist in He; [|apply choose_sublist].
  by rewrite merge_sort_Permutation in He.
Qed.

Lemma chosen_indices :
  NoDup ((λ e : Edge, e.1.2) <$> chosen_edges) ∧ (∀ i, i ∈ (λ e : Edge, e.1.2) <$> chosen_edges → i < length old) ∧
  NoDup ((λ e : Edge, e.2) <$> chosen_edges) ∧ (∀ j, j ∈ (λ e : Edge, e.2) <$> chosen_edges → j < length new).
Proof.
  destruct (choose_NoDup (merge_sort edge_le (edges_of old new config)) ∅ ∅) as [Ho Hn]. split_and!; try done;
    intros i (e & -> & He%chosen_edge)%list_elem_of_fmap; apply elem_of_edges in He as (o & n & Ho' & Hn' & _);
    by eapply lookup_lt_Some.
Qed.

Lemma chosen_maximal e :
  e ∈ edges_of old new config → ∃ c, c ∈ chosen_edges ∧ (c.1.2 = e.1.2 ∨ c.2 = e.2) ∧ edge_le c e.
Proof.
  intros He. apply choose_maximal; [|by rewrite merge_sort_Permutation|set_solver..].
  apply (StronglySorted_merge_sort edge_le).
Qed.

(** The matches of a list of chosen edges, field by field. *)
Lemma matches_old (es : list Edge) :
  bm_old_id <$> omap (match_of old config) es = omap (λ i, bf_block_id <$> old !! i) ((λ e : Edge, e.1.2) <$> es).
Proof.
  induction es as [|e es IH]; [done|]. csimpl. unfold match_of at 1. destruct (old !! e.1.2); csimpl; by rewrite IH.
Qed.
Lemma matches_new (es : list Edge) :
  (∀ e, e ∈ es → e.1.2 < length old) →
  bm_new_index <$> omap (match_of old config) es = (λ e : Edge, e.2) <$> es.
Proof.
  induction es as [|e es IH]; intros H; [done|]. csimpl. unfold match_of at 1.
  destruct (lookup_lt_is_Some_2 old e.1.2) as [o ->]; [apply H; left|]. csimpl. rewrite IH; [done|].
  intros e' He. apply H. by right.
Qed.
End matching.

(** C34: The matching of blocks.  Every old block is kept by one match or
    removed, every new block is the target of one match or added, none of them
    twice; a match pairs blocks in compatible containers, keeps the old id and
    has its score, which reaches the minimum, as confidence; and the choice is
    stable: for every compatible pair that reaches the minimum there is a match
    of one of its two blocks with at least its score. *)
Theorem match_blocks_spec old_state new config :
  let old := flushed_blocks old_state in
  let r := match_blocks old_state new config in
  (bm_old_id <$> matched r) ++ removed r ≡ₚ bf_block_id <$> old ∧
  (bm_new_index <$> matched r) ++ (ab_new_index <$> added r) ≡ₚ seq 0 (length new) ∧
  Forall (λ m, bm_new_id m = bm_old_id m ∧
    ∃ i o n, old !! i = Some o ∧ new !! bm_new_index m = Some n ∧ bm_old_id m = bf_block_id o ∧
      compatible_containers (bf_container o) (pb_container n) = true ∧
      bm_confidence m = compute_score o n i (bm_new_index m) (length old) ∧
      (min_match_score config ≤ bm_confidence m)%N) (matched r) ∧
  ∀ i j o n, old !! i = Some o → new !! j = Some n →
    compatible_containers (bf_container o) (pb_container n) = true →
    (min_match_score config ≤ compute_score o n i j (length old))%N →
    ∃ m, m ∈ matched r ∧ (bm_new_index m = j ∨ bm_old_id m = bf_block_id o) ∧
      (compute_score o n i j (length old) ≤ bm_confidence m)%N.
Proof.
  intros old r. destruct (chosen_indices old new config) as (Ho & Hio & Hn & Hin). split_and!.
  - simpl. fold (chosen_edges old new config). rewrite matches_old. by apply accounted.
  - simpl. fold (chosen_edges old new config).
    rewrite matches_new by (intros e He; apply Hio, list_elem_of_fmap; eauto).
    rewrite (rest_indices (λ jn, mkAdded _ jn.1 _)) by done. by apply split_indices.
  - apply Forall_forall. intros m (e & He & Hm)%list_elem_of_omap. unfold match_of in Hm.
    apply chosen_edge, elem_of_edges in He as (o & n & Ho' & Hn' & Hc & Hs & Hmin). rewrite Ho' in Hm.
    injection Hm as <-. simpl. split; [done|]. exists e.1.2, o, n. by split_and!.
  - intros i j o n Hi Hj Hc Hs.
    destruct (chosen_maximal old new config (compute_score o n i j (length old), i, j)) as (c & Hin' & Hij & Hle).
    { apply elem_of_edges. simpl. eauto 10. }
    pose proof Hin' as (o' & n' & Ho' & _)%chosen_edge%elem_of_edges. apply edge_le_spec in Hle. simpl in *.
    destruct (match_of old config c) as [m|] eqn:Em; pose proof Em as Em'; unfold match_of in Em';
      rewrite Ho' in Em'; [|done].
    exists m. split; [apply list_elem_of_omap; exists c; split; [exact Hin'|exact Em]|].
    injection Em' as <-. simpl. split; [|lia]. destruct Hij as [Eij|]; [right|by left]. rewrite Eij in Ho'. by simplify_eq.
Qed.

(** ** Unchanged files *)

Section unchanged.
Context (debug_info : option string → string).

Lemma collect_map {A B} (g : A → B) mk mk' :
  (∀ id f c i, mk' id f c i = g (mk id f c i)) →
  ∀ n b c i out, block_height b < n →
    collect debug_info mk' c i b (g <$> out) = g <$> collect debug_info mk c i b out.
Proof.
  intros Hg. induction n as [|n IH]; intros b c i out Hb; [lia|].
  pose proof (block_height_child (mkOpId 0 0) b) as Hch. destruct b as [id e o ob k m].
  destruct k as [| | | |children| |]; simpl; try (rewrite fmap_app; simpl; by rewrite Hg). simpl in Hch.
  specialize (Hch (InBlockQuote (mkOpId 0 0), children)). rewrite !iter_fold_live.
  assert (Hlive : ∀ x, x ∈ live_elems children → block_height x.2 < n).
  { intros x Hx. apply sequence_height_ge in Hx. specialize (Hch ltac:(by left)). simpl in *. lia. }
  generalize 0. revert out. induction (live_elems children) as [|x l IHl]; intros out j; simpl; [done|].
  rewrite IH by (apply Hlive; left). apply IHl. intros y Hy. apply Hlive. by right.
Qed.

Lemma parsed_fingerprints d : parsed_blocks_from_doc debug_info d = to_parsed <$> fingerprint_document debug_info d.
Proof.
  unfold parsed_blocks_from_doc, fingerprint_document, collect_document.
  change (@nil ParsedBlock) with (to_parsed <$> @nil BlockFingerprint). generalize (@nil BlockFingerprint), 0.
  induction (blocks_in_order d) as [|b l IH]; intros out j; simpl; [done|].
  rewrite (collect_map to_parsed mkBlockFingerprint (λ _, mkParsedBlock)) with (n := S (block_height b)) by (done || lia).
  apply IH.
Qed.
End unchanged.

Section identity.
Context (old : list BlockFingerprint) (config : MatchConfig).
Context (Hsmall : Forall (λ o, small (bf_fingerprint o)) old) (Hmin : (min_match_score config ≤ 10000)%N).

Abbreviation new := (to_parsed <$> old).

Lemma old_small i o : old !! i = Some o → small (bf_fingerprint o).
Proof. intros H. rewrite Forall_forall in Hsmall. by eapply Hsmall, list_elem_of_lookup_2. Qed.

Lemma edge_bound e : e ∈ edges_of old new config → (e.1.1 ≤ 10000)%N.
Proof.
  intros (o & n & Ho & Hn & _ & -> & _)%elem_of_edges. rewrite list_lookup_fmap in Hn.
  apply fmap_Some in Hn as (o' & Ho' & ->). apply score_le; by eapply old_small.
Qed.

Lemma diagonal_edge i o : old !! i = Some o → (10000%N, i, i) ∈ edges_of old new config.
Proof.
  intros Ho. apply elem_of_edges. exists o, (to_parsed o). simpl. rewrite score_same by by eapply old_small.
  split_and!; [done|by rewrite list_lookup_fmap, Ho| |done|done].
  unfold compatible_containers. by rewrite bool_decide_true.
Qed.

(** A chosen edge is determined by either end. *)
Lemma same_edge c c' :
  c ∈ chosen_edges old new config → c' ∈ chosen_edges old new config → c.1.2 = c'.1.2 ∨ c.2 = c'.2 → c = c'.
Proof.
  destruct (chosen_indices old new config) as (Ho & _ & Hn & _).
  intros (i & Hi)%list_elem_of_lookup (j & Hj)%list_elem_of_lookup Heq.
  enough (i = j) as -> by congruence. destruct Heq as [Heq|Heq].
  - apply (NoDup_lookup ((λ e : Edge, e.1.2) <$> chosen_edges old new config) i j c.1.2 Ho);
      rewrite list_lookup_fmap; apply fmap_Some; eauto.
  - apply (NoDup_lookup ((λ e : Edge, e.2) <$> chosen_edges old new config) i j c.2 Hn);
      rewrite list_lookup_fmap; apply fmap_Some; eauto.
Qed.

Lemma diagonal_chosen i : i < length old → (10000%N, i, i) ∈ chosen_edges old new config.
Proof.
  induction (lt_wf i) as [i _ IH]. intros Hi. destruct (lookup_lt_is_Some_2 old i Hi) as [o Ho].
  destruct (chosen_maximal old new config _ (diagonal_edge i o Ho)) as (c & Hc & Hij & Hle).
  pose proof (edge_bound c (chosen_edge _ _ _ _ Hc)). apply edge_le_spec in Hle. simpl in *.
  assert (Hdiag : ∀ k, k < i → c.1.2 = k ∨ c.2 = k → c = (10000%N, k, k)).
  { intros k Hk Hck. apply same_edge; [done|apply IH; lia|done]. }
  destruct (decide (c.1.2 < i)) as [Hlt|Hlt]; [specialize (Hdiag _ Hlt (or_introl eq_refl)); rewrite Hdiag in Hij; simpl in *; lia|].
  destruct (decide (c.2 < i)) as [Hlt'|Hlt']; [specialize (Hdiag _ Hlt' (or_intror eq_refl)); rewrite Hdiag in Hlt; simpl in *; lia|].
  destruct c as [[s a] b]. simpl in *. replace (10000%N, i, i) with (s, a, b); [done|]. f_equal; [f_equal|]; lia.
Qed.

Lemma chosen_diagonal : chosen_edges old new config = (λ i, (10000%N, i, i)) <$> seq 0 (length old).
Proof.
  assert (Hin : ∀ e, e ∈ chosen_edges old new config ↔ e ∈ (λ i, (10000%N, i, i)) <$> seq 0 (length old)).
  { intros e. rewrite list_elem_of_fmap. split.
    - intros He. exists e.1.2. assert (Hi : e.1.2 < length old).
      { apply (chosen_indices old new config), list_elem_of_fmap. eauto. }
      split; [|apply elem_of_seq; lia]. apply same_edge; [done|by apply diagonal_chosen|by left].
    - intros (i & -> & [_ Hi]%elem_of_seq). by apply diagonal_chosen. }
  apply (StronglySorted_unique edge_le).
  - apply choose_sorted, (StronglySorted_merge_sort edge_le).
  - clear. generalize (length old), 0. induction n as [|n IH]; intros a; simpl; [constructor|].
    apply StronglySorted_cons. split; [|apply IH]. apply Forall_forall.
    intros e (i & -> & Hi%elem_of_seq)%list_elem_of_fmap. apply edge_le_spec. simpl. lia.
  - apply NoDup_Permutation; [| |done].
    + eapply NoDup_fmap_1, (chosen_indices old new config).
    + apply NoDup_fmap_2; [by intros ? ? [= ->]|apply NoDup_seq].
Qed.
End identity.

Lemma match_diagonal old hash config :
  Forall (λ o, small (bf_fingerprint o)) old →
  (min_match_score config ≤ 10000)%N → (exact_threshold config ≤ 10000)%N →
  match_blocks (mkFlushed hash old) (to_parsed <$> old) config =
    mkMapping (imap (λ i o, mkMatch (bf_block_id o) (bf_block_id o) i 10000 ExactFingerprint) old) [] [].
Proof.
  intros Hs Hm He. unfold match_blocks. simpl. fold (chosen_edges old (to_parsed <$> old) config).
  rewrite (chosen_diagonal old config Hs Hm). rewrite <-!list_fmap_compose.
  assert (Hids : ∀ i, i < length old → i ∈ (λ i, i) <$> seq 0 (length old)).
  { intros i Hi. rewrite list_fmap_id. apply elem_of_seq. lia. }
  f_equal.
  - rewrite imap_enumerate, omap_fmap. apply omap_ext_in. intros i Hi%elem_of_seq. unfold match_of. simpl.
    destruct (N.leb_spec (exact_threshold config) 10000); [done|lia].
  - apply omap_none. intros x (i & o & -> & Ho)%elem_of_lookup_imap_1. apply decide_True.
    by apply Hids, (lookup_lt_Some _ _ o).
  - apply omap_none. intros x (i & o & -> & Ho)%elem_of_lookup_imap_1. apply decide_True.
    apply lookup_lt_Some in Ho. rewrite length_fmap in Ho. by apply Hids.
Qed.

(** An unchanged file.  If the blocks of a document are matched with
    themselves, by a configuration that accepts the largest score and
    fingerprints of at most 429496 tokens, every block is matched exactly with
    itself, in order, and nothing is removed or added; so nothing changes. *)
Theorem unchanged_file_matches debug_info d hash config :
  Forall (λ o, small (bf_fingerprint o)) (fingerprint_document debug_info d) →
  (min_match_score config ≤ 10000)%N → (exact_threshold config ≤ 10000)%N →
  match_blocks (mkFlushed hash (fingerprint_document debug_info d)) (parsed_blocks_from_doc debug_info d) config =
    mkMapping (imap (λ i o, mkMatch (bf_block_id o) (bf_block_id o) i 10000 ExactFingerprint)
                 (fingerprint_document debug_info d)) [] [].
Proof. rewrite parsed_fingerprints. apply match_diagonal. Qed.

Definition plain_document : Document :=
  (insert_block_at true None None (mkOpId 1 1) (block_new (RawBlock "a b") (mkOpId 1 1)) None doc_new).1.

Lemma unchanged_file_matches_witness :
  match_blocks (mkFlushed 0 (fingerprint_document (λ _, EmptyString) plain_document))
      (parsed_blocks_from_doc (λ _, EmptyString) plain_document) default_match_config =
    mkMapping [mkMatch (block_id_from_op (mkOpId 1 1)) (block_id_from_op (mkOpId 1 1)) 0 10000 ExactFingerprint] [] [].
Proof.
  refine (unchanged_file_matches (λ _, EmptyString) plain_document 0 default_match_config _ _ _); [|done|done].
  apply Forall_cons. split; [by vm_compute|constructor].
Defined.
