(* ===== verification/Chars.v ===== *)
(** * Characters: Rust string functions the Markdown code uses

    The parser, the inline parser and the serializer slice strings at positions
    they found by scanning.  They are modelled on lists of Unicode scalar
    values; a position that is only used to slice again counts characters, and
    [utf8] gives the byte string that a block stores. *)

From S2P Require Import Prelude Frontmatter Draft.

(** ** Named characters *)

Definition c_tab : N := 9.
Definition c_space : N := 32.
Definition c_hash : N := 35.
Definition c_lparen : N := 40.
Definition c_rparen : N := 41.
Definition c_star : N := 42.
Definition c_plus : N := 43.
Definition c_dash : N := 45.
Definition c_period : N := 46.
Definition c_equals : N := 61.
Definition c_greater : N := 62.
Definition c_lbracket : N := 91.
Definition c_backslash : N := 92.
Definition c_rbracket : N := 93.
Definition c_backtick : N := 96.
Definition c_pipe : N := 124.
Definition c_tilde : N := 126.

(** ** UTF-8 *)

(** [char::encode_utf8]. *)
Definition utf8_char (c : N) : list N :=
  if (c <? 128)%N then [c]
  else if (c <? 2048)%N then [192 + c `div` 64; 128 + c `mod` 64]%N
  else if (c <? 65536)%N
  then [224 + c `div` 4096; 128 + (c `div` 64) `mod` 64; 128 + c `mod` 64]%N
  else [240 + c `div` 262144; 128 + (c `div` 4096) `mod` 64;
        128 + (c `div` 64) `mod` 64; 128 + c `mod` 64]%N.

Definition string_of_bytes : list N → string :=
  foldr (λ b s, String (Ascii.ascii_of_N b) s) EmptyString.

(** The bytes of a string. *)
Definition utf8 (s : ustring) : string := string_of_bytes (s ≫= utf8_char).

(** A scalar value. *)
Definition scalar (c : N) : bool := (c <? 1114112)%N.

(** ** Slices and searches *)

(** [take_while(p)] and the rest. *)
Fixpoint span_while (p : N → bool) (s : ustring) : ustring * ustring :=
  match s with
  | c :: s' => if p c then prod_map (cons c) id (span_while p s') else ([], s)
  | [] => ([], [])
  end.

(** [trim_start_matches(c)], [trim_end_matches(c)], [trim_matches(c)]. *)
Fixpoint trim_start_matches (c : N) (s : ustring) : ustring :=
  match s with
  | d :: s' => if decide (d = c) then trim_start_matches c s' else s
  | [] => []
  end.
Definition trim_end_matches (c : N) (s : ustring) : ustring :=
  reverse (trim_start_matches c (reverse s)).
Definition trim_matches (c : N) (s : ustring) : ustring :=
  trim_end_matches c (trim_start_matches c s).

(** [starts_with(c)], [ends_with(c)], [starts_with([..])], [contains(c)]. *)
Definition starts_with_char (c : N) (s : ustring) : bool := bool_decide (head s = Some c).
Definition ends_with_char (c : N) (s : ustring) : bool := bool_decide (last s = Some c).
Definition is_blank (c : N) : bool := bool_decide (c = c_space) || bool_decide (c = c_tab).
Definition starts_with_blank (s : ustring) : bool :=
  match head s with Some c => is_blank c | None => false end.
Definition ends_with_blank (s : ustring) : bool :=
  match last s with Some c => is_blank c | None => false end.
Definition str_contains (c : N) (s : ustring) : bool := bool_decide (c ∈ s).
Definition starts_with (pat s : ustring) : bool := bool_decide (pat `prefix_of` s).

(** [strip_prefix] and [strip_suffix] of one character, [strip_prefix] of a
    string, and of a blank. *)
Definition strip_char (c : N) (s : ustring) : option ustring :=
  match s with d :: s => if decide (d = c) then Some s else None | [] => None end.
Fixpoint strip_str (pat s : ustring) : option ustring :=
  match pat with
  | [] => Some s
  | c :: pat => strip_char c s ≫= strip_str pat
  end.
Definition strip_blank (s : ustring) : option ustring :=
  match s with c :: s => if is_blank c then Some s else None | [] => None end.

(** [find]: where a pattern first occurs. *)
Fixpoint find_sub (pat s : ustring) : option nat :=
  if starts_with pat s then Some 0
  else match s with
  | [] => None
  | _ :: s => S <$> find_sub pat s
  end.

(** [split_inclusive('\n')]: the pieces keep their newline. *)
Fixpoint split_inclusive_from (s segment : ustring) : list ustring :=
  match s with
  | [] => if decide (segment = []) then [] else [segment]
  | c :: s =>
    if decide (c = newline) then (segment ++ [c]) :: split_inclusive_from s []
    else split_inclusive_from s (segment ++ [c])
  end.
Definition split_inclusive (s : ustring) : list ustring := split_inclusive_from s [].

(** ** Lemmas *)

Lemma lt_div (a b c : N) : (b ≠ 0)%N → (a < b * c)%N → (a `div` b < c)%N.
Proof. intros Hb H. by apply N.Div0.div_lt_upper_bound. Qed.

Lemma ascii_N b : (b < 256)%N → Ascii.N_of_ascii (Ascii.ascii_of_N b) = b.
Proof. apply Ascii.N_ascii_embedding. Qed.

Lemma string_of_bytes_app a b :
  string_of_bytes (a ++ b) = String.append (string_of_bytes a) (string_of_bytes b).
Proof. induction a as [|x a IH]; [done|]. exact (f_equal (String _) IH). Qed.

Lemma append_cons a s t : String.append (String a s) t = String a (String.append s t).
Proof. done. Qed.
Lemma append_nil t : String.append EmptyString t = t.
Proof. done. Qed.

(** [chars] on a sequence of one to four bytes. *)
Ltac decide_bytes :=
  repeat match goal with
         | |- context [Ascii.N_of_ascii (Ascii.ascii_of_N ?b)] => rewrite (ascii_N b) by lia
         | |- context [(?a <? ?b)%N] =>
           first [rewrite (proj2 (N.ltb_lt a b)) by lia | rewrite (proj2 (N.ltb_ge a b)) by lia]
         end.

Lemma chars_utf8_char c s : scalar c = true →
  chars (String.append (string_of_bytes (utf8_char c)) s) = c :: chars s.
Proof.
  unfold scalar, utf8_char. intros Hc%N.ltb_lt.
  pose proof (N.Div0.div_mod c 64) as H0. pose proof (N.mod_lt c 64 ltac:(done)) as L0.
  pose proof (N.Div0.div_mod (c `div` 64) 64) as H1.
  pose proof (N.mod_lt (c `div` 64) 64 ltac:(done)) as L1.
  pose proof (N.Div0.div_mod (c `div` 4096) 64) as H2.
  pose proof (N.mod_lt (c `div` 4096) 64 ltac:(done)) as L2.
  assert (E1 : ((c `div` 64) `div` 64 = c `div` 4096)%N) by (by rewrite N.Div0.div_div).
  assert (E2 : ((c `div` 4096) `div` 64 = c `div` 262144)%N) by (by rewrite N.Div0.div_div).
  rewrite E1 in H1. rewrite E2 in H2. clear E1 E2.
  revert H0 L0 H1 L1 H2 L2. generalize (c `div` 262144)%N, (c `div` 4096)%N, (c `div` 64)%N.
  intros q3 q2 q1. generalize (c `mod` 64)%N, (q1 `mod` 64)%N, (q2 `mod` 64)%N. intros.
  destruct (N.ltb_spec c 128); [|destruct (N.ltb_spec c 2048); [|destruct (N.ltb_spec c 65536)]].
  all: unfold string_of_bytes; cbn [foldr]; rewrite ?append_cons; cbn [chars];
    decide_bytes; rewrite append_nil; f_equal; lia.
Qed.

Lemma chars_utf8 s : forallb scalar s = true → chars (utf8 s) = s.
Proof.
  unfold utf8. induction s as [|c s IH]; [done|]. simpl. intros [Hc Hs]%andb_true_iff.
  rewrite string_of_bytes_app, chars_utf8_char by done. f_equal. by apply IH.
Qed.

Lemma utf8_app a b : utf8 (a ++ b) = String.append (utf8 a) (utf8 b).
Proof. unfold utf8. rewrite bind_app. apply string_of_bytes_app. Qed.

(** ** Sizes

    What the string functions return is a sublist of their argument, so its
    length in bytes is bounded by that of the argument. *)

Lemma byte_len_cons c s : byte_len (c :: s) = len_utf8 c + byte_len s.
Proof. done. Qed.

Lemma byte_len_sublist a b : a `sublist_of` b → byte_len a ≤ byte_len b.
Proof. unfold byte_len. induction 1; csimpl; lia. Qed.

Lemma length_le_byte_len s : length s ≤ byte_len s.
Proof. unfold byte_len. induction s as [|c s IH]; csimpl; [done|]. pose proof (len_utf8_pos c). lia. Qed.

Lemma trim_start_sublist s : trim_start s `sublist_of` s.
Proof. induction s as [|c s IH]; simpl; [done|]. case_match; [by constructor|done]. Qed.

Lemma trim_start_matches_sublist c s : trim_start_matches c s `sublist_of` s.
Proof. induction s as [|d s IH]; simpl; [done|]. case_decide; [by constructor|done]. Qed.

Lemma sublist_reverse {A} (l k : list A) : l `sublist_of` k → reverse l `sublist_of` reverse k.
Proof.
  induction 1 as [|x l k _ IH|x l k _ IH]; [done| |]; rewrite !reverse_cons.
  - by apply sublist_app.
  - by apply sublist_inserts_r.
Qed.

Lemma reverse_sublist (f : ustring → ustring) s :
  (∀ s, f s `sublist_of` s) → reverse (f (reverse s)) `sublist_of` s.
Proof. intros Hf. rewrite <-(reverse_involutive s) at 2. apply sublist_reverse, Hf. Qed.

Lemma trim_end_sublist s : trim_end s `sublist_of` s.
Proof. apply reverse_sublist, trim_start_sublist. Qed.
Lemma trim_sublist s : trim s `sublist_of` s.
Proof. unfold trim. etrans; [apply trim_end_sublist|apply trim_start_sublist]. Qed.
Lemma span_while_app p s : (span_while p s).1 ++ (span_while p s).2 = s.
Proof. induction s as [|c s IH]; simpl; [done|]. case_match; [|done]. simpl. by f_equal. Qed.

Lemma strip_char_Some c s s' : strip_char c s = Some s' ↔ s = c :: s'.
Proof. destruct s as [|d s]; simpl; [done|]. case_decide; naive_solver. Qed.
Lemma strip_blank_sublist s s' : strip_blank s = Some s' → s' `sublist_of` s.
Proof. destruct s as [|c s]; simpl; [done|]. case_match; [|done]. intros [= <-]. by constructor. Qed.
Lemma strip_str_Some pat s s' : strip_str pat s = Some s' ↔ s = pat ++ s'.
Proof.
  revert s. induction pat as [|c pat IH]; intros s; simpl; [naive_solver|].
  rewrite bind_Some. setoid_rewrite strip_char_Some. setoid_rewrite IH. naive_solver.
Qed.

(** Parts of a string that do not overlap. *)
Lemma sublist_parts (s : ustring) i j : i ≤ j → take i s ++ drop j s `sublist_of` s.
Proof.
  intros Hij. rewrite <-(take_drop i s) at 3. apply sublist_app; [done|].
  replace j with (i + (j - i)) by lia. rewrite <-drop_drop. apply sublist_drop.
Qed.

Lemma length_utf8_char c : length (utf8_char c) = len_utf8 c.
Proof. unfold utf8_char, len_utf8. by repeat case_match. Qed.
Lemma length_string_of_bytes l : String.length (string_of_bytes l) = length l.
Proof. induction l as [|b l IH]; simpl; [done|]. by rewrite <-IH. Qed.
Lemma length_utf8 s : String.length (utf8 s) = byte_len s.
Proof.
  unfold utf8, byte_len. rewrite length_string_of_bytes.
  induction s as [|c s IH]; csimpl; [done|]. by rewrite length_app, length_utf8_char, IH.
Qed.

Create HintDb chars.
#[export] Hint Resolve trim_sublist trim_start_sublist trim_end_sublist trim_start_matches_sublist
  sublist_drop sublist_take : chars.
