(* ===== verification/Inline.v ===== *)
(** * Inline Markdown: emphasis, code and links inside a text block

    Models [src/src/doc/inline.rs]: the parser that turns the text of a
    paragraph or heading into graphemes and marks, and the printer that puts the
    delimiters of the active marks back around the graphemes.  Segmentation into
    graphemes is the parameter [graphemes] of [Text]. *)

From S2P Require Import Prelude Core Sequence Mark Table Frontmatter Codec Text Draft Block Chars.

(** ** Orders *)

(** The derived [Ord] of [MarkKind]. *)
Definition mark_kind_tag (k : MarkKind) : N :=
  match k with Bold => 0 | Italic => 1 | Code => 2 | Link => 3 | Custom _ => 4 end.
Definition mark_kind_name (k : MarkKind) : string :=
  match k with Custom name => name | _ => EmptyString end.
#[export] Instance MarkKind_ord : Ord MarkKind := lexico_cmp mark_kind_tag mark_kind_name.
#[export] Instance MarkKind_countable : Countable MarkKind.
Proof.
  apply (inj_countable' (λ k, (mark_kind_tag k, mark_kind_name k))
    (λ p, if decide (p.1 = 0%N) then Bold else if decide (p.1 = 1%N) then Italic
          else if decide (p.1 = 2%N) then Code else if decide (p.1 = 3%N) then Link
          else Custom p.2)).
  by intros [].
Defined.

(** [RenderKey]: the kind of a mark and its two delimiters. *)
Abbreviation RenderKey := (MarkKind * string * string)%type (only parsing).
#[export] Instance RenderKey_ord : Ord (MarkKind * string * string) :=
  λ a b, cmp_then (ocmp a.1.1 b.1.1) (cmp_then (ocmp a.1.2 b.1.2) (ocmp a.2 b.2)).

(** ** Finding delimiters *)

Record ParsedMark := mkParsedMark {
  pm_kind : MarkKind;
  pm_start : nat;
  pm_end : nat;
  pm_attrs : gmap string MarkValue;
}.

(** [mark.start += by; mark.end += by]. *)
Definition shift_mark (by_ : nat) (m : ParsedMark) : ParsedMark :=
  mkParsedMark (pm_kind m) (pm_start m + by_) (pm_end m + by_) (pm_attrs m).

Definition bold_delimiter : ustring := [c_star; c_star].
Definition italic_delimiter : ustring := [c_star].
Definition code_delimiter : ustring := [c_backtick].

Definition delimiter_at (input : ustring) : option (ustring * ustring * MarkKind) :=
  if starts_with bold_delimiter input then Some (bold_delimiter, bold_delimiter, Bold)
  else if starts_with italic_delimiter input then Some (italic_delimiter, italic_delimiter, Italic)
  else if starts_with code_delimiter input then Some (code_delimiter, code_delimiter, Code)
  else None.

(** An odd number of backslashes stands in front of the position. *)
Definition is_escaped (input : ustring) (position : nat) : bool :=
  Nat.odd (leading_run c_backslash (reverse (take position input))).

Fixpoint find_unescaped_loop (fuel : nat) (input needle : ustring) (search_from : nat) :
    option nat :=
  match fuel with
  | 0 => None
  | S fuel =>
    relative ← find_sub needle (drop search_from input);
    let position := search_from + relative in
    if is_escaped input position
    then find_unescaped_loop fuel input needle (position + length needle)
    else Some position
  end.
Definition find_unescaped (input needle : ustring) (search_from : nat) : option nat :=
  find_unescaped_loop (S (length input)) input needle search_from.

(** The loop of [has_unclosed_single_star]: how many runs of stars are odd. *)
Fixpoint odd_star_runs (fuel : nat) (input : ustring) (index odd_runs : nat) : nat :=
  match fuel with
  | 0 => odd_runs
  | S fuel =>
    match input !! index with
    | None => odd_runs
    | Some c =>
      if negb (bool_decide (c = c_star)) || is_escaped input index
      then odd_star_runs fuel input (S index) odd_runs
      else
        let stop := index + leading_run c_star (drop index input) in
        odd_star_runs fuel input stop (odd_runs + (stop - index) `mod` 2)
    end
  end.
Definition has_unclosed_single_star (input : ustring) : bool :=
  Nat.odd (odd_star_runs (length input) input 0 0).

(** The [Bold] case of [find_closing_delimiter]. *)
Definition find_closing_bold (input close : ustring) : option nat :=
  position ← find_unescaped input close 0;
  if starts_with [c_star; c_star; c_star] (drop position input)
     && has_unclosed_single_star (take position input)
  then Some (position + 1) else Some position.

(** The loop of the [Italic] case. *)
Fixpoint find_closing_italic (fuel : nat) (input : ustring) (search_from : nat) : option nat :=
  match fuel with
  | 0 => None
  | S fuel =>
    position ← find_unescaped input italic_delimiter search_from;
    if starts_with bold_delimiter (drop position input) then
      let nested_start := position + 2 in
      match find_closing_bold (drop nested_start input) bold_delimiter with
      | Some nested_end => find_closing_italic fuel input (nested_start + nested_end + 2)
      | None => Some position
      end
    else Some position
  end.

Definition find_closing_delimiter (input close : ustring) (kind : MarkKind) : option nat :=
  match kind with
  | Code => find_unescaped input close 0
  | Bold => find_closing_bold input close
  | Italic => find_closing_italic (S (length input)) input 0
  | Link | Custom _ => find_sub close input
  end.

Fixpoint link_target_loop (input : ustring) (index depth : nat) (escaped : bool) : option nat :=
  match input with
  | [] => None
  | ch :: input =>
    if escaped then link_target_loop input (S index) depth false
    else if decide (ch = c_backslash) then link_target_loop input (S index) depth true
    else if decide (ch = c_lparen) then link_target_loop input (S index) (depth + 1) false
    else if decide (ch = c_rparen) then
      if decide (depth = 0) then Some index
      else link_target_loop input (S index) (depth - 1) false
    else link_target_loop input (S index) depth false
  end.
Definition find_link_target_end (input : ustring) : option nat := link_target_loop input 0 0 false.

(** ** Parsing *)

(** The condition of the second branch of [parse_fragment]: the delimiters, the
    kind, the text between them and what follows. *)
Definition delimited (rest : ustring) : option (ustring * MarkKind * ustring * ustring) :=
  '(open, close, kind) ← delimiter_at rest;
  let body := drop (length open) rest in
  relative_end ← find_closing_delimiter body close kind;
  Some (open, kind, take relative_end body, drop (relative_end + length close) body).

(** The condition of the third branch: the label, the target and what follows. *)
Definition link_at (rest : ustring) : option (ustring * ustring * ustring) :=
  if starts_with_char c_lbracket rest then
    label_end ← find_sub [c_rbracket; c_lparen] rest;
    let tail := drop (label_end + 2) rest in
    target_end ← find_link_target_end tail;
    Some (drop 1 (take label_end rest), take target_end tail, drop (target_end + 1) tail)
  else None.

Definition delimiter_attrs (open : ustring) : gmap string MarkValue :=
  {[ "delimiter" := MarkString (utf8 open) ]}.
Definition link_attrs (target : ustring) : gmap string MarkValue :=
  <["delimiter" := MarkString "[]()"]> {[ "href" := MarkString (utf8 target) ]}.

Section inline.
Context (graphemes : string → list string).

(** [grapheme_count(&visible)]. *)
Definition visible_count (visible : ustring) : nat := grapheme_count graphemes (utf8 visible).

(** The loop of [parse_fragment]; [rest] is the text from the cursor on. *)
Fixpoint fragment_loop (fuel : nat) (rest visible : ustring) (marks : list ParsedMark) :
    option (ustring * list ParsedMark) :=
  match fuel with
  | 0 => None
  | S fuel =>
    match rest with
    | [] => Some (visible, marks)
    | ch :: tail =>
      if starts_with [c_backtick; c_backtick] rest then
        let '(run, rest) := span_while (λ c, bool_decide (c = c_backtick)) rest in
        fragment_loop fuel rest (visible ++ run) marks
      else match delimited rest with
      | Some (open, kind, body, rest) =>
        let start := visible_count visible in
        '(inner, nested) ← (if decide (kind = Code) then Some (body, [])
                            else fragment_loop fuel body [] []);
        let visible := visible ++ inner in
        fragment_loop fuel rest visible
          (marks ++ (shift_mark start <$> nested) ++
             [mkParsedMark kind start (visible_count visible) (delimiter_attrs open)])
      | None =>
        match link_at rest with
        | Some (label, target, rest) =>
          let start := visible_count visible in
          '(inner, nested) ← fragment_loop fuel label [] [];
          let visible := visible ++ inner in
          fragment_loop fuel rest visible
            (marks ++ (shift_mark start <$> nested) ++
               [mkParsedMark Link start (visible_count visible) (link_attrs target)])
        | None => fragment_loop fuel tail (visible ++ [ch]) marks
        end
      end
    end
  end.

Definition parse_fragment (markdown : ustring) : ustring * list ParsedMark :=
  default ([], []) (fragment_loop (S (length markdown)) markdown [] []).

(** [next_op_id] of [parser.rs]. *)
Definition next_op_id (counter : N) : OpId * N := (mkOpId counter 0, u64_wrapping_add counter 1).

(** One round of the loop of [parse_text_block] over the parsed marks. *)
Definition add_parsed_mark (ids : list OpId) (acc : MarkSet * N) (parsed : ParsedMark) :
    MarkSet * N :=
  let '(marks, counter) := acc in
  if decide (pm_end parsed ≤ pm_start parsed ∨ length ids < pm_end parsed) then acc
  else match ids !! pm_start parsed, ids !! (pm_end parsed - 1) with
  | Some first, Some last =>
    let '(mark_id, counter) := next_op_id counter in
    (set_mark mark_id (pm_kind parsed) (mkAnchor first Before) (mkAnchor last After)
       (pm_attrs parsed) mark_id marks, counter)
  | _, _ => acc
  end.

Definition parse_text_block (kind : Sequence TextUnit → BlockKind) (markdown : ustring)
    (elem_id : OpId) (counter : N) : Block * N :=
  let '(visible, parsed_marks) := parse_fragment markdown in
  let '(text, counter) := units_from_str graphemes (utf8 visible) counter 0 in
  let ids := paragraph_visible_ids text in
  let block := block_new (kind text) elem_id in
  let '(marks, counter) :=
    fold_left (add_parsed_mark ids) parsed_marks (blk_marks block, counter) in
  (set_marks marks block, counter).
End inline.

(** ** Printing *)

Definition mark_nesting_rank (kind : MarkKind) : N :=
  match kind with Link => 0 | Bold => 1 | Italic => 2 | Code => 3 | Custom _ => 4 end.

(** The value of an attribute that holds a string. *)
Definition string_attr (key : string) (i : MarkInterval) : option string :=
  match Lww.get <$> mi_attrs i !! key with Some (MarkString s) => Some s | _ => None end.
Definition delimiter_attr (i : MarkInterval) : option string := string_attr "delimiter" i.

Definition open_delimiter (i : MarkInterval) : string :=
  match mi_kind i with
  | Bold => default "**" (delimiter_attr i)
  | Italic => default "*" (delimiter_attr i)
  | Code => default "`" (delimiter_attr i)
  | Link => "["
  | Custom _ => EmptyString
  end.
Definition close_delimiter (i : MarkInterval) : string :=
  match mi_kind i with
  | Bold => default "**" (delimiter_attr i)
  | Italic => default "*" (delimiter_attr i)
  | Code => default "`" (delimiter_attr i)
  | Link => String.append "](" (String.append (default EmptyString (string_attr "href" i)) ")")
  | Custom _ => EmptyString
  end.

Abbreviation ResolvedMark := (MarkInterval * nat * nat)%type (only parsing).

(** [(interval.op_id, interval.id) > (current.op_id, current.id)], or no
    current winner. *)
Definition link_wins (i : MarkInterval) (current : option MarkInterval) : bool :=
  match current with
  | Some c => match cmp_then (ocmp (mi_op_id i) (mi_op_id c)) (ocmp (mi_id i) (mi_id c)) with
              | Gt => true | _ => false
              end
  | None => true
  end.

(** One round of the loop over the resolved intervals: the projected marks, and
    the winning link of every grapheme. *)
Definition project_mark (len : nat)
    (acc : list (MarkInterval * nat * nat) * list (option MarkInterval))
    (m : MarkInterval * nat * nat) :
    list (MarkInterval * nat * nat) * list (option MarkInterval) :=
  let '(projected, link_winners) := acc in
  let '(i, start, stop) := m in
  if decide (stop ≤ start ∨ len < stop) then acc
  else if decide (mi_kind i = Link) then
    (projected, imap (λ index winner,
       if decide (start ≤ index ∧ index < stop) then
         if link_wins i winner then Some i else winner
       else winner) link_winners)
  else (projected ++ [(i, start, stop)], link_winners).

(** The run of the winner [w] at the front of the list. *)
Fixpoint winner_run (w : MarkInterval) (winners : list (option MarkInterval)) : nat :=
  match winners with
  | Some c :: winners => if decide (mi_id c = mi_id w) then S (winner_run w winners) else 0
  | _ => 0
  end.

(** The loop over [link_winners], from [index] on. *)
Fixpoint link_runs (fuel : nat) (link_winners : list (option MarkInterval)) (index : nat) :
    list (MarkInterval * nat * nat) :=
  match fuel with
  | 0 => []
  | S fuel =>
    match link_winners !! index with
    | None => []
    | Some None => link_runs fuel link_winners (S index)
    | Some (Some winner) =>
      let stop := S index + winner_run winner (drop (S index) link_winners) in
      (winner, index, stop) :: link_runs fuel link_winners stop
    end
  end.

(** [groups.entry(key).or_default().push(..)]. *)
Definition group_mark (groups : gmap (MarkKind * string * string) (list (MarkInterval * nat * nat)))
    (m : MarkInterval * nat * nat) :
    gmap (MarkKind * string * string) (list (MarkInterval * nat * nat)) :=
  let key := (mi_kind m.1.1, open_delimiter m.1.1, close_delimiter m.1.1) in
  <[key := default [] (groups !! key) ++ [m]]> groups.

(** The key [(start, end, id)] of a range. *)
Definition range_le (a b : MarkInterval * nat * nat) : Prop :=
  cmp_then (Nat.compare a.1.2 b.1.2) (cmp_then (Nat.compare a.2 b.2) (ocmp (mi_id a.1.1) (mi_id b.1.1)))
    ≠ Gt.
#[export] Instance range_le_dec : RelDecision range_le.
Proof. intros a b. unfold range_le. solve_decision. Defined.

(** One round of the loop that merges overlapping and adjacent ranges. *)
Definition merge_range (acc : list (MarkInterval * nat * nat) * (MarkInterval * nat * nat))
    (m : MarkInterval * nat * nat) :
    list (MarkInterval * nat * nat) * (MarkInterval * nat * nat) :=
  let '(out, (representative, start, stop)) := acc in
  let '(i, next_start, next_end) := m in
  if decide (next_start ≤ stop) then
    (out, (if ord_ltb (mi_id i) (mi_id representative) then i else representative,
           start, Nat.max stop next_end))
  else (out ++ [(representative, start, stop)], m).

Definition merge_ranges (ranges : list (MarkInterval * nat * nat)) : list (MarkInterval * nat * nat) :=
  match merge_sort range_le ranges with
  | [] => []
  | first :: rest => let '(out, last) := fold_left merge_range rest ([], first) in out ++ [last]
  end.

(** The marks to print, with the range of each. *)
Definition projected_marks (resolved : list (MarkInterval * nat * nat)) (len : nat) :
    list (MarkInterval * nat * nat) :=
  let '(projected, link_winners) := fold_left (project_mark len) resolved ([], replicate len None) in
  let projected := projected ++ link_runs len link_winners 0 in
  let groups := fold_left group_mark projected ∅ in
  btree_values groups ≫= merge_ranges.

(** [starts] and [ending_ids]. *)
Definition starts_of (len : nat) (l : list (MarkInterval * nat * nat)) :
    list (list (MarkInterval * nat * nat)) :=
  fold_left (λ starts m, alter (λ at_, at_ ++ [m]) m.1.2 starts) l (replicate (len + 1) []).
Definition ending_ids_of (len : nat) (l : list (MarkInterval * nat * nat)) : list (list OpId) :=
  fold_left (λ ends m, alter (λ at_, at_ ++ [mi_id m.1.1]) m.2 ends) l (replicate (len + 1) []).

(** The key [(start, Reverse(end), rank, id)] of an active mark. *)
Definition active_le (a b : MarkInterval * nat * nat) : Prop :=
  cmp_then (Nat.compare a.1.2 b.1.2) (cmp_then (Nat.compare b.2 a.2)
    (cmp_then (N.compare (mark_nesting_rank (mi_kind a.1.1)) (mark_nesting_rank (mi_kind b.1.1)))
       (ocmp (mi_id a.1.1) (mi_id b.1.1)))) ≠ Gt.
#[export] Instance active_le_dec : RelDecision active_le.
Proof. intros a b. unfold active_le. solve_decision. Defined.

(** How many marks at the bottom of the stack stay open. *)
Fixpoint shared_prefix (open_stack desired : list MarkInterval) : nat :=
  match open_stack, desired with
  | l :: open_stack, r :: desired =>
    if decide (mi_id l = mi_id r) then S (shared_prefix open_stack desired) else 0
  | _, _ => 0
  end.

(** One round of the printing loop. *)
Definition print_step (starts : list (list (MarkInterval * nat * nat)))
    (ending_ids : list (list OpId)) (gs : list string)
    (acc : string * list (MarkInterval * nat * nat) * list MarkInterval) (index : nat) :
    string * list (MarkInterval * nat * nat) * list MarkInterval :=
  let '(output, active, open_stack) := acc in
  let ending := default [] (ending_ids !! index) in
  let starting := default [] (starts !! index) in
  let '(output, active, open_stack) :=
    if bool_decide (ending ≠ []) || bool_decide (starting ≠ []) then
      let active := filter (λ m, mi_id m.1.1 ∉ ending) active ++ starting in
      let active := merge_sort active_le active in
      let desired := (λ m, m.1.1) <$> active in
      let shared := shared_prefix open_stack desired in
      let output := fold_left (λ out i, String.append out (close_delimiter i))
                      (reverse (drop shared open_stack)) output in
      let output := fold_left (λ out i, String.append out (open_delimiter i))
                      (drop shared desired) output in
      (output, active, desired)
    else (output, active, open_stack) in
  match gs !! index with
  | Some g => (String.append output g, active, open_stack)
  | None => (output, active, open_stack)
  end.

Definition serialize_text (block : Block) (text : Sequence TextUnit) : string :=
  let ids := paragraph_visible_ids text in
  let gs := grapheme <$> sequence_iter text in
  let resolved := resolved_intervals (blk_marks block) ids in
  if decide (resolved = []) then string_concat gs
  else
    let l := projected_marks resolved (length gs) in
    (fold_left (print_step (starts_of (length gs) l) (ending_ids_of (length gs) l) gs)
       (seq 0 (length gs + 1)) (EmptyString, [], [])).1.1.
