(* ===== verification/Markdown.v ===== *)
(** * The Markdown parser

    Models [src/src/doc/parser.rs]: splitting a text into lines, recognising the
    constructs that start a block, lists with nested lists, quotes, tables, code
    fences, headings and paragraphs, and building the document with its source
    regions.  A loop over [lines] from an index on is a recursion on the rest of
    the lines; loops that may consume several lines carry fuel and return [None]
    without it. *)

From S2P Require Import Prelude Core Sequence Mark Table Frontmatter Codec Text Draft Block.
From S2P Require Import Document.
From S2P Require Import Chars Inline.

(** ** Lines *)

Record SourceLine := mkSourceLine {
  sl_text : ustring;
  sl_start : nat;
  sl_content_end : nat;
}.

(** The logical text of a piece of [split_inclusive]. *)
Definition logical_line (segment : ustring) : ustring :=
  if ends_with_char newline segment
  then strip_carriage_return (take (length segment - 1) segment)
  else segment.

Definition push_source_line (acc : list SourceLine * nat) (segment : ustring) :
    list SourceLine * nat :=
  let '(out, start) := acc in
  let logical := logical_line segment in
  (out ++ [mkSourceLine logical start (start + byte_len logical)], start + byte_len segment).

Definition source_lines (text : ustring) : list SourceLine :=
  (fold_left push_source_line (split_inclusive text) ([], 0)).1.

Definition indent_of (line : ustring) : nat :=
  fold_left (λ column c, if decide (c = c_tab) then column + (4 - column `mod` 4) else column + 1)
    (span_while is_blank line).1 0.

Definition blank_line (line : ustring) : bool := bool_decide (trim line = []).

(** ** Tables *)

(** The loop over the characters of a row. *)
Fixpoint cells_loop (rest cell : ustring) (cells : list ustring) : list ustring :=
  match rest with
  | [] => cells ++ [trim cell]
  | character :: rest =>
    if decide (character = c_pipe) then cells_loop rest [] (cells ++ [trim cell])
    else if decide (character = c_backslash) then
      match rest with
      | next :: rest' =>
        if decide (next = c_pipe ∨ next = c_backslash) then cells_loop rest' (cell ++ [next]) cells
        else cells_loop rest (cell ++ [c_backslash]) cells
      | [] => cells_loop rest (cell ++ [c_backslash]) cells
      end
    else cells_loop rest (cell ++ [character]) cells
  end.

(** The count of backslashes skips the last byte; it matters only when that is
    a pipe. *)
Definition parse_table_cells (line : ustring) : option (list ustring) :=
  let trimmed := trim line in
  if negb (str_contains c_pipe trimmed) then None
  else
    let inner := default trimmed (strip_char c_pipe trimmed) in
    let trailing_backslashes := leading_run c_backslash (drop 1 (reverse inner)) in
    let trailing_pipe_is_delimiter :=
      ends_with_char c_pipe inner && Nat.even trailing_backslashes in
    let inner := if trailing_pipe_is_delimiter then take (length inner - 1) inner else inner in
    Some (cells_loop inner [] []).

(** The closure of [parse_table_delimiter]. *)
Definition delimiter_column (cell : ustring) : option ColumnDef :=
  let marker := trim cell in
  let left := starts_with_char colon marker in
  let right := ends_with_char colon marker in
  let dashes := trim_matches colon marker in
  if (byte_len dashes <? 3) || negb (forallb (λ c, bool_decide (c = c_dash)) dashes) then None
  else Some (mkColumnDef (match left, right with
                          | true, true => Center
                          | _, true => Right
                          | _, _ => Left
                          end)).
Definition parse_table_delimiter (line : ustring) : option (list ColumnDef) :=
  cells ← parse_table_cells line; mapM delimiter_column cells.

(** ** Headings *)

Definition strip_atx_closing_sequence (text : ustring) : ustring :=
  let trimmed := trim_end text in
  let closing_start := length (trim_end_matches c_hash trimmed) in
  if decide (closing_start = length trimmed) then trimmed
  else
    let before := take closing_start trimmed in
    if bool_decide (before = []) || ends_with_blank before then trim_end before else trimmed.

Definition parse_atx_heading (trimmed : ustring) : option (N * ustring) :=
  let level := Nat.min (leading_run c_hash trimmed) 6 in
  if decide (level = 0) then None
  else if decide (trimmed !! level = Some c_hash) then None
  else
    let suffix := drop level trimmed in
    if bool_decide (suffix ≠ []) && negb (starts_with_blank suffix) then None
    else Some (N.of_nat level, strip_atx_closing_sequence (trim_start suffix)).

Definition parse_setext_underline (trimmed : ustring) : option N :=
  if decide (trimmed = []) then None
  else if forallb (λ c, bool_decide (c = c_equals)) trimmed then Some 1%N
  else if forallb (λ c, bool_decide (c = c_dash)) trimmed then Some 2%N
  else None.

(** ** List markers *)

#[export] Instance ListDelimiter_eq_dec : EqDecision ListDelimiter.
Proof. solve_decision. Defined.
#[export] Instance BulletMarker_eq_dec : EqDecision BulletMarker.
Proof. solve_decision. Defined.

(** What follows a marker: nothing, or a blank and the body. *)
Definition marker_tail (rest : ustring) : option ustring :=
  match rest with [] => Some [] | _ => trim_start <$> strip_blank rest end.

Definition unordered_marker (trimmed : ustring) : option (BulletMarker * ustring) :=
  find_map (λ '(marker, symbol),
    rest ← strip_char symbol trimmed;
    tail ← marker_tail rest;
    Some (marker, tail)) [(Dash, c_dash); (Asterisk, c_star); (Plus, c_plus)].

Definition is_ascii_digit (c : N) : bool := ((48 <=? c) && (c <=? 57))%N.

(** [str::parse::<u32>] of at most nine digits. *)
Definition digits_value (s : ustring) : N := fold_left (λ n c, n * 10 + (c - 48))%N s 0%N.

Definition ordered_marker (trimmed : ustring) : option (N * ListDelimiter * ustring) :=
  let '(ds, rest) := span_while is_ascii_digit trimmed in
  if decide (length ds = 0 ∨ 9 < length ds) then None
  else
    find_map (λ '(delimiter, symbol),
      tail ← strip_char symbol rest;
      body ← marker_tail tail;
      Some (digits_value ds, delimiter, body)) [(Period, c_period); (Parenthesis, c_rparen)].

Definition is_list_start (trimmed : ustring) : bool :=
  bool_decide (is_Some (unordered_marker trimmed)) || bool_decide (is_Some (ordered_marker trimmed)).

Definition unchecked_marker : ustring := [91; 32; 93]%N.
Definition checked_marker : ustring := [91; 120; 93]%N.
Definition checked_marker_upper : ustring := [91; 88; 93]%N.

Definition parse_task_marker (body : ustring) : option TaskState * ustring :=
  default (None, body)
    (find_map (λ '(prefix, state),
       rest ← strip_str prefix body;
       if bool_decide (rest = []) || starts_with_blank rest
       then Some (Some state, trim_start rest) else None)
       [(unchecked_marker, Unchecked); (checked_marker, Checked); (checked_marker_upper, Checked)]).

(** ** Code fences *)

Definition parse_fence_open (trimmed : ustring) : option (CodeFenceStyle * ustring) :=
  first ← head trimmed;
  marker ← (if decide (first = c_backtick) then Some Backtick
            else if decide (first = c_tilde) then Some Tilde else None);
  let length_ := leading_run (fence_char marker) trimmed in
  if decide (length_ < 3 ∨ 255 < length_) then None
  else
    let rest := drop length_ trimmed in
    if bool_decide (marker = Backtick) && str_contains c_backtick rest then None
    else Some (mkFenceStyle marker (N.of_nat length_), rest).

Definition is_fence_close (trimmed : ustring) (style : CodeFenceStyle) : bool :=
  let length_ := leading_run (fence_char (fence_marker style)) trimmed in
  (fence_length style <=? N.of_nat length_)%N && forallb is_whitespace (drop length_ trimmed).

(** The loop that collects a fenced block: its lines, and what follows the
    closing fence. *)
Fixpoint fence_lines (style : CodeFenceStyle) (lines : list ustring) :
    list ustring * list ustring :=
  match lines with
  | [] => ([], [])
  | line :: lines =>
    if is_fence_close (trim line) style then ([], lines)
    else prod_map (cons line) id (fence_lines style lines)
  end.

(** ** Runs of lines *)

(** The lines of a quote, without their markers. *)
Fixpoint quote_run (lines : list ustring) : list ustring * list ustring :=
  match lines with
  | [] => ([], [])
  | line :: rest =>
    let trimmed := trim line in
    if starts_with_char c_greater trimmed
    then prod_map (cons (trim_start (trim_start_matches c_greater trimmed))) id (quote_run rest)
    else ([], lines)
  end.

(** The lines of a raw block after its first. *)
Fixpoint raw_run (lines : list ustring) : list ustring * list ustring :=
  match lines with
  | [] => ([], [])
  | line :: rest => if blank_line line then ([], lines) else prod_map (cons line) id (raw_run rest)
  end.

(** The rows of a table. *)
Fixpoint table_run (lines : list ustring) : list (list ustring) * list ustring :=
  match lines with
  | [] => ([], [])
  | line :: rest =>
    match parse_table_cells line with
    | Some cells => prod_map (cons cells) id (table_run rest)
    | None => ([], lines)
    end
  end.

Definition colons : ustring := [colon; colon; colon].

(** The condition that ends a paragraph. *)
Definition ends_paragraph (line : ustring) : bool :=
  let trimmed := trim line in
  bool_decide (trimmed = []) || bool_decide (is_Some (parse_fence_open trimmed)) ||
  starts_with_char c_greater trimmed || starts_with colons trimmed ||
  bool_decide (is_Some (parse_atx_heading trimmed)) || is_list_start trimmed.
Fixpoint paragraph_run (lines : list ustring) : list ustring * list ustring :=
  match lines with
  | [] => ([], [])
  | line :: rest =>
    if ends_paragraph line then ([], lines) else prod_map (cons line) id (paragraph_run rest)
  end.

(** The lines after the blank ones. *)
Fixpoint skip_blank (lines : list ustring) : list ustring :=
  match lines with
  | line :: rest => if blank_line line then skip_blank rest else lines
  | [] => []
  end.

Definition join_lines (l : list ustring) : ustring := join [newline] l.

Section parser.
Context (sequence_incremental : bool).
Context (graphemes : string → list string).
Local Abbreviation parse_text := (parse_text_block graphemes).

(** ** Tables as blocks *)

(** The loop over the columns: the table, the last column and the counter. *)
Definition add_column (acc : Table * option OpId * N) (x : ColumnDef * ustring) :
    Table * option OpId * N :=
  let '(table, after_column, counter) := acc in
  let '(column_id, counter) := next_op_id counter in
  (insert_column sequence_incremental after_column (cd_alignment x.1) (utf8 x.2) column_id table,
   Some column_id, counter).

Definition add_row (column_ids : list ColumnId) (acc : Table * option OpId * N)
    (cells : list ustring) : Table * option OpId * N :=
  let '(table, after, counter) := acc in
  let '(row_id, counter) := next_op_id counter in
  (insert_row sequence_incremental after (zip column_ids (utf8 <$> cells)) row_id table,
   Some row_id, counter).

Definition table_block (columns : list ColumnDef) (header : list ustring) (rows : list (list ustring))
    (counter : N) : Block * N :=
  let '(elem_id, counter) := next_op_id counter in
  let table := table_new (block_id_from_op elem_id) elem_id elem_id in
  let '(table, _, counter) := fold_left add_column (zip columns header) (table, None, counter) in
  let column_ids := column_id <$> columns_in_order table in
  let '(table, _, counter) := fold_left (add_row column_ids) rows (table, None, counter) in
  (block_new (TableBlock table) elem_id, counter).

(** The condition of a table: two more lines, of which the second is its
    delimiter. *)
Definition table_start (line : ustring) (rest : list ustring) :
    option (list ColumnDef * list ustring * list ustring) :=
  match rest with
  | [] => None
  | next :: rest =>
    columns ← parse_table_delimiter next;
    header ← parse_table_cells line;
    if decide (length header = length columns) then Some (columns, header, rest) else None
  end.

(** ** Lists *)

Definition child_sequence (children : list Block) : Sequence Block :=
  from_ordered ((λ b, (blk_elem b, b)) <$> children).

Definition push_list_paragraph (children : list Block) (para : list ustring) (counter : N) :
    list Block * N :=
  match para with
  | [] => (children, counter)
  | _ =>
    let '(elem_id, counter) := next_op_id counter in
    let '(block, counter) := parse_text Paragraph (join_lines para) elem_id counter in
    (children ++ [block], counter)
  end.

Definition list_style_of (first_trim : ustring) : ListStyle :=
  match ordered_marker first_trim with
  | Some (start, delimiter, _) => mkListStyle true start delimiter Dash false
  | None => mkListStyle false 1 Period (default Dash (fst <$> unordered_marker first_trim)) false
  end.
Definition set_loose (style : ListStyle) : ListStyle :=
  mkListStyle (ls_ordered style) (ls_start style) (ls_delimiter style) (ls_bullet style) true.

(** The body behind a marker of the list's own kind. *)
Definition marker_body (style : ListStyle) (trimmed : ustring) : option ustring :=
  if ls_ordered style then
    '(_, delimiter, body) ← ordered_marker trimmed;
    if decide (delimiter = ls_delimiter style) then Some body else None
  else
    '(marker, body) ← unordered_marker trimmed;
    if decide (marker = ls_bullet style) then Some body else None.

Definition item_new (elem : OpId) (task : option TaskState) (children : list Block) : ListItem :=
  mkItem (block_id_from_op elem) elem task elem StateVectorOps.new StateVectorOps.new
    (child_sequence children).

(** [parse_list] from the line of its first item on: the block, the remaining
    lines and the counter.  [list_items] is its loop, [item_lines] the loop over
    the continuation lines of one item. *)
Fixpoint parse_list (fuel : nat) (lines : list ustring) (counter : N) (base_indent : nat) :
    option (Block * list ustring * N) :=
  match fuel with
  | 0 => None
  | S fuel =>
    let style := list_style_of (trim (default [] (head lines))) in
    '(style, items, rest, counter) ← list_items fuel lines counter base_indent style [];
    let '(list_elem, counter) := next_op_id counter in
    let items := from_ordered ((λ i, (it_elem i, i)) <$> items) in
    Some (block_new (ListBlock style items []) list_elem, rest, counter)
  end
with list_items (fuel : nat) (lines : list ustring) (counter : N) (base_indent : nat)
    (style : ListStyle) (items : list ListItem) :
    option (ListStyle * list ListItem * list ustring * N) :=
  match fuel with
  | 0 => None
  | S fuel =>
    match lines with
    | [] => Some (style, items, lines, counter)
    | line :: tail =>
      let ind := indent_of line in
      let trimmed := trim line in
      if bool_decide (ind < base_indent) && negb (blank_line line)
      then Some (style, items, lines, counter)
      else if blank_line line then
        match skip_blank tail with
        | [] => Some (style, items, lines, counter)
        | next :: _ =>
          let next_ind := indent_of next in
          let same_list := bool_decide (is_Some (marker_body style (trim next))) in
          if bool_decide (base_indent < next_ind) || bool_decide (next_ind = base_indent) && same_list
          then list_items fuel tail counter base_indent (set_loose style) items
          else Some (style, items, lines, counter)
        end
      else match marker_body style trimmed with
      | None => Some (style, items, lines, counter)
      | Some body =>
        if decide (ind ≠ base_indent) then Some (style, items, lines, counter)
        else
          let '(item_elem, counter) := next_op_id counter in
          let '(task, body) := parse_task_marker body in
          let para := match body with [] => [] | _ => [body] end in
          '(style, children, para, rest, counter) ←
            item_lines fuel tail counter base_indent style [] para;
          let '(children, counter) := push_list_paragraph children para counter in
          list_items fuel rest counter base_indent style (items ++ [item_new item_elem task children])
      end
    end
  end
with item_lines (fuel : nat) (lines : list ustring) (counter : N) (base_indent : nat)
    (style : ListStyle) (children : list Block) (para : list ustring) :
    option (ListStyle * list Block * list ustring * list ustring * N) :=
  match fuel with
  | 0 => None
  | S fuel =>
    match lines with
    | [] => Some (style, children, para, lines, counter)
    | line :: tail =>
      let cind := indent_of line in
      let ctrim := trim line in
      if blank_line line then
        match skip_blank tail with
        | next :: _ =>
          if decide (base_indent < indent_of next) then
            let '(children, para, counter) :=
              if is_list_start (trim next) then (children, para, counter)
              else let '(children, counter) := push_list_paragraph children para counter in
                   (children, [], counter) in
            item_lines fuel tail counter base_indent (set_loose style) children para
          else Some (style, children, para, lines, counter)
        | [] => Some (style, children, para, lines, counter)
        end
      else if bool_decide (base_indent < cind) && is_list_start ctrim then
        let '(children, counter) := push_list_paragraph children para counter in
        '(nested, rest, counter) ← parse_list fuel lines counter cind;
        item_lines fuel rest counter base_indent style (children ++ [nested]) []
      else if decide (base_indent < cind)
      then item_lines fuel tail counter base_indent style children (para ++ [ctrim])
      else Some (style, children, para, lines, counter)
    end
  end.

(** Enough for a list in that many lines. *)
Definition list_fuel (lines : list ustring) : nat := 3 * length lines + 3.

(** ** Blocks *)

(** The constructs a line that is not blank can start; the lines of a construct
    are read when its block is built. *)
Inductive Construct :=
  | AtFence (style : CodeFenceStyle) (code_info : ustring)
  | AtQuote
  | AtRaw
  | AtTable (columns : list ColumnDef) (header : list ustring) (rest : list ustring)
  | AtHeading (level : N) (title : ustring) (rest : list ustring)
  | AtList
  | AtParagraph.

(** The conditions of the loop of [parse_blocks_with_spans], in their order. *)
Definition recognise (line : ustring) (tail : list ustring) : Construct :=
  let trimmed := trim line in
  match parse_fence_open trimmed with
  | Some (style, code_info) => AtFence style code_info
  | None =>
    if starts_with_char c_greater trimmed then AtQuote
    else if starts_with colons trimmed then AtRaw
    else match table_start line tail with
    | Some (columns, header, rest) => AtTable columns header rest
    | None =>
      match parse_atx_heading trimmed with
      | Some (level, title) => AtHeading level title tail
      | None =>
        if is_list_start trimmed then AtList
        else match tail with
        | [] => AtParagraph
        | next :: rest =>
          match parse_setext_underline (trim next) with
          | Some level => AtHeading level trimmed rest
          | None => AtParagraph
          end
        end
      end
    end
  end.

(** The body of the branch of a construct: the block, the lines behind it and
    the counter.  [nested] parses the lines of a quote. *)
Definition build (nested : list ustring → N → option (list Block * N)) (construct : Construct)
    (line : ustring) (tail : list ustring) (counter : N) : option (Block * list ustring * N) :=
  match construct with
  | AtFence style code_info =>
    let info := trim code_info in
    let '(contents, rest) := fence_lines style tail in
    let '(elem, counter) := next_op_id counter in
    Some (block_new (CodeFence style (if decide (info = []) then None else Some (utf8 info))
                       (utf8 (join_lines contents))) elem, rest, counter)
  | AtQuote =>
    let '(quote_lines, rest) := quote_run (line :: tail) in
    '(children, counter) ← nested quote_lines counter;
    let '(elem, counter) := next_op_id counter in
    Some (block_new (BlockQuote (child_sequence children)) elem, rest, counter)
  | AtRaw =>
    let '(raw_lines, rest) := raw_run tail in
    let '(elem, counter) := next_op_id counter in
    Some (block_new (RawBlock (utf8 (join_lines (line :: raw_lines)))) elem, rest, counter)
  | AtTable columns header rest =>
    let '(rows, rest) := table_run rest in
    let '(block, counter) := table_block columns header rows counter in
    Some (block, rest, counter)
  | AtHeading level title rest =>
    let '(elem, counter) := next_op_id counter in
    let '(block, counter) := parse_text (Heading level) title elem counter in
    Some (block, rest, counter)
  | AtList => parse_list (list_fuel (line :: tail)) (line :: tail) counter (indent_of line)
  | AtParagraph =>
    let '(paragraph_lines, rest) := paragraph_run (line :: tail) in
    let '(elem, counter) := next_op_id counter in
    let '(block, counter) := parse_text Paragraph (join_lines paragraph_lines) elem counter in
    Some (block, rest, counter)
  end.

(** [parse_blocks_with_spans] from line [index] on: the blocks, their spans in
    lines, and the counter.  Where the code passes no vector for the spans, the
    caller drops them. *)
Fixpoint parse_blocks (fuel : nat) (lines : list ustring) (index : nat) (counter : N) :
    option (list Block * list (BlockId * nat * nat) * N) :=
  match fuel with
  | 0 => None
  | S fuel =>
    match lines with
    | [] => Some ([], [], counter)
    | line :: tail =>
      if blank_line line then parse_blocks fuel tail (S index) counter
      else
        let nested quote_lines counter :=
          '(children, _, counter) ← parse_blocks fuel quote_lines 0 counter;
          Some (children, counter) in
        '(block, rest, counter) ← build nested (recognise line tail) line tail counter;
        let next := index + (length lines - length rest) in
        '(blocks, spans, counter) ← parse_blocks fuel rest next counter;
        Some (block :: blocks, (blk_id block, index, next) :: spans, counter)
    end
  end.

(** Enough for the blocks in these lines, quotes included. *)
Definition block_fuel (lines : list ustring) : nat :=
  S (sum_list ((λ l, S (length l)) <$> lines)).

(** ** Documents *)

(** The loop over the lines behind the opening fence: the lines of the
    frontmatter and the index of its closing fence. *)
Fixpoint frontmatter_lines (lines fm_lines : list ustring) (index : nat) :
    option (list ustring * nat) :=
  match lines with
  | [] => None
  | line :: lines =>
    if decide (trim line = dashes) then Some (fm_lines, index)
    else frontmatter_lines lines (fm_lines ++ [line]) (S index)
  end.

(** [frontmatter] and [start_index]; [None] when [Frontmatter::parse] panics. *)
Definition parse_frontmatter (lines : list ustring) : option (option Frontmatter * nat) :=
  match lines with
  | first :: rest =>
    if decide (trim first = dashes) then
      match frontmatter_lines rest [] 1 with
      | Some (fm_lines, index) =>
        frontmatter ← fm_parse (join_lines fm_lines);
        Some (Some frontmatter, S index)
      | None => Some (None, 0)
      end
    else Some (None, 0)
  | [] => Some (None, 0)
  end.

(** A span in bytes; [None] where an index is out of range. *)
Definition byte_span (lines : list SourceLine) (start_index : nat) (span : BlockId * nat * nat) :
    option (BlockId * nat * nat) :=
  let '(id, start, stop) := span in
  first ← lines !! (start_index + start);
  last ← lines !! (start_index + stop - 1);
  Some (id, sl_start first, sl_content_end last).

(** [None] is a panic of the code, or a lack of fuel. *)
Definition parse (text : ustring) : option Document :=
  let source_lines := source_lines text in
  let lines := sl_text <$> source_lines in
  '(frontmatter, start_index) ← parse_frontmatter lines;
  let body := drop start_index lines in
  '(blocks, line_spans, _) ← parse_blocks (block_fuel body) body 0 1;
  byte_spans ← mapM (byte_span source_lines start_index) line_spans;
  Some (mkDocument frontmatter (indexed_new (child_sequence blocks))
          (Some (source_new text byte_spans blocks)) None).
End parser.
