(* ===== verification/Serialize.v ===== *)
(** * The Markdown serializer

    Models [src/src/doc/serialize.rs] and [serialize_with_config],
    [set_raw_source], [projection_exact_region] and [byte_range_to_anchors] of
    [src/src/doc/mod.rs].  A list that is a child of a list item is printed by
    [serialize_list] with a larger indent; the two functions of the source are
    one recursion on blocks, with the indent that only lists use. *)

From S2P Require Import Prelude Core Sequence Mark Table Frontmatter Codec Text Draft Block.
From S2P Require Import Document.
From S2P Require Import Chars Inline Markdown Storage.

(** ** Tables *)

Definition escape_table_cell (cell : ustring) : ustring :=
  cell ≫= λ c, if decide (c = c_backslash ∨ c = c_pipe) then [c_backslash; c] else [c].

(** [vec.resize(n, String::new())]. *)
Definition resize_cells (n : nat) (row : list ustring) : list ustring :=
  take n row ++ replicate (n - length row) [].

Definition cell_separator : ustring := [c_space; c_pipe; c_space].
(** [format!("| {} |", cells.join(" | "))]. *)
Definition row_line (cells : list ustring) : ustring :=
  [c_pipe; c_space] ++ join cell_separator cells ++ [c_space; c_pipe].

Definition align_text (a : ColumnAlignment) : ustring :=
  match a with
  | Left => [c_dash; c_dash; c_dash]
  | Center => [colon; c_dash; c_dash; c_dash; colon]
  | Right => [c_dash; c_dash; c_dash; colon]
  end.

Definition serialize_table (table : Table) : ustring :=
  let columns := columns_in_order table in
  let cells_of row := chars <$> row_cells table row in
  let header := cells_of (header_row_id table) in
  let rows := (λ row, cells_of (row_id row)) <$>
    filter (λ row, Lww.get (row_deleted row) = false) (sequence_iter (rows table)) in
  let col_count := fold_left (λ n row, Nat.max n (length row)) rows
                     (Nat.max (length header) (length columns)) in
  if decide (col_count = 0) then []
  else
    let print row := row_line (escape_table_cell <$> resize_cells col_count row) in
    let aligns := (λ index, align_text (default Left
                     ((λ c, Lww.get (column_alignment c)) <$> columns !! index))) <$> seq 0 col_count in
    join_lines (print header :: row_line aligns :: (print <$> rows)).

(** ** Code fences and quotes *)

Definition serialize_fence (style : CodeFenceStyle) (info : option string) (text : string) : ustring :=
  let fence := replicate (Nat.max (N.to_nat (fence_length style)) 3) (fence_char (fence_marker style)) in
  fence ++ default [] (chars <$> info) ++ [newline] ++ chars text ++ [newline] ++ fence.

Definition quote_line (line : ustring) : ustring :=
  match line with [] => [c_greater] | _ => [c_greater; c_space] ++ line end.

(** The [BlockQuote] case, from the printed children on. *)
Definition serialize_quote (children : list ustring) : ustring :=
  let rendered := filter (λ out, trim out ≠ []) children in
  match rendered with
  | [] => []
  | _ => join_lines (quote_line <$> lines (join [newline; newline] rendered))
  end.

(** ** Lists *)

(** A printed child of a list item. *)
Inductive RenderedChild :=
  | RenderedParagraph (body : ustring)
  | RenderedList (text : ustring)
  | RenderedOther (text : ustring).

Definition bullet_char (b : BulletMarker) : N :=
  match b with Dash => c_dash | Plus => c_plus | Asterisk => c_star end.
Definition delimiter_char (d : ListDelimiter) : N :=
  match d with Period => c_period | Parenthesis => c_rparen end.

(** [start.saturating_add(n as u32).min(MAX_ORDERED_LIST_START)] of [u32]. *)
Definition u32_max : N := 4294967295.
Definition item_ordinal (style : ListStyle) (n : nat) : N :=
  N.min (N.min (ls_start style + N.of_nat n `mod` 4294967296) u32_max) MAX_ORDERED_LIST_START.

Definition item_marker (style : ListStyle) (n : nat) : ustring :=
  if ls_ordered style
  then chars (display (item_ordinal style n)) ++ [delimiter_char (ls_delimiter style); c_space]
  else [bullet_char (ls_bullet style); c_space].

Definition task_text (task : option TaskState) : ustring :=
  match task with
  | Some Unchecked => unchecked_marker ++ [c_space]
  | Some Checked => checked_marker ++ [c_space]
  | None => []
  end.

(** The lines of a child: [head] is what the first line of an item starts with. *)
Definition child_lines (pad head : ustring) (ci : nat) (child : RenderedChild) : list ustring :=
  let indented := λ l, pad ++ [c_space; c_space] ++ l in
  match child with
  | RenderedParagraph body | RenderedOther body =>
    match ci with
    | 0 => (head ++ default [] (List.head (lines body))) :: (indented <$> drop 1 (lines body))
    | S _ => [] :: (indented <$> lines body)
    end
  | RenderedList text => match ci with 0 => [head; text] | S _ => [text] end
  end.

(** The lines of item [n]. *)
Definition item_text (style : ListStyle) (indent n : nat) (task : option TaskState)
    (children : list RenderedChild) : list ustring :=
  let pad := replicate indent c_space in
  let head := pad ++ item_marker style n ++ task_text task in
  (if ls_loose style && bool_decide (0 < n) then [[]] else []) ++
  match children with
  | [] => [head]
  | _ => mjoin (imap (child_lines pad head) children)
  end.

(** [iter_asc().map(f)]. *)
Definition iter_map {T A} (f : T → A) (s : Sequence T) : list A :=
  omap (λ e, match elem_value e with Some v => Some (f v) | None => None end) (seq_elements s).

(** ** Blocks *)

(** [serialize_block], and [serialize_list] with [indent] on a list. *)
Fixpoint serialize_at (indent : nat) (block : Block) : ustring :=
  match block with
  | mkBlock id elem op observed kind marks =>
    match kind with
    | Paragraph text => chars (serialize_text block text)
    | Heading level text =>
      replicate (N.to_nat (N.min (N.max level 1) 6)) c_hash ++ [c_space] ++
      chars (serialize_text block text)
    | ListBlock style items _ =>
      let rendered := iter_map (λ item, match item with
        mkItem _ _ task _ _ _ children =>
          (task, iter_map (λ child, match child with
             | mkBlock _ _ _ _ (Paragraph text) _ =>
               RenderedParagraph (chars (serialize_text child text))
             | mkBlock _ _ _ _ (ListBlock _ _ _) _ => RenderedList (serialize_at (indent + 2) child)
             | _ => RenderedOther (serialize_at 0 child)
             end) children)
        end) items in
      join_lines (mjoin (imap (λ n x, item_text style indent n x.1 x.2) rendered))
    | CodeFence style info text => serialize_fence style info text
    | BlockQuote children => serialize_quote (iter_map (serialize_at 0) children)
    | RawBlock raw => chars raw
    | TableBlock table => serialize_table table
    end
  end.
Definition serialize_block (block : Block) : ustring := serialize_at 0 block.

(** ** Documents *)

(** One round of the loop of [normalize_structural]. *)
Definition normalize_line (acc : list ustring * bool) (line : ustring) : list ustring * bool :=
  let '(out, previous_blank) := acc in
  let trimmed := trim_end line in
  match trimmed with
  | [] => if previous_blank then acc else (out ++ [[]], true)
  | _ => (out ++ [trimmed], false)
  end.

(** [while lines.first() is empty { lines.remove(0) }]. *)
Fixpoint drop_empty (l : list ustring) : list ustring :=
  match l with [] :: l => drop_empty l | _ => l end.

Definition normalize_structural (text : ustring) : ustring :=
  let out := (fold_left normalize_line (lines text) ([], false)).1 in
  join_lines (reverse (drop_empty (reverse (drop_empty out)))).

(** [None] where printing the frontmatter or slicing the source panics. *)
Definition serialize_with_config (config : SerializeConfig) (d : Document) : option ustring :=
  let plain :=
    header ← match doc_frontmatter d with
             | Some fm =>
               out ← fm_render fm;
               Some (dashes ++ [newline] ++ out ++ [newline] ++ dashes ++ [newline; newline])
             | None => Some []
             end;
    let output := header ++ join [newline; newline] (serialize_block <$> blocks_in_order d) in
    Some (match equivalence config with
          | Exact => output
          | Structural => normalize_structural output
          end) in
  match equivalence config, prefer_raw_source config, doc_source d with
  | Exact, true, Some source =>
    replacement ← match doc_frontmatter d with
                  | Some fm => if is_dirty fm then Some <$> fm_render fm else Some None
                  | None => Some None
                  end;
    render_with_frontmatter serialize_block source (doc_blocks d) replacement
  | _, _, _ => plain
  end.

Definition serialize (mode : EquivalenceMode) (d : Document) : option ustring :=
  serialize_with_config (mkConfig mode true) d.

(** [projection_exact_region]: the root of a block and its text; the outer
    [None] is a panic. *)
Definition projection_exact_region (block_id : BlockId) (d : Document) :
    option (option (BlockId * ustring)) :=
  let root_id := match doc_source d ≫= λ src, root_for_block src block_id with
                 | Some root => Some root
                 | None => projection_root (doc_blocks d) block_id
                 end in
  match root_id ≫= λ root_id,
          (λ x, (root_id, x.2)) <$>
            list_find (λ b, blk_id b = root_id) (blocks_in_order d) with
  | None => Some None
  | Some (root_id, root) =>
    markdown ← match doc_source d with
               | Some src => render_root_region serialize_block src root_id root
               | None => Some None
               end;
    Some (Some (root_id, default (serialize_block root) markdown))
  end.

Section document.
Context (sequence_incremental : bool).
Context (graphemes : string → list string).

(** [None] when parsing the text panics. *)
Definition set_raw_source (source : ustring) (d : Document) : option Document :=
  parsed ← parse sequence_incremental graphemes source;
  Some (adopt_source_from parsed d).1.

Definition byte_range_to_anchors (block_id : BlockId) (start stop : nat) (d : Document) :
    Document * (EditError + (Anchor * Anchor)) :=
  match find_block_by_id block_id d with
  | (d, None) => (d, inl BlockNotFound)
  | (d, Some block) =>
    match block_text_seq (blk_kind block) with
    | None => (d, inl InvalidOffset)
    | Some text =>
      let visible := paragraph_visible_string text in
      if decide (stop ≤ start ∨ String.length visible < stop) then (d, inl InvalidOffset)
      else if negb (is_grapheme_boundary graphemes visible start)
              || negb (is_grapheme_boundary graphemes visible stop)
      then (d, inl InvalidGraphemeBoundary)
      else grapheme_range_to_anchors block_id
             (length (graphemes (String.substring 0 start visible)))
             (length (graphemes (String.substring 0 stop visible))) d
    end
  end.
End document.
