(* ===== verification/ParseInv.v ===== *)
(** * The Markdown parser is total, and what it builds is well formed

    For every construct: the loops return within their fuel, they consume
    lines, the ids they draw are fresh, increasing and at most as many as the
    weight of the consumed lines, and the blocks they build are typed. *)

From S2P Require Import Prelude Core Sequence SequenceInv SequenceRefine Mark MarkProps Table.
From S2P Require Import Frontmatter Codec Text SequenceProps DocumentTree SessionWire TreeInv.
From S2P Require Import Draft Block Document Chars Inline Markdown.

(** ** Inline fragments: the parser returns, and what it shows is no longer than its input *)



Lemma starts_with_inv pat s : starts_with pat s = true → s = pat ++ drop (length pat) s.
Proof. unfold starts_with. rewrite bool_decide_eq_true. intros [k ->]. by rewrite drop_app_length. Qed.

Lemma delimiter_at_inv rest open close kind :
  delimiter_at rest = Some (open, close, kind) → open ≠ [] ∧ rest = open ++ drop (length open) rest.
Proof.
  unfold delimiter_at. repeat case_match; intros [= <- <- <-];
    (split; [done|by apply starts_with_inv]).
Qed.

Lemma delimited_parts rest open kind body after :
  delimited rest = Some (open, kind, body, after) →
  ∃ c, c :: body ++ after `sublist_of` rest.
Proof.
  unfold delimited. intros H.
  destruct (delimiter_at rest) as [[[op close] k]|] eqn:Hd; [|done]. simpl in H.
  destruct (find_closing_delimiter (drop (length op) rest) close k) as [e|]; [|done].
  injection H as <- <- <- <-. destruct (delimiter_at_inv _ _ _ _ Hd) as [Hne Hrest].
  destruct op as [|c op]; [done|]. exists c. rewrite Hrest at 3. apply sublist_skip.
  apply sublist_inserts_l, sublist_parts. lia.
Qed.

Lemma link_at_parts rest label target after :
  link_at rest = Some (label, target, after) → ∃ c, c :: label ++ after `sublist_of` rest.
Proof.
  unfold link_at, starts_with_char. case_bool_decide as Hh; [|done]. intros H.
  destruct (find_sub _ rest) as [e|]; [|done]. simpl in H.
  destruct (find_link_target_end _) as [t|]; [|done]. injection H as <- <- <-.
  destruct rest as [|c rest]; [done|]. exists c. destruct e as [|e]; simpl; apply sublist_skip.
  - rewrite drop_drop. apply sublist_drop.
  - rewrite drop_0, drop_drop. apply sublist_parts. lia.
Qed.

Section inline.
Context (graphemes : string → list string).

Lemma fragment_parts (l : ustring) (c : N) body after fuel :
  c :: body ++ after `sublist_of` l → length l < S fuel →
  length body < fuel ∧ length after < fuel ∧ byte_len body + byte_len after + 1 ≤ byte_len l.
Proof.
  intros Hs Hf. pose proof (sublist_length _ _ Hs) as Hl. pose proof (byte_len_sublist _ _ Hs) as Hb.
  simpl in Hl. rewrite length_app in Hl. change (c :: body ++ after) with ([c] ++ body ++ after) in Hb.
  rewrite !byte_len_app in Hb. pose proof (len_utf8_pos c). unfold byte_len in Hb at 1. simpl in Hb. lia.
Qed.

(** The loop returns within its fuel; what it makes visible and the marks it
    finds fit in the text it has read. *)
Lemma fragment_total fuel rest visible marks :
  length rest < fuel →
  ∃ v m, fragment_loop graphemes fuel rest visible marks = Some (v, m) ∧
    byte_len v + length m ≤ byte_len visible + byte_len rest + length marks.
Proof.
  revert rest visible marks. induction fuel as [|fuel IH]; intros rest visible marks Hf; [lia|].
  destruct rest as [|ch tail]; cbn [fragment_loop]; [exists visible, marks; split; [done|lia]|].
  set (rest := ch :: tail) in *.
  case_match eqn:Hrun.
  { destruct (span_while _ rest) as [run rest'] eqn:Hs.
    pose proof (span_while_app (λ c, bool_decide (c = c_backtick)) rest) as Happ. rewrite Hs in Happ.
    assert (Hne : run ≠ []).
    { intros ->. apply starts_with_inv in Hrun. rewrite Hrun in Hs. simpl in Hs. by destruct (span_while _ _). }
    simpl in Happ. rewrite <-Happ in Hf |- *. rewrite length_app in Hf. destruct run as [|r run]; [done|].
    destruct (IH rest' (visible ++ r :: run) marks) as (v & m & -> & Hv); [simpl in Hf; lia|].
    exists v, m. split; [done|]. rewrite !byte_len_app in *. lia. }
  destruct (delimited rest) as [[[[open kind] body] after]|] eqn:Hd.
  { destruct (delimited_parts _ _ _ _ _ Hd) as [c Hparts].
    destruct (fragment_parts _ _ _ _ _ Hparts Hf) as (Hb & Ha & Hsz).
    assert (∃ inner nested, (if decide (kind = Code) then Some (body, [])
        else fragment_loop graphemes fuel body [] []) = Some (inner, nested) ∧
        byte_len inner + length nested ≤ byte_len body) as (inner & nested & -> & Hi).
    { case_decide; [exists body, []; simpl; split; [done|lia]|].
      destruct (IH body [] []) as (v & m & -> & Hv); [done|]. exists v, m. split; [done|]. change (byte_len []) with 0 in Hv. simpl in Hv. lia. }
    simpl. edestruct IH as (v & m & -> & Hv); [exact Ha|]. exists v, m. split; [done|].
    rewrite !length_app, length_fmap, byte_len_app in Hv. simpl in Hv. lia. }
  destruct (link_at rest) as [[[label target] after]|] eqn:Hl.
  { destruct (link_at_parts _ _ _ _ Hl) as [c Hparts].
    destruct (fragment_parts _ _ _ _ _ Hparts Hf) as (Hb & Ha & Hsz).
    destruct (IH label [] []) as (inner & nested & -> & Hi); [done|]. change (byte_len []) with 0 in Hi. simpl in Hi |- *.
    edestruct IH as (v & m & -> & Hv); [exact Ha|]. exists v, m. split; [done|].
    rewrite !length_app, length_fmap, byte_len_app in Hv. simpl in Hv. lia. }
  destruct (IH tail (visible ++ [ch]) marks) as (v & m & -> & Hv); [simpl in Hf; lia|].
  exists v, m. split; [done|]. rewrite byte_len_app in Hv. unfold rest.
  change (ch :: tail) with ([ch] ++ tail). rewrite byte_len_app. lia.
Qed.

Lemma parse_fragment_size markdown :
  byte_len (parse_fragment graphemes markdown).1 + length (parse_fragment graphemes markdown).2 ≤
    byte_len markdown.
Proof.
  unfold parse_fragment. destruct (fragment_total (S (length markdown)) markdown [] []) as (v & m & -> & Hv); [lia|].
  change (byte_len []) with 0 in Hv. simpl in *. lia.
Qed.
End inline.

(** ** Weights *)

(** A line pays for two ids and for one per byte. *)
Definition weight (lines : list ustring) : nat := sum_list ((λ l, byte_len l + 2) <$> lines).
(** Lines collected for a paragraph still pay for its text. *)
Definition para_weight (lines : list ustring) : nat := sum_list ((λ l, byte_len l + 1) <$> lines).

Lemma weight_cons l ls : weight (l :: ls) = byte_len l + 2 + weight ls.
Proof. done. Qed.
Lemma weight_app a b : weight (a ++ b) = weight a + weight b.
Proof. unfold weight. rewrite fmap_app. apply sum_list_with_app. Qed.
Lemma para_weight_app a b : para_weight (a ++ b) = para_weight a + para_weight b.
Proof. unfold para_weight. rewrite fmap_app. apply sum_list_with_app. Qed.
Lemma para_weight_le ls : para_weight ls ≤ weight ls.
Proof. unfold para_weight, weight. induction ls as [|l ls IH]; csimpl; lia. Qed.
Lemma weight_length ls : 2 * length ls ≤ weight ls.
Proof. unfold weight. induction ls as [|l ls IH]; csimpl; lia. Qed.

Lemma byte_len_join ls : ls ≠ [] → byte_len (join_lines ls) + 1 = para_weight ls.
Proof.
  unfold join_lines, para_weight. induction ls as [|l [|l' ls] IH]; [done| |]; intros _.
  - simpl. lia.
  - cbn [join]. rewrite !byte_len_app. specialize (IH ltac:(done)).
    change (byte_len [newline]) with 1. csimpl in *. lia.
Qed.

Lemma byte_len_trim l : byte_len (trim l) ≤ byte_len l.
Proof. apply byte_len_sublist, trim_sublist. Qed.

(** ** Ids *)

Definition fresh (c c' : N) (id : OpId) : Prop := peer id = 0%N ∧ (c ≤ counter id < c')%N.

Lemma fresh_mono a b c d id : fresh b c id → (a ≤ b)%N → (c ≤ d)%N → fresh a d id.
Proof. intros [? ?] ? ?. split; [done|lia]. Qed.

(** Ids in the order in which they were drawn. *)
Definition drawn (c c' : N) (ids : list OpId) : Prop :=
  Forall (fresh c c') ids ∧ StronglySorted (λ a b, (counter a < counter b)%N) ids.

Lemma drawn_nil c c' : drawn c c' [].
Proof. split; constructor. Qed.
Lemma drawn_mono a b c d ids : drawn b c ids → (a ≤ b)%N → (c ≤ d)%N → drawn a d ids.
Proof. intros [Hf Hs] ? ?. split; [|done]. eapply Forall_impl; [exact Hf|]. intros. by eapply fresh_mono. Qed.
Lemma drawn_snoc a b c ids id : drawn a b ids → fresh b c id → (a ≤ b)%N → drawn a c (ids ++ [id]).
Proof.
  intros [Hf Hs] Hid Hab. split.
  - apply Forall_app. split; [|constructor; [by eapply fresh_mono|done]].
    eapply Forall_impl; [exact Hf|]. intros x Hx. destruct Hid. eapply fresh_mono; [done|lia..].
  - apply StronglySorted_app. split_and!; [|done|repeat constructor].
    intros x y Hx Hy. apply list_elem_of_singleton in Hy as ->. rewrite Forall_forall in Hf.
    destruct (Hf _ Hx), Hid. lia.
Qed.
Lemma drawn_cons a b c id ids : fresh a b id → drawn b c ids → (b ≤ c)%N → drawn a c (id :: ids).
Proof.
  intros [Hp Hc] [Hf Hs] Hbc. split.
  - constructor; [by split; [|lia]|]. eapply Forall_impl; [exact Hf|]. intros x Hx.
    eapply fresh_mono; [done|lia..].
  - constructor; [done|]. eapply Forall_impl; [exact Hf|]. intros x [_ Hx]. simpl. lia.
Qed.
Lemma drawn_NoDup c c' ids : drawn c c' ids → NoDup ids.
Proof.
  intros [_ Hs]. induction Hs as [|id ids Hs IH Hf]; constructor; [|done].
  intros Hin. rewrite Forall_forall in Hf. specialize (Hf _ Hin). lia.
Qed.

Lemma next_op_id_spec c : (c < u64_max)%N →
  next_op_id c = (mkOpId c 0, (c + 1)%N).
Proof.
  intros Hc. unfold next_op_id, u64_wrapping_add. rewrite N.mod_small; [done|].
  unfold u64_max, u64_modulus in *. lia.
Qed.

(** ** Sequences built in order *)

Lemma of_ordered {T} (P : T → Prop) (items : list (OpId * T)) :
  NoDup items.*1 → Forall P items.*2 → seq_of P (from_ordered items).
Proof.
  intros Hnd HP. pose proof (from_ordered_inv_spec items Hnd) as Hspec.
  unfold from_ordered. fold (from_ordered_acc items).
  destruct (from_ordered_acc items) as [[els idx] after]. destruct Hspec as (Hinv & _ & Hids & Hvals).
  split; [done|]. intros v [(id & e & He & Hv)|(op & (w & l & [Hw|Hw] & _) & _)]; simpl in *.
  - apply element_map_lookup in He as [He _]; [|change (NoDup (elem_id <$> els)); by rewrite Hids].
    assert (Hin : Some v ∈ elem_value <$> els) by (rewrite <-Hv; by apply list_elem_of_fmap_2).
    rewrite Hvals in Hin. apply list_elem_of_fmap in Hin as (v' & [= <-] & Hv').
    rewrite Forall_forall in HP. by apply HP.
  - by rewrite lookup_empty in Hw.
  - by rewrite lookup_empty in Hw.
Qed.

(** ** Text *)

Section parser.
Context (sequence_incremental : bool).
Context (graphemes : string → list string).
(** The clusters of a string are its parts, and none is empty. *)
Hypothesis graphemes_concat : ∀ text, string_concat (graphemes text) = text.
Hypothesis graphemes_nonempty : ∀ text, Forall (λ g, g ≠ EmptyString) (graphemes text).

Lemma length_string_app a b : String.length (String.append a b) = String.length a + String.length b.
Proof. induction a as [|c a IH]; [done|]. exact (f_equal S IH). Qed.

Lemma grapheme_count_le text : grapheme_count graphemes text ≤ String.length text.
Proof.
  unfold grapheme_count. rewrite <-(graphemes_concat text) at 2.
  generalize (graphemes_nonempty text). induction (graphemes text) as [|g gs IH]; [simpl; lia|].
  intros [Hg Hgs]%Forall_cons. unfold string_concat in *. cbn [foldr length]. rewrite length_string_app.
  specialize (IH Hgs). destruct g as [|x g]; [done|]. simpl String.length at 1. lia.
Qed.

Lemma add_marks_counter ids ms acc c :
  (c + N.of_nat (length ms) ≤ u64_max)%N →
  let '(_, c') := fold_left (add_parsed_mark ids) ms (acc, c) in
  (c ≤ c' ≤ c + N.of_nat (length ms))%N.
Proof.
  revert acc c. induction ms as [|m ms IH]; intros acc c Hc; [simpl; lia|]. simpl length in *.
  cbn [fold_left]. destruct (add_parsed_mark ids (acc, c) m) as [acc1 c1] eqn:E.
  assert (c ≤ c1 ≤ c + 1)%N.
  { unfold add_parsed_mark in E. repeat case_match; simplify_eq; try lia.
    rewrite next_op_id_spec in H2 by lia. simplify_eq. lia. }
  specialize (IH acc1 c1 ltac:(lia)). destruct (fold_left _ ms _). lia.
Qed.

Lemma parse_text_block_spec kind md elem c :
  (c + N.of_nat (byte_len md) ≤ u64_max)%N →
  let '(b, c') := parse_text_block graphemes kind md elem c in
  blk_elem b = elem ∧ blk_id b = block_id_from_op elem ∧
  (∃ text, blk_kind b = kind text ∧ sequence_inv text) ∧ (c ≤ c' ≤ c + N.of_nat (byte_len md))%N.
Proof.
  intros Hc. unfold parse_text_block. pose proof (parse_fragment_size graphemes md) as Hsz.
  destruct (parse_fragment graphemes md) as [visible marks]. simpl in Hsz.
  pose proof (grapheme_count_le (utf8 visible)) as Hg. rewrite length_utf8 in Hg.
  pose proof (text_inv graphemes (utf8 visible) c 0 ltac:(lia)) as Hinv.
  pose proof (push_units 0 (graphemes (utf8 visible)) c [] ltac:(unfold grapheme_count in Hg; lia)) as Hu.
  unfold units_from_str in *. rewrite Hu in Hinv |- *. simpl in Hinv. cbn beta iota.
  set (c1 := (c + N.of_nat (length (graphemes (utf8 visible))))%N) in *. assert (c1 ≤ c + N.of_nat (byte_len visible))%N.
  { unfold c1. unfold grapheme_count in Hg. lia. }
  set (text := from_ordered _) in *. set (acc := blk_marks _).
  pose proof (add_marks_counter (paragraph_visible_ids text) marks acc c1 ltac:(lia)) as Hm.
  destruct (fold_left _ marks (acc, c1)) as [ms c2]. split_and!; try done; [by exists text| |].
  - subst c1. lia.
  - lia.
Qed.

(** ** Markers *)

Lemma marker_tail_sublist rest tail : marker_tail rest = Some tail → tail `sublist_of` rest.
Proof.
  unfold marker_tail. destruct rest as [|c rest]; [by intros [= <-]|].
  intros (s & Hs & ->)%fmap_Some. apply strip_blank_sublist in Hs.
  etrans; [apply trim_start_sublist|done].
Qed.

Lemma unordered_marker_size t m body :
  unordered_marker t = Some (m, body) → byte_len body + 1 ≤ byte_len t.
Proof.
  intros ([k sym] & _ & H)%find_map_Some. apply bind_Some in H as (rest & Hr & H).
  apply strip_char_Some in Hr as ->. apply bind_Some in H as (tail & Ht & [= <- <-]).
  apply marker_tail_sublist, byte_len_sublist in Ht.
  change (sym :: rest) with ([sym] ++ rest). rewrite byte_len_app.
  pose proof (length_le_byte_len [sym]). simpl in *. lia.
Qed.

Lemma ordered_marker_size t n d body :
  ordered_marker t = Some (n, d, body) → byte_len body + 1 ≤ byte_len t.
Proof.
  unfold ordered_marker. pose proof (span_while_app is_ascii_digit t) as Happ.
  destruct (span_while is_ascii_digit t) as [ds rest]. simpl in Happ. subst t. case_decide; [done|].
  intros ([k sym] & _ & H')%find_map_Some. apply bind_Some in H' as (tail & Hr & H').
  apply strip_char_Some in Hr as ->. apply bind_Some in H' as (b & Hb & [= _ _ <-]).
  apply marker_tail_sublist, byte_len_sublist in Hb.
  change (sym :: tail) with ([sym] ++ tail). rewrite !byte_len_app.
  pose proof (length_le_byte_len [sym]). simpl in *. lia.
Qed.

Lemma marker_body_size style t body : marker_body style t = Some body → byte_len body + 1 ≤ byte_len t.
Proof.
  unfold marker_body. case_match; intros H'.
  - apply bind_Some in H' as ([[n d] b] & Ho & H'). case_decide; [|done]. injection H' as ->.
    by eapply ordered_marker_size.
  - apply bind_Some in H' as ([m b] & Ho & H'). case_decide; [|done]. injection H' as ->.
    by eapply unordered_marker_size.
Qed.

Lemma marker_of_style t : is_list_start t = true → is_Some (marker_body (list_style_of t) t).
Proof.
  unfold is_list_start, list_style_of, marker_body. intros H%orb_true_iff.
  rewrite !bool_decide_eq_true in H.
  destruct (ordered_marker t) as [[[n d] b]|] eqn:Ho; simpl; [by rewrite decide_True|].
  destruct H as [[[m b] Hm]|[? ?]]; [|done]. rewrite Hm. simpl. by rewrite decide_True.
Qed.

Lemma task_marker_size body : byte_len (parse_task_marker body).2 ≤ byte_len body.
Proof.
  unfold parse_task_marker. destruct (find_map _ _) as [[t b]|] eqn:E; simpl; [|done].
  apply find_map_Some in E as ([prefix state] & _ & H). apply bind_Some in H as (rest & Hr & H).
  apply strip_str_Some in Hr as ->. case_match; [|done]. injection H as <- <-.
  apply byte_len_sublist, sublist_inserts_l, trim_start_sublist.
Qed.

(** ** Blocks and items with their ids *)

Definition blocks_ok (c c' : N) (bs : list Block) : Prop :=
  Forall (λ b, block_wf b ∧ blk_id b = block_id_from_op (blk_elem b)) bs ∧
  drawn c c' (blk_elem <$> bs).
Definition items_ok (c c' : N) (items : list ListItem) : Prop :=
  Forall item_wf items ∧ drawn c c' (it_elem <$> items).

Lemma blocks_ok_nil c c' : blocks_ok c c' [].
Proof. split; [done|apply drawn_nil]. Qed.
Lemma blocks_ok_mono a b c d bs : blocks_ok b c bs → (a ≤ b)%N → (c ≤ d)%N → blocks_ok a d bs.
Proof. intros [Hf Hd] ? ?. split; [done|]. by eapply drawn_mono. Qed.
Lemma blocks_ok_snoc a b c bs x :
  blocks_ok a b bs → blocks_ok b c [x] → (a ≤ b)%N → blocks_ok a c (bs ++ [x]).
Proof.
  intros [Hf Hd] [Hx Hdx] Hab. split; [by apply Forall_app|]. rewrite fmap_app.
  eapply drawn_snoc; [done| |done]. destruct Hdx as [Hdx _]. by apply Forall_inv in Hdx.
Qed.
Lemma block_ok_new c c' k elem :
  kind_wf k → fresh c c' elem → blocks_ok c c' [block_new k elem].
Proof.
  intros Hk Hf. split; [constructor; [|done]; split; [by apply block_wf_kind|done]|].
  split; [by constructor|repeat constructor].
Qed.

Lemma child_sequence_of c c' bs : blocks_ok c c' bs → seq_of block_wf (child_sequence bs).
Proof.
  intros [Hf Hd]. apply of_ordered; rewrite <-list_fmap_compose; simpl.
  - by eapply drawn_NoDup.
  - rewrite list_fmap_id. eapply Forall_impl; [exact Hf|]. by intros ? [? ?].
Qed.

Lemma items_of c c' items :
  items_ok c c' items → seq_of item_wf (from_ordered ((λ i, (it_elem i, i)) <$> items)).
Proof.
  intros [Hf Hd]. apply of_ordered; rewrite <-list_fmap_compose; simpl.
  - by eapply drawn_NoDup.
  - by rewrite list_fmap_id.
Qed.

(** A text block that was given the next id. *)
Lemma text_block_ok kind md c b c1 :
  next_op_id c = (b, c1) → (∀ text, sequence_inv text → kind_wf (kind text)) →
  (c + N.of_nat (byte_len md) + 1 ≤ u64_max)%N →
  let '(block, c') := parse_text_block graphemes kind md b c1 in
  blocks_ok c c' [block] ∧ (c ≤ c' ≤ c + N.of_nat (byte_len md) + 1)%N.
Proof.
  intros Hn Hk Hc. rewrite next_op_id_spec in Hn by lia. injection Hn as <- <-.
  pose proof (parse_text_block_spec kind md (mkOpId c 0) (c + 1) ltac:(lia)) as H.
  destruct (parse_text_block _ _ _ _ _) as [block c2]. destruct H as (He & Hid & (text & Ht & Hi) & Hc2).
  split; [|lia]. split.
  - constructor; [|done]. split; [apply block_wf_kind; rewrite Ht; by apply Hk|by rewrite He].
  - simpl. rewrite He. split; [constructor; [|done]; split; simpl; [done|lia]|repeat constructor].
Qed.

Lemma push_paragraph_ok c0 c children para :
  blocks_ok c0 c children → (c0 ≤ c)%N → (c + N.of_nat (para_weight para) ≤ u64_max)%N →
  let '(children', c') := push_list_paragraph graphemes children para c in
  blocks_ok c0 c' children' ∧ (c ≤ c' ≤ c + N.of_nat (para_weight para))%N.
Proof.
  intros Hch Hc0 Hc. unfold push_list_paragraph. destruct para as [|p ps] eqn:Ep; [split; [done|lia]|].
  rewrite <-Ep in *. assert (Hne : para ≠ []) by (by rewrite Ep). clear Ep.
  pose proof (byte_len_join para Hne) as Hj.
  destruct (next_op_id c) as [elem c1] eqn:Hn.
  pose proof (text_block_ok Paragraph (join_lines para) c elem c1 Hn ltac:(done) ltac:(lia)) as H.
  destruct (parse_text_block _ _ _ _ _) as [block c2]. destruct H as [Hb Hc2]. split; [|lia].
  eapply blocks_ok_snoc; [done|done|done].
Qed.

(** ** Lists *)

Local Abbreviation plist := (parse_list graphemes).
Local Abbreviation pitems := (list_items graphemes).
Local Abbreviation plines := (item_lines graphemes).

(** The first line is an item of a list with this indent. *)
Definition item_line (base : nat) (style : ListStyle) (lines : list ustring) : Prop :=
  ∃ line tail, lines = line :: tail ∧ blank_line line = false ∧ indent_of line = base ∧
    is_Some (marker_body style (trim line)).

Definition list_total (fuel : nat) : Prop := ∀ lines c base,
  3 * length lines + 2 ≤ fuel →
  item_line base (list_style_of (trim (default [] (head lines)))) lines →
  (c + N.of_nat (weight lines) ≤ u64_max)%N →
  ∃ b rest c', plist fuel lines c base = Some (b, rest, c') ∧
    rest `suffix_of` lines ∧ length rest < length lines ∧ blocks_ok c c' [b] ∧
    (c ≤ c')%N ∧ (c' + N.of_nat (weight rest) ≤ c + N.of_nat (weight lines))%N.

Definition items_total (fuel : nat) : Prop := ∀ lines c c0 base style items,
  3 * length lines + 1 ≤ fuel → (c0 ≤ c)%N → items_ok c0 c items →
  (c + N.of_nat (weight lines) ≤ u64_max)%N →
  ∃ style' items' rest c', pitems fuel lines c base style items = Some (style', items', rest, c') ∧
    rest `suffix_of` lines ∧ items_ok c0 c' items' ∧ (c ≤ c')%N ∧ length items ≤ length items' ∧
    (item_line base style lines → length rest < length lines ∧ length items < length items') ∧
    (c' + N.of_nat (weight rest + length items') ≤ c + N.of_nat (weight lines + length items))%N.

Definition lines_total (fuel : nat) : Prop := ∀ lines c c0 base style children para,
  3 * length lines + 3 ≤ fuel → (c0 ≤ c)%N → blocks_ok c0 c children →
  (c + N.of_nat (weight lines + para_weight para) ≤ u64_max)%N →
  ∃ style' children' para' rest c',
    plines fuel lines c base style children para = Some (style', children', para', rest, c') ∧
    rest `suffix_of` lines ∧ blocks_ok c0 c' children' ∧ (c ≤ c')%N ∧
    (c' + N.of_nat (weight rest + para_weight para') ≤ c + N.of_nat (weight lines + para_weight para))%N.

Lemma list_total_step fuel : items_total fuel → list_total (S fuel).
Proof.
  intros Hitems lines c base Hf Hline Hc. cbn [parse_list].
  destruct (Hitems lines c c base (list_style_of (trim (default [] (head lines)))) [])
    as (style & items & rest & c1 & -> & Hs & Hok & Hc1 & _ & Hprog & Hw);
    [lia|done|split; [done|apply drawn_nil]|done|].
  destruct (Hprog Hline) as [Hlen Hn]. simpl in Hn, Hw. cbn [mbind option_bind].
  rewrite next_op_id_spec by lia.
  eexists _, rest, _. split; [done|]. split_and!; [done|done| |lia|lia].
  apply block_ok_new; [by eapply items_of|]. split; simpl; [done|lia].
Qed.

(** A stop leaves everything as it is. *)
Lemma items_stop c c0 base style items lines :
  (c0 ≤ c)%N → items_ok c0 c items → ¬ item_line base style lines →
  ∃ style' items' rest c', Some (style, items, lines, c) = Some (style', items', rest, c') ∧
    rest `suffix_of` lines ∧ items_ok c0 c' items' ∧ (c ≤ c')%N ∧ length items ≤ length items' ∧
    (item_line base style lines → length rest < length lines ∧ length items < length items') ∧
    (c' + N.of_nat (weight rest + length items') ≤ c + N.of_nat (weight lines + length items))%N.
Proof. intros. exists style, items, lines, c. by split_and!. Qed.

Lemma item_ok c0 c c1 elem task children :
  fresh c c1 elem → blocks_ok c c1 children → (c0 ≤ c)%N →
  ∀ items, items_ok c0 c items → items_ok c0 c1 (items ++ [item_new elem task children]).
Proof.
  intros He Hch Hc0 items [Hi Hd]. split.
  - apply Forall_app. split; [done|]. constructor; [|done]. by eapply child_sequence_of.
  - rewrite fmap_app. by eapply drawn_snoc.
Qed.

Lemma items_total_step fuel :
  items_total fuel → lines_total fuel → items_total (S fuel).
Proof.
  intros Hitems Hlines lines c c0 base style items Hf Hc0 Hok Hc. cbn [list_items].
  destruct lines as [|line tail]; [by apply items_stop; [..|intros (? & ? & ? & _)]|].
  simpl length in Hf. rewrite weight_cons in Hc.
  destruct (bool_decide (indent_of line < base) && negb (blank_line line)) eqn:E1.
  { apply andb_true_iff in E1 as [E1%bool_decide_eq_true _]. apply items_stop; [done..|].
    intros (? & ? & [= <- <-] & _ & ? & _). lia. }
  destruct (blank_line line) eqn:Eb.
  { assert (Hno : ¬ item_line base style (line :: tail)) by (intros (? & ? & [= <- <-] & ? & _); congruence).
    destruct (skip_blank tail) as [|next more]; [by apply items_stop|].
    case_match; [|by apply items_stop].
    destruct (Hitems tail c c0 base (set_loose style) items)
      as (style' & items' & rest & c' & -> & Hs & ? & ? & ? & _ & Hw); [lia|done|done|lia|].
    exists style', items', rest, c'. split; [done|]. split_and!; [by apply suffix_cons_r|done|done|done|done|].
    rewrite weight_cons. lia. }
  destruct (marker_body style (trim line)) as [body|] eqn:Em.
  2: { apply items_stop; [done..|]. intros (? & ? & [= <- <-] & _ & _ & [? ?]). congruence. }
  clear E1. destruct (decide (indent_of line ≠ base)) as [Ei|Ei];
    [apply items_stop; [done..|]; by intros (? & ? & [= <- <-] & _ & ? & _)|].
  rewrite next_op_id_spec by lia.
  pose proof (task_marker_size body) as Ht. pose proof (marker_body_size _ _ _ Em) as Hm.
  pose proof (byte_len_trim line). destruct (parse_task_marker body) as [task body']. simpl in Ht.
  set (para := match body' with [] => [] | _ => [body'] end).
  assert (Hp : para_weight para ≤ byte_len line).
  { unfold para. destruct body'; unfold para_weight; csimpl; lia. }
  destruct (Hlines tail (c + 1) (c + 1) base style [] para)%N
    as (style' & children & para' & rest & c1 & -> & Hs & Hch & Hc1 & Hw); [lia|lia|apply blocks_ok_nil|lia|].
  cbn [mbind option_bind]. pose proof (push_paragraph_ok (c + 1) c1 children para' Hch ltac:(lia) ltac:(lia)) as Hpush.
  destruct (push_list_paragraph _ children para' c1) as [children' c2]. destruct Hpush as [Hch' Hc2].
  assert (Hok' : items_ok c0 c2 (items ++ [item_new (mkOpId c 0) task children'])).
  { eapply (item_ok c0 c); [split; simpl; [done|lia]| |done|done]. eapply blocks_ok_mono; [done|lia|lia]. }
  pose proof (suffix_length _ _ Hs).
  destruct (Hitems rest c2 c0 base style' _ ltac:(lia) ltac:(lia) Hok' ltac:(lia))
    as (style'' & items' & rest' & c' & -> & Hs' & ? & ? & Hn & _ & Hw').
  pose proof (suffix_length _ _ Hs'). rewrite length_app in Hw', Hn. simpl in Hw', Hn.
  exists style'', items', rest', c'. split; [done|].
  split_and!; [apply suffix_cons_r; by etrans|done|lia|lia|simpl; lia|rewrite weight_cons; lia].
Qed.

Lemma lines_stop c c0 (style : ListStyle) children para lines :
  (c0 ≤ c)%N → blocks_ok c0 c children →
  ∃ style' children' para' rest c',
    Some (style, children, para, lines, c) = Some (style', children', para', rest, c') ∧
    rest `suffix_of` lines ∧ blocks_ok c0 c' children' ∧ (c ≤ c')%N ∧
    (c' + N.of_nat (weight rest + para_weight para') ≤ c + N.of_nat (weight lines + para_weight para))%N.
Proof. intros. exists style, children, para, lines, c. by split_and!. Qed.

Lemma lines_total_step fuel : list_total fuel → lines_total fuel → lines_total (S fuel).
Proof.
  intros Hlist Hlines lines c c0 base style children para Hf Hc0 Hch Hc. cbn [item_lines].
  destruct lines as [|line tail]; [by apply lines_stop|].
  simpl length in Hf. rewrite weight_cons in Hc.
  destruct (blank_line line) eqn:Eb.
  { destruct (skip_blank tail) as [|next more]; [by apply lines_stop|].
    destruct (decide (base < indent_of next)); [|by apply lines_stop].
    assert (∃ children1 para1 c1, (if is_list_start (trim next) then (children, para, c)
        else let '(children, c) := push_list_paragraph graphemes children para c in (children, [], c)) =
        (children1, para1, c1) ∧ blocks_ok c0 c1 children1 ∧ (c ≤ c1)%N ∧
        (c1 + N.of_nat (para_weight para1) ≤ c + N.of_nat (para_weight para))%N)
      as (children1 & para1 & c1 & -> & Hch1 & Hc1 & Hw1).
    { destruct (is_list_start (trim next)); [by exists children, para, c|].
      pose proof (push_paragraph_ok c0 c children para Hch Hc0 ltac:(lia)) as Hp.
      destruct (push_list_paragraph _ _ _ _) as [children1 c1]. destruct Hp as [? ?].
      exists children1, [], c1. split_and!; [done|done|lia|]. change (para_weight []) with 0. lia. }
    destruct (Hlines tail c1 c0 base (set_loose style) children1 para1)
      as (st & ch & pa & rest & c' & -> & Hs & ? & ? & Hw); [lia|lia|done|lia|].
    exists st, ch, pa, rest, c'. split; [done|].
    split_and!; [by apply suffix_cons_r|done|lia|rewrite weight_cons; lia]. }
  destruct (bool_decide (base < indent_of line) && is_list_start (trim line)) eqn:El.
  { apply andb_true_iff in El as [Eind Estart].
    pose proof (push_paragraph_ok c0 c children para Hch Hc0 ltac:(lia)) as Hp.
    destruct (push_list_paragraph _ _ _ _) as [children1 c1]. destruct Hp as [Hch1 Hc1].
    destruct (Hlist (line :: tail) c1 (indent_of line)) as (b & rest & c2 & -> & Hs & Hl & Hb & Hc2 & Hw2);
      [simpl; lia|exists line, tail; split_and!; try done; by apply marker_of_style|rewrite weight_cons; lia|].
    simpl in Hl. rewrite weight_cons in Hw2. cbn [mbind option_bind].
    destruct (Hlines rest c2 c0 base style (children1 ++ [b]) [])
      as (st & ch & pa & rest' & c' & -> & Hs' & ? & ? & Hw);
      [lia|lia|eapply blocks_ok_snoc; [done|done|lia]|change (para_weight []) with 0; lia|].
    change (para_weight []) with 0 in Hw.
    exists st, ch, pa, rest', c'. split; [done|].
    split_and!; [by etrans|done|lia|rewrite weight_cons; lia]. }
  clear El. destruct (decide (base < indent_of line)); [|by apply lines_stop].
  pose proof (byte_len_trim line).
  assert (Hp : para_weight (para ++ [trim line]) ≤ para_weight para + byte_len line + 1).
  { rewrite para_weight_app. unfold para_weight at 2. csimpl. lia. }
  destruct (Hlines tail c c0 base style children (para ++ [trim line]))
    as (st & ch & pa & rest & c' & -> & Hs & ? & ? & Hw); [lia|done|done|lia|].
  exists st, ch, pa, rest, c'. split; [done|].
  split_and!; [by apply suffix_cons_r|done|lia|rewrite weight_cons; lia].
Qed.

Lemma lists_total fuel : list_total fuel ∧ items_total fuel ∧ lines_total fuel.
Proof.
  induction fuel as [|fuel (Hl & Hi & Hc)].
  - split_and!; intros lines; intros; lia.
  - split_and!; auto using list_total_step, items_total_step, lines_total_step.
Qed.

(** ** Runs of lines *)

Lemma run_parts (run : list ustring → list ustring * list ustring) lines :
  (∀ lines, run lines = ([], lines) ∨
     ∃ l ls, lines = l :: ls ∧ run lines = prod_map (cons l) id (run ls)) →
  (run lines).1 ++ (run lines).2 = lines.
Proof.
  intros Hrun. induction lines as [|l ls IH].
  - destruct (Hrun []) as [->|(? & ? & ? & _)]; done.
  - destruct (Hrun (l :: ls)) as [->|(? & ? & [= <- <-] & ->)]; [done|]. simpl. by f_equal.
Qed.

Lemma raw_run_parts lines : (raw_run lines).1 ++ (raw_run lines).2 = lines.
Proof.
  apply run_parts. intros [|l ls]; simpl; [by left|]. case_match; [by left|]. right. by exists l, ls.
Qed.
Lemma paragraph_run_parts lines : (paragraph_run lines).1 ++ (paragraph_run lines).2 = lines.
Proof.
  apply run_parts. intros [|l ls]; simpl; [by left|]. case_match; [by left|]. right. by exists l, ls.
Qed.

Lemma suffix_of_parts {A} (a b l : list A) : a ++ b = l → b `suffix_of` l.
Proof. intros <-. by exists a. Qed.

Lemma fence_lines_suffix style lines : (fence_lines style lines).2 `suffix_of` lines.
Proof.
  induction lines as [|l ls IH]; simpl; [done|]. case_match; simpl; by apply suffix_cons_r.
Qed.

Lemma table_run_suffix lines :
  (table_run lines).2 `suffix_of` lines ∧
  length (table_run lines).1 + weight (table_run lines).2 ≤ weight lines.
Proof.
  induction lines as [|l ls [IH Hw]]; cbn [table_run]; [done|].
  destruct (parse_table_cells l); simpl; [|by split; [|lia]].
  split; [by apply suffix_cons_r|]. rewrite weight_cons. lia.
Qed.

(** The size that bounds the depth of quotes. *)
Definition line_size (lines : list ustring) : nat := sum_list ((λ l, S (length l)) <$> lines).

Lemma line_size_app a b : line_size (a ++ b) = line_size a + line_size b.
Proof. unfold line_size. rewrite fmap_app. apply sum_list_with_app. Qed.
Lemma line_size_suffix a b : a `suffix_of` b → length a < length b → line_size a < line_size b.
Proof.
  intros [k ->]. rewrite length_app, line_size_app. destruct k as [|l k]; simpl; [lia|].
  change (line_size (l :: k)) with (S (length l) + line_size k). lia.
Qed.

(** A quoted line loses at least its marker. *)
Lemma quote_strip line : starts_with_char c_greater (trim line) = true →
  let s := trim_start (trim_start_matches c_greater (trim line)) in
  length s < length line ∧ byte_len s + 1 ≤ byte_len line.
Proof.
  unfold starts_with_char. rewrite bool_decide_eq_true. intros H. simpl.
  pose proof (trim_sublist line) as Ht. destruct (trim line) as [|c t]; [done|].
  injection H as ->. simpl.
  assert (Hs : c_greater :: trim_start (trim_start_matches c_greater t) `sublist_of` line).
  { etrans; [|exact Ht]. apply sublist_skip. etrans; [apply trim_start_sublist|apply trim_start_matches_sublist]. }
  pose proof (sublist_length _ _ Hs) as Hl. pose proof (byte_len_sublist _ _ Hs) as Hb.
  rewrite byte_len_cons in Hb. pose proof (len_utf8_pos c_greater). simpl in Hl. lia.
Qed.

Lemma quote_run_spec lines :
  (quote_run lines).2 `suffix_of` lines ∧
  line_size (quote_run lines).1 + length (quote_run lines).1 + line_size (quote_run lines).2
    ≤ line_size lines ∧
  weight (quote_run lines).1 + length (quote_run lines).1 + weight (quote_run lines).2 ≤ weight lines.
Proof.
  induction lines as [|l ls (IH & Hs & Hw)]; cbn [quote_run]; [done|].
  destruct (starts_with_char c_greater (trim l)) eqn:E; simpl; [|split_and!; [done|lia..]].
  apply quote_strip in E. simpl in E. destruct E as [El Eb].
  split; [by apply suffix_cons_r|]. rewrite !weight_cons. unfold line_size in *. csimpl. lia.
Qed.

(** ** Tables *)

Lemma cells_loop_length fuel rest cell cells :
  length rest < fuel → length (cells_loop rest cell cells) ≤ length cells + length rest + 1.
Proof.
  revert rest cell cells. induction fuel as [|fuel IH]; intros rest cell cells Hf; [lia|].
  destruct rest as [|c rest]; simpl in *; [rewrite length_app; simpl; lia|].
  case_decide; [etrans; [apply IH; lia|rewrite length_app; simpl; lia]|].
  case_decide; [|etrans; [apply IH; lia|lia]].
  destruct rest as [|c' rest]; [simpl; rewrite length_app; simpl; lia|].
  case_decide; (etrans; [apply IH; simpl in *; lia|simpl; lia]).
Qed.

Lemma parse_table_cells_length line cells :
  parse_table_cells line = Some cells → length cells ≤ byte_len line + 1.
Proof.
  unfold parse_table_cells. case_match; [done|]. intros [= <-].
  set (inner := default _ _).
  assert (Hi : length inner ≤ length line).
  { etrans; [|apply sublist_length, (trim_sublist line)]. unfold inner.
    destruct (strip_char c_pipe (trim line)) as [s|] eqn:E; simpl; [|done].
    apply strip_char_Some in E as ->. simpl. lia. }
  pose proof (length_le_byte_len line).
  etrans; [eapply cells_loop_length, Nat.lt_succ_diag_r|]. case_match; [|simpl; lia].
  rewrite length_take. simpl. lia.
Qed.

Lemma insert_column_wf after al header id t :
  table_wf t → table_wf (insert_column sequence_incremental after al header id t).
Proof.
  intros [Hc Hr]. apply column_ops_wf. split; simpl; [|done]. unfold sequence_insert. by apply inv_apply.
Qed.
Lemma insert_row_wf after values id t :
  table_wf t → table_wf (insert_row sequence_incremental after values id t).
Proof.
  intros [Hc Hr]. apply row_moves_wf, table_fold; [by intros ? ? [? ?]|].
  split; simpl; [done|]. unfold sequence_insert. by apply inv_apply.
Qed.

(** Adding columns or rows one after the other. *)
Lemma table_fold_ok {A} (f : Table * option OpId * N → A → Table * option OpId * N) l t o c :
  (∀ t o c x, table_wf t → (c < u64_max)%N →
     ∃ t' o', f (t, o, c) x = (t', o', (c + 1)%N) ∧ table_wf t') →
  table_wf t → (c + N.of_nat (length l) ≤ u64_max)%N →
  ∃ t' o', fold_left f l (t, o, c) = (t', o', (c + N.of_nat (length l))%N) ∧ table_wf t'.
Proof.
  intros Hf. revert t o c. induction l as [|x l IH]; intros t o c Ht Hc; simpl length in *.
  { exists t, o. by rewrite N.add_0_r. }
  simpl. destruct (Hf t o c x Ht ltac:(lia)) as (t1 & o1 & -> & Ht1).
  destruct (IH t1 o1 (c + 1)%N Ht1 ltac:(lia)) as (t2 & o2 & -> & Ht2).
  exists t2, o2. split; [|done]. f_equal. lia.
Qed.

Lemma table_block_ok columns header rows c :
  (c + N.of_nat (1 + length header + length rows) ≤ u64_max)%N →
  let '(b, c') := table_block sequence_incremental columns header rows c in
  blocks_ok c c' [b] ∧ (c ≤ c' ≤ c + N.of_nat (1 + length header + length rows))%N.
Proof.
  intros Hc. unfold table_block. rewrite next_op_id_spec by lia.
  assert (length (zip columns header) ≤ length header) by (rewrite length_zip_with; lia).
  destruct (table_fold_ok (add_column sequence_incremental) (zip columns header)
    (table_new (block_id_from_op (mkOpId c 0)) (mkOpId c 0) (mkOpId c 0)) None (c + 1)%N)
    as (t1 & o1 & -> & Ht1).
  { intros t o c1 x Ht Hc1. unfold add_column. rewrite next_op_id_spec by done. eexists _, _.
    split; [done|]. by apply insert_column_wf. }
  { split; apply sequence_new_inv. }
  { lia. }
  destruct (table_fold_ok (add_row sequence_incremental (column_id <$> columns_in_order t1)) rows
    t1 None (c + 1 + N.of_nat (length (zip columns header)))%N) as (t2 & o2 & -> & Ht2).
  { intros t o c1 x Ht Hc1. unfold add_row. rewrite next_op_id_spec by done. eexists _, _.
    split; [done|]. by apply insert_row_wf. }
  { done. }
  { lia. }
  split; [|lia]. apply block_ok_new; [done|]. split; simpl; [done|lia].
Qed.

(** ** Constructs *)

Lemma strip_closing_sublist s : strip_atx_closing_sequence s `sublist_of` s.
Proof.
  unfold strip_atx_closing_sequence. case_decide; [apply trim_end_sublist|].
  case_match; [|apply trim_end_sublist].
  etrans; [apply trim_end_sublist|]. etrans; [apply sublist_take|apply trim_end_sublist].
Qed.

Lemma atx_title_size t level title : parse_atx_heading t = Some (level, title) → byte_len title ≤ byte_len t.
Proof.
  unfold parse_atx_heading. repeat case_decide; [done..|]. case_match; [done|]. intros [= _ <-].
  apply byte_len_sublist. etrans; [apply strip_closing_sublist|].
  etrans; [apply trim_start_sublist|apply sublist_drop].
Qed.

(** What a recognised construct says about its lines. *)
Lemma recognise_spec line tail :
  match recognise line tail with
  | AtFence _ _ | AtRaw => True
  | AtQuote => starts_with_char c_greater (trim line) = true
  | AtTable _ header rest =>
    rest `suffix_of` tail ∧ length header + weight rest ≤ byte_len line + 1 + weight tail
  | AtHeading _ title rest => rest `suffix_of` tail ∧ byte_len title ≤ byte_len line ∧
      weight rest ≤ weight tail
  | AtList => is_list_start (trim line) = true
  | AtParagraph => blank_line line = false → ends_paragraph line = false
  end.
Proof.
  unfold recognise. pose proof (byte_len_trim line).
  destruct (parse_fence_open (trim line)) as [[style info]|] eqn:Ef; [done|].
  destruct (starts_with_char c_greater (trim line)) eqn:Eq; [done|].
  destruct (starts_with colons (trim line)) eqn:Er; [done|].
  destruct (table_start line tail) as [[[cols header] rest]|] eqn:Et.
  { destruct tail as [|next tail]; [done|]. simpl in Et. apply bind_Some in Et as (cs & _ & Et).
    apply bind_Some in Et as (h & Hh & Et). case_decide; [|done]. injection Et as <- <- <-.
    apply parse_table_cells_length in Hh. rewrite weight_cons. split; [by apply suffix_cons_r|lia]. }
  destruct (parse_atx_heading (trim line)) as [[level title]|] eqn:Ea.
  { apply atx_title_size in Ea. split_and!; [done|lia|lia]. }
  destruct (is_list_start (trim line)) eqn:El; [done|].
  assert (Hp : blank_line line = false → ends_paragraph line = false).
  { unfold blank_line, ends_paragraph. intros ->. by rewrite Ef, Eq, Er, Ea, El. }
  destruct tail as [|next tail]; [done|]. destruct (parse_setext_underline (trim next)); [|done].
  rewrite weight_cons. split_and!; [by apply suffix_cons_r|done|lia].
Qed.

(** What the parser of quoted lines must satisfy, on lines below a size. *)
Definition nested_ok (size : nat) (nested : list ustring → N → option (list Block * N)) : Prop :=
  ∀ lines c, line_size lines < size → (c + N.of_nat (weight lines) ≤ u64_max)%N →
  ∃ children c', nested lines c = Some (children, c') ∧ blocks_ok c c' children ∧
    (c ≤ c' ≤ c + N.of_nat (weight lines))%N.

Lemma paragraph_first line tail : ends_paragraph line = false →
  (paragraph_run (line :: tail)).1 ≠ [] ∧ (paragraph_run (line :: tail)).2 `suffix_of` tail.
Proof.
  intros H. simpl. rewrite H. simpl. split; [done|]. eapply suffix_of_parts, paragraph_run_parts.
Qed.

Lemma weight_suffix a b : a `suffix_of` b → weight a ≤ weight b.
Proof. intros [k ->]. rewrite weight_app. lia. Qed.

(** A block that only draws its own id. *)
Lemma leaf_ok c k : kind_wf k → (c < u64_max)%N →
  blocks_ok c (c + 1) [block_new k (mkOpId c 0)].
Proof. intros Hk Hc. apply block_ok_new; [done|]. split; simpl; [done|lia]. Qed.

Lemma suffix_strict {A} (x : A) l k : l `suffix_of` x :: k → length l < length (x :: k) → l `suffix_of` k.
Proof.
  intros [[|y p] Hp] Hl; simpl in *; [by subst; simpl in Hl; lia|]. injection Hp as <- ->. by exists p.
Qed.

(** The result of [build] on the lines [line :: tail]. *)
Definition built (c : N) (line : ustring) (tail : list ustring)
    (r : option (Block * list ustring * N)) : Prop :=
  ∃ b rest c', r = Some (b, rest, c') ∧ rest `suffix_of` tail ∧ blocks_ok c c' [b] ∧ (c ≤ c')%N ∧
    (c' + N.of_nat (weight rest) ≤ c + N.of_nat (weight (line :: tail)))%N.

Lemma built_leaf c line tail k rest :
  kind_wf k → rest `suffix_of` tail → (c < u64_max)%N →
  built c line tail (Some (block_new k (mkOpId c 0), rest, (c + 1)%N)).
Proof.
  intros Hk Hs Hc. eexists _, _, _. split; [done|]. pose proof (weight_suffix _ _ Hs).
  rewrite weight_cons. split_and!; [done|by apply leaf_ok|lia|lia].
Qed.

Lemma built_text c line tail kind md rest :
  (∀ text, sequence_inv text → kind_wf (kind text)) → rest `suffix_of` tail →
  (c + N.of_nat (byte_len md + 1) ≤ u64_max)%N →
  byte_len md + 1 + weight rest ≤ weight (line :: tail) →
  built c line tail
    (let '(elem, c) := next_op_id c in
     let '(block, c) := parse_text_block graphemes kind md elem c in Some (block, rest, c)).
Proof.
  intros Hk Hs Hc Hw. destruct (next_op_id c) as [elem c1] eqn:Hn.
  pose proof (text_block_ok kind md c elem c1 Hn Hk ltac:(lia)) as H.
  destruct (parse_text_block _ _ _ _ _) as [block c2]. destruct H as [Hb Hc2].
  exists block, rest, c2. split_and!; [done..|lia|lia].
Qed.

Lemma build_ok nested line tail c :
  blank_line line = false → (c + N.of_nat (weight (line :: tail)) ≤ u64_max)%N →
  nested_ok (line_size (line :: tail)) nested →
  built c line tail
    (build sequence_incremental graphemes nested (recognise line tail) line tail c).
Proof.
  intros Hb Hc Hn. pose proof (recognise_spec line tail) as Hr. pose proof Hc as Hc'. rewrite weight_cons in Hc'.
  destruct (recognise line tail) as [style info| | |columns header rest|level title rest| |]; unfold build.
  - pose proof (fence_lines_suffix style tail). destruct (fence_lines style tail) as [contents rest].
    rewrite next_op_id_spec by lia. by apply built_leaf; [..|lia].
  - destruct (quote_run_spec (line :: tail)) as (Hs & Hsz & Hw).
    assert (Hq : (quote_run (line :: tail)).2 `suffix_of` tail ∧ 0 < length (quote_run (line :: tail)).1).
    { cbn [quote_run]. rewrite Hr. simpl. split; [|lia]. by destruct (quote_run_spec tail). }
    destruct (quote_run (line :: tail)) as [quoted rest]. simpl in Hs, Hsz, Hw, Hq. destruct Hq as [Hq Hpos].
    destruct (Hn quoted c) as (children & c1 & -> & Hch & Hc1); [lia|lia|].
    cbn [mbind option_bind]. rewrite next_op_id_spec by lia. eexists _, _, _. split; [done|].
    split_and!; [done| |lia|rewrite weight_cons in *; lia].
    apply block_ok_new; [by eapply child_sequence_of|]. split; simpl; [done|lia].
  - pose proof (suffix_of_parts _ _ _ (raw_run_parts tail)) as Hs. destruct (raw_run tail) as [raw rest].
    rewrite next_op_id_spec by lia. by apply built_leaf; [..|lia].
  - destruct Hr as [Hs Hw]. destruct (table_run_suffix rest) as [Hs' Hw'].
    destruct (table_run rest) as [rows rest']. simpl in *.
    pose proof (table_block_ok columns header rows c ltac:(lia)) as Ht.
    destruct (table_block _ _ _ _ _) as [b c1]. destruct Ht as [Ht Hc1].
    exists b, rest', c1. split_and!; [done|by etrans|done|lia|rewrite weight_cons; lia].
  - destruct Hr as (Hs & Ht & Hw). apply built_text; [done|done|lia|rewrite weight_cons; lia].
  - destruct (proj1 (lists_total (list_fuel (line :: tail))) (line :: tail) c (indent_of line))
      as (b & rest & c1 & -> & Hs & Hl & Hok & Hc1 & Hw); [unfold list_fuel; lia| |done|].
    { exists line, tail. split_and!; try done. by apply marker_of_style. }
    exists b, rest, c1. split_and!; try done. by apply suffix_strict with line.
  - destruct (paragraph_first line tail (Hr Hb)) as [Hne Hs].
    pose proof (paragraph_run_parts (line :: tail)) as Hp.
    destruct (paragraph_run (line :: tail)) as [para rest]. simpl in *.
    pose proof (byte_len_join para Hne) as Hj. pose proof (para_weight_le para).
    apply (f_equal weight) in Hp. rewrite weight_app, weight_cons in Hp.
    apply built_text; [done|done|lia|rewrite weight_cons; lia].
Qed.

(** ** Blocks *)

(** Spans lie one behind the other between two lines. *)
Fixpoint spans_ok (lo hi : nat) (spans : list (BlockId * nat * nat)) : Prop :=
  match spans with
  | [] => lo ≤ hi
  | (_, a, b) :: spans => lo ≤ a ∧ a < b ∧ spans_ok b hi spans
  end.

Lemma spans_ok_lower lo lo' hi spans : spans_ok lo hi spans → lo' ≤ lo → spans_ok lo' hi spans.
Proof. destruct spans as [|[[id a] b] spans]; simpl; [lia|]. intros (? & ? & ?) ?. split_and!; [lia|done..]. Qed.

Lemma parse_blocks_total fuel lines index c :
  line_size lines < fuel → (c + N.of_nat (weight lines) ≤ u64_max)%N →
  ∃ blocks spans c',
    parse_blocks sequence_incremental graphemes fuel lines index c = Some (blocks, spans, c') ∧
    blocks_ok c c' blocks ∧ (c ≤ c' ≤ c + N.of_nat (weight lines))%N ∧
    spans.*1.*1 = blk_id <$> blocks ∧ spans_ok index (index + length lines) spans.
Proof.
  revert lines index c. induction fuel as [|fuel IH]; intros lines index c Hf Hc; [lia|].
  destruct lines as [|line tail]; cbn [parse_blocks].
  { exists [], [], c. split_and!; [done|apply blocks_ok_nil|lia|lia|done|simpl; lia]. }
  assert (Ht : line_size tail < line_size (line :: tail)) by (unfold line_size; csimpl; lia).
  destruct (blank_line line) eqn:Hb.
  { rewrite weight_cons in Hc. destruct (IH tail (S index) c) as (bs & spans & c' & -> & Hok & Hc' & Hid & Hs); [lia|lia|].
    exists bs, spans, c'. rewrite weight_cons. split_and!; [done..|lia|lia|done|].
    simpl length. rewrite <-Nat.add_succ_comm. eapply spans_ok_lower; [done|lia]. }
  set (nested := λ quote_lines counter, _).
  destruct (build_ok nested line tail c Hb Hc) as (b & rest & c1 & -> & Hs & Hok & Hc1 & Hw).
  { intros ls c2 Hl Hc2. unfold nested. destruct (IH ls 0 c2) as (bs & spans & c3 & -> & Hbs & Hc3 & _); [lia|done|].
    exists bs, c3. split_and!; [done|done|lia|lia]. }
  cbn [mbind option_bind]. pose proof (suffix_length _ _ Hs) as Hl.
  destruct (IH rest (index + (length (line :: tail) - length rest)) c1)
    as (bs & spans & c' & -> & Hbs & Hc' & Hid & Hspans); [|lia|].
  { pose proof (line_size_suffix rest (line :: tail) ltac:(by apply suffix_cons_r) ltac:(simpl; lia)). lia. }
  eexists _, _, _. split; [done|]. split_and!; [|lia|lia|simpl; by f_equal|].
  - destruct Hok as [Hb1 Hd1], Hbs as [Hb2 Hd2]. split; [by apply (Forall_app_2 _ [b])|].
    simpl. eapply drawn_cons; [|done|lia]. destruct Hd1 as [Hd1 _]. by apply Forall_inv in Hd1.
  - cbn [spans_ok]. split_and!; [lia|simpl; lia|].
    replace (index + length (line :: tail)) with (index + (length (line :: tail) - length rest) + length rest)
      by (simpl; lia). done.
Qed.
End parser.
