(* ===== verification/ParseProps.v ===== *)
(** * Parsing a text and printing it back

    Parsing succeeds on every text whose frontmatter is accepted, it builds a
    typed document, and printing the document before any edit gives the text
    back, byte for byte. *)

From S2P Require Import Prelude Core Sequence SequenceInv Mark Table Frontmatter Codec Text.
From S2P Require Import SequenceProps SessionWire TreeInv.
From S2P Require Import Draft Block Document.
From S2P Require Import Chars Inline Markdown Serialize ParseInv.

(** ** Cutting a string at byte positions *)

Lemma slice_app a b c : slice (byte_len a) (byte_len (a ++ b)) (a ++ b ++ c) = Some b.
Proof.
  unfold slice. rewrite byte_len_app. rewrite decide_True by lia. rewrite slice_from_app. simpl.
  replace (byte_len a + byte_len b - byte_len a) with (byte_len b) by lia. apply slice_to_app.
Qed.

(** ** The lines of a text *)

Lemma split_inclusive_spec s seg :
  mjoin (split_inclusive_from s seg) = seg ++ s ∧ Forall (λ x, x ≠ []) (split_inclusive_from s seg).
Proof.
  revert seg. induction s as [|c s IH]; intros seg; simpl.
  - case_decide; subst; [done|]. simpl. split; [done|by repeat constructor].
  - case_decide.
    + destruct (IH []) as [H1 H2]. simpl. rewrite H1. rewrite <-(assoc_L (++)). split; [done|].
      constructor; [by destruct seg|done].
    + destruct (IH (seg ++ [c])) as [H1 H2]. rewrite H1, <-(assoc_L (++)). done.
Qed.

Lemma strip_cr_app l : ∃ r, l = strip_carriage_return l ++ r.
Proof.
  unfold strip_carriage_return. destruct (last l) as [c|] eqn:E; [|by exists []; rewrite app_nil_r].
  case_decide; [|by exists []; rewrite app_nil_r]. exists (drop (length l - 1) l). by rewrite take_drop.
Qed.

(** A segment is its logical line and the end of the line. *)
Lemma logical_line_app seg : ∃ r, seg = logical_line seg ++ r.
Proof.
  unfold logical_line. case_match; [|by exists []; rewrite app_nil_r].
  destruct (strip_cr_app (take (length seg - 1) seg)) as [r Hr].
  exists (r ++ drop (length seg - 1) seg). rewrite (assoc_L (++)), <-Hr. by rewrite take_drop.
Qed.

(** [SourceLine]s with the text in front of them. *)
Fixpoint lines_at (start : nat) (segs : list ustring) : list SourceLine :=
  match segs with
  | [] => []
  | seg :: segs =>
    mkSourceLine (logical_line seg) start (start + byte_len (logical_line seg)) ::
      lines_at (start + byte_len seg) segs
  end.

Lemma push_source_lines segs out start :
  (fold_left push_source_line segs (out, start)).1 = out ++ lines_at start segs.
Proof.
  revert out start. induction segs as [|seg segs IH]; intros out start; simpl; [by rewrite app_nil_r|].
  rewrite IH. by rewrite <-(assoc_L (++)).
Qed.

Lemma source_lines_at text : source_lines text = lines_at 0 (split_inclusive text).
Proof. unfold source_lines. by rewrite push_source_lines. Qed.

Lemma length_lines_at start segs : length (lines_at start segs) = length segs.
Proof. revert start. induction segs as [|seg segs IH]; intros; simpl; [done|]. by rewrite IH. Qed.

Lemma lines_at_lookup start segs i l : lines_at start segs !! i = Some l →
  ∃ seg, segs !! i = Some seg ∧ sl_text l = logical_line seg ∧
    sl_start l = start + byte_len (mjoin (take i segs)) ∧
    sl_content_end l = sl_start l + byte_len (logical_line seg).
Proof.
  revert start i. induction segs as [|seg segs IH]; intros start [|i] H; simplify_eq/=.
  - exists seg. split_and!; [done|done|unfold byte_len; simpl; lia|done].
  - destruct (IH _ _ H) as (s & ? & ? & Hs & ?). exists s. split_and!; try done.
    rewrite byte_len_app. lia.
Qed.

Lemma weight_lines start segs : Forall (λ x, x ≠ []) segs →
  weight (sl_text <$> lines_at start segs) ≤ 3 * byte_len (mjoin segs).
Proof.
  revert start. induction segs as [|seg segs IH]; intros start H; [done|].
  apply Forall_cons in H as [Hne H]. specialize (IH (start + byte_len seg) H). cbn [lines_at fmap list_fmap].
  rewrite weight_cons. change (mjoin (seg :: segs)) with (seg ++ mjoin segs). rewrite byte_len_app. cbn [sl_text].
  destruct (logical_line_app seg) as [r Hr]. pose proof (length_le_byte_len seg).
  apply (f_equal byte_len) in Hr. rewrite byte_len_app in Hr. destruct seg; [done|]. simpl length in *. lia.
Qed.

(** ** Printing an unedited source *)

(** Spans one behind the other, cut out of a text: the text in front of a span,
    and the text up to its end. *)
Inductive spans_of (text : ustring) : ustring → list (BlockId * nat * nat) → Prop :=
  | spans_nil done_ rest : text = done_ ++ rest → spans_of text done_ []
  | spans_cons done_ gap body id spans :
      spans_of text (done_ ++ gap ++ body) spans →
      spans_of text done_
        ((id, byte_len (done_ ++ gap), byte_len (done_ ++ gap ++ body)) :: spans).

Lemma spans_of_prefix text d spans : spans_of text d spans → ∃ r, text = d ++ r.
Proof.
  induction 1 as [d r ->|d gap body id spans _ [r ->]]; [by exists r|].
  exists (gap ++ body ++ r). by rewrite <-!(assoc_L (++)).
Qed.

(** The regions that [DocumentSource::new] records. *)
Fixpoint region_list (prev : nat) (spans : list (BlockId * nat * nat)) :
    list (BlockId * SourceRegion) :=
  match spans with
  | [] => []
  | (id, s, e) :: spans => (id, mkRegion prev s s e) :: region_list e spans
  end.

Lemma push_regions spans prev regions order :
  NoDup spans.*1.*1 →
  let '(_, regions', order') := fold_left push_region spans (prev, regions, order) in
  order' = order ++ spans.*1.*1 ∧
  (∀ id, id ∉ spans.*1.*1 → regions' !! id = regions !! id) ∧
  ∀ id r, (id, r) ∈ region_list prev spans → regions' !! id = Some r.
Proof.
  revert prev regions order. induction spans as [|[[id s] e] spans IH]; intros prev regions order Hnd.
  { simpl. rewrite app_nil_r. split_and!; [done|done|]. intros ? ? H. by apply not_elem_of_nil in H. }
  simpl in Hnd |- *. apply NoDup_cons in Hnd as [Hid Hnd].
  specialize (IH e (<[id := mkRegion prev s s e]> regions) (order ++ [id]) Hnd).
  destruct (fold_left _ _ _) as [[x regions'] order']. destruct IH as (-> & Hout & Hin).
  split_and!; [by rewrite <-(assoc_L (++))| |].
  - intros id' H. apply not_elem_of_cons in H as [Hne H]. rewrite Hout by done. by rewrite lookup_insert_ne.
  - intros id' r [[= -> ->]|H]%elem_of_cons; [|by apply Hin]. rewrite Hout by done. by rewrite lookup_insert_eq.
Qed.

Lemma position_NoDup {A} `{EqDecision A} (l : list A) i x :
  NoDup l → l !! i = Some x → position (λ y, bool_decide (y = x)) l = Some i.
Proof.
  intros Hnd Hi. rewrite <-(take_drop_middle l i x Hi).
  rewrite position_app; [f_equal; apply length_take_le, Nat.lt_le_incl; by eapply lookup_lt_Some| |].
  - intros y Hy. apply bool_decide_false. intros ->. rewrite <-(take_drop_middle l i x Hi) in Hnd.
    apply NoDup_app in Hnd as (_ & H & _). apply (H x Hy). left.
  - by apply bool_decide_true.
Qed.

Section render.
Context (print : Block → ustring) (src : DocumentSource).
Hypothesis Hdirty : src_dirty src = ∅.

Definition found_at (id : BlockId) : option nat :=
  position (λ id', bool_decide (id' = id)) (src_order src).

Lemma render_clean spans blocks d k :
  spans_of (src_original src) d spans → blk_id <$> blocks = spans.*1.*1 →
  (∀ id r, (id, r) ∈ region_list (byte_len d) spans → src_regions src !! id = Some r) →
  (∀ i id, spans.*1.*1 !! i = Some id → found_at id = Some (k + i)) →
  ∃ out rest prev, fold_left (render_step print src) blocks
      (Some (d, bool_decide (0 < k), if decide (k = 0) then None else Some (k - 1))) =
      Some (out, bool_decide (0 < k + length blocks), prev) ∧
    src_original src = out ++ rest ∧
    byte_len out = match last spans with Some (_, _, e) => e | None => byte_len d end.
Proof.
  intros Hs. revert blocks k. induction Hs as [d rest Htext|d gap body id spans Hs IH]; intros blocks k Hids Hreg Hpos.
  { apply fmap_nil_inv in Hids as ->. simpl. rewrite Nat.add_0_r. by eexists _, _, _. }
  destruct blocks as [|b blocks]; [done|]. injection Hids as Hb Hids.
  destruct (spans_of_prefix _ _ _ Hs) as [r Hr]. rewrite <-!(assoc_L (++)) in Hr.
  cbn [fold_left]. unfold render_step at 2. cbn [mbind option_bind].
  rewrite Hb, (Hreg id (mkRegion (byte_len d) (byte_len (d ++ gap)) (byte_len (d ++ gap)) (byte_len (d ++ gap ++ body))))
    by (left; done).
  fold (found_at id). rewrite (Hpos 0 id) by done. rewrite Nat.add_0_r. cbn [leading_start leading_end body_start body_end].
  assert (Hlead : slice (byte_len d) (byte_len (d ++ gap)) (src_original src) = Some gap).
  { rewrite Hr. apply slice_app. }
  assert (Hbody : region_text print src (mkRegion (byte_len d) (byte_len (d ++ gap)) (byte_len (d ++ gap))
      (byte_len (d ++ gap ++ body))) id b = Some body).
  { unfold region_text. rewrite Hdirty, decide_False by set_solver. simpl. rewrite Hr.
    rewrite !(assoc_L (++)), <-(assoc_L (++) (d ++ gap)). apply slice_app. }
  replace (negb (bool_decide (0 < k)) && bool_decide (Some k = Some 0) ||
    match (if decide (k = 0) then None else Some (k - 1)) with Some p => bool_decide (p + 1 = k) | None => false end)
    with true.
  2: { destruct k as [|k]; [done|]. simpl.
       symmetry. apply bool_decide_eq_true. lia. }
  rewrite Hlead. cbn [mbind option_bind]. rewrite Hbody. cbn [mbind option_bind].
  destruct (IH blocks (S k)) as (out & rest & prev & Hfold & Hout & Hlen).
  { done. }
  { intros id' r' H. apply Hreg. by right. }
  { intros i id' H. rewrite Nat.add_succ_comm. by apply (Hpos (S i)). }
  exists out, rest, prev. split_and!; [|done|].
  - replace (S k - 1) with k in Hfold by lia. rewrite decide_False in Hfold by done.
    rewrite <-(assoc_L (++)). rewrite bool_decide_true in Hfold by lia.
    rewrite Hfold. simpl. by rewrite Nat.add_succ_r.
  - rewrite Hlen. destruct spans as [|sp spans]; [done|]. rewrite last_cons_cons.
    destruct (last (sp :: spans)) as [[[? ?] ?]|] eqn:E; [done|by apply last_None in E].
Qed.
End render.

Lemma render_source text spans blocks s :
  NoDup spans.*1.*1 → blk_id <$> blocks = spans.*1.*1 → sequence_iter s = blocks →
  (∃ d, spans_of text d spans ∧
    byte_len d = match head spans with Some (_, start, _) => start | None => byte_len text end) →
  ∀ print, render_with_frontmatter print (source_new text spans blocks) s None = Some text.
Proof.
  intros Hnd Hids Hs (d & Hspans & Hd) print.
  unfold source_new. rewrite <-Hd.
  pose proof (push_regions spans (byte_len d) ∅ [] Hnd) as Hr.
  destruct (fold_left push_region spans _) as [[x regions] order]. destruct Hr as (-> & _ & Hr).
  set (trailer := match last spans with Some (_, _, e) => e | None => byte_len text end).
  set (src := index_roots blocks _).
  assert (Hsrc : src_original src = text ∧ src_preamble_end src = byte_len d ∧ src_trailer_start src = trailer ∧
    src_order src = spans.*1.*1 ∧ src_regions src = regions ∧ src_dirty src = ∅) by done.
  destruct Hsrc as (Ho & Hp & Ht & Hord & Hreg & Hdirty).
  destruct (spans_of_prefix _ _ _ Hspans) as [r Hr'].
  unfold render_with_frontmatter. rewrite Hs, Ho, Hp, Ht. rewrite Hr' at 1. rewrite slice_to_app. cbn [mbind option_bind].
  rewrite <-Ho in Hspans.
  destruct (render_clean print src Hdirty spans blocks d 0 Hspans Hids) as (out & rest & prev & Hfold & Hout & Hlen).
  { intros id rg H. rewrite Hreg. by apply Hr. }
  { intros i id H. unfold found_at. rewrite Hord. by apply position_NoDup. }
  rewrite decide_True in Hfold by done. rewrite bool_decide_false in Hfold by lia. rewrite Hfold.
  cbn [mbind option_bind]. rewrite Ho in Hout.
  assert (Htr : trailer = byte_len out).
  { rewrite Hlen. unfold trailer. destruct (last spans) as [[[? ?] ?]|] eqn:E; [done|].
    apply last_None in E as ->. by rewrite Hd. }
  destruct (bool_decide (0 < 0 + length blocks) || bool_decide (out ≠ [])) eqn:E.
  { rewrite Htr. rewrite Hout at 1. rewrite slice_from_app. simpl. by rewrite <-Hout. }
  apply orb_false_iff in E as [E1 E2]. rewrite bool_decide_eq_false in E1, E2. apply dec_stable in E2 as ->.
  f_equal. destruct blocks; [|simpl in E1; lia]. symmetry in Hids. apply fmap_nil_inv, fmap_nil_inv in Hids as ->.
  simpl in Hd, Hlen. rewrite Hd in Hlen. destruct text as [|c text]; [done|].
  rewrite byte_len_cons in Hlen. pose proof (len_utf8_pos c). simpl in Hlen. change (byte_len []) with 0 in Hlen. lia.
Qed.

(** ** The spans of a parsed text *)

Definition upto (segs : list ustring) (n : nat) : ustring := mjoin (take n segs).

Lemma upto_le segs m n : m ≤ n → ∃ r, upto segs n = upto segs m ++ r.
Proof.
  intros Hmn. unfold upto. exists (mjoin (drop m (take n segs))).
  rewrite <-join_app. f_equal. rewrite <-(take_drop m (take n segs)) at 1. by rewrite take_take, Nat.min_l.
Qed.

Lemma upto_S segs n seg : segs !! n = Some seg → upto segs (S n) = upto segs n ++ seg.
Proof.
  intros H. unfold upto. rewrite (take_S_r _ _ _ H), join_app. simpl. by rewrite app_nil_r.
Qed.

Lemma spans_ok_bound lo hi spans : spans_ok lo hi spans → lo ≤ hi.
Proof.
  revert lo. induction spans as [|[[id a] b] spans IH]; intros lo; simpl; [done|].
  intros (? & ? & Hs). specialize (IH _ Hs). lia.
Qed.

Lemma byte_spans_ok segs si lo hi spans d :
  spans_ok lo hi spans → si + hi ≤ length segs → (∃ r, upto segs (si + lo) = d ++ r) →
  ∃ bs, mapM (byte_span (lines_at 0 segs) si) spans = Some bs ∧ bs.*1.*1 = spans.*1.*1 ∧
    spans_of (mjoin segs) d bs ∧
    (∀ id s e, head bs = Some (id, s, e) → ∃ a, (spans.*1.*2 !! 0 = Some a) ∧ s = byte_len (upto segs (si + a))).
Proof.
  revert lo d. induction spans as [|[[id a] b] spans IH]; intros lo d Hs Hhi [r Hr].
  { exists []. split_and!; [done..| |done]. apply spans_nil with (r ++ mjoin (drop (si + lo) segs)).
    rewrite (assoc_L (++)), <-Hr. unfold upto. by rewrite <-join_app, take_drop. }
  simpl in Hs. destruct Hs as (Hlo & Hab & Hs).
  pose proof (spans_ok_bound _ _ _ Hs) as Hb.
  destruct (lookup_lt_is_Some_2 (lines_at 0 segs) (si + a)) as [l1 H1]; [rewrite length_lines_at; lia|].
  destruct (lookup_lt_is_Some_2 (lines_at 0 segs) (si + b - 1)) as [l2 H2]; [rewrite length_lines_at; lia|].
  destruct (lines_at_lookup _ _ _ _ H1) as (seg1 & Hseg1 & _ & Hs1 & _).
  destruct (lines_at_lookup _ _ _ _ H2) as (seg2 & Hseg2 & _ & Hs2 & He2). simpl in Hs1, Hs2.
  fold (upto segs (si + a)) in Hs1. fold (upto segs (si + b - 1)) in Hs2.
  destruct (upto_le segs (si + lo) (si + a) ltac:(lia)) as [r1 Hr1].
  destruct (upto_le segs (si + a) (si + b - 1) ltac:(lia)) as [r2 Hr2].
  rewrite Hr, <-(assoc_L (++)) in Hr1. set (gap := r ++ r1) in *. set (body := r2 ++ logical_line seg2).
  assert (E2 : sl_content_end l2 = byte_len (d ++ gap ++ body)).
  { rewrite He2, Hs2, Hr2, Hr1. unfold body. rewrite !byte_len_app. lia. }
  destruct (IH b (d ++ gap ++ body)) as (bs & Hbs & Hids & Hspans & _); [done|done| |].
  { destruct (logical_line_app seg2) as [r3 Hr3]. exists r3.
    replace (si + b) with (S (si + b - 1)) by lia. rewrite (upto_S _ _ _ Hseg2), Hr2, Hr1, Hr3 at 1.
    unfold body. by rewrite <-!(assoc_L (++)). }
  exists ((id, byte_len (d ++ gap), byte_len (d ++ gap ++ body)) :: bs). split_and!.
  - apply mapM_Some. constructor; [|by apply mapM_Some]. unfold byte_span. rewrite H1, H2. simpl.
    by rewrite Hs1, E2, Hr1.
  - exact (f_equal (cons id) Hids).
  - by apply spans_cons.
  - intros ? ? ? [= <- <- <-]. exists a. split; [done|]. by rewrite Hr1.
Qed.

(** ** The claims *)

Section parse.
Context (sequence_incremental : bool).
Context (graphemes : string → list string).
Hypothesis graphemes_concat : ∀ text, string_concat (graphemes text) = text.
Hypothesis graphemes_nonempty : ∀ text, Forall (λ g, g ≠ EmptyString) (graphemes text).
Local Abbreviation parse := (parse sequence_incremental graphemes).

Lemma weight_drop n ls : weight (drop n ls) ≤ weight ls.
Proof. rewrite <-(take_drop n ls) at 2. rewrite weight_app. lia. Qed.

Lemma fresh_block_id c c' id : fresh c c' id → block_id_from_op id = counter id.
Proof. intros [Hp _]. unfold block_id_from_op. by rewrite Hp. Qed.

Lemma block_ids_NoDup c c' bs : blocks_ok c c' bs → NoDup (blk_id <$> bs).
Proof.
  intros [Hf Hd]. assert (Hids : blk_id <$> bs = (counter ∘ blk_elem) <$> bs).
  { apply list_fmap_ext. intros i b Hi. destruct Hd as [Hd _]. rewrite Forall_forall in Hf. rewrite Forall_forall in Hd.
    apply list_elem_of_lookup_2 in Hi. destruct (Hf _ Hi) as [_ ->]. eapply fresh_block_id, Hd.
    by apply list_elem_of_fmap_2. }
  rewrite Hids. rewrite list_fmap_compose. destruct Hd as [_ Hs].
  induction Hs as [|id ids Hs IH Hlt]; simpl; constructor; [|done].
  intros (x & Hx & Hin)%list_elem_of_fmap. rewrite Forall_forall in Hlt. specialize (Hlt _ Hin). lia.
Qed.

(** Everything [parse] does after the frontmatter. *)
Lemma parse_spec text fm si :
  (N.of_nat (3 * byte_len text) < u64_max)%N →
  parse_frontmatter (sl_text <$> source_lines text) = Some (fm, si) →
  ∃ blocks spans c, parse text = Some (mkDocument fm (indexed_new (child_sequence blocks))
      (Some (source_new text spans blocks)) None) ∧
    (∃ line_spans, parse_blocks sequence_incremental graphemes
      (block_fuel (drop si (sl_text <$> source_lines text))) (drop si (sl_text <$> source_lines text)) 0 1
      = Some (blocks, line_spans, c)) ∧
    blocks_ok 1 c blocks ∧ blk_id <$> blocks = spans.*1.*1 ∧
    ∃ d, spans_of text d spans ∧
      byte_len d = match head spans with Some (_, start, _) => start | None => byte_len text end.
Proof.
  intros Hsz Hfm. unfold Markdown.parse. rewrite Hfm. cbn [mbind option_bind].
  rewrite source_lines_at in *. destruct (split_inclusive_spec text []) as [Hjoin Hne].
  change (split_inclusive_from text []) with (split_inclusive text) in Hjoin, Hne.
  set (segs := split_inclusive text) in *. set (ls := sl_text <$> lines_at 0 segs) in *.
  pose proof (weight_lines 0 segs Hne) as Hw. fold ls in Hw. rewrite Hjoin in Hw. simpl in Hw.
  pose proof (weight_drop si ls).
  destruct (parse_blocks_total sequence_incremental graphemes graphemes_concat graphemes_nonempty
    (block_fuel (drop si ls)) (drop si ls) 0 1) as (blocks & spans & c & Hblocks & Hok & Hc & Hids & Hspans).
  { unfold block_fuel, line_size. lia. }
  { lia. }
  rewrite Hblocks. cbn [mbind option_bind]. rewrite length_drop in Hspans. unfold ls in Hspans. rewrite length_fmap, length_lines_at in Hspans.
  destruct spans as [|[[id a] b] spans].
  { exists blocks, [], c. split_and!; [done|by eexists|done|by symmetry|]. exists text. split; [|done].
    apply spans_nil with []. by rewrite app_nil_r. }
  destruct Hspans as (_ & Hab & Hs). pose proof (spans_ok_bound _ _ _ Hs) as Hb.
  destruct (byte_spans_ok segs si a (length segs - si) ((id, a, b) :: spans) (upto segs (si + a)))
    as (bs & -> & Hbs & Hof & Hhead); [by split_and!|lia|exists []; by rewrite app_nil_r|].
  exists blocks, bs, c. split_and!; [done|by eexists|done|by rewrite Hbs, Hids|].
  exists (upto segs (si + a)). rewrite Hjoin in Hof. split; [done|].
  destruct bs as [|[[id' s] e] bs]; [done|]. destruct (Hhead id' s e eq_refl) as (a' & [= <-] & ->). done.
Qed.

(** a parsed document shows its blocks. *)
Lemma child_sequence_iter c c' bs : blocks_ok c c' bs → sequence_iter (child_sequence bs) = bs.
Proof.
  intros [_ Hd]. unfold child_sequence.
  assert (Hnd : NoDup ((λ b, (blk_elem b, b)) <$> bs).*1)
    by (rewrite <-list_fmap_compose; by eapply drawn_NoDup).
  destruct (from_ordered_shows _ Hnd) as (_ & _ & ->). rewrite <-list_fmap_compose. simpl. apply list_fmap_id.
Qed.

Lemma fm_parse_clean raw fm : fm_parse raw = Some fm → is_dirty fm = false.
Proof.
  unfold fm_parse. intros H. apply bind_Some in H as ([[f o] s] & _ & [= <-]). by vm_compute.
Qed.

Lemma parse_frontmatter_clean ls fm si :
  parse_frontmatter ls = Some (Some fm, si) → is_dirty fm = false.
Proof.
  unfold parse_frontmatter. destruct ls as [|first rest]; [done|]. case_decide; [|done].
  destruct (frontmatter_lines rest [] 1) as [[fml index]|]; [|done].
  intros (fm' & Hfm & [= -> _])%bind_Some. by eapply fm_parse_clean.
Qed.

Lemma parse_inv text d : parse text = Some d →
  ∃ fm si, parse_frontmatter (sl_text <$> source_lines text) = Some (fm, si).
Proof. unfold Markdown.parse. intros ([fm si] & H & _)%bind_Some. by exists fm, si. Qed.

Lemma join_sub (c : N) ls : c ∈ join_lines ls → c = newline ∨ ∃ l, l ∈ ls ∧ c ∈ l.
Proof.
  unfold join_lines. induction ls as [|l [|l' ls] IH]; simpl.
  - by intros ?%elem_of_nil.
  - intros H. right. exists l. split; [left|done].
  - intros [H|[H|H]%elem_of_cons]%elem_of_app.
    + right. exists l. split; [left|done].
    + by left.
    + destruct (IH H) as [?|(k & Hk & ?)]; [by left|]. right. exists k. split; [by right|done].
Qed.

Lemma frontmatter_lines_sub ls acc i fml j l :
  frontmatter_lines ls acc i = Some (fml, j) → l ∈ fml → l ∈ acc ∨ l ∈ ls.
Proof.
  revert acc i. induction ls as [|x ls IH]; intros acc i; simpl; [done|]. case_decide.
  - intros [= <- _] ?. by left.
  - intros Hrec Hl. destruct (IH _ _ Hrec Hl) as [[?|?%list_elem_of_singleton]%elem_of_app|?]; set_solver.
Qed.

Lemma source_line_sub text l c : l ∈ sl_text <$> source_lines text → c ∈ l → c ∈ text.
Proof.
  rewrite source_lines_at. intros (sl & -> & [i Hi]%list_elem_of_lookup)%list_elem_of_fmap Hc.
  destruct (lines_at_lookup _ _ _ _ Hi) as (seg & Hseg & Htext & _). rewrite Htext in Hc.
  destruct (logical_line_app seg) as [r Hr]. destruct (split_inclusive_spec text []) as [Hj _].
  change (split_inclusive_from text []) with (split_inclusive text) in Hj.
  simpl in Hj. rewrite <-Hj. apply list_elem_of_join. exists seg. split; [rewrite Hr; set_solver|].
  by eapply list_elem_of_lookup_2.
Qed.

(** C26: Parsing returns.  The loops of the parser, quotes and nested lists
    included, finish on every text of up to a third of 2^64 bytes: the parser
    returns a document exactly when the frontmatter of the text parses, which is
    the case when the white space of the text is all ASCII. *)
Theorem parse_terminates text :
  (N.of_nat (3 * byte_len text) < u64_max)%N →
  (is_Some (parse text) ↔ is_Some (parse_frontmatter (sl_text <$> source_lines text))) ∧
  (ascii_whitespace text → is_Some (parse text)).
Proof.
  intros Hsz.
  assert (H : is_Some (parse text) ↔ is_Some (parse_frontmatter (sl_text <$> source_lines text))).
  { split.
    - intros [d Hd]. destruct (parse_inv _ _ Hd) as (fm & si & ->). eauto.
    - intros [[fm si] Hfm]. destruct (parse_spec text fm si Hsz Hfm) as (? & ? & ? & -> & _). eauto. }
  split; [done|]. intros Hw. apply H. unfold parse_frontmatter.
  destruct (sl_text <$> source_lines text) as [|first rest] eqn:E; [eauto|]. case_decide; [|eauto].
  destruct (frontmatter_lines rest [] 1) as [[fml index]|] eqn:Ef; [|eauto].
  destruct (proj1 frontmatter_parse_panics (join_lines fml)) as [fm ->]; [|simpl; eauto].
  unfold ascii_whitespace. apply Forall_forall. intros c [->|(l & Hl & Hc)]%join_sub; [done|].
  destruct (frontmatter_lines_sub _ _ _ _ _ _ Ef Hl) as [?%elem_of_nil|Hr]; [done|].
  unfold ascii_whitespace in Hw. rewrite Forall_forall in Hw. apply Hw, (source_line_sub text l); [|done].
  rewrite E. by right.
Qed.

(** What the parser builds is typed. *)
Lemma parse_typed text d :
  (N.of_nat (3 * byte_len text) < u64_max)%N → parse text = Some d → document_wf d.
Proof.
  intros Hsz Hd. destruct (parse_inv _ _ Hd) as (fm & si & Hfm).
  destruct (parse_spec text fm si Hsz Hfm) as (blocks & spans & c & Hp & _ & Hok & _ & _).
  rewrite Hp in Hd. injection Hd as <-. by eapply child_sequence_of.
Qed.

(** C19: Parsing loses nothing.  The document parsed from a text is typed, and
    printing it before any edit gives the text back exactly. *)
Theorem parse_lossless text d :
  (N.of_nat (3 * byte_len text) < u64_max)%N → parse text = Some d →
  document_wf d ∧ serialize Exact d = Some text.
Proof.
  intros Hsz Hd. split; [by eapply parse_typed|]. destruct (parse_inv _ _ Hd) as (fm & si & Hfm).
  destruct (parse_spec text fm si Hsz Hfm) as (blocks & spans & c & Hp & _ & Hok & Hids & Hspans).
  rewrite Hp in Hd. injection Hd as <-.
  unfold serialize, serialize_with_config. cbn [equivalence prefer_raw_source doc_source doc_frontmatter].
  assert (Hr : render_with_frontmatter serialize_block (source_new text spans blocks) (child_sequence blocks) None
    = Some text).
  { apply render_source; [rewrite <-Hids; by eapply block_ids_NoDup|done|by eapply child_sequence_iter|done]. }
  destruct fm as [fm|]; [|done]. by rewrite (parse_frontmatter_clean _ _ _ Hfm).
Qed.
End parse.

Lemma characters_nonempty text : Forall (λ g, g ≠ EmptyString) (characters text).
Proof. induction text as [|c text IH]; by constructor. Qed.

(** A short text with a list inside a quote. *)
Definition small_text : ustring := chars (String.concat (String (Ascii.ascii_of_nat 10) EmptyString)
  ["# A *b*"; ""; "> - [x] one"; "> - two"; ""; "| h |"; "|:-:|"]%string).

Lemma parse_terminates_witness :
  is_Some (parse true characters small_text).
Proof.
  refine (proj2 (parse_terminates true characters characters_concat characters_nonempty small_text _) _).
  - by vm_compute.
  - apply (bool_decide_unpack _). by vm_compute.
Defined.

Lemma parse_lossless_witness :
  ∃ d, parse true characters small_text = Some d ∧ document_wf d ∧ serialize Exact d = Some small_text.
Proof.
  destruct (parse true characters small_text) as [d|] eqn:E; [|by vm_compute in E].
  exists d. split; [done|]. eapply (parse_lossless true characters characters_concat characters_nonempty); [|exact E].
  by vm_compute.
Defined.
