(* ===== verification/TableTrip.v ===== *)
(** * A table built from its parts

    The table that the parser builds by inserting columns and rows one after the
    other shows the columns, the header and the rows it was given. *)

From S2P Require Import Prelude Core Sequence SequenceOrder SequenceInv SequenceRefine SequenceProps.
From S2P Require Import SequenceView.
From S2P Require Import Table Frontmatter Codec Text Draft Block Document.
From S2P Require Import Chars Inline Markdown ParseInv.

(** ** Sequences that only grew at their end *)

Section chain.
Context {T : Type} (inc : bool).
Implicit Types (s : Sequence T) (items : list (OpId * T)).

Record chained s items : Prop := {
  ch_inv : sequence_inv s;
  ch_quiet : pending_inserts s = ∅ ∧ pending_deletes s = ∅;
  ch_items : (λ e, (elem_id e, elem_value e)) <$> seq_elements s = (λ x, (x.1, Some x.2)) <$> items;
  ch_leaf a e : last items.*1 = Some a → e ∈ seq_elements s → elem_after e ≠ Some a;
}.

Lemma chained_new : chained sequence_new [].
Proof. split; [apply sequence_new_inv|done..]. Qed.

Lemma chained_ids s items : chained s items → element_ids s = items.*1.
Proof.
  intros H. pose proof (f_equal (fmap fst) (ch_items _ _ H)) as E. rewrite <-!list_fmap_compose in E. exact E.
Qed.
Lemma chained_iter s items : chained s items → sequence_iter s = items.*2.
Proof.
  intros H. unfold sequence_iter. apply omap_Some_values.
  pose proof (f_equal (fmap snd) (ch_items _ _ H)) as E. rewrite <-!list_fmap_compose in E.
  rewrite <-list_fmap_compose. exact E.
Qed.

Lemma chained_snoc s items id v :
  chained s items → id ∉ items.*1 →
  chained (sequence_insert inc (last items.*1) v id s) (items ++ [(id, v)]).
Proof.
  intros H Hid. pose proof (chained_ids _ _ H) as Hids. destruct H as [Hinv [Hpi Hpd] Hitems Hleaf].
  unfold sequence_insert. set (ro := compute_right_origin _ s). set (after := last items.*1) in *.
  assert (Hna : not_awaited id s) by (split; [rewrite Hpi|rewrite Hpd]; apply lookup_empty).
  assert (Hfresh : emap s !! id = None) by (apply eq_None_not_Some; by rewrite <-canonical_dom, Hids).
  assert (Ha : anchored (emap s) after = true).
  { unfold anchored. destruct after as [a|] eqn:E; [|done]. apply bool_decide_eq_true, canonical_dom.
    rewrite Hids. by apply last_Some_elem_of. }
  destruct (view_insert inc after id v ro s Hinv Hna Hfresh Ha) as (Hinv' & [Hpi' Hpd'] & _).
  set (e := mkElement id (Some v) after ro).
  assert (Hels : seq_elements (apply inc (Insert after id v ro) s) = seq_elements s ++ [e]).
  { destruct after as [a|] eqn:E.
    - assert (Hl : last (element_ids s) = Some a) by (by rewrite Hids).
      unfold element_ids in Hl. rewrite fmap_last, fmap_Some in Hl. destruct Hl as (ea & Hea & ->).
      apply last_Some in Hea as [eu Heu]. rewrite Heu, <-(assoc_L (++)). simpl.
      apply view_insert_after; [done..|]. intros e' He'. by apply Hleaf.
    - apply last_None in E. rewrite E in Hids. apply fmap_nil_inv in Hids.
      pose proof (view_insert_first inc None id v ro s Hinv Hna Hfresh Ha) as Hf. simpl in Hf.
      rewrite Hids in Hf |- *. apply Hf. intros e' He'. by apply not_elem_of_nil in He'. }
  split; [done|by rewrite Hpi', Hpd'| |].
  - rewrite Hels, !fmap_app, Hitems. done.
  - intros a e'. rewrite fmap_app, last_app. intros [= <-]. rewrite Hels.
    intros [He'|He'%list_elem_of_singleton]%elem_of_app Hae; [|subst e'].
    + destruct (anchor_present s e' id Hinv He' Hae) as [? Hx]. congruence.
    + simpl in Hae. apply Hid. by apply last_Some_elem_of.
Qed.
End chain.

(** ** Tables *)

Section table.
Context (inc : bool).

Definition col_of (x : OpId * ColumnAlignment) : TableColumn :=
  mkColumn (block_id_from_op x.1) x.1 (Lww.new false x.1) (Lww.new x.2 x.1)
    StateVectorOps.new StateVectorOps.new.
Definition row_of (o : OpId) : TableRow :=
  mkRow (block_id_from_op o) o (Lww.new false o) StateVectorOps.new.

(** A table with these columns and rows, and nothing that waits. *)
Record table_is (t : Table) (id : Uuid) (cs : list (OpId * ColumnAlignment)) (rs : list OpId) : Prop := {
  ti_id : table_id t = id;
  ti_row_moves : pending_row_moves t = [];
  ti_column_moves : pending_column_moves t = [];
  ti_alignments : pending_column_alignments t = [];
  ti_columns : chained (columns t) ((λ x, (x.1, col_of x)) <$> cs);
  ti_rows : chained (rows t) ((λ o, (o, row_of o)) <$> rs);
}.

Definition cell_at (t : Table) (row : RowId) (column : ColumnId) : option CellContent :=
  cell_content <$> cells t !! mkAddress row column.

Lemma pair_fst {A B C} (f : A * B → C) (l : list (A * B)) : ((λ x, (x.1, f x)) <$> l).*1 = l.*1.
Proof. by rewrite <-list_fmap_compose. Qed.

Lemma last_fst {A B} (l : list (A * B)) : last l.*1 = fst <$> last l.
Proof. apply fmap_last. Qed.

Lemma resolve_column_quiet c t :
  pending_column_moves t = [] → pending_column_alignments t = [] →
  resolve_pending_column_ops inc c t = set_alignments [] (set_column_moves [] t).
Proof. intros Hm Ha. unfold resolve_pending_column_ops. rewrite Hm. simpl. by rewrite Ha. Qed.

Lemma insert_column_is t id cs rs o al h :
  table_is t id cs rs → o ∉ cs.*1 → cell_at t id (block_id_from_op o) = None →
  let t' := insert_column inc (last cs.*1) al h o t in
  table_is t' id (cs ++ [(o, al)]) rs ∧
  ∀ r c, cell_at t' r c = if decide (r = id ∧ c = block_id_from_op o) then Some h else cell_at t r c.
Proof.
  intros [Hid Hrm Hcm Hal Hcols Hrows] Ho Hnone. unfold cell_at in Hnone. apply fmap_None in Hnone.
  unfold insert_column. rewrite resolve_column_quiet by done.
  unfold set_cell, set_cell_observed, header_row_id. simpl. rewrite Hid. split.
  - split; simpl; [done..| |done]. rewrite fmap_app. simpl.
    rewrite <-(pair_fst col_of cs) in Ho |- * at 1. by apply chained_snoc.
  - intros r c. unfold cell_at. simpl. rewrite Hnone. case_decide as E.
    + destruct E as [-> ->]. by rewrite lookup_insert_eq.
    + rewrite lookup_insert_ne; [done|]. intros [= <- <-]. by apply E.
Qed.

(** The cells of a new row. *)
Lemma set_cells_is (l : list (ColumnId * CellContent)) row o t :
  NoDup l.*1 → (∀ c, c ∈ l.*1 → cell_at t row c = None) →
  let t' := fold_left (λ t cv, set_cell row cv.1 cv.2 o t) l t in
  (table_id t' = table_id t ∧ columns t' = columns t ∧ rows t' = rows t ∧
   pending_row_moves t' = pending_row_moves t ∧ pending_column_moves t' = pending_column_moves t ∧
   pending_column_alignments t' = pending_column_alignments t) ∧
  (∀ c v, (c, v) ∈ l → cell_at t' row c = Some v) ∧
  (∀ r c, r ≠ row ∨ c ∉ l.*1 → cell_at t' r c = cell_at t r c).
Proof.
  revert t. induction l as [|[c v] l IH]; intros t Hnd Hnone; simpl.
  { split_and!; try done. intros ? ? ?%not_elem_of_nil; done. }
  simpl in Hnd. apply NoDup_cons in Hnd as [Hc Hnd].
  set (t1 := set_cell row c v o t).
  assert (H1 : ∀ r c', cell_at t1 r c' = if decide (r = row ∧ c' = c) then Some v else cell_at t r c').
  { intros r c'. pose proof (Hnone c ltac:(left)) as Hn. unfold cell_at in Hn. apply fmap_None in Hn.
    unfold t1, cell_at, set_cell, set_cell_observed. simpl. rewrite Hn. case_decide as E.
    - destruct E as [-> ->]. by rewrite lookup_insert_eq.
    - rewrite lookup_insert_ne; [done|]. intros [= <- <-]. by apply E. }
  destruct (IH t1 Hnd) as (Hf & Hin & Hout).
  { intros c' Hc'. rewrite H1, decide_False by (intros [_ ->]; done). apply Hnone. by right. }
  split_and!; try apply Hf.
  - intros c' v' [[= -> ->]|Hl]%elem_of_cons; [|by apply Hin].
    rewrite Hout by (by right). by rewrite H1, decide_True.
  - intros r c' Hr. rewrite Hout by (destruct Hr as [?|?%not_elem_of_cons]; naive_solver).
    rewrite H1, decide_False; [done|]. intros [-> ->]. destruct Hr as [?|Hr]; [done|]. by apply Hr; left.
Qed.

Lemma insert_row_is t id cs rs o values :
  table_is t id cs rs → o ∉ rs → NoDup values.*1 →
  (∀ c, cell_at t (block_id_from_op o) c = None) →
  let t' := insert_row inc (last rs) values o t in
  table_is t' id cs (rs ++ [o]) ∧
  (∀ c v, (c, v) ∈ values → cell_at t' (block_id_from_op o) c = Some v) ∧
  (∀ r c, r ≠ block_id_from_op o → cell_at t' r c = cell_at t r c).
Proof.
  intros [Hid Hrm Hcm Hal Hcols Hrows] Ho Hnd Hnone.
  unfold insert_row. fold (row_of o). set (t1 := set_rows _ t).
  destruct (set_cells_is values (block_id_from_op o) o t1 Hnd) as ((F1 & F2 & F3 & F4 & F5 & F6) & Hin & Hout).
  { intros c _. apply Hnone. }
  set (t2 := fold_left _ values t1) in *. unfold resolve_pending_row_moves.
  rewrite F4. change (pending_row_moves t1) with (pending_row_moves t). rewrite Hrm.
  change (merge_sort move_le []) with (@nil PendingTableMove). cbn [fold_left]. split_and!.
  - split; simpl; [by rewrite F1|done|by rewrite F5|by rewrite F6|by rewrite F2|].
    rewrite F3. unfold t1. simpl. rewrite fmap_app. simpl.
    assert (E : ((λ o, (o, row_of o)) <$> rs).*1 = rs) by (rewrite <-list_fmap_compose; apply list_fmap_id).
    rewrite <-E at 1. apply chained_snoc; [done|by rewrite E].
  - intros c v Hv. by apply (Hin c v).
  - intros r c Hr. exact (Hout r c (or_introl Hr)).
Qed.

(** ** What the built table shows *)

(** Alignments, header cells, and the cells of every row that is not deleted. *)
Definition table_view (t : Table) : list ColumnAlignment * list string * list (list string) :=
  ((λ c, Lww.get (column_alignment c)) <$> columns_in_order t,
   row_cells t (header_row_id t),
   (λ r, row_cells t (row_id r)) <$> filter (λ r, Lww.get (row_deleted r) = false) (rows_in_order t)).

Lemma placed_shown `{Placed V} (s : Sequence V) v :
  v ∈ sequence_iter s → is_Some (placed_by_id s (pl_id v)).
Proof.
  intros Hv. unfold placed_by_id. destruct (list_find _ _) as [x|] eqn:E; [simpl; eauto|].
  apply list_find_None in E. rewrite Forall_forall in E. by destruct (E v Hv).
Qed.

Lemma row_cells_is t id cs rs row values :
  table_is t id cs rs → (row = id ∨ ∃ o, o ∈ rs ∧ row = block_id_from_op o) →
  Forall2 (λ x v, cell_at t row (block_id_from_op x.1) = Some v) cs values →
  row_cells t row = values.
Proof.
  intros Ht Hrow Hv. pose proof (chained_iter _ _ (ti_columns _ _ _ _ Ht)) as Hcols.
  unfold row_cells, columns_in_order. rewrite Hcols, <-!list_fmap_compose.
  assert (Hlive : row_is_live t row = true).
  { unfold row_is_live, header_row_id. rewrite (ti_id _ _ _ _ Ht). destruct Hrow as [->|(o & Ho & ->)].
    - by rewrite bool_decide_true.
    - apply orb_true_iff. right. apply bool_decide_eq_true. unfold row_by_id.
      change (block_id_from_op o) with (pl_id (row_of o)). apply placed_shown. rewrite (chained_iter _ _ (ti_rows _ _ _ _ Ht)).
      rewrite <-list_fmap_compose. apply list_elem_of_fmap. by exists o. }
  assert (Hcol : ∀ x, x ∈ cs → is_Some (column_by_id t (block_id_from_op x.1))).
  { intros x Hx. unfold column_by_id. change (block_id_from_op x.1) with (pl_id (col_of x)).
    apply placed_shown. rewrite Hcols, <-list_fmap_compose.
    apply list_elem_of_fmap. by exists x. }
  clear Hcols Ht. induction Hv as [|x v cs values Hx Hv IH]; [done|]. simpl. f_equal.
  - unfold cell_value. rewrite Hlive. destruct (Hcol x) as [y ->]; [left|]. simpl. unfold cell_at in Hx. by rewrite Hx.
  - apply IH. intros y Hy. apply Hcol. by right.
Qed.

(** ** The loops of the parser *)

Lemma block_id_0 c : block_id_from_op (mkOpId c 0) = c.
Proof. done. Qed.

Definition id_below (c : N) (o : OpId) : Prop := peer o = 0%N ∧ (counter o < c)%N.
Lemma id_below_bid c o : id_below c o → block_id_from_op o = counter o.
Proof. intros [Hp _]. unfold block_id_from_op. by rewrite Hp. Qed.
Lemma id_below_notin c o (l : list OpId) : Forall (id_below c) l → counter o = c → o ∉ l.
Proof. rewrite Forall_forall. intros H <- Hin. destruct (H _ Hin) as [_ ?]. lia. Qed.
Lemma id_below_S c (l : list OpId) : Forall (id_below c) l → Forall (id_below (c + 1)) l.
Proof. intros H. eapply Forall_impl; [exact H|]. intros o [? ?]. split; [done|lia]. Qed.

(** The table after some columns: their ids are below the counter, their header
    cells are there, and there are no other cells. *)
Record cols_ok (c : N) (t : Table) (id : Uuid) (cs : list (OpId * ColumnAlignment))
    (header : list string) : Prop := {
  co_is : table_is t id cs [];
  co_ids : Forall (id_below c) cs.*1;
  co_distinct : NoDup (block_id_from_op <$> cs.*1);
  co_cells : Forall2 (λ x v, cell_at t id (block_id_from_op x.1) = Some v) cs header;
  co_none r k : (r ≠ id ∨ (c ≤ k)%N) → cell_at t r k = None;
}.

Lemma add_column_ok c t id cs header x h :
  cols_ok c t id cs header → (c < u64_max)%N →
  ∃ t', add_column inc (t, last cs.*1, c) (x, h) = (t', last (cs ++ [(mkOpId c 0, cd_alignment x)]).*1, (c + 1)%N) ∧
    cols_ok (c + 1) t' id (cs ++ [(mkOpId c 0, cd_alignment x)]) (header ++ [utf8 h]).
Proof.
  intros [His Hids Hd Hcells Hnone] Hc. unfold add_column. rewrite next_op_id_spec by done. simpl.
  set (o := mkOpId c 0). pose proof (id_below_notin c o _ Hids eq_refl) as Ho.
  destruct (insert_column_is t id cs [] o (cd_alignment x) (utf8 h) His Ho) as [His' Hat].
  { apply Hnone. right. unfold o. rewrite block_id_0. lia. }
  eexists. split; [by rewrite fmap_app, last_app|]. split; [done| | | |].
  - rewrite fmap_app. apply Forall_app. split; [by apply id_below_S|]. repeat constructor. simpl. lia.
  - rewrite !fmap_app. apply NoDup_app. split_and!; [done| |repeat constructor; by intros ?%not_elem_of_nil].
    intros k (o' & -> & Ho')%list_elem_of_fmap Hk. simpl in Hk. apply list_elem_of_singleton in Hk.
    rewrite Forall_forall in Hids. destruct (Hids _ Ho') as [Hp Hlt].
    rewrite (id_below_bid c o') in Hk by done. unfold o in Hk. rewrite block_id_0 in Hk. lia.
  - apply Forall2_app; [|repeat constructor; by rewrite Hat, decide_True].
    eapply Forall2_impl; [exact Hcells|]. simpl. intros y v Hy. rewrite Hat, decide_False; [done|].
    intros [_ E]. rewrite Hnone in Hy; [done|]. right. rewrite E. unfold o. by rewrite block_id_0.
  - intros r k Hr. rewrite Hat, decide_False; [apply Hnone; destruct Hr; [by left|right; lia]|].
    unfold o. rewrite block_id_0. intros [-> ->]. destruct Hr; [done|lia].
Qed.

Lemma add_columns_ok l c t id cs header :
  cols_ok c t id cs header → (c + N.of_nat (length l) ≤ u64_max)%N →
  ∃ t' cs' o, fold_left (add_column inc) l (t, last cs.*1, c) = (t', o, (c + N.of_nat (length l))%N) ∧
    cols_ok (c + N.of_nat (length l)) t' id (cs ++ cs') (header ++ (utf8 <$> l.*2)) ∧
    cs'.*2 = cd_alignment <$> l.*1.
Proof.
  revert c t cs header. induction l as [|[x h] l IH]; intros c t cs header Hok Hc; simpl length in *.
  { exists t, [], (last cs.*1). simpl. rewrite !app_nil_r, N.add_0_r. done. }
  destruct (add_column_ok c t id cs header x h Hok ltac:(lia)) as (t1 & E & Hok1).
  cbn [fold_left]. rewrite E. destruct (IH _ _ _ _ Hok1 ltac:(lia)) as (t2 & cs2 & o2 & -> & Hok2 & Hal).
  replace (c + 1 + N.of_nat (length l))%N with (c + N.of_nat (S (length l)))%N in * by lia.
  eexists _, _, _. split; [done|]. rewrite <-!(assoc_L (++)) in Hok2. split; [exact Hok2|].
  exact (f_equal (cons _) Hal).
Qed.

(** The table after some rows. *)
Record rows_ok (c : N) (t : Table) (id : Uuid) (cs : list (OpId * ColumnAlignment))
    (header : list string) (rs : list OpId) (rows : list (list string)) : Prop := {
  ro_is : table_is t id cs rs;
  ro_ids : Forall (id_below c) rs;
  ro_below : (id < c)%N;
  ro_distinct : NoDup (block_id_from_op <$> cs.*1);
  ro_header : Forall2 (λ x v, cell_at t id (block_id_from_op x.1) = Some v) cs header;
  ro_cells : Forall2 (λ o values,
    Forall2 (λ x v, cell_at t (block_id_from_op o) (block_id_from_op x.1) = Some v) cs values) rs rows;
  ro_none r k : (c ≤ r)%N → cell_at t r k = None;
}.

Lemma Forall2_impl_l {A B} (P : A → Prop) (R Q : A → B → Prop) l k :
  Forall P l → Forall2 R l k → (∀ x y, P x → R x y → Q x y) → Forall2 Q l k.
Proof. intros HP HR H. induction HR; constructor; decompose_Forall_hyps; auto. Qed.

Lemma add_row_ok c t id cs header rs rows cells :
  rows_ok c t id cs header rs rows → (c < u64_max)%N → length cells = length cs →
  ∃ t', add_row inc (block_id_from_op <$> cs.*1) (t, last rs, c) cells =
      (t', last (rs ++ [mkOpId c 0]), (c + 1)%N) ∧
    rows_ok (c + 1) t' id cs header (rs ++ [mkOpId c 0]) (rows ++ [utf8 <$> cells]).
Proof.
  intros [His Hids Hbelow Hd Hheader Hcells Hnone] Hc Hlen. unfold add_row. rewrite next_op_id_spec by done. simpl.
  set (o := mkOpId c 0). pose proof (id_below_notin c o _ Hids eq_refl) as Ho.
  assert (Hz : (zip (block_id_from_op <$> cs.*1) (utf8 <$> cells)).*1 = block_id_from_op <$> cs.*1).
  { apply fst_zip. rewrite !length_fmap. lia. }
  destruct (insert_row_is t id cs rs o (zip (block_id_from_op <$> cs.*1) (utf8 <$> cells)) His Ho)
    as (His' & Hin & Hout).
  { by rewrite Hz. }
  { intros k. apply Hnone. unfold o. rewrite block_id_0. lia. }
  assert (Hkeep : ∀ r k, (r < c)%N → cell_at (insert_row inc (last rs)
    (zip (block_id_from_op <$> cs.*1) (utf8 <$> cells)) o t) r k = cell_at t r k).
  { intros r k Hr. apply Hout. unfold o. rewrite block_id_0. lia. }
  eexists. split; [by rewrite last_app|]. split; [done| |lia|done| | |].
  - apply Forall_app. split; [by apply id_below_S|]. repeat constructor. simpl. lia.
  - eapply Forall2_impl; [exact Hheader|]. simpl. intros x v Hx. by rewrite Hkeep.
  - apply Forall2_app.
    + eapply Forall2_impl_l; [exact Hids|exact Hcells|]. simpl. intros o' values Ho' Hv.
      eapply Forall2_impl; [exact Hv|]. simpl. intros x v Hx.
      rewrite Hkeep; [done|]. rewrite (id_below_bid c) by done. apply Ho'.
    + constructor; [|constructor]. apply Forall2_same_length_lookup_2; [by rewrite length_fmap|].
      intros i x v Hx Hv. apply Hin. apply list_elem_of_lookup. exists i.
      apply lookup_zip_with_Some. exists (block_id_from_op x.1), v. split_and!; [done| |done].
      rewrite !list_lookup_fmap. by rewrite Hx.
  - intros r k Hr. rewrite Hout by (unfold o; rewrite block_id_0; lia). apply Hnone. lia.
Qed.

Lemma add_rows_ok l c t id cs header rs rows :
  rows_ok c t id cs header rs rows → (c + N.of_nat (length l) ≤ u64_max)%N →
  Forall (λ cells, length cells = length cs) l →
  ∃ t' rs' o, fold_left (add_row inc (block_id_from_op <$> cs.*1)) l (t, last rs, c) =
      (t', o, (c + N.of_nat (length l))%N) ∧
    rows_ok (c + N.of_nat (length l)) t' id cs header rs' (rows ++ ((λ cells : list ustring, utf8 <$> cells) <$> l)).
Proof.
  revert c t rs rows. induction l as [|cells l IH]; intros c t rs rows Hok Hc Hl; simpl length in *.
  { exists t, rs, (last rs). simpl. rewrite app_nil_r, N.add_0_r. done. }
  apply Forall_cons in Hl as [Hcells Hl].
  destruct (add_row_ok c t id cs header rs rows cells Hok ltac:(lia) Hcells) as (t1 & E & Hok1).
  cbn [fold_left]. rewrite E. destruct (IH _ _ _ _ Hok1 ltac:(lia) Hl) as (t2 & rs2 & o2 & -> & Hok2).
  replace (c + 1 + N.of_nat (length l))%N with (c + N.of_nat (S (length l)))%N in * by lia.
  eexists _, _, _. split; [done|]. rewrite <-!(assoc_L (++)) in Hok2. exact Hok2.
Qed.

Lemma rows_ok_view c t id cs header rs rows :
  rows_ok c t id cs header rs rows → table_view t = (cs.*2, header, rows).
Proof.
  intros [His _ _ _ Hh Hc _]. unfold table_view. f_equal; [f_equal|].
  - unfold columns_in_order. rewrite (chained_iter _ _ (ti_columns _ _ _ _ His)).
    by rewrite <-!list_fmap_compose.
  - unfold header_row_id. rewrite (ti_id _ _ _ _ His). eapply row_cells_is; [done|by left|done].
  - unfold rows_in_order. rewrite (chained_iter _ _ (ti_rows _ _ _ _ His)), <-list_fmap_compose.
    assert (Hr : ∀ o values, o ∈ rs → Forall2 (λ x v, cell_at t (block_id_from_op o)
      (block_id_from_op x.1) = Some v) cs values → row_cells t (block_id_from_op o) = values).
    { intros o values Ho Hv. eapply row_cells_is; [done|right; by exists o|done]. }
    clear His. induction Hc as [|o values rs rows Hv Hc IH]; [done|].
    rewrite fmap_cons, filter_cons_True by done. simpl. f_equal.
    + apply Hr; [left|done].
    + apply IH. intros o' v' Ho'. apply Hr. by right.
Qed.

(** No row is marked as deleted. *)
Definition rows_live (t : Table) : Prop := Forall (λ r, Lww.get (row_deleted r) = false) (rows_in_order t).

Lemma rows_ok_live c t id cs header rs rows : rows_ok c t id cs header rs rows → rows_live t.
Proof.
  intros [His _ _ _ _ _ _]. unfold rows_live, rows_in_order. rewrite (chained_iter _ _ (ti_rows _ _ _ _ His)).
  rewrite <-list_fmap_compose. apply Forall_fmap, Forall_forall. done.
Qed.

(** The parser's table shows its parts. *)
Lemma table_block_view cols header rows c :
  length header = length cols → Forall (λ cells, length cells = length cols) rows →
  (c + N.of_nat (1 + length header + length rows) ≤ u64_max)%N →
  ∃ t, blk_kind (table_block inc cols header rows c).1 = TableBlock t ∧
    table_view t = (cd_alignment <$> cols, utf8 <$> header, (λ cells : list ustring, utf8 <$> cells) <$> rows) ∧
    rows_live t.
Proof.
  intros Hlen Hrows Hc. unfold table_block. rewrite next_op_id_spec by lia. rewrite block_id_0.
  set (t0 := table_new c (mkOpId c 0) (mkOpId c 0)).
  assert (H0 : cols_ok (c + 1) t0 c [] []).
  { split; [split; try done; apply chained_new|done|constructor|constructor|].
    intros r k _. unfold cell_at. simpl. by rewrite lookup_empty. }
  assert (Hzl : length (zip cols header) = length cols) by (rewrite length_zip_with; lia).
  destruct (add_columns_ok (zip cols header) (c + 1) t0 c [] [] H0 ltac:(lia)) as (t1 & cs & o1 & E1 & Hok & Hal).
  change (last (@nil (OpId * ColumnAlignment)).*1) with (@None OpId) in E1. rewrite E1.
  rewrite (fst_zip cols header) in Hal by lia. rewrite (snd_zip cols header), Hzl in Hok by lia. rewrite Hzl.
  simpl app in Hok. set (c1 := (c + 1 + N.of_nat (length cols))%N) in *.
  destruct Hok as [His Hids Hd Hcells Hnone].
  assert (Ecol : column_id <$> columns_in_order t1 = block_id_from_op <$> cs.*1).
  { unfold columns_in_order. rewrite (chained_iter _ _ (ti_columns _ _ _ _ His)). by rewrite <-!list_fmap_compose. }
  rewrite Ecol. assert (Hcs : length cs = length cols).
  { apply (f_equal length) in Hal. by rewrite !length_fmap in Hal. }
  destruct (add_rows_ok rows c1 t1 c cs (utf8 <$> header) [] []) as (t2 & rs & o2 & E2 & Hok2).
  { split; [done|constructor|subst c1; lia|done|done|constructor|]. intros r k Hr. apply Hnone. left. subst c1. lia. }
  { subst c1. lia. }
  { eapply Forall_impl; [exact Hrows|]. simpl. congruence. }
  simpl last in E2. rewrite E2. exists t2. split; [done|]. rewrite <-Hal. split; [by eapply rows_ok_view|by eapply rows_ok_live].
Qed.
End table.
