(* ===== verification/RoundTrip.v ===== *)
(** * Printing a block and parsing it back

    Tables and code fences that are printed by the serializer are recognised by
    the parser, with the same cells, alignments, style and text. *)

From S2P Require Import Prelude Core Sequence SequenceInv SequenceView Mark Table Frontmatter Codec Text.
From S2P Require Import SequenceProps SessionWire TreeInv.
From S2P Require Import Draft Block Document.
From S2P Require Import Chars Inline Markdown Serialize ParseInv ParseProps.

(** ** Trimming *)

Lemma trim_start_head c s : is_whitespace c = false → trim_start (c :: s) = c :: s.
Proof. intros H. simpl. by rewrite H. Qed.

(** A string is trimmed when neither of its ends is white space. *)
Lemma trim_id s :
  (∀ c, head s = Some c → is_whitespace c = false) →
  (∀ c, last s = Some c → is_whitespace c = false) → trim s = s.
Proof.
  intros Hh Hl. unfold trim, trim_end.
  assert (E1 : trim_start s = s) by (destruct s as [|c s]; [done|apply trim_start_head, Hh; done]).
  rewrite E1. destruct (reverse s) as [|c r] eqn:E.
  - apply (f_equal reverse) in E. by rewrite reverse_involutive in E.
  - rewrite trim_start_head; [by rewrite <-E, reverse_involutive|]. apply Hl.
    rewrite <-(reverse_involutive s), E, reverse_cons. by rewrite last_snoc.
Qed.

Lemma trim_start_fixed s c : trim_start s = s → head s = Some c → is_whitespace c = false.
Proof.
  destruct s as [|d s]; [done|]. simpl. intros H [= ->]. destruct (is_whitespace c) eqn:E; [|done].
  pose proof (sublist_length _ _ (trim_start_sublist s)) as Hl. rewrite H in Hl. simpl in Hl. lia.
Qed.

(** A trimmed string has no white space at its ends. *)
Lemma trim_ends s c : trim s = s → head s = Some c ∨ last s = Some c → is_whitespace c = false.
Proof.
  intros Ht. assert (Hs : trim_start s = s).
  { destruct s as [|d s]; [done|]. simpl. destruct (is_whitespace d) eqn:E; [|done].
    pose proof (sublist_length _ _ (trim_end_sublist (trim_start (d :: s)))) as H1.
    pose proof (sublist_length _ _ (trim_start_sublist s)) as H2.
    change (trim_end (trim_start (d :: s))) with (trim (d :: s)) in H1. rewrite Ht in H1.
    simpl in H1. rewrite E in H1. lia. }
  intros [H|H]; [by eapply trim_start_fixed|]. unfold trim, trim_end in Ht. rewrite Hs in Ht.
  apply (f_equal reverse) in Ht. rewrite reverse_involutive in Ht.
  eapply trim_start_fixed; [exact Ht|]. apply last_Some in H as [k ->]. by rewrite reverse_snoc.
Qed.

Lemma trim_start_idemp s : trim_start (trim_start s) = trim_start s.
Proof. induction s as [|c s IH]; [done|]. simpl. destruct (is_whitespace c) eqn:E; [done|]. simpl. by rewrite E. Qed.

Lemma trim_start_app s t : trim_start s ≠ [] → trim_start (s ++ t) = trim_start s ++ t.
Proof.
  induction s as [|c s IH]; [done|]. simpl. destruct (is_whitespace c); [|done]. apply IH.
Qed.
Lemma trim_start_blank s t : trim_start s = [] → trim_start (s ++ t) = trim_start t.
Proof.
  induction s as [|c s IH]; [done|]. simpl. destruct (is_whitespace c); [|done]. apply IH.
Qed.
Lemma trim_end_blank s t : trim_end t = [] → trim_end (s ++ t) = trim_end s.
Proof.
  unfold trim_end. rewrite reverse_app. intros H. rewrite trim_start_blank; [done|].
  apply (f_equal reverse) in H. by rewrite reverse_involutive in H.
Qed.

(** A space on either side is trimmed away. *)
Lemma trim_pad s : trim (c_space :: s ++ [c_space]) = trim s.
Proof.
  unfold trim. assert (E : trim_start (c_space :: s ++ [c_space]) = trim_start (s ++ [c_space])) by done.
  rewrite E. destruct (decide (trim_start s = [])) as [Hs|Hs].
  - by rewrite trim_start_blank, Hs.
  - rewrite trim_start_app by done. by apply trim_end_blank.
Qed.

(** ** Cells *)

Definition no_newline (s : ustring) : bool := negb (str_contains newline s).

Lemma escape_cons c s : escape_table_cell (c :: s) =
  (if decide (c = c_backslash ∨ c = c_pipe) then [c_backslash; c] else [c]) ++ escape_table_cell s.
Proof. done. Qed.

Lemma cells_loop_escape s rest cell cells :
  cells_loop (escape_table_cell s ++ rest) cell cells = cells_loop rest (cell ++ s) cells.
Proof.
  revert cell. induction s as [|c s IH]; intros cell; [by rewrite app_nil_r|].
  rewrite escape_cons. case_decide as Hc.
  - rewrite <-(assoc_L (++)). simpl app. cbn [cells_loop].
    rewrite decide_False by done. rewrite decide_True by done. rewrite decide_True by tauto.
    rewrite IH. by rewrite <-(assoc_L (++)).
  - rewrite <-(assoc_L (++)). simpl app. cbn [cells_loop].
    rewrite decide_False by tauto. rewrite decide_False by tauto.
    rewrite IH. by rewrite <-(assoc_L (++)).
Qed.

Lemma cells_loop_separator r cell cells :
  cells_loop (cell_separator ++ r) cell cells =
    cells_loop (c_space :: r) [] (cells ++ [trim (cell ++ [c_space])]).
Proof. done. Qed.

Lemma cells_loop_row c cs acc :
  Forall (λ c, trim c = c) (c :: cs) →
  cells_loop (c_space :: join cell_separator (escape_table_cell <$> (c :: cs)) ++ [c_space]) [] acc =
    acc ++ c :: cs.
Proof.
  revert c acc. induction cs as [|c' cs IH]; intros c acc H; apply Forall_cons in H as [Hc H].
  - cbn [fmap list_fmap join]. cbn [cells_loop]. rewrite !decide_False by done. rewrite cells_loop_escape.
    cbn [cells_loop]. rewrite !decide_False by done. cbn [app]. by rewrite trim_pad, Hc.
  - assert (E : join cell_separator (escape_table_cell <$> (c :: c' :: cs)) =
      escape_table_cell c ++ cell_separator ++ join cell_separator (escape_table_cell <$> (c' :: cs))) by done.
    rewrite E. cbn [cells_loop]. rewrite !decide_False by done. rewrite <-!(assoc_L (++)), cells_loop_escape.
    rewrite cells_loop_separator. change (([] ++ [c_space]) ++ c) with (c_space :: c). rewrite <-app_comm_cons.
    rewrite trim_pad, Hc, IH by done. by rewrite <-(assoc_L (++)).
Qed.

(** A printed row parses to its cells. *)
Lemma printed_row_parses cells :
  cells ≠ [] → Forall (λ c, trim c = c) cells →
  parse_table_cells (row_line (escape_table_cell <$> cells)) = Some cells.
Proof.
  intros Hne Hc. unfold parse_table_cells, row_line.
  set (j := join cell_separator (escape_table_cell <$> cells)).
  assert (Hl : last ([c_pipe; c_space] ++ j ++ [c_space; c_pipe]) = Some c_pipe).
  { change [c_space; c_pipe] with ([c_space] ++ [c_pipe]). by rewrite !(assoc_L (++)), last_snoc. }
  rewrite trim_id; [|by intros ? [= <-]|rewrite Hl; by intros ? [= <-]].
  unfold str_contains. rewrite bool_decide_true by set_solver. cbn [negb].
  change (default ([c_pipe; c_space] ++ j ++ [c_space; c_pipe]) (strip_char c_pipe ([c_pipe; c_space] ++ j ++ [c_space; c_pipe])))
    with (c_space :: j ++ [c_space; c_pipe]).
  assert (Er : reverse (c_space :: j ++ [c_space; c_pipe]) = c_pipe :: c_space :: reverse (c_space :: j)).
  { change (c_space :: j ++ [c_space; c_pipe]) with ((c_space :: j) ++ [c_space; c_pipe]). by rewrite reverse_app. }
  rewrite Er. cbn [drop leading_run]. rewrite decide_False by done.
  unfold ends_with_char. rewrite bool_decide_true.
  2: { change (c_space :: j ++ [c_space; c_pipe]) with ((c_space :: j) ++ [c_space] ++ [c_pipe]).
       by rewrite (assoc_L (++)), last_snoc. }
  cbn [Nat.even andb]. f_equal.
  assert (Et : take (length (c_space :: j ++ [c_space; c_pipe]) - 1) (c_space :: j ++ [c_space; c_pipe]) =
    c_space :: j ++ [c_space]).
  { change (c_space :: j ++ [c_space; c_pipe]) with ((c_space :: j) ++ [c_space] ++ [c_pipe]).
    rewrite (assoc_L (++)). apply take_app_length'. rewrite !length_app. simpl. rewrite length_app. simpl. lia. }
  rewrite Et. destruct cells as [|c cs]; [done|]. unfold j. by apply cells_loop_row.
Qed.

(** ** Lines of a printed text *)

Lemma split_no_newline s rest seg : newline ∉ s →
  split_inclusive_from (s ++ rest) seg = split_inclusive_from rest (seg ++ s).
Proof.
  revert seg. induction s as [|c s IH]; intros seg Hs; [by rewrite app_nil_r|].
  apply not_elem_of_cons in Hs as [Hc Hs]. simpl. rewrite decide_False by done.
  rewrite IH by done. by rewrite <-(assoc_L (++)).
Qed.

(** A line that survives printing and splitting. *)
Definition whole_line (s : ustring) : Prop :=
  (newline ∉ s) ∧ (∀ c, last s = Some c → c ≠ carriage_return).

Lemma logical_line_newline s : whole_line s → logical_line (s ++ [newline]) = s.
Proof.
  intros [_ Hcr]. unfold logical_line, ends_with_char. rewrite last_snoc, bool_decide_true by done.
  rewrite length_app. simpl. rewrite Nat.add_sub, take_app_length. unfold strip_carriage_return.
  destruct (last s) as [c|] eqn:E; [|done]. by rewrite decide_False by (by apply Hcr).
Qed.

Lemma logical_line_last s : newline ∉ s → logical_line s = s.
Proof.
  intros Hs. unfold logical_line, ends_with_char. rewrite bool_decide_false; [done|].
  intros H. apply Hs. by apply last_Some_elem_of in H.
Qed.

Lemma text_lines_at start segs : sl_text <$> lines_at start segs = logical_line <$> segs.
Proof. revert start. induction segs as [|s segs IH]; intros start; simpl; [done|]. by rewrite IH. Qed.

(** The lines of a text that was joined from lines. *)
Lemma lines_of_join ls : Forall whole_line ls → last ls ≠ Some [] →
  sl_text <$> source_lines (join_lines ls) = ls.
Proof.
  intros Hls Hlast. rewrite source_lines_at, text_lines_at. unfold split_inclusive, join_lines.
  induction ls as [|l [|l' ls] IH]; [done| |]; apply Forall_cons in Hls as [Hl Hls].
  - cbn [join]. rewrite <-(app_nil_r l) at 1. rewrite split_no_newline by apply Hl. simpl.
    rewrite decide_False by (intros ->; done). simpl. by rewrite logical_line_last by apply Hl.
  - assert (E : join [newline] (l :: l' :: ls) = l ++ newline :: join [newline] (l' :: ls)) by done.
    rewrite E, split_no_newline by apply Hl. cbn [split_inclusive_from]. rewrite decide_True by done.
    rewrite fmap_cons, logical_line_newline by done. f_equal. apply IH; [done|]. by rewrite last_cons_cons in Hlast.
Qed.

(** ** Rows of a table *)

Lemma escape_sub c s : c ∈ escape_table_cell s → c ∈ s ∨ c = c_backslash.
Proof.
  unfold escape_table_cell. intros (x & Hc & Hx)%list_elem_of_bind.
  case_decide; set_solver.
Qed.

Lemma join_elem c sep l : c ∈ join sep l → c ∈ sep ∨ ∃ x, x ∈ l ∧ c ∈ x.
Proof.
  induction l as [|x [|y l] IH]; simpl.
  - by intros ?%elem_of_nil.
  - intros H. right. exists x. split; [left|done].
  - intros [H|[H|H]%elem_of_app]%elem_of_app.
    + right. exists x. split; [left|done].
    + by left.
    + destruct (IH H) as [?|(z & Hz & ?)]; [by left|]. right. exists z. split; [by right|done].
Qed.

Lemma row_line_whole cells : Forall (λ c, newline ∉ c) cells →
  whole_line (row_line (escape_table_cell <$> cells)).
Proof.
  intros H. split.
  - intros [Hn|[Hn|Hn]%elem_of_app]%elem_of_app; [by repeat (apply elem_of_cons in Hn as [Hn|Hn]; [done|]); apply elem_of_nil in Hn| |
      by repeat (apply elem_of_cons in Hn as [Hn|Hn]; [done|]); apply elem_of_nil in Hn].
    apply join_elem in Hn as [Hn|(x & Hx & Hn)];
      [by repeat (apply elem_of_cons in Hn as [Hn|Hn]; [done|]); apply elem_of_nil in Hn|].
    apply list_elem_of_fmap in Hx as (y & -> & Hy). apply escape_sub in Hn as [Hn|?]; [|done].
    rewrite Forall_forall in H. by apply (H y).
  - intros c Hc. unfold row_line in Hc. change [c_space; c_pipe] with ([c_space] ++ [c_pipe]) in Hc.
    rewrite !(assoc_L (++)), last_snoc in Hc. by injection Hc as <-.
Qed.

Lemma escape_align a : escape_table_cell (align_text a) = align_text a.
Proof. by destruct a. Qed.

Lemma align_roundtrip al : al ≠ [] →
  parse_table_delimiter (row_line (align_text <$> al)) = Some (mkColumnDef <$> al).
Proof.
  intros Hne. unfold parse_table_delimiter.
  assert (E : align_text <$> al = escape_table_cell <$> (align_text <$> al)).
  { rewrite <-list_fmap_compose. apply list_fmap_ext. intros. simpl. by rewrite escape_align. }
  rewrite E, printed_row_parses.
  - cbn [mbind option_bind]. apply mapM_Some. apply Forall2_fmap_2, Forall_Forall2_diag.
    apply Forall_forall. intros [] _; by vm_compute.
  - by destruct al.
  - apply Forall_forall. intros x (a & -> & _)%list_elem_of_fmap. by destruct a; vm_compute.
Qed.

Definition cells_fine (cells : list ustring) : Prop :=
  cells ≠ [] ∧ Forall (λ c, trim c = c) cells.

Definition print_row (cells : list ustring) : ustring := row_line (escape_table_cell <$> cells).

(** A table ends where the lines end, or at a blank line. *)
Definition ends_block (rest : list ustring) : Prop := rest = [] ∨ ∃ r, rest = [] :: r.

Lemma table_run_rows rows rest :
  Forall cells_fine rows → ends_block rest →
  table_run ((print_row <$> rows) ++ rest) = (rows, rest).
Proof.
  intros Hrows Hrest. induction Hrows as [|cells rows [Hne Hc] Hrows IH]; cbn [fmap list_fmap app table_run].
  - destruct Hrest as [->|[r ->]]; done.
  - unfold print_row at 1. rewrite printed_row_parses by done. by rewrite IH.
Qed.

(** A printed table is recognised. *)
Lemma recognise_table al header rest :
  cells_fine header → length header = length al →
  recognise (print_row header) (row_line (align_text <$> al) :: rest) =
    AtTable (mkColumnDef <$> al) header rest.
Proof.
  intros [Hne Hc] Hlen. unfold recognise.
  assert (Hal : al ≠ []) by (intros ->; by destruct header).
  assert (Ht : trim (print_row header) = print_row header).
  { apply trim_id; [by intros ? [= <-]|]. intros c Hl. unfold print_row, row_line in Hl.
    change [c_space; c_pipe] with ([c_space] ++ [c_pipe]) in Hl.
    rewrite !(assoc_L (++)), last_snoc in Hl. by injection Hl as <-. }
  rewrite Ht. assert (Hf : parse_fence_open (print_row header) = None) by done. rewrite Hf.
  assert (Hg : starts_with_char c_greater (print_row header) = false) by done. rewrite Hg.
  assert (Hr : starts_with colons (print_row header) = false).
  { unfold starts_with. apply bool_decide_false. intros [k Hk]. done. }
  rewrite Hr. cbn [table_start]. rewrite align_roundtrip by done. cbn [mbind option_bind].
  unfold print_row. rewrite printed_row_parses by done. cbn [mbind option_bind].
  by rewrite decide_True by (by rewrite length_fmap).
Qed.
