(* ===== verification/FlatTrip.v ===== *)
(** * Printing a flat document and parsing it back

    A document of tables, code fences, raw blocks and plain headings and
    paragraphs is printed without its source text and parsed again: the parsed
    document has the same content. *)

From S2P Require Import Prelude Core Sequence SequenceInv Mark Table Frontmatter Codec Text.
From S2P Require Import SequenceProps SessionWire TreeInv.
From S2P Require Import Draft Block Document.
From S2P Require Import Chars Inline Markdown Serialize ParseInv ParseProps.
From S2P Require Import TableTrip RoundTrip.

(** ** Content *)

(** What a block says, without ids and history. *)
Inductive Content :=
  | ContentParagraph (text : string)
  | ContentHeading (level : N) (text : string)
  | ContentFence (style : CodeFenceStyle) (info : option string) (text : string)
  | ContentRaw (raw : string)
  | ContentTable (view : list ColumnAlignment * list string * list (list string))
  | ContentContainer.

Definition content (b : Block) : Content :=
  match blk_kind b with
  | Paragraph text => ContentParagraph (paragraph_visible_string text)
  | Heading level text => ContentHeading level (paragraph_visible_string text)
  | CodeFence style info text => ContentFence style info text
  | RawBlock raw => ContentRaw raw
  | TableBlock t => ContentTable (table_view t)
  | ListBlock _ _ _ | BlockQuote _ => ContentContainer
  end.

(** A block as the parser builds it from plain text: no marks, no deleted rows. *)
Definition plain_block (b : Block) : Prop :=
  blk_marks b = markset_new ∧ match blk_kind b with TableBlock t => rows_live t | _ => True end.

(** A byte string that is the encoding of its characters. *)
Definition valid_utf8 (s : string) : Prop := utf8 (chars s) = s.

(** The lines of a text, split at every newline. *)
Fixpoint split_lines_from (s line : ustring) : list ustring :=
  match s with
  | [] => [line]
  | c :: s => if decide (c = newline) then line :: split_lines_from s [] else split_lines_from s (line ++ [c])
  end.
Definition split_lines (s : ustring) : list ustring := split_lines_from s [].

Lemma split_lines_ne s line : split_lines_from s line ≠ [].
Proof. revert line. induction s as [|c s IH]; intros line; simpl; [done|]. case_decide; [done|apply IH]. Qed.

Lemma join_split s line : join_lines (split_lines_from s line) = line ++ s.
Proof.
  revert line. induction s as [|c s IH]; intros line; simpl; [by rewrite app_nil_r|].
  case_decide; [|by rewrite IH, <-(assoc_L (++))]. subst c. pose proof (split_lines_ne s []) as Hne.
  pose proof (IH []) as E. destruct (split_lines_from s []) as [|l ls]; [done|].
  change (join_lines (line :: l :: ls)) with (line ++ [newline] ++ join_lines (l :: ls)). by rewrite E.
Qed.

Lemma split_lines_sub s line l c : l ∈ split_lines_from s line → c ∈ l → c ∈ line ∨ (c ∈ s ∧ c ≠ newline).
Proof.
  revert line. induction s as [|d s IH]; intros line; simpl.
  { intros ->%list_elem_of_singleton. by left. }
  case_decide as Hd.
  - intros [->|Hl]%elem_of_cons Hc; [by left|]. destruct (IH [] Hl Hc) as [?%not_elem_of_nil|[? ?]]; [done|].
    right. split; [by right|done].
  - intros Hl Hc. destruct (IH _ Hl Hc) as [[?|E%list_elem_of_singleton]%elem_of_app|[? ?]].
    + by left.
    + right. rewrite E. split; [left|done].
    + right. split; [by right|done].
Qed.

Lemma split_lines_whole s l : carriage_return ∉ s → l ∈ split_lines s → whole_line l.
Proof.
  intros Hcr Hl. split.
  - intros Hc. by destruct (split_lines_sub _ _ _ _ Hl Hc) as [?%not_elem_of_nil|[_ ?]].
  - intros c Hc ->. apply last_Some_elem_of in Hc.
    by destruct (split_lines_sub _ _ _ _ Hl Hc) as [?%not_elem_of_nil|[? _]].
Qed.

(** Lines that are not empty are among those [str::lines] gives. *)
Lemma split_lines_lines s line l : carriage_return ∉ line ++ s →
  l ∈ split_lines_from s line → l = [] ∨ l ∈ lines_from s line.
Proof.
  revert line. induction s as [|c s IH]; intros line Hcr; simpl.
  { intros ->%list_elem_of_singleton. case_decide; [by left|right; left]. }
  case_decide as Hc.
  - intros [->|Hl]%elem_of_cons.
    + right. unfold strip_carriage_return. destruct (last line) as [x|] eqn:E; [|left].
      rewrite decide_False; [left|]. intros ->. apply last_Some_elem_of in E. set_solver.
    + destruct (IH [] ltac:(set_solver) Hl) as [?|?]; [by left|]. right. by right.
  - intros Hl. apply IH; [|done]. rewrite <-(assoc_L (++)). done.
Qed.

Section flat.
Context (inc : bool) (graphemes : string → list string).

(** The block prints as [line :: tail], and those lines, in front of the end or
    of a blank line, are read as a block with the same content. *)
Record stands (b : Block) (line : ustring) (tail : list ustring) : Prop := {
  st_text : serialize_block b = join_lines (line :: tail);
  st_whole : Forall whole_line (line :: tail);
  st_last : last (line :: tail) ≠ Some [];
  st_blank : blank_line line = false;
  st_build nested rest c :
    ends_block rest → (c + N.of_nat (weight (line :: tail ++ rest)) ≤ u64_max)%N →
    ∃ b' c', build inc graphemes nested (recognise line (tail ++ rest)) line (tail ++ rest) c =
        Some (b', rest, c') ∧ content b' = content b ∧ plain_block b';
}.

(** ** Code fences *)

(** A fence that can be printed: accepted by the validation of drafts; besides,
    the info string has no white space around it and does not continue a fence
    of tildes, and there are no carriage returns. *)
Definition fence_fine (style : CodeFenceStyle) (info : option string) (text : string) : Prop :=
  validate_code_fence style info text = None ∧ (fence_length style ≤ 255)%N ∧
  valid_utf8 text ∧ (carriage_return ∉ chars text) ∧
  match info with
  | None => True
  | Some i => valid_utf8 i ∧ chars i ≠ [] ∧ trim (chars i) = chars i ∧
      (fence_marker style = Tilde → head (chars i) ≠ Some c_tilde)
  end.

Lemma leading_run_replicate c n s : head s ≠ Some c → leading_run c (replicate n c ++ s) = n.
Proof.
  intros Hs. induction n as [|n IH]; simpl.
  - destruct s as [|d s]; [done|]. simpl. rewrite decide_False; [done|]. by intros ->.
  - rewrite decide_True by done. by rewrite IH.
Qed.

Lemma fence_char_not_space m : is_whitespace (fence_char m) = false.
Proof. by destruct m. Qed.

Lemma fence_lines_close style n contents rest :
  fence_length style = N.of_nat n →
  Forall (λ l, is_fence_close (trim l) style = false) contents →
  fence_lines style (contents ++ replicate n (fence_char (fence_marker style)) :: rest) = (contents, rest).
Proof.
  intros Hn. induction 1 as [|l contents Hl _ IH]; cbn [app fence_lines].
  - assert (E : is_fence_close (trim (replicate n (fence_char (fence_marker style)))) style = true); [|by rewrite E].
    set (m := fence_char (fence_marker style)).
    assert (Hm : is_whitespace m = false) by apply fence_char_not_space.
    rewrite trim_id.
    + unfold is_fence_close. fold m. pose proof (leading_run_replicate m n [] ltac:(done)) as E.
      rewrite app_nil_r in E. rewrite E, Hn. rewrite drop_ge by (by rewrite length_replicate).
      simpl. rewrite andb_true_r. by apply N.leb_le.
    + destruct n; simpl; [done|]. by intros ? [= <-].
    + intros c Hc. apply last_Some_elem_of, elem_of_replicate in Hc as [-> _]. done.
  - rewrite Hl, IH. done.
Qed.

(** The lines of a validated text do not close the fence. *)
Lemma fence_text_open style info text :
  validate_code_fence style info text = None → carriage_return ∉ chars text →
  Forall (λ l, is_fence_close (trim l) style = false) (split_lines (chars text)).
Proof.
  unfold validate_code_fence. intros Hv Hcr. apply Forall_forall. intros l Hl.
  destruct (_ || _) eqn:E; [done|]. apply orb_false_iff in E as [E1%N.ltb_ge E2%N.leb_gt].
  unfold is_fence_close. apply andb_false_iff. left. apply N.leb_gt.
  destruct (split_lines_lines (chars text) [] l Hcr Hl) as [->|Hin]; [simpl; lia|].
  assert (leading_run (fence_char (fence_marker style)) (trim l) ≤ longest_fence_run (fence_marker style) text); [|lia].
  unfold longest_fence_run. apply max_list_elem_of_le. apply list_elem_of_fmap. by exists l.
Qed.

Lemma fence_open_line style info :
  (3 ≤ fence_length style ≤ 255)%N →
  (fence_marker style = Backtick → c_backtick ∉ info) → trim info = info →
  (fence_marker style = Tilde → head info ≠ Some c_tilde) →
  let line := replicate (N.to_nat (fence_length style)) (fence_char (fence_marker style)) ++ info in
  trim line = line ∧ parse_fence_open line = Some (style, info).
Proof.
  intros Hn Hb Ht Htl line. set (n := N.to_nat (fence_length style)) in *.
  set (m := fence_char (fence_marker style)) in *.
  assert (Hm : is_whitespace m = false) by apply fence_char_not_space.
  assert (Hnp : ∃ k, n = S k) by (exists (n - 1); lia). destruct Hnp as [k Hk].
  split.
  - apply trim_id; unfold line; rewrite Hk; [by intros ? [= <-]|]. intros c Hc. rewrite last_app in Hc.
    destruct (last info) as [d|] eqn:E.
    + injection Hc as ->. eapply trim_ends; [exact Ht|]. by right.
    + apply last_Some_elem_of, elem_of_replicate in Hc as [-> _]. done.
  - assert (Hrun : leading_run m line = n).
    { apply leading_run_replicate. intros Hh. unfold m in Hh. destruct (fence_marker style) eqn:Em.
      - apply (Hb eq_refl). destruct info as [|d info]; [done|]. injection Hh as ->. left.
      - by apply (Htl eq_refl). }
    assert (Hdrop : drop n line = info) by (unfold line; by rewrite drop_app_length' by (by rewrite length_replicate)).
    unfold parse_fence_open. replace (head line) with (Some m) by (unfold line; by rewrite Hk).
    cbn [mbind option_bind].
    assert (Emk : (if decide (m = c_backtick) then Some Backtick else if decide (m = c_tilde) then Some Tilde else None) =
      Some (fence_marker style)) by (unfold m; by destruct (fence_marker style)).
    rewrite Emk. cbn [mbind option_bind]. fold m. rewrite Hrun, Hdrop. rewrite decide_False by lia.
    assert (Eb : bool_decide (fence_marker style = Backtick) && str_contains c_backtick info = false).
    { case_bool_decide as E; [|done]. apply bool_decide_false. by apply Hb. }
    rewrite Eb. f_equal. f_equal. destruct style as [mk len]. unfold n. simpl. by rewrite N2Nat.id.
Qed.

Lemma join_lines_app a b : a ≠ [] → b ≠ [] → join_lines (a ++ b) = join_lines a ++ [newline] ++ join_lines b.
Proof.
  unfold join_lines. intros Ha Hb. induction a as [|x [|y a] IH]; [done| |].
  - destruct b as [|z b]; [done|]. done.
  - change (join [newline] ((x :: y :: a) ++ b)) with (x ++ [newline] ++ join [newline] ((y :: a) ++ b)).
    rewrite IH by done. change (join [newline] (x :: y :: a)) with (x ++ [newline] ++ join [newline] (y :: a)).
    by rewrite <-!(assoc_L (++)).
Qed.

Lemma contains_char_false cs s c : contains_char cs s = false → c ∈ cs → c ∉ chars s.
Proof.
  unfold contains_char. intros H Hc Hin. apply not_true_iff_false in H. apply H.
  apply existsb_exists. exists c. split; [by apply list_elem_of_In|by apply bool_decide_eq_true].
Qed.

(** What validation and [fence_fine] say about the info string. *)
Lemma fence_info style info text :
  fence_fine style info text →
  let i := default [] (chars <$> info) in
  (3 ≤ fence_length style ≤ 255)%N ∧ (fence_marker style = Backtick → c_backtick ∉ i) ∧ trim i = i ∧
  whole_line i ∧ (fence_marker style = Tilde → head i ≠ Some c_tilde).
Proof.
  intros (Hv & Hmax & _ & _ & Hinfo). unfold validate_code_fence in Hv.
  destruct (_ || _) eqn:E1 in Hv; [done|]. apply orb_false_iff in E1 as [E1%N.ltb_ge _].
  split; [done|]. destruct info as [info|]; simpl.
  2: { split_and!; [set_solver|done| |done]. split; [set_solver|done]. }
  destruct (_ || _) eqn:E2 in Hv; [done|]. apply orb_false_iff in E2 as [E2 E3].
  destruct Hinfo as (_ & _ & Ht & Htl). split_and!; [|done| |done].
  - intros Hb. rewrite Hb in E3. rewrite bool_decide_true in E3 by done. simpl in E3.
    eapply contains_char_false; [done|]. left.
  - split; [eapply contains_char_false; [done|]; set_solver|].
    intros c Hc ->. apply last_Some_elem_of in Hc. revert Hc.
    eapply contains_char_false; [done|]. set_solver.
Qed.

Lemma fence_whole m n : whole_line (replicate n (fence_char m)).
Proof.
  split.
  - intros [H _]%elem_of_replicate. by destruct m.
  - intros c Hc ->. apply last_Some_elem_of, elem_of_replicate in Hc as [H _]. by destruct m.
Qed.

Lemma whole_line_app a b : whole_line a → whole_line b → whole_line (a ++ b).
Proof.
  intros [Ha1 Ha2] [Hb1 Hb2]. split; [set_solver|]. intros c. rewrite last_app.
  destruct (last b) as [d|]; [intros [= ->]; by apply Hb2|]. apply Ha2.
Qed.

Lemma fence_stands b style info text :
  blk_kind b = CodeFence style info text → fence_fine style info text →
  ∃ line tail, stands b line tail.
Proof.
  intros Hk Hfine. destruct (fence_info _ _ _ Hfine) as (Hn & Hib & Hit & Hiw & Hitl).
  destruct Hfine as (Hv & _ & Hutf & Hcr & Hinfo).
  set (i := default [] (chars <$> info)) in *.
  destruct (fence_open_line style i Hn Hib Hit Hitl) as [Htrim Hopen].
  set (n := N.to_nat (fence_length style)) in *. set (fence := replicate n (fence_char (fence_marker style))) in *.
  assert (Hf0 : fence ≠ []) by (unfold fence; destruct n eqn:E; [lia|done]).
  exists (fence ++ i), (split_lines (chars text) ++ [fence]). split.
  - destruct b as [bid be bo bv bk bm]. simpl in Hk. subst bk. unfold serialize_block. cbn [serialize_at].
    unfold serialize_fence. replace (Nat.max (N.to_nat (fence_length style)) 3) with n by lia. fold fence i.
    change ((fence ++ i) :: split_lines (chars text) ++ [fence]) with ([fence ++ i] ++ (split_lines (chars text) ++ [fence])).
    rewrite join_lines_app, join_lines_app by (try apply split_lines_ne; try done; by destruct (split_lines (chars text))).
    unfold split_lines. rewrite join_split. unfold join_lines. simpl. by rewrite <-(assoc_L (++)).
  - constructor; [by apply whole_line_app; [apply fence_whole|]|]. apply Forall_app. split; [|repeat constructor; by apply fence_whole].
    apply Forall_forall. intros l Hl. by eapply split_lines_whole.
  - rewrite app_comm_cons, last_snoc. congruence.
  - unfold blank_line. rewrite Htrim. apply bool_decide_false. intros [? _]%app_nil. done.
  - intros nested rest c Hrest Hc. unfold recognise. rewrite Htrim, Hopen. unfold build.
    rewrite <-(assoc_L (++)). cbn [app]. rewrite (fence_lines_close style n); [|unfold n; lia|by eapply fence_text_open].
    rewrite weight_cons in Hc. rewrite next_op_id_spec by lia. eexists _, _. split; [done|]. split; [|done].
    unfold content. rewrite Hk. cbn [blk_kind block_new]. rewrite Hit. f_equal.
    + unfold i. destruct info as [info|]; simpl; [|done]. destruct Hinfo as (Hu & Hne & _).
      rewrite decide_False by done. by rewrite Hu.
    + unfold split_lines. rewrite join_split. done.
Qed.

(** ** Tables *)

(** A cell without line breaks and without white space around it. *)
Definition plain_cell (s : string) : Prop :=
  valid_utf8 s ∧ trim (chars s) = chars s ∧ newline ∉ chars s.
Definition table_fine (t : Table) : Prop :=
  columns_in_order t ≠ [] ∧ Forall plain_cell (table_view t).1.2 ∧ Forall (Forall plain_cell) (table_view t).2.

Lemma resize_same n row : length row = n → resize_cells n row = row.
Proof. intros <-. unfold resize_cells. by rewrite firstn_all, Nat.sub_diag, app_nil_r. Qed.

Lemma length_row_cells t row : length (row_cells t row) = length (columns_in_order t).
Proof. unfold row_cells. by rewrite length_fmap. Qed.

Lemma fold_max_same n (rows : list (list ustring)) :
  Forall (λ row, length row = n) rows → fold_left (λ m row, Nat.max m (length row)) rows n = n.
Proof. induction 1 as [|row rows Hr _ IH]; [done|]. simpl. by rewrite Hr, Nat.max_id. Qed.

Lemma seq_lookup_fmap {A B} (l : list A) (f : option A → B) : (λ i, f (l !! i)) <$> seq 0 (length l) = (f ∘ Some) <$> l.
Proof.
  apply list_eq. intros i. rewrite !list_lookup_fmap. destruct (l !! i) as [x|] eqn:E; simpl.
  - rewrite lookup_seq_lt by (by eapply lookup_lt_Some). simpl. by rewrite E.
  - apply lookup_ge_None in E. by rewrite lookup_seq_ge.
Qed.

Definition cell_chars (row : list string) : list ustring := chars <$> row.

(** The lines of a printed table. *)
Lemma serialize_table_lines t :
  columns_in_order t ≠ [] →
  serialize_table t = join_lines (print_row (cell_chars (table_view t).1.2) ::
    row_line (align_text <$> (table_view t).1.1) :: (print_row ∘ cell_chars <$> (table_view t).2)).
Proof.
  intros Hne. unfold serialize_table, table_view. cbn [fst snd]. set (n := length (columns_in_order t)).
  assert (Hr : ∀ row, length (chars <$> row_cells t row) = n) by (intros; by rewrite length_fmap, length_row_cells).
  assert (Hcount : fold_left (λ m row, Nat.max m (length row))
    ((λ row, chars <$> row_cells t (row_id row)) <$> filter (λ row, Lww.get (row_deleted row) = false) (sequence_iter (rows t)))
    (Nat.max (length (chars <$> row_cells t (header_row_id t))) n) = n).
  { rewrite Hr, Nat.max_id. apply fold_max_same. apply Forall_forall. intros r (x & -> & _)%list_elem_of_fmap. apply Hr. }
  rewrite Hcount. rewrite decide_False by (unfold n; by destruct (columns_in_order t)).
  f_equal. f_equal; [by rewrite resize_same|]. f_equal.
  - f_equal. unfold n. rewrite (seq_lookup_fmap (columns_in_order t)
      (λ o, align_text (default Left ((λ c, Lww.get (column_alignment c)) <$> o)))). by rewrite <-list_fmap_compose.
  - rewrite <-!list_fmap_compose. apply list_fmap_ext. intros i x _. simpl. by rewrite resize_same.
Qed.

Lemma plain_cells_fine row : row ≠ [] → Forall plain_cell row →
  cells_fine (cell_chars row) ∧ Forall (λ c, newline ∉ c) (cell_chars row) ∧ utf8 <$> cell_chars row = row.
Proof.
  intros Hne Hp. unfold cell_chars. split_and!.
  - split; [by destruct row|]. apply Forall_fmap. eapply Forall_impl; [exact Hp|]. by intros s (_ & ? & _).
  - apply Forall_fmap. eapply Forall_impl; [exact Hp|]. by intros s (_ & _ & ?).
  - rewrite <-list_fmap_compose. induction Hp as [|s row (Hs & _) Hp IH]; [done|]. simpl. rewrite Hs. f_equal.
    destruct row; [done|]. by apply IH.
Qed.

Lemma align_line_whole al : whole_line (row_line (align_text <$> al)).
Proof.
  assert (E : align_text <$> al = escape_table_cell <$> (align_text <$> al)).
  { rewrite <-list_fmap_compose. apply list_fmap_ext. intros. simpl. by rewrite escape_align. }
  rewrite E. apply row_line_whole. apply Forall_fmap, Forall_forall. intros a _. destruct a; simpl; set_solver.
Qed.

Lemma print_row_line cells : trim (print_row cells) = print_row cells ∧ print_row cells ≠ [].
Proof.
  split; [|done]. apply trim_id; [by intros ? [= <-]|]. intros c Hl. unfold print_row, row_line in Hl.
  change [c_space; c_pipe] with ([c_space] ++ [c_pipe]) in Hl.
  rewrite !(assoc_L (++)), last_snoc in Hl. by injection Hl as <-.
Qed.

Lemma table_block_marks cols header rows c : blk_marks (table_block inc cols header rows c).1 = markset_new.
Proof.
  unfold table_block. destruct (next_op_id c) as [elem c1]. destruct (fold_left _ _ _) as [[t o] c2].
  by destruct (fold_left _ _ _) as [[t' o'] c3].
Qed.

Lemma table_stands b t :
  blk_kind b = TableBlock t → table_fine t → ∃ line tail, stands b line tail.
Proof.
  intros Hk (Hne & Hh & Hr). pose proof (serialize_table_lines t Hne) as Htext.
  set (H := cell_chars (table_view t).1.2) in *. set (al := (table_view t).1.1) in *.
  set (R := cell_chars <$> (table_view t).2).
  assert (Hn : ∀ row, length (row_cells t row) = length (columns_in_order t)) by apply length_row_cells.
  assert (Hlen : length H = length al) by (unfold H, al, cell_chars, table_view; simpl; by rewrite !length_fmap).
  assert (Hhne : (table_view t).1.2 ≠ []).
  { unfold table_view. simpl. intros E. apply (f_equal length) in E. rewrite Hn in E. by destruct (columns_in_order t). }
  destruct (plain_cells_fine _ Hhne Hh) as (HH & HHn & HHu). fold H in HH, HHn, HHu.
  assert (HR : Forall (λ cells, cells_fine cells ∧ Forall (λ c, newline ∉ c) cells ∧ length cells = length al) R ∧
    (λ cells : list ustring, utf8 <$> cells) <$> R = (table_view t).2).
  { assert (Hl : Forall (λ row, length row = length (columns_in_order t)) (table_view t).2).
    { apply Forall_fmap, Forall_forall. intros r _. apply Hn. }
    assert (Eal : length al = length (columns_in_order t)) by (unfold al, table_view; simpl; by rewrite length_fmap).
    unfold R. rewrite Eal. clear -Hr Hl Hne. induction Hr as [|row rows Hrow Hr IH]; [done|].
    apply Forall_cons in Hl as [Hl1 Hl]. destruct (IH Hl) as [IH1 IH2].
    destruct (plain_cells_fine row) as (? & ? & E); [by intros ->; destruct (columns_in_order t)|done|].
    split; [constructor; [|done]; split_and!; [done|done|unfold cell_chars; by rewrite length_fmap]|].
    rewrite !fmap_cons, E. by f_equal. }
  destruct HR as [HR HRu]. rewrite list_fmap_compose in Htext. fold R in Htext.
  exists (print_row H), (row_line (align_text <$> al) :: (print_row <$> R)).
  destruct (print_row_line H) as [Ht Hp]. split.
  - destruct b as [bid be bo bv bk bm]. simpl in Hk. subst bk. exact Htext.
  - constructor; [by apply row_line_whole|]. constructor; [apply align_line_whole|].
    apply Forall_fmap. eapply Forall_impl; [exact HR|]. intros cells (_ & ? & _). by apply row_line_whole.
  - intros Hl. apply last_Some_elem_of in Hl. apply elem_of_cons in Hl as [?|Hl]; [done|].
    apply elem_of_cons in Hl as [?|Hl]; [done|]. by apply list_elem_of_fmap in Hl as (? & ? & _).
  - unfold blank_line. rewrite Ht. by apply bool_decide_false.
  - intros nested rest c Hrest Hc. rewrite <-app_comm_cons. rewrite <-app_comm_cons in Hc.
    pose proof (recognise_spec (print_row H) (row_line (align_text <$> al) :: (print_row <$> R) ++ rest)) as Hw.
    rewrite recognise_table in Hw |- * by done. unfold build.
    destruct (table_run_suffix ((print_row <$> R) ++ rest)) as [_ Hw2].
    assert (Hrun : table_run ((print_row <$> R) ++ rest) = (R, rest)).
    { apply table_run_rows; [|done]. eapply Forall_impl; [exact HR|]. by intros ? (? & _). }
    rewrite Hrun in Hw2 |- *.
    destruct Hw as [_ Hw]. simpl in Hw2. rewrite weight_cons in Hc.
    destruct (table_block_view inc (mkColumnDef <$> al) H R c) as (t' & Hk' & Hview & Hlive).
    { by rewrite length_fmap. }
    { eapply Forall_impl; [exact HR|]. intros cells (_ & _ & ?). by rewrite length_fmap. }
    { lia. }
    assert (Hm : blk_marks (table_block inc (mkColumnDef <$> al) H R c).1 = markset_new) by apply table_block_marks.
    destruct (table_block inc (mkColumnDef <$> al) H R c) as [b' c']. simpl in Hk', Hm. exists b', c'.
    split; [done|]. split; [|unfold plain_block; by rewrite Hk']. unfold content. rewrite Hk, Hk', Hview, HHu, HRu.
    rewrite <-list_fmap_compose. unfold compose. simpl. by rewrite list_fmap_id.
Qed.

(** ** Raw blocks *)

(** A raw block starts with three colons and has no blank line. *)
Definition raw_fine (raw : string) : Prop :=
  valid_utf8 raw ∧ (carriage_return ∉ chars raw) ∧
  match split_lines (chars raw) with
  | line :: tail => starts_with colons (trim line) = true ∧ Forall (λ l, blank_line l = false) tail
  | [] => False
  end.

Lemma raw_run_stop tail rest :
  Forall (λ l, blank_line l = false) tail → ends_block rest → raw_run (tail ++ rest) = (tail, rest).
Proof.
  intros Ht Hr. induction Ht as [|l tail Hl _ IH]; cbn [app raw_run].
  - destruct Hr as [->|[r ->]]; done.
  - by rewrite Hl, IH.
Qed.

Lemma colons_line line : starts_with colons line = true → ∃ r, line = colons ++ r.
Proof. unfold starts_with. rewrite bool_decide_eq_true. by intros [r ->]; exists r. Qed.

Lemma nonblank_last ls l : Forall (λ l, blank_line l = false) ls → last ls = Some l → l ≠ [].
Proof. intros H Hl ->. apply last_Some_elem_of in Hl. rewrite Forall_forall in H. by apply H in Hl. Qed.

Lemma raw_stands b raw :
  blk_kind b = RawBlock raw → raw_fine raw → ∃ line tail, stands b line tail.
Proof.
  intros Hk (Hu & Hcr & Hl). pose proof (join_split (chars raw) []) as Hj. fold (split_lines (chars raw)) in Hj.
  pose proof (λ l, split_lines_whole (chars raw) l Hcr) as Hw.
  destruct (split_lines (chars raw)) as [|line tail]; [done|]. destruct Hl as [Hc Ht].
  destruct (colons_line _ Hc) as [r Hr].
  assert (Hb : blank_line line = false) by (unfold blank_line; rewrite Hr; by apply bool_decide_false).
  exists line, tail. split.
  - destruct b as [bid be bo bv bk bm]. simpl in Hk. by subst bk.
  - apply Forall_forall. exact Hw.
  - intros El. by eapply (nonblank_last (line :: tail)); [by constructor|exact El|].
  - done.
  - intros nested rest c Hrest Hcnt. unfold recognise. rewrite Hr.
    change (parse_fence_open (colons ++ r)) with (@None (CodeFenceStyle * ustring)).
    change (starts_with_char c_greater (colons ++ r)) with false. rewrite <-Hr, Hc. unfold build.
    rewrite raw_run_stop by done. rewrite weight_cons in Hcnt. rewrite next_op_id_spec by lia.
    eexists _, _. split; [done|]. split; [|done]. unfold content. rewrite Hk. simpl. rewrite Hj. simpl. by rewrite Hu.
Qed.

(** ** Plain text *)

(** Text without the characters that start inline marks. *)
Definition unmarked (s : ustring) : Prop := Forall (λ c, c ≠ c_star ∧ c ≠ c_backtick ∧ c ≠ c_lbracket) s.

Lemma fragment_unmarked fuel s visible marks :
  unmarked s → length s < fuel → fragment_loop graphemes fuel s visible marks = Some (visible ++ s, marks).
Proof.
  revert s visible. induction fuel as [|fuel IH]; intros s visible Hs Hf; [lia|].
  destruct s as [|c s]; cbn [fragment_loop]; [by rewrite app_nil_r|].
  apply Forall_cons in Hs as [(H1 & H2 & H3) Hs].
  assert (Hsw : ∀ d l, c ≠ d → starts_with (d :: l) (c :: s) = false).
  { intros d l Hd. apply bool_decide_false. intros Hp. by apply prefix_cons_inv_1 in Hp. }
  rewrite Hsw by done. unfold delimited, delimiter_at, bold_delimiter, italic_delimiter, code_delimiter.
  rewrite !Hsw by done. cbn [mbind option_bind]. unfold link_at, starts_with_char.
  rewrite bool_decide_false by (by intros [= ->]). rewrite IH; [|done|simpl in Hf; lia].
  by rewrite <-(assoc_L (++)).
Qed.

Lemma parse_fragment_unmarked s : unmarked s → parse_fragment graphemes s = (s, []).
Proof. intros Hs. unfold parse_fragment. by rewrite fragment_unmarked by (done || lia). Qed.

Hypothesis graphemes_concat : ∀ text, string_concat (graphemes text) = text.
Hypothesis graphemes_nonempty : ∀ text, Forall (λ g, g ≠ EmptyString) (graphemes text).

Lemma parse_plain kind md elem c :
  unmarked md → (c + N.of_nat (byte_len md) ≤ u64_max)%N →
  ∃ text, blk_kind (parse_text_block graphemes kind md elem c).1 = kind text ∧
    paragraph_visible_string text = utf8 md ∧ blk_marks (parse_text_block graphemes kind md elem c).1 = markset_new.
Proof.
  intros Hm Hc. unfold parse_text_block. rewrite parse_fragment_unmarked by done.
  pose proof (grapheme_count_le graphemes graphemes_concat graphemes_nonempty (utf8 md)) as Hg.
  rewrite length_utf8 in Hg.
  pose proof (text_roundtrip graphemes graphemes_concat (utf8 md) c 0 ltac:(lia)) as H.
  destruct (units_from_str graphemes (utf8 md) c 0) as [text c']. simpl. exists text. by destruct H.
Qed.

(** A text without marks, printed as it is. *)
Definition text_fine (b : Block) (text : Sequence TextUnit) : Prop :=
  active_intervals (blk_marks b) = [] ∧ valid_utf8 (paragraph_visible_string text) ∧
  unmarked (chars (paragraph_visible_string text)) ∧
  (carriage_return ∉ chars (paragraph_visible_string text)).

Lemma serialize_plain b text : text_fine b text → serialize_text b text = paragraph_visible_string text.
Proof.
  intros (Hm & _). unfold serialize_text, resolved_intervals. rewrite Hm. simpl. by rewrite visible_string_spec.
Qed.

Definition heading_fine (b : Block) (level : N) (text : Sequence TextUnit) : Prop :=
  let v := chars (paragraph_visible_string text) in
  text_fine b text ∧ (1 ≤ level ≤ 6)%N ∧ trim v = v ∧ (newline ∉ v) ∧ last v ≠ Some c_hash.

Definition paragraph_fine (b : Block) (text : Sequence TextUnit) : Prop :=
  text_fine b text ∧
  match split_lines (chars (paragraph_visible_string text)) with
  | line :: tail =>
    Forall (λ l, ends_paragraph l = false) (line :: tail) ∧
    match head tail with
    | Some next => parse_table_delimiter next = None ∧ parse_setext_underline (trim next) = None
    | None => True
    end
  | [] => False
  end.

Lemma paragraph_run_stop ls rest :
  Forall (λ l, ends_paragraph l = false) ls → ends_block rest → paragraph_run (ls ++ rest) = (ls, rest).
Proof.
  intros Hl Hr. induction Hl as [|l ls Hl _ IH]; cbn [app paragraph_run].
  - destruct Hr as [->|[r ->]]; done.
  - by rewrite Hl, IH.
Qed.

Lemma ends_paragraph_false l : ends_paragraph l = false →
  blank_line l = false ∧ parse_fence_open (trim l) = None ∧ starts_with_char c_greater (trim l) = false ∧
  starts_with colons (trim l) = false ∧ parse_atx_heading (trim l) = None ∧ is_list_start (trim l) = false.
Proof.
  unfold ends_paragraph, blank_line. rewrite !orb_false_iff, !bool_decide_eq_false, !eq_None_not_Some. tauto.
Qed.

Lemma recognise_paragraph line tail rest :
  ends_paragraph line = false → ends_block rest →
  (∀ next, head tail = Some next →
      parse_table_delimiter next = None ∧ parse_setext_underline (trim next) = None) →
  recognise line (tail ++ rest) = AtParagraph.
Proof.
  intros (Hb & Hf & Hq & Hr & Ha & Hl)%ends_paragraph_false Hrest Hnext.
  unfold recognise. rewrite Hf, Hq, Hr.
  assert (Hn : ∀ next more, tail ++ rest = next :: more →
    parse_table_delimiter next = None ∧ parse_setext_underline (trim next) = None).
  { intros next more E. destruct tail as [|l tail]; [|injection E as <- <-; by apply Hnext].
    destruct Hrest as [->|[r ->]]; [done|]. injection E as <- <-. done. }
  destruct (tail ++ rest) as [|next more]; simpl; [by rewrite Ha, Hl|].
  destruct (Hn next more eq_refl) as [-> Hs]. simpl. by rewrite Ha, Hl, Hs.
Qed.

Lemma paragraph_stands b text :
  blk_kind b = Paragraph text → paragraph_fine b text → ∃ line tail, stands b line tail.
Proof.
  intros Hk [Hfine Hl]. pose proof (serialize_plain b text Hfine) as Hs. destruct Hfine as (_ & Hu & Hm & Hcr).
  set (v := paragraph_visible_string text) in *.
  pose proof (join_split (chars v) []) as Hj. simpl in Hj. fold (split_lines (chars v)) in Hj.
  pose proof (λ l, split_lines_whole (chars v) l Hcr) as Hw.
  destruct (split_lines (chars v)) as [|line tail]; [done|]. destruct Hl as [He Hn].
  assert (Hnb : Forall (λ l, blank_line l = false) (line :: tail)).
  { eapply Forall_impl; [exact He|]. by intros l [? _]%ends_paragraph_false. }
  pose proof (Forall_inv He) as He1. exists line, tail. split.
  - destruct b as [bid be bo bv bk bm]. simpl in Hk. subst bk. unfold serialize_block. cbn [serialize_at]. by rewrite Hs.
  - apply Forall_forall. exact Hw.
  - intros El. by eapply nonblank_last.
  - by apply Forall_inv in Hnb.
  - intros nested rest c Hrest Hc. rewrite recognise_paragraph by (done || by intros next E; rewrite E in Hn). unfold build.
    change (line :: tail ++ rest) with ((line :: tail) ++ rest) in *. rewrite paragraph_run_stop by done.
    pose proof (byte_len_join (line :: tail) ltac:(done)) as Hb. pose proof (para_weight_le (line :: tail)).
    rewrite weight_app in Hc. rewrite next_op_id_spec by lia.
    destruct (parse_plain Paragraph (join_lines (line :: tail)) (mkOpId c 0) (c + 1)) as (text' & Hk' & Hv' & Hmk).
    { by rewrite Hj. }
    { lia. }
    destruct (parse_text_block _ _ _ _ _) as [b' c']. exists b', c'. split; [done|].
    simpl in Hk', Hmk. split; [|unfold plain_block; by rewrite Hk'].
    unfold content. rewrite Hk, Hk', Hv', Hj. f_equal. exact Hu.
Qed.

(** ** Headings *)

Lemma trimmed_parts s : trim s = s → trim_start s = s ∧ trim_end s = s.
Proof.
  intros Ht. assert (Hs : trim_start s = s).
  { destruct s as [|c s]; [done|]. apply trim_start_head. eapply trim_ends; [exact Ht|by left]. }
  split; [done|]. unfold trim in Ht. by rewrite Hs in Ht.
Qed.

Lemma trim_end_matches_id c s : last s ≠ Some c → trim_end_matches c s = s.
Proof.
  intros Hl. unfold trim_end_matches. destruct (reverse s) as [|d r] eqn:E.
  - apply (f_equal reverse) in E. rewrite reverse_involutive in E. by subst.
  - assert (Hs : s = reverse r ++ [d]) by (rewrite <-reverse_cons, <-E; by rewrite reverse_involutive).
    simpl. rewrite decide_False; [by rewrite <-E, reverse_involutive|].
    intros ->. apply Hl. rewrite Hs. apply last_snoc.
Qed.

(** What a heading looks like after trimming. *)
Definition heading_tail (v : ustring) : ustring := match v with [] => [] | _ => c_space :: v end.

Lemma trim_heading n v : 0 < n → trim v = v →
  trim (replicate n c_hash ++ c_space :: v) = replicate n c_hash ++ heading_tail v.
Proof.
  intros Hn Ht. destruct n as [|n]; [lia|]. destruct v as [|c v].
  - unfold trim. assert (E : trim_start (replicate (S n) c_hash ++ [c_space]) = replicate (S n) c_hash ++ [c_space]) by done.
    rewrite E, trim_end_blank by done. cbn [heading_tail]. rewrite app_nil_r.
    apply (trimmed_parts (replicate (S n) c_hash)). apply trim_id; [by intros ? [= <-]|].
    intros d Hd. by apply last_Some_elem_of, elem_of_replicate in Hd as [-> _].
  - cbn [heading_tail]. apply trim_id; [by intros ? [= <-]|]. intros d Hd. rewrite last_app, last_cons_cons in Hd.
    destruct (last (c :: v)) as [e|] eqn:E; [|by apply last_None in E]. injection Hd as ->.
    eapply trim_ends; [exact Ht|by right].
Qed.

Lemma parse_heading_line n v :
  1 ≤ n ≤ 6 → trim v = v → last v ≠ Some c_hash →
  parse_atx_heading (replicate n c_hash ++ heading_tail v) = Some (N.of_nat n, v).
Proof.
  intros Hn Ht Hl. unfold parse_atx_heading.
  rewrite leading_run_replicate by (by destruct v). rewrite Nat.min_l by lia. rewrite decide_False by lia.
  rewrite lookup_app_r, length_replicate, Nat.sub_diag by (by rewrite length_replicate).
  rewrite decide_False by (by destruct v). rewrite drop_app_length' by (by rewrite length_replicate).
  replace (bool_decide (heading_tail v ≠ []) && negb (starts_with_blank (heading_tail v))) with false
    by (by destruct v). f_equal. f_equal.
  destruct (trimmed_parts v Ht) as [Hs He].
  replace (trim_start (heading_tail v)) with v by (destruct v; [done|]; by rewrite <-Hs at 1).
  unfold strip_atx_closing_sequence. rewrite He, trim_end_matches_id by done. by rewrite decide_True.
Qed.

Lemma recognise_heading n v line rest :
  1 ≤ n ≤ 6 → trim v = v → last v ≠ Some c_hash → ends_block rest →
  trim line = replicate n c_hash ++ heading_tail v →
  recognise line rest = AtHeading (N.of_nat n) v rest.
Proof.
  intros Hn Ht Hl Hrest Htrim. unfold recognise. rewrite Htrim, parse_heading_line by done.
  replace (table_start line rest) with (@None (list ColumnDef * list ustring * list ustring))
    by (by destruct Hrest as [->|[r ->]]).
  destruct n as [|n]; [lia|]. done.
Qed.

Lemma heading_stands b level text :
  blk_kind b = Heading level text → heading_fine b level text → ∃ line tail, stands b line tail.
Proof.
  intros Hk (Hfine & Hlv & Ht & Hnl & Hl). pose proof (serialize_plain b text Hfine) as Hs.
  destruct Hfine as (_ & Hu & Hm & Hcr). set (v := chars (paragraph_visible_string text)) in *.
  set (n := N.to_nat level). set (line := replicate n c_hash ++ c_space :: v).
  assert (Htrim : trim line = replicate n c_hash ++ heading_tail v) by (apply trim_heading; [lia|done]).
  assert (Hsub : ∀ c, c ∈ line → c = c_hash ∨ c = c_space ∨ c ∈ v).
  { intros c [[-> _]%elem_of_replicate|[->|H]%elem_of_cons]%elem_of_app; tauto. }
  exists line, []. split.
  - destruct b as [bid be bo bv bk bm]. simpl in Hk. subst bk. unfold serialize_block. cbn [serialize_at].
    rewrite Hs. replace (N.min (N.max level 1) 6) with level by lia. done.
  - repeat constructor.
    + by intros [?|[?|?]]%Hsub.
    + intros c Hc ->. apply last_Some_elem_of in Hc. by destruct (Hsub _ Hc) as [?|[?|?]].
  - unfold line. simpl. intros [= E%app_nil]. by destruct E.
  - unfold blank_line. rewrite Htrim. apply bool_decide_false. destruct n as [|k] eqn:E; [lia|done].
  - intros nested rest c Hrest Hc. cbn [app] in *. rewrite weight_cons in Hc.
    rewrite (recognise_heading n v) by (done || lia). unfold build.
    assert (Hb : byte_len v ≤ byte_len line) by (unfold line; rewrite byte_len_app, byte_len_cons; lia).
    rewrite next_op_id_spec by lia.
    destruct (parse_plain (Heading (N.of_nat n)) v (mkOpId c 0) (c + 1)) as (text' & Hk' & Hv' & Hmk); [done|lia|].
    destruct (parse_text_block _ _ _ _ _) as [b' c']. exists b', c'. split; [done|].
    simpl in Hk', Hmk. split; [|unfold plain_block; by rewrite Hk'].
    unfold content. rewrite Hk, Hk', Hv'. unfold v. rewrite Hu. unfold n. by rewrite N2Nat.id.
Qed.
End flat.
