(* ===== verification/FlatProps.v ===== *)
(** * Flat documents survive printing and parsing

    The blocks of a flat document are printed behind one another, with a blank
    line between them; the parser finds the same lines and reads each group of
    lines as a block with the same content. *)

From S2P Require Import Prelude Core Sequence SequenceInv Mark Table Frontmatter Codec Text.
From S2P Require Import SequenceProps SessionWire TreeInv.
From S2P Require Import Draft Block Document.
From S2P Require Import Chars Inline Markdown Serialize ParseInv ParseProps.
From S2P Require Import TableTrip RoundTrip FlatTrip.

(** A block without nested blocks and without inline marks whose text reads as
    what it is; [RawBlock "x"], which would read as a paragraph, is none. *)
Definition flat_block (b : Block) : Prop :=
  match blk_kind b with
  | Paragraph text => paragraph_fine b text
  | Heading level text => heading_fine b level text
  | CodeFence style info text => fence_fine style info text
  | RawBlock raw => raw_fine raw
  | TableBlock t => table_fine t
  | ListBlock _ _ _ | BlockQuote _ => False
  end.

(** The text starts with a line of three dashes, which opens a frontmatter. *)
Definition opens_frontmatter (text : ustring) : Prop :=
  match split_lines text with line :: _ => trim line = dashes | [] => False end.

#[export] Instance paragraph_fine_dec b text : Decision (paragraph_fine b text).
Proof. unfold paragraph_fine. destruct (split_lines _) as [|line [|next tail]]; apply _. Defined.
#[export] Instance heading_fine_dec b level text : Decision (heading_fine b level text).
Proof. apply _. Defined.
#[export] Instance fence_fine_dec style info text : Decision (fence_fine style info text).
Proof. destruct info; apply _. Defined.
#[export] Instance raw_fine_dec raw : Decision (raw_fine raw).
Proof. unfold raw_fine. destruct (split_lines _); apply _. Defined.
#[export] Instance table_fine_dec t : Decision (table_fine t).
Proof. apply _. Defined.
#[export] Instance flat_block_dec b : Decision (flat_block b).
Proof. unfold flat_block. destruct (blk_kind b); apply _. Defined.
#[export] Instance opens_frontmatter_dec text : Decision (opens_frontmatter text).
Proof. unfold opens_frontmatter. destruct (split_lines text); apply _. Defined.

(** Groups of lines with a blank line between them. *)
Fixpoint spread (groups : list (list ustring)) : list ustring :=
  match groups with
  | [] => []
  | [g] => g
  | g :: groups => g ++ [] :: spread groups
  end.

Lemma spread_cons g groups : ∃ rest, spread (g :: groups) = g ++ rest ∧ ends_block rest ∧
  rest = match groups with [] => [] | _ => [] :: spread groups end.
Proof.
  destruct groups as [|g' groups]; [exists []; by rewrite app_nil_r; split_and!; [|left|]|].
  exists ([] :: spread (g' :: groups)). split_and!; [done|right; eauto|done].
Qed.

Lemma spread_ne groups : groups ≠ [] → Forall (λ g, g ≠ []) groups → spread groups ≠ [].
Proof.
  destruct groups as [|g [|g' groups]]; [done|by intros _ ?%Forall_inv|]. intros _ _ [_ ?]%app_nil. done.
Qed.

Lemma join_spread groups : Forall (λ g, g ≠ []) groups →
  join [newline; newline] (join_lines <$> groups) = join_lines (spread groups).
Proof.
  induction groups as [|g [|g' groups] IH]; intros Hg; [done|done|].
  apply Forall_cons in Hg as [Hg Hgs]. specialize (IH Hgs).
  change (join [newline; newline] (join_lines <$> g :: g' :: groups)) with
    (join_lines g ++ [newline; newline] ++ join [newline; newline] (join_lines <$> g' :: groups)).
  rewrite IH. change (spread (g :: g' :: groups)) with (g ++ [[]] ++ spread (g' :: groups)).
  pose proof (spread_ne (g' :: groups) ltac:(done) Hgs) as Hne.
  rewrite !join_lines_app by done. done.
Qed.

Lemma spread_forall (P : ustring → Prop) groups : P [] → Forall (Forall P) groups → Forall P (spread groups).
Proof.
  intros Hp. induction 1 as [|g groups Hg Hgs IH]; [constructor|].
  destruct groups as [|g' groups]; [done|]. apply Forall_app. split; [done|]. by constructor.
Qed.

Lemma spread_last groups : Forall (λ g, g ≠ [] ∧ last g ≠ Some []) groups → last (spread groups) ≠ Some [].
Proof.
  induction 1 as [|g groups [Hg Hl] Hgs IH]; [done|]. destruct groups as [|g' groups]; [done|].
  change (spread (g :: g' :: groups)) with (g ++ [] :: spread (g' :: groups)).
  rewrite last_app. destruct (spread (g' :: groups)) as [|x r] eqn:E; [|by rewrite last_cons_cons; destruct (last (x :: r)) eqn:?].
  exfalso. eapply (spread_ne (g' :: groups)); [done| |exact E]. eapply Forall_impl; [exact Hgs|]. by intros ? [? _].
Qed.

Lemma head_spread g groups line : head g = Some line → head (spread (g :: groups)) = Some line.
Proof. intros Hg. destruct (spread_cons g groups) as (rest & -> & _). by destruct g. Qed.

(** The first line of a text joined from lines. *)
Lemma split_first line tail : newline ∉ line → head (split_lines (join_lines (line :: tail))) = Some line.
Proof.
  intros Hl. unfold split_lines.
  assert (H : ∀ s rest acc, newline ∉ s →
    split_lines_from (s ++ rest) acc = split_lines_from rest (acc ++ s)).
  { intros s rest. induction s as [|c s IH]; intros acc Hs; [by rewrite app_nil_r|].
    apply not_elem_of_cons in Hs as [Hc Hs]. simpl. rewrite decide_False by done.
    rewrite IH by done. by rewrite <-(assoc_L (++)). }
  destruct tail as [|l tail].
  - unfold join_lines. simpl. rewrite <-(app_nil_r line) at 1. rewrite H by done. done.
  - change (join_lines (line :: l :: tail)) with (line ++ newline :: join_lines (l :: tail)).
    rewrite H by done. simpl. done.
Qed.

Section flat_document.
Context (inc : bool) (graphemes : string → list string).
Hypothesis graphemes_concat : ∀ text, string_concat (graphemes text) = text.
Hypothesis graphemes_nonempty : ∀ text, Forall (λ g, g ≠ EmptyString) (graphemes text).

(** The lines [ls] are the print of [b]. *)
Definition prints (b : Block) (ls : list ustring) : Prop :=
  ∃ line tail, ls = line :: tail ∧ stands inc graphemes b line tail.

Lemma flat_prints b : flat_block b → ∃ ls, prints b ls.
Proof.
  unfold flat_block, prints. intros H.
  assert (Hs : ∃ line tail, stands inc graphemes b line tail); [|destruct Hs as (line & tail & ?); eauto].
  destruct (blk_kind b) as [text|level text| |style info text| |raw|t] eqn:E; try done.
  - by eapply paragraph_stands.
  - by eapply heading_stands.
  - by eapply fence_stands.
  - by eapply raw_stands.
  - by eapply table_stands.
Qed.

Lemma flat_groups bs : Forall flat_block bs → ∃ groups, Forall2 prints bs groups.
Proof.
  induction 1 as [|b bs Hb _ [groups IH]]; [by exists []|].
  destruct (flat_prints b Hb) as [ls Hls]. exists (ls :: groups). by constructor.
Qed.

Lemma prints_facts bs groups : Forall2 prints bs groups →
  serialize_block <$> bs = join_lines <$> groups ∧ Forall (λ g, g ≠ [] ∧ last g ≠ Some []) groups ∧
  Forall (Forall whole_line) groups.
Proof.
  induction 1 as [|b g bs groups (line & tail & -> & Hst) _ (IH1 & IH2 & IH3)]; [done|]. split_and!.
  - rewrite !fmap_cons, IH1. f_equal. by apply st_text in Hst.
  - constructor; [|done]. split; [done|by apply st_last in Hst].
  - constructor; [by apply st_whole in Hst|done].
Qed.

(** The parser of quoted lines of one fuel below. *)
Lemma nested_total fuel size : size ≤ fuel →
  nested_ok size (λ quote_lines counter, '(children, _, counter) ← parse_blocks inc graphemes fuel quote_lines 0 counter;
    Some (children, counter)).
Proof.
  intros Hs ls c Hl Hc.
  destruct (parse_blocks_total inc graphemes graphemes_concat graphemes_nonempty fuel ls 0 c ltac:(lia) Hc)
    as (bs & spans & c' & -> & Hbs & Hc' & _). by exists bs, c'.
Qed.

Lemma parse_flat bs groups : Forall2 prints bs groups → ∀ fuel index c,
  line_size (spread groups) < fuel → (c + N.of_nat (weight (spread groups)) ≤ u64_max)%N →
  ∃ blocks spans c', parse_blocks inc graphemes fuel (spread groups) index c = Some (blocks, spans, c') ∧
    content <$> blocks = content <$> bs ∧ Forall plain_block blocks.
Proof.
  induction 1 as [|b g bs groups (line & tail & -> & Hst) Hp IH]; intros fuel index c Hf Hc.
  { destruct fuel; [lia|]. by exists [], [], c. }
  destruct (spread_cons (line :: tail) groups) as (rest & Hsp & Hrest & Er). rewrite Hsp in Hf, Hc |- *.
  destruct fuel as [|fuel]; [lia|]. rewrite <-app_comm_cons in Hf, Hc |- *.
  pose proof (st_blank _ _ _ _ _ Hst) as Hb. cbn [parse_blocks]. rewrite Hb.
  set (nested := λ quote_lines counter, _).
  destruct (st_build _ _ _ _ _ Hst nested rest c Hrest Hc) as (b' & c1 & Hbuild & Hcont & Hplain).
  destruct (build_ok inc graphemes graphemes_concat graphemes_nonempty nested line (tail ++ rest) c Hb Hc)
    as (b2 & rest2 & c2 & Hbuild2 & _ & _ & _ & Hw); [by apply nested_total; lia|].
  rewrite Hbuild in Hbuild2 |- *. injection Hbuild2 as <- <- <-. cbn [mbind option_bind].
  assert (Hsz : line_size rest < line_size (line :: tail ++ rest)).
  { rewrite app_comm_cons, line_size_app. unfold line_size at 2. csimpl. lia. }
  set (next := index + _).
  assert (H : ∃ blocks spans c', parse_blocks inc graphemes fuel rest next c1 = Some (blocks, spans, c') ∧
    content <$> blocks = content <$> bs ∧ Forall plain_block blocks).
  { destruct groups as [|g' groups].
    - rewrite Er. destruct fuel; [lia|]. apply Forall2_nil_inv_r in Hp as ->. by exists [], [], c1.
    - subst rest. destruct fuel as [|fuel]; [lia|]. cbn [parse_blocks].
      rewrite weight_cons in Hw. apply IH; [|lia]. unfold line_size in Hsz, Hf |- *. csimpl in *. lia. }
  destruct H as (blocks & spans & c' & -> & Hbs & Hps). cbn [mbind option_bind]. eexists _, _, _. split; [done|].
  rewrite !fmap_cons. split; [by f_equal|by constructor].
Qed.

Lemma no_frontmatter_lines text : ¬ opens_frontmatter text →
  ∀ ls, head ls = head (split_lines text) → parse_frontmatter ls = Some (None, 0).
Proof.
  intros Hno [|first rest] Hh; [done|]. unfold parse_frontmatter. rewrite decide_False; [done|].
  intros Ht. apply Hno. unfold opens_frontmatter. destruct (split_lines text); [done|]. by injection Hh as ->.
Qed.

(** Printing and parsing, with what else is known of the parsed blocks. *)
Lemma flat_parse d :
  doc_frontmatter d = None → Forall flat_block (blocks_in_order d) →
  let text := join [newline; newline] (serialize_block <$> blocks_in_order d) in
  ¬ opens_frontmatter text → (N.of_nat (3 * byte_len text) < u64_max)%N →
  serialize_with_config (mkConfig Exact false) d = Some text ∧
  ∃ d', parse inc graphemes text = Some d' ∧ doc_frontmatter d' = None ∧
    content <$> blocks_in_order d' = content <$> blocks_in_order d ∧ Forall plain_block (blocks_in_order d').
Proof.
  intros Hfm Hflat text Hopen Hsz.
  split; [unfold serialize_with_config; rewrite Hfm; simpl; by destruct (doc_source d)|].
  destruct (flat_groups _ Hflat) as [groups Hg]. destruct (prints_facts _ _ Hg) as (Htext & Hlast & Hwhole).
  assert (Hls : sl_text <$> source_lines text = spread groups).
  { unfold text. rewrite Htext, join_spread by (eapply Forall_impl; [exact Hlast|]; by intros ? [? _]).
    apply lines_of_join; [by apply spread_forall; [split; [apply not_elem_of_nil|]|]|by apply spread_last]. }
  assert (Hfmt : parse_frontmatter (sl_text <$> source_lines text) = Some (None, 0)).
  { rewrite Hls. destruct Hg as [|b g bs groups (line & tail & -> & Hst) Hg]; [done|].
    apply (no_frontmatter_lines _ Hopen). rewrite (head_spread _ _ line) by done. unfold text.
    rewrite Htext, join_spread by (eapply Forall_impl; [exact Hlast|]; by intros ? [? _]).
    destruct (spread_cons (line :: tail) groups) as (rest & -> & _). rewrite <-app_comm_cons.
    symmetry. apply split_first. by apply st_whole, Forall_inv in Hst as [? _]. }
  destruct (parse_spec inc graphemes graphemes_concat graphemes_nonempty text None 0 Hsz Hfmt)
    as (blocks & spans & c & Hparse & (line_spans & Hblocks) & Hok & _ & _).
  eexists. split; [exact Hparse|]. rewrite drop_0, Hls in Hblocks.
  assert (Hw : weight (spread groups) ≤ 3 * byte_len text).
  { rewrite <-Hls, source_lines_at. destruct (split_inclusive_spec text []) as [Hj Hne].
    pose proof (weight_lines 0 _ Hne) as H. by rewrite Hj in H. }
  destruct (parse_flat _ _ Hg (block_fuel (spread groups)) 0 1) as (blocks' & spans' & c' & E & Hc & Hplain).
  { unfold block_fuel, line_size. lia. }
  { lia. }
  rewrite Hblocks in E. injection E as <- <- <-.
  assert (Hiter : sequence_iter (child_sequence blocks) = blocks) by (by eapply child_sequence_iter).
  unfold blocks_in_order at 1 3, doc_blocks. cbn. rewrite Hiter. by split_and!.
Qed.

(** C20: Printing and parsing a document of plain blocks.  The document has no
    frontmatter and its blocks have the form in which they would be read
    ([flat_block]): headings and paragraphs without inline marks or characters
    that read as marks, a paragraph without blank lines and without a line that
    starts another block or an underline, a heading of one line without white
    space around it or a hash at its end; code fences that drafts accept, whose
    info string has no white space around it; tables with a column whose cells
    have one line and no white space around it; raw blocks that start with three
    colons and have no blank line (any other one reads as something else: [x]
    as a paragraph).  The text has valid UTF-8 and no carriage return, does not
    start with a line of three dashes, and three times its size fits in the
    counters.  Then it is printed from its blocks; the parser accepts the text and
    builds a document with the same blocks in the same order: the same text,
    heading levels, fences, columns, alignments and cells. *)
Theorem flat_document_roundtrip d :
  doc_frontmatter d = None → Forall flat_block (blocks_in_order d) →
  let text := join [newline; newline] (serialize_block <$> blocks_in_order d) in
  ¬ opens_frontmatter text → (N.of_nat (3 * byte_len text) < u64_max)%N →
  serialize_with_config (mkConfig Exact false) d = Some text ∧
  ∃ d', parse inc graphemes text = Some d' ∧
    content <$> blocks_in_order d' = content <$> blocks_in_order d.
Proof.
  intros Hfm Hflat text Hopen Hsz. destruct (flat_parse d Hfm Hflat Hopen Hsz) as (Hs & d' & Hp & _ & Hc & _).
  split; [exact Hs|]. by exists d'.
Qed.
End flat_document.

(** A document with a heading, two lines of text, a fence, a table and a raw
    block. *)
Definition sample_text : string :=
  String.concat (String (Ascii.ascii_of_nat 10) EmptyString)
    ["## Title"; ""; "plain text"; "on two lines"; ""; "```rust"; "let x = 1;"; ""; "```"; "";
     "| a | b\| c |"; "| --- | :---: |"; "| 1 |  |"; ""; "::: note"; "inside"]%string.
Definition sample : Document :=
  default (mkDocument None (indexed_new (child_sequence [])) None None) (parse true characters (chars sample_text)).

Lemma flat_document_roundtrip_witness :
  length (blocks_in_order sample) = 5 ∧
  ∃ d', parse true characters (chars sample_text) = Some d' ∧
    content <$> blocks_in_order d' = content <$> blocks_in_order sample.
Proof.
  split; [by vm_compute|].
  destruct (flat_document_roundtrip true characters characters_concat characters_nonempty sample) as [_ H].
  - by vm_compute.
  - apply (bool_decide_unpack _). by vm_compute.
  - apply (bool_decide_unpack _). by vm_compute.
  - by vm_compute.
  - exact H.
Defined.
