(* ===== verification/Ingest.v ===== *)
(** * Reading a file into a session

    Models the ingestion of [src/src/filesync/session.rs]: the parsed document is
    inserted into an empty session, or compared with the document of the session
    level by level and turned into edits: blocks are matched, deleted, moved,
    inserted; texts are aligned by graphemes; tables are aligned by columns and
    rows.

    [insert_one] and [sync_tree] recurse over parsed blocks; in the model the
    recursive calls of the children are passed as a list of computations. *)

From S2P Require Import Prelude Core Sequence Mark MarkOps Table Diff Text Frontmatter Codec Draft.
From S2P Require Import Block Document Sync SessionWire Session Match.
From S2P Require Import Chars Inline Markdown Serialize.

(** ** The monad *)

(** The errors of [VaultError] that ingestion raises, and a panic. *)
Inductive VaultFailure :=
  | VaultSession (e : SessionError)
  | UnsupportedIngestBlock (what : string)
  | VaultPanic.

Definition VM (A : Type) : Type := CollaborativeDocument → CollaborativeDocument * (VaultFailure + A).

#[export] Instance VM_ret : MRet VM := λ A x s, (s, inr x).
#[export] Instance VM_bind : MBind VM := λ A B f m s,
  match m s with
  | (s, inl e) => (s, inl e)
  | (s, inr x) => f x s
  end.

(** [op.map_err(session_err)?]. *)
Definition sess {A} (m : SM A) : VM A := λ s,
  match m s with
  | (s, inl e) => (s, inl (VaultSession e))
  | (s, inr x) => (s, inr x)
  end.
Definition fail {A} (e : VaultFailure) : VM A := λ s, (s, inl e).
Definition or_fail {A} (e : VaultFailure) (o : option A) : VM A :=
  match o with Some x => mret x | None => fail e end.

(** [for x in l { acc = f(acc, x)?; }]. *)
Definition vm_fold {A S} (f : S → A → VM S) : list A → S → VM S :=
  fix go l s := match l with
                | [] => mret s
                | x :: l => s ← f s x; go l s
                end.

(** ** Marks *)

Record MarkSpec := mkMarkSpec {
  msp_id : OpId;
  msp_kind : MarkKind;
  msp_start : nat;
  msp_end : nat;
  msp_attrs : gmap string MarkValue;
}.

Definition mark_specs (block : Block) : list MarkSpec :=
  match block_text_seq (blk_kind block) with
  | None => []
  | Some text =>
    (λ '(i, start, stop), mkMarkSpec (mi_id i) (mi_kind i) start stop (Lww.get <$> mi_attrs i))
      <$> resolved_intervals (blk_marks block) (paragraph_visible_ids text)
  end.

(** The derived [Ord] of [MarkValue], of pairs and of [BTreeMap]s. *)
#[export] Instance MarkValue_ord : Ord MarkValue := λ a b,
  match a, b with
  | MarkString x, MarkString y => ocmp x y
  | MarkString _, MarkBool _ => Lt
  | MarkBool _, MarkString _ => Gt
  | MarkBool x, MarkBool y => N.compare (if x then 1 else 0) (if y then 1 else 0)
  end.
Fixpoint list_cmp `{Ord A} (a b : list A) : comparison :=
  match a, b with
  | [], [] => Eq
  | [], _ :: _ => Lt
  | _ :: _, [] => Gt
  | x :: a, y :: b => cmp_then (ocmp x y) (list_cmp a b)
  end.
#[export] Instance attr_ord : Ord (string * MarkValue) := lexico_cmp fst snd.

Abbreviation MarkMeaning := (MarkKind * nat * nat * gmap string MarkValue)%type (only parsing).
Definition meaning (m : MarkSpec) : MarkMeaning := (msp_kind m, msp_start m, msp_end m, msp_attrs m).
Definition meaning_cmp (a b : MarkMeaning) : comparison :=
  let '(ka, sa, ea, aa) := a in
  let '(kb, sb, eb, ab) := b in
  cmp_then (Nat.compare sa sb) (cmp_then (Nat.compare ea eb)
    (cmp_then (ocmp ka kb) (list_cmp (btree_iter aa) (btree_iter ab)))).
Definition meaning_le (a b : MarkMeaning) : Prop := meaning_cmp a b ≠ Gt.
#[export] Instance meaning_le_dec : RelDecision meaning_le.
Proof. intros a b. unfold meaning_le. solve_decision. Defined.

Definition mark_semantics (specs : list MarkSpec) : list MarkMeaning :=
  merge_sort meaning_le (meaning <$> specs).

Section ingest.
Context (sequence_incremental : bool).
(** [str::graphemes(true)], [OpCodec::encode], [format!("{:?}")] of an info
    string, and the order in which two hash sets are iterated. *)
Context (graphemes : string → list string).
Context (encode : Envelope → string + list Byte.byte).
Context (debug_info : option string → string).
Context (key_order : gset ustring → list ustring) (id_order : gset BlockId → list BlockId).

Abbreviation insert_block_in := (insert_block_in sequence_incremental graphemes encode).
Abbreviation insert_paragraph_in := (insert_paragraph_in sequence_incremental graphemes encode).
Abbreviation session_insert_text := (session_insert_text sequence_incremental graphemes encode).
Abbreviation session_delete_text := (session_delete_text sequence_incremental graphemes encode).
Abbreviation session_set_mark := (session_set_mark sequence_incremental graphemes encode).
Abbreviation session_remove_mark := (session_remove_mark sequence_incremental graphemes encode).

(** A lookup in the document of the session. *)
Definition find_by_id (id : BlockId) : VM (option Block) := sess (query (find_block_by_id id)).

Definition set_spec (block_id : BlockId) (m : MarkMeaning) : VM nat :=
  let '(kind, start, stop, attrs) := m in
  _ ← sess (session_set_mark block_id start stop kind attrs); mret 1.

Definition apply_parsed_marks (parsed : Block) (block_id : BlockId) : VM nat :=
  vm_fold (λ ops m, n ← set_spec block_id (meaning m); mret (ops + n)) (mark_specs parsed) 0.

(** ** Inserting a tree *)

(** The insertion of a block under a parent behind a sibling: its element and
    the number of operations. *)
Definition Insertion : Type := option OpId → option OpId → VM (OpId * nat).

Definition insert_tree (parent : option OpId) (blocks : list Insertion) : VM nat :=
  '(ops, _) ← vm_fold (λ '(ops, after) insert,
      '(elem, n) ← insert parent after;
      mret (ops + n, Some elem)) blocks (0, None : option OpId);
  mret ops.

(** The new item with the id of counter [base + 1 + i] and no children. *)
Definition empty_item (p : PeerId) (base : N) (i : nat) (item : ListItem) : OpId * ListItem :=
  let elem := mkOpId (u64_wrapping_add base (1 + N.of_nat i)) p in
  (elem, mkItem (block_id_from_op elem) elem (it_task item) elem StateVectorOps.new
           StateVectorOps.new sequence_new).

Fixpoint insert_one (block : Block) (parent after : option OpId) : VM (OpId * nat) :=
  match block with
  | mkBlock _ _ _ _ kind _ =>
    match kind with
    | Paragraph text =>
      let body := paragraph_visible_string text in
      let n := if decide (body = EmptyString) then 1 else 2 in
      id ← sess (insert_paragraph_in parent after body);
      marks ← apply_parsed_marks block (block_id_from_op id);
      mret (id, n + marks)
    | Heading level text =>
      let body := paragraph_visible_string text in
      id ← sess (insert_block_in parent after (Heading level sequence_new));
      n ← (if decide (body = EmptyString) then mret 1
           else _ ← sess (session_insert_text (block_id_from_op id) 0 body); mret 2);
      marks ← apply_parsed_marks block (block_id_from_op id);
      mret (id, n + marks)
    | ListBlock style items _ =>
      p ← sess (gets s_peer);
      base ← sess (gets (λ s, counter (peek_next_id s)));
      let empty := imap (empty_item p base) (sequence_iter items) in
      list_elem ← sess (insert_block_in parent after (ListBlock style (from_ordered empty) []));
      let kids := iter_map (λ item, match item with
                    mkItem _ _ _ _ _ _ children => iter_map insert_one children end) items in
      n ← vm_fold (λ n (x : list Insertion * OpId),
            nested ← insert_tree (Some x.2) x.1; mret (n + nested)) (zip kids empty.*1) 1;
      mret (list_elem, n)
    | CodeFence style info text =>
      id ← sess (insert_block_in parent after (CodeFence style info text));
      mret (id, 1)
    | RawBlock raw =>
      id ← sess (insert_block_in parent after (RawBlock raw));
      mret (id, 1)
    | BlockQuote children =>
      q ← sess (insert_block_in parent after (BlockQuote sequence_new));
      nested ← insert_tree (Some q) (iter_map insert_one children);
      mret (q, 1 + nested)
    | TableBlock table =>
      let cols := (λ c, mkColumnDef (Lww.get (column_alignment c))) <$> columns_in_order table in
      id ← sess (insert_table_in sequence_incremental graphemes encode parent after cols
                   (row_cells table (header_row_id table)));
      '(_, ops) ← vm_fold (λ (acc : option OpId * nat) row,
          elem ← sess (insert_table_row sequence_incremental graphemes encode (block_id_from_op id)
                         acc.1 (row_cells table (row_id row)));
          mret (Some elem, acc.2 + 1)) (sequence_iter (rows table)) (None, 1);
      mret (id, ops)
    end
  end.

(** ** Frontmatter *)

Definition set_field (key : ustring) (value : option ustring) : VM unit :=
  _ ← sess (session_set_frontmatter_field sequence_incremental graphemes encode key value); mret tt.

Definition sync_frontmatter (parsed : option Frontmatter) : VM nat :=
  current ← sess (gets (λ s, doc_frontmatter (s_document s)));
  match current, parsed with
  | None, Some fm =>
    _ ← sess (initialize_frontmatter sequence_incremental graphemes encode fm); mret 1
  | Some current, Some desired =>
    if is_structured current && is_structured desired then
      let current := btree_collect (fm_entries current) in
      let desired := btree_collect (fm_entries desired) in
      vm_fold (λ ops key,
        let old := mjoin (current !! key) in
        let new := mjoin (desired !! key) in
        if decide (old = new) then mret ops
        else _ ← set_field key new; mret (ops + 1)) (key_order (dom current ∪ dom desired)) 0
    else mret 0
  | Some current, None =>
    if is_structured current then
      vm_fold (λ ops key, _ ← set_field key None; mret (ops + 1)) (fm_entries current).*1 0
    else mret 0
  | None, None => mret 0
  end.

(** ** Texts *)

(** [old_to_new]: where the kept graphemes go. *)
Definition old_to_new (steps : list GraphemeStep) : gmap nat nat :=
  btree_collect (omap (λ step, match step with StepEqual i j => Some (i, j) | _ => None end) steps).

(** The current marks, moved along with the kept graphemes. *)
Definition project_current (moved : gmap nat nat) (m : MarkSpec) : option MarkMeaning :=
  let mapped := omap (λ i, moved !! i) (seq (msp_start m) (msp_end m - msp_start m)) in
  first ← head mapped;
  last ← last mapped;
  Some (msp_kind m, first, S last, msp_attrs m).

(** The state of the insertion loop. *)
Record InsertRun := mkInsertRun {
  ir_live_pos : nat;
  ir_run : string;
  ir_run_at : option nat;
  ir_ops : nat;
}.

(** One grapheme of the new text: it extends the run to insert, or it is there
    already and the run in front of it is inserted. *)
Definition insert_run_step (block_id : BlockId) (insert_set : gset nat) (r : InsertRun)
    (x : nat * string) : VM InsertRun :=
  let '(j, g) := x in
  if decide (j ∈ insert_set) then
    mret (mkInsertRun (ir_live_pos r) (String.append (ir_run r) g)
            (Some (default (ir_live_pos r) (ir_run_at r))) (ir_ops r))
  else
    match ir_run_at r with
    | Some at_ =>
      _ ← sess (session_insert_text block_id at_ (ir_run r));
      mret (mkInsertRun (at_ + length (graphemes (ir_run r)) + 1) EmptyString None (ir_ops r + 1))
    | None => mret (mkInsertRun (ir_live_pos r + 1) (ir_run r) None (ir_ops r))
    end.

Definition insert_runs (block_id : BlockId) (steps : list GraphemeStep) (new_g : list string)
    (ops : nat) : VM nat :=
  r ← vm_fold (insert_run_step block_id (list_to_set (insert_new_indices steps)))
        (imap pair new_g) (mkInsertRun 0 EmptyString None ops);
  match ir_run_at r with
  | Some at_ => _ ← sess (session_insert_text block_id at_ (ir_run r)); mret (ir_ops r + 1)
  | None => mret (ir_ops r)
  end.

Definition apply_paragraph_text_diff (block_id : BlockId) (old_text new_text : string)
    (desired_block : Block) : VM nat :=
  let old_g := graphemes old_text in
  let new_g := graphemes new_text in
  let desired_marks := mark_specs desired_block in
  current ← find_by_id block_id;
  let current_marks := default [] (mark_specs <$> current) in
  if decide (old_g = new_g ∧ mark_semantics current_marks = mark_semantics desired_marks)
  then mret 0 else
  let steps := lcs_steps old_g new_g in
  let projected := if decide (desired_marks = []) then omap (project_current (old_to_new steps)) current_marks
                   else meaning <$> desired_marks in
  ops ← vm_fold (λ ops i, _ ← sess (session_delete_text block_id i 1); mret (ops + 1))
          (delete_indices_high_to_low steps) 0;
  ops ← insert_runs block_id steps new_g ops;
  edited ← find_by_id block_id;
  let active_ids := default [] ((λ b, mi_id <$> active_intervals (blk_marks b)) <$> edited) in
  ops ← vm_fold (λ ops id, _ ← sess (session_remove_mark block_id id); mret (ops + 1)) active_ids ops;
  vm_fold (λ ops (m : MarkMeaning),
    let '(_, start, stop, _) := m in
    if decide (start < stop ∧ stop ≤ length new_g)
    then n ← set_spec block_id m; mret (ops + n) else mret ops) projected ops.

(** ** Tables *)

Definition table_of (block : option Block) : option Table :=
  b ← block; match blk_kind b with TableBlock t => Some t | _ => None end.

(** Alignment and header of a column that stays; [parsed_header[index]] panics
    out of range. *)
Definition sync_column (tid : BlockId) (current : Table) (parsed_header : list string) (ops : nat)
    (x : nat * (TableColumn * TableColumn)) : VM nat :=
  let '(index, (old, new)) := x in
  ops ← (if decide (Lww.get (column_alignment old) = Lww.get (column_alignment new)) then mret ops
         else _ ← sess (set_table_column_alignment sequence_incremental graphemes encode tid
                          (column_id old) (Lww.get (column_alignment new)));
              mret (ops + 1));
  header ← or_fail VaultPanic (parsed_header !! index);
  if decide (default EmptyString (cell_value current (header_row_id current) (column_id old)) = header)
  then mret ops
  else _ ← sess (session_set_table_cell sequence_incremental graphemes encode tid tid (column_id old) header);
       mret (ops + 1).

Definition append_column (tid : BlockId) (parsed_header : list string)
    (acc : option OpId * nat) (x : nat * TableColumn) : VM (option OpId * nat) :=
  let '(index, column) := x in
  header ← or_fail VaultPanic (parsed_header !! index);
  elem ← sess (insert_table_column sequence_incremental graphemes encode tid acc.1
                 (Lww.get (column_alignment column)) header);
  mret (Some elem, acc.2 + 1).

Definition sync_columns (tid : BlockId) (current parsed : Table) : VM nat :=
  let current_columns := columns_in_order current in
  let parsed_columns := columns_in_order parsed in
  let parsed_header := row_cells parsed (header_row_id parsed) in
  ops ← vm_fold (sync_column tid current parsed_header)
          (imap pair (zip current_columns parsed_columns)) 0;
  ops ← vm_fold (λ ops column,
          _ ← sess (delete_table_column sequence_incremental graphemes encode tid (column_id column));
          mret (ops + 1)) (drop (length parsed_columns) current_columns) ops;
  let column_after := column_elem_id <$>
    current_columns !! (Nat.min (length parsed_columns) (length current_columns) - 1) in
  '(_, ops) ← vm_fold (append_column tid parsed_header)
                (drop (length current_columns) (imap pair parsed_columns)) (column_after, ops);
  mret ops.

(** The first loop over the new rows: each takes the first old row with the same
    cells that is not taken yet. *)
Definition match_row (current parsed : Table) (acc : gset RowId * list (option RowId)) (new_row : TableRow) :
    gset RowId * list (option RowId) :=
  let '(used_old, mapping) := acc in
  match list_find (λ old_row, (row_id old_row ∉ used_old) ∧
          row_cells current (row_id old_row) = row_cells parsed (row_id new_row)) (rows_in_order current) with
  | Some (_, old_row) => ({[row_id old_row]} ∪ used_old, mapping ++ [Some (row_id old_row)])
  | None => (used_old, mapping ++ [None])
  end.

(** The second loop: the remaining rows are paired by position and rewritten. *)
Definition rewrite_row (tid : BlockId) (current parsed : Table)
    (acc : gset RowId * list (option RowId) * nat) (x : TableRow * nat) :
    VM (gset RowId * list (option RowId) * nat) :=
  let '(used_old, mapping, ops) := acc in
  let '(old_row, new_index) := x in
  new_row ← or_fail VaultPanic (rows_in_order parsed !! new_index);
  let values := row_cells parsed (row_id new_row) in
  ops ← (if decide (row_cells current (row_id old_row) = values) then mret ops
         else _ ← sess (set_table_row_cells sequence_incremental graphemes encode tid
                          (row_elem_id old_row) values);
              mret (ops + 1));
  mret ({[row_id old_row]} ∪ used_old, <[new_index := Some (row_id old_row)]> mapping, ops).

(** The element of the first of the given rows that the table still has. *)
Fixpoint find_row_elem (tid : BlockId) (row_ids : list RowId) : VM (option OpId) :=
  match row_ids with
  | [] => mret None
  | id :: row_ids =>
    block ← find_by_id tid;
    match table_of block ≫= λ t, row_by_id t id with
    | Some row => mret (Some (row_elem_id row))
    | None => find_row_elem tid row_ids
    end
  end.

Definition append_row (tid : BlockId) (parsed : Table) (acc : list (option RowId) * nat)
    (new_index : nat) : VM (list (option RowId) * nat) :=
  let '(mapping, ops) := acc in
  after ← find_row_elem tid (omap id (reverse (take new_index mapping)));
  new_row ← or_fail VaultPanic (rows_in_order parsed !! new_index);
  elem ← sess (insert_table_row sequence_incremental graphemes encode tid after
                 (row_cells parsed (row_id new_row)));
  mret (<[new_index := Some (block_id_from_op elem)]> mapping, ops + 1).

(** The last loop: each row is moved behind the previous one. *)
Definition place_row (tid : BlockId) (acc : option OpId * nat) (id : RowId) : VM (option OpId * nat) :=
  let '(after, ops) := acc in
  block ← find_by_id tid;
  found ← or_fail (UnsupportedIngestBlock "row disappeared")
    (t ← table_of block;
     let l := rows_in_order t in
     i ← position (λ row, bool_decide (row_id row = id)) l;
     row ← l !! i;
     Some (row_elem_id row, match i with 0 => None | S i => row_elem_id <$> l !! i end));
  if decide (found.2 = after) then mret (Some found.1, ops)
  else
    _ ← sess (move_table_row sequence_incremental graphemes encode tid id after);
    block ← find_by_id tid;
    mret (row_elem_id <$> (table_of block ≫= λ t, row_by_id t id), ops + 1).

Definition sync_rows (tid : BlockId) (current parsed : Table) (ops : nat) : VM nat :=
  let old_rows := rows_in_order current in
  let '(used_old, mapping) := fold_left (match_row current parsed) (rows_in_order parsed) (∅, []) in
  let remaining_old := filter (λ row, row_id row ∉ used_old) old_rows in
  let remaining_new := omap (λ x : nat * option RowId, match x.2 with None => Some x.1 | Some _ => None end)
                         (imap pair mapping) in
  '(used_old, mapping, ops) ← vm_fold (rewrite_row tid current parsed) (zip remaining_old remaining_new)
                                (used_old, mapping, ops);
  ops ← vm_fold (λ ops row,
          _ ← sess (delete_table_row sequence_incremental graphemes encode tid (row_elem_id row));
          mret (ops + 1)) (filter (λ row, row_id row ∉ used_old) old_rows) ops;
  '(mapping, ops) ← vm_fold (append_row tid parsed) (drop (length remaining_old) remaining_new) (mapping, ops);
  '(_, ops) ← vm_fold (place_row tid) (omap id mapping) (None, ops);
  mret ops.

Definition sync_table (tid : BlockId) (parsed : Table) : VM nat :=
  block ← find_by_id tid;
  current ← or_fail (UnsupportedIngestBlock "matched table missing") (table_of block);
  ops ← sync_columns tid current parsed;
  sync_rows tid current parsed ops.

(** ** Trees *)

Definition level_match_content (kind : BlockKind) : string :=
  match kind with BlockQuote _ => "blockquote" | other => block_content debug_info other end.
Definition level_old_state (blocks : list Block) : LastFlushedState :=
  mkFlushed 0 (imap (λ i b, mkBlockFingerprint (blk_id b)
                 (from_content (level_match_content (blk_kind b))) [] i) blocks).
Definition level_new_parsed (blocks : list Block) : list ParsedBlock :=
  imap (λ i b, mkParsedBlock (from_content (level_match_content (blk_kind b))) [] i) blocks.

(** The content floor of [sync_tree]. *)
Definition sync_config : MatchConfig :=
  mkMatchConfig 5000 (exact_threshold default_match_config) (copy_threshold default_match_config).

(** Which old blocks go, which new blocks come, and who stays as whom. *)
Record LevelPlan := mkLevelPlan {
  lp_removed : gset BlockId;
  lp_added : gset nat;
  lp_matched : gmap nat BlockId;
}.

(** The residual blocks of a kind are paired by position. *)
Definition pair_residual (of_kind : BlockKind → bool) (old new : list Block) (plan : LevelPlan) : LevelPlan :=
  let rem_old := blk_id <$> filter (λ b, blk_id b ∈ lp_removed plan ∧ of_kind (blk_kind b) = true) old in
  let rem_new := omap (λ x : nat * Block,
    if decide (x.1 ∈ lp_added plan ∧ of_kind (blk_kind x.2) = true) then Some x.1 else None)
    (imap pair new) in
  fold_left (λ plan x, mkLevelPlan (lp_removed plan ∖ {[x.1]}) (lp_added plan ∖ {[x.2]})
                         (<[x.2 := x.1]> (lp_matched plan))) (zip rem_old rem_new) plan.

Definition is_paragraph (kind : BlockKind) : bool := match kind with Paragraph _ => true | _ => false end.
Definition is_table (kind : BlockKind) : bool := match kind with TableBlock _ => true | _ => false end.

Definition level_plan (old new : list Block) : LevelPlan :=
  let mapping := match_blocks (level_old_state old) (level_new_parsed new) sync_config in
  let plan := mkLevelPlan (list_to_set (removed mapping)) (list_to_set (ab_new_index <$> added mapping))
                (btree_collect ((λ m, (bm_new_index m, bm_old_id m)) <$> matched mapping)) in
  pair_residual is_table old new (pair_residual is_paragraph old new plan).

(** [old.iter().map(|b| (b.id, b)).collect()]. *)
Definition old_by_id (old : list Block) : gmap BlockId Block :=
  btree_collect ((λ b, (blk_id b, b)) <$> old).

(** A matched block is moved when its predecessor is not [after]: its element
    and the number of operations. *)
Definition place_block (parent after : option OpId) (old_id : BlockId) : VM (OpId * nat) :=
  block ← find_by_id old_id;
  elem ← or_fail (UnsupportedIngestBlock "missing matched block") (blk_elem <$> block);
  children ← sess (query (container_children parent));
  children ← or_fail (UnsupportedIngestBlock "missing parent") children;
  let current_ids := blk_elem <$> sequence_iter children in
  let predecessor := match position (λ id, bool_decide (id = elem)) current_ids with
                     | Some (S i) => current_ids !! i
                     | _ => None
                     end in
  if decide (predecessor = after) then mret (elem, 0)
  else
    _ ← sess (move_block sequence_incremental graphemes encode old_id parent after);
    moved ← find_by_id old_id;
    elem ← or_fail VaultPanic (blk_elem <$> moved);
    mret (elem, 1).

(** A parsed block with the comparison of its children. *)
Definition Incoming : Type := Block * (option OpId → list Block → VM nat).

(** The content of a matched block is brought up to date. *)
Definition sync_content (current_elem : OpId) (ob : Block) (x : Incoming) : VM nat :=
  match blk_kind ob, blk_kind x.1 with
  | BlockQuote old_kids, BlockQuote _ =>
    found ← sess (query (find_block (blk_elem ob)));
    let live_old := match blk_kind <$> found with
                    | Some (BlockQuote children) => sequence_iter children
                    | _ => sequence_iter old_kids
                    end in
    x.2 (Some current_elem) live_old
  | TableBlock _, TableBlock table => sync_table (blk_id ob) table
  | Paragraph old_t, Paragraph new_t | Heading _ old_t, Heading _ new_t =>
    apply_paragraph_text_diff (blk_id ob) (paragraph_visible_string old_t)
      (paragraph_visible_string new_t) x.1
  | _, _ => mret 0
  end.

(** One round of the loop over the new blocks. *)
Definition sync_step (parent : option OpId) (old : gmap BlockId Block) (plan : LevelPlan)
    (acc : option OpId * nat) (x : nat * Incoming) : VM (option OpId * nat) :=
  let '(after, ops) := acc in
  let '(idx, incoming) := x in
  match lp_matched plan !! idx with
  | Some old_id =>
    match old !! old_id with
    | None => mret acc
    | Some ob =>
      '(elem, moved) ← place_block parent after old_id;
      n ← sync_content elem ob incoming;
      mret (Some elem, ops + moved + n)
    end
  | None =>
    if decide (idx ∈ lp_added plan) then
      '(elem, n) ← insert_one incoming.1 parent after;
      mret (Some elem, ops + n)
    else mret acc
  end.

(** [sync_tree] once the comparisons of the children are given. *)
Definition sync_level (new : list Incoming) (parent : option OpId) (old : list Block) : VM nat :=
  let plan := level_plan old new.*1 in
  let by_id := old_by_id old in
  ops ← vm_fold (λ ops id,
          match by_id !! id with
          | None => mret ops
          | Some b =>
            _ ← sess (delete_block_in sequence_incremental graphemes encode parent (blk_elem b));
            mret (ops + 1)
          end) (id_order (lp_removed plan)) 0;
  '(_, ops) ← vm_fold (sync_step parent by_id plan) (imap pair new) (None, ops);
  mret ops.

(** The comparison of the children of a parsed quote. *)
Fixpoint sync_children (nb : Block) (parent : option OpId) (old : list Block) : VM nat :=
  match nb with
  | mkBlock _ _ _ _ (BlockQuote new_kids) _ =>
    sync_level (iter_map (λ child, (child, sync_children child)) new_kids) parent old
  | _ => mret 0
  end.

Definition sync_tree (parent : option OpId) (old new : list Block) : VM nat :=
  sync_level ((λ b, (b, sync_children b)) <$> new) parent old.

Definition apply_structure_ingest (parsed : Document) : VM nat :=
  old ← sess (gets (λ s, blocks_in_order (s_document s)));
  sync_tree None old (blocks_in_order parsed).

(** ** Files *)

(** [document_mut().adopt_source_from(&parsed)]. *)
Definition adopt_parsed (parsed : Document) : VM unit := λ s,
  (set_document (adopt_source_from parsed (s_document s)).1 s, inr tt).

(** The block that computes the number of operations: the parsed document
    becomes edits of the session. *)
Definition ingest_edits (parsed : Document) : VM nat :=
  ops ← sync_frontmatter (doc_frontmatter parsed);
  blocks ← sess (gets (λ s, blocks_in_order (s_document s)));
  n ← (if decide (blocks = []) then insert_tree None (insert_one <$> blocks_in_order parsed)
       else apply_structure_ingest parsed);
  mret (ops + n).

(** The part of [ingest_file_unchecked] that changes the session: the text of
    the file becomes edits, and the document takes over its source regions. *)
Definition ingest_content (content : ustring) : VM nat :=
  parsed ← or_fail VaultPanic (parse sequence_incremental graphemes content);
  ops ← ingest_edits parsed;
  _ ← adopt_parsed parsed;
  mret ops.
End ingest.
