(* ===== verification/IngestProps.v ===== *)
(** * Ingestion as a sequence of commits

    Whatever a file contains, reading it into a session is a sequence of
    committed operations, so that the invariants of sessions and the exchange
    with peers apply to it. *)

From S2P Require Import Prelude Core Sequence Mark MarkOps Table Diff Text Frontmatter Codec Draft.
From S2P Require Import Block Document DocumentCache DocumentTree Sync SyncInv SessionWire Session SessionTrace.
From S2P Require Import SessionLocal SessionClock SessionRemote DocumentTwin SessionPull SessionProps.
From S2P Require Import Match Chars Inline Markdown Serialize Ingest.

(** ** Block trees *)

Lemma iter_map_fmap {T A} (f : T → A) (s : Sequence T) : iter_map f s = f <$> sequence_iter s.
Proof.
  unfold iter_map, sequence_iter. induction (seq_elements s) as [|e l IH]; [done|].
  cbn [omap list_omap]. destruct (elem_value e); [exact (f_equal (cons _) IH)|exact IH].
Qed.

Lemma iter_live {T} (s : Sequence T) v : v ∈ sequence_iter s → ∃ x, x ∈ live_elems s ∧ v = x.2.
Proof.
  unfold sequence_iter, live_elems. rewrite list_elem_of_omap. intros (e & He & Hv).
  exists (elem_id e, v). split; [|done]. apply list_elem_of_omap. exists e. by rewrite Hv.
Qed.

(** Induction over a block and everything below it. *)
Lemma block_tree_ind (P : Block → Prop) :
  (∀ b, (∀ s c, blk_kind b = BlockQuote s → c ∈ sequence_iter s → P c) →
        (∀ style items moves it c, blk_kind b = ListBlock style items moves →
           it ∈ sequence_iter items → c ∈ sequence_iter (it_children it) → P c) → P b) →
  ∀ b, P b.
Proof.
  intros H. assert (Hn : ∀ n b, block_height b < n → P b); [|intros b; by apply (Hn (S (block_height b))); lia].
  intros n. induction n as [|n IH]; intros b Hb; [lia|].
  assert (Hchild : ∀ e p s c, (p, s) ∈ child_seqs e (blk_kind b) → c ∈ sequence_iter s → P c).
  { intros e p s c Hs (x & Hx & ->)%iter_live. apply IH.
    pose proof (block_height_child e b _ Hs). pose proof (sequence_height_ge _ _ Hx). simpl in *. lia. }
  apply H.
  - intros s c Hk. apply (Hchild (mkOpId 0 0) (InBlockQuote (mkOpId 0 0))). rewrite Hk. left.
  - intros style items moves it c Hk (x & Hx & ->)%iter_live. eapply (Hchild (mkOpId 0 0)). rewrite Hk.
    apply list_elem_of_fmap. by exists x.
Qed.

(** ** Computations that only commit *)

Section ingest_props.
Context (inc : bool) (graphemes : string → list string).
Context (encode : Envelope → string + list Byte.byte) (decode : list Byte.byte → string + Envelope).
Context (debug_info : option string → string).
Context (key_order : gset ustring → list ustring) (id_order : gset BlockId → list BlockId).

Abbreviation local_trace := (local_trace inc graphemes encode).
Abbreviation safe := (safe inc graphemes encode).

(** Run anywhere, the computation is a trace of commits, whether it fails or
    not. *)
Definition edits {A} (m : VM A) : Prop := ∀ s, ∃ l, local_trace s l (m s).1.

Lemma edits_ret {A} (x : A) : edits (mret x).
Proof. intros s. exists []. constructor. Qed.
Lemma edits_fail {A} e : edits (fail e : VM A).
Proof. intros s. exists []. constructor. Qed.
Lemma edits_bind {A B} (m : VM A) (k : A → VM B) :
  edits m → (∀ x, edits (k x)) → edits (x ← m; k x).
Proof.
  intros Hm Hk s. destruct (Hm s) as [l Hl]. unfold mbind, VM_bind.
  destruct (m s) as [s1 [e|x]]; simpl in *; [by exists l|].
  destruct (Hk x s1) as [l' Hl']. exists (l ++ l'). by eapply trace_trans.
Qed.
Lemma edits_sess {A} (m : SM A) : (∀ s, safe m s) → edits (sess m).
Proof.
  intros Hm s. destruct (Hm s) as [l Hl]. exists l. unfold sess. by destruct (m s) as [s1 [e|x]].
Qed.
Lemma edits_or_fail {A} e (o : option A) : edits (or_fail e o).
Proof. destruct o; [apply edits_ret|apply edits_fail]. Qed.
Lemma edits_fold {A S} (f : S → A → VM S) l x :
  (∀ x a, a ∈ l → edits (f x a)) → edits (vm_fold f l x).
Proof.
  revert x. induction l as [|a l IH]; intros x Hf; simpl; [apply edits_ret|].
  apply edits_bind; [apply Hf; left|]. intros y. apply IH. intros. apply Hf. by right.
Qed.
Lemma edits_query {A} (f : Document → Document * A) : (∀ d, cache_only d (f d).1) → edits (sess (query f)).
Proof.
  intros Hf s. exists []. unfold sess, query. specialize (Hf (s_document s)).
  destruct (f (s_document s)) as [d x]. eapply trace_query; [exact Hf|constructor].
Qed.
Lemma edits_gets {A} (f : CollaborativeDocument → A) : edits (sess (gets f)).
Proof. intros s. exists []. constructor. Qed.
Lemma edits_find id : edits (find_by_id id).
Proof. apply edits_query, cache_only_find_id. Qed.

(** Splits a computation into its calls. *)
Ltac edits_step :=
  cbv beta;
  lazymatch goal with
  | |- ∀ _, _ => intros ?
  | |- edits (mret _) => apply edits_ret
  | |- edits (fail _) => apply edits_fail
  | |- edits (or_fail _ _) => apply edits_or_fail
  | |- edits (find_by_id _) => apply edits_find
  | |- edits (sess (query _)) => apply edits_query; eauto using cache_only_find, cache_only_children
  | |- edits (sess (gets _)) => apply edits_gets
  | |- edits (sess _) => apply edits_sess; intros ?;
      eauto using safe_insert_block, safe_delete_block, safe_insert_text, safe_delete_text,
        safe_insert_paragraph, safe_insert_table, safe_insert_column, safe_insert_row, safe_set_cell,
        safe_row_cells, safe_delete_row, safe_set_alignment, safe_delete_column,
        safe_move_row, safe_set_mark, safe_remove_mark, safe_set_field, safe_initialize, safe_move_ids
  | |- edits (mbind _ _) => apply edits_bind; [|intros ?]
  | |- edits (vm_fold _ _ _) => apply edits_fold; intros ? ? ?
  | |- edits (if decide _ then _ else _) => case_decide
  | |- edits (if ?b then _ else _) => destruct b
  | |- edits (match ?x with _ => _ end) => destruct x
  end.
Ltac edits_auto := repeat edits_step.

Abbreviation apply_parsed_marks := (apply_parsed_marks inc graphemes encode).

Lemma set_spec_edits b m : edits (set_spec inc graphemes encode b m).
Proof. destruct m as [[[k i] j] a]. unfold set_spec. edits_auto. Qed.
Lemma parsed_marks_edits b id : edits (apply_parsed_marks b id).
Proof. unfold Ingest.apply_parsed_marks. edits_auto. apply set_spec_edits. Qed.

Lemma insert_tree_edits parent fs :
  Forall (λ f : Insertion, ∀ p a, edits (f p a)) fs → edits (insert_tree parent fs).
Proof.
  intros Hf. unfold insert_tree. apply edits_bind; [|edits_auto]. apply edits_fold.
  intros [ops after] f Hin. rewrite Forall_forall in Hf. apply edits_bind; [by apply Hf|edits_auto].
Qed.

Lemma insert_one_edits b : ∀ parent after, edits (insert_one inc graphemes encode b parent after).
Proof.
  induction b as [b IHq IHl] using block_tree_ind. intros parent after.
  destruct b as [id elem op obs kind marks]. cbn [blk_kind] in *.
  destruct kind as [text|level text|style items moves|style info text|children|raw|table]; cbn [insert_one].
  - edits_auto. apply parsed_marks_edits.
  - edits_auto. all: apply parsed_marks_edits.
  - apply edits_bind; [edits_auto|intros p]. apply edits_bind; [edits_auto|intros base].
    apply edits_bind; [edits_auto|intros list_elem]. apply edits_bind; [|edits_auto].
    apply edits_fold. intros n [fs item_elem] Hx. apply edits_bind; [|edits_auto]. apply insert_tree_edits.
    apply elem_of_zip_l in Hx. rewrite iter_map_fmap in Hx. apply list_elem_of_fmap in Hx as (it & -> & Hit).
    destruct it as [? ? ? ? ? ? kids] eqn:E. rewrite iter_map_fmap. apply Forall_fmap, Forall_forall.
    intros c Hc. exact (IHl _ _ _ _ c eq_refl Hit Hc).
  - edits_auto.
  - apply edits_bind; [edits_auto|intros q]. apply edits_bind; [|edits_auto].
    apply insert_tree_edits. rewrite iter_map_fmap. apply Forall_fmap, Forall_forall.
    intros c Hc. exact (IHq _ c eq_refl Hc).
  - edits_auto.
  - edits_auto.
Qed.

Lemma set_field_edits k v : edits (set_field inc graphemes encode k v).
Proof. unfold set_field. edits_auto. Qed.
Lemma sync_frontmatter_edits fm : edits (sync_frontmatter inc graphemes encode key_order fm).
Proof. unfold sync_frontmatter. edits_auto. all: apply set_field_edits. Qed.

Lemma insert_runs_edits b steps g n : edits (insert_runs inc graphemes encode b steps g n).
Proof.
  unfold insert_runs, insert_run_step. edits_auto.
Qed.
Lemma text_diff_edits b t t' nb : edits (apply_paragraph_text_diff inc graphemes encode b t t' nb).
Proof.
  unfold apply_paragraph_text_diff.
  edits_auto; try apply insert_runs_edits. all: apply set_spec_edits.
Qed.

Lemma sync_columns_edits t cur par : edits (sync_columns inc graphemes encode t cur par).
Proof. unfold sync_columns, sync_column, append_column. edits_auto. Qed.
Lemma find_row_edits t l : edits (find_row_elem t l).
Proof. induction l as [|id l IH]; simpl; edits_auto. exact IH. Qed.
Lemma sync_rows_edits t cur par n : edits (sync_rows inc graphemes encode t cur par n).
Proof.
  unfold sync_rows. destruct (fold_left _ _ _) as [used mapping].
  unfold rewrite_row, append_row, place_row. edits_auto; try apply find_row_edits.
Qed.
Lemma sync_table_edits t par : edits (sync_table inc graphemes encode t par).
Proof. unfold sync_table. edits_auto; eauto using sync_columns_edits, sync_rows_edits. Qed.

(** ** The tree *)

Lemma place_block_edits p a id : edits (place_block inc graphemes encode p a id).
Proof. unfold place_block, move_block. edits_auto. Qed.

Lemma sync_content_edits e ob (x : Incoming) :
  (∀ p old, edits (x.2 p old)) → edits (sync_content inc graphemes encode e ob x).
Proof.
  intros Hx. unfold sync_content. edits_auto; eauto using sync_table_edits, text_diff_edits.
Qed.

Lemma sync_level_edits new parent old :
  Forall (λ x : Incoming, ∀ p old, edits (x.2 p old)) new →
  edits (sync_level inc graphemes encode debug_info id_order new parent old).
Proof.
  intros Hn. unfold sync_level. apply edits_bind; [edits_auto|intros ops].
  apply edits_bind; [|edits_auto]. apply edits_fold. intros [after n] [idx x] Hx.
  assert (Hin : ∀ p old, edits (x.2 p old)).
  { rewrite Forall_forall in Hn. apply elem_of_lookup_imap in Hx as (i & y & [= -> ->] & Hy).
    eapply Hn, list_elem_of_lookup_2, Hy. }
  unfold sync_step. edits_auto; eauto using place_block_edits, sync_content_edits, insert_one_edits.
Qed.

Lemma sync_children_edits b : ∀ parent old,
  edits (sync_children inc graphemes encode debug_info id_order b parent old).
Proof.
  induction b as [b IHq _] using block_tree_ind. intros parent old.
  destruct b as [id elem op obs kind marks]. cbn [blk_kind] in *.
  destruct kind as [text|level text|style items moves|style info text|children|raw|table];
    cbn [sync_children]; try apply edits_ret.
  apply sync_level_edits. rewrite iter_map_fmap. apply Forall_fmap, Forall_forall.
  intros c Hc. exact (IHq _ c eq_refl Hc).
Qed.

Lemma structure_edits d : edits (apply_structure_ingest inc graphemes encode debug_info id_order d).
Proof.
  unfold apply_structure_ingest. apply edits_bind; [edits_auto|]. intros old. unfold sync_tree.
  apply sync_level_edits, Forall_fmap, Forall_forall. intros b _. exact (sync_children_edits b).
Qed.

Abbreviation ingest_content := (ingest_content inc graphemes encode debug_info key_order id_order).

(** The document of [s'] is that of [s] but for the source regions. *)
Definition resourced (s s' : CollaborativeDocument) : Prop :=
  ∃ src, s' = set_document (set_source src (s_document s)) s.

Lemma adopt_resourced d s : resourced s (set_document (adopt_source_from d (s_document s)).1 s).
Proof.
  unfold adopt_source_from, resourced. destruct (doc_source d) as [src|]; [|by eexists].
  case_decide; by eexists.
Qed.

Lemma set_source_same d : set_source (doc_source d) d = d.
Proof. by destruct d. Qed.
Lemma resourced_refl s : resourced s s.
Proof. exists (doc_source (s_document s)). rewrite set_source_same. by destruct s. Qed.

(** Ingestion is a trace of commits, and then the source is replaced. *)
Lemma ingest_trace content s :
  ∃ l s1, local_trace s l s1 ∧ resourced s1 (ingest_content content s).1.
Proof.
  unfold Ingest.ingest_content. unfold or_fail.
  destruct (parse inc graphemes content) as [d|]; [|exists [], s; split; [constructor|apply resourced_refl]].
  assert (Hm : edits (ingest_edits inc graphemes encode debug_info key_order id_order d)).
  { unfold ingest_edits. edits_auto; eauto using sync_frontmatter_edits, structure_edits.
    apply insert_tree_edits, Forall_fmap, Forall_forall. intros b _. exact (insert_one_edits b). }
  destruct (Hm s) as [l Hl]. unfold mbind, VM_bind, mret, VM_ret.
  destruct (ingest_edits _ _ _ _ _ _ d s) as [s1 [e|n]]; exists l, s1; (split; [exact Hl|]).
  - apply resourced_refl.
  - apply adopt_resourced.
Qed.

(** C22: A file edit reaches the peers.  A session reads a file, whatever it
    contains and whether that succeeds or fails half-way.  What it did is a
    sequence of commits followed by a change of source regions only.  For every
    such sequence: if its counters stay below the end of [u64], the ids of the
    commits continue the clock without gap or reuse; and a peer that has seen the
    same operations, and whose document differs in the cached index at most, pulls
    exactly these operations, applies every one of them, and ends with the same
    blocks and the same frontmatter, if the codec decodes the operations, the
    index does not run out of generations and the message passes the limits. *)
Theorem ingest_reaches_peers content s r limits n :
  clock_ok s → in_step s r → twin n (s_document s) (s_document r) →
  let s' := (ingest_content content s).1 in
  (∃ l s1, local_trace s l s1 ∧ resourced s1 s') ∧
  ∀ l s1, local_trace s l s1 → resourced s1 s' → Forall (λ x : Envelope * Operation, below_max graphemes x.1) l →
    let message := mkChanges (session_state_vector r) l.*2 in
    tiles graphemes (s_next_counter s) l.*1 (s_next_counter s') ∧ clock_ok s' ∧
    (Forall (λ x : Envelope * Operation, decode (sop_payload x.2) = inr x.1) l →
     room (n + history_cost l.*1) → validate_changes message limits 0 = None →
     encode_changes_since (session_state_vector r) (s_sync s') = inr message ∧
     ∃ r', apply_remote inc graphemes decode message limits r =
         (r', inr (mkSessionResult (sop_id <$> l.*2) [])) ∧
       doc_blocks (s_document r') = doc_blocks (s_document s') ∧
       doc_frontmatter (s_document r') = doc_frontmatter (s_document s')).
Proof.
  intros Hc Hst Htw s'. split; [apply ingest_trace|]. intros l s1 Htr Hsrc Hb message.
  destruct (trace_commits _ _ _ _ _ _ Htr Hc Hb) as [Hck Ht _ _ _ _].
  destruct Hsrc as [src Hs']. fold s' in Hs'. rewrite Hs'.
  split_and!; [exact Ht|by apply clock_ok_query|]. intros Hdec Hroom Hval.
  destruct (trace_pull inc graphemes encode decode s l s1 r limits n Htr Hc Hst Htw Hb Hdec Hroom Hval)
    as (Hm & r' & Hr & _ & _ & Ht').
  split; [exact Hm|]. exists r'. split; [exact Hr|].
  destruct (tw_content _ _ _ Ht') as (Hf & Hbl & _). split; symmetry; [exact Hbl|exact Hf].
Qed.
End ingest_props.
