(* ===== verification/IngestQuiet.v ===== *)
(** * Reading an unchanged file

    When the parsed blocks say what the blocks of the session say, ingestion
    makes no edit at all: every block is matched with itself, nothing is moved,
    and no text or table differs. *)

From S2P Require Import Prelude Core Sequence Mark MarkOps Table Diff Text Frontmatter Codec Draft.
From S2P Require Import Block Document DocumentCache DocumentTree Sync SessionWire Session SessionTrace.
From S2P Require Import Match MatchProps Chars Inline Markdown Serialize ParseProps TableTrip Ingest IngestProps.

(** ** Addresses *)

(** The ids of the live blocks of a tree are distinct, and every block sits at
    the element it names. *)
Record addressed (s : Sequence Block) : Prop := {
  ad_ids : NoDup (blk_id <$> (live_blocks s).*2);
  ad_elems : NoDup (blk_elem <$> (live_blocks s).*2);
  ad_paths : Forall (λ pb : BlockPath * Block, blk_elem pb.2 = path_elem pb.1) (live_blocks s);
}.

Lemma bind_sublist {A B} (f : A → list B) l x : x ∈ l → f x `sublist_of` l ≫= f.
Proof.
  induction 1 as [x l|x y l _ IH]; csimpl; [apply sublist_inserts_r|apply sublist_inserts_l; done]. done.
Qed.

Lemma live_top c s : sequence_iter s `sublist_of` (live_seq c s).*2.
Proof.
  unfold sequence_iter, live_seq, live_elems. induction (seq_elements s) as [|e l IH]; [done|].
  cbn [omap list_omap]. destruct (elem_value e) as [v|]; [|exact IH]. csimpl.
  rewrite live_in_unfold. csimpl. constructor. rewrite fmap_app. by apply sublist_inserts_l.
Qed.

(** The blocks inside a live quote are live. *)
Lemma live_below x : ∀ c e b ch, b ∈ (live_in c e x).*2 → blk_kind b = BlockQuote ch →
  ∃ c', (live_seq c' ch).*2 `sublist_of` (live_in c e x).*2.
Proof.
  induction x as [x IHq IHl] using block_tree_ind. intros c e b ch. rewrite live_in_unfold.
  change ((?y :: ?l).*2) with (y.2 :: l.*2). cbn [snd]. intros [->|Hb]%elem_of_cons Hk.
  - rewrite Hk. csimpl. rewrite app_nil_r. eexists. apply sublist_cons. done.
  - apply list_elem_of_fmap in Hb as (pb & -> & Hb). apply list_elem_of_bind in Hb as (cs & Hb & Hcs).
    apply list_elem_of_bind in Hb as ([e' y] & Hb & Hy).
    assert (Hsub : (live_in (c ++ [cs.1]) e' y).*2 `sublist_of`
      ((mkPath c e, x) :: (child_seqs e (blk_kind x) ≫= λ x, live_seq (c ++ [x.1]) x.2)).*2).
    { rewrite fmap_cons. apply sublist_cons. apply sublist_fmap. etrans; [|by apply bind_sublist].
      exact (bind_sublist (λ x, live_in (c ++ [cs.1]) x.1 x.2) _ (e', y) Hy). }
    assert (Hiter : y ∈ sequence_iter cs.2).
    { unfold live_elems in Hy. apply list_elem_of_omap in Hy as (el & Hel & Ey). unfold sequence_iter.
      apply list_elem_of_omap. exists el. split; [done|]. by destruct (elem_value el); simplify_eq/=. }
    assert (IH : ∀ c e b ch, b ∈ (live_in c e y).*2 → blk_kind b = BlockQuote ch →
      ∃ c', (live_seq c' ch).*2 `sublist_of` (live_in c e y).*2).
    { destruct (blk_kind x) as [| |style items moves| |kids| |] eqn:Ek; simpl in Hcs;
        try (by apply not_elem_of_nil in Hcs).
      - apply list_elem_of_fmap in Hcs as ([ie it] & -> & Hit). eapply IHl; [done| |exact Hiter].
        simpl. apply list_elem_of_omap in Hit as (el & Hel & Ey). apply list_elem_of_omap. exists el.
        split; [done|]. by destruct (elem_value el); simplify_eq/=.
      - apply list_elem_of_singleton in Hcs as ->. by eapply IHq. }
    destruct (IH (c ++ [cs.1]) e' pb.2 ch) as [c' Hc']; [by apply list_elem_of_fmap_2|done|].
    exists c'. by etrans.
Qed.

Lemma live_quote s b ch : b ∈ (live_blocks s).*2 → blk_kind b = BlockQuote ch →
  ∃ c', (live_seq c' ch).*2 `sublist_of` (live_blocks s).*2.
Proof.
  intros Hb Hk. unfold live_blocks, live_seq in *. apply list_elem_of_fmap in Hb as (pb & -> & Hb).
  apply list_elem_of_bind in Hb as ([e y] & Hb & Hy).
  destruct (live_below y [] e pb.2 ch) as [c' Hc']; [by apply list_elem_of_fmap_2|done|].
  exists c'. etrans; [exact Hc'|]. apply sublist_fmap.
  exact (bind_sublist (λ x, live_in [] x.1 x.2) _ (e, y) Hy).
Qed.

Lemma find_unique {A B} `{EqDecision B} (f : A → B) (l : list A) x :
  NoDup (f <$> l) → x ∈ l → ∃ i, list_find (λ y, f y = f x) l = Some (i, x).
Proof.
  intros Hnd [i Hi]%list_elem_of_lookup. exists i. apply list_find_Some. split_and!; [done|done|].
  intros j y Hj Hlt E. assert (i = j); [|lia].
  eapply NoDup_lookup; [exact Hnd|by rewrite list_lookup_fmap, Hi|rewrite list_lookup_fmap, Hj; exact (f_equal Some E)].
Qed.

(** ** Computations without edits *)

Section quiet.
Context (s0 : CollaborativeDocument).
Hypothesis Hwf : tree_wf (doc_blocks (s_document s0)).
Hypothesis Had : addressed (doc_blocks (s_document s0)).

(** The session as it was, up to a coherent cache. *)
Definition seen (s : CollaborativeDocument) : Prop :=
  ∃ d, s = set_document d s0 ∧ coherent d ∧ doc_indexed d = doc_indexed (s_document s0) ∧
    cache_only (s_document s0) d.

(** The computation returns [x] and changes the cache at most. *)
Definition quiet {A} (m : VM A) (x : A) : Prop := ∀ s, seen s → ∃ s', m s = (s', inr x) ∧ seen s'.

Lemma quiet_ret {A} (x : A) : quiet (mret x) x.
Proof. intros s Hs. by exists s. Qed.
Lemma quiet_bind {A B} (m : VM A) x (k : A → VM B) y :
  quiet m x → quiet (k x) y → quiet (z ← m; k z) y.
Proof.
  intros Hm Hk s Hs. destruct (Hm s Hs) as (s1 & E & Hs1). unfold mbind, VM_bind. rewrite E. by apply Hk.
Qed.
Lemma quiet_fold {A S} (f : S → A → VM S) (g : S → A → S) l x :
  (∀ l1 a l2, l = l1 ++ a :: l2 → quiet (f (fold_left g l1 x) a) (g (fold_left g l1 x) a)) →
  quiet (vm_fold f l x) (fold_left g l x).
Proof.
  revert x. induction l as [|a l IH]; intros x Hf; simpl; [apply quiet_ret|].
  eapply quiet_bind; [exact (Hf [] a l eq_refl)|]. apply IH. intros l1 b l2 E.
  apply (Hf (a :: l1) b l2). by rewrite E.
Qed.
Lemma quiet_fold_same {A S} (f : S → A → VM S) l x :
  (∀ a, a ∈ l → quiet (f x a) x) → quiet (vm_fold f l x) x.
Proof.
  induction l as [|a l IH]; intros Hf; simpl; [apply quiet_ret|].
  eapply quiet_bind; [apply Hf; left|]. apply IH. intros b Hb. apply Hf. by right.
Qed.

Abbreviation live := ((live_blocks (doc_blocks (s_document s0))).*2).

Lemma quiet_gets {A} (f : CollaborativeDocument → A) x : (∀ s, seen s → f s = x) → quiet (sess (gets f)) x.
Proof. intros Hf s Hs. exists s. unfold sess, gets. by rewrite Hf. Qed.

Lemma seen_blocks s : seen s → doc_blocks (s_document s) = doc_blocks (s_document s0).
Proof. intros (d & -> & _ & Hd & _). unfold doc_blocks. simpl. by rewrite Hd. Qed.

Lemma quiet_query {A} (f : Document → Document * A) x :
  (∀ d, coherent d → doc_indexed d = doc_indexed (s_document s0) →
     (f d).2 = x ∧ coherent (f d).1 ∧ doc_indexed (f d).1 = doc_indexed d ∧ cache_only d (f d).1) →
  quiet (sess (query f)) x.
Proof.
  intros Hf s (d & -> & Hc & Hd & Hco). destruct (Hf d Hc Hd) as (Hx & Hc' & Hd' & Hco').
  unfold sess, query. simpl. destruct (f d) as [d' y]. simpl in *. subst y. eexists. split; [done|].
  exists d'. split_and!; [done|done|by rewrite Hd'|by etrans].
Qed.

Lemma quiet_find b : b ∈ live → quiet (find_by_id (blk_id b)) (Some b).
Proof.
  intros Hb. apply quiet_query. intros d Hc Hd. unfold find_block_by_id.
  destruct (find_through_spec by_block_id (blk_id b) (λ x, bool_decide (blk_id x = blk_id b)) d Hc) as [E Hc'].
  destruct (find_through_same by_block_id (blk_id b) (λ x, bool_decide (blk_id x = blk_id b)) d) as [Hsame _].
  assert (Eb : doc_blocks d = doc_blocks (s_document s0)) by (unfold doc_blocks; by rewrite Hd).
  split_and!; [|done|done|apply cache_only_find_through]. rewrite E, fresh_id by (by rewrite Eb). rewrite Eb.
  unfold search_id. apply list_elem_of_fmap in Hb as (pb & -> & Hb).
  destruct (find_unique (λ pb : BlockPath * Block, blk_id pb.2) (live_blocks (doc_blocks (s_document s0))) pb)
    as [i ->]; [|done|done]. pose proof (ad_ids _ Had) as H. by rewrite <-list_fmap_compose in H.
Qed.

Lemma find_elem_seen b d : b ∈ live → coherent d → doc_indexed d = doc_indexed (s_document s0) →
  (find_block (blk_elem b) d).2 = Some b ∧ coherent (find_block (blk_elem b) d).1 ∧
  doc_indexed (find_block (blk_elem b) d).1 = doc_indexed d ∧ cache_only d (find_block (blk_elem b) d).1.
Proof.
  intros Hb Hc Hd. unfold find_block.
  destruct (find_through_spec by_elem_id (blk_elem b) (λ x, bool_decide (blk_elem x = blk_elem b)) d Hc) as [E Hc'].
  destruct (find_through_same by_elem_id (blk_elem b) (λ x, bool_decide (blk_elem x = blk_elem b)) d) as [Hsame _].
  assert (Eb : doc_blocks d = doc_blocks (s_document s0)) by (unfold doc_blocks; by rewrite Hd).
  split_and!; [|done|done|apply cache_only_find_through]. rewrite E, fresh_elem by (by rewrite Eb). rewrite Eb.
  unfold search_elem. apply list_elem_of_fmap in Hb as (pb & -> & Hb).
  pose proof (ad_paths _ Had) as Hp. rewrite Forall_forall in Hp. rewrite (Hp _ Hb).
  assert (Hnd : NoDup ((λ pb : BlockPath * Block, path_elem pb.1) <$> live_blocks (doc_blocks (s_document s0)))).
  { pose proof (ad_elems _ Had) as H. rewrite <-list_fmap_compose in H.
    replace ((λ pb : BlockPath * Block, path_elem pb.1) <$> live_blocks (doc_blocks (s_document s0)))
      with (blk_elem ∘ snd <$> live_blocks (doc_blocks (s_document s0))); [done|].
    apply list_fmap_ext. intros i x Hx. simpl. by apply Hp, list_elem_of_lookup_2 with i. }
  destruct (find_unique _ _ pb Hnd Hb) as [i ->]. simpl. rewrite decide_True by (by apply Hp). done.
Qed.

Lemma quiet_find_elem b : b ∈ live → quiet (sess (query (find_block (blk_elem b)))) (Some b).
Proof. intros Hb. apply quiet_query. intros d. by apply find_elem_seen. Qed.

(** The children of the document or of a live quote. *)
Definition holds (parent : option OpId) (c : Sequence Block) : Prop :=
  match parent with
  | None => c = doc_blocks (s_document s0)
  | Some e => ∃ b, b ∈ live ∧ blk_elem b = e ∧ blk_kind b = BlockQuote c
  end.

Lemma quiet_children parent c : holds parent c → quiet (sess (query (container_children parent))) (Some c).
Proof.
  intros Hp. apply quiet_query. intros d Hc Hd. destruct parent as [e|]; simpl in *.
  - destruct Hp as (b & Hb & <- & Hk). destruct (find_elem_seen b d Hb Hc Hd) as (Hf & ? & ? & ?).
    destruct (find_block (blk_elem b) d) as [d' o]. simpl in *. subst o. simpl. by rewrite Hk.
  - subst c. unfold doc_blocks. by rewrite Hd.
Qed.

(** ** Tables *)

Context (inc : bool) (graphemes : string → list string).
Context (encode : Envelope → string + list Byte.byte).
Context (debug_info : option string → string) (id_order : gset BlockId → list BlockId).

(** Two tables with the same alignments, header and rows; the rows of the first
    have distinct ids. *)
Definition same_table (t t' : Table) : Prop :=
  (λ c, Lww.get (column_alignment c)) <$> columns_in_order t =
    (λ c, Lww.get (column_alignment c)) <$> columns_in_order t' ∧
  row_cells t (header_row_id t) = row_cells t' (header_row_id t') ∧
  (λ r, row_cells t (row_id r)) <$> rows_in_order t = (λ r, row_cells t' (row_id r)) <$> rows_in_order t' ∧
  NoDup (row_id <$> rows_in_order t).

Lemma fmap_lookup_same {A B C} (f : A → C) (g : B → C) (l : list A) (l' : list B) (i : nat) x y :
  f <$> l = g <$> l' → l !! i = Some x → l' !! i = Some y → f x = g y.
Proof.
  intros E Hx Hy. apply (f_equal (.!! i)) in E. rewrite !list_lookup_fmap, Hx, Hy in E. by injection E.
Qed.

Lemma columns_quiet tid t t' : same_table t t' → quiet (sync_columns inc graphemes encode tid t t') 0.
Proof.
  intros (Ha & Hh & _ & _). unfold sync_columns.
  assert (Hlen : length (columns_in_order t) = length (columns_in_order t')).
  { apply (f_equal length) in Ha. by rewrite !length_fmap in Ha. }
  eapply quiet_bind.
  { apply quiet_fold_same. intros x (i & [old new] & -> & Hi)%elem_of_lookup_imap_1.
    apply lookup_zip_with_Some in Hi as (old' & new' & [= <- <-] & Hold & Hnew). unfold sync_column.
    rewrite decide_True by exact (fmap_lookup_same _ _ _ _ _ _ _ Ha Hold Hnew).
    eapply quiet_bind; [apply quiet_ret|].
    assert (Hcell : row_cells t' (header_row_id t') !! i =
      Some (default EmptyString (cell_value t (header_row_id t) (column_id old)))).
    { rewrite <-Hh. unfold row_cells. by rewrite list_lookup_fmap, Hold. }
    rewrite Hcell. eapply quiet_bind; [apply quiet_ret|]. rewrite decide_True by done. apply quiet_ret. }
  rewrite (drop_ge (columns_in_order t)) by (apply Nat.eq_le_incl; exact Hlen). eapply quiet_bind; [apply quiet_ret|].
  rewrite drop_ge by (rewrite length_imap; lia). eapply quiet_bind; [apply quiet_ret|]. apply quiet_ret.
Qed.

(** Every row is matched with itself. *)
Lemma match_rows_same t t' : same_table t t' →
  fold_left (match_row t t') (rows_in_order t') (∅, []) =
    (list_to_set (row_id <$> rows_in_order t), Some <$> (row_id <$> rows_in_order t)).
Proof.
  intros (_ & _ & Hr & Hnd). set (R := rows_in_order t) in *. set (R' := rows_in_order t') in *.
  assert (Hlen : length R = length R') by (apply (f_equal length) in Hr; by rewrite !length_fmap in Hr).
  assert (Hk : ∀ k, k ≤ length R → fold_left (match_row t t') (take k R') (∅, []) =
    (list_to_set (row_id <$> take k R), Some <$> (row_id <$> take k R))).
  2: { specialize (Hk (length R) ltac:(lia)). rewrite !take_ge in Hk by lia. exact Hk. }
  intros k. induction k as [|k IH]; intros Hk; [by rewrite !take_0|].
  destruct (lookup_lt_is_Some_2 R k) as [r Hrk]; [lia|].
  destruct (lookup_lt_is_Some_2 R' k) as [r' Hrk']; [lia|].
  rewrite (take_S_r _ _ _ Hrk), (take_S_r _ _ _ Hrk'), fold_left_app, IH by lia. simpl. fold R.
  assert (Hf : list_find (λ old_row, (row_id old_row ∉ (list_to_set (row_id <$> take k R) : gset RowId)) ∧
    row_cells t (row_id old_row) = row_cells t' (row_id r')) R = Some (k, r)).
  { apply list_find_Some. split_and!; [done| |exact (fmap_lookup_same _ _ _ _ _ _ _ Hr Hrk Hrk')|].
    - rewrite elem_of_list_to_set. intros (y & E & Hy)%list_elem_of_fmap.
      apply list_elem_of_lookup in Hy as [j [Hj Hlt]%lookup_take_Some]. assert (j = k); [|lia].
      eapply NoDup_lookup; [exact Hnd|by rewrite list_lookup_fmap, Hj|rewrite list_lookup_fmap, Hrk; exact (f_equal Some E)].
    - intros j y Hj Hlt [Hnot _]. apply Hnot, elem_of_list_to_set, list_elem_of_fmap_2.
      apply list_elem_of_lookup. exists j. by rewrite lookup_take_lt. }
  rewrite Hf. rewrite !fmap_app, list_to_set_app_L. simpl. f_equal. set_solver.
Qed.

Lemma filter_none {A} (P : A → Prop) `{!∀ x, Decision (P x)} (l : list A) :
  (∀ x, x ∈ l → ¬ P x) → filter P l = [].
Proof.
  induction l as [|x l IH]; intros Hn; [done|]. rewrite filter_cons_False by (apply Hn; left).
  apply IH. intros y Hy. apply Hn. by right.
Qed.

(** [acc.1] is the element of the last thing that was placed. *)
Lemma fold_last {A B} (f : A → option B) (l : list A) (o : option B) (n : nat) :
  fold_left (λ acc x, (f x, acc.2)) l (o, n) = (match last l with Some x => f x | None => o end, n).
Proof. induction l as [|x l IH] using rev_ind; [done|]. by rewrite fold_left_app, IH, last_snoc. Qed.

Lemma row_by_position t i r : NoDup (row_id <$> rows_in_order t) → rows_in_order t !! i = Some r →
  position (λ row, bool_decide (row_id row = row_id r)) (rows_in_order t) = Some i ∧
  row_by_id t (row_id r) = Some r.
Proof.
  intros Hnd Hi. split.
  - rewrite <-(take_drop_middle _ _ _ Hi).
    rewrite position_app; [f_equal; apply length_take_le, Nat.lt_le_incl; by eapply lookup_lt_Some| |by apply bool_decide_true].
    intros y [j [Hj Hlt]%lookup_take_Some]%list_elem_of_lookup. apply bool_decide_false. intros E.
    assert (j = i); [|lia].
    eapply NoDup_lookup; [exact Hnd|by rewrite list_lookup_fmap, Hj|rewrite list_lookup_fmap, Hi; exact (f_equal Some (eq_sym E))].
  - destruct (find_unique row_id (rows_in_order t) r Hnd) as [j Hj]; [by eapply list_elem_of_lookup_2|].
    exact (f_equal (fmap (M := option) snd) Hj).
Qed.

Lemma rows_quiet b t t' : b ∈ live → blk_kind b = TableBlock t → same_table t t' →
  quiet (sync_rows inc graphemes encode (blk_id b) t t' 0) 0.
Proof.
  intros Hb Hk Hsame. pose proof Hsame as (_ & _ & _ & Hnd). unfold sync_rows.
  rewrite (match_rows_same t t' Hsame). set (R := rows_in_order t) in *.
  assert (E1 : filter (λ row, row_id row ∉ (list_to_set (row_id <$> R) : gset RowId)) R = []).
  { apply filter_none. intros r Hr Hnot. apply Hnot, elem_of_list_to_set. by apply list_elem_of_fmap_2. }
  assert (E2 : omap (λ x : nat * option RowId, match x.2 with None => Some x.1 | Some _ => None end)
    (imap pair (Some <$> (row_id <$> R))) = []).
  { apply omap_none. intros x (i & o & -> & Ho)%elem_of_lookup_imap_1.
    apply list_lookup_fmap_Some in Ho as (? & -> & _). done. }
  rewrite E1, E2. eapply quiet_bind; [apply quiet_ret|]. cbv beta iota. rewrite E1.
  eapply quiet_bind; [apply quiet_ret|]. rewrite drop_nil. eapply quiet_bind; [apply quiet_ret|]. cbv beta iota.
  assert (Eid : omap id (Some <$> (row_id <$> R)) = row_id <$> R).
  { clear. induction R as [|r R IH]; [done|]. csimpl. by rewrite IH. }
  rewrite Eid. apply quiet_bind with (fold_left (λ acc id, (row_elem_id <$> row_by_id t id, acc.2)) (row_id <$> R) (None, 0));
    [|rewrite fold_last; apply quiet_ret].
  apply quiet_fold. intros l1 id l2 E. rewrite fold_last.
  assert (Hi : (row_id <$> R) !! length l1 = Some id) by (by rewrite E, list_lookup_middle).
  apply list_lookup_fmap_Some in Hi as (r & -> & Hi). destruct (row_by_position t _ r Hnd Hi) as [Hpos Hrow].
  unfold place_row. eapply quiet_bind; [by apply quiet_find|]. simpl. rewrite Hk. simpl. rewrite Hpos. simpl.
  fold R. rewrite Hi. simpl. eapply quiet_bind; [apply quiet_ret|]. simpl.
  rewrite decide_True; [rewrite Hrow; apply quiet_ret|].
  destruct l1 as [|x l1 _] using rev_ind; [done|]. rewrite last_snoc, length_app, Nat.add_1_r.
  rewrite length_app, Nat.add_1_r in Hi.
  assert (Hx : (row_id <$> R) !! length l1 = Some x) by (rewrite E, <-(assoc_L (++)); cbn [app]; by rewrite list_lookup_middle).
  apply list_lookup_fmap_Some in Hx as (rx & -> & Hx). rewrite Hx.
  by destruct (row_by_position t _ rx Hnd Hx) as [_ ->].
Qed.

Lemma table_quiet b t t' : b ∈ live → blk_kind b = TableBlock t → same_table t t' →
  quiet (sync_table inc graphemes encode (blk_id b) t') 0.
Proof.
  intros Hb Hk Hs. unfold sync_table. eapply quiet_bind; [by apply quiet_find|]. simpl. rewrite Hk.
  eapply quiet_bind; [apply quiet_ret|]. eapply quiet_bind; [by apply columns_quiet|]. by apply rows_quiet.
Qed.

(** ** Levels *)

(** Two blocks that say the same. *)
Definition same_leaf (b b' : Block) : Prop :=
  block_content debug_info (blk_kind b) = block_content debug_info (blk_kind b') ∧
  match blk_kind b, blk_kind b' with
  | Paragraph t, Paragraph t' | Heading _ t, Heading _ t' =>
    paragraph_visible_string t = paragraph_visible_string t' ∧
    mark_semantics (mark_specs b) = mark_semantics (mark_specs b')
  | TableBlock t, TableBlock t' => same_table t t'
  | ListBlock _ _ _, ListBlock _ _ _ | CodeFence _ _ _, CodeFence _ _ _ | RawBlock _, RawBlock _ => True
  | _, _ => False
  end.
Inductive unchanged : Block → Block → Prop :=
  | unchanged_leaf b b' : same_leaf b b' → unchanged b b'
  | unchanged_quote b b' c c' :
      blk_kind b = BlockQuote c → blk_kind b' = BlockQuote c' →
      Forall2 unchanged (sequence_iter c) (sequence_iter c') → unchanged b b'.

(** The fingerprint of a block within its level is within the bounds of the
    score. *)
Definition small_block (b : Block) : Prop :=
  small (from_content (level_match_content debug_info (blk_kind b))).

Lemma unchanged_content b b' : unchanged b b' →
  level_match_content debug_info (blk_kind b) = level_match_content debug_info (blk_kind b').
Proof.
  destruct 1 as [b b' [Hc Hk]|b b' c c' -> -> _]; [|done].
  unfold level_match_content. by destruct (blk_kind b), (blk_kind b').
Qed.

Lemma level_plan_same obs nbs : Forall2 unchanged obs nbs → Forall small_block obs →
  lp_removed (level_plan debug_info obs nbs) = ∅ ∧ lp_added (level_plan debug_info obs nbs) = ∅ ∧
  ∀ i, lp_matched (level_plan debug_info obs nbs) !! i = blk_id <$> obs !! i.
Proof.
  intros Hu Hs. set (old := flushed_blocks (level_old_state debug_info obs)).
  assert (Hnew : level_new_parsed debug_info nbs = to_parsed <$> old).
  { unfold old, level_old_state, level_new_parsed. cbn [flushed_blocks]. rewrite fmap_imap. unfold to_parsed. simpl.
    apply list_eq. intros i. rewrite !list_lookup_imap.
    destruct (obs !! i) as [b|] eqn:Eb.
    - destruct (Forall2_lookup_l _ _ _ _ _ Hu Eb) as (b' & -> & Hb'). simpl. by rewrite (unchanged_content _ _ Hb').
    - apply lookup_ge_None in Eb. rewrite (Forall2_length _ _ _ Hu) in Eb. apply lookup_ge_None in Eb as ->. done. }
  assert (Hm : match_blocks (level_old_state debug_info obs) (level_new_parsed debug_info nbs) sync_config =
    mkMapping (imap (λ i o, mkMatch (bf_block_id o) (bf_block_id o) i 10000 ExactFingerprint) old) [] []).
  { rewrite Hnew. apply (match_diagonal old 0 sync_config); [|done|done].
    apply Forall_lookup. intros i o Ho. unfold old, level_old_state in Ho. cbn [flushed_blocks] in Ho.
    rewrite list_lookup_imap in Ho. destruct (obs !! i) as [b|] eqn:Eb; [|done]. injection Ho as <-. simpl.
    rewrite Forall_lookup in Hs. by apply (Hs i). }
  assert (Hres : ∀ f m, pair_residual f obs nbs (mkLevelPlan ∅ ∅ m) = mkLevelPlan ∅ ∅ m).
  { intros f m. unfold pair_residual. cbn [lp_removed lp_added].
    by rewrite filter_none by (intros b _ [Hb _]; set_solver). }
  unfold level_plan. rewrite Hm. cbn [removed added matched fmap list_fmap list_to_set]. rewrite !Hres.
  cbn [lp_removed lp_added lp_matched]. split_and!; [done|done|]. intros i. rewrite fmap_imap. unfold compose. cbn [bm_new_index bm_old_id].
  apply option_eq. intros id. rewrite btree_collect_lookup.
  2: { rewrite fmap_imap. unfold compose. cbn [fst]. rewrite imap_seq_0. by rewrite list_fmap_id; apply NoDup_seq. }
  rewrite elem_of_lookup_imap. unfold old, level_old_state. cbn [flushed_blocks]. split.
  - intros (j & o & [= -> ->] & Ho). rewrite list_lookup_imap in Ho. by destruct (obs !! j); simplify_eq/=.
  - intros (b & Hb & ->)%fmap_Some. eexists i, _. split; cycle 1; [by rewrite list_lookup_imap, Hb|done].
Qed.

Lemma old_by_id_lookup obs b : NoDup (blk_id <$> obs) → b ∈ obs → old_by_id obs !! blk_id b = Some b.
Proof.
  intros Hnd Hb. unfold old_by_id. rewrite btree_collect_lookup.
  - apply list_elem_of_fmap. by exists b.
  - by rewrite <-list_fmap_compose.
Qed.

Lemma place_quiet parent c i b :
  holds parent c → NoDup (blk_elem <$> sequence_iter c) → b ∈ live → sequence_iter c !! i = Some b →
  quiet (place_block inc graphemes encode parent
    (match i with 0 => None | S i => blk_elem <$> sequence_iter c !! i end) (blk_id b)) (blk_elem b, 0).
Proof.
  intros Hp Hnd Hb Hi. unfold place_block. eapply quiet_bind; [by apply quiet_find|]. simpl.
  eapply quiet_bind; [apply quiet_ret|]. eapply quiet_bind; [by apply quiet_children|]. simpl.
  eapply quiet_bind; [apply quiet_ret|].
  assert (Hpos : position (λ id, bool_decide (id = blk_elem b)) (blk_elem <$> sequence_iter c) = Some i).
  { apply position_NoDup; [done|]. by rewrite list_lookup_fmap, Hi. }
  rewrite Hpos. rewrite decide_True by (destruct i as [|i]; [done|apply list_lookup_fmap]). apply quiet_ret.
Qed.

Lemma text_quiet b nb t t' : b ∈ live →
  paragraph_visible_string t = paragraph_visible_string t' →
  mark_semantics (mark_specs b) = mark_semantics (mark_specs nb) →
  quiet (apply_paragraph_text_diff inc graphemes encode (blk_id b)
    (paragraph_visible_string t) (paragraph_visible_string t') nb) 0.
Proof.
  intros Hb -> Hm. unfold apply_paragraph_text_diff. eapply quiet_bind; [by apply quiet_find|]. simpl.
  rewrite decide_True by done. apply quiet_ret.
Qed.

Lemma content_quiet b (x : Incoming) :
  b ∈ live → unchanged b x.1 →
  (∀ ch ch', blk_kind b = BlockQuote ch → blk_kind x.1 = BlockQuote ch' →
     Forall2 unchanged (sequence_iter ch) (sequence_iter ch') →
     quiet (x.2 (Some (blk_elem b)) (sequence_iter ch)) 0) →
  quiet (sync_content inc graphemes encode (blk_elem b) b x) 0.
Proof.
  intros Hb Hu Hx. unfold sync_content. destruct x as [nb sub]. simpl in *.
  destruct Hu as [b nb [_ Hk]|b nb c c' Hk Hk' Hc].
  - destruct (blk_kind b) eqn:E, (blk_kind nb); try done; try apply quiet_ret.
    + destruct Hk. by apply text_quiet.
    + destruct Hk. by apply text_quiet.
    + by eapply table_quiet.
  - rewrite Hk, Hk'. eapply quiet_bind; [by apply quiet_find_elem|]. simpl. rewrite Hk. by eapply Hx.
Qed.

Hypothesis Horder : id_order ∅ = [].
Hypothesis Hsmall : Forall small_block live.

Lemma level_quiet parent c (new : list Incoming) :
  holds parent c → sequence_iter c `sublist_of` live → Forall2 unchanged (sequence_iter c) new.*1 →
  (∀ i x b ch ch', new !! i = Some x → sequence_iter c !! i = Some b → blk_kind b = BlockQuote ch →
     blk_kind x.1 = BlockQuote ch' → Forall2 unchanged (sequence_iter ch) (sequence_iter ch') →
     quiet (x.2 (Some (blk_elem b)) (sequence_iter ch)) 0) →
  quiet (sync_level inc graphemes encode debug_info id_order new parent (sequence_iter c)) 0.
Proof.
  intros Hp Hsub Hu Hsubs. set (obs := sequence_iter c) in *.
  assert (Hlive : ∀ i b, obs !! i = Some b → b ∈ live).
  { intros i b Hi. eapply elem_of_sublist; [|exact Hsub]. by eapply list_elem_of_lookup_2. }
  assert (Hid : NoDup (blk_id <$> obs)) by (eapply sublist_NoDup; [apply Had|apply sublist_fmap, Hsub]).
  assert (Hel : NoDup (blk_elem <$> obs)) by (eapply sublist_NoDup; [apply Had|apply sublist_fmap, Hsub]).
  assert (Hsm : Forall small_block obs).
  { rewrite Forall_forall in Hsmall. apply Forall_forall. intros b [i Hi]%list_elem_of_lookup. eapply Hsmall, Hlive, Hi. }
  destruct (level_plan_same obs new.*1 Hu Hsm) as (Hr & Ha & Hm). unfold sync_level. rewrite Hr, Horder.
  eapply quiet_bind; [apply quiet_ret|].
  apply quiet_bind with (fold_left (λ acc x, ((λ x : nat * Incoming, blk_elem <$> obs !! x.1) x, acc.2)) (imap pair new) (None, 0));
    [|rewrite fold_last; apply quiet_ret].
  apply quiet_fold. intros l1 [idx x] l2 E. rewrite fold_last. cbn [snd].
  assert (Hx : imap pair new !! length l1 = Some (idx, x)) by (by rewrite E, list_lookup_middle).
  rewrite list_lookup_imap in Hx. destruct (new !! length l1) as [y|] eqn:Ey; [|done]. injection Hx as Hidx ->. rewrite Hidx in Ey.
  assert (Ey1 : new.*1 !! idx = Some x.1) by (rewrite list_lookup_fmap; exact (f_equal (fmap fst) Ey)).
  destruct (Forall2_lookup_r _ _ _ _ _ Hu Ey1) as (b & Hb & Hbx).
  unfold sync_step. rewrite Hm, Hb. cbn [fmap option_fmap option_map].
  rewrite old_by_id_lookup by (done || by eapply list_elem_of_lookup_2).
  apply quiet_bind with (blk_elem b, 0); [|cbn [fst]; rewrite Hb; apply quiet_bind with 0; [|apply quiet_ret]].
  - replace (match last l1 with Some x => blk_elem <$> obs !! x.1 | None => None end)
      with (match idx with 0 => None | S i => blk_elem <$> obs !! i end); [by eapply place_quiet; eauto|].
    destruct l1 as [|z l1 _] using rev_ind; [by subst idx|]. rewrite last_snoc.
    rewrite length_app, Nat.add_1_r in Hidx. subst idx.
    assert (Hz : imap pair new !! length l1 = Some z)
      by (rewrite E, <-(assoc_L (++)); cbn [app]; by rewrite list_lookup_middle).
    rewrite list_lookup_imap in Hz. destruct (new !! length l1); [|done]. by injection Hz as <-.
  - cbn [fst snd]. apply content_quiet; [by eapply Hlive|done|]. intros ch ch' Hk Hk' Hc. by eapply Hsubs.
Qed.

Lemma children_quiet nb : ∀ b ch ch', b ∈ live → blk_kind b = BlockQuote ch → blk_kind nb = BlockQuote ch' →
  Forall2 unchanged (sequence_iter ch) (sequence_iter ch') →
  quiet (sync_children inc graphemes encode debug_info id_order nb (Some (blk_elem b)) (sequence_iter ch)) 0.
Proof.
  induction nb as [nb IHq _] using block_tree_ind. intros b ch ch' Hb Hk Hk' Hc.
  destruct nb as [id elem op obs kind marks]. cbn [blk_kind] in *. subst kind. cbn [sync_children].
  rewrite iter_map_fmap. apply level_quiet.
  - by exists b.
  - destruct (live_quote _ b ch Hb Hk) as [c' Hc']. etrans; [|exact Hc']. apply live_top.
  - rewrite <-list_fmap_compose. unfold compose. simpl. by rewrite list_fmap_id.
  - intros i x b' gh gh' Hx Hb' Hkb Hkx Hg. apply list_lookup_fmap_Some in Hx as (nb' & -> & Hnb').
    eapply (IHq ch' nb' eq_refl); [by eapply list_elem_of_lookup_2| |done|exact Hkx|exact Hg].
    destruct (live_quote _ b ch Hb Hk) as [c' Hc']. eapply elem_of_sublist; [|exact Hc'].
    eapply elem_of_sublist; [by eapply list_elem_of_lookup_2|apply live_top].
Qed.

Lemma structure_quiet (parsed : Document) :
  Forall2 unchanged (blocks_in_order (s_document s0)) (blocks_in_order parsed) →
  quiet (apply_structure_ingest inc graphemes encode debug_info id_order parsed) 0.
Proof.
  intros Hu. unfold apply_structure_ingest. eapply quiet_bind.
  { apply quiet_gets with (x := blocks_in_order (s_document s0)). intros s Hs.
    unfold blocks_in_order. by rewrite (seen_blocks s Hs). }
  unfold sync_tree, blocks_in_order at 1. apply level_quiet.
  - done.
  - apply live_top.
  - rewrite <-list_fmap_compose. unfold compose. simpl. by rewrite list_fmap_id.
  - intros i x b ch ch' Hx Hb Hk Hkx Hc. apply list_lookup_fmap_Some in Hx as (nb & -> & Hnb).
    eapply (children_quiet nb); [|done|exact Hkx|exact Hc].
    eapply elem_of_sublist; [by eapply list_elem_of_lookup_2|apply live_top].
Qed.

(** ** Frontmatter *)

Definition same_fields (fm fm' : option Frontmatter) : Prop :=
  match fm, fm' with
  | None, None => True
  | Some fm, Some fm' => ∀ key, fm_get fm key = fm_get fm' key
  | _, _ => False
  end.

Lemma entries_get fm key : mjoin (btree_collect (fm_entries fm) !! key) = fm_get fm key.
Proof.
  assert (E : btree_collect (fm_entries fm) !! key = Lww.get <$> fm_fields fm !! key).
  { apply option_eq. intros v. rewrite btree_collect_lookup.
    - unfold fm_entries. rewrite list_elem_of_fmap, fmap_Some. split.
      + intros ([k r] & [= -> ->] & Hk%elem_of_btree_iter). by exists r.
      + intros (r & Hr & ->). exists (key, r). split; [done|]. by apply elem_of_btree_iter.
    - unfold fm_entries. rewrite <-list_fmap_compose. apply NoDup_btree_keys. }
  rewrite E. unfold fm_get. by destruct (fm_fields fm !! key).
Qed.

Lemma frontmatter_quiet key_order parsed :
  same_fields (doc_frontmatter (s_document s0)) parsed →
  quiet (sync_frontmatter inc graphemes encode key_order parsed) 0.
Proof.
  intros Hf. unfold sync_frontmatter. eapply quiet_bind.
  { apply quiet_gets with (x := doc_frontmatter (s_document s0)). intros s (d & -> & _ & _ & Hc). simpl.
    by destruct Hc as [->| ->]. }
  destruct (doc_frontmatter (s_document s0)) as [fm|], parsed as [fm'|]; try done; [|apply quiet_ret].
  destruct (is_structured fm && is_structured fm'); [|apply quiet_ret].
  apply quiet_fold_same. intros key _. rewrite !entries_get, decide_True by apply Hf. apply quiet_ret.
Qed.
End quiet.

(** Ingestion of what is there already. *)
Lemma ingest_quiet inc graphemes encode debug_info key_order id_order text s parsed :
  id_order ∅ = [] → parse inc graphemes text = Some parsed →
  coherent (s_document s) → tree_wf (doc_blocks (s_document s)) → addressed (doc_blocks (s_document s)) →
  Forall (small_block debug_info) (live_blocks (doc_blocks (s_document s))).*2 →
  same_fields (doc_frontmatter (s_document s)) (doc_frontmatter parsed) →
  Forall2 (unchanged debug_info) (blocks_in_order (s_document s)) (blocks_in_order parsed) →
  ∃ d, ingest_content inc graphemes encode debug_info key_order id_order text s = (set_document d s, inr 0) ∧
    doc_blocks d = doc_blocks (s_document s) ∧ doc_frontmatter d = doc_frontmatter (s_document s).
Proof.
  intros Ho Hp Hc Hwf Had Hsm Hf Hu. unfold ingest_content. rewrite Hp.
  assert (Hseen : seen s s).
  { exists (s_document s). split_and!; [by destruct s|done|done|by left]. }
  assert (Hm : quiet s (ingest_edits inc graphemes encode debug_info key_order id_order parsed) 0).
  { unfold ingest_edits. eapply quiet_bind; [by apply frontmatter_quiet|]. eapply quiet_bind.
    { apply quiet_gets with (x := blocks_in_order (s_document s)). intros s' Hs'.
      unfold blocks_in_order. by rewrite (seen_blocks s s' Hs'). }
    apply quiet_bind with 0; [|apply quiet_ret]. case_decide as Hnil; [|by apply structure_quiet].
    rewrite Hnil in Hu. apply Forall2_nil_inv_l in Hu. rewrite Hu. apply quiet_bind with (0, None); apply quiet_ret. }
  destruct (Hm s Hseen) as (s' & E & d & -> & _ & Hd & Hco).
  exists (adopt_source_from parsed d).1. unfold or_fail, mbind, VM_bind, mret, VM_ret. rewrite E.
  split; [done|]. destruct (adopt_resourced parsed (set_document d s)) as [src Hsrc]. simpl in Hsrc.
  injection Hsrc as Hsrc. rewrite Hsrc. simpl. unfold doc_blocks. simpl. rewrite Hd. split; [done|].
  by destruct Hco as [->| ->].
Qed.

(** C25: Reading an unchanged file makes no edit.  The blocks of the session are
    addressed by distinct ids and the cache is coherent.  If the parsed file says
    what the document says, at every depth, then ingestion succeeds without a
    single operation: log, clock, blocks and frontmatter stay as they are; only
    the cached index and the source regions may be replaced. *)
Theorem unchanged_file_makes_no_edit inc graphemes encode debug_info key_order id_order text s parsed :
  id_order ∅ = [] → parse inc graphemes text = Some parsed →
  coherent (s_document s) → tree_wf (doc_blocks (s_document s)) → addressed (doc_blocks (s_document s)) →
  Forall (small_block debug_info) (live_blocks (doc_blocks (s_document s))).*2 →
  same_fields (doc_frontmatter (s_document s)) (doc_frontmatter parsed) →
  Forall2 (unchanged debug_info) (blocks_in_order (s_document s)) (blocks_in_order parsed) →
  ∃ d, ingest_content inc graphemes encode debug_info key_order id_order text s = (set_document d s, inr 0) ∧
    doc_blocks d = doc_blocks (s_document s) ∧ doc_frontmatter d = doc_frontmatter (s_document s).
Proof. apply ingest_quiet. Qed.
