(* ===== verification/FlatIngest.v ===== *)
(** * Exporting a document and reading it back

    The printer, the parser, the matching of blocks, the comparison of texts and
    tables and the session together: a document of plain blocks that is printed
    and read again is not edited. *)

From S2P Require Import Prelude Core Sequence SequenceInv Mark MarkOps Table Diff Text Frontmatter Codec Draft.
From S2P Require Import Block Document DocumentCache DocumentTree Sync SessionWire Session SessionTrace.
From S2P Require Import Match MatchProps Chars Inline Markdown Serialize ParseInv ParseProps TableTrip RoundTrip.
From S2P Require Import SessionClock SessionDoc FlatTrip FlatProps Ingest IngestProps IngestQuiet.

(** The rows of a table of the session are distinct and not marked as deleted. *)
Definition tables_tidy (b : Block) : Prop :=
  match blk_kind b with
  | TableBlock t => rows_live t ∧ NoDup (row_id <$> rows_in_order t)
  | _ => True
  end.

Lemma no_marks_specs b : active_intervals (blk_marks b) = [] → mark_specs b = [].
Proof.
  intros Hm. unfold mark_specs, resolved_intervals. rewrite Hm. by destruct (block_text_seq (blk_kind b)).
Qed.
Lemma plain_specs b : blk_marks b = markset_new → mark_specs b = [].
Proof. intros Hm. apply no_marks_specs. by rewrite Hm. Qed.

Lemma view_live t : rows_live t → (table_view t).2 = (λ r, row_cells t (row_id r)) <$> rows_in_order t.
Proof. intros Hl. unfold table_view. cbn [snd]. by rewrite filter_all. Qed.

Lemma view_same t t' : table_view t' = table_view t → rows_live t → rows_live t' →
  NoDup (row_id <$> rows_in_order t) →
  same_table t t' ∧ table_fingerprint_content t = table_fingerprint_content t'.
Proof.
  intros Hv Hl Hl' Hnd. pose proof (view_live t Hl) as Hr. pose proof (view_live t' Hl') as Hr'.
  assert (Hrows : (λ r, row_cells t (row_id r)) <$> rows_in_order t = (λ r, row_cells t' (row_id r)) <$> rows_in_order t')
    by (by rewrite <-Hr, <-Hr', Hv).
  apply (f_equal fst) in Hv as Hv1. pose proof (f_equal fst Hv1) as Ha. pose proof (f_equal snd Hv1) as Hh.
  unfold table_view in Ha, Hh. cbn [fst snd] in Ha, Hh.
  split; [by split_and!|]. unfold table_fingerprint_content. rewrite Hh. f_equal. f_equal. f_equal.
  apply (f_equal (fmap (join_strings "|"))) in Hrows. rewrite <-!list_fmap_compose in Hrows. exact Hrows.
Qed.

Lemma content_same debug_info b b' :
  flat_block b → tables_tidy b → content b' = content b → plain_block b' → same_leaf debug_info b b'.
Proof.
  unfold flat_block, tables_tidy, plain_block, content, same_leaf. intros Hf Ht Hc [Hm Hp].
  destruct (blk_kind b) as [text|level text|st it mv|style info text|ch|raw|t] eqn:Hk; try done;
    destruct (blk_kind b') as [text'|level' text'|st' it' mv'|style' info' text'|ch'|raw'|t'] eqn:Hk'; try done.
  - injection Hc as Hv. destruct Hf as [(Hma & _) _]. rewrite (no_marks_specs b Hma), (plain_specs b' Hm).
    cbn [block_content]. by rewrite Hv.
  - injection Hc as Hl Hv. destruct Hf as [(Hma & _) _]. rewrite (no_marks_specs b Hma), (plain_specs b' Hm).
    cbn [block_content]. by rewrite Hv, Hl.
  - injection Hc as -> -> ->. done.
  - injection Hc as ->. done.
  - assert (Hv : table_view t' = table_view t) by congruence. destruct Ht as [Hl Hnd]. destruct (view_same t t' Hv Hl Hp Hnd) as [Hs Hfp]. by split.
Qed.

(** C21: Exporting and reading back makes no edit.  The document of a session has
    no frontmatter and consists of tables, code fences, raw blocks, and headings
    and paragraphs without marks.  Printed from its blocks and read back into the
    session, the text is parsed, every block is matched with itself, and nothing
    is committed: log, clock, blocks and frontmatter stay as they are. *)
Theorem export_then_ingest_makes_no_edit inc graphemes encode debug_info key_order id_order s :
  (∀ text, string_concat (graphemes text) = text) →
  (∀ text, Forall (λ g, g ≠ EmptyString) (graphemes text)) → id_order ∅ = [] →
  let d := s_document s in
  coherent d → tree_wf (doc_blocks d) → addressed (doc_blocks d) →
  Forall (small_block debug_info) (live_blocks (doc_blocks d)).*2 →
  doc_frontmatter d = None → Forall flat_block (blocks_in_order d) → Forall tables_tidy (blocks_in_order d) →
  let text := join [newline; newline] (serialize_block <$> blocks_in_order d) in
  ¬ opens_frontmatter text → (N.of_nat (3 * byte_len text) < u64_max)%N →
  serialize_with_config (mkConfig Exact false) d = Some text ∧
  ∃ d', ingest_content inc graphemes encode debug_info key_order id_order text s = (set_document d' s, inr 0) ∧
    doc_blocks d' = doc_blocks d ∧ doc_frontmatter d' = None.
Proof.
  intros Hcat Hne Ho d Hc Hwf Had Hsm Hfm Hflat Htidy text Hopen Hsz.
  destruct (flat_parse inc graphemes Hcat Hne d Hfm Hflat Hopen Hsz) as (Hs & parsed & Hp & Hpf & Hcont & Hplain).
  split; [exact Hs|].
  destruct (ingest_quiet inc graphemes encode debug_info key_order id_order text s parsed) as (d' & Hi & Hb & Hf);
    [done..|by rewrite Hpf; fold d; rewrite Hfm| |exists d'; by rewrite Hf].
  fold d. apply Forall2_same_length_lookup_2.
  { apply (f_equal length) in Hcont. by rewrite !length_fmap in Hcont. }
  intros i b b' Hb Hb'. apply unchanged_leaf. rewrite Forall_lookup in Hflat, Htidy, Hplain.
  apply content_same; [by eapply Hflat|by eapply Htidy| |by eapply Hplain].
  by eapply fmap_lookup_same.
Qed.

(** ** A concrete session *)

(** A session whose document is the parsed sample. *)
Definition sample_session : CollaborativeDocument := set_document sample (session_new 1).
Definition no_info (info : option string) : string := default EmptyString info.

#[export] Instance addressed_dec s : Decision (addressed s).
Proof.
  destruct (decide (NoDup (blk_id <$> (live_blocks s).*2) ∧ NoDup (blk_elem <$> (live_blocks s).*2) ∧
    Forall (λ pb : BlockPath * Block, blk_elem pb.2 = path_elem pb.1) (live_blocks s))) as [H|H].
  - left. destruct H as (? & ? & ?). by split.
  - right. intros [? ? ?]. by apply H.
Defined.
#[export] Instance small_block_dec debug_info b : Decision (small_block debug_info b).
Proof. unfold small_block, small. apply _. Defined.
#[export] Instance tables_tidy_dec b : Decision (tables_tidy b).
Proof. unfold tables_tidy, rows_live. destruct (blk_kind b); apply _. Defined.

Lemma sample_coherent : coherent sample.
Proof. intros c Hc. by vm_compute in Hc. Qed.
Lemma sample_tree : tree_wf (doc_blocks sample).
Proof.
  apply document_tree_wf. apply (parse_typed true characters characters_concat characters_nonempty (chars sample_text)).
  - by vm_compute.
  - by vm_compute.
Qed.

Lemma sample_same b : b ∈ blocks_in_order sample → same_leaf no_info b b.
Proof.
  intros Hb.
  assert (Hf : Forall (λ b, flat_block b ∧ tables_tidy b) (blocks_in_order sample)).
  { apply (bool_decide_unpack _). by vm_compute. }
  assert (Hm : Forall (.= markset_new) (blk_marks <$> blocks_in_order sample)).
  { replace (blk_marks <$> blocks_in_order sample) with (replicate 5 markset_new) by (by vm_compute). by repeat constructor. }
  apply Forall_fmap in Hm. rewrite Forall_forall in Hf. rewrite Forall_forall in Hm.
  destruct (Hf b Hb) as [Hfb Ht]. apply content_same; [done..|]. split; [by apply Hm|].
  unfold tables_tidy in Ht. destruct (blk_kind b); try done. by destruct Ht.
Qed.

Lemma export_then_ingest_makes_no_edit_witness :
  let text := join [newline; newline] (serialize_block <$> blocks_in_order (s_document sample_session)) in
  text = chars sample_text ∧
  ∃ d', ingest_content true characters one_byte no_info elements elements text sample_session =
      (set_document d' sample_session, inr 0) ∧
    doc_blocks d' = doc_blocks (s_document sample_session).
Proof.
  intros text. split; [by vm_compute|].
  destruct (export_then_ingest_makes_no_edit true characters one_byte no_info elements elements sample_session)
    as [_ (d' & Hi & Hb & _)].
  - exact characters_concat.
  - exact characters_nonempty.
  - done.
  - exact sample_coherent.
  - exact sample_tree.
  - apply (bool_decide_unpack _). by vm_compute.
  - apply (bool_decide_unpack _). by vm_compute.
  - by vm_compute.
  - apply (bool_decide_unpack _). by vm_compute.
  - apply (bool_decide_unpack _). by vm_compute.
  - apply (bool_decide_unpack _). by vm_compute.
  - by vm_compute.
  - exists d'. split; [exact Hi|exact Hb].
Defined.

(** The sample file read again. *)
Lemma unchanged_file_makes_no_edit_witness :
  ∃ d, ingest_content true characters one_byte no_info elements elements (chars sample_text) sample_session =
      (set_document d sample_session, inr 0).
Proof.
  destruct (unchanged_file_makes_no_edit true characters one_byte no_info elements elements (chars sample_text)
    sample_session sample) as (d & Hd & _).
  - done.
  - by vm_compute.
  - exact sample_coherent.
  - exact sample_tree.
  - apply (bool_decide_unpack _). by vm_compute.
  - apply (bool_decide_unpack _). by vm_compute.
  - exact I.
  - change (blocks_in_order (s_document sample_session)) with (blocks_in_order sample).
    apply Forall2_same_length_lookup_2; [done|]. intros i b b' Hb Hb'. rewrite Hb in Hb'. injection Hb' as <-.
    apply unchanged_leaf. apply sample_same. by eapply list_elem_of_lookup_2.
  - exists d. exact Hd.
Defined.
