(* ===== verification/Cursor.v ===== *)
(** * Content digests and descriptor cursors

    Models the two digests of [src/src/workspace.rs] (FNV-1a on 64 and on 128
    bits) and [DescriptorCursor], the continuation a client sends back to read
    the next page of a traversal: the checksum that seals it, its validation,
    its 99 wire bytes and the hexadecimal text they are exchanged as.  A [uuid]
    is a number of 128 bits whose bytes are in network order; a revision token
    and a checksum are their sixteen bytes. *)

From S2P Require Import Prelude Core Table Codec Storage.
From Stdlib Require Import Strings.Byte.

(** ** Bytes *)

(** The [u8] literal [n]. *)
Definition byte_of (n : N) : Byte.byte := default Byte.x00 (Byte.of_N n).

(** [to_be_bytes] of an integer of [n] bytes, and back. *)
Definition to_be_bytes (n : nat) (v : N) : list Byte.byte := reverse (to_le_bytes n v).
Definition from_be_bytes (b : list Byte.byte) : N := from_le_bytes (reverse b).

(** [Uuid::as_bytes] and [Uuid::from_bytes]. *)
Definition uuid_bytes (id : Uuid) : list Byte.byte := to_be_bytes 16 id.
Definition uuid_from_bytes (b : list Byte.byte) : Uuid := from_be_bytes b.

(** [str::as_bytes]. *)
Definition str_bytes (s : string) : list Byte.byte := String.list_byte_of_string s.

Abbreviation DocumentId := N (only parsing).
Abbreviation RevisionToken := (list Byte.byte) (only parsing).

(** ** Digests *)

(** One byte of FNV-1a on [w] bits. *)
Definition fnv_step (w prime : N) (state : N) (b : Byte.byte) : N :=
  ((N.lxor state (Byte.to_N b) * prime) `mod` 2 ^ w)%N.

Module StableDigest128.
Definition OFFSET : N := 0x6c62272e07bb014262b821756295c58d.
Definition PRIME : N := 0x0000000001000000000000000000013b.
Definition new : N := OFFSET.
Definition bytes (digest : N) (b : list Byte.byte) : N := fold_left (fnv_step 128 PRIME) b digest.
Definition finish (digest : N) : N := digest.
End StableDigest128.

Definition stable_hash_128 (b : list Byte.byte) : N :=
  StableDigest128.finish (StableDigest128.bytes StableDigest128.new b).

Module StableDigest.
Definition OFFSET : N := 0xcbf29ce484222325.
Definition PRIME : N := 0x00000100000001b3.
Definition new : N := OFFSET.
Definition bytes (digest : N) (b : list Byte.byte) : N := fold_left (fnv_step 64 PRIME) b digest.
(** The length of the field, then its bytes. *)
Definition field (digest : N) (b : list Byte.byte) : N :=
  bytes (bytes digest (to_le_bytes 8 (N.of_nat (length b)))) b.
Definition finish (digest : N) : N := digest.
End StableDigest.

(** ** Cursors *)

Inductive DescriptorTraversal := DirectChildren.
#[export] Instance DescriptorTraversal_eq_dec : EqDecision DescriptorTraversal.
Proof. solve_decision. Defined.

Record DescriptorCursor := mkCursor {
  cur_version : N;
  cur_document_id : DocumentId;
  cur_revision : RevisionToken;
  cur_parent : option BlockId;
  cur_traversal : DescriptorTraversal;
  cur_last_id : BlockId;
  cur_next_index : N;
  cur_next_order : N;
  cur_checksum : list Byte.byte;
}.
#[export] Instance DescriptorCursor_eq_dec : EqDecision DescriptorCursor.
Proof. solve_decision. Defined.

Inductive DescriptorError :=
  | InvalidLimit
  | CorruptCursor
  | CursorDocumentMismatch (expected actual : DocumentId)
  | CursorRevisionMismatch (expected actual : RevisionToken)
  | CursorParentMismatch (expected actual : option BlockId)
  | CursorTraversalMismatch
  | CursorAnchorNotFound (block_id : BlockId)
  | ParentNotFound (parent : BlockId).

Definition cursor_VERSION : N := 1.
Definition cursor_WIRE_BYTES : nat := 99.

(** The byte that stands for a traversal. *)
Definition traversal_tag (t : DescriptorTraversal) : Byte.byte :=
  match t with DirectChildren => byte_of 0 end.

Definition expected_checksum (c : DescriptorCursor) : list Byte.byte :=
  let digest := StableDigest128.new in
  let digest := StableDigest128.bytes digest [byte_of (cur_version c)] in
  let digest := StableDigest128.bytes digest (uuid_bytes (cur_document_id c)) in
  let digest := StableDigest128.bytes digest (cur_revision c) in
  let digest := match cur_parent c with
                | Some parent =>
                  StableDigest128.bytes (StableDigest128.bytes digest [byte_of 1]) (uuid_bytes parent)
                | None => StableDigest128.bytes digest [byte_of 0]
                end in
  let digest := StableDigest128.bytes digest [traversal_tag (cur_traversal c)] in
  let digest := StableDigest128.bytes digest (uuid_bytes (cur_last_id c)) in
  let digest := StableDigest128.bytes digest (to_le_bytes 8 (cur_next_index c)) in
  let digest := StableDigest128.bytes digest (to_le_bytes 8 (cur_next_order c)) in
  to_be_bytes 16 (StableDigest128.finish digest).

Definition set_checksum (checksum : list Byte.byte) (c : DescriptorCursor) : DescriptorCursor :=
  mkCursor (cur_version c) (cur_document_id c) (cur_revision c) (cur_parent c) (cur_traversal c)
    (cur_last_id c) (cur_next_index c) (cur_next_order c) checksum.

Definition cursor_new (document_id : DocumentId) (revision : RevisionToken)
    (parent : option BlockId) (traversal : DescriptorTraversal) (last_id : BlockId)
    (next_index next_order : N) : DescriptorCursor :=
  let cursor := mkCursor cursor_VERSION document_id revision parent traversal last_id
                  (N.min next_index u64_max) (N.min next_order u64_max) (replicate 16 (byte_of 0)) in
  set_checksum (expected_checksum cursor) cursor.

Definition cursor_validate (document_id : DocumentId) (revision : RevisionToken)
    (parent : option BlockId) (traversal : DescriptorTraversal) (c : DescriptorCursor) :
    DescriptorError + unit :=
  if decide (cur_version c ≠ cursor_VERSION ∨ cur_checksum c ≠ expected_checksum c)
  then inl CorruptCursor
  else if decide (cur_document_id c ≠ document_id)
  then inl (CursorDocumentMismatch document_id (cur_document_id c))
  else if decide (cur_revision c ≠ revision)
  then inl (CursorRevisionMismatch revision (cur_revision c))
  else if decide (cur_parent c ≠ parent)
  then inl (CursorParentMismatch parent (cur_parent c))
  else if decide (cur_traversal c ≠ traversal) then inl CursorTraversalMismatch
  else inr tt.

(** ** The wire form *)

(** The fields in the order of their offsets; without a parent its seventeen
    bytes stay zero. *)
Definition wire_bytes (c : DescriptorCursor) : list Byte.byte :=
  [byte_of (cur_version c)] ++ uuid_bytes (cur_document_id c) ++ cur_revision c ++
  match cur_parent c with
  | Some parent => byte_of 1 :: uuid_bytes parent
  | None => replicate 17 (byte_of 0)
  end ++
  [traversal_tag (cur_traversal c)] ++ uuid_bytes (cur_last_id c) ++
  to_le_bytes 8 (cur_next_index c) ++ to_le_bytes 8 (cur_next_order c) ++ cur_checksum c.

(** [fixed_bytes]: the bytes of a range, when it lies in the slice. *)
Definition fixed_bytes (first last : nat) (b : list Byte.byte) : option (list Byte.byte) :=
  if decide (last ≤ length b) then Some (slice first last b) else None.

Definition from_wire_bytes (b : list Byte.byte) : option DescriptorCursor :=
  if decide (length b ≠ cursor_WIRE_BYTES) then None
  else
    parent_bytes ← fixed_bytes 34 50 b;
    version ← b !! 0;
    document_id ← fixed_bytes 1 17 b;
    revision ← fixed_bytes 17 33 b;
    parent_tag ← b !! 33;
    last_id ← fixed_bytes 51 67 b;
    next_index ← fixed_bytes 67 75 b;
    next_order ← fixed_bytes 75 83 b;
    checksum ← fixed_bytes 83 99 b;
    Some (mkCursor (Byte.to_N version) (uuid_from_bytes document_id) revision
      (if decide (parent_tag = byte_of 1) then Some (uuid_from_bytes parent_bytes) else None)
      DirectChildren (uuid_from_bytes last_id) (from_le_bytes next_index)
      (from_le_bytes next_order) checksum).

(** ** Hexadecimal text *)

Definition hex_char (digit : N) : Byte.byte :=
  byte_of (if decide (digit < 10)%N then 48 + digit else 87 + digit)%N.
(** [write!("{byte:02x}")]. *)
Definition hex_byte (b : Byte.byte) : list Byte.byte :=
  [hex_char (Byte.to_N b `div` 16); hex_char (Byte.to_N b `mod` 16)].

(** A digit of [from_str_radix(_, 16)]. *)
Definition hex_value (b : Byte.byte) : option N :=
  let n := Byte.to_N b in
  if decide (48 ≤ n ∧ n ≤ 57)%N then Some (n - 48)%N
  else if decide (97 ≤ n ∧ n ≤ 102)%N then Some (n - 87)%N
  else if decide (65 ≤ n ∧ n ≤ 70)%N then Some (n - 55)%N
  else None.

(** [u8::from_str_radix(text, 16)] on two characters: a sign [+] may stand in
    front of one digit. *)
Definition hex_pair (x y : Byte.byte) : option Byte.byte :=
  if decide (x = byte_of 43) then hex_value y ≫= Byte.of_N
  else h ← hex_value x; l ← hex_value y; Byte.of_N (16 * h + l)%N.

(** [Serialize] and [Deserialize]; the string is the one the carrying format
    transports. *)
Definition cursor_serialize (c : DescriptorCursor) : string :=
  String.string_of_list_byte (wire_bytes c ≫= hex_byte).

Fixpoint hex_pairs (b : list Byte.byte) : option (list Byte.byte) :=
  match b with
  | x :: y :: b => v ← hex_pair x y; vs ← hex_pairs b; Some (v :: vs)
  | _ => Some []
  end.

Definition cursor_deserialize (encoded : string) : option DescriptorCursor :=
  let b := str_bytes encoded in
  if decide (length b ≠ cursor_WIRE_BYTES * 2 ∨ ¬ Forall (λ x, Byte.to_N x < 128)%N b) then None
  else raw ← hex_pairs b; from_wire_bytes raw.
