(* ===== verification/CursorProps.v ===== *)
(** * Cursors: round trip and detection of damage

    A cursor is read back from its wire text exactly.  One step of the digest is
    a permutation of its states, so two byte strings that differ in one byte
    never have the same digest: a cursor damaged in one byte that its checksum
    covers is refused. *)

From S2P Require Import Prelude Core Table Codec Storage StorageProps Cursor.
From Stdlib Require Import Strings.Byte.

(** ** Bytes *)

Lemma length_to_be_bytes n v : length (to_be_bytes n v) = n.
Proof. unfold to_be_bytes. by rewrite length_reverse, length_to_le_bytes. Qed.

Lemma from_to_be_bytes n v : (v < 256 ^ N.of_nat n)%N → from_be_bytes (to_be_bytes n v) = v.
Proof. unfold from_be_bytes, to_be_bytes. rewrite reverse_involutive. apply from_to_le_bytes. Qed.

Lemma to_from_be_bytes b : to_be_bytes (length b) (from_be_bytes b) = b.
Proof.
  unfold from_be_bytes, to_be_bytes. rewrite <-(length_reverse b), to_from_le_bytes.
  apply reverse_involutive.
Qed.

Lemma to_N_byte_of n : (n < 256)%N → Byte.to_N (byte_of n) = n.
Proof.
  intros Hn. unfold byte_of. destruct (Byte.of_N n) eqn:E; [by apply Byte.to_of_N|].
  apply Byte.of_N_None_iff in E. lia.
Qed.
Lemma byte_of_to_N b : byte_of (Byte.to_N b) = b.
Proof. unfold byte_of. by rewrite Byte.of_to_N. Qed.

Lemma to_N_inj a b : Byte.to_N a = Byte.to_N b → a = b.
Proof. intros H. apply (f_equal byte_of) in H. by rewrite !byte_of_to_N in H. Qed.

Lemma to_be_bytes_inj n a b :
  (a < 256 ^ N.of_nat n)%N → (b < 256 ^ N.of_nat n)%N → to_be_bytes n a = to_be_bytes n b → a = b.
Proof. intros Ha Hb H. by rewrite <-(from_to_be_bytes n a), <-(from_to_be_bytes n b), H. Qed.

(** ** One step of the digest is injective *)

Lemma lxor_bound w s b : (8 ≤ w → s < 2 ^ w → N.lxor s (Byte.to_N b) < 2 ^ w)%N.
Proof.
  intros Hw Hs. assert (Byte.to_N b < 2 ^ w)%N as Hb.
  { pose proof (Byte.to_N_bounded b). assert (2 ^ 8 ≤ 2 ^ w)%N by (apply N.pow_le_mono_r; lia).
    change (2 ^ 8)%N with 256%N in *. lia. }
  destruct (decide (N.lxor s (Byte.to_N b) = 0)%N) as [->|H0]; [apply N.neq_0_lt_0, N.pow_nonzero; lia|].
  apply N.log2_lt_pow2; [lia|]. eapply N.le_lt_trans; [apply N.log2_lxor|].
  apply N.max_lub_lt.
  - destruct (decide (s = 0)%N) as [->|]; [simpl; lia|]. apply N.log2_lt_pow2; [lia|done].
  - destruct (decide (Byte.to_N b = 0)%N) as [->|]; [simpl; lia|]. apply N.log2_lt_pow2; [lia|done].
Qed.

Lemma fnv_step_bound w prime s b : (fnv_step w prime s b < 2 ^ w)%N.
Proof. apply N.mod_upper_bound, N.pow_nonzero; lia. Qed.

Lemma fnv_bound w prime l s : (s < 2 ^ w → fold_left (fnv_step w prime) l s < 2 ^ w)%N.
Proof. revert s. induction l as [|x l IH]; intros s Hs; [done|]. apply IH, fnv_step_bound. Qed.

Section fnv.
Context (w prime inverse : N).
Context (Hw : (8 ≤ w)%N) (Hinv : ((prime * inverse) `mod` 2 ^ w = 1)%N).

Lemma mul_prime_inj a b : (a < 2 ^ w → b < 2 ^ w →
  (a * prime) `mod` 2 ^ w = (b * prime) `mod` 2 ^ w → a = b)%N.
Proof.
  intros Ha Hb H.
  assert (∀ x, x < 2 ^ w → ((x * prime) `mod` 2 ^ w * inverse) `mod` 2 ^ w = x)%N as Hback.
  { intros x Hx. rewrite N.Div0.mul_mod_idemp_l, <-N.mul_assoc, <-N.Div0.mul_mod_idemp_r, Hinv.
    by rewrite N.mul_1_r, N.mod_small. }
  by rewrite <-(Hback a), <-(Hback b), H.
Qed.

Lemma fnv_step_inj s s' b : (s < 2 ^ w → s' < 2 ^ w →
  fnv_step w prime s b = fnv_step w prime s' b → s = s')%N.
Proof.
  intros Hs Hs' H. apply mul_prime_inj in H; [|by apply lxor_bound..].
  apply (f_equal (λ x, N.lxor x (Byte.to_N b))) in H.
  by rewrite !N.lxor_assoc, N.lxor_nilpotent, !N.lxor_0_r in H.
Qed.

Lemma fnv_step_byte s b b' : (s < 2 ^ w)%N → fnv_step w prime s b = fnv_step w prime s b' → b = b'.
Proof.
  intros Hs H. apply mul_prime_inj in H; [|by apply lxor_bound..].
  apply (f_equal (N.lxor s)) in H.
  rewrite <-!N.lxor_assoc, N.lxor_nilpotent, !N.lxor_0_l in H. by apply to_N_inj.
Qed.

Lemma fnv_fold_inj l s s' : (s < 2 ^ w → s' < 2 ^ w →
  fold_left (fnv_step w prime) l s = fold_left (fnv_step w prime) l s' → s = s')%N.
Proof.
  revert s s'. induction l as [|x l IH]; intros s s' Hs Hs' H; [done|].
  apply IH in H; [|apply fnv_step_bound..]. by eapply fnv_step_inj.
Qed.

(** A string with one byte replaced has another digest. *)
Lemma fnv_substitution l i x y s : (s < 2 ^ w)%N → l !! i = Some x → x ≠ y →
  fold_left (fnv_step w prime) (<[i := y]> l) s ≠ fold_left (fnv_step w prime) l s.
Proof.
  intros Hs Hi Hne. rewrite <-(take_drop_middle l i x Hi) at 2.
  rewrite insert_take_drop by (by eapply lookup_lt_Some). rewrite !fold_left_app. cbn [fold_left].
  intros H. apply fnv_fold_inj in H; [|apply fnv_step_bound..].
  apply fnv_step_byte in H; [done|]. by apply fnv_bound.
Qed.
End fnv.

Lemma hash_128_bound b : (stable_hash_128 b < 2 ^ 128)%N.
Proof.
  unfold stable_hash_128, StableDigest128.bytes. by apply fnv_bound.
Qed.

Lemma hash_128_bytes_inj a b :
  to_be_bytes 16 (stable_hash_128 a) = to_be_bytes 16 (stable_hash_128 b) →
  stable_hash_128 a = stable_hash_128 b.
Proof.
  pose proof (hash_128_bound a) as Ha. pose proof (hash_128_bound b) as Hb.
  generalize dependent (stable_hash_128 a). generalize dependent (stable_hash_128 b).
  intros ????. by apply to_be_bytes_inj.
Qed.

Lemma hash_128_substitution l i x y :
  l !! i = Some x → x ≠ y → stable_hash_128 (<[i := y]> l) ≠ stable_hash_128 l.
Proof.
  apply (fnv_substitution 128 _ 235294668448601749631651150104872562675); by vm_compute.
Qed.

(** ** The wire form *)

(** The widths of the fields. *)
Record cursor_ok (c : DescriptorCursor) : Prop := {
  ok_version : (cur_version c < 256)%N;
  ok_document : (cur_document_id c < 2 ^ 128)%N;
  ok_revision : length (cur_revision c) = 16;
  ok_parent : (default 0 (cur_parent c) < 2 ^ 128)%N;
  ok_last : (cur_last_id c < 2 ^ 128)%N;
  ok_index : (cur_next_index c < 2 ^ 64)%N;
  ok_order : (cur_next_order c < 2 ^ 64)%N;
  ok_checksum : length (cur_checksum c) = 16;
}.

Lemma length_expected_checksum c : length (expected_checksum c) = 16.
Proof. apply length_to_be_bytes. Qed.

Lemma cursor_new_sealed document_id revision parent traversal last_id i o :
  let c := cursor_new document_id revision parent traversal last_id i o in
  cur_checksum c = expected_checksum c.
Proof. unfold cursor_new. cbn [cur_checksum set_checksum]. unfold expected_checksum. reflexivity. Qed.

Lemma cursor_new_ok document_id revision parent traversal last_id i o :
  (document_id < 2 ^ 128)%N → length revision = 16 → (default 0 parent < 2 ^ 128)%N →
  (last_id < 2 ^ 128)%N →
  cursor_ok (cursor_new document_id revision parent traversal last_id i o).
Proof.
  intros. assert (u64_max < 2 ^ 64)%N by done.
  split; try done; try apply length_expected_checksum; cbn; lia.
Qed.

Lemma slice_skip a b n (x y : list Byte.byte) :
  length x = n → n ≤ a → slice a b (x ++ y) = slice (a - n) (b - n) y.
Proof.
  intros <- Ha. unfold slice. rewrite drop_app_ge by done. f_equal. lia.
Qed.
Lemma slice_here b (x y : list Byte.byte) : length x = b → slice 0 b (x ++ y) = x.
Proof. intros <-. unfold slice. rewrite drop_0, Nat.sub_0_r. apply take_app_length. Qed.
Lemma slice_all b (x : list Byte.byte) : length x = b → slice 0 b x = x.
Proof. intros <-. unfold slice. rewrite drop_0, Nat.sub_0_r. apply firstn_all. Qed.

(** The fields of 99 bytes. *)
Lemma slices_99 (v d r t p k l i o s : list Byte.byte) :
  length v = 1 → length d = 16 → length r = 16 → length t = 1 → length p = 16 → length k = 1 →
  length l = 16 → length i = 8 → length o = 8 → length s = 16 →
  let b := v ++ d ++ r ++ t ++ p ++ k ++ l ++ i ++ o ++ s in
  length b = 99 ∧ slice 0 1 b = v ∧ slice 1 17 b = d ∧ slice 17 33 b = r ∧ slice 33 34 b = t ∧
  slice 34 50 b = p ∧ slice 51 67 b = l ∧ slice 67 75 b = i ∧ slice 75 83 b = o ∧ slice 83 99 b = s.
Proof.
  intros Hv Hd Hr Ht Hp Hk Hl Hi Ho Hs b. subst b. split; [rewrite !length_app; lia|].
  repeat split;
    repeat (erewrite slice_skip by (first [eassumption|lia]); cbn [Nat.sub]);
    by (apply slice_here || apply slice_all).
Qed.

Lemma lookup_slice (b : list Byte.byte) i x : slice i (S i) b = [x] → b !! i = Some x.
Proof.
  unfold slice. replace (S i - i) with 1 by lia. intros H.
  rewrite <-(Nat.add_0_r i), <-lookup_drop. destruct (drop i b); by simplify_eq/=.
Qed.

Lemma fixed_bytes_slice b i j : length b = 99 → j ≤ 99 → fixed_bytes i j b = Some (slice i j b).
Proof. intros Hb Hj. unfold fixed_bytes. by rewrite decide_True by lia. Qed.

(** What [from_wire_bytes] reads from 99 bytes. *)
Lemma from_wire_bytes_eq b v t :
  length b = 99 → b !! 0 = Some v → b !! 33 = Some t →
  from_wire_bytes b = Some (mkCursor (Byte.to_N v) (from_be_bytes (slice 1 17 b)) (slice 17 33 b)
    (if decide (t = byte_of 1) then Some (from_be_bytes (slice 34 50 b)) else None) DirectChildren
    (from_be_bytes (slice 51 67 b)) (from_le_bytes (slice 67 75 b)) (from_le_bytes (slice 75 83 b))
    (slice 83 99 b)).
Proof.
  intros Hb Hv Ht. unfold from_wire_bytes. rewrite decide_False by (by rewrite Hb; intros []).
  rewrite !fixed_bytes_slice by first [done|lia]. cbn -[slice from_be_bytes from_le_bytes]. by rewrite Hv, Ht.
Qed.

Lemma wire_roundtrip c : cursor_ok c → from_wire_bytes (wire_bytes c) = Some c.
Proof.
  intros [Hv Hd Hr Hp Hl Hi Ho Hs]. change (2 ^ 128)%N with (256 ^ N.of_nat 16)%N in *.
  change (2 ^ 64)%N with (256 ^ N.of_nat 8)%N in *.
  set (t := match cur_parent c with Some _ => byte_of 1 | None => byte_of 0 end).
  set (p := match cur_parent c with Some p => uuid_bytes p | None => replicate 16 (byte_of 0) end).
  assert (wire_bytes c = [byte_of (cur_version c)] ++ uuid_bytes (cur_document_id c) ++
    cur_revision c ++ [t] ++ p ++ [traversal_tag (cur_traversal c)] ++ uuid_bytes (cur_last_id c) ++
    to_le_bytes 8 (cur_next_index c) ++ to_le_bytes 8 (cur_next_order c) ++ cur_checksum c) as ->.
  { unfold wire_bytes, t, p. by destruct (cur_parent c). }
  match goal with |- from_wire_bytes ?b = _ => destruct (slices_99 [byte_of (cur_version c)]
    (uuid_bytes (cur_document_id c)) (cur_revision c) [t] p [traversal_tag (cur_traversal c)]
    (uuid_bytes (cur_last_id c)) (to_le_bytes 8 (cur_next_index c))
    (to_le_bytes 8 (cur_next_order c)) (cur_checksum c)) as (Hlen & S0 & S1 & S2 & S3 & S4 & S5 & S6 & S7 & S8);
    try done; try apply length_to_be_bytes; try apply length_to_le_bytes end.
  { unfold p. destruct (cur_parent c); [apply length_to_be_bytes|done]. }
  rewrite (from_wire_bytes_eq _ _ _ Hlen (lookup_slice _ _ _ S0) (lookup_slice _ _ _ S3)).
  rewrite S1, S2, S4, S5, S6, S7, S8. clear S0 S1 S2 S3 S4 S5 S6 S7 S8 Hlen.
  unfold uuid_bytes. rewrite !from_to_be_bytes, !from_to_le_bytes, to_N_byte_of by done.
  unfold t, p. destruct c as [v d r [q|] [] l i o s]; simpl in *; [|done].
  unfold uuid_bytes. by rewrite from_to_be_bytes.
Qed.

(** ** Hexadecimal text *)

Lemma hex_value_char n : (n < 16)%N → hex_value (hex_char n) = Some n ∧ (Byte.to_N (hex_char n) < 128)%N ∧
  hex_char n ≠ byte_of 43.
Proof.
  intros Hn. unfold hex_value, hex_char.
  assert (∀ m, (m < 256)%N → m ≠ 43%N → byte_of m ≠ byte_of 43) as Hne.
  { intros m Hm Hm' E. apply (f_equal Byte.to_N) in E. by rewrite !to_N_byte_of in E. }
  destruct (decide (n < 10)%N); (rewrite to_N_byte_of by lia; repeat case_decide; try lia;
    split; [f_equal; lia|split; [lia|apply Hne; lia]]).
Qed.

Lemma hex_pair_byte b : hex_pair (hex_char (Byte.to_N b `div` 16)) (hex_char (Byte.to_N b `mod` 16)) = Some b.
Proof.
  pose proof (Byte.to_N_bounded b) as Hb. pose proof (N.mod_upper_bound (Byte.to_N b) 16).
  assert (Byte.to_N b `div` 16 < 16)%N by (apply N.Div0.div_lt_upper_bound; lia).
  unfold hex_pair. destruct (hex_value_char (Byte.to_N b `div` 16)) as (E1 & _ & Hne); [done|].
  destruct (hex_value_char (Byte.to_N b `mod` 16)) as (E2 & _); [lia|].
  rewrite decide_False by done. rewrite E1, E2. simpl.
  rewrite <-N.div_mod by lia. apply Byte.of_to_N.
Qed.

Lemma hex_pairs_roundtrip l : hex_pairs (l ≫= hex_byte) = Some l.
Proof. induction l as [|b l IH]; [done|]. cbn -[hex_pair hex_char]. by rewrite hex_pair_byte, IH. Qed.

Lemma hex_ascii l : Forall (λ x, Byte.to_N x < 128)%N (l ≫= hex_byte).
Proof.
  induction l as [|b l IH]; [constructor|]. pose proof (Byte.to_N_bounded b).
  pose proof (N.mod_upper_bound (Byte.to_N b) 16).
  assert (Byte.to_N b `div` 16 < 16)%N by (apply N.Div0.div_lt_upper_bound; lia).
  cbn [mbind list_bind hex_byte]. repeat constructor; [by apply hex_value_char|apply hex_value_char; lia|done].
Qed.

Lemma length_hex l : length (l ≫= hex_byte) = length l * 2.
Proof. induction l as [|b l IH]; [done|]. cbn. by rewrite IH. Qed.

Lemma length_wire_bytes c : cursor_ok c → length (wire_bytes c) = 99.
Proof.
  intros []. unfold wire_bytes. rewrite !length_app. unfold uuid_bytes.
  rewrite !length_to_be_bytes, !length_to_le_bytes, ok_revision0, ok_checksum0.
  destruct (cur_parent c); simpl; by rewrite ?length_to_be_bytes.
Qed.

Lemma deserialize_hex b : length b = 99 →
  cursor_deserialize (String.string_of_list_byte (b ≫= hex_byte)) = from_wire_bytes b.
Proof.
  intros Hb. unfold cursor_deserialize, str_bytes.
  rewrite String.list_byte_of_string_of_list_byte, length_hex, Hb.
  rewrite decide_False by (intros [[]|[]]; [done|apply hex_ascii]).
  by rewrite hex_pairs_roundtrip.
Qed.

(** ** Damage *)

Lemma slice_insert_out (l : list Byte.byte) a b i y :
  (i < a ∨ b ≤ i) → slice a b (<[i := y]> l) = slice a b l.
Proof.
  intros Hi. unfold slice. destruct (decide (i < a)) as [|Hia].
  - by rewrite drop_insert_lt by lia.
  - rewrite drop_insert_ge by lia. apply take_insert_ge. lia.
Qed.
Lemma slice_insert_in (l : list Byte.byte) a b i y :
  a ≤ i → i < b → slice a b (<[i := y]> l) = <[i - a := y]> (slice a b l).
Proof.
  intros Ha Hb. unfold slice. rewrite drop_insert_ge by lia. apply take_insert_lt. lia.
Qed.
Lemma lookup_slice_in (l : list Byte.byte) a b i :
  a ≤ i → i < b → slice a b l !! (i - a) = l !! i.
Proof.
  intros Ha Hb. unfold slice. rewrite lookup_take_lt by lia. rewrite lookup_drop. f_equal. lia.
Qed.

(** The bytes of the wire form that the checksum covers. *)
Definition sealed_bytes (b : list Byte.byte) (t : Byte.byte) : list Byte.byte :=
  slice 0 33 b ++ (if decide (t = byte_of 1) then t :: slice 34 50 b else [byte_of 0]) ++
  [byte_of 0] ++ slice 51 83 b.

Lemma length_slice (b : list Byte.byte) i j : j ≤ length b → length (slice i j b) = j - i.
Proof. intros Hj. unfold slice. rewrite length_take, length_drop. lia. Qed.

Lemma slice_split (b : list Byte.byte) i j k : i ≤ j → j ≤ k → slice i k b = slice i j b ++ slice j k b.
Proof.
  intros Hi Hj. unfold slice.
  replace (drop j b) with (drop (j - i) (drop i b)) by (rewrite drop_drop; f_equal; lia).
  rewrite take_take_drop. f_equal. lia.
Qed.

Lemma checksum_from_wire b v t c :
  length b = 99 → b !! 0 = Some v → b !! 33 = Some t → from_wire_bytes b = Some c →
  cur_checksum c = slice 83 99 b ∧
  expected_checksum c = to_be_bytes 16 (stable_hash_128 (sealed_bytes b t)).
Proof.
  intros Hb Hv Ht H. rewrite (from_wire_bytes_eq b v t) in H by done. injection H as <-.
  split; [done|]. unfold expected_checksum. cbn [cur_version cur_document_id cur_revision cur_parent
    cur_traversal cur_last_id cur_next_index cur_next_order].
  assert (∀ n i j, n = j - i → j ≤ 99 → to_le_bytes n (from_le_bytes (slice i j b)) = slice i j b) as Hle.
  { intros n i j -> Hj. rewrite <-(length_slice b i j) by lia. apply to_from_le_bytes. }
  assert (∀ n i j, n = j - i → j ≤ 99 → to_be_bytes n (from_be_bytes (slice i j b)) = slice i j b) as Hbe.
  { intros n i j -> Hj. rewrite <-(length_slice b i j) by lia. apply to_from_be_bytes. }
  f_equal. unfold stable_hash_128, StableDigest128.finish, StableDigest128.bytes, uuid_bytes.
  rewrite byte_of_to_N, (Hbe 16 1 17), (Hbe 16 51 67), (Hle 8 67 75), (Hle 8 75 83) by lia.
  assert (slice 0 33 b = [v] ++ slice 1 17 b ++ slice 17 33 b) as E0.
  { rewrite (slice_split b 0 1 33), (slice_split b 1 17 33) by lia. f_equal.
    destruct b as [|x b]; [done|]. injection Hv as ->. by destruct b. }
  unfold sealed_bytes. rewrite (slice_split b 51 67 83), (slice_split b 67 75 83), E0 by lia.
  case_decide as Hd; [subst t; rewrite (Hbe 16 34 50) by lia|]; by rewrite !fold_left_app.
Qed.

Lemma hash_context p q r k x y : q !! k = Some x → x ≠ y →
  stable_hash_128 (p ++ <[k := y]> q ++ r) ≠ stable_hash_128 (p ++ q ++ r).
Proof.
  intros Hq Hne. pose proof (lookup_lt_Some _ _ _ Hq).
  rewrite <-(insert_app_l q r) by done.
  replace (p ++ <[k := y]> (q ++ r)) with (<[length p + k := y]> (p ++ q ++ r)).
  - apply (hash_128_substitution _ _ x); [|done].
    rewrite lookup_app_r, Nat.add_comm, Nat.add_sub by lia. by rewrite lookup_app_l.
  - rewrite insert_app_r_alt by lia. by rewrite Nat.add_comm, Nat.add_sub.
Qed.

(** The positions the checksum covers: not the parent's tag, not the byte of the
    traversal, and the parent's bytes only when there is a parent. *)
Definition sealed_position (parent : option BlockId) (i : nat) : Prop :=
  i < 83 ∧ i ≠ 33 ∧ i ≠ 50 ∧ (34 ≤ i ∧ i < 50 → is_Some parent).

Lemma sealed_bytes_change b t i x y :
  length b = 99 → b !! i = Some x → x ≠ y → i < 83 → i ≠ 33 → i ≠ 50 →
  (34 ≤ i ∧ i < 50 → t = byte_of 1) →
  stable_hash_128 (sealed_bytes (<[i := y]> b) t) ≠ stable_hash_128 (sealed_bytes b t).
Proof.
  intros Hb Hx Hne Hi H33 H50 Hp. unfold sealed_bytes.
  destruct (decide (i < 33)); [|destruct (decide (i < 50))].
  - rewrite (slice_insert_in b 0 33), (slice_insert_out b 34 50), (slice_insert_out b 51 83) by lia.
    apply (hash_context [] _ _ _ x); [|done]. by rewrite lookup_slice_in by lia.
  - rewrite (slice_insert_out b 0 33), (slice_insert_in b 34 50), (slice_insert_out b 51 83) by lia.
    rewrite !decide_True by (apply Hp; lia).
    change (t :: ?q) with ([t] ++ q). rewrite <-!(app_assoc [t]), !(app_assoc (slice 0 33 b) [t]).
    apply (hash_context _ _ _ _ x); [|done]. by rewrite lookup_slice_in by lia.
  - rewrite (slice_insert_out b 0 33), (slice_insert_out b 34 50), (slice_insert_in b 51 83) by lia.
    rewrite !(app_assoc (if decide _ then _ else _)), !(app_assoc (slice 0 33 b)).
    match goal with |- stable_hash_128 (?p ++ _) ≠ _ =>
      pose proof (hash_context p (slice 51 83 b) [] (i - 51) x y) as Hc end.
    rewrite !app_nil_r in Hc. apply Hc; [|done]. by rewrite lookup_slice_in by lia.
Qed.

Lemma damaged_refused c i x y document_id revision parent traversal :
  cursor_ok c → cur_checksum c = expected_checksum c →
  wire_bytes c !! i = Some x → x ≠ y → sealed_position (cur_parent c) i ∨ 83 ≤ i →
  ∃ c', from_wire_bytes (<[i := y]> (wire_bytes c)) = Some c' ∧
    cursor_validate document_id revision parent traversal c' = inl CorruptCursor.
Proof.
  intros Hc Hseal Hx Hne Hpos. pose proof (length_wire_bytes c Hc) as Hlen.
  pose proof (wire_roundtrip c Hc) as Hrt. set (w := wire_bytes c) in *.
  pose proof (lookup_lt_Some _ _ _ Hx) as Hi.
  destruct (lookup_lt_is_Some_2 w 0) as [v Hv]; [lia|].
  destruct (lookup_lt_is_Some_2 w 33) as [t Ht]; [lia|].
  destruct (checksum_from_wire w v t c Hlen Hv Ht Hrt) as [Hs He].
  assert (34 ≤ i ∧ i < 50 → sealed_position (cur_parent c) i → t = byte_of 1) as Htag.
  { intros Hr (_ & _ & _ & Hp). destruct (Hp Hr) as [q Hq].
    rewrite (from_wire_bytes_eq w v t) in Hrt by done. apply (inj Some) in Hrt.
    apply (f_equal cur_parent) in Hrt. cbn [cur_parent] in Hrt. rewrite Hq in Hrt. by case_decide. }
  assert (length (<[i := y]> w) = 99) as Hlen' by (by rewrite length_insert).
  destruct (lookup_lt_is_Some_2 (<[i := y]> w) 0) as [v' Hv']; [lia|].
  assert (<[i := y]> w !! 33 = Some t) as Ht'.
  { rewrite list_lookup_insert_ne; [done|]. destruct Hpos as [(_ & ? & _)|]; lia. }
  destruct (from_wire_bytes (<[i := y]> w)) as [c'|] eqn:Hc';
    [|by rewrite (from_wire_bytes_eq _ v' t) in Hc'].
  destruct (checksum_from_wire _ v' t c' Hlen' Hv' Ht' Hc') as [Hs' He'].
  exists c'. split; [done|]. unfold cursor_validate. apply decide_True. right. rewrite Hs', He'.
  destruct Hpos as [Hpos|Hpos].
  - rewrite slice_insert_out by (destruct Hpos; lia). rewrite <-Hs, Hseal, He. intros E.
    apply hash_128_bytes_inj in E. symmetry in E. revert E. pose proof Hpos as (? & ? & ? & ?).
    apply (sealed_bytes_change w t i x); auto.
  - assert (sealed_bytes (<[i := y]> w) t = sealed_bytes w t) as ->.
    { unfold sealed_bytes. by rewrite !slice_insert_out by lia. }
    rewrite <-He, <-Hseal, Hs. intros E. apply (f_equal (λ l, l !! (i - 83))) in E.
    rewrite !lookup_slice_in, Hx, list_lookup_insert_eq in E by lia. congruence.
Qed.

(** ** The properties *)

(** A cursor sent to a client comes back as it was: its hexadecimal text decodes
    to the cursor. *)
Theorem cursor_text_roundtrip c :
  cursor_ok c → cursor_deserialize (cursor_serialize c) = Some c.
Proof.
  intros Hc. unfold cursor_serialize. rewrite deserialize_hex by (by apply length_wire_bytes).
  by apply wire_roundtrip.
Qed.

(** C40: A sealed cursor (one that [DescriptorCursor::new] makes) with one byte of
    its wire form replaced still decodes, and validation reports it as corrupt
    whatever it is checked against, if the byte is one the checksum covers or a
    byte of the checksum itself. *)
Theorem damaged_cursor_refused document_id revision parent traversal last_id n o i x y
    document_id' revision' parent' traversal' :
  let c := cursor_new document_id revision parent traversal last_id n o in
  cursor_ok c → wire_bytes c !! i = Some x → x ≠ y →
  sealed_position parent i ∨ 83 ≤ i →
  ∃ c', from_wire_bytes (<[i := y]> (wire_bytes c)) = Some c' ∧
    cursor_validate document_id' revision' parent' traversal' c' = inl CorruptCursor.
Proof.
  intros c Hc Hx Hne Hpos. by apply (damaged_refused c i x y); [|apply cursor_new_sealed|..].
Qed.

Definition example_cursor : DescriptorCursor :=
  cursor_new 5 (to_be_bytes 16 77) (Some 9%N) DirectChildren 11 3 2.

Lemma example_cursor_ok : cursor_ok example_cursor.
Proof. by apply cursor_new_ok. Qed.

Lemma cursor_text_roundtrip_witness :
  cursor_ok example_cursor ∧ cursor_deserialize (cursor_serialize example_cursor) = Some example_cursor.
Proof. split; [apply example_cursor_ok|apply cursor_text_roundtrip, example_cursor_ok]. Defined.

Lemma damaged_cursor_refused_witness :
  ∃ c', from_wire_bytes (<[40 := Byte.x01]> (wire_bytes example_cursor)) = Some c' ∧
    cursor_validate 5 (to_be_bytes 16 77) (Some 9%N) DirectChildren c' = inl CorruptCursor.
Proof.
  apply (damaged_cursor_refused 5 (to_be_bytes 16 77) (Some 9%N) DirectChildren 11 3 2 40 Byte.x00);
    [apply example_cursor_ok|by vm_compute|done|].
  left. split; [lia|split; [done|split; [done|by eexists]]].
Defined.
