(* ===== verification/Descriptor.v ===== *)
(** * Node digests and block descriptors

    Models the part of [src/src/workspace.rs] that describes one block or list
    item without its body: the digest of the node and of its subtree, the counts
    of children and descendants, the size of its text, and the search for the
    children of a parent.  [serde_json::to_vec] of a list style and of a fence
    style are parameters. *)

From S2P Require Import Prelude Core Sequence Mark Table Frontmatter Codec Text Block Document.
From S2P Require Import Inline Storage Cursor Serialize Ingest.
From Stdlib Require Import Strings.Byte.

(** ** Data *)

Inductive BlockDescriptorKind :=
  | DescParagraph | DescHeading | DescList | DescListItem | DescCodeFence | DescBlockQuote
  | DescRawBlock | DescTable.
#[export] Instance BlockDescriptorKind_eq_dec : EqDecision BlockDescriptorKind.
Proof. solve_decision. Defined.

Record BlockDescriptor := mkDescriptor {
  desc_id : BlockId;
  desc_parent : option BlockId;
  desc_order : N;
  desc_kind : BlockDescriptorKind;
  heading_level : option N;
  source_bytes : nat;
  text_bytes : N;
  node_digest : N;
  direct_child_count : N;
  descendant_count : N;
  subtree_digest : option N;
}.
#[export] Instance BlockDescriptor_eq_dec : EqDecision BlockDescriptor.
Proof. solve_decision. Defined.

(** ** Semantic marks *)

(** [SemanticMark], with its derived order. *)
Abbreviation SemanticMark := (MarkKind * list (string * MarkValue))%type (only parsing).
Definition semantic_cmp (a b : SemanticMark) : comparison :=
  cmp_then (ocmp a.1 b.1) (list_cmp a.2 b.2).
Definition semantic_le (a b : SemanticMark) : Prop := semantic_cmp a b ≠ Gt.
#[export] Instance semantic_le_dec : RelDecision semantic_le.
Proof. intros a b. unfold semantic_le. solve_decision. Defined.

(** [collect::<BTreeSet<SemanticMark>>()], as the list it iterates. *)
Definition semantic_set (l : list SemanticMark) : list SemanticMark :=
  remove_dups (merge_sort semantic_le l).

(** The kind and the attributes of an interval, the written delimiter apart. *)
Definition semantic_mark (i : MarkInterval) : SemanticMark :=
  (mi_kind i, (λ kv, (kv.1, Lww.get kv.2)) <$>
     filter (λ kv, kv.1 ≠ "delimiter") (btree_iter (mi_attrs i))).

(** One round of the loop over the spans: runs with the same marks are joined. *)
Definition push_run (marks : MarkSet) (first last : nat) (runs : list (nat * nat * list SemanticMark))
    (span : Span) : list (nat * nat * list SemanticMark) :=
  let start := Nat.max (span_start span) first in
  let stop := Nat.min (span_end span) last in
  if decide (stop ≤ start) then runs
  else
    let set := semantic_set (semantic_mark <$> omap (interval marks) (span_marks span)) in
    match set with
    | [] => runs
    | _ =>
      match List.last ((λ x, Some x) <$> runs) None with
      | Some (prior_start, prior_end, prior_marks) =>
        if decide (prior_end = start ∧ prior_marks = set)
        then removelast runs ++ [(prior_start, stop, prior_marks)]
        else runs ++ [(start, stop, set)]
      | None => runs ++ [(start, stop, set)]
      end
    end.

Definition hash_mark_kind (digest : N) (kind : MarkKind) : N :=
  match kind with
  | Bold => StableDigest.field digest (str_bytes "bold")
  | Italic => StableDigest.field digest (str_bytes "italic")
  | Code => StableDigest.field digest (str_bytes "code")
  | Link => StableDigest.field digest (str_bytes "link")
  | Custom name =>
    StableDigest.field (StableDigest.field digest (str_bytes "custom")) (str_bytes name)
  end.

Definition hash_mark_value (digest : N) (value : MarkValue) : N :=
  match value with
  | MarkString value =>
    StableDigest.field (StableDigest.field digest (str_bytes "string")) (str_bytes value)
  | MarkBool value =>
    StableDigest.field (StableDigest.field digest (str_bytes "bool"))
      [byte_of (if value then 1 else 0)]
  end.

(** The fields of one run. *)
Definition hash_run (first : nat) (digest : N) (run : nat * nat * list SemanticMark) : N :=
  let '(start, stop, marks) := run in
  let digest := StableDigest.field digest (to_le_bytes 8 (N.of_nat (start - first))) in
  let digest := StableDigest.field digest (to_le_bytes 8 (N.of_nat (stop - first))) in
  fold_left (λ digest mark,
    fold_left (λ digest kv, hash_mark_value (StableDigest.field digest (str_bytes kv.1)) kv.2)
      mark.2 (hash_mark_kind digest mark.1)) marks digest.

Definition hash_semantic_marks (digest : N) (marks : MarkSet) (ids : list OpId)
    (first last : nat) : N :=
  fold_left (hash_run first)
    (fold_left (push_run marks first last) (render_spans marks ids (length ids)) []) digest.

Definition alignment_tag (alignment : ColumnAlignment) : list Byte.byte :=
  match alignment with
  | Left => str_bytes "left"
  | Center => str_bytes "center"
  | Right => str_bytes "right"
  end.

(** [for x in l { digest.field(f(x)) }]. *)
Definition hash_fields {A} (f : A → list Byte.byte) (l : list A) (digest : N) : N :=
  fold_left (λ digest x, StableDigest.field digest (f x)) l digest.

(** The rows that are not deleted. *)
Definition live_rows (t : Table) : list TableRow :=
  filter (λ row, Lww.get (row_deleted row) = false) (sequence_iter (rows t)).

Section digests.
(** [serde_json::to_vec(style).unwrap_or_default()]. *)
Context (json_list_style : ListStyle → list Byte.byte).
Context (json_fence_style : CodeFenceStyle → list Byte.byte).

Definition hash_table (digest : N) (table : Table) : N :=
  let digest := StableDigest.field digest (str_bytes "table") in
  let digest := fold_left (λ digest column,
    StableDigest.field (StableDigest.field digest (uuid_bytes (column_id column)))
      (alignment_tag (Lww.get (column_alignment column)))) (sequence_iter (columns table)) digest in
  let digest := hash_fields str_bytes (row_cells table (header_row_id table)) digest in
  fold_left (λ digest row,
    hash_fields str_bytes (row_cells table (row_id row))
      (StableDigest.field digest (str_bytes "row"))) (live_rows table) digest.

(** The text units and the marks of a block that has text. *)
Definition hash_text (digest : N) (text : Sequence TextUnit) (marks : MarkSet) : N :=
  let digest := hash_fields (λ unit, str_bytes (grapheme unit)) (sequence_iter text) digest in
  match active_intervals marks with
  | [] => digest
  | _ =>
    let ids := paragraph_visible_ids text in
    hash_semantic_marks digest marks ids 0 (length ids)
  end.

Definition hash_block_node (digest : N) (block : Block) : N :=
  let digest := match blk_kind block with
    | Paragraph _ => StableDigest.field digest (str_bytes "paragraph")
    | Heading level _ =>
      StableDigest.field (StableDigest.field digest (str_bytes "heading")) [byte_of level]
    | ListBlock style _ _ =>
      StableDigest.field (StableDigest.field digest (str_bytes "list")) (json_list_style style)
    | CodeFence style info text =>
      hash_fields id [str_bytes "code-fence"; json_fence_style style;
        str_bytes (default EmptyString info); str_bytes text] digest
    | BlockQuote _ => StableDigest.field digest (str_bytes "block-quote")
    | RawBlock raw => StableDigest.field (StableDigest.field digest (str_bytes "raw")) (str_bytes raw)
    | TableBlock table => hash_table digest table
    end in
  match block_text_seq (blk_kind block) with
  | Some text => hash_text digest text (blk_marks block)
  | None => digest
  end.

Definition block_node_digest (block : Block) : N :=
  StableDigest.finish (hash_block_node StableDigest.new block).

Definition task_tag (task : option TaskState) : Byte.byte :=
  byte_of match task with None => 0 | Some Unchecked => 1 | Some Checked => 2 end.

(** [list_item_node_digest], from the task of the item. *)
Definition task_digest (task : option TaskState) : N :=
  StableDigest.finish (StableDigest.field
    (StableDigest.field StableDigest.new (str_bytes "list-item")) [task_tag task]).
Definition list_item_node_digest (item : ListItem) : N := task_digest (it_task item).

(** [block_digest], with [list_item_digest] on the items of a list. *)
Fixpoint block_digest (block : Block) : N :=
  match block with
  | mkBlock _ _ _ _ kind _ =>
    let digest := StableDigest.field StableDigest.new (str_bytes "block-subtree") in
    let digest := StableDigest.field digest (to_le_bytes 8 (block_node_digest block)) in
    StableDigest.finish match kind with
    | BlockQuote children =>
      iter_fold (λ _ child digest, StableDigest.field digest (to_le_bytes 8 (block_digest child)))
        children digest
    | ListBlock _ items _ =>
      iter_fold (λ _ item digest, match item with
        mkItem _ _ task _ _ _ children =>
          let inner := StableDigest.field StableDigest.new (str_bytes "list-item-subtree") in
          let inner := StableDigest.field inner (to_le_bytes 8 (task_digest task)) in
          let inner := iter_fold (λ _ child digest,
            StableDigest.field digest (to_le_bytes 8 (block_digest child))) children inner in
          StableDigest.field digest (to_le_bytes 8 (StableDigest.finish inner))
        end) items digest
    | _ => digest
    end
  end.

Definition list_item_digest (item : ListItem) : N :=
  let digest := StableDigest.field StableDigest.new (str_bytes "list-item-subtree") in
  let digest := StableDigest.field digest (to_le_bytes 8 (list_item_node_digest item)) in
  StableDigest.finish (iter_fold (λ _ child digest,
    StableDigest.field digest (to_le_bytes 8 (block_digest child))) (it_children item) digest).

(** ** Counts *)

(** [u64::try_from(len).unwrap_or(u64::MAX)]. *)
Definition count_u64 (n : nat) : N := N.min (N.of_nat n) u64_max.

(** The descendants of a node, saturating: the second count of
    [block_hierarchy_counts]. *)
Fixpoint block_descendants (block : Block) : N :=
  match block with
  | mkBlock _ _ _ _ (BlockQuote children) _ =>
    iter_fold (λ _ child count, u64_saturating_add count (block_descendants child)) children
      (count_u64 (len_visible children))
  | mkBlock _ _ _ _ (ListBlock _ items _) _ =>
    iter_fold (λ _ item count, match item with
      mkItem _ _ _ _ _ _ children =>
        u64_saturating_add count
          (iter_fold (λ _ child count, u64_saturating_add count (block_descendants child)) children
             (count_u64 (len_visible children)))
      end) items (count_u64 (len_visible items))
  | _ => 0%N
  end.

Definition block_hierarchy_counts (block : Block) : N * N :=
  match blk_kind block with
  | BlockQuote children => (count_u64 (len_visible children), block_descendants block)
  | ListBlock _ items _ => (count_u64 (len_visible items), block_descendants block)
  | _ => (0, 0)%N
  end.

Definition list_item_hierarchy_counts (item : ListItem) : N * N :=
  let direct := count_u64 (len_visible (it_children item)) in
  (direct, iter_fold (λ _ child count, u64_saturating_add count (block_hierarchy_counts child).2)
     (it_children item) direct).

(** The bytes of a row. *)
Definition cells_bytes (cells : list CellContent) : N :=
  N.of_nat (sum_list (String.length <$> cells)).

Definition block_text_bytes (block : Block) : N :=
  match blk_kind block with
  | Paragraph text | Heading _ text =>
    N.of_nat (sum_list ((λ unit, String.length (grapheme unit)) <$> sequence_iter text))
  | CodeFence _ _ text => N.of_nat (String.length text)
  | RawBlock raw => N.of_nat (String.length raw)
  | TableBlock table =>
    fold_left (λ bytes row, u64_saturating_add bytes (cells_bytes (row_cells table (row_id row))))
      (live_rows table) (cells_bytes (row_cells table (header_row_id table)))
  | ListBlock _ _ _ | BlockQuote _ => 0%N
  end.

(** ** Descriptors *)

(** [u32::try_from(order).unwrap_or(u32::MAX)]. *)
Definition order_u32 (order : N) : N := N.min order 4294967295.

Definition source_region_bytes (block_id : BlockId) (d : Document) : option nat :=
  doc_source d ≫= λ src, region_body_bytes src block_id.

Definition block_descriptor (d : Document) (block : Block) (parent : option BlockId) (order : N) :
    BlockDescriptor :=
  let '(direct, descendants) := block_hierarchy_counts block in
  let '(kind, level) := match blk_kind block with
    | Paragraph _ => (DescParagraph, None)
    | Heading level _ => (DescHeading, Some level)
    | ListBlock _ _ _ => (DescList, None)
    | CodeFence _ _ _ => (DescCodeFence, None)
    | BlockQuote _ => (DescBlockQuote, None)
    | RawBlock _ => (DescRawBlock, None)
    | TableBlock _ => (DescTable, None)
    end in
  mkDescriptor (blk_id block) parent (order_u32 order) kind level
    (default 0 (source_region_bytes (blk_id block) d)) (block_text_bytes block)
    (block_node_digest block) direct descendants None.

Definition list_item_descriptor (item : ListItem) (parent : option BlockId) (order : N) :
    BlockDescriptor :=
  let '(direct, descendants) := list_item_hierarchy_counts item in
  mkDescriptor (it_id item) parent (order_u32 order) DescListItem None 0 0
    (list_item_node_digest item) direct descendants None.
End digests.

(** ** The children of a parent *)

Inductive DescriptorChildren :=
  | ChildBlocks (blocks : Sequence Block)
  | ChildItems (items : Sequence ListItem)
  | ChildEmpty.

(** [find_descriptor_children] on one block. *)
Fixpoint children_in (parent : BlockId) (block : Block) : option DescriptorChildren :=
  match block with
  | mkBlock id _ _ _ kind _ =>
    if decide (id = parent) then
      Some match kind with
           | BlockQuote children => ChildBlocks children
           | ListBlock _ items _ => ChildItems items
           | _ => ChildEmpty
           end
    else match kind with
    | BlockQuote children => iter_find_map (children_in parent) children
    | ListBlock _ items _ =>
      iter_find_map (λ item, match item with
        mkItem iid _ _ _ _ _ children =>
          if decide (iid = parent) then Some (ChildBlocks children)
          else iter_find_map (children_in parent) children
        end) items
    | _ => None
    end
  end.

Definition find_descriptor_children (blocks : Sequence Block) (parent : BlockId) :
    option DescriptorChildren :=
  iter_find_map (children_in parent) blocks.
