(* ===== verification/Pages.v ===== *)
(** * Descriptor pages

    Models [descriptor_page] of [src/src/workspace.rs]: at most [limit]
    descriptors of the direct children of a parent and the cursor of the next
    page; and proves that a client that follows the cursors reads every child
    exactly once, in order, whatever the page size.  [usize] is 64 bits wide. *)

From S2P Require Import Prelude Core Sequence Mark Table Frontmatter Codec Text Block Document.
From S2P Require Import SequenceView Storage Cursor CursorProps Serialize Ingest Descriptor.
From Stdlib Require Import Strings.Byte.

Record DescriptorPage := mkPage {
  page_document_id : DocumentId;
  page_revision : RevisionToken;
  page_parent : option BlockId;
  page_traversal : DescriptorTraversal;
  page_items : list BlockDescriptor;
  page_next : option DescriptorCursor;
}.

(** A child at its physical index. *)
Inductive Child := ChildBlock (block : Block) | ChildItem (item : ListItem).
Definition child_id (c : Child) : BlockId :=
  match c with ChildBlock block => blk_id block | ChildItem item => it_id item end.

Section pages.
Context (json_list_style : ListStyle → list Byte.byte).
Context (json_fence_style : CodeFenceStyle → list Byte.byte).

Definition child_descriptor (d : Document) (parent : option BlockId) (c : Child) (order : N) :
    BlockDescriptor :=
  match c with
  | ChildBlock block => block_descriptor json_list_style json_fence_style d block parent order
  | ChildItem item => list_item_descriptor item parent order
  end.

(** [iter_visible_from_physical] on either kind of sequence. *)
Definition children_from (children : DescriptorChildren) (start : nat) : list (nat * Child) :=
  match children with
  | ChildBlocks blocks => prod_map id ChildBlock <$> iter_visible_from_physical blocks start
  | ChildItems items => prod_map id ChildItem <$> iter_visible_from_physical items start
  | ChildEmpty => []
  end.

(** The id of the visible child at a physical index. *)
Definition child_at_physical (children : DescriptorChildren) (i : nat) : option BlockId :=
  match children with
  | ChildBlocks blocks => blk_id <$> visible_at_physical blocks i
  | ChildItems items => it_id <$> visible_at_physical items i
  | ChildEmpty => None
  end.

Definition descriptor_children (d : Document) (parent : option BlockId) :
    DescriptorError + DescriptorChildren :=
  match parent with
  | None => inr (ChildBlocks (doc_blocks d))
  | Some parent =>
    match find_descriptor_children (doc_blocks d) parent with
    | Some children => inr children
    | None => inl (ParentNotFound parent)
    end
  end.

(** The part after the guards: the page from a physical index and an order. *)
Definition page_from (d : Document) (document_id : DocumentId) (revision : RevisionToken)
    (parent : option BlockId) (children : DescriptorChildren) (limit : N) (start : nat)
    (start_order : N) : DescriptorPage :=
  let traversal := DirectChildren in
  let indexed := imap (λ local x,
      (x.1, child_descriptor d parent x.2 (u64_saturating_add start_order (N.of_nat local))))
    (take (N.to_nat (u64_saturating_add limit 1)) (children_from children start)) in
  let has_more := bool_decide (limit < N.of_nat (length indexed))%N in
  let indexed := if has_more then removelast indexed else indexed in
  let next := if has_more then
      (λ x, cursor_new document_id revision parent traversal (desc_id x.2)
         (u64_saturating_add (N.of_nat x.1) 1)
         (u64_saturating_add start_order (N.of_nat (length indexed)))) <$> last indexed
    else None in
  mkPage document_id revision parent traversal (snd <$> indexed) next.

Definition descriptor_page (d : Document) (document_id : DocumentId) (revision : RevisionToken)
    (parent : option BlockId) (cursor : option DescriptorCursor) (limit : N) :
    DescriptorError + DescriptorPage :=
  if decide (limit = 0)%N then inl InvalidLimit
  else match descriptor_children d parent with
  | inl e => inl e
  | inr children =>
    match cursor with
    | None => inr (page_from d document_id revision parent children limit 0 0)
    | Some c =>
      match cursor_validate document_id revision parent DirectChildren c with
      | inl e => inl e
      | inr _ =>
        let start := N.to_nat (cur_next_index c) in
        let prior := match start with 0 => None | S i => child_at_physical children i end in
        if decide (prior ≠ Some (cur_last_id c)) then inl (CursorAnchorNotFound (cur_last_id c))
        else inr (page_from d document_id revision parent children limit start (cur_next_order c))
      end
    end
  end.

(** A client that asks for pages of [limit] until there is no continuation. *)
Fixpoint read_pages (fuel : nat) (d : Document) (document_id : DocumentId)
    (revision : RevisionToken) (parent : option BlockId) (cursor : option DescriptorCursor)
    (limit : N) : option (list (list BlockDescriptor)) :=
  match fuel with
  | 0 => None
  | S fuel =>
    match descriptor_page d document_id revision parent cursor limit with
    | inl _ => None
    | inr page =>
      match page_next page with
      | None => Some [page_items page]
      | Some c =>
        rest ← read_pages fuel d document_id revision parent (Some c) limit;
        Some (page_items page :: rest)
      end
    end
  end.

(** ** Reading all children *)

(** Every child with its order, as one list. *)
Definition all_descriptors (d : Document) (parent : option BlockId)
    (children : DescriptorChildren) : list BlockDescriptor :=
  imap (λ i x, child_descriptor d parent x.2 (N.of_nat i)) (children_from children 0).

(** The number of elements of the sequence, tombstones included. *)
Definition physical_len (children : DescriptorChildren) : nat :=
  match children with
  | ChildBlocks blocks => length (seq_elements blocks)
  | ChildItems items => length (seq_elements items)
  | ChildEmpty => 0
  end.

Lemma visible_from_step {T} (s : Sequence T) k e :
  seq_elements s !! k = Some e →
  iter_visible_from_physical s k =
    match elem_value e with
    | Some v => (k, v) :: iter_visible_from_physical s (S k)
    | None => iter_visible_from_physical s (S k)
    end.
Proof.
  intros He. unfold iter_visible_from_physical.
  rewrite (drop_S (imap pair (seq_elements s)) (k, e)) by (by rewrite list_lookup_imap, He).
  simpl. by destruct (elem_value e).
Qed.

Lemma visible_from_end {T} (s : Sequence T) k :
  length (seq_elements s) ≤ k → iter_visible_from_physical s k = [].
Proof. intros. unfold iter_visible_from_physical. by rewrite drop_ge by (by rewrite length_imap). Qed.

(** Where the list continues after the [n]-th visible element. *)
Lemma visible_from_lookup {T} (s : Sequence T) k n i v :
  iter_visible_from_physical s k !! n = Some (i, v) →
  drop (S n) (iter_visible_from_physical s k) = iter_visible_from_physical s (S i) ∧
  visible_at_physical s i = Some v ∧ i < length (seq_elements s).
Proof.
  remember (length (seq_elements s) - k) as m eqn:Hm. revert k n Hm.
  induction m as [|m IH]; intros k n Hm H.
  { rewrite visible_from_end in H by lia. done. }
  destruct (lookup_lt_is_Some_2 (seq_elements s) k) as [e He]; [lia|].
  rewrite (visible_from_step s k e He) in H |- *. unfold visible_at_physical in *.
  destruct (elem_value e) as [w|] eqn:Hw; [|by apply IH; [lia|]].
  destruct n as [|n].
  - injection H as <- <-. rewrite He. simpl. split; [by rewrite drop_0|split; [done|lia]].
  - simpl in H |- *. by apply IH; [lia|].
Qed.

Lemma children_from_lookup children k n i c :
  children_from children k !! n = Some (i, c) →
  drop (S n) (children_from children k) = children_from children (S i) ∧
  child_at_physical children i = Some (child_id c) ∧ i < physical_len children.
Proof.
  destruct children as [s|s|]; simpl; [..|done];
    rewrite list_lookup_fmap, fmap_Some; intros ([j v] & H & E); simplify_eq/=;
    apply visible_from_lookup in H as (H & Hv & Hlt);
    by rewrite <-fmap_drop, H, Hv.
Qed.

Lemma length_omap_le {A B} (f : A → option B) (l : list A) : length (omap f l) ≤ length l.
Proof. induction l as [|x l IH]; csimpl; [done|]. destruct (f x); csimpl; lia. Qed.

Lemma children_from_length children k : length (children_from children k) ≤ physical_len children.
Proof.
  assert (∀ T (s : Sequence T), length (iter_visible_from_physical s k) ≤ length (seq_elements s)) as Hs.
  { intros T s. unfold iter_visible_from_physical. etrans; [apply length_omap_le|].
    rewrite length_drop, length_imap. lia. }
  destruct children; simpl; rewrite ?length_fmap; auto.
Qed.

Lemma cursor_new_valid document_id revision parent last_id i o :
  cursor_validate document_id revision parent DirectChildren
    (cursor_new document_id revision parent DirectChildren last_id i o) = inr tt.
Proof.
  pose proof (cursor_new_sealed document_id revision parent DirectChildren last_id i o) as Hs.
  unfold cursor_validate. rewrite decide_False by (by intros [Hv|Hc]).
  by rewrite !decide_False by (intros Hne; by apply Hne).
Qed.

Lemma child_descriptor_id d parent c o : desc_id (child_descriptor d parent c o) = child_id c.
Proof.
  destruct c as [[? ? ? ? [] ?]|]; reflexivity.
Qed.

(** The descriptors of some children, counted from [order]. *)
Definition described (d : Document) (parent : option BlockId) (order : nat)
    (l : list (nat * Child)) : list BlockDescriptor :=
  imap (λ i x, child_descriptor d parent x.2 (N.of_nat (order + i))) l.

Lemma described_app d parent o l l' :
  described d parent o (l ++ l') = described d parent o l ++ described d parent (o + length l) l'.
Proof.
  unfold described. rewrite imap_app. f_equal. apply imap_ext. intros i x _. simpl. do 2 f_equal. lia.
Qed.

(** The children with their indices, as [page_from] holds them. *)
Definition indexed_from (d : Document) (parent : option BlockId) (order : nat)
    (l : list (nat * Child)) : list (nat * BlockDescriptor) :=
  imap (λ i x, (x.1, child_descriptor d parent x.2 (N.of_nat (order + i)))) l.

Lemma indexed_from_snd d parent order l :
  snd <$> indexed_from d parent order l = described d parent order l.
Proof. unfold indexed_from, described. by rewrite fmap_imap. Qed.

Lemma indexed_from_snoc d parent order l x :
  indexed_from d parent order (l ++ [x]) = indexed_from d parent order l ++
    [(x.1, child_descriptor d parent x.2 (N.of_nat (order + length l)))].
Proof. unfold indexed_from. rewrite imap_app. simpl. by rewrite Nat.add_0_r. Qed.

Lemma page_indexed d parent limit order (rest : list (nat * Child)) :
  (N.of_nat (order + length rest) < u64_max)%N →
  imap (λ local x,
      (x.1, child_descriptor d parent x.2 (u64_saturating_add (N.of_nat order) (N.of_nat local))))
    (take (N.to_nat (u64_saturating_add limit 1)) rest) =
  indexed_from d parent order (take (S (N.to_nat limit)) rest).
Proof.
  intros Hr. unfold indexed_from.
  replace (take (N.to_nat (u64_saturating_add limit 1)) rest) with (take (S (N.to_nat limit)) rest).
  - apply imap_ext. intros j x Hj. apply lookup_take_Some in Hj as [Hj _].
    apply lookup_lt_Some in Hj. do 2 f_equal. unfold u64_saturating_add. lia.
  - unfold u64_saturating_add. destruct (decide (limit + 1 ≤ u64_max)%N).
    + f_equal. lia.
    + rewrite !take_ge; [done|lia..].
Qed.

(** The two outcomes of a page: the last one, or a full one with a cursor at
    which the rest starts. *)
Lemma page_from_last d document_id revision parent children limit start order :
  let rest := children_from children start in
  let page := page_from d document_id revision parent children limit start (N.of_nat order) in
  (N.of_nat (order + length rest) < u64_max)%N → (N.of_nat (length rest) ≤ limit)%N →
  page_items page = described d parent order rest ∧ page_next page = None.
Proof.
  intros rest page Hr Hl. unfold page, page_from. rewrite page_indexed by done. fold rest.
  rewrite take_ge by lia. rewrite bool_decide_eq_false_2.
  - split; [apply indexed_from_snd|done].
  - unfold indexed_from. rewrite length_imap. lia.
Qed.

Lemma page_from_full d document_id revision parent children limit start order :
  let rest := children_from children start in
  let page := page_from d document_id revision parent children limit start (N.of_nat order) in
  (N.of_nat (physical_len children) < u64_max)%N →
  (N.of_nat (order + length rest) < u64_max)%N → (0 < limit < N.of_nat (length rest))%N →
  ∃ i c, page_items page = described d parent order (take (N.to_nat limit) rest) ∧
     page_next page = Some (cursor_new document_id revision parent DirectChildren (child_id c)
       (N.of_nat (S i)) (N.of_nat (order + N.to_nat limit))) ∧
     drop (N.to_nat limit) rest = children_from children (S i) ∧
     child_at_physical children i = Some (child_id c) ∧ i < physical_len children.
Proof.
  intros rest page Hp Hr Hl. destruct (N.to_nat limit) as [|n] eqn:En; [lia|].
  destruct (lookup_lt_is_Some_2 rest n) as [[i c] Hi]; [lia|].
  destruct (lookup_lt_is_Some_2 rest (S n)) as [y Hy]; [lia|].
  destruct (children_from_lookup _ _ _ _ _ Hi) as (Hd & Hc & Hlt). exists i, c.
  unfold page, page_from. rewrite page_indexed by done. fold rest. rewrite En.
  rewrite (take_S_r rest (S n) y Hy), bool_decide_eq_true_2.
  2:{ unfold indexed_from. rewrite length_imap, length_app, length_take. cbn [length]. lia. }
  rewrite indexed_from_snoc, removelast_last. cbn [page_items page_next].
  rewrite indexed_from_snd. split; [done|]. split; [|done].
  rewrite (take_S_r rest n (i, c) Hi), indexed_from_snoc, last_snoc. simpl.
  rewrite child_descriptor_id, length_app. unfold indexed_from. rewrite length_imap, length_take.
  rewrite Nat.min_l by lia. cbn [length]. unfold u64_saturating_add.
  replace (N.min (N.of_nat i + 1) u64_max) with (N.of_nat (S i)) by lia.
  replace (N.min (N.of_nat order + N.of_nat (n + 1)) u64_max) with (N.of_nat (order + S n)) by lia.
  reflexivity.
Qed.

(** Reading from a cursor that stands for [start] and [order]. *)
Lemma page_at_cursor d document_id revision parent children limit i c order :
  (0 < limit)%N → descriptor_children d parent = inr children →
  child_at_physical children i = Some (child_id c) →
  (N.of_nat (S i) ≤ u64_max)%N → (N.of_nat order ≤ u64_max)%N →
  descriptor_page d document_id revision parent
    (Some (cursor_new document_id revision parent DirectChildren (child_id c) (N.of_nat (S i))
             (N.of_nat order))) limit =
  inr (page_from d document_id revision parent children limit (S i) (N.of_nat order)).
Proof.
  intros Hl Hch Hc Hi Ho. unfold descriptor_page. rewrite decide_False, Hch, cursor_new_valid by lia.
  set (cur := cursor_new _ _ _ _ _ _ _).
  assert (cur_next_index cur = N.of_nat (S i)) as -> by (cbn [cur cursor_new set_checksum cur_next_index]; lia).
  assert (cur_next_order cur = N.of_nat order) as -> by (cbn [cur cursor_new set_checksum cur_next_order]; lia).
  change (cur_last_id cur) with (child_id c). rewrite Nat2N.id, Hc. by rewrite decide_False by (by intros []).
Qed.

(** What following the cursors from one point reads. *)
Definition reads_rest (limit : N) (all : list BlockDescriptor) (pages : list (list BlockDescriptor)) : Prop :=
  concat pages = all ∧
  ∃ full partial, pages = full ++ [partial] ∧ Forall (λ p, N.of_nat (length p) = limit) full ∧
    (N.of_nat (length partial) ≤ limit)%N.

Lemma read_pages_from d document_id revision parent children limit fuel :
  (0 < limit)%N → descriptor_children d parent = inr children →
  (N.of_nat (physical_len children) < u64_max)%N →
  ∀ cursor start order,
  let rest := children_from children start in
  descriptor_page d document_id revision parent cursor limit =
    inr (page_from d document_id revision parent children limit start (N.of_nat order)) →
  order + length rest ≤ physical_len children → length rest < fuel →
  ∃ pages, read_pages fuel d document_id revision parent cursor limit = Some pages ∧
    reads_rest limit (described d parent order rest) pages.
Proof.
  intros Hl Hch Hp. induction fuel as [|fuel IH]; intros cursor start order rest Hpage Ho Hf; [lia|].
  simpl. rewrite Hpage. destruct (decide (N.of_nat (length rest) ≤ limit)%N) as [Hlast|Hfull].
  - destruct (page_from_last d document_id revision parent children limit start order) as [-> ->];
      [fold rest; lia|done|]. eexists. split; [done|]. split; [apply app_nil_r|].
    exists [], (described d parent order rest). unfold described. by rewrite length_imap.
  - destruct (page_from_full d document_id revision parent children limit start order)
      as (i & c & -> & -> & Hd & Hc & Hi); [done|fold rest; lia|fold rest; lia|].
    fold rest in Hd |- *. assert (length (drop (N.to_nat limit) rest) = length rest - N.to_nat limit) as Hld
      by apply length_drop. rewrite Hd in Hld. pose proof (children_from_length children 0).
    destruct (IH (Some (cursor_new document_id revision parent DirectChildren (child_id c)
      (N.of_nat (S i)) (N.of_nat (order + N.to_nat limit)))) (S i) (order + N.to_nat limit))
      as (pages & Hr & Hcat & full & partial & -> & Hfl & Hpl); [|lia|lia|].
    { apply page_at_cursor; [done..|lia|lia]. }
    rewrite Hr. simpl. eexists. split; [done|]. split.
    + simpl. rewrite Hcat, <-Hd. rewrite <-(take_drop (N.to_nat limit) rest) at 3.
      rewrite described_app, length_take, Nat.min_l by lia. done.
    + exists (described d parent order (take (N.to_nat limit) rest) :: full), partial.
      split; [done|]. split; [|done]. constructor; [|done]. unfold described.
      rewrite length_imap, length_take. lia.
Qed.

(** C35: A client that starts without a cursor and follows the continuations, with any
    positive page size, gets no error: it reads the descriptor of every visible
    child of the parent once, in document order and numbered from zero, in pages
    that are full except the last. *)
Theorem pages_read_every_child d document_id revision parent children limit :
  (0 < limit)%N → descriptor_children d parent = inr children →
  (N.of_nat (physical_len children) < u64_max)%N →
  ∃ pages,
    read_pages (S (length (children_from children 0))) d document_id revision parent None limit =
      Some pages ∧
    reads_rest limit (all_descriptors d parent children) pages.
Proof.
  intros Hl Hch Hp. pose proof (children_from_length children 0).
  apply (read_pages_from d document_id revision parent children limit _ Hl Hch Hp None 0 0); [|lia..].
  unfold descriptor_page. by rewrite decide_False, Hch by lia.
Qed.
End pages.

(** Three paragraphs, the middle one deleted, read one at a time. *)
Definition paged_document : Document :=
  let block n := (mkOpId n 1, block_new (RawBlock "x") (mkOpId n 1)) in
  mkDocument None (indexed_new (sequence_delete true (mkOpId 2 1) (mkOpId 9 1)
    (from_ordered [block 1%N; block 2%N; block 3%N]))) None None.

Lemma pages_read_every_child_witness :
  ∃ pages, read_pages (λ _, []) (λ _, []) 3 paged_document 1 (replicate 16 Byte.x00) None None 1 =
      Some pages ∧
    reads_rest 1 (all_descriptors (λ _, []) (λ _, []) paged_document None
      (ChildBlocks (doc_blocks paged_document))) pages.
Proof.
  apply (pages_read_every_child (λ _, []) (λ _, []) paged_document 1 (replicate 16 Byte.x00) None
    (ChildBlocks (doc_blocks paged_document)) 1); [done|reflexivity|by vm_compute].
Defined.
