(* ===== verification/Outline.v ===== *)
(** * Outlines and change summaries

    Models the outlines of [src/src/workspace.rs]: the descriptors of every
    block and list item of a document by id, the digest of a parent's children,
    and the summary of what changed between two outlines, where the moved
    siblings are those outside a longest increasing subsequence found by
    patience sorting. *)

From S2P Require Import Prelude Core Sequence Mark Table Frontmatter Codec Text Block Document.
From S2P Require Import Storage Cursor Descriptor.
From Stdlib Require Import Strings.Byte.

(** ** Data *)

Record OutlineEntry := mkEntry { entry_descriptor : BlockDescriptor; entry_section : option BlockId }.
Record DocumentOutline := mkOutline { outline_entries : gmap BlockId OutlineEntry }.

Record ChangeSummary := mkSummary {
  sum_created : list BlockId;
  sum_deleted : list BlockId;
  sum_moved : list BlockId;
  sum_updated : list BlockId;
  affected_parents : list BlockId;
  affected_sections : list BlockId;
  operation_count : nat;
  sum_revision : RevisionToken;
}.

(** ** Capturing *)

Section capture.
Context (json_list_style : ListStyle → list Byte.byte).
Context (json_fence_style : CodeFenceStyle → list Byte.byte).

Section walk.
Context (d : Document).

(** One round of the loop of [collect_block_outline]: the order of the next
    block, the section it belongs to, and the entries. *)
Fixpoint outline_block (block : Block) (parent : option BlockId)
    (acc : N * option BlockId * gmap BlockId OutlineEntry) :
    N * option BlockId * gmap BlockId OutlineEntry :=
  match block with
  | mkBlock id _ _ _ kind _ =>
    let '(order, section, entries) := acc in
    let section := match kind with Heading _ _ => Some id | _ => section end in
    let entries := <[id := mkEntry (block_descriptor json_list_style json_fence_style d block parent order)
                             section]> entries in
    let entries := match kind with
      | BlockQuote children =>
        (iter_fold (λ _ child acc, outline_block child (Some id) acc) children
           (0%N, section, entries)).2
      | ListBlock _ items _ =>
        (iter_fold (λ _ item acc, match item with
           mkItem iid _ _ _ _ _ children =>
             let '(item_order, entries) := acc in
             let entries := <[iid := mkEntry (list_item_descriptor item (Some id) item_order)
                                       section]> entries in
             ((item_order + 1)%N,
              (iter_fold (λ _ child acc, outline_block child (Some iid) acc) children
                 (0%N, section, entries)).2)
           end) items (0%N, entries)).2
      | _ => entries
      end in
    ((order + 1)%N, section, entries)
  end.

Definition collect_block_outline (blocks : Sequence Block) (parent : option BlockId)
    (inherited_section : option BlockId) (entries : gmap BlockId OutlineEntry) :
    gmap BlockId OutlineEntry :=
  (iter_fold (λ _ block acc, outline_block block parent acc) blocks
     (0%N, inherited_section, entries)).2.
End walk.

Definition capture_outline (d : Document) : DocumentOutline :=
  mkOutline (collect_block_outline d (doc_blocks d) None None ∅).
End capture.

(** The entries under a parent, in the order of their ids, as (order, id). *)
Definition outline_children (o : DocumentOutline) (parent : option BlockId) : list (N * BlockId) :=
  (λ e, (desc_order (entry_descriptor e), desc_id (entry_descriptor e))) <$>
    filter (λ e, desc_parent (entry_descriptor e) = parent) (btree_values (outline_entries o)).

(** [sort_by_key(|(order, _)| *order)]: a stable sort. *)
Definition order_le (a b : N * BlockId) : Prop := ord_le a.1 b.1.
#[export] Instance order_le_dec : RelDecision order_le.
Proof. intros a b. unfold order_le. apply _. Defined.

Definition placement_digest (o : DocumentOutline) (parent : option BlockId) : N :=
  let digest := match parent with
    | Some parent => StableDigest.field StableDigest.new (uuid_bytes parent)
    | None => StableDigest.field StableDigest.new (str_bytes "document-root")
    end in
  StableDigest.finish
    (hash_fields (λ x, uuid_bytes x.2) (merge_sort order_le (outline_children o parent)) digest).

(** ** The longest increasing subsequence *)

Record Patience := mkPatience {
  tails : list nat;
  tail_indices : list nat;
  previous : list (option nat);
}.

(** [partition_point(p)] of a slice that [p] partitions. *)
Fixpoint partition_point {A} (p : A → bool) (l : list A) : nat :=
  match l with
  | [] => 0
  | x :: l => if p x then S (partition_point p l) else 0
  end.

(** One round of the loop over the items. *)
Definition patience_step (st : Patience) (index value : nat) : Patience :=
  let slot := partition_point (λ tail, bool_decide (tail < value)) (tails st) in
  let '(tails', indices') :=
    if decide (slot = length (tails st))
    then (tails st ++ [value], tail_indices st ++ [index])
    else (<[slot := value]> (tails st), <[slot := index]> (tail_indices st)) in
  mkPatience tails' indices'
    match slot with
    | 0 => previous st
    | S s => <[index := indices' !! s]> (previous st)
    end.

(** [while let Some(index) = cursor { ...; cursor = previous[index] }], as the
    indices it visits. *)
Fixpoint walk_back (fuel : nat) (previous : list (option nat)) (cursor : option nat) : list nat :=
  match fuel, cursor with
  | S fuel, Some index => index :: walk_back fuel previous (mjoin (previous !! index))
  | _, _ => []
  end.

Definition patience (values : list nat) : Patience :=
  fold_left (λ st x, patience_step st x.1 x.2) (imap pair values)
    (mkPatience [] [] (replicate (length values) None)).

Definition longest_increasing_ids (items : list (BlockId * nat)) : gset BlockId :=
  let st := patience (snd <$> items) in
  list_to_set (omap (λ index, fst <$> items !! index)
    (walk_back (length items) (previous st) (last (tail_indices st)))).

(** ** Summaries *)

Definition descriptor_content_changed (old new : BlockDescriptor) : bool :=
  bool_decide (desc_kind old ≠ desc_kind new) ||
  bool_decide (heading_level old ≠ heading_level new) ||
  bool_decide (source_bytes old ≠ source_bytes new) ||
  bool_decide (text_bytes old ≠ text_bytes new) ||
  bool_decide (node_digest old ≠ node_digest new) ||
  bool_decide (direct_child_count old ≠ direct_child_count new) ||
  bool_decide (descendant_count old ≠ descendant_count new) ||
  bool_decide (subtree_digest old ≠ subtree_digest new).

(** [sort_unstable] of pairs. *)
#[export] Instance order_id_ord : Ord (N * BlockId) := lexico_cmp fst snd.

(** The siblings of a parent that both outlines have, in the new order, each
    with its old position. *)
Definition common_siblings (before after : DocumentOutline) (parent : option BlockId) :
    list (BlockId * nat) :=
  let old := merge_sort ord_le (outline_children before parent) in
  let new := merge_sort ord_le (outline_children after parent) in
  let old_positions : gmap BlockId nat :=
    btree_collect (imap (λ position x, (x.2, position)) old) in
  omap (λ x, pair x.2 <$> old_positions !! x.2) new.

Definition moved_siblings (before after : DocumentOutline) (parent : option BlockId) :
    gset BlockId :=
  let common := common_siblings before after parent in
  let stationary := longest_increasing_ids common in
  list_to_set (filter (λ id, id ∉ stationary) (fst <$> common)).

Definition outline_parents (o : DocumentOutline) : list (option BlockId) :=
  (λ e, desc_parent (entry_descriptor e)) <$> btree_values (outline_entries o).

Definition reordered_ids (before after : DocumentOutline) : gset BlockId :=
  let parents : gset (option BlockId) :=
    list_to_set (outline_parents before ++ outline_parents after) in
  fold_left (λ moved parent, moved ∪ moved_siblings before after parent)
    (btree_set_iter parents) ∅.

Definition entry_ids (o : DocumentOutline) : gset BlockId := dom (outline_entries o).

(** The parents and the sections of the changed ids, before and after. *)
Definition affected_by (f : OutlineEntry → option BlockId) (before after : DocumentOutline)
    (changed : gset BlockId) : list BlockId :=
  btree_set_iter (list_to_set (omap id (btree_set_iter changed ≫= λ id,
    [outline_entries before !! id ≫= f; outline_entries after !! id ≫= f])) : gset BlockId).

Definition affected_parents_of := affected_by (λ e, desc_parent (entry_descriptor e)).
Definition affected_sections_of := affected_by entry_section.

Definition summarize_outline_change (before after : DocumentOutline) (operation_count : nat)
    (revision : RevisionToken) : ChangeSummary :=
  let before_ids := entry_ids before in
  let after_ids := entry_ids after in
  let created := btree_set_iter (after_ids ∖ before_ids) in
  let deleted := btree_set_iter (before_ids ∖ after_ids) in
  let both := btree_set_iter (before_ids ∩ after_ids) in
  let pick (p : OutlineEntry → OutlineEntry → bool) (id : BlockId) :=
    match outline_entries before !! id, outline_entries after !! id with
    | Some old, Some new => p old new
    | _, _ => false
    end in
  let reparented := filter (λ id, pick (λ old new, bool_decide
      (desc_parent (entry_descriptor old) ≠ desc_parent (entry_descriptor new))) id = true) both in
  let moved := list_to_set reparented ∪ reordered_ids before after in
  let updated := filter (λ id, pick (λ old new,
      descriptor_content_changed (entry_descriptor old) (entry_descriptor new)) id = true) both in
  let changed := list_to_set created ∪ list_to_set deleted ∪ moved ∪ list_to_set updated in
  mkSummary created deleted (btree_set_iter moved) updated
    (affected_parents_of before after changed) (affected_sections_of before after changed)
    operation_count revision.

Definition replace_moved_ids (before after : DocumentOutline) (moved : gset BlockId)
    (summary : ChangeSummary) : ChangeSummary :=
  let changed := list_to_set (sum_created summary) ∪ list_to_set (sum_deleted summary) ∪ moved ∪
                 list_to_set (sum_updated summary) in
  mkSummary (sum_created summary) (sum_deleted summary) (btree_set_iter moved) (sum_updated summary)
    (affected_parents_of before after changed) (affected_sections_of before after changed)
    (operation_count summary) (sum_revision summary).
