(* ===== verification/OutlineProps.v ===== *)
(** * Outlines: what a comparison of documents reports

    Patience sorting finds a longest increasing subsequence; so the siblings that
    a comparison of two outlines reports as moved are a smallest set whose removal
    leaves the others in their old order.  An outline has one entry for every
    block and item of its document, at any depth, if no id is used twice; so what
    is said about outlines is said about the documents: the nodes below each
    parent, in their order.  The claims about summaries are in [BatchProps]. *)

From S2P Require Import Prelude Core Sequence Mark Table Frontmatter Codec Text Block Document.
From S2P Require Import DocumentTree MatchProps IngestProps Storage Cursor Descriptor Outline.
From Stdlib Require Import Strings.Byte.

(** ** Patience sorting *)

Abbreviation increasing := (StronglySorted lt).

Lemma sorted_snoc l x : increasing (l ++ [x]) ↔ increasing l ∧ Forall (λ y, y < x) l.
Proof.
  induction l as [|y l IH]; simpl; [by split; repeat constructor|]. split.
  - intros H. apply StronglySorted_inv in H as [H Hy]. apply IH in H as [H Hx].
    apply Forall_app in Hy as [Hy Hyx]. split; [by constructor|]. constructor; [|done].
    by inversion Hyx.
  - intros [H Hx]. apply StronglySorted_inv in H as [H Hy]. inversion Hx; subst.
    constructor; [by apply IH|]. apply Forall_app. split; [done|by constructor].
Qed.

Lemma sublist_snoc_inv {A} (l k : list A) x y :
  l ++ [x] `sublist_of` k ++ [y] →
  l ++ [x] `sublist_of` k ∨ (x = y ∧ l `sublist_of` k).
Proof.
  rewrite sublist_app_r. intros (l1 & l2 & E & H1 & H2).
  apply sublist_cons_r in H2 as [H2|(l2' & -> & H2)]; apply sublist_nil_r in H2; subst.
  - left. by rewrite E, app_nil_r.
  - right. apply app_inj_tail in E as [-> ->]. done.
Qed.

Lemma partition_point_spec (l : list nat) x :
  let slot := partition_point (λ t, bool_decide (t < x)) l in
  slot ≤ length l ∧ (∀ k t, k < slot → l !! k = Some t → t < x) ∧
  (∀ t, l !! slot = Some t → x ≤ t).
Proof.
  induction l as [|y l (H1 & H2 & H3)]; simpl; [split; [lia|by split]|].
  case_bool_decide as Hy.
  - split; [lia|]. split; [|done]. intros [|k] t Hk Ht; simplify_eq/=; [done|].
    apply (H2 k); [lia|done].
  - split; [lia|]. split; [lia|]. intros t Ht. simplify_eq/=. lia.
Qed.

Section patience.
Context (vs : list nat).

(** The indices visited from [i]: each is the predecessor of the one before it,
    to its left and with a smaller value. *)
Inductive Chain (prev : list (option nat)) : nat → list nat → Prop :=
  | chain_one i : prev !! i = Some None → Chain prev i [i]
  | chain_cons i j a b l :
      prev !! i = Some (Some j) → j < i → vs !! j = Some a → vs !! i = Some b → a < b →
      Chain prev j l → Chain prev i (i :: l).

Lemma chain_length prev i l : Chain prev i l → length l ≤ S i.
Proof. induction 1; simpl in *; lia. Qed.

Lemma walk_back_chain prev i l fuel :
  Chain prev i l → length l ≤ fuel → walk_back fuel prev (Some i) = l.
Proof.
  intros H. revert fuel.
  induction H as [i Hi|i j a b l Hi Hj Ha Hb Hab Hl IH]; intros [|fuel] Hf; simpl in *; try lia.
  - rewrite Hi. simpl. by destruct fuel.
  - rewrite Hi. simpl. by rewrite IH by lia.
Qed.

Lemma chain_agree prev prev' n i l :
  (∀ k, k < n → prev' !! k = prev !! k) → i < n → Chain prev i l → Chain prev' i l.
Proof.
  intros Hp Hi H. induction H as [i Hl|i j a b l Hl Hj Ha Hb Hab _ IH].
  - apply chain_one. by rewrite Hp.
  - apply (chain_cons _ i j a b); try done; [by rewrite Hp|]. apply IH. lia.
Qed.

(** The state after the first [n] values. *)
Record patience_inv (n : nat) (st : Patience) : Prop := {
  pi_len : length (tails st) = length (tail_indices st);
  pi_prev : length (previous st) = length vs;
  pi_fresh i : n ≤ i → i < length vs → previous st !! i = Some None;
  pi_sorted k k' a b : k < k' → tails st !! k = Some a → tails st !! k' = Some b → a < b;
  pi_chain k i : tail_indices st !! k = Some i →
    i < n ∧ vs !! i = tails st !! k ∧ ∃ l, Chain (previous st) i l ∧ length l = S k;
  pi_best sub v : sub ++ [v] `sublist_of` take n vs → increasing (sub ++ [v]) →
    ∃ t, tails st !! length sub = Some t ∧ t ≤ v;
}.

(** How the step changes the lists: position [slot] receives the new value. *)
Lemma patience_step_lookup st index value k :
  let slot := partition_point (λ tail, bool_decide (tail < value)) (tails st) in
  length (tails st) = length (tail_indices st) →
  tails (patience_step st index value) !! k =
    (if decide (k = slot) then Some value else tails st !! k) ∧
  tail_indices (patience_step st index value) !! k =
    (if decide (k = slot) then Some index else tail_indices st !! k).
Proof.
  intros slot Hlen. pose proof (partition_point_spec (tails st) value) as (Hs & _).
  fold slot in Hs. unfold patience_step. fold slot.
  destruct (decide (slot = length (tails st))) as [E|E]; simpl.
  - destruct (decide (k = slot)) as [->|Hk].
    + rewrite E at 1. rewrite E, Hlen. split; [rewrite <-Hlen|]; by apply list_lookup_middle.
    + split; (destruct (decide (k < slot)); [by rewrite lookup_app_l by lia|]);
        rewrite !lookup_ge_None_2; rewrite ?length_app; simpl; lia || done.
  - destruct (decide (k = slot)) as [->|Hk].
    + split; apply list_lookup_insert_eq; lia.
    + by rewrite !list_lookup_insert_ne by done.
Qed.

Lemma patience_step_previous st index value :
  length (tails st) = length (tail_indices st) →
  previous (patience_step st index value) =
    match partition_point (λ tail, bool_decide (tail < value)) (tails st) with
    | 0 => previous st
    | S s => <[index := tail_indices st !! s]> (previous st)
    end.
Proof.
  intros Hlen. pose proof (patience_step_lookup st index value) as H. simpl in H.
  unfold patience_step in *. set (slot := partition_point _ _) in *. clearbody slot.
  destruct (decide (slot = length (tails st))) as [E|E]; cbn [previous tails tail_indices] in *;
    destruct slot as [|s]; try done; destruct (H s Hlen) as [_ ->]; by rewrite decide_False by lia.
Qed.

Lemma patience_best n st value sub v :
  patience_inv n st → vs !! n = Some value →
  sub ++ [v] `sublist_of` take (S n) vs → increasing (sub ++ [v]) →
  ∃ t, tails (patience_step st n value) !! length sub = Some t ∧ t ≤ v.
Proof.
  intros [Hlen Hprev Hfresh Hsorted Hchain Hbest] Hv Hsub Hinc.
  pose proof (partition_point_spec (tails st) value) as (Hs & Hlow & Hhigh).
  destruct (patience_step_lookup st n value (length sub) Hlen) as [-> _].
  set (slot := partition_point _ _) in *.
  rewrite (take_S_r _ _ _ Hv) in Hsub. apply sublist_snoc_inv in Hsub as [Hsub|[-> Hsub]].
  - destruct (Hbest sub v Hsub Hinc) as (t & Ht & Htv). case_decide as E; [|by eauto].
    exists value. split; [done|]. rewrite E in Ht. apply Hhigh in Ht. lia.
  - case_decide as E; [by eauto|].
    destruct (decide (length sub < slot)) as [Hlt|Hge].
    + destruct (lookup_lt_is_Some_2 (tails st) (length sub)) as [t Ht]; [lia|].
      exists t. split; [done|]. specialize (Hlow _ _ Hlt Ht). lia.
    + destruct sub as [|u sub _] using rev_ind; [simpl in *; lia|].
      apply sorted_snoc in Hinc as [Hinc Hu]. apply Forall_app in Hu as [_ Hu]. inversion Hu; subst.
      destruct (Hbest sub u Hsub Hinc) as (t & Ht & Htu). rewrite length_app in *. simpl in *.
      destruct (decide (length sub < slot)); [lia|].
      destruct (lookup_lt_is_Some_2 (tails st) slot) as [w Hw].
      { apply lookup_lt_Some in Ht. lia. }
      specialize (Hhigh _ Hw). destruct (decide (slot = length sub)) as [->|]; [simplify_eq; lia|].
      assert (w < t) by (eapply (Hsorted slot (length sub)); [lia|done..]). lia.
Qed.

Lemma patience_chain n st value k i :
  patience_inv n st → vs !! n = Some value →
  tail_indices (patience_step st n value) !! k = Some i →
  i < S n ∧ vs !! i = tails (patience_step st n value) !! k ∧
  ∃ l, Chain (previous (patience_step st n value)) i l ∧ length l = S k.
Proof.
  intros [Hlen Hprev Hfresh Hsorted Hchain Hbest] Hv.
  pose proof (partition_point_spec (tails st) value) as (Hs & Hlow & Hhigh).
  destruct (patience_step_lookup st n value k Hlen) as [-> ->].
  rewrite (patience_step_previous st n value Hlen). set (slot := partition_point _ _) in *.
  pose proof (lookup_lt_Some _ _ _ Hv) as Hn.
  assert (∀ m, m < n → (match slot with 0 => previous st
     | S s => <[n := tail_indices st !! s]> (previous st) end) !! m = previous st !! m) as Hagree.
  { intros m Hm. destruct slot; [done|]. by rewrite list_lookup_insert_ne by lia. }
  case_decide as E; intros Hi.
  - injection Hi as <-. split; [lia|]. split; [done|]. subst k. destruct slot as [|s].
    + exists [n]. split; [|done]. apply chain_one, Hfresh; lia.
    + destruct (lookup_lt_is_Some_2 (tail_indices st) s) as [j Hj]; [lia|].
      destruct (Hchain s j Hj) as (Hjn & Hvj & l & Hl & Hll). rewrite Hj in Hagree |- *.
      destruct (lookup_lt_is_Some_2 (tails st) s) as [a Ha]; [lia|]. rewrite Ha in Hvj.
      exists (n :: l). split; [|simpl; lia].
      apply (chain_cons _ n j a value); try done; [by rewrite list_lookup_insert_eq by lia|..].
      * apply (Hlow s); [lia|done].
      * by eapply chain_agree.
  - destruct (Hchain k i Hi) as (Hin & Hvi & l & Hl & Hll). split; [lia|]. split; [done|].
    exists l. split; [|done]. by eapply chain_agree.
Qed.

Lemma patience_preserves n st value :
  patience_inv n st → vs !! n = Some value → patience_inv (S n) (patience_step st n value).
Proof.
  intros Hinv Hv. pose proof Hinv as [Hlen Hprev Hfresh Hsorted Hchain Hbest].
  pose proof (partition_point_spec (tails st) value) as (Hs & Hlow & Hhigh).
  pose proof (λ k, patience_step_lookup st n value k Hlen) as Hl.
  split.
  - unfold patience_step. case_decide; simpl; rewrite ?length_app, ?length_insert; simpl; lia.
  - rewrite patience_step_previous by done. case_match; by rewrite ?length_insert.
  - intros i Hi Hlt. rewrite patience_step_previous by done.
    case_match; [apply Hfresh; lia|]. rewrite list_lookup_insert_ne by lia. apply Hfresh; lia.
  - intros k k' a b Hk. destruct (Hl k) as [-> _], (Hl k') as [-> _].
    set (slot := partition_point _ _) in *.
    case_decide as E; case_decide as E'; intros Ha Hb; simplify_eq; [lia| |by apply (Hlow k)|eauto].
    destruct (lookup_lt_is_Some_2 (tails st) slot) as [w Hw]; [apply lookup_lt_Some in Hb; lia|].
    specialize (Hhigh _ Hw). specialize (Hsorted slot k' w b Hk Hw Hb). lia.
  - intros k i. by apply patience_chain.
  - intros sub v. by apply patience_best.
Qed.

Lemma patience_all : patience_inv (length vs) (patience vs).
Proof.
  unfold patience.
  assert (∀ n, n ≤ length vs → patience_inv n (fold_left (λ st x, patience_step st x.1 x.2)
    (take n (imap pair vs)) (mkPatience [] [] (replicate (length vs) None)))) as H.
  { induction n as [|n IH]; intros Hn.
    - split; simpl; try done.
      + apply length_replicate.
      + intros i _ Hi. by apply lookup_replicate.
      + intros sub v Hs. apply sublist_nil_r in Hs. by destruct sub.
    - destruct (lookup_lt_is_Some_2 vs n) as [x Hx]; [lia|].
      rewrite (take_S_r _ n (n, x)) by (by rewrite list_lookup_imap, Hx).
      rewrite fold_left_app. apply patience_preserves; [apply IH; lia|done]. }
  specialize (H (length vs) (le_n _)). by rewrite take_ge in H by (by rewrite length_imap).
Qed.
End patience.

(** ** The ids of a longest increasing subsequence *)

(** What a chain selects is a subsequence with increasing values. *)
Lemma chain_items (items : list (BlockId * nat)) prev i l :
  Chain (snd <$> items) prev i l → i < length items →
  let kept := omap (λ k, items !! k) (reverse l) in
  kept `sublist_of` take (S i) items ∧ increasing (snd <$> kept) ∧ length kept = length l ∧
  ∃ x, items !! i = Some x ∧ Forall (λ y, y ≤ x.2) (snd <$> kept).
Proof.
  induction 1 as [i Hi|i j a b l Hi Hj Ha Hb Hab _ IH]; intros Hlt;
    destruct (lookup_lt_is_Some_2 items i) as [x Hx]; try lia.
  - simpl. rewrite Hx. simpl. split; [|split; [by repeat constructor|split; [done|]]].
    + rewrite (take_S_r _ _ _ Hx). by apply sublist_inserts_l.
    + exists x. split; [done|by repeat constructor].
  - destruct IH as (Hsub & Hinc & Hlen & y & Hy & Hall); [lia|].
    rewrite list_lookup_fmap, Hy in Ha. rewrite list_lookup_fmap, Hx in Hb. simplify_eq/=.
    rewrite reverse_cons, omap_app. cbn [omap list_omap]. rewrite Hx. cbn [omap list_omap].
    assert (Forall (λ z, z < x.2) (snd <$> omap (λ k, items !! k) (reverse l))) as Hall'.
    { eapply Forall_impl; [exact Hall|]. simpl. lia. }
    rewrite fmap_app, length_app. split; [|split; [|split; [simpl; lia|]]].
    + rewrite (take_S_r _ _ _ Hx). apply sublist_app; [|done]. etrans; [exact Hsub|].
      rewrite <-(take_drop (S j) (take i items)), take_take, Nat.min_l by lia. by apply sublist_inserts_r.
    + by apply sorted_snoc.
    + exists x. split; [done|]. apply Forall_app. split; [|by repeat constructor].
      eapply Forall_impl; [exact Hall'|]. simpl. lia.
Qed.

Lemma patience_bound (items other : list (BlockId * nat)) :
  other `sublist_of` items → increasing (snd <$> other) →
  length other ≤ length (tails (patience (snd <$> items))).
Proof.
  intros Ho Hoi. destruct (patience_all (snd <$> items)) as [_ _ _ _ _ Hbest].
  destruct other as [|x other _] using rev_ind; [simpl; lia|]. rewrite fmap_app in Hoi.
  destruct (Hbest (snd <$> other) x.2) as (t & Ht & _); [|done|].
  - rewrite take_ge by done.
    replace ((snd <$> other) ++ [x.2]) with (snd <$> other ++ [x]) by (by rewrite fmap_app).
    by apply sublist_fmap.
  - apply lookup_lt_Some in Ht. rewrite length_fmap in Ht. rewrite length_app. simpl. lia.
Qed.

Lemma longest_increasing_ids_spec (items : list (BlockId * nat)) :
  ∃ kept, kept `sublist_of` items ∧ increasing (snd <$> kept) ∧
    longest_increasing_ids items = list_to_set (fst <$> kept) ∧
    ∀ other, other `sublist_of` items → increasing (snd <$> other) → length other ≤ length kept.
Proof.
  unfold longest_increasing_ids. pose proof (patience_bound items) as Hbound.
  destruct (patience_all (snd <$> items)) as [Hlen _ _ _ Hchain _].
  set (st := patience _) in *.
  rewrite length_fmap in *. destruct (last (tail_indices st)) as [i|] eqn:Hlast.
  - rewrite last_lookup in Hlast. destruct (Hchain _ _ Hlast) as (Hi & _ & l & Hl & Hll).
    destruct (chain_items items _ i l Hl Hi) as (Hsub & Hinc & Hk & _).
    pose proof (chain_length _ _ _ _ Hl). rewrite (walk_back_chain _ _ _ _ _ Hl) by lia.
    eexists. split; [etrans; [exact Hsub|apply sublist_take]|]. split; [exact Hinc|]. split.
    + apply set_eq. intros id. rewrite !elem_of_list_to_set, list_elem_of_omap, list_elem_of_fmap.
      setoid_rewrite list_elem_of_omap. setoid_rewrite elem_of_reverse.
      setoid_rewrite fmap_Some. naive_solver.
    + intros other Ho Hoi. rewrite Hk, Hll. specialize (Hbound other Ho Hoi).
      apply lookup_lt_Some in Hlast. lia.
  - apply last_None in Hlast. exists []. split; [apply sublist_nil_l|]. split; [constructor|].
    split; [by destruct (length items)|]. intros other Ho Hoi. specialize (Hbound other Ho Hoi).
    rewrite Hlast in Hlen. simpl in *. lia.
Qed.

(** ** Captured outlines *)

(** Every entry stands under its own id. *)
Definition entries_ok (entries : gmap BlockId OutlineEntry) : Prop :=
  ∀ id e, entries !! id = Some e → desc_id (entry_descriptor e) = id.
Definition outline_ok (o : DocumentOutline) : Prop := entries_ok (outline_entries o).

Lemma entries_ok_insert id e entries :
  entries_ok entries → desc_id (entry_descriptor e) = id → entries_ok (<[id := e]> entries).
Proof. intros H He k e' [[<- <-]|[_ Hk]]%lookup_insert_Some; auto. Qed.

Lemma fold_left_keeps {A B} (P : B → Prop) (f : B → A → B) l b :
  P b → (∀ b x, x ∈ l → P b → P (f b x)) → P (fold_left f l b).
Proof.
  revert b. induction l as [|x l IH]; intros b Hb Hf; simpl; [done|].
  apply IH; [apply Hf; [left|done]|]. intros b' y Hy. apply Hf. by right.
Qed.

Section captured.
Context (json_list_style : ListStyle → list Byte.byte).
Context (json_fence_style : CodeFenceStyle → list Byte.byte).
Abbreviation outline_block := (outline_block json_list_style json_fence_style).
Abbreviation capture_outline := (capture_outline json_list_style json_fence_style).

Lemma block_descriptor_id d b parent o :
  desc_id (block_descriptor json_list_style json_fence_style d b parent o) = blk_id b.
Proof. destruct b as [? ? ? ? [] ?]; reflexivity. Qed.

Lemma outline_block_ok d n b parent acc :
  block_height b < n → entries_ok acc.2 → entries_ok (outline_block d b parent acc).2.
Proof.
  revert b parent acc. induction n as [|n IH]; intros b parent acc Hh Hok; [lia|].
  assert (∀ x parent acc, x ∈ child_seqs (blk_elem b) (blk_kind b) → entries_ok acc.2 →
    entries_ok (iter_fold (λ _ child acc, outline_block d child parent acc) x.2 acc).2) as Hseq.
  { intros x parent' acc' Hx Hacc. apply block_height_child in Hx. rewrite iter_fold_live.
    apply (fold_left_keeps (λ acc, entries_ok acc.2)); [done|]. intros a y Hy Ha.
    apply IH; [|done]. apply sequence_height_ge in Hy. lia. }
  destruct b as [id el o v k m], acc as [[order section] entries]. simpl in Hok, Hseq.
  assert (∀ section, entries_ok (<[id := mkEntry (block_descriptor json_list_style json_fence_style d
    (mkBlock id el o v k m) parent order) section]> entries)) as Hins.
  { intros sec. apply entries_ok_insert; [done|]. apply block_descriptor_id. }
  destruct k as [| |st items mv| |ch| |]; simpl; try apply Hins.
  - rewrite iter_fold_live. apply (fold_left_keeps (λ acc, entries_ok acc.2)); [apply Hins|].
    intros [io es] [e [iid ie t to tv pv ch]] Hx Ha. simpl in Ha |- *.
    apply (Hseq (InListItem el e, ch)).
    + apply list_elem_of_fmap. by exists (e, mkItem iid ie t to tv pv ch).
    + simpl. by apply entries_ok_insert.
  - apply (Hseq (InBlockQuote el, ch)); [by left|apply Hins].
Qed.

Lemma capture_outline_ok d : outline_ok (capture_outline d).
Proof.
  unfold outline_ok, capture_outline, collect_block_outline. simpl. rewrite iter_fold_live.
  apply (fold_left_keeps (λ acc, entries_ok acc.2)); [intros id e He; exfalso; exact (lookup_empty_Some _ _ He)|].
  intros a x Hx Ha. by eapply outline_block_ok; [apply Nat.lt_succ_diag_r|].
Qed.
End captured.

(** ** The places of a document *)

Inductive DocNode := NBlock (block : Block) | NItem (item : ListItem).

Definition doc_node_id (n : DocNode) : BlockId := match n with NBlock b => blk_id b | NItem it => it_id it end.
(** What is directly below a node: the children of a quote and of an item, and
    the items of a list. *)
Definition node_children (n : DocNode) : list DocNode :=
  match n with
  | NBlock b =>
    match blk_kind b with
    | BlockQuote children => NBlock <$> sequence_iter children
    | ListBlock _ items _ => NItem <$> sequence_iter items
    | _ => []
    end
  | NItem it => NBlock <$> sequence_iter (it_children it)
  end.
Definition roots (d : Document) : list DocNode := NBlock <$> sequence_iter (doc_blocks d).

(** A parent, a position below it, and the node that is there. *)
Abbreviation Place := (option BlockId * nat * DocNode)%type.

(** A block and everything below it, in document order. *)
Fixpoint block_places (parent : option BlockId) (i : nat) (block : Block) : list Place :=
  (parent, i, NBlock block) ::
  match block with
  | mkBlock id _ _ _ (BlockQuote children) _ =>
    (iter_fold (λ _ child acc, (S acc.1, acc.2 ++ block_places (Some id) acc.1 child)) children (0, [])).2
  | mkBlock id _ _ _ (ListBlock _ items _) _ =>
    (iter_fold (λ _ item acc, match item with
       mkItem iid _ _ _ _ _ children =>
         (S acc.1, acc.2 ++ (Some id, acc.1, NItem item) ::
            (iter_fold (λ _ child acc, (S acc.1, acc.2 ++ block_places (Some iid) acc.1 child)) children (0, [])).2)
       end) items (0, [])).2
  | _ => []
  end.
Definition node_places (parent : option BlockId) (i : nat) (n : DocNode) : list Place :=
  match n with
  | NBlock b => block_places parent i b
  | NItem it =>
    (parent, i, n) ::
    (iter_fold (λ _ child acc, (S acc.1, acc.2 ++ block_places (Some (it_id it)) acc.1 child)) (it_children it) (0, [])).2
  end.
(** The places of siblings that start at [i], and of what is below them. *)
Fixpoint forest_places (parent : option BlockId) (i : nat) (l : list DocNode) : list Place :=
  match l with
  | [] => []
  | n :: l => node_places parent i n ++ forest_places parent (S i) l
  end.
Definition places (d : Document) : list Place := forest_places None 0 (roots d).

Definition place_id (x : Place) : BlockId := doc_node_id x.2.

(** The children of a parent, in their order. *)
Definition child_nodes (d : Document) (parent : option BlockId) : list DocNode :=
  match parent with
  | None => roots d
  | Some id => match list_find (λ x, place_id x = id) (places d) with Some (_, x) => node_children x.2 | None => [] end
  end.

(** No id is used twice, and the positions fit in 32 bits. *)
Record outlined (d : Document) : Prop := {
  ol_distinct : NoDup (place_id <$> places d);
  ol_fit : Forall (λ x : Place, (N.of_nat x.1.2 ≤ 4294967295)%N) (places d);
}.

Lemma sequence_iter_live {T} (s : Sequence T) : sequence_iter s = snd <$> live_elems s.
Proof.
  unfold sequence_iter, live_elems. induction (seq_elements s) as [|e l IH]; [done|].
  cbn [omap list_omap]. destruct (elem_value e); [exact (f_equal (cons _) IH)|exact IH].
Qed.

Lemma doc_node_ind (P : DocNode → Prop) :
  (∀ n, (∀ c, c ∈ node_children n → P c) → P n) → ∀ n, P n.
Proof.
  intros H. assert (Hb : ∀ b, P (NBlock b)).
  { apply block_tree_ind. intros b Hq Hl. apply H. intros c. simpl. destruct (blk_kind b) eqn:Hk;
      try by intros []%elem_of_nil.
    - intros (it & -> & Hit)%list_elem_of_fmap. apply H. intros c'. simpl.
      intros (c0 & -> & Hc)%list_elem_of_fmap. by eapply Hl.
    - intros (c0 & -> & Hc)%list_elem_of_fmap. by eapply Hq. }
  intros [b|it]; [apply Hb|]. apply H. simpl. intros c (c0 & -> & _)%list_elem_of_fmap. apply Hb.
Qed.

Lemma block_forest (s : Sequence Block) (parent : option BlockId) i l :
  (iter_fold (λ _ child acc, (S acc.1, acc.2 ++ block_places parent acc.1 child)) s (i, l)).2 =
  l ++ forest_places parent i (NBlock <$> sequence_iter s).
Proof.
  rewrite iter_fold_live, sequence_iter_live. revert i l.
  induction (live_elems s) as [|x xs IH]; intros i l; simpl; [by rewrite app_nil_r|].
  rewrite IH. by rewrite <-app_assoc.
Qed.

Lemma node_places_unfold parent i n :
  node_places parent i n = (parent, i, n) :: forest_places (Some (doc_node_id n)) 0 (node_children n).
Proof.
  destruct n as [[id el op obs kind marks]|it]; simpl; [|by rewrite block_forest].
  destruct kind as [| |st items mv| |ch| |]; simpl; try done; [|by rewrite block_forest].
  f_equal. rewrite iter_fold_live, sequence_iter_live.
  match goal with |- (fold_left ?f _ _).2 = _ => enough (∀ k l, (fold_left f (live_elems items) (k, l)).2 =
    l ++ forest_places (Some id) k (NItem <$> (live_elems items).*2)) as H by apply (H 0 []) end.
  induction (live_elems items) as [|[e [iid ie t to tv pv cs]] xs IH]; intros k l; simpl; [by rewrite app_nil_r|].
  rewrite block_forest. simpl. by rewrite IH, <-app_assoc.
Qed.

Lemma elem_of_forest parent i l x :
  x ∈ forest_places parent i l ↔ ∃ j n, l !! j = Some n ∧ x ∈ node_places parent (i + j) n.
Proof.
  revert i. induction l as [|n l IH]; intros i; cbn [forest_places].
  - split; [intros []%elem_of_nil|intros (j & n & Hj & _); by destruct j].
  - rewrite elem_of_app, IH. split.
    + intros [H|(j & m & Hj & H)]; [exists 0, n; by rewrite Nat.add_0_r|].
      exists (S j), m. by rewrite Nat.add_succ_r.
    + intros ([|j] & m & Hj & H); simplify_eq/=; [left; by rewrite Nat.add_0_r in H|].
      right. exists j, m. by rewrite Nat.add_succ_r in H.
Qed.

(** What is directly below a place. *)
Definition place_below (y x : Place) : Prop :=
  ∃ j n, node_children y.2 !! j = Some n ∧ x = (Some (place_id y), j, n).

Lemma elem_of_node parent i n x :
  x ∈ node_places parent i n ↔ x = (parent, i, n) ∨ ∃ y, y ∈ node_places parent i n ∧ place_below y x.
Proof.
  revert parent i x. induction n as [n IH] using doc_node_ind. intros parent i x.
  rewrite !node_places_unfold. setoid_rewrite elem_of_cons. rewrite elem_of_forest. split.
  - intros [->|(j & c & Hj & Hx)]; [by left|right].
    apply IH in Hx as [->|(y & Hy & Hb)]; [..|by eapply list_elem_of_lookup_2].
    + exists (parent, i, n). split; [by left|]. by exists j, c.
    + exists y. split; [|done]. right. apply elem_of_forest. by exists j, c.
  - intros [->|(y & [->|Hy] & Hb)]; [by left|right..].
    + destruct Hb as (j & c & Hj & ->). exists j, c. split; [done|]. rewrite node_places_unfold. by left.
    + apply elem_of_forest in Hy as (j & c & Hj & Hy). exists j, c. split; [done|].
      apply IH; [by eapply list_elem_of_lookup_2|]. right. eauto.
Qed.

Lemma elem_of_places d x :
  x ∈ places d ↔
  (∃ i n, roots d !! i = Some n ∧ x = (None, i, n)) ∨ ∃ y, y ∈ places d ∧ place_below y x.
Proof.
  unfold places. rewrite elem_of_forest. split.
  - intros (j & n & Hj & Hx). apply elem_of_node in Hx as [->|(y & Hy & Hb)]; [left; by exists j, n|right].
    exists y. split; [|done]. apply elem_of_forest. by exists j, n.
  - intros [(i & n & Hi & ->)|(y & Hy & Hb)].
    + exists i, n. split; [done|]. rewrite node_places_unfold. by left.
    + apply elem_of_forest in Hy as (j & n & Hj & Hy). exists j, n. split; [done|]. apply elem_of_node. eauto.
Qed.

Section placed.
Context (d : Document) (Hd : outlined d).

Lemma place_unique x y : x ∈ places d → y ∈ places d → place_id x = place_id y → x = y.
Proof.
  intros [i Hi]%list_elem_of_lookup [j Hj]%list_elem_of_lookup E.
  assert (i = j) as ->; [|congruence].
  eapply NoDup_lookup; [apply (ol_distinct d Hd)|rewrite list_lookup_fmap, Hi; reflexivity|].
  by rewrite list_lookup_fmap, Hj, E.
Qed.

(** The places below a parent are its children. *)
Lemma place_kids parent i n : (parent, i, n) ∈ places d ↔ child_nodes d parent !! i = Some n.
Proof.
  rewrite elem_of_places. destruct parent as [id|]; simpl.
  - split.
    + intros [(? & ? & _ & [=])|(y & Hy & j & m & Hj & [= -> <- <-])].
      destruct (list_find _ (places d)) as [[k z]|] eqn:E.
      * apply list_find_Some in E as (Hz & Hid & _). apply list_elem_of_lookup_2 in Hz.
        by rewrite (place_unique z y Hz Hy Hid).
      * exfalso. apply list_find_None in E. rewrite Forall_forall in E. by apply (E y Hy).
    + destruct (list_find _ (places d)) as [[k z]|] eqn:E; [|done]. intros Hi. right.
      apply list_find_Some in E as (Hz & <- & _). exists z. split; [by eapply list_elem_of_lookup_2|]. by exists i, n.
  - split; [|intros Hi; left; by exists i, n].
    intros [(? & ? & ? & [= <- <-])|(y & _ & ? & ? & _ & [=])]. done.
Qed.
End placed.

(** ** What an outline captures *)

Section describe.
Context (json_list_style : ListStyle → list Byte.byte).
Context (json_fence_style : CodeFenceStyle → list Byte.byte).
Abbreviation outline_block := (outline_block json_list_style json_fence_style).
Abbreviation capture_outline := (capture_outline json_list_style json_fence_style).
Context (d : Document).

(** The descriptor of the node at a place. *)
Definition describe (x : Place) : BlockDescriptor :=
  match x with
  | (parent, i, NBlock b) => block_descriptor json_list_style json_fence_style d b parent (N.of_nat i)
  | (parent, i, NItem it) => list_item_descriptor it parent (N.of_nat i)
  end.

Lemma describe_place x :
  desc_id (describe x) = place_id x ∧ desc_parent (describe x) = x.1.1 ∧
  desc_order (describe x) = order_u32 (N.of_nat x.1.2).
Proof. destruct x as [[p i] [[? ? ? ? [] ?]|[]]]; done. Qed.

Abbreviation descriptors_of := (fmap (M := gmap BlockId) entry_descriptor).
(** The descriptors of places, each under its id. *)
Definition insert_places (l : list Place) (m : gmap BlockId BlockDescriptor) : gmap BlockId BlockDescriptor :=
  fold_left (λ m x, <[place_id x := describe x]> m) l m.

Lemma insert_places_app l k m : insert_places (l ++ k) m = insert_places k (insert_places l m).
Proof. apply fold_left_app. Qed.

Lemma outline_forest (l : list Block) :
  (∀ b, b ∈ l → ∀ p i sec m, ∃ sec' m', outline_block d b p (N.of_nat i, sec, m) = (N.of_nat (S i), sec', m') ∧
     descriptors_of m' = insert_places (node_places p i (NBlock b)) (descriptors_of m)) →
  ∀ p i sec m, let '(_, _, m') := fold_left (λ acc b, outline_block d b p acc) l (N.of_nat i, sec, m) in
    descriptors_of m' = insert_places (forest_places p i (NBlock <$> l)) (descriptors_of m).
Proof.
  induction l as [|b l IH]; intros Hb p i sec m; [done|].
  destruct (Hb b ltac:(left) p i sec m) as (sec1 & m1 & E1 & E2). cbn [fold_left]. rewrite E1.
  specialize (IH (λ b Hin, Hb b (list_elem_of_further _ _ _ Hin)) p (S i) sec1 m1).
  destruct (fold_left _ l _) as [[o sec'] m']. rewrite IH, E2. symmetry. apply insert_places_app.
Qed.

Lemma outline_places b p i sec m :
  ∃ sec' m', outline_block d b p (N.of_nat i, sec, m) = (N.of_nat (S i), sec', m') ∧
    descriptors_of m' = insert_places (node_places p i (NBlock b)) (descriptors_of m).
Proof.
  revert p i sec m. induction b as [b Hq Hl] using block_tree_ind. intros p i sec m.
  rewrite node_places_unfold. destruct b as [id el op obs kind marks]. simpl in Hq, Hl.
  assert (Hsucc : (N.of_nat i + 1 = N.of_nat (S i))%N) by lia.
  destruct kind as [| |st items mv| |ch| |]; simpl; rewrite Hsucc.
  1,2,4,6,7: eexists _, _; split; [reflexivity|]; by rewrite fmap_insert.
  - eexists _, _; split; [reflexivity|]. rewrite iter_fold_live, sequence_iter_live.
    assert (Hin : ∀ x, x ∈ live_elems items → ∀ c, c ∈ sequence_iter (it_children x.2) → ∀ p i sec m, ∃ sec' m',
      outline_block d c p (N.of_nat i, sec, m) = (N.of_nat (S i), sec', m') ∧
      descriptors_of m' = insert_places (node_places p i (NBlock c)) (descriptors_of m)).
    { intros x Hx c Hc. eapply Hl; [done| |exact Hc]. rewrite sequence_iter_live. by apply list_elem_of_fmap_2. }
    clear Hl Hq Hsucc.
    match goal with |- descriptors_of (fold_left ?f _ (_, ?m0)).2 = _ => enough (H : ∀ k m,
      descriptors_of (fold_left f (live_elems items) (N.of_nat k, m)).2 =
      insert_places (forest_places (Some id) k (NItem <$> (live_elems items).*2)) (descriptors_of m))
      by (etrans; [apply (H 0 m0)|]; by rewrite fmap_insert) end.
    clear m. induction (live_elems items) as [|[e it] xs IH]; intros n m; [done|].
    specialize (IH (λ x Hx, Hin x (list_elem_of_further _ _ _ Hx))). specialize (Hin (e, it) ltac:(left)).
    destruct it as [iid ie t to tv pv cs]. cbn [fold_left fmap list_fmap snd it_children] in *.
    pose proof (outline_forest _ Hin (Some iid) 0 sec
      (<[iid := mkEntry (list_item_descriptor (mkItem iid ie t to tv pv cs) (Some id) (N.of_nat n)) sec]> m)) as Hf.
    rewrite iter_fold_live. rewrite sequence_iter_live in Hf. rewrite fold_left_fmap in Hf.
    change (N.of_nat 0) with 0%N in Hf. destruct (fold_left _ (live_elems cs) _) as [[o' sec'] m'].
    replace (N.of_nat n + 1)%N with (N.of_nat (S n)) by lia.
    rewrite IH. cbn [forest_places]. rewrite insert_places_app. f_equal. cbn [snd]. rewrite Hf.
    rewrite node_places_unfold, fmap_insert. cbn [node_children it_children]. by rewrite sequence_iter_live.
  - eexists _, _; split; [reflexivity|].
    pose proof (outline_forest (sequence_iter ch) (λ b Hb, Hq ch b eq_refl Hb) (Some id) 0 sec) as Hf.
    specialize (Hf (<[id := mkEntry (block_descriptor json_list_style json_fence_style d
      (mkBlock id el op obs (BlockQuote ch) marks) p (N.of_nat i)) sec]> m)).
    rewrite iter_fold_live. rewrite sequence_iter_live in Hf |- *. rewrite fold_left_fmap in Hf.
    destruct (fold_left _ (live_elems ch) _) as [[o' sec'] m']. simpl. rewrite Hf. by rewrite fmap_insert.
Qed.

Lemma capture_places : descriptors_of (outline_entries (capture_outline d)) = insert_places (places d) ∅.
Proof.
  unfold capture_outline, collect_block_outline. simpl. rewrite iter_fold_live.
  pose proof (outline_forest (sequence_iter (doc_blocks d)) (λ b _, outline_places b) None 0 None ∅) as Hf.
  rewrite sequence_iter_live in Hf. rewrite fold_left_fmap in Hf. unfold places, roots. rewrite sequence_iter_live.
  change (N.of_nat 0) with 0%N in Hf.
  destruct (fold_left _ (live_elems _) _) as [[o' sec'] m']. simpl. by rewrite Hf, fmap_empty.
Qed.

(** An outline has an entry for the node at every place, and no other. *)
Lemma captured (Hd : outlined d) id D :
  (entry_descriptor <$> (outline_entries (capture_outline d) !! id)) = Some D ↔
  ∃ x, x ∈ places d ∧ place_id x = id ∧ D = describe x.
Proof.
  rewrite <-lookup_fmap, capture_places.
  assert (H : ∀ l m, NoDup (place_id <$> l) → insert_places l m !! id = Some D ↔
    (∃ x, x ∈ l ∧ place_id x = id ∧ D = describe x) ∨ (id ∉ place_id <$> l) ∧ m !! id = Some D).
  { induction l as [|x l IH]; intros m Hn; simpl.
    - split; [right; split; [apply not_elem_of_nil|done]|]. intros [(? & []%elem_of_nil & _)|[_ ?]]; done.
    - apply NoDup_cons in Hn as [Hx Hn]. rewrite IH by done. setoid_rewrite elem_of_cons. split.
      + intros [(y & Hy & ? & ?)|[Hni [[<- <-]|[Hne Hm]]%lookup_insert_Some]]; [left; eauto|left; eauto|right].
        split; [|done]. intros [|]; [by apply Hne|done].
      + intros [(y & [->|Hy] & <- & ->)|[Hni Hm]]; [right|left; eauto|right].
        * split; [done|]. apply lookup_insert_eq.
        * split; [auto|]. rewrite lookup_insert_ne; [done|]. intros E. apply Hni. by left. }
  rewrite H by apply Hd. rewrite lookup_empty. split; [intros [?|[_ [=]]]; done|auto].
Qed.
End describe.

(** ** Siblings *)

Section siblings.
Context (o : DocumentOutline) (Ho : outline_ok o).

Lemma elem_of_children parent order id :
  (order, id) ∈ outline_children o parent ↔
  ∃ e, outline_entries o !! id = Some e ∧ desc_parent (entry_descriptor e) = parent ∧
       desc_order (entry_descriptor e) = order.
Proof.
  unfold outline_children. rewrite list_elem_of_fmap. split.
  - intros (e & [= -> ->] & He). apply list_elem_of_filter in He as [Hp He].
    apply elem_of_btree_values in He as [k Hk]. exists e. by rewrite (Ho k e Hk).
  - intros (e & He & Hp & Hor). exists e. rewrite (Ho id e He), Hor. split; [done|].
    apply list_elem_of_filter. split; [done|]. apply elem_of_btree_values. by exists id.
Qed.

Lemma children_nodup parent : NoDup (snd <$> outline_children o parent).
Proof.
  unfold outline_children. rewrite <-list_fmap_compose. unfold compose. simpl.
  eapply sublist_NoDup; [apply (NoDup_btree_keys (outline_entries o))|].
  unfold btree_keys, btree_values.
  assert (∀ x, x ∈ btree_iter (outline_entries o) → desc_id (entry_descriptor x.2) = x.1) as Hkey.
  { intros [k e] Hx. apply elem_of_btree_iter in Hx. by apply Ho. }
  induction (btree_iter (outline_entries o)) as [|[k e] l IH]; [done|]. cbn [fmap list_fmap snd fst].
  rewrite filter_cons. assert (desc_id (entry_descriptor e) = k) as Hk by (apply (Hkey (k, e)); left).
  destruct (decide _); cbn [fmap list_fmap];
    [rewrite Hk; apply sublist_skip|apply sublist_cons]; apply IH; intros x Hx; apply Hkey; by right.
Qed.

(** The siblings in their order. *)
Definition siblings (parent : option BlockId) : list BlockId :=
  snd <$> merge_sort ord_le (outline_children o parent).

Lemma siblings_nodup parent : NoDup (siblings parent).
Proof.
  unfold siblings. rewrite (merge_sort_Permutation ord_le). apply children_nodup.
Qed.

Lemma elem_of_siblings parent id :
  id ∈ siblings parent ↔
  ∃ e, outline_entries o !! id = Some e ∧ desc_parent (entry_descriptor e) = parent.
Proof.
  unfold siblings. rewrite list_elem_of_fmap. setoid_rewrite (merge_sort_Permutation ord_le).
  split.
  - intros ([order id'] & -> & Hx). apply elem_of_children in Hx as (e & He & Hp & _). eauto.
  - intros (e & He & Hp). exists (desc_order (entry_descriptor e), id). split; [done|].
    apply elem_of_children. eauto.
Qed.
End siblings.

(** ** The siblings both outlines have *)

Lemma omap_fst_sublist {A B} (f : A → option B) (l : list A) :
  (fst <$> omap (λ x, pair x <$> f x) l) `sublist_of` l.
Proof.
  induction l as [|x l IH]; csimpl; [done|].
  destruct (f x); csimpl; [by apply sublist_skip|by apply sublist_cons].
Qed.

Lemma filter_ext_in {A} (P Q : A → Prop) `{!∀ x, Decision (P x), !∀ x, Decision (Q x)} (l : list A) :
  (∀ x, x ∈ l → P x ↔ Q x) → filter P l = filter Q l.
Proof.
  induction l as [|x l IH]; intros HPQ; [done|]. rewrite !filter_cons.
  assert (P x ↔ Q x) as Hx by (apply HPQ; left).
  rewrite IH by (intros y Hy; apply HPQ; by right). do 2 case_decide; tauto.
Qed.

Section common.
Context (before after : DocumentOutline) (Hb : outline_ok before) (Ha : outline_ok after).

Lemma common_siblings_eq parent : ∃ pos : gmap BlockId nat,
  common_siblings before after parent = omap (λ id, pair id <$> pos !! id) (siblings after parent) ∧
  ∀ id i, pos !! id = Some i ↔ siblings before parent !! i = Some id.
Proof.
  unfold common_siblings. eexists. split.
  - unfold siblings. rewrite omap_fmap. reflexivity.
  - intros id i. rewrite btree_collect_lookup.
    + rewrite elem_of_lookup_imap. unfold siblings. rewrite list_lookup_fmap, fmap_Some. naive_solver.
    + assert (∀ l : list (N * BlockId), (imap (λ p x, (x.2, p)) l).*1 = snd <$> l) as ->.
      { intros l. rewrite fmap_imap. apply imap_const. }
      by apply siblings_nodup.
Qed.

Lemma common_nodup parent : NoDup (common_siblings before after parent).*1.
Proof.
  destruct (common_siblings_eq parent) as (pos & -> & _).
  eapply sublist_NoDup; [by apply (siblings_nodup after Ha parent)|apply omap_fst_sublist].
Qed.
End common.

(** ** Fewest moves *)

Lemma filter_sublist_ids (l k : list (BlockId * nat)) :
  l `sublist_of` k → NoDup k.*1 → filter (λ x, x.1 ∈ l.*1) k = l.
Proof.
  induction 1 as [|x l k Hs IH|x l k Hs IH]; intros Hn; [done|..];
    rewrite fmap_cons in Hn; apply NoDup_cons in Hn as [Hx Hn].
  - rewrite filter_cons_True by (rewrite fmap_cons; left). f_equal.
    etrans; [|by apply IH]. apply filter_ext_in. intros y Hy. rewrite fmap_cons, elem_of_cons.
    split; [|by right]. intros [E|]; [|done]. destruct Hx. rewrite <-E. by apply list_elem_of_fmap_2.
  - rewrite filter_cons_False; [by apply IH|]. intros H. apply Hx.
    by eapply elem_of_sublist; [|apply sublist_fmap].
Qed.

Lemma length_filter_split {A} (P : A → Prop) `{!∀ x, Decision (P x)} (l : list A) :
  length (filter P l) + length (filter (λ x, ¬ P x) l) = length l.
Proof.
  induction l as [|x l IH]; [done|]. rewrite !filter_cons. destruct (decide (P x)).
  - rewrite (decide_False (P:=¬ P x)) by tauto. simpl. lia.
  - rewrite (decide_True (P:=¬ P x)) by tauto. simpl. lia.
Qed.

Lemma moved_siblings_split before after parent :
  outline_ok before → outline_ok after →
  let common := common_siblings before after parent in
  let moved := moved_siblings before after parent in
  ∃ kept, filter (λ x, x.1 ∉ moved) common = kept ∧ increasing (snd <$> kept) ∧
    size moved + length kept = length common ∧
    ∀ other, other `sublist_of` common → increasing (snd <$> other) → length other ≤ length kept.
Proof.
  intros Hb Ha common moved. pose proof (common_nodup before after Hb Ha parent) as Hn. fold common in Hn.
  destruct (longest_increasing_ids_spec common) as (kept & Hsub & Hinc & Hset & Hbest).
  exists kept. assert (∀ x, x ∈ common → x.1 ∈ moved ↔ x.1 ∉ kept.*1) as Hmoved.
  { intros x Hx. unfold moved, moved_siblings. fold common. rewrite elem_of_list_to_set, list_elem_of_filter, Hset.
    rewrite elem_of_list_to_set. split; [tauto|]. intros H. split; [done|]. by apply list_elem_of_fmap_2. }
  assert (filter (λ x, x.1 ∉ moved) common = kept) as Hk.
  { etrans; [|by apply filter_sublist_ids]. apply filter_ext_in. intros x Hx. rewrite Hmoved by done.
    split; [apply dec_stable|auto]. }
  split; [done|]. split; [done|]. split; [|done].
  assert (moved = list_to_set (filter (λ x, x.1 ∈ moved) common).*1) as ->.
  { apply set_eq. intros id. rewrite elem_of_list_to_set, list_elem_of_fmap.
    setoid_rewrite list_elem_of_filter. split; [|naive_solver]. intros Hid. pose proof Hid as Hid'.
    unfold moved, moved_siblings in Hid'. rewrite elem_of_list_to_set, list_elem_of_filter in Hid'.
    destruct Hid' as [_ (x & -> & Hx)%list_elem_of_fmap]. by exists x. }
  rewrite size_list_to_set.
  - rewrite length_fmap. rewrite <-(length_filter_split (λ x, x.1 ∈ moved) common). by rewrite Hk.
  - eapply sublist_NoDup; [exact Hn|]. apply sublist_fmap, sublist_filter.
Qed.

Lemma fewest_moves before after parent (M : gset BlockId) :
  outline_ok before → outline_ok after →
  increasing (snd <$> filter (λ x, x.1 ∉ M) (common_siblings before after parent)) →
  size (moved_siblings before after parent) ≤ size M.
Proof.
  intros Hb Ha Hinc. pose proof (common_nodup before after Hb Ha parent) as Hn.
  destruct (moved_siblings_split before after parent Hb Ha) as (kept & _ & _ & Hsize & Hbest).
  set (common := common_siblings before after parent) in *.
  specialize (Hbest _ (sublist_filter _ common) Hinc).
  pose proof (length_filter_split (λ x, x.1 ∈ M) common) as Hl.
  assert (length (filter (λ x, x.1 ∈ M) common) ≤ size M) as HM.
  { rewrite <-(length_fmap fst). rewrite <-(size_list_to_set (C:=gset BlockId)).
    - apply subseteq_size. intros id. rewrite elem_of_list_to_set, list_elem_of_fmap.
      setoid_rewrite list_elem_of_filter. naive_solver.
    - eapply sublist_NoDup; [exact Hn|]. apply sublist_fmap, sublist_filter. }
  lia.
Qed.

(** ** Nothing changed *)

Lemma increasing_seq k n : increasing (seq k n).
Proof.
  revert k. induction n as [|n IH]; intros k; constructor; [apply IH|].
  apply Forall_forall. intros x Hx%elem_of_seq. lia.
Qed.

(** The positions of a duplicate-free list's own elements. *)
Lemma omap_own_positions (pos : gmap BlockId nat) (l : list BlockId) :
  (∀ id i, pos !! id = Some i ↔ l !! i = Some id) →
  omap (λ id, pair id <$> pos !! id) l = imap (λ i id, (id, i)) l.
Proof.
  intros Hpos. assert (∀ pre suf, l = pre ++ suf →
    omap (λ id, pair id <$> pos !! id) suf = imap (λ i id, (id, length pre + i)) suf) as H.
  { intros pre suf. revert pre. induction suf as [|x suf IH]; intros pre ->; [done|]. csimpl.
    assert (pos !! x = Some (length pre)) as ->.
    { apply Hpos. by apply list_lookup_middle. }
    simpl. rewrite Nat.add_0_r. f_equal. rewrite (IH (pre ++ [x])) by (by rewrite <-app_assoc).
    apply imap_ext. intros i y _. simpl. f_equal. rewrite length_app. simpl. lia. }
  by apply (H []).
Qed.

Lemma imap_indices {A} (l : list A) : imap (λ i _, i) l = seq 0 (length l).
Proof.
  apply list_eq. intros i. rewrite list_lookup_imap. destruct (l !! i) as [x|] eqn:E; simpl.
  - rewrite lookup_seq_lt; [done|]. by eapply lookup_lt_Some.
  - symmetry. apply lookup_ge_None. rewrite length_seq. by apply lookup_ge_None.
Qed.

Lemma increasing_positions_eq (l k : list BlockId) (pos : gmap BlockId nat) :
  NoDup l → (∀ id i, pos !! id = Some i ↔ l !! i = Some id) → k ≡ₚ l →
  increasing (snd <$> omap (λ id, pair id <$> pos !! id) k) → k = l.
Proof.
  intros Hnd Hpos Hperm Hinc.
  assert (snd <$> omap (λ id, pair id <$> pos !! id) l = seq 0 (length l)) as Hl.
  { rewrite (omap_own_positions pos l Hpos), fmap_imap.
    etrans; [|apply imap_indices]. by apply imap_ext. }
  assert (snd <$> omap (λ id, pair id <$> pos !! id) k = seq 0 (length l)) as Hk.
  { rewrite <-Hl. apply (StronglySorted_unique_strong lt); [intros; lia|done|rewrite Hl; apply increasing_seq|].
    by rewrite Hperm. }
  assert (∀ m, m ≡ₚ l → omap (λ i, l !! i) (snd <$> omap (λ id, pair id <$> pos !! id) m) = m) as Hback.
  { intros m Hm. assert (∀ x, x ∈ m → ∃ i, pos !! x = Some i ∧ l !! i = Some x) as Hin.
    { intros x Hx. rewrite Hm in Hx. apply list_elem_of_lookup in Hx as [i Hi]. exists i. by rewrite Hpos. }
    clear Hm. induction m as [|x m IH]; [done|]. csimpl. destruct (Hin x) as (i & Hi & Hx); [left|].
    rewrite Hi. csimpl. rewrite Hx. f_equal. apply IH. intros y Hy. apply Hin. by right. }
  pose proof (Hback k Hperm) as Ek. pose proof (Hback l (reflexivity l)) as El.
  rewrite Hk in Ek. rewrite Hl in El. congruence.
Qed.

Lemma filter_every {A} (P : A → Prop) `{!∀ x, Decision (P x)} (l : list A) :
  (∀ x, P x) → filter P l = l.
Proof. intros HP. induction l as [|x l IH]; [done|]. rewrite filter_cons_True by done. by rewrite IH. Qed.

Lemma moved_siblings_empty before after parent :
  outline_ok before → outline_ok after →
  moved_siblings before after parent = ∅ ↔
  increasing (snd <$> common_siblings before after parent).
Proof.
  intros Hb Ha. split.
  - intros Hm. destruct (moved_siblings_split before after parent Hb Ha) as (kept & Hk & Hinc & _).
    rewrite Hm in Hk. rewrite <-Hk in Hinc.
    by rewrite filter_every in Hinc by set_solver.
  - intros Hinc. apply leibniz_equiv, size_empty_inv. pose proof (fewest_moves before after parent ∅ Hb Ha) as H.
    rewrite size_empty in H. apply Nat.le_0_r, H.
    by rewrite filter_every by set_solver.
Qed.

Lemma reordered_ids_empty before after :
  reordered_ids before after = ∅ ↔
  ∀ parent, parent ∈ outline_parents before ++ outline_parents after →
    moved_siblings before after parent = ∅.
Proof.
  unfold reordered_ids. set (l := btree_set_iter _).
  assert (∀ p, p ∈ l ↔ p ∈ outline_parents before ++ outline_parents after) as Hl.
  { intros p. unfold l, btree_set_iter. rewrite (merge_sort_Permutation ord_le), elem_of_elements.
    apply elem_of_list_to_set. }
  assert (∀ acc, fold_left (λ moved p, moved ∪ moved_siblings before after p) l acc = ∅ ↔
    acc = ∅ ∧ ∀ p, p ∈ l → moved_siblings before after p = ∅) as Hfold.
  { clear Hl. induction l as [|p l IH]; intros acc; simpl; [set_solver|]. rewrite IH, empty_union_L.
    set_solver. }
  rewrite Hfold. setoid_rewrite Hl. tauto.
Qed.

Lemma siblings_perm before after parent :
  outline_ok before → outline_ok after → entry_ids before = entry_ids after →
  (∀ id old new, outline_entries before !! id = Some old → outline_entries after !! id = Some new →
     desc_parent (entry_descriptor old) = desc_parent (entry_descriptor new)) →
  siblings after parent ≡ₚ siblings before parent.
Proof.
  intros Hb Ha Hids Hpar. apply NoDup_Permutation; [by apply siblings_nodup..|]. intros id.
  rewrite !elem_of_siblings by done.
  assert (∀ o o', entry_ids o = entry_ids o' → ∀ e, outline_entries o !! id = Some e →
    ∃ e', outline_entries o' !! id = Some e') as Hsome.
  { intros o o' E e He. apply elem_of_dom. unfold entry_ids in E. rewrite <-E. by apply elem_of_dom_2 in He. }
  split; intros (e & He & Hp).
  - destruct (Hsome after before (eq_sym Hids) e He) as [e' He']. exists e'.
    by rewrite (Hpar id e' e He' He).
  - destruct (Hsome before after Hids e He) as [e' He']. exists e'. by rewrite <-(Hpar id e e' He He').
Qed.

Lemma siblings_increasing before after parent :
  outline_ok before → outline_ok after → siblings after parent ≡ₚ siblings before parent →
  increasing (snd <$> common_siblings before after parent) ↔
  siblings before parent = siblings after parent.
Proof.
  intros Hb Ha Hperm. destruct (common_siblings_eq before after Hb parent) as (pos & -> & Hpos). split.
  - intros Hinc. symmetry. by eapply increasing_positions_eq; [apply siblings_nodup|..].
  - intros E. rewrite <-E, (omap_own_positions pos _ Hpos), fmap_imap.
    rewrite (imap_ext _ (λ i _, i)) by done. rewrite imap_indices. apply increasing_seq.
Qed.

Lemma btree_set_iter_nil `{Countable K, !Ord K} (s : gset K) : btree_set_iter s = [] ↔ s = ∅.
Proof.
  unfold btree_set_iter. split.
  - intros E. apply leibniz_equiv, elements_empty_inv, Permutation_nil_r. rewrite <-E.
    symmetry. apply merge_sort_Permutation.
  - intros ->. by rewrite elements_empty.
Qed.

Lemma filter_nil_iff {A} (P : A → Prop) `{!∀ x, Decision (P x)} (l : list A) :
  filter P l = [] ↔ ∀ x, x ∈ l → ¬ P x.
Proof.
  split.
  - intros E x Hx HP. assert (x ∈ filter P l) as Hin by (by apply list_elem_of_filter).
    rewrite E in Hin. by apply not_elem_of_nil in Hin.
  - intros HP. destruct (filter P l) as [|x k] eqn:E; [done|].
    assert (x ∈ filter P l) as Hin by (rewrite E; left). apply list_elem_of_filter in Hin as [Hx Hin].
    by destruct (HP x).
Qed.

(** A summary that reports no created, deleted, moved or updated identity. *)
Definition reports_nothing (s : ChangeSummary) : Prop :=
  sum_created s = [] ∧ sum_deleted s = [] ∧ sum_moved s = [] ∧ sum_updated s = [].

(** Two descriptors say the same of a node, its place apart. *)
Definition same_node (old new : BlockDescriptor) : Prop :=
  desc_kind old = desc_kind new ∧ heading_level old = heading_level new ∧
  source_bytes old = source_bytes new ∧ text_bytes old = text_bytes new ∧
  node_digest old = node_digest new ∧ subtree_digest old = subtree_digest new ∧
  direct_child_count old = direct_child_count new ∧ descendant_count old = descendant_count new.

Lemma content_unchanged old new :
  descriptor_content_changed old new = false ↔ same_node old new.
Proof.
  unfold descriptor_content_changed, same_node.
  rewrite !orb_false_iff, !bool_decide_eq_false. split.
  - intros H. repeat split; apply dec_stable; tauto.
  - intros (-> & -> & -> & -> & -> & -> & -> & ->). tauto.
Qed.

(** The outlines agree: the same ids, each under the same parent and with the
    same content, and the children of every parent in the same order. *)
Definition outlines_agree (before after : DocumentOutline) : Prop :=
  entry_ids before = entry_ids after ∧
  (∀ id old new, outline_entries before !! id = Some old → outline_entries after !! id = Some new →
     desc_parent (entry_descriptor old) = desc_parent (entry_descriptor new) ∧
     same_node (entry_descriptor old) (entry_descriptor new)) ∧
  ∀ parent, siblings before parent = siblings after parent.

Lemma picked_none before after (p : OutlineEntry → OutlineEntry → bool) :
  filter (λ id, match outline_entries before !! id, outline_entries after !! id with
                | Some old, Some new => p old new
                | _, _ => false
                end = true) (btree_set_iter (entry_ids before ∩ entry_ids after)) = [] ↔
  ∀ id old new, outline_entries before !! id = Some old → outline_entries after !! id = Some new →
    p old new = false.
Proof.
  rewrite filter_nil_iff. unfold btree_set_iter. setoid_rewrite (merge_sort_Permutation ord_le).
  setoid_rewrite elem_of_elements. setoid_rewrite elem_of_intersection. unfold entry_ids.
  setoid_rewrite elem_of_dom. split.
  - intros H id old new Ho Hn. specialize (H id ltac:(eauto)). rewrite Ho, Hn in H. by destruct (p old new).
  - intros H id [[old Ho] [new Hn]]. rewrite Ho, Hn. by rewrite (H id old new).
Qed.

Lemma sibling_parent o parent : outline_ok o → siblings o parent ≠ [] → parent ∈ outline_parents o.
Proof.
  intros Ho Hne. destruct (siblings o parent) as [|id l] eqn:E; [done|].
  assert (id ∈ siblings o parent) as Hin by (rewrite E; left).
  apply elem_of_siblings in Hin as (e & He & <-); [|done].
  unfold outline_parents. apply list_elem_of_fmap. exists e. split; [done|]. apply elem_of_btree_values. eauto.
Qed.

Lemma eq_of_differences (X Y : gset BlockId) : Y ∖ X = ∅ → X ∖ Y = ∅ → X = Y.
Proof.
  intros H1 H2. apply set_eq. intros x. split; intros Hx.
  - apply dec_stable. intros Hn. assert (x ∈ X ∖ Y) as Hd by (by apply elem_of_difference).
    rewrite H2 in Hd. by apply elem_of_empty in Hd.
  - apply dec_stable. intros Hn. assert (x ∈ Y ∖ X) as Hd by (by apply elem_of_difference).
    rewrite H1 in Hd. by apply elem_of_empty in Hd.
Qed.

Lemma quiet_summary before after count revision :
  outline_ok before → outline_ok after →
  reports_nothing (summarize_outline_change before after count revision) ↔
  outlines_agree before after.
Proof.
  intros Hb Ha. unfold reports_nothing, outlines_agree, summarize_outline_change.
  cbn [sum_created sum_deleted sum_moved sum_updated].
  rewrite !btree_set_iter_nil, picked_none, empty_union_L, reordered_ids_empty.
  assert (∀ l : list BlockId, (list_to_set l : gset BlockId) = ∅ ↔ l = []) as Hnil.
  { intros l. split; [|by intros ->]. destruct l; [done|]. set_solver. }
  rewrite Hnil, picked_none. setoid_rewrite bool_decide_eq_false. setoid_rewrite content_unchanged.
  split.
  - intros (Hc & Hd & [Hp Hr] & Hu). assert (entry_ids before = entry_ids after) as Hids by (by apply eq_of_differences).
    assert (∀ id old new, outline_entries before !! id = Some old → outline_entries after !! id = Some new →
      desc_parent (entry_descriptor old) = desc_parent (entry_descriptor new)) as Hpar.
    { intros id old new Ho Hn. apply dec_stable. eauto. }
    split; [done|]. split; [eauto|]. intros parent.
    pose proof (siblings_perm before after parent Hb Ha Hids Hpar) as Hperm.
    destruct (decide (siblings before parent = [])) as [E|E].
    { rewrite E in Hperm. apply Permutation_nil_r in Hperm. congruence. }
    apply siblings_increasing; [done..|]. apply moved_siblings_empty; [done..|].
    apply Hr. apply elem_of_app. left. by apply sibling_parent.
  - intros (Hids & Hsame & Hsib). rewrite Hids. split; [apply difference_diag_L|]. split; [apply difference_diag_L|].
    split; [split|].
    + intros id old new Ho Hn. destruct (Hsame id old new Ho Hn) as [-> _]. by intros [].
    + intros parent _. apply moved_siblings_empty; [done..|].
      apply siblings_increasing; [done..| |done]. by rewrite Hsib.
    + intros id old new Ho Hn. by destruct (Hsame id old new Ho Hn).
Qed.

(** ** Outlines of documents *)

#[export] Instance order_id_ord_laws : OrdLaws (N * BlockId).
Proof.
  split; unfold ocmp, order_id_ord.
  - apply lexico_cmp_eq. by intros [] [] ? ?; simplify_eq/=.
  - apply lexico_cmp_antisym.
  - apply lexico_cmp_trans.
Qed.

Lemma sublist_sorted {A} (R : relation A) l k : l `sublist_of` k → StronglySorted R k → StronglySorted R l.
Proof.
  induction 1 as [|x l k Hs IH|x l k Hs IH]; intros Hk; [done|..]; apply StronglySorted_inv in Hk as [Hk Hx]; [|auto].
  constructor; [auto|]. rewrite Forall_forall in Hx |- *. intros y Hy. apply Hx. by eapply elem_of_sublist.
Qed.

Lemma positions_back (l m : list BlockId) (pos : gmap BlockId nat) :
  (∀ id i, pos !! id = Some i ↔ l !! i = Some id) → (∀ x, x ∈ m → x ∈ l) →
  omap (λ i, l !! i) (snd <$> omap (λ id, pair id <$> pos !! id) m) = m.
Proof.
  intros Hpos Hm. induction m as [|x m IH]; [done|]. csimpl.
  destruct (list_elem_of_lookup_1 l x) as [i Hi]; [apply Hm; left|].
  rewrite (proj2 (Hpos x i) Hi). csimpl. rewrite Hi. f_equal. apply IH. intros y Hy. apply Hm. by right.
Qed.

Lemma omap_filter_sublist {A B} (f : A → option B) (P : A → Prop) `{!∀ x, Decision (P x)} (l : list A) :
  omap f (filter P l) `sublist_of` omap f l.
Proof.
  induction l as [|x l IH]; [done|]. rewrite filter_cons. csimpl.
  destruct (decide (P x)); csimpl; destruct (f x); [by apply sublist_skip|done|by apply sublist_cons|done].
Qed.

(** The ids that two lists share, those in [M] apart, come in the same order. *)
Definition same_order_without (M : gset BlockId) (old new : list BlockId) : Prop :=
  filter (λ id, id ∈ old ∧ id ∉ M) new = filter (λ id, id ∈ new ∧ id ∉ M) old.

Lemma same_order_ext (M M' : gset BlockId) old new :
  (∀ id, id ∈ old → id ∈ new → id ∈ M ↔ id ∈ M') → same_order_without M old new → same_order_without M' old new.
Proof.
  unfold same_order_without. intros HM E.
  rewrite <-(filter_ext_in (λ id, id ∈ old ∧ id ∉ M) _ new), E.
  - apply filter_ext_in. intros x Hx. specialize (HM x). naive_solver.
  - intros x Hx. specialize (HM x). naive_solver.
Qed.

Lemma same_order_increasing (M : gset BlockId) (l k : list BlockId) (pos : gmap BlockId nat) :
  NoDup l → NoDup k → (∀ id i, pos !! id = Some i ↔ l !! i = Some id) →
  increasing (snd <$> filter (λ x, x.1 ∉ M) (omap (λ id, pair id <$> pos !! id) k)) ↔ same_order_without M l k.
Proof.
  intros Hl Hk Hpos. unfold same_order_without.
  set (f := λ id, pair id <$> pos !! id). set (kept := filter (λ id, id ∈ l ∧ id ∉ M) k).
  set (back := filter (λ id, id ∈ k ∧ id ∉ M) l).
  assert (E : filter (λ x, x.1 ∉ M) (omap f k) = omap f kept).
  { unfold kept. clear Hk kept back. induction k as [|x k IH]; [done|]. rewrite filter_cons. csimpl.
    change (f x) with (pair x <$> pos !! x) at 1. destruct (pos !! x) as [i|] eqn:Hi; simpl.
    - assert (x ∈ l) as Hx by (by eapply list_elem_of_lookup_2, Hpos).
      rewrite filter_cons. destruct (decide (x ∉ M)) as [Hn|Hn]; simpl.
      + rewrite decide_True by done. rewrite decide_True by done. csimpl.
        change (f x) with (pair x <$> pos !! x). rewrite Hi. simpl. by rewrite IH.
      + rewrite decide_False by done. rewrite decide_False by tauto. apply IH.
    - rewrite decide_False; [apply IH|]. intros [[i Hx]%list_elem_of_lookup _]. apply Hpos in Hx. congruence. }
  rewrite E. assert (Hback : increasing (snd <$> omap f back)).
  { apply (sublist_sorted lt _ (snd <$> omap f l)).
    - apply sublist_fmap, omap_filter_sublist.
    - unfold f. rewrite (omap_own_positions pos l Hpos), fmap_imap. rewrite (imap_ext _ (λ i _, i)) by done.
      rewrite imap_indices. apply increasing_seq. }
  assert (Hperm : kept ≡ₚ back).
  { apply NoDup_Permutation; [by apply NoDup_filter..|]. intros x. unfold kept, back. rewrite !list_elem_of_filter. tauto. }
  split; [|by intros ->]. intros Hinc.
  rewrite <-(positions_back l kept pos Hpos), <-(positions_back l back pos Hpos).
  - f_equal. apply (StronglySorted_unique_strong lt); [intros; lia|exact Hinc|exact Hback|].
    fold f. by rewrite Hperm.
  - intros x Hx. by apply list_elem_of_filter in Hx as [_ Hx].
  - intros x Hx. apply list_elem_of_filter in Hx as [Hx _]. apply Hx.
Qed.

Section documents.
Context (json_list_style : ListStyle → list Byte.byte).
Context (json_fence_style : CodeFenceStyle → list Byte.byte).
Abbreviation capture_outline := (capture_outline json_list_style json_fence_style).
Abbreviation describe := (describe json_list_style json_fence_style).
Abbreviation capture_outline_ok := (capture_outline_ok json_list_style json_fence_style).

Lemma captured_at d parent i n :
  outlined d → child_nodes d parent !! i = Some n →
  ∃ e, outline_entries (capture_outline d) !! doc_node_id n = Some e ∧ entry_descriptor e = describe d (parent, i, n).
Proof.
  intros Hd Hi%(place_kids d Hd).
  assert (E : (entry_descriptor <$> (outline_entries (capture_outline d) !! doc_node_id n)) = Some (describe d (parent, i, n))).
  { apply captured; [done|]. by exists (parent, i, n). }
  apply fmap_Some in E as (e & He & ->). eauto.
Qed.

Lemma captured_entry d id e :
  outlined d → outline_entries (capture_outline d) !! id = Some e →
  ∃ parent i n, child_nodes d parent !! i = Some n ∧ doc_node_id n = id ∧ entry_descriptor e = describe d (parent, i, n).
Proof.
  intros Hd He. destruct (proj1 (captured json_list_style json_fence_style d Hd id (entry_descriptor e)))
    as ([[p i] n] & Hx & Hid & E); [by rewrite He|].
  exists p, i, n. split; [by apply place_kids|done].
Qed.

Lemma described_parent d x : desc_parent (describe d x) = x.1.1.
Proof. by destruct (describe_place json_list_style json_fence_style d x) as (_ & -> & _). Qed.
Lemma described_order d x : desc_order (describe d x) = order_u32 (N.of_nat x.1.2).
Proof. by destruct (describe_place json_list_style json_fence_style d x) as (_ & _ & ->). Qed.

Lemma captured_parent d id parent :
  outlined d → (∃ e, outline_entries (capture_outline d) !! id = Some e ∧ desc_parent (entry_descriptor e) = parent) ↔
  id ∈ doc_node_id <$> child_nodes d parent.
Proof.
  intros Hd. rewrite list_elem_of_fmap. split.
  - intros (e & He & <-). destruct (captured_entry d id e Hd He) as (p & i & n & Hi & <- & ->).
    rewrite described_parent. exists n. split; [done|]. by eapply list_elem_of_lookup_2.
  - intros (n & -> & [i Hi]%list_elem_of_lookup). destruct (captured_at d parent i n Hd Hi) as (e & He & E).
    exists e. split; [done|]. by rewrite E, described_parent.
Qed.

(** The siblings of an outline are the children in the document. *)
Lemma siblings_kids d parent : outlined d → siblings (capture_outline d) parent = doc_node_id <$> child_nodes d parent.
Proof.
  intros Hd. unfold siblings.
  assert (E : merge_sort ord_le (outline_children (capture_outline d) parent) =
    imap (λ i n, (N.of_nat i, doc_node_id n)) (child_nodes d parent)).
  { assert (Hfit : ∀ i n, child_nodes d parent !! i = Some n → order_u32 (N.of_nat i) = N.of_nat i).
    { intros i n Hi. apply (place_kids d Hd) in Hi. pose proof (ol_fit d Hd) as Hf. rewrite Forall_forall in Hf.
      specialize (Hf _ Hi). unfold order_u32. simpl in Hf. lia. }
    apply (StronglySorted_unique ord_le); [apply StronglySorted_merge_sort; apply _| |].
    - clear. generalize (child_nodes d parent). intros l. assert (∀ k, StronglySorted ord_le (imap (λ i n, (N.of_nat (k + i), doc_node_id n)) l)) as H;
        [|exact (H 0)].
      induction l as [|n l IH]; intros k; [constructor|]. rewrite imap_cons. constructor.
      + rewrite (imap_ext _ (λ i n, (N.of_nat (S k + i), doc_node_id n))); [apply IH|]. intros i x _. simpl. by rewrite Nat.add_succ_r.
      + apply Forall_forall. intros y (i & m & -> & _)%elem_of_lookup_imap. apply ord_lt_le.
        change (cmp_then (ocmp (N.of_nat (k + 0)) (N.of_nat (k + S i))) (ocmp (doc_node_id n) (doc_node_id m)) = Lt).
        assert (Hlt : ocmp (N.of_nat (k + 0)) (N.of_nat (k + S i)) = Lt) by (apply N.compare_lt_iff; lia).
        by rewrite Hlt.
    - rewrite merge_sort_Permutation. apply NoDup_Permutation.
      + eapply NoDup_fmap_1, (children_nodup _ (capture_outline_ok d) parent).
      + apply (NoDup_fmap_1 fst). rewrite fmap_imap.
        rewrite (imap_ext _ (λ i _, N.of_nat i)) by done. apply NoDup_alt. intros i j x.
        rewrite !list_lookup_imap. destruct (child_nodes d parent !! i), (child_nodes d parent !! j); naive_solver lia.
      + intros [o id]. rewrite (elem_of_children _ (capture_outline_ok d)), elem_of_lookup_imap. split.
        * intros (e & He & Hp & Ho). destruct (captured_entry d id e Hd He) as (p & i & n & Hi & <- & E).
          rewrite E, described_parent in Hp. rewrite E, described_order in Ho. simpl in Hp, Ho. subst p.
          exists i, n. split; [|done]. by rewrite (Hfit _ _ Hi) in Ho; subst o.
        * intros (i & n & [= -> ->] & Hi). destruct (captured_at d parent i n Hd Hi) as (e & He & E). exists e.
          rewrite E, described_parent, described_order. split_and!; [done..|]. by apply (Hfit i n). }
  rewrite E, fmap_imap. apply imap_const.
Qed.

(** Two nodes with one id of which the descriptors say the same, their places
    apart. *)
Definition nodes_match (d d' : Document) (n n' : DocNode) : Prop :=
  doc_node_id n = doc_node_id n' ∧ same_node (describe d (None, 0, n)) (describe d' (None, 0, n')).

Lemma nodes_match_all d l : Forall2 (nodes_match d d) l l.
Proof. apply Forall_Forall2_diag, Forall_true. by split. Qed.

Lemma same_node_place d d' p q i j n n' :
  same_node (describe d (p, i, n)) (describe d' (q, j, n')) ↔ same_node (describe d (None, 0, n)) (describe d' (None, 0, n')).
Proof. destruct n as [[? ? ? ? [] ?]|[]], n' as [[? ? ? ? [] ?]|[]]; reflexivity. Qed.

(** A node has one place. *)
Lemma one_place d parent i n q j m :
  outlined d → child_nodes d parent !! i = Some n → child_nodes d q !! j = Some m → doc_node_id n = doc_node_id m →
  parent = q ∧ i = j ∧ n = m.
Proof.
  intros Hd Hn Hm E. apply (place_kids d Hd) in Hn, Hm.
  by injection (place_unique d Hd (parent, i, n) (q, j, m) Hn Hm E) as -> -> ->.
Qed.

Lemma child_nodes_nodup d parent : outlined d → NoDup (doc_node_id <$> child_nodes d parent).
Proof. intros Hd. rewrite <-siblings_kids by done. apply siblings_nodup, capture_outline_ok. Qed.

Lemma child_nodes_parent d parent q id :
  outlined d → id ∈ doc_node_id <$> child_nodes d parent → id ∈ doc_node_id <$> child_nodes d q → parent = q.
Proof.
  intros Hd (n & -> & [i Hi]%list_elem_of_lookup)%list_elem_of_fmap (m & E & [j Hj]%list_elem_of_lookup)%list_elem_of_fmap.
  by destruct (one_place d parent i n q j m Hd Hi Hj E).
Qed.

Lemma agree_documents d d' :
  outlined d → outlined d' →
  outlines_agree (capture_outline d) (capture_outline d') ↔
  ∀ parent, Forall2 (nodes_match d d') (child_nodes d parent) (child_nodes d' parent).
Proof.
  intros Hd Hd'. unfold outlines_agree. setoid_rewrite siblings_kids; [|done..]. split.
  - intros (_ & Hsame & Hsib) parent. specialize (Hsib parent). apply Forall2_same_length_lookup_2.
    + by rewrite <-(length_fmap doc_node_id (child_nodes d _)), Hsib, length_fmap.
    + intros i n n' Hn Hn'. assert (E : doc_node_id n = doc_node_id n').
      { apply (f_equal (λ l, l !! i)) in Hsib. rewrite !list_lookup_fmap, Hn, Hn' in Hsib. by injection Hsib. }
      split; [done|]. destruct (captured_at d parent i n Hd Hn) as (e & He & Ee).
      destruct (captured_at d' parent i n' Hd' Hn') as (e' & He' & Ee'). rewrite <-E in He'.
      destruct (Hsame _ _ _ He He') as [_ H]. rewrite Ee, Ee' in H. by apply same_node_place in H.
  - intros Hall. assert (Hids : ∀ parent, doc_node_id <$> child_nodes d parent = doc_node_id <$> child_nodes d' parent).
    { intros parent. specialize (Hall parent). induction Hall as [|n n' l l' [E _] _ IH]; [done|]. csimpl. congruence. }
    split; [|split; [|done]].
    + apply set_eq. intros id. unfold entry_ids. rewrite !elem_of_dom.
      assert (H : ∀ d, outlined d → is_Some (outline_entries (capture_outline d) !! id) ↔
        ∃ parent, id ∈ doc_node_id <$> child_nodes d parent).
      { intros d0 Hd0. setoid_rewrite <-captured_parent; [|done]. split; [intros [e He]; eauto|intros (p & e & He & _); by exists e]. }
      rewrite !H by done. by setoid_rewrite Hids.
    + intros id old new Ho Hn. destruct (captured_entry d id old Hd Ho) as (p & i & n & Hi & Eid & Eo).
      destruct (captured_entry d' id new Hd' Hn) as (q & j & m & Hj & Eid' & En).
      destruct (Forall2_lookup_l _ _ _ _ _ (Hall p) Hi) as (n' & Hi' & E & Hs).
      destruct (one_place d' p i n' q j m Hd' Hi' Hj) as (-> & -> & ->); [congruence|].
      rewrite Eo, En, !described_parent. split; [done|]. by apply same_node_place.
Qed.

(** ** What a summary reports as moved *)

Lemma elem_of_reordered before after id :
  outline_ok after →
  id ∈ reordered_ids before after ↔ ∃ parent, id ∈ moved_siblings before after parent.
Proof.
  intros Ha. unfold reordered_ids. set (l := btree_set_iter _).
  assert (Hl : ∀ p, p ∈ l ↔ p ∈ outline_parents before ++ outline_parents after).
  { intros p. unfold l, btree_set_iter. rewrite (merge_sort_Permutation ord_le), elem_of_elements. apply elem_of_list_to_set. }
  assert (Hfold : ∀ k acc, id ∈ fold_left (λ moved p, moved ∪ moved_siblings before after p) k acc ↔
    id ∈ acc ∨ ∃ p, p ∈ k ∧ id ∈ moved_siblings before after p).
  { clear. induction k as [|p k IH]; intros acc; simpl; [set_solver|]. rewrite IH. set_solver. }
  rewrite Hfold. split; [set_solver|]. intros [p Hp]. right. exists p. split; [|done]. apply Hl, elem_of_app. right.
  apply sibling_parent; [done|]. intros E. unfold moved_siblings, common_siblings in Hp.
  assert (E' : merge_sort ord_le (outline_children after p) = []) by (by apply fmap_nil_inv in E).
  rewrite E' in Hp. simpl in Hp. by apply elem_of_empty in Hp.
Qed.

Lemma moved_sibling_kids d d' parent id :
  outlined d → outlined d' → id ∈ moved_siblings (capture_outline d) (capture_outline d') parent →
  id ∈ doc_node_id <$> child_nodes d parent ∧ id ∈ doc_node_id <$> child_nodes d' parent.
Proof.
  intros Hd Hd' Hid. rewrite <-!siblings_kids by done.
  destruct (common_siblings_eq (capture_outline d) (capture_outline d') (capture_outline_ok d) parent) as (pos & E & Hpos).
  unfold moved_siblings in Hid. rewrite E, elem_of_list_to_set, list_elem_of_filter in Hid.
  destruct Hid as [_ (x & -> & (y & Hy & Hx)%list_elem_of_omap)%list_elem_of_fmap].
  apply fmap_Some in Hx as (i & Hi & ->). simpl. split; [|done]. by eapply list_elem_of_lookup_2, Hpos.
Qed.

Definition reported_moves (d d' : Document) : gset BlockId :=
  list_to_set (sum_moved (summarize_outline_change (capture_outline d) (capture_outline d') 0 [])).

(** A node whose parent changed is reported as moved; a node whose parent is the
    same is reported as [moved_siblings] says. *)
Lemma reported_reparented d d' id p q :
  outlined d → outlined d' → p ≠ q → id ∈ doc_node_id <$> child_nodes d p → id ∈ doc_node_id <$> child_nodes d' q →
  id ∈ reported_moves d d'.
Proof.
  intros Hd Hd' Hne (e & He & Ep)%captured_parent (e' & He' & Eq)%captured_parent; [|done..].
  unfold reported_moves. rewrite elem_of_list_to_set. unfold summarize_outline_change. cbn [sum_moved].
  unfold btree_set_iter at 1. rewrite merge_sort_Permutation, elem_of_elements, elem_of_union. left.
  rewrite elem_of_list_to_set, list_elem_of_filter. rewrite He, He'. split; [apply bool_decide_eq_true; congruence|].
  unfold btree_set_iter. rewrite merge_sort_Permutation, elem_of_elements, elem_of_intersection.
  split; by eapply elem_of_dom_2.
Qed.

Lemma reported_siblings d d' parent id :
  outlined d → outlined d' → id ∈ doc_node_id <$> child_nodes d parent → id ∈ doc_node_id <$> child_nodes d' parent →
  id ∈ reported_moves d d' ↔ id ∈ moved_siblings (capture_outline d) (capture_outline d') parent.
Proof.
  intros Hd Hd' Hk Hk'. unfold reported_moves. rewrite elem_of_list_to_set. unfold summarize_outline_change. cbn [sum_moved].
  unfold btree_set_iter at 1. rewrite merge_sort_Permutation, elem_of_elements, elem_of_union, elem_of_reordered
    by apply capture_outline_ok. split; [|intros H; right; eauto].
  intros [Hr|(q & Hq)].
  - exfalso. rewrite elem_of_list_to_set, list_elem_of_filter in Hr. destruct Hr as [Hr _].
    apply captured_parent in Hk as (e & He & Ep); [|done]. apply captured_parent in Hk' as (e' & He' & Ep'); [|done].
    rewrite He, He', bool_decide_eq_true in Hr. congruence.
  - destruct (moved_sibling_kids d d' q id Hd Hd' Hq) as [Hq' _].
    by rewrite (child_nodes_parent d parent q id Hd Hk Hq').
Qed.

(** Without the reported ones the children that a parent keeps are in their
    order, and no smaller set does that. *)
Lemma reported_fewest d d' parent :
  outlined d → outlined d' →
  let old := doc_node_id <$> child_nodes d parent in
  let new := doc_node_id <$> child_nodes d' parent in
  same_order_without (reported_moves d d') old new ∧
  ∀ M, same_order_without M old new →
    size (filter (λ id, id ∈ old ∧ id ∈ new) (reported_moves d d')) ≤ size M.
Proof.
  intros Hd Hd' old new. pose proof (capture_outline_ok d) as Hb. pose proof (capture_outline_ok d') as Ha.
  destruct (common_siblings_eq (capture_outline d) (capture_outline d') Hb parent) as (pos & E & Hpos).
  rewrite siblings_kids in E, Hpos by done. fold old new in E, Hpos.
  assert (Hinc : ∀ M, increasing (snd <$> filter (λ x, x.1 ∉ M) (common_siblings (capture_outline d) (capture_outline d') parent)) ↔
      same_order_without M old new).
  { intros M. rewrite E. apply same_order_increasing; [by apply child_nodes_nodup..|done]. }
  set (moved := moved_siblings (capture_outline d) (capture_outline d') parent). split.
  - apply (same_order_ext moved); [intros id Ho Hn; symmetry; by apply reported_siblings|]. apply Hinc.
    destruct (moved_siblings_split _ _ parent Hb Ha) as (kept & Hk & Hs & _).
    fold moved in Hk. by rewrite Hk.
  - intros M HM. etrans; [|by apply (fewest_moves _ _ parent M Hb Ha), Hinc]. apply subseteq_size.
    intros id [[Ho Hn] Hid]%elem_of_filter. by apply (reported_siblings d d' parent).
Qed.
End documents.
