(* ===== verification/Target.v ===== *)
(** * Stable targets: text points, text ranges and preconditions

    Models the targets of [src/src/workspace.rs]: a text point names a unit of a
    block instead of an offset, a text range two of them, and a precondition is
    the digest of what an edit is about to change.  Looking up a block may
    rebuild the cached index of the document, so every operation passes the
    document through. *)

From S2P Require Import Prelude Core Sequence Mark Table Frontmatter Codec Text Block Document.
From S2P Require Import Draft Storage Cursor Descriptor Outline.
From Stdlib Require Import Strings.Byte.

(** ** Data *)

Inductive TextPosition := PosStart | PosEnd | PosUnit (anchor : Anchor).
Record TextPoint := mkPoint { point_block : BlockId; point_position : TextPosition }.
Record TextRange := mkTextRange { range_start : TextPoint; range_end : TextPoint }.

#[export] Instance TextPosition_eq_dec : EqDecision TextPosition.
Proof. solve_decision. Defined.
#[export] Instance TextPoint_eq_dec : EqDecision TextPoint.
Proof. solve_decision. Defined.
#[export] Instance TextRange_eq_dec : EqDecision TextRange.
Proof. solve_decision. Defined.

Inductive WorkspaceTargetError :=
  | TargetBlockNotFound (block_id : BlockId)
  | TargetNotText (block_id : BlockId)
  | TargetInvalidOffset (block_id : BlockId) (offset : nat)
  | TargetInvalidRange
  | WrongBlock (block_id actual_block_id : BlockId) (anchor : OpId)
  | DeletedAnchor (block_id : BlockId) (anchor : OpId)
  | UnknownAnchor (block_id : BlockId) (anchor : OpId)
  | AmbiguousAnchor (block_id : BlockId) (anchor : OpId) (candidate_blocks : list BlockId)
  | PreconditionMismatch.

Inductive TargetPrecondition :=
  | PreText (range : TextRange) (content_digest : N)
  | PreBlock (block_id : BlockId) (content_digest : N)
  | PreTableCell (table_id : BlockId) (row_id : RowId) (column_id : ColumnId) (content_digest : N)
  | PrePlacement (block_id parent after : option BlockId) (structural_digest : N).
#[export] Instance TargetPrecondition_eq_dec : EqDecision TargetPrecondition.
Proof. solve_decision. Defined.

Inductive WorkspaceEdit :=
  | WInsertBlock (parent after : option BlockId) (draft : BlockDraft)
  | WInsertParagraph (parent after : option BlockId) (text : string)
  | WInsertHeading (parent after : option BlockId) (level : N) (text : string)
  | WDeleteBlock (block_id : BlockId)
  | WInsertText (at_point : TextPoint) (text : string)
  | WDeleteText (range : TextRange)
  | WSetMark (range : TextRange) (kind : MarkKind) (attrs : gmap string MarkValue)
  | WRemoveMark (block_id : BlockId) (interval_id : OpId)
  | WSetFrontmatterField (key : ustring) (value : option ustring)
  | WMoveBlock (block_id : BlockId) (parent after : option BlockId)
  | WMoveSection (heading_id : BlockId) (after : option BlockId)
  | WSplitBlock (at_point : TextPoint)
  | WMergeBlocks (left_id right_id : BlockId)
  | WInsertTable (parent after : option BlockId) (columns : list ColumnDef) (header : list string)
  | WInsertTableRow (table_id : BlockId) (after : option RowId) (cells : list string)
  | WInsertTableColumn (table_id : BlockId) (after : option ColumnId) (alignment : ColumnAlignment)
      (header : string)
  | WSetTableCell (table_id : BlockId) (row_id : RowId) (column_id : ColumnId) (value : string)
  | WSetTableRowCells (table_id : BlockId) (row_id : RowId) (cells : list string)
  | WDeleteTableRow (table_id : BlockId) (row_id : RowId)
  | WDeleteTableColumn (table_id : BlockId) (column_id : ColumnId)
  | WSetTableColumnAlignment (table_id : BlockId) (column_id : ColumnId) (alignment : ColumnAlignment)
  | WSetTableMetadata (table_id : BlockId) (columns : list ColumnDef) (header : list string)
  | WMoveTableRow (table_id : BlockId) (row_id : RowId) (after : option RowId)
  | WMoveTableColumn (table_id : BlockId) (column_id : ColumnId) (after : option ColumnId)
  | WInsertListItem (list_id : BlockId) (after : option BlockId) (item : ListItemDraft)
  | WDeleteListItem (item_id : BlockId)
  | WMoveListItem (item_id list_id : BlockId) (after : option BlockId)
  | WSetListStyle (list_id : BlockId) (style : ListStyle)
  | WSetListItemTask (item_id : BlockId) (task : option TaskState)
  | WWrapBlocks (block_ids : list BlockId)
  | WUnwrapBlockQuote (block_id : BlockId)
  | WSetCodeFence (block_id : BlockId) (style : CodeFenceStyle) (info : option string) (text : string)
  | WConvertTextBlock (block_id : BlockId) (kind : TextBlockKind)
  | WReplaceRawBlock (block_id : BlockId) (expected_digest : N) (raw : string).

(** ** The monad *)

Definition TM (A : Type) : Type := Document → Document * (WorkspaceTargetError + A).
#[export] Instance TM_ret : MRet TM := λ A x d, (d, inr x).
#[export] Instance TM_bind : MBind TM := λ A B f m d,
  match m d with
  | (d, inl e) => (d, inl e)
  | (d, inr x) => f x d
  end.
Definition target_err {A} (e : WorkspaceTargetError) : TM A := λ d, (d, inl e).
Definition target_or {A} (e : WorkspaceTargetError) (o : option A) : TM A :=
  match o with Some x => mret x | None => target_err e end.
(** A lookup, and a read of the document. *)
Definition looking {A} (f : Document → Document * A) : TM A := λ d, let '(d, x) := f d in (d, inr x).
Definition reading {A} (f : Document → A) : TM A := λ d, (d, inr (f d)).

(** ** Text points and ranges *)

Definition text_sequence (block_id : BlockId) : TM (Sequence TextUnit) :=
  found ← looking (find_block_by_id block_id);
  block ← target_or (TargetBlockNotFound block_id) found;
  target_or (TargetNotText block_id) (block_text_seq (blk_kind block)).

Definition text_point (block_id : BlockId) (grapheme_offset : nat) : TM TextPoint :=
  text ← text_sequence block_id;
  let ids := paragraph_visible_ids text in
  if decide (length ids < grapheme_offset) then
    target_err (TargetInvalidOffset block_id grapheme_offset)
  else if decide (grapheme_offset = 0) then mret (mkPoint block_id PosStart)
  else match ids !! grapheme_offset with
       | None => mret (mkPoint block_id PosEnd)
       | Some id => mret (mkPoint block_id (PosUnit (mkAnchor id Before)))
       end.

(** The local closure [point] of [text_range_for_sequence]; [None] where the
    code would index out of range. *)
Definition range_point (block_id : BlockId) (ids : list OpId) (offset : nat) (is_end : bool) :
    option TextPoint :=
  mkPoint block_id <$>
    if decide (offset = 0) then Some PosStart
    else if decide (offset = length ids) then Some PosEnd
    else
      (λ id, PosUnit (mkAnchor id (if is_end then After else Before))) <$>
        ids !! (if is_end then offset - 1 else offset).

Definition text_range_for_sequence (block_id : BlockId) (text : Sequence TextUnit)
    (first last : nat) : option TextRange :=
  let ids := paragraph_visible_ids text in
  if decide (last < first ∨ length ids < last) then None
  else
    start ← range_point block_id ids first false;
    stop ← range_point block_id ids last true;
    Some (mkTextRange start stop).

Definition text_range (block_id : BlockId) (first last : nat) : TM TextRange :=
  text ← text_sequence block_id;
  target_or TargetInvalidRange (text_range_for_sequence block_id text first last).

Section targets.
Context (json_list_style : ListStyle → list Byte.byte).
Context (json_fence_style : CodeFenceStyle → list Byte.byte).
Abbreviation capture_outline := (capture_outline json_list_style json_fence_style).
Abbreviation block_digest := (block_digest json_list_style json_fence_style).
Abbreviation block_node_digest := (block_node_digest json_list_style json_fence_style).
Abbreviation list_item_digest := (list_item_digest json_list_style json_fence_style).

(** [filter_map] over the ids, each looking up its block. *)
Fixpoint owners_among (elem_id : OpId) (ids : list BlockId) : TM (list BlockId) :=
  match ids with
  | [] => mret []
  | block_id :: ids =>
    found ← looking (find_block_by_id block_id);
    rest ← owners_among elem_id ids;
    mret match found ≫= λ block, block_text_seq (blk_kind block) ≫= λ text, get_element text elem_id with
         | Some _ => block_id :: rest
         | None => rest
         end
  end.

Definition text_unit_owners (elem_id : OpId) : TM (list BlockId) :=
  outline ← reading capture_outline;
  owners_among elem_id (btree_keys (outline_entries outline)).

(** What a missing anchor is reported as. *)
Definition missing_anchor {A} (block_id : BlockId) (anchor : OpId) : TM A :=
  candidates ← text_unit_owners anchor;
  match candidates with
  | [] => target_err (UnknownAnchor block_id anchor)
  | [actual] => target_err (WrongBlock block_id actual anchor)
  | _ => target_err (AmbiguousAnchor block_id anchor candidates)
  end.

Definition resolve_text_point (point : TextPoint) : TM nat :=
  text ← text_sequence (point_block point);
  match point_position point with
  | PosStart => mret 0
  | PosEnd => mret (len_visible text)
  | PosUnit anchor =>
    let id := anchor_elem anchor in
    match get_element text id with
    | None => missing_anchor (point_block point) id
    | Some element =>
      match elem_value element with
      | None => target_err (DeletedAnchor (point_block point) id)
      | Some _ =>
        index ← target_or (DeletedAnchor (point_block point) id)
                  (position (λ x, bool_decide (x = id)) (paragraph_visible_ids text));
        mret match anchor_bias anchor with Before => index | After => index + 1 end
      end
    end
  end.

Definition resolve_text_range (range : TextRange) : TM (nat * nat) :=
  if decide (point_block (range_start range) ≠ point_block (range_end range))
  then target_err TargetInvalidRange
  else
    start ← resolve_text_point (range_start range);
    stop ← resolve_text_point (range_end range);
    if decide (stop < start) then target_err TargetInvalidRange else mret (start, stop).

(** ** Preconditions *)

Definition text_range_digest (range : TextRange) : TM N :=
  resolved ← resolve_text_range range;
  let '(start, stop) := resolved in
  let block_id := point_block (range_start range) in
  found ← looking (find_block_by_id block_id);
  block ← target_or (TargetBlockNotFound block_id) found;
  text ← target_or (TargetNotText block_id) (block_text_seq (blk_kind block));
  let digest := StableDigest.field StableDigest.new (uuid_bytes block_id) in
  let digest := hash_fields (λ unit, str_bytes (grapheme unit))
    (take (stop - start) (drop start (sequence_iter text))) digest in
  mret (StableDigest.finish
    match active_intervals (blk_marks block) with
    | [] => digest
    | _ => hash_semantic_marks digest (blk_marks block) (paragraph_visible_ids text) start stop
    end).

Definition block_precondition (block_id : BlockId) : TM TargetPrecondition :=
  found ← looking (find_block_by_id block_id);
  match found with
  | Some block => mret (PreBlock block_id (block_digest block))
  | None =>
    blocks ← reading doc_blocks;
    item ← target_or (TargetBlockNotFound block_id) (find_list_item_by_id blocks block_id);
    mret (PreBlock block_id (list_item_digest item))
  end.

Definition table_cell_precondition (table_id : BlockId) (row_id : RowId) (column_id : ColumnId) :
    TM TargetPrecondition :=
  found ← looking (find_block_by_id table_id);
  block ← target_or (TargetBlockNotFound table_id) found;
  match blk_kind block with
  | TableBlock table =>
    if decide (column_by_id table column_id = None ∨
               row_id ≠ header_row_id table ∧ row_by_id table row_id = None)
    then target_err PreconditionMismatch
    else
      mret (PreTableCell table_id row_id column_id (StableDigest.finish (StableDigest.field
        (StableDigest.field StableDigest.new (str_bytes "table-cell"))
        (str_bytes (default EmptyString (cell_value table row_id column_id))))))
  | _ => target_err PreconditionMismatch
  end.

Definition node_digest_for (block_id : BlockId) : TM N :=
  found ← looking (find_block_by_id block_id);
  match found with
  | Some block => mret (block_node_digest block)
  | None =>
    blocks ← reading doc_blocks;
    item ← target_or (TargetBlockNotFound block_id) (find_list_item_by_id blocks block_id);
    mret (list_item_node_digest item)
  end.

Definition text_precondition (range : TextRange) : TM TargetPrecondition :=
  digest ← text_range_digest range; mret (PreText range digest).

Definition placement_precondition (block_id parent after : option BlockId) : TM TargetPrecondition :=
  outline ← reading capture_outline;
  blocks ← reading doc_blocks;
  _ ← match parent with
      | None => mret tt
      | Some parent_id =>
        match find_descriptor_children blocks parent_id, block_id with
        | Some (ChildBlocks _), _ => mret tt
        | Some (ChildItems _), Some _ => mret tt
        | Some _, _ => target_err PreconditionMismatch
        | None, _ => target_err (TargetBlockNotFound parent_id)
        end
      end;
  _ ← match after with
      | None => mret tt
      | Some after_id =>
        entry ← target_or (TargetBlockNotFound after_id) (outline_entries outline !! after_id);
        if decide (desc_parent (entry_descriptor entry) ≠ parent)
        then target_err PreconditionMismatch else mret tt
      end;
  mret (PrePlacement block_id parent after (placement_digest outline parent)).

(** [max_by_key] of the descriptors by order: the last of the greatest. *)
Definition max_by_order (l : list BlockDescriptor) : option BlockDescriptor :=
  fold_left (λ best x, match best with
    | None => Some x
    | Some b => if decide (desc_order x < desc_order b)%N then Some b else Some x
    end) l None.

Definition current_placement_precondition (block_id : BlockId) : TM TargetPrecondition :=
  outline ← reading capture_outline;
  entry ← target_or (TargetBlockNotFound block_id) (outline_entries outline !! block_id);
  let parent := desc_parent (entry_descriptor entry) in
  let before := filter (λ x, desc_parent x = parent ∧
      (desc_order x < desc_order (entry_descriptor entry))%N)
    (entry_descriptor <$> btree_values (outline_entries outline)) in
  placement_precondition (Some block_id) parent (desc_id <$> max_by_order before).

(** [preconditions.push(f(x)?)] for each of a list. *)
Fixpoint collect_all {A B} (f : A → TM B) (l : list A) : TM (list B) :=
  match l with
  | [] => mret []
  | x :: l => y ← f x; ys ← collect_all f l; mret (y :: ys)
  end.

Definition both (id : BlockId) : TM (list TargetPrecondition) :=
  a ← block_precondition id; b ← current_placement_precondition id; mret [a; b].

Definition preconditions_for_edit (edit : WorkspaceEdit) : TM (list TargetPrecondition) :=
  match edit with
  | WInsertBlock parent after _ | WInsertParagraph parent after _ | WInsertHeading parent after _ _
  | WInsertTable parent after _ _ =>
    p ← placement_precondition None parent after; mret [p]
  | WDeleteBlock block_id => both block_id
  | WInsertText point _ | WSplitBlock point =>
    _ ← resolve_text_point point;
    p ← block_precondition (point_block point); mret [p]
  | WDeleteText range | WSetMark range _ _ => p ← text_precondition range; mret [p]
  | WRemoveMark block_id _ => p ← block_precondition block_id; mret [p]
  | WSetFrontmatterField _ _ => mret []
  | WMoveBlock block_id parent after =>
    l ← both block_id; p ← placement_precondition None parent after; mret (l ++ [p])
  | WMoveSection heading_id after =>
    a ← block_precondition heading_id;
    source ← current_placement_precondition heading_id;
    match source with
    | PrePlacement _ parent _ _ =>
      p ← placement_precondition None parent after; mret [a; source; p]
    | _ => target_err PreconditionMismatch
    end
  | WMergeBlocks left_id right_id =>
    a ← block_precondition left_id; b ← block_precondition right_id;
    c ← current_placement_precondition left_id; e ← current_placement_precondition right_id;
    mret [a; b; c; e]
  | WInsertTableRow table_id _ _ | WInsertTableColumn table_id _ _ _ | WSetTableRowCells table_id _ _
  | WDeleteTableRow table_id _ | WDeleteTableColumn table_id _ | WSetTableColumnAlignment table_id _ _
  | WSetTableMetadata table_id _ _ | WMoveTableRow table_id _ _ | WMoveTableColumn table_id _ _ =>
    p ← block_precondition table_id; mret [p]
  | WSetTableCell table_id row_id column_id _ =>
    p ← table_cell_precondition table_id row_id column_id; mret [p]
  | WInsertListItem list_id _ _ | WSetListStyle list_id _ => p ← block_precondition list_id; mret [p]
  | WDeleteListItem item_id | WSetListItemTask item_id _ => p ← block_precondition item_id; mret [p]
  | WMoveListItem item_id list_id after =>
    l ← both item_id;
    p ← placement_precondition (Some item_id) (Some list_id) after; mret (l ++ [p])
  | WWrapBlocks block_ids => ls ← collect_all both block_ids; mret (concat ls)
  | WUnwrapBlockQuote block_id | WSetCodeFence block_id _ _ _ | WConvertTextBlock block_id _
  | WReplaceRawBlock block_id _ _ => p ← block_precondition block_id; mret [p]
  end.
End targets.
