(* ===== verification/TargetProps.v ===== *)
(** * Text points and ranges: round trip and stability

    A range made from offsets resolves to these offsets; and after any sequence
    of operations on the text it still selects exactly those of its units that
    are visible, and none of the other units it was made over. *)

From S2P Require Import Prelude Core Sequence SequenceInv SequenceRefine SequenceProps.
From S2P Require Import SequenceView Mark Table Frontmatter Codec Text Block Document.
From S2P Require Import DocumentCache DocumentTree TreeInv Draft Storage Cursor Descriptor.
From S2P Require Import Outline Target.
From Stdlib Require Import Strings.Byte.

(** ** Looking up a text *)

(** The text of a block, read without the cache. *)
Definition text_of (block_id : BlockId) (blocks : Sequence Block) :
    WorkspaceTargetError + Sequence TextUnit :=
  match fresh_lookup by_block_id block_id (λ b, bool_decide (blk_id b = block_id)) blocks with
  | None => inl (TargetBlockNotFound block_id)
  | Some block =>
    match block_text_seq (blk_kind block) with
    | None => inl (TargetNotText block_id)
    | Some text => inr text
    end
  end.

(** The document is sound, and an operation that only reads leaves it so. *)
Definition sound (d : Document) : Prop := coherent d ∧ document_wf d.
Definition same_blocks (d d' : Document) : Prop := sound d' ∧ doc_blocks d' = doc_blocks d.

Lemma text_sequence_spec block_id d :
  sound d → ∃ d', text_sequence block_id d = (d', text_of block_id (doc_blocks d)) ∧ same_blocks d d'.
Proof.
  intros [Hc Hw]. unfold text_sequence, looking, mbind, TM_bind.
  destruct (find_block_by_id block_id d) as [d' found] eqn:E.
  destruct (find_through_spec by_block_id block_id (λ b, bool_decide (blk_id b = block_id)) d Hc) as [Hr Hc'].
  destruct (find_through_same by_block_id block_id (λ b, bool_decide (blk_id b = block_id)) d) as [Hs _].
  destruct (find_id_wf _ _ _ _ E Hw) as [Hw' _].
  unfold find_block_by_id in E. rewrite E in Hr, Hc', Hs. simpl in *.
  exists d'. split; [|split; [by split|]; unfold doc_blocks; by rewrite Hs].
  unfold text_of. rewrite <-Hr. destruct found as [b|]; simpl; [|done]. by destruct (block_text_seq _).
Qed.

Lemma text_of_inv block_id d text :
  sound d → text_of block_id (doc_blocks d) = inr text → sequence_inv text.
Proof.
  intros [Hc Hw] H. unfold text_of in H.
  destruct (find_block_by_id block_id d) as [d' found] eqn:E.
  destruct (find_through_spec by_block_id block_id (λ b, bool_decide (blk_id b = block_id)) d Hc) as [Hr _].
  destruct (find_id_wf _ _ _ _ E Hw) as [_ Hb].
  unfold find_block_by_id in E. rewrite E in Hr. simpl in Hr. rewrite <-Hr in H.
  destruct found as [b|]; [|done]. specialize (Hb b eq_refl). apply block_wf_kind in Hb.
  destruct (blk_kind b); simplify_eq/=; done.
Qed.

(** ** Visible units *)

Lemma visible_ids_sublist (s : Sequence TextUnit) : paragraph_visible_ids s `sublist_of` element_ids s.
Proof. unfold paragraph_visible_ids, element_ids. apply sublist_fmap, sublist_filter. Qed.

Lemma element_ids_nodup (s : Sequence TextUnit) : sequence_inv s → NoDup (element_ids s).
Proof. intros Hs. apply (wf_nodup _ (inv_wf _ Hs)). Qed.

Lemma visible_ids_nodup (s : Sequence TextUnit) : sequence_inv s → NoDup (paragraph_visible_ids s).
Proof. intros Hs. eapply sublist_NoDup; [by apply element_ids_nodup|apply visible_ids_sublist]. Qed.

Lemma visible_ids_length (s : Sequence TextUnit) : length (paragraph_visible_ids s) = len_visible s.
Proof. unfold paragraph_visible_ids, len_visible. by rewrite length_fmap. Qed.

Lemma visible_element (s : Sequence TextUnit) id :
  sequence_inv s → id ∈ paragraph_visible_ids s →
  ∃ e v, get_element s id = Some e ∧ elem_value e = Some v.
Proof.
  intros Hs Hid. unfold paragraph_visible_ids in Hid. apply list_elem_of_fmap in Hid as (e & -> & He).
  apply list_elem_of_filter in He as [[v Hv] He]. exists e, v. split; [|done].
  by apply get_element_elem_of.
Qed.

Lemma position_lookup (l : list OpId) k id :
  NoDup l → l !! k = Some id → position (λ x, bool_decide (x = id)) l = Some k.
Proof.
  revert k. induction l as [|y l IH]; intros [|k] Hn Hk; simplify_eq/=; apply NoDup_cons in Hn as [Hy Hn].
  - by rewrite bool_decide_eq_true_2.
  - rewrite bool_decide_eq_false_2; [by rewrite (IH k)|]. intros ->.
    destruct Hy. by eapply list_elem_of_lookup_2.
Qed.

(** ** Resolving *)

Section resolve.
Context (json_list_style : ListStyle → list Byte.byte).
Context (json_fence_style : CodeFenceStyle → list Byte.byte).
Abbreviation resolve_text_point := (resolve_text_point json_list_style json_fence_style).
Abbreviation resolve_text_range := (resolve_text_range json_list_style json_fence_style).

(** The offset a position stands for in a text, when its unit is visible. *)
Definition offset_in (text : Sequence TextUnit) (p : TextPosition) (k : nat) : Prop :=
  match p with
  | PosStart => k = 0
  | PosEnd => k = len_visible text
  | PosUnit a =>
    ∃ i, paragraph_visible_ids text !! i = Some (anchor_elem a) ∧
      k = match anchor_bias a with Before => i | After => i + 1 end
  end.

Lemma resolve_point block_id p k text d :
  sound d → text_of block_id (doc_blocks d) = inr text → offset_in text p k →
  ∃ d', resolve_text_point (mkPoint block_id p) d = (d', inr k) ∧ same_blocks d d'.
Proof.
  intros Hd Ht Hk. pose proof (text_of_inv _ _ _ Hd Ht) as Hi.
  destruct (text_sequence_spec block_id d Hd) as (d' & E & Hsame).
  exists d'. split; [|done]. unfold resolve_text_point, mbind, TM_bind. cbn [point_block point_position].
  rewrite E, Ht. destruct p as [| |[id bias]]; simpl in Hk; subst; try done.
  destruct Hk as (i & Hi' & ->). cbn [anchor_elem anchor_bias] in *.
  destruct (visible_element text id Hi (list_elem_of_lookup_2 _ _ _ Hi')) as (e & v & -> & ->).
  by rewrite (position_lookup _ i id) by (done || by apply visible_ids_nodup).
Qed.

Lemma resolve_range block_id p q a b text d :
  sound d → text_of block_id (doc_blocks d) = inr text →
  offset_in text p a → offset_in text q b → a ≤ b →
  ∃ d', resolve_text_range (mkTextRange (mkPoint block_id p) (mkPoint block_id q)) d =
    (d', inr (a, b)) ∧ same_blocks d d'.
Proof.
  intros Hd Ht Ha Hb Hab. unfold resolve_text_range. rewrite decide_False by (intros H; by apply H).
  unfold mbind, TM_bind. cbn [range_start range_end].
  destruct (resolve_point block_id p a text d Hd Ht Ha) as (d1 & E1 & [Hd1 Hb1]). rewrite E1.
  rewrite <-Hb1 in Ht.
  destruct (resolve_point block_id q b text d1 Hd1 Ht Hb) as (d2 & E2 & [Hd2 Hb2]). rewrite E2.
  rewrite decide_False by lia. exists d2. split; [done|]. split; [done|congruence].
Qed.

(** The two ends of a range made from offsets. *)
Lemma range_points block_id text first last :
  first ≤ last → last ≤ len_visible text →
  ∃ p q, text_range_for_sequence block_id text first last =
      Some (mkTextRange (mkPoint block_id p) (mkPoint block_id q)) ∧
    offset_in text p first ∧ offset_in text q last ∧
    (p = PosStart ∧ first = 0 ∨ p = PosEnd ∧ first = len_visible text ∨
     ∃ id, p = PosUnit (mkAnchor id Before) ∧ 0 < first < len_visible text ∧
       paragraph_visible_ids text !! first = Some id) ∧
    (q = PosStart ∧ last = 0 ∨ q = PosEnd ∧ last = len_visible text ∨
     ∃ id, q = PosUnit (mkAnchor id After) ∧ 0 < last < len_visible text ∧
       paragraph_visible_ids text !! (last - 1) = Some id).
Proof.
  intros Hfl Hl. unfold text_range_for_sequence. rewrite <-visible_ids_length in *.
  set (ids := paragraph_visible_ids text) in *. rewrite decide_False by lia.
  assert (∀ k (e : bool), k ≤ length ids → ∃ p, range_point block_id ids k e = Some (mkPoint block_id p) ∧
    offset_in text p k ∧ (p = PosStart ∧ k = 0 ∨ p = PosEnd ∧ k = length ids ∨
      ∃ id, p = PosUnit (mkAnchor id (if e then After else Before)) ∧ 0 < k < length ids ∧
        ids !! (if e then k - 1 else k) = Some id)) as Hp.
  { intros k e Hk. unfold range_point.
    destruct (decide (k = 0)) as [->|E0]; [exists PosStart; split; [done|]; split; [done|by left]|].
    destruct (decide (k = length ids)) as [E1|E1].
    { exists PosEnd. split; [done|]. split; [|by auto]. rewrite E1. apply visible_ids_length. }
    destruct (lookup_lt_is_Some_2 ids (if e then k - 1 else k)) as [id Hid]; [destruct e; lia|].
    rewrite Hid. eexists. split; [done|]. split.
    - eexists. split; [exact Hid|]. destruct e; simpl; lia.
    - right. right. exists id. split; [done|]. split; [lia|done]. }
  destruct (Hp first false) as (p & -> & Hop & Hp1); [lia|].
  destruct (Hp last true) as (q & -> & Hoq & Hq1); [lia|].
  exists p, q. split; [done|]. split; [done|]. split; [done|]. split; [|done].
  done.
Qed.

(** ** Order of the units *)

(** In a duplicate-free list, a sublist keeps the order of two elements. *)
Lemma sublist_order {A} (l k : list A) i j x y :
  l `sublist_of` k → NoDup k → l !! i = Some x → l !! j = Some y → i < j →
  ∀ i' j', k !! i' = Some x → k !! j' = Some y → i' < j'.
Proof.
  intros Hs. revert i j. induction Hs as [|z l k Hs IH|z l k Hs IH]; intros i j Hn Hi Hj Hij i' j' Hi' Hj';
    [by rewrite lookup_nil in Hi|..]; apply NoDup_cons in Hn as [Hz Hn].
  - destruct j as [|j]; [lia|]. simpl in Hj.
    assert (y ∈ k) as Hy by (by apply (elem_of_sublist l); [eapply list_elem_of_lookup_2|]).
    destruct j' as [|j']; [simplify_eq/=; done|]. simpl in Hj'.
    destruct i as [|i]; simplify_eq/=.
    + destruct i' as [|i']; [lia|]. simpl in Hi'. destruct Hz. by eapply list_elem_of_lookup_2.
    + assert (x ∈ k) as Hx by (by apply (elem_of_sublist l); [eapply list_elem_of_lookup_2|]).
      destruct i' as [|i']; [simplify_eq/=; done|]. simpl in Hi'.
      enough (i' < j') by lia. by apply (IH i j); [..|lia| |].
  - assert (x ∈ k) as Hx by (by apply (elem_of_sublist l); [eapply list_elem_of_lookup_2|]).
    assert (y ∈ k) as Hy by (by apply (elem_of_sublist l); [eapply list_elem_of_lookup_2|]).
    destruct i' as [|i'], j' as [|j']; simplify_eq/=; try done.
    enough (i' < j') by lia. by apply (IH i j).
Qed.

(** Units visible in an earlier and in a later text keep their order. *)
Lemma later_order (s s' : Sequence TextUnit) i j i' j' x y :
  sequence_inv s → sequence_inv s' → element_ids s `sublist_of` element_ids s' →
  paragraph_visible_ids s !! i = Some x → paragraph_visible_ids s !! j = Some y →
  paragraph_visible_ids s' !! i' = Some x → paragraph_visible_ids s' !! j' = Some y →
  i < j → i' < j'.
Proof.
  intros Hs Hs' Hsub Hx Hy Hx' Hy' Hij. pose proof (element_ids_nodup s' Hs') as Hn.
  assert (∀ t (z : OpId) k, paragraph_visible_ids t !! k = Some z → ∃ m, element_ids t !! m = Some z) as Hpos.
  { intros t z k Hk. apply list_elem_of_lookup. eapply elem_of_sublist; [|apply visible_ids_sublist].
    by eapply list_elem_of_lookup_2. }
  destruct (Hpos s' x i' Hx') as [a Ha], (Hpos s' y j' Hy') as [b Hb].
  assert (a < b) as Hab.
  { eapply (sublist_order (paragraph_visible_ids s)); [|exact Hn|exact Hx|exact Hy|exact Hij|done..].
    etrans; [apply visible_ids_sublist|done]. }
  destruct (decide (i' < j')) as [|Hge]; [done|]. destruct (decide (i' = j')) as [->|].
  { rewrite Hx' in Hy'. simplify_eq. pose proof (NoDup_lookup _ _ _ _ Hn Ha Hb). lia. }
  assert (b < a); [|lia].
  eapply (sublist_order (paragraph_visible_ids s')); [apply visible_ids_sublist|exact Hn|exact Hy'|exact Hx'|lia|done..].
Qed.

Lemma apply_all_keeps (inc : bool) (ops : list (SequenceOp TextUnit)) (s : Sequence TextUnit) :
  sequence_inv s →
  sequence_inv (apply_all inc ops s) ∧ element_ids s `sublist_of` element_ids (apply_all inc ops s).
Proof.
  unfold apply_all. revert s. induction ops as [|op ops IH]; intros s Hs; simpl; [done|].
  destruct (apply_spec inc op s Hs) as [Hs' _]. destruct (IH _ Hs') as [H1 H2].
  split; [done|]. etrans; [by apply (apply_keeps_order inc op)|done].
Qed.

(** ** The properties *)

(** A range made from offsets resolves to the same offsets. *)
Theorem text_range_resolves d block_id text first last :
  sound d → text_of block_id (doc_blocks d) = inr text →
  first ≤ last → last ≤ len_visible text →
  ∃ r d' d'', text_range block_id first last d = (d', inr r) ∧
    resolve_text_range r d' = (d'', inr (first, last)).
Proof.
  intros Hd Ht Hfl Hl. destruct (text_sequence_spec block_id d Hd) as (d' & E & Hd' & Hb).
  destruct (range_points block_id text first last Hfl Hl) as (p & q & Hr & Hp & Hq & _).
  rewrite <-Hb in Ht. destruct (resolve_range block_id p q first last text d' Hd' Ht Hp Hq Hfl) as (d'' & E' & _).
  exists (mkTextRange (mkPoint block_id p) (mkPoint block_id q)), d', d''.
  split; [|done]. unfold text_range, mbind, TM_bind. rewrite E. rewrite Hb in Ht. by rewrite Ht, Hr.
Qed.

(** The first and the last unit of a range are still visible, where the range
    does not begin or end with the text. *)
Definition ends_visible (text text' : Sequence TextUnit) (first last : nat) : Prop :=
  (first = 0 ∨ ∃ id, paragraph_visible_ids text !! first = Some id ∧ id ∈ paragraph_visible_ids text') ∧
  (last = len_visible text ∨
     ∃ id, paragraph_visible_ids text !! (last - 1) = Some id ∧ id ∈ paragraph_visible_ids text').

(** The offsets the ends of a range have in a later text. *)
Lemma ends_later text text' first last p q :
  sequence_inv text → sequence_inv text' → element_ids text `sublist_of` element_ids text' →
  first < last → last ≤ len_visible text → ends_visible text text' first last →
  (p = PosStart ∧ first = 0 ∨ p = PosEnd ∧ first = len_visible text ∨
     ∃ id, p = PosUnit (mkAnchor id Before) ∧ 0 < first < len_visible text ∧
       paragraph_visible_ids text !! first = Some id) →
  (q = PosStart ∧ last = 0 ∨ q = PosEnd ∧ last = len_visible text ∨
     ∃ id, q = PosUnit (mkAnchor id After) ∧ 0 < last < len_visible text ∧
       paragraph_visible_ids text !! (last - 1) = Some id) →
  ∃ a b, offset_in text' p a ∧ offset_in text' q b ∧ a ≤ b ∧
    ∀ i j id, paragraph_visible_ids text !! i = Some id → paragraph_visible_ids text' !! j = Some id →
      (first ≤ i ↔ a ≤ j) ∧ (i < last ↔ j < b).
Proof.
  intros Hi Hi' Hsub Hfl Hl [Hv1 Hv2] Hp Hq.
  assert (∀ m z, paragraph_visible_ids text !! m = Some z → ∀ n, paragraph_visible_ids text' !! n = Some z →
    ∀ i j id, paragraph_visible_ids text !! i = Some id → paragraph_visible_ids text' !! j = Some id →
    (m ≤ i ↔ n ≤ j) ∧ (i < m + 1 ↔ j < n + 1)) as Hiff.
  { intros m z Hm n Hn i j id Hid Hjd.
    pose proof (later_order text text' m i n j z id Hi Hi' Hsub Hm Hid Hn Hjd).
    pose proof (later_order text text' i m j n id z Hi Hi' Hsub Hid Hm Hjd Hn).
    assert (m = i → n = j) as Hsame.
    { intros ->. rewrite Hm in Hid. simplify_eq. eapply NoDup_lookup; [by apply visible_ids_nodup|done..]. }
    lia. }
  assert (∃ a, offset_in text' p a ∧ ∀ i j id, paragraph_visible_ids text !! i = Some id →
    paragraph_visible_ids text' !! j = Some id → first ≤ i ↔ a ≤ j) as (a & Ha & Hfirst).
  { destruct Hp as [[-> ->]|[[-> ->]|(id & -> & H0 & Hid)]]; [exists 0; split; [done|lia]|lia|].
    destruct Hv1 as [->|(id' & Hid' & Hin)]; [lia|]. rewrite Hid in Hid'. injection Hid' as <-.
    apply list_elem_of_lookup in Hin as [n Hn]. exists n. split; [by exists n|].
    intros i j x Hx Hy. by apply (Hiff _ _ Hid _ Hn i j x). }
  assert (∃ b, offset_in text' q b ∧ ∀ i j id, paragraph_visible_ids text !! i = Some id →
    paragraph_visible_ids text' !! j = Some id → i < last ↔ j < b) as (b & Hb & Hlast).
  { destruct Hq as [[-> ->]|[[-> Hend]|(id & -> & H0 & Hid)]]; [lia| |].
    - exists (len_visible text'). split; [done|]. intros i j x Hx%lookup_lt_Some Hy%lookup_lt_Some.
      rewrite visible_ids_length in Hx, Hy. lia.
    - destruct Hv2 as [Hend|(id' & Hid' & Hin)].
      + lia.
      + rewrite Hid in Hid'. injection Hid' as <-. apply list_elem_of_lookup in Hin as [n Hn]. exists (n + 1). split; [by exists n|].
        intros i j x Hx Hy. replace last with (last - 1 + 1) by lia. by apply (Hiff _ _ Hid _ Hn i j x). }
  exists a, b. split; [done|]. split; [done|]. split; [|intros i j id Hx Hy; split; eauto].
  destruct Hp as [[-> ->]|[[-> ->]|(id & -> & H0 & Hid)]]; simpl in Ha; [lia|lia|].
  destruct Ha as (n & Hn & ->). specialize (Hlast first n id Hid Hn). lia.
Qed.

(** C36: A range keeps its text: after any operations on the text (insertions and
    deletions of any peer), as long as its first and last unit are visible, the
    range resolves, and of the units that were visible when it was made exactly
    the selected ones lie inside it. *)
Theorem text_range_follows_units (inc : bool) (ops : list (SequenceOp TextUnit)) d d2 block_id text
    first last :
  let text' := apply_all inc ops text in
  sound d → sound d2 → text_of block_id (doc_blocks d) = inr text →
  text_of block_id (doc_blocks d2) = inr text' →
  first < last → last ≤ len_visible text → ends_visible text text' first last →
  ∃ r d' d'' a b, text_range block_id first last d = (d', inr r) ∧
    resolve_text_range r d2 = (d'', inr (a, b)) ∧
    ∀ i j id, paragraph_visible_ids text !! i = Some id → paragraph_visible_ids text' !! j = Some id →
      (first ≤ i ∧ i < last) ↔ (a ≤ j ∧ j < b).
Proof.
  intros text' Hd Hd2 Ht Ht2 Hfl Hl Hv. pose proof (text_of_inv _ _ _ Hd Ht) as Hi.
  destruct (apply_all_keeps inc ops text Hi) as [Hi' Hsub].
  destruct (text_sequence_spec block_id d Hd) as (d' & E & _).
  destruct (range_points block_id text first last) as (p & q & Hr & _ & _ & Hp & Hq); [lia|done|].
  destruct (ends_later text text' first last p q Hi Hi' Hsub Hfl Hl Hv Hp Hq) as (a & b & Ha & Hb & Hab & Hin).
  destruct (resolve_range block_id p q a b text' d2 Hd2 Ht2 Ha Hb Hab) as (d'' & E' & _).
  exists (mkTextRange (mkPoint block_id p) (mkPoint block_id q)), d', d'', a, b.
  split; [|split; [done|]].
  - unfold text_range, mbind, TM_bind. rewrite E. by rewrite Ht, Hr.
  - intros i j id Hid Hjd. destruct (Hin i j id Hid Hjd). tauto.
Qed.
End resolve.

(** ** Examples *)

(** A paragraph [abc]; a peer then inserts before the [b] and deletes the [a]. *)
Definition example_text : Sequence TextUnit :=
  apply_all true [Insert None (mkOpId 1 1) (mkUnit "a") None;
    Insert (Some (mkOpId 1 1)) (mkOpId 2 1) (mkUnit "b") None;
    Insert (Some (mkOpId 2 1)) (mkOpId 3 1) (mkUnit "c") None] sequence_new.
Definition example_edits : list (SequenceOp TextUnit) :=
  [Insert (Some (mkOpId 1 1)) (mkOpId 9 2) (mkUnit "x") None; Delete (mkOpId 1 1) (mkOpId 10 2)].

Definition text_document (text : Sequence TextUnit) : Document :=
  mkDocument None (indexed_new (apply true
    (Insert None (mkOpId 5 1) (mkBlock 7 (mkOpId 5 1) (mkOpId 5 1) StateVectorOps.new
       (Paragraph text) markset_new) None) sequence_new)) None None.

Lemma text_document_sound text : sequence_inv text → sound (text_document text).
Proof.
  intros Ht. split; [by intros c|]. apply of_insert; [apply of_new|]. by apply block_wf_kind.
Qed.

Lemma example_text_inv : sequence_inv example_text.
Proof. apply apply_all_keeps, sequence_new_inv. Qed.

Lemma text_range_resolves_witness :
  ∃ r d' d'', text_range 7 1 2 (text_document example_text) = (d', inr r) ∧
    resolve_text_range (λ _, []) (λ _, []) r d' = (d'', inr (1, 2)).
Proof.
  apply (text_range_resolves (λ _, []) (λ _, []) (text_document example_text) 7 example_text 1 2);
    [apply text_document_sound, example_text_inv|reflexivity|lia|].
  apply (bool_decide_unpack _). by vm_compute.
Defined.

Lemma text_range_follows_units_witness :
  ∃ r d' d'' a b, text_range 7 1 3 (text_document example_text) = (d', inr r) ∧
    resolve_text_range (λ _, []) (λ _, []) r
      (text_document (apply_all true example_edits example_text)) = (d'', inr (a, b)) ∧
    ∀ i j id, paragraph_visible_ids example_text !! i = Some id →
      paragraph_visible_ids (apply_all true example_edits example_text) !! j = Some id →
      (1 ≤ i ∧ i < 3) ↔ (a ≤ j ∧ j < b).
Proof.
  apply (text_range_follows_units (λ _, []) (λ _, []) true example_edits (text_document example_text)
    (text_document (apply_all true example_edits example_text)) 7 example_text 1 3);
    [apply text_document_sound, example_text_inv
    |apply text_document_sound, apply_all_keeps, example_text_inv|reflexivity|reflexivity|lia| |].
  - apply (bool_decide_unpack _). by vm_compute.
  - split; [right|left; by vm_compute].
    exists (mkOpId 2 1). split; [by vm_compute|]. apply (bool_decide_unpack _). by vm_compute.
Defined.
