(* ===== verification/Projection.v ===== *)
(** * Block projections

    Models the projections of [src/src/workspace.rs]: the selected blocks and list
    items of a request, the fields asked for, and the page that holds them within
    a number of items and a number of serialised bytes.  The size of a page in
    JSON, and the JSON of a request that its continuation is bound to, are
    parameters.  Slicing the source text at a wrong boundary is a panic, kept as
    an error of its own. *)

From S2P Require Import Prelude Core Sequence Mark Table Frontmatter Codec Text Block Document.
From S2P Require Import Draft Storage Cursor Serialize Ingest Descriptor Outline Target.
From Stdlib Require Import Strings.Byte.

(** ** Data *)

(** [ProjectionFields], a mask of 16 bits. *)
Abbreviation ProjectionFields := N (only parsing).
Definition FIELD_KIND : ProjectionFields := 1.
Definition FIELD_TEXT : ProjectionFields := 2.
Definition FIELD_MARKS : ProjectionFields := 4.
Definition FIELD_STRUCTURE : ProjectionFields := 8.
Definition FIELD_CONTENT_DIGEST : ProjectionFields := 16.
Definition FIELD_TEXT_POINTS : ProjectionFields := 32.
Definition FIELD_EXACT_MARKDOWN : ProjectionFields := 64.
Definition FIELDS_ALL : ProjectionFields := 127.
Definition fields_contains (fields field : ProjectionFields) : bool :=
  bool_decide (N.land fields field = field).
Definition fields_valid (fields : ProjectionFields) : bool :=
  bool_decide (N.land fields (N.lxor 65535 FIELDS_ALL) = 0%N).

Record ProjectionContinuation := mkContinuation { request_digest : list Byte.byte; cont_offset : N }.

Record ProjectionRequest := mkRequest {
  req_document_id : DocumentId;
  req_base_revision : RevisionToken;
  req_block_ids : list BlockId;
  req_fields : ProjectionFields;
  req_max_items : nat;
  req_max_bytes : nat;
  req_continuation : option ProjectionContinuation;
}.

Inductive BlockProjectionKind :=
  | ProjParagraph
  | ProjHeading (level : N)
  | ProjList (style : ListStyle)
  | ProjListItem (task : option TaskState)
  | ProjCodeFence (style : CodeFenceStyle) (info : option string)
  | ProjBlockQuote
  | ProjRawBlock
  | ProjTable.

Record ProjectedTableRow := mkProjRow { prow_id : RowId; prow_cells : list string }.
Record ProjectedTableColumn := mkProjColumn { pcol_id : ColumnId; pcol_alignment : ColumnAlignment }.

Inductive BlockProjectionStructure :=
  | ProjChildren (block_ids : list BlockId)
  | ProjListItems (item_ids : list BlockId)
  | ProjTableShape (columns : list ProjectedTableColumn) (header : list string)
      (rows : list ProjectedTableRow).

Record ProjectedMark := mkProjMark {
  pmark_range : TextRange;
  pmark_kind : MarkKind;
  pmark_attrs : gmap string MarkValue;
}.

Record BlockProjection := mkProjection {
  proj_id : BlockId;
  proj_kind : option BlockProjectionKind;
  proj_text : option string;
  proj_marks : option (list ProjectedMark);
  proj_structure : option BlockProjectionStructure;
  proj_content_digest : option N;
  proj_text_ranges : option (list TextRange);
  proj_exact : option (BlockId * ustring);
}.

Record ProjectionPage := mkProjPage {
  pp_document_id : DocumentId;
  pp_revision : RevisionToken;
  pp_items : list BlockProjection;
  pp_omitted_ids : list BlockId;
  pp_continuation : option ProjectionContinuation;
  pp_bytes_used : nat;
}.

(** [ProjectionError], and a panic. *)
Inductive ProjectionError :=
  | InvalidLimits
  | UnknownFields
  | DuplicateBlockId (block_id : BlockId)
  | InvalidContinuation
  | ItemTooLarge (block_id : BlockId) (required_bytes max_bytes : nat)
  | PageTooLarge (block_id : option BlockId) (required_bytes max_bytes : nat)
  | Serialization
  | ProjectionPanic.

(** ** Selecting nodes *)

Inductive ProjectionNode := NodeBlock (block : Block) | NodeItem (item : ListItem).
Definition node_id (n : ProjectionNode) : BlockId :=
  match n with NodeBlock block => blk_id block | NodeItem item => it_id item end.

Section selection.
Context (targets : gset BlockId).
Abbreviation Selected := (gmap BlockId ProjectionNode).

Definition all_selected (selected : Selected) : bool := bool_decide (size selected = size targets).
Definition select (id : BlockId) (n : ProjectionNode) (selected : Selected) : Selected :=
  if decide (id ∈ targets) then <[id := n]> selected else selected.
(** A step that does nothing once everything is selected. *)
Definition unless_done (f : Selected → Selected) (selected : Selected) : Selected :=
  if all_selected selected then selected else f selected.

(** The body of the loop of [collect_projection_nodes]. *)
Fixpoint collect_in (block : Block) (selected : Selected) : Selected :=
  match block with
  | mkBlock id _ _ _ kind _ =>
    unless_done (λ selected, match kind with
      | BlockQuote children =>
        iter_fold (λ _ child, unless_done (collect_in child)) children selected
      | ListBlock _ items _ =>
        iter_fold (λ _ item, match item with
          mkItem iid _ _ _ _ _ children =>
            unless_done (λ selected, unless_done (λ selected,
              iter_fold (λ _ child, unless_done (collect_in child)) children selected)
              (select iid (NodeItem item) selected))
          end) items selected
      | _ => selected
      end) (select id (NodeBlock block) selected)
  end.

Definition collect_projection_nodes (blocks : Sequence Block) (selected : Selected) : Selected :=
  iter_fold (λ _ block, unless_done (collect_in block)) blocks selected.
End selection.

(** ** Projecting a node *)

Definition projection_kind (n : ProjectionNode) : BlockProjectionKind :=
  match n with
  | NodeItem item => ProjListItem (it_task item)
  | NodeBlock block =>
    match blk_kind block with
    | Paragraph _ => ProjParagraph
    | Heading level _ => ProjHeading level
    | ListBlock style _ _ => ProjList style
    | CodeFence style info _ => ProjCodeFence style info
    | BlockQuote _ => ProjBlockQuote
    | RawBlock _ => ProjRawBlock
    | TableBlock _ => ProjTable
    end
  end.

Definition line_break : string := String (Ascii.ascii_of_N 10) EmptyString.
Definition tab : string := String (Ascii.ascii_of_N 9) EmptyString.

(** [projection_visible_text] of a block, with [projection_blocks_text] on the
    sequences inside it. *)
Fixpoint block_visible_text (block : Block) : string :=
  match block with
  | mkBlock _ _ _ _ kind _ =>
    match kind with
    | Paragraph text | Heading _ text => paragraph_visible_string text
    | ListBlock _ items _ =>
      String.concat line_break (iter_map (λ item, match item with
        mkItem _ _ _ _ _ _ children => String.concat line_break (iter_map block_visible_text children)
        end) items)
    | CodeFence _ _ text => text
    | BlockQuote children => String.concat line_break (iter_map block_visible_text children)
    | RawBlock raw => raw
    | TableBlock table =>
      String.append (String.concat tab (row_cells table (header_row_id table)))
        (String.concat EmptyString ((λ row,
           String.append line_break (String.concat tab (row_cells table (row_id row)))) <$> live_rows table))
    end
  end.
Definition projection_blocks_text (blocks : Sequence Block) : string :=
  String.concat line_break (iter_map block_visible_text blocks).
Definition projection_visible_text (n : ProjectionNode) : string :=
  match n with
  | NodeItem item => projection_blocks_text (it_children item)
  | NodeBlock block => block_visible_text block
  end.

Definition projection_structure (n : ProjectionNode) : option BlockProjectionStructure :=
  match n with
  | NodeItem item => Some (ProjChildren (blk_id <$> sequence_iter (it_children item)))
  | NodeBlock block =>
    match blk_kind block with
    | BlockQuote children => Some (ProjChildren (blk_id <$> sequence_iter children))
    | ListBlock _ items _ => Some (ProjListItems (it_id <$> sequence_iter items))
    | TableBlock table =>
      Some (ProjTableShape
        ((λ c, mkProjColumn (column_id c) (Lww.get (column_alignment c))) <$> columns_in_order table)
        (row_cells table (header_row_id table))
        ((λ row, mkProjRow (row_id row) (row_cells table (row_id row))) <$> live_rows table))
    | _ => None
    end
  end.

(** [output.push(...)?] for each of a list. *)
Fixpoint all_or_serialization {A} (l : list (option A)) : ProjectionError + list A :=
  match l with
  | [] => inr []
  | None :: _ => inl Serialization
  | Some x :: l =>
    match all_or_serialization l with inl e => inl e | inr xs => inr (x :: xs) end
  end.

(** The marks and the text of one block, [None] where a range is refused. *)
Definition own_marks (id : BlockId) (kind : BlockKind) (marks : MarkSet) : list (option ProjectedMark) :=
  match block_text_seq kind with
  | None => []
  | Some text =>
    (λ '(interval, start, stop),
       (λ range, mkProjMark range (mi_kind interval) (Lww.get <$> mi_attrs interval)) <$>
         text_range_for_sequence id text start stop)
      <$> resolved_intervals marks (paragraph_visible_ids text)
  end.
Definition own_ranges (id : BlockId) (kind : BlockKind) (marks : MarkSet) : list (option TextRange) :=
  match block_text_seq kind with
  | None => []
  | Some text => [text_range_for_sequence id text 0 (len_visible text)]
  end.

(** The common walk of [collect_projection_marks] and
    [collect_projection_text_ranges]: what each block below gives, in order. *)
Fixpoint collect_below {A} (own : BlockId → BlockKind → MarkSet → list (option A)) (block : Block) :
    list (option A) :=
  match block with
  | mkBlock id _ _ _ kind marks =>
    own id kind marks ++
    match kind with
    | BlockQuote children => mjoin (iter_map (collect_below own) children)
    | ListBlock _ items _ =>
      mjoin (iter_map (λ item, match item with
        mkItem _ _ _ _ _ _ children => mjoin (iter_map (collect_below own) children)
        end) items)
    | _ => []
    end
  end.
Definition collect_node {A} (own : BlockId → BlockKind → MarkSet → list (option A))
    (n : ProjectionNode) : ProjectionError + list A :=
  all_or_serialization match n with
    | NodeBlock block => collect_below own block
    | NodeItem item => mjoin (iter_map (collect_below own) (it_children item))
    end.
Definition collect_projection_marks := collect_node own_marks.
Definition collect_projection_text_ranges := collect_node own_ranges.

Section projection.
Context (json_list_style : ListStyle → list Byte.byte).
Context (json_fence_style : CodeFenceStyle → list Byte.byte).
(** [serde_json::to_vec(page)?.len()], and the JSON of what identifies a request. *)
Context (page_bytes : ProjectionPage → option nat).
Context (request_json : DocumentId → RevisionToken → list BlockId → ProjectionFields → nat → nat →
  option (list Byte.byte)).

Definition projection_node_digest (n : ProjectionNode) : N :=
  match n with
  | NodeBlock block => block_digest json_list_style json_fence_style block
  | NodeItem item => list_item_digest json_list_style json_fence_style item
  end.

(** [fields.contains(f).then(...)]. *)
Definition when_field {A} (fields field : ProjectionFields) (x : A) : option A :=
  if fields_contains fields field then Some x else None.
(** [.transpose()?]. *)
Definition transposed {A} (o : option (ProjectionError + A)) : ProjectionError + option A :=
  match o with
  | None => inr None
  | Some (inl e) => inl e
  | Some (inr x) => inr (Some x)
  end.

Definition project_node (d : Document) (n : ProjectionNode) (fields : ProjectionFields) :
    ProjectionError + BlockProjection :=
  match transposed (when_field fields FIELD_MARKS (collect_projection_marks n)) with
  | inl e => inl e
  | inr marks =>
    match transposed (when_field fields FIELD_TEXT_POINTS (collect_projection_text_ranges n)) with
    | inl e => inl e
    | inr ranges =>
      match when_field fields FIELD_EXACT_MARKDOWN (projection_exact_region (node_id n) d) with
      | Some None => inl ProjectionPanic
      | exact =>
        inr (mkProjection (node_id n)
          (when_field fields FIELD_KIND (projection_kind n))
          (when_field fields FIELD_TEXT (projection_visible_text n))
          marks
          (mjoin (when_field fields FIELD_STRUCTURE (projection_structure n)))
          (when_field fields FIELD_CONTENT_DIGEST (projection_node_digest n))
          ranges
          (mjoin (mjoin exact)))
      end
    end
  end.

(** ** Pages *)

Definition projection_request_digest (r : ProjectionRequest) : ProjectionError + list Byte.byte :=
  match request_json (req_document_id r) (req_base_revision r) (req_block_ids r) (req_fields r)
          (req_max_items r) (req_max_bytes r) with
  | None => inl Serialization
  | Some encoded => inr (to_be_bytes 16 (stable_hash_128 encoded))
  end.

Definition projection_continuation (digest : list Byte.byte) (offset total : nat) :
    option ProjectionContinuation :=
  if decide (offset < total) then Some (mkContinuation digest (N.min (N.of_nat offset) u64_max))
  else None.

Definition set_continuation (c : option ProjectionContinuation) (p : ProjectionPage) : ProjectionPage :=
  mkProjPage (pp_document_id p) (pp_revision p) (pp_items p) (pp_omitted_ids p) c (pp_bytes_used p).
Definition set_bytes_used (n : nat) (p : ProjectionPage) : ProjectionPage :=
  mkProjPage (pp_document_id p) (pp_revision p) (pp_items p) (pp_omitted_ids p) (pp_continuation p) n.
Definition set_content (items : list BlockProjection) (omitted : list BlockId) (p : ProjectionPage) :
    ProjectionPage :=
  mkProjPage (pp_document_id p) (pp_revision p) items omitted (pp_continuation p) (pp_bytes_used p).

(** [for _ in 0..usize::BITS]. *)
Fixpoint stabilize_loop (rounds : nat) (p : ProjectionPage) : ProjectionError + ProjectionPage :=
  match rounds with
  | 0 => inl Serialization
  | S rounds =>
    match page_bytes p with
    | None => inl Serialization
    | Some bytes =>
      if decide (bytes = pp_bytes_used p) then inr p
      else stabilize_loop rounds (set_bytes_used bytes p)
    end
  end.
Definition stabilize_projection_bytes (p : ProjectionPage) : ProjectionError + ProjectionPage :=
  stabilize_loop 64 p.

(** The [while] loop over the ids that are left, at most [max_items] of them;
    [index] and [processed] count as in the code. *)
Fixpoint page_loop (d : Document) (r : ProjectionRequest) (digest : list Byte.byte)
    (selected : gmap BlockId ProjectionNode) (todo : list BlockId) (index processed : nat)
    (p : ProjectionPage) : ProjectionError + (ProjectionPage * nat) :=
  let total := length (req_block_ids r) in
  match todo with
  | [] => inr (p, index)
  | block_id :: todo =>
    match transposed ((λ n, project_node d n (req_fields r)) <$> selected !! block_id) with
    | inl e => inl e
    | inr projection =>
      let pushed := match projection with
        | Some projection => set_content (pp_items p ++ [projection]) (pp_omitted_ids p) p
        | None => set_content (pp_items p) (pp_omitted_ids p ++ [block_id]) p
        end in
      match stabilize_projection_bytes
              (set_continuation (projection_continuation digest (index + 1) total) pushed) with
      | inl e => inl e
      | inr next =>
        if decide (req_max_bytes r < pp_bytes_used next) then
          let popped := set_continuation (projection_continuation digest index total)
            (set_content (pp_items p) (pp_omitted_ids p) next) in
          match stabilize_projection_bytes popped with
          | inl e => inl e
          | inr back =>
            if decide (processed = 0)
            then inl (ItemTooLarge block_id (pp_bytes_used next) (req_max_bytes r))
            else inr (back, index)
          end
        else page_loop d r digest selected todo (index + 1) (processed + 1) next
      end
    end
  end.

(** The first id that occurs twice. *)
Fixpoint first_duplicate (seen : gset BlockId) (ids : list BlockId) : option BlockId :=
  match ids with
  | [] => None
  | id :: ids => if decide (id ∈ seen) then Some id else first_duplicate ({[id]} ∪ seen) ids
  end.

(** Where the page starts. *)
Definition request_offset (r : ProjectionRequest) (digest : list Byte.byte) : option nat :=
  match req_continuation r with
  | None => Some 0
  | Some c =>
    if decide (request_digest c = digest ∧ (cont_offset c ≤ N.of_nat (length (req_block_ids r)))%N)
    then Some (N.to_nat (cont_offset c)) else None
  end.

Definition projection_page (d : Document) (r : ProjectionRequest) (revision : RevisionToken) :
    ProjectionError + ProjectionPage :=
  if decide (req_max_items r = 0 ∨ req_max_bytes r = 0) then inl InvalidLimits
  else if negb (fields_valid (req_fields r)) then inl UnknownFields
  else match first_duplicate ∅ (req_block_ids r) with
  | Some id => inl (DuplicateBlockId id)
  | None =>
    match projection_request_digest r with
    | inl e => inl e
    | inr digest =>
      match request_offset r digest with
      | None => inl InvalidContinuation
      | Some offset =>
        let total := length (req_block_ids r) in
        let todo := take (req_max_items r) (drop offset (req_block_ids r)) in
        let selected := collect_projection_nodes (list_to_set todo) (doc_blocks d) ∅ in
        match stabilize_projection_bytes (mkProjPage (req_document_id r) revision [] []
                (projection_continuation digest offset total) 0) with
        | inl e => inl e
        | inr p =>
          if decide (req_max_bytes r < pp_bytes_used p) then
            inl (PageTooLarge (req_block_ids r !! offset) (pp_bytes_used p) (req_max_bytes r))
          else match page_loop d r digest selected todo offset 0 p with
          | inl e => inl e
          | inr (p, index) =>
            stabilize_projection_bytes (set_continuation (projection_continuation digest index total) p)
          end
        end
      end
    end
  end.
End projection.
