(* ===== verification/ProjectionProps.v ===== *)
(** * Projections: what a page holds and how large it is

    The walk that stops early still finds every requested identity of the
    document; a page holds the next requested identities in order, at least one
    of them; its recorded size is its real size, and exceeds the limit by at
    most one byte. *)

From S2P Require Import Prelude Core Sequence Mark Table Frontmatter Codec Text Block Document.
From S2P Require Import DocumentTree Draft Storage Cursor Serialize Ingest Descriptor Outline.
From S2P Require Import OutlineProps Target Projection.
From Stdlib Require Import Strings.Byte.

(** ** Decimal numbers *)

Fixpoint digits_loop (fuel n : nat) : nat :=
  match fuel with
  | 0 => 1
  | S fuel => if decide (n < 10) then 1 else S (digits_loop fuel (n / 10))
  end.
(** The number of decimal digits of [n]. *)
Definition decimal_len (n : nat) : nat := digits_loop n n.

Lemma digits_loop_pos fuel n : 0 < digits_loop fuel n.
Proof. destruct fuel; simpl; [lia|]. case_decide; lia. Qed.

Lemma digits_loop_spec fuel n k : n ≤ fuel → 0 < k → digits_loop fuel n ≤ k ↔ n < 10 ^ k.
Proof.
  revert n k. induction fuel as [|fuel IH]; intros n k Hn Hk; cbn [digits_loop].
  { assert (10 ^ k ≠ 0) by (apply Nat.pow_nonzero; lia). lia. }
  destruct k as [|k]; [lia|]. rewrite Nat.pow_succ_r'. case_decide as H10.
  - assert (10 ^ k ≠ 0) by (apply Nat.pow_nonzero; lia). lia.
  - assert (n / 10 < n) by (apply Nat.div_lt; lia). destruct k as [|k].
    + pose proof (digits_loop_pos fuel (n / 10)). rewrite Nat.pow_0_r. lia.
    + rewrite <-Nat.succ_le_mono, IH by lia. generalize (10 ^ S k). intros P. pose proof (Nat.div_mod_eq n 10). pose proof (Nat.mod_upper_bound n 10). split; lia.
Qed.

Lemma decimal_len_le n k : 0 < k → decimal_len n ≤ k ↔ n < 10 ^ k.
Proof. intros Hk. by apply digits_loop_spec. Qed.
Lemma decimal_len_pos n : 0 < decimal_len n.
Proof. apply digits_loop_pos. Qed.
Lemma decimal_len_mono m n : m ≤ n → decimal_len m ≤ decimal_len n.
Proof.
  intros Hmn. pose proof (decimal_len_pos n) as Hp. apply decimal_len_le; [done|].
  eapply Nat.le_lt_trans; [exact Hmn|]. by apply decimal_len_le.
Qed.

(** Two sizes that count their own digits differ by at most one. *)
Lemma fixed_sizes_close base a b :
  a = base + decimal_len a → b = base + decimal_len b → b ≤ a + 1.
Proof.
  intros Ha Hb. destruct (decide (b ≤ a + 1)) as [|Hgt]; [done|exfalso].
  set (k := decimal_len a) in *. set (m := decimal_len b) in *.
  assert (m = k + (b - a)) as Hm by lia. pose proof (decimal_len_pos a). fold k in H.
  assert (a < 10 ^ k) as Hak by (by apply decimal_len_le).
  assert (10 ^ (m - 1) ≤ b) as Hbm.
  { apply Nat.nlt_ge. intros Hlt. apply decimal_len_le in Hlt; [|lia]. fold m in Hlt. lia. }
  set (e := b - a) in *. assert (m - 1 = k + (e - 1)) as E by lia. rewrite E, Nat.pow_add_r in Hbm.
  assert (e + 1 ≤ 10 ^ (e - 1)) as He.
  { assert (∀ x, x + 3 ≤ 10 ^ (x + 1)) as Hx.
    { induction x as [|x IH]; [simpl; lia|]. change (S x + 1) with (S (x + 1)). rewrite Nat.pow_succ_r'. lia. }
    specialize (Hx (e - 2)). replace (e - 2 + 1) with (e - 1) in Hx by lia. lia. }
  assert (10 ^ k * (e + 1) ≤ 10 ^ k * 10 ^ (e - 1)) by (by apply Nat.mul_le_mono_l).
  assert (e ≤ 10 ^ k * e); [|lia]. rewrite <-(Nat.mul_1_l e) at 1. apply Nat.mul_le_mono_r. lia.
Qed.

(** ** Selecting nodes *)

(** The identities of a tree: blocks and list items. *)
Fixpoint ids_of (block : Block) : list BlockId :=
  match block with
  | mkBlock id _ _ _ kind _ =>
    id :: match kind with
          | BlockQuote children => mjoin (iter_map ids_of children)
          | ListBlock _ items _ =>
            mjoin (iter_map (λ item, match item with
              mkItem iid _ _ _ _ _ children => iid :: mjoin (iter_map ids_of children)
              end) items)
          | _ => []
          end
  end.
Definition tree_ids (blocks : Sequence Block) : list BlockId := mjoin (iter_map ids_of blocks).

Lemma iter_map_live {T A} (f : T → A) (s : Sequence T) : iter_map f s = (λ x, f x.2) <$> live_elems s.
Proof.
  unfold iter_map, live_elems. induction (seq_elements s) as [|e l IH]; csimpl; [done|].
  destruct (elem_value e); csimpl; by rewrite IH.
Qed.

Section selection.
Context (targets : gset BlockId).
Abbreviation Selected := (gmap BlockId ProjectionNode).

(** Only targets are selected, each under its own id. *)
Definition selected_ok (sel : Selected) : Prop :=
  dom sel ⊆ targets ∧ ∀ id n, sel !! id = Some n → node_id n = id.

(** [f] adds exactly the targets among [ids]. *)
Definition adds (ids : list BlockId) (f : Selected → Selected) : Prop :=
  ∀ sel, selected_ok sel → selected_ok (f sel) ∧
    dom (f sel) = dom sel ∪ (targets ∩ list_to_set ids).

Lemma all_selected_dom sel : selected_ok sel → all_selected targets sel = true → dom sel = targets.
Proof.
  intros [Hsub _] Hall. apply bool_decide_eq_true in Hall.
  apply set_subseteq_size_eq; [done|]. rewrite size_dom. lia.
Qed.

Lemma adds_unless_done ids f : adds ids f → adds ids (unless_done targets f).
Proof.
  intros Hf sel Hsel. unfold unless_done. destruct (all_selected targets sel) eqn:E; [|by apply Hf].
  split; [done|]. rewrite (all_selected_dom sel Hsel E). set_solver.
Qed.

Lemma adds_select id n : node_id n = id → adds [id] (select targets id n).
Proof.
  intros Hn sel [Hsub Hid]. unfold select. case_decide as Hin.
  - split; [|rewrite dom_insert_L; set_solver]. split; [rewrite dom_insert_L; set_solver|].
    intros i m [[<- <-]|[_ ?]]%lookup_insert_Some; auto.
  - split; [done|]. set_solver.
Qed.

Lemma adds_compose ids ids' f g : adds ids f → adds ids' g → adds (ids ++ ids') (λ sel, g (f sel)).
Proof.
  intros Hf Hg sel Hsel. destruct (Hf sel Hsel) as [Hf1 Hf2]. destruct (Hg _ Hf1) as [Hg1 Hg2].
  split; [done|]. rewrite Hg2, Hf2, list_to_set_app_L. set_solver.
Qed.

Lemma adds_fold {X} (f : X → Selected → Selected) (ids : X → list BlockId) (l : list X) :
  (∀ x, x ∈ l → adds (ids x) (f x)) →
  adds (mjoin (ids <$> l)) (λ sel, fold_left (λ sel x, f x sel) l sel).
Proof.
  induction l as [|x l IH]; intros Hf.
  - intros sel Hsel. split; [done|]. set_solver.
  - csimpl. apply (adds_compose (ids x) (mjoin (ids <$> l)) (f x)); [apply Hf; left|].
    apply IH. intros y Hy. apply Hf. by right.
Qed.

Lemma adds_seq {T} (f : T → Selected → Selected) (ids : T → list BlockId) (s : Sequence T) :
  (∀ x, x ∈ live_elems s → adds (ids x.2) (f x.2)) →
  adds (mjoin (iter_map ids s)) (λ sel, iter_fold (λ _ v, f v) s sel).
Proof.
  intros Hf sel. rewrite iter_fold_live, iter_map_live.
  exact (adds_fold (λ x : OpId * T, f x.2) (λ x, ids x.2) (live_elems s) Hf sel).
Qed.

Lemma adds_in n b : block_height b < n → adds (ids_of b) (collect_in targets b).
Proof.
  revert b. induction n as [|n IH]; intros b Hh; [lia|].
  assert (∀ x, x ∈ child_seqs (blk_elem b) (blk_kind b) →
    adds (mjoin (iter_map ids_of x.2))
      (λ sel, iter_fold (λ _ c, unless_done targets (collect_in targets c)) x.2 sel)) as Hseq.
  { intros x Hx. apply adds_seq. intros y Hy. apply adds_unless_done, IH.
    apply block_height_child in Hx. apply sequence_height_ge in Hy. lia. }
  destruct b as [id el o v k m]. simpl in Hseq.
  intros sel. cbn [collect_in ids_of]. apply (adds_compose [id] _ (select targets id _));
    [by apply adds_select|]. apply adds_unless_done.
  destruct k as [| |st items mv| |ch| |]; try (intros s Hs; split; [done|set_solver]).
  - apply (adds_seq (λ item, match item with mkItem iid _ _ _ _ _ children =>
      unless_done targets (λ sel, unless_done targets (λ sel,
        iter_fold (λ _ c, unless_done targets (collect_in targets c)) children sel)
        (select targets iid (NodeItem item) sel)) end)).
    intros [e [iid ie t to tv pv ch]] Hx. apply adds_unless_done.
    apply (adds_compose [iid] _ (select targets iid _)); [by apply adds_select|]. apply adds_unless_done.
    apply (Hseq (InListItem el e, ch)). apply list_elem_of_fmap.
    by exists (e, mkItem iid ie t to tv pv ch).
  - apply (Hseq (InBlockQuote el, ch)). by left.
Qed.

Lemma collect_projection_nodes_spec blocks :
  let sel := collect_projection_nodes targets blocks ∅ in
  dom sel = targets ∩ list_to_set (tree_ids blocks) ∧ ∀ id n, sel !! id = Some n → node_id n = id.
Proof.
  assert (selected_ok ∅) as H0.
  { split; [rewrite dom_empty_L; set_solver|]. intros id n Hn. by rewrite lookup_empty in Hn. }
  destruct (adds_seq (λ b, unless_done targets (collect_in targets b)) ids_of blocks) with (sel := ∅ : Selected)
    as [[_ Hid] Hdom]; [|done|].
  - intros x _. apply adds_unless_done, (adds_in (S (block_height x.2))). lia.
  - split; [|done]. etrans; [exact Hdom|]. rewrite dom_empty_L. set_solver.
Qed.
End selection.

(** ** Sizes *)

Section pages.
Context (json_list_style : ListStyle → list Byte.byte).
Context (json_fence_style : CodeFenceStyle → list Byte.byte).
Context (page_bytes : ProjectionPage → option nat).
Context (request_json : DocumentId → RevisionToken → list BlockId → ProjectionFields → nat → nat →
  option (list Byte.byte)).
(** The JSON of a page is the JSON of its other fields and the decimal digits of
    [bytes_used]. *)
Context (page_base : ProjectionPage → nat).
Hypothesis page_size : ∀ p, page_bytes p = Some (page_base p + decimal_len (pp_bytes_used p)).
Hypothesis page_base_bytes : ∀ p n, page_base (set_bytes_used n p) = page_base p.

Abbreviation project_node := (project_node json_list_style json_fence_style).
Abbreviation stabilize := (stabilize_projection_bytes page_bytes).
Abbreviation page_loop := (page_loop json_list_style json_fence_style page_bytes).
Abbreviation projection_page :=
  (projection_page json_list_style json_fence_style page_bytes request_json).

(** The recorded size is the size. *)
Definition stable (p : ProjectionPage) : Prop := page_bytes p = Some (pp_bytes_used p).

Lemma stabilize_loop_spec rounds p p' :
  stabilize_loop page_bytes rounds p = inr p' → stable p' ∧ p' = set_bytes_used (pp_bytes_used p') p.
Proof.
  revert p. induction rounds as [|rounds IH]; intros p; simpl; [done|].
  destruct (page_bytes p) as [n|] eqn:E; [|done]. case_decide as Hn.
  - intros [= <-]. split; [by unfold stable; rewrite E, Hn|]. by destruct p.
  - intros H. apply IH in H as [Hs Hp]. split; [done|]. rewrite Hp at 1. by destruct p.
Qed.

Lemma stabilize_stable rounds p : stable p → stabilize_loop page_bytes (S rounds) p = inr p.
Proof. intros Hs. cbn [stabilize_loop]. rewrite Hs. by rewrite decide_True. Qed.

Lemma stable_close p p' :
  stable p → stable p' → page_base p = page_base p' → pp_bytes_used p' ≤ pp_bytes_used p + 1.
Proof.
  unfold stable. rewrite !page_size. intros H H' E. injection H as H. injection H' as H'.
  rewrite E in H. by eapply fixed_sizes_close.
Qed.

Lemma project_node_id d n fields x : project_node d n fields = inr x → proj_id x = node_id n.
Proof. unfold project_node. repeat case_match; intros; by simplify_eq/=. Qed.

(** What has been added to a page: the projected and the omitted ids. *)
Definition added (selected : gmap BlockId ProjectionNode) (ids : list BlockId) (p p' : ProjectionPage) : Prop :=
  (proj_id <$> pp_items p') =
    (proj_id <$> pp_items p) ++ filter (λ id, is_Some (selected !! id)) ids ∧
  pp_omitted_ids p' = pp_omitted_ids p ++ filter (λ id, ¬ is_Some (selected !! id)) ids.

Lemma page_loop_spec d r digest selected todo index processed p p' index' :
  (∀ id n, selected !! id = Some n → node_id n = id) →
  let total := length (req_block_ids r) in
  stable p → pp_bytes_used p ≤ req_max_bytes r →
  pp_continuation p = projection_continuation digest index total →
  page_loop d r digest selected todo index processed p = inr (p', index') →
  ∃ n, n ≤ length todo ∧ index' = index + n ∧ (n = 0 → todo = [] ∨ 0 < processed) ∧
    stable p' ∧ pp_bytes_used p' ≤ req_max_bytes r + 1 ∧
    pp_continuation p' = projection_continuation digest index' total ∧
    added selected (take n todo) p p'.
Proof.
  intros Hsel total. revert index processed p.
  induction todo as [|id todo IH]; intros index processed p Hs Hle Hc; cbn [page_loop].
  { intros [= <- <-]. exists 0. split; [done|]. split; [lia|]. split; [by left|]. split; [done|].
    split; [lia|]. split; [done|]. split; by rewrite app_nil_r. }
  destruct (transposed _) as [e|proj] eqn:Hproj; [done|].
  set (pushed := match proj with Some _ => _ | None => _ end).
  fold total. destruct (stabilize (set_continuation _ pushed)) as [e|next] eqn:Hst; [done|].
  apply stabilize_loop_spec in Hst as [Hns Hnext].
  assert (added selected [id] p next) as Hadd.
  { rewrite Hnext. unfold added, pushed. destruct (selected !! id) as [n|] eqn:Hid.
    - simpl in Hproj. destruct (project_node d n (req_fields r)) as [e|x] eqn:Hx; [done|].
      simpl in Hproj. injection Hproj as <-. simpl. rewrite fmap_app. simpl.
      rewrite (project_node_id _ _ _ _ Hx), (Hsel id n Hid).
      rewrite filter_cons_True, filter_cons_False by (rewrite Hid; eauto). simpl. by rewrite app_nil_r.
    - simpl in Hproj. injection Hproj as <-. simpl.
      rewrite filter_cons_False, filter_cons_True by (rewrite Hid; intros []; done || done).
      simpl. by rewrite app_nil_r. }
  case_decide as Hbig.
  - destruct (stabilize (set_continuation _ (set_content _ _ next))) as [e|back] eqn:Hb; [done|].
    case_decide as Hp0; [done|]. intros [= <- <-]. apply stabilize_loop_spec in Hb as [Hbs Hback].
    exists 0. split; [lia|]. split; [lia|]. split; [right; lia|]. split; [done|]. split.
    + assert (page_base p = page_base back) as Hbase.
      { rewrite Hback, page_base_bytes, <-(page_base_bytes p (pp_bytes_used next)). f_equal.
        rewrite Hnext. unfold set_bytes_used, set_continuation, set_content. simpl.
        destruct p; simpl in *. by destruct proj; subst. }
      pose proof (stable_close p back Hs Hbs Hbase). lia.
    + rewrite Hback. split; [done|]. by split; rewrite app_nil_r.
  - intros H. apply IH in H as (n & Hn & -> & _ & H1 & H2 & H3 & H4); [|done|lia|by rewrite Hnext].
    exists (S n). split; [simpl; lia|]. split; [lia|]. split; [lia|]. split; [done|]. split; [done|].
    split; [by rewrite <-Nat.add_assoc in H3 |- *|].
    destruct Hadd as [A1 A2], H4 as [B1 B2]. cbn [take]. split.
    + by rewrite B1, A1, <-app_assoc, <-filter_app.
    + by rewrite B2, A2, <-app_assoc, <-filter_app.
Qed.

(** The requested ids that are, and that are not, in the document. *)
Definition present (d : Document) (ids : list BlockId) : list BlockId :=
  filter (λ id, id ∈ tree_ids (doc_blocks d)) ids.
Definition absent (d : Document) (ids : list BlockId) : list BlockId :=
  filter (λ id, id ∉ tree_ids (doc_blocks d)) ids.

Lemma added_present d todo n p p' :
  added (collect_projection_nodes (list_to_set todo) (doc_blocks d) ∅) (take n todo) p p' →
  pp_items p = [] → pp_omitted_ids p = [] →
  (proj_id <$> pp_items p') = present d (take n todo) ∧ pp_omitted_ids p' = absent d (take n todo).
Proof.
  intros [H1 H2] E1 E2. rewrite E1 in H1. rewrite E2 in H2. cbn [fmap list_fmap app] in H1, H2.
  destruct (collect_projection_nodes_spec (list_to_set todo) (doc_blocks d)) as [Hdom _].
  assert (∀ id, id ∈ take n todo →
    is_Some (collect_projection_nodes (list_to_set todo) (doc_blocks d) ∅ !! id) ↔
    id ∈ tree_ids (doc_blocks d)) as Hfound.
  { intros id Hid. rewrite <-elem_of_dom, Hdom, elem_of_intersection, !elem_of_list_to_set.
    split; [tauto|]. split; [|done]. eapply elem_of_sublist; [exact Hid|apply sublist_take]. }
  split; [rewrite H1|rewrite H2]; apply filter_ext_in; intros id Hid; by rewrite (Hfound id Hid).
Qed.

(** C39: What a successful request returns, from the offset of its continuation: the
    next [n] requested identities, those of the document projected in order and
    the others listed as omitted, with [n] at least one when any is left and at
    most [max_items]; a continuation at the identity that follows; and the exact
    size of the page, which exceeds the limit by at most one byte. *)
Theorem projection_page_holds d r revision page :
  projection_page d r revision = inr page →
  ∃ digest offset n,
    projection_request_digest request_json r = inr digest ∧
    request_offset r digest = Some offset ∧
    let ids := take n (drop offset (req_block_ids r)) in
    n ≤ req_max_items r ∧ (offset < length (req_block_ids r) → 0 < n) ∧
    (proj_id <$> pp_items page) = present d ids ∧ pp_omitted_ids page = absent d ids ∧
    pp_continuation page = projection_continuation digest (offset + n) (length (req_block_ids r)) ∧
    page_bytes page = Some (pp_bytes_used page) ∧ pp_bytes_used page ≤ req_max_bytes r + 1.
Proof.
  unfold projection_page. destruct (decide (_ ∨ _)) as [|Hlim]; [done|].
  destruct (negb _); [done|]. destruct (first_duplicate _ _); [done|].
  destruct (projection_request_digest request_json r) as [|digest] eqn:Hdig; [done|].
  destruct (request_offset r digest) as [offset|] eqn:Hoff; [|done]. cbv zeta.
  set (todo := take (req_max_items r) (drop offset (req_block_ids r))).
  destruct (stabilize _) as [|p] eqn:Hst; [done|]. apply stabilize_loop_spec in Hst as [Hs Hp].
  case_decide as Hbig; [done|].
  destruct (page_loop _ _ _ _ _ _ _ _) as [|[p1 index]] eqn:Hloop; [done|].
  apply page_loop_spec in Hloop as (n & Hn & -> & H0 & Hs1 & Hle & Hc & Hadd);
    [|apply collect_projection_nodes_spec|done|lia|by rewrite Hp].
  rewrite <-Hc. assert (set_continuation (pp_continuation p1) p1 = p1) as -> by (by destruct p1).
  intros H. assert (page = p1) as ->.
  { pose proof (stabilize_stable 63 p1 Hs1) as E. unfold stabilize_projection_bytes in H. congruence. }
  exists digest, offset, n. split; [done|]. split; [done|]. cbv zeta.
  assert (n ≤ req_max_items r ∧ n ≤ length (drop offset (req_block_ids r))) as [Hn1 Hn2].
  { unfold todo in Hn. rewrite length_take in Hn. lia. }
  apply added_present in Hadd as [Hi Ho]; [|by rewrite Hp..].
  unfold todo in Hi, Ho. rewrite take_take, Nat.min_l in Hi, Ho by done.
  split; [done|]. split; [|done]. intros Hlt. destruct n; [|lia].
  destruct H0 as [H0|H0]; [done| |lia]. apply (f_equal length) in H0.
  unfold todo in H0. rewrite length_take, length_drop in H0. simpl in H0. lia.
Qed.
End pages.

(** ** A page over its limit *)

(** Two blocks of 496 bytes each in a page of 500 bytes. *)
Definition sized_document : Document :=
  let block n := (mkOpId n 1, block_new (RawBlock "x") (mkOpId n 1)) in
  mkDocument None (indexed_new (from_ordered [block 1%N; block 2%N])) None None.
Definition sized_request (max_bytes : nat) : ProjectionRequest :=
  mkRequest 1 (replicate 16 Byte.x00) (blk_id <$> blocks_in_order sized_document) FIELD_KIND 5
    max_bytes None.
Definition sized_base (p : ProjectionPage) : nat := 500 + 496 * length (pp_items p).
Definition sized_bytes (p : ProjectionPage) : option nat :=
  Some (sized_base p + decimal_len (pp_bytes_used p)).
Definition sized_page (max_bytes : nat) : ProjectionError + ProjectionPage :=
  projection_page (λ _, []) (λ _, []) sized_bytes (λ _ _ _ _ _ _, Some []) sized_document
    (sized_request max_bytes) (replicate 16 Byte.x00).

(** A page that fits in 999 bytes is measured again after the next item did not
    fit.  The measurement starts from the larger size, which has one digit more,
    and settles on 1000 bytes: the page returned is larger than its limit. *)
Theorem projection_exceeds_limit :
  ∃ page, sized_page 999 = inr page ∧ sized_bytes page = Some 1000 ∧ pp_bytes_used page = 1000 ∧
    length (pp_items page) = 1.
Proof.
  assert (match sized_page 999 with
          | inr page => bool_decide (sized_bytes page = Some 1000 ∧ pp_bytes_used page = 1000 ∧
                          length (pp_items page) = 1)
          | inl _ => false end = true) as H by (vm_compute; reflexivity).
  destruct (sized_page 999) as [|page]; [done|]. apply bool_decide_eq_true in H. by exists page.
Qed.

Lemma projection_page_holds_witness :
  ∃ page digest offset n,
    projection_request_digest (λ _ _ _ _ _ _, Some []) (sized_request 1100) = inr digest ∧
    request_offset (sized_request 1100) digest = Some offset ∧
    let ids := take n (drop offset (req_block_ids (sized_request 1100))) in
    n ≤ 5 ∧ (offset < 2 → 0 < n) ∧
    (proj_id <$> pp_items page) = present sized_document ids ∧
    pp_omitted_ids page = absent sized_document ids ∧
    pp_continuation page = projection_continuation digest (offset + n) 2 ∧
    sized_bytes page = Some (pp_bytes_used page) ∧ pp_bytes_used page ≤ 1100 + 1.
Proof.
  destruct (sized_page 1100) as [e|page] eqn:E.
  { exfalso. assert (match sized_page 1100 with inl _ => false | inr _ => true end = true) as H
      by (vm_compute; reflexivity). by rewrite E in H. }
  exists page.
  apply (projection_page_holds (λ _, []) (λ _, []) sized_bytes (λ _ _ _ _ _ _, Some []) sized_base
    (λ p, eq_refl) (λ p n, eq_refl) sized_document (sized_request 1100) (replicate 16 Byte.x00) page E).
Defined.
