(* ===== verification/Batch.v ===== *)
(** * Edit batches

    Models the edit batches of [src/src/filesync/session.rs]: the translation of
    one workspace edit into an operation of the session, the validation of a
    batch against the revision and the preconditions of its edits, and the
    preparation of a batch on a copy of the session.

    The bytes of a snapshot and of a batch in JSON are parameters, like the codec
    of the session. *)

From S2P Require Import Prelude Core Sequence Mark MarkOps Table Frontmatter Codec Text Draft.
From S2P Require Import Block Document Sync SessionWire Session Snapshot Storage Cursor.
From S2P Require Import Descriptor Outline Target.
From Stdlib Require Import Strings.Byte.

(** ** Data *)

Record WorkspaceMutation := mkMutation { mut_edit : WorkspaceEdit; mut_preconditions : list TargetPrecondition }.
Record EditBatch := mkBatch {
  batch_document_id : DocumentId;
  batch_base_revision : RevisionToken;
  batch_operations : list WorkspaceMutation;
}.
Record BatchReceipt := mkReceipt {
  rcpt_document_id : DocumentId;
  rcpt_previous_revision : RevisionToken;
  rcpt_revision : RevisionToken;
  rcpt_changes : ChangeSummary;
}.
Record PreparedBatch := mkPrepared {
  prep_session : CollaborativeDocument;
  prep_receipt : BatchReceipt;
  prep_token : list Byte.byte;
}.

(** The errors of [VaultError] that a batch raises. *)
Inductive BatchError :=
  | BatchDocumentIdMismatch (expected actual : DocumentId)
  | BatchStaleRevision (expected actual : RevisionToken)
  | BatchTargetPrecondition (operation_index : nat) (source : WorkspaceTargetError)
  | BatchSnapshot (e : SnapshotError)
  | BatchSession (e : SessionError)
  | BatchDelta
  | BatchCodec (message : string)
  | BatchSerialization.

(** ** Resolving identities *)

(** One round of the loop of [container_elem_by_id]: [Some r] returns [r], [None]
    goes on with the next block. *)
Fixpoint container_in (id : BlockId) (block : Block) : option (option OpId) :=
  let below children := Some <$> mjoin (iter_find_map (container_in id) children) in
  match block with
  | mkBlock bid elem _ _ kind _ =>
    if decide (bid = id) then Some match kind with BlockQuote _ => Some elem | _ => None end
    else match kind with
    | BlockQuote children => below children
    | ListBlock _ items _ =>
      iter_find_map (λ item, match item with
        mkItem iid ie _ _ _ _ children => if decide (iid = id) then Some (Some ie) else below children
        end) items
    | _ => None
    end
  end.
Definition container_elem_by_id (blocks : Sequence Block) (id : BlockId) : option OpId :=
  mjoin (iter_find_map (container_in id) blocks).

Definition resolve_container (parent : option BlockId) : SM (option OpId) :=
  match parent with
  | None => mret None
  | Some id =>
    blocks ← gets (λ s, doc_blocks (s_document s));
    Some <$> ok_or ErrBlockNotFound (container_elem_by_id blocks id)
  end.

Definition resolve_block_elem (block_id : option BlockId) : SM (option OpId) :=
  match block_id with
  | None => mret None
  | Some id =>
    block ← query (find_block_by_id id);
    Some <$> ok_or ErrBlockNotFound (blk_elem <$> block)
  end.

(** The table of a block. *)
Definition table_at (table_id : BlockId) : SM Table :=
  block ← query (find_block_by_id table_id);
  block ← ok_or ErrBlockNotFound block;
  ok_or ErrNotTable (match blk_kind block with TableBlock table => Some table | _ => None end).

Definition resolve_row_elem (table_id : BlockId) (row_id : option RowId) : SM (option OpId) :=
  match row_id with
  | None => mret None
  | Some row_id =>
    table ← table_at table_id;
    Some <$> ok_or ErrTableRowNotFound (row_elem_id <$> row_by_id table row_id)
  end.

Definition resolve_column_elem (table_id : BlockId) (column_id : option ColumnId) :
    SM (option OpId) :=
  match column_id with
  | None => mret None
  | Some column_id =>
    table ← table_at table_id;
    Some <$> ok_or ErrTableColumnNotFound (column_elem_id <$> column_by_id table column_id)
  end.

Definition resolve_list_item_elem (list_id : BlockId) (item_id : option BlockId) :
    SM (option OpId) :=
  match item_id with
  | None => mret None
  | Some item_id =>
    items ← query (list_items list_id);
    items ← ok_or ErrNotList items;
    Some <$> ok_or ErrListItemNotFound ((λ x, elem_id x.2) <$>
      list_find (λ e, it_id <$> elem_value e = Some item_id) (seq_elements items))
  end.

(** A target of the document, any failure of which is reported as [e]. *)
Definition target_query {A} (e : SessionError) (m : TM A) : SM A :=
  r ← query m; lift (match r with inl _ => inl e | inr x => inr x end).

Section batch.
Context (sequence_incremental : bool).
Context (graphemes : string → list string).
Context (encode : Envelope → string + list Byte.byte) (decode : list Byte.byte → string + Envelope).
Context (json_list_style : ListStyle → list Byte.byte).
Context (json_fence_style : CodeFenceStyle → list Byte.byte).
(** [SessionSnapshot::to_bytes] and [serde_json::to_vec(batch)]. *)
Context (snapshot_bytes : SessionSnapshot → SnapshotError + list Byte.byte).
Context (batch_json : EditBatch → option (list Byte.byte)).

Abbreviation resolve_text_point := (resolve_text_point json_list_style json_fence_style).
Abbreviation resolve_text_range := (resolve_text_range json_list_style json_fence_style).
Abbreviation capture_outline := (capture_outline json_list_style json_fence_style).

(** ** One edit *)

(** An operation whose result is not used. *)
Definition run {A} (m : SM A) : SM unit := _ ← m; mret tt.

Definition apply_workspace_edit (edit : WorkspaceEdit) : SM unit :=
  match edit with
  | WInsertBlock parent after draft =>
    parent ← resolve_container parent; after ← resolve_block_elem after;
    run (insert_draft_in sequence_incremental graphemes encode parent after draft default_edit_limits)
  | WInsertParagraph parent after text =>
    parent ← resolve_container parent; after ← resolve_block_elem after;
    run (insert_paragraph_in sequence_incremental graphemes encode parent after text)
  | WInsertHeading parent after level text =>
    _ ← require (1 ≤ level ∧ level ≤ 6)%N ErrInvalidHeadingLevel;
    parent ← resolve_container parent; after ← resolve_block_elem after;
    elem ← insert_block_in sequence_incremental graphemes encode parent after
             (Heading level sequence_new);
    if decide (text = EmptyString) then mret tt
    else run (session_insert_text sequence_incremental graphemes encode (block_id_from_op elem) 0 text)
  | WDeleteBlock block_id =>
    block ← query (find_block_by_id block_id);
    block ← ok_or ErrBlockNotFound block;
    parent ← query (block_parent block_id);
    parent ← ok_or ErrBlockNotFound parent;
    run (delete_block_in sequence_incremental graphemes encode parent (blk_elem block))
  | WInsertText point text =>
    offset ← target_query ErrInvalidOffset (resolve_text_point point);
    run (session_insert_text sequence_incremental graphemes encode (point_block point) offset text)
  | WDeleteText range =>
    r ← target_query ErrInvalidOffset (resolve_text_range range);
    run (session_delete_text sequence_incremental graphemes encode (point_block (range_start range))
           r.1 (r.2 - r.1))
  | WSetMark range kind attrs =>
    r ← target_query ErrInvalidOffset (resolve_text_range range);
    run (session_set_mark sequence_incremental graphemes encode (point_block (range_start range))
           r.1 r.2 kind attrs)
  | WRemoveMark block_id interval_id =>
    run (session_remove_mark sequence_incremental graphemes encode block_id interval_id)
  | WSetFrontmatterField key value =>
    run (session_set_frontmatter_field sequence_incremental graphemes encode key value)
  | WMoveBlock block_id parent after =>
    parent ← resolve_container parent; after ← resolve_block_elem after;
    run (move_block sequence_incremental graphemes encode block_id parent after)
  | WMoveSection heading_id after =>
    after ← resolve_block_elem after;
    run (move_section sequence_incremental graphemes encode heading_id after)
  | WSplitBlock point =>
    offset ← target_query ErrInvalidOffset (resolve_text_point point);
    parent ← query (block_parent (point_block point));
    parent ← ok_or ErrBlockNotFound parent;
    run (split_block_in sequence_incremental graphemes encode parent (point_block point) offset)
  | WMergeBlocks left_id right_id =>
    parent ← query (block_parent left_id);
    parent ← ok_or ErrBlockNotFound parent;
    run (merge_blocks_in sequence_incremental graphemes encode parent left_id right_id)
  | WInsertTable parent after columns header =>
    parent ← resolve_container parent; after ← resolve_block_elem after;
    run (insert_table_in sequence_incremental graphemes encode parent after columns header)
  | WInsertTableRow table_id after cells =>
    after ← resolve_row_elem table_id after;
    run (insert_table_row sequence_incremental graphemes encode table_id after cells)
  | WInsertTableColumn table_id after alignment header =>
    after ← resolve_column_elem table_id after;
    run (insert_table_column sequence_incremental graphemes encode table_id after alignment header)
  | WSetTableCell table_id row_id column_id value =>
    run (session_set_table_cell sequence_incremental graphemes encode table_id row_id column_id value)
  | WSetTableRowCells table_id row_id cells =>
    row ← resolve_row_elem table_id (Some row_id);
    row ← ok_or ErrTableRowNotFound row;
    run (set_table_row_cells sequence_incremental graphemes encode table_id row cells)
  | WDeleteTableRow table_id row_id =>
    row ← resolve_row_elem table_id (Some row_id);
    row ← ok_or ErrTableRowNotFound row;
    run (delete_table_row sequence_incremental graphemes encode table_id row)
  | WDeleteTableColumn table_id column_id =>
    run (delete_table_column sequence_incremental graphemes encode table_id column_id)
  | WSetTableColumnAlignment table_id column_id alignment =>
    run (set_table_column_alignment sequence_incremental graphemes encode table_id column_id alignment)
  | WSetTableMetadata table_id columns header =>
    run (set_table_metadata sequence_incremental graphemes encode table_id columns header)
  | WMoveTableRow table_id row_id after =>
    after ← resolve_row_elem table_id after;
    run (move_table_row sequence_incremental graphemes encode table_id row_id after)
  | WMoveTableColumn table_id column_id after =>
    after ← resolve_column_elem table_id after;
    run (move_table_column sequence_incremental graphemes encode table_id column_id after)
  | WInsertListItem list_id after item =>
    after ← resolve_list_item_elem list_id after;
    match item with
    | mkItemDraft task children =>
      run (insert_list_item_draft sequence_incremental graphemes encode list_id after task children
             default_edit_limits)
    end
  | WDeleteListItem item_id =>
    run (delete_list_item sequence_incremental graphemes encode item_id)
  | WMoveListItem item_id list_id after =>
    after ← resolve_list_item_elem list_id after;
    run (move_list_item sequence_incremental graphemes encode item_id list_id after)
  | WSetListStyle list_id style =>
    run (session_set_list_style sequence_incremental graphemes encode list_id style)
  | WSetListItemTask item_id task =>
    run (session_set_list_item_task sequence_incremental graphemes encode item_id task)
  | WWrapBlocks block_ids => run (wrap_blocks sequence_incremental graphemes encode block_ids)
  | WUnwrapBlockQuote block_id =>
    run (unwrap_blockquote sequence_incremental graphemes encode block_id)
  | WSetCodeFence block_id style info text =>
    run (session_set_code_fence sequence_incremental graphemes encode block_id style info text)
  | WConvertTextBlock block_id kind =>
    run (session_convert_text_block sequence_incremental graphemes encode block_id kind)
  | WReplaceRawBlock block_id expected_digest raw =>
    actual ← target_query ErrBlockNotFound (node_digest_for json_list_style json_fence_style block_id);
    _ ← require (actual = expected_digest) ErrRawDigestMismatch;
    run (session_replace_raw_block sequence_incremental graphemes encode block_id raw)
  end.

(** ** Batches *)

Definition revision_for (s : CollaborativeDocument) : BatchError + RevisionToken :=
  match save_snapshot encode s with
  | inl e => inl (BatchSnapshot e)
  | inr snapshot =>
    match snapshot_bytes snapshot with
    | inl e => inl (BatchSnapshot e)
    | inr b => inr (to_be_bytes 16 (stable_hash_128 b))
    end
  end.

Definition preview_token (batch : EditBatch) : BatchError + list Byte.byte :=
  match batch_json batch with
  | None => inl BatchSerialization
  | Some b => inr (to_be_bytes 16 (stable_hash_128 b))
  end.

(** The loop of [validate_batch_targets] from operation [index] on. *)
Fixpoint validate_targets (batch : EditBatch) (actual : RevisionToken) (index : nat)
    (operations : list WorkspaceMutation) (d : Document) : Document * option BatchError :=
  let revision_matches := bool_decide (batch_base_revision batch = actual) in
  let stale := BatchStaleRevision (batch_base_revision batch) actual in
  match operations with
  | [] => (d, None)
  | op :: operations =>
    match mut_preconditions op with
    | [] =>
      if revision_matches then validate_targets batch actual (S index) operations d else (d, Some stale)
    | _ =>
      match preconditions_for_edit json_list_style json_fence_style (mut_edit op) d with
      | (d, inl source) => (d, Some (BatchTargetPrecondition index source))
      | (d, inr expected) =>
        match expected with
        | [] =>
          (d, Some (if revision_matches then BatchTargetPrecondition index PreconditionMismatch else stale))
        | _ =>
          if decide (expected ≠ mut_preconditions op)
          then (d, Some (BatchTargetPrecondition index PreconditionMismatch))
          else validate_targets batch actual (S index) operations d
        end
      end
    end
  end.

Definition validate_batch_targets (batch : EditBatch) (actual : RevisionToken) (d : Document) :
    Document * option BatchError :=
  if decide (batch_operations batch = [] ∧ batch_base_revision batch ≠ actual)
  then (d, Some (BatchStaleRevision (batch_base_revision batch) actual))
  else validate_targets batch actual 0 (batch_operations batch) d.

(** The blocks that the operations of a message move explicitly. *)
Fixpoint explicit_moves (ops : list Operation) : BatchError + gset BlockId :=
  match ops with
  | [] => inr ∅
  | op :: ops =>
    match decode (sop_payload op) with
    | inl message => inl (BatchCodec message)
    | inr envelope =>
      match explicit_moves ops with
      | inl e => inl e
      | inr moved =>
        match env_body envelope with
        | Doc (MoveBlocks _ _ blocks) => inr (list_to_set (mb_block_id <$> blocks) ∪ moved)
        | _ => inr moved
        end
      end
    end
  end.

Definition summarize_session_transition (before : DocumentOutline) (before_vector : StateVector)
    (s : CollaborativeDocument) : BatchError + ChangeSummary :=
  match encode_changes_since before_vector (s_sync s) with
  | inl _ => inl BatchDelta
  | inr message =>
    match explicit_moves (msg_ops message) with
    | inl e => inl e
    | inr moved =>
      match revision_for s with
      | inl e => inl e
      | inr revision =>
        let after := capture_outline (s_document s) in
        let summary := summarize_outline_change before after (length (msg_ops message)) revision in
        inr (if decide (moved = ∅) then summary else replace_moved_ids before after moved summary)
      end
    end
  end.

(** [for operation in &batch.operations { apply_workspace_edit(...)? }]. *)
Definition apply_edits (operations : list WorkspaceMutation) : SM unit :=
  sm_fold (λ _ op, apply_workspace_edit (mut_edit op)) operations tt.

(** [prepare_edit_batch], from the identity and the revision of the document and
    its live session, whose cached index the validation may rebuild. *)
Definition prepare_edit_batch (actual_document_id : DocumentId) (actual_revision : RevisionToken)
    (batch : EditBatch) (live : CollaborativeDocument) :
    CollaborativeDocument * (BatchError + PreparedBatch) :=
  if decide (actual_document_id ≠ batch_document_id batch)
  then (live, inl (BatchDocumentIdMismatch (batch_document_id batch) actual_document_id))
  else
    let '(d, refused) := validate_batch_targets batch actual_revision (s_document live) in
    let live := set_document d live in
    (live,
     match refused with
     | Some e => inl e
     | None =>
       let before := capture_outline (s_document live) in
       let before_vector := session_state_vector live in
       match save_snapshot encode live with
       | inl e => inl (BatchSnapshot e)
       | inr snapshot =>
         match restore_from_snapshot sequence_incremental graphemes decode snapshot with
         | inl e => inl (BatchSnapshot e)
         | inr probe =>
           match apply_edits (batch_operations batch) probe with
           | (_, inl e) => inl (BatchSession e)
           | (probe, inr _) =>
             match summarize_session_transition before before_vector probe with
             | inl e => inl e
             | inr changes =>
               match preview_token batch with
               | inl e => inl e
               | inr token =>
                 inr (mkPrepared probe
                   (mkReceipt (batch_document_id batch) actual_revision (sum_revision changes) changes)
                   token)
               end
             end
           end
         end
       end
     end).
End batch.
