(* ===== verification/BatchProps.v ===== *)
(** * Edit batches: validation, isolation and delivery

    Reading a target changes the cached index of a document only, and its answer
    depends on the content.  So a batch is accepted exactly when each of its
    edits names the revision or the preconditions that hold now; preparing it
    leaves the live session as it is; and what it prepares is the restored
    session with the edits committed, which peers can pull.  The summary of a
    transition reports what [OutlineProps] says about the two documents, if no
    operation moved blocks explicitly. *)

From S2P Require Import Prelude Core Sequence Mark MarkOps Table Frontmatter Codec Text Draft.
From S2P Require Import Block Document DocumentCache DocumentTree DocumentTwin TreeInv Sync SyncInv.
From S2P Require Import SessionWire Session SessionTrace SessionLocal SessionClock SessionRemote.
From S2P Require Import SessionPull SessionProps Snapshot SnapshotProps Storage Cursor Descriptor.
From S2P Require Import Outline OutlineProps Target Batch.
From Stdlib Require Import Strings.Byte.

(** ** Reading a target *)

(** The computation moves the cached index only, and answers by the content. *)
Definition steady {A} (m : TM A) : Prop :=
  ∀ d, cache_only d (m d).1 ∧
    (coherent d → coherent (m d).1 ∧ ∀ d', coherent d' → same_content d d' → (m d').2 = (m d).2).

Lemma steady_pure {A} (r : WorkspaceTargetError + A) : steady (λ d, (d, r)).
Proof. intros d. split; [done|]. by intros Hc. Qed.
Lemma steady_ret {A} (x : A) : steady (mret x).
Proof. apply steady_pure. Qed.
Lemma steady_err {A} e : steady (target_err e : TM A).
Proof. apply steady_pure. Qed.
Lemma steady_or {A} e (o : option A) : steady (target_or e o).
Proof. destruct o; apply steady_pure. Qed.

Lemma steady_bind {A B} (m : TM A) (k : A → TM B) :
  steady m → (∀ x, steady (k x)) → steady (x ← m; k x).
Proof.
  intros Hm Hk d. destruct (Hm d) as [Hd Hc]. unfold mbind, TM_bind.
  destruct (m d) as [d1 [e|x]] eqn:E; simpl in *.
  - split; [done|]. intros H. destruct (Hc H) as [H1 H2]. split; [done|]. intros d' Hd' Hs.
    specialize (H2 d' Hd' Hs). destruct (m d') as [d1' [e'|x']]; simpl in *; by simplify_eq.
  - destruct (Hk x d1) as [Hd1 Hc1]. split; [by etrans|]. intros H. destruct (Hc H) as [H1 H2].
    destruct (Hc1 H1) as [H3 H4]. split; [done|]. intros d' Hd' Hs. specialize (H2 d' Hd' Hs).
    destruct (Hm d') as [Hcd' Hcoh']. destruct (Hcoh' Hd') as [Hd1' _].
    destruct (m d') as [d1' [e'|x']]; simpl in *; simplify_eq. apply H4; [done|].
    etrans; [symmetry; by apply content_cache|]. etrans; [exact Hs|by apply content_cache].
Qed.

Lemma steady_find id : steady (looking (find_block_by_id id)).
Proof.
  intros d. unfold looking. pose proof (cache_only_find_id id d) as Hc.
  destruct (find_block_by_id id d) as [d1 r] eqn:E. split; [exact Hc|]. intros Hd. unfold find_block_by_id in E.
  destruct (find_through_spec by_block_id id (λ b, bool_decide (blk_id b = id)) d Hd) as [H1 H2].
  rewrite E in H1, H2. split; [exact H2|]. intros d' Hd' (_ & Hb & _).
  destruct (find_through_spec by_block_id id (λ b, bool_decide (blk_id b = id)) d' Hd') as [H3 _].
  unfold find_block_by_id. destruct (find_through _ _ _ d') as [d2 r']. simpl in *. by rewrite H1, H3, Hb.
Qed.
Lemma steady_reading {A} (f : Document → A) :
  (∀ d d', same_content d d' → f d' = f d) → steady (reading f).
Proof. intros Hf d. split; [done|]. intros Hc. split; [done|]. intros d' _ Hs. unfold reading. simpl. by rewrite (Hf d d'). Qed.
Lemma steady_blocks : steady (reading doc_blocks).
Proof. apply steady_reading. by intros d d' (_ & -> & _). Qed.

Create HintDb steady.
#[export] Hint Resolve steady_ret steady_err steady_or steady_find steady_blocks : steady.

Ltac steady_step :=
  match goal with
  | |- steady (mbind _ _) => apply steady_bind; [|intros ?]
  | |- steady (match ?x with _ => _ end) => destruct x
  | |- steady (let '(_, _) := ?x in _) => destruct x
  | |- steady (if ?x then _ else _) => destruct x
  end.
Ltac steady_auto := repeat (cbv zeta; first [solve [eauto with steady] | steady_step]).

Section targets.
Context (json_list_style : ListStyle → list Byte.byte).
Context (json_fence_style : CodeFenceStyle → list Byte.byte).
Abbreviation capture_outline := (capture_outline json_list_style json_fence_style).
Abbreviation resolve_text_point := (resolve_text_point json_list_style json_fence_style).
Abbreviation resolve_text_range := (resolve_text_range json_list_style json_fence_style).
Abbreviation preconditions_for_edit := (preconditions_for_edit json_list_style json_fence_style).

Lemma capture_same d d' : same_content d d' → capture_outline d' = capture_outline d.
Proof.
  intros (_ & Hb & Hs). unfold Outline.capture_outline. rewrite <-Hb. generalize (doc_blocks d). intros blocks.
  destruct d, d'. simpl in Hs. subst. reflexivity.
Qed.
Lemma steady_outline : steady (reading capture_outline).
Proof. apply steady_reading, capture_same. Qed.
Hint Resolve steady_outline : steady.

Lemma steady_text_sequence id : steady (text_sequence id).
Proof. unfold text_sequence. steady_auto. Qed.
Hint Resolve steady_text_sequence : steady.

Lemma steady_owners id l : steady (owners_among id l).
Proof. induction l; simpl; steady_auto. Qed.
Hint Resolve steady_owners : steady.

Lemma steady_point p : steady (resolve_text_point p).
Proof. unfold Target.resolve_text_point, missing_anchor, text_unit_owners. steady_auto. Qed.
Hint Resolve steady_point : steady.
Lemma steady_range r : steady (resolve_text_range r).
Proof. unfold Target.resolve_text_range. steady_auto. Qed.
Hint Resolve steady_range : steady.

Lemma steady_block id : steady (block_precondition json_list_style json_fence_style id).
Proof. unfold block_precondition. steady_auto. Qed.
Lemma steady_cell t r c : steady (table_cell_precondition t r c).
Proof. unfold table_cell_precondition. steady_auto. Qed.
Lemma steady_digest id : steady (node_digest_for json_list_style json_fence_style id).
Proof. unfold node_digest_for. steady_auto. Qed.
Lemma steady_text r : steady (text_precondition json_list_style json_fence_style r).
Proof. unfold text_precondition, text_range_digest. steady_auto. Qed.
Lemma steady_placement b p a : steady (placement_precondition json_list_style json_fence_style b p a).
Proof. unfold placement_precondition. steady_auto. Qed.
Hint Resolve steady_block steady_cell steady_digest steady_text steady_placement : steady.
Lemma steady_current b : steady (current_placement_precondition json_list_style json_fence_style b).
Proof. unfold current_placement_precondition. steady_auto. Qed.
Hint Resolve steady_current : steady.
Lemma steady_both b : steady (both json_list_style json_fence_style b).
Proof. unfold both. steady_auto. Qed.
Hint Resolve steady_both : steady.
Lemma steady_all {A B} (f : A → TM B) l : (∀ x, steady (f x)) → steady (collect_all f l).
Proof. intros Hf. induction l; simpl; steady_auto; apply Hf. Qed.
Hint Resolve steady_all : steady.

Lemma steady_preconditions e : steady (preconditions_for_edit e).
Proof. destruct e; simpl; steady_auto. Qed.
End targets.
#[export] Hint Resolve steady_point steady_range steady_digest : steady.

(** ** Validation *)

Section validation.
Context (json_list_style : ListStyle → list Byte.byte).
Context (json_fence_style : CodeFenceStyle → list Byte.byte).
Abbreviation preconditions_for_edit := (preconditions_for_edit json_list_style json_fence_style).
Abbreviation validate_targets := (validate_targets json_list_style json_fence_style).

(** An edit may be applied: without preconditions when the batch was made for
    this revision, else when its preconditions are those that hold now. *)
Definition admitted (batch : EditBatch) (actual : RevisionToken) (d : Document) (op : WorkspaceMutation) :
    Prop :=
  match mut_preconditions op with
  | [] => batch_base_revision batch = actual
  | now => (preconditions_for_edit (mut_edit op) d).2 = inr now
  end.

(** What edit number [index], which may not be applied, is refused with. *)
Definition refusal (batch : EditBatch) (actual : RevisionToken) (d : Document) (index : nat)
    (op : WorkspaceMutation) : BatchError :=
  let stale := BatchStaleRevision (batch_base_revision batch) actual in
  match mut_preconditions op, (preconditions_for_edit (mut_edit op) d).2 with
  | [], _ => stale
  | _, inl source => BatchTargetPrecondition index source
  | _, inr [] =>
    if decide (batch_base_revision batch = actual)
    then BatchTargetPrecondition index PreconditionMismatch else stale
  | _, inr _ => BatchTargetPrecondition index PreconditionMismatch
  end.

Lemma admitted_same batch actual d d' op :
  coherent d → coherent d' → same_content d d' →
  (admitted batch actual d' op ↔ admitted batch actual d op) ∧
  ∀ i, refusal batch actual d' i op = refusal batch actual d i op.
Proof.
  intros Hc Hc' Hs. unfold admitted, refusal.
  destruct (steady_preconditions json_list_style json_fence_style (mut_edit op) d) as [_ H].
  destruct (H Hc) as [_ ->]; [done..|]. by destruct (mut_preconditions op).
Qed.

(** The edits up to the first that is refused. *)
Definition verdict (batch : EditBatch) (actual : RevisionToken) (d : Document) (start : nat)
    (ops : list WorkspaceMutation) (r : option BatchError) : Prop :=
  match r with
  | None => Forall (admitted batch actual d) ops
  | Some e => ∃ i op, ops !! i = Some op ∧ Forall (admitted batch actual d) (take i ops) ∧
      ¬ admitted batch actual d op ∧ e = refusal batch actual d (start + i) op
  end.

Lemma verdict_cons batch actual d d' start op ops r :
  coherent d → coherent d' → same_content d d' → admitted batch actual d op →
  verdict batch actual d' (S start) ops r → verdict batch actual d start (op :: ops) r.
Proof.
  intros Hc Hc' Hs Hop. destruct r as [e|]; simpl.
  - intros (i & o & Ho & Hi & Hn & ->). destruct (admitted_same batch actual d d' o Hc Hc' Hs) as [Ha ->].
    exists (S i), o. split; [done|]. split; [|split; [by rewrite <-Ha|f_equal; lia]].
    constructor; [done|]. eapply Forall_impl; [exact Hi|]. intros x. by apply admitted_same.
  - intros H. constructor; [done|]. eapply Forall_impl; [exact H|]. intros x. by apply admitted_same.
Qed.

Lemma verdict_stop batch actual d start op ops e :
  ¬ admitted batch actual d op → e = refusal batch actual d start op →
  verdict batch actual d start (op :: ops) (Some e).
Proof. intros Hn He. exists 0, op. rewrite Nat.add_0_r. by repeat split. Qed.

Lemma validate_targets_spec batch actual ops : ∀ start d, coherent d →
  let '(d', r) := validate_targets batch actual start ops d in
  cache_only d d' ∧ coherent d' ∧ verdict batch actual d start ops r.
Proof.
  induction ops as [|op ops IH]; intros start d Hc; cbn [Batch.validate_targets]; [split_and!; [done..|constructor]|].
  destruct (mut_preconditions op) as [|p ps] eqn:Hp.
  - case_bool_decide as Hr.
    + specialize (IH (S start) d Hc). destruct (validate_targets _ _ _ _ _) as [d' r].
      destruct IH as (H1 & H2 & H3). split_and!; [done..|].
      eapply verdict_cons; [exact Hc|exact Hc|done| |exact H3]. unfold admitted. by rewrite Hp.
    + split_and!; [done..|]. apply verdict_stop; unfold admitted, refusal; by rewrite Hp.
  - destruct (steady_preconditions json_list_style json_fence_style (mut_edit op) d) as [Hd H].
    destruct (H Hc) as [Hc1 _].
    destruct (preconditions_for_edit (mut_edit op) d) as [d1 [source|[|x xs]]] eqn:E; simpl in *.
    + split_and!; [done..|]. by apply verdict_stop; unfold admitted, refusal; rewrite Hp, E.
    + split_and!; [done..|]. apply verdict_stop; unfold admitted, refusal; rewrite Hp, E; [done|].
      simpl. by case_bool_decide; case_decide.
    + case_decide as Hne.
      * split_and!; [done..|]. apply verdict_stop; unfold admitted, refusal; rewrite Hp, E; [|done].
        intros [= -> ->]. by destruct Hne.
      * specialize (IH (S start) d1 Hc1).
        destruct (validate_targets _ _ _ _ _) as [d' r]. destruct IH as (H1 & H2 & H3).
        split_and!; [by etrans|done|]. eapply verdict_cons; [exact Hc|exact Hc1|by apply content_cache| |exact H3].
        unfold admitted. rewrite Hp, E. simpl. by rewrite Hne.
Qed.

Lemma validate_cache batch actual d :
  cache_only d (validate_batch_targets json_list_style json_fence_style batch actual d).1.
Proof.
  unfold validate_batch_targets. case_decide as H; [done|clear H]. generalize 0. revert d.
  induction (batch_operations batch) as [|op ops IH]; intros d start; cbn [Batch.validate_targets]; [done|].
  destruct (mut_preconditions op); [case_bool_decide; [apply IH|done]|].
  destruct (steady_preconditions json_list_style json_fence_style (mut_edit op) d) as [Hd _].
  destruct (preconditions_for_edit (mut_edit op) d) as [d1 [source|[|x xs]]]; simpl in *; [done..|].
  case_decide; [done|]. etrans; [exact Hd|apply IH].
Qed.

(** C24: A batch is accepted exactly when every edit may be applied now: an edit
    without preconditions on the revision the batch names, an edit with
    preconditions when they are, all and in order, those the document gives for
    it; an empty batch needs the revision.  A refusal is about the first edit
    that may not be applied and says why.  Only the cached index changes. *)
Theorem batch_validation_exact batch actual d :
  coherent d →
  let '(d', r) := validate_batch_targets json_list_style json_fence_style batch actual d in
  same_content d d' ∧
  if decide (batch_operations batch = [] ∧ batch_base_revision batch ≠ actual)
  then r = Some (BatchStaleRevision (batch_base_revision batch) actual)
  else verdict batch actual d 0 (batch_operations batch) r.
Proof.
  intros Hc. unfold validate_batch_targets. case_decide; [done|].
  pose proof (validate_targets_spec batch actual (batch_operations batch) 0 d Hc) as H'.
  destruct (validate_targets _ _ _ _ _) as [d' r]. destruct H' as (H1 & _ & H3).
  split; [by apply content_cache|done].
Qed.
End validation.

(** ** Edits are commits *)

Lemma looks_fmap {A B} (g : A → B) (m : SM A) : looks m → looks (g <$> m).
Proof.
  intros Hm s. destruct (Hm s) as (d & Hd & E). exists d. split; [done|].
  unfold fmap, SM_fmap. destruct (m s) as [s1 [e|x]]; exact E.
Qed.
Lemma looks_gets {A} (f : CollaborativeDocument → A) : looks (gets f).
Proof. intros s. apply looks_id. Qed.
Lemma looks_lift {A} (r : SessionError + A) : looks (lift r).
Proof. intros s. apply looks_id. Qed.
Lemma looks_target {A} e (m : TM A) : steady m → looks (target_query e m).
Proof.
  intros Hm. unfold target_query. apply looks_bind; [|intros; apply looks_lift].
  apply looks_query. intros d. apply Hm.
Qed.
Lemma cache_only_items id d : cache_only d (list_items id d).1.
Proof.
  unfold list_items. pose proof (cache_only_find_id id d). by destruct (find_block_by_id id d).
Qed.

Lemma looks_find id : looks (query (find_block_by_id id)).
Proof. apply looks_query, cache_only_find_id. Qed.
Lemma looks_parent id : looks (query (block_parent id)).
Proof. apply looks_query, cache_only_parent. Qed.
Lemma looks_items id : looks (query (list_items id)).
Proof. apply looks_query, cache_only_items. Qed.

Create HintDb looks.
#[export] Hint Resolve looks_ret looks_fmap looks_gets looks_lift looks_target looks_ok_or looks_require
  looks_find looks_parent looks_items : looks.
Ltac looks_auto :=
  repeat first [solve [eauto with looks steady] | apply looks_bind; [|intros ?] | apply looks_fmap
    | match goal with |- looks (match ?x with _ => _ end) => destruct x end].

Lemma looks_container p : looks (resolve_container p).
Proof. unfold resolve_container. looks_auto. Qed.
Lemma looks_block_elem b : looks (resolve_block_elem b).
Proof. unfold resolve_block_elem. looks_auto. Qed.
Lemma looks_row t r : looks (resolve_row_elem t r).
Proof. unfold resolve_row_elem, table_at. looks_auto. Qed.
Lemma looks_column t c : looks (resolve_column_elem t c).
Proof. unfold resolve_column_elem, table_at. looks_auto. Qed.
Lemma looks_item l i : looks (resolve_list_item_elem l i).
Proof. unfold resolve_list_item_elem. looks_auto. Qed.
#[export] Hint Resolve looks_container looks_block_elem looks_row looks_column looks_item : looks.

Section edits.
Context (inc : bool) (graphemes : string → list string).
Context (encode : Envelope → string + list Byte.byte).
Context (json_list_style : ListStyle → list Byte.byte).
Context (json_fence_style : CodeFenceStyle → list Byte.byte).
Abbreviation safe := (safe inc graphemes encode).
Abbreviation apply_workspace_edit :=
  (apply_workspace_edit inc graphemes encode json_list_style json_fence_style).

Lemma safe_run {A} (m : SM A) s : safe m s → safe (run m) s.
Proof. intros Hm. unfold run. apply safe_bind; [done|]. intros. apply safe_ret. Qed.

Hint Resolve safe_insert_draft safe_insert_paragraph safe_insert_block safe_insert_text safe_delete_block
  safe_delete_text safe_set_mark safe_remove_mark safe_set_field safe_section safe_split safe_merge
  safe_insert_table safe_insert_row safe_insert_column safe_set_cell safe_row_cells safe_delete_row
  safe_delete_column safe_set_alignment safe_metadata safe_move_row safe_move_column safe_item_draft
  safe_delete_item safe_move_item safe_list_style safe_item_task safe_wrap safe_unwrap safe_code_fence
  safe_convert safe_replace_raw safe_move_ids : session.

Lemma edit_safe e s : safe (apply_workspace_edit e) s.
Proof.
  destruct e; cbn [Batch.apply_workspace_edit]; repeat first
    [ apply safe_run; solve [eauto with session]
    | apply safe_looks; [solve [eauto with looks steady]|intros ? ?]
    | match goal with |- safe (match ?x with _ => _ end) _ => destruct x end
    | apply safe_ret
    | apply safe_bind; [solve [eauto with session]|intros ? ? _] ].
Qed.

Lemma edits_safe ops s : safe (apply_edits inc graphemes encode json_list_style json_fence_style ops) s.
Proof. apply safe_fold. intros. apply edit_safe. Qed.
End edits.

(** ** Preparing a batch *)

Section prepare.
Context (inc : bool) (graphemes : string → list string).
Context (encode : Envelope → string + list Byte.byte) (decode : list Byte.byte → string + Envelope).
Context (json_list_style : ListStyle → list Byte.byte).
Context (json_fence_style : CodeFenceStyle → list Byte.byte).
Context (snapshot_bytes : SessionSnapshot → SnapshotError + list Byte.byte).
Context (batch_json : EditBatch → option (list Byte.byte)).
Abbreviation prepare_edit_batch := (prepare_edit_batch inc graphemes encode decode json_list_style
  json_fence_style snapshot_bytes batch_json).
Abbreviation local_trace := (local_trace inc graphemes encode).

(** The session is one that snapshots restore. *)
Record saveable (s : CollaborativeDocument) : Prop := {
  sv_settled : document_settled (s_document s);
  sv_buffer : buffer_kept graphemes decode (s_sync s);
  sv_codec : ∀ id env p, s_pending_envelopes s !! id = Some env → encode env = inr p → decode p = inr env;
}.

Lemma saveable_cache d s : cache_only (s_document s) d → saveable s → saveable (set_document d s).
Proof. intros Hd [Hs Hb Hc]. split; [|done|done]. by destruct Hd as [->| ->]. Qed.

Lemma restored_cache d s s' : cache_only (s_document s) d → restored (set_document d s) s' → restored s s'.
Proof. intros Hd [H1 H2 H3 H4 H5 H6 H7 H8 H9 H10 H11 H12 H13]. by destruct Hd as [->| ->]. Qed.

(** Preparing changes the cached index of the live session only. *)
Lemma prepare_isolated document_id revision batch live :
  ∃ d, cache_only (s_document live) d ∧
    (prepare_edit_batch document_id revision batch live).1 = set_document d live.
Proof.
  unfold Batch.prepare_edit_batch. case_decide; [apply looks_id|].
  pose proof (validate_cache json_list_style json_fence_style batch revision (s_document live)) as Hd.
  destruct (validate_batch_targets _ _ _ _ _) as [d r]. by exists d.
Qed.

Lemma restored_no_index snap s :
  restore_from_snapshot inc graphemes decode snap = inr s → doc_block_index (s_document s) = None.
Proof.
  unfold restore_from_snapshot. case_decide; [done|]. destruct (_ <=? _)%N; [done|].
  destruct (decode_deferred _ _); [done|]. by intros [= <-].
Qed.

(** What a prepared batch is. *)
Record prepared (document_id : DocumentId) (revision : RevisionToken) (batch : EditBatch)
    (live probe : CollaborativeDocument) (prep : PreparedBatch) : Prop := {
  pr_document : batch_document_id batch = document_id;
  pr_probe : restored live probe ∧ doc_block_index (s_document probe) = None;
  pr_edits : apply_edits inc graphemes encode json_list_style json_fence_style (batch_operations batch) probe =
    (prep_session prep, inr tt);
  pr_revision : revision_for encode snapshot_bytes (prep_session prep) = inr (rcpt_revision (prep_receipt prep));
  pr_previous : rcpt_previous_revision (prep_receipt prep) = revision;
  pr_count : ∃ message, encode_changes_since (session_state_vector live) (s_sync (prep_session prep)) =
    inr message ∧ operation_count (rcpt_changes (prep_receipt prep)) = length (msg_ops message);
  pr_token : preview_token batch_json batch = inr (prep_token prep);
}.

Lemma summarize_spec before vector s changes :
  summarize_session_transition encode decode json_list_style json_fence_style snapshot_bytes before vector s =
    inr changes →
  revision_for encode snapshot_bytes s = inr (sum_revision changes) ∧
  ∃ message, encode_changes_since vector (s_sync s) = inr message ∧
    operation_count changes = length (msg_ops message).
Proof.
  unfold summarize_session_transition. destruct (encode_changes_since _ _) as [|message]; [done|].
  destruct (explicit_moves _ _) as [|moved]; [done|]. destruct (revision_for _ _ s) as [|revision]; [done|].
  case_decide; intros [= <-]; (split; [done|]); by exists message.
Qed.

Lemma prepare_spec document_id revision batch live live' prep :
  saveable live → prepare_edit_batch document_id revision batch live = (live', inr prep) →
  ∃ probe, prepared document_id revision batch live probe prep.
Proof.
  intros Hs. unfold Batch.prepare_edit_batch. case_decide as Hid; [done|].
  pose proof (validate_cache json_list_style json_fence_style batch revision (s_document live)) as Hd.
  destruct (validate_batch_targets _ _ _ _ _) as [d refused]. simpl in Hd. cbv zeta. destruct refused; [by intros [=]|].
  pose proof (saveable_cache d live Hd Hs) as [Hset Hbuf Hcod].
  destruct (save_snapshot encode (set_document d live)) as [|snap] eqn:Hsave; [by intros [=]|].
  pose proof (restore_saved inc graphemes encode decode _ snap Hset Hbuf Hcod Hsave) as Hr.
  pose proof (restored_no_index snap) as Hix.
  destruct (restore_from_snapshot _ _ _ snap) as [|probe]; [by intros [=]|]. destruct Hr as [_ Hr].
  destruct (apply_edits _ _ _ _ _ _ probe) as [s [|[]]] eqn:He; [by intros [=]|].
  destruct (summarize_session_transition _ _ _ _ _ _ _ s) as [|changes] eqn:Hsum; [by intros [=]|].
  destruct (preview_token _ batch) as [|token] eqn:Ht; [by intros [=]|]. intros [= <- <-].
  apply summarize_spec in Hsum as [Hrev Hcount]. exists probe. split; try done.
  - split; [by eapply restored_cache|by apply Hix].
Qed.

(** The peer [r] is in step with the live session and shows the same content. *)
Record follows (n : nat) (live r : CollaborativeDocument) : Prop := {
  fo_step : in_step live r;
  fo_blocks : doc_blocks (s_document r) = doc_blocks (s_document live);
  fo_frontmatter : doc_frontmatter (s_document r) = doc_frontmatter (s_document live);
  fo_source : doc_source (s_document r) =
    reindex (doc_blocks (s_document live)) <$> doc_source (s_document live);
  fo_stale : stale n (s_document r);
}.

Lemma restored_step live probe r : restored live probe → in_step live r → in_step probe r.
Proof.
  intros [H1 H2 H3 H4 H5 H6 H7 H8 H9 H10 H11 H12 H13] [S1 S2 S3 S4 S5 S6 S7 S8].
  split; rewrite ?H9, ?H1, ?H2, ?H7, ?H10, ?H3; done.
Qed.
Lemma restored_clock live probe : restored live probe → clock_ok live → clock_ok probe.
Proof.
  intros [H1 H2 H3 H4 H5 H6 H7 H8 H9 H10 H11 H12 H13] [C1 C2 C3 C4].
  split; rewrite ?H9, ?H1, ?H2, ?H7, ?H8; done.
Qed.
Lemma restored_twin n live probe r :
  restored live probe → doc_block_index (s_document probe) = None → follows n live r →
  twin n (s_document probe) (s_document r).
Proof.
  intros Hr Hix [Hst Hb Hf Hs Hn]. split; [|intros c; by rewrite Hix|done].
  split_and!; [by rewrite (rs_frontmatter _ _ Hr)|by rewrite (rs_blocks _ _ Hr)|by rewrite (rs_source _ _ Hr)].
Qed.

(** The live session as a receiver that waits for nothing. *)
Definition idle (s : CollaborativeDocument) : CollaborativeDocument :=
  mkSession (s_peer s) (s_next_counter s) (s_document s) (set_pending (λ _, ∅) (s_sync s)) (s_unit_mode s) ∅.

Lemma idle_step probe live r : in_step probe r → in_step live r → in_step probe (idle live).
Proof.
  intros [S1 S2 S3 S4 S5 S6 S7 S8] [L1 L2 L3 L4 L5 L6 L7 L8]. split; try done; simpl.
  - intros p. by rewrite <-L1, S1.
  - by rewrite <-L8.
Qed.

(** C23: A batch that is prepared reaches the peers.  The live session keeps its
    content.  The prepared session is the restored live session after a sequence
    of commits; the receipt names its revision and counts the commits; the ids
    of the commits continue the clock; and a peer that shows the content of the
    live session pulls exactly these operations, applies them all, and ends with
    the blocks and the frontmatter of the prepared session. *)
Theorem batch_reaches_peers document_id revision batch live live' prep r limits n :
  saveable live → clock_ok live → follows n live r →
  prepare_edit_batch document_id revision batch live = (live', inr prep) →
  (∃ d, same_content (s_document live) d ∧ live' = set_document d live) ∧
  revision_for encode snapshot_bytes (prep_session prep) = inr (rcpt_revision (prep_receipt prep)) ∧
  ∃ probe l, let message := mkChanges (session_state_vector r) l.*2 in
    restored live probe ∧ local_trace probe l (prep_session prep) ∧
    (Forall (λ x : Envelope * Operation, below_max graphemes x.1) l →
     tiles graphemes (s_next_counter live) l.*1 (s_next_counter (prep_session prep)) ∧
     operation_count (rcpt_changes (prep_receipt prep)) = length l ∧
     (Forall (λ x : Envelope * Operation, decode (sop_payload x.2) = inr x.1) l →
      room (n + history_cost l.*1) → validate_changes message limits 0 = None →
      encode_changes_since (session_state_vector r) (s_sync (prep_session prep)) = inr message ∧
      ∃ r', apply_remote inc graphemes decode message limits r =
          (r', inr (mkSessionResult (sop_id <$> l.*2) [])) ∧
        doc_blocks (s_document r') = doc_blocks (s_document (prep_session prep)) ∧
        doc_frontmatter (s_document r') = doc_frontmatter (s_document (prep_session prep)))).
Proof.
  intros Hsv Hck Hf E. destruct (prepare_isolated document_id revision batch live) as (d & Hd & Hlive).
  rewrite E in Hlive. simpl in Hlive. split; [exists d; split; [by apply content_cache|done]|].
  destruct (prepare_spec _ _ _ _ _ _ Hsv E) as (probe & [_ [Hr Hix] Hed Hrev _ Hcount _]).
  split; [done|].
  destruct (edits_safe inc graphemes encode json_list_style json_fence_style (batch_operations batch) probe)
    as [l Hl]. rewrite Hed in Hl. simpl in Hl. exists probe, l. split_and!; [done|done|]. intros Hb.
  pose proof (restored_step _ _ _ Hr (fo_step _ _ _ Hf)) as Hst. pose proof (restored_clock _ _ Hr Hck) as Hc.
  pose proof (trace_commits _ _ _ _ _ _ Hl Hc Hb) as Hcm.
  rewrite <-(rs_clock _ _ Hr). split_and!; [by destruct Hcm| |].
  - destruct Hcount as (message & Hm & ->).
    pose proof (idle_step _ _ _ Hst (fo_step _ _ _ Hf)) as Hidle.
    pose proof (delta_is_trace inc graphemes encode probe l _ (idle live) Hl Hcm Hidle) as Hdelta.
    change (session_state_vector (idle live)) with (session_state_vector live) in Hdelta.
    rewrite Hdelta in Hm. injection Hm as <-. simpl. by rewrite length_fmap.
  - intros Hdec Hroom Hval.
    destruct (trace_pull inc graphemes encode decode probe l _ r limits n Hl Hc Hst
      (restored_twin _ _ _ _ Hr Hix Hf) Hb Hdec Hroom Hval) as (Hm & r' & Hr' & _ & _ & Ht).
    split; [done|]. exists r'. split; [done|]. destruct (tw_content _ _ _ Ht) as (H1 & H2 & _). done.
Qed.
End prepare.

(** ** Summaries *)

Section summaries.
Context (encode : Envelope → string + list Byte.byte) (decode : list Byte.byte → string + Envelope).
Context (json_list_style : ListStyle → list Byte.byte).
Context (json_fence_style : CodeFenceStyle → list Byte.byte).
Context (snapshot_bytes : SessionSnapshot → SnapshotError + list Byte.byte).
Abbreviation capture_outline := (capture_outline json_list_style json_fence_style).
Abbreviation summarize_session_transition :=
  (summarize_session_transition encode decode json_list_style json_fence_style snapshot_bytes).
Abbreviation explicit_moves := (explicit_moves decode).

(** The blocks that the operations of a transition move explicitly. *)
Definition moves_explicitly (vector : StateVector) (s : CollaborativeDocument) (moved : gset BlockId) : Prop :=
  ∃ message, encode_changes_since vector (s_sync s) = inr message ∧ explicit_moves (msg_ops message) = inr moved.

Lemma summary_parts before vector s summary :
  summarize_session_transition before vector s = inr summary →
  ∃ moved count revision, moves_explicitly vector s moved ∧
    let plain := summarize_outline_change before (capture_outline (s_document s)) count revision in
    summary = if decide (moved = ∅) then plain
              else replace_moved_ids before (capture_outline (s_document s)) moved plain.
Proof.
  unfold Batch.summarize_session_transition. destruct (encode_changes_since _ _) as [|message] eqn:Em; [done|].
  destruct (Batch.explicit_moves _ _) as [|moved] eqn:Ex; [done|]. destruct (revision_for _ _ _) as [|revision]; [done|].
  intros [= <-]. exists moved, (length (msg_ops message)), revision. split; [by exists message|done].
Qed.

Lemma moves_explicitly_det vector s moved moved' :
  moves_explicitly vector s moved → moves_explicitly vector s moved' → moved = moved'.
Proof. intros (m & E & H) (m' & E' & H'). congruence. Qed.

(** C37: The moves that a summary reports.  A summary of a session against an
    earlier document is made from the operations since; in both documents no id
    is used twice and the positions fit in 32 bits.  If an operation moves
    blocks explicitly, exactly the blocks of such moves are reported, however many
    they are.  Otherwise every node whose parent changed is reported, and of the
    children that a parent keeps as few as possible: without the reported ones
    they are in their old order, and every set with that property has at least as
    many members. *)
Theorem moved_siblings_fewest d vector s summary :
  outlined d → outlined (s_document s) →
  summarize_session_transition (capture_outline d) vector s = inr summary →
  let old p := doc_node_id <$> child_nodes d p in
  let new p := doc_node_id <$> child_nodes (s_document s) p in
  let reported : gset BlockId := list_to_set (sum_moved summary) in
  ∃ explicit, moves_explicitly vector s explicit ∧
    (explicit ≠ ∅ → reported = explicit) ∧
    (explicit = ∅ →
      (∀ p q id, p ≠ q → id ∈ old p → id ∈ new q → id ∈ reported) ∧
      ∀ p, same_order_without reported (old p) (new p) ∧
        ∀ M, same_order_without M (old p) (new p) → size (filter (λ id, id ∈ old p ∧ id ∈ new p) reported) ≤ size M).
Proof.
  intros Hd Hd' Hsum old new reported. destruct (summary_parts _ _ _ _ Hsum) as (moved & count & revision & Hm & Es).
  exists moved. split; [done|]. split; intros Hne.
  - unfold reported. rewrite Es, decide_False by done. simpl. apply set_eq. intros id.
    unfold btree_set_iter. rewrite elem_of_list_to_set, merge_sort_Permutation. apply elem_of_elements.
  - assert (reported = reported_moves json_list_style json_fence_style d (s_document s)) as ->.
    { unfold reported. by rewrite Es, decide_True. }
    split; [intros p q id; by apply reported_reparented|]. intros p. by apply reported_fewest.
Qed.

(** C38: When a summary reports nothing.  A summary of a session against an
    earlier document is made from the operations since; in both documents no id
    is used twice and the positions fit in 32 bits.  It reports no created,
    deleted, moved or updated node exactly if no operation moves blocks
    explicitly, not even to where they are, and under every parent the two
    documents have the same children in the same order, at any depth, each with
    the same kind, heading level, size of its text and of its source, counts of
    children and descendants, and digest of its content. *)
Theorem empty_summary_iff_unchanged d vector s summary :
  outlined d → outlined (s_document s) →
  summarize_session_transition (capture_outline d) vector s = inr summary →
  reports_nothing summary ↔
  moves_explicitly vector s ∅ ∧
  ∀ parent, Forall2 (nodes_match json_list_style json_fence_style d (s_document s))
    (child_nodes d parent) (child_nodes (s_document s) parent).
Proof.
  intros Hd Hd' Hsum. destruct (summary_parts _ _ _ _ Hsum) as (moved & count & revision & Hm & Es).
  rewrite <-(agree_documents _ _ d (s_document s) Hd Hd').
  rewrite <-(quiet_summary _ _ count revision) by apply capture_outline_ok.
  destruct (decide (moved = ∅)) as [->|Hne]; rewrite Es.
  - tauto.
  - split.
    + intros (_ & _ & H & _). simpl in H. by apply btree_set_iter_nil in H.
    + intros [H _]. by destruct Hne, (moves_explicitly_det _ _ _ _ Hm H).
Qed.
End summaries.

(** ** A batch of one block *)

Definition example_revision : RevisionToken := replicate 16 Byte.x00.
Definition example_batch : EditBatch :=
  mkBatch 7 example_revision [mkMutation (WInsertBlock None None (DraftRawBlock "x")) []].
Definition prepare_example : CollaborativeDocument * (BatchError + PreparedBatch) :=
  prepare_edit_batch true byte_graphemes one_byte raw_decode (λ _, []) (λ _, []) (λ _, inr [])
    (λ _, Some []) 7 example_revision example_batch (session_new 1).
Definition example_prepared : PreparedBatch :=
  match prepare_example.2 with
  | inr prep => prep
  | inl _ => mkPrepared (session_new 1) (mkReceipt 0 [] [] (mkSummary [] [] [] [] [] [] 0 [])) []
  end.

Lemma example_prepares : prepare_example = (session_new 1, inr example_prepared).
Proof. by vm_compute. Qed.

Lemma no_block_new (b : Block) : ¬ value_in b (doc_blocks doc_new).
Proof. intros [(e & He & _)|(a & i & ro & Hp)]; [by apply elem_of_nil in He|by vm_compute in Hp; apply elem_of_nil in Hp]. Defined.

Lemma saveable_new : saveable byte_graphemes one_byte raw_decode (session_new 1).
Proof.
  split.
  - split; [apply settled_new|]. intros b Hb. by destruct (no_block_new b).
  - intros id op span. simpl. by rewrite lookup_empty.
  - intros id env p. simpl. by rewrite lookup_empty.
Defined.
Lemma follows_new : follows 0 (session_new 1) (session_new 2).
Proof. by split; [apply in_step_new|..]. Defined.

Lemma batch_reaches_peers_witness :
  saveable byte_graphemes one_byte raw_decode (session_new 1) ∧ clock_ok (session_new 1) ∧
  follows 0 (session_new 1) (session_new 2) ∧ prepare_example = (session_new 1, inr example_prepared) ∧
  ∃ probe l, restored (session_new 1) probe ∧
    local_trace true byte_graphemes one_byte probe l (prep_session example_prepared).
Proof.
  split_and!; [apply saveable_new|apply clock_ok_new|apply follows_new|apply example_prepares|].
  destruct (batch_reaches_peers true byte_graphemes one_byte raw_decode (λ _, []) (λ _, []) (λ _, inr [])
    (λ _, Some []) 7 example_revision example_batch (session_new 1) (session_new 1) example_prepared
    (session_new 2) default_limits 0 saveable_new (clock_ok_new 1 true) follows_new example_prepares)
    as (_ & _ & probe & l & Hr & Hl & _).
  by exists probe, l.
Defined.

(** ** Summaries of edits in a nested list *)

(** A quote with a list of three items, and a block behind it. *)
Definition three_items : list ListItemDraft :=
  [mkItemDraft None [DraftParagraph "a"]; mkItemDraft None [DraftParagraph "b"]; mkItemDraft None [DraftParagraph "c"]].
Definition nested_session : CollaborativeDocument :=
  session_run true byte_graphemes one_byte
    [LInsertDraft None None (DraftBlockQuote [DraftList default_list_style three_items]) default_edit_limits;
     LInsertBlock None (Some (mkOpId 1 1)) (RawBlock "x")] (session_new 1).
Definition op_id_of (n : N) : BlockId := block_id_from_op (mkOpId n 1).

(** Only explicit moves of blocks have a code of their own. *)
Definition move_encode (env : Envelope) : string + list Byte.byte :=
  inr match env_body env with Doc (MoveBlocks _ _ _) => [Byte.x02] | _ => [Byte.x01] end.
Definition move_decode (b : list Byte.byte) : string + Envelope :=
  inr (if decide (b = [Byte.x02])
       then wire (MoveBlocks None (mkOpId 13 1) (chain_moves (mkOpId 13 1) 0 None None [(op_id_of 12, mkOpId 12 1)]))
       else raw_envelope).
Definition edit_nested (ops : list LocalOp) : CollaborativeDocument :=
  session_run true byte_graphemes move_encode ops nested_session.
Definition nested_summary (s : CollaborativeDocument) : BatchError + ChangeSummary :=
  summarize_session_transition move_encode move_decode (λ _, []) (λ _, []) (λ _, inr [])
    (capture_outline (λ _, []) (λ _, []) (s_document nested_session)) (session_state_vector nested_session) s.

(** The last item becomes the first. *)
Definition item_moved : CollaborativeDocument := edit_nested [LMoveListItem (op_id_of 9) (op_id_of 2) None].
(** The last item becomes the first, and the block behind the quote comes before it. *)
Definition both_moved : CollaborativeDocument :=
  edit_nested [LMoveBlocks [op_id_of 12] None None; LMoveListItem (op_id_of 9) (op_id_of 2) None].
(** A paragraph inside an item gets another letter. *)
Definition item_edited : CollaborativeDocument := edit_nested [LInsertText (op_id_of 7) 1 "!"].

Lemma outlined_if d :
  bool_decide (NoDup (place_id <$> places d) ∧ Forall (λ x : Place, (N.of_nat x.1.2 ≤ 4294967295)%N) (places d)) = true →
  outlined d.
Proof. intros [H1 H2]%bool_decide_eq_true. by split. Defined.

Lemma moved_siblings_fewest_witness :
  ∃ summary, nested_summary item_moved = inr summary ∧ sum_moved summary = [op_id_of 9] ∧
    let old := doc_node_id <$> child_nodes (s_document nested_session) (Some (op_id_of 2)) in
    let new := doc_node_id <$> child_nodes (s_document item_moved) (Some (op_id_of 2)) in
    old = [op_id_of 3; op_id_of 6; op_id_of 9] ∧ new = [op_id_of 9; op_id_of 3; op_id_of 6] ∧
    same_order_without {[op_id_of 9]} old new ∧ ∀ M, same_order_without M old new → 1 ≤ size M.
Proof.
  destruct (nested_summary item_moved) as [e|summary] eqn:E; [exfalso; revert E; by vm_compute|]. exists summary. split; [done|].
  assert (Hmoved : sum_moved summary = [op_id_of 9]).
  { assert (H : sum_moved <$> (match nested_summary item_moved with inr x => Some x | inl _ => None end) = Some [op_id_of 9])
      by (by vm_compute). rewrite E in H. by injection H. }
  split; [done|]. destruct (moved_siblings_fewest move_encode move_decode (λ _, []) (λ _, []) (λ _, inr [])
    (s_document nested_session) (session_state_vector nested_session) item_moved summary)
    as (explicit & (message & Hm & Hx) & _ & Hplain); [by apply outlined_if; vm_compute..|exact E|].
  assert (Hnone : explicit = ∅).
  { assert (H : match encode_changes_since (session_state_vector nested_session) (s_sync item_moved) with
      | inr message => explicit_moves move_decode (msg_ops message) = inr ∅ | inl _ => False end) by (by vm_compute).
    rewrite Hm, Hx in H. by injection H. }
  destruct (Hplain Hnone) as [_ H]. destruct (H (Some (op_id_of 2))) as [Hsame Hfew]. rewrite Hmoved in Hsame, Hfew.
  split; [by vm_compute|]. split; [by vm_compute|]. split.
  - rewrite list_to_set_singleton_L in Hsame. exact Hsame.
  - intros M HM. specialize (Hfew M HM). etrans; [|exact Hfew]. by apply (bool_decide_unpack _); vm_compute.
Defined.

Lemma empty_summary_iff_unchanged_witness :
  (∃ summary, nested_summary nested_session = inr summary ∧ reports_nothing summary) ∧
  ∃ summary, nested_summary item_edited = inr summary ∧ sum_updated summary = [op_id_of 7] ∧
    ¬ ∀ parent, Forall2 (nodes_match (λ _, []) (λ _, []) (s_document nested_session) (s_document item_edited))
      (child_nodes (s_document nested_session) parent) (child_nodes (s_document item_edited) parent).
Proof.
  split.
  - destruct (nested_summary nested_session) as [e|summary] eqn:E; [exfalso; revert E; by vm_compute|]. exists summary. split; [done|].
    apply (empty_summary_iff_unchanged move_encode move_decode (λ _, []) (λ _, []) (λ _, inr [])
      (s_document nested_session) (session_state_vector nested_session) nested_session summary);
      [by apply outlined_if; vm_compute..|exact E|]. split.
    + exists (mkChanges (session_state_vector nested_session) []). split; [by vm_compute|done].
    + intros parent. apply nodes_match_all.
  - destruct (nested_summary item_edited) as [e|summary] eqn:E; [exfalso; revert E; by vm_compute|]. exists summary. split; [done|].
    assert (Hupdated : sum_updated summary = [op_id_of 7]).
    { assert (H : sum_updated <$> (match nested_summary item_edited with inr x => Some x | inl _ => None end) = Some [op_id_of 7])
        by (by vm_compute). rewrite E in H. by injection H. }
    split; [done|]. intros Hall.
    destruct (empty_summary_iff_unchanged move_encode move_decode (λ _, []) (λ _, []) (λ _, inr [])
      (s_document nested_session) (session_state_vector nested_session) item_edited summary) as [_ H];
      [by apply outlined_if; vm_compute..|exact E|].
    destruct H as (_ & _ & _ & H); [|by rewrite Hupdated in H]. split; [|exact Hall].
    eexists. split; [vm_compute; reflexivity|by vm_compute].
Defined.

(** Where a transition moves a block explicitly, its summary says nothing of a
    list item that moves too: one item is reported without the block, none with
    it. *)
Theorem mixed_moves_lost :
  (λ s, match nested_summary s with inr summary => sum_moved summary | inl _ => [] end) <$> [item_moved; both_moved] =
    [[op_id_of 9]; [op_id_of 12]] ∧
  (λ s, doc_node_id <$> child_nodes (s_document s) (Some (op_id_of 2))) <$> [nested_session; item_moved; both_moved] =
    [[op_id_of 3; op_id_of 6; op_id_of 9]; [op_id_of 9; op_id_of 3; op_id_of 6]; [op_id_of 9; op_id_of 3; op_id_of 6]].
Proof. by vm_compute. Qed.

(** An edit without preconditions, made for another revision. *)
Lemma batch_validation_exact_witness :
  coherent doc_new ∧
  verdict (λ _, []) (λ _, []) example_batch [] doc_new 0 (batch_operations example_batch)
    (Some (BatchStaleRevision example_revision [])).
Proof.
  assert (coherent doc_new) as Hc by done. split; [exact Hc|].
  exact (proj2 (batch_validation_exact (λ _, []) (λ _, []) example_batch [] doc_new Hc)).
Defined.
