(* ===== verification/Journal.v ===== *)
(** * Durable transactions of a vault

    Models the file names, the journal and the recovery of
    [src/src/filesync/session.rs]: what a multi-file export, a rename and a
    delete do on disk, in which order, and what the recovery at the next start
    does with an interrupted one.

    A program performs actions on the files of the vault, so that a crash can be
    placed between any two of them or inside one.  A rename is atomic; a file
    that is being written may hold anything.  A path is the list of its normal
    components below the root of the vault; plain directories are not
    represented, except that of the transactions, whose existence the recovery
    asks for.  [serde_json], [Uuid::parse_str] and the text of an identity are
    parameters; fresh uuids are arguments. *)

From S2P Require Import Prelude Core Table SessionWire Session Snapshot Storage Cursor Target Projection.
From Stdlib Require Import Strings.Byte Strings.Ascii.

(** ** Paths *)

Abbreviation Place := (list string) (only parsing).

Definition dot : ascii := Ascii.ascii_of_N 46.

(** [s.rsplit_once('.')]. *)
Fixpoint rsplit_dot (s : string) : option (string * string) :=
  match s with
  | EmptyString => None
  | String c rest =>
    match rsplit_dot rest with
    | Some (before, after) => Some (String c before, after)
    | None => if decide (c = dot) then Some (EmptyString, rest) else None
    end
  end.

(** [Path::file_stem] and [Path::extension] of a file name. *)
Definition split_extension (name : string) : string * option string :=
  match rsplit_dot name with
  | Some (EmptyString, _) | None => (name, None)
  | Some (stem, extension) => (stem, Some extension)
  end.

Definition file_name (p : Place) : option string := last p.
Definition parent (p : Place) : Place := removelast p.

Definition with_dot (stem extension : string) : string :=
  if decide (extension = EmptyString) then stem
  else String.append stem (String dot extension).
(** [PathBuf::set_extension]. *)
Definition set_extension (extension : string) (p : Place) : Place :=
  match file_name p with
  | None => p
  | Some name => parent p ++ [with_dot (split_extension name).1 extension]
  end.

Definition transaction_root : Place := [".mdcrdt"; "transactions"]%string.
Definition session_storage_path (rel : Place) : Place :=
  set_extension "mdcrdt" ([".mdcrdt"; "sessions"]%string ++ rel).
Definition state_path_for (rel : Place) : Place :=
  set_extension "mdcrdt" ([".mdcrdt"; "state"]%string ++ rel).
Definition document_id_path (rel : Place) : Place :=
  set_extension (match file_name rel ≫= λ name, (split_extension name).2 with
                 | None => "id"
                 | Some extension => String.append extension ".id"
                 end) ([".mdcrdt"; "document_ids"]%string ++ rel).

(** ** The files of a vault *)

(** A regular file, or the directory of a [Storage]. *)
Inductive Node := File (content : list Byte.byte) | Store (contents : Disk).
Record Fs := mkFs { fs_nodes : gmap Place Node; fs_transactions : bool }.

Definition path_exists (p : Place) (fs : Fs) : bool := bool_decide (is_Some (fs_nodes fs !! p)).
(** [fs::read]; [None] when there is no such file. *)
Definition fs_read (p : Place) (fs : Fs) : option (list Byte.byte) :=
  match fs_nodes fs !! p with Some (File b) => Some b | _ => None end.

Inductive FsAction :=
  | FsMkTransactions
  | FsWrite (p : Place) (content : list Byte.byte)
  | FsRename (from to : Place)
  | FsLink (from to : Place)
  | FsRemove (p : Place)
  | FsStore (p : Place) (a : Action).

Definition alter_nodes (f : gmap Place Node → gmap Place Node) (fs : Fs) : Fs :=
  mkFs (f (fs_nodes fs)) (fs_transactions fs).
(** The directory of a storage; [Storage::open] creates a missing one. *)
Definition store_at (p : Place) (fs : Fs) : Disk :=
  match fs_nodes fs !! p with Some (Store d) => d | _ => empty_disk end.

Definition fs_exec (a : FsAction) (fs : Fs) : Fs :=
  match a with
  | FsMkTransactions => mkFs (fs_nodes fs) true
  | FsWrite p b => alter_nodes <[p := File b]> fs
  | FsRename from to =>
    match fs_nodes fs !! from with
    | Some node => alter_nodes (λ m, <[to := node]> (delete from m)) fs
    | None => fs
    end
  | FsLink from to =>
    match fs_nodes fs !! from with
    | Some node => alter_nodes <[to := node]> fs
    | None => fs
    end
  | FsRemove p => alter_nodes (delete p) fs
  | FsStore p a => alter_nodes <[p := Store (exec a (store_at p fs))]> fs
  end.
Definition fs_exec_all (l : list FsAction) (fs : Fs) : Fs := fold_left (λ fs a, fs_exec a fs) l fs.

(** What a crash during an action can leave behind, and the states a crash can
    leave behind a program.  The removal of a directory is one action, although
    [remove_dir_all] removes its entries one by one: a crash inside the removal of
    a storage could leave a part of it, which no document file depends on. *)
Inductive fs_torn : FsAction → Fs → Fs → Prop :=
  | fs_torn_none a fs : fs_torn a fs fs
  | fs_torn_write p b junk fs : fs_torn (FsWrite p b) fs (alter_nodes <[p := File junk]> fs)
  | fs_torn_store p a d fs :
      torn a (store_at p fs) d → fs_torn (FsStore p a) fs (alter_nodes <[p := Store d]> fs).
Inductive fs_crash : list FsAction → Fs → Fs → Prop :=
  | fs_crash_here l fs : fs_crash l fs fs
  | fs_crash_inside a l fs fs' : fs_torn a fs fs' → fs_crash (a :: l) fs fs'
  | fs_crash_later a l fs fs' : fs_crash l (fs_exec a fs) fs' → fs_crash (a :: l) fs fs'.

(** ** Errors and programs *)

Inductive VaultError :=
  | PathDoesNotExist (p : Place)
  | PathAlreadyExists (p : Place)
  | Io
  | VaultStorage (e : StorageError)
  | Serialization
  | InvalidPeerId (value : list Byte.byte)
  | InvalidIdentity (p : Place) (value : list Byte.byte)
  | InvalidRelativePath
  | SessionNotOpen (p : Place)
  | VaultSnapshot (e : SnapshotError)
  | VaultSnapshotStorage (e : StorageError)
  | VaultSessionError (e : SessionError)
  | VaultCodec (message : string)
  | VaultDescriptor (e : DescriptorError)
  | DocumentIdMismatch (expected actual : DocumentId)
  | PreviewMismatch
  | DuplicateDocumentBatch (p : Place)
  | RecoverableTransaction (journal : Place) (cause : VaultError)
  | VaultRebaseRequired
  | VaultStaleRevision (expected actual : RevisionToken)
  | VaultTarget (e : WorkspaceTargetError)
  | VaultProjection (e : ProjectionError)
  | UnsupportedIngest (what : string)
  | Panicked
  | VaultTargetPrecondition (operation_index : nat) (source : WorkspaceTargetError)
  | StaleDisk (expected actual : option N).

(** A program reads the files, performs actions and may fail. *)
Definition FP (A : Type) : Type := Fs → list FsAction * (VaultError + A).
#[export] Instance FP_ret : MRet FP := λ A x fs, ([], inr x).
#[export] Instance FP_bind : MBind FP := λ A B f m fs,
  match m fs with
  | (l, inl e) => (l, inl e)
  | (l, inr x) => let '(l', r) := f x (fs_exec_all l fs) in (l ++ l', r)
  end.
Definition act (a : FsAction) : FP unit := λ fs, ([a], inr tt).
Definition inspect {A} (f : Fs → A) : FP A := λ fs, ([], inr (f fs)).
Definition refuse {A} (e : VaultError) : FP A := λ fs, ([], inl e).
Definition fp_when (b : bool) (m : FP unit) : FP unit := if b then m else mret tt.
(** [for x in l { f(x)?; }]. *)
Fixpoint fp_each {A} (f : A → FP unit) (l : list A) : FP unit :=
  match l with
  | [] => mret tt
  | x :: l => _ ← f x; fp_each f l
  end.
Fixpoint fp_map {A B} (f : A → FP B) (l : list A) : FP (list B) :=
  match l with
  | [] => mret []
  | x :: l => y ← f x; ys ← fp_map f l; mret (y :: ys)
  end.
(** What a program leaves behind, and its result. *)
Definition fp_run {A} (m : FP A) (fs : Fs) : Fs * (VaultError + A) :=
  let '(l, r) := m fs in (fs_exec_all l fs, r).

(** ** Single files *)

(** [write_synced_file]: the file must not exist. *)
Definition write_synced_file (p : Place) (content : list Byte.byte) : FP unit :=
  found ← inspect (path_exists p);
  if found : bool then refuse Io else act (FsWrite p content).

Definition remove_artifact (p : Place) : FP unit :=
  found ← inspect (path_exists p); fp_when found (act (FsRemove p)).

Definition move_artifact (from to : Place) : FP unit :=
  source ← inspect (path_exists from);
  if negb source then mret tt
  else
    target ← inspect (path_exists to);
    if target : bool then remove_artifact from else act (FsRename from to).

Section journal.
(** [Display] and [FromStr] of an identity, with the white space around it;
    [Display] and [Uuid::parse_str] of the uuids in file names. *)
Context (id_text : N → list Byte.byte) (parse_id : list Byte.byte → option N).
Context (uuid_text : Uuid → string) (is_uuid : string → bool).

Definition parse_identity (p : Place) : FP N :=
  content ← inspect (fs_read p);
  match content with
  | None => refuse Io
  | Some value => match parse_id value with
                  | Some id => mret id
                  | None => refuse (InvalidIdentity p value)
                  end
  end.

(** [load_or_create_identity], without a concurrent writer: the identity is
    written under a temporary name and linked to its place. *)
Definition load_or_create_identity (p : Place) (fresh temp : Uuid) : FP N :=
  found ← inspect (path_exists p);
  if found : bool then parse_identity p
  else
    let temporary := parent p ++ [String.append "." (String.append (default "identity"%string (file_name p))
      (String.append "." (String.append (uuid_text temp) ".tmp")))] in
    _ ← write_synced_file temporary (id_text fresh);
    _ ← act (FsLink temporary p);
    _ ← act (FsRemove temporary);
    mret fresh.

Definition persist_identity (p : Place) (id : DocumentId) : FP unit :=
  found ← inspect (path_exists p);
  if found : bool then
    actual ← parse_identity p;
    if decide (actual = id) then mret tt else refuse (DocumentIdMismatch id actual)
  else write_synced_file p (id_text id).

(** ** The journal *)

Record ExportJournalEntry := mkExportEntry { je_target : Place; je_pending : Place; je_backup : Place }.
Inductive DurableJournal :=
  | JournalExport (entries : list ExportJournalEntry)
  | JournalRename (from to : Place) (document_id : DocumentId)
  | JournalDelete (path : Place) (document_id : DocumentId).

(** [serde_json] on journals. *)
Context (journal_to_vec : DurableJournal → option (list Byte.byte)).
Context (journal_from_slice : list Byte.byte → option DurableJournal).

Definition write_journal (journal : DurableJournal) (id : Uuid) : FP Place :=
  _ ← act FsMkTransactions;
  let path := transaction_root ++ [String.append (uuid_text id) ".json"] in
  let pending := transaction_root ++ [String.append "." (String.append (uuid_text id) ".pending")] in
  match journal_to_vec journal with
  | None => refuse Serialization
  | Some b =>
    _ ← write_synced_file pending b;
    _ ← act (FsRename pending path);
    mret path
  end.

Definition remove_journal (p : Place) : FP unit := remove_artifact p.

Definition export_journal_entry (target : Place) (transaction_id : Uuid) : FP ExportJournalEntry :=
  match file_name target with
  | None => refuse InvalidRelativePath
  | Some name =>
    let temporary kind := parent target ++
      [String.append "." (String.append name (String.append "." (String.append (uuid_text transaction_id) kind)))] in
    mret (mkExportEntry target (temporary ".pending") (temporary ".backup"))
  end.

Definition install_export_entry (entry : ExportJournalEntry) : FP unit :=
  pending ← inspect (path_exists (je_pending entry));
  target ← inspect (path_exists (je_target entry));
  if pending : bool then
    backup ← inspect (path_exists (je_backup entry));
    _ ← (if target && negb backup then act (FsRename (je_target entry) (je_backup entry))
         else if target : bool then act (FsRemove (je_target entry))
         else mret tt);
    act (FsRename (je_pending entry) (je_target entry))
  else if negb target then refuse (PathDoesNotExist (je_target entry)) else mret tt.
Definition install_export_entries (entries : list ExportJournalEntry) : FP unit :=
  fp_each install_export_entry entries.

Definition cleanup_export_entries (entries : list ExportJournalEntry) (journal_path : Place) : FP unit :=
  _ ← fp_each (λ entry, remove_artifact (je_backup entry)) entries;
  remove_journal journal_path.
(** The errors of the removals are ignored. *)
Definition cleanup_pending_entries (entries : list ExportJournalEntry) : FP unit :=
  fp_each (λ entry, remove_artifact (je_pending entry)) entries.

(** ** Rename and delete *)

Definition complete_rename (from to : Place) (document_id : DocumentId) : FP unit :=
  source ← inspect (path_exists from);
  destination ← inspect (path_exists to);
  if source && destination then refuse (PathAlreadyExists to)
  else
    _ ← persist_identity (document_id_path to) document_id;
    _ ← move_artifact (session_storage_path from) (session_storage_path to);
    _ ← move_artifact (state_path_for from) (state_path_for to);
    source ← inspect (path_exists from);
    destination ← inspect (path_exists to);
    _ ← (if source : bool then act (FsRename from to)
         else if negb destination then refuse (PathDoesNotExist from) else mret tt);
    remove_artifact (document_id_path from).

Definition complete_delete (path : Place) : FP unit :=
  _ ← remove_artifact path;
  _ ← remove_artifact (document_id_path path);
  _ ← remove_artifact (session_storage_path path);
  remove_artifact (state_path_for path).

(** [Err(recoverable_error(journal, error))] when a program fails. *)
Definition recoverable {A} (journal : Place) (m : FP A) : FP A := λ fs,
  match m fs with
  | (l, inl e) => (l, inl (RecoverableTransaction journal e))
  | x => x
  end.
(** What a rename and a delete do on disk, after their checks. *)
Definition rename_files (from to : Place) (document_id : DocumentId) (journal_id : Uuid) : FP unit :=
  journal ← write_journal (JournalRename from to document_id) journal_id;
  _ ← recoverable journal (complete_rename from to document_id);
  recoverable journal (remove_journal journal).
Definition delete_files (path : Place) (document_id : DocumentId) (journal_id : Uuid) : FP unit :=
  journal ← write_journal (JournalDelete path document_id) journal_id;
  _ ← recoverable journal (complete_delete path);
  recoverable journal (remove_journal journal).

(** ** Recovery *)

Fixpoint strip_suffix (suffix s : string) : option string :=
  if decide (s = suffix) then Some EmptyString
  else match s with
       | EmptyString => None
       | String c rest => String c <$> strip_suffix suffix rest
       end.
Definition starts_with_dot (s : string) : bool :=
  match s with String c _ => bool_decide (c = dot) | EmptyString => false end.

Definition is_orphan_transaction_temp (name : string) : bool :=
  starts_with_dot name &&
  match union (strip_suffix ".pending" name) (strip_suffix ".backup" name) ≫= rsplit_dot with
  | Some (_, candidate) => is_uuid candidate
  | None => false
  end.

Record RecoveryReport := mkRecovery { transactions_recovered : nat; files_recovered : nat }.

(** The journal files, sorted; they differ in their names only. *)
Definition journal_name (p : Place) : option string :=
  if decide (parent p = transaction_root) then
    name ← file_name p;
    if decide ((split_extension name).2 = Some "json"%string) then Some name else None
  else None.
Definition journal_paths (fs : Fs) : list Place :=
  (λ name, transaction_root ++ [name]) <$>
    merge_sort ord_le (omap journal_name (map_to_list (fs_nodes fs)).*1).

Definition recover_one (report : RecoveryReport) (p : Place) : FP RecoveryReport :=
  content ← inspect (fs_read p);
  match content with
  | None => refuse Io
  | Some b =>
    match journal_from_slice b with
    | None => refuse Serialization
    | Some (JournalExport entries) =>
      _ ← install_export_entries entries;
      _ ← fp_each (λ entry, remove_artifact (state_path_for (je_target entry))) entries;
      _ ← cleanup_export_entries entries p;
      mret (mkRecovery (S (transactions_recovered report)) (files_recovered report + length entries))
    | Some (JournalRename from to document_id) =>
      _ ← complete_rename from to document_id;
      _ ← remove_journal p;
      mret (mkRecovery (S (transactions_recovered report)) (S (files_recovered report)))
    | Some (JournalDelete path _) =>
      _ ← complete_delete path;
      _ ← remove_journal p;
      mret (mkRecovery (S (transactions_recovered report)) (S (files_recovered report)))
    end
  end.
Fixpoint recover_each (report : RecoveryReport) (l : list Place) : FP RecoveryReport :=
  match l with
  | [] => mret report
  | p :: l => report ← recover_one report p; recover_each report l
  end.

(** The files that the walk over the vault removes. *)
Definition is_orphan (node : Place * Node) : bool :=
  match node.2, file_name node.1 with
  | File _, Some name => is_orphan_transaction_temp name
  | _, _ => false
  end.
Definition orphans (fs : Fs) : list Place :=
  (filter (λ node, Is_true (is_orphan node)) (map_to_list (fs_nodes fs))).*1.

Definition recover_pending_transactions : FP RecoveryReport :=
  root ← inspect fs_transactions;
  if negb root then mret (mkRecovery 0 0)
  else
    journals ← inspect journal_paths;
    report ← recover_each (mkRecovery 0 0) journals;
    litter ← inspect orphans;
    _ ← fp_each (λ p, act (FsRemove p)) litter;
    mret report.

(** ** The files of an export *)

(** The text of one document to publish. *)
Record PendingExport := mkPendingExport { px_rel : Place; px_markdown : list Byte.byte }.
#[export] Instance PendingExport_eq_dec : EqDecision PendingExport.
Proof. solve_decision. Defined.

(** The loop that writes the pending files; the entries come last first. *)
Fixpoint write_pending (transaction_id : Uuid) (entries : list ExportJournalEntry)
    (exports : list PendingExport) : FP (list ExportJournalEntry) :=
  match exports with
  | [] => mret entries
  | export :: exports =>
    entry ← export_journal_entry (px_rel export) transaction_id;
    _ ← (λ fs, match write_synced_file (je_pending entry) (px_markdown export) fs with
         | (l, inr x) => (l, inr x)
         | (l, inl e) =>
           (_ ← remove_artifact (je_pending entry);
            _ ← cleanup_pending_entries entries;
            refuse e : FP unit) fs
         end) : FP unit;
    write_pending transaction_id (entries ++ [entry]) exports
  end.

(** The parts of [export_markdown_transaction] between its checks and its answer,
    for the documents whose text changed: pending files, journal, installation;
    then [finalize], then the cleanup.  An open transaction is its journal and
    its entries; without entries there is none. *)
Definition OpenExport : Type := option (Place * list ExportJournalEntry).

Definition publish_begin (transaction_id journal_id : Uuid) (changed : list PendingExport) : FP OpenExport :=
  _ ← act FsMkTransactions;
  entries ← write_pending transaction_id [] changed;
  match entries with
  | [] => mret None
  | _ =>
    journal ← (λ fs, match write_journal (JournalExport entries) journal_id fs with
               | (l, inr path) => (l, inr path)
               | (l, inl e) =>
                 let '(l', r) := (_ ← cleanup_pending_entries entries; refuse e : FP Place) (fs_exec_all l fs) in
                 (l ++ l', r)
               end) : FP Place;
    _ ← recoverable journal (install_export_entries entries);
    mret (Some (journal, entries))
  end.
Definition recoverable_if {A} (transaction : OpenExport) (m : FP A) : FP A :=
  match transaction with Some (journal, _) => recoverable journal m | None => m end.
Definition publish_end (transaction : OpenExport) : FP unit :=
  match transaction with
  | Some (journal, entries) => recoverable journal (cleanup_export_entries entries journal)
  | None => mret tt
  end.

Definition publish {A} (transaction_id journal_id : Uuid) (changed : list PendingExport) (finalize : FP A) :
    FP A :=
  transaction ← publish_begin transaction_id journal_id changed;
  outcomes ← recoverable_if transaction finalize;
  _ ← publish_end transaction;
  mret outcomes.
End journal.
