(* ===== verification/JournalProps.v ===== *)
(** * Transactions and crashes

    A small logic for programs on the files of a vault: an assertion that holds
    in every state a crash can leave behind, and one that holds at the end.  With
    it: the publication of several documents is all or nothing, whatever the
    point of the crash, once the recovery has run. *)

From S2P Require Import Prelude Core Table Storage StorageProps Journal.
From Stdlib Require Import Strings.Byte Strings.Ascii.

(** ** The logic *)

(** From [fs], every state a crash of [m] can leave satisfies [Q]; if [m]
    succeeds its result and final state satisfy [R], if it fails [E] holds. *)
Definition runs {A} (Q : Fs → Prop) (m : FP A) (fs : Fs) (R : A → Fs → Prop) (E : Fs → Prop) : Prop :=
  (∀ fs', fs_crash (m fs).1 fs fs' → Q fs') ∧
  match (m fs).2 with inr x => R x (fs_exec_all (m fs).1 fs) | inl _ => E (fs_exec_all (m fs).1 fs) end.

Lemma crash_nil fs fs' : fs_crash [] fs fs' → fs' = fs.
Proof. by inversion 1. Qed.
Lemma crash_end l fs : fs_crash l fs (fs_exec_all l fs).
Proof. revert fs. induction l as [|a l IH]; intros fs; simpl; [constructor|]. apply fs_crash_later, IH. Qed.
Lemma crash_app l k fs fs' :
  fs_crash (l ++ k) fs fs' → fs_crash l fs fs' ∨ fs_crash k (fs_exec_all l fs) fs'.
Proof.
  revert fs. induction l as [|a l IH]; intros fs; simpl; [by right|].
  inversion 1; subst; [left; constructor|left; by apply fs_crash_inside|].
  destruct (IH (fs_exec a fs)) as [?|?]; [done|left; by apply fs_crash_later|by right].
Qed.
Lemma exec_app l k fs : fs_exec_all (l ++ k) fs = fs_exec_all k (fs_exec_all l fs).
Proof. unfold fs_exec_all. apply fold_left_app. Qed.

Section logic.
Context (Q : Fs → Prop).

Lemma runs_crash {A} (m : FP A) fs R E fs' : runs Q m fs R E → fs_crash (m fs).1 fs fs' → Q fs'.
Proof. intros [H _]. apply H. Qed.

Lemma runs_ret {A} (x : A) fs (R : A → Fs → Prop) (E : Fs → Prop) : Q fs → R x fs → runs Q (mret x) fs R E.
Proof. intros Hq Hr. split; [|done]. by intros fs' ->%crash_nil. Qed.
Lemma runs_refuse {A} e fs (R : A → Fs → Prop) (E : Fs → Prop) : Q fs → E fs → runs Q (refuse e) fs R E.
Proof. intros Hq He. split; [|done]. by intros fs' ->%crash_nil. Qed.

Lemma runs_bind {A B} (m : FP A) (k : A → FP B) fs R R' (E : Fs → Prop) :
  runs Q m fs R E → (∀ x fs', Q fs' → R x fs' → runs Q (k x) fs' R' E) → runs Q (x ← m; k x) fs R' E.
Proof.
  intros [Hc Hr] Hk. unfold runs, mbind, FP_bind. destruct (m fs) as [l [e|x]]; simpl in *; [by split|].
  destruct (Hk x (fs_exec_all l fs)) as [Hc' Hr']; [apply Hc, crash_end|done|].
  destruct (k x (fs_exec_all l fs)) as [l' r]. simpl in *. split.
  - by intros fs' [?|?]%crash_app; [apply Hc|apply Hc'].
  - by rewrite exec_app.
Qed.

Lemma runs_inspect {A B} (f : Fs → A) (k : A → FP B) fs R E :
  runs Q (k (f fs)) fs R E → runs Q (x ← inspect f; k x) fs R E.
Proof. unfold runs, mbind, FP_bind, inspect. simpl. by destruct (k (f fs) fs). Qed.

Lemma runs_act a fs (R : unit → Fs → Prop) (E : Fs → Prop) :
  Q fs → (∀ fs', fs_torn a fs fs' → Q fs') → Q (fs_exec a fs) → R tt (fs_exec a fs) → runs Q (act a) fs R E.
Proof.
  intros H1 H2 H3 H4. split; [|done]. intros fs'. simpl. inversion 1; subst; [done|by apply H2|].
  by rewrite (crash_nil (fs_exec a fs) fs').
Qed.

(** The file system performs the action as a whole. *)
Definition atomic (a : FsAction) : Prop :=
  match a with FsWrite _ _ | FsStore _ _ => False | _ => True end.
Lemma runs_atomic a fs (R : unit → Fs → Prop) (E : Fs → Prop) :
  atomic a → Q fs → Q (fs_exec a fs) → R tt (fs_exec a fs) → runs Q (act a) fs R E.
Proof. intros Ha H1 H2 H3. apply runs_act; [done| |done..]. intros fs' Ht. by destruct Ht. Qed.

Lemma runs_mono {A} (m : FP A) fs R R' (E E' : Fs → Prop) :
  runs Q m fs R E → (∀ x fs', Q fs' → R x fs' → R' x fs') → (∀ fs', Q fs' → E fs' → E' fs') → runs Q m fs R' E'.
Proof.
  intros [Hc Hr] H H'. split; [done|]. pose proof (Hc _ (crash_end (m fs).1 fs)).
  destruct (m fs) as [l [e|x]]; simpl in *; auto.
Qed.

(** A loop whose invariant is [I], with what is left to do. *)
Lemma runs_each {A} (f : A → FP unit) (I : list A → Fs → Prop) (E : Fs → Prop) l fs :
  I l fs → (∀ l fs, I l fs → Q fs) →
  (∀ x l fs, I (x :: l) fs → runs Q (f x) fs (λ _ fs', I l fs') E) →
  runs Q (fp_each f l) fs (λ _ fs', I [] fs') E.
Proof.
  intros HI Hq Hf. revert fs HI. induction l as [|x l IH]; intros fs HI; simpl.
  - apply runs_ret; [by eapply Hq|done].
  - eapply runs_bind; [by apply Hf|]. intros [] fs' _ H. by apply IH.
Qed.
End logic.

Lemma runs_weaken {A} (Q Q' : Fs → Prop) (m : FP A) fs R E :
  runs Q m fs R E → (∀ fs', Q fs' → Q' fs') → runs Q' m fs R E.
Proof. intros [Hc Hr] H. split; [|done]. intros. by apply H, Hc. Qed.

(** ** Files and names *)

Lemma lookup_write p b fs q :
  fs_nodes (fs_exec (FsWrite p b) fs) !! q = if decide (q = p) then Some (File b) else fs_nodes fs !! q.
Proof. simpl. case_decide as H; [subst; by rewrite lookup_insert_eq|by rewrite lookup_insert_ne]. Qed.
Lemma lookup_remove p fs q :
  fs_nodes (fs_exec (FsRemove p) fs) !! q = if decide (q = p) then None else fs_nodes fs !! q.
Proof. simpl. case_decide as H; [subst; by rewrite lookup_delete_eq|by rewrite lookup_delete_ne]. Qed.
Lemma lookup_rename from to node fs q :
  fs_nodes fs !! from = Some node →
  fs_nodes (fs_exec (FsRename from to) fs) !! q =
    if decide (q = to) then Some node else if decide (q = from) then None else fs_nodes fs !! q.
Proof.
  intros E. simpl. rewrite E. simpl. case_decide as H; [subst; by rewrite lookup_insert_eq|].
  rewrite lookup_insert_ne by done. case_decide as H'; [subst; by rewrite lookup_delete_eq|by rewrite lookup_delete_ne].
Qed.
Lemma exec_transactions a fs :
  fs_transactions (fs_exec a fs) = match a with FsMkTransactions => true | _ => fs_transactions fs end.
Proof. destruct a; try done; simpl; by destruct (fs_nodes fs !! from). Qed.
Lemma exists_true p fs : path_exists p fs = true ↔ is_Some (fs_nodes fs !! p).
Proof. unfold path_exists. apply bool_decide_eq_true. Qed.
Lemma exists_false p fs : path_exists p fs = false ↔ fs_nodes fs !! p = None.
Proof. unfold path_exists. rewrite bool_decide_eq_false. symmetry. apply eq_None_not_Some. Qed.

Lemma parent_app p name : parent (p ++ [name]) = p.
Proof. apply removelast_last. Qed.
Lemma name_app p name : file_name (p ++ [name]) = Some name.
Proof. apply last_snoc. Qed.
Lemma place_split p name : file_name p = Some name → p = parent p ++ [name].
Proof. intros (k & ->)%last_Some. by rewrite parent_app. Qed.

Definition json_name (name : string) : Prop := (split_extension name).2 = Some "json"%string.
Lemma journal_name_spec p name :
  journal_name p = Some name ↔ p = transaction_root ++ [name] ∧ json_name name.
Proof.
  unfold journal_name, json_name. split.
  - case_decide as Hp; [|done]. destruct (file_name p) as [n|] eqn:Hn; [|done]. simpl. case_decide; [|done].
    intros [= <-]. split; [|done]. rewrite (place_split p n Hn). by rewrite Hp.
  - intros [-> Hj]. rewrite parent_app, name_app, decide_True by done.
    simpl. by rewrite decide_True.
Qed.

(** The files of the transaction directory are read by the recovery. *)
Definition has_journals (fs : Fs) (names : list string) : Prop :=
  NoDup names ∧ ∀ p name, journal_name p = Some name → is_Some (fs_nodes fs !! p) ↔ name ∈ names.

Lemma journal_paths_spec fs names :
  StronglySorted ord_le names → has_journals fs names → (∀ n, n ∈ names → json_name n) →
  journal_paths fs = (λ name, transaction_root ++ [name]) <$> names.
Proof.
  intros Hsort [Hnd Hin] Hj. unfold journal_paths. f_equal.
  apply (StronglySorted_unique ord_le); [apply StronglySorted_merge_sort; apply _|done|].
  rewrite merge_sort_Permutation. apply NoDup_Permutation; [|done|].
  - assert (NoDup (map_to_list (fs_nodes fs)).*1) as Hk by apply NoDup_fst_map_to_list.
    induction (map_to_list (fs_nodes fs)).*1 as [|p l IH]; csimpl; [constructor|].
    apply NoDup_cons in Hk as [Hp Hk]. destruct (journal_name p) as [n|] eqn:E; [|by apply IH].
    constructor; [|by apply IH]. intros (q & Hq & Eq)%list_elem_of_omap.
    apply journal_name_spec in E as [-> _], Eq as [-> _]. done.
  - intros n. rewrite list_elem_of_omap. split.
    + intros (p & Hp & E). apply (Hin p n E). apply list_elem_of_fmap in Hp as ([q node] & -> & Hp).
      apply elem_of_map_to_list in Hp. eauto.
    + intros Hn. exists (transaction_root ++ [n]).
      assert (journal_name (transaction_root ++ [n]) = Some n) as E by (apply journal_name_spec; auto).
      split; [|done]. apply (Hin _ n E) in Hn as [node Hn]. apply list_elem_of_fmap. exists (transaction_root ++ [n], node).
      split; [done|]. by apply elem_of_map_to_list.
Qed.

(** ** Installing an export *)

Section export.
Context (uuid_text : Uuid → string) (transaction_id : Uuid).
Context (exports : list PendingExport) (journal_bytes : list Byte.byte).

Definition pending_of (p : Place) : Place :=
  parent p ++ [String.append "." (String.append (default EmptyString (file_name p))
    (String.append "." (String.append (uuid_text transaction_id) ".pending")))].
Definition backup_of (p : Place) : Place :=
  parent p ++ [String.append "." (String.append (default EmptyString (file_name p))
    (String.append "." (String.append (uuid_text transaction_id) ".backup")))].
Definition entry_of (x : PendingExport) : ExportJournalEntry :=
  mkExportEntry (px_rel x) (pending_of (px_rel x)) (backup_of (px_rel x)).

(** The files of the exports do not overlap. *)
Record separate : Prop := {
  sep_same : ∀ x y, x ∈ exports → y ∈ exports →
    px_rel x ≠ pending_of (px_rel y) ∧ px_rel x ≠ backup_of (px_rel y) ∧
    pending_of (px_rel x) ≠ backup_of (px_rel y);
  sep_other : ∀ x y, x ∈ exports → y ∈ exports → x ≠ y →
    px_rel x ≠ px_rel y ∧ pending_of (px_rel x) ≠ pending_of (px_rel y) ∧
    backup_of (px_rel x) ≠ backup_of (px_rel y);
}.

Definition own_file (p : Place) : Prop :=
  ∃ x, x ∈ exports ∧ (p = px_rel x ∨ p = pending_of (px_rel x) ∨ p = backup_of (px_rel x)).

(** The text of an export is in its pending file, or installed. *)
Definition waiting (x : PendingExport) (fs : Fs) : Prop :=
  fs_nodes fs !! pending_of (px_rel x) = Some (File (px_markdown x)).
Definition installed (x : PendingExport) (fs : Fs) : Prop :=
  fs_nodes fs !! pending_of (px_rel x) = None ∧ fs_nodes fs !! px_rel x = Some (File (px_markdown x)).

(** The files other than those of the exports are as in [base]. *)
Definition others (base fs : Fs) : Prop :=
  fs_transactions fs = fs_transactions base ∧
  ∀ p, ¬ own_file p → fs_nodes fs !! p = fs_nodes base !! p.

Definition half (base : Fs) (l : list PendingExport) (fs : Fs) : Prop :=
  l ⊆ exports ∧ others base fs ∧
  ∀ x, x ∈ exports → (x ∈ l ∧ waiting x fs) ∨ installed x fs.

Lemma others_own base p fs fs' :
  others base fs → own_file p → fs_transactions fs' = fs_transactions fs →
  (∀ q, q ≠ p → fs_nodes fs' !! q = fs_nodes fs !! q) → others base fs'.
Proof.
  intros [Ht Ho] Hp Ht' Hq. split; [by rewrite Ht'|]. intros q Hn. rewrite Hq; [by apply Ho|]. by intros ->.
Qed.

(** Any change of target and backup of a waiting export keeps everything. *)
Lemma half_touch base l x fs fs' :
  separate → half base l fs → x ∈ l → waiting x fs →
  fs_transactions fs' = fs_transactions fs →
  (∀ q, q ≠ px_rel x → q ≠ backup_of (px_rel x) → fs_nodes fs' !! q = fs_nodes fs !! q) →
  half base l fs' ∧ waiting x fs'.
Proof.
  intros Hsep (Hl & [Ht Ho] & Hx) Hin Hw Ht' Hq.
  assert (x ∈ exports) as Hxe by by apply Hl.
  assert (∀ y, y ∈ exports → fs_nodes fs' !! pending_of (px_rel y) = fs_nodes fs !! pending_of (px_rel y)) as Hp.
  { intros y Hy. destruct (sep_same Hsep x y Hxe Hy) as (H1 & _ & _).
    destruct (sep_same Hsep y x Hy Hxe) as (_ & _ & H2). apply Hq; [congruence|done]. }
  assert (waiting x fs') as Hw'. { unfold waiting in *. by rewrite Hp. }
  split; [|done]. split_and!; [done| |].
  - split; [by rewrite Ht'|]. intros q Hn. rewrite Hq; [by apply Ho|..]; intros ->; apply Hn; exists x; auto.
  - intros y Hy. destruct (decide (px_rel y = px_rel x)) as [E|E].
    { left. assert (y = x) as ->; [|done]. destruct (decide (y = x)) as [|Hne]; [done|].
      by destruct (sep_other Hsep y x Hy Hxe Hne) as (? & _). }
    destruct (Hx y Hy) as [[Hyl Hyw]|[H1 H2]].
    + left. split; [done|]. unfold waiting in *. by rewrite Hp.
    + right. split; [by rewrite Hp|]. destruct (sep_same Hsep y x Hy Hxe) as (_ & H3 & _). by rewrite Hq.
Qed.

Lemma half_weaken base l k fs : half base l fs → l ⊆ k → k ⊆ exports → half base k fs.
Proof.
  intros (Hl & Ho & Hx) Hlk Hk. split_and!; [done..|]. intros x Hin. destruct (Hx x Hin) as [[??]|?]; auto.
Qed.

(** The pending file takes the place of the target. *)
Lemma half_install base l x fs :
  separate → half base (x :: l) fs → waiting x fs →
  half base l (fs_exec (FsRename (pending_of (px_rel x)) (px_rel x)) fs).
Proof.
  intros Hsep (Hl & Ho & Hx) Hw.
  assert (x ∈ exports) as Hxe by (apply Hl; left).
  pose proof (λ q, lookup_rename (pending_of (px_rel x)) (px_rel x) _ fs q Hw) as Hq.
  assert (l ⊆ exports) as Hle by (intros y Hy; apply Hl; by right).
  assert (fs_transactions (fs_exec (FsRename (pending_of (px_rel x)) (px_rel x)) fs) = fs_transactions fs) as Ht.
  { unfold waiting in Hw. simpl. by rewrite Hw. }
  destruct (sep_same Hsep x x Hxe Hxe) as (Hne & _).
  split_and!; [done| |].
  - destruct Ho as [Ht0 Ho]. split; [by rewrite Ht|]. intros q Hn. rewrite Hq, !decide_False; [by apply Ho|..];
      intros ->; apply Hn; exists x; auto.
  - intros y Hy. destruct (decide (y = x)) as [->|Hyx].
    { right. split; rewrite Hq; [by rewrite decide_False, decide_True by done|by rewrite decide_True]. }
    destruct (sep_other Hsep y x Hy Hxe Hyx) as (D1 & D2 & _).
    destruct (sep_same Hsep y x Hy Hxe) as (D3 & _ & _). destruct (sep_same Hsep x y Hxe Hy) as (D4 & _ & _).
    assert (fs_nodes (fs_exec (FsRename (pending_of (px_rel x)) (px_rel x)) fs) !! pending_of (px_rel y) =
      fs_nodes fs !! pending_of (px_rel y)) as Hp by (by rewrite Hq, !decide_False by congruence).
    destruct (Hx y Hy) as [[[->|Hyl]%elem_of_cons Hyw]|[H1 H2]]; [done|left|right].
    + split; [done|]. unfold waiting in *. by rewrite Hp.
    + split; [by rewrite Hp|]. by rewrite Hq, !decide_False by congruence.
Qed.

Lemma install_entry_runs base l x fs E :
  separate → half base (x :: l) fs →
  runs (half base exports) (install_export_entry (entry_of x)) fs (λ _ fs', half base l fs') E.
Proof.
  intros Hsep Hh. assert (half base exports fs) as Hall by (by eapply half_weaken; [exact Hh|apply Hh|]).
  assert (x ∈ exports) as Hxe by (apply Hh; left).
  unfold install_export_entry. apply runs_inspect, runs_inspect. cbn [entry_of je_pending je_target je_backup].
  destruct (path_exists (pending_of (px_rel x)) fs) eqn:Hp.
  2: { apply exists_false in Hp. destruct Hh as (Hl & Ho & Hx).
    destruct (Hx x Hxe) as [[_ Hw]|[_ Hi]]; [by unfold waiting in Hw; rewrite Hp in Hw|].
    assert (path_exists (px_rel x) fs = true) as -> by (apply exists_true; eauto). simpl.
    apply runs_ret; [done|]. split_and!; [intros y Hy; apply Hl; by right|done|].
    intros y Hy. destruct (Hx y Hy) as [[[->|Hyl]%elem_of_cons Hyw]|?]; [|auto..].
    unfold waiting in Hyw. by rewrite Hp in Hyw. }
  apply runs_inspect. apply exists_true in Hp.
  assert (waiting x fs) as Hw.
  { destruct Hh as (_ & _ & Hx). destruct (Hx x Hxe) as [[_ ?]|[H1 _]]; [done|]. rewrite H1 in Hp. by destruct Hp. }
  apply (runs_bind _ _ _ _ (λ _ fs', half base (x :: l) fs' ∧ waiting x fs')).
  - assert (∀ fs', fs_transactions fs' = fs_transactions fs →
      (∀ q, q ≠ px_rel x → q ≠ backup_of (px_rel x) → fs_nodes fs' !! q = fs_nodes fs !! q) →
      half base exports fs' ∧ half base (x :: l) fs' ∧ waiting x fs') as Htouch.
    { intros fs' Ht Hq. split; [|eapply half_touch; try done; by left].
      by eapply (half_touch base exports x fs fs'). }
    destruct (path_exists (px_rel x) fs) eqn:Htg; simpl; [|by apply runs_ret].
    destruct (path_exists (backup_of (px_rel x)) fs); simpl.
    + assert (half base exports (fs_exec (FsRemove (px_rel x)) fs) ∧ half base (x :: l) (fs_exec (FsRemove (px_rel x)) fs) ∧
        waiting x (fs_exec (FsRemove (px_rel x)) fs)) as (?&?&?).
      { apply Htouch; [done|]. intros q Hq _. by rewrite lookup_remove, decide_False. }
      by apply runs_atomic.
    + apply exists_true in Htg as [node Htg]. set (a := FsRename (px_rel x) (backup_of (px_rel x))).
      assert (half base exports (fs_exec a fs) ∧ half base (x :: l) (fs_exec a fs) ∧ waiting x (fs_exec a fs)) as (?&?&?).
      { apply Htouch; [unfold a; simpl; by rewrite Htg|].
        intros q Hq Hq'. unfold a. by rewrite (lookup_rename _ _ node) by done; rewrite !decide_False. }
      by apply runs_atomic.
  - intros _ fs' Hq [Hh' Hw']. pose proof (half_install _ _ _ _ Hsep Hh' Hw') as Hi.
    apply runs_atomic; [done..| |done]. eapply half_weaken; [exact Hi|apply Hi|done].
Qed.

Lemma install_runs base fs E :
  separate → half base exports fs →
  runs (half base exports) (install_export_entries (entry_of <$> exports)) fs (λ _ fs', half base [] fs') E.
Proof.
  intros Hsep. assert (∀ l fs, half base l fs →
    runs (half base exports) (fp_each install_export_entry (entry_of <$> l)) fs (λ _ fs', half base [] fs') E) as H; [|apply H].
  clear fs. intros l. induction l as [|x l IH]; intros fs Hh; csimpl.
  - apply runs_ret; [|done]. eapply half_weaken; [exact Hh|apply list_subseteq_nil|done].
  - eapply runs_bind; [by apply install_entry_runs|]. intros [] fs' _. apply IH.
Qed.

(** ** The phases of a publication *)

Context (is_uuid : string → bool) (id_text : N → list Byte.byte) (parse_id : list Byte.byte → option N).
Context (journal_to_vec : DurableJournal → option (list Byte.byte)).
Context (journal_from_slice : list Byte.byte → option DurableJournal).
Context (journal_id : Uuid) (before : Fs).

Definition journal_file : string := String.append (uuid_text journal_id) ".json".
Definition journal_temp : Place :=
  transaction_root ++ [String.append "." (String.append (uuid_text journal_id) ".pending")].

(** The names involved are different where they have to be. *)
Record layout : Prop := {
  lay_separate : separate;
  lay_distinct : NoDup exports;
  lay_named : ∀ x, x ∈ exports → is_Some (file_name (px_rel x));
  lay_own : ∀ p, own_file p → journal_name p = None ∧ p ≠ journal_temp;
  lay_state : ∀ x, x ∈ exports →
    ¬ own_file (state_path_for (px_rel x)) ∧ journal_name (state_path_for (px_rel x)) = None;
  lay_journal : json_name journal_file;
  lay_temp : journal_name journal_temp = None;
  lay_kept : ∀ x name, x ∈ exports → file_name (px_rel x) = Some name →
    is_orphan_transaction_temp is_uuid name = false;
  lay_json : journal_to_vec (JournalExport (entry_of <$> exports)) = Some journal_bytes;
  lay_parse : journal_from_slice journal_bytes = Some (JournalExport (entry_of <$> exports));
}.

(** The documents are as they were, or as the export wants them, and no journal
    is open; or the journal of the export is. *)
Definition old_files (fs : Fs) : Prop :=
  has_journals fs [] ∧ ∀ x, x ∈ exports → fs_nodes fs !! px_rel x = fs_nodes before !! px_rel x.
Definition new_files (fs : Fs) : Prop :=
  has_journals fs [] ∧ ∀ x, x ∈ exports → fs_nodes fs !! px_rel x = Some (File (px_markdown x)).
Definition journaled (l : list PendingExport) (fs : Fs) : Prop :=
  fs_transactions fs = true ∧ has_journals fs [journal_file] ∧
  fs_nodes fs !! (transaction_root ++ [journal_file]) = Some (File journal_bytes) ∧ half fs l fs.
Definition good (fs : Fs) : Prop := old_files fs ∨ journaled exports fs ∨ new_files fs.

Context (Hlay : layout).

Lemma has_journals_same fs fs' names :
  (∀ p, journal_name p ≠ None → fs_nodes fs' !! p = fs_nodes fs !! p) → has_journals fs names → has_journals fs' names.
Proof. intros Hs [Hn H]. split; [done|]. intros p name E. rewrite Hs by congruence. by apply H. Qed.

Lemma journal_place name : journal_name (transaction_root ++ [name]) = Some name ↔ json_name name.
Proof. rewrite journal_name_spec. naive_solver. Qed.

Lemma journaled_half fs l k fs' : journaled l fs → half fs k fs' → journaled k fs'.
Proof.
  intros (Ht & Hj & Hb & _) (Hk & [Ht' Ho] & Hx).
  assert (∀ p, journal_name p ≠ None → fs_nodes fs' !! p = fs_nodes fs !! p) as Hs.
  { intros p Hp. apply Ho. intros Hown. by destruct (lay_own Hlay p Hown) as [? _]. }
  split_and!; [by rewrite Ht'|by eapply has_journals_same| |].
  - rewrite Hs; [done|]. rewrite (proj2 (journal_place _)); [done|]. apply (lay_journal Hlay).
  - split_and!; [done| |done]. by split.
Qed.

Lemma journaled_weaken l k fs : journaled l fs → l ⊆ k → k ⊆ exports → journaled k fs.
Proof. intros (?&?&?&?) Hlk Hk. split_and!; [done..|]. by eapply half_weaken. Qed.
Lemma journaled_good l fs : journaled l fs → good fs.
Proof. intros H. right. left. eapply journaled_weaken; [exact H|apply H|done]. Qed.

(** A change of a file that is neither a document nor in the journal. *)
Definition foreign (p : Place) : Prop := ¬ own_file p ∧ journal_name p = None.
Definition changes_only (P : Place → Prop) (fs fs' : Fs) : Prop :=
  fs_transactions fs' = fs_transactions fs ∧ ∀ q, ¬ P q → fs_nodes fs' !! q = fs_nodes fs !! q.

Lemma journaled_foreign l fs fs' : changes_only foreign fs fs' → journaled l fs → journaled l fs'.
Proof.
  intros [Ht Hq] (H1 & H2 & H3 & Hl & _ & Hx).
  assert (∀ p, own_file p → fs_nodes fs' !! p = fs_nodes fs !! p) as Hown by (intros p Hp; apply Hq; by intros [? _]).
  assert (∀ p, journal_name p ≠ None → fs_nodes fs' !! p = fs_nodes fs !! p) as Hj by (intros p Hp; apply Hq; by intros [_ ?]).
  split_and!; [by rewrite Ht|by eapply has_journals_same| |].
  - rewrite Hj; [done|]. rewrite (proj2 (journal_place _)); [done|]. apply (lay_journal Hlay).
  - split_and!; [done|by split|]. intros x Hin. unfold waiting, installed in *.
    rewrite !Hown by (exists x; auto). by apply Hx.
Qed.

Lemma install_good l fs E :
  journaled l fs →
  runs good (install_export_entries (entry_of <$> exports)) fs (λ _ fs', journaled [] fs') E.
Proof.
  intros Hj. pose proof Hj as (_ & _ & _ & Hh).
  eapply runs_mono; [eapply runs_weaken; [apply (install_runs fs fs E (lay_separate Hlay))|]| |].
  - eapply half_weaken; [exact Hh|apply Hh|done].
  - intros fs' H. by eapply journaled_good, journaled_half.
  - intros ? fs' _ H. by eapply journaled_half.
  - done.
Qed.

(** ** Cleaning up *)

Lemma remove_runs (Q : Fs → Prop) p fs (R : unit → Fs → Prop) (E : Fs → Prop) :
  Q fs → (fs_nodes fs !! p = None → R tt fs) →
  (is_Some (fs_nodes fs !! p) → Q (fs_exec (FsRemove p) fs) ∧ R tt (fs_exec (FsRemove p) fs)) →
  runs Q (remove_artifact p) fs R E.
Proof.
  intros Hq Hn Hs. unfold remove_artifact. apply runs_inspect. destruct (path_exists p fs) eqn:Hp; simpl.
  - apply exists_true in Hp. destruct (Hs Hp). by apply runs_atomic.
  - apply runs_ret; [done|]. by apply Hn, exists_false.
Qed.

Lemma remove_changes p (P : Place → Prop) fs : P p → changes_only P fs (fs_exec (FsRemove p) fs).
Proof. intros Hp. split; [done|]. intros q Hq. rewrite lookup_remove, decide_False; [done|]. by intros ->. Qed.

Lemma remove_foreign_runs p l fs E :
  foreign p → journaled l fs → runs good (remove_artifact p) fs (λ _ fs', journaled l fs') E.
Proof.
  intros Hp Hj. pose proof (journaled_foreign _ _ _ (remove_changes p foreign fs Hp) Hj) as Hj'.
  apply remove_runs; [by eapply journaled_good|done|]. intros _. split; [by eapply journaled_good|done].
Qed.

Lemma remove_backup_runs x fs E :
  x ∈ exports → journaled [] fs →
  runs good (remove_artifact (backup_of (px_rel x))) fs (λ _ fs', journaled [] fs') E.
Proof.
  intros Hx Hj. assert (journaled [] (fs_exec (FsRemove (backup_of (px_rel x))) fs)) as Hj'.
  { eapply journaled_half; [exact Hj|]. destruct Hj as (_ & _ & _ & _ & _ & Hi). split_and!.
    - apply list_subseteq_nil.
    - apply (others_own fs (backup_of (px_rel x)) fs); [by split|exists x; auto|done|].
      intros q Hq. by rewrite lookup_remove, decide_False.
    - intros y Hy. right. destruct (Hi y Hy) as [[[]%elem_of_nil _]|[H1 H2]].
      destruct (sep_same (lay_separate Hlay) y x Hy Hx) as (_ & D1 & D2).
      split; by rewrite lookup_remove, decide_False. }
  apply remove_runs; [by eapply journaled_good|done|]. intros _. split; [by eapply journaled_good|done].
Qed.

Lemma journal_removed fs :
  journaled [] fs → new_files (fs_exec (FsRemove (transaction_root ++ [journal_file])) fs).
Proof.
  intros (_ & Hj & _ & _ & _ & Hx). split.
  - split; [constructor|]. intros p name E. rewrite elem_of_nil. split; [|done]. rewrite lookup_remove.
    case_decide as Hp; [by intros [? ?]|]. intros Hs. apply (proj2 Hj p name E) in Hs. apply list_elem_of_singleton in Hs as ->.
    apply journal_name_spec in E as [-> _]. done.
  - intros x Hin. destruct (Hx x Hin) as [[[]%elem_of_nil _]|[_ H2]]. rewrite lookup_remove, decide_False; [done|].
    intros Hp. destruct (lay_own Hlay (px_rel x)) as [Hn _]; [exists x; auto|]. rewrite Hp in Hn.
    rewrite (proj2 (journal_place _) (lay_journal Hlay)) in Hn. done.
Qed.

Lemma cleanup_good fs E :
  journaled [] fs →
  runs good (cleanup_export_entries (entry_of <$> exports) (transaction_root ++ [journal_file])) fs
    (λ _ fs', new_files fs') E.
Proof.
  intros Hj. unfold cleanup_export_entries.
  apply (runs_bind _ _ _ _ (λ _ fs', journaled [] fs')).
  - eapply (runs_mono _ _ _ (λ _ fs', journaled [] fs' ∧ [] ⊆ entry_of <$> exports) _ E);
      [apply (runs_each good _ (λ es fs', journaled [] fs' ∧ es ⊆ entry_of <$> exports)); [done| |]|by intros ? ? _ [? _]|done].
    + intros l fs' [H _]. by eapply journaled_good.
    + intros e l fs' [H Hes]. assert (e ∈ entry_of <$> exports) as (x & -> & Hx)%list_elem_of_fmap by (apply Hes; left).
      eapply runs_mono; [by apply (remove_backup_runs x)| |done]. intros ? fs'' _ ?. split; [done|].
      intros y Hy. apply Hes. by right.
  - intros _ fs' _ Hj'. pose proof (journal_removed _ Hj'). pose proof Hj' as (_ & _ & Hb & _).
    apply remove_runs; [by eapply journaled_good|by rewrite Hb|]. intros _. split; [by right; right|done].
Qed.

(** ** Recovering *)

Abbreviation recover_one := (recover_one id_text parse_id journal_from_slice).
Abbreviation recover := (recover_pending_transactions id_text parse_id is_uuid journal_from_slice).

Lemma recover_journal_good report l fs E :
  journaled l fs →
  runs good (recover_one report (transaction_root ++ [journal_file])) fs (λ _ fs', new_files fs') E.
Proof.
  intros Hj. unfold Journal.recover_one. apply runs_inspect. pose proof Hj as (_ & _ & Hb & _).
  unfold fs_read. rewrite Hb, (lay_parse Hlay).
  eapply runs_bind; [by eapply install_good|]. intros [] fs1 _ H1.
  apply (runs_bind _ _ _ _ (λ _ fs', journaled [] fs')).
  - eapply (runs_mono _ _ _ (λ _ fs', journaled [] fs' ∧ [] ⊆ entry_of <$> exports) _ E);
      [apply (runs_each good _ (λ es fs', journaled [] fs' ∧ es ⊆ entry_of <$> exports)); [done| |]|by intros ? ? _ [? _]|done].
    + intros k fs' [H _]. by eapply journaled_good.
    + intros e k fs' [H Hes]. assert (e ∈ entry_of <$> exports) as (x & -> & Hx)%list_elem_of_fmap by (apply Hes; left).
      eapply runs_mono; [by apply (remove_foreign_runs (state_path_for (px_rel x))); [apply (lay_state Hlay)|exact H]| |done].
      intros ? fs'' _ ?. split; [done|]. intros y Hy. apply Hes. by right.
  - intros [] fs2 _ H2. eapply runs_bind; [by apply cleanup_good|]. intros [] fs3 _ H3.
    apply runs_ret; [by right; right|done].
Qed.

(** Removing a file that is no document. *)
Lemma has_journals_remove p fs : has_journals fs [] → has_journals (fs_exec (FsRemove p) fs) [].
Proof.
  intros [Hn H]. split; [done|]. intros q name E. rewrite lookup_remove. rewrite elem_of_nil. split; [|done].
  case_decide; [by intros [? ?]|]. intros Hs. apply (H q name E) in Hs. by apply elem_of_nil in Hs.
Qed.
Lemma orphan_remove p fs fs0 :
  p ∈ orphans is_uuid fs0 →
  (old_files fs → old_files (fs_exec (FsRemove p) fs)) ∧ (new_files fs → new_files (fs_exec (FsRemove p) fs)).
Proof.
  intros Hp. assert (∀ x, x ∈ exports → px_rel x ≠ p) as Hne.
  { intros x Hx <-. unfold orphans in Hp. apply list_elem_of_fmap in Hp as ([q node] & Eq & Hq). simpl in Eq.
    apply list_elem_of_filter in Hq as [Ho _]. unfold is_orphan in Ho. simpl in Ho. rewrite <-Eq in Ho.
    destruct node; [|done]. destruct (file_name (px_rel x)) as [name|] eqn:E; [|done].
    by rewrite (lay_kept Hlay _ _ Hx E) in Ho. }
  split; (intros [Hj Hx]; split; [by apply has_journals_remove|]);
    intros x Hin; (rewrite lookup_remove, decide_False; [by apply Hx|by apply Hne]).
Qed.

(** A property of the documents that holds without an open journal. *)
Record settled_by (P : Fs → Prop) : Prop := {
  sb_journals : ∀ fs, P fs → has_journals fs [];
  sb_orphans : ∀ p fs fs0, p ∈ orphans is_uuid fs0 → P fs → P (fs_exec (FsRemove p) fs);
}.
Lemma old_settled : settled_by old_files.
Proof. split; [by intros ? [? _]|]. intros p fs fs0 Hp. by apply (orphan_remove p fs fs0). Qed.
Lemma new_settled : settled_by new_files.
Proof. split; [by intros ? [? _]|]. intros p fs fs0 Hp. by apply (orphan_remove p fs fs0). Qed.

Lemma sweep_settled {A} (P : Fs → Prop) (x : A) fs E :
  settled_by P → P fs →
  runs P (litter ← inspect (orphans is_uuid); _ ← fp_each (λ p, act (FsRemove p)) litter; mret x) fs
    (λ _ fs', P fs') E.
Proof.
  intros Hs HP. apply runs_inspect. apply (runs_bind _ _ _ _ (λ _ fs', P fs')).
  2: { intros _ fs' Hq _. by apply runs_ret. }
  eapply (runs_mono _ _ _ (λ _ fs', P fs' ∧ [] ⊆ orphans is_uuid fs) _ E);
    [apply (runs_each P _ (λ ps fs', P fs' ∧ ps ⊆ orphans is_uuid fs)); [done|by intros ? ? [? _]|]|by intros ? ? _ [? _]|done].
  intros p k fs' [H Hk]. assert (P (fs_exec (FsRemove p) fs')) as Hp.
  { apply (sb_orphans _ Hs p fs' fs); [apply Hk; left|done]. }
  apply runs_atomic; [done..|]. split; [done|]. intros q Hq. apply Hk. by right.
Qed.

(** A recovery that finds no journal keeps the documents. *)
Lemma recover_settled (P : Fs → Prop) fs :
  settled_by P → P fs → runs P recover fs (λ _ fs', P fs') (λ _, False).
Proof.
  intros Hs HP. unfold recover_pending_transactions. apply runs_inspect.
  destruct (fs_transactions fs); simpl; [|by apply runs_ret]. apply runs_inspect.
  rewrite (journal_paths_spec fs []); [|constructor|by apply Hs|by intros ? ?%elem_of_nil]. simpl.
  apply (runs_bind _ _ _ _ (λ _ fs', P fs')); [by apply runs_ret|]. intros report fs1 _ H1.
  by apply sweep_settled.
Qed.

Lemma recover_journaled fs :
  journaled exports fs → runs good recover fs (λ _ fs', new_files fs') (λ _, False).
Proof.
  intros Hj. pose proof Hj as (Ht & Hjs & _). unfold recover_pending_transactions. apply runs_inspect.
  rewrite Ht. simpl. apply runs_inspect.
  rewrite (journal_paths_spec fs [journal_file]);
    [|repeat constructor|done|intros n ->%list_elem_of_singleton; apply (lay_journal Hlay)]. simpl.
  apply (runs_bind _ _ _ _ (λ _ fs', new_files fs')).
  - eapply runs_bind; [by eapply recover_journal_good|]. intros report fs1 Hq1 H1. simpl. by apply runs_ret.
  - intros report fs1 _ H1. eapply runs_weaken; [by apply (sweep_settled new_files), H1; apply new_settled|].
    by right; right.
Qed.

(** The recovery always succeeds; it finishes the export when its journal is
    there. *)
Lemma recover_good fs :
  good fs → runs good recover fs (λ _ fs', old_files fs' ∨ new_files fs') (λ _, False).
Proof.
  intros [H|[H|H]].
  - eapply runs_mono; [eapply runs_weaken; [by apply recover_settled; [apply old_settled|exact H]|by left]|by left|done].
  - eapply runs_mono; [by apply recover_journaled|by right|done].
  - eapply runs_mono; [eapply runs_weaken; [by apply recover_settled; [apply new_settled|exact H]|by right; right]|by right|done].
Qed.

(** ** Publishing *)

Abbreviation write_pending := (write_pending uuid_text transaction_id).
Abbreviation write_journal := (write_journal uuid_text journal_to_vec).

(** The program changes the directories of storages only, and none that belongs
    to the publication. *)
Definition quiet {A} (m : FP A) : Prop :=
  ∀ fs a, a ∈ (m fs).1 → ∃ p d, a = FsStore p d ∧ foreign p.

#[local] Instance changes_preorder P : PreOrder (changes_only P).
Proof.
  split; [by split|]. intros f g h [H1 H2] [H3 H4]. split; [by rewrite H3|].
  intros q Hq. by rewrite H4, H2.
Qed.
Lemma store_changes p node fs : foreign p → changes_only foreign fs (alter_nodes <[p := node]> fs).
Proof. intros Hp. split; [done|]. intros q Hq. simpl. rewrite lookup_insert_ne; [done|]. by intros ->. Qed.
Lemma quiet_crash l fs fs' :
  (∀ a, a ∈ l → ∃ p d, a = FsStore p d ∧ foreign p) → fs_crash l fs fs' → changes_only foreign fs fs'.
Proof.
  intros Hl Hc. induction Hc as [l fs|a l fs fs' Ht|a l fs fs' Hc IH]; [done| |].
  - destruct (Hl a) as (p & d & -> & Hp); [left|]. inversion Ht; subst; [done|by apply store_changes].
  - destruct (Hl a) as (p & d & -> & Hp); [left|]. etrans; [by apply store_changes|].
    apply IH. intros b Hb. apply Hl. by right.
Qed.
Lemma quiet_runs {A} (m : FP A) (P : Fs → Prop) fs :
  quiet m → (∀ fs, P fs → good fs) → (∀ fs fs', changes_only foreign fs fs' → P fs → P fs') → P fs →
  runs good m fs (λ _ fs', P fs') (λ _, True).
Proof.
  intros Hm Hg HP H. split.
  - intros fs' Hc. apply Hg. eapply HP; [|exact H]. by eapply quiet_crash; [apply Hm|].
  - destruct (m fs).2 eqn:E; [done|]. eapply HP; [|exact H]. by eapply quiet_crash; [apply Hm|apply crash_end].
Qed.

Lemma recoverable_runs {A} j (m : FP A) Q fs R :
  runs Q m fs R (λ _, True) → runs Q (recoverable j m) fs R (λ _, True).
Proof. unfold runs, recoverable. by destruct (m fs) as [l [e|x]]. Qed.

Lemma own_pending x : x ∈ exports → own_file (pending_of (px_rel x)).
Proof. intros Hx. exists x. auto. Qed.
Lemma own_target x : x ∈ exports → own_file (px_rel x).
Proof. intros Hx. exists x. auto. Qed.

(** A file that is no document and no journal. *)
Lemma old_write p node fs :
  old_files fs → (∀ x, x ∈ exports → px_rel x ≠ p) → journal_name p = None →
  old_files (alter_nodes <[p := node]> fs).
Proof.
  intros [Hj Hx] Hp Hn. split.
  - eapply has_journals_same; [|exact Hj]. intros q Hq. simpl. rewrite lookup_insert_ne; [done|]. by intros ->.
  - intros x Hin. simpl. rewrite lookup_insert_ne; [by apply Hx|]. intros ->. by apply (Hp x).
Qed.

(** Halfway through the pending files. *)
Definition pended (l rest : list PendingExport) (fs : Fs) : Prop :=
  old_files fs ∧ fs_transactions fs = true ∧ fs_nodes fs !! journal_temp = None ∧
  l ++ rest = exports ∧ (∀ x, x ∈ l → waiting x fs) ∧
  ∀ x, x ∈ rest → fs_nodes fs !! pending_of (px_rel x) = None.

Lemma pended_next l x rest fs :
  pended l (x :: rest) fs → pended (l ++ [x]) rest (fs_exec (FsWrite (pending_of (px_rel x)) (px_markdown x)) fs).
Proof.
  intros (Ho & Ht & Hj & Hl & Hw & Hr).
  assert (x ∈ exports) as Hx by (rewrite <-Hl; set_solver).
  assert (NoDup (l ++ x :: rest)) as Hnd by (rewrite Hl; apply (lay_distinct Hlay)).
  assert (∀ y, y ∈ exports → y ≠ x → pending_of (px_rel y) ≠ pending_of (px_rel x)) as Hne.
  { intros y Hy Hyx. by apply (sep_other (lay_separate Hlay) y x). }
  destruct (lay_own Hlay _ (own_pending x Hx)) as [Hn Hjt].
  split_and!.
  - apply old_write; [done| |done]. intros y Hy. by apply (sep_same (lay_separate Hlay)).
  - done.
  - by rewrite lookup_write, decide_False.
  - by rewrite <-app_assoc.
  - intros y [Hy|Hy%list_elem_of_singleton]%elem_of_app; [|subst y]; unfold waiting; rewrite lookup_write.
    + rewrite decide_False; [by apply Hw|]. apply Hne; [rewrite <-Hl; set_solver|]. intros ->.
      apply NoDup_app in Hnd as (_ & Hnd & _). apply (Hnd x Hy). left.
    + by rewrite decide_True.
  - intros y Hy. rewrite lookup_write, decide_False; [apply Hr; by right|].
    apply Hne; [rewrite <-Hl; set_solver|]. intros ->.
    apply NoDup_app in Hnd as (_ & _ & Hnd). by apply NoDup_cons in Hnd as [? _].
Qed.

Lemma write_pending_runs rest : ∀ l fs, pended l rest fs →
  runs good (write_pending (entry_of <$> l) rest) fs
    (λ es fs', es = entry_of <$> exports ∧ pended exports [] fs') (λ _, True).
Proof.
  induction rest as [|x rest IH]; intros l fs Hp; simpl.
  - pose proof Hp as (Ho & _ & _ & Hl & _). rewrite app_nil_r in Hl. subst l. apply runs_ret; [by left|done].
  - assert (x ∈ exports) as Hx by (destruct Hp as (_ & _ & _ & <- & _); set_solver).
    destruct (lay_named Hlay x Hx) as [name Hname].
    assert (export_journal_entry uuid_text (px_rel x) transaction_id = mret (entry_of x)) as ->.
    { unfold export_journal_entry, entry_of, pending_of, backup_of. by rewrite Hname. }
    eapply runs_bind; [apply (runs_ret _ _ _ (λ e fs', e = entry_of x ∧ fs' = fs)); [by left; apply Hp|done]|].
    intros e fs' _ [-> ->].
    pose proof (pended_next _ _ _ _ Hp) as Hn.
    assert (∀ f, runs good (λ fs0, match write_synced_file (pending_of (px_rel x)) (px_markdown x) fs0 with
        | (l, inr u) => (l, inr u) | (l, inl e) => f l e fs0 end) fs
      (λ _ fs', pended (l ++ [x]) rest fs') (λ _, True)) as Hwrite.
    { intros f. destruct Hp as (Ho & _ & _ & _ & _ & Hr). assert (path_exists (pending_of (px_rel x)) fs = false) as Hpe
        by (apply exists_false, Hr; left).
      assert (runs good (act (FsWrite (pending_of (px_rel x)) (px_markdown x))) fs
        (λ _ fs', pended (l ++ [x]) rest fs') (λ _, True)) as [H1 H2].
      { apply runs_act; [by left| |by left; apply Hn|done]. inversion 1; subst; [by left|]. left.
        apply old_write; [done| |apply (lay_own Hlay), own_pending, Hx]. intros y Hy.
        by apply (sep_same (lay_separate Hlay)). }
      unfold runs, write_synced_file, mbind, FP_bind, inspect. simpl. rewrite Hpe. simpl. by split. }
    eapply runs_bind; [apply Hwrite|]. intros [] fs1 _ H1. specialize (IH _ _ H1).
    by rewrite fmap_app in IH.
Qed.

(** The journal appears under its name as a whole. *)
Lemma journal_written fs :
  pended exports [] fs →
  journaled exports (fs_exec (FsRename journal_temp (transaction_root ++ [journal_file]))
    (fs_exec (FsWrite journal_temp journal_bytes) fs)).
Proof.
  intros ([[Hnd Hj] Hx] & Ht & Hjt & _ & Hw & _).
  set (fs1 := fs_exec (FsWrite journal_temp journal_bytes) fs).
  assert (fs_nodes fs1 !! journal_temp = Some (File journal_bytes)) as E.
  { unfold fs1. by rewrite lookup_write, decide_True. }
  pose proof (λ q, lookup_rename journal_temp (transaction_root ++ [journal_file]) _ fs1 q E) as Hq.
  assert (∀ p, own_file p → fs_nodes (fs_exec (FsRename journal_temp (transaction_root ++ [journal_file])) fs1) !! p =
    fs_nodes fs !! p) as Hown.
  { intros p Hp. destruct (lay_own Hlay p Hp) as [Hn Hne]. rewrite Hq, decide_False, decide_False by
      (done || intros ->; by rewrite (proj2 (journal_place _) (lay_journal Hlay)) in Hn).
    unfold fs1. by rewrite lookup_write, decide_False. }
  split_and!.
  - by rewrite exec_transactions.
  - split; [apply NoDup_singleton|]. intros p name Ep. rewrite Hq, list_elem_of_singleton.
    pose proof Ep as [-> Hjn]%journal_name_spec. case_decide as H1.
    + apply app_inj_tail in H1 as [_ ->]. by split.
    + rewrite decide_False by (intros Heq; by rewrite Heq, (lay_temp Hlay) in Ep). unfold fs1.
      rewrite lookup_write, decide_False by (intros Heq; by rewrite Heq, (lay_temp Hlay) in Ep).
      rewrite (Hj _ _ Ep), elem_of_nil. split; [done|]. by intros ->.
  - by rewrite Hq, decide_True.
  - split_and!; [done|by split|]. intros x Hin. left. split; [done|]. unfold waiting.
    rewrite Hown by by apply own_pending. by apply Hw.
Qed.

Lemma write_journal_runs fs E :
  pended exports [] fs →
  runs good (write_journal (JournalExport (entry_of <$> exports)) journal_id) fs
    (λ path fs', path = transaction_root ++ [journal_file] ∧ journaled exports fs') E.
Proof.
  intros Hp. unfold Journal.write_journal. rewrite (lay_json Hlay).
  apply (runs_bind _ _ _ _ (λ _ fs', pended exports [] fs')).
  { assert (pended exports [] (fs_exec FsMkTransactions fs)) as Hp' by by destruct Hp as ([[??]?]&?&?&?&?&?); split_and!.
    apply runs_atomic; [done|by left; apply Hp|by left; apply Hp'|done]. }
  intros _ fs0 _ Hp0. pose proof (journal_written _ Hp0) as Hj.
  pose proof Hp0 as (Ho & _ & Hjt & _).
  assert (∀ node, old_files (alter_nodes <[journal_temp := node]> fs0)) as Hold.
  { intros node. apply old_write; [done| |apply (lay_temp Hlay)]. intros x Hx.
    by apply (lay_own Hlay _ (own_target x Hx)). }
  apply (runs_bind _ _ _ _ (λ _ fs', fs' = fs_exec (FsWrite journal_temp journal_bytes) fs0)).
  - unfold write_synced_file. apply runs_inspect.
    assert (path_exists journal_temp fs0 = false) as Hpe by by apply exists_false.
    unfold journal_temp in Hpe. rewrite Hpe. apply runs_act; [by left| |left; apply Hold|done].
    inversion 1; subst; left; [done|apply Hold].
  - intros _ fs1 _ ->. apply (runs_bind _ _ _ _ (λ _ fs', journaled exports fs')); [|intros _ fs2 Hq H2; by apply runs_ret].
    apply runs_atomic; [done|left; apply Hold|by eapply journaled_good|exact Hj].
Qed.

(** What an export starts from: no open transaction, and names that are free. *)
Definition ready (fs : Fs) : Prop :=
  has_journals fs [] ∧ fs_nodes fs !! journal_temp = None ∧
  (∀ x, x ∈ exports → fs_nodes fs !! pending_of (px_rel x) = None) ∧
  ∀ x, x ∈ exports → fs_nodes fs !! px_rel x = fs_nodes before !! px_rel x.

Lemma new_foreign fs fs' : changes_only foreign fs fs' → new_files fs → new_files fs'.
Proof.
  intros [_ Hq] [Hj Hx]. split.
  - eapply has_journals_same; [|exact Hj]. intros p Hp. apply Hq. by intros [_ ?].
  - intros x Hin. rewrite Hq; [by apply Hx|]. intros [Hn _]. by apply Hn, own_target.
Qed.

(** An open transaction: its journal, or nothing was to be changed. *)
Definition begun (transaction : OpenExport) (fs : Fs) : Prop :=
  match transaction with
  | Some (journal, entries) =>
    journal = transaction_root ++ [journal_file] ∧ entries = entry_of <$> exports ∧ journaled [] fs
  | None => new_files fs
  end.

Lemma publish_begin_good fs :
  ready fs →
  runs good (publish_begin uuid_text journal_to_vec transaction_id journal_id exports) fs begun (λ _, True).
Proof.
  intros (Hj & Hjt & Hp & Hb).
  assert (pended [] exports (fs_exec FsMkTransactions fs)) as Hp0.
  { split_and!; try done. intros x Hx. by apply elem_of_nil in Hx. }
  unfold publish_begin. apply (runs_bind _ _ _ _ (λ _ fs', pended [] exports fs')).
  { apply runs_atomic; [done|by left|left; apply Hp0|done]. }
  intros _ fs0 _ Hp1. eapply runs_bind; [by apply (write_pending_runs exports [])|].
  intros es fs1 _ [-> Hp2].
  destruct (entry_of <$> exports) as [|e es] eqn:Hes.
  { assert (new_files fs1); [|by apply runs_ret; [by right; right|]].
    split; [apply Hp2|]. apply fmap_nil_inv in Hes. rewrite Hes. by intros ? ?%elem_of_nil. }
  rewrite <-Hes.
  eapply (runs_bind _ _ _ _ (λ path fs', path = transaction_root ++ [journal_file] ∧ journaled exports fs')).
  { pose proof (write_journal_runs fs1 (λ _, False) Hp2) as [H1 H2]. unfold runs.
    by destruct (write_journal _ _ fs1) as [l [err|path]]. }
  intros path fs2 _ [-> H2].
  eapply runs_bind; [apply recoverable_runs, (install_good _ _ _ H2)|]. intros [] fs3 Hq H3. by apply runs_ret.
Qed.

Lemma publish_good {A} (finalize : FP A) fs :
  quiet finalize → ready fs →
  runs good (publish uuid_text journal_to_vec transaction_id journal_id exports finalize) fs
    (λ _ fs', new_files fs') (λ _, True).
Proof.
  intros Hf Hr. unfold publish. eapply runs_bind; [by apply publish_begin_good|].
  intros [[journal entries]|] fs1 _; simpl.
  - intros (-> & -> & H1).
    eapply runs_bind; [apply recoverable_runs, (quiet_runs _ (journaled []));
      [done|apply journaled_good|apply journaled_foreign|exact H1]|].
    intros outcomes fs2 _ H2.
    eapply runs_bind; [apply recoverable_runs, (cleanup_good _ _ H2)|]. intros [] fs3 Hq H3. by apply runs_ret.
  - intros H1. eapply runs_bind; [apply (quiet_runs _ new_files);
      [done|by right; right|apply new_foreign|exact H1]|].
    intros outcomes fs2 Hq H2. eapply runs_bind; [apply (runs_ret _ _ _ (λ _ fs', new_files fs')); [exact Hq|exact H2]|].
    intros [] fs3 Hq3 H3. by apply runs_ret.
Qed.
End export.

(** ** The names of an export *)

Definition no_dot (s : string) : Prop := rsplit_dot s = None.

Lemma rsplit_app s u : no_dot u → rsplit_dot (String.append s (String dot u)) = Some (s, u).
Proof.
  intros Hu. induction s as [|c s IH]; simpl; [by rewrite Hu|]. by rewrite IH.
Qed.
Lemma append_char c s u : String.append (String c s) u = String c (String.append s u).
Proof. done. Qed.
Lemma append_length s u : String.length (String.append s u) = String.length s + String.length u.
Proof. induction s as [|c s IH]; [done|]. rewrite append_char. simpl. by rewrite IH. Qed.
Lemma strip_app s suffix : strip_suffix suffix (String.append s suffix) = Some s.
Proof.
  induction s as [|c s IH]; simpl.
  - destruct suffix as [|c suffix]; [done|]. simpl. by case_decide.
  - rewrite ?append_char; simpl. rewrite IH, decide_False; [done|]. intros E. apply (f_equal String.length) in E.
    simpl in E. rewrite append_length in E. lia.
Qed.
Lemma strip_some s suffix r : strip_suffix suffix s = Some r → s = String.append r suffix.
Proof.
  revert r. induction s as [|c s IH]; intros r; simpl; case_decide; [by intros [= <-]|done|by intros [= <-]|].
  intros (r' & H' & ->)%fmap_Some. simpl. by rewrite (IH r').
Qed.

Lemma chars_app s u : String.list_ascii_of_string (String.append s u) =
  String.list_ascii_of_string s ++ String.list_ascii_of_string u.
Proof. induction s as [|c s IH]; [done|]. rewrite ?append_char. simpl. by rewrite IH. Qed.
Lemma append_inj_r s s' u : String.append s u = String.append s' u → s = s'.
Proof.
  intros E%(f_equal String.list_ascii_of_string). rewrite !chars_app in E. apply app_inv_tail in E.
  apply (f_equal String.string_of_list_ascii) in E. by rewrite !String.string_of_list_ascii_of_string in E.
Qed.
Lemma append_last s s' u u' c c' :
  last (String.list_ascii_of_string u) = Some c → last (String.list_ascii_of_string u') = Some c' → c ≠ c' →
  String.append s u ≠ String.append s' u'.
Proof.
  intros Hu Hu' Hne E%(f_equal String.list_ascii_of_string). rewrite !chars_app in E.
  apply (f_equal last) in E. rewrite !last_app, Hu, Hu' in E. congruence.
Qed.
Lemma append_three s u w : String.append (String.append s u) w = String.append s (String.append u w).
Proof. induction s as [|c s IH]; [done|]. rewrite ?append_char. simpl. by rewrite IH. Qed.

(** A path of a document: it names a file outside the own directory of the
    vault, and not a temporary file of a transaction. *)
Definition document_path (is_uuid : string → bool) (p : Place) : Prop :=
  head p ≠ Some ".mdcrdt"%string ∧
  ∃ name, file_name p = Some name ∧ is_orphan_transaction_temp is_uuid name = false.

Lemma temp_orphan is_uuid name u kind :
  is_uuid u = true → no_dot u → kind = ".pending"%string ∨ kind = ".backup"%string →
  is_orphan_transaction_temp is_uuid
    (String.append "." (String.append name (String.append "." (String.append u kind)))) = true.
Proof.
  intros Hu Hn Hk. unfold is_orphan_transaction_temp. apply andb_true_intro. split; [by apply bool_decide_eq_true|].
  set (stem := String.append "." (String.append name (String dot u))).
  assert (String.append "." (String.append name (String.append "." (String.append u kind))) = String.append stem kind) as ->.
  { unfold stem. by rewrite !append_three. }
  assert (rsplit_dot stem = Some (String.append "." name, u)) as Hr.
  { unfold stem. rewrite <-append_three. by apply rsplit_app. }
  clearbody stem.
  assert (union (strip_suffix ".pending" (String.append stem kind)) (strip_suffix ".backup" (String.append stem kind)) =
    Some stem) as ->; [|csimpl; by rewrite Hr].
  destruct Hk as [-> | ->]; [rewrite strip_app; by destruct (strip_suffix _ _)|]. rewrite strip_app.
  destruct (strip_suffix ".pending" _) as [r|] eqn:E; [|done]. apply strip_some in E.
  by apply (append_last stem r ".backup" ".pending" "p" "g") in E.
Qed.

Section names.
Context (uuid_text : Uuid → string) (is_uuid : string → bool) (transaction_id journal_id : Uuid).
Context (Hu : is_uuid (uuid_text transaction_id) = true) (Hdot : no_dot (uuid_text transaction_id)).
Abbreviation pending_of := (pending_of uuid_text transaction_id).
Abbreviation backup_of := (backup_of uuid_text transaction_id).
Abbreviation document := (document_path is_uuid).

Lemma document_split p : document p → ∃ name, p = parent p ++ [name] ∧ file_name p = Some name.
Proof. intros (_ & name & Hn & _). exists name. split; [by apply place_split|done]. Qed.

Lemma inner_head p q l : document p → p = parent p ++ q → parent p = ".mdcrdt"%string :: l → False.
Proof. intros [Hh _] Hp Hl. apply Hh. by rewrite Hp, Hl. Qed.

Lemma not_temp p q name kind :
  document p → kind = ".pending"%string ∨ kind = ".backup"%string →
  p ≠ q ++ [String.append "." (String.append name (String.append "." (String.append (uuid_text transaction_id) kind)))].
Proof.
  intros (_ & n & Hn & Ho) Hk ->. rewrite name_app in Hn. injection Hn as <-.
  by rewrite (temp_orphan is_uuid name _ kind Hu Hdot Hk) in Ho.
Qed.

Lemma names_separate exports :
  NoDup (px_rel <$> exports) → (∀ x, x ∈ exports → document (px_rel x)) →
  separate uuid_text transaction_id exports ∧ NoDup exports.
Proof.
  intros Hnd Hdoc. assert (∀ x y, x ∈ exports → y ∈ exports → px_rel x = px_rel y → x = y) as Hinj.
  { intros x y [i Hi]%list_elem_of_lookup [j Hj]%list_elem_of_lookup E.
    assert (i = j) as ->; [|congruence]. eapply NoDup_lookup; [exact Hnd| |].
    - rewrite list_lookup_fmap, Hi. done.
    - rewrite list_lookup_fmap, Hj. simpl. by rewrite E. }
  split; [|by eapply NoDup_fmap_1]. split.
  - intros x y Hx Hy. split_and!; [by apply not_temp; [apply Hdoc|left]|by apply not_temp; [apply Hdoc|right]|].
    intros [_ E]%app_inj_tail. rewrite <-!append_three in E.
    by apply (append_last _ _ ".pending" ".backup" "g" "p") in E.
  - intros x y Hx Hy Hne. assert (px_rel x ≠ px_rel y) as Hpq by (intros E; by apply Hne, Hinj).
    destruct (document_split _ (Hdoc x Hx)) as (n & En & Nn). destruct (document_split _ (Hdoc y Hy)) as (m & Em & Nm).
    unfold JournalProps.pending_of, JournalProps.backup_of. rewrite Nn, Nm. simpl.
    assert (∀ k, parent (px_rel x) ++ [String.append "." (String.append n k)] ≠
      parent (px_rel y) ++ [String.append "." (String.append m k)]) as Hk.
    { intros k [E1 E2]%app_inj_tail. rewrite <-!append_three in E2. apply append_inj_r in E2.
      change (String dot n = String dot m) in E2. injection E2 as E2. apply Hpq. by rewrite En, Em, E1, E2. }
    split_and!; [done|apply Hk..].
Qed.

Lemma parent_app_ne l p : p ≠ [] → parent (l ++ p) = l ++ parent p.
Proof.
  intros Hp. destruct (file_name p) as [n|] eqn:E; [|by apply last_None in E].
  rewrite (place_split p n E) at 1. by rewrite app_assoc, parent_app.
Qed.
Lemma parent_extension e p : parent (set_extension e p) = parent p.
Proof. unfold set_extension. destruct (file_name p); [apply parent_app|done]. Qed.

(** The own directories of the vault hold nothing that belongs to an export. *)
Definition vault_path (p : Place) : Prop := ∃ kind l, kind ≠ "transactions"%string ∧
  parent p = ".mdcrdt"%string :: kind :: l.

Lemma session_vault_path rel : rel ≠ [] → vault_path (session_storage_path rel).
Proof.
  intros Hr. exists "sessions"%string, (parent rel). split; [done|]. unfold session_storage_path.
  by rewrite parent_extension, parent_app_ne.
Qed.
Lemma state_vault_path rel : rel ≠ [] → vault_path (state_path_for rel).
Proof.
  intros Hr. exists "state"%string, (parent rel). split; [done|]. unfold state_path_for.
  by rewrite parent_extension, parent_app_ne.
Qed.

Lemma parent_head p q l : document p → parent p = ".mdcrdt"%string :: l → p = q → False.
Proof.
  intros Hd Hp ->. destruct (document_split _ Hd) as (n & Hn & _). destruct Hd as [Hh _].
  apply Hh. by rewrite Hn, Hp.
Qed.

Lemma own_outside exports p l :
  (∀ x, x ∈ exports → document (px_rel x)) → own_file uuid_text transaction_id exports p →
  parent p ≠ ".mdcrdt"%string :: l.
Proof.
  intros Hdoc (x & Hx & Hp) E. eapply (parent_head (px_rel x) (px_rel x) l); [by apply Hdoc| |done].
  destruct Hp as [->|[->| ->]]; [done|..]; unfold JournalProps.pending_of, JournalProps.backup_of in E;
    by rewrite parent_app in E.
Qed.

Lemma vault_foreign exports p :
  (∀ x, x ∈ exports → document (px_rel x)) → vault_path p → foreign uuid_text transaction_id exports p.
Proof.
  intros Hdoc (kind & l & Hk & Hp). split.
  - intros Hown. by apply (own_outside exports p (kind :: l) Hdoc) in Hown.
  - destruct (journal_name p) as [n|] eqn:E; [|done]. apply journal_name_spec in E as [-> _].
    rewrite parent_app in Hp. by injection Hp as <-.
Qed.

(** The documents of an export, the codec of its journal. *)
Record exportable (journal_to_vec : DurableJournal → option (list Byte.byte))
    (journal_from_slice : list Byte.byte → option DurableJournal) (exports : list PendingExport) : Prop := {
  ex_documents : ∀ x, x ∈ exports → document (px_rel x);
  ex_distinct : NoDup (px_rel <$> exports);
  ex_json : ∃ b, journal_to_vec (JournalExport (entry_of uuid_text transaction_id <$> exports)) = Some b ∧
    journal_from_slice b = Some (JournalExport (entry_of uuid_text transaction_id <$> exports));
}.

Lemma layout_ok to_vec from_slice exports :
  uuid_text journal_id ≠ EmptyString → exportable to_vec from_slice exports →
  ∃ b, layout uuid_text transaction_id exports b is_uuid to_vec from_slice journal_id.
Proof.
  intros Hj [Hdoc Hnd (b & Hto & Hfrom)]. exists b.
  destruct (names_separate exports Hnd Hdoc) as [Hsep Hnd']. split; try done.
  - intros x Hx. destruct (document_split _ (Hdoc x Hx)) as (n & _ & Hn). eauto.
  - intros p Hp. pose proof (λ l, own_outside exports p l Hdoc Hp) as Hout. split.
    + destruct (journal_name p) as [n|] eqn:E; [|done]. apply journal_name_spec in E as [-> _].
      rewrite parent_app in Hout. by destruct (Hout ["transactions"%string]).
    + intros ->. unfold journal_temp in Hout. rewrite parent_app in Hout. by destruct (Hout ["transactions"%string]).
  - intros x Hx. destruct (vault_foreign exports (state_path_for (px_rel x)) Hdoc) as [H1 H2]; [|done].
    apply state_vault_path. destruct (document_split _ (Hdoc x Hx)) as (n & -> & _). by destruct (parent (px_rel x)).
  - unfold json_name, journal_file, split_extension. change ".json"%string with (String dot "json").
    rewrite rsplit_app by done. by destruct (uuid_text journal_id).
  - destruct (journal_name _) as [n|] eqn:E; [|done]. apply journal_name_spec in E as [E1 E2].
    apply app_inj_tail in E1 as [_ <-]. unfold json_name, split_extension in E2. revert E2.
    change ".pending"%string with (String dot "pending"). rewrite <-append_three, rsplit_app by done. done.
  - intros x name Hx Hn. destruct (Hdoc x Hx) as (_ & n & Hn' & Ho). congruence.
Qed.
End names.

(** ** The publication is atomic *)

Section atomicity.
Context (uuid_text : Uuid → string) (is_uuid : string → bool).
Context (id_text : N → list Byte.byte) (parse_id : list Byte.byte → option N).
Context (journal_to_vec : DurableJournal → option (list Byte.byte)).
Context (journal_from_slice : list Byte.byte → option DurableJournal).
Context (uuid_text_ok : ∀ id, is_uuid (uuid_text id) = true ∧ no_dot (uuid_text id) ∧ uuid_text id ≠ EmptyString).
Abbreviation recover := (recover_pending_transactions id_text parse_id is_uuid journal_from_slice).

(** No transaction is open, and the fresh names are free. *)
Definition clean (transaction_id journal_id : Uuid) (exports : list PendingExport) (fs : Fs) : Prop :=
  has_journals fs [] ∧ fs_nodes fs !! journal_temp uuid_text journal_id = None ∧
  ∀ x, x ∈ exports → fs_nodes fs !! pending_of uuid_text transaction_id (px_rel x) = None.

(** The program writes the storages of sessions and states only. *)
Definition touches_storage {A} (m : FP A) : Prop :=
  ∀ fs a, a ∈ (m fs).1 → ∃ p d, a = FsStore p d ∧ vault_path p.

(** The publication of several documents is all or nothing.  The program may be
    stopped at any point, inside a write too; recoveries may be stopped as well,
    any number of times.  The next recovery that runs to its end succeeds, leaves
    no journal, and every document has the text it had before, or every document
    has the text of the export; the latter if the publication was completed. *)
Lemma publish_atomic {A} transaction_id journal_id exports (finalize : FP A) before crashed fs :
  let m := publish uuid_text journal_to_vec transaction_id journal_id exports finalize in
  exportable uuid_text is_uuid transaction_id journal_to_vec journal_from_slice exports →
  clean transaction_id journal_id exports before → touches_storage finalize →
  fs_crash (m before).1 before crashed →
  rtc (λ a b, fs_crash (recover a).1 a b) crashed fs →
  ∃ after report, fp_run recover fs = (after, inr report) ∧ has_journals after [] ∧
    ((∀ x, x ∈ exports → fs_nodes after !! px_rel x = fs_nodes before !! px_rel x) ∨
     (∀ x, x ∈ exports → fs_nodes after !! px_rel x = Some (File (px_markdown x)))) ∧
    (∀ result, fp_run m before = (crashed, inr result) →
     ∀ x, x ∈ exports → fs_nodes after !! px_rel x = Some (File (px_markdown x))).
Proof.
  intros m Hex (Hj & Hjt & Hp) Hq Hc Hrec. destruct (uuid_text_ok transaction_id) as (Hu & Hdot & _).
  destruct (layout_ok uuid_text is_uuid transaction_id journal_id Hu Hdot journal_to_vec journal_from_slice exports
    (proj2 (proj2 (uuid_text_ok journal_id))) Hex) as [b Hlay].
  assert (quiet uuid_text transaction_id exports finalize) as Hqf.
  { intros fs0 a Ha. destruct (Hq fs0 a Ha) as (p & d & -> & Hv). exists p, d. split; [done|].
    eapply vault_foreign; [apply (ex_documents _ _ _ _ _ _ Hex)|done]. }
  destruct (publish_good uuid_text transaction_id exports b is_uuid id_text parse_id journal_to_vec journal_from_slice
    journal_id before Hlay finalize before Hqf) as [Hgood Hdone]; [by split_and!|].
  specialize (Hgood _ Hc).
  pose proof (recover_good uuid_text transaction_id exports b is_uuid id_text parse_id journal_to_vec journal_from_slice
    journal_id before Hlay) as Hrg.
  assert (good uuid_text transaction_id exports b journal_id before fs) as Hfs.
  { clear Hdone Hc. induction Hrec as [|x y z Hxy _ IH]; [done|]. apply IH. by apply (runs_crash _ _ _ _ _ _ (Hrg x Hgood)). }
  destruct (Hrg fs Hfs) as [_ Hend]. unfold fp_run. destruct (recover fs) as [l [e|report]] eqn:E; [done|]. simpl in Hend.
  exists (fs_exec_all l fs), report. split; [done|]. split; [by destruct Hend as [[? _]|[? _]]|].
  split; [by destruct Hend as [[_ ?]|[_ ?]]; auto|].
  intros result Hres. fold m in Hdone. destruct (m before) as [k r]. injection Hres as Hk ->. simpl in Hdone.
  rewrite Hk in Hdone.
  pose proof (λ fs, recover_settled is_uuid id_text parse_id journal_from_slice (new_files exports) fs
    (new_settled uuid_text transaction_id exports b is_uuid journal_to_vec journal_from_slice journal_id before Hlay)) as Hkeep.
  assert (new_files exports fs) as Hnew.
  { clear - Hdone Hrec Hkeep. induction Hrec as [|x y z Hxy _ IH]; [done|]. apply IH.
    by apply (runs_crash _ _ _ _ _ _ (Hkeep x Hdone)). }
  destruct (Hkeep fs Hnew) as [_ Hend']. rewrite E in Hend'. apply Hend'.
Qed.
End atomicity.

(** ** A publication of two documents *)

Lemma fs_crash_take k l fs : fs_crash l fs (fs_exec_all (take k l) fs).
Proof.
  revert k fs. induction l as [|a l IH]; intros [|k] fs; simpl; [apply fs_crash_here..|apply fs_crash_later, IH].
Qed.

Definition example_uuid (id : Uuid) : string := "u".
Definition example_exports : list PendingExport :=
  [mkPendingExport ["a.md"]%string [Byte.x01]; mkPendingExport ["notes"; "b.md"]%string [Byte.x02]].
Definition example_journal : DurableJournal := JournalExport (entry_of example_uuid 1 <$> example_exports).
Definition example_before : Fs := mkFs {[ ["a.md"]%string := File [Byte.x00] ]} false.
Definition example_publish : FP unit :=
  publish example_uuid (λ _, Some [Byte.x07]) 1 2 example_exports (mret tt).
(** The process stops when the first document is replaced. *)
Definition example_crashed : Fs := fs_exec_all (take 8 (example_publish example_before).1) example_before.

Lemma no_journals_if fs : omap journal_name (map_to_list (fs_nodes fs)).*1 = [] → has_journals fs [].
Proof.
  intros H. split; [constructor|]. intros p name E. rewrite elem_of_nil. split; [|done]. intros [node Hp].
  apply (not_elem_of_nil name). rewrite <-H. apply list_elem_of_omap. exists p. split; [|done].
  apply list_elem_of_fmap. exists (p, node). split; [done|]. by apply elem_of_map_to_list.
Defined.

Lemma example_recovered :
  fs_read ["a.md"]%string example_crashed = Some [Byte.x01] ∧
  fs_read ["notes"; "b.md"]%string example_crashed = None ∧
  ∃ after report,
    fp_run (recover_pending_transactions (λ _, []) (λ _, None) (λ _, true) (λ _, Some example_journal)) example_crashed =
      (after, inr report) ∧ has_journals after [] ∧
    ((∀ x, x ∈ example_exports → fs_nodes after !! px_rel x = fs_nodes example_before !! px_rel x) ∨
     (∀ x, x ∈ example_exports → fs_nodes after !! px_rel x = Some (File (px_markdown x)))).
Proof.
  split; [by vm_compute|]. split; [by vm_compute|].
  assert (∀ id, true = true ∧ no_dot (example_uuid id) ∧ example_uuid id ≠ EmptyString) as Huuid by done.
  assert (∀ x, x ∈ example_exports → document_path (λ _, true) (px_rel x)) as Hdoc.
  { intros x [->|[->|[]%elem_of_nil]%elem_of_cons]%elem_of_cons; (split; [done|eexists; by split]). }
  destruct (publish_atomic example_uuid (λ _, true) (λ _, []) (λ _, None) (λ _, Some [Byte.x07])
    (λ _, Some example_journal) Huuid 1 2 example_exports (mret tt)
    example_before example_crashed example_crashed) as (after & report & H1 & H2 & H3 & _).
  - split; [exact Hdoc| |by exists [Byte.x07]]. apply (bool_decide_unpack _). by vm_compute.
  - split_and!; [by apply no_journals_if; vm_compute|by vm_compute|].
    intros x [->|[->|[]%elem_of_nil]%elem_of_cons]%elem_of_cons; by vm_compute.
  - intros fs a []%elem_of_nil.
  - apply (fs_crash_take 8).
  - apply rtc_refl.
  - exists after, report. split; [exact H1|split; [exact H2|exact H3]].
Defined.
