(* ===== verification/Vault.v ===== *)
(** * Vault sessions

    Models [VaultSession] of [src/src/filesync/session.rs] and the parts of
    [Vault] of [src/src/filesync/mod.rs] it uses: the open sessions of a vault
    with their persistent identities and cached revisions, and every operation
    on them, with what it reads and writes on disk.

    An operation runs on the state of the session and the files of the vault; it
    leaves a new state, the actions it performed and a result.  What the code
    takes from other crates is collected in [External]; fresh uuids come from a
    stream.  Paths are lists of components, as [Path::components] gives them. *)

From S2P Require Import Prelude Core Sequence Mark MarkOps Table Frontmatter Codec Text Draft.
From S2P Require Import Block Document Sync SessionWire Session Snapshot Storage Match Chars Markdown.
From S2P Require Import Serialize Ingest Cursor Descriptor Pages Outline Target Projection Batch Journal.
From Stdlib Require Import Strings.Byte.

(** ** Paths *)

Inductive Component := RootDir | CurDir | ParentDir | Normal (name : string).
#[export] Instance Component_eq_dec : EqDecision Component.
Proof. solve_decision. Defined.
#[export] Instance Component_countable : Countable Component.
Proof.
  apply (inj_countable' (λ c, match c with
    | RootDir => inl 0%N | CurDir => inl 1%N | ParentDir => inl 2%N | Normal name => inr name end)
    (λ x, match x with
    | inl 0%N => RootDir | inl 1%N => CurDir | inl _ => ParentDir | inr name => Normal name end)).
  by intros [].
Defined.
Abbreviation RawPath := (list Component) (only parsing).
(** The order of paths is that of their components. *)
Definition component_key (c : Component) : N * string :=
  match c with
  | RootDir => (0, EmptyString) | CurDir => (1, EmptyString) | ParentDir => (2, EmptyString)
  | Normal name => (3, name)
  end%N.
#[export] Instance Component_ord : Ord Component :=
  lexico_cmp (λ c, (component_key c).1) (λ c, (component_key c).2).
#[export] Instance RawPath_ord : Ord RawPath := list_cmp.

Definition normalize_rel (p : RawPath) : VaultError + RawPath :=
  if decide (head p = Some RootDir) then inl InvalidRelativePath
  else if decide (ParentDir ∈ p) then inl InvalidRelativePath
  else if decide (p = []) then inl InvalidRelativePath
  else inr p.

(** The file below the root of the vault that a relative path names. *)
Definition place (p : RawPath) : Place :=
  omap (λ c, match c with Normal name => Some name | _ => None end) p.

(** ** External code *)

Record External := mkExternal {
  x_inc : bool;
  x_graphemes : string → list string;
  x_encode : Envelope → string + list Byte.byte;
  x_decode : list Byte.byte → string + Envelope;
  x_list_style : ListStyle → list Byte.byte;
  x_fence_style : CodeFenceStyle → list Byte.byte;
  x_debug_info : option string → string;
  x_key_order : gset ustring → list ustring;
  x_id_order : gset BlockId → list BlockId;
  x_snap_to_vec : SessionSnapshot → string + list Byte.byte;
  x_snap_from_slice : list Byte.byte → string + SessionSnapshot;
  x_batch_json : EditBatch → option (list Byte.byte);
  x_page_bytes : ProjectionPage → option nat;
  x_request_json : DocumentId → RevisionToken → list BlockId → ProjectionFields → nat → nat →
    option (list Byte.byte);
  x_checksum : list Byte.byte → N;
  x_rkyv_to_bytes : SuperblockV2Body → option (list Byte.byte);
  x_rkyv_access : list Byte.byte → option SuperblockV2Body;
  x_state_to_bytes : LastFlushedState → option (list Byte.byte);
  x_state_access : list Byte.byte → option LastFlushedState;
  x_id_text : N → list Byte.byte;
  x_parse_id : list Byte.byte → option N;
  x_uuid_text : Uuid → string;
  x_is_uuid : string → bool;
  x_journal_to_vec : DurableJournal → option (list Byte.byte);
  x_journal_from_slice : list Byte.byte → option DurableJournal;
  x_from_utf8 : list Byte.byte → option ustring;
  (** The value of the hasher for a new peer identity, and the uuids drawn. *)
  x_peer_hash : N;
  x_new_v4 : nat → Uuid;
  (** The order of a walk over directories, and of a hash set. *)
  x_walk_order : list Place → list Place;
  x_path_order : gset RawPath → list RawPath;
}.

(** ** The state *)

Record VaultSession := mkVault {
  vs_vault_id : N;
  vs_peer : PeerId;
  vs_docs : gmap RawPath CollaborativeDocument;
  vs_document_ids : gmap RawPath DocumentId;
  vs_revision_cache : gmap RawPath RevisionToken;
  (** The number of uuids drawn so far. *)
  vs_uuids : nat;
}.

Definition map_docs (f : gmap RawPath CollaborativeDocument → gmap RawPath CollaborativeDocument)
    (v : VaultSession) : VaultSession :=
  mkVault (vs_vault_id v) (vs_peer v) (f (vs_docs v)) (vs_document_ids v) (vs_revision_cache v) (vs_uuids v).
Definition map_ids (f : gmap RawPath DocumentId → gmap RawPath DocumentId) (v : VaultSession) : VaultSession :=
  mkVault (vs_vault_id v) (vs_peer v) (vs_docs v) (f (vs_document_ids v)) (vs_revision_cache v) (vs_uuids v).
Definition map_cache (f : gmap RawPath RevisionToken → gmap RawPath RevisionToken) (v : VaultSession) :
    VaultSession :=
  mkVault (vs_vault_id v) (vs_peer v) (vs_docs v) (vs_document_ids v) (f (vs_revision_cache v)) (vs_uuids v).

(** ** The monad *)

Definition WM (A : Type) : Type :=
  VaultSession → Fs → VaultSession * (list FsAction * (VaultError + A)).
#[export] Instance WM_ret : MRet WM := λ A x v fs, (v, ([], inr x)).
#[export] Instance WM_bind : MBind WM := λ A B f m v fs,
  match m v fs with
  | (v, (l, inl e)) => (v, (l, inl e))
  | (v, (l, inr x)) => let '(v, (l', r)) := f x v (fs_exec_all l fs) in (v, (l ++ l', r))
  end.
Definition wm_throw {A} (e : VaultError) : WM A := λ v fs, (v, ([], inl e)).
Definition wm_lift {A} (r : VaultError + A) : WM A := λ v fs, (v, ([], r)).
Definition wm_get {A} (f : VaultSession → A) : WM A := λ v fs, (v, ([], inr (f v))).
Definition wm_modify (f : VaultSession → VaultSession) : WM unit := λ v fs, (f v, ([], inr tt)).
Definition wm_files {A} (m : FP A) : WM A := λ v fs, (v, m fs).
Definition wm_when (b : bool) (m : WM unit) : WM unit := if b then m else mret tt.
(** A computation on the open session at [rel]; [expect] panics without one. *)
Definition on_session {A} (rel : RawPath)
    (f : CollaborativeDocument → CollaborativeDocument * (VaultError + A)) : WM A := λ v fs,
  match vs_docs v !! rel with
  | None => (v, ([], inl Panicked))
  | Some s => let '(s, r) := f s in (map_docs <[rel := s]> v, ([], r))
  end.
Definition read_session {A} (rel : RawPath) (f : CollaborativeDocument → VaultError + A) : WM A := λ v fs,
  (v, ([], match vs_docs v !! rel with None => inl Panicked | Some s => f s end)).
(** [for x in l { s = f(s, x)?; }]. *)
Fixpoint wm_fold {A S} (f : S → A → WM S) (l : list A) (s : S) : WM S :=
  match l with
  | [] => mret s
  | x :: l => s ← f s x; wm_fold f l s
  end.

(** A program on the storage at a place; [Storage::open] creates its directory. *)
Definition in_storage {R} (p : Place) (m : Disk → list Action * R) : FP R := λ fs,
  let '(l, r) := m (store_at p fs) in (FsStore p <$> l, inr r).
Definition open_storage (p : Place) : FP unit := act (FsStore p (CreateDir Root)).

(** [hash_bytes]. *)
Definition hash_bytes (b : list Byte.byte) : N :=
  fold_left (fnv_step 64 0x00000100000001b3) b 0xcbf29ce484222325%N.
Definition disk_fingerprint (p : Place) : FP (option N) :=
  content ← inspect (fs_read p); mret (hash_bytes <$> content).
Definition hash_string (content : ustring) : N := hash_bytes (str_bytes (utf8 content)).

(** [atomic_write_markdown]. *)
Definition atomic_write_markdown (p : Place) (content : list Byte.byte) : FP unit :=
  let temporary := parent p ++ [String.append "." (String.append (default "markdown"%string (file_name p))
    ".md-crdt.tmp")] in
  _ ← act (FsWrite temporary content);
  act (FsRename temporary p).

(** The errors of a batch, of the ingestion, of a session. *)
Definition of_batch (e : BatchError) : VaultError :=
  match e with
  | BatchDocumentIdMismatch expected actual => DocumentIdMismatch expected actual
  | BatchStaleRevision expected actual => VaultStaleRevision expected actual
  | BatchTargetPrecondition i source => VaultTargetPrecondition i source
  | BatchSnapshot e => VaultSnapshot e
  | BatchSession e => VaultSessionError e
  | BatchDelta => VaultRebaseRequired
  | BatchCodec message => VaultCodec message
  | BatchSerialization => Serialization
  end.
Definition of_failure (e : VaultFailure) : VaultError :=
  match e with
  | Ingest.VaultSession e => VaultSessionError e
  | UnsupportedIngestBlock what => UnsupportedIngest what
  | VaultPanic => Panicked
  end.
Definition map_error {E A} (f : E → VaultError) (r : E + A) : VaultError + A :=
  match r with inl e => inl (f e) | inr x => inr x end.
Definition map_failure {E A S} (f : E → VaultError) (x : S * (E + A)) : S * (VaultError + A) :=
  (x.1, map_error f x.2).

(** ** Results *)

Record DocumentHandle := mkHandle {
  hd_vault_id : N;
  hd_document_id : DocumentId;
  hd_revision : RevisionToken;
  hd_disk_fingerprint : option N;
}.
Record LocalEditOutcome (T : Type) := mkLocalEdit { le_value : T; le_changes : ChangeSummary }.
Arguments mkLocalEdit {T}.
Record RemoteApplyOutcome := mkRemoteApply {
  ra_applied : list OpId;
  ra_buffered : list OpId;
  ra_changes : ChangeSummary;
}.
Record BatchPreview := mkPreview {
  pv_document_id : DocumentId;
  pv_revision : RevisionToken;
  pv_token : list Byte.byte;
  pv_changes : ChangeSummary;
}.
Record IngestOutcome := mkIngest { in_changed : bool; in_changes : ChangeSummary }.
Record IngestReport := mkReport { files_noop : nat; files_changed : nat; ops_emitted : nat }.
Record ExportOutcome := mkExportOutcome {
  eo_document_id : DocumentId;
  eo_revision : RevisionToken;
  eo_disk_fingerprint : option N;
  eo_bytes_written : nat;
  eo_changed : bool;
  eo_changes : ChangeSummary;
}.
Record DeletedDocument := mkDeleted { dd_document_id : DocumentId; dd_path : RawPath }.
Record DocumentEditBatch := mkDocumentBatch { db_path : RawPath; db_batch : EditBatch }.
Record DocumentExportRequest := mkExportRequest {
  xr_path : RawPath;
  xr_document_id : DocumentId;
  xr_expected_revision : RevisionToken;
  xr_expected_disk_fingerprint : option N;
}.
Record PreparedExport := mkPreparedExport {
  pe_rel : RawPath;
  pe_document_id : DocumentId;
  pe_markdown : ustring;
  pe_changed : bool;
  pe_before : DocumentOutline;
}.

(** A failure to write or read the snapshot of a session. *)
Inductive StoredError := StoredSnapshot (e : SnapshotError) | StoredStorage (e : StorageError).
Definition of_stored (e : StoredError) : VaultError :=
  match e with StoredSnapshot e => VaultSnapshot e | StoredStorage e => VaultSnapshotStorage e end.

(** [PathBuf::extension] is [md]. *)
Definition is_markdown (p : Place) : bool :=
  bool_decide ((file_name p ≫= λ name, (split_extension name).2) = Some "md"%string).
(** [is_file]. *)
Definition is_file (node : Node) : bool := match node with File _ => true | Store _ => false end.

Definition vault_id_path : Place := [".mdcrdt"; "vault_id"]%string.
Definition peer_id_path : Place := [".mdcrdt"; "peer_id"]%string.

Definition session_set_peer (p : PeerId) (s : CollaborativeDocument) : CollaborativeDocument :=
  if decide (s_peer s = p) then s else rebind_peer p s.
Definition session_set_units (s : CollaborativeDocument) : CollaborativeDocument :=
  if s_unit_mode s then s else set_unit_mode true s.

Section vault.
Context (X : External).

Abbreviation snapshot_bytes := (to_bytes (x_snap_to_vec X)).
Abbreviation capture_outline := (capture_outline (x_list_style X) (x_fence_style X)).
Abbreviation revision_for := (revision_for (x_encode X) snapshot_bytes).
Abbreviation summarize_session_transition :=
  (summarize_session_transition (x_encode X) (x_decode X) (x_list_style X) (x_fence_style X) snapshot_bytes).
Abbreviation read_snapshot := (read_snapshot (x_checksum X) (x_rkyv_access X)).
Abbreviation write_snapshot := (write_snapshot (x_checksum X) (x_rkyv_to_bytes X) (x_rkyv_access X)).

(** ** Stored sessions and stored fingerprints *)

Definition write_to_storage (s : CollaborativeDocument) : Disk → list Action * (StoredError + unit) := λ d,
  match save_snapshot (x_encode X) s with
  | inl e => ([], inl (StoredSnapshot e))
  | inr snap =>
    match snapshot_bytes snap with
    | inl e => ([], inl (StoredSnapshot e))
    | inr b =>
      let '(l, r) := write_snapshot b [] false d in
      (l, match r with inl e => inl (StoredStorage e) | inr _ => inr tt end)
    end
  end.

Definition read_from_storage (d : Disk) : StoredError + CollaborativeDocument :=
  match read_snapshot d with
  | inl e => inl (StoredStorage e)
  | inr (b, _, _) =>
    match from_bytes (x_snap_from_slice X) b with
    | inl e => inl (StoredSnapshot e)
    | inr snap =>
      match restore_from_snapshot (x_inc X) (x_graphemes X) (x_decode X) snap with
      | inl e => inl (StoredSnapshot e)
      | inr s => inr s
      end
    end
  end.

Definition write_session_snapshot (rel : RawPath) (s : CollaborativeDocument) : FP unit :=
  let p := session_storage_path (place rel) in
  _ ← open_storage p;
  r ← in_storage p (write_to_storage s);
  match r with inl e => refuse (of_stored e) | inr _ => mret tt end.

Definition write_last_flushed (rel : RawPath) (state : LastFlushedState) : FP unit :=
  match x_state_to_bytes X state with
  | None => refuse Serialization
  | Some encoded =>
    let p := state_path_for (place rel) in
    _ ← open_storage p;
    r ← in_storage p (write_snapshot encoded [] false);
    match r with inl e => refuse (VaultStorage e) | inr _ => mret tt end
  end.

Definition read_last_flushed (rel : RawPath) : FP (option LastFlushedState) :=
  let p := state_path_for (place rel) in
  _ ← open_storage p;
  r ← inspect (λ fs, read_snapshot (store_at p fs));
  match r with
  | inl Missing => mret None
  | inl e => refuse (VaultStorage e)
  | inr (b, _, _) =>
    match x_state_access X b with None => refuse Serialization | Some state => mret (Some state) end
  end.

(** [fs::read_to_string]. *)
Definition read_to_string (p : Place) : FP ustring :=
  content ← inspect (fs_read p);
  match content ≫= x_from_utf8 X with None => refuse Io | Some text => mret text end.

(** ** The vault without sessions *)

(** [Vault::files]: a walk in the order of the directories. *)
Definition files (fs : Fs) : list Place :=
  x_walk_order X (filter (λ p, Is_true (is_markdown p))
    (filter (λ node, Is_true (is_file node.2)) (map_to_list (fs_nodes fs))).*1).
(** A path below the root, as the walk gives it. *)
Definition below_root (p : Place) : RawPath := Normal <$> p.

(** The body of the loop of [Vault::flush]. *)
Definition flush_file (p : Place) : FP unit :=
  content ← read_to_string p;
  match parse (x_inc X) (x_graphemes X) content with
  | None => refuse Panicked
  | Some doc =>
    write_last_flushed (below_root p)
      (mkFlushed (hash_string content) (fingerprint_document (x_debug_info X) doc))
  end.
Definition flush : FP unit := l ← inspect files; fp_each flush_file l.

Inductive IngestResult := NoOp | Changed.
(** The loop of [Vault::ingest]. *)
Fixpoint ingest_files (l : list Place) (changed : bool) : FP bool :=
  match l with
  | [] => mret changed
  | p :: l =>
    content ← read_to_string p;
    previous ← read_last_flushed (below_root p);
    ingest_files l match previous with
      | Some previous => if decide (content_hash previous = hash_string content) then changed else true
      | None => true
      end
  end.
Definition ingest : FP IngestResult :=
  l ← inspect files; changed ← ingest_files l false;
  mret (if changed : bool then Changed else NoOp).

(** ** Identities *)

(** [Uuid::new_v4]; a uuid that is drawn and not used is lost. *)
Definition draw : WM Uuid := λ v fs,
  (mkVault (vs_vault_id v) (vs_peer v) (vs_docs v) (vs_document_ids v) (vs_revision_cache v) (S (vs_uuids v)),
   ([], inr (x_new_v4 X (vs_uuids v)))).

Abbreviation load_or_create_identity :=
  (load_or_create_identity (x_id_text X) (x_parse_id X) (x_uuid_text X)).

Definition document_id (rel_path : RawPath) : WM DocumentId :=
  rel ← wm_lift (normalize_rel rel_path);
  known ← wm_get (λ v, vs_document_ids v !! rel);
  match known with
  | Some id => mret id
  | None =>
    fresh ← draw; temp ← draw;
    id ← wm_files (load_or_create_identity (document_id_path (place rel)) fresh temp);
    _ ← wm_modify (map_ids <[rel := id]>);
    mret id
  end.

Definition generate_peer_id (hash : N) : PeerId := if decide (hash = 0%N) then 1%N else hash.
Definition parse_peer (text : ustring) : option PeerId :=
  p ← parse_usize (utf8 (trim text)); if decide (p = 0%N) then None else Some p.
Definition peer_text (p : PeerId) : list Byte.byte := str_bytes (String.append (display p) line_break).

Definition load_or_create_peer_id : FP PeerId :=
  found ← inspect (path_exists peer_id_path);
  if found : bool then
    raw ← read_to_string peer_id_path;
    match parse_peer raw with
    | None => refuse (InvalidPeerId (str_bytes (utf8 (trim raw))))
    | Some p => mret p
    end
  else
    let p := generate_peer_id (x_peer_hash X) in
    _ ← act (FsWrite peer_id_path (peer_text p));
    mret p.

Definition recover_transactions : FP RecoveryReport :=
  recover_pending_transactions (x_id_text X) (x_parse_id X) (x_is_uuid X) (x_journal_from_slice X).

(** [VaultSession::open] on an existing root; the session draws its uuids after
    the two of the identity of the vault. *)
Definition open : FP VaultSession :=
  _ ← recover_transactions;
  vault_id ← load_or_create_identity vault_id_path (x_new_v4 X 0) (x_new_v4 X 1);
  p ← load_or_create_peer_id;
  mret (mkVault vault_id p ∅ ∅ ∅ 2).

(** ** Open sessions *)

Definition load_or_create_session (rel : RawPath) : WM CollaborativeDocument :=
  p ← wm_get vs_peer;
  r ← wm_files (_ ← open_storage (session_storage_path (place rel));
                inspect (λ fs, read_from_storage (store_at (session_storage_path (place rel)) fs)));
  match r with
  | inr s => mret (session_set_units (session_set_peer p s))
  | inl (StoredStorage Missing) => mret (session_new p)
  | inl e => wm_throw (of_stored e)
  end.

Definition ensure_session_open (rel : RawPath) : WM unit :=
  _ ← document_id rel;
  known ← wm_get (λ v, vs_docs v !! rel);
  match known with
  | Some _ => mret tt
  | None => s ← load_or_create_session rel; wm_modify (map_docs <[rel := s]>)
  end.

(** [session_mut] and [session] give access to the session at the path that
    they return; the code then reads or changes it. *)
Definition session_mut (rel_path : RawPath) : WM RawPath :=
  rel ← wm_lift (normalize_rel rel_path);
  _ ← ensure_session_open rel;
  _ ← wm_modify (map_cache (delete rel));
  mret rel.
Definition session (rel_path : RawPath) : WM RawPath :=
  rel ← wm_lift (normalize_rel rel_path);
  _ ← ensure_session_open rel;
  mret rel.

Definition is_open (rel_path : RawPath) (v : VaultSession) : bool :=
  match normalize_rel rel_path with
  | inr rel => bool_decide (is_Some (vs_docs v !! rel))
  | inl _ => false
  end.

Definition revision (rel_path : RawPath) : WM RevisionToken :=
  rel ← wm_lift (normalize_rel rel_path);
  _ ← ensure_session_open rel;
  known ← wm_get (λ v, vs_revision_cache v !! rel);
  match known with
  | Some revision => mret revision
  | None =>
    revision ← read_session rel (λ s, map_error of_batch (revision_for s));
    _ ← wm_modify (map_cache <[rel := revision]>);
    mret revision
  end.

Definition document_handle (rel : RawPath) : WM DocumentHandle :=
  document_id ← document_id rel;
  revision ← revision rel;
  vault_id ← wm_get vs_vault_id;
  disk ← wm_files (disk_fingerprint (place rel));
  mret (mkHandle vault_id document_id revision disk).

(** ** Preconditions *)

Definition verify_revision (rel : RawPath) (expected : option RevisionToken) : WM unit :=
  match expected with
  | None => _ ← session rel; mret tt
  | Some expected =>
    actual ← revision rel;
    if decide (actual = expected) then mret tt else wm_throw (VaultStaleRevision expected actual)
  end.

Definition verify_disk (rel : RawPath) (expected : N) : FP unit :=
  actual ← disk_fingerprint (place rel);
  if decide (actual = Some expected) then mret tt else refuse (StaleDisk (Some expected) actual).
(** [if let Some(expected) = expected_disk_fingerprint { self.verify_disk(..)?; }]. *)
Definition verify_disk_if (rel : RawPath) (expected : option N) : WM unit :=
  match expected with None => mret tt | Some expected => wm_files (verify_disk rel expected) end.

Definition save_state (rel_path : RawPath) : WM unit :=
  rel ← wm_lift (normalize_rel rel_path);
  known ← wm_get (λ v, vs_docs v !! rel);
  match known with
  | None => wm_throw (SessionNotOpen (place rel))
  | Some s => wm_files (write_session_snapshot rel s)
  end.
Definition save_all_state : WM unit :=
  docs ← wm_get vs_docs;
  wm_files (fp_each (λ x, write_session_snapshot x.1 x.2) (btree_iter docs)).
Definition open_paths (v : VaultSession) : list RawPath := btree_keys (vs_docs v).

Definition close (rel_path : RawPath) : WM unit :=
  rel ← wm_lift (normalize_rel rel_path);
  wm_modify (λ v, map_cache (delete rel) (map_docs (delete rel) v)).

(** ** Queries *)

Definition vault_descriptor_page (rel_path : RawPath) (parent : option BlockId)
    (cursor : option DescriptorCursor) (limit : N) : WM DescriptorPage :=
  rel ← wm_lift (normalize_rel rel_path);
  document_id ← document_id rel;
  revision ← revision rel;
  rel ← session rel;
  read_session rel (λ s, map_error VaultDescriptor
    (descriptor_page (x_list_style X) (x_fence_style X) (s_document s) document_id revision parent cursor limit)).

(** A query of the document, which may rebuild the cached index. *)
Definition in_document {A} (m : TM A) (s : CollaborativeDocument) : CollaborativeDocument * (VaultError + A) :=
  let '(d, r) := m (s_document s) in (set_document d s, map_error VaultTarget r).

Definition vault_text_point (rel_path : RawPath) (block_id : BlockId) (grapheme_offset : nat) : WM TextPoint :=
  rel ← session rel_path; on_session rel (in_document (text_point block_id grapheme_offset)).
Definition vault_text_range (rel_path : RawPath) (block_id : BlockId) (first last : nat) : WM TextRange :=
  rel ← session rel_path; on_session rel (in_document (text_range block_id first last)).
Definition vault_resolve_text_point (rel_path : RawPath) (point : TextPoint) : WM nat :=
  rel ← session rel_path;
  on_session rel (in_document (resolve_text_point (x_list_style X) (x_fence_style X) point)).
Definition vault_resolve_text_range (rel_path : RawPath) (range : TextRange) : WM (nat * nat) :=
  rel ← session rel_path;
  on_session rel (in_document (resolve_text_range (x_list_style X) (x_fence_style X) range)).
Definition vault_preconditions_for_edit (rel_path : RawPath) (edit : WorkspaceEdit) :
    WM (list TargetPrecondition) :=
  rel ← session rel_path;
  on_session rel (in_document (preconditions_for_edit (x_list_style X) (x_fence_style X) edit)).

Definition project_blocks (rel_path : RawPath) (request : ProjectionRequest) : WM ProjectionPage :=
  rel ← wm_lift (normalize_rel rel_path);
  actual_document_id ← document_id rel;
  if decide (actual_document_id ≠ req_document_id request)
  then wm_throw (DocumentIdMismatch (req_document_id request) actual_document_id)
  else
    actual_revision ← revision rel;
    if decide (actual_revision ≠ req_base_revision request)
    then wm_throw (VaultStaleRevision (req_base_revision request) actual_revision)
    else read_session rel (λ s, map_error VaultProjection
           (projection_page (x_list_style X) (x_fence_style X) (x_page_bytes X) (x_request_json X)
              (s_document s) request actual_revision)).

(** ** Edits *)

(** What changed since [before], with the new revision in the cache. *)
Definition summarize_and_cache (rel : RawPath) (before : DocumentOutline) (before_vector : StateVector) :
    WM ChangeSummary :=
  changes ← read_session rel (λ s, map_error of_batch (summarize_session_transition before before_vector s));
  _ ← wm_modify (map_cache <[rel := sum_revision changes]>);
  mret changes.

Definition with_local_edit {T} (rel_path : RawPath)
    (edit : CollaborativeDocument → CollaborativeDocument * T) : WM (LocalEditOutcome T) :=
  rel ← session_mut rel_path;
  before ← read_session rel (λ s, inr (capture_outline (s_document s)));
  before_vector ← read_session rel (λ s, inr (session_state_vector s));
  value ← on_session rel (λ s, let '(s, value) := edit s in (s, inr value));
  changes ← summarize_and_cache rel before before_vector;
  _ ← save_state rel;
  mret (mkLocalEdit value changes).

Definition prepare_batch (rel : RawPath) (batch : EditBatch) : WM PreparedBatch :=
  actual_document_id ← document_id rel;
  if decide (actual_document_id ≠ batch_document_id batch)
  then wm_throw (DocumentIdMismatch (batch_document_id batch) actual_document_id)
  else
    actual_revision ← revision rel;
    on_session rel (λ live, map_failure of_batch
      (prepare_edit_batch (x_inc X) (x_graphemes X) (x_encode X) (x_decode X) (x_list_style X)
         (x_fence_style X) snapshot_bytes (x_batch_json X) actual_document_id actual_revision batch live)).

Definition install_session (rel : RawPath) (prepared : PreparedBatch) : WM unit :=
  _ ← wm_modify (map_cache <[rel := rcpt_revision (prep_receipt prepared)]>);
  wm_modify (map_docs <[rel := prep_session prepared]>).
Definition install_prepared_batch (rel : RawPath) (prepared : PreparedBatch) : WM BatchReceipt :=
  _ ← wm_files (write_session_snapshot rel (prep_session prepared));
  _ ← install_session rel prepared;
  mret (prep_receipt prepared).

Definition preview_edit_batch (rel_path : RawPath) (batch : EditBatch) : WM BatchPreview :=
  rel ← wm_lift (normalize_rel rel_path);
  prepared ← prepare_batch rel batch;
  let receipt := prep_receipt prepared in
  mret (mkPreview (batch_document_id batch) (rcpt_revision receipt) (prep_token prepared) (rcpt_changes receipt)).

Definition apply_edit_batch (rel_path : RawPath) (batch : EditBatch) : WM BatchReceipt :=
  rel ← wm_lift (normalize_rel rel_path);
  prepared ← prepare_batch rel batch;
  install_prepared_batch rel prepared.

Definition apply_previewed_batch (rel_path : RawPath) (batch : EditBatch) (preview : list Byte.byte) :
    WM BatchReceipt :=
  rel ← wm_lift (normalize_rel rel_path);
  prepared ← prepare_batch rel batch;
  if decide (prep_token prepared = preview) then install_prepared_batch rel prepared
  else wm_throw PreviewMismatch.

(** The loop that prepares the batches; the paths seen and the prepared batches. *)
Definition prepare_next (acc : gset RawPath * list (RawPath * PreparedBatch)) (request : DocumentEditBatch) :
    WM (gset RawPath * list (RawPath * PreparedBatch)) :=
  let '(seen, prepared) := acc in
  rel ← wm_lift (normalize_rel (db_path request));
  if decide (rel ∈ seen) then wm_throw (DuplicateDocumentBatch (place rel))
  else
    p ← prepare_batch rel (db_batch request);
    mret ({[rel]} ∪ seen, prepared ++ [(rel, p)]).
Definition apply_edit_batches (batches : list DocumentEditBatch) : WM (list BatchReceipt) :=
  '(seen, prepared) ← wm_fold prepare_next batches (∅, []);
  _ ← wm_fold (λ _ x, install_session x.1 x.2) prepared tt;
  _ ← wm_fold (λ _ rel, save_state rel) (x_path_order X seen) tt;
  mret ((λ x, prep_receipt x.2) <$> prepared).

(** ** Files into sessions *)

Definition adopt_text (rel : RawPath) (content : ustring) : WM unit :=
  match parse (x_inc X) (x_graphemes X) content with
  | None => wm_throw Panicked
  | Some parsed => on_session rel (λ s, map_failure of_failure (adopt_parsed parsed s))
  end.

Definition flushed_state (content : ustring) (s : CollaborativeDocument) : LastFlushedState :=
  mkFlushed (hash_string content) (fingerprint_document (x_debug_info X) (s_document s)).
Definition save_fingerprints (rel : RawPath) (content : ustring) : WM unit :=
  state ← read_session rel (λ s, inr (flushed_state content s));
  wm_files (write_last_flushed rel state).

Definition ingest_file_unchecked (rel_path : RawPath) : WM IngestOutcome :=
  rel ← wm_lift (normalize_rel rel_path);
  found ← wm_files (inspect (path_exists (place rel)));
  if negb found then wm_throw (PathDoesNotExist (place rel))
  else
    content ← wm_files (read_to_string (place rel));
    _ ← session_mut rel;
    before ← read_session rel (λ s, inr (capture_outline (s_document s)));
    before_vector ← read_session rel (λ s, inr (session_state_vector s));
    previous ← wm_files (read_last_flushed rel);
    if decide (content_hash <$> previous = Some (hash_string content)) then
      _ ← session_mut rel;
      has_source ← read_session rel (λ s, inr (bool_decide (is_Some (doc_source (s_document s)))));
      _ ← wm_when (negb has_source) (_ ← session_mut rel; _ ← adopt_text rel content; save_state rel);
      changes ← summarize_and_cache rel before before_vector;
      mret (mkIngest false changes)
    else
      _ ← on_session rel (λ s, map_failure of_failure
            (ingest_content (x_inc X) (x_graphemes X) (x_encode X) (x_debug_info X) (x_key_order X)
               (x_id_order X) content s));
      _ ← save_state rel;
      _ ← save_fingerprints rel content;
      changes ← summarize_and_cache rel before before_vector;
      mret (mkIngest true changes).

(** One round of the loop of [ingest_all]. *)
Definition ingest_next (report : IngestReport) (file : Place) : WM IngestReport :=
  outcome ← ingest_file_unchecked (below_root file);
  mret (if in_changed outcome
        then mkReport (files_noop report) (S (files_changed report))
               (ops_emitted report + operation_count (in_changes outcome))
        else mkReport (S (files_noop report)) (files_changed report) (ops_emitted report)).
Definition ingest_all : WM IngestReport :=
  l ← wm_files (inspect files); wm_fold ingest_next l (mkReport 0 0 0).

Definition ingest_markdown (rel_path : RawPath) (expected_revision : option RevisionToken)
    (expected_disk : option N) : WM IngestOutcome :=
  rel ← wm_lift (normalize_rel rel_path);
  _ ← verify_revision rel expected_revision;
  _ ← verify_disk_if rel expected_disk;
  ingest_file_unchecked rel.
Definition refresh_markdown (rel_path : RawPath) (expected_revision : option RevisionToken)
    (expected_disk : option N) : WM IngestOutcome :=
  rel ← wm_lift (normalize_rel rel_path);
  ingest_markdown rel expected_revision expected_disk.

Definition open_document (rel_path : RawPath) : WM DocumentHandle :=
  rel ← wm_lift (normalize_rel rel_path);
  _ ← document_id rel;
  rel ← session rel;
  session_empty ← read_session rel (λ s, inr (bool_decide (blocks_in_order (s_document s) = [])));
  needs_ingest ← (if session_empty : bool then mret true
                  else previous ← wm_files (read_last_flushed rel); mret (bool_decide (previous = None))) : WM bool;
  _ ← wm_when needs_ingest (_ ← ingest_file_unchecked rel; mret tt);
  document_handle rel.

Definition create_markdown (rel_path : RawPath) (markdown : ustring) : WM DocumentHandle :=
  rel ← wm_lift (normalize_rel rel_path);
  found ← wm_files (inspect (path_exists (place rel)));
  if found : bool then wm_throw (PathAlreadyExists (place rel))
  else
    _ ← wm_files (atomic_write_markdown (place rel) (str_bytes (utf8 markdown)));
    open_document rel.

(** ** Sessions into files *)

Definition serialized (s : CollaborativeDocument) : VaultError + ustring :=
  match serialize Exact (s_document s) with None => inl Panicked | Some text => inr text end.

(** The session takes over the text as its source; fingerprints and snapshot. *)
Definition record_export (rel : RawPath) (markdown : ustring) : WM unit :=
  _ ← wm_modify (map_cache (delete rel));
  _ ← adopt_text rel markdown;
  _ ← save_fingerprints rel markdown;
  save_state rel.
Definition export_outcome (rel : RawPath) (document_id : DocumentId) (markdown : ustring) (changed : bool)
    (before : DocumentOutline) : WM ExportOutcome :=
  revision ← revision rel;
  after ← read_session rel (λ s, inr (capture_outline (s_document s)));
  disk ← wm_files (disk_fingerprint (place rel));
  mret (mkExportOutcome document_id revision disk (length (str_bytes (utf8 markdown))) changed
          (summarize_outline_change before after 0 revision)).

Definition export_markdown (rel_path : RawPath) (expected_revision : RevisionToken) (expected_disk : option N) :
    WM ExportOutcome :=
  rel ← wm_lift (normalize_rel rel_path);
  _ ← verify_revision rel (Some expected_revision);
  _ ← verify_disk_if rel expected_disk;
  before ← read_session rel (λ s, inr (capture_outline (s_document s)));
  markdown ← read_session rel serialized;
  prior ← wm_files (inspect (fs_read (place rel)));
  let changed := bool_decide (prior ≠ Some (str_bytes (utf8 markdown))) in
  _ ← wm_when changed (wm_files (atomic_write_markdown (place rel) (str_bytes (utf8 markdown))));
  _ ← record_export rel markdown;
  document_id ← document_id rel;
  export_outcome rel document_id markdown changed before.

(** The open session, its revision and its identity move to another path. *)
Definition move_entries (from to : RawPath) (document_id : DocumentId) : WM unit :=
  moved ← wm_get (λ v, vs_docs v !! from);
  _ ← wm_modify (map_docs (λ m, match moved with Some s => <[to := s]> (delete from m) | None => m end));
  cached ← wm_get (λ v, vs_revision_cache v !! from);
  _ ← wm_modify (map_cache (λ m, match cached with Some r => <[to := r]> (delete from m) | None => m end));
  wm_modify (map_ids (λ m, <[to := document_id]> (delete from m))).

Definition rename_markdown (from to : RawPath) (expected_revision : RevisionToken) (expected_disk : option N) :
    WM DocumentHandle :=
  from ← wm_lift (normalize_rel from);
  to ← wm_lift (normalize_rel to);
  found ← wm_files (inspect (path_exists (place to)));
  if found : bool then wm_throw (PathAlreadyExists (place to))
  else
    _ ← verify_revision from (Some expected_revision);
    _ ← verify_disk_if from expected_disk;
    document_id ← document_id from;
    _ ← save_state from;
    journal_id ← draw;
    _ ← wm_files (rename_files (x_id_text X) (x_parse_id X) (x_uuid_text X) (x_journal_to_vec X)
          (place from) (place to) document_id journal_id);
    _ ← move_entries from to document_id;
    document_handle to.

Definition delete_markdown (rel_path : RawPath) (expected_revision : RevisionToken) (expected_disk : option N) :
    WM DeletedDocument :=
  rel ← wm_lift (normalize_rel rel_path);
  _ ← verify_revision rel (Some expected_revision);
  _ ← verify_disk_if rel expected_disk;
  document_id ← document_id rel;
  journal_id ← draw;
  _ ← wm_files (delete_files (x_uuid_text X) (x_journal_to_vec X) (place rel) document_id journal_id);
  _ ← wm_modify (map_docs (delete rel));
  _ ← wm_modify (map_ids (delete rel));
  _ ← wm_modify (map_cache (delete rel));
  mret (mkDeleted document_id rel).

(** ** Several documents at once *)

Definition prepare_export (acc : gset RawPath * list PreparedExport) (request : DocumentExportRequest) :
    WM (gset RawPath * list PreparedExport) :=
  let '(seen, prepared) := acc in
  rel ← wm_lift (normalize_rel (xr_path request));
  if decide (rel ∈ seen) then wm_throw (DuplicateDocumentBatch (place rel))
  else
    actual_document_id ← document_id rel;
    if decide (actual_document_id ≠ xr_document_id request)
    then wm_throw (DocumentIdMismatch (xr_document_id request) actual_document_id)
    else
      _ ← verify_revision rel (Some (xr_expected_revision request));
      _ ← verify_disk_if rel (xr_expected_disk_fingerprint request);
      markdown ← read_session rel serialized;
      prior ← wm_files (inspect (fs_read (place rel)));
      before ← read_session rel (λ s, inr (capture_outline (s_document s)));
      mret ({[rel]} ∪ seen, prepared ++
        [mkPreparedExport rel (xr_document_id request) markdown
           (bool_decide (prior ≠ Some (str_bytes (utf8 markdown)))) before]).

Definition finalize_export (outcomes : list ExportOutcome) (export : PreparedExport) : WM (list ExportOutcome) :=
  _ ← record_export (pe_rel export) (pe_markdown export);
  outcome ← export_outcome (pe_rel export) (pe_document_id export) (pe_markdown export) (pe_changed export)
              (pe_before export);
  mret (outcomes ++ [outcome]).
Definition finalize_exports (prepared : list PreparedExport) : WM (list ExportOutcome) :=
  wm_fold finalize_export prepared [].

(** [Err(recoverable_error(journal, error))] when the transaction has a journal. *)
Definition wm_recoverable {A} (transaction : OpenExport) (m : WM A) : WM A := λ v fs,
  match m v fs, transaction with
  | (v, (l, inl e)), Some (journal, _) => (v, (l, inl (RecoverableTransaction journal e)))
  | x, _ => x
  end.
Definition pending_export (export : PreparedExport) : PendingExport :=
  mkPendingExport (place (pe_rel export)) (str_bytes (utf8 (pe_markdown export))).

(** The files are published, the sessions take over what was published. *)
Definition publish_exports (prepared : list PreparedExport) : WM (list ExportOutcome) :=
  transaction_id ← draw;
  journal_id ← draw;
  transaction ← wm_files (publish_begin (x_uuid_text X) (x_journal_to_vec X) transaction_id journal_id
    (pending_export <$> filter (λ export, Is_true (pe_changed export)) prepared));
  outcomes ← wm_recoverable transaction (finalize_exports prepared);
  _ ← wm_files (publish_end transaction);
  mret outcomes.

Definition export_markdown_transaction (requests : list DocumentExportRequest) : WM (list ExportOutcome) :=
  '(_, prepared) ← wm_fold prepare_export requests (∅, []);
  _ ← wm_fold (λ _ export, save_state (pe_rel export)) prepared tt;
  publish_exports prepared.

(** ** Synchronisation *)

Definition vault_state_vector (rel_path : RawPath) : WM StateVector :=
  rel ← session rel_path; read_session rel (λ s, inr (session_state_vector s)).
Definition vault_encode_changes_since (rel_path : RawPath) (since : StateVector) : WM ChangeMessage :=
  rel ← session rel_path;
  read_session rel (λ s, map_error (λ _, VaultRebaseRequired) (encode_changes_since since (s_sync s))).
Definition vault_sync_since (rel_path : RawPath) (since : StateVector) : WM SyncResponse :=
  rel ← session rel_path;
  read_session rel (λ s, map_error VaultSnapshot (sync_since (x_encode X) since s)).

Definition vault_apply_remote (rel_path : RawPath) (message : ChangeMessage) (limits : ValidationLimits) :
    WM RemoteApplyOutcome :=
  rel ← session_mut rel_path;
  before ← read_session rel (λ s, inr (capture_outline (s_document s)));
  before_vector ← read_session rel (λ s, inr (session_state_vector s));
  result ← on_session rel (λ s, map_failure VaultSessionError
             (apply_remote (x_inc X) (x_graphemes X) (x_decode X) message limits s));
  changes ← summarize_and_cache rel before before_vector;
  _ ← save_state rel;
  mret (mkRemoteApply (sres_applied result) (sres_buffered result) changes).
End vault.
