(* ===== verification/VaultProps.v ===== *)
(** * Vault sessions: cached revisions and stale requests

    A vault caches the revision of each open session.  Here: in every state that
    the operations reach, whatever other processes do to the files, a cached
    revision is the revision of the session that is open, and the identity of
    every open document is known; so a request that names another revision is
    refused before anything is written. *)

From S2P Require Import Prelude Core Sequence Mark MarkOps Table Frontmatter Codec Text Draft.
From S2P Require Import Block Document DocumentCache DocumentTwin Sync SessionWire Session SessionTrace.
From S2P Require Import Snapshot Storage Match Chars Markdown Serialize Ingest Cursor Descriptor Pages.
From S2P Require Import Outline Target Projection Batch BatchProps Journal Vault.
From Stdlib Require Import Strings.Byte.

Section vault.
Context (X : External).
Abbreviation snapshot_bytes := (to_bytes (x_snap_to_vec X)).
Abbreviation revision_for := (revision_for (x_encode X) snapshot_bytes).

(** ** The invariant *)

Record sound (v : VaultSession) : Prop := {
  so_cached : ∀ rel r, vs_revision_cache v !! rel = Some r →
    ∃ s, vs_docs v !! rel = Some s ∧ revision_for s = inr r;
  so_known : ∀ rel, is_Some (vs_docs v !! rel) → is_Some (vs_document_ids v !! rel);
}.

(** Some identities are known, and the cache is as [C] says. *)
Definition about (K : list RawPath) (C : gmap RawPath RevisionToken → Prop) (v : VaultSession) : Prop :=
  (∀ rel, rel ∈ K → is_Some (vs_document_ids v !! rel)) ∧ C (vs_revision_cache v).
Definition anything (c : gmap RawPath RevisionToken) : Prop := True.
Definition without (rel : RawPath) (c : gmap RawPath RevisionToken) : Prop := c !! rel = None.
Definition within (rel : RawPath) (c : gmap RawPath RevisionToken) : Prop := is_Some (c !! rel).

(** ** Triples *)

Definition keeps {A} (P : VaultSession → Prop) (m : WM A) (Q : A → VaultSession → Prop) : Prop :=
  ∀ v fs, sound v → P v →
    sound (m v fs).1 ∧ match (m v fs).2.2 with inr x => Q x (m v fs).1 | inl _ => True end.

Lemma keeps_bind {A B} P Q R (m : WM A) (k : A → WM B) :
  keeps P m Q → (∀ x, keeps (Q x) (k x) R) → keeps P (x ← m; k x) R.
Proof.
  intros Hm Hk v fs Hv HP. unfold mbind, WM_bind. destruct (Hm v fs Hv HP) as [H1 H2].
  destruct (m v fs) as [v1 [l [e|x]]]; simpl in *; [done|].
  destruct (Hk x v1 (fs_exec_all l fs) H1 H2) as [H3 H4].
  by destruct (k x v1 (fs_exec_all l fs)) as [v2 [l2 r]].
Qed.
Lemma keeps_ret {A} (P : VaultSession → Prop) (x : A) (Q : A → VaultSession → Prop) :
  (∀ v, P v → Q x v) → keeps P (mret x) Q.
Proof. intros H v fs Hv HP. split; [done|]. by apply H. Qed.
Lemma keeps_throw {A} P e (Q : A → VaultSession → Prop) : keeps P (wm_throw e) Q.
Proof. by intros v fs Hv HP. Qed.
Lemma keeps_lift {A} P (r : VaultError + A) : keeps P (wm_lift r) (λ x v, P v ∧ r = inr x).
Proof. intros v fs Hv HP. split; [done|]. simpl. by destruct r. Qed.
Lemma keeps_get {A} P (f : VaultSession → A) : keeps P (wm_get f) (λ x v, P v ∧ x = f v).
Proof. by intros v fs Hv HP. Qed.
Lemma keeps_files {A} P (m : FP A) : keeps P (wm_files m) (λ _, P).
Proof. intros v fs Hv HP. split; [done|]. simpl. by destruct (m fs).2. Qed.
Lemma keeps_read {A} P rel (f : CollaborativeDocument → VaultError + A) :
  keeps P (read_session rel f) (λ x v, P v ∧ ∃ s, vs_docs v !! rel = Some s ∧ f s = inr x).
Proof.
  intros v fs Hv HP. split; [done|]. simpl. destruct (vs_docs v !! rel) as [s|] eqn:E; [|done].
  destruct (f s) eqn:F; [done|]. split; [done|]. by exists s.
Qed.
Lemma keeps_pre {A} (P P' : VaultSession → Prop) (m : WM A) Q : (∀ v, P' v → P v) → keeps P m Q → keeps P' m Q.
Proof. intros HP Hm v fs Hv H. apply Hm; [done|by apply HP]. Qed.
Lemma keeps_post {A} P (m : WM A) (Q Q' : A → VaultSession → Prop) :
  keeps P m Q → (∀ x v, Q x v → Q' x v) → keeps P m Q'.
Proof.
  intros Hm HQ v fs Hv H. destruct (Hm v fs Hv H) as [H1 H2]. split; [done|]. destruct (m v fs).2.2; [done|by apply HQ].
Qed.
Lemma keeps_fact {A} (φ : Prop) P (m : WM A) Q : (φ → keeps P m Q) → keeps (λ v, P v ∧ φ) m Q.
Proof. intros H v fs Hv [HP Hφ]. by apply H. Qed.
Lemma keeps_when P b (m : WM unit) : keeps P m (λ _, P) → keeps P (wm_when b m) (λ _, P).
Proof. intros Hm. destruct b; [done|]. by apply keeps_ret. Qed.
Lemma keeps_fold {A S} (I : S → VaultSession → Prop) (f : S → A → WM S) l :
  (∀ s x, keeps (I s) (f s x) I) → ∀ s, keeps (I s) (wm_fold f l s) I.
Proof.
  intros Hf. induction l as [|x l IH]; intros s; simpl; [by apply keeps_ret|].
  eapply keeps_bind; [apply Hf|apply IH].
Qed.

(** ** Changes of the state *)

Lemma sound_session rel s s' v :
  sound v → vs_docs v !! rel = Some s →
  (revision_for s' = revision_for s ∨ vs_revision_cache v !! rel = None) →
  sound (map_docs <[rel := s']> v).
Proof.
  intros [Hc Hk] Hs Hr. split; simpl.
  - intros q r Hq. destruct (Hc q r Hq) as (sq & Hsq & Hrev). destruct (decide (q = rel)) as [->|Hne].
    + exists s'. rewrite lookup_insert_eq. split; [done|]. destruct Hr as [->|Hr]; congruence.
    + exists sq. by rewrite lookup_insert_ne.
  - intros q Hq. destruct (decide (q = rel)) as [->|Hne]; [by apply Hk|]. rewrite lookup_insert_ne in Hq by done.
    by apply Hk.
Qed.

(** A new session replaces the one at a path, with its revision. *)
Lemma sound_install rel s r v :
  sound v → is_Some (vs_document_ids v !! rel) → revision_for s = inr r →
  sound (map_docs <[rel := s]> (map_cache <[rel := r]> v)).
Proof.
  intros [Hc Hk] Hid Hr. split; simpl.
  - intros q r' Hq. destruct (decide (q = rel)) as [->|Hne].
    + rewrite lookup_insert_eq in Hq. simplify_eq. exists s. by rewrite lookup_insert_eq.
    + rewrite lookup_insert_ne in Hq by done. rewrite lookup_insert_ne by done. by apply Hc.
  - intros q Hq. destruct (decide (q = rel)) as [->|Hne]; [done|]. rewrite lookup_insert_ne in Hq by done. by apply Hk.
Qed.

Lemma sound_uncache rel v : sound v → sound (map_cache (delete rel) v).
Proof. intros [Hc Hk]. split; [|done]. simpl. intros q r [_ Hq]%lookup_delete_Some. by apply Hc. Qed.
Lemma sound_forget rel v ids :
  sound v → (∀ q, q ≠ rel → ids !! q = vs_document_ids v !! q) →
  sound (mkVault (vs_vault_id v) (vs_peer v) (delete rel (vs_docs v)) ids (delete rel (vs_revision_cache v)) (vs_uuids v)).
Proof.
  intros [Hc Hk] Hids. split; simpl.
  - intros q r [Hne Hq]%lookup_delete_Some. destruct (Hc q r Hq) as (s & Hs & Hr). exists s.
    by rewrite lookup_delete_ne.
  - intros q [s [Hne Hq]%lookup_delete_Some]. rewrite Hids by done. apply Hk. eauto.
Qed.
Lemma sound_open rel s v :
  sound v → vs_docs v !! rel = None → is_Some (vs_document_ids v !! rel) → sound (map_docs <[rel := s]> v).
Proof.
  intros [Hc Hk] Hn Hid. split; simpl.
  - intros q r Hq. destruct (Hc q r Hq) as (sq & Hsq & Hr). exists sq. rewrite lookup_insert_ne; [done|congruence].
  - intros q Hq. destruct (decide (q = rel)) as [->|Hne]; [done|]. rewrite lookup_insert_ne in Hq by done. by apply Hk.
Qed.

Lemma sound_cache rel s r v :
  sound v → vs_docs v !! rel = Some s → revision_for s = inr r → sound (map_cache <[rel := r]> v).
Proof.
  intros [Hc Hk] Hs Hr. split; [|done]. simpl. intros q r' Hq. destruct (decide (q = rel)) as [->|Hne].
  - rewrite lookup_insert_eq in Hq. simplify_eq. eauto.
  - rewrite lookup_insert_ne in Hq by done. by apply Hc.
Qed.

Lemma keeps_modify P f (Q : unit → VaultSession → Prop) :
  (∀ v, sound v → P v → sound (f v) ∧ Q tt (f v)) → keeps P (wm_modify f) Q.
Proof. intros H v fs Hv HP. by apply H. Qed.
Lemma keeps_uncache K C rel :
  keeps (about K C) (wm_modify (map_cache (delete rel))) (λ _, about K (without rel)).
Proof.
  apply keeps_modify. intros v Hv [HK _]. split; [by apply sound_uncache|]. split; [done|].
  unfold without. simpl. apply lookup_delete_eq.
Qed.
Lemma keeps_draw K C : keeps (about K C) (draw X) (λ _, about K C).
Proof. intros v fs [Hc Hk] HP. split; [by split|done]. Qed.

(** A computation on a session whose revision is not cached, and one that does
    not change the revision. *)
Lemma keeps_session {A} K C rel (f : CollaborativeDocument → CollaborativeDocument * (VaultError + A)) :
  (∀ c, C c → without rel c) → keeps (about K C) (on_session rel f) (λ _, about K C).
Proof.
  intros HC v fs Hv [HK Hc]. unfold on_session. destruct (vs_docs v !! rel) as [s|] eqn:E; [|done].
  destruct (f s) as [s' r]. simpl. split; [|by destruct r]. eapply sound_session; [done|exact E|]. right. by apply HC.
Qed.
Lemma keeps_steady {A} K C rel (f : CollaborativeDocument → CollaborativeDocument * (VaultError + A)) :
  (∀ s, revision_for (f s).1 = revision_for s) →
  keeps (about K C) (on_session rel f) (λ x v, about K C v ∧ ∃ s, (f s).2 = inr x).
Proof.
  intros Hf v fs Hv HP. unfold on_session. destruct (vs_docs v !! rel) as [s|] eqn:E; [|done].
  specialize (Hf s). destruct (f s) as [s' r] eqn:F. simpl in *.
  split; [eapply sound_session; eauto|]. destruct r; [done|]. split; [done|]. exists s. by rewrite F.
Qed.

Lemma norm_eq p q : normalize_rel p = inr q → q = p.
Proof. unfold normalize_rel. repeat case_decide; by intros [=]. Qed.
End vault.
Ltac keeps_path := eapply keeps_bind; [apply keeps_lift|]; intros ?; apply keeps_fact; intros ->%norm_eq.
Tactic Notation "keeps_then" uconstr(H) := eapply keeps_bind; [eapply H|]; intros ?.

(** ** The operations *)

Section operations.
Context (X : External).
Abbreviation snapshot_bytes := (to_bytes (x_snap_to_vec X)).
Abbreviation revision_for := (revision_for (x_encode X) snapshot_bytes).
Abbreviation keeps := (keeps X).
Abbreviation sound := (sound X).

Lemma keeps_document_id K C rel : keeps (about K C) (document_id X rel) (λ _, about (rel :: K) C).
Proof.
  unfold document_id. keeps_path. keeps_then keeps_get. destruct x as [id|].
  - apply keeps_ret. intros v [[HK HC] E]. split; [|done]. intros q [->|Hq]%elem_of_cons; [by exists id|by apply HK].
  - eapply keeps_pre; [intros v [H _]; exact H|]. keeps_then keeps_draw. keeps_then keeps_draw. keeps_then keeps_files.
    eapply keeps_bind with (Q := λ _, about (rel :: K) C); [|intros []; by apply keeps_ret].
    apply keeps_modify. intros v [Hc Hk] [HK HC].
    assert (∀ q, is_Some (vs_document_ids v !! q) → is_Some (vs_document_ids (map_ids <[rel:=x1]> v) !! q)) as Hgrow.
    { intros q Hq. simpl. destruct (decide (q = rel)) as [->|Hne]; [by rewrite lookup_insert_eq|].
      by rewrite lookup_insert_ne. }
    split; [split; [done|]; intros q Hq; by apply Hgrow, Hk|]. split; [|done].
    intros q [->|Hq]%elem_of_cons; [simpl; by rewrite lookup_insert_eq|by apply Hgrow, HK].
Qed.

Lemma keeps_ensure K C rel : keeps (about K C) (ensure_session_open X rel) (λ _, about (rel :: K) C).
Proof.
  unfold ensure_session_open. keeps_then keeps_document_id. keeps_then keeps_get. destruct x0 as [s|].
  - apply keeps_ret. by intros v [H _].
  - unfold load_or_create_session.
    eapply keeps_bind with (Q := λ _ v, about (rel :: K) C v ∧ None = vs_docs v !! rel).
    + keeps_then keeps_get. eapply keeps_pre; [intros v [H _]; exact H|]. keeps_then keeps_files.
      destruct x1 as [[e|[]]|s]; first [apply keeps_throw|by apply keeps_ret].
    + intros s. apply keeps_modify. intros v Hv [[HK HC] E]. split; [|done]. apply sound_open; [done..|].
      apply HK. left.
Qed.

Lemma about_tail K C rel v : about (rel :: K) C v → about K C v.
Proof. intros [HK HC]. split; [|done]. intros q Hq. apply HK. by right. Qed.
Lemma about_weaken (K K' : list RawPath) (C C' : gmap RawPath RevisionToken → Prop) v :
  K' ⊆ K → (∀ c, C c → C' c) → about K C v → about K' C' v.
Proof. intros HK HC [H1 H2]. split; [|by apply HC]. intros q Hq. by apply H1, HK. Qed.

Lemma keeps_use K C rel : keeps (about K C) (session X rel) (λ p v, p = rel ∧ about (rel :: K) C v).
Proof. unfold session. keeps_path. keeps_then keeps_ensure. by apply keeps_ret. Qed.
Lemma keeps_mut K C rel :
  keeps (about K C) (session_mut X rel) (λ p v, p = rel ∧ about (rel :: K) (without rel) v).
Proof.
  unfold session_mut. keeps_path. keeps_then keeps_ensure. keeps_then keeps_uncache. by apply keeps_ret.
Qed.

(** The revision of a document is that of its open session, and it is cached. *)
Lemma keeps_revision K rel :
  keeps (about K anything) (revision X rel)
    (λ r v, about (rel :: K) (within rel) v ∧ ∃ s, vs_docs v !! rel = Some s ∧ revision_for s = inr r).
Proof.
  unfold revision. keeps_path. keeps_then keeps_ensure. keeps_then keeps_get. destruct x0 as [r|].
  - intros v fs Hv [[HK _] E]. split; [done|]. simpl. symmetry in E.
    destruct (so_cached _ _ Hv rel r E) as (s & Hs & Hr). split; [|by exists s]. split; [done|]. by exists r.
  - eapply keeps_pre; [intros v [H _]; exact H|]. keeps_then keeps_read.
    eapply keeps_bind with (Q := λ _ v, about (rel :: K) (within rel) v ∧ ∃ s, vs_docs v !! rel = Some s ∧ revision_for s = inr x0);
      [|intros []; by apply keeps_ret].
    apply keeps_modify. intros v Hv [[HK _] (s & Hs & Hr)].
    assert (revision_for s = inr x0) as Hr' by (destruct (Batch.revision_for _ _ s); simpl in Hr; congruence).
    split; [by eapply sound_cache|]. split; [|by exists s]. split; [done|]. unfold within. simpl. by rewrite lookup_insert_eq.
Qed.

Lemma keeps_revision' K rel : keeps (about K anything) (revision X rel) (λ _, about (rel :: K) (within rel)).
Proof. eapply keeps_post; [apply keeps_revision|]. by intros r v [H _]. Qed.
Lemma about_any K C v : about K C v → about K anything v.
Proof. by intros [H _]. Qed.

Lemma keeps_verify K C rel expected :
  keeps (about K C) (verify_revision X rel expected) (λ _, about (rel :: K) anything).
Proof.
  destruct expected as [r|]; simpl.
  - eapply keeps_pre; [apply about_any|]. keeps_then keeps_revision'. case_decide; [|apply keeps_throw].
    apply keeps_ret. intros v. apply about_any.
  - keeps_then keeps_use. apply keeps_ret. intros v [_ H]. by eapply about_any.
Qed.
Lemma keeps_verify_within K C rel r :
  keeps (about K C) (verify_revision X rel (Some r)) (λ _, about (rel :: K) (within rel)).
Proof.
  simpl. eapply keeps_pre; [apply about_any|]. keeps_then keeps_revision'. case_decide; [by apply keeps_ret|apply keeps_throw].
Qed.
Lemma keeps_disk P rel expected : keeps P (verify_disk_if rel expected) (λ _, P).
Proof. destruct expected; [apply keeps_files|by apply keeps_ret]. Qed.

Lemma keeps_save P rel : keeps P (save_state X rel) (λ _, P).
Proof.
  unfold save_state. eapply keeps_bind; [apply keeps_lift|]. intros q. apply keeps_fact. intros _.
  keeps_then keeps_get. destruct x; [|apply keeps_throw]. eapply keeps_pre; [intros v [H _]; exact H|apply keeps_files].
Qed.

Lemma summary_revision before vector s changes :
  map_error of_batch (summarize_session_transition (x_encode X) (x_decode X) (x_list_style X) (x_fence_style X)
    snapshot_bytes before vector s) = inr changes → revision_for s = inr (sum_revision changes).
Proof.
  destruct (summarize_session_transition _ _ _ _ _ _ _ s) eqn:E; [done|]. intros [= ->]. by apply summarize_spec in E as [? _].
Qed.
Lemma keeps_summary K C rel before vector :
  keeps (about K C) (summarize_and_cache X rel before vector) (λ _, about K anything).
Proof.
  unfold summarize_and_cache. keeps_then keeps_read.
  eapply keeps_bind with (Q := λ _, about K anything); [|intros []; by apply keeps_ret].
  apply keeps_modify. intros v Hv [[HK _] (s & Hs & Hr%summary_revision)]. split; [by eapply sound_cache|done].
Qed.

(** Reading the session, in the middle of an operation. *)
Lemma keeps_look {A} P rel (f : CollaborativeDocument → VaultError + A) :
  keeps P (read_session rel f) (λ _, P).
Proof. eapply keeps_post; [apply keeps_read|]. by intros x v [H _]. Qed.

(** ** Queries and edits *)

Lemma revision_cache_only s d : cache_only (s_document s) d → revision_for (set_document d s) = revision_for s.
Proof. by intros [->| ->]. Qed.
Lemma revision_document {A} (m : TM A) s : steady m → revision_for (in_document m s).1 = revision_for s.
Proof.
  intros Hm. unfold in_document. destruct (Hm (s_document s)) as [Hd _]. destruct (m (s_document s)) as [d r].
  by apply revision_cache_only.
Qed.
Lemma keeps_document {A} K C rel (m : TM A) :
  steady m → keeps (about K C) (on_session rel (in_document m)) (λ _, about K C).
Proof.
  intros Hm. eapply keeps_post; [apply keeps_steady; intros s; by apply revision_document|]. by intros x v [H _].
Qed.
Lemma keeps_query {A} rel (m : TM A) :
  steady m → keeps (about [] anything) (rel ← session X rel; on_session rel (in_document m)) (λ _, about [] anything).
Proof.
  intros Hm. keeps_then keeps_use. intros v fs Hv [-> HP].
  apply (keeps_document [] anything); [done|done|]. by eapply about_tail.
Qed.

(** A prepared batch names the revision of the session it would install. *)
Definition prepared_ok (p : PreparedBatch) : Prop :=
  revision_for (prep_session p) = inr (rcpt_revision (prep_receipt p)).

Lemma keeps_prepare K rel batch :
  keeps (about K anything) (prepare_batch X rel batch) (λ p v, about (rel :: K) anything v ∧ prepared_ok p).
Proof.
  unfold prepare_batch. keeps_then keeps_document_id. case_decide; [apply keeps_throw|].
  keeps_then keeps_revision'. eapply keeps_post; [eapply keeps_pre; [apply about_any|apply keeps_steady]|].
  - intros s. unfold map_failure. simpl.
    destruct (prepare_isolated (x_inc X) (x_graphemes X) (x_encode X) (x_decode X) (x_list_style X) (x_fence_style X)
      snapshot_bytes (x_batch_json X) x x0 batch s) as (d & Hd & ->). by apply revision_cache_only.
  - intros p v [HP (s & Hs)]. split; [by apply about_tail in HP|]. unfold prepared_ok. revert Hs. unfold map_failure. simpl.
    unfold Batch.prepare_edit_batch. case_decide; [done|].
    destruct (validate_batch_targets _ _ _ _ _) as [d [e|]]; simpl; [done|].
    destruct (save_snapshot _ _); simpl; [done|]. destruct (restore_from_snapshot _ _ _ _); simpl; [done|].
    destruct (apply_edits _ _ _ _ _ _ _) as [probe [|]]; simpl; [done|].
    destruct (summarize_session_transition _ _ _ _ _ _ _ probe) eqn:Hsum; simpl; [done|].
    destruct (preview_token _ _); simpl; [done|]. intros [= <-]. simpl. by apply summarize_spec in Hsum as [? _].
Qed.

Lemma keeps_install K rel p :
  rel ∈ K → prepared_ok p → keeps (about K anything) (install_session rel p) (λ _, about K anything).
Proof.
  intros Hrel Hp v fs Hv [HK _]. unfold install_session. simpl. split; [|done].
  apply sound_install; [done|by apply HK|done].
Qed.
Lemma keeps_install_prepared K rel p :
  rel ∈ K → prepared_ok p → keeps (about K anything) (install_prepared_batch X rel p) (λ _, about K anything).
Proof.
  intros Hrel Hp. unfold install_prepared_batch. keeps_then keeps_files. eapply keeps_bind; [by apply keeps_install|]. intros [].
  by apply keeps_ret.
Qed.

Lemma keeps_apply rel batch :
  keeps (about [] anything) (apply_edit_batch X rel batch) (λ _, about [] anything).
Proof.
  unfold apply_edit_batch. keeps_path. keeps_then keeps_prepare. apply keeps_fact. intros Hp.
  eapply keeps_post; [apply keeps_install_prepared; [left|done]|]. intros r v. apply about_tail.
Qed.
Lemma keeps_previewed rel batch token :
  keeps (about [] anything) (apply_previewed_batch X rel batch token) (λ _, about [] anything).
Proof.
  unfold apply_previewed_batch. keeps_path. keeps_then keeps_prepare. apply keeps_fact. intros Hp.
  case_decide; [|apply keeps_throw].
  eapply keeps_post; [apply keeps_install_prepared; [left|done]|]. intros r v. apply about_tail.
Qed.

(** The prepared batches of several documents. *)
Definition all_prepared (acc : gset RawPath * list (RawPath * PreparedBatch)) (v : VaultSession) : Prop :=
  about acc.2.*1 anything v ∧ Forall (λ x, prepared_ok x.2) acc.2.

Lemma keeps_prepare_next acc request :
  keeps (all_prepared acc) (prepare_next X acc request) all_prepared.
Proof.
  destruct acc as [seen l]. unfold prepare_next, all_prepared. apply keeps_fact. simpl. intros Hall.
  keeps_path. case_decide; [apply keeps_throw|]. keeps_then keeps_prepare. apply keeps_fact. intros Hp.
  apply keeps_ret. intros v HP. split; simpl.
  - eapply about_weaken; [|done|exact HP]. rewrite fmap_app. simpl. set_solver.
  - apply Forall_app. split; [done|]. by constructor.
Qed.
Lemma keeps_install_all K l :
  l.*1 ⊆ K → Forall (λ x, prepared_ok x.2) l →
  keeps (about K anything) (wm_fold (λ _ x, install_session x.1 x.2) l tt) (λ _, about K anything).
Proof.
  intros HK Hl. induction Hl as [|[rel p] l Hp Hl IH]; simpl; [by apply keeps_ret|].
  eapply keeps_bind; [apply keeps_install; [apply HK; left|done]|]. intros []. apply IH. intros q Hq. apply HK. by right.
Qed.
Lemma keeps_apply_all batches :
  keeps (about [] anything) (apply_edit_batches X batches) (λ _, about [] anything).
Proof.
  unfold apply_edit_batches. eapply keeps_bind with (Q := all_prepared).
  - eapply keeps_pre; [|apply keeps_fold; intros; apply keeps_prepare_next]. intros v [H _]. split; [by split|constructor].
  - intros [seen l]. apply (keeps_fact _ (Forall (λ x, prepared_ok x.2) l) (about l.*1 anything)). intros Hl.
    eapply keeps_bind; [by apply keeps_install_all|]. intros [].
    eapply keeps_bind; [apply (keeps_fold _ (λ _, about l.*1 anything)); intros; apply keeps_save|].
    intros []. apply keeps_ret. intros v [_ H]. split; [|done].
    intros q Hq. by apply elem_of_nil in Hq.
Qed.

(** ** Files and exports *)

Abbreviation always m := (keeps (about [] anything) m (λ _, about [] anything)).

Lemma about_nothing v : about [] anything v.
Proof. split; [|done]. intros q []%elem_of_nil. Qed.
Lemma always_done {A} P (m : WM A) (Q : A → VaultSession → Prop) : keeps P m Q → keeps P m (λ _, about [] anything).
Proof. intros H. eapply keeps_post; [exact H|]. intros. apply about_nothing. Qed.
Lemma keeps_any {A} P (m : WM A) (Q : A → VaultSession → Prop) : keeps (about [] anything) m Q → keeps P m Q.
Proof. apply keeps_pre. intros v _. apply about_nothing. Qed.

Lemma always_handle rel : always (document_handle X rel).
Proof.
  unfold document_handle. keeps_then keeps_document_id. eapply (always_done _ _ (λ _ _, True)).
  eapply keeps_bind; [apply keeps_revision'|]. intros r.
  keeps_then keeps_get. keeps_then keeps_files. by apply keeps_ret.
Qed.

Lemma keeps_adopt K rel text :
  keeps (about K (without rel)) (adopt_text X rel text) (λ _, about K (without rel)).
Proof. unfold adopt_text. destruct (parse _ _ text); [by apply keeps_session|apply keeps_throw]. Qed.
Lemma keeps_fingerprints P rel text : keeps P (save_fingerprints X rel text) (λ _, P).
Proof. unfold save_fingerprints. keeps_then keeps_look. apply keeps_files. Qed.

Lemma keeps_mut' K C rel : keeps (about K C) (session_mut X rel) (λ _, about K (without rel)).
Proof. eapply keeps_post; [apply keeps_mut|]. intros p v [_ H]. by eapply about_tail. Qed.

Lemma always_ingest rel : always (ingest_file_unchecked X rel).
Proof.
  unfold ingest_file_unchecked. keeps_path. keeps_then keeps_files.
  destruct (negb _); [apply keeps_throw|]. keeps_then keeps_files. keeps_then keeps_mut'.
  do 2 keeps_then keeps_look. keeps_then keeps_files. case_decide.
  - keeps_then keeps_mut'. keeps_then keeps_look. eapply keeps_bind with (Q := λ _, about [] (without rel)).
    + apply keeps_when. keeps_then keeps_mut'. eapply keeps_bind; [apply keeps_adopt|]. intros [].
      apply keeps_save.
    + intros []. keeps_then keeps_summary. by apply keeps_ret.
  - eapply keeps_bind; [by apply keeps_session|]. intros n. keeps_then keeps_save.
    keeps_then keeps_fingerprints. keeps_then keeps_summary. by apply keeps_ret.
Qed.
Lemma always_ingest_all : always (ingest_all X).
Proof.
  unfold ingest_all. keeps_then keeps_files. apply (keeps_fold _ (λ (_ : IngestReport), about [] anything)). intros report file.
  unfold ingest_next. keeps_then always_ingest. by apply keeps_ret.
Qed.
Lemma always_ingest_markdown rel r disk : always (ingest_markdown X rel r disk).
Proof.
  unfold ingest_markdown. keeps_path. keeps_then keeps_verify. keeps_then keeps_disk. apply keeps_any, always_ingest.
Qed.
Lemma always_refresh rel r disk : always (refresh_markdown X rel r disk).
Proof. unfold refresh_markdown. keeps_path. apply always_ingest_markdown. Qed.

Lemma always_open rel : always (open_document X rel).
Proof.
  unfold open_document. keeps_path. keeps_then keeps_document_id. keeps_then keeps_use. apply keeps_any.
  keeps_then keeps_look.
  eapply keeps_bind with (Q := λ _, about [] anything).
  { destruct x1; [by apply keeps_ret|]. keeps_then keeps_files. by apply keeps_ret. }
  intros needs. eapply keeps_bind; [apply keeps_when; keeps_then always_ingest; by apply keeps_ret|]. intros [].
  apply always_handle.
Qed.

Lemma always_create rel text : always (create_markdown X rel text).
Proof.
  unfold create_markdown. keeps_path. keeps_then keeps_files. destruct x; [apply keeps_throw|].
  keeps_then keeps_files. apply keeps_any, always_open.
Qed.

Lemma keeps_record K C rel text : keeps (about K C) (record_export X rel text) (λ _, about K (without rel)).
Proof.
  unfold record_export. eapply keeps_bind; [apply keeps_uncache|]. intros [].
  eapply keeps_bind; [apply keeps_adopt|]. intros []. keeps_then keeps_fingerprints. apply keeps_save.
Qed.
Lemma always_outcome rel id text changed before : always (export_outcome X rel id text changed before).
Proof.
  unfold export_outcome. eapply (always_done _ _ (λ _ _, True)). keeps_then keeps_revision'.
  keeps_then keeps_look. keeps_then keeps_files. by apply keeps_ret.
Qed.
Lemma always_export rel r disk : always (export_markdown X rel r disk).
Proof.
  unfold export_markdown. keeps_path. keeps_then keeps_verify. keeps_then keeps_disk. do 2 keeps_then keeps_look.
  keeps_then keeps_files. eapply keeps_bind; [apply keeps_when, keeps_files|]. intros [].
  keeps_then keeps_record. keeps_then keeps_document_id. apply keeps_any, always_outcome.
Qed.

(** A document moves to a path where none was open. *)
Lemma sound_move from to id v :
  sound v → within from (vs_revision_cache v) →
  sound (map_ids (λ m, <[to := id]> (delete from m))
    (map_cache (λ m, match vs_revision_cache v !! from with Some r => <[to := r]> (delete from m) | None => m end)
      (map_docs (λ m, match vs_docs v !! from with Some s => <[to := s]> (delete from m) | None => m end) v))).
Proof.
  intros [Hc Hk] [r Hr]. destruct (Hc from r Hr) as (s & Hs & Hrev). rewrite Hr, Hs. split; simpl.
  - intros q r' [[<- <-]|[Hne [Hne' Hq]%lookup_delete_Some]]%lookup_insert_Some.
    + exists s. by rewrite lookup_insert_eq.
    + rewrite lookup_insert_ne, lookup_delete_ne by done. by apply Hc.
  - intros q. destruct (decide (q = to)) as [->|Hne]; [by rewrite !lookup_insert_eq|].
    rewrite !lookup_insert_ne by done. intros [x [Hne' Hq]%lookup_delete_Some]. rewrite lookup_delete_ne by done.
    apply Hk. eauto.
Qed.
Lemma keeps_move K from to id :
  keeps (about K (within from)) (move_entries from to id) (λ _, about [] anything).
Proof. intros v fs Hv [HK HC]. split; [exact (sound_move from to id v Hv HC)|apply about_nothing]. Qed.
Lemma always_rename from to r disk : always (rename_markdown X from to r disk).
Proof.
  unfold rename_markdown. do 2 keeps_path. keeps_then keeps_files. destruct x; [apply keeps_throw|].
  keeps_then keeps_verify_within. keeps_then keeps_disk. keeps_then keeps_document_id. keeps_then keeps_save.
  keeps_then keeps_draw. keeps_then keeps_files. keeps_then keeps_move. apply always_handle.
Qed.

Lemma always_delete rel r disk : always (delete_markdown X rel r disk).
Proof.
  unfold delete_markdown. keeps_path. keeps_then keeps_verify. keeps_then keeps_disk. keeps_then keeps_document_id.
  keeps_then keeps_draw. keeps_then keeps_files. intros v fs Hv _. split; [|apply about_nothing].
  refine (sound_forget _ rel v (delete rel (vs_document_ids v)) Hv _). intros q Hq. by rewrite lookup_delete_ne.
Qed.
Lemma always_close rel : always (close rel).
Proof.
  unfold close. keeps_path. apply keeps_modify. intros v Hv _. split; [|apply about_nothing].
  by refine (sound_forget _ rel v (vs_document_ids v) Hv _).
Qed.
Lemma always_save_all : always (save_all_state X).
Proof. unfold save_all_state. keeps_then keeps_get. eapply keeps_any, keeps_files. Qed.

Lemma always_prepare_export acc request :
  keeps (about [] anything) (prepare_export X acc request) (λ _, about [] anything).
Proof.
  destruct acc as [seen l]. unfold prepare_export. keeps_path. case_decide; [apply keeps_throw|].
  keeps_then keeps_document_id. case_decide; [apply keeps_throw|]. keeps_then keeps_verify. keeps_then keeps_disk.
  keeps_then keeps_look. keeps_then keeps_files. keeps_then keeps_look. apply keeps_ret. intros v _. apply about_nothing.
Qed.
Lemma keeps_recoverable {A} P t (m : WM A) Q : keeps P m Q → keeps P (wm_recoverable t m) Q.
Proof.
  intros Hm v fs Hv HP. destruct (Hm v fs Hv HP) as [H1 H2]. unfold wm_recoverable.
  destruct (m v fs) as [v1 [l [e|x]]]; [by destruct t as [[]|]|done].
Qed.
Lemma always_finalize l : always (finalize_exports X l).
Proof.
  unfold finalize_exports. apply (keeps_fold _ (λ (_ : list ExportOutcome), about [] anything)). intros done x.
  unfold finalize_export. keeps_then keeps_record. apply keeps_any. keeps_then always_outcome. by apply keeps_ret.
Qed.
Lemma always_export_all requests : always (export_markdown_transaction X requests).
Proof.
  unfold export_markdown_transaction.
  eapply keeps_bind; [apply (keeps_fold _ (λ _, about [] anything)); intros; apply always_prepare_export|].
  intros [seen l]. eapply keeps_bind; [apply (keeps_fold _ (λ _, about [] anything)); intros; apply keeps_save|].
  intros []. unfold publish_exports. do 2 keeps_then keeps_draw. keeps_then keeps_files.
  eapply keeps_bind; [apply keeps_recoverable, always_finalize|]. intros outcomes. keeps_then keeps_files.
  by apply keeps_ret.
Qed.

(** After [session_mut] and [session] the code goes on at the path they return. *)
Lemma keeps_same {A} P rel q (m : RawPath → WM A) Q : keeps P (m rel) Q → keeps (λ v, q = rel ∧ P v) (m q) Q.
Proof. intros H v fs Hv [-> HP]. by apply H. Qed.

Lemma always_local {T} rel (edit : CollaborativeDocument → CollaborativeDocument * T) :
  always (with_local_edit X rel edit).
Proof.
  unfold with_local_edit. eapply keeps_bind; [apply keeps_mut|]. intros q.
  apply (keeps_same _ rel q (λ rel, before ← _; _)).
  do 2 keeps_then keeps_look. eapply keeps_bind; [by apply keeps_session|]. intros value.
  keeps_then keeps_summary. keeps_then keeps_save. apply keeps_ret. intros. apply about_nothing.
Qed.

Lemma always_user {T} rel (edit : CollaborativeDocument → CollaborativeDocument * T) :
  always (rel ← session_mut X rel; on_session rel (λ s, let '(s, value) := edit s in (s, inr value))).
Proof.
  eapply keeps_bind; [apply keeps_mut|]. intros q. apply (keeps_same _ rel q (λ rel, on_session rel _)).
  eapply (always_done _ _ (λ _, about [rel] (without rel))). by apply keeps_session.
Qed.
Lemma always_remote rel message limits : always (vault_apply_remote X rel message limits).
Proof.
  unfold vault_apply_remote. eapply keeps_bind; [apply keeps_mut|]. intros q.
  apply (keeps_same _ rel q (λ rel, before ← _; _)).
  do 2 keeps_then keeps_look. eapply keeps_bind; [by apply keeps_session|]. intros value.
  keeps_then keeps_summary. keeps_then keeps_save. apply keeps_ret. intros. apply about_nothing.
Qed.
Lemma always_read {A} rel (f : CollaborativeDocument → VaultError + A) :
  always (rel ← session X rel; read_session rel f).
Proof. keeps_then keeps_use. eapply (always_done _ _ (λ _ _, True)). eapply keeps_post; [apply keeps_look|done]. Qed.

Lemma steady_text_point id n : steady (text_point id n).
Proof. unfold text_point. steady_auto. apply steady_text_sequence. Qed.
Lemma steady_text_range id a b : steady (Target.text_range id a b).
Proof. unfold Target.text_range, text_range_for_sequence, range_point. steady_auto; apply steady_text_sequence. Qed.

Lemma always_page rel parent cursor limit : always (vault_descriptor_page X rel parent cursor limit).
Proof.
  unfold vault_descriptor_page. keeps_path. keeps_then keeps_document_id. apply keeps_any.
  keeps_then keeps_revision'. apply keeps_any, always_read.
Qed.
Lemma always_project rel request : always (project_blocks X rel request).
Proof.
  unfold project_blocks. keeps_path. keeps_then keeps_document_id. apply keeps_any. case_decide; [apply keeps_throw|].
  keeps_then keeps_revision'. case_decide; [apply keeps_throw|].
  apply keeps_any, keeps_look.
Qed.
Lemma always_preview rel batch : always (preview_edit_batch X rel batch).
Proof.
  unfold preview_edit_batch. keeps_path. keeps_then keeps_prepare. apply keeps_ret. intros. apply about_nothing.
Qed.
Lemma always_id rel : always (document_id X rel).
Proof. eapply (always_done _ _ (λ _, about (rel :: []) anything)), keeps_document_id. Qed.
Lemma always_revision rel : always (revision X rel).
Proof. eapply (always_done _ _ (λ _, about (rel :: []) (within rel))), keeps_revision'. Qed.

(** ** The vault as a state machine *)

(** The operations a program may call; a session it asked for it may change in
    any way. *)
Inductive operation : ∀ A, WM A → Prop :=
  | op_document_id rel : operation _ (document_id X rel)
  | op_open rel : operation _ (open_document X rel)
  | op_revision rel : operation _ (revision X rel)
  | op_descriptor_page rel parent cursor limit : operation _ (vault_descriptor_page X rel parent cursor limit)
  | op_text_point rel id n : operation _ (vault_text_point X rel id n)
  | op_text_range rel id a b : operation _ (vault_text_range X rel id a b)
  | op_resolve_point rel point : operation _ (vault_resolve_text_point X rel point)
  | op_resolve_range rel range : operation _ (vault_resolve_text_range X rel range)
  | op_preconditions rel edit : operation _ (vault_preconditions_for_edit X rel edit)
  | op_project rel request : operation _ (project_blocks X rel request)
  | op_local T rel (edit : CollaborativeDocument → CollaborativeDocument * T) :
      operation _ (with_local_edit X rel edit)
  | op_session_mut T rel (edit : CollaborativeDocument → CollaborativeDocument * T) :
      operation _ (rel ← session_mut X rel; on_session rel (λ s, let '(s, value) := edit s in (s, inr value)))
  | op_preview rel batch : operation _ (preview_edit_batch X rel batch)
  | op_apply rel batch : operation _ (apply_edit_batch X rel batch)
  | op_previewed rel batch token : operation _ (apply_previewed_batch X rel batch token)
  | op_apply_all batches : operation _ (apply_edit_batches X batches)
  | op_refresh rel r disk : operation _ (refresh_markdown X rel r disk)
  | op_ingest rel r disk : operation _ (ingest_markdown X rel r disk)
  | op_ingest_all : operation _ (ingest_all X)
  | op_export rel r disk : operation _ (export_markdown X rel r disk)
  | op_create rel text : operation _ (create_markdown X rel text)
  | op_rename from to r disk : operation _ (rename_markdown X from to r disk)
  | op_delete rel r disk : operation _ (delete_markdown X rel r disk)
  | op_export_all requests : operation _ (export_markdown_transaction X requests)
  | op_recover : operation _ (wm_files (recover_transactions X))
  | op_state_vector rel : operation _ (vault_state_vector X rel)
  | op_changes rel since : operation _ (vault_encode_changes_since X rel since)
  | op_sync rel since : operation _ (vault_sync_since X rel since)
  | op_remote rel message limits : operation _ (vault_apply_remote X rel message limits)
  | op_save rel : operation _ (save_state X rel)
  | op_save_all : operation _ (save_all_state X)
  | op_close rel : operation _ (close rel).

Lemma always_operation A (m : WM A) : operation A m → always m.
Proof.
  destruct 1; auto using always_id, always_open, always_revision, always_page, always_project, always_local,
    always_user, always_preview, keeps_apply, keeps_previewed, keeps_apply_all, always_refresh,
    always_ingest_markdown, always_ingest_all, always_export, always_create, always_rename, always_delete,
    always_export_all, always_remote, keeps_save, always_save_all, always_close.
  - apply keeps_query, steady_text_point.
  - apply keeps_query, steady_text_range.
  - apply keeps_query, steady_point.
  - apply keeps_query, steady_range.
  - apply keeps_query, steady_preconditions.
  - apply keeps_files.
  - apply always_read.
  - apply always_read.
  - apply always_read.
Qed.

(** A call of an operation, or a change of the files by someone else. *)
Inductive vault_step : VaultSession * Fs → VaultSession * Fs → Prop :=
  | step_operation A (m : WM A) v fs : operation A m →
      vault_step (v, fs) ((m v fs).1, fs_exec_all (m v fs).2.1 fs)
  | step_environment v fs fs' : vault_step (v, fs) (v, fs').

(** The states of a session of the vault that was opened on some files. *)
Definition reachable (x : VaultSession * Fs) : Prop :=
  ∃ fs v, (open X fs).2 = inr v ∧ rtc vault_step (v, fs_exec_all (open X fs).1 fs) x.

Lemma open_sound fs v : (open X fs).2 = inr v → sound v.
Proof.
  unfold open, mbind, FP_bind. destruct (recover_transactions X fs) as [l [e|r]]; [done|].
  destruct (Journal.load_or_create_identity _ _ _ _ _ _ _) as [l1 [e|id]]; [done|].
  destruct (load_or_create_peer_id X _) as [l2 [e|p]]; [done|]. intros [= <-].
  split; simpl; [intros rel r'; by rewrite lookup_empty|intros rel [? H]; by rewrite lookup_empty in H].
Qed.
Lemma reachable_sound x : reachable x → sound x.1.
Proof.
  intros (fs & v & Ho%open_sound & Hs). revert Hs. generalize (fs_exec_all (open X fs).1 fs). intros fs0 Hs.
  remember (v, fs0) as y eqn:E. assert (sound y.1) as Hy by (by subst). clear E Ho v fs0 fs.
  induction Hs as [|y z w Hyz _ IH]; [done|]. apply IH. destruct Hyz as [A m v fs Hop|v fs fs']; [|done].
  apply (always_operation A m Hop v fs Hy), about_nothing.
Qed.
End operations.

(** ** Steps that write nothing *)

Lemma bind_silent {A B} (m : WM A) (k : A → WM B) v fs v' x :
  m v fs = (v', ([], inr x)) → (y ← m; k y) v fs = k x v' fs.
Proof. intros E. unfold mbind, WM_bind. rewrite E. simpl. by destruct (k x v' fs) as [v1 [l r]]. Qed.
Lemma bind_refused {A B} (m : WM A) (k : A → WM B) v fs v' l e :
  m v fs = (v', (l, inl e)) → (y ← m; k y) v fs = (v', (l, inl e)).
Proof. intros E. unfold mbind, WM_bind. by rewrite E. Qed.

Section theorems.
Context (X : External).
Abbreviation revision_for := (revision_for (x_encode X) (to_bytes (x_snap_to_vec X))).

(** C17: In every state that the operations reach, a cached revision is that of the
    session that is open, the identity of an open document is known, and the
    revision that is answered for a document is that of its open session. *)
Theorem revisions_are_current v fs :
  reachable X (v, fs) →
  (∀ rel r, vs_revision_cache v !! rel = Some r → ∃ s, vs_docs v !! rel = Some s ∧ revision_for s = inr r) ∧
  (∀ rel, is_Some (vs_docs v !! rel) → is_Some (vs_document_ids v !! rel)) ∧
  ∀ rel v' l r, revision X rel v fs = (v', (l, inr r)) →
    ∃ s, vs_docs v' !! rel = Some s ∧ revision_for s = inr r.
Proof.
  intros Hv%reachable_sound. simpl in Hv. split_and!; [apply Hv..|]. intros rel v' l r E.
  destruct (keeps_revision X [] rel v fs Hv (about_nothing v)) as [_ H]. rewrite E in H. by destruct H as [_ H].
Qed.

(** An open document, and its revision. *)
Record opened (rel : RawPath) (s : CollaborativeDocument) (actual : RevisionToken) (v : VaultSession) : Prop := {
  od_path : normalize_rel rel = inr rel;
  od_session : vs_docs v !! rel = Some s;
  od_revision : revision_for s = inr actual;
}.

Lemma id_known rel id v fs :
  normalize_rel rel = inr rel → vs_document_ids v !! rel = Some id →
  document_id X rel v fs = (v, ([], inr id)).
Proof.
  intros Hn Hid. unfold document_id.
  rewrite (bind_silent _ _ v fs v rel) by (unfold wm_lift; by rewrite Hn).
  by rewrite (bind_silent _ _ v fs v (Some id)) by (unfold wm_get; by rewrite Hid).
Qed.
Lemma ensure_known rel s v fs :
  sound X v → normalize_rel rel = inr rel → vs_docs v !! rel = Some s →
  ensure_session_open X rel v fs = (v, ([], inr tt)).
Proof.
  intros Hv Hn Hs. destruct (so_known _ _ Hv rel) as [id Hid]; [by exists s|]. unfold ensure_session_open.
  rewrite (bind_silent _ _ v fs v id) by (by apply id_known).
  by rewrite (bind_silent _ _ v fs v (Some s)) by (unfold wm_get; by rewrite Hs).
Qed.

Lemma revision_open rel s actual v fs :
  sound X v → opened rel s actual v →
  revision X rel v fs = (map_cache <[rel := actual]> v, ([], inr actual)).
Proof.
  intros Hv [Hn Hs Hr]. unfold revision.
  rewrite (bind_silent _ _ v fs v rel) by (unfold wm_lift; by rewrite Hn).
  rewrite (bind_silent _ _ v fs v tt) by (by eapply ensure_known).
  rewrite (bind_silent _ _ v fs v (vs_revision_cache v !! rel)) by done.
  destruct (vs_revision_cache v !! rel) as [r|] eqn:E.
  - destruct (so_cached _ _ Hv rel r E) as (s' & Hs' & Hr'). simplify_eq.
    assert (r = actual) as -> by congruence. replace (map_cache <[rel:=actual]> v) with v; [done|]. destruct v. unfold map_cache. simpl in *. by rewrite insert_id.
  - rewrite (bind_silent _ _ v fs v actual) by (unfold read_session; by rewrite Hs, Hr).
    by rewrite (bind_silent _ _ v fs (map_cache <[rel := actual]> v) tt).
Qed.

Definition refused {A} (rel : RawPath) (expected actual : RevisionToken) (v : VaultSession) :
    VaultSession * (list FsAction * (VaultError + A)) :=
  (map_cache <[rel := actual]> v, ([], inl (VaultStaleRevision expected actual))).

Lemma verify_refuses rel s expected actual v fs :
  sound X v → opened rel s actual v → expected ≠ actual →
  verify_revision X rel (Some expected) v fs = refused rel expected actual v.
Proof.
  intros Hv Ho Hne. unfold verify_revision. erewrite bind_silent by (by eapply revision_open). by case_decide.
Qed.

(** A path with a guard, then a check of the revision that fails. *)
Lemma guarded_refuses {A} rel s expected actual v fs (k : RawPath → unit → WM A) :
  sound X v → opened rel s actual v → expected ≠ actual →
  (q ← wm_lift (normalize_rel rel); x ← verify_revision X q (Some expected); k q x) v fs =
    refused rel expected actual v.
Proof.
  intros Hv Ho Hne. rewrite (bind_silent _ _ v fs v rel) by (unfold wm_lift; by rewrite (od_path _ _ _ _ Ho)).
  by erewrite bind_refused by (by eapply verify_refuses).
Qed.

(** C18: A request made for another revision of an open document is refused, with the
    revision it names and the actual one.  No file is written, the sessions
    stay as they are; the actual revision is in the cache. *)
Theorem stale_requests_refused rel s expected actual disk v fs :
  reachable X (v, fs) → opened rel s actual v → expected ≠ actual →
  export_markdown X rel expected disk v fs = refused rel expected actual v ∧
  delete_markdown X rel expected disk v fs = refused rel expected actual v ∧
  ingest_markdown X rel (Some expected) disk v fs = refused rel expected actual v ∧
  (∀ to, normalize_rel to = inr to → fs_nodes fs !! place to = None →
   rename_markdown X rel to expected disk v fs = refused rel expected actual v) ∧
  (∀ batch, vs_document_ids v !! rel = Some (batch_document_id batch) → batch_base_revision batch = expected →
   Forall (λ op, mut_preconditions op = []) (batch_operations batch) →
   apply_edit_batch X rel batch v fs = refused rel expected actual v).
Proof.
  intros Hv%reachable_sound Ho Hne. simpl in Hv. split_and!.
  - by eapply guarded_refuses.
  - by eapply guarded_refuses.
  - by eapply guarded_refuses.
  - intros to Hto Hfree. unfold rename_markdown.
    rewrite (bind_silent _ _ v fs v rel) by (unfold wm_lift; by rewrite (od_path _ _ _ _ Ho)).
    rewrite (bind_silent _ _ v fs v to) by (unfold wm_lift; by rewrite Hto).
    rewrite (bind_silent _ _ v fs v false)
      by (unfold wm_files, inspect, path_exists; by rewrite Hfree, bool_decide_false by (by intros [? ?])).
    by erewrite bind_refused by (by eapply verify_refuses).
  - intros batch Hid Hbase Hops. unfold apply_edit_batch.
    rewrite (bind_silent _ _ v fs v rel) by (unfold wm_lift; by rewrite (od_path _ _ _ _ Ho)).
    erewrite bind_refused; [done|]. unfold prepare_batch.
    rewrite (bind_silent _ _ v fs v (batch_document_id batch)) by (apply id_known; [by eapply od_path|done]).
    case_decide; [done|]. erewrite bind_silent by (by eapply revision_open).
    unfold on_session. simpl. rewrite (od_session _ _ _ _ Ho). unfold Batch.prepare_edit_batch.
    rewrite decide_False by (intros Hn; by apply Hn).
    assert (validate_batch_targets (x_list_style X) (x_fence_style X) batch actual (s_document s) =
      (s_document s, Some (BatchStaleRevision expected actual))) as ->.
    { unfold validate_batch_targets. case_decide; [by rewrite Hbase|].
      destruct Hops as [|op ops Hop _]; [naive_solver|]. simpl. rewrite Hop, bool_decide_false by congruence.
      by rewrite Hbase. }
    unfold refused, map_docs, map_failure. simpl. destruct s, v. simpl in *.
    rewrite insert_id; [done|]. apply Ho.
Qed.
End theorems.

(** ** A vault with one open document *)

Definition sample_external : External := {|
  x_inc := true; x_graphemes := λ s, [s];
  x_encode := λ _, inr []; x_decode := λ _, inl EmptyString;
  x_list_style := λ _, []; x_fence_style := λ _, []; x_debug_info := λ _, EmptyString;
  x_key_order := elements; x_id_order := elements;
  x_snap_to_vec := λ _, inr []; x_snap_from_slice := λ _, inl EmptyString;
  x_batch_json := λ _, Some []; x_page_bytes := λ _, None; x_request_json := λ _ _ _ _ _ _, None;
  x_checksum := λ _, 0%N; x_rkyv_to_bytes := λ _, None; x_rkyv_access := λ _, None;
  x_state_to_bytes := λ _, None; x_state_access := λ _, None;
  x_id_text := to_be_bytes 16; x_parse_id := λ b, Some (uuid_from_bytes b);
  x_uuid_text := display; x_is_uuid := λ _, true;
  x_journal_to_vec := λ _, None; x_journal_from_slice := λ _, None;
  x_from_utf8 := λ b, Some (Byte.to_N <$> b);
  x_peer_hash := 9; x_new_v4 := λ n, N.of_nat (S n);
  x_walk_order := λ l, l; x_path_order := elements;
|}.
Definition sample_path : RawPath := [Normal "note.md"].
Definition sample_start : VaultSession := mkVault 1 9 ∅ ∅ ∅ 2.
Definition sample_files : Fs := fs_exec_all (open sample_external (mkFs ∅ false)).1 (mkFs ∅ false).
Definition sample_call : VaultSession * (list FsAction * (VaultError + RevisionToken)) :=
  revision sample_external sample_path sample_start sample_files.
Definition sample_state : VaultSession * Fs := (sample_call.1, fs_exec_all sample_call.2.1 sample_files).

Lemma sample_reachable : reachable sample_external sample_state.
Proof.
  exists (mkFs ∅ false), sample_start. split; [by vm_compute|]. eapply rtc_l; [|apply rtc_refl].
  apply (step_operation sample_external _ (revision sample_external sample_path) sample_start sample_files).
  apply op_revision.
Defined.

Definition sample_revision : RevisionToken := match sample_call.2.2 with inr r => r | inl _ => [] end.
Lemma sample_opened : opened sample_external sample_path (session_new 9) sample_revision sample_state.1.
Proof. split; by vm_compute. Defined.

Lemma revisions_are_current_witness :
  vs_revision_cache sample_state.1 !! sample_path = Some sample_revision ∧
  ∃ s, vs_docs sample_state.1 !! sample_path = Some s ∧
    revision_for (x_encode sample_external) (to_bytes (x_snap_to_vec sample_external)) s = inr sample_revision.
Proof.
  assert (vs_revision_cache sample_state.1 !! sample_path = Some sample_revision) as E by (by vm_compute).
  split; [exact E|].
  exact (proj1 (revisions_are_current sample_external sample_state.1 sample_state.2 sample_reachable) _ _ E).
Defined.

Lemma stale_requests_refused_witness :
  [] ≠ sample_revision ∧
  (delete_markdown sample_external sample_path [] None sample_state.1 sample_state.2).2 =
    ([], inl (VaultStaleRevision [] sample_revision)).
Proof.
  assert ([] ≠ sample_revision) as Hne by (by vm_compute). split; [exact Hne|].
  destruct (stale_requests_refused sample_external sample_path (session_new 9) [] sample_revision None
    sample_state.1 sample_state.2 sample_reachable sample_opened Hne) as (_ & H & _).
  by rewrite H.
Defined.
