(* ===== verification/VaultDurable.v ===== *)
(** * Vault sessions on disk

    What the operations of a vault leave on disk.  A session that is saved can be
    opened again, and a crash while it is saved leaves the session that was there
    before; the export of several documents is all or nothing, with everything
    the vault writes in between. *)

From S2P Require Import Prelude Core Sequence Mark MarkOps Table Frontmatter Codec Text Draft.
From S2P Require Import Block Document Sync SessionWire Session SessionClock SessionRemote SessionProps.
From S2P Require Import Snapshot SnapshotProps SessionDoc.
From S2P Require Import Storage StorageProps StorageLog Match Chars Markdown Serialize Cursor Outline Batch BatchProps.
From S2P Require Import Journal JournalProps Vault VaultProps.
From Stdlib Require Import Strings.Byte.

(** ** A storage among the files *)

Lemma store_exec p a fs : store_at p (fs_exec (FsStore p a) fs) = exec a (store_at p fs).
Proof. unfold store_at at 1. simpl. by rewrite lookup_insert_eq. Qed.
Lemma store_exec_all p l fs : store_at p (fs_exec_all (FsStore p <$> l) fs) = exec_all l (store_at p fs).
Proof.
  revert fs. induction l as [|a l IH]; intros fs; [done|].
  change (store_at p (fs_exec_all (FsStore p <$> l) (fs_exec (FsStore p a) fs)) = exec_all l (exec a (store_at p fs))).
  by rewrite IH, store_exec.
Qed.
Lemma store_crash p l fs fs' :
  fs_crash (FsStore p <$> l) fs fs' → crash l (store_at p fs) (store_at p fs').
Proof.
  revert fs. induction l as [|a l IH]; intros fs; simpl; [intros ->%crash_nil; constructor|].
  inversion 1 as [|? ? ? ? Ht|? ? ? ? Hc]; subst; [constructor| |].
  - apply crash_inside. inversion Ht; subst; [constructor|].
    unfold store_at at 2. simpl. by rewrite lookup_insert_eq.
  - apply crash_later. rewrite <-store_exec. by apply IH.
Qed.

Section vault.
Context (X : External).
Hypothesis checksum_u32 : ∀ b, (x_checksum X b < 2 ^ 32)%N.
Hypothesis rkyv_roundtrip : ∀ body b, x_rkyv_to_bytes X body = Some b → x_rkyv_access X b = Some body.
Abbreviation slots_inv := (slots_inv (x_checksum X) (x_rkyv_access X)).
Abbreviation read_snapshot := (read_snapshot (x_checksum X) (x_rkyv_access X)).

(** ** Sessions *)

(** What opening the document at [rel] finds. *)
Definition reopened (rel : RawPath) (v : VaultSession) (fs : Fs) : VaultError + CollaborativeDocument :=
  (load_or_create_session X rel v fs).2.2.
Definition place_of (rel : RawPath) : Place := session_storage_path (place rel).

Lemma reopened_depends rel v fs fs' :
  read_snapshot (store_at (place_of rel) fs') = read_snapshot (store_at (place_of rel) fs) →
  reopened rel v fs' = reopened rel v fs.
Proof.
  intros E. unfold reopened, load_or_create_session, mbind, WM_bind, wm_get, wm_files, FP_bind, open_storage, act, inspect.
  cbn [fs_exec_all fold_left]. fold (place_of rel). rewrite !store_exec. cbn [exec]. unfold read_from_storage. rewrite E.
  destruct (read_snapshot (store_at (place_of rel) fs)) as [[]|[[b p] f]]; try reflexivity.
  destruct (from_bytes _ b) as [e|snap]; [reflexivity|]. by destruct (restore_from_snapshot _ _ _ snap).
Qed.

(** A session as [SessionDoc.session_snapshot_roundtrip] wants it, whose snapshot
    comes back from its bytes. *)
Record storable (s : CollaborativeDocument) : Prop := {
  st_healthy : healthy (x_inc X) (x_graphemes X) (x_encode X) (x_decode X) s;
  st_fresh : document_fresh (s_document s);
  st_codec : ∀ id env p, s_pending_envelopes s !! id = Some env → x_encode X env = inr p → x_decode X p = inr env;
  st_bytes : ∀ snap b, save_snapshot (x_encode X) s = inr snap → x_snap_to_vec X snap = inr b →
    x_snap_from_slice X b = inr snap;
}.

(** What opening makes of a saved session: if its clock is ahead of the ids that
    are saved, what [restored] keeps of it, with the peer of the vault and in unit
    mode; otherwise the document does not open. *)
Definition opens_as (s : CollaborativeDocument) (v : VaultSession) (r : VaultError + CollaborativeDocument) : Prop :=
  if (saved_max s <? s_next_counter s)%N
  then ∃ s', restored s s' ∧ r = inr (session_set_units (session_set_peer (vs_peer v) s'))
  else r = inl (VaultSnapshot (ClockBehind (s_peer s) (s_next_counter s) (saved_max s))).

Lemma stored_opens rel s snap b v fs :
  storable s → save_snapshot (x_encode X) s = inr snap → to_bytes (x_snap_to_vec X) snap = inr b →
  read_snapshot (store_at (place_of rel) fs) = inr (b, [], false) → opens_as s v (reopened rel v fs).
Proof.
  intros [Hheal Hfresh Hcod Hb] Hsave Hto E. destruct (healthy_kept _ _ _ _ s Hheal Hfresh) as [Hset Hbuf].
  unfold reopened, load_or_create_session, mbind, WM_bind, wm_get, wm_files, FP_bind, open_storage, act, inspect.
  cbn [fs_exec_all fold_left]. fold (place_of rel). rewrite !store_exec. cbn [exec]. unfold read_from_storage. rewrite E.
  unfold to_bytes in Hto. destruct (x_snap_to_vec X snap) as [|b'] eqn:Hv; [done|]. injection Hto as ->.
  unfold from_bytes. rewrite (Hb snap b Hsave Hv).
  pose proof (restore_saved (x_inc X) (x_graphemes X) (x_encode X) (x_decode X) s snap Hset Hbuf Hcod Hsave) as Hr.
  rewrite decide_False.
  - unfold opens_as. destruct (restore_from_snapshot _ _ _ snap) as [e|s']; destruct Hr as [Hclock Hr].
    + rewrite (proj2 (N.ltb_ge _ _) Hclock). by subst e.
    + rewrite (proj2 (N.ltb_lt _ _) Hclock). by exists s'.
  - intros Hn. apply Hn. unfold save_snapshot in Hsave. destruct (try_map _ _); [done|]. by injection Hsave as <-.
Qed.

(** The program is that of the storage, after the directory is made. *)
Lemma write_session_program rel s fs :
  let p := place_of rel in
  ∃ r, write_session_snapshot X rel s fs =
    (FsStore p <$> CreateDir Root :: (write_to_storage X s (store_at p fs)).1, r) ∧
    (r = inr tt → (write_to_storage X s (store_at p fs)).2 = inr tt).
Proof.
  unfold write_session_snapshot, in_storage, open_storage, act, mbind, FP_bind. fold (place_of rel).
  cbn [fs_exec_all fold_left]. rewrite store_exec. cbn [exec].
  destruct (write_to_storage X s _) as [l [e|[]]]; simpl; (eexists; split; [by rewrite app_nil_r|done]).
Qed.

Lemma crash_create l d d' : crash (CreateDir Root :: l) d d' → d' = d ∨ crash l d d'.
Proof.
  inversion 1 as [|? ? ? ? Ht|]; subst; [by left| |by right]. left. by inversion Ht.
Qed.

(** What the storage holds after the snapshot of a session was written. *)
Lemma write_to_storage_safe s d :
  slots_inv d →
  let '(l, r) := write_to_storage X s d in
  let stored d' := ∃ snap b, save_snapshot (x_encode X) s = inr snap ∧ to_bytes (x_snap_to_vec X) snap = inr b ∧
    read_snapshot d' = inr (b, [], false) in
  (∀ d', crash l d d' → slots_inv d' ∧ (read_snapshot d' = read_snapshot d ∨ stored d')) ∧
  (r = inr tt → stored (exec_all l d)).
Proof.
  intros Hd. unfold write_to_storage.
  assert (∀ (A : Disk → Prop) d', crash [] d d' → slots_inv d' ∧ (read_snapshot d' = read_snapshot d ∨ A d')) as Hnone.
  { intros A d' Hc. inversion Hc; subst; auto. }
  destruct (save_snapshot (x_encode X) s) as [|snap]; [by split; [intros d'; apply (Hnone (λ _, _))|]|].
  destruct (to_bytes (x_snap_to_vec X) snap) as [|b] eqn:Eb; [by split; [intros d'; apply (Hnone (λ _, _))|]|].
  pose proof (write_safe (x_checksum X) (x_rkyv_to_bytes X) (x_rkyv_access X) checksum_u32 rkyv_roundtrip d b [] false Hd)
    as Hw.
  destruct (write_snapshot _ _ _ b [] false d) as [l r]. cbv zeta. destruct Hw as [Hc Hr]. split.
  - intros d' Hcr. destruct (Hc d' Hcr) as [? [?|?]]; [by auto|]. split; [done|]. right. by exists snap, b.
  - destruct r as [|[]]; [done|]. intros _. destruct (Hr eq_refl) as [_ ?]. by exists snap, b.
Qed.

End vault.

(** ** Programs that write storages only *)

Definition storage_action (a : FsAction) : Prop := ∃ p d, a = FsStore p d ∧ vault_path p.
Definition stores {A} (m : FP A) : Prop := ∀ fs, Forall storage_action (m fs).1.

Lemma stores_bind {A B} (m : FP A) (k : A → FP B) : stores m → (∀ x, stores (k x)) → stores (x ← m; k x).
Proof.
  intros Hm Hk fs. unfold mbind, FP_bind. specialize (Hm fs). destruct (m fs) as [l [e|x]]; [done|].
  specialize (Hk x (fs_exec_all l fs)). destruct (k x _) as [l' r]. by apply Forall_app.
Qed.
Lemma stores_nothing {A} (m : FP A) : (∀ fs, (m fs).1 = []) → stores m.
Proof. intros H fs. rewrite H. constructor. Qed.
Lemma stores_open p : vault_path p → stores (open_storage p).
Proof. intros Hp fs. constructor; [|constructor]. by exists p, (CreateDir Root). Qed.
Lemma stores_in {R} p (m : Disk → list Action * R) : vault_path p → stores (in_storage p m).
Proof.
  intros Hp fs. unfold in_storage. destruct (m _) as [l r]. apply Forall_fmap, Forall_forall. intros d _. by exists p, d.
Qed.

Section storing.
Context (X : External) (K : list RawPath) (n : nat).
Hypothesis paths : ∀ rel, rel ∈ K → place rel ≠ [].

Lemma stores_session rel s : rel ∈ K → stores (write_session_snapshot X rel s).
Proof.
  intros Hrel. pose proof (session_vault_path (place rel) (paths rel Hrel)) as Hp. unfold write_session_snapshot.
  apply stores_bind; [by apply stores_open|]. intros _. apply stores_bind; [by apply stores_in|].
  intros [e|[]]; by apply stores_nothing.
Qed.
Lemma stores_flushed rel state : rel ∈ K → stores (write_last_flushed X rel state).
Proof.
  intros Hrel. pose proof (state_vault_path (place rel) (paths rel Hrel)) as Hp. unfold write_last_flushed.
  destruct (x_state_to_bytes X state); [|by apply stores_nothing].
  apply stores_bind; [by apply stores_open|]. intros _. apply stores_bind; [by apply stores_in|].
  intros [e|[]]; by apply stores_nothing.
Qed.

(** The identities of [K] are known, and no uuid is drawn. *)
Definition steady_ids (v : VaultSession) : Prop :=
  (∀ rel, rel ∈ K → is_Some (vs_document_ids v !! rel)) ∧ vs_uuids v = n.
Definition storing {A} (m : WM A) (Q : A → Prop) : Prop :=
  ∀ v fs, steady_ids v → Forall storage_action (m v fs).2.1 ∧ steady_ids (m v fs).1 ∧
    match (m v fs).2.2 with inr x => Q x | inl _ => True end.

Lemma storing_bind {A B} (m : WM A) (k : A → WM B) Q R :
  storing m Q → (∀ x, Q x → storing (k x) R) → storing (x ← m; k x) R.
Proof.
  intros Hm Hk v fs Hv. unfold mbind, WM_bind. destruct (Hm v fs Hv) as (H1 & H2 & H3).
  destruct (m v fs) as [v1 [l [e|x]]]; simpl in *; [done|].
  destruct (Hk x H3 v1 (fs_exec_all l fs) H2) as (H4 & H5 & H6).
  destruct (k x v1 _) as [v2 [l2 r]]. simpl in *. by rewrite Forall_app.
Qed.
Lemma storing_files {A} (m : FP A) : stores m → storing (wm_files m) (λ _, True).
Proof. intros Hm v fs Hv. split_and!; [apply Hm|done|]. simpl. by destruct (m fs).2. Qed.
Lemma storing_ret {A} (x : A) (Q : A → Prop) : Q x → storing (mret x) Q.
Proof. intros H v fs Hv. by split_and!. Qed.
Lemma storing_throw {A} e (Q : A → Prop) : storing (wm_throw e) Q.
Proof. intros v fs Hv. by split_and!. Qed.
Lemma storing_lift {A} (r : VaultError + A) : storing (wm_lift r) (λ x, r = inr x).
Proof. intros v fs Hv. split_and!; [done|done|]. simpl. by destruct r. Qed.
Lemma storing_get {A} (f : VaultSession → A) (Q : A → Prop) :
  (∀ v, steady_ids v → Q (f v)) → storing (wm_get f) Q.
Proof. intros H v fs Hv. split_and!; [done|done|]. by apply H. Qed.
Lemma storing_modify f : (∀ v, steady_ids v → steady_ids (f v)) → storing (wm_modify f) (λ _, True).
Proof. intros H v fs Hv. split_and!; [done|by apply H|done]. Qed.
Lemma storing_read {A} rel (f : CollaborativeDocument → VaultError + A) : storing (read_session rel f) (λ _, True).
Proof. intros v fs Hv. split_and!; [done|done|]. simpl. by destruct (vs_docs v !! rel) as [s|]; [destruct (f s)|]. Qed.
Lemma storing_session {A} rel (f : CollaborativeDocument → CollaborativeDocument * (VaultError + A)) :
  storing (on_session rel f) (λ _, True).
Proof.
  intros v fs Hv. unfold on_session. destruct (vs_docs v !! rel) as [s|]; [|done]. by destruct (f s) as [s' [|]].
Qed.
Lemma storing_fold {A S} (I : S → Prop) (f : S → A → WM S) l :
  (∀ s x, x ∈ l → I s → storing (f s x) I) → ∀ s, I s → storing (wm_fold f l s) I.
Proof.
  induction l as [|x l IH]; intros Hf s Hs; simpl; [by apply storing_ret|].
  eapply storing_bind; [apply Hf; [left|done]|]. intros y Hy. apply IH; [|done]. intros s' z Hz. apply Hf. by right.
Qed.
Lemma storing_quiet {A} (m : WM A) (Q : A → Prop) : storing m (λ _, True) → (∀ x, Q x) → storing m Q.
Proof.
  intros Hm HQ v fs Hv. destruct (Hm v fs Hv) as (H1 & H2 & _). split_and!; [done..|]. by destruct (m v fs).2.2.
Qed.

Tactic Notation "storing_then" uconstr(H) := eapply storing_bind; [eapply H|intros ? _].
Ltac storing_path := eapply storing_bind; [apply storing_lift|]; intros ? ->%norm_eq.

(** ** The export of several documents *)

Lemma storing_id rel : rel ∈ K → storing (document_id X rel) (λ _, True).
Proof.
  intros Hrel. unfold document_id. storing_path.
  eapply storing_bind; [apply (storing_get _ is_Some); intros v [H _]; by apply H|].
  intros known [id ->]. by apply storing_ret.
Qed.
Lemma storing_ensure rel : rel ∈ K → storing (ensure_session_open X rel) (λ _, True).
Proof.
  intros Hrel. pose proof (session_vault_path (place rel) (paths rel Hrel)) as Hp. unfold ensure_session_open.
  storing_then storing_id; [done|]. eapply storing_bind; [by apply (storing_get _ (λ _, True))|]. intros known _.
  destruct known as [s|]; [by apply storing_ret|].
  eapply (storing_bind _ _ (λ _, True)); [|intros s _; by apply storing_modify].
  unfold load_or_create_session. eapply storing_bind; [by apply (storing_get _ (λ _, True))|]. intros p _.
  storing_then storing_files; [apply stores_bind; [by apply stores_open|intros _; by apply stores_nothing]|].
  destruct x0 as [[e|[]]|s]; first [by apply storing_ret|apply storing_throw].
Qed.
Lemma storing_revision rel : rel ∈ K → storing (revision X rel) (λ _, True).
Proof.
  intros Hrel. unfold revision. storing_path. storing_then storing_ensure; [done|].
  eapply storing_bind; [by apply (storing_get _ (λ _, True))|]. intros [r|] _; [by apply storing_ret|].
  storing_then storing_read. eapply storing_bind; [by apply storing_modify|]. intros [] _. by apply storing_ret.
Qed.
Lemma storing_save rel : rel ∈ K → storing (save_state X rel) (λ _, True).
Proof.
  intros Hrel. unfold save_state. storing_path. eapply storing_bind; [by apply (storing_get _ (λ _, True))|].
  intros [s|] _; [|apply storing_throw]. by apply storing_files, stores_session.
Qed.
Lemma storing_disk rel expected : storing (verify_disk_if rel expected) (λ _, True).
Proof.
  destruct expected; [|by apply storing_ret]. apply storing_files, stores_nothing. intros fs.
  unfold verify_disk, disk_fingerprint, mbind, FP_bind. simpl. by case_decide.
Qed.

Lemma storing_prepare acc request :
  xr_path request ∈ K → Forall (λ x, pe_rel x ∈ K) acc.2 →
  storing (prepare_export X acc request) (λ acc, Forall (λ x, pe_rel x ∈ K) acc.2).
Proof.
  destruct acc as [seen l]. intros Hr Hl. unfold prepare_export. storing_path. case_decide; [apply storing_throw|].
  storing_then storing_id; [done|]. case_decide; [apply storing_throw|].
  eapply (storing_bind _ _ (λ _, True)).
  { unfold verify_revision. storing_then storing_revision; [done|]. case_decide; [by apply storing_ret|apply storing_throw]. }
  intros [] _. storing_then storing_disk. storing_then storing_read. storing_then storing_files; [by apply stores_nothing|].
  storing_then storing_read. apply storing_ret. simpl. apply Forall_app. split; [done|]. by constructor.
Qed.

Lemma storing_prepares requests :
  (∀ request, request ∈ requests → xr_path request ∈ K) →
  storing (wm_fold (prepare_export X) requests (∅, [])) (λ acc, Forall (λ x, pe_rel x ∈ K) acc.2).
Proof.
  intros Hr. apply (storing_fold (λ acc, Forall (λ x, pe_rel x ∈ K) acc.2)); [|constructor].
  intros acc request Hin Hacc. apply storing_prepare; [by apply Hr|done].
Qed.
Lemma storing_saves prepared :
  Forall (λ x, pe_rel x ∈ K) prepared →
  storing (wm_fold (λ _ export, save_state X (pe_rel export)) prepared tt) (λ _, True).
Proof.
  intros Hl. rewrite Forall_forall in Hl. apply storing_fold; [|done]. intros _ x Hx _. by apply storing_save, Hl.
Qed.

Lemma storing_finalize prepared :
  Forall (λ x, pe_rel x ∈ K) prepared → storing (finalize_exports X prepared) (λ _, True).
Proof.
  intros Hl. rewrite Forall_forall in Hl. unfold finalize_exports. apply storing_fold; [|done]. intros outcomes x Hx%Hl _.
  unfold finalize_export, record_export, adopt_text, save_fingerprints, export_outcome.
  eapply (storing_bind _ _ (λ _, True)).
  - eapply storing_bind; [by apply storing_modify|]. intros [] _. eapply (storing_bind _ _ (λ _, True)).
    { destruct (parse _ _ _); [apply storing_session|apply storing_throw]. }
    intros [] _. eapply (storing_bind _ _ (λ _, True)).
    { storing_then storing_read. by apply storing_files, stores_flushed. }
    intros [] _. by apply storing_save.
  - intros [] _. eapply (storing_bind _ _ (λ _, True)); [|intros o _; by apply storing_ret].
    storing_then storing_revision; [done|]. storing_then storing_read.
    storing_then storing_files; [by apply stores_nothing|]. by apply storing_ret.
Qed.
End storing.

(** ** The publication of an export *)

Lemma storage_crash l fs fs' :
  Forall storage_action l → fs_crash l fs fs' → changes_only vault_path fs fs'.
Proof.
  intros Hl Hc. induction Hc as [l fs|a l fs fs' Ht|a l fs fs' Hc IH]; [done| |];
    apply Forall_cons in Hl as [(p & d & -> & Hp) Hl].
  - inversion Ht; subst; [done|]. split; [done|]. intros q Hq. simpl. rewrite lookup_insert_ne; [done|]. by intros ->.
  - destruct (IH Hl) as [H1 H2]. split; [by rewrite H1|]. intros q Hq. rewrite H2 by done. simpl.
    rewrite lookup_insert_ne; [done|]. by intros ->.
Qed.

(** The session after the two uuids of a publication are drawn. *)
Definition drawn (v : VaultSession) : VaultSession :=
  mkVault (vs_vault_id v) (vs_peer v) (vs_docs v) (vs_document_ids v) (vs_revision_cache v) (S (S (vs_uuids v))).

(** On disk the publication of a vault is [publish]. *)
Lemma publish_program X prepared v fs :
  (publish_exports X prepared v fs).2 =
  publish (x_uuid_text X) (x_journal_to_vec X) (x_new_v4 X (vs_uuids v)) (x_new_v4 X (S (vs_uuids v)))
    (pending_export <$> filter (λ export, Is_true (pe_changed export)) prepared)
    (λ fs, (finalize_exports X prepared (drawn v) fs).2) fs.
Proof.
  unfold publish_exports.
  rewrite (bind_silent _ _ v fs (draw X v fs).1 (x_new_v4 X (vs_uuids v))) by done.
  rewrite (bind_silent _ _ (draw X v fs).1 fs (drawn v) (x_new_v4 X (S (vs_uuids v)))) by done.
  unfold publish, mbind, WM_bind, FP_bind, wm_files.
  destruct (publish_begin _ _ _ _ _ fs) as [l [e|t]]; [done|].
  unfold wm_recoverable, recoverable_if, recoverable.
  destruct t as [[journal entries]|]; destruct (finalize_exports X prepared (drawn v) _) as [v3 [l3 [e|o]]]; try done;
    cbn -[publish_end fs_exec_all]; by destruct (publish_end _ _) as [l4 [e|[]]].
Qed.

(** What the export of several documents does: storages only, up to the
    publication; without it when a check or a snapshot fails. *)
Lemma export_program X requests v before v1 l1 seen prepared :
  let m := export_markdown_transaction X requests v before in
  (∀ request, request ∈ requests → is_Some (vs_document_ids v !! xr_path request) ∧ place (xr_path request) ≠ []) →
  wm_fold (prepare_export X) requests (∅, []) v before = (v1, (l1, inr (seen, prepared))) →
  ∃ l0 v2, Forall storage_action l0 ∧ vs_uuids v2 = vs_uuids v ∧
    Forall (λ x, pe_rel x ∈ xr_path <$> requests) prepared ∧
    (∀ rel, rel ∈ xr_path <$> requests → is_Some (vs_document_ids v2 !! rel)) ∧
    ((m.2.1 = l0 ∧ ∃ e, m.2.2 = inl e) ∨
     (m.2.1 = l0 ++ (publish_exports X prepared v2 (fs_exec_all l0 before)).2.1 ∧
      m.2.2 = (publish_exports X prepared v2 (fs_exec_all l0 before)).2.2)).
Proof.
  intros m Hreq E. set (K := xr_path <$> requests).
  assert (∀ rel, rel ∈ K → place rel ≠ []) as HK by (intros rel (r & -> & Hr)%list_elem_of_fmap; by apply Hreq).
  assert (steady_ids K (vs_uuids v) v) as Hv.
  { split; [|done]. intros rel (r & -> & Hr)%list_elem_of_fmap. by apply Hreq. }
  destruct (storing_prepares X K (vs_uuids v) HK requests (λ r, list_elem_of_fmap_2 _ _ _) v before Hv) as (Hl1 & Hv1 & Hp).
  rewrite E in Hl1, Hv1, Hp. simpl in *.
  pose proof (storing_saves X K (vs_uuids v) HK prepared Hp v1 (fs_exec_all l1 before) Hv1) as Hs.
  subst m. unfold export_markdown_transaction, mbind, WM_bind in *. rewrite E.
  destruct (wm_fold _ prepared tt v1 _) as [v2 [l2 [e|[]]]]; simpl in Hs; destruct Hs as (Hl2 & [Hk Hn] & _).
  - exists (l1 ++ l2), v2. split_and!; [by apply Forall_app|done..|]. left. split; [done|]. by exists e.
  - exists (l1 ++ l2), v2. split_and!; [by apply Forall_app|done..|]. right. rewrite exec_app.
    destruct (publish_exports X prepared v2 _) as [v3 [l3 r3]]. simpl. by rewrite app_assoc.
Qed.

Section atomicity.
Context (X : External).
Context (uuid_text_ok : ∀ id, x_is_uuid X (x_uuid_text X id) = true ∧ no_dot (x_uuid_text X id) ∧
  x_uuid_text X id ≠ EmptyString).
(** [serde_json] reads back the journals it writes. *)
Context (json_ok : ∀ j, ∃ b, x_journal_to_vec X j = Some b ∧ x_journal_from_slice X b = Some j).
Abbreviation document := (document_path (x_is_uuid X)).

Lemma clean_storages tid jid exports a b :
  (∀ x, x ∈ exports → document (px_rel x)) → changes_only vault_path a b →
  clean (x_uuid_text X) tid jid exports a → clean (x_uuid_text X) tid jid exports b.
Proof.
  intros Hdoc [_ Hch] (Hj & Ht & Hp). pose proof (uuid_text_ok tid) as (Hu & Hdot & _).
  pose proof (λ p, vault_foreign (x_uuid_text X) (x_is_uuid X) tid exports p Hdoc) as Hf. split_and!.
  - eapply has_journals_same; [|exact Hj]. intros p Hn. apply Hch. by intros [_ ?]%Hf.
  - rewrite Hch; [done|]. intros (kind & l & Hk & E). unfold journal_temp in E. rewrite parent_app in E. by injection E as <-.
  - intros x Hx. rewrite Hch; [by apply Hp|]. intros [Hn _]%Hf. apply Hn. exists x. auto.
Qed.

Lemma documents_storages p a b : document p → changes_only vault_path a b → fs_nodes b !! p = fs_nodes a !! p.
Proof.
  intros Hd [_ Hch]. apply Hch. intros (kind & l & _ & E). by eapply (parent_head (x_is_uuid X)).
Qed.

(** The requests name documents that the vault knows, and pass their checks. *)
Record checked (requests : list DocumentExportRequest) (v : VaultSession) (before : Fs)
    (prepared : list PreparedExport) : Prop := {
  ck_known : ∀ request, request ∈ requests → is_Some (vs_document_ids v !! xr_path request);
  ck_documents : ∀ request, request ∈ requests → document (place (xr_path request));
  ck_prepared : ∃ v1 l1 seen, wm_fold (prepare_export X) requests (∅, []) v before = (v1, (l1, inr (seen, prepared)));
  ck_distinct : NoDup ((λ x, place (pe_rel x)) <$> prepared);
}.
(** The documents whose text differs from their file. *)
Definition to_publish (prepared : list PreparedExport) : list PendingExport :=
  pending_export <$> filter (λ export, Is_true (pe_changed export)) prepared.

Lemma published_exportable tid requests v before prepared :
  checked requests v before prepared → Forall (λ x, pe_rel x ∈ xr_path <$> requests) prepared →
  exportable (x_uuid_text X) (x_is_uuid X) tid (x_journal_to_vec X) (x_journal_from_slice X) (to_publish prepared).
Proof.
  intros [_ Hdoc _ Hnd] Hin. rewrite Forall_forall in Hin. split; [| |apply json_ok].
  - intros x (y & -> & [_ Hy]%list_elem_of_filter)%list_elem_of_fmap. simpl.
    specialize (Hin y Hy). apply list_elem_of_fmap in Hin as (r & -> & Hr). by apply Hdoc.
  - unfold to_publish. rewrite <-list_fmap_compose. eapply sublist_NoDup; [exact Hnd|].
    apply sublist_fmap, sublist_filter.
Qed.

Abbreviation recover := (recover_transactions X).

(** The publication, from files that differ in the storages only. *)
Lemma published_atomic {A} tid jid exports (finalize : FP A) before mid crashed fs :
  exportable (x_uuid_text X) (x_is_uuid X) tid (x_journal_to_vec X) (x_journal_from_slice X) exports →
  clean (x_uuid_text X) tid jid exports before → changes_only vault_path before mid → touches_storage finalize →
  let m := publish (x_uuid_text X) (x_journal_to_vec X) tid jid exports finalize in
  fs_crash (m mid).1 mid crashed → rtc (λ a b, fs_crash (recover a).1 a b) crashed fs →
  ∃ after report, fp_run recover fs = (after, inr report) ∧ has_journals after [] ∧
    ((∀ x, x ∈ exports → fs_nodes after !! px_rel x = fs_nodes before !! px_rel x) ∨
     (∀ x, x ∈ exports → fs_nodes after !! px_rel x = Some (File (px_markdown x)))) ∧
    (∀ result, fp_run m mid = (crashed, inr result) →
     ∀ x, x ∈ exports → fs_nodes after !! px_rel x = Some (File (px_markdown x))).
Proof.
  intros Hex Hclean Hmid Hq m Hc Hrec. pose proof (ex_documents _ _ _ _ _ _ Hex) as Hdoc.
  destruct (publish_atomic (x_uuid_text X) (x_is_uuid X) (x_id_text X) (x_parse_id X) (x_journal_to_vec X)
    (x_journal_from_slice X) uuid_text_ok tid jid exports finalize mid crashed fs Hex
    (clean_storages _ _ _ _ _ Hdoc Hmid Hclean) Hq Hc Hrec) as (after & report & H1 & H2 & H3 & H4).
  exists after, report. split_and!; [done|done| |done]. destruct H3 as [H3|H3]; [left|by right].
  intros x Hx. rewrite H3 by done. apply documents_storages; [by apply Hdoc|done].
Qed.
(** A crash while the storages are written. *)
Lemma unpublished_atomic tid jid exports before l crashed fs :
  exportable (x_uuid_text X) (x_is_uuid X) tid (x_journal_to_vec X) (x_journal_from_slice X) exports →
  clean (x_uuid_text X) tid jid exports before → Forall storage_action l → fs_crash l before crashed →
  rtc (λ a b, fs_crash (recover a).1 a b) crashed fs →
  ∃ after report, fp_run recover fs = (after, inr report) ∧ has_journals after [] ∧
    ((∀ x, x ∈ exports → fs_nodes after !! px_rel x = fs_nodes before !! px_rel x) ∨
     (∀ x, x ∈ exports → fs_nodes after !! px_rel x = Some (File (px_markdown x)))).
Proof.
  intros Hex Hclean Hl Hc Hrec.
  destruct (published_atomic tid jid exports (mret tt : FP unit) before crashed crashed fs Hex Hclean)
    as (after & report & H1 & H2 & H3 & _); [by eapply storage_crash|by intros f a []%elem_of_nil|constructor|done|].
  by exists after, report.
Qed.

Lemma finalize_touches (K : list RawPath) prepared v :
  (∀ rel, rel ∈ K → place rel ≠ []) → Forall (λ x, pe_rel x ∈ K) prepared →
  (∀ rel, rel ∈ K → is_Some (vs_document_ids v !! rel)) →
  touches_storage (λ fs, (finalize_exports X prepared v fs).2).
Proof.
  intros HK Hin Hk f a Ha.
  destruct (storing_finalize X K (vs_uuids v) HK prepared Hin v f (conj Hk eq_refl)) as [Hst _].
  rewrite Forall_forall in Hst. by apply Hst.
Qed.

(** C16: The export of several documents is all or nothing.  The requests name
    documents that the vault knows and pass their checks; the program may then be
    stopped at any point, inside a write too, while it saves the sessions, writes
    and installs the texts, or records what it published; recoveries may be
    stopped as well.  The next recovery that runs to its end succeeds and leaves
    no journal; every document whose text differed has its old file, or every one
    has its new text; the latter when the operation had succeeded. *)
Theorem export_all_or_nothing requests v before prepared crashed fs :
  let m := export_markdown_transaction X requests v before in
  checked requests v before prepared →
  clean (x_uuid_text X) (x_new_v4 X (vs_uuids v)) (x_new_v4 X (S (vs_uuids v))) (to_publish prepared) before →
  fs_crash m.2.1 before crashed → rtc (λ a b, fs_crash (recover a).1 a b) crashed fs →
  ∃ after report, fp_run recover fs = (after, inr report) ∧ has_journals after [] ∧
    ((∀ x, x ∈ to_publish prepared → fs_nodes after !! px_rel x = fs_nodes before !! px_rel x) ∨
     (∀ x, x ∈ to_publish prepared → fs_nodes after !! px_rel x = Some (File (px_markdown x)))) ∧
    (∀ outcomes, m.2.2 = inr outcomes → crashed = fs_exec_all m.2.1 before →
     ∀ x, x ∈ to_publish prepared → fs_nodes after !! px_rel x = Some (File (px_markdown x))).
Proof.
  intros m Hck Hclean Hc Hrec. destruct (ck_prepared _ _ _ _ Hck) as (v1 & l1 & seen & E).
  assert (∀ request, request ∈ requests → place (xr_path request) ≠ []) as Hne.
  { intros r Hr Hp. destruct (ck_documents _ _ _ _ Hck r Hr) as (_ & name & Hn & _). by rewrite Hp in Hn. }
  destruct (export_program X requests v before v1 l1 seen prepared) as (l0 & v2 & Hl0 & Hn & Hin & Hk & Hm); [|done|].
  { intros r Hr. split; [by apply (ck_known _ _ _ _ Hck)|by apply Hne]. }
  fold m in Hm. pose proof (published_exportable (x_new_v4 X (vs_uuids v)) _ _ _ _ Hck Hin) as Hex.
  pose proof (λ c, unpublished_atomic _ _ _ before l0 c fs Hex Hclean Hl0) as Hearly.
  destruct Hm as [[El [e Er]]|[El Er]].
  { rewrite El in Hc. destruct (Hearly crashed Hc Hrec) as (after & report & H1 & H2 & H3).
    exists after, report. split_and!; [done..|]. intros outcomes. by rewrite Er. }
  set (mid := fs_exec_all l0 before) in *.
  assert (changes_only vault_path before mid) as Hmid by (eapply storage_crash; [exact Hl0|apply crash_end]).
  set (finalize := λ fs, (finalize_exports X prepared (drawn v2) fs).2).
  pose proof (publish_program X prepared v2 mid) as Hprog. rewrite Hn in Hprog. fold finalize (to_publish prepared) in Hprog.
  assert (touches_storage finalize) as Hq.
  { apply (finalize_touches (xr_path <$> requests)); [|done..]. intros rel (r & -> & Hr)%list_elem_of_fmap. by apply Hne. }
  pose proof (λ c, published_atomic _ _ _ finalize before mid c fs Hex Hclean Hmid Hq) as Hlate. cbv zeta in Hlate.
  rewrite Hprog in El, Er. rewrite El in Hc.
  assert (∃ after report, fp_run recover fs = (after, inr report) ∧ has_journals after [] ∧
    ((∀ x, x ∈ to_publish prepared → fs_nodes after !! px_rel x = fs_nodes before !! px_rel x) ∨
     (∀ x, x ∈ to_publish prepared → fs_nodes after !! px_rel x = Some (File (px_markdown x)))))
    as (after & report & H1 & H2 & H3).
  { apply crash_app in Hc as [Hc|Hc]; [by apply (Hearly crashed)|].
    destruct (Hlate crashed Hc Hrec) as (after & report & H1 & H2 & H3 & _). by exists after, report. }
  exists after, report. split_and!; [done..|]. intros outcomes Hout Hend. rewrite Er in Hout.
  rewrite El, exec_app in Hend. fold mid in Hend. subst crashed.
  destruct (Hlate _ (crash_end _ _) Hrec) as (after' & report' & H4 & _ & _ & H5).
  rewrite H1 in H4. injection H4 as <- <-. apply (H5 outcomes). unfold fp_run.
  destruct (publish _ _ _ _ _ finalize mid) as [l3 r3]. simpl in *. by rewrite Hout.
Qed.
End atomicity.

(** ** Examples *)

(** A codec of journals. *)
#[export] Instance ExportJournalEntry_eq_dec : EqDecision ExportJournalEntry.
Proof. solve_decision. Defined.
#[export] Instance DurableJournal_eq_dec : EqDecision DurableJournal.
Proof. solve_decision. Defined.
#[export] Instance DurableJournal_countable : Countable DurableJournal.
Proof.
  refine (inj_countable' (λ j, match j with
    | JournalExport entries => inl ((λ e, (je_target e, je_pending e, je_backup e)) <$> entries)
    | JournalRename from to id => inr (inl (from, to, id))
    | JournalDelete path id => inr (inr (path, id))
    end) (λ x, match x with
    | inl entries => JournalExport ((λ e, mkExportEntry e.1.1 e.1.2 e.2) <$> entries)
    | inr (inl (from, to, id)) => JournalRename from to id
    | inr (inr (path, id)) => JournalDelete path id
    end) _).
  intros [entries|from to id|path id]; [|done..]. f_equal. rewrite <-list_fmap_compose.
  induction entries as [|[] entries IH]; simpl; by f_equal.
Defined.
Fixpoint positive_bytes (p : positive) : list Byte.byte :=
  match p with
  | xH => []
  | xO p => Byte.x00 :: positive_bytes p
  | xI p => Byte.x01 :: positive_bytes p
  end.
Fixpoint bytes_positive (b : list Byte.byte) : positive :=
  match b with
  | [] => xH
  | Byte.x00 :: b => xO (bytes_positive b)
  | _ :: b => xI (bytes_positive b)
  end.
Lemma positive_roundtrip p : bytes_positive (positive_bytes p) = p.
Proof. induction p; simpl; by f_equal. Defined.

(** With a codec of envelopes, the snapshot that is read back, and a codec of
    journals. *)
Definition durable_saving (encode : Envelope → string + list Byte.byte)
    (decode : list Byte.byte → string + Envelope) (saved : SnapshotError + SessionSnapshot)
    (to_vec : DurableJournal → option (list Byte.byte))
    (from_slice : list Byte.byte → option DurableJournal) : External := {|
  x_inc := true; x_graphemes := byte_graphemes;
  x_encode := encode; x_decode := decode;
  x_list_style := λ _, []; x_fence_style := λ _, []; x_debug_info := λ _, EmptyString;
  x_key_order := elements; x_id_order := elements;
  x_snap_to_vec := λ _, inr [Byte.x05];
  x_snap_from_slice := λ _, match saved with inl _ => inl EmptyString | inr snap => inr snap end;
  x_batch_json := λ _, Some []; x_page_bytes := λ _, None; x_request_json := λ _ _ _ _ _ _, None;
  x_checksum := sum_checksum; x_rkyv_to_bytes := small_to_bytes; x_rkyv_access := small_access;
  x_state_to_bytes := λ _, Some []; x_state_access := λ _, None;
  x_id_text := to_be_bytes 16; x_parse_id := λ b, if decide (length b = 16) then Some (uuid_from_bytes b) else None;
  x_uuid_text := λ _, "u"%string; x_is_uuid := λ _, true;
  x_journal_to_vec := to_vec; x_journal_from_slice := from_slice;
  x_from_utf8 := λ b, Some (Byte.to_N <$> b);
  x_peer_hash := 9; x_new_v4 := λ n, N.of_nat (S n);
  x_walk_order := λ l, l; x_path_order := elements;
|}.
(** The sessions of the runs below are empty. *)
Definition durable_with : (DurableJournal → option (list Byte.byte)) → (list Byte.byte → option DurableJournal) →
    External := durable_saving one_byte raw_decode (save_snapshot one_byte (session_new 9)).
Definition durable_external : External :=
  durable_with (λ j, Some (positive_bytes (encode j))) (λ b, decode (bytes_positive b)).

(** A vault that saves the session of [SessionDoc.sample_session]: one block, and
    operations that are buffered or wait. *)
Definition storing_external : External :=
  durable_saving sample_encode sample_decode (save_snapshot sample_encode sample_session)
    (λ _, None) (λ _, None).

Lemma sample_storable : storable storing_external sample_session.
Proof.
  split; [|apply sample_fresh|exact sample_codec|].
  - exists sample_operations, [mkOpId 1 3]. split; [exact sample_reached|]. split; [exact sample_payloads|exact sample_undisputed].
  - intros snap b E _. change (save_snapshot sample_encode sample_session = inr snap) in E. simpl. by rewrite E.
Defined.


(** Two open documents without files, and a crash when the first text is in
    place. *)
Definition note_path (name : string) : RawPath := [Normal name].
Definition two_documents : VaultSession :=
  mkVault 1 9
    (list_to_map [(note_path "a.md", session_new 9); (note_path "b.md", session_new 9)])
    (list_to_map [(note_path "a.md", 5%N); (note_path "b.md", 6%N)]) ∅ 2.
Definition two_revision : RevisionToken :=
  match Batch.revision_for one_byte (to_bytes (x_snap_to_vec durable_external)) (session_new 9) with
  | inr r => r
  | inl _ => []
  end.
Definition two_requests : list DocumentExportRequest :=
  [mkExportRequest (note_path "a.md") 5 two_revision None; mkExportRequest (note_path "b.md") 6 two_revision None].
Definition no_files : Fs := mkFs ∅ false.
Definition two_prepared : list PreparedExport :=
  match (wm_fold (prepare_export durable_external) two_requests (∅, []) two_documents no_files).2.2 with
  | inr (_, prepared) => prepared
  | inl _ => []
  end.
Definition two_actions : list FsAction :=
  (export_markdown_transaction durable_external two_requests two_documents no_files).2.1.
Definition two_crashed : Fs := fs_exec_all (take 17 two_actions) no_files.

Lemma two_checked : checked durable_external two_requests two_documents no_files two_prepared.
Proof.
  split.
  - intros r [->|[->|[]%elem_of_nil]%elem_of_cons]%elem_of_cons; apply (bool_decide_unpack _); by vm_compute.
  - intros r [->|[->|[]%elem_of_nil]%elem_of_cons]%elem_of_cons; (split; [done|eexists; by split]).
  - assert (match (wm_fold (prepare_export durable_external) two_requests (∅, []) two_documents no_files).2.2 with
      inl _ => false | inr _ => true end = true) as H by (vm_compute; reflexivity).
    unfold two_prepared. destruct (wm_fold _ _ _ _ _) as [v1 [l1 [e|[seen prepared]]]]; [done|].
    by exists v1, l1, seen.
  - apply (bool_decide_unpack _). by vm_compute.
Defined.

Lemma export_all_or_nothing_witness :
  path_exists ["a.md"]%string two_crashed = true ∧ path_exists ["b.md"]%string two_crashed = false ∧
  length (to_publish two_prepared) = 2 ∧
  ∃ after report, fp_run (recover_transactions durable_external) two_crashed = (after, inr report) ∧
    ((∀ x, x ∈ to_publish two_prepared → fs_nodes after !! px_rel x = fs_nodes no_files !! px_rel x) ∨
     (∀ x, x ∈ to_publish two_prepared → fs_nodes after !! px_rel x = Some (File (px_markdown x)))).
Proof.
  do 3 (split; [by vm_compute|]).
  destruct (export_all_or_nothing durable_external) with (requests := two_requests) (v := two_documents)
    (before := no_files) (prepared := two_prepared) (crashed := two_crashed) (fs := two_crashed)
    as (after & report & H1 & _ & H3 & _).
  - intros id. by split_and!.
  - intros j. exists (positive_bytes (encode j)). split; [done|]. simpl. by rewrite positive_roundtrip, decode_encode.
  - apply two_checked.
  - split_and!; [by apply no_journals_if; vm_compute|by vm_compute|].
    intros x Hx. exact (lookup_empty _).
  - apply (JournalProps.fs_crash_take 17).
  - apply rtc_refl.
  - exists after, report. split; [exact H1|exact H3].
Defined.
