(* ===== verification/Bugs.v ===== *)
(** * Where sessions, ingestion and vaults go wrong

    Concrete runs of the definitions, one module per component, that lose an
    edit, repeat an identity or block a vault. *)

From S2P Require Import Prelude Core Sequence Mark Sync Table Diff Text MarkOps Frontmatter.
From S2P Require Import Codec Draft Block Document DocumentCache SessionWire Session.
From S2P Require Import SessionTrace SessionLocal SessionClock DocumentTwin SessionPull.
From S2P Require Import SessionProps Snapshot SnapshotProps Storage Match Chars Inline Markdown.
From S2P Require Import Serialize.
From S2P Require Import Ingest IngestProps Cursor Batch Journal JournalProps Vault.
From S2P Require Import VaultProps VaultDurable.
From Stdlib Require Import Strings.Byte.

(** ** Where sessions go wrong

    Concrete runs of the session: what happens to operations that arrive before
    the block they edit, to waiting operations at a checkpoint, and to a session
    that meets its own operations again. *)

Module SessionBugs.

(** *** A codec for the runs *)

(** Envelopes are encoded by their kind. *)
Definition op_code (env : Envelope) : Byte.byte :=
  match env_body env with
  | Doc (InsertBlock _ _ _ _ (mkSkeleton _ (SkRawBlock "y"))) => Byte.x04
  | Doc (InsertBlock _ _ _ _ _) => Byte.x01
  | Doc (InsertText _ _ _) => Byte.x02
  | Doc (InitializeFrontmatter (mkOpId _ 1) _) => Byte.x05
  | Doc (InitializeFrontmatter _ _) => Byte.x06
  | _ => Byte.x03
  end.
Definition code_encode (env : Envelope) : string + list Byte.byte := inr [op_code env].
(** The envelopes of a run, by their code. *)
Definition code_decode (l : list Envelope) (b : list Byte.byte) : string + Envelope :=
  match b with
  | [x] => match list_find (λ e, op_code e = x) l with Some (_, e) => inr e | None => inl "unknown" end
  | _ => inl "unknown"
  end.

Definition local (op : LocalOp) (s : CollaborativeDocument) : CollaborativeDocument :=
  (run_local true byte_graphemes code_encode op s).1.
Definition receive_ops (envs : list Envelope) (ops : list Operation) (s : CollaborativeDocument) :
    CollaborativeDocument * (SessionError + SessionApplyResult) :=
  apply_remote true byte_graphemes (code_decode envs) (mkChanges StateVectorOps.new ops) default_limits s.

(** What a session shows: the text or the raw source of its blocks. *)
Definition shown (s : CollaborativeDocument) : list string :=
  (λ b, match blk_kind b with
        | RawBlock raw => raw
        | CodeFence _ _ text => text
        | k => match block_text_seq k with Some t => paragraph_visible_string t | None => EmptyString end
        end) <$> blocks_in_order (s_document s).
Definition log (s : CollaborativeDocument) : list (OpId * list Byte.byte) := btree_iter (ops (s_sync s)).

Definition first_id : OpId := mkOpId 1 1.
Definition first_block : BlockId := block_id_from_op first_id.

(** *** Edits that arrive before their block *)

Definition paragraph_env : Envelope :=
  wire (InsertBlock None None first_id None (mkSkeleton first_block (SkParagraph EmptyString))).
Definition text_env : Envelope :=
  wire (InsertText first_id first_block (chain_text (mkOpId 1 2) None None ["a"%string])).

Definition author : CollaborativeDocument :=
  local (LInsertBlock None None (Paragraph sequence_new)) (session_new 1).
Definition editor : CollaborativeDocument :=
  local (LInsertText first_block 0 "a") (receive_ops [paragraph_env] (outbox (s_sync author)) (session_new 2)).1.

(** An edit that arrives before the block it edits is lost: peer 1 inserts
    a paragraph, peer 2 receives it and types a letter.  A third peer that
    receives the letter first logs it as applied, although its document has no
    such block, and never applies it again.  With the same two operations
    received in the two orders, both reported as applied, two sessions have
    the same log and different documents. *)
Theorem early_text_is_lost :
  let operations := outbox (s_sync author) in
  let edits := outbox (s_sync editor) in
  let envs := [paragraph_env; text_env] in
  let r1 := receive_ops envs operations (session_new 3) in
  let r2 := receive_ops envs edits r1.1 in
  let q1 := receive_ops envs edits (session_new 3) in
  let q2 := receive_ops envs operations q1.1 in
  shown editor = ["a"%string] ∧
  q1.2 = inr (mkSessionResult [mkOpId 1 2] []) ∧ q2.2 = inr (mkSessionResult [first_id] []) ∧
  log r2.1 = log q2.1 ∧ deferred_count q2.1 = 0 ∧
  shown r2.1 = ["a"%string] ∧ shown q2.1 = [""%string].
Proof. vm_compute. by split_and!. Qed.

(** *** Checkpoints and waiting operations *)

Definition raw_env : Envelope :=
  wire (InsertBlock None None first_id None (mkSkeleton first_block (SkRawBlock "x"))).
(** Peer 2 replaces the raw block after it has seen peer 1's operation. *)
Definition replacer : CollaborativeDocument :=
  local (LReplaceRawBlock first_block "z")
    (receive_ops [raw_env] [mkOperation first_id [Byte.x01]] (session_new 2)).1.
Definition replace_env : Envelope :=
  wire (ReplaceRawBlock first_id first_block (mkOpId 1 2) "z" (observe_vector first_id StateVectorOps.new)).
Definition keep_none : CheckpointRequest := mkCheckpointRequest 0 [] Sync.KeepAll.

(** A checkpoint prunes operations that were logged but not yet applied: a
    session that received a replacement before the operation it depends on
    keeps it waiting, as it should; if its history is checkpointed before the
    dependency arrives, the replacement is never applied, while without the
    checkpoint it is.  The waiting envelope is left behind and is missing from
    snapshots. *)
Theorem checkpoint_drops_deferred :
  let envs := [raw_env; replace_env] in
  let w := (receive_ops envs (outbox (s_sync replacer)) (session_new 3)).1 in
  let c := (checkpoint_history keep_none w).1 in
  let operations := [mkOperation first_id [Byte.x01]] in
  let without := (receive_ops envs operations w).1 in
  let with_checkpoint := (receive_ops envs operations c).1 in
  shown replacer = ["z"%string] ∧ deferred_count w = 1 ∧
  shown without = ["z"%string] ∧ shown with_checkpoint = ["x"%string] ∧
  size (s_pending_envelopes with_checkpoint) = 1 ∧
  match save_snapshot code_encode with_checkpoint with inr snap => snap_deferred snap = [] | inl _ => False end.
Proof. vm_compute. by split_and!. Qed.

(** *** A session that meets its own operations again *)

Definition other_env : Envelope :=
  wire (InsertBlock None None first_id None (mkSkeleton first_block (SkRawBlock "y"))).

(** Remote operations of the own peer do not advance the clock: a session
    that was restored from before its last operation and receives that
    operation back from a peer accepts it and shows the block, but allocates
    the same id for its next edit.  The edit overwrites the operation in the
    log and does not show; the two peers have the same frontier, different
    payloads under one id, and nothing to send each other. *)
Theorem own_id_used_twice :
  let sent := local (LInsertBlock None None (RawBlock "x")) (session_new 1) in
  let peer2 := (receive_ops [raw_env] (outbox (s_sync sent)) (session_new 2)).1 in
  let restored := (receive_ops [raw_env] (outbox (s_sync sent)) (session_new 1)).1 in
  let edited := local (LInsertBlock None None (RawBlock "y")) restored in
  shown restored = ["x"%string] ∧ contains (s_sync restored) (peek_next_id restored) = true ∧
  shown edited = ["x"%string] ∧ log edited = [(first_id, [Byte.x04])] ∧ log peer2 = [(first_id, [Byte.x01])] ∧
  encode_changes_since (session_state_vector peer2) (s_sync edited) =
    inr (mkChanges (session_state_vector peer2) []).
Proof. vm_compute. by split_and!. Qed.

(** *** Frontmatter and imports *)

Definition title (v : string) : Frontmatter :=
  match fm_set (chars "title") (Some (chars v)) first_id fm_empty with inr fm => fm | inl _ => fm_empty end.

(** Two peers initialise the frontmatter at the same time: the envelope that
    arrives first stays, so the two sessions differ in the end. *)
Theorem concurrent_frontmatter_diverges :
  let a := local (LInitializeFrontmatter (title "a")) (session_new 1) in
  let b := local (LInitializeFrontmatter (title "b")) (session_new 2) in
  let envs := [wire (InitializeFrontmatter first_id (title "a"));
               wire (InitializeFrontmatter (mkOpId 1 2) (title "b"))] in
  let a' := (receive_ops envs (outbox (s_sync b)) a).1 in
  let b' := (receive_ops envs (outbox (s_sync a)) b).1 in
  log a' = log b' ∧ frontmatter_field (chars "title") (s_document a') = Some (chars "a") ∧
  frontmatter_field (chars "title") (s_document b') = Some (chars "b").
Proof. vm_compute. by split_and!. Qed.

(** A peer that imports a checkpointed state in which it has typed text gets
    the id of that text again: the search for its largest counter skips text
    units, and the state vector is not part of the import. *)
Theorem import_reuses_text_id :
  let s := local (LInsertParagraph None None "ab") (session_new 1) in
  let c := (checkpoint_history keep_none s).1 in
  match import_state true byte_graphemes (code_decode []) (from_document (s_document c))
          (applied_ops (s_sync c)) [] [] 1 true with
  | inr t => peek_next_id t = mkOpId 2 1 ∧ shown t = ["ab"%string] ∧
             shown (local (LInsertText first_block 2 "c") t) = ["ab"%string]
  | inl _ => False
  end.
Proof. vm_compute. by split_and!. Qed.

End SessionBugs.
(** ** What ingestion loses

    Files whose edits do not reach the session: a text that is misread because
    of the order of repeated insertions, and edits of matched headings and lists
    that are never made.  In each case the document prints the new file from its
    source regions while its blocks say something else. *)

Module IngestBugs.

Definition plain_info (info : option string) : string := default EmptyString info.
Definition reads (text : string) : VM nat :=
  ingest_content true characters one_byte plain_info elements elements (chars text).
(** The session after reading the files one after the other. *)
Definition after_files (texts : list string) : CollaborativeDocument :=
  fold_left (λ s text, (reads text s).1) texts (session_new 1).
(** What the document prints from its source regions and from its blocks. *)
Definition printed (s : CollaborativeDocument) : option string * option string :=
  (utf8 <$> serialize Exact (s_document s),
   utf8 <$> serialize_with_config (mkConfig Exact false) (s_document s)).

(** Three files whose edits are lost.  A file that says [b], then [ab], then
    [xab] leaves a paragraph that says [axb]; a heading that becomes one level
    deeper and a list whose item changes are matched and left as they are, and
    reading the file reports no operation.  The exact text shows the new file in
    all three cases. *)
Theorem file_edits_lost :
  printed (after_files ["b"; "ab"; "xab"]) = (Some "xab", Some "axb") ∧
  printed (after_files ["# one two three four"; "## one two three four"]) =
    (Some "## one two three four", Some "# one two three four") ∧
  printed (after_files ["- one two three four"; "- one two three five"]) =
    (Some "- one two three five", Some "- one two three four") ∧
  (reads "- one two three five" (after_files ["- one two three four"])).2 = inr 0.
Proof. by vm_compute. Qed.

End IngestBugs.

(** Two new sessions, one of which reads a file with a heading: it inserts the
    block and then its text, and the other one pulls both. *)
Definition heading_envelope : Envelope :=
  wire (InsertBlock None None (mkOpId 1 1) None
          (mkSkeleton (block_id_from_op (mkOpId 1 1)) (SkHeading 1 EmptyString))).
Definition title_envelope : Envelope :=
  wire (InsertText (mkOpId 1 1) (block_id_from_op (mkOpId 1 1)) (chain_text (mkOpId 2 1) None None ["a"%string])).
Definition heading_encode (env : Envelope) : string + list Byte.byte :=
  inr match env_body env with Doc (InsertText _ _ _) => [Byte.x02] | _ => [Byte.x01] end.
Definition heading_decode (b : list Byte.byte) : string + Envelope :=
  inr (if decide (b = [Byte.x02]) then title_envelope else heading_envelope).
Definition read_heading : CollaborativeDocument :=
  (ingest_content true characters heading_encode IngestBugs.plain_info elements elements (chars "# a") (session_new 1)).1.
Definition heading_commits : list (Envelope * Operation) :=
  [(heading_envelope, mkOperation (mkOpId 1 1) [Byte.x01]); (title_envelope, mkOperation (mkOpId 2 1) [Byte.x02])].

Definition heading_inserted : CollaborativeDocument :=
  committed true characters heading_envelope (mkOpId 1 1) 2 [Byte.x01] (session_new 1).
Definition heading_read : CollaborativeDocument :=
  committed true characters title_envelope (mkOpId 2 1) 3 [Byte.x02]
    (set_document (ensure_block_index (s_document heading_inserted)) heading_inserted).

Lemma heading_trace : local_trace true characters heading_encode (session_new 1) heading_commits heading_read.
Proof.
  eapply (trace_commit _ _ _ _ _ _ 2%N); [|done|].
  { by apply (insert_block_ok characters (session_new 1) None None None (SkHeading 1 EmptyString)); [..|intros [_ ?]]. }
  eapply trace_query; [apply cache_only_ensure|]. eapply (trace_commit _ _ _ _ _ _ 3%N); [|done|constructor].
  by apply (insert_text_ok characters (set_document (ensure_block_index (s_document heading_inserted)) heading_inserted)
    (mkOpId 1 1) (block_id_from_op (mkOpId 1 1)) None None ["a"%string]).
Defined.

Lemma ingest_reaches_peers_witness :
  let message := mkChanges StateVectorOps.new
    [mkOperation (mkOpId 1 1) [Byte.x01]; mkOperation (mkOpId 2 1) [Byte.x02]] in
  encode_changes_since StateVectorOps.new (s_sync read_heading) = inr message ∧
  ∃ r', apply_remote true characters heading_decode message default_limits (session_new 2) =
      (r', inr (mkSessionResult [mkOpId 1 1; mkOpId 2 1] [])) ∧
    doc_blocks (s_document r') = doc_blocks (s_document read_heading) ∧
    doc_frontmatter (s_document r') = doc_frontmatter (s_document read_heading).
Proof.
  assert (Hsrc : resourced heading_read read_heading).
  { exists (doc_source (s_document read_heading)). vm_compute. reflexivity. }
  destruct (ingest_reaches_peers true characters heading_encode heading_decode IngestBugs.plain_info elements elements
    (chars "# a") (session_new 1) (session_new 2) default_limits 0 (clock_ok_new 1 true) (in_step_new 1 2) twin_new)
    as [_ H].
  destruct (H heading_commits heading_read heading_trace Hsrc) as (_ & _ & Hpull); [repeat constructor|].
  apply Hpull; [repeat constructor|done|reflexivity].
Defined.

(** ** Renames that lose or block a vault

    Five runs of the operations of a vault that do not do what their comments
    say: a rename that leaves a journal no recovery can finish, the same after a
    crash inside the identity file or the vector of a peer, a rename of the extension that deletes the
    stored session, and two spellings of one path that are two documents. *)

Module VaultBugs.

(** The state, the files and the answer after an operation. *)
Definition after_call {A} (m : WM A) (x : VaultSession * Fs) : (VaultSession * Fs) * (VaultError + A) :=
  let '(v, (l, r)) := m x.1 x.2 in ((v, fs_exec_all l x.2), r).
Definition answer {A} (d : A) (r : VaultError + A) : A := match r with inr x => x | inl _ => d end.

(** A codec for the one journal of a run. *)
Definition with_journal (j : DurableJournal) : External := durable_with (λ _, Some [Byte.x07]) (λ _, Some j).
Definition a_to_b : External := with_journal (JournalRename ["a.md"] ["b.md"] 3).
(** [VaultSession::open], with what it leaves on disk. *)
Definition start_again (X : External) (fs : Fs) : Fs * (VaultError + VaultSession) := fp_run (open X) fs.
Definition opened_vault (X : External) : VaultSession * Fs :=
  let '(fs, r) := start_again X (mkFs ∅ false) in (answer sample_start r, fs).
(** A new vault in which [a.md] was created, and the revision of [a.md]. *)
Definition one_document (X : External) : VaultSession * Fs :=
  (after_call (create_markdown X (note_path "a.md") []) (opened_vault X)).1.
Definition a_revision (X : External) (x : VaultSession * Fs) : RevisionToken :=
  answer [] (after_call (revision X (note_path "a.md")) x).2.

(** *** A rename onto a name that had a document *)

(** The identity of the missing file [b.md] was asked for. *)
Definition asked : VaultSession * Fs :=
  (after_call (document_id a_to_b (note_path "b.md")) (one_document a_to_b)).1.
Definition renamed : (VaultSession * Fs) * (VaultError + DocumentHandle) :=
  after_call (rename_markdown a_to_b (note_path "a.md") (note_path "b.md") (a_revision a_to_b asked) None) asked.

(** The rename fails after its journal is written; from then on no recovery
    succeeds, and the vault cannot be opened: the journal stays. *)
Theorem rename_to_known_name_blocks :
  renamed.2 = inl (RecoverableTransaction (transaction_root ++ ["u.json"]%string) (DocumentIdMismatch 3 5)) ∧
  let again := start_again a_to_b renamed.1.2 in
  again.2 = inl (DocumentIdMismatch 3 5) ∧ (start_again a_to_b again.1).2 = inl (DocumentIdMismatch 3 5) ∧
  map_to_list (fs_nodes again.1) = map_to_list (fs_nodes renamed.1.2).
Proof. split; [|intros again]; [vm_compute; reflexivity|]. split_and!; vm_compute; reflexivity. Qed.

(** *** A crash inside the identity of the new name *)

Definition rename_actions : list FsAction :=
  (rename_markdown a_to_b (note_path "a.md") (note_path "b.md") (a_revision a_to_b (one_document a_to_b)) None
     (one_document a_to_b).1 (one_document a_to_b).2).2.1.
(** The process stops while it writes the identity of [b.md]; half of it is on
    disk. *)
Definition torn_identity : Fs :=
  alter_nodes <[document_id_path ["b.md"]%string := File (replicate 8 Byte.x00)]>
    (fs_exec_all (take 8 rename_actions) (one_document a_to_b).2).

Lemma torn_identity_crash : fs_crash rename_actions (one_document a_to_b).2 torn_identity.
Proof.
  assert (drop 8 rename_actions = FsWrite (document_id_path ["b.md"]%string) (to_be_bytes 16 3) :: drop 9 rename_actions)
    as E by (vm_compute; reflexivity).
  rewrite <-(take_drop 8 rename_actions) at 1. rewrite E.
  generalize (drop 9 rename_actions). intros rest. unfold torn_identity.
  generalize (take 8 rename_actions) (one_document a_to_b).2. intros l fs. revert fs.
  induction l as [|a l IH]; intros fs; [|apply fs_crash_later, IH].
  apply fs_crash_inside, fs_torn_write.
Qed.

(** A rename that crashes there cannot be recovered either, although the
    document is untouched. *)
Theorem torn_identity_blocks :
  fs_crash rename_actions (one_document a_to_b).2 torn_identity ∧
  fs_read ["a.md"]%string torn_identity = Some [] ∧
  let again := start_again a_to_b torn_identity in
  again.2 = inl (InvalidIdentity (document_id_path ["b.md"]%string) (replicate 8 Byte.x00)) ∧
  map_to_list (fs_nodes again.1) = map_to_list (fs_nodes torn_identity).
Proof.
  split; [apply torn_identity_crash|]. split; [vm_compute; reflexivity|]. intros again.
  split; vm_compute; reflexivity.
Qed.

(** *** A rename of the extension *)

Definition to_markdown : External := with_journal (JournalRename ["a.md"] ["a.markdown"] 3).
Definition extension_changed : (VaultSession * Fs) * (VaultError + DocumentHandle) :=
  after_call (rename_markdown to_markdown (note_path "a.md") (note_path "a.markdown")
    (a_revision to_markdown (one_document to_markdown)) None) (one_document to_markdown).

(** Both names have one directory for their session and one for their state, so
    the rename, which succeeds, deletes what it has just saved. *)
Theorem extension_rename_loses_session :
  session_storage_path ["a.md"]%string = session_storage_path ["a.markdown"]%string ∧
  state_path_for ["a.md"]%string = state_path_for ["a.markdown"]%string ∧
  path_exists (session_storage_path ["a.md"]%string) (one_document to_markdown).2 = true ∧
  (match extension_changed.2 with inr handle => Some (hd_document_id handle) | inl _ => None end) = Some 3%N ∧
  path_exists ["a.markdown"]%string extension_changed.1.2 = true ∧
  path_exists (session_storage_path ["a.markdown"]%string) extension_changed.1.2 = false.
Proof. split_and!; vm_compute; reflexivity. Qed.

(** *** Two spellings of one path *)

Definition spelled : VaultSession * Fs :=
  (after_call (revision a_to_b [CurDir; Normal "a.md"]) (one_document a_to_b)).1.

(** [./a.md] and [a.md] are the same file, but two open sessions of the same
    peer: edits of one and of the other get the same ids. *)
Theorem two_spellings_two_sessions :
  normalize_rel [CurDir; Normal "a.md"] = inr [CurDir; Normal "a.md"] ∧
  place [CurDir; Normal "a.md"] = place (note_path "a.md") ∧
  match vs_docs spelled.1 !! [CurDir; Normal "a.md"], vs_docs spelled.1 !! note_path "a.md" with
  | Some s, Some s' => s_peer s = s_peer s' ∧ peek_next_id s = peek_next_id s'
  | _, _ => False
  end.
Proof. split_and!; vm_compute; [reflexivity..|]. split; reflexivity. Qed.

(** *** A crash inside the peer id *)

Definition first_actions : list FsAction := (open a_to_b (mkFs ∅ false)).1.
Definition torn_peer : Fs := alter_nodes <[peer_id_path := File []]> (fs_exec_all (removelast first_actions) (mkFs ∅ false)).

(** The first start stops while it writes the peer id: the file is empty, and no
    later start opens the vault. *)
Theorem torn_peer_blocks :
  last first_actions = Some (FsWrite peer_id_path (peer_text 9)) ∧
  let again := start_again a_to_b torn_peer in
  again.2 = inl (InvalidPeerId []) ∧ map_to_list (fs_nodes again.1) = map_to_list (fs_nodes torn_peer).
Proof. split; [vm_compute; reflexivity|]. intros again. split; vm_compute; reflexivity. Qed.

End VaultBugs.
